(* ===== verification/_CoqProject ===== *)
-Q . S2P
Prelude.v
PyStr.v
Json.v
FieldMask.v
FieldMaskSpec.v
ResetMask.v
MaskHeap.v
MaskParser.v
MaskParserInv.v
MaskRoundtrip.v
MaskBuild.v
MaskMarshal.v
MaskTheorems.v
Bytes.v
Wire.v
WireSpec.v
WireSkip.v
WireTheorems.v
ValueCodec.v
Resolver.v
Sanitizer.v
Metadata.v
Methods.v
PythonicNames.v
TokenCache.v
PyText.v
Keepalive.v
Registry.v
ServiceError.v
RpcStatus.v
Request.v
RequestLoop.v
RequestTheorems.v
Operation.v
OperationTheorems.v
Renewable.v
ChannelPool.v
Routing.v
Receivers.v
FileBearer.v
AsyncFileBearer.v
Message.v
MessageInv.v
MessageOps.v
MessageParse.v
MessageSteps.v
MessageCanon.v
MessageRoundtrip.v
MessageEncode.v
MessageMerge.v
UpdateMask.v
UpdateMaskSpec.v
MessageTheorems.v
UpdateTheorems.v
MessageClone.v
PyNumber.v
PyTime.v
Base64.v
JsonFormat.v
JsonScalars.v
JsonRoundtrip.v
JsonWellKnown.v
JsonSafe.v
JsonTheorems.v
MessageObjects.v
MessageObjectsInv.v
MessageObjectsSteps.v
MessageObjectsWork.v
MessageObjectsOps.v
MessageObjectsApi.v
MessageObjectsTheorems.v
Stream.v
StreamInv.v
StreamTheorems.v
WellKnown.v
Extensions.v
ExtensionFields.v
ExtensionTheorems.v
Submission.v
Executor.v
