(* ===== verification/Prelude.v ===== *)
(** * Verification of the Nebius Python SDK

    The SDK lets Python programs call the Nebius API over gRPC.  Its own core
    logic, and the part that is verified here, is

    - the protobuf runtime of [src/nebius/base/protos/]: the wire format
      ([wire.py]), the value codecs ([codec.py]), the messages of the generated
      classes ([direct.py], [containers.py]) and their extensions
      ([extensions.py]), their JSON form ([json_format.py]), the registry of
      classes ([registry.py]), the Python names of protobuf identifiers
      ([pythonic_names.py]) and the Python views of times ([well_known_direct.py]);
    - the field masks of [src/nebius/base/fieldmask.py] and their textual form
      ([fieldmask_parser.py]), which updates send to say which fields change
      ([fieldmask_protobuf.py]);
    - the life of a call: the request with its retries, deadlines and
      cancellation ([aio/request.py]), the streaming call ([aio/stream.py]), the
      submission of both to the event loop of the SDK and the executor of that loop
      ([aio/_runtime.py]), the
      classification of errors
      ([aio/service_error.py], [aio/request_status.py],
      [base/_service_error.py]), the polling of long-running operations
      ([aio/operation.py]), the pool of transports and the lookup of addresses
      ([aio/channel.py], [aio/base.py], [aio/route.py]), keepalive settings
      ([aio/keepalive.py]);
    - authorization: the authenticator ([aio/authorization/token.py]) over token
      receivers ([aio/token/static.py], [file.py], [exchangeable.py]), the bearer
      that renews tokens in the background ([aio/token/renewable.py],
      [options.py]) and the bearers over the file cache
      ([aio/token/file_cache/renewable_bearer.py], [file_bearer.py],
      [async_renewable_bearer.py]);
    - the pieces between a call and the channel: service resolvers
      ([resolver.py]), call metadata ([metadata.py]), idempotency keys
      ([aio/idempotency.py]), method names and channel options ([methods.py],
      [options.py]), the token sanitizer ([token_sanitizer.py]), tokens and
      their file cache ([aio/token/token.py],
      [aio/token/file_cache/token_cache.py], [throttled_token_cache.py]).

    A message uses the codecs, a codec uses the reader and the writer; the full
    update of a message computes a [Mask] and sends its text in the metadata.
    A request asks an authenticator, which fetches from a receiver, leases a
    transport of the address its method resolves to, opens native calls and
    classifies their errors; a stream leases one for its one native call; an
    operation is polled by such requests.  The idempotency interceptor works on the
    metadata of a call, the throttled cache on the file cache.  The parser of a
    message hands the numbers that are no fields to its extension values.

    ** Files

    - [Prelude]: results, Python strings and dicts, shared lemmas and tactics.
      [PyStr], [Json], [Bytes]: the operations of Python's [str], [json] and
      [bytes] the code uses.
    - [FieldMask] ([fieldmask.py]: modules [FieldKey], [FieldPath], [Mask]; the
      record [Mask] is the tree of objects).  [FieldMaskSpec] and [ResetMask]
      say what the operations do to the set of patterns of a mask.  [MaskHeap]:
      [Mask._marshal] on an object graph with sharing and cycles.
    - [MaskParser] ([fieldmask_parser.py]: the lexer, the levels, the loop of
      [parse] over a heap of shared mask objects).  [MaskParserInv]: any input.
      [MaskRoundtrip], [MaskBuild], [MaskMarshal]: what [marshal] wrote.
      [MaskTheorems]: the properties of the field masks.
    - [Wire] ([wire.py]: modules [BinaryReader] and [BinaryWriter]).  [WireSpec]
      has the interfaces [Steady] (a read that is safe on any input) and [Codec]
      (a write and a read that agree), with an instance per primitive; the value
      codecs and the messages are proved against them.  [WireSkip]: skipping of
      unknown fields.  [WireTheorems]: the properties.
    - [ValueCodec] ([codec.py]).
    - [Message] ([direct.py], and the container operations it uses).  The class
      [Schema] stands for the generated classes: fields, nesting limits and
      names.  [MessageInv], [MessageOps], [MessageParse], [MessageSteps]: the
      invariant, kept by every operation and by parsing, that the codecs of
      [codec.py] have what it asks of a schema, and the step relation of a message.
      [MessageCanon], [MessageRoundtrip],
      [MessageEncode]: serialization.  [MessageMerge]: merging, field by field.
      [MessageTheorems]: the properties.
    - [MessageObjects] ([direct.py], [containers.py] and [RepeatedValues] of
      [extensions.py] once more): messages as objects of a store, with the getters
      that hand out nested messages and containers, the mutation callbacks and the
      shared reset masks.  [MessageObjectsInv] states the invariant of a store and
      what an operation may change; [MessageObjectsSteps], [MessageObjectsWork],
      [MessageObjectsOps] and [MessageObjectsApi] prove both of every operation;
      [MessageObjectsTheorems]: the step relation of user code and the properties.
    - [Extensions] ([extensions.py], and how [direct.py] parses extensions):
      registries and extension values.  [ExtensionFields]: what a registry keeps, and
      decoding and writing as those of fields, and reading back;
      [ExtensionTheorems]: the step relation and the properties.
    - [JsonFormat] ([json_format.py]: values, well-known types, dictionaries, in
      both directions), over [PyNumber] (decimal and binary64 numbers of Python
      and their texts), [PyTime] (civil dates) and [Base64].  [MessageClone]: a
      message that is filled field by field has the canonical form of its model.
      [JsonScalars], [JsonRoundtrip], [JsonWellKnown]: what is written is read
      back, for scalars, fields and well-known types.  [JsonSafe]: parsing of any
      value.  [JsonTheorems]: the properties.
    - [UpdateMask] ([get_full_update_reset_mask] of [direct.py], on a heap of
      shared masks), [UpdateMaskSpec] (the patterns a message has to reset, and
      why the walk finds them), [UpdateTheorems] ([fieldmask_protobuf.py] and
      the properties).
    - [PyText]: stripping, searching and decimal numbers of Python texts.
      [Keepalive] ([keepalive.py]), [Registry] ([registry.py]).
    - [ServiceError] (retry classification), [RpcStatus] (conversions of
      statuses).  [Request]: the flags of a request, one definition per section
      under its lock, and its deadlines.  [RequestLoop]: the retry loop and the
      authorization loop as a step relation, interleaved with native calls and
      with the threads that cancel or wait.  [RequestTheorems]: classification
      of native errors, and the instances.
    - [Operation]: updates and waits of one operation as tasks of a step
      relation, the limits of an update.  [OperationTheorems]: the error of a
      failed operation, the progress tracker, and the instances.
    - [Stream] ([stream.py]): the clocks of a stream (module [Deadlines]), its
      locked sections, and its tasks as step relations.  [StreamInv]: the invariant;
      [StreamTheorems]: the properties.
    - [Submission] ([_submit_to_loop] of [_runtime.py]): the threads and the callbacks
      that share one submission, as an executable step function whose reachable states
      are enumerated.
    - [Executor] ([DaemonThreadPoolExecutor] of [_runtime.py]): the queue, the workers
      and the thread that holds the lock, as a step relation with its invariant.
    - [Renewable] ([renewable.py]): the bearer as a record, the callers of
      [fetch] and the background loop as a step relation.
    - [ChannelPool]: the wrappers of native channels, leased, returned and closed
      by interleaved sections.  [Routing]: lookups by service, method and route
      over the resolvers, with their caches.
    - [Receivers]: the interface [Receiver], which the authenticator is proved
      against, with an instance per receiver (modules [Static], [TokenFile],
      [Exchange]).  [FileBearer]: the receivers over the cache of [TokenCache].
      [AsyncFileBearer]: the bearer that renews this cache in the background, as a
      step relation with its callers and the other processes at the file.
    - [WellKnown] ([well_known_direct.py]) over the dates of [PyTime].
    - [Resolver], [Sanitizer], [Metadata] (with [idempotency.py]), [Methods]
      (with [options.py]), [PythonicNames], [TokenCache] (with [token.py] and
      the throttled cache): one file each, model and properties.

    ** What the theorems show

    - Messages: every message reachable by assignments, clearing, merging,
      copying and parsing has typed slots and consistent oneofs; parsing ends on
      every input; serialization of an initialized message succeeds and parsing
      its result gives the canonical form of the message, with presence, oneofs
      and unknown fields; merging does to every field what protobuf asks.
    - Message objects: whatever operations user code runs to their end on the messages
      it ever got hold of, they stay a forest in which everybody calls back its holder; a
      change of a nested message is seen by all owners, unless it was made by
      [MergeFromString] in a message that its owner has absent (the relation
      [reachable] keeps the set of the messages that were parsed into); the fields of
      messages that do not contain one another do not see each other's changes;
      notifications end.  One theorem shows that [MergeFromString] does not tell the
      owners.
    - Extensions: the indexes of a registry agree and hold only declarations that
      belong there; extension values stay typed; extensions are written as fields with
      explicit presence are, and decoded so when what is stored without being present is
      a default, which [MergeFromString] into such a message breaks; what is written is
      read back.
    - Well-known times survive their Python views, to the microsecond.
    - JSON: a message that JSON can carry is written and read back to the same
      canonical form under all options, well-known types and [google.protobuf.Any] of
      known types included; parsing ends on every JSON value, in an error of the code or
      a well-formed message; times survive to the nanosecond; one
      theorem shows the two errors that are not [JsonError].
    - Field masks: sum, product, quotient, difference and reset-mask
      intersection as operations on sets of patterns, equality as equality of
      these sets, matching of paths; the marshalled text is canonical and parses
      back; the parser ends on every text; marshalling of shared or cyclic
      objects ends with the text of the tree or an error.
    - Wire format: each writer accepts exactly the values of its width, its
      reader recovers them; reads never leave the data; unknown fields are kept
      byte for byte; strings are read from their one UTF-8 encoding only.
    - Updates: the reset mask of a full update has exactly the patterns the
      message has to reset, and the header parses back to it.
    - Requests: an accepted cancellation prevents further attempts, unless the call
      succeeds and its completion fails; attempts are
      bounded by the retries; a request ends; the classification of an error
      before its conversion agrees with the one after it; a retriable error is
      what the first deciding exception of its chain says.  Two theorems,
      [completion_reopens] and [cancellation_lost], show how a cancellation is lost.
    - Streams: a stream opens at most one native call, which is what its operations work
      on, and gives its lease back once; a closed stream stays closed; its tasks make at
      most 21 steps each, wait only for the authenticator, their call or the start lock,
      and end by themselves after a close; its budget of time is spent in
      its operations and not in authentication.  What is said of a closed stream
      assumes that no hook of the channel raised and no submitted cancellation was
      dropped.
    - Submissions: an awaitable is awaited once or disposed of once; a cancellation
      reaches the task, and the runtime cancels no task for another reason than its
      handle or a shutdown; every submission settles, in at most 16 steps of all threads.
    - Executor: the number of threads is bounded, a queued call never waits while a
      thread could be started for it, and every submitted call is served or cancelled,
      over a shutdown too.
    - Operations: a finished operation is final; how a wait ends, how often it
      asks, and that it ends; which limits of an update fail.
    - Channel: transports are leased exclusively, and only the clean-up of a closed
      channel closes a leased one; the clean-up hands over the close of every native
      channel, or its close is refused; caches of addresses never show.
    - Tokens: a synchronous fetch gets a token newer than its call; a waiter is
      served after three steps of the loop, unless the loop has ended; the delays stay in
      their bounds; two theorems show that [stop] and a [CancelledError] of the source
      leave a waiter behind.  Authentication leaves
      one authorization header; a file-cache fetch returns a fresh token or what
      its source answers, and a rotated token file is noticed.  Two theorems show
      a rejected token that is served again and an error that is hidden.  The
      asynchronous file-cache bearer serves no expired token, serves its waiters,
      and two theorems show what [stop] and an expired token do to it.
    - Statuses survive the wire; a registry answers as its symbols do whatever
      its caches hold; a duration text means its total.
    - The rest: caches of resolvers do not change answers; sanitized tokens do
      not depend on signatures; idempotency keys are kept over retries; Python
      names are injective and usable; the token cache is a map of live tokens,
      with two theorems on what it does not keep.

    ** Numbers and fuel

    Integers are [Z] and every width is written out where the code checks or
    masks it.  A Python [float] that is data is the 64 bits of its encoding, with
    conversions from and to texts and integers written out in [PyNumber]; the
    times of requests are exact integers of a clock unit, the delays of the
    bearer exact rationals, so rounding of clocks is left out.  Loops carry
    fuel, and running out of it is an error value of its own, which the theorems
    on termination exclude: a varint has at most ten bytes; the loops over a
    payload consume at least one byte per iteration and get the length of the
    payload; skipping of groups gets the bytes left; the mask lexer and parser
    get a linear function of the length of the text or of its tokens; the JSON
    encoder gets the nesting of the message and the JSON parser twice the height
    of the value plus two; [heap_marshal] a bound
    computed from the number of objects and edges; the walk of a full update
    gets the number of messages it holds, the walk over causes the number of
    exception objects, the duration parser the length of its text.  Nested messages recurse on
    the levels left of the nesting limit, as the depth counters of the code do;
    [MergeFrom] has no limit in the code and its fuel is the nesting of the
    source, which parsing bounds by the same levels; a notification gets the number
    of older messages, and returns.  The recursive mask
    operations get the depth of their operands; the comparison of masks, which answers
    [False] when the stack of the interpreter is full, gets the room on the stack, and
    room for the nesting of one operand is enough.  The 512 states that a submission
    can be in are enumerated by 16 layers of steps, and a check shows that no step leads
    out of them.

    ** Parameters

    The generated classes ([Schema], [Program] for the classes of a registry,
    [JsonProgram] for their full names and the types an [Any] finds),
    the YAML package, the Unicode word characters, digits and case mappings, the keyword lists
    of the Python version, the descriptor lookup of the resolver, the gRPC
    metadata class, the gRPC status codes, the encoding of status messages and the
    local time zone are parameters or classes with the facts the code relies on; each has a
    concrete instance.  The environment of a request (when native calls end and
    with what, when other threads cancel), of an operation and of the pool, and
    the source of a bearer are the nondeterministic steps of their relations;
    what a receiver meets outside is an argument of its calls.

    ** Not modelled

    32-bit floats, the views of statuses, the text layer of JSON ([json.dumps], [json.loads]), descriptors and classes made at
    run time, deprecation warnings; of message objects what an operation that raised has
    changed before, so their histories are of operations that returned; in the statement on
    isolation the reset masks, which detached messages do share;
    [RecursionError] anywhere but in the marshalling and the comparison of masks;
    of the runtime all but submissions and the executor (tracking, which tasks a shutdown
    spares, waiters on other loops), bearers over the network,
    configuration files, metrics and logging, which are mostly I/O; of the channel
    what becomes of a native close that was handed over, the graceful closes and
    background tasks of its clean-up, and releases that cannot be scheduled; of a stream
    the locks between its callers and waiting across loops; the generated API.

    This file: the shared vocabulary. *)
From Stdlib Require Export ZArith Lia ZifyBool ZifyNat.
From stdpp Require Export base tactics option strings numbers list.

Declare Scope pysdk_scope.
Delimit Scope pysdk_scope with pysdk.
#[global] Open Scope Z_scope.

(** ** Results

    A Python call returns or raises; the model of a call that may raise is a
    [result] over the error values its code constructs. *)
Inductive result (E A : Type) : Type :=
| Ok (a : A)
| Raise (e : E).
Arguments Ok {E A} a.
Arguments Raise {E A} e.

#[export] Instance result_ret {E} : MRet (result E) := fun A a => Ok a.
#[export] Instance result_bind {E} : MBind (result E) := fun A B f m =>
  match m with Ok a => f a | Raise e => Raise e end.

Definition is_Ok {E A} (r : result E A) : bool :=
  match r with Ok _ => true | Raise _ => false end.

#[export] Instance result_eq_dec {E A} `{EqDecision E, EqDecision A} : EqDecision (result E A).
Proof. solve_decision. Defined.

(** ** Python strings

    A [str] is a sequence of code points. *)
Abbreviation pystr := (list Z).

Definition u (s : string) : pystr :=
  (fun a => Z.of_N (Ascii.N_of_ascii a)) <$> String.list_ascii_of_string s.
Arguments u s%_string.

Example u_abc : u "a.b" = [97; 46; 98].
Proof. reflexivity. Qed.

(** ** Python dicts

    A [dict] keeps its entries in insertion order: assigning an existing key
    replaces the value in place, assigning a new key appends the entry. *)
Section Dict.
Context {K V : Type} `{!EqDecision K}.
Implicit Types (d : list (K * V)) (k : K) (v : V).

Fixpoint dict_get (d : list (K * V)) (k : K) : option V :=
  match d with
  | [] => None
  | (k', v) :: d' => if decide (k = k') then Some v else dict_get d' k
  end.

Definition dict_has (d : list (K * V)) (k : K) : bool :=
  match dict_get d k with Some _ => true | None => false end.

Fixpoint dict_set (d : list (K * V)) (k : K) (v : V) : list (K * V) :=
  match d with
  | [] => [(k, v)]
  | (k', v') :: d' => if decide (k = k') then (k', v) :: d' else (k', v') :: dict_set d' k v
  end.

Fixpoint dict_del (d : list (K * V)) (k : K) : list (K * V) :=
  match d with
  | [] => []
  | (k', v') :: d' => if decide (k = k') then dict_del d' k else (k', v') :: dict_del d' k
  end.

(** The invariant of every dict: no key occurs twice. *)
Definition dict_wf (d : list (K * V)) : Prop := NoDup d.*1.

#[export] Instance dict_wf_dec d : Decision (dict_wf d).
Proof. unfold dict_wf. apply _. Defined.

Lemma dict_get_set d k v k' :
  dict_get (dict_set d k v) k' = if decide (k' = k) then Some v else dict_get d k'.
Proof.
  induction d as [|[k0 v0] d IH]; simpl.
  - by repeat case_decide.
  - destruct (decide (k = k0)) as [->|]; simpl; repeat case_decide; congruence.
Qed.

Lemma dict_get_set_eq d k v : dict_get (dict_set d k v) k = Some v.
Proof. rewrite dict_get_set. by case_decide. Qed.

Lemma dict_get_set_ne d k v k' : k' <> k -> dict_get (dict_set d k v) k' = dict_get d k'.
Proof. intros. rewrite dict_get_set. by case_decide. Qed.

Lemma dict_get_del d k k' :
  dict_get (dict_del d k) k' = if decide (k' = k) then None else dict_get d k'.
Proof.
  induction d as [|[k0 v0] d IH]; simpl.
  - by case_decide.
  - destruct (decide (k = k0)) as [->|]; simpl; rewrite IH; repeat case_decide; congruence.
Qed.

Lemma dict_get_None d k : dict_get d k = None <-> k ∉ d.*1.
Proof.
  induction d as [|[k0 v0] d IH]; csimpl; [split; auto; intros _; apply not_elem_of_nil|].
  rewrite not_elem_of_cons. case_decide; [split; [done|tauto]|]. rewrite IH. tauto.
Qed.

Lemma dict_get_elem d k v : dict_get d k = Some v -> (k, v) ∈ d.
Proof.
  induction d as [|[k0 v0] d IH]; csimpl; [done|].
  case_decide; [intros [= ->]; subst; left | right; auto].
Qed.

Lemma dict_elem_get d k v : dict_wf d -> (k, v) ∈ d -> dict_get d k = Some v.
Proof.
  unfold dict_wf. induction d as [|[k0 v0] d IH]; csimpl; intros Hnd Hin.
  - by apply not_elem_of_nil in Hin.
  - apply NoDup_cons in Hnd as [Hk0 Hnd].
    apply elem_of_cons in Hin as [[= <- <-]|Hin]; [by case_decide|].
    case_decide as Hd; [|by apply IH].
    subst. destruct Hk0. apply list_elem_of_fmap. by exists (k0, v).
Qed.

Lemma dict_set_keys d k v k' : k' ∈ (dict_set d k v).*1 <-> k' = k \/ k' ∈ d.*1.
Proof.
  induction d as [|[k0 v0] d IH]; csimpl.
  - rewrite elem_of_cons. split; [intros [->|H%not_elem_of_nil]; tauto|].
    intros [->|H%not_elem_of_nil]; tauto.
  - case_decide; csimpl; rewrite !elem_of_cons, ?IH; naive_solver.
Qed.

Lemma dict_set_wf d k v : dict_wf d -> dict_wf (dict_set d k v).
Proof.
  unfold dict_wf. induction d as [|[k0 v0] d IH]; csimpl; intros Hnd.
  - repeat constructor. apply not_elem_of_nil.
  - apply NoDup_cons in Hnd as [Hk0 Hnd].
    case_decide; csimpl; apply NoDup_cons; split; auto.
    rewrite dict_set_keys. naive_solver.
Qed.

Lemma dict_set_new d k v : k ∉ d.*1 -> dict_set d k v = d ++ [(k, v)].
Proof.
  induction d as [|[k0 v0] d IH]; csimpl; [done|].
  rewrite not_elem_of_cons. intros [Hk Hd].
  case_decide; [congruence|]. by rewrite IH.
Qed.

Lemma dict_del_wf d k : dict_wf d -> dict_wf (dict_del d k).
Proof.
  unfold dict_wf. induction d as [|[k0 v0] d IH]; csimpl; intros Hnd; [done|].
  apply NoDup_cons in Hnd as [Hk0 Hnd].
  case_decide; csimpl; [auto|]. apply NoDup_cons. split; auto.
  rewrite <- dict_get_None in Hk0 |- *. rewrite dict_get_del, Hk0. by case_decide.
Qed.

Lemma dict_nil_wf : dict_wf [].
Proof. constructor. Qed.

Lemma dict_wf_cons k v d : dict_wf ((k, v) :: d) <-> dict_get d k = None /\ dict_wf d.
Proof. unfold dict_wf. csimpl. by rewrite NoDup_cons, dict_get_None. Qed.

Lemma dict_wf_app_new d k v : dict_wf d -> dict_get d k = None -> dict_wf (d ++ [(k, v)]).
Proof.
  intros Hd Hk%dict_get_None. rewrite <- dict_set_new by done. by apply dict_set_wf.
Qed.

Lemma dict_set_elem d k v e :
  e ∈ dict_set d k v -> e = (k, v) \/ e ∈ d.
Proof.
  induction d as [|[k0 v0] d IH]; simpl.
  - intros ->%list_elem_of_singleton. by left.
  - case_decide; [subst|]; intros [->|Hin]%elem_of_cons; [by left|right; by right|right; left|].
    destruct (IH Hin); [by left|right; by right].
Qed.

Lemma dict_del_elem d k e : e ∈ dict_del d k -> e ∈ d.
Proof.
  induction d as [|[k0 v0] d IH]; simpl; [done|]. case_decide; [intros; right; auto|].
  intros [->|Hin]%elem_of_cons; [left|right; auto].
Qed.

End Dict.

Lemma forallb_reverse {A} (f : A -> bool) l : forallb f (reverse l) = forallb f l.
Proof.
  apply eq_true_iff_eq. rewrite !forallb_forall. setoid_rewrite <- list_elem_of_In.
  by setoid_rewrite elem_of_reverse.
Qed.

Create HintDb pysdk discriminated.
#[export] Hint Resolve dict_set_wf dict_del_wf dict_nil_wf : pysdk.

Lemma dict_get_fmap {K V W} `{!EqDecision K} (f : V -> W) (d : list (K * V)) k :
  dict_get (prod_map id f <$> d) k = f <$> dict_get d k.
Proof. induction d as [|[k0 v0] d IH]; csimpl; [done|]. by case_decide. Qed.

(** ** Loops over a dict

    A loop over the entries of a dict that updates only the visited key of an
    accumulated dict: [F] says how the entry of the visited key changes. *)
Section DictFold.
Context {K V W : Type} `{!EqDecision K}.

Lemma dict_foldl_get (upd : list (K * W) -> K -> V -> list (K * W))
    (F : K -> V -> option W -> option W) (ps : list (K * V)) (d0 : list (K * W)) k :
  (forall acc k v k', dict_get (upd acc k v) k' =
     if decide (k' = k) then F k v (dict_get acc k) else dict_get acc k') ->
  dict_wf ps ->
  dict_get (foldl (fun acc '(k, v) => upd acc k v) d0 ps) k =
  match dict_get ps k with Some v => F k v (dict_get d0 k) | None => dict_get d0 k end.
Proof.
  intros Hupd. revert d0. induction ps as [|[k0 v0] ps IH]; intros d0 Hwf; csimpl; [done|].
  apply dict_wf_cons in Hwf as [Hk0 Hwf]. rewrite IH by done. rewrite Hupd.
  destruct (decide (k = k0)) as [->|]; [by rewrite Hk0|done].
Qed.

Lemma dict_foldl_wf (upd : list (K * W) -> K -> V -> list (K * W))
    (ps : list (K * V)) (d0 : list (K * W)) :
  (forall acc k v, dict_wf acc -> dict_wf (upd acc k v)) ->
  dict_wf d0 -> dict_wf (foldl (fun acc '(k, v) => upd acc k v) d0 ps).
Proof.
  intros Hupd. revert d0. induction ps as [|[k0 v0] ps IH]; intros d0 Hwf; csimpl; auto.
Qed.

(** A loop that replaces or drops each entry. *)
Lemma dict_flat_map_get (g : K * V -> list (K * W)) (G : K -> V -> option W)
    (ps : list (K * V)) k :
  (forall k v, g (k, v) = match G k v with Some w => [(k, w)] | None => [] end) ->
  dict_wf ps ->
  dict_get (flat_map g ps) k = dict_get ps k ≫= G k.
Proof.
  intros Hg. induction ps as [|[k0 v0] ps IH]; intros Hwf; csimpl; [done|].
  apply dict_wf_cons in Hwf as [Hk0 Hwf]. specialize (IH Hwf). rewrite Hg.
  destruct (decide (k = k0)) as [->|]; destruct (G k0 v0) eqn:E; csimpl; rewrite ?E.
  - by case_decide.
  - by rewrite IH, Hk0.
  - by case_decide.
  - done.
Qed.

Lemma dict_flat_map_wf (g : K * V -> list (K * W)) (G : K -> V -> option W)
    (ps : list (K * V)) :
  (forall k v, g (k, v) = match G k v with Some w => [(k, w)] | None => [] end) ->
  dict_wf ps -> dict_wf (flat_map g ps).
Proof.
  intros Hg. induction ps as [|[k0 v0] ps IH]; intros Hwf; csimpl; [apply dict_nil_wf|].
  pose proof Hwf as [Hk0 Hwf']%dict_wf_cons. rewrite Hg.
  destruct (G k0 v0); csimpl; [|auto]. apply dict_wf_cons. split; [|auto].
  by rewrite (dict_flat_map_get g G), Hk0.
Qed.

End DictFold.
