(* ===== verification/PyStr.v ===== *)
(** * The [str] operations the SDK uses

    Python's [str] methods on sequences of code points ([pystr]): prefix and
    suffix tests, [split], [join], [replace], the lexicographic order and
    [list.sort], [str(int)] and the case conversions.  They belong to the
    language, not to the repository; the components of the SDK are written on
    top of them. *)
From stdpp Require Import sorting pretty.
From S2P Require Import Prelude.

(** ** Prefixes, suffixes, [in] *)

(** [s.startswith(p)] *)
Fixpoint startswith (s p : pystr) {struct p} : bool :=
  match p, s with
  | [], _ => true
  | c :: p', d :: s' => bool_decide (c = d) && startswith s' p'
  | _ :: _, [] => false
  end.

(** [s.endswith(p)] *)
Definition endswith (s p : pystr) : bool := startswith (reverse s) (reverse p).

(** [c in s] for a one-character string *)
Definition str_contains (c : Z) (s : pystr) : bool := bool_decide (c ∈ s).

(** ** [split], [join], [replace] *)

(** The scan of [s.split(sep)]: [skip] characters of a separator just found are
    still to be dropped, [cur] is the current piece, reversed. *)
Fixpoint split_scan (sep : pystr) (skip : nat) (cur s : pystr) : list pystr :=
  match s with
  | [] => [reverse cur]
  | c :: s' =>
      match skip with
      | S n => split_scan sep n cur s'
      | O => if startswith s sep
             then reverse cur :: split_scan sep (length sep - 1) [] s'
             else split_scan sep 0 (c :: cur) s'
      end
  end.

(** [s.split(sep)] for a non-empty separator; an empty one is a [ValueError]. *)
Definition split (s sep : pystr) : option (list pystr) :=
  match sep with [] => None | _ :: _ => Some (split_scan sep 0 [] s) end.

(** [sep.join(parts)] *)
Fixpoint join (sep : pystr) (parts : list pystr) : pystr :=
  match parts with
  | [] => []
  | p :: rest => match rest with [] => p | _ :: _ => p ++ sep ++ join sep rest end
  end.

Fixpoint replace_scan (find rep : pystr) (skip : nat) (s : pystr) : pystr :=
  match s with
  | [] => []
  | c :: s' =>
      match skip with
      | S n => replace_scan find rep n s'
      | O => if startswith s find
             then rep ++ replace_scan find rep (length find - 1) s'
             else c :: replace_scan find rep 0 s'
      end
  end.

(** [s.replace(find, rep)]: an empty [find] matches before every character and
    at the end. *)
Definition str_replace (s find rep : pystr) : pystr :=
  match find with
  | [] => rep ++ (s ≫= fun c => c :: rep)
  | _ :: _ => replace_scan find rep 0 s
  end.

(** ** Order and sorting *)

(** [s <= t]: lexicographic on code points. *)
Fixpoint str_leb (s t : pystr) : bool :=
  match s, t with
  | [], _ => true
  | _ :: _, [] => false
  | c :: s', d :: t' => if c <? d then true else if d <? c then false else str_leb s' t'
  end.

Fixpoint sort_insert (x : pystr) (l : list pystr) : list pystr :=
  match l with
  | [] => [x]
  | y :: l' => if str_leb x y then x :: l else y :: sort_insert x l'
  end.

(** [l.sort()] *)
Fixpoint str_sort (l : list pystr) : list pystr :=
  match l with
  | [] => []
  | x :: l' => sort_insert x (str_sort l')
  end.

(** [str(n)] *)
Definition str_of_int (n : Z) : pystr := u (pretty n).

(** ** Case conversion *)

Definition lower_char (c : Z) : Z := if (65 <=? c) && (c <=? 90) then c + 32 else c.
Definition upper_char (c : Z) : Z := if (97 <=? c) && (c <=? 122) then c - 32 else c.

(** [lower] and [upper] on ASCII text. *)
Definition ascii_lower (s : pystr) : pystr := lower_char <$> s.
Definition ascii_upper (s : pystr) : pystr := upper_char <$> s.

Definition is_ascii (s : pystr) : bool := forallb (fun c => (0 <=? c) && (c <? 128)) s.

(** [str.lower] consults the Unicode tables; the development uses only that it
    agrees with the ASCII rule on ASCII text and is idempotent. *)
Class PyLower := {
  py_lower : pystr -> pystr;
  py_lower_ascii : forall s, is_ascii s = true -> py_lower s = ascii_lower s;
  py_lower_idem : forall s, py_lower (py_lower s) = py_lower s
}.

Lemma lower_char_idem c : lower_char (lower_char c) = lower_char c.
Proof. unfold lower_char. repeat case_match; lia. Qed.

Lemma ascii_lower_idem s : ascii_lower (ascii_lower s) = ascii_lower s.
Proof.
  unfold ascii_lower. rewrite <- list_fmap_compose.
  apply list_fmap_ext. intros i c _. apply lower_char_idem.
Qed.

(** The ASCII rule itself is an instance. *)
Definition ascii_py_lower : PyLower :=
  {| py_lower := ascii_lower;
     py_lower_ascii := fun _ _ => eq_refl;
     py_lower_idem := ascii_lower_idem |}.

(** ** Lemmas *)

Lemma startswith_spec s p : startswith s p = true <-> exists t, s = p ++ t.
Proof.
  revert s. induction p as [|c p IH]; intros s; cbn [startswith app].
  - split; [by intros _; exists s|done].
  - destruct s as [|d s].
    + split; [done|]. intros [t Ht]. done.
    + rewrite andb_true_iff, bool_decide_eq_true, IH. split.
      * intros [-> [t ->]]. by exists t.
      * intros [t [= -> ->]]. eauto.
Qed.

Lemma startswith_app p s : startswith (p ++ s) p = true.
Proof. apply startswith_spec. eauto. Qed.

Lemma startswith_drop s p : startswith s p = true -> s = p ++ drop (length p) s.
Proof. intros [t ->]%startswith_spec. by rewrite drop_app_length. Qed.

Lemma endswith_spec s p : endswith s p = true <-> exists t, s = t ++ p.
Proof.
  unfold endswith. rewrite startswith_spec. split; intros [t Ht].
  - exists (reverse t). rewrite <- (reverse_involutive p), <- reverse_app, <- Ht.
    by rewrite reverse_involutive.
  - exists (reverse t). by rewrite Ht, reverse_app.
Qed.

Lemma split_scan_nonempty sep n cur s : split_scan sep n cur s <> [].
Proof.
  revert n cur. induction s as [|c s IH]; intros n cur; simpl; [done|].
  destruct n; [case_match; [done|]|]; apply IH.
Qed.

Lemma split_nonempty s sep parts : split s sep = Some parts -> parts <> [].
Proof. destruct sep; [done|]. intros [= <-]. apply split_scan_nonempty. Qed.

Lemma join_cons sep p parts :
  parts <> [] -> join sep (p :: parts) = p ++ sep ++ join sep parts.
Proof. by destruct parts. Qed.

(** Splitting and joining with the same separator is the identity. *)
Lemma join_split_scan sep n cur s :
  sep <> [] ->
  join sep (split_scan sep n cur s) = reverse cur ++ drop n s.
Proof.
  intros Hsep. revert n cur. induction s as [|c s IH]; intros n cur; cbn [split_scan].
  - by rewrite drop_nil, app_nil_r.
  - destruct n as [|n].
    + destruct (startswith (c :: s) sep) eqn:Hpre.
      * rewrite join_cons by apply split_scan_nonempty. rewrite IH.
        pose proof (startswith_drop _ _ Hpre) as Hd.
        destruct sep as [|c0 sep]; [done|]. simpl in Hd |- *.
        by rewrite Nat.sub_0_r, <- Hd.
      * rewrite IH, reverse_cons, <- app_assoc. by rewrite !drop_0.
    + by rewrite IH.
Qed.

Lemma join_split s sep parts : split s sep = Some parts -> join sep parts = s.
Proof.
  destruct sep as [|c sep]; [done|]. intros [= <-].
  rewrite join_split_scan by done. by rewrite reverse_nil, drop_0.
Qed.

Lemma sort_insert_perm x l : sort_insert x l ≡ₚ x :: l.
Proof.
  induction l as [|y l IH]; simpl; [done|].
  case_match; [done|]. rewrite IH. apply Permutation_swap.
Qed.

Lemma str_sort_perm l : str_sort l ≡ₚ l.
Proof. induction l as [|x l IH]; simpl; [done|]. by rewrite sort_insert_perm, IH. Qed.

Lemma str_leb_refl s : str_leb s s = true.
Proof. induction s as [|c s IH]; simpl; [done|]. by rewrite Z.ltb_irrefl. Qed.

Lemma str_leb_total s t : str_leb s t = true \/ str_leb t s = true.
Proof.
  revert t. induction s as [|c s IH]; intros [|d t]; simpl; auto.
  destruct (Z.ltb_spec c d), (Z.ltb_spec d c); auto; lia.
Qed.

Lemma str_leb_antisym s t : str_leb s t = true -> str_leb t s = true -> s = t.
Proof.
  revert t. induction s as [|c s IH]; intros [|d t]; simpl; try done.
  destruct (Z.ltb_spec c d), (Z.ltb_spec d c); try done; try lia.
  intros. f_equal; [lia|auto].
Qed.

Lemma str_leb_trans s t r : str_leb s t = true -> str_leb t r = true -> str_leb s r = true.
Proof.
  revert t r. induction s as [|c s IH]; intros [|d t] [|e r]; simpl; try done.
  destruct (Z.ltb_spec c d), (Z.ltb_spec d c), (Z.ltb_spec d e), (Z.ltb_spec e d),
    (Z.ltb_spec c e), (Z.ltb_spec e c); try done; try lia; eauto.
Qed.

#[export] Instance str_le_trans : Transitive (fun s t => str_leb s t = true).
Proof. intros s t r. apply str_leb_trans. Qed.

#[export] Instance str_le_antisym : AntiSymm (=) (fun s t => str_leb s t = true).
Proof. intros s t. apply str_leb_antisym. Qed.

Lemma sort_insert_sorted x l :
  StronglySorted (fun s t => str_leb s t = true) l ->
  StronglySorted (fun s t => str_leb s t = true) (sort_insert x l).
Proof.
  induction 1 as [|y l Hl IH Hall]; simpl; [repeat constructor|].
  destruct (str_leb x y) eqn:E.
  - constructor; [by constructor|]. constructor; [done|].
    eapply Forall_impl; [exact Hall|]. intros z. by apply str_leb_trans.
  - constructor; [done|].
    assert (str_leb y x = true) by (destruct (str_leb_total x y); congruence).
    rewrite sort_insert_perm. by constructor.
Qed.

Lemma str_sort_sorted l : StronglySorted (fun s t => str_leb s t = true) (str_sort l).
Proof. induction l; simpl; [constructor|]. by apply sort_insert_sorted. Qed.

(** Sorting forgets the order of its input. *)
Lemma str_sort_unique l1 l2 : l1 ≡ₚ l2 -> str_sort l1 = str_sort l2.
Proof.
  intros Hp. apply (StronglySorted_unique (fun s t => str_leb s t = true)).
  - apply str_sort_sorted.
  - apply str_sort_sorted.
  - by rewrite !str_sort_perm.
Qed.
