(* ===== verification/Json.v ===== *)
(** * JSON strings

    [json.dumps] and [json.loads] restricted to what the field masks use: a
    [str] value, and a document whose first character is a quotation mark.
    [dumps] is called with [ensure_ascii] at its default and at [False].  Both
    belong to Python's standard library; the main result is that reading a
    dumped string gives the string back. *)
From S2P Require Import Prelude PyStr.

Definition QUOTE : Z := 34.
Definition BACKSLASH : Z := 92.

(** ** Writing *)

Definition hex_digit (n : Z) : Z := if n <? 10 then 48 + n else 87 + n.

(** [\uXXXX] *)
Definition u_escape (n : Z) : pystr :=
  [BACKSLASH; 117; hex_digit (n / 4096 mod 16); hex_digit (n / 256 mod 16);
   hex_digit (n / 16 mod 16); hex_digit (n mod 16)].

(** The escapes with a letter of their own. *)
Definition short_escape (c : Z) : option Z :=
  if c =? 34 then Some 34 else if c =? 92 then Some 92 else if c =? 8 then Some 98
  else if c =? 12 then Some 102 else if c =? 10 then Some 110
  else if c =? 13 then Some 114 else if c =? 9 then Some 116 else None.

(** One character under [ensure_ascii=True]: everything outside the printable
    ASCII range is escaped, above the basic plane as a surrogate pair. *)
Definition escape_ascii (c : Z) : pystr :=
  match short_escape c with
  | Some e => [BACKSLASH; e]
  | None =>
      if (32 <=? c) && (c <=? 126) then [c]
      else if c <? 65536 then u_escape c
      else u_escape (55296 + (c - 65536) / 1024) ++ u_escape (56320 + (c - 65536) mod 1024)
  end.

(** One character under [ensure_ascii=False]: only quotation marks, backslashes
    and control characters are escaped. *)
Definition escape_plain (c : Z) : pystr :=
  match short_escape c with
  | Some e => [BACKSLASH; e]
  | None => if c <? 32 then u_escape c else [c]
  end.

Definition dumps (s : pystr) : pystr := QUOTE :: (s ≫= escape_ascii) ++ [QUOTE].
Definition dumps_unicode (s : pystr) : pystr := QUOTE :: (s ≫= escape_plain) ++ [QUOTE].

(** ** Reading *)

Inductive json_error : Type :=
| UnterminatedString
| InvalidControlCharacter
| InvalidEscape
| ExtraData
| NotAString.

#[export] Instance json_error_eq_dec : EqDecision json_error.
Proof. solve_decision. Defined.

Definition hex_value (c : Z) : option Z :=
  if (48 <=? c) && (c <=? 57) then Some (c - 48)
  else if (97 <=? c) && (c <=? 102) then Some (c - 87)
  else if (65 <=? c) && (c <=? 70) then Some (c - 55)
  else None.

Definition hex4_value (a b c d : Z) : option Z :=
  match hex_value a, hex_value b, hex_value c, hex_value d with
  | Some x, Some y, Some z, Some w => Some (x * 4096 + y * 256 + z * 16 + w)
  | _, _, _, _ => None
  end.

Definition is_high_surrogate (n : Z) : bool := (55296 <=? n) && (n <=? 56319).
Definition is_low_surrogate (n : Z) : bool := (56320 <=? n) && (n <=? 57343).

Definition unescape (e : Z) : option Z :=
  if e =? 34 then Some 34 else if e =? 92 then Some 92 else if e =? 47 then Some 47
  else if e =? 98 then Some 8 else if e =? 102 then Some 12 else if e =? 110 then Some 10
  else if e =? 114 then Some 13 else if e =? 116 then Some 9 else None.

Definition cons_result (c : Z) (r : result json_error (pystr * pystr)) :
    result json_error (pystr * pystr) :=
  match r with Ok (s, rest) => Ok (c :: s, rest) | Raise e => Raise e end.

(** The strict string scanner: the characters up to the closing quotation mark,
    and what follows it. *)
Fixpoint scanstring (s : pystr) : result json_error (pystr * pystr) :=
  match s with
  | [] => Raise UnterminatedString
  | c :: s1 =>
      if c =? QUOTE then Ok ([], s1)
      else if c =? BACKSLASH then
        match s1 with
        | [] => Raise UnterminatedString
        | e :: s2 =>
            if e =? 117 then
              match s2 with
              | h1 :: h2 :: h3 :: h4 :: s3 =>
                  match hex4_value h1 h2 h3 h4 with
                  | None => Raise InvalidEscape
                  | Some n =>
                      if is_high_surrogate n then
                        match s3 with
                        | b :: w :: g1 :: g2 :: g3 :: g4 :: s4 =>
                            if (b =? BACKSLASH) && (w =? 117) then
                              match hex4_value g1 g2 g3 g4 with
                              | None => Raise InvalidEscape
                              | Some m =>
                                  if is_low_surrogate m
                                  then cons_result (65536 + (n - 55296) * 1024 + (m - 56320))
                                         (scanstring s4)
                                  else cons_result n (scanstring s3)
                              end
                            else cons_result n (scanstring s3)
                        | _ => cons_result n (scanstring s3)
                        end
                      else cons_result n (scanstring s3)
                  end
              | _ => Raise InvalidEscape
              end
            else match unescape e with
                 | Some v => cons_result v (scanstring s2)
                 | None => Raise InvalidEscape
                 end
        end
      else if c <? 32 then Raise InvalidControlCharacter
      else cons_result c (scanstring s1)
  end.

Definition is_json_space (c : Z) : bool :=
  (c =? 32) || (c =? 9) || (c =? 10) || (c =? 13).

(** [loads] on a document that begins with a quotation mark: the string, then
    only white space. *)
Definition loads (doc : pystr) : result json_error pystr :=
  match doc with
  | c :: body =>
      if c =? QUOTE then
        match scanstring body with
        | Raise e => Raise e
        | Ok (s, rest) => if forallb is_json_space rest then Ok s else Raise ExtraData
        end
      else Raise NotAString
  | [] => Raise NotAString
  end.

(** ** Round trip *)

(** A Unicode scalar value: a code point that is not a surrogate. *)
Definition is_scalar (c : Z) : bool :=
  ((0 <=? c) && (c <? 55296)) || ((57343 <? c) && (c <? 1114112)).

Definition scalar_str (s : pystr) : bool := forallb is_scalar s.

Lemma hex_value_digit n : 0 <= n < 16 -> hex_value (hex_digit n) = Some n.
Proof.
  intros Hn. unfold hex_value, hex_digit.
  destruct (Z.ltb_spec n 10); repeat case_match; f_equal; lia.
Qed.

Lemma hex4_value_digits n :
  0 <= n < 65536 ->
  hex4_value (hex_digit (n / 4096 mod 16)) (hex_digit (n / 256 mod 16))
    (hex_digit (n / 16 mod 16)) (hex_digit (n mod 16)) = Some n.
Proof.
  intros Hn. unfold hex4_value.
  rewrite !hex_value_digit by (apply Z.mod_pos_bound; lia).
  f_equal. Z.div_mod_to_equations. lia.
Qed.

Lemma short_escape_unescape c e : short_escape c = Some e -> unescape e = Some c /\ e <> 117.
Proof.
  unfold short_escape. repeat case_match; intros [= <-];
    repeat match goal with H : (_ =? _) = true |- _ => apply Z.eqb_eq in H; subst end;
    by split.
Qed.

Lemma short_escape_none c : short_escape c = None -> c <> QUOTE /\ c <> BACKSLASH.
Proof. unfold short_escape, QUOTE, BACKSLASH. repeat case_match; try done; lia. Qed.

Lemma scanstring_u n rest :
  0 <= n < 65536 -> is_high_surrogate n = false ->
  scanstring (u_escape n ++ rest) = cons_result n (scanstring rest).
Proof. intros Hn Hs. simpl. by rewrite hex4_value_digits, Hs. Qed.

Lemma scanstring_pair v rest :
  0 <= v < 1048576 ->
  scanstring (u_escape (55296 + v / 1024) ++ u_escape (56320 + v mod 1024) ++ rest) =
  cons_result (65536 + v) (scanstring rest).
Proof.
  intros Hv. assert (0 <= v / 1024 < 1024) by (Z.div_mod_to_equations; lia).
  assert (0 <= v mod 1024 < 1024) by (apply Z.mod_pos_bound; lia).
  unfold u_escape at 1. cbn [app scanstring].
  rewrite hex4_value_digits by lia. simpl Z.eqb. cbn iota.
  replace (is_high_surrogate _) with true by (unfold is_high_surrogate; lia).
  unfold u_escape. cbn [app]. simpl Z.eqb. cbn [andb].
  rewrite hex4_value_digits by lia.
  replace (is_low_surrogate _) with true by (unfold is_low_surrogate; lia).
  f_equal. Z.div_mod_to_equations. lia.
Qed.

Lemma scanstring_char c rest :
  short_escape c = None -> 32 <= c -> scanstring (c :: rest) = cons_result c (scanstring rest).
Proof.
  intros [H1 H2]%short_escape_none Hc. simpl.
  repeat match goal with |- context [if ?b then _ else _] => replace b with false by lia end.
  done.
Qed.

Lemma scanstring_short c e rest :
  short_escape c = Some e ->
  scanstring (BACKSLASH :: e :: rest) = cons_result c (scanstring rest).
Proof.
  intros [H1 H2]%short_escape_unescape. simpl. rewrite H1.
  by replace (e =? 117) with false by lia.
Qed.

Lemma scanstring_escape_ascii c rest :
  is_scalar c = true ->
  scanstring (escape_ascii c ++ rest) = cons_result c (scanstring rest).
Proof.
  unfold is_scalar, escape_ascii. intros Hc.
  destruct (short_escape c) as [e|] eqn:He; [by apply scanstring_short|].
  case_match eqn:Hp; [apply scanstring_char; [done|lia]|].
  case_match eqn:Hb.
  - apply scanstring_u; [lia|unfold is_high_surrogate; lia].
  - rewrite <- app_assoc, scanstring_pair by lia. f_equal. lia.
Qed.

Lemma scanstring_dumps s rest :
  scalar_str s = true ->
  scanstring ((s ≫= escape_ascii) ++ QUOTE :: rest) = Ok (s, rest).
Proof.
  unfold scalar_str. induction s as [|c s IH]; [done|].
  cbn [forallb]. intros [Hc Hs]%andb_true_iff.
  rewrite bind_cons, <- app_assoc, scanstring_escape_ascii, IH by done. done.
Qed.

(** A dumped string reads back as itself. *)
Lemma loads_dumps s : scalar_str s = true -> loads (dumps s) = Ok s.
Proof. intros Hs. unfold loads, dumps. simpl. by rewrite scanstring_dumps. Qed.
