(* ===== verification/FieldMask.v ===== *)
(** * Field masks: keys, paths and mask trees

    The model of [src/nebius/base/fieldmask.py].  A [Mask] is a tree whose
    nodes have an optional wildcard child ([any]) and named children
    ([field_parts], a dict).  The operations that mutate [self] are written as
    functions to the new tree; the operations that may raise return a
    [result].  A path is the list of its keys.

    A mask denotes the set of its _patterns_ (sequences of keys and wildcards
    from the root to a node); the theorems of [FieldMaskSpec] say what each
    operation does to that set. *)
From S2P Require Import Prelude PyStr Json.

(** ** Errors *)

(** The exceptions this module raises. *)
Inductive fm_error : Type :=
| Error
| MarshalError
| JSONDecodeError (e : json_error)
| ValueError
| WildcardInMask
| MultiplePathsInMask.

#[export] Instance fm_error_eq_dec : EqDecision fm_error.
Proof. solve_decision. Defined.

(** ** FieldKey *)

Definition simple_char (c : Z) : bool :=
  ((97 <=? c) && (c <=? 122)) || ((65 <=? c) && (c <=? 90)) ||
  ((48 <=? c) && (c <=? 57)) || (c =? 95).

Definition all_simple (s : pystr) : bool :=
  match s with [] => false | _ :: _ => forallb simple_char s end.

(** [_simple_string_pattern.match(s)]: the pattern ends in [$], which in Python
    matches at the end of the string and also just before a final newline. *)
Definition simple_string_pattern (s : pystr) : bool :=
  all_simple s ||
  match reverse s with c :: t => (c =? 10) && all_simple (reverse t) | [] => false end.

Module FieldKey.

Definition unmarshal (marshaled_key : pystr) : result fm_error pystr :=
  if startswith marshaled_key [QUOTE] then
    match loads marshaled_key with
    | Ok k => Ok k
    | Raise e => Raise (JSONDecodeError e)
    end
  else if simple_string_pattern marshaled_key then Ok marshaled_key
  else Raise MarshalError.

Definition marshal (self : pystr) : pystr :=
  if simple_string_pattern self then self else dumps self.

End FieldKey.

(** ** Mask trees *)

#[local] Unset Elimination Schemes.
Inductive Mask : Type :=
| mkMask (any : option Mask) (field_parts : list (pystr * Mask)).
#[local] Set Elimination Schemes.

Definition any (m : Mask) : option Mask := let 'mkMask a _ := m in a.
Definition field_parts (m : Mask) : list (pystr * Mask) := let 'mkMask _ ps := m in ps.

(** [Mask()] *)
Definition emptyMask : Mask := mkMask None [].

(** An argument of dynamic type, as far as the constructors inspect it. *)
Inductive py_key : Type := KStr (s : pystr) | KOther.
Inductive py_mask : Type := MNone | MMask (m : Mask) | MOther.

Module Mask.

(** [Mask.__init__]; [field_parts] is [None] when the argument is not a
    [Mapping], which the constructor silently ignores. *)
Fixpoint init_parts (acc : list (pystr * Mask)) (ps : list (py_key * py_mask)) :
    result fm_error (list (pystr * Mask)) :=
  match ps with
  | [] => Ok acc
  | (k, v) :: ps' =>
      match k, v with
      | KStr s, MMask m => init_parts (dict_set acc s m) ps'
      | _, _ => Raise ValueError
      end
  end.

Definition init (any : py_mask) (field_parts : option (list (py_key * py_mask))) :
    result fm_error Mask :=
  match any with
  | MOther => Raise ValueError
  | _ =>
      let a := match any with MMask m => Some m | _ => None end in
      match field_parts with
      | None => Ok (mkMask a [])
      | Some ps => match init_parts [] ps with Ok d => Ok (mkMask a d) | Raise e => Raise e end
      end
  end.

Definition is_empty (self : Mask) : bool :=
  match any self, field_parts self with None, [] => true | _, _ => false end.

Fixpoint to_field_path (self : Mask) : result fm_error (option (list pystr)) :=
  match self with
  | mkMask (Some _) _ => Raise WildcardInMask
  | mkMask None [] => Ok None
  | mkMask None [(k, v)] =>
      match to_field_path v with
      | Raise e => Raise e
      | Ok None => Ok (Some [k])
      | Ok (Some inner) => Ok (Some ([k] ++ inner))
      end
  | mkMask None (_ :: _ :: _) => Raise MultiplePathsInMask
  end.

Definition is_field_path (self : Mask) : bool :=
  match to_field_path self with Ok _ => true | Raise _ => false end.

Fixpoint copy (self : Mask) : Mask :=
  match self with
  | mkMask a ps =>
      mkMask (match a with Some x => Some (copy x) | None => None end)
             (foldl (fun acc '(k, v) => dict_set acc k (copy v)) [] ps)
  end.

(** [self += other] for a mask [other]. *)
Fixpoint iadd (self other : Mask) {struct other} : Mask :=
  match other with
  | mkMask oany oparts =>
      if is_empty other then self else
      mkMask
        (match any self with
         | Some a => Some (match oany with Some oa => iadd a oa | None => a end)
         | None => match oany with Some oa => Some (copy oa) | None => None end
         end)
        (foldl (fun acc '(k, v) =>
                  match dict_get acc k with
                  | Some old => dict_set acc k (iadd old v)
                  | None => dict_set acc k (copy v)
                  end) (field_parts self) oparts)
  end.

Definition add (self other : Mask) : Mask := iadd (copy self) other.

(** [self.sub_mask(key)]: a copy of the named part merged with the wildcard
    part when both exist. *)
Definition sub_mask_key (self : Mask) (key : pystr) : option Mask :=
  match dict_get (field_parts self) key with
  | Some part =>
      match any self with
      | Some a => Some (iadd (copy part) a)
      | None => Some part
      end
  | None => any self
  end.

(** [self.sub_mask(path)] *)
Fixpoint sub_mask (self : Mask) (path : list pystr) : option Mask :=
  match path with
  | [] => Some self
  | s :: path' =>
      match sub_mask_key self s with
      | Some ret => sub_mask ret path'
      | None => None
      end
  end.

(** [self == value] for a mask [value], when the stack of the interpreter holds every
    comparison. *)
Fixpoint eqb (self value : Mask) {struct self} : bool :=
  match self with
  | mkMask a ps =>
      match a, any value with
      | None, None => true
      | Some x, Some y => eqb x y
      | _, _ => false
      end &&
      (length ps =? length (field_parts value))%nat &&
      forallb (fun '(k, v) =>
                 match dict_get (field_parts value) k with
                 | Some v' => eqb v v'
                 | None => false
                 end) ps
  end.

(** [self == value] when the stack has room for [room] comparisons inside one another.
    The one without room raises [RecursionError], which the comparison around it turns
    into [False]; so it counts as [false]. *)
Fixpoint __eq__ (room : nat) (self value : Mask) : bool :=
  match room with
  | O => false
  | S room =>
      match any self, any value with
      | None, None => true
      | Some x, Some y => __eq__ room x y
      | _, _ => false
      end &&
      (length (field_parts self) =? length (field_parts value))%nat &&
      forallb (fun '(k, v) =>
                 match dict_get (field_parts value) k with
                 | Some v' => __eq__ room v' v
                 | None => false
                 end) (field_parts self)
  end.

(** The rendering of one child from its key and its own [(count, text)]. *)
Definition marshal_entry (key : pystr) (sub : nat * pystr) : pystr :=
  let '(counter, mask_str) := sub in
  match mask_str with
  | [] => key
  | _ :: _ =>
      if (counter =? 1)%nat then key ++ u "." ++ mask_str
      else key ++ u ".(" ++ mask_str ++ u ")"
  end.

(** What [_marshal] computes for a node, read off the tree: the number of
    segments and their sorted, comma-separated text. *)
Fixpoint _marshal (self : Mask) : nat * pystr :=
  match self with
  | mkMask a ps =>
      let entries :=
        match a with Some x => [marshal_entry (u "*") (_marshal x)] | None => [] end ++
        map (fun '(k, v) => marshal_entry (FieldKey.marshal k) (_marshal v)) ps in
      (length entries, join (u ",") (str_sort entries))
  end.

Definition marshal (self : Mask) : pystr := snd (_marshal self).

(** ** Intersections *)

(** The three ways [intersect_reset_mask] stores an intersected child. *)
Definition merge_part (parts : list (pystr * Mask)) (k : pystr) (inner : option Mask) :
    list (pystr * Mask) :=
  match inner with
  | None => parts
  | Some m =>
      match dict_get parts k with
      | Some old => dict_set parts k (iadd old m)
      | None => dict_set parts k m
      end
  end.

Definition set_part (parts : list (pystr * Mask)) (k : pystr) (inner : option Mask) :
    list (pystr * Mask) :=
  match inner with Some m => dict_set parts k m | None => parts end.

(** The nesting depth of a mask. *)
Fixpoint depth (self : Mask) : nat :=
  match self with
  | mkMask a ps =>
      S (max (match a with Some x => depth x | None => 0%nat end)
             (foldr (fun '(_, v) n => max (depth v) n) 0%nat ps))
  end.

(** [self.intersect_reset_mask(other)].  The recursive calls exchange the roles
    of the two masks, so the recursion is on a bound of both depths. *)
Fixpoint intersect_reset_fuel (n : nat) (self : Mask) (other : option Mask) : option Mask :=
  match n, other with
  | O, _ | _, None => None
  | S n, Some o =>
      let ret_any := match any self with
                     | Some a => intersect_reset_fuel n a (any o)
                     | None => None
                     end in
      let parts1 := match any self with
                    | Some a => foldl (fun acc '(k, v) =>
                                  set_part acc k (intersect_reset_fuel n a (Some v)))
                                  [] (field_parts o)
                    | None => []
                    end in
      let parts2 := match any o with
                    | Some oa => foldl (fun acc '(k, v) =>
                                  merge_part acc k (intersect_reset_fuel n oa (Some v)))
                                  parts1 (field_parts self)
                    | None => parts1
                    end in
      let parts3 := foldl (fun acc '(k, v) =>
                       match dict_get (field_parts o) k with
                       | Some ov => merge_part acc k (intersect_reset_fuel n v (Some ov))
                       | None => acc
                       end) parts2 (field_parts self) in
      Some (mkMask ret_any parts3)
  end.

Definition intersect_reset_mask (self : Mask) (other : option Mask) : option Mask :=
  match other with
  | None => None
  | Some o => intersect_reset_fuel (max (depth self) (depth o)) self other
  end.

Fixpoint intersect_dumb (self : Mask) (other : option Mask) {struct self} : option Mask :=
  match other with
  | None => None
  | Some o =>
      match self with
      | mkMask a ps =>
          Some (mkMask
            (match a with Some x => intersect_dumb x (any o) | None => None end)
            (foldl (fun acc '(k, v) =>
                      match dict_get (field_parts o) k with
                      | Some ov => set_part acc k (intersect_dumb v (Some ov))
                      | None => acc
                      end) [] ps))
      end
  end.

(** [self * other]: [__imul__] on a copy. *)
Definition mul (self : Mask) (other : py_mask) : result fm_error Mask :=
  match other with
  | MMask o =>
      match intersect_dumb (copy self) (Some o) with
      | Some ret => Ok ret
      | None => Raise Error
      end
  | _ => Raise ValueError
  end.

(** ** Subtractions *)

Fixpoint subtract_dumb (self : Mask) (other : option Mask) {struct self} : Mask :=
  match other with
  | None => self
  | Some o =>
      match self with
      | mkMask a ps =>
          mkMask
            (match a, any o with
             | Some x, Some oa =>
                 let x' := subtract_dumb x (Some oa) in
                 if is_empty x' then None else Some x'
             | _, _ => a
             end)
            (flat_map (fun '(k, v) =>
                match dict_get (field_parts o) k with
                | Some ov =>
                    let v' := subtract_dumb v (Some ov) in
                    if is_empty v' then [] else [(k, v')]
                | None => [(k, v)]
                end) ps)
      end
  end.

(** [self / other] *)
Definition truediv (self : Mask) (other : py_mask) : result fm_error Mask :=
  match other with
  | MMask o => Ok (subtract_dumb (copy self) (Some o))
  | _ => Raise ValueError
  end.

(** [self.subtract_reset_mask(other)].  A named child is reduced twice, by the
    wildcard child of [other] and by the child of the same name, so the
    recursion is on a bound of the depth of [other]. *)
Fixpoint subtract_reset_fuel (n : nat) (self : Mask) (other : option Mask) : Mask :=
  match n, other with
  | O, _ | _, None => self
  | S n, Some o =>
      mkMask
        (match any self with
         | Some a =>
             let a' := subtract_reset_fuel n a (any o) in
             if is_empty a' then None else Some a'
         | None => None
         end)
        (flat_map (fun '(k, v) =>
            match any o, dict_get (field_parts o) k with
            | None, None => [(k, v)]
            | oa, ov =>
                let v1 := match oa with
                          | Some _ => subtract_reset_fuel n v oa
                          | None => v
                          end in
                let v2 := match ov with
                          | Some _ => subtract_reset_fuel n v1 ov
                          | None => v1
                          end in
                if is_empty v2 then [] else [(k, v2)]
            end) (field_parts self))
  end.

Definition subtract_reset_mask (self : Mask) (other : option Mask) : Mask :=
  match other with
  | None => self
  | Some o => subtract_reset_fuel (S (depth o)) self other
  end.

(** [self - other] *)
Definition sub (self : Mask) (other : option Mask) : Mask :=
  subtract_reset_mask (copy self) other.

End Mask.

(** ** FieldPath *)

Module FieldPath.

(** The loop of [__init__] and [__iadd__]: elements are appended until one is
    not a string; the path reached so far stays. *)
Fixpoint extend (self : list pystr) (value : list py_key) : list pystr * option fm_error :=
  match value with
  | [] => (self, None)
  | KStr s :: value' => extend (self ++ [s]) value'
  | KOther :: _ => (self, Some ValueError)
  end.

(** [FieldPath(base)] *)
Definition init (base : option (list py_key)) : result fm_error (list pystr) :=
  match base with
  | None => Ok []
  | Some vs => match extend [] vs with (p, None) => Ok p | (_, Some e) => Raise e end
  end.

Definition parent (self : list pystr) : option (list pystr) :=
  match self with [] => None | _ :: _ => Some (take (length self - 1) self) end.

Fixpoint to_mask (self : list pystr) : Mask :=
  match self with
  | [] => emptyMask
  | v :: rest => mkMask None [(v, to_mask rest)]
  end.

(** [_matches_reset_mask(fp, mask)]: does the path lead to a node, and does one
    of those nodes end the mask. *)
Fixpoint _matches_reset_mask (fp : list pystr) (mask : option Mask) : bool * bool :=
  match mask with
  | None => (false, false)
  | Some m =>
      match fp with
      | [] => (true, Mask.is_empty m)
      | key :: rest =>
          let '(has_match, is_final) :=
            match any m with
            | Some a => _matches_reset_mask rest (Some a)
            | None => (false, false)
            end in
          match dict_get (field_parts m) key with
          | Some part =>
              let '(k_match, k_final) := _matches_reset_mask rest (Some part) in
              (has_match || k_match, if k_match then is_final || k_final else is_final)
          | None => (has_match, is_final)
          end
      end
  end.

Fixpoint _matches_select_mask (fp : list pystr) (mask : option Mask) : bool * bool :=
  match mask with
  | None => (true, negb (length fp =? 0)%nat)
  | Some m =>
      if Mask.is_empty m then (true, negb (length fp =? 0)%nat) else
      match fp with
      | [] => (true, false)
      | key :: rest =>
          let '(has_match, is_inner) :=
            match any m with
            | Some a => _matches_select_mask rest (Some a)
            | None => (false, false)
            end in
          match dict_get (field_parts m) key with
          | Some part =>
              let '(k_match, k_final) := _matches_select_mask rest (Some part) in
              (has_match || k_match, if k_match then is_inner || k_final else is_inner)
          | None => (has_match, is_inner)
          end
      end
  end.

Definition matches_reset_mask (self : list pystr) (mask : option Mask) : bool :=
  let '(ret, _) := _matches_reset_mask self mask in ret.

Definition matches_reset_mask_final (self : list pystr) (mask : option Mask) : bool :=
  let '(ret, fin) := _matches_reset_mask self mask in ret && fin.

Definition matches_select_mask (self : list pystr) (mask : option Mask) : bool :=
  let '(ret, _) := _matches_select_mask self mask in ret.

Definition matches_select_mask_inner (self : list pystr) (mask : option Mask) : bool * bool :=
  _matches_select_mask self mask.

Definition marshal (self : list pystr) : pystr := Mask.marshal (to_mask self).

(** [self += value] *)
Definition iadd (self : list pystr) (value : list py_key) : list pystr * option fm_error :=
  extend self value.

(** [self + other] for a mask [other]: the mask is attached at the last key. *)
Fixpoint add_mask (self : list pystr) (other : Mask) : Mask :=
  match self with
  | [] => emptyMask
  | [v] => mkMask None [(v, other)]
  | v :: rest => mkMask None [(v, add_mask rest other)]
  end.

(** [self + other] for an iterable of keys. *)
Definition add (self : list pystr) (other : list py_key) : result fm_error (list pystr) :=
  match iadd self other with (p, None) => Ok p | (_, Some e) => Raise e end.

Definition eqb (self value : list pystr) : bool := bool_decide (self = value).

Fixpoint prefix_loop (self value : list pystr) : bool :=
  match self, value with
  | [], _ => true
  | v :: self', w :: value' => if bool_decide (w = v) then prefix_loop self' value' else false
  | _ :: _, [] => false
  end.

Definition is_prefix_of (self value : list pystr) : bool :=
  if (length value <=? length self)%nat then false else prefix_loop self value.

End FieldPath.

(** [mask += path]: the operand may be a path. *)
Inductive operand : Type := OMask (m : Mask) | OPath (p : list pystr) | ONone.

Definition Mask_iadd (self : Mask) (other : operand) : Mask :=
  match other with
  | OMask m => Mask.iadd self m
  | OPath p => Mask.iadd self (FieldPath.to_mask p)
  | ONone => self
  end.
