(* ===== verification/FieldMaskSpec.v ===== *)
(** * What field masks mean

    A mask denotes a prefix-closed set of patterns: [has m p] says that the
    pattern [p], a sequence of wildcards and keys, leads to a node of [m].
    This file gives the children of the result of every operation of
    [FieldMask] and derives its effect on that set. *)
From S2P Require Import Prelude PyStr Json FieldMask.

(** ** Induction, well-formedness, children *)

Lemma Mask_ind (P : Mask -> Prop) :
  (forall a ps, (forall x, a = Some x -> P x) -> (forall k v, (k, v) ∈ ps -> P v) ->
     P (mkMask a ps)) ->
  forall m, P m.
Proof.
  intros H. fix IH 1. intros [a ps]. apply H.
  - intros x Hx. destruct a as [a|]; [|discriminate]. assert (x = a) as -> by congruence. apply IH.
  - assert (Forall (fun kv => P kv.2) ps) as Hall.
    { clear H. induction ps as [|[k0 v0] ps IHps]; constructor; [apply IH|exact IHps]. }
    clear IH. intros k v Hin. by apply (proj1 (Forall_forall _ _) Hall) in Hin.
Qed.

(** Every [field_parts] is a dict: its keys are distinct, at every level. *)
Inductive wf : Mask -> Prop :=
| wf_mk a ps :
    (forall x, a = Some x -> wf x) -> (forall k v, (k, v) ∈ ps -> wf v) -> dict_wf ps ->
    wf (mkMask a ps).

(** One step of a pattern. *)
Inductive step : Type := Star | Key (k : pystr).

#[export] Instance step_eq_dec : EqDecision step.
Proof. solve_decision. Defined.

Definition child (m : Mask) (s : step) : option Mask :=
  match s with Star => any m | Key k => dict_get (field_parts m) k end.

Fixpoint node (m : Mask) (p : list step) : option Mask :=
  match p with
  | [] => Some m
  | s :: p' => match child m s with Some c => node c p' | None => None end
  end.

Definition has (m : Mask) (p : list step) : bool :=
  match node m p with Some _ => true | None => false end.

(** A pattern that ends the mask. *)
Definition leaf (m : Mask) (p : list step) : bool :=
  match node m p with Some c => Mask.is_empty c | None => false end.

Lemma wf_inv a ps :
  wf (mkMask a ps) ->
  (forall x, a = Some x -> wf x) /\ (forall k v, (k, v) ∈ ps -> wf v) /\ dict_wf ps.
Proof. inversion 1; auto. Qed.

Lemma wf_parts m : wf m -> dict_wf (field_parts m).
Proof. destruct m. by intros (_ & _ & ?)%wf_inv. Qed.

Lemma wf_child m s c : wf m -> child m s = Some c -> wf c.
Proof.
  destruct m as [a ps]. intros (Ha & Hps & _)%wf_inv.
  destruct s as [|k]; simpl; [apply Ha|]. intros ?%dict_get_elem. eauto.
Qed.

Lemma wf_intro m :
  (forall s c, child m s = Some c -> wf c) -> dict_wf (field_parts m) -> wf m.
Proof.
  destruct m as [a ps]. intros Hc Hd. simpl in *. constructor; [|intros k v Hin|done].
  - intros x ->. by apply (Hc Star).
  - apply (Hc (Key k)). by apply dict_elem_get.
Qed.

Lemma emptyMask_wf : wf emptyMask.
Proof. apply wf_intro; [by intros [] ?|apply dict_nil_wf]. Qed.

(** Well-formedness, decided. *)
Fixpoint wfb (m : Mask) : bool :=
  match m with
  | mkMask a ps =>
      match a with Some x => wfb x | None => true end &&
      bool_decide (dict_wf ps) && forallb (fun '(_, v) => wfb v) ps
  end.

Lemma wfb_wf m : wfb m = true -> wf m.
Proof.
  induction m as [a ps IHa IHps] using Mask_ind. simpl.
  intros [[Ha Hd%bool_decide_eq_true]%andb_true_iff Hps]%andb_true_iff.
  rewrite forallb_forall in Hps. constructor; [|intros k v Hin|done].
  - intros x ->. by apply IHa.
  - apply (IHps k v Hin). by apply list_elem_of_In, Hps in Hin.
Qed.

#[export] Hint Resolve wf_parts wf_child emptyMask_wf : pysdk.

Lemma has_cons m s p : has m (s :: p) = match child m s with Some c => has c p | None => false end.
Proof. unfold has. simpl. by destruct (child m s). Qed.

Lemma has_nil m : has m [] = true.
Proof. done. Qed.

Lemma leaf_cons m s p :
  leaf m (s :: p) = match child m s with Some c => leaf c p | None => false end.
Proof. unfold leaf. simpl. by destruct (child m s). Qed.

Lemma is_empty_child m : Mask.is_empty m = true <-> forall s, child m s = None.
Proof.
  destruct m as [[a|] [|[k v] ps]]; unfold Mask.is_empty; simpl; split; try done.
  - intros H. by specialize (H Star).
  - intros H. by specialize (H Star).
  - intros _ [|k]; done.
  - intros H. specialize (H (Key k)). simpl in H. by case_decide.
Qed.

(** Two masks with equal children everywhere have the same patterns. *)
Lemma child_depth m s c : child m s = Some c -> (Mask.depth c < Mask.depth m)%nat.
Proof.
  destruct m as [a ps]. destruct s as [|k]; simpl.
  - intros ->. lia.
  - intros Hin%dict_get_elem. induction ps as [|[k0 v0] ps IH].
    + by apply not_elem_of_nil in Hin.
    + apply elem_of_cons in Hin as [[= -> ->]|Hin]; simpl; [lia|]. specialize (IH Hin). lia.
Qed.

(** ** copy *)

Lemma foldl_set_new {V} (f : V -> V) (d ps : list (pystr * V)) :
  dict_wf (d ++ ps) ->
  foldl (fun acc '(k, v) => dict_set acc k (f v)) d ps = d ++ (prod_map id f <$> ps).
Proof.
  revert d. induction ps as [|[k v] ps IH]; intros d Hwf; csimpl; [by rewrite app_nil_r|].
  unfold dict_wf in *. rewrite fmap_app in Hwf. csimpl in Hwf.
  apply NoDup_app in Hwf as (Hd & Hdis & [Hk Hps]%NoDup_cons).
  rewrite dict_set_new by (intros Hin; apply (Hdis _ Hin); left).
  rewrite IH, <- app_assoc; [done|]. rewrite !fmap_app. csimpl.
  rewrite <- app_assoc. apply NoDup_app. split; [done|]. split.
  - intros x Hx. apply Hdis in Hx. done.
  - simpl. by apply NoDup_cons.
Qed.

(** A copy of a mask is the same tree. *)
Lemma copy_id m : wf m -> Mask.copy m = m.
Proof.
  induction m as [a ps IHa IHps] using Mask_ind. intros (Ha & Hps & Hd)%wf_inv. simpl. f_equal.
  - destruct a; [|done]. by rewrite IHa by auto.
  - rewrite (foldl_set_new Mask.copy []) by done. csimpl.
    clear Hd. induction ps as [|[k v] ps IH]; [done|]. csimpl. f_equal.
    + unfold prod_map. simpl. rewrite (IHps k v); [done|left|]. apply (Hps k). left.
    + apply IH; intros k' v' ?; [eapply IHps|eapply Hps]; by right.
Qed.

(** ** iadd *)

(** What merging does to a child. *)
Definition merge_child (x y : option Mask) : option Mask :=
  match x, y with
  | Some a, Some b => Some (Mask.iadd a b)
  | Some a, None => Some a
  | None, y => y
  end.

Lemma is_empty_eq m : Mask.is_empty m = true -> m = emptyMask.
Proof. by destruct m as [[|] []]. Qed.

Lemma iadd_child a b s :
  wf b -> child (Mask.iadd a b) s = merge_child (child a s) (child b s).
Proof.
  intros Hb. destruct b as [oa ops] eqn:Eb. cbn [Mask.iadd].
  destruct (Mask.is_empty _) eqn:He.
  - rewrite (proj1 (is_empty_child _) He). by destruct (child a s).
  - pose proof (wf_inv _ _ Hb) as (Ha & Hps & Hd). destruct s as [|k]; cbn [child any field_parts].
    + destruct (any a), oa; simpl; try done. by rewrite copy_id by auto.
    + erewrite (dict_foldl_get _ (fun k v o => Some (match o with
          Some old => Mask.iadd old v | None => Mask.copy v end))); [|..|done].
      * destruct (dict_get ops k) as [v|] eqn:E; simpl; [|by destruct (dict_get (field_parts a) k)].
        destruct (dict_get (field_parts a) k); simpl; [done|]. rewrite copy_id; [done|].
        apply dict_get_elem in E. eauto.
      * intros acc k0 v k'. destruct (dict_get acc k0) eqn:E; rewrite dict_get_set;
          case_decide; subst; rewrite ?E; done.
Qed.

Lemma iadd_parts_wf a b : wf a -> dict_wf (field_parts (Mask.iadd a b)).
Proof.
  intros Ha. destruct b as [oa ops]. cbn [Mask.iadd]. case_match; [auto with pysdk|].
  cbn [field_parts]. apply dict_foldl_wf; [|auto with pysdk].
  intros. case_match; auto with pysdk.
Qed.

Lemma iadd_wf a b : wf a -> wf b -> wf (Mask.iadd a b).
Proof.
  revert a. induction b as [oa ops IHa IHps] using Mask_ind. intros a Ha Hb.
  apply wf_intro; [|by apply iadd_parts_wf].
  intros s c. rewrite iadd_child by done.
  destruct (child a s) as [x|] eqn:Ex, (child (mkMask oa ops) s) as [y|] eqn:Ey; simpl;
    intros [= <-]; [|by eauto with pysdk..].
  destruct s as [|k]; simpl in Ey.
  - apply IHa; eauto with pysdk. by apply (wf_child (mkMask oa ops) Star).
  - apply (IHps k); [by apply dict_get_elem|eauto with pysdk|].
    by apply (wf_child (mkMask oa ops) (Key k)).
Qed.

(** Merging is the union of the pattern sets. *)
Lemma iadd_has a b p : wf a -> wf b -> has (Mask.iadd a b) p = has a p || has b p.
Proof.
  revert a b. induction p as [|s p IH]; intros a b Ha Hb; [done|].
  rewrite !has_cons, iadd_child by done.
  destruct (child a s) eqn:Ea, (child b s) eqn:Eb; simpl; rewrite ?orb_false_r; eauto with pysdk.
Qed.

Lemma Mask_add_has a b p : wf a -> wf b -> has (Mask.add a b) p = has a p || has b p.
Proof. intros Ha Hb. unfold Mask.add. rewrite copy_id by done. by apply iadd_has. Qed.

Lemma Mask_add_wf a b : wf a -> wf b -> wf (Mask.add a b).
Proof. intros. unfold Mask.add. rewrite copy_id by done. by apply iadd_wf. Qed.

#[export] Hint Resolve iadd_wf Mask_add_wf : pysdk.

(** ** Equality *)

(** The keys of two dicts of the same size agree when one side's are among the
    other's. *)
Lemma dict_same_keys {V} (d1 d2 : list (pystr * V)) :
  dict_wf d1 -> dict_wf d2 -> length d1 = length d2 ->
  (forall k, is_Some (dict_get d1 k) -> is_Some (dict_get d2 k)) ->
  forall k, dict_get d1 k = None -> dict_get d2 k = None.
Proof.
  intros H1 H2 Hlen Hsub k Hk. apply dict_get_None in Hk. apply dict_get_None.
  assert (d1.*1 ≡ₚ d2.*1) as <-; [|done].
  apply submseteq_length_Permutation; [|by rewrite !length_fmap; lia].
  apply NoDup_submseteq; [done|]. intros x Hx.
  destruct (dict_get d2 x) eqn:E.
  - apply dict_get_elem in E. apply list_elem_of_fmap. by exists (x, v).
  - apply dict_get_None in E. destruct (dict_get d1 x) eqn:E1.
    + destruct (Hsub x); [eauto|]. by apply dict_get_None in E; congruence.
    + by apply dict_get_None in E1.
Qed.

Lemma dict_keys_length {V W} (d1 : list (pystr * V)) (d2 : list (pystr * W)) :
  dict_wf d1 -> dict_wf d2 ->
  (forall k, dict_get d1 k = None <-> dict_get d2 k = None) -> length d1 = length d2.
Proof.
  intros H1 H2 Hk. rewrite <- (length_fmap fst d1), <- (length_fmap fst d2).
  apply Permutation_length. apply NoDup_Permutation; [done..|]. intros x.
  specialize (Hk x). rewrite !dict_get_None in Hk.
  destruct (decide (x ∈ d1.*1)), (decide (x ∈ d2.*1)); tauto.
Qed.

Definition same_child (x y : option Mask) : Prop :=
  match x, y with
  | Some a, Some b => Mask.eqb a b = true
  | None, None => True
  | _, _ => False
  end.

Lemma eqb_child a b :
  wf a -> wf b ->
  Mask.eqb a b = true <-> forall s, same_child (child a s) (child b s).
Proof.
  intros Ha Hb. destruct a as [x ps]. cbn [Mask.eqb].
  rewrite !andb_true_iff, Nat.eqb_eq, forallb_forall. split.
  - intros ((Hx & Hlen) & Hps) [|k]; cbn [child any field_parts].
    + destruct x, (any b); done.
    + destruct (dict_get ps k) as [v|] eqn:E.
      * pose proof (dict_get_elem _ _ _ E) as Hin. apply list_elem_of_In, Hps in Hin.
        simpl in Hin. by destruct (dict_get (field_parts b) k).
      * assert (dict_get (field_parts b) k = None) as ->; [|done].
        apply wf_parts in Ha, Hb. eapply (dict_same_keys ps); eauto.
        intros k' [v Hv]. apply dict_get_elem, list_elem_of_In, Hps in Hv.
        simpl in Hv. destruct (dict_get (field_parts b) k'); [eauto|done].
  - intros Hs. split; [split|].
    + specialize (Hs Star). simpl in Hs. by destruct x, (any b).
    + apply dict_keys_length; [by apply wf_parts in Ha|by apply wf_parts|].
      intros k. specialize (Hs (Key k)). simpl in Hs.
      by destruct (dict_get ps k), (dict_get (field_parts b) k).
    + intros [k v] Hin%list_elem_of_In. apply wf_parts in Ha. simpl in Ha.
      apply dict_elem_get in Hin; [|done]. specialize (Hs (Key k)). simpl in Hs.
      rewrite Hin in Hs. by destruct (dict_get (field_parts b) k).
Qed.

(** [==] decides equality of the denoted pattern sets. *)
Lemma eqb_has a b :
  wf a -> wf b -> Mask.eqb a b = true <-> forall p, has a p = has b p.
Proof.
  intros Ha Hb. split.
  - intros He p. revert a b Ha Hb He. induction p as [|s p IH]; intros a b Ha Hb He; [done|].
    rewrite eqb_child in He by done. specialize (He s). rewrite !has_cons.
    destruct (child a s) eqn:Ea, (child b s) eqn:Eb; try done. eauto with pysdk.
  - revert b Ha Hb. induction a as [x ps IHa IHps] using Mask_ind. intros b Ha Hb Hh.
    rewrite eqb_child by done. intros s.
    pose proof (Hh [s]) as Hs. rewrite !has_cons in Hs.
    destruct (child (mkMask x ps) s) as [c|] eqn:Ea, (child b s) as [d|] eqn:Eb; try done.
    assert (forall p, has c p = has d p) as Hp.
    { intros p. specialize (Hh (s :: p)). by rewrite !has_cons, Ea, Eb in Hh. }
    pose proof (wf_child _ _ _ Ha Ea). pose proof (wf_child _ _ _ Hb Eb). simpl.
    destruct s as [|k]; simpl in Ea; [by apply IHa|].
    apply (IHps k); eauto using dict_get_elem.
Qed.

Lemma eqb_sym a b : wf a -> wf b -> Mask.eqb a b = Mask.eqb b a.
Proof. intros Ha Hb. apply eq_bool_prop_intro. rewrite !Is_true_true, !eqb_has by done. by split. Qed.

(** A stack with room for the nesting of one of the two masks is deep enough. *)
Lemma eq_eqb room a b :
  wf a -> wf b -> (Mask.depth a < room)%nat \/ (Mask.depth b < room)%nat -> Mask.__eq__ room a b = Mask.eqb a b.
Proof.
  revert a b. induction room as [|room IH]; intros [x ps] [y qs] Ha Hb Hd; [lia|].
  assert (forall s c d, child (mkMask x ps) s = Some c -> child (mkMask y qs) s = Some d ->
    wf c /\ wf d /\ ((Mask.depth c < room)%nat \/ (Mask.depth d < room)%nat)) as Hc.
  { intros s c d Hs Ht. split; [by apply (wf_child _ _ _ Ha Hs)|split; [by apply (wf_child _ _ _ Hb Ht)|]].
    apply child_depth in Hs, Ht. lia. }
  cbn [Mask.__eq__ Mask.eqb any field_parts]. f_equal; [f_equal|].
  - destruct x as [c|], y as [d|]; try done. destruct (Hc Star c d) as (? & ? & ?); auto.
  - apply eq_bool_prop_intro. rewrite !Is_true_true, !forallb_forall.
    apply forall_proper. intros [k v]. destruct (dict_get qs k) as [w|] eqn:E; [|done].
    assert (In (k, v) ps -> Mask.__eq__ room w v = Mask.eqb v w) as Heq; [|by split; intros H Hi; specialize (H Hi); [rewrite <- Heq|rewrite Heq]].
    intros Hin%list_elem_of_In. apply dict_elem_get in Hin; [|by apply wf_parts in Ha].
    destruct (Hc (Key k) v w) as (? & ? & Hor); auto. rewrite IH by tauto. by apply eqb_sym.
Qed.

(** ** intersect_dumb *)

Definition meet_child (x y : option Mask) : option Mask :=
  match x, y with Some a, Some b => Mask.intersect_dumb a (Some b) | _, _ => None end.

Lemma set_part_wf parts k o : dict_wf parts -> dict_wf (Mask.set_part parts k o).
Proof. destruct o; simpl; auto with pysdk. Qed.

Lemma set_part_get parts k o k' :
  dict_get (Mask.set_part parts k o) k' =
  if decide (k' = k) then (match o with Some m => Some m | None => dict_get parts k end)
  else dict_get parts k'.
Proof. destruct o; simpl; [apply dict_get_set|]. case_decide; by subst. Qed.

Lemma intersect_dumb_child a b :
  wf a -> exists r, Mask.intersect_dumb a (Some b) = Some r /\
  (forall s, child r s = meet_child (child a s) (child b s)) /\ dict_wf (field_parts r).
Proof.
  intros Ha. destruct a as [x ps]. cbn [Mask.intersect_dumb]. eexists. split; [done|].
  apply wf_parts in Ha. simpl in Ha. split.
  - intros [|k]; cbn [child any field_parts].
    + destruct x; [|done]. by destruct (any b), m.
    + erewrite (dict_foldl_get _ (fun k v o => match dict_get (field_parts b) k with
          Some ov => match Mask.intersect_dumb v (Some ov) with Some m => Some m | None => o end
        | None => o end)); [|..|done].
      * destruct (dict_get ps k) as [v|]; [|done]. simpl.
        destruct (dict_get (field_parts b) k); [|done]. by case_match.
      * intros acc k0 v k'. destruct (dict_get (field_parts b) k0).
        -- apply set_part_get.
        -- case_decide; by subst.
  - cbn [field_parts]. apply dict_foldl_wf; [|apply dict_nil_wf].
    intros. case_match; auto using set_part_wf.
Qed.

(** The simple intersection is the intersection of the pattern sets. *)
Lemma intersect_dumb_has a b :
  wf a -> wf b -> exists r, Mask.intersect_dumb a (Some b) = Some r /\ wf r /\
  forall p, has r p = has a p && has b p.
Proof.
  revert b. induction a as [x ps IHa IHps] using Mask_ind. intros b Ha Hb.
  destruct (intersect_dumb_child (mkMask x ps) b Ha) as (r & Hr & Hc & Hd).
  assert (forall s c d, child (mkMask x ps) s = Some c -> child b s = Some d ->
    exists r', Mask.intersect_dumb c (Some d) = Some r' /\ wf r' /\
      forall p, has r' p = has c p && has d p) as IH.
  { intros s c d Es Ed. pose proof (wf_child _ _ _ Ha Es). pose proof (wf_child _ _ _ Hb Ed).
    destruct s as [|k]; simpl in Es; [by apply IHa|].
    apply (IHps k); eauto using dict_get_elem. }
  exists r. split; [done|]. split.
  - apply wf_intro; [|done]. intros s c Hs. rewrite Hc in Hs. unfold meet_child in Hs.
    destruct (child (mkMask x ps) s) eqn:Es, (child b s) eqn:Ed; try done.
    destruct (IH s _ _ Es Ed) as (r' & Hr' & Hw & _). congruence.
  - intros [|s p]; [done|]. rewrite !has_cons, Hc. unfold meet_child.
    destruct (child (mkMask x ps) s) eqn:Es, (child b s) eqn:Ed; try done;
      [|by rewrite andb_false_r].
    destruct (IH s _ _ Es Ed) as (r' & -> & _ & Hp). apply Hp.
Qed.
