(* ===== verification/ResetMask.v ===== *)
(** * Matching paths against masks; reset-mask intersection and subtraction

    The concrete side of [FieldMask]: which field paths a mask covers, and what
    [sub_mask], [intersect_reset_mask] and the two subtractions do to the
    covered paths. *)
From S2P Require Import Prelude PyStr Json FieldMask FieldMaskSpec.

(** ** Patterns and paths *)

Definition step_covers (s : step) (k : pystr) : bool :=
  match s with Star => true | Key k' => bool_decide (k' = k) end.

(** A pattern matches a path of the same length, step by step. *)
Fixpoint pattern_matches (q : list step) (p : list pystr) : bool :=
  match q, p with
  | [], [] => true
  | s :: q', k :: p' => step_covers s k && pattern_matches q' p'
  | _, _ => false
  end.

Definition opt_match (o : option Mask) (p : list pystr) : bool :=
  FieldPath.matches_reset_mask p o.

Definition opt_final (o : option Mask) (p : list pystr) : bool :=
  snd (FieldPath._matches_reset_mask p o).

Lemma opt_match_none p : opt_match None p = false.
Proof. unfold opt_match, FieldPath.matches_reset_mask. by destruct p. Qed.

Lemma opt_final_none p : opt_final None p = false.
Proof. unfold opt_final. by destruct p. Qed.

Lemma opt_match_nil m : opt_match (Some m) [] = true.
Proof. done. Qed.

Lemma reset_pair p o : FieldPath._matches_reset_mask p o = (opt_match o p, opt_final o p).
Proof.
  unfold opt_match, opt_final, FieldPath.matches_reset_mask.
  by destruct (FieldPath._matches_reset_mask p o).
Qed.

(** [is_final] is only reported together with a match. *)
Lemma reset_cons m k p :
  FieldPath._matches_reset_mask (k :: p) (Some m) =
  let '(h, f) := match any m with Some a => FieldPath._matches_reset_mask p (Some a)
                 | None => (false, false) end in
  match dict_get (field_parts m) k with
  | Some part => let '(km, kf) := FieldPath._matches_reset_mask p (Some part) in
                 (h || km, if km then f || kf else f)
  | None => (h, f)
  end.
Proof. done. Qed.

Lemma opt_match_cons m k p :
  opt_match (Some m) (k :: p) =
  opt_match (any m) p || opt_match (dict_get (field_parts m) k) p.
Proof.
  unfold opt_match at 1, FieldPath.matches_reset_mask. rewrite reset_cons.
  destruct (any m), (dict_get (field_parts m) k); rewrite ?reset_pair, ?opt_match_none;
    rewrite ?orb_false_r; done.
Qed.

Lemma opt_final_match p o : opt_final o p = true -> opt_match o p = true.
Proof.
  revert o. induction p as [|k p IH]; intros [m|]; try by rewrite opt_final_none. { done. }
  unfold opt_final. rewrite reset_cons, opt_match_cons.
  destruct (any m) as [a|], (dict_get (field_parts m) k) as [b|];
    rewrite ?reset_pair, ?opt_match_none; simpl; try done.
  - destruct (opt_match (Some b) p) eqn:E; simpl; [by rewrite orb_true_r|].
    intros H%IH. by rewrite H.
  - rewrite orb_false_r. apply IH.
  - destruct (opt_match (Some b) p) eqn:E; simpl; done.
Qed.

Lemma opt_final_cons m k p :
  opt_final (Some m) (k :: p) =
  opt_final (any m) p || opt_final (dict_get (field_parts m) k) p.
Proof.
  unfold opt_final at 1. rewrite reset_cons.
  destruct (any m) as [a|], (dict_get (field_parts m) k) as [b|];
    rewrite ?reset_pair, ?opt_final_none, ?orb_false_r; simpl; try done.
  - destruct (opt_match (Some b) p) eqn:E; simpl; [done|].
    destruct (opt_final (Some b) p) eqn:E2; [|by rewrite orb_false_r].
    apply opt_final_match in E2. congruence.
  - destruct (opt_match (Some b) p) eqn:E; simpl; [done|].
    destruct (opt_final (Some b) p) eqn:E2; [|done].
    apply opt_final_match in E2. congruence.
Qed.

(** A path is matched exactly when some pattern of the mask matches it. *)
Lemma opt_match_spec m p :
  opt_match (Some m) p = true <-> exists q, has m q = true /\ pattern_matches q p = true.
Proof.
  revert m. induction p as [|k p IH]; intros m.
  - split; [|done]. intros _. by exists [].
  - rewrite opt_match_cons, orb_true_iff. split.
    + intros [H|H].
      * destruct (any m) as [a|] eqn:E; [|by rewrite opt_match_none in H].
        apply IH in H as (q & Hq & Hm). exists (Star :: q). rewrite has_cons. simpl.
        by rewrite E.
      * destruct (dict_get (field_parts m) k) as [a|] eqn:E; [|by rewrite opt_match_none in H].
        apply IH in H as (q & Hq & Hm). exists (Key k :: q). rewrite has_cons. simpl.
        by rewrite E, bool_decide_true.
    + intros (q & Hq & Hm). destruct q as [|s q]; [done|]. rewrite has_cons in Hq.
      simpl in Hm. apply andb_true_iff in Hm as [Hs Hm].
      destruct s as [|k']; simpl in Hq, Hs.
      * left. destruct (any m); [|done]. apply IH. eauto.
      * right. case_bool_decide; [subst|done].
        destruct (dict_get (field_parts m) k); [|done]. apply IH. eauto.
Qed.

Lemma opt_final_spec m p :
  opt_final (Some m) p = true <-> exists q, leaf m q = true /\ pattern_matches q p = true.
Proof.
  revert m. induction p as [|k p IH]; intros m.
  - unfold opt_final. simpl. split; [intros; by exists []|].
    intros ([|s q] & Hl & Hm); [done|]. by destruct s.
  - rewrite opt_final_cons, orb_true_iff. split.
    + intros [H|H].
      * destruct (any m) as [a|] eqn:E; [|by rewrite opt_final_none in H].
        apply IH in H as (q & Hq & Hm). exists (Star :: q). rewrite leaf_cons. simpl.
        by rewrite E.
      * destruct (dict_get (field_parts m) k) as [a|] eqn:E; [|by rewrite opt_final_none in H].
        apply IH in H as (q & Hq & Hm). exists (Key k :: q). rewrite leaf_cons. simpl.
        by rewrite E, bool_decide_true.
    + intros (q & Hq & Hm). destruct q as [|s q]; [done|]. rewrite leaf_cons in Hq.
      simpl in Hm. apply andb_true_iff in Hm as [Hs Hm].
      destruct s as [|k']; simpl in Hq, Hs.
      * left. destruct (any m); [|done]. apply IH. eauto.
      * right. case_bool_decide; [subst|done].
        destruct (dict_get (field_parts m) k); [|done]. apply IH. eauto.
Qed.

(** ** Merging and [sub_mask] *)

Lemma opt_match_merge x y p :
  (forall m, x = Some m -> wf m) -> (forall m, y = Some m -> wf m) ->
  opt_match (merge_child x y) p = opt_match x p || opt_match y p.
Proof.
  intros Hx Hy. destruct x as [a|], y as [b|]; simpl;
    rewrite ?opt_match_none, ?orb_false_r; try done.
  specialize (Hx a eq_refl). specialize (Hy b eq_refl).
  revert a b Hx Hy. induction p as [|k p IH]; intros a b Ha Hb; [done|].
  pose proof (iadd_child a b Star Hb) as Hs. pose proof (iadd_child a b (Key k) Hb) as Hk.
  cbn [child] in Hs, Hk. rewrite !opt_match_cons, Hs, Hk.
  assert (forall x y, (forall m, x = Some m -> wf m) -> (forall m, y = Some m -> wf m) ->
    opt_match (merge_child x y) p = opt_match x p || opt_match y p) as IH'.
  { intros x y Hx Hy. destruct x, y; simpl; rewrite ?opt_match_none, ?orb_false_r; auto. }
  rewrite !IH' by (intros m Em; first [by apply (wf_child a Star) | by apply (wf_child b Star)
    | by apply (wf_child a (Key k)) | by apply (wf_child b (Key k))]).
  by destruct (opt_match (any a) p), (opt_match (any b) p),
    (opt_match (dict_get (field_parts a) k) p), (opt_match (dict_get (field_parts b) k) p).
Qed.

Lemma sub_mask_key_merge m k :
  wf m -> Mask.sub_mask_key m k = merge_child (dict_get (field_parts m) k) (any m).
Proof.
  intros Hm. unfold Mask.sub_mask_key.
  destruct (dict_get (field_parts m) k) as [part|] eqn:E, (any m) as [a|] eqn:Ea; simpl; try done.
  rewrite copy_id; [done|]. by apply (wf_child m (Key k)).
Qed.

Lemma sub_mask_key_wf m k r : wf m -> Mask.sub_mask_key m k = Some r -> wf r.
Proof.
  intros Hm. rewrite sub_mask_key_merge by done.
  destruct (dict_get (field_parts m) k) as [part|] eqn:E, (any m) as [a|] eqn:Ea; simpl;
    intros [= <-]; try apply iadd_wf;
    first [by apply (wf_child m (Key k)) | by apply (wf_child m Star)].
Qed.

(** Going down one key, then matching, is matching the longer path. *)
Lemma sub_mask_key_match m k p :
  wf m -> opt_match (Mask.sub_mask_key m k) p = opt_match (Some m) (k :: p).
Proof.
  intros Hm. rewrite sub_mask_key_merge by done. rewrite opt_match_merge.
  - rewrite opt_match_cons. apply orb_comm.
  - intros c. by apply (wf_child m (Key k)).
  - intros c. by apply (wf_child m Star).
Qed.

Lemma sub_mask_match m p p' :
  wf m -> opt_match (Mask.sub_mask m p) p' = opt_match (Some m) (p ++ p').
Proof.
  revert m. induction p as [|k p IH]; intros m Hm; [done|]. simpl.
  pose proof (sub_mask_key_match m k (p ++ p') Hm) as Hk.
  destruct (Mask.sub_mask_key m k) as [r|] eqn:E.
  - rewrite IH by (by eapply sub_mask_key_wf). exact Hk.
  - by rewrite <- Hk, !opt_match_none.
Qed.

(** ** intersect_reset_mask *)

Lemma merge_part_get parts k o k' :
  dict_get (Mask.merge_part parts k o) k' =
  if decide (k' = k) then merge_child (dict_get parts k) o else dict_get parts k'.
Proof.
  unfold Mask.merge_part. destruct o as [m|].
  - destruct (dict_get parts k) eqn:E; rewrite dict_get_set; by case_decide.
  - case_decide; [subst|done]. by destruct (dict_get parts k).
Qed.

Lemma merge_part_wf parts k o : dict_wf parts -> dict_wf (Mask.merge_part parts k o).
Proof. unfold Mask.merge_part. intros. repeat case_match; auto with pysdk. Qed.

Definition inter2 (n : nat) (x y : option Mask) : option Mask :=
  match x, y with
  | Some a, Some b => Mask.intersect_reset_fuel n a (Some b)
  | _, _ => None
  end.

Lemma merge_child_none_r x : merge_child x None = x.
Proof. by destruct x. Qed.

(** The wildcard and the named children of an intersection: a name collects the
    intersections of every pair of branches that can reach it. *)
Lemma intersect_reset_child n a o :
  wf a -> wf o ->
  exists r, Mask.intersect_reset_fuel (S n) a (Some o) = Some r /\
  any r = inter2 n (any a) (any o) /\ dict_wf (field_parts r) /\
  forall k, dict_get (field_parts r) k =
    merge_child
      (merge_child (inter2 n (any a) (dict_get (field_parts o) k))
                   (inter2 n (any o) (dict_get (field_parts a) k)))
      (inter2 n (dict_get (field_parts a) k) (dict_get (field_parts o) k)).
Proof.
  intros Ha%wf_parts Ho%wf_parts. eexists. split; [reflexivity|]. cbn [any field_parts].
  split; [destruct (any a), (any o); try done; by destruct n|].
  set (p1 := match any a with Some x => foldl _ [] (field_parts o) | None => [] end).
  assert (dict_wf p1) as Hw1.
  { subst p1. destruct (any a); [|apply dict_nil_wf].
    apply dict_foldl_wf; [|apply dict_nil_wf]. intros; by apply set_part_wf. }
  assert (forall k, dict_get p1 k = inter2 n (any a) (dict_get (field_parts o) k)) as Hp1.
  { intros k. subst p1. destruct (any a) as [x|]; [|done].
    erewrite (dict_foldl_get _ (fun k v w => match Mask.intersect_reset_fuel n x (Some v) with
      Some m => Some m | None => w end)); [|intros; apply set_part_get|done].
    destruct (dict_get (field_parts o) k); [|done]. simpl. by case_match. }
  set (p2 := match any o with Some oa => foldl _ p1 (field_parts a) | None => p1 end).
  assert (dict_wf p2) as Hw2.
  { subst p2. destruct (any o); [|done]. apply dict_foldl_wf; [|done].
    intros; by apply merge_part_wf. }
  assert (forall k, dict_get p2 k = merge_child (dict_get p1 k)
    (inter2 n (any o) (dict_get (field_parts a) k))) as Hp2.
  { intros k. subst p2. destruct (any o) as [oa|]; [|by rewrite merge_child_none_r].
    erewrite (dict_foldl_get _ (fun k v w => merge_child w
      (Mask.intersect_reset_fuel n oa (Some v)))); [|intros; apply merge_part_get|done].
    destruct (dict_get (field_parts a) k); simpl; [done|by rewrite merge_child_none_r]. }
  split.
  - apply dict_foldl_wf; [|done]. intros. case_match; auto using merge_part_wf.
  - intros k. rewrite <- Hp1, <- Hp2.
    erewrite (dict_foldl_get _ (fun k v w => merge_child w
      (inter2 n (Some v) (dict_get (field_parts o) k)))); [|..|done].
    + destruct (dict_get (field_parts a) k); simpl; [done|by rewrite merge_child_none_r].
    + intros acc k0 v k'. destruct (dict_get (field_parts o) k0) as [ov|] eqn:E; cbn [inter2].
      * rewrite merge_part_get. done.
      * rewrite merge_child_none_r. case_decide; by subst.
Qed.

Definition opt_wf (o : option Mask) : Prop := forall m, o = Some m -> wf m.

Lemma merge_child_wf x y : opt_wf x -> opt_wf y -> opt_wf (merge_child x y).
Proof.
  unfold opt_wf. intros Hx Hy m. destruct x, y; simpl; intros [= <-]; auto with pysdk.
Qed.

(** What is known of the intersection of two optional branches. *)
Definition inter_spec (x y r : option Mask) : Prop :=
  opt_wf r /\ forall p, opt_match r p = opt_match x p && opt_match y p.

Lemma intersect_reset_spec n a o :
  wf a -> wf o -> (Mask.depth a <= n)%nat -> (Mask.depth o <= n)%nat ->
  exists r, Mask.intersect_reset_fuel n a (Some o) = Some r /\ wf r /\
  forall p, opt_match (Some r) p = opt_match (Some a) p && opt_match (Some o) p.
Proof.
  revert a o. induction n as [|n IH]; intros a o Ha Ho Hda Hdo; [destruct a; simpl in Hda; lia|].
  destruct (intersect_reset_child n a o Ha Ho) as (r & Hr & Hany & Hd & Hparts).
  assert (forall x y, (forall m, x = Some m -> wf m /\ (Mask.depth m <= n)%nat) ->
    (forall m, y = Some m -> wf m /\ (Mask.depth m <= n)%nat) ->
    inter_spec x y (inter2 n x y)) as Hi.
  { intros [x|] [y|] Hx Hy; cbn [inter2]; try (split; [by intros ?|]; intros p;
      rewrite !opt_match_none, ?andb_false_r; done).
    destruct (Hx _ eq_refl), (Hy _ eq_refl).
    destruct (IH x y) as (r' & -> & Hw & Hp); try done. split; [by intros ? [= <-]|done]. }
  assert (forall m s c, wf m -> (Mask.depth m <= S n)%nat -> child m s = Some c ->
    wf c /\ (Mask.depth c <= n)%nat) as Hc.
  { intros m s c Hm Hdm Hs. split; [by eapply wf_child|]. apply child_depth in Hs. lia. }
  pose proof (fun m => Hc a Star m Ha Hda) as Ha1. pose proof (fun m => Hc o Star m Ho Hdo) as Ho1.
  pose proof (fun k m => Hc a (Key k) m Ha Hda) as Ha2.
  pose proof (fun k m => Hc o (Key k) m Ho Hdo) as Ho2. simpl in Ha1, Ho1, Ha2, Ho2.
  pose proof (Hi _ _ Ha1 Ho1) as [Hwa Hma].
  exists r. split; [done|]. split.
  - apply wf_intro; [|done]. intros [|k] c; simpl; [rewrite Hany; apply Hwa|].
    rewrite Hparts. apply merge_child_wf; [apply merge_child_wf|]; apply Hi; eauto.
  - intros [|k p]; [done|]. rewrite !opt_match_cons, Hany, Hparts.
    destruct (Hi _ _ Ha1 (Ho2 k)) as [Hw1 Hm1]. destruct (Hi _ _ Ho1 (Ha2 k)) as [Hw2 Hm2].
    destruct (Hi _ _ (Ha2 k) (Ho2 k)) as [Hw3 Hm3].
    rewrite !opt_match_merge by (done || by apply merge_child_wf).
    rewrite Hma, Hm1, Hm2, Hm3.
    by destruct (opt_match (any a) p), (opt_match (any o) p),
      (opt_match (dict_get (field_parts a) k) p), (opt_match (dict_get (field_parts o) k) p).
Qed.

(** ** The subtractions *)

Definition drop_empty (m : Mask) : option Mask := if Mask.is_empty m then None else Some m.

Definition diff_child (x y : option Mask) : option Mask :=
  match x, y with
  | Some a, Some b => drop_empty (Mask.subtract_dumb a (Some b))
  | x, _ => x
  end.

Lemma subtract_dumb_child a b s :
  wf a -> child (Mask.subtract_dumb a (Some b)) s = diff_child (child a s) (child b s).
Proof.
  intros Ha. destruct a as [x ps]. cbn [Mask.subtract_dumb].
  apply wf_parts in Ha. simpl in Ha. destruct s as [|k]; cbn [child any field_parts].
  - by destruct x, (any b).
  - rewrite (dict_flat_map_get _ (fun k v => diff_child (Some v) (dict_get (field_parts b) k)));
      [|..|done].
    + by destruct (dict_get ps k), (dict_get (field_parts b) k).
    + intros k0 v. destruct (dict_get (field_parts b) k0); simpl; [|done].
      unfold drop_empty. by case_match.
Qed.

Lemma subtract_dumb_parts_wf a b : wf a -> dict_wf (field_parts (Mask.subtract_dumb a (Some b))).
Proof.
  intros Ha%wf_parts. destruct a as [x ps]. cbn [Mask.subtract_dumb field_parts] in *.
  apply (dict_flat_map_wf _ (fun k v => diff_child (Some v) (dict_get (field_parts b) k)));
    [|done].
  intros k0 v. destruct (dict_get (field_parts b) k0); simpl; [|done].
  unfold drop_empty. by case_match.
Qed.

Lemma drop_empty_leaf m s p : match drop_empty m with Some c => leaf c (s :: p) | None => false end = leaf m (s :: p).
Proof.
  unfold drop_empty. destruct (Mask.is_empty m) eqn:E; [|done].
  rewrite leaf_cons. by rewrite (proj1 (is_empty_child m) E).
Qed.

Lemma drop_empty_leaf_nil m : match drop_empty m with Some c => leaf c [] | None => false end = false.
Proof. unfold drop_empty, leaf. destruct (Mask.is_empty m) eqn:E; simpl; by rewrite ?E. Qed.

(** Simple subtraction removes exactly the leaves that are nodes of the other
    mask. *)
Lemma subtract_dumb_leaf a b s p :
  wf a ->
  leaf (Mask.subtract_dumb a (Some b)) (s :: p) = leaf a (s :: p) && negb (has b (s :: p)).
Proof.
  revert a b s. induction p as [|s' p IH]; intros a b s Ha;
    rewrite !leaf_cons, has_cons, subtract_dumb_child by done; unfold diff_child;
    destruct (child a s) as [x|] eqn:Ex, (child b s) as [y|] eqn:Ey; simpl;
    rewrite ?andb_true_r; try done.
  - rewrite drop_empty_leaf_nil. by rewrite andb_false_r.
  - rewrite drop_empty_leaf. apply IH. eauto with pysdk.
Qed.

Lemma subtract_dumb_wf a b : wf a -> wf (Mask.subtract_dumb a (Some b)).
Proof.
  revert b. induction a as [x ps IHa IHps] using Mask_ind. intros b Ha.
  apply wf_intro; [|by apply subtract_dumb_parts_wf].
  intros s c. rewrite subtract_dumb_child by done. unfold diff_child.
  destruct (child (mkMask x ps) s) as [y|] eqn:Es; [|done].
  pose proof (wf_child _ _ _ Ha Es). destruct (child b s); [|by intros [= <-]].
  unfold drop_empty. case_match; [done|]. intros [= <-].
  destruct s as [|k]; simpl in Es; [by apply IHa|]. apply (IHps k); eauto using dict_get_elem.
Qed.

(** *** subtract_reset_mask *)

Definition reset_child (n : nat) (v oa ok : option Mask) : option Mask :=
  match v, oa, ok with
  | None, _, _ => None
  | Some v, None, None => Some v
  | Some v, oa, ok =>
      drop_empty (Mask.subtract_reset_fuel n (Mask.subtract_reset_fuel n v oa) ok)
  end.

Lemma subtract_reset_none n a : Mask.subtract_reset_fuel n a None = a.
Proof. by destruct n. Qed.

Lemma subtract_reset_any n a o :
  any (Mask.subtract_reset_fuel (S n) a (Some o)) =
  match any a with Some x => drop_empty (Mask.subtract_reset_fuel n x (any o)) | None => None end.
Proof. simpl. by destruct (any a). Qed.

Lemma subtract_reset_entry n o k v :
  (match any o, dict_get (field_parts o) k with
   | None, None => [(k, v)]
   | oa, ov =>
       let v1 := match oa with Some _ => Mask.subtract_reset_fuel n v oa | None => v end in
       let v2 := match ov with Some _ => Mask.subtract_reset_fuel n v1 ov | None => v1 end in
       if Mask.is_empty v2 then [] else [(k, v2)]
   end) =
  match reset_child n (Some v) (any o) (dict_get (field_parts o) k) with
  | Some w => [(k, w)]
  | None => []
  end.
Proof.
  unfold reset_child, drop_empty.
  destruct (any o), (dict_get (field_parts o) k); cbv zeta; rewrite ?subtract_reset_none;
    try done; by case_match.
Qed.

Lemma subtract_reset_key n a o k :
  wf a ->
  dict_get (field_parts (Mask.subtract_reset_fuel (S n) a (Some o))) k =
  reset_child n (dict_get (field_parts a) k) (any o) (dict_get (field_parts o) k).
Proof.
  intros Ha%wf_parts. cbn [Mask.subtract_reset_fuel field_parts].
  erewrite (dict_flat_map_get _ (fun k v =>
    reset_child n (Some v) (any o) (dict_get (field_parts o) k))); [|..|done].
  - by destruct (dict_get (field_parts a) k).
  - intros. apply subtract_reset_entry.
Qed.

Lemma subtract_reset_wf n a o : wf a -> wf (Mask.subtract_reset_fuel n a o).
Proof.
  revert a o. induction n as [|n IH]; intros a [o|] Ha; try done.
  assert (forall v r, wf v -> drop_empty v = Some r -> wf r) as Hde.
  { intros v r Hv. unfold drop_empty. case_match; [done|]. by intros [= <-]. }
  apply wf_intro.
  - intros [|k] c; cbn [child].
    + rewrite subtract_reset_any. destruct (any a) as [x|] eqn:Ex; [|done].
      apply Hde, IH. by apply (wf_child a Star).
    + rewrite subtract_reset_key by done. destruct (dict_get (field_parts a) k) as [v|] eqn:Ev; [|done].
      assert (wf v) by (by apply (wf_child a (Key k))).
      unfold reset_child. destruct (any o), (dict_get (field_parts o) k);
        try (apply Hde; auto); by intros [= <-].
  - cbn [Mask.subtract_reset_fuel field_parts].
    apply (dict_flat_map_wf _ (fun k v =>
      reset_child n (Some v) (any o) (dict_get (field_parts o) k)));
      [intros; apply subtract_reset_entry|by apply wf_parts].
Qed.

(** The leaves [subtract_reset_mask] removes: a pattern ending in a wildcard
    step goes as soon as its parent is visited, any other pattern when a
    pattern of the subtrahend covers it. *)
Fixpoint killed (q : list step) (o : Mask) : bool :=
  match q with
  | [] => false
  | Star :: q' =>
      match q' with
      | [] => true
      | _ :: _ => match any o with Some oa => killed q' oa | None => false end
      end
  | Key k :: q' =>
      match q' with
      | [] => match any o, dict_get (field_parts o) k with None, None => false | _, _ => true end
      | _ :: _ =>
          match any o with Some oa => killed q' oa | None => false end ||
          match dict_get (field_parts o) k with Some ov => killed q' ov | None => false end
      end
  end.

Definition opt_killed (q : list step) (o : option Mask) : bool :=
  match o with Some m => killed q m | None => false end.

Lemma subtract_reset_leaf n a o s q :
  wf a -> (forall m, o = Some m -> (Mask.depth m < n)%nat) ->
  leaf (Mask.subtract_reset_fuel n a o) (s :: q) = leaf a (s :: q) && negb (opt_killed (s :: q) o).
Proof.
  revert n a o s. induction q as [|s' q IH]; intros n a [o|] s Ha Hn;
    try (rewrite subtract_reset_none; simpl; by rewrite andb_true_r);
    specialize (Hn o eq_refl); (destruct n as [|n]; [lia|]); rewrite !leaf_cons.
  - destruct s as [|k]; cbn [child opt_killed killed].
    + rewrite subtract_reset_any. destruct (any a); [|done].
      by rewrite drop_empty_leaf_nil, andb_false_r.
    + rewrite subtract_reset_key by done. destruct (dict_get (field_parts a) k) as [v|]; [|done].
      unfold reset_child. destruct (any o), (dict_get (field_parts o) k);
        rewrite ?drop_empty_leaf_nil, ?andb_false_r, ?andb_true_r; done.
  - assert (forall s c, child o s = Some c -> (Mask.depth c < n)%nat) as Hdc.
    { intros s0 c Hs%child_depth. lia. }
    pose proof (Hdc Star) as Hds. simpl in Hds.
    destruct s as [|k]; cbn [child opt_killed killed].
    + rewrite subtract_reset_any. destruct (any a) as [x|] eqn:Ex; [|done].
      rewrite drop_empty_leaf, IH; [done|by apply (wf_child a Star)|done].
    + rewrite subtract_reset_key by done.
      destruct (dict_get (field_parts a) k) as [v|] eqn:Ev; [|done].
      assert (wf v) by (by apply (wf_child a (Key k))).
      pose proof (Hdc (Key k)) as Hdk. simpl in Hdk.
      transitivity (leaf v (s' :: q) && negb (opt_killed (s' :: q) (any o)) &&
                    negb (opt_killed (s' :: q) (dict_get (field_parts o) k))).
      * unfold reset_child.
        destruct (any o) as [oa|], (dict_get (field_parts o) k) as [ov|];
          rewrite ?drop_empty_leaf, ?IH; try by apply subtract_reset_wf.
        all: try done. by rewrite !andb_true_r.
      * rewrite <- andb_assoc, <- negb_orb. done.
Qed.

(** A pattern of a mask covers another pattern step by step. *)
Definition step_subsumes (s t : step) : bool :=
  match s, t with Star, _ => true | Key k, Key k' => bool_decide (k = k') | Key _, Star => false end.

Fixpoint subsumes (q t : list step) : bool :=
  match q, t with
  | [], [] => true
  | s :: q', s' :: t' => step_subsumes s s' && subsumes q' t'
  | _, _ => false
  end.

Fixpoint ends_in_star (q : list step) : bool :=
  match q with [] => false | [Star] => true | _ :: q' => ends_in_star q' end.

Lemma killed_spec q o :
  ends_in_star q = false -> q <> [] ->
  killed q o = true <-> exists t, has o t = true /\ subsumes t q = true.
Proof.
  revert o. induction q as [|s q IH]; intros o Hstar Hq; [done|].
  assert (forall c, q <> [] -> killed q c = true <-> exists t, has c t = true /\ subsumes t q = true)
    as IH' by (intros c Hq'; apply IH; [by destruct s, q|done]). clear IH.
  split.
  - destruct s as [|k]; simpl.
    + destruct q as [|s' q]; [done|]. destruct (any o) as [oa|] eqn:E; [|done].
      intros (t & Ht & Hs)%IH'; [|done]. exists (Star :: t). rewrite has_cons. simpl. by rewrite E.
    + destruct q as [|s' q].
      * intros Hk. destruct (any o) as [oa|] eqn:E.
        -- exists [Star]. rewrite has_cons. simpl. by rewrite E.
        -- destruct (dict_get (field_parts o) k) eqn:E'; [|done].
           exists [Key k]. rewrite has_cons. simpl. by rewrite E', bool_decide_true.
      * intros [Hk|Hk]%orb_true_iff.
        -- destruct (any o) as [oa|] eqn:E; [|done]. apply IH' in Hk as (t & Ht & Hs); [|done].
           exists (Star :: t). rewrite has_cons. simpl. by rewrite E.
        -- destruct (dict_get (field_parts o) k) as [ov|] eqn:E; [|done].
           apply IH' in Hk as (t & Ht & Hs); [|done].
           exists (Key k :: t). rewrite has_cons. simpl. by rewrite E, bool_decide_true.
  - intros ([|s0 t] & Ht & Hs); [done|]. rewrite has_cons in Ht. simpl in Hs.
    apply andb_true_iff in Hs as [Hs0 Hs]. destruct s as [|k]; simpl.
    + destruct s0; [|done]. simpl in Ht. destruct q as [|s' q]; [done|].
      destruct (any o); [|done]. apply IH'; [done|]. eauto.
    + destruct q as [|s' q].
      * destruct s0 as [|k0]; simpl in Ht, Hs0; [by destruct (any o)|].
        case_bool_decide; [subst|done]. destruct (any o); [done|].
        by destruct (dict_get (field_parts o) k).
      * apply orb_true_iff. destruct s0 as [|k0]; simpl in Ht, Hs0.
        -- left. destruct (any o); [|done]. apply IH'; [done|]. eauto.
        -- right. case_bool_decide; [subst|done].
           destruct (dict_get (field_parts o) k); [|done]. apply IH'; [done|]. eauto.
Qed.

(** ** Select masks *)

(** A pattern matches the first keys of a path. *)
Fixpoint pattern_prefix (q : list step) (p : list pystr) : bool :=
  match q, p with
  | [], _ => true
  | s :: q', k :: p' => step_covers s k && pattern_prefix q' p'
  | _ :: _, [] => false
  end.

Definition sel_match (o : option Mask) (p : list pystr) : bool :=
  match o with Some m => fst (FieldPath._matches_select_mask p (Some m)) | None => false end.

Definition sel_inner (o : option Mask) (p : list pystr) : bool :=
  match o with Some m => snd (FieldPath._matches_select_mask p (Some m)) | None => false end.

Lemma select_empty m p :
  Mask.is_empty m = true ->
  FieldPath._matches_select_mask p (Some m) = (true, negb (length p =? 0)%nat).
Proof. intros He. destruct p; simpl; by rewrite He. Qed.

Lemma select_cons m k p :
  Mask.is_empty m = false ->
  FieldPath._matches_select_mask (k :: p) (Some m) =
  let '(h, f) := match any m with Some a => FieldPath._matches_select_mask p (Some a)
                 | None => (false, false) end in
  match dict_get (field_parts m) k with
  | Some part => let '(km, kf) := FieldPath._matches_select_mask p (Some part) in
                 (h || km, if km then f || kf else f)
  | None => (h, f)
  end.
Proof. intros He. simpl. by rewrite He. Qed.

Lemma sel_match_cons m k p :
  Mask.is_empty m = false ->
  sel_match (Some m) (k :: p) = sel_match (any m) p || sel_match (dict_get (field_parts m) k) p.
Proof.
  intros He. unfold sel_match at 1. rewrite select_cons by done. unfold sel_match.
  destruct (any m), (dict_get (field_parts m) k); simpl; repeat case_match; simpl;
    rewrite ?orb_false_r; done.
Qed.

Lemma sel_inner_match o p : sel_inner o p = true -> sel_match o p = true.
Proof.
  revert o. induction p as [|k p IH]; intros [m|]; try done;
    destruct (Mask.is_empty m) eqn:He; unfold sel_inner, sel_match;
    try (rewrite select_empty by done; done).
  { simpl. by rewrite He. }
  rewrite select_cons by done.
  destruct (any m) as [a|], (dict_get (field_parts m) k) as [b|]; simpl; try done.
  - pose proof (IH (Some a)) as Ha. unfold sel_inner, sel_match in Ha.
    repeat case_match; simplify_eq/=; rewrite ?orb_true_r; try done. intros. by rewrite Ha.
  - pose proof (IH (Some a)) as Ha. unfold sel_inner, sel_match in Ha. by case_match.
  - repeat case_match; simplify_eq/=; done.
Qed.

Lemma sel_inner_cons m k p :
  Mask.is_empty m = false ->
  sel_inner (Some m) (k :: p) = sel_inner (any m) p || sel_inner (dict_get (field_parts m) k) p.
Proof.
  intros He. unfold sel_inner at 1. rewrite select_cons by done.
  destruct (dict_get (field_parts m) k) as [b|].
  - pose proof (sel_inner_match (Some b) p) as Hb.
    destruct (any m) as [a|]; unfold sel_match, sel_inner in *; simpl;
      repeat case_match; simplify_eq/=; try done;
      repeat match goal with x : bool |- _ => destruct x end; naive_solver.
  - destruct (any m); unfold sel_inner; simpl; repeat case_match; simpl;
      by rewrite ?orb_false_r.
Qed.

Lemma leaf_nonempty_cons m s q :
  Mask.is_empty m = true -> leaf m (s :: q) = false /\ has m (s :: q) = false.
Proof.
  intros He. rewrite leaf_cons, has_cons, (proj1 (is_empty_child m) He). done.
Qed.

(** The step of both characterisations: a predicate on patterns holds of the
    children exactly when it holds of the extended patterns. *)
Lemma children_exists (R : Mask -> list step -> bool) (M : list step -> list pystr -> bool) m k p :
  (forall s q, R m (s :: q) = match child m s with Some c => R c q | None => false end) ->
  (forall s q, M (s :: q) (k :: p) = step_covers s k && M q p) ->
  ((exists c, any m = Some c /\ exists q, R c q = true /\ M q p = true) \/
   (exists c, dict_get (field_parts m) k = Some c /\ exists q, R c q = true /\ M q p = true)) <->
  exists s q, R m (s :: q) = true /\ M (s :: q) (k :: p) = true.
Proof.
  intros HR HM. split.
  - intros [(c & Hc & q & Hq & Hp)|(c & Hc & q & Hq & Hp)].
    + exists Star, q. rewrite HR, HM. simpl. by rewrite Hc.
    + exists (Key k), q. rewrite HR, HM. simpl. by rewrite Hc, bool_decide_true.
  - intros (s & q & Hq & Hp). rewrite HR in Hq. rewrite HM in Hp.
    apply andb_true_iff in Hp as [Hs Hp]. destruct s as [|k']; simpl in Hq, Hs.
    + left. destruct (any m); [|done]. eauto.
    + right. case_bool_decide; [subst|done]. destruct (dict_get (field_parts m) k); [|done]. eauto.
Qed.

(** A pattern of the mask that matches a proper prefix of the path. *)
Definition pattern_inner (q : list step) (p : list pystr) : bool :=
  pattern_prefix q p && negb (length q =? length p)%nat.

Lemma sel_inner_spec m p :
  sel_inner (Some m) p = true <-> exists q, leaf m q = true /\ pattern_inner q p = true.
Proof.
  revert m. induction p as [|k p IH]; intros m; destruct (Mask.is_empty m) eqn:He.
  - unfold sel_inner. rewrite select_empty by done. split; [done|].
    by intros ([|s q] & _ & Hp).
  - unfold sel_inner. simpl. rewrite He. split; [done|]. by intros ([|s q] & _ & Hp).
  - unfold sel_inner. rewrite select_empty by done. split; [|done]. intros _.
    exists []. by rewrite <- He.
  - rewrite sel_inner_cons by done. rewrite orb_true_iff.
    transitivity (exists s q, leaf m (s :: q) = true /\ pattern_inner (s :: q) (k :: p) = true).
    + rewrite <- (children_exists leaf pattern_inner); [|apply leaf_cons|].
      * split; (intros [H|H]; [left|right]).
        -- destruct (any m); [|done]. exists m0. by rewrite <- IH.
        -- destruct (dict_get (field_parts m) k); [|done]. exists m0. by rewrite <- IH.
        -- destruct H as (c & -> & H). by rewrite IH.
        -- destruct H as (c & -> & H). by rewrite IH.
      * intros s q. unfold pattern_inner. simpl. by rewrite andb_assoc.
    + split; [intros (s & q & H); by exists (s :: q)|].
      intros ([|s q] & Hl & Hp); [|eauto]. unfold leaf in Hl. simpl in Hl. congruence.
Qed.

Lemma sel_match_spec m p :
  sel_match (Some m) p = true <->
  (exists q, has m q = true /\ pattern_matches q p = true) \/
  (exists q, leaf m q = true /\ pattern_prefix q p = true).
Proof.
  revert m. induction p as [|k p IH]; intros m; destruct (Mask.is_empty m) eqn:He.
  - unfold sel_match. rewrite select_empty by done. split; [|done]. left. by exists [].
  - unfold sel_match. simpl. rewrite He. split; [|done]. left. by exists [].
  - unfold sel_match. rewrite select_empty by done. split; [|done]. right.
    exists []. by rewrite <- He.
  - rewrite sel_match_cons by done. rewrite orb_true_iff.
    transitivity ((exists s q, has m (s :: q) = true /\ pattern_matches (s :: q) (k :: p) = true) \/
                  (exists s q, leaf m (s :: q) = true /\ pattern_prefix (s :: q) (k :: p) = true)).
    + rewrite <- (children_exists has pattern_matches) by (done || apply has_cons).
      rewrite <- (children_exists leaf pattern_prefix) by (done || apply leaf_cons).
      assert (forall o, sel_match o p = true <->
        (exists c, o = Some c /\ exists q, has c q = true /\ pattern_matches q p = true) \/
        (exists c, o = Some c /\ exists q, leaf c q = true /\ pattern_prefix q p = true)) as IHo.
      { intros [c|]; [rewrite IH|].
        - split; (intros [H|H]; [left|right]); [by exists c..| |];
            by destruct H as (c' & [= <-] & H).
        - split; [done|]. by intros [(c & ? & _)|(c & ? & _)]. }
      rewrite !IHo. tauto.
    + split; (intros [H|H]; [left|right]).
      * destruct H as (s & q & H). by exists (s :: q).
      * destruct H as (s & q & H). by exists (s :: q).
      * destruct H as ([|s q] & H1 & H2); [done|eauto].
      * destruct H as ([|s q] & H1 & H2); [|eauto]. unfold leaf in H1. simpl in H1. congruence.
Qed.
