(* ===== verification/MaskHeap.v ===== *)
(** * Masks as objects: [Mask._marshal]

    [_marshal] of [src/nebius/base/fieldmask.py] walks the object graph of a
    mask with an explicit stack, memoises the text of each object by its
    identity and detects cycles.  Here a mask is an object of a heap, its
    identity is its index, and the loop is modelled step for step.

    The results: the loop ends on every closed heap within a computed number of
    iterations, never looks up a missing result, returns the text of the tree
    the object unfolds to when there is one, and raises [RecursionError]
    exactly when there is none. *)
From stdpp Require Import gmap relations.
From S2P Require Import Prelude PyStr Json FieldMask FieldMaskSpec.

(** ** Objects *)

Record obj : Type := mkObj { o_any : option nat; o_parts : list (pystr * nat) }.

Abbreviation heap := (list obj).

(** The child objects of an object, as [_marshal] lists them. *)
Definition refs (o : obj) : list nat :=
  match o_any o with Some a => [a] | None => [] end ++ (o_parts o).*2.

(** No reference of the heap dangles. *)
Definition closed (h : heap) : Prop :=
  forall l o c, h !! l = Some o -> c ∈ refs o -> (c < length h)%nat.

(** The tree an object unfolds to, down to depth [n]: [Mask.copy()]. *)
Fixpoint read (n : nat) (h : heap) (l : nat) : option Mask :=
  match n with
  | O => None
  | S n =>
      o ← h !! l;
      a ← match o_any o with
          | None => Some None
          | Some c => Some <$> read n h c
          end;
      ps ← mapM (fun '(k, c) => pair k <$> read n h c) (o_parts o);
      Some (mkMask a ps)
  end.

(** ** The loop of [_marshal] *)

Inductive marshal_error : Type := RecursionError | KeyError | OutOfFuel.

(** [results[id(child)]] for each child, rendered. *)
Definition render_children (results : gmap nat (nat * pystr)) (o : obj) : option (list pystr) :=
  mapM (fun '(key, c) => Mask.marshal_entry key <$> results !! c)
    (match o_any o with Some a => [(u "*", a)] | None => [] end ++
     ((fun '(k, c) => (FieldKey.marshal k, c)) <$> o_parts o)).

(** The children pushed for an object: those without a result yet. *)
Definition pushed (results : gmap nat (nat * pystr)) (o : obj) : list (nat * bool) :=
  (fun c => (c, false)) <$> filter (fun c => results !! c = None) (reverse (refs o)).

Definition loop_state : Type :=
  gmap nat (nat * pystr) * gset nat * list (nat * bool).

(** One iteration of the [while pending] loop; the head of [pending] is the top
    of the stack. *)
Definition marshal_step (h : heap) (st : loop_state) : result marshal_error loop_state :=
  let '(results, visiting, pending) := st in
  match pending with
  | [] => Ok st
  | (mask, expanded) :: rest =>
      match h !! mask with
      | None => Raise KeyError
      | Some o =>
          if expanded then
            match render_children results o with
            | None => Raise KeyError
            | Some ret =>
                Ok (<[mask := (length ret, join (u ",") (str_sort ret))]> results,
                    visiting ∖ {[mask]}, rest)
            end
          else if bool_decide (is_Some (results !! mask)) then Ok (results, visiting, rest)
          else if bool_decide (mask ∈ visiting) then Raise RecursionError
          else Ok (results, {[mask]} ∪ visiting, pushed results o ++ (mask, true) :: rest)
      end
  end.

Fixpoint marshal_loop (fuel : nat) (h : heap) (st : loop_state) :
    result marshal_error (gmap nat (nat * pystr)) :=
  match fuel with
  | O => Raise OutOfFuel
  | S fuel =>
      match st with
      | (results, _, []) => Ok results
      | _ => st' ← marshal_step h st; marshal_loop fuel h st'
      end
  end.

(** The iterations one object can cost: its two visits and one per reference. *)
Definition obj_cost (o : obj) : nat := 2 + length (refs o).

Definition marshal_fuel (h : heap) : nat := 2 + sum_list (obj_cost <$> h).

Definition heap_marshal (h : heap) (self : nat) : result marshal_error (nat * pystr) :=
  results ← marshal_loop (marshal_fuel h) h (∅, ∅, [(self, false)]);
  match results !! self with Some r => Ok r | None => Raise KeyError end.

(** ** Trees of objects *)

Lemma read_unfold n h l :
  read (S n) h l =
  (o ← h !! l;
   a ← match o_any o with None => Some None | Some c => Some <$> read n h c end;
   ps ← mapM (fun '(k, c) => pair k <$> read n h c) (o_parts o);
   Some (mkMask a ps)).
Proof. done. Qed.

#[local] Arguments read : simpl never.

Lemma mapM_pair_mono {A B} (f g : A -> option B) (cs : list (pystr * A)) ps :
  (forall c m, f c = Some m -> g c = Some m) ->
  mapM (fun '(k, c) => pair k <$> f c) cs = Some ps ->
  mapM (fun '(k, c) => pair k <$> g c) cs = Some ps.
Proof.
  intros Hfg H%mapM_Some_1. apply mapM_Some_2. eapply Forall2_impl; [exact H|].
  intros [k c] [k' m]; simpl. destruct (f c) eqn:E; simpl; [|done]. by rewrite (Hfg _ _ E).
Qed.

Lemma read_S n h l m : read n h l = Some m -> read (S n) h l = Some m.
Proof.
  revert l m. induction n as [|n IH]; intros l m H; [done|].
  rewrite read_unfold. rewrite read_unfold in H.
  destruct (h !! l) as [o|]; simpl in *; [|done].
  destruct (o_any o) as [c|].
  - destruct (read n h c) as [mc|] eqn:Ec; simpl in H; [|done]. rewrite (IH _ _ Ec). simpl.
    destruct (mapM _ (o_parts o)) as [ps|] eqn:E; simpl in H; [|done].
    by rewrite (mapM_pair_mono _ (read (S n) h) _ _ IH E).
  - simpl in *. destruct (mapM _ (o_parts o)) as [ps|] eqn:E; simpl in H; [|done].
    by rewrite (mapM_pair_mono _ (read (S n) h) _ _ IH E).
Qed.

Lemma read_le n n' h l m : (n <= n')%nat -> read n h l = Some m -> read n' h l = Some m.
Proof. induction 1; auto using read_S. Qed.

(** The object [l] unfolds to the finite tree [m]. *)
Definition unfolds (h : heap) (l : nat) (m : Mask) : Prop := exists n, read n h l = Some m.

Lemma unfolds_det h l m m' : unfolds h l m -> unfolds h l m' -> m = m'.
Proof.
  intros [n Hn] [n' Hn'].
  apply (read_le _ (max n n')) in Hn; [|lia]. apply (read_le _ (max n n')) in Hn'; [|lia]. congruence.
Qed.

(** How a tree is put together from the trees of the children. *)
Definition unfolds_opt (h : heap) (c : option nat) (a : option Mask) : Prop :=
  match c, a with
  | None, None => True
  | Some c, Some a => unfolds h c a
  | _, _ => False
  end.

Lemma unfolds_parts_bound h (cs : list (pystr * nat)) ps :
  Forall2 (fun '(k, c) '(k', m) => k' = k /\ unfolds h c m) cs ps ->
  exists n, mapM (fun '(k, c) => pair k <$> read n h c) cs = Some ps.
Proof.
  induction 1 as [|[k c] [k' m] cs ps [-> [n Hn]] _ [n' IH]]; [by exists 0%nat|].
  exists (max n n'). simpl. rewrite (read_le n (max n n')) with (m := m) by (done || lia). simpl.
  rewrite (mapM_pair_mono (read n' h) (read (max n n') h) _ ps); [done| |done].
  intros c0 m0. apply read_le. lia.
Qed.

Lemma unfolds_mk h l o a ps :
  h !! l = Some o -> unfolds_opt h (o_any o) a ->
  Forall2 (fun '(k, c) '(k', m) => k' = k /\ unfolds h c m) (o_parts o) ps ->
  unfolds h l (mkMask a ps).
Proof.
  intros Hl Ha [n Hn]%unfolds_parts_bound.
  destruct (o_any o) as [c|] eqn:Eo, a as [a|]; simpl in Ha; try done.
  - destruct Ha as [n' Hn']. exists (S (max n n')). rewrite read_unfold, Hl. simpl. rewrite Eo.
    rewrite (read_le n' (max n n')) with (m := a) by (done || lia). simpl.
    rewrite (mapM_pair_mono (read n h) (read (max n n') h) _ ps); [done| |done].
    intros c0 m0. apply read_le. lia.
  - exists (S n). rewrite read_unfold, Hl. simpl. rewrite Eo. simpl. by rewrite Hn.
Qed.

Lemma unfolds_inv h l a ps :
  unfolds h l (mkMask a ps) ->
  exists o, h !! l = Some o /\ unfolds_opt h (o_any o) a /\
  Forall2 (fun '(k, c) '(k', m) => k' = k /\ unfolds h c m) (o_parts o) ps.
Proof.
  intros [[|n] Hn]; [done|]. rewrite read_unfold in Hn. destruct (h !! l) as [o|] eqn:Hl; simpl in Hn; [|done].
  exists o. split; [done|].
  assert (forall ps', mapM (fun '(k, c) => pair k <$> read n h c) (o_parts o) = Some ps' ->
    Forall2 (fun '(k, c) '(k', m) => k' = k /\ unfolds h c m) (o_parts o) ps') as Hps.
  { intros ps' H%mapM_Some_1. eapply Forall2_impl; [exact H|]. intros [k1 c1] [k2 m2]; simpl.
    destruct (read n h c1) eqn:E; simpl; [|done]. intros [= -> ->]. split; [done|]. by exists n. }
  destruct (o_any o) as [c|] eqn:Eo.
  - destruct (read n h c) eqn:E; simpl in Hn; [|done].
    destruct (mapM _ _) eqn:Em; simpl in Hn; [|done]. injection Hn as <- <-.
    split; [by exists n|auto].
  - simpl in Hn. destruct (mapM _ _) eqn:Em; simpl in Hn; [|done]. injection Hn as <- <-.
    split; [done|auto].
Qed.

(** Every child of an unfolding object unfolds, to a smaller tree. *)
Lemma unfolds_ref h l m o c :
  unfolds h l m -> h !! l = Some o -> c ∈ refs o ->
  exists m', unfolds h c m' /\ (Mask.depth m' < Mask.depth m)%nat.
Proof.
  destruct m as [a ps]. intros (o' & Hl & Ha & Hps)%unfolds_inv Hl' Hc.
  assert (o' = o) as -> by congruence. unfold refs in Hc. apply elem_of_app in Hc as [Hc|Hc].
  - destruct (o_any o) as [c'|], a as [a|]; simpl in Ha; try done;
      [|by apply not_elem_of_nil in Hc].
    apply list_elem_of_singleton in Hc as ->. exists a. split; [done|simpl; lia].
  - apply list_elem_of_fmap in Hc as ([k c'] & -> & Hin). clear Ha Hl Hl'.
    enough (exists m', unfolds h c' m' /\ (Mask.depth m' <= foldr (fun '(_, v) n => max (Mask.depth v) n) 0 ps)%nat)
      as (m' & ? & ?) by (exists m'; split; [done|simpl; lia]).
    induction Hps as [|[k1 c1] [k2 m2] cs ps [-> H1] _ IH]; [by apply not_elem_of_nil in Hin|].
    apply elem_of_cons in Hin as [[= <- <-]|Hin].
    + exists m2. split; [done|simpl; lia].
    + destruct (IH Hin) as (m' & ? & ?). exists m'. split; [done|simpl; lia].
Qed.

(** ** The invariant of the loop *)

Definition edge (h : heap) (x y : nat) : Prop := exists o, h !! x = Some o /\ y ∈ refs o.

(** The stack discipline, read from the top with the objects above collected in
    [above]: whatever is above an object waiting for its second visit is
    reachable from it, and each of its children has a result or is above. *)
Fixpoint stack_inv (h : heap) (results : gmap nat (nat * pystr)) (above : list nat)
    (pending : list (nat * bool)) : Prop :=
  match pending with
  | [] => True
  | (x, expanded) :: rest =>
      (expanded = true ->
         (forall y, y ∈ above -> tc (edge h) x y) /\
         (forall c, edge h x c -> is_Some (results !! c) \/ c ∈ above)) /\
      stack_inv h results (x :: above) rest
  end.

Lemma stack_inv_mono h R R' above above' pending :
  (forall y, y ∈ above' -> exists x, x ∈ above /\ rtc (edge h) x y) ->
  (forall y, y ∈ above -> y ∈ above' \/ is_Some (R' !! y)) ->
  (forall y, is_Some (R !! y) -> is_Some (R' !! y)) ->
  stack_inv h R above pending -> stack_inv h R' above' pending.
Proof.
  revert above above'. induction pending as [|[x e] rest IH]; intros A A' H1 H2 H3; simpl; [done|].
  intros [Hx Hrest]. split.
  - intros He. destruct (Hx He) as [Ha Hc]. split.
    + intros y Hy. destruct (H1 y Hy) as (z & Hz & Hr).
      eapply tc_rtc_r; [by apply Ha|done].
    + intros c Hcx. destruct (Hc c Hcx) as [Hs|Hs]; [auto|]. destruct (H2 c Hs); auto.
  - apply (IH (x :: A)); [..|done].
    + intros y [->|Hy]%elem_of_cons; [exists x; split; [left|done]|].
      destruct (H1 y Hy) as (z & Hz & Hr). exists z. split; [by right|done].
    + intros y [->|Hy]%elem_of_cons; [left; left|]. destruct (H2 y Hy); [left; by right|by right].
    + done.
Qed.

Lemma stack_inv_in h R above pending l y :
  stack_inv h R above pending -> (l, true) ∈ pending -> y ∈ above -> tc (edge h) l y.
Proof.
  revert above. induction pending as [|[x e] rest IH]; intros A; simpl.
  - intros _ H. by apply not_elem_of_nil in H.
  - intros [Hx Hrest] [[= <- <-]|Hin]%elem_of_cons Hy; [by apply Hx|].
    apply (IH _ Hrest Hin). by right.
Qed.

(** Results are the texts of the trees the objects unfold to. *)
Definition results_sound (h : heap) (results : gmap nat (nat * pystr)) : Prop :=
  forall l r, results !! l = Some r -> exists m, unfolds h l m /\ r = Mask._marshal m.

Record loop_inv (h : heap) (root : nat) (st : loop_state) : Prop := {
  inv_sound : results_sound h st.1.1;
  inv_stack : stack_inv h st.1.1 [] st.2;
  inv_visiting : forall l, l ∈ st.1.2 -> (l, true) ∈ st.2;
  inv_pushed : forall l e, (l, e) ∈ st.2 -> (l < length h)%nat /\ rtc (edge h) root l;
  inv_root : is_Some (st.1.1 !! root) \/ exists e, (root, e) ∈ st.2
}.

(** Rendering the children of an object whose children all have sound results
    gives the text of the object's own tree. *)
Lemma render_parts_sound h R (cs : list (pystr * nat)) ret :
  results_sound h R ->
  mapM (fun '(key, c) => Mask.marshal_entry key <$> R !! c)
    ((fun '(k, c) => (FieldKey.marshal k, c)) <$> cs) = Some ret ->
  exists ps, Forall2 (fun '(k, c) '(k', m) => k' = k /\ unfolds h c m) cs ps /\
    ret = map (fun '(k, v) => Mask.marshal_entry (FieldKey.marshal k) (Mask._marshal v)) ps.
Proof.
  intros HR. revert ret. induction cs as [|[k c] cs IH]; intros ret; csimpl.
  - intros [= <-]. exists []. by split.
  - destruct (R !! c) as [r|] eqn:E; simpl; [|done].
    destruct (mapM _ _) as [ret'|] eqn:Em; simpl; [|done]. intros [= <-].
    destruct (IH ret' eq_refl) as (ps & Hps & ->). destruct (HR _ _ E) as (m & Hm & ->).
    exists ((k, m) :: ps). split; [by constructor|done].
Qed.

Lemma render_sound h R l o ret :
  results_sound h R -> h !! l = Some o -> render_children R o = Some ret ->
  exists m, unfolds h l m /\ (length ret, join (u ",") (str_sort ret)) = Mask._marshal m.
Proof.
  intros HR Hl. unfold render_children. destruct (o_any o) as [a|] eqn:Ea; csimpl.
  - destruct (R !! a) as [r|] eqn:E; simpl; [|done].
    destruct (mapM _ _) as [ret'|] eqn:Em; simpl; [|done]. intros [= <-].
    destruct (render_parts_sound _ _ _ _ HR Em) as (ps & Hps & ->).
    destruct (HR _ _ E) as (m & Hm & ->). exists (mkMask (Some m) ps). split; [|done].
    apply (unfolds_mk _ _ o); [done|by rewrite Ea|done].
  - intros Em. destruct (render_parts_sound _ _ _ _ HR Em) as (ps & Hps & ->).
    exists (mkMask None ps). split; [|done]. apply (unfolds_mk _ _ o); [done|by rewrite Ea|done].
Qed.

Lemma render_total h R l o :
  h !! l = Some o -> (forall c, edge h l c -> is_Some (R !! c)) ->
  is_Some (render_children R o).
Proof.
  intros Hl HR. unfold render_children. apply mapM_is_Some_2.
  apply Forall_forall. intros [key c] Hin. simpl.
  assert (c ∈ refs o) as Hc.
  { unfold refs. apply elem_of_app in Hin as [Hin|Hin]; apply elem_of_app.
    - left. destruct (o_any o); [|by apply not_elem_of_nil in Hin].
      apply list_elem_of_singleton in Hin. injection Hin as -> ->. left.
    - right. apply list_elem_of_fmap in Hin as ([k' c'] & [= -> ->] & Hin).
      apply list_elem_of_fmap. by exists (k', c'). }
  destruct (HR c) as [r ->]; [by exists o|]. by eexists.
Qed.

Lemma pushed_elem R o c e :
  (c, e) ∈ pushed R o <-> e = false /\ c ∈ refs o /\ R !! c = None.
Proof.
  unfold pushed. rewrite list_elem_of_fmap. split.
  - intros (c' & [= -> ->] & Hin). apply list_elem_of_filter in Hin as [Hn Hin].
    by rewrite elem_of_reverse in Hin.
  - intros (-> & Hc & Hn). exists c. split; [done|]. apply list_elem_of_filter.
    by rewrite elem_of_reverse.
Qed.

(** The stack after pushing: entries pushed for a first visit impose nothing. *)
Lemma stack_inv_push h R above cs rest :
  stack_inv h R (reverse cs ++ above) rest ->
  stack_inv h R above (((fun c => (c, false)) <$> cs) ++ rest).
Proof.
  revert above. induction cs as [|c cs IH]; intros A; csimpl; [done|].
  intros H. split; [done|]. apply IH. by rewrite reverse_cons, <- app_assoc in H.
Qed.

Lemma step_expanded h root R V l rest o :
  closed h -> loop_inv h root (R, V, (l, true) :: rest) -> h !! l = Some o ->
  exists ret, render_children R o = Some ret /\
  loop_inv h root (<[l := (length ret, join (u ",") (str_sort ret))]> R, V ∖ {[l]}, rest).
Proof.
  intros Hcl [Hs Hst Hv Hp Hroot] Ho. simpl in *.
  destruct Hst as [Htop Hst]. destruct (Htop eq_refl) as [_ Hch].
  destruct (render_total h R l o Ho) as [ret Hret].
  { intros c Hc. destruct (Hch c Hc) as [|Hn]; [done|]. by apply not_elem_of_nil in Hn. }
  exists ret. split; [done|]. constructor; simpl.
  - intros l' r. destruct (decide (l' = l)) as [->|Hne].
    + rewrite lookup_insert_eq. intros [= <-]. by eapply render_sound.
    + rewrite lookup_insert_ne by done. apply Hs.
  - eapply (stack_inv_mono h R _ [l]); [..|exact Hst].
    + intros y Hy. by apply not_elem_of_nil in Hy.
    + intros y ->%list_elem_of_singleton. right. by rewrite lookup_insert_eq.
    + intros y Hy. destruct (decide (y = l)) as [->|]; [by rewrite lookup_insert_eq|].
      by rewrite lookup_insert_ne.
  - intros x Hx. assert (x ∈ V /\ x <> l) as [Hx' Hne] by set_solver.
    specialize (Hv x Hx'). apply elem_of_cons in Hv as [[= ->]|]; done.
  - intros x e Hx. apply (Hp x e). by right.
  - destruct (decide (root = l)) as [->|Hne]; [left; by rewrite lookup_insert_eq|].
    rewrite lookup_insert_ne by done. destruct Hroot as [|[e He]]; [by left|]. right. exists e.
    apply elem_of_cons in He as [[= ->]|]; done.
Qed.

Lemma step_known h root R V l rest :
  loop_inv h root (R, V, (l, false) :: rest) -> is_Some (R !! l) ->
  loop_inv h root (R, V, rest).
Proof.
  intros [Hs Hst Hv Hp Hroot] Hl. constructor; simpl in *; [done|..].
  - destruct Hst as [_ Hst]. eapply (stack_inv_mono h R _ [l]); [..|exact Hst].
    + intros y Hy. by apply not_elem_of_nil in Hy.
    + intros y ->%list_elem_of_singleton. by right.
    + done.
  - intros x Hx. specialize (Hv x Hx). apply elem_of_cons in Hv as [[= ]|]; done.
  - intros x e Hx. apply (Hp x e). by right.
  - destruct Hroot as [|[e He]]; [by left|].
    apply elem_of_cons in He as [[= -> ->]|He]; [by left|right; by exists e].
Qed.

Lemma step_push h root R V l rest o :
  closed h -> loop_inv h root (R, V, (l, false) :: rest) -> h !! l = Some o ->
  loop_inv h root (R, {[l]} ∪ V, pushed R o ++ (l, true) :: rest).
Proof.
  intros Hcl [Hs Hst Hv Hp Hroot] Ho. simpl in *. destruct Hst as [_ Hst].
  assert (forall c, c ∈ refs o -> edge h l c) as Hedge by (intros c Hc; by exists o).
  set (cs := filter (fun c => R !! c = None) (reverse (refs o))).
  assert (forall c, c ∈ cs <-> c ∈ refs o /\ R !! c = None) as Hcs.
  { intros c. subst cs. rewrite list_elem_of_filter, elem_of_reverse. tauto. }
  constructor; simpl; [done|..].
  - unfold pushed. fold cs. apply stack_inv_push. simpl. rewrite app_nil_r. split.
    + intros _. split.
      * intros y Hy. rewrite elem_of_reverse in Hy. apply tc_once, Hedge. by apply Hcs.
      * intros c (o' & Ho' & Hc). assert (o' = o) as -> by congruence.
        destruct (R !! c) eqn:E; [left; eauto|right]. rewrite elem_of_reverse. by apply Hcs.
    + eapply (stack_inv_mono h R _ [l]); [..|exact Hst].
      * intros y [->|Hy]%elem_of_cons; exists l; (split; [left|]); [done|].
        rewrite elem_of_reverse in Hy. apply rtc_once, Hedge. by apply Hcs.
      * intros y ->%list_elem_of_singleton. left. left.
      * done.
  - intros x Hx. apply elem_of_app. right. apply elem_of_union in Hx as [->%elem_of_singleton|Hx];
      [left|]. specialize (Hv x Hx). apply elem_of_cons in Hv as [[= ]|]. by right.
  - intros x e Hx. destruct (Hp l false) as [_ Hl]; [left|].
    apply elem_of_app in Hx as [Hx|[[= -> ->]|Hx]%elem_of_cons].
    + apply pushed_elem in Hx as (-> & Hx & _). split; [by eapply Hcl|].
      eapply rtc_r; [exact Hl|]. by apply Hedge.
    + apply (Hp l false). left.
    + apply (Hp x e). by right.
  - destruct Hroot as [|[e He]]; [by left|]. right.
    apply elem_of_cons in He as [[= -> ->]|He].
    + exists true. apply elem_of_app. right. left.
    + exists e. apply elem_of_app. right. by right.
Qed.

(** One iteration keeps the invariant, or stops at a cycle. *)
Lemma marshal_step_inv h root st :
  closed h -> loop_inv h root st ->
  match marshal_step h st with
  | Ok st' => loop_inv h root st'
  | Raise e => e = RecursionError /\ exists l, rtc (edge h) root l /\ tc (edge h) l l
  end.
Proof.
  destruct st as [[R V] [|[l e] rest]]; intros Hcl Hinv; [done|]. simpl.
  destruct (inv_pushed _ _ _ Hinv l e) as [Hl Hr]; [left|].
  apply lookup_lt_is_Some in Hl as [o Ho]. rewrite Ho. destruct e.
  - destruct (step_expanded _ _ _ _ _ _ _ Hcl Hinv Ho) as (ret & -> & Hi). done.
  - case_bool_decide as Hres; [by eapply step_known|].
    case_bool_decide as Hvis; [|by eapply step_push].
    split; [done|]. exists l. split; [done|].
    pose proof (inv_visiting _ _ _ Hinv l Hvis) as Hin. simpl in Hin.
    apply elem_of_cons in Hin as [[= ]|Hin].
    pose proof (inv_stack _ _ _ Hinv) as [_ Hst]. simpl in Hst.
    eapply stack_inv_in; [exact Hst|done|left].
Qed.

(** ** Termination *)

(** What the unvisited objects can still cost, plus the stack. *)
Fixpoint unvisited_cost (seen : gset nat) (i : nat) (h : heap) : nat :=
  match h with
  | [] => 0
  | o :: h' => (if bool_decide (i ∈ seen) then 0 else obj_cost o) + unvisited_cost seen (S i) h'
  end.

Definition seen_set (st : loop_state) : gset nat := dom st.1.1 ∪ st.1.2.

Definition loop_measure (h : heap) (st : loop_state) : nat :=
  unvisited_cost (seen_set st) 0 h + length st.2.

Lemma unvisited_cost_mono s s' i h :
  s ⊆ s' -> (unvisited_cost s' i h <= unvisited_cost s i h)%nat.
Proof.
  intros Hs. revert i. induction h as [|o h IH]; intros i; simpl; [lia|].
  specialize (IH (S i)). case_bool_decide; case_bool_decide; [lia..|set_solver|lia].
Qed.

Lemma unvisited_cost_add s i l h o :
  h !! l = Some o -> (i + l)%nat ∉ s ->
  (unvisited_cost ({[(i + l)%nat]} ∪ s) i h + obj_cost o <= unvisited_cost s i h)%nat.
Proof.
  revert i l. induction h as [|o' h IH]; intros i l; [done|]. destruct l as [|l]; simpl.
  - intros [= ->] Hi. rewrite Nat.add_0_r in *.
    rewrite bool_decide_true by set_solver. rewrite bool_decide_false by done.
    pose proof (unvisited_cost_mono s ({[i]} ∪ s) (S i) h). specialize (H ltac:(set_solver)). lia.
  - intros Hl Hi. rewrite Nat.add_succ_r in *. rewrite <- Nat.add_succ_l in *.
    specialize (IH (S i) l Hl Hi).
    assert ((i ∈ ({[(S i + l)%nat]} ∪ s : gset nat)) <-> i ∈ s) as Hiff.
    { rewrite elem_of_union, elem_of_singleton. split; [intros [?|]; [lia|done]|by right]. }
    rewrite (bool_decide_ext _ _ Hiff). lia.
Qed.

Lemma pushed_length R o : (length (pushed R o) <= length (refs o))%nat.
Proof.
  unfold pushed. rewrite length_fmap. etrans; [apply length_filter|]. by rewrite length_reverse.
Qed.

Lemma marshal_step_decreases h R V l e rest st' :
  marshal_step h (R, V, (l, e) :: rest) = Ok st' ->
  (loop_measure h st' < loop_measure h (R, V, (l, e) :: rest))%nat.
Proof.
  simpl. destruct (h !! l) as [o|] eqn:Ho; [|done]. unfold loop_measure. destruct e.
  - destruct (render_children R o); [|done]. intros [= <-]. simpl.
    set (R' := <[l := _]> R).
    assert (dom R ∪ V ⊆ dom R' ∪ V ∖ {[l]}) as Hsub.
    { subst R'. rewrite dom_insert_L. intros x Hx. destruct (decide (x = l)); set_solver. }
    pose proof (unvisited_cost_mono _ _ 0 h Hsub) as Hm. unfold seen_set. simpl. lia.
  - case_bool_decide as Hres; [intros [= <-]; unfold seen_set; simpl; lia|].
    case_bool_decide as Hvis; [done|]. intros [= <-]. unfold seen_set. simpl.
    rewrite length_app. simpl. pose proof (pushed_length R o).
    pose proof (unvisited_cost_add (dom R ∪ V) 0 l h o Ho) as Ha. simpl in Ha.
    specialize (Ha ltac:(rewrite elem_of_union, elem_of_dom; tauto)).
    replace (dom R ∪ ({[l]} ∪ V)) with ({[l]} ∪ (dom R ∪ V)) by set_solver.
    unfold obj_cost in Ha. lia.
Qed.

Lemma unvisited_cost_init i h : unvisited_cost ∅ i h = sum_list (obj_cost <$> h).
Proof.
  revert i. induction h as [|o h IH]; intros i; csimpl; [done|].
  rewrite bool_decide_false by set_solver. by rewrite IH.
Qed.

(** What the loop can end in, given enough fuel. *)
Lemma marshal_loop_spec fuel h root st :
  closed h -> loop_inv h root st -> (loop_measure h st < fuel)%nat ->
  match marshal_loop fuel h st with
  | Ok R => results_sound h R /\ is_Some (R !! root)
  | Raise e => e = RecursionError /\ exists l, rtc (edge h) root l /\ tc (edge h) l l
  end.
Proof.
  revert st. induction fuel as [|fuel IH]; intros [[R V] pending] Hcl Hinv Hm; [lia|].
  cbn [marshal_loop]. destruct pending as [|[l e] rest].
  - split; [apply Hinv|]. destruct (inv_root _ _ _ Hinv) as [|[e He]]; [done|].
    by apply not_elem_of_nil in He.
  - pose proof (marshal_step_inv h root _ Hcl Hinv) as Hstep.
    destruct (marshal_step h (R, V, (l, e) :: rest)) as [st'|err] eqn:E; cbn [mbind result_bind];
      [|done].
    apply marshal_step_decreases in E. apply IH; [done|done|lia].
Qed.

Lemma no_cycle h l m x : unfolds h l m -> rtc (edge h) l x -> ~ tc (edge h) x x.
Proof.
  assert (forall a b, tc (edge h) a b -> forall ma, unfolds h a ma ->
    exists mb, unfolds h b mb /\ (Mask.depth mb < Mask.depth ma)%nat) as Htc.
  { induction 1 as [a b (o & Ho & Hb)|a b c (o & Ho & Hb) _ IH]; intros ma Ha.
    - by eapply unfolds_ref.
    - destruct (unfolds_ref _ _ _ _ _ Ha Ho Hb) as (mb & Hmb & ?).
      destruct (IH _ Hmb) as (mc & Hmc & ?). exists mc. split; [done|lia]. }
  intros Hl Hr Hcyc.
  assert (exists mx, unfolds h x mx) as [mx Hx].
  { revert m Hl. induction Hr as [|a b c (o & Ho & Hb) _ IH]; intros m Hl; [eauto|].
    destruct (unfolds_ref _ _ _ _ _ Hl Ho Hb) as (mb & Hmb & _). eauto. }
  destruct (Htc _ _ Hcyc _ Hx) as (mx' & Hx' & Hlt).
  rewrite (unfolds_det _ _ _ _ Hx Hx') in Hlt. lia.
Qed.

Lemma initial_inv h l :
  (l < length h)%nat -> loop_inv h l (∅, ∅, [(l, false)]).
Proof.
  intros Hl. constructor; simpl.
  - intros l' r. by rewrite lookup_empty.
  - done.
  - set_solver.
  - intros l' e [[= -> ->]|H%not_elem_of_nil]%elem_of_cons; done.
  - right. exists false. left.
Qed.

Lemma heap_marshal_cases h l :
  closed h -> (l < length h)%nat ->
  match heap_marshal h l with
  | Ok r => exists m, unfolds h l m /\ r = Mask._marshal m
  | Raise e => e = RecursionError /\ ~ exists m, unfolds h l m
  end.
Proof.
  intros Hcl Hl. unfold heap_marshal.
  pose proof (marshal_loop_spec (marshal_fuel h) h l _ Hcl (initial_inv h l Hl)) as Hs.
  assert (loop_measure h (∅, ∅, [(l, false)]) < marshal_fuel h)%nat as Hm.
  { unfold loop_measure, seen_set, marshal_fuel. simpl.
    replace (dom (∅ : gmap nat (nat * pystr)) ∪ ∅) with (∅ : gset nat) by set_solver.
    rewrite unvisited_cost_init. lia. }
  specialize (Hs Hm). destruct (marshal_loop _ _ _) as [R|e]; cbn [mbind result_bind].
  - destruct Hs as [Hs [r Hr]]. rewrite Hr. by apply Hs.
  - destruct Hs as [-> (x & Hx & Hc)]. split; [done|]. intros [m Hm']. by eapply no_cycle.
Qed.
