(* ===== verification/MaskParser.v ===== *)
(** * The field-mask parser

    The model of [src/nebius/base/fieldmask_parser.py]: the lexer, the stack of
    parenthesised levels and the state machine of [parse].  The parser builds
    the mask out of shared, mutable [Mask] objects, so its state holds a heap
    of objects ([MaskHeap]) and the levels hold references into it; the mask
    returned is the copy of the root object. *)
From stdpp Require Import pretty.
From S2P Require Import Prelude PyStr Json FieldMask FieldMaskSpec MaskHeap.

(** ** Errors *)

Definition max_context : nat := 30.
Definition context_back : nat := 12.
Definition error_mark : Z := 8414.

Definition _possible_ellipsis (s : pystr) (max_context : nat) : pystr :=
  if (max_context <? length s)%nat then take (max_context - 3) s ++ u "..." else s.

Definition _context_around (s : pystr) (pos : nat) : pystr :=
  let ctx_start := if (context_back <=? pos)%nat then (pos - context_back)%nat else 0%nat in
  let delta := (pos - ctx_start)%nat in
  let ctx_str := _possible_ellipsis (drop ctx_start s) max_context in
  let with_mark := take delta ctx_str ++ [error_mark] ++ drop delta ctx_str in
  u "at position " ++ str_of_int (Z.of_nat pos) ++ u " near " ++ dumps_unicode with_mark.

(** The summary of an error: a text of the parser, or the message of the
    exception that [json.loads] raised. *)
Inductive summary : Type := Text (s : pystr) | JsonMessage (e : json_error).

Inductive parse_error : Type :=
| ParseError (message : pystr)
| ContextedParseError (source : pystr) (position : nat) (summary : summary)
| ParserOutOfFuel.

(** The exception's message, for the errors whose summary is a text. *)
Definition error_message (e : parse_error) : option pystr :=
  match e with
  | ParseError m => Some m
  | ContextedParseError source pos (Text s) => Some (s ++ u " " ++ _context_around source pos)
  | _ => None
  end.

(** ** Tokens *)

Inductive TokenType : Type :=
| COMMA | DOT | LBRACE | RBRACE | WILD_CARD | PLAIN_KEY | QUOTED_KEY | EOL.

#[export] Instance TokenType_eq_dec : EqDecision TokenType.
Proof. solve_decision. Defined.

Record Token : Type := mkToken { t_type : TokenType; t_value : pystr; t_pos : nat }.

Definition type_name (t : TokenType) : pystr :=
  match t with
  | COMMA => u "COMMA" | DOT => u "DOT" | LBRACE => u "LBRACE" | RBRACE => u "RBRACE"
  | WILD_CARD => u "WILD_CARD" | PLAIN_KEY => u "PLAIN_KEY" | QUOTED_KEY => u "QUOTED_KEY"
  | EOL => u "EOL"
  end.

Module Token.

Definition unquote (self : Token) : result json_error Token :=
  match t_type self with
  | QUOTED_KEY =>
      match loads (t_value self) with
      | Ok unquoted => Ok (mkToken PLAIN_KEY unquoted (t_pos self))
      | Raise e => Raise e
      end
  | _ => Ok self
  end.

Definition repr (self : Token) : pystr :=
  let val := match t_type self with QUOTED_KEY => t_value self | _ => dumps (t_value self) end in
  u "Token" ++ type_name (t_type self) ++ u "(" ++ val ++ u " pos " ++
  str_of_int (Z.of_nat (t_pos self)) ++ u ")".

End Token.

(** ** Lexer *)

Definition space_set (c : Z) : bool := (c =? 32) || (c =? 13) || (c =? 10) || (c =? 9).

(** The number of leading characters of a class. *)
Fixpoint span (f : Z -> bool) (s : pystr) : nat :=
  match s with [] => 0 | c :: s' => if f c then S (span f s') else 0 end.

(** The characters the loop of [scan_quoted_key] passes. *)
Fixpoint quoted_span (s : pystr) : nat :=
  match s with
  | [] => 0
  | c :: s' =>
      if c =? QUOTE then 0
      else if c =? BACKSLASH then
        match s' with [] => 2 | _ :: s'' => 2 + quoted_span s'' end
      else S (quoted_span s')
  end.

Module Lexer.

(** [self.source[self.pos:].startswith(prefix)] *)
Definition starts_with (source : pystr) (pos : nat) (prefix : pystr) : bool :=
  startswith (drop pos source) prefix.

Definition scan_plain_key (source : pystr) (pos : nat) : result parse_error (Token * nat) :=
  match span simple_char (drop pos source) with
  | O => Raise (ContextedParseError source pos (Text (u "unexpected match mismatch")))
  | n => Ok (mkToken PLAIN_KEY (take n (drop pos source)) pos, (pos + n)%nat)
  end.

Definition scan_quoted_key (source : pystr) (start : nat) : result parse_error (Token * nat) :=
  let pos := (start + 1 + quoted_span (drop (start + 1) source))%nat in
  if starts_with source pos [QUOTE] then
    let pos := (pos + 1)%nat in
    Ok (mkToken QUOTED_KEY (take (pos - start) (drop start source)) start, pos)
  else Raise (ContextedParseError source start (Text (u "unterminated quoted string"))).

(** The next token and the new position. *)
Definition next_token (source : pystr) (pos0 : nat) : result parse_error (Token * nat) :=
  let pos := (pos0 + span space_set (drop pos0 source))%nat in
  if (length source <=? pos)%nat then Ok (mkToken EOL [] pos, pos)
  else if starts_with source pos (u ",") then Ok (mkToken COMMA (u ",") pos, (pos + 1)%nat)
  else if starts_with source pos (u ".") then Ok (mkToken DOT (u ".") pos, (pos + 1)%nat)
  else if starts_with source pos (u "(") then Ok (mkToken LBRACE (u "(") pos, (pos + 1)%nat)
  else if starts_with source pos (u ")") then Ok (mkToken RBRACE (u ")") pos, (pos + 1)%nat)
  else if starts_with source pos (u "*") then Ok (mkToken WILD_CARD (u "*") pos, (pos + 1)%nat)
  else if starts_with source pos [QUOTE] then scan_quoted_key source pos
  else if (0 <? span simple_char (drop pos source))%nat then scan_plain_key source pos
  else Raise (ContextedParseError source pos (Text (u "unexpected symbol"))).

(** [[t for t in Lexer(source)]], from a position on. *)
Fixpoint tokens (fuel : nat) (source : pystr) (pos : nat) : result parse_error (list Token) :=
  match fuel with
  | O => Raise ParserOutOfFuel
  | S fuel =>
      '(tok, pos') ← next_token source pos;
      match Token.unquote tok with
      | Raise e => Raise (ContextedParseError source (t_pos tok) (JsonMessage e))
      | Ok tok =>
          if bool_decide (t_type tok = EOL) then Ok []
          else rest ← tokens fuel source pos'; Ok (tok :: rest)
      end
  end.

End Lexer.

(** ** Levels *)

(** A level without its [prev] link: the levels form a stack. *)
Record Level : Type := mkLevel {
  starts : list nat;
  ends : list nat;
  active : list nat;
  l_pos : nat
}.

Definition empty_obj : obj := mkObj None [].

Module Level.

(** [Level()] with a fresh root mask. *)
Definition init (h : heap) : heap * Level :=
  let root := length h in
  (h ++ [empty_obj], mkLevel [root] [] [root] 0).

Definition obj_child (o : obj) (s : step) : option nat :=
  match s with Star => o_any o | Key k => dict_get (o_parts o) k end.

Definition obj_set (o : obj) (s : step) (c : nat) : obj :=
  match s with
  | Star => mkObj (Some c) (o_parts o)
  | Key k => mkObj (o_any o) (dict_set (o_parts o) k c)
  end.

(** The loop of [add_key] (for [Key k]) and of [add_any] (for [Star]): the
    masks without the child all receive the same new mask. *)
Fixpoint advance (s : step) (act : list nat) (mask : option nat) (h : heap)
    (new_active : list nat) : heap * list nat :=
  match act with
  | [] => (h, new_active)
  | a :: rest =>
      match h !! a with
      | None => (h, new_active)
      | Some o =>
          match obj_child o s with
          | Some c => advance s rest mask h (new_active ++ [c])
          | None =>
              match mask with
              | Some m => advance s rest mask (<[a := obj_set o s m]> h) new_active
              | None =>
                  let m := length h in
                  advance s rest (Some m) (<[a := obj_set o s m]> (h ++ [empty_obj]))
                    (new_active ++ [m])
              end
          end
      end
  end.

Definition add_step (s : step) (h : heap) (self : Level) : heap * Level :=
  let '(h', act) := advance s (active self) None h [] in
  (h', mkLevel (starts self) (ends self) act (l_pos self)).

Definition add_key (k : pystr) (h : heap) (self : Level) : heap * Level := add_step (Key k) h self.

Definition add_any (h : heap) (self : Level) : heap * Level := add_step Star h self.

Definition new_mask (self : Level) : Level :=
  mkLevel (starts self) (ends self ++ active self) (starts self) (l_pos self).

Definition push_level (self : Level) (pos : nat) : Level :=
  mkLevel (active self) [] (active self) pos.

(** [pop_level]: the previous level with its new [active]. *)
Definition pop_level (self prev : Level) : Level :=
  mkLevel (starts prev) (ends prev) (ends self ++ active self) (l_pos prev).

End Level.

(** ** The state machine *)

Inductive State : Type := KEY | SEPARATOR | LEVEL_START.

(** The parser's variables: the heap, the current level and the levels below
    it ([prev] links), the state. *)
Record parser : Type := mkParser { p_heap : heap; lvl : Level; prevs : list Level; p_state : State }.

Definition unexpected (source : pystr) (tok : Token) (expecting : pystr) : parse_error :=
  ContextedParseError source (t_pos tok)
    (Text (u "unexpected token " ++ Token.repr tok ++ u ", expecting " ++ expecting)).

(** One iteration of the loop on the current token: the new variables and
    whether the token was consumed. *)
Definition parse_step (source : pystr) (tok : Token) (p : parser) :
    result parse_error (parser * bool) :=
  let '(mkParser h lvl prevs state) := p in
  match state with
  | LEVEL_START =>
      Ok (mkParser h lvl prevs
            (if bool_decide (t_type tok = RBRACE) then SEPARATOR else KEY), false)
  | KEY =>
      match t_type tok with
      | PLAIN_KEY =>
          let '(h', lvl') := Level.add_key (t_value tok) h lvl in
          Ok (mkParser h' lvl' prevs SEPARATOR, true)
      | WILD_CARD =>
          let '(h', lvl') := Level.add_any h lvl in
          Ok (mkParser h' lvl' prevs SEPARATOR, true)
      | LBRACE =>
          Ok (mkParser h (Level.push_level lvl (t_pos tok)) (lvl :: prevs) LEVEL_START, true)
      | _ => Raise (unexpected source tok (u "field or submask"))
      end
  | SEPARATOR =>
      match t_type tok with
      | DOT => Ok (mkParser h lvl prevs KEY, true)
      | COMMA => Ok (mkParser h (Level.new_mask lvl) prevs KEY, true)
      | RBRACE =>
          match prevs with
          | [] => Raise (ContextedParseError source (t_pos tok) (Text (u "unmatched right brace")))
          | prev :: prevs' => Ok (mkParser h (Level.pop_level lvl prev) prevs' SEPARATOR, true)
          end
      | _ => Raise (unexpected source tok (u "separator or closing brace"))
      end
  end.

Fixpoint parse_loop (fuel : nat) (source : pystr) (toks : list Token) (p : parser) :
    result parse_error parser :=
  match toks with
  | [] => Ok p
  | tok :: rest =>
      match fuel with
      | O => Raise ParserOutOfFuel
      | S fuel =>
          match parse_step source tok p with
          | Raise e => Raise e
          | Ok (p', consumed) => parse_loop fuel source (if consumed then rest else toks) p'
          end
      end
  end.

(** The checks after the loop and [root.copy()]. *)
Definition parse_finish (source : pystr) (root : nat) (p : parser) : result parse_error Mask :=
  match prevs p with
  | _ :: _ =>
      Raise (ContextedParseError source (l_pos (lvl p)) (Text (u "unclosed left brace")))
  | [] =>
      match p_state p with
      | SEPARATOR =>
          match read (S (length (p_heap p))) (p_heap p) root with
          | Some m => Ok m
          | None => Raise ParserOutOfFuel
          end
      | _ => Raise (ParseError (u "unexpected end of mask"))
      end
  end.

Definition parse (source : pystr) : result parse_error Mask :=
  if (span space_set source =? length source)%nat then Ok emptyMask else
  toks ← Lexer.tokens (S (length source)) source 0;
  let '(h, lvl) := Level.init [] in
  p ← parse_loop (2 * length (toks : list Token)) source toks (mkParser h lvl [] KEY);
  parse_finish source 0 p.

(** [Mask.unmarshal] *)
Definition Mask_unmarshal (source : pystr) : result parse_error Mask := parse source.

(** [FieldPath.unmarshal]: the errors of parsing, or those of [to_field_path]. *)
Inductive unmarshal_error : Type := EParse (e : parse_error) | EPath (e : fm_error).

Definition FieldPath_unmarshal (s : pystr) : result unmarshal_error (option (list pystr)) :=
  match Mask_unmarshal s with
  | Raise e => Raise (EParse e)
  | Ok m => match Mask.to_field_path m with Ok p => Ok p | Raise e => Raise (EPath e) end
  end.

(** The parsed mask, marshalled again. *)
Definition reparse (s : string) : option pystr :=
  match parse (u s) with Ok m => Some (Mask.marshal m) | Raise _ => None end.

(** ** Examples from the test suite *)

Example parse_1 : reparse "a.(*,c).(d,e)" = Some (u "a.(*.(d,e),c.(d,e))").
Proof. vm_compute. reflexivity. Qed.
Example parse_2 : reparse "(((((((a))))))).(((((*)))),(((c)))).(((((((d,(((e))))))))))"
  = Some (u "a.(*.(d,e),c.(d,e))").
Proof. vm_compute. reflexivity. Qed.
Example parse_3 : reparse "*.*.(a,b,c.*,d.(e,f),g.(*.(h,i),j,k)),1,A,B,l,m,n.*,o.(p,q,w,x),r.(*.(s,t),u.*,v),z.(*.y,u.*,v)"
  = Some (u "*.*.(a,b,c.*,d.(e,f),g.(*.(h,i),j,k)),1,A,B,l,m,n.*,o.(p,q,w,x),r.(*.(s,t),u.*,v),z.(*.y,u.*,v)").
Proof. vm_compute. reflexivity. Qed.
Example parse_err_1 :
  match parse (u "abcdefghijklmonpqrst..abcdefghijklmonpqrst") with
  | Raise e => error_message e
  | Ok _ => None
  end = Some (u "unexpected token TokenDOT(" ++ dumps (u ".") ++
    u " pos 21), expecting field or submask at position 21 near " ++
    dumps_unicode (u "jklmonpqrst." ++ [8414] ++ u ".abcdefghijklmo...")).
Proof. vm_compute. reflexivity. Qed.
