(* ===== verification/MaskParserInv.v ===== *)
(** * The parser on arbitrary input

    Facts about [parse] that hold for every source string: the lexer and the
    state machine stop within the fuel [parse] gives them, the objects built
    never form a cycle (so the final copy succeeds), the mask returned is well
    formed and every reported error position lies inside the source. *)
From S2P Require Import Prelude PyStr Json FieldMask FieldMaskSpec MaskHeap MaskParser.

#[local] Arguments read : simpl never.

(** ** Heaps that grow downwards *)

(** References lead to younger objects, and every [field_parts] is a dict. *)
Definition heap_ok (h : heap) : Prop :=
  forall l o, h !! l = Some o ->
    dict_wf (o_parts o) /\ forall c, c ∈ refs o -> (l < c < length h)%nat.

Lemma mapM_cons_pair {A} (f : nat -> option A) (k : pystr) c cs :
  mapM (fun '(k, c) => pair k <$> f c) ((k, c) :: cs) =
  (m ← f c; ps ← mapM (fun '(k, c) => pair k <$> f c) cs; Some ((k, m) :: ps)).
Proof. simpl. by destruct (f c). Qed.

Lemma read_heap_ok h l :
  heap_ok h -> (l < length h)%nat -> exists m, read (length h - l) h l = Some m /\ wf m.
Proof.
  intros Hh. remember (length h - l)%nat as n eqn:En. revert l En.
  induction n as [n IH] using lt_wf_ind. intros l En Hl.
  destruct n as [|n]; [lia|].
  apply lookup_lt_is_Some in Hl as [o Ho]. destruct (Hh l o Ho) as [Hd Hc].
  assert (forall c, c ∈ refs o -> exists m, read n h c = Some m /\ wf m) as Hsub.
  { intros c Hin. destruct (Hc c Hin) as [? ?].
    destruct (IH (length h - c)%nat) with (l := c) as (m & Hm & Hw); [lia..|].
    exists m. split; [|done]. eapply read_le; [|exact Hm]. lia. }
  assert (exists ps, mapM (fun '(k, c) => pair k <$> read n h c) (o_parts o) = Some ps /\
    (forall k v, (k, v) ∈ ps -> wf v) /\ ps.*1 = (o_parts o).*1) as (ps & Hps & Hw & Hkeys).
  { assert (forall c, c ∈ (o_parts o).*2 -> exists m, read n h c = Some m /\ wf m) as Hsub'.
    { intros c Hin. apply Hsub. apply elem_of_app. by right. }
    clear - Hsub'. induction (o_parts o) as [|[k c] cs IHc].
    - exists []. split; [done|]. split; [|done]. intros k v H. by apply not_elem_of_nil in H.
    - destruct (Hsub' c) as (m & Em & Hm); [csimpl; left|].
      destruct IHc as (ps & Eps & Hw & Hk); [intros; apply Hsub'; csimpl; by right|].
      exists ((k, m) :: ps). rewrite mapM_cons_pair, Em, Eps. split; [done|].
      split; [|csimpl; by rewrite Hk].
      intros k' v [[= -> ->]|Hin]%elem_of_cons; eauto. }
  rewrite read_unfold, Ho. cbn [mbind option_bind]. rewrite Hps.
  assert (dict_wf ps) as Hdp by (unfold dict_wf in *; by rewrite Hkeys).
  destruct (o_any o) as [a|] eqn:Ea.
  - destruct (Hsub a) as (m & -> & Hm); [unfold refs; rewrite Ea; left|].
    simpl. eexists. split; [done|]. constructor; [by intros ? [= <-]|done|done].
  - simpl. eexists. split; [done|]. by constructor.
Qed.

(** ** The levels *)

Definition level_ok (n : nat) (L : Level) : Prop :=
  (forall x, x ∈ starts L -> (x < n)%nat) /\ (forall x, x ∈ ends L -> (x < n)%nat) /\
  (forall x, x ∈ active L -> (x < n)%nat).

Lemma level_ok_mono n n' L : level_ok n L -> (n <= n')%nat -> level_ok n' L.
Proof. intros (H1 & H2 & H3) Hn. repeat split; intros x Hx; [apply H1 in Hx|apply H2 in Hx|apply H3 in Hx]; lia. Qed.

Lemma refs_obj_set o s c x :
  x ∈ refs (Level.obj_set o s c) -> x = c \/ x ∈ refs o.
Proof.
  unfold refs. destruct s as [|k]; simpl.
  - intros [->|Hin]%elem_of_cons; [by left|right]. apply elem_of_app. by right.
  - intros [Hin|Hin]%elem_of_app; [right; apply elem_of_app; by left|].
    apply list_elem_of_fmap in Hin as ([k' x'] & -> & Hin).
    assert (x' = c \/ (k', x') ∈ o_parts o) as [->|Hin'].
    { clear - Hin. induction (o_parts o) as [|[k1 c1] ps IH]; simpl in Hin.
      - apply list_elem_of_singleton in Hin. injection Hin as -> ->. by left.
      - case_decide; apply elem_of_cons in Hin as [[= -> ->]|Hin]; [by left|right; by right|right; left|].
        destruct (IH Hin); [by left|right; by right]. }
    + by left.
    + right. apply elem_of_app. right. apply list_elem_of_fmap. by exists (k', x').
Qed.

Lemma obj_set_wf o s c : dict_wf (o_parts o) -> dict_wf (o_parts (Level.obj_set o s c)).
Proof. destruct s; simpl; auto with pysdk. Qed.

Lemma heap_ok_set h l o s c :
  heap_ok h -> h !! l = Some o -> (l < c < length h)%nat -> heap_ok (<[l := Level.obj_set o s c]> h).
Proof.
  intros Hh Hl Hc l' o' Hl'. rewrite length_insert. destruct (decide (l' = l)) as [->|Hne].
  - rewrite list_lookup_insert_eq in Hl' by (by eapply lookup_lt_Some). injection Hl' as <-.
    destruct (Hh l o Hl) as [Hd Hr]. split; [by apply obj_set_wf|].
    intros x [->|Hx]%refs_obj_set; [done|auto].
  - rewrite list_lookup_insert_ne in Hl' by done. by apply Hh.
Qed.

Lemma heap_ok_new h : heap_ok h -> heap_ok (h ++ [empty_obj]).
Proof.
  intros Hh l o Hl. rewrite length_app. simpl. apply lookup_app_Some in Hl as [Hl|[_ Hl]].
  - destruct (Hh l o Hl) as [Hd Hc]. split; [done|]. intros c Hin. specialize (Hc c Hin). lia.
  - apply list_lookup_singleton_Some in Hl as [_ <-]. split; [apply dict_nil_wf|].
    intros c Hin. by apply not_elem_of_nil in Hin.
Qed.

Lemma advance_ok s act mask h na n0 :
  heap_ok h -> (n0 <= length h)%nat -> (forall x, x ∈ act -> (x < n0)%nat) ->
  (forall m, mask = Some m -> (n0 <= m < length h)%nat) ->
  (forall x, x ∈ na -> (x < length h)%nat) ->
  let '(h', na') := Level.advance s act mask h na in
  heap_ok h' /\ (length h <= length h')%nat /\ (forall x, x ∈ na' -> (x < length h')%nat).
Proof.
  revert mask h na. induction act as [|a act IH]; intros mask h na Hh Hn Ha Hm Hna; simpl; [done|].
  assert (forall x, x ∈ act -> (x < n0)%nat) as Ha' by (intros; apply Ha; by right).
  specialize (Ha a ltac:(left)). destruct (h !! a) as [o|] eqn:Eo; [|done].
  destruct (Level.obj_child o s) as [c|] eqn:Ec.
  - apply IH; try done. intros x [Hx|Hx]%elem_of_app; [auto|]. apply list_elem_of_singleton in Hx as ->.
    destruct (Hh a o Eo) as [_ Hr]. apply Hr. unfold refs. destruct s as [|k]; simpl in Ec.
    + rewrite Ec. left.
    + apply dict_get_elem in Ec. apply elem_of_app. right. apply list_elem_of_fmap. by exists (k, c).
  - destruct mask as [m|].
    + specialize (Hm m eq_refl).
      specialize (IH (Some m) (<[a := Level.obj_set o s m]> h) na). rewrite length_insert in IH.
      apply IH; try done; [apply heap_ok_set; [done..|lia]|by intros ? [= <-]].
    + specialize (IH (Some (length h)) (<[a := Level.obj_set o s (length h)]> (h ++ [empty_obj]))
        (na ++ [length h])). rewrite length_insert, length_app in IH. simpl in IH.
      assert (length h <= length h + 1)%nat by lia.
      destruct (Level.advance _ _ _ _ _) as [h' na']. destruct IH as (? & ? & ?).
      * apply heap_ok_set; [by apply heap_ok_new|by apply lookup_app_l_Some|].
        rewrite length_app. simpl. lia.
      * lia.
      * done.
      * intros ? [= <-]. lia.
      * intros x [Hx|Hx]%elem_of_app; [apply Hna in Hx|apply list_elem_of_singleton in Hx as ->]; lia.
      * split; [done|]. split; [lia|done].
Qed.

(** ** The lexer *)

(** A failure of the parser: the position reported lies inside the source. *)
Definition error_ok (source : pystr) (e : parse_error) : Prop :=
  match e with
  | ParseError _ => True
  | ContextedParseError s pos _ => s = source /\ (pos < length source)%nat
  | ParserOutOfFuel => False
  end.

Lemma span_le f s : (span f s <= length s)%nat.
Proof. induction s as [|c s IH]; simpl; [lia|]. destruct (f c); lia. Qed.

Lemma starts_with_lt source pos c : Lexer.starts_with source pos [c] = true -> (pos < length source)%nat.
Proof.
  unfold Lexer.starts_with. intros H. destruct (decide (pos < length source)%nat); [done|].
  rewrite drop_ge in H by lia. done.
Qed.

Lemma next_token_ok source pos :
  match Lexer.next_token source pos with
  | Ok (tok, pos') => t_type tok = EOL \/
      (pos < pos' <= length source)%nat /\ (t_pos tok < length source)%nat
  | Raise e => error_ok source e
  end.
Proof.
  unfold Lexer.next_token.
  set (p := (pos + span space_set (drop pos source))%nat). assert (pos <= p)%nat by lia.
  clearbody p. destruct (length source <=? p)%nat eqn:E0; [by left|]. apply Nat.leb_gt in E0.
  do 5 (destruct (Lexer.starts_with source p _); [right; simpl; lia|]).
  destruct (Lexer.starts_with source p _).
  - unfold Lexer.scan_quoted_key. destruct (Lexer.starts_with _ _ _) eqn:Eq; [|done].
    apply starts_with_lt in Eq. right. simpl. lia.
  - destruct (_ <? _)%nat eqn:Es; [|done]. unfold Lexer.scan_plain_key.
    pose proof (span_le simple_char (drop p source)) as Hs. rewrite length_drop in Hs.
    destruct (span _ _) eqn:En; [done|]. right. simpl. lia.
Qed.

Lemma unquote_spec tok tok' :
  Token.unquote tok = Ok tok' ->
  t_pos tok' = t_pos tok /\ (t_type tok' = EOL <-> t_type tok = EOL).
Proof.
  unfold Token.unquote. destruct (t_type tok) eqn:E; intros H; try (injection H as <-; by rewrite E).
  destruct (loads _); [|done]. injection H as <-. split; [done|]. split; done.
Qed.

(** With one unit of fuel per remaining character the lexer ends. *)
Lemma tokens_ok fuel source pos :
  (pos <= length source)%nat -> (length source - pos < fuel)%nat ->
  match Lexer.tokens fuel source pos with
  | Ok toks => Forall (fun t => (t_pos t < length source)%nat) toks
  | Raise e => error_ok source e
  end.
Proof.
  revert pos. induction fuel as [|fuel IH]; intros pos Hpos Hf; simpl; [lia|].
  pose proof (next_token_ok source pos) as Hn.
  destruct (Lexer.next_token source pos) as [[tok pos']|e]; simpl; [|done].
  destruct (Token.unquote tok) as [tok'|e] eqn:Eu.
  - apply unquote_spec in Eu as [Hp Ht]. case_bool_decide as Heol; [constructor|].
    destruct Hn as [Hn|[Hn Hn']]; [tauto|].
    specialize (IH pos'). destruct (Lexer.tokens fuel source pos') as [toks|e]; simpl; [|apply IH; lia].
    constructor; [lia|apply IH; lia].
  - destruct Hn as [Hn|[_ Hn]]; [|done]. unfold Token.unquote in Eu. by rewrite Hn in Eu.
Qed.

(** ** The invariant of the state machine *)

(** The brace positions of the levels: every level but the root has one. *)
Fixpoint braces_ok (source : pystr) (L : Level) (Ls : list Level) : Prop :=
  match Ls with
  | [] => True
  | L' :: Ls' => (l_pos L < length source)%nat /\ braces_ok source L' Ls'
  end.

Record parser_ok (source : pystr) (p : parser) : Prop := {
  ok_heap : heap_ok (p_heap p);
  ok_root : (0 < length (p_heap p))%nat;
  ok_levels : Forall (level_ok (length (p_heap p))) (lvl p :: prevs p);
  ok_braces : braces_ok source (lvl p) (prevs p)
}.

Lemma braces_ok_pos source L L' Ls : l_pos L = l_pos L' -> braces_ok source L Ls -> braces_ok source L' Ls.
Proof. intros Hp. destruct Ls; simpl; [done|by rewrite Hp]. Qed.

Lemma add_step_ok source s h L Ls st st' :
  parser_ok source (mkParser h L Ls st) ->
  let '(h', L') := Level.add_step s h L in parser_ok source (mkParser h' L' Ls st').
Proof.
  intros [Hh Hr Hl Hb]. simpl in *. unfold Level.add_step.
  apply Forall_cons in Hl as [HL Hl]. destruct HL as (H1 & H2 & H3).
  pose proof (advance_ok s (active L) None h [] (length h)) as Ha.
  destruct (Level.advance _ _ _ _ _) as [h' na].
  destruct Ha as (Hh' & Hlen & Hna); [done|lia|done|done|by intros ? ?%not_elem_of_nil|].
  split; simpl; [done|lia| |].
  - constructor.
    + repeat split; intros x Hx; simpl in Hx; [apply H1 in Hx|apply H2 in Hx|apply Hna in Hx]; lia.
    + eapply Forall_impl; [exact Hl|]. intros L' HL'. eapply level_ok_mono; [exact HL'|lia].
  - by apply (braces_ok_pos _ L).
Qed.

Lemma parse_step_ok source tok p :
  parser_ok source p -> (t_pos tok < length source)%nat ->
  match parse_step source tok p with
  | Ok (p', _) => parser_ok source p'
  | Raise e => error_ok source e
  end.
Proof.
  intros Hp Ht. destruct p as [h L Ls []]; simpl.
  - destruct (t_type tok); try (simpl; done).
    + destruct Hp as [Hh Hr Hl Hb]. split; simpl in *; [done|done| |done].
      pose proof Hl as [(H1 & H2 & H3) _]%Forall_cons.
      constructor; [|done]. repeat split; intros x Hx; simpl in Hx; auto.
      by apply not_elem_of_nil in Hx.
    + pose proof (add_step_ok _ Star h L Ls KEY SEPARATOR Hp) as H.
      unfold Level.add_any. by destruct (Level.add_step _ _ _).
    + pose proof (add_step_ok _ (Key (t_value tok)) h L Ls KEY SEPARATOR Hp) as H.
      unfold Level.add_key. by destruct (Level.add_step _ _ _).
  - destruct (t_type tok); try (simpl; done).
    + destruct Hp as [Hh Hr Hl Hb]. split; simpl in *; [done|done| |by apply (braces_ok_pos _ L)].
      apply Forall_cons in Hl as [(H1 & H2 & H3) Hl]. constructor; [|done].
      repeat split; intros x Hx; simpl in Hx; auto. apply elem_of_app in Hx as [Hx|Hx]; auto.
    + destruct Hp as [Hh Hr Hl Hb]. by split; simpl in *.
    + destruct Ls as [|L' Ls]; [done|]. destruct Hp as [Hh Hr Hl Hb].
      split; simpl in *; [done|done| |apply (braces_ok_pos _ L'); tauto].
      apply Forall_cons in Hl as [(H1 & H2 & H3) Hl]. apply Forall_cons in Hl as [(G1 & G2 & G3) Hl].
      constructor; [|done].
      repeat split; intros x Hx; simpl in Hx; auto. apply elem_of_app in Hx as [Hx|Hx]; auto.
  - destruct Hp as [Hh Hr Hl Hb]. by split.
Qed.

(** Every token is read at most twice: once more when a level starts. *)
Definition loop_measure (toks : list Token) (p : parser) : nat :=
  2 * length toks + match p_state p with LEVEL_START => 1 | _ => 0 end.

Lemma parse_step_measure source tok p p' consumed rest :
  parse_step source tok p = Ok (p', consumed) ->
  (loop_measure (if consumed then rest else tok :: rest) p' < loop_measure (tok :: rest) p)%nat.
Proof.
  unfold loop_measure. destruct p as [h L Ls []]; simpl.
  - destruct (t_type tok); simpl; intros H; try done.
    + injection H as <- <-. simpl. lia.
    + destruct (Level.add_any _ _). injection H as <- <-. simpl. lia.
    + destruct (Level.add_key _ _ _). injection H as <- <-. simpl. lia.
  - destruct (t_type tok); simpl; intros H; try done; [| |destruct Ls; [done|]];
      injection H as <- <-; simpl; lia.
  - intros [= <- <-]. simpl. case_bool_decide; simpl; lia.
Qed.

Lemma parse_loop_ok fuel source toks p :
  parser_ok source p -> Forall (fun t => (t_pos t < length source)%nat) toks ->
  (loop_measure toks p <= fuel)%nat ->
  match parse_loop fuel source toks p with
  | Ok p' => parser_ok source p'
  | Raise e => error_ok source e
  end.
Proof.
  revert toks p. induction fuel as [|fuel IH]; intros [|tok rest] p Hp Ht Hf; simpl; try done.
  - unfold loop_measure in Hf. simpl in Hf. lia.
  - pose proof Ht as [Ht1 Ht2]%Forall_cons.
    pose proof (parse_step_ok source tok p Hp Ht1) as Hs.
    destruct (parse_step source tok p) as [[p' consumed]|e] eqn:E; [|done].
    apply (parse_step_measure _ _ _ _ _ rest) in E. apply IH; [done|by destruct consumed|lia].
Qed.

Lemma parse_finish_ok source p :
  parser_ok source p ->
  match parse_finish source 0 p with Ok m => wf m | Raise e => error_ok source e end.
Proof.
  intros [Hh Hr Hl Hb]. unfold parse_finish. destruct (prevs p); simpl in *; [|tauto].
  destruct (p_state p); simpl; try done.
  destruct (read_heap_ok _ 0 Hh Hr) as (m & Hm & Hw). rewrite Nat.sub_0_r in Hm.
  by rewrite (read_S _ _ _ _ Hm).
Qed.

Lemma parser_ok_init source : parser_ok source (mkParser [empty_obj] (mkLevel [0%nat] [] [0%nat] 0) [] KEY).
Proof.
  split; simpl; [|lia| |done].
  - apply (heap_ok_new []). by intros l o H.
  - constructor; [|done]. repeat split; intros x Hx; simpl in Hx;
      first [by apply not_elem_of_nil in Hx | apply list_elem_of_singleton in Hx; lia].
Qed.

(** [parse] on any source: a well-formed mask, or an error inside the source. *)
Lemma parse_ok source :
  match parse source with Ok m => wf m | Raise e => error_ok source e end.
Proof.
  unfold parse. destruct (_ =? _)%nat; [apply emptyMask_wf|].
  pose proof (tokens_ok (S (length source)) source 0 ltac:(lia) ltac:(lia)) as Ht.
  destruct (Lexer.tokens _ source 0) as [toks|e]; [|done]. cbn [mbind result_bind Level.init app length].
  pose proof (parse_loop_ok (2 * length toks) source toks _ (parser_ok_init source) Ht) as Hp.
  destruct (parse_loop _ _ _ _) as [p|e]; cbn [mbind result_bind];
    [|apply Hp; unfold loop_measure; simpl; lia].
  apply parse_finish_ok, Hp. unfold loop_measure. simpl. lia.
Qed.
