(* ===== verification/MaskRoundtrip.v ===== *)
(** * Parsing what [marshal] writes

    The text of a mask parses back to an equal mask.  The text is described by
    an ordered syntax tree ([syn]); the lexer turns it into the expected tokens
    and the parser builds, out of those tokens, an object that unfolds to the
    tree. *)
From stdpp Require Import relations.
From S2P Require Import Prelude PyStr Json FieldMask FieldMaskSpec MaskHeap MaskParser.

(** ** Ordered masks *)

#[local] Unset Elimination Schemes.
Inductive syn : Type := Syn (es : list (step * syn)).
#[local] Set Elimination Schemes.

Definition entries (x : syn) : list (step * syn) := let 'Syn es := x in es.

Lemma syn_ind (P : syn -> Prop) :
  (forall es, (forall s x, (s, x) ∈ es -> P x) -> P (Syn es)) -> forall x, P x.
Proof.
  intros H. fix IH 1. intros [es]. apply H.
  assert (Forall (fun e => P e.2) es) as Hall.
  { clear H. induction es as [|[s0 x0] es IHes]; constructor; [apply IH|exact IHes]. }
  clear IH. intros s x Hin. by apply (proj1 (Forall_forall _ _) Hall) in Hin.
Qed.

Definition step_text (s : step) : pystr :=
  match s with Star => u "*" | Key k => FieldKey.marshal k end.

(** Text and token kinds of an ordered mask. *)
Fixpoint text (x : syn) : pystr :=
  match x with
  | Syn es => join (u ",") (map (fun '(s, y) =>
      Mask.marshal_entry (step_text s) (length (entries y), text y)) es)
  end.

Definition entry_text (e : step * syn) : pystr :=
  Mask.marshal_entry (step_text e.1) (length (entries e.2), text e.2).

Inductive kind : Type := KComma | KDot | KOpen | KClose | KStep (s : step).

Fixpoint comma_join (l : list (list kind)) : list kind :=
  match l with
  | [] => []
  | x :: rest => match rest with [] => x | _ :: _ => x ++ KComma :: comma_join rest end
  end.

Definition wrap (n : nat) (ks : list kind) : list kind :=
  match n with
  | O => []
  | S O => KDot :: ks
  | _ => KDot :: KOpen :: ks ++ [KClose]
  end.

Fixpoint kinds (x : syn) : list kind :=
  match x with
  | Syn es => comma_join (map (fun '(s, y) => KStep s :: wrap (length (entries y)) (kinds y)) es)
  end.

Definition entry_kinds (e : step * syn) : list kind :=
  KStep e.1 :: wrap (length (entries e.2)) (kinds e.2).

Definition kind_of (t : Token) : option kind :=
  match t_type t with
  | COMMA => Some KComma | DOT => Some KDot | LBRACE => Some KOpen | RBRACE => Some KClose
  | WILD_CARD => Some (KStep Star) | PLAIN_KEY => Some (KStep (Key (t_value t)))
  | QUOTED_KEY | EOL => None
  end.

Lemma text_eq es : text (Syn es) = join (u ",") (map entry_text es).
Proof. simpl. f_equal. apply map_ext. by intros [s y]. Qed.

Lemma kinds_eq es : kinds (Syn es) = comma_join (map entry_kinds es).
Proof. simpl. f_equal. apply map_ext. by intros [s y]. Qed.

(** ** Keys *)

(** The keys that survive: Unicode scalar values only, and not a simple key
    followed by a newline, which [FieldKey.marshal] does not quote. *)
Definition good_key (k : pystr) : bool :=
  scalar_str k && (all_simple k || negb (simple_string_pattern k)).

Definition good_step (s : step) : bool := match s with Star => true | Key k => good_key k end.

Lemma marshal_good k :
  good_key k = true ->
  (all_simple k = true /\ FieldKey.marshal k = k) \/
  (scalar_str k = true /\ FieldKey.marshal k = dumps k).
Proof.
  unfold good_key, FieldKey.marshal. intros [Hs Hk]%andb_true_iff.
  destruct (all_simple k) eqn:E.
  - left. split; [done|]. unfold simple_string_pattern. by rewrite E.
  - right. split; [done|]. simpl in Hk. by destruct (simple_string_pattern k).
Qed.

(** ** The lexer on rendered text *)

(** From [pos] the lexer reads tokens of the kinds [ks] and arrives at [pos']. *)
Definition lexes (source : pystr) (pos : nat) (ks : list kind) (pos' : nat) : Prop :=
  exists toks, map kind_of toks = map Some ks /\
  forall fuel, Lexer.tokens (length ks + fuel) source pos =
    (rest ← Lexer.tokens fuel source pos'; Ok (toks ++ rest)).

Lemma lexes_nil source pos : lexes source pos [] pos.
Proof.
  exists []. split; [done|]. intros fuel. simpl.
  by destruct (Lexer.tokens fuel source pos).
Qed.

Lemma lexes_app source pos1 pos2 pos3 ks1 ks2 :
  lexes source pos1 ks1 pos2 -> lexes source pos2 ks2 pos3 -> lexes source pos1 (ks1 ++ ks2) pos3.
Proof.
  intros (t1 & H1 & L1) (t2 & H2 & L2). exists (t1 ++ t2). split; [by rewrite !map_app, H1, H2|].
  intros fuel. rewrite length_app, <- Nat.add_assoc, L1, L2.
  destruct (Lexer.tokens fuel source pos3); simpl; [|done]. by rewrite app_assoc.
Qed.

Lemma lexes_one source pos tok tok' pos' k :
  Lexer.next_token source pos = Ok (tok, pos') -> Token.unquote tok = Ok tok' ->
  kind_of tok' = Some k -> lexes source pos [k] pos'.
Proof.
  intros Hn Hu Hk. exists [tok']. split; [by simpl; rewrite Hk|]. intros fuel.
  cbn [length Nat.add Lexer.tokens]. rewrite Hn. cbn [mbind result_bind]. rewrite Hu.
  rewrite bool_decide_false; [done|]. unfold kind_of in Hk. by destruct (t_type tok').
Qed.

Definition kind_char (k : kind) : option Z :=
  match k with
  | KComma => Some 44 | KDot => Some 46 | KOpen => Some 40 | KClose => Some 41
  | KStep Star => Some 42 | KStep (Key _) => None
  end.

Lemma drop_lt {A} (l : list A) n x rest : drop n l = x :: rest -> (n < length l)%nat.
Proof.
  intros H. destruct (decide (n < length l)%nat) as [|Hge]; [done|].
  rewrite drop_ge in H by lia. done.
Qed.

Lemma next_token_start source pos c rest :
  drop pos source = c :: rest -> space_set c = false ->
  (pos + span space_set (drop pos source))%nat = pos /\ (length source <=? pos)%nat = false.
Proof.
  intros Hd Hc. rewrite Hd. simpl. rewrite Hc. split; [lia|].
  apply drop_lt in Hd. apply Nat.leb_gt. lia.
Qed.

Lemma lexes_char source pos k c rest :
  kind_char k = Some c -> drop pos source = c :: rest -> lexes source pos [k] (pos + 1).
Proof.
  intros Hk Hd.
  assert (space_set c = false) as Hc by (by destruct k as [| | | |[|]]; simplify_eq/=).
  destruct (next_token_start _ _ _ _ Hd Hc) as [Hp Hl].
  destruct k as [| | | |[|]]; simpl in Hk; simplify_eq;
    (eapply lexes_one; [unfold Lexer.next_token; rewrite Hp, Hl; unfold Lexer.starts_with;
      rewrite Hd; reflexivity|reflexivity|reflexivity]).
Qed.

(** What may follow a key. *)
Definition delimiter (rest : pystr) : bool :=
  match rest with [] => true | c :: _ => negb (simple_char c) end.

Lemma span_all f s rest :
  forallb f s = true -> match rest with [] => true | c :: _ => negb (f c) end = true ->
  span f (s ++ rest) = length s.
Proof.
  intros Hs Hr. induction s as [|c s IH]; simpl in *.
  - destruct rest as [|c rest]; simpl; [done|]. by destruct (f c).
  - apply andb_true_iff in Hs as [-> Hs]. by rewrite IH.
Qed.

Lemma simple_char_special c :
  simple_char c = true ->
  space_set c = false /\ c <> 44 /\ c <> 46 /\ c <> 40 /\ c <> 41 /\ c <> 42 /\ c <> 34.
Proof. unfold simple_char, space_set. lia. Qed.

Lemma startswith_one c s d : startswith (c :: s) [d] = bool_decide (d = c).
Proof. simpl. by rewrite andb_true_r. Qed.

(** The branch of [next_token] taken at a character that is none of the
    punctuation marks. *)
Lemma next_token_other source pos c rest :
  drop pos source = c :: rest -> space_set c = false ->
  c <> 44 -> c <> 46 -> c <> 40 -> c <> 41 -> c <> 42 ->
  Lexer.next_token source pos =
  if bool_decide (34 = c) then Lexer.scan_quoted_key source pos
  else if (0 <? span simple_char (c :: rest))%nat then Lexer.scan_plain_key source pos
  else Raise (ContextedParseError source pos (Text (u "unexpected symbol"))).
Proof.
  intros Hd Hc H1 H2 H3 H4 H5. destruct (next_token_start _ _ _ _ Hd Hc) as [Hp Hl].
  unfold Lexer.next_token. rewrite Hp, Hl. unfold Lexer.starts_with. rewrite Hd.
  change (u ",") with [44]. change (u ".") with [46]. change (u "(") with [40].
  change (u ")") with [41]. change (u "*") with [42]. unfold QUOTE. rewrite !startswith_one.
  by rewrite !(bool_decide_false (_ = c)) by congruence.
Qed.

Lemma lexes_plain source pos k rest :
  all_simple k = true -> delimiter rest = true -> drop pos source = k ++ rest ->
  lexes source pos [KStep (Key k)] (pos + length k).
Proof.
  intros Hk Hr Hd. destruct k as [|c k]; [done|]. cbn [all_simple] in Hk.
  assert (span simple_char (drop pos source) = length (c :: k)) as Hspan.
  { rewrite Hd. by apply span_all. }
  pose proof Hk as Hc. simpl in Hc. apply andb_true_iff in Hc as [Hc _].
  destruct (simple_char_special c Hc) as (Hsp & H1 & H2 & H3 & H4 & H5 & H6).
  eapply (lexes_one _ _ (mkToken PLAIN_KEY (c :: k) pos)); [|reflexivity|reflexivity].
  rewrite (next_token_other source pos c (k ++ rest)) by done.
  rewrite bool_decide_false by done. change (c :: k ++ rest) with ((c :: k) ++ rest).
  rewrite <- Hd, Hspan. cbn [length Nat.ltb Nat.leb]. unfold Lexer.scan_plain_key. rewrite Hspan.
  cbn [length]. rewrite Hd. change (S (length k)) with (length (c :: k)).
  by rewrite take_app_length.
Qed.

(** *** Quoted keys *)

Lemma quoted_span_plain c s :
  c <> QUOTE -> c <> BACKSLASH -> quoted_span (c :: s) = S (quoted_span s).
Proof.
  intros H1 H2. simpl. by rewrite (proj2 (Z.eqb_neq c QUOTE)), (proj2 (Z.eqb_neq c BACKSLASH)).
Qed.

Lemma hex_digit_plain n : 0 <= n < 16 -> hex_digit n <> QUOTE /\ hex_digit n <> BACKSLASH.
Proof. unfold hex_digit, QUOTE, BACKSLASH. case_match; lia. Qed.

Lemma quoted_span_u n s :
  quoted_span (u_escape n ++ s) = (length (u_escape n) + quoted_span s)%nat.
Proof.
  assert (forall m, 0 <= m mod 16 < 16) as Hb by (intros; apply Z.mod_pos_bound; lia).
  unfold u_escape. cbn [app].
  change (quoted_span (BACKSLASH :: 117 :: ?r)) with (2 + quoted_span r)%nat.
  rewrite !quoted_span_plain by (apply hex_digit_plain, Hb). simpl. lia.
Qed.

Lemma quoted_span_escape c s :
  quoted_span (escape_ascii c ++ s) = (length (escape_ascii c) + quoted_span s)%nat.
Proof.
  unfold escape_ascii. destruct (short_escape c) as [e|] eqn:E; [done|].
  apply short_escape_none in E as [H1 H2].
  case_match; [by apply quoted_span_plain|]. case_match; [apply quoted_span_u|].
  rewrite <- app_assoc, !quoted_span_u, length_app. lia.
Qed.

Lemma quoted_span_dumps k rest :
  quoted_span ((k ≫= escape_ascii) ++ QUOTE :: rest) = length (k ≫= escape_ascii).
Proof.
  induction k as [|c k IH]; [done|]. rewrite bind_cons, <- app_assoc, quoted_span_escape, IH.
  by rewrite length_app.
Qed.

Lemma lexes_quoted source pos k rest :
  scalar_str k = true -> drop pos source = dumps k ++ rest ->
  lexes source pos [KStep (Key k)] (pos + length (dumps k)).
Proof.
  intros Hk Hd. set (body := k ≫= escape_ascii).
  assert (drop pos source = QUOTE :: body ++ QUOTE :: rest) as Hd'.
  { rewrite Hd. unfold dumps. cbn [app]. by rewrite <- app_assoc. }
  assert (drop (pos + 1) source = body ++ QUOTE :: rest) as Hd1.
  { rewrite <- drop_drop, Hd'. done. }
  assert (length (dumps k) = (length body + 2)%nat) as Hlen.
  { unfold dumps. simpl. fold body. rewrite length_app. simpl. lia. }
  assert (Lexer.next_token source pos = Ok (mkToken QUOTED_KEY (dumps k) pos, (pos + length (dumps k))%nat))
    as Hn.
  { rewrite (next_token_other source pos QUOTE (body ++ QUOTE :: rest)) by done.
    rewrite bool_decide_true by done. unfold Lexer.scan_quoted_key.
    rewrite Hd1. unfold body at 1 2 3. rewrite quoted_span_dumps. fold body.
    unfold Lexer.starts_with. rewrite <- drop_drop, Hd1, drop_app_length, startswith_one.
    rewrite bool_decide_true by done.
    replace (pos + 1 + length body + 1)%nat with (pos + length (dumps k))%nat by lia.
    replace (pos + length (dumps k) - pos)%nat with (length (dumps k)) by lia.
    by rewrite Hd, take_app_length. }
  eapply lexes_one; [exact Hn| |].
  - unfold Token.unquote. cbn [t_type t_value]. rewrite loads_dumps by done. reflexivity.
  - reflexivity.
Qed.

Lemma lexes_step source pos s rest :
  good_step s = true -> delimiter rest = true -> drop pos source = step_text s ++ rest ->
  lexes source pos [KStep s] (pos + length (step_text s)).
Proof.
  intros Hs Hr Hd. destruct s as [|k]; simpl in *.
  - by eapply (lexes_char _ _ (KStep Star)).
  - destruct (marshal_good k Hs) as [[Ha Hm]|[Ha Hm]]; rewrite Hm in *.
    + by eapply lexes_plain.
    + by eapply lexes_quoted.
Qed.

(** *** Whole masks *)

Inductive good_syn : syn -> Prop :=
| good_mk es :
    (forall s x, (s, x) ∈ es -> good_step s = true) -> (forall s x, (s, x) ∈ es -> good_syn x) ->
    NoDup es.*1 -> good_syn (Syn es).

Lemma good_inv es :
  good_syn (Syn es) ->
  (forall s x, (s, x) ∈ es -> good_step s = true /\ good_syn x) /\ NoDup es.*1.
Proof. inversion 1; eauto. Qed.

Lemma dumps_nonempty k : dumps k <> [].
Proof. done. Qed.

Lemma step_text_nonempty s : good_step s = true -> step_text s <> [].
Proof.
  destruct s as [|k]; [done|]. simpl. intros Hk.
  destruct (marshal_good k Hk) as [[Ha Hm]|[Ha Hm]]; rewrite Hm; [by destruct k|done].
Qed.

Lemma entry_text_nonempty e : good_step e.1 = true -> entry_text e <> [].
Proof.
  destruct e as [s x]. intros Hs. unfold entry_text, Mask.marshal_entry. simpl in *.
  apply step_text_nonempty in Hs. destruct (step_text s); [done|]. by repeat case_match.
Qed.

Lemma text_empty es : good_syn (Syn es) -> text (Syn es) = [] -> es = [].
Proof.
  intros (Hg & _)%good_inv. rewrite text_eq. destruct es as [|[s x] es]; [done|]. csimpl.
  destruct (Hg s x) as [Hs _]; [left|].
  pose proof (entry_text_nonempty (s, x) Hs). by destruct (entry_text (s, x)), (map entry_text es).
Qed.

(** What follows an entry: a comma, a closing parenthesis or the end. *)
Definition stop (rest : pystr) : bool :=
  match rest with [] => true | c :: _ => (c =? 44) || (c =? 41) end.

Lemma stop_delimiter rest : stop rest = true -> delimiter rest = true.
Proof. destruct rest; [done|]. unfold stop, delimiter, simple_char. lia. Qed.

Lemma drop_step (source : pystr) pos a b :
  drop pos source = a ++ b -> drop (pos + length a) source = b.
Proof. intros H. by rewrite <- drop_drop, H, drop_app_length. Qed.

(** The text of an entry, by cases on what follows the key. *)
Lemma entry_text_cases s x :
  good_syn x ->
  (entries x = [] /\ entry_text (s, x) = step_text s /\ entry_kinds (s, x) = [KStep s]) \/
  (length (entries x) = 1%nat /\ entry_text (s, x) = step_text s ++ u "." ++ text x /\
     entry_kinds (s, x) = KStep s :: KDot :: kinds x) \/
  ((1 < length (entries x))%nat /\
     entry_text (s, x) = step_text s ++ u "." ++ u "(" ++ text x ++ u ")" /\
     entry_kinds (s, x) = KStep s :: KDot :: KOpen :: kinds x ++ [KClose]).
Proof.
  intros Hg. destruct x as [es]. unfold entry_text, entry_kinds, Mask.marshal_entry.
  cbn [fst snd entries].
  destruct es as [|e1 [|e2 es]].
  - left. done.
  - right. left. destruct (text (Syn [e1])) eqn:E; [|done].
    apply text_empty in E; done.
  - right. right. split; [simpl; lia|]. destruct (text _) eqn:E; [|done].
    apply text_empty in E; done.
Qed.

(** Entries are lexed one after the other, separated by commas. *)
Lemma lexes_entries source es :
  (forall e, e ∈ es -> forall pos rest, stop rest = true -> drop pos source = entry_text e ++ rest ->
     lexes source pos (entry_kinds e) (pos + length (entry_text e))) ->
  forall pos rest, stop rest = true ->
  drop pos source = join (u ",") (map entry_text es) ++ rest ->
  lexes source pos (comma_join (map entry_kinds es))
    (pos + length (join (u ",") (map entry_text es))).
Proof.
  induction es as [|e es IH]; intros He pos rest Hr Hd.
  - simpl. rewrite Nat.add_0_r. apply lexes_nil.
  - destruct es as [|e2 es]; [by eapply He; [left|..]|].
    cbn [map] in *. rewrite join_cons in * by done.
    assert (forall a b c, (a + (b + (1 + c)) = a + b + 1 + c)%nat) as Harith by lia.
    rewrite !length_app. simpl (length (u ",")). rewrite Harith.
    rewrite <- !app_assoc in Hd. pose proof (drop_step _ _ _ _ Hd) as Hd1.
    change (comma_join (?a :: ?b :: ?l)) with (a ++ [KComma] ++ comma_join (b :: l)).
    eapply lexes_app; [eapply He; [left| |exact Hd]; done|].
    eapply lexes_app; [eapply (lexes_char _ _ KComma); [reflexivity|exact Hd1]|].
    apply (IH (fun e0 H0 => He e0 (proj2 (elem_of_cons _ _ _) (or_intror H0))) _ rest Hr).
    by apply (drop_step _ _ (u ",")).
Qed.

Lemma lexes_syn source x :
  good_syn x -> forall pos rest, stop rest = true -> drop pos source = text x ++ rest ->
  lexes source pos (kinds x) (pos + length (text x)).
Proof.
  induction x as [es IH] using syn_ind. intros (Hg & _)%good_inv.
  rewrite text_eq, kinds_eq. apply lexes_entries.
  intros [s x] Hin pos rest Hr Hd. destruct (Hg s x Hin) as [Hs Hx].
  specialize (IH s x Hin Hx).
  destruct (entry_text_cases s x Hx) as [(_ & Ht & Hk)|[(_ & Ht & Hk)|(_ & Ht & Hk)]];
    rewrite Hk; rewrite Ht in *; clear Ht Hk.
  - eapply lexes_step; [done|by apply stop_delimiter|done].
  - rewrite <- !app_assoc in Hd. rewrite !length_app, Nat.add_assoc.
    eapply (lexes_app _ _ _ _ [KStep s]); [eapply lexes_step; [done| |exact Hd]; done|].
    apply drop_step in Hd. rewrite Nat.add_assoc.
    eapply (lexes_app _ _ _ _ [KDot]); [eapply (lexes_char _ _ KDot); [reflexivity|exact Hd]|].
    apply (IH _ rest Hr). by apply (drop_step _ _ (u ".")).
  - rewrite <- !app_assoc in Hd. rewrite !length_app, !Nat.add_assoc.
    eapply (lexes_app _ _ _ _ [KStep s]); [eapply lexes_step; [done| |exact Hd]; done|].
    apply drop_step in Hd.
    eapply (lexes_app _ _ _ _ [KDot]); [eapply (lexes_char _ _ KDot); [reflexivity|exact Hd]|].
    apply (drop_step _ _ (u ".")) in Hd.
    eapply (lexes_app _ _ _ _ [KOpen]); [eapply (lexes_char _ _ KOpen); [reflexivity|exact Hd]|].
    apply (drop_step _ _ (u "(")) in Hd.
    eapply lexes_app; [by eapply IH; [|exact Hd]|].
    apply drop_step in Hd. eapply (lexes_char _ _ KClose); [reflexivity|exact Hd].
Qed.

Lemma next_token_eol source :
  Lexer.next_token source (length source) = Ok (mkToken EOL [] (length source), length source).
Proof.
  unfold Lexer.next_token. rewrite drop_all. cbn [span]. by rewrite Nat.add_0_r, Nat.leb_refl.
Qed.

(** The token list of the text of a mask. *)
Lemma tokens_text x :
  good_syn x -> exists toks, map kind_of toks = map Some (kinds x) /\
  forall fuel, Lexer.tokens (length (kinds x) + S fuel) (text x) 0 = Ok toks.
Proof.
  intros Hx. destruct (lexes_syn (text x) x Hx 0 []) as (toks & Hk & Ht);
    [done|by rewrite app_nil_r, drop_0|].
  exists toks. split; [done|]. intros fuel. rewrite Ht. cbn [Nat.add].
  cbn [Lexer.tokens]. rewrite next_token_eol. cbn [mbind result_bind Token.unquote t_type].
  rewrite bool_decide_true by done. cbn. by rewrite app_nil_r.
Qed.

(** Each token is at least one character. *)
Lemma comma_join_length es :
  (forall e, e ∈ es -> (length (entry_kinds e) <= length (entry_text e))%nat) ->
  (length (comma_join (map entry_kinds es)) <= length (join (u ",") (map entry_text es)))%nat.
Proof.
  induction es as [|e [|e2 es] IH]; intros He; [done|apply He; left|].
  cbn [map] in *. rewrite join_cons by done.
  change (comma_join (?a :: ?b :: ?l)) with (a ++ [KComma] ++ comma_join (b :: l)).
  rewrite !length_app. simpl (length (u ",")). simpl (length [KComma]).
  specialize (He e ltac:(left)) as H1.
  assert (forall e0, e0 ∈ e2 :: es -> (length (entry_kinds e0) <= length (entry_text e0))%nat) as H2
    by (intros; apply He; by right).
  specialize (IH H2). lia.
Qed.

Lemma kinds_length x : good_syn x -> (length (kinds x) <= length (text x))%nat.
Proof.
  induction x as [es IH] using syn_ind. intros (Hg & _)%good_inv.
  rewrite text_eq, kinds_eq. apply comma_join_length. intros [s x] Hin.
  destruct (Hg s x Hin) as [Hs Hx]. specialize (IH s x Hin Hx).
  apply step_text_nonempty in Hs. destruct (step_text s) as [|c t] eqn:Et; [done|].
  destruct (entry_text_cases s x Hx) as [(_ & Ht & Hk)|[(_ & Ht & Hk)|(_ & Ht & Hk)]];
    rewrite Hk, Ht, Et; simpl; rewrite ?length_app; simpl; rewrite ?length_app; simpl; lia.
Qed.
