(* ===== verification/MaskBuild.v ===== *)
(** * The objects the parser builds

    The second half of the round trip: fed with the tokens of an ordered mask,
    the state machine of [parse] adds to the current object children that
    unfold to the mask, touches no other existing object, and returns to the
    separator state of the same level. *)
From stdpp Require Import relations.
From S2P Require Import Prelude PyStr Json FieldMask FieldMaskSpec MaskHeap MaskParser MaskParserInv MaskRoundtrip.

(** ** Masks from ordered masks *)

Definition mask_set (m : Mask) (s : step) (c : Mask) : Mask :=
  match s with
  | Star => mkMask (Some c) (field_parts m)
  | Key k => mkMask (any m) (dict_set (field_parts m) k c)
  end.

Fixpoint mask_of (x : syn) : Mask :=
  match x with Syn es => foldl (fun m '(s, y) => mask_set m s (mask_of y)) emptyMask es end.

Definition add_entries (m : Mask) (es : list (step * syn)) : Mask :=
  foldl (fun m '(s, y) => mask_set m s (mask_of y)) m es.

Lemma mask_of_entries x : mask_of x = add_entries emptyMask (entries x).
Proof. by destruct x. Qed.

Lemma mask_set_child m s c s' :
  child (mask_set m s c) s' = if decide (s' = s) then Some c else child m s'.
Proof.
  destruct s as [|k], s' as [|k']; simpl; try done.
  rewrite dict_get_set. repeat case_decide; congruence.
Qed.

(** ** Trees inside a region of the heap *)

(** [c] unfolds to [m], and everything reachable from it lies at or above
    [lo]. *)
Definition tree (h : heap) (lo c : nat) (m : Mask) : Prop :=
  unfolds h c m /\ forall x, rtc (edge h) c x -> (lo <= x < length h)%nat.

Definition objtree (h : heap) (lo : nat) (o : obj) (m : Mask) : Prop :=
  match o_any o, any m with
  | None, None => True
  | Some c, Some a => tree h lo c a
  | _, _ => False
  end /\
  Forall2 (fun '(k, c) '(k', m') => k' = k /\ tree h lo c m') (o_parts o) (field_parts m).

Lemma read_agree n h h' c :
  (forall x, rtc (edge h) c x -> h' !! x = h !! x) -> read n h' c = read n h c.
Proof.
  revert c. induction n as [|n IH]; intros c Hag; [done|]. rewrite !read_unfold.
  rewrite (Hag c) by done. destruct (h !! c) as [o|] eqn:Ho; [|done]. cbn [mbind option_bind].
  assert (forall c', c' ∈ refs o -> read n h' c' = read n h c') as IHc.
  { intros c' Hc'. apply IH. intros x Hx. apply Hag. eapply rtc_l; [|exact Hx]. by exists o. }
  unfold refs in IHc.
  assert (mapM (fun '(k, c0) => pair k <$> read n h' c0) (o_parts o) =
          mapM (fun '(k, c0) => pair k <$> read n h c0) (o_parts o)) as ->.
  { apply Forall_mapM_ext, Forall_forall. intros [k c'] Hin. simpl. rewrite IHc; [done|].
    apply elem_of_app. right. apply list_elem_of_fmap. by exists (k, c'). }
  destruct (o_any o) as [a|]; [|done]. rewrite (IHc a); [done|]. left.
Qed.

Lemma tree_agree h h' lo c m :
  tree h lo c m -> (length h <= length h')%nat ->
  (forall x, (lo <= x < length h)%nat -> h' !! x = h !! x) -> tree h' lo c m.
Proof.
  intros [[n Hn] Hr] Hlen Hag. split.
  - exists n. rewrite (read_agree n h h'); [done|]. auto.
  - assert (forall a x, rtc (edge h') a x -> rtc (edge h) c a -> rtc (edge h) c x) as Hback.
    { induction 1 as [|a b x (o & Ho & Hb) _ IH]; intros Ha; [done|]. apply IH.
      eapply rtc_r; [exact Ha|]. exists o. split; [|done]. by rewrite <- (Hag a) by auto. }
    intros x Hx. specialize (Hr x (Hback c x Hx (rtc_refl _ _))). lia.
Qed.

Lemma objtree_agree h h' lo o m :
  objtree h lo o m -> (length h <= length h')%nat ->
  (forall x, (lo <= x < length h)%nat -> h' !! x = h !! x) -> objtree h' lo o m.
Proof.
  intros [Ha Hp] Hlen Hag. split.
  - destruct (o_any o), (any m); try done. by eapply tree_agree.
  - eapply Forall2_impl; [exact Hp|]. intros [k c] [k' m'] [-> Ht]. split; [done|].
    by eapply tree_agree.
Qed.

(** An object whose children are trees is a tree. *)
Lemma objtree_tree h lo lo' l o m :
  h !! l = Some o -> objtree h lo' o m -> (lo <= l)%nat -> (lo <= lo')%nat -> tree h lo l m.
Proof.
  intros Hl [Ha Hp] Hlo Hlo'. split.
  - destruct m as [a ps]. apply (unfolds_mk _ _ o); [done| |].
    + destruct (o_any o), a; simpl in *; try done. by destruct Ha.
    + eapply Forall2_impl; [exact Hp|]. intros [k c] [k' m'] [-> [Hu _]]. done.
  - intros x Hx. apply rtc_inv in Hx as [<-|(y & (o' & Ho & Hy) & Hx)].
    + split; [done|]. by eapply lookup_lt_Some.
    + assert (o' = o) as -> by congruence. clear Ho.
      assert (exists my, tree h lo' y my) as (my & _ & Hr).
      { unfold refs in Hy. apply elem_of_app in Hy as [Hy|Hy].
        - destruct (o_any o), (any m); try done; [|by apply not_elem_of_nil in Hy].
          apply list_elem_of_singleton in Hy as ->. eauto.
        - apply list_elem_of_fmap in Hy as ([k c] & -> & Hin).
          apply list_elem_of_lookup in Hin as [i Hi].
          destruct (Forall2_lookup_l _ _ _ _ _ Hp Hi) as ([k' m'] & _ & -> & Ht). eauto. }
      specialize (Hr x Hx). lia.
Qed.

Lemma objtree_child_none h lo o m s :
  objtree h lo o m -> child m s = None -> Level.obj_child o s = None.
Proof.
  intros [Ha Hp]. destruct s as [|k]; simpl.
  - intros E. rewrite E in Ha. by destruct (o_any o).
  - intros Hk. induction Hp as [|[k1 c1] [k2 m2] cs ps [-> _] _ IH]; [done|].
    simpl in *. case_decide; [done|auto].
Qed.

Lemma objtree_set h lo o m s c mc :
  objtree h lo o m -> tree h lo c mc -> child m s = None ->
  objtree h lo (Level.obj_set o s c) (mask_set m s mc).
Proof.
  intros [Ha Hp] Ht Hs. destruct s as [|k]; simpl in *; split; simpl; try done.
  induction Hp as [|[k1 c1] [k2 m2] cs ps [-> H1] Hp IH]; csimpl.
  - constructor; [done|constructor].
  - simpl in Hs. case_decide; [done|]. constructor; [done|auto].
Qed.

Lemma objtree_empty h lo : objtree h lo empty_obj emptyMask.
Proof. split; simpl; [done|constructor]. Qed.

(** ** Runs of the state machine *)

(** [k] iterations consume the tokens [toks]. *)
Definition runs (k : nat) (source : pystr) (toks : list Token) (p p' : parser) : Prop :=
  forall fuel rest,
    parse_loop (k + fuel) source (toks ++ rest) p = parse_loop fuel source rest p'.

Lemma runs_app k1 k2 source t1 t2 p1 p2 p3 :
  runs k1 source t1 p1 p2 -> runs k2 source t2 p2 p3 -> runs (k1 + k2) source (t1 ++ t2) p1 p3.
Proof. intros H1 H2 fuel rest. by rewrite <- Nat.add_assoc, <- app_assoc, H1, H2. Qed.

Lemma runs_consume source tok p p' :
  parse_step source tok p = Ok (p', true) -> runs 1 source [tok] p p'.
Proof. intros H fuel rest. simpl. by rewrite H. Qed.

Lemma runs_peek k source tok toks p p1 p' :
  parse_step source tok p = Ok (p1, false) -> runs k source (tok :: toks) p1 p' ->
  runs (S k) source (tok :: toks) p p'.
Proof. intros H Hr fuel rest. simpl. rewrite H. apply (Hr fuel rest). Qed.

(** The new level after a key or a wildcard in a level with one active mask. *)
Definition entered (L : Level) (c : nat) : Level := mkLevel (starts L) (ends L) [c] (l_pos L).

Lemma step_enters source tok h L ps s l o :
  kind_of tok = Some (KStep s) -> active L = [l] -> h !! l = Some o -> Level.obj_child o s = None ->
  parse_step source tok (mkParser h L ps KEY) =
  Ok (mkParser (<[l := Level.obj_set o s (length h)]> (h ++ [empty_obj]))
        (entered L (length h)) ps SEPARATOR, true).
Proof.
  intros Hk Ha Hl Hc. unfold kind_of in Hk. unfold parse_step.
  destruct (t_type tok); simplify_eq/=;
    unfold Level.add_key, Level.add_any, Level.add_step; rewrite Ha; simpl; rewrite Hl;
    simpl in Hc; by rewrite Hc.
Qed.

(** ** Entries *)

(** What a run over the entries of one object achieves: it started at the
    object [l] and added children that unfold to [m']. *)
Record built (k : nat) (source : pystr) (toks : list Token) (p p' : parser) (l : nat) (m' : Mask) :
    Prop := {
  b_runs : runs k source toks p p';
  b_fuel : (k <= 2 * length toks)%nat;
  b_state : p_state p' = SEPARATOR;
  b_prevs : prevs p' = prevs p;
  b_starts : starts (lvl p') = starts (lvl p);
  b_pos : l_pos (lvl p') = l_pos (lvl p);
  b_len : (length (p_heap p) <= length (p_heap p'))%nat;
  b_frame : forall x, (x < length (p_heap p))%nat -> x <> l -> p_heap p' !! x = p_heap p !! x;
  b_obj : exists o', p_heap p' !! l = Some o' /\ objtree (p_heap p') (S l) o' m'
}.

(** A parser about to read an entry of the object [l], which holds [m]. *)
Record ready (p : parser) (l : nat) (m : Mask) : Prop := {
  r_state : p_state p = KEY;
  r_active : active (lvl p) = [l];
  r_obj : exists o, p_heap p !! l = Some o /\ objtree (p_heap p) (S l) o m
}.

(** The statement for all the entries of an object. *)
Definition entries_spec (source : pystr) (es : list (step * syn)) : Prop :=
  forall p l m toks,
    es <> [] -> ready p l m -> ((1 < length es)%nat -> starts (lvl p) = [l]) ->
    (forall s x, (s, x) ∈ es -> child m s = None) ->
    map kind_of toks = map Some (comma_join (map entry_kinds es)) ->
    exists k p', built k source toks p p' l (add_entries m es).

Lemma kind_cons_inv toks k ks :
  map kind_of toks = map Some (k :: ks) ->
  exists tok toks', toks = tok :: toks' /\ kind_of tok = Some k /\ map kind_of toks' = map Some ks.
Proof. destruct toks as [|tok toks']; [done|]. intros [= H1 H2]. eauto. Qed.

Lemma kind_app_inv toks ks1 ks2 :
  map kind_of toks = map Some (ks1 ++ ks2) ->
  exists t1 t2, toks = t1 ++ t2 /\ map kind_of t1 = map Some ks1 /\ map kind_of t2 = map Some ks2.
Proof.
  rewrite map_app. intros (t1 & t2 & -> & H1 & H2)%map_eq_app. eauto.
Qed.

(** The heap after entering a child: the new object is last and empty. *)
Lemma enter_heap h l o s :
  h !! l = Some o ->
  let h' := <[l := Level.obj_set o s (length h)]> (h ++ [empty_obj]) in
  length h' = S (length h) /\ h' !! length h = Some empty_obj /\
  h' !! l = Some (Level.obj_set o s (length h)) /\
  forall x, (x < length h)%nat -> x <> l -> h' !! x = h !! x.
Proof.
  intros Hl h'. pose proof (lookup_lt_Some _ _ _ Hl) as Hlt. subst h'.
  split; [by rewrite length_insert, length_app; simpl; lia|]. split; [|split].
  - rewrite list_lookup_insert_ne by lia. by rewrite lookup_app_r, Nat.sub_diag by lia.
  - apply list_lookup_insert_eq. rewrite length_app. simpl. lia.
  - intros x Hx Hne. rewrite list_lookup_insert_ne by done. by apply lookup_app_l.
Qed.

(** After the child object [c] of [l] was completed in a later heap. *)
Lemma built_child h h1 h2 l o s m c mx :
  h !! l = Some o -> objtree h (S l) o m -> child m s = None -> c = length h ->
  length h1 = S (length h) -> h1 !! l = Some (Level.obj_set o s c) ->
  (forall x, (x < length h)%nat -> x <> l -> h1 !! x = h !! x) ->
  (length h1 <= length h2)%nat ->
  (forall x, (x < length h1)%nat -> x <> c -> h2 !! x = h1 !! x) ->
  (exists oc, h2 !! c = Some oc /\ objtree h2 (S c) oc mx) ->
  (forall x, (x < length h)%nat -> x <> l -> h2 !! x = h !! x) /\
  exists o', h2 !! l = Some o' /\ objtree h2 (S l) o' (mask_set m s mx).
Proof.
  intros Hl Hot Hs -> Hlen1 Hl1 Hf1 Hlen2 Hf2 (oc & Hoc & Htc).
  pose proof (lookup_lt_Some _ _ _ Hl) as Hlt.
  assert (forall x, (x < length h)%nat -> x <> l -> h2 !! x = h !! x) as Hf.
  { intros x Hx Hne. rewrite Hf2 by lia. by apply Hf1. }
  split; [done|]. exists (Level.obj_set o s (length h)). split; [rewrite Hf2 by lia; done|].
  apply objtree_set; [|by eapply (objtree_tree _ _ (S (length h))); eauto; lia|done].
  eapply objtree_agree; [exact Hot|lia|]. intros x Hx. apply Hf; lia.
Qed.

Lemma kind_type tok k :
  kind_of tok = Some k ->
  match k with
  | KComma => t_type tok = COMMA | KDot => t_type tok = DOT | KOpen => t_type tok = LBRACE
  | KClose => t_type tok = RBRACE | KStep s => t_type tok <> RBRACE
  end.
Proof. unfold kind_of. by destruct (t_type tok); intros [= <-]. Qed.

Lemma comma_join_head es : es <> [] -> exists s ks, comma_join (map entry_kinds es) = KStep s :: ks.
Proof.
  destruct es as [|[s x] es]; [done|]. intros _. cbn [map]. unfold entry_kinds at 1.
  destruct (map entry_kinds es); simpl; eauto.
Qed.

Lemma child_empty s : child emptyMask s = None.
Proof. by destruct s. Qed.

Lemma kinds_entries x : kinds x = comma_join (map entry_kinds (entries x)).
Proof. destruct x. apply kinds_eq. Qed.

(** A parenthesised group below the empty object [c]. *)
Lemma parse_group source h L ps c x toks :
  entries_spec source (entries x) -> entries x <> [] -> active L = [c] -> h !! c = Some empty_obj ->
  map kind_of toks = map Some (KOpen :: kinds x ++ [KClose]) ->
  exists k p', built k source toks (mkParser h L ps KEY) p' c (mask_of x).
Proof.
  intros IH Hne Hact Hc Hk. rewrite mask_of_entries.
  destruct (kind_cons_inv _ _ _ Hk) as (open & toks3 & -> & Hko & Hk3). apply kind_type in Hko.
  destruct (kind_app_inv _ _ _ Hk3) as (inner & toks4 & -> & Hki & Hk4).
  destruct (kind_cons_inv _ _ _ Hk4) as (close & toks5 & -> & Hkc & Hk5). apply kind_type in Hkc.
  destruct toks5; [|done]. rewrite kinds_entries in Hki.
  set (L2 := Level.push_level L (t_pos open)).
  destruct (IH (mkParser h L2 (L :: ps) KEY) c emptyMask inner)
    as (k & [h' L' ps' st'] & [Br Bf Bst Bp Bs Bl Blen Bfr Bo]); try done.
  { constructor; simpl; try done. exists empty_obj. split; [done|apply objtree_empty]. }
  { intros. apply child_empty. }
  simpl in *. subst st' ps'.
  destruct (comma_join_head _ Hne) as (s1 & ks1 & Hhead). rewrite Hhead in Hki.
  destruct (kind_cons_inv _ _ _ Hki) as (tok1 & inner' & -> & Hk1' & _). apply kind_type in Hk1'.
  assert (runs (S k) source (tok1 :: inner') (mkParser h L2 (L :: ps) LEVEL_START)
    (mkParser h' L' (L :: ps) SEPARATOR)) as Hgroup.
  { apply runs_peek with (2 := Br). simpl. by rewrite bool_decide_false. }
  exists (1 + (S k + 1))%nat, (mkParser h' (Level.pop_level L' L) ps SEPARATOR).
  constructor; simpl; try done; try (rewrite ?length_app in *; simpl in *; lia).
  apply (runs_app 1 _ _ [open] ((tok1 :: inner') ++ [close]) _ (mkParser h L2 (L :: ps) LEVEL_START));
    [apply runs_consume; simpl; by rewrite Hko|].
  apply (runs_app _ _ _ _ _ _ _ _ Hgroup). apply runs_consume. simpl. by rewrite Hkc.
Qed.

(** What follows a key: nothing, one segment or a group. *)
Lemma parse_below source h L ps c x toks :
  entries_spec source (entries x) -> active L = [c] -> h !! c = Some empty_obj ->
  map kind_of toks = map Some (wrap (length (entries x)) (kinds x)) ->
  exists k p', built k source toks (mkParser h L ps SEPARATOR) p' c (mask_of x).
Proof.
  intros IH Hact Hc Hk.
  assert (objtree h (S c) empty_obj emptyMask) as Hempty by apply objtree_empty.
  destruct (length (entries x)) as [|n] eqn:Hlen.
  - destruct toks; [|done]. apply nil_length_inv in Hlen. rewrite mask_of_entries, Hlen.
    exists 0%nat, (mkParser h L ps SEPARATOR). constructor; simpl; eauto. by intros fuel rest.
  - assert (entries x <> []) as Hne by (by destruct (entries x)).
    assert (exists dot toks2 k p', toks = dot :: toks2 /\ t_type dot = DOT /\
      built k source toks2 (mkParser h L ps KEY) p' c (mask_of x))
      as (dot & toks2 & k & p' & -> & Hd & [Br Bf Bst Bp Bs Bl Blen Bfr Bo]).
    { destruct n as [|n].
      - destruct (kind_cons_inv _ _ _ Hk) as (dot & toks2 & -> & Hd & Hk2).
        rewrite kinds_entries in Hk2.
        destruct (IH (mkParser h L ps KEY) c emptyMask toks2) as (k & p' & B); eauto.
        + by constructor; simpl; eauto.
        + simpl. lia.
        + intros. apply child_empty.
        + apply kind_type in Hd. exists dot, toks2, k, p'. by rewrite mask_of_entries.
      - destruct (kind_cons_inv _ _ _ Hk) as (dot & toks2 & -> & Hd & Hk2).
        destruct (parse_group source h L ps c x toks2) as (k & p' & B); try done.
        apply kind_type in Hd. by exists dot, toks2, k, p'. }
    exists (1 + k)%nat, p'. constructor; simpl in *; try done; try lia.
    apply (runs_app 1 k _ [dot] toks2 _ (mkParser h L ps KEY)); [|done].
    apply runs_consume. simpl. by rewrite Hd.
Qed.

(** One entry: the key, then what is below it. *)
Lemma parse_entry source p l m s x toks :
  entries_spec source (entries x) -> ready p l m -> child m s = None ->
  map kind_of toks = map Some (entry_kinds (s, x)) ->
  exists k p', built k source toks p p' l (mask_set m s (mask_of x)).
Proof.
  intros IH [Hst Hact (o & Hl & Hot)] Hs Hk.
  destruct p as [h L ps st]. simpl in *. subst st.
  pose proof (enter_heap h l o s Hl) as (Hlen1 & Hc1 & Hl1 & Hf1).
  set (h1 := <[l := _]> (h ++ [empty_obj])) in *.
  destruct (kind_cons_inv _ _ _ Hk) as (tok & toks1 & -> & Hkt & Hk1).
  assert (runs 1 source [tok] (mkParser h L ps KEY)
    (mkParser h1 (entered L (length h)) ps SEPARATOR)) as Hrun1.
  { apply runs_consume. apply (step_enters _ _ _ _ _ s l o); try done.
    by eapply objtree_child_none. }
  destruct (parse_below source h1 (entered L (length h)) ps (length h) x toks1)
    as (k & p' & [Br Bf Bst Bp Bs Bl Blen Bfr Bo]); try done.
  simpl in *.
  destruct (built_child h h1 (p_heap p') l o s m (length h) (mask_of x)) as [Hf Hobj]; eauto.
  exists (1 + k)%nat, p'. constructor; simpl; try done; try lia.
  by apply (runs_app 1 k _ [tok] toks1 _ _ _ Hrun1).
Qed.

(** The entries of one object, one after the other. *)
Lemma parse_entries source es :
  (forall s x, (s, x) ∈ es -> entries_spec source (entries x)) -> NoDup es.*1 ->
  entries_spec source es.
Proof.
  induction es as [|[s x] es IH]; intros Hsub Hnd p l m toks Hne Hr Hst Hm Hk; [done|].
  csimpl in Hnd. apply NoDup_cons in Hnd as [Hs Hnd].
  destruct es as [|e2 es].
  - apply (parse_entry source p l m s x toks); auto; [eapply Hsub; left|eapply Hm; left].
  - change (comma_join _) with (entry_kinds (s, x) ++ KComma :: comma_join (map entry_kinds (e2 :: es))) in Hk.
    destruct (kind_app_inv _ _ _ Hk) as (t1 & toks2 & -> & Hk1 & Hk').
    destruct (kind_cons_inv _ _ _ Hk') as (comma & t2 & -> & Hc & Hk2). apply kind_type in Hc.
    destruct (parse_entry source p l m s x t1) as (k1 & [h1 L1 ps1 st1] & [Br Bf Bst Bp Bs Bl Blen Bfr Bo]);
      auto; [eapply Hsub; left|eapply Hm; left|].
    simpl in Bst, Bp, Bs, Bl, Blen, Bfr, Bo. subst st1 ps1.
    specialize (Hst ltac:(simpl; lia)).
    destruct (IH (fun s' x' H' => Hsub s' x' (proj2 (elem_of_cons _ _ _) (or_intror H'))) Hnd
      (mkParser h1 (Level.new_mask L1) (prevs p) KEY) l (mask_set m s (mask_of x)) t2)
      as (k2 & p' & [Cr Cf Cst Cp Cs Cl Clen Cfr Co]); try done.
    { constructor; simpl; try done. by rewrite Bs. }
    { intros _. simpl. by rewrite Bs. }
    { intros s' x' Hin. rewrite mask_set_child. case_decide; [subst|apply (Hm s' x'); by right].
      destruct Hs. apply list_elem_of_fmap. by exists (s, x'). }
    simpl in Cst, Cp, Cs, Cl, Clen, Cfr, Co. exists (k1 + (1 + k2))%nat, p'.
    constructor; simpl; rewrite ?length_app; simpl; try congruence; try lia; try done.
    + apply (runs_app _ _ _ _ _ _ _ _ Br). apply (runs_app 1 k2 _ [comma] t2) with (2 := Cr).
      apply runs_consume. simpl. by rewrite Hc.
    + intros y Hy Hny. rewrite Cfr by (done || lia). by apply Bfr.
Qed.

Lemma parse_syn source x : good_syn x -> entries_spec source (entries x).
Proof.
  induction x as [es IH] using syn_ind. intros (Hg & Hnd)%good_inv.
  apply parse_entries; [|done]. intros s x Hin. apply (IH s x Hin). by apply (Hg s).
Qed.

Lemma parse_loop_mono n fuel source p p' :
  parse_loop fuel source [] p = Ok p' -> parse_loop (n + fuel) source [] p = Ok p'.
Proof. by destruct n, fuel. Qed.

Lemma text_head x :
  good_syn x -> entries x <> [] -> exists c t, text x = c :: t /\ space_set c = false.
Proof.
  destruct x as [[|[s y] es]]; [done|]. intros (Hg & _)%good_inv _.
  destruct (Hg s y) as [Hs Hy]; [left|].
  assert (exists c t, step_text s = c :: t /\ space_set c = false) as (c & t & Ht & Hc).
  { destruct s as [|k]; [by exists 42, []|]. simpl in *.
    destruct (marshal_good k Hs) as [[Ha ->]|[_ ->]]; [|by eexists _, _].
    destruct k as [|c k]; [done|]. exists c, k. split; [done|].
    simpl in Ha. apply andb_true_iff in Ha as [Ha _]. by apply simple_char_special in Ha as [? _]. }
  assert (exists t', entry_text (s, y) = c :: t') as [t' Ht'].
  { destruct (entry_text_cases s y Hy) as [(_ & -> & _)|[(_ & -> & _)|(_ & -> & _)]];
      rewrite Ht; by eexists. }
  rewrite text_eq. cbn [map]. rewrite Ht'. destruct (map entry_text es); simpl; eauto.
Qed.

(** The text of a good ordered mask parses to the mask. *)
Lemma parse_text x : good_syn x -> entries x <> [] -> parse (text x) = Ok (mask_of x).
Proof.
  intros Hg Hne. destruct (tokens_text x Hg) as (toks & Hk & Ht).
  destruct (text_head x Hg Hne) as (c & t & Hc & Hsp).
  unfold parse. replace (span space_set (text x) =? length (text x))%nat with false
    by (rewrite Hc; simpl; by rewrite Hsp).
  pose proof (kinds_length x Hg) as Hlen.
  assert (S (length (text x)) = length (kinds x) + S (length (text x) - length (kinds x)))%nat
    as Hfuel by lia.
  rewrite Hfuel, Ht. cbn [mbind result_bind Level.init length app].
  destruct (parse_syn (text x) x Hg (mkParser [empty_obj] (mkLevel [0%nat] [] [0%nat] 0) [] KEY)
    0%nat emptyMask toks) as (k & p' & [Br Bf Bst Bp Bs Bl Blen Bfr (o & Ho & Hot)]); try done.
  { constructor; simpl; try done. exists empty_obj. split; [done|apply objtree_empty]. }
  { intros. apply child_empty. }
  { by rewrite <- kinds_entries. }
  set (p0 := mkParser _ _ _ _) in *.
  assert (parse_loop (2 * length toks) (text x) toks p0 = Ok p') as Hloop.
  { replace (2 * length toks)%nat with (k + (2 * length toks - k))%nat by lia.
    rewrite <- (app_nil_r toks) at 2. rewrite Br. by destruct (2 * _ - k)%nat. }
  pose proof (tokens_ok (S (length (text x))) (text x) 0 ltac:(lia) ltac:(lia)) as Htok.
  rewrite Hfuel, Ht in Htok.
  pose proof (parse_loop_ok (2 * length toks) _ toks p0 (parser_ok_init _) Htok) as Hok.
  rewrite Hloop in Hok |- *. destruct Hok as [Hh Hr _ _]; [unfold loop_measure; simpl; lia|].
  cbn [mbind result_bind]. unfold parse_finish. simpl in Bp. rewrite Bp, Bst.
  destruct (objtree_tree (p_heap p') 0 1 0 o _ Ho Hot) as [Hu _]; [lia..|].
  destruct (read_heap_ok _ 0 Hh Hr) as (m' & Hm' & _). rewrite Nat.sub_0_r in Hm'.
  rewrite (read_S _ _ _ _ Hm'). f_equal. rewrite mask_of_entries.
  eapply unfolds_det; [by eexists|exact Hu].
Qed.
