(* ===== verification/MaskMarshal.v ===== *)
(** * The text of a mask

    [Mask.marshal] is a canonical form: equal masks have the same text.
    [Mask.unmarshal] inverts it on every mask whose keys the text can carry,
    so on those masks the text determines the mask. *)
From S2P Require Import Prelude PyStr Json FieldMask FieldMaskSpec MaskHeap MaskParser MaskParserInv MaskRoundtrip MaskBuild.

(** ** The children of a mask, in the order [_marshal] lists them *)

Definition children (m : Mask) : list (step * Mask) :=
  match any m with Some x => [(Star, x)] | None => [] end ++
  ((fun '(k, v) => (Key k, v)) <$> field_parts m).

Definition child_text (e : step * Mask) : pystr :=
  Mask.marshal_entry (step_text e.1) (Mask._marshal e.2).

Lemma marshal_children m :
  Mask._marshal m =
  (length (children m), join (u ",") (str_sort (map child_text (children m)))).
Proof.
  destruct m as [a ps]. cbn [Mask._marshal]. unfold children. cbn [any field_parts].
  assert (map (fun '(k, v) => Mask.marshal_entry (FieldKey.marshal k) (Mask._marshal v)) ps =
    map child_text ((fun '(k, v) => (Key k, v)) <$> ps)) as ->.
  { induction ps as [|[k v] ps IH]; [done|]. simpl. by f_equal. }
  rewrite map_app. f_equal; [|by destruct a].
  rewrite !length_app, !length_map. by destruct a.
Qed.

Lemma children_elem m s c : wf m -> (s, c) ∈ children m <-> child m s = Some c.
Proof.
  intros Hm%wf_parts. unfold children. rewrite elem_of_app, list_elem_of_fmap. split.
  - intros [Hin|([k v] & [= -> ->] & Hin)].
    + destruct (any m) eqn:E; [|by apply not_elem_of_nil in Hin].
      apply list_elem_of_singleton in Hin. by injection Hin as -> ->.
    + by apply dict_elem_get.
  - destruct s as [|k]; simpl; intros Hc.
    + left. rewrite Hc. left.
    + right. exists (k, c). split; [done|]. by apply dict_get_elem.
Qed.

Lemma children_steps m : wf m -> NoDup (children m).*1.
Proof.
  intros Hm%wf_parts. unfold children. rewrite fmap_app. apply NoDup_app. split; [|split].
  - destruct (any m); repeat constructor. apply not_elem_of_nil.
  - intros x Hx Hin. destruct (any m); [|by apply not_elem_of_nil in Hx].
    apply list_elem_of_singleton in Hx. simpl in Hx. subst x.
    apply list_elem_of_fmap in Hin as ([s c] & Hs & Hin). simpl in Hs. subst s.
    by apply list_elem_of_fmap in Hin as ([k v] & [= ] & _).
  - replace (((fun '(k, v) => (Key k, v)) <$> field_parts m).*1)
      with (Key <$> (field_parts m).*1).
    + apply NoDup_fmap_2; [|done]. by intros ? ? [= ->].
    + clear. induction (field_parts m) as [|[k v] ps IH]; [done|]. csimpl. by f_equal.
Qed.

(** ** The text is canonical *)

Lemma eqb_marshal a b : wf a -> wf b -> Mask.eqb a b = true -> Mask._marshal a = Mask._marshal b.
Proof.
  revert b. induction a as [x ps IHa IHps] using Mask_ind. intros b Ha Hb He.
  rewrite eqb_child in He by done.
  assert (forall s c d, child (mkMask x ps) s = Some c -> child b s = Some d ->
    Mask._marshal c = Mask._marshal d) as IH.
  { intros s c d Ec Ed. specialize (He s). rewrite Ec, Ed in He. simpl in He.
    pose proof (wf_child _ _ _ Ha Ec). pose proof (wf_child _ _ _ Hb Ed).
    destruct s as [|k]; simpl in Ec; [by apply IHa|].
    apply (IHps k); eauto using dict_get_elem. }
  pose (g := fun e : step * Mask => (e.1, Mask._marshal e.2)).
  assert (g <$> children (mkMask x ps) ≡ₚ g <$> children b) as Hperm.
  { assert (forall m, wf m -> NoDup (g <$> children m)) as Hnd.
    { intros m Hm. apply (NoDup_fmap_1 fst). rewrite <- list_fmap_compose.
      rewrite (list_fmap_ext _ fst) by (by intros ? []). by apply children_steps. }
    apply NoDup_Permutation; auto. intros [s r].
    rewrite !list_elem_of_fmap. specialize (He s). specialize (IH s).
    split; intros ([s' c] & [= -> ->] & Hc); apply children_elem in Hc; try done; rewrite Hc in He, IH.
    - destruct (child b s') as [d|] eqn:Ed; [|done]. exists (s', d).
      rewrite children_elem by done. split; [|done]. unfold g. simpl. by rewrite (IH c d).
    - destruct (child (mkMask x ps) s') as [d|] eqn:Ed; [|done]. exists (s', d).
      rewrite children_elem by done. split; [|done]. unfold g. simpl. by rewrite (IH d c). }
  rewrite !marshal_children. f_equal.
  - apply Permutation_length in Hperm. by rewrite !length_fmap in Hperm.
  - f_equal. apply str_sort_unique.
    apply (fmap_Permutation (fun e : step * (nat * pystr) => Mask.marshal_entry (step_text e.1) e.2)) in Hperm.
    by rewrite <- !list_fmap_compose in Hperm.
Qed.

(** ** Reading the text back *)

(** Every key of the mask survives in the text. *)
Fixpoint good_mask (m : Mask) : bool :=
  match m with
  | mkMask a ps =>
      match a with Some x => good_mask x | None => true end &&
      forallb (fun '(k, v) => good_key k && good_mask v) ps
  end.

Lemma good_mask_child m s c :
  good_mask m = true -> child m s = Some c -> good_step s = true /\ good_mask c = true.
Proof.
  destruct m as [a ps]. simpl. intros [Ha Hps]%andb_true_iff. destruct s as [|k]; simpl.
  - by intros ->.
  - intros Hin%dict_get_elem%list_elem_of_In. rewrite forallb_forall in Hps.
    specialize (Hps _ Hin). simpl in Hps. by apply andb_true_iff in Hps.
Qed.

Lemma add_entries_child m es s :
  NoDup es.*1 ->
  child (add_entries m es) s =
  match dict_get es s with Some x => Some (mask_of x) | None => child m s end.
Proof.
  unfold add_entries. revert m. induction es as [|[s0 x0] es IH]; intros m Hnd; [done|].
  csimpl in Hnd. apply NoDup_cons in Hnd as [Hs0 Hnd]. cbn [foldl dict_get].
  rewrite IH by done. rewrite mask_set_child. case_decide; [subst|done].
  by rewrite (proj2 (dict_get_None es s0) Hs0).
Qed.

Lemma mask_of_wf x : good_syn x -> wf (mask_of x).
Proof.
  induction x as [es IH] using syn_ind. intros (Hg & Hnd)%good_inv.
  apply wf_intro.
  - intros s c. rewrite mask_of_entries, add_entries_child by done. cbn [entries].
    destruct (dict_get es s) as [x|] eqn:E; [|by rewrite child_empty].
    apply dict_get_elem in E. intros [= <-]. apply (IH s x E). by apply (Hg s).
  - rewrite mask_of_entries. unfold add_entries. generalize (dict_nil_wf (K := pystr) (V := Mask)).
    change [] with (field_parts emptyMask). clear. generalize emptyMask, (entries (Syn es)).
    intros m es'. revert m. induction es' as [|[s x] es' IH]; intros m Hm; simpl; [done|].
    apply IH. destruct s; simpl; auto with pysdk.
Qed.

(** The ordered mask behind the text of a mask. *)
Lemma syn_of_mask m :
  wf m -> good_mask m = true ->
  exists x, good_syn x /\ (length (entries x), text x) = Mask._marshal m /\
    forall p, has (mask_of x) p = has m p.
Proof.
  induction m as [a ps IHa IHps] using Mask_ind. intros Hm Hg.
  set (m := mkMask a ps) in *.
  assert (forall s c, child m s = Some c -> exists x, good_syn x /\
    (length (entries x), text x) = Mask._marshal c /\ forall p, has (mask_of x) p = has c p) as IH.
  { intros s c Ec. destruct (good_mask_child _ _ _ Hg Ec) as [_ Hgc].
    pose proof (wf_child _ _ _ Hm Ec). destruct s as [|k]; simpl in Ec; [by apply IHa|].
    apply (IHps k); eauto using dict_get_elem. }
  clear IHa IHps.
  assert (exists es, Forall2 (fun e e' : _ * _ => e.1 = e'.1 /\ good_syn e.2 /\
      entry_text e = child_text e' /\ forall p, has (mask_of e.2) p = has e'.2 p) es (children m))
    as [es Hes].
  { assert (forall s c, (s, c) ∈ children m -> child m s = Some c) as Hch
      by (intros; by apply children_elem).
    induction (children m) as [|[s c] cs IHc]; [by exists []|].
    destruct IHc as [es Hes]; [intros; apply Hch; by right|].
    destruct (IH s c) as (x & Hx & Ht & Hp); [apply Hch; left|].
    exists ((s, x) :: es). constructor; [|done]. split_and!; try done.
    unfold entry_text, child_text. cbn [fst snd]. by rewrite Ht. }
  assert (map entry_text es = map child_text (children m)) as Htexts.
  { clear -Hes. induction Hes as [|e e' es cs (_ & _ & Ht & _) _ IHes]; [done|]. simpl. by rewrite Ht, IHes. }
  assert (es.*1 = (children m).*1) as Hsteps.
  { clear -Hes. induction Hes as [|e e' es cs (Ht & _) _ IHes]; [done|]. csimpl. by rewrite Ht, IHes. }
  pose proof (children_steps m Hm) as Hnd. rewrite <- Hsteps in Hnd.
  destruct (Permutation_map_inv entry_text es (str_sort_perm (map entry_text es))) as (es' & Hes' & Hperm).
  assert (NoDup es'.*1) as Hnd' by (by rewrite <- Hperm).
  assert (forall s x, (s, x) ∈ es' -> exists c, child m s = Some c /\ good_syn x /\
    forall p, has (mask_of x) p = has c p) as Hback.
  { intros s x Hin. rewrite <- Hperm in Hin. apply list_elem_of_lookup in Hin as [i Hi].
    destruct (Forall2_lookup_l _ _ _ _ _ Hes Hi) as ([s' c] & Hc & Hs & Hx & _ & Hp).
    simpl in *. subst s'. exists c. split; [|done]. apply children_elem; [done|].
    apply list_elem_of_lookup. eauto. }
  exists (Syn es'). split; [|split].
  - constructor; [| |done]; intros s x Hin; destruct (Hback s x Hin) as (c & Hc & Hx & _); [|done].
    by destruct (good_mask_child _ _ _ Hg Hc).
  - rewrite marshal_children, text_eq, <- Hes', Htexts. cbn [entries].
    rewrite <- (Permutation_length Hperm). f_equal. apply Forall2_length in Hes. done.
  - intros [|s p]; [done|]. rewrite !has_cons, mask_of_entries, add_entries_child by done.
    cbn [entries]. rewrite child_empty. destruct (dict_get es' s) as [x|] eqn:E.
    + apply dict_get_elem in E. destruct (Hback s x E) as (c & -> & _ & Hp). apply Hp.
    + destruct (child m s) as [c|] eqn:Ec; [|done].
      apply dict_get_None in E. destruct E. rewrite <- Hperm, Hsteps. apply list_elem_of_fmap.
      exists (s, c). split; [done|]. by apply children_elem.
Qed.

(** [unmarshal] inverts [marshal] up to [==]. *)
Lemma parse_marshal m :
  wf m -> good_mask m = true ->
  exists m', parse (Mask.marshal m) = Ok m' /\ wf m' /\ Mask.eqb m' m = true.
Proof.
  intros Hm Hg. destruct (syn_of_mask m Hm Hg) as (x & Hx & Ht & Hp).
  assert (Mask.eqb (mask_of x) m = true) as He by (apply eqb_has; auto using mask_of_wf).
  exists (mask_of x). split; [|split; [by apply mask_of_wf|done]].
  unfold Mask.marshal. rewrite <- Ht. cbn [snd]. destruct (decide (entries x = [])) as [E|E].
  - destruct x as [es]. simpl in E. subst es. done.
  - by apply parse_text.
Qed.
