(* ===== verification/MaskTheorems.v ===== *)
(** * Field masks: the theorems

    The properties of [src/nebius/base/fieldmask.py] and
    [src/nebius/base/fieldmask_parser.py], each with an instance at concrete
    masks.  A mask stands for the set of patterns [has m] of its nodes;
    [leaf m] are the patterns that end it. *)
From S2P Require Import Prelude PyStr Json FieldMask FieldMaskSpec ResetMask MaskHeap MaskParser MaskParserInv MaskRoundtrip MaskBuild MaskMarshal.

(** ** Masks used in the instances *)

(** The mask written [a.*,a.b]. *)
Definition ex_a : Mask :=
  mkMask None [(u "a", mkMask (Some emptyMask) [(u "b", emptyMask)])].

(** The mask written [*.b,c]. *)
Definition ex_b : Mask :=
  mkMask (Some (mkMask None [(u "b", emptyMask)])) [(u "c", emptyMask)].

Lemma ex_a_wf : wf ex_a.
Proof. apply wfb_wf. reflexivity. Qed.

Lemma ex_b_wf : wf ex_b.
Proof. apply wfb_wf. reflexivity. Qed.

#[export] Hint Resolve ex_a_wf ex_b_wf : pysdk.

(** ** Union, intersection, equality *)

(** C28: adding two masks gives a well-formed mask whose patterns are the union
    of the patterns of the operands. *)
Theorem mask_add_union a b :
  wf a -> wf b ->
  wf (Mask.add a b) /\ forall p, has (Mask.add a b) p = has a p || has b p.
Proof. split; [by apply Mask_add_wf|intros; by apply Mask_add_has]. Qed.

Lemma mask_add_union_witness :
  wf (Mask.add ex_a ex_b) /\ forall p, has (Mask.add ex_a ex_b) p = has ex_a p || has ex_b p.
Proof. apply (mask_add_union ex_a ex_b); [apply ex_a_wf|apply ex_b_wf]. Defined.

(** [*] on masks always returns a well-formed mask, whose patterns are
    the intersection of the patterns of the operands; on anything that is not
    a mask it raises [ValueError]. *)
Theorem mask_mul_intersection a b :
  wf a -> wf b ->
  (exists r, Mask.mul a (MMask b) = Ok r /\ wf r /\ forall p, has r p = has a p && has b p) /\
  Mask.mul a MNone = Raise ValueError /\ Mask.mul a MOther = Raise ValueError.
Proof.
  intros Ha Hb. split; [|done]. unfold Mask.mul. rewrite copy_id by done.
  destruct (intersect_dumb_has a b Ha Hb) as (r & -> & Hw & Hp). eauto.
Qed.

Lemma mask_mul_intersection_witness :
  (exists r, Mask.mul ex_a (MMask ex_b) = Ok r /\ wf r /\
     forall p, has r p = has ex_a p && has ex_b p) /\
  Mask.mul ex_a MNone = Raise ValueError /\ Mask.mul ex_a MOther = Raise ValueError.
Proof. apply (mask_mul_intersection ex_a ex_b); [apply ex_a_wf|apply ex_b_wf]. Defined.

(** [==] on masks is extensional: it holds exactly when the two masks have
    the same patterns, whatever the insertion order of their keys. *)
Theorem mask_eq_patterns a b :
  wf a -> wf b -> Mask.eqb a b = true <-> forall p, has a p = has b p.
Proof. apply eqb_has. Qed.

Lemma mask_eq_patterns_witness :
  Mask.eqb (Mask.add ex_a ex_b) (Mask.add ex_b ex_a) = true <->
  forall p, has (Mask.add ex_a ex_b) p = has (Mask.add ex_b ex_a) p.
Proof.
  apply (mask_eq_patterns (Mask.add ex_a ex_b) (Mask.add ex_b ex_a));
    apply Mask_add_wf; (apply ex_a_wf || apply ex_b_wf).
Defined.

(** Up to [==], addition is associative, commutative and idempotent with
    the empty mask as unit, and [*] distributes over it. *)
Theorem mask_algebra a b c :
  wf a -> wf b -> wf c ->
  Mask.eqb (Mask.add a b) (Mask.add b a) = true /\
  Mask.eqb (Mask.add a (Mask.add b c)) (Mask.add (Mask.add a b) c) = true /\
  Mask.eqb (Mask.add a a) a = true /\
  Mask.eqb (Mask.add a emptyMask) a = true /\
  exists r r1 r2, Mask.mul a (MMask (Mask.add b c)) = Ok r /\
    Mask.mul a (MMask b) = Ok r1 /\ Mask.mul a (MMask c) = Ok r2 /\
    Mask.eqb r (Mask.add r1 r2) = true.
Proof.
  intros Ha Hb Hc.
  assert (forall x y, wf x -> wf y -> (forall p, has x p = has y p) -> Mask.eqb x y = true) as Heq
    by (intros; by apply eqb_has).
  split_and!; try (apply Heq; auto with pysdk; intros p; rewrite ?Mask_add_has by auto with pysdk).
  - apply orb_comm.
  - apply orb_assoc.
  - apply orb_diag.
  - destruct p; [done|]. by rewrite (has_cons emptyMask), child_empty, orb_false_r.
  - unfold Mask.mul. rewrite copy_id by done.
    destruct (intersect_dumb_has a (Mask.add b c)) as (r & -> & Hr & Hp); [auto with pysdk..|].
    destruct (intersect_dumb_has a b Ha Hb) as (r1 & -> & Hr1 & Hp1).
    destruct (intersect_dumb_has a c Ha Hc) as (r2 & -> & Hr2 & Hp2).
    exists r, r1, r2. split_and!; try done. apply Heq; auto with pysdk.
    intros p. rewrite Hp, !Mask_add_has, Hp1, Hp2 by auto with pysdk. apply andb_orb_distrib_r.
Qed.

Lemma mask_algebra_witness :
  Mask.eqb (Mask.add ex_a ex_b) (Mask.add ex_b ex_a) = true.
Proof.
  apply (mask_algebra ex_a ex_b emptyMask); [apply ex_a_wf|apply ex_b_wf|apply emptyMask_wf].
Defined.

(** ** Matching *)

(** C29: a path matches a reset mask exactly when a pattern of the mask covers
    it key by key, and the match is final exactly when such a pattern ends the
    mask; no mask matches nothing. *)
Theorem matches_reset_mask_spec m p :
  (FieldPath.matches_reset_mask p (Some m) = true <->
     exists q, has m q = true /\ pattern_matches q p = true) /\
  (FieldPath.matches_reset_mask_final p (Some m) = true <->
     exists q, leaf m q = true /\ pattern_matches q p = true) /\
  FieldPath.matches_reset_mask p None = false.
Proof.
  split; [apply opt_match_spec|]. split; [|apply opt_match_none].
  rewrite <- opt_final_spec. unfold FieldPath.matches_reset_mask_final.
  rewrite reset_pair, andb_true_iff. split; [by intros []|].
  intros H. split; [by apply opt_final_match|done].
Qed.

(** A path matches a select mask exactly when it leads to a node of the
    mask or goes through one of its ends; it is inner exactly when it goes
    strictly beyond an end.  No mask selects everything. *)
Theorem matches_select_mask_spec m p :
  (FieldPath.matches_select_mask p (Some m) = true <->
     (exists q, has m q = true /\ pattern_matches q p = true) \/
     (exists q, leaf m q = true /\ pattern_prefix q p = true)) /\
  (snd (FieldPath.matches_select_mask_inner p (Some m)) = true <->
     exists q, leaf m q = true /\ pattern_inner q p = true) /\
  FieldPath.matches_select_mask p None = true.
Proof.
  split; [|split; [apply sel_inner_spec|by destruct p]].
  rewrite <- sel_match_spec. unfold FieldPath.matches_select_mask, sel_match.
  by destruct (FieldPath._matches_select_mask p (Some m)).
Qed.

(** Descending with [sub_mask] along a path and matching the rest is
    matching the whole path: the wildcard and the named part are combined at
    every step. *)
Theorem sub_mask_spec m p p' :
  wf m ->
  FieldPath.matches_reset_mask p' (Mask.sub_mask m p) =
  FieldPath.matches_reset_mask (p ++ p') (Some m).
Proof. apply sub_mask_match. Qed.

Lemma sub_mask_spec_witness :
  FieldPath.matches_reset_mask [u "b"] (Mask.sub_mask ex_a [u "a"]) =
  FieldPath.matches_reset_mask ([u "a"] ++ [u "b"]) (Some ex_a).
Proof. apply (sub_mask_spec ex_a [u "a"] [u "b"]). apply ex_a_wf. Defined.

(** The reset-mask intersection of two masks exists, is well formed and
    covers exactly the paths both masks cover, wildcards against names
    included. *)
Theorem intersect_reset_mask_spec a b :
  wf a -> wf b ->
  exists r, Mask.intersect_reset_mask a (Some b) = Some r /\ wf r /\
  forall p, FieldPath.matches_reset_mask p (Some r) =
    FieldPath.matches_reset_mask p (Some a) && FieldPath.matches_reset_mask p (Some b).
Proof. intros Ha Hb. apply intersect_reset_spec; [done|done|lia..]. Qed.

Lemma intersect_reset_mask_spec_witness :
  exists r, Mask.intersect_reset_mask ex_a (Some ex_b) = Some r /\ wf r /\
  forall p, FieldPath.matches_reset_mask p (Some r) =
    FieldPath.matches_reset_mask p (Some ex_a) && FieldPath.matches_reset_mask p (Some ex_b).
Proof. apply (intersect_reset_mask_spec ex_a ex_b); [apply ex_a_wf|apply ex_b_wf]. Defined.

(** ** Subtraction *)

(** [a / b] keeps exactly the ends of [a] that are not patterns of [b],
    and stays well formed. *)
Theorem mask_truediv_leaves a b :
  wf a ->
  exists r, Mask.truediv a (MMask b) = Ok r /\ wf r /\
  forall s p, leaf r (s :: p) = leaf a (s :: p) && negb (has b (s :: p)).
Proof.
  intros Ha. unfold Mask.truediv. rewrite copy_id by done. eexists. split; [done|].
  split; [by apply subtract_dumb_wf|]. intros. by apply subtract_dumb_leaf.
Qed.

Lemma mask_truediv_leaves_witness :
  exists r, Mask.truediv ex_a (MMask ex_b) = Ok r /\ wf r /\
  forall s p, leaf r (s :: p) = leaf ex_a (s :: p) && negb (has ex_b (s :: p)).
Proof. apply (mask_truediv_leaves ex_a ex_b). apply ex_a_wf. Defined.

(** [a - b] is well formed, and an end of [a] whose last step is a name
    stays exactly when no pattern of [b] covers it. *)
Theorem mask_sub_leaves a b q :
  wf a -> q <> [] -> ends_in_star q = false ->
  wf (Mask.sub a (Some b)) /\
  (leaf (Mask.sub a (Some b)) q = true <->
   leaf a q = true /\ ~ exists t, has b t = true /\ subsumes t q = true).
Proof.
  intros Ha Hq Hs. unfold Mask.sub, Mask.subtract_reset_mask. rewrite copy_id by done.
  split; [by apply subtract_reset_wf|]. destruct q as [|s q]; [done|].
  rewrite subtract_reset_leaf by (try done; intros ? [= <-]; lia).
  cbn [opt_killed]. rewrite <- killed_spec by done. rewrite andb_true_iff, negb_true_iff.
  by rewrite not_true_iff_false.
Qed.

Lemma mask_sub_leaves_witness :
  wf (Mask.sub ex_a (Some ex_b)) /\
  (leaf (Mask.sub ex_a (Some ex_b)) [Key (u "a"); Key (u "b")] = true <->
   leaf ex_a [Key (u "a"); Key (u "b")] = true /\
   ~ exists t, has ex_b t = true /\ subsumes t [Key (u "a"); Key (u "b")] = true).
Proof. apply (mask_sub_leaves ex_a ex_b); [apply ex_a_wf|done|reflexivity]. Defined.

(** [a - b] drops a bare wildcard of [a] whatever [b] is, the empty mask
    included, although [a / b] keeps it when [b] has no wildcard. *)
Theorem mask_sub_drops_wildcard ps b :
  any (Mask.sub (mkMask (Some emptyMask) ps) (Some b)) = None /\
  (any b = None ->
   any (Mask.subtract_dumb (mkMask (Some emptyMask) ps) (Some b)) = Some emptyMask).
Proof.
  split.
  - unfold Mask.sub, Mask.subtract_reset_mask. rewrite subtract_reset_any. cbn [Mask.copy any].
    assert (forall n o, Mask.subtract_reset_fuel n emptyMask o = emptyMask) as ->; [|done].
    by intros [|n] [o|].
  - intros H. simpl. by rewrite H.
Qed.

Lemma mask_sub_drops_wildcard_witness :
  any (Mask.subtract_dumb (mkMask (Some emptyMask) []) (Some emptyMask)) = Some emptyMask.
Proof. apply (mask_sub_drops_wildcard [] emptyMask). reflexivity. Defined.

(** ** Paths *)

Lemma to_field_path_mask m p : Mask.to_field_path m = Ok (Some p) -> m = FieldPath.to_mask p.
Proof.
  revert p. induction m as [a ps _ IHps] using Mask_ind. intros p.
  destruct a; [done|]. destruct ps as [|[k v] [|e ps]]; [done| |done]. simpl.
  destruct (Mask.to_field_path v) as [[inner|]|e] eqn:E; [..|done]; intros [= <-]; simpl.
  - by rewrite <- (IHps k v (list_elem_of_here _ _) inner E).
  - by destruct v as [[|] [|[] [|]]]; simpl in E; repeat case_match.
Qed.

Lemma to_mask_field_path k p : Mask.to_field_path (FieldPath.to_mask (k :: p)) = Ok (Some (k :: p)).
Proof. revert k. induction p as [|k' p IH]; intros k; [done|]. cbn. cbn in IH. by rewrite IH. Qed.

(** A non-empty path survives the trip through its mask, and a mask that
    has a path is the mask of that path; the empty mask has none. *)
Theorem path_mask_roundtrip m p :
  (p <> [] -> Mask.to_field_path (FieldPath.to_mask p) = Ok (Some p)) /\
  (Mask.to_field_path m = Ok (Some p) -> m = FieldPath.to_mask p) /\
  Mask.to_field_path (FieldPath.to_mask []) = Ok None.
Proof.
  split_and!; [|apply to_field_path_mask|done]. destruct p; [done|intros _; apply to_mask_field_path].
Qed.

Lemma path_mask_roundtrip_witness :
  Mask.to_field_path (FieldPath.to_mask [u "a"; u "b"]) = Ok (Some [u "a"; u "b"]).
Proof. apply (path_mask_roundtrip emptyMask [u "a"; u "b"]). done. Defined.

Lemma prefix_loop_spec p q : FieldPath.prefix_loop p q = true <-> exists t, q = p ++ t.
Proof.
  revert q. induction p as [|v p IH]; intros q; simpl.
  - split; [by exists q|done].
  - destruct q as [|w q]; [split; [done|by intros []]|].
    case_bool_decide; [subst|split; [done|intros (t & [= ? ?]); congruence]].
    rewrite IH. split; intros (t & Ht); exists t; congruence.
Qed.

(** [is_prefix_of] decides the proper-prefix relation on paths. *)
Theorem is_prefix_of_spec p q :
  FieldPath.is_prefix_of p q = true <-> exists k t, q = p ++ k :: t.
Proof.
  unfold FieldPath.is_prefix_of. destruct (length q <=? length p)%nat eqn:E.
  - apply Nat.leb_le in E. split; [done|]. intros (k & t & ->). rewrite length_app in E. simpl in E. lia.
  - apply Nat.leb_gt in E. rewrite prefix_loop_spec. split.
    + intros ([|k t] & ->); [rewrite app_nil_r in E; lia|eauto].
    + intros (k & t & ->). eauto.
Qed.

(** Adding a mask to a non-empty path grafts the mask below the path: its
    patterns are the prefixes of the path and the path followed by a pattern
    of the mask.  Added to the empty path the mask is lost. *)
Theorem path_add_mask p m :
  (p <> [] -> forall q, has (FieldPath.add_mask p m) q = true <->
     (exists t, Key <$> p = q ++ t) \/ (exists t, q = (Key <$> p) ++ t /\ has m t = true)) /\
  FieldPath.add_mask [] m = emptyMask.
Proof.
  split; [|done]. induction p as [|k p IH]; [done|]. intros _ q.
  destruct q as [|s q]; [split; [by left; eexists|done]|].
  assert ((exists t, Key <$> k :: p = (s :: q) ++ t) \/
      (exists t, s :: q = (Key <$> k :: p) ++ t /\ has m t = true) <->
    s = Key k /\ ((exists t, Key <$> p = q ++ t) \/ (exists t, q = (Key <$> p) ++ t /\ has m t = true)))
    as Hsplit.
  { csimpl. split.
    - intros [(t & [= -> ->])|(t & [= -> ->] & ?)]; split; eauto.
    - intros [-> [(t & ->)|(t & -> & ?)]]; eauto. }
  rewrite Hsplit. destruct p as [|k' p]; cbn [FieldPath.add_mask]; rewrite has_cons;
    destruct s as [|k0]; cbn [child any field_parts dict_get]; try (split; [done|by intros [? _]]);
    case_decide; try (split; [done|intros [[= ?] _]; congruence]); subst.
  - split; [intros; split; [done|right; by exists q]|].
    intros [_ [(t & Ht)|(t & -> & ?)]]; [|done]. by destruct q.
  - rewrite (IH ltac:(done) q). tauto.
Qed.

Lemma path_add_mask_witness :
  has (FieldPath.add_mask [u "x"; u "y"] ex_a) [Key (u "x"); Key (u "y"); Key (u "a")] = true <->
  (exists t, Key <$> [u "x"; u "y"] = [Key (u "x"); Key (u "y"); Key (u "a")] ++ t) \/
  (exists t, [Key (u "x"); Key (u "y"); Key (u "a")] = (Key <$> [u "x"; u "y"]) ++ t /\
     has ex_a t = true).
Proof. apply (path_add_mask [u "x"; u "y"] ex_a). done. Defined.

(** ** Text *)

(** A key read back from its marshalled form is the key, whenever its
    characters are Unicode scalar values. *)
Theorem field_key_roundtrip k :
  scalar_str k = true -> FieldKey.unmarshal (FieldKey.marshal k) = Ok k.
Proof.
  intros Hs. unfold FieldKey.marshal, FieldKey.unmarshal.
  destruct (simple_string_pattern k) eqn:E.
  - rewrite E. destruct (startswith k [QUOTE]) eqn:Eq; [|done].
    apply startswith_spec in Eq as [t ->]. unfold simple_string_pattern in E.
    apply orb_true_iff in E as [E|E]; [done|]. change ([QUOTE] ++ t) with (QUOTE :: t) in E.
    rewrite reverse_cons in E.
    destruct t as [|c t _] using rev_ind; [done|]. rewrite reverse_snoc in E. simpl in E.
    rewrite reverse_snoc, reverse_involutive, andb_false_r in E. done.
  - assert (startswith (dumps k) [QUOTE] = true) as -> by done. by rewrite loads_dumps.
Qed.

Lemma field_key_roundtrip_witness : FieldKey.unmarshal (FieldKey.marshal (u "a b")) = Ok (u "a b").
Proof. apply (field_key_roundtrip (u "a b")). reflexivity. Defined.

(** C31: marshalling the object graph of a mask ends within the computed number
    of iterations: on a graph that unfolds to a tree it returns the text of
    the tree, and it raises [RecursionError] exactly when the graph has no
    finite unfolding; no result is ever missing from the memo table. *)
Theorem heap_marshal_spec h l :
  closed h -> (l < length h)%nat ->
  match heap_marshal h l with
  | Ok r => exists m, unfolds h l m /\ r = Mask._marshal m
  | Raise e => e = RecursionError /\ ~ exists m, unfolds h l m
  end.
Proof. apply heap_marshal_cases. Qed.

(** A shared child, and a cycle. *)
Definition ex_heap : heap :=
  [mkObj None [(u "a", 1%nat); (u "b", 1%nat)]; mkObj (Some 2%nat) []; empty_obj].

Lemma heap_marshal_spec_witness :
  match heap_marshal ex_heap 0 with
  | Ok r => exists m, unfolds ex_heap 0 m /\ r = Mask._marshal m
  | Raise e => e = RecursionError /\ ~ exists m, unfolds ex_heap 0 m
  end.
Proof.
  apply (heap_marshal_spec ex_heap 0); [|cbn; lia].
  intros [|[|[|l]]] o c; simpl; intros [= <-] Hc; unfold refs in Hc; simpl in Hc;
    repeat (apply elem_of_cons in Hc as [->|Hc]; [lia|]); by apply not_elem_of_nil in Hc.
Defined.

(** C23: parsing any string ends, without running out of the fuel of the model:
    it returns a well-formed mask or an error, and an error with a context
    carries the source and a position inside it. *)
Theorem parse_total source :
  match parse source with
  | Ok m => wf m
  | Raise (ContextedParseError s pos _) => s = source /\ (pos < length source)%nat
  | Raise (ParseError _) => True
  | Raise ParserOutOfFuel => False
  end.
Proof. pose proof (parse_ok source) as H. by destruct (parse source) as [|[]]. Qed.

(** C5: parsing the text of a well-formed mask whose keys the text can carry
    gives an equal mask; the comparison says so when the stack of the interpreter
    has room for the nesting of the mask. *)
Theorem mask_roundtrip m :
  wf m -> good_mask m = true ->
  exists m', Mask_unmarshal (Mask.marshal m) = Ok m' /\ Mask.eqb m' m = true /\
    forall room, (Mask.depth m < room)%nat -> Mask.__eq__ room m' m = true.
Proof.
  intros Hm Hg. destruct (parse_marshal m Hm Hg) as (m' & H & Hw & He). exists m'. split_and!; [done..|].
  intros room Hr. by rewrite eq_eqb by auto.
Qed.

Lemma mask_roundtrip_witness :
  exists m', Mask_unmarshal (Mask.marshal ex_a) = Ok m' /\ Mask.eqb m' ex_a = true /\
    forall room, (Mask.depth ex_a < room)%nat -> Mask.__eq__ room m' ex_a = true.
Proof. apply (mask_roundtrip ex_a); [apply ex_a_wf|reflexivity]. Defined.

(** The text is a canonical form: two well-formed masks with keys the text
    can carry are equal exactly when they have the same text. *)
Theorem marshal_canonical a b :
  wf a -> wf b -> good_mask a = true -> good_mask b = true ->
  Mask.eqb a b = true <-> Mask.marshal a = Mask.marshal b.
Proof.
  intros Ha Hb Ga Gb. split.
  - intros He. unfold Mask.marshal. by rewrite (eqb_marshal a b).
  - intros Ht. destruct (parse_marshal a Ha Ga) as (m & Hm & Hw & He).
    destruct (parse_marshal b Hb Gb) as (m' & Hm' & _ & He').
    rewrite Ht in Hm. assert (m' = m) as -> by congruence.
    rewrite eqb_has in He, He' |- * by done. intros p. by rewrite <- He, He'.
Qed.

Lemma marshal_canonical_witness :
  Mask.eqb (Mask.add ex_a ex_b) (Mask.add ex_b ex_a) = true <->
  Mask.marshal (Mask.add ex_a ex_b) = Mask.marshal (Mask.add ex_b ex_a).
Proof.
  apply (marshal_canonical (Mask.add ex_a ex_b) (Mask.add ex_b ex_a)); [| |reflexivity..];
    apply Mask_add_wf; (apply ex_a_wf || apply ex_b_wf).
Defined.

Lemma eqb_to_mask m p : Mask.eqb m (FieldPath.to_mask p) = true -> m = FieldPath.to_mask p.
Proof.
  revert m. induction p as [|k p IH]; intros [a ps]; simpl.
  - by destruct a, ps.
  - destruct a; [done|]. destruct ps as [|[k' v] [|]]; simpl; try done.
    case_decide; [subst|done]. rewrite andb_true_r. by intros ->%IH.
Qed.

Lemma to_mask_wf p : wf (FieldPath.to_mask p).
Proof.
  apply wfb_wf. induction p as [|k p IH]; [done|]. cbn. rewrite IH, bool_decide_true; [done|].
  apply NoDup_singleton.
Qed.

(** A non-empty path of keys the text can carry survives marshalling. *)
Theorem field_path_roundtrip p :
  p <> [] -> forallb good_key p = true ->
  FieldPath_unmarshal (FieldPath.marshal p) = Ok (Some p).
Proof.
  intros Hp Hg. unfold FieldPath_unmarshal, FieldPath.marshal.
  destruct (parse_marshal (FieldPath.to_mask p)) as (m & Hm & _ & ->%eqb_to_mask).
  - apply to_mask_wf.
  - clear Hp. induction p as [|k p IH]; [done|]. simpl in *.
    apply andb_true_iff in Hg as [-> Hg]. by rewrite IH.
  - unfold Mask_unmarshal. rewrite Hm. destruct p; [done|]. by rewrite to_mask_field_path.
Qed.

Lemma field_path_roundtrip_witness :
  FieldPath_unmarshal (FieldPath.marshal [u "a"; u "b c"]) = Ok (Some [u "a"; u "b c"]).
Proof. apply (field_path_roundtrip [u "a"; u "b c"]); [done|reflexivity]. Defined.

(** A key that is a simple name followed by a newline is not quoted, and
    the newline is lost when the text is parsed. *)
Theorem newline_key_lost :
  FieldPath.marshal [u "name" ++ [10]] = u "name" ++ [10] /\
  FieldPath_unmarshal (FieldPath.marshal [u "name" ++ [10]]) = Ok (Some [u "name"]).
Proof. split; vm_compute; reflexivity. Qed.

(** A group that is extended later shares its sub-mask between all its
    members: the second entry of [(a,b).c,a.c.d] changes [b] as well. *)
Theorem parser_shares_groups :
  reparse "(a,b).c,a.c.d" = Some (u "a.c.d,b.c.d") /\
  reparse "a.c,b.c,a.c.d" = Some (u "a.c.d,b.c").
Proof. split; vm_compute; reflexivity. Qed.
