(* ===== verification/Bytes.v ===== *)
(** * Bytes

    Byte strings, the bit operations on integers the wire format uses, the
    little-endian integers of [struct.pack] and UTF-8 as [str.encode] and
    [bytes.decode] implement it. *)
From S2P Require Import Prelude PyStr Json.

Abbreviation bytes := (list Z).

Definition byte_ok (b : Z) : bool := (0 <=? b) && (b <? 256).

Definition bytes_ok (l : bytes) : bool := forallb byte_ok l.

(** [data[a:b]] for offsets inside the data. *)
Definition slice (l : bytes) (a b : Z) : bytes := take (Z.to_nat (b - a)) (drop (Z.to_nat a) l).

(** Division and remainder by constants. *)
Ltac div_lia := Z.to_euclidean_division_equations; lia.

Lemma bytes_ok_app l1 l2 : bytes_ok (l1 ++ l2) = bytes_ok l1 && bytes_ok l2.
Proof. apply forallb_app. Qed.

Lemma bytes_ok_elem l b : bytes_ok l = true -> b ∈ l -> 0 <= b < 256.
Proof.
  intros Hl Hb%list_elem_of_In. unfold bytes_ok in Hl. rewrite forallb_forall in Hl.
  specialize (Hl b Hb). unfold byte_ok in Hl. lia.
Qed.

(** ** Bits *)

Lemma land_mask v n : 0 <= n -> Z.land v (2 ^ n - 1) = v mod 2 ^ n.
Proof.
  intros Hn. rewrite <- Z.land_ones by done. f_equal. rewrite Z.ones_equiv. lia.
Qed.

Lemma land_127 v : Z.land v 127 = v mod 128.
Proof. by apply (land_mask v 7). Qed.

Lemma land_7 v : Z.land v 7 = v mod 8.
Proof. by apply (land_mask v 3). Qed.

(** Bits above and below a position do not interfere. *)
Lemma lor_shiftl a b n : 0 <= n -> 0 <= a < 2 ^ n -> Z.lor a (Z.shiftl b n) = a + b * 2 ^ n.
Proof.
  intros Hn Ha. rewrite <- Z.shiftl_mul_pow2 by done. rewrite <- Z.add_lor_land.
  enough (Z.land a (Z.shiftl b n) = 0) by lia.
  apply Z.bits_inj'. intros i Hi. rewrite Z.land_spec, Z.bits_0.
  destruct (Z.lt_ge_cases i n).
  - by rewrite Z.shiftl_spec_low, andb_false_r.
  - rewrite <- (Z.mod_small a (2 ^ n)) by done. by rewrite Z.mod_pow2_bits_high.
Qed.

Lemma lor_low a b n : 0 <= n -> 0 <= a < 2 ^ n -> Z.lor a (b * 2 ^ n) = a + b * 2 ^ n.
Proof. intros Hn Ha. rewrite <- Z.shiftl_mul_pow2 by done. rewrite lor_shiftl by done. by rewrite Z.shiftl_mul_pow2. Qed.

(** The bit tested by [value & sign]. *)
Lemma land_pow2_nonzero v n : 0 <= n -> Z.land v (2 ^ n) <> 0 <-> Z.testbit v n = true.
Proof.
  intros Hn. split.
  - intros H. destruct (Z.testbit v n) eqn:E; [done|]. destruct H. apply Z.bits_inj'. intros i Hi.
    rewrite Z.land_spec, Z.bits_0, Z.pow2_bits_eqb by done.
    destruct (Z.eqb_spec n i); [subst; by rewrite E|apply andb_false_r].
  - intros H H0. apply (f_equal (fun x => Z.testbit x n)) in H0.
    rewrite Z.land_spec, Z.pow2_bits_true, H, Z.bits_0 in H0 by done. done.
Qed.

Lemma testbit_top v n : 0 <= n -> 0 <= v < 2 ^ (n + 1) -> Z.testbit v n = (2 ^ n <=? v).
Proof.
  intros Hn Hv. rewrite Z.testbit_odd, Z.shiftr_div_pow2 by done.
  rewrite Z.pow_add_r in Hv by lia. pose proof (Z.pow_pos_nonneg 2 n).
  assert (v / 2 ^ n = if 2 ^ n <=? v then 1 else 0) as ->.
  { destruct (Z.leb_spec (2 ^ n) v); [|apply Z.div_small; lia].
    symmetry. apply (Z.div_unique v (2 ^ n) 1 (v - 2 ^ n)); lia. }
  by destruct (2 ^ n <=? v).
Qed.

(** ** Little-endian integers *)

(** The [n] bytes of [v], least significant first. *)
Fixpoint le_bytes (n : nat) (v : Z) : bytes :=
  match n with O => [] | S n => v mod 256 :: le_bytes n (v / 256) end.

Fixpoint le_value (l : bytes) : Z :=
  match l with [] => 0 | b :: l => b + 256 * le_value l end.

Lemma le_bytes_length n v : length (le_bytes n v) = n.
Proof. revert v. induction n; intros v; simpl; auto. Qed.

Lemma le_bytes_ok n v : bytes_ok (le_bytes n v) = true.
Proof.
  revert v. induction n as [|n IH]; intros v; [done|]. cbn. rewrite <- (IH (v / 256)).
  unfold byte_ok. assert (0 <= v mod 256 < 256) by div_lia.
  by replace ((0 <=? v mod 256) && (v mod 256 <? 256)) with true by lia.
Qed.

Lemma le_value_bytes n v : le_value (le_bytes n v) = v mod 2 ^ (8 * Z.of_nat n).
Proof.
  revert v. induction n as [|n IH]; intros v.
  - simpl. by rewrite Z.mod_1_r.
  - cbn [le_bytes le_value]. rewrite IH.
    replace (8 * Z.of_nat (S n)) with (8 + 8 * Z.of_nat n) by lia. rewrite Z.pow_add_r by lia.
    rewrite (Z.rem_mul_r v (2 ^ 8)) by lia. done.
Qed.

Lemma le_value_bound l : bytes_ok l = true -> 0 <= le_value l < 2 ^ (8 * Z.of_nat (length l)).
Proof.
  induction l as [|b l IH]; [done|]. cbn [bytes_ok forallb le_value length]. intros [Hb Hl]%andb_true_iff.
  replace (8 * Z.of_nat (S (length l))) with (8 + 8 * Z.of_nat (length l)) by lia.
  rewrite Z.pow_add_r by lia. unfold byte_ok in Hb. specialize (IH Hl). lia.
Qed.

Lemma le_bytes_value l : bytes_ok l = true -> le_bytes (length l) (le_value l) = l.
Proof.
  induction l as [|b l IH]; [done|]. cbn [bytes_ok forallb le_value length le_bytes].
  intros [Hb Hl]%andb_true_iff. unfold byte_ok in Hb.
  assert ((b + 256 * le_value l) mod 256 = b) as -> by div_lia.
  assert ((b + 256 * le_value l) / 256 = le_value l) as -> by div_lia.
  by rewrite IH.
Qed.

(** ** UTF-8 *)

(** The encoding of a code point. *)
Definition utf8_char (c : Z) : bytes :=
  if c <? 128 then [c]
  else if c <? 2048 then [192 + c / 64; 128 + c mod 64]
  else if c <? 65536 then [224 + c / 4096; 128 + c / 64 mod 64; 128 + c mod 64]
  else [240 + c / 262144; 128 + c / 4096 mod 64; 128 + c / 64 mod 64; 128 + c mod 64].

(** [s.encode("utf-8")]; [None] is [UnicodeEncodeError]. *)
Definition utf8_encode (s : pystr) : option bytes :=
  if scalar_str s then Some (s ≫= utf8_char) else None.

Definition cont (b : Z) : bool := (128 <=? b) && (b <? 192).

(** [b.decode("utf-8")], strict; [None] is [UnicodeDecodeError]. *)
Fixpoint utf8_decode (b : bytes) : option pystr :=
  match b with
  | [] => Some []
  | b0 :: r0 =>
      if b0 <? 128 then cons b0 <$> utf8_decode r0 else
      match r0 with
      | [] => None
      | b1 :: r1 =>
          if (b0 <? 194) || negb (cont b1) then None else
          if b0 <? 224 then cons ((b0 - 192) * 64 + (b1 - 128)) <$> utf8_decode r1 else
          match r1 with
          | [] => None
          | b2 :: r2 =>
              if negb (cont b2) then None else
              if b0 <? 240 then
                let c := (b0 - 224) * 4096 + (b1 - 128) * 64 + (b2 - 128) in
                if (2048 <=? c) && is_scalar c then cons c <$> utf8_decode r2 else None
              else
              match r2 with
              | [] => None
              | b3 :: r3 =>
                  let c := (b0 - 240) * 262144 + (b1 - 128) * 4096 + (b2 - 128) * 64 + (b3 - 128) in
                  if (b0 <? 245) && cont b3 && (65536 <=? c) && is_scalar c
                  then cons c <$> utf8_decode r3 else None
              end
          end
      end
  end.

Lemma utf8_decode_char c rest :
  is_scalar c = true -> utf8_decode (utf8_char c ++ rest) = cons c <$> utf8_decode rest.
Proof.
  intros Hc. pose proof Hc as Hr. unfold is_scalar in Hr. unfold utf8_char.
  destruct (c <? 128) eqn:E1; [cbn; by rewrite E1|].
  destruct (c <? 2048) eqn:E2; [|destruct (c <? 65536) eqn:E3]; cbn [app utf8_decode]; unfold cont.
  - assert (0 <= c mod 64 < 64) by div_lia. assert (2 <= c / 64 < 32) by div_lia.
    assert (c = 64 * (c / 64) + c mod 64) by div_lia.
    set (hi := c / 64) in *. set (lo := c mod 64) in *.
    replace (192 + hi <? 128) with false by lia.
    replace ((192 + hi <? 194) || _) with false by lia.
    replace (192 + hi <? 224) with true by lia.
    by replace ((192 + hi - 192) * 64 + (128 + lo - 128)) with c by lia.
  - assert (0 <= c mod 64 < 64) by div_lia. assert (0 <= c / 64 mod 64 < 64) by div_lia.
    assert (c = 4096 * (c / 4096) + 64 * (c / 64 mod 64) + c mod 64) as Ec by div_lia.
    assert (0 <= c / 4096 < 16) by div_lia.
    set (hi := c / 4096) in *. set (mid := c / 64 mod 64) in *. set (lo := c mod 64) in *.
    replace (224 + hi <? 128) with false by lia.
    replace ((224 + hi <? 194) || _) with false by lia.
    replace (224 + hi <? 224) with false by lia.
    replace (negb ((128 <=? 128 + lo) && (128 + lo <? 192))) with false by lia.
    replace (224 + hi <? 240) with true by lia.
    replace ((224 + hi - 224) * 4096 + _ + _) with c by lia. rewrite Hc.
    by replace (2048 <=? c) with true by lia.
  - assert (0 <= c mod 64 < 64) by div_lia. assert (0 <= c / 64 mod 64 < 64) by div_lia.
    assert (0 <= c / 4096 mod 64 < 64) by div_lia. assert (0 <= c / 262144 < 5) by div_lia.
    assert (c = 262144 * (c / 262144) + 4096 * (c / 4096 mod 64) + 64 * (c / 64 mod 64) + c mod 64)
      as Ec by div_lia.
    set (b0 := c / 262144) in *. set (b1 := c / 4096 mod 64) in *.
    set (b2 := c / 64 mod 64) in *. set (b3 := c mod 64) in *.
    replace (240 + b0 <? 128) with false by lia.
    replace ((240 + b0 <? 194) || _) with false by lia.
    replace (240 + b0 <? 224) with false by lia.
    replace (negb ((128 <=? 128 + b2) && (128 + b2 <? 192))) with false by lia.
    replace (240 + b0 <? 240) with false by lia.
    replace ((240 + b0 - 240) * 262144 + _ + _ + _) with c by lia. rewrite Hc.
    by replace ((240 + b0 <? 245) && _ && (65536 <=? c)) with true by lia.
Qed.

(** Decoding inverts encoding. *)
Lemma utf8_decode_encode s b : utf8_encode s = Some b -> utf8_decode b = Some s.
Proof.
  unfold utf8_encode. destruct (scalar_str s) eqn:Hs; [|done]. intros [= <-].
  induction s as [|c s IH]; [done|]. simpl in Hs. apply andb_true_iff in Hs as [Hc Hs].
  rewrite bind_cons, utf8_decode_char, IH by done. done.
Qed.

Lemma utf8_char_ok c : is_scalar c = true -> bytes_ok (utf8_char c) = true.
Proof.
  unfold is_scalar, utf8_char. intros Hc. unfold bytes_ok, byte_ok.
  repeat case_match; cbn [forallb]; rewrite ?andb_true_r.
  - lia.
  - assert (0 <= c mod 64 < 64) by div_lia. assert (0 <= c / 64 < 32) by div_lia. lia.
  - assert (0 <= c mod 64 < 64) by div_lia. assert (0 <= c / 64 mod 64 < 64) by div_lia.
    assert (0 <= c / 4096 < 16) by div_lia. lia.
  - assert (0 <= c mod 64 < 64) by div_lia. assert (0 <= c / 64 mod 64 < 64) by div_lia.
    assert (0 <= c / 4096 mod 64 < 64) by div_lia. assert (0 <= c / 262144 < 5) by div_lia. lia.
Qed.

Lemma utf8_encode_ok s b : utf8_encode s = Some b -> bytes_ok b = true.
Proof.
  unfold utf8_encode. destruct (scalar_str s) eqn:Hs; [|done]. intros [= <-].
  induction s as [|c s IH]; [done|]. simpl in Hs. apply andb_true_iff in Hs as [Hc Hs].
  by rewrite bind_cons, bytes_ok_app, utf8_char_ok, IH.
Qed.

(** The encodings of length two, three and four, from their digits. *)
Lemma utf8_char_2 h l : 2 <= h < 32 -> 0 <= l < 64 ->
  utf8_char (h * 64 + l) = [192 + h; 128 + l].
Proof.
  intros. unfold utf8_char.
  replace (h * 64 + l <? 128) with false by lia. replace (h * 64 + l <? 2048) with true by lia.
  repeat f_equal; div_lia.
Qed.

Lemma utf8_char_3 h m l :
  0 <= h < 16 -> 0 <= m < 64 -> 0 <= l < 64 -> 2048 <= h * 4096 + m * 64 + l ->
  utf8_char (h * 4096 + m * 64 + l) = [224 + h; 128 + m; 128 + l].
Proof.
  intros. unfold utf8_char.
  replace (_ <? 128) with false by lia. replace (_ <? 2048) with false by lia.
  replace (_ <? 65536) with true by lia. repeat f_equal; div_lia.
Qed.

Lemma utf8_char_4 h m n l :
  0 <= h < 5 -> 0 <= m < 64 -> 0 <= n < 64 -> 0 <= l < 64 -> 65536 <= h * 262144 + m * 4096 + n * 64 + l ->
  utf8_char (h * 262144 + m * 4096 + n * 64 + l) = [240 + h; 128 + m; 128 + n; 128 + l].
Proof.
  intros. unfold utf8_char.
  replace (_ <? 128) with false by lia. replace (_ <? 2048) with false by lia.
  replace (_ <? 65536) with false by lia. repeat f_equal; div_lia.
Qed.

(** One decoded character is a scalar value and the bytes read are its
    encoding. *)
Lemma utf8_decode_inv b s :
  bytes_ok b = true -> utf8_decode b = Some s ->
  b = [] /\ s = [] \/
  exists c s' rest, s = c :: s' /\ is_scalar c = true /\ b = utf8_char c ++ rest /\
    utf8_decode rest = Some s'.
Proof.
  intros Hok Hd. destruct b as [|b0 r0]; [left; by injection Hd as <-|right].
  assert (0 <= b0 < 256) as Hb0 by (eapply bytes_ok_elem; [exact Hok|left]).
  cbn [utf8_decode] in Hd. destruct (b0 <? 128) eqn:E0.
  { destruct (utf8_decode r0) as [s'|] eqn:E; [|done]. injection Hd as <-.
    exists b0, s', r0. unfold is_scalar, utf8_char. rewrite E0. split_and!; [done|lia|done|done]. }
  destruct r0 as [|b1 r1]; [done|]. unfold cont in Hd. destruct (_ || _) eqn:E1; [done|].
  destruct (b0 <? 224) eqn:E2.
  { destruct (utf8_decode r1) as [s'|] eqn:E; [|done]. injection Hd as <-.
    eexists _, s', r1. split; [reflexivity|]. rewrite utf8_char_2 by lia.
    split_and!; [unfold is_scalar; lia|simpl; repeat f_equal; lia|done]. }
  destruct r1 as [|b2 r2]; [done|]. destruct (negb ((128 <=? b2) && _)) eqn:E3; [done|].
  destruct (b0 <? 240) eqn:E4.
  { destruct (_ && is_scalar _) eqn:E5; [|done]. apply andb_true_iff in E5 as [E5 E6].
    destruct (utf8_decode r2) as [s'|] eqn:E; [|done]. injection Hd as <-.
    eexists _, s', r2. split; [reflexivity|]. rewrite utf8_char_3 by lia.
    split_and!; [done|simpl; repeat f_equal; lia|done]. }
  destruct r2 as [|b3 r3]; [done|]. destruct (_ && is_scalar _) eqn:E5; [|done].
  apply andb_true_iff in E5 as [E5 E6].
  destruct (utf8_decode r3) as [s'|] eqn:E; [|done]. injection Hd as <-.
  eexists _, s', r3. split; [reflexivity|]. rewrite utf8_char_4 by lia.
  split_and!; [done|simpl; repeat f_equal; lia|done].
Qed.

Lemma utf8_char_nonempty c : utf8_char c <> [].
Proof. unfold utf8_char. by repeat case_match. Qed.

(** Encoding inverts decoding: no two byte strings decode to the same text. *)
Lemma utf8_encode_decode b s :
  bytes_ok b = true -> utf8_decode b = Some s -> utf8_encode s = Some b.
Proof.
  remember (length b) as n eqn:En. revert b s En.
  induction n as [n IH] using lt_wf_ind. intros b s -> Hok Hd.
  destruct (utf8_decode_inv b s Hok Hd) as [[-> ->]|(c & s' & rest & -> & Hc & -> & Hr)]; [done|].
  rewrite bytes_ok_app in Hok. apply andb_true_iff in Hok as [_ Hok].
  assert (utf8_encode s' = Some rest) as He.
  { eapply IH; [|done..]. rewrite length_app. pose proof (utf8_char_nonempty c).
    destruct (utf8_char c); [done|simpl; lia]. }
  unfold utf8_encode in *. destruct (scalar_str s') eqn:E; [|done]. injection He as <-.
  assert (scalar_str (c :: s') = true) as -> by (unfold scalar_str in *; simpl; by rewrite Hc, E).
  by rewrite bind_cons.
Qed.
