(* ===== verification/Wire.v ===== *)
(** * The protobuf wire format: primitives

    The model of [src/nebius/base/protos/wire.py].  A reader is its data, its
    group-depth limit and its position; a read is a function from a reader to
    an outcome and the reader afterwards, which keeps the position reached
    when the outcome is an exception.  A write maps the buffer to the extended
    buffer, or raises before it has appended anything.

    A Python [float] is represented by the 64 bits of its IEEE 754 encoding;
    the single-precision conversions are not modelled. *)
From S2P Require Import Prelude PyStr Json Bytes.

Definition WIRE_VARINT : Z := 0.
Definition WIRE_FIXED64 : Z := 1.
Definition WIRE_LENGTH_DELIMITED : Z := 2.
Definition WIRE_START_GROUP : Z := 3.
Definition WIRE_END_GROUP : Z := 4.
Definition WIRE_FIXED32 : Z := 5.

Definition _MAX_FIELD_NUMBER : Z := Z.shiftl 1 29 - 1.
Definition _MAX_UINT32 : Z := Z.shiftl 1 32 - 1.
Definition _MAX_UINT64 : Z := Z.shiftl 1 64 - 1.

Inductive wire_error : Type :=
| DecodeError (msg : string)
| ValueError (msg : string)
| StructError
| UnicodeEncodeError
| OutOfFuel.

Definition _signed (value bits : Z) : Z :=
  let sign := Z.shiftl 1 (bits - 1) in
  let mask := Z.shiftl 1 bits - 1 in
  let value := Z.land value mask in
  if negb (Z.land value sign =? 0) then value - Z.shiftl 1 bits else value.

Definition _zigzag_decode (value : Z) : Z := Z.lxor (Z.shiftr value 1) (- Z.land value 1).

(** ** Reader *)

Record Reader : Type := mkReader { _data : bytes; _max_depth : Z; _pos : Z }.

Definition M (A : Type) : Type := Reader -> result wire_error A * Reader.

#[export] Instance M_ret : MRet M := fun A a r => (Ok a, r).
#[export] Instance M_bind : MBind M := fun A B f m r =>
  match m r with (Ok a, r') => f a r' | (Raise e, r') => (Raise e, r') end.

Definition throw {A} (e : wire_error) : M A := fun r => (Raise e, r).
Definition get : M Reader := fun r => (Ok r, r).

Module BinaryReader.

(** [BinaryReader(data, max_depth=..., max_bytes=...)] *)
Definition init (data : bytes) (max_depth : Z) (max_bytes : option Z) : result wire_error Reader :=
  if max_depth <? 0 then Raise (ValueError "max_depth must be non-negative")
  else if match max_bytes with Some n => n <? Z.of_nat (length data) | None => false end
  then Raise (DecodeError "protobuf input exceeds the configured byte limit")
  else Ok (mkReader data max_depth 0).

Definition position (self : Reader) : Z := _pos self.

Definition remaining (self : Reader) : Z := Z.of_nat (length (_data self)) - _pos self.

Definition eof (self : Reader) : bool := _pos self =? Z.of_nat (length (_data self)).

Definition raw_bytes (start : Z) (stop : option Z) (self : Reader) : result wire_error bytes :=
  let stop := match stop with None => _pos self | Some e => e end in
  if (start <? 0) || (stop <? start) || (_pos self <? stop)
  then Raise (ValueError "raw protobuf range was not fully read")
  else Ok (slice (_data self) start stop).

Definition _read_exact (size : Z) : M bytes := fun self =>
  if (size <? 0) || (remaining self <? size) then (Raise (DecodeError "truncated protobuf field"), self)
  else
    let start := _pos self in
    let self' := mkReader (_data self) (_max_depth self) (start + size) in
    (Ok (slice (_data self) start (_pos self')), self').

Definition read_byte : M Z := b ← _read_exact 1; mret (default 0 (head b)).

(** [for shift in range(0, 70, 7)] *)
Fixpoint varint_loop (shifts : list Z) (value : Z) : M Z :=
  match shifts with
  | [] => throw (DecodeError "protobuf varint exceeds 10 bytes")
  | shift :: shifts =>
      byte ← read_byte;
      let value := Z.lor value (Z.shiftl (Z.land byte 127) shift) in
      if byte <? 128 then mret (Z.land value _MAX_UINT64) else varint_loop shifts value
  end.

Definition read_varint : M Z := varint_loop [0; 7; 14; 21; 28; 35; 42; 49; 56; 63] 0.

(** [for shift in range(0, 35, 7)] *)
Fixpoint tag_loop (shifts : list Z) (tag : Z) : M Z :=
  match shifts with
  | [] => throw (DecodeError "protobuf tag exceeds 5 bytes")
  | shift :: shifts =>
      byte ← read_byte;
      if (shift =? 28) && (15 <? byte) then throw (DecodeError "protobuf tag exceeds 32 bits") else
      let tag := Z.lor tag (Z.shiftl (Z.land byte 127) shift) in
      if byte <? 128 then mret tag else tag_loop shifts tag
  end.

Definition read_tag : M (Z * Z * Z) :=
  self ← get;
  let start := _pos self in
  tag ← tag_loop [0; 7; 14; 21; 28] 0;
  let field_number := Z.shiftr tag 3 in
  let wire_type := Z.land tag 7 in
  if (field_number =? 0) || (_MAX_FIELD_NUMBER <? field_number)
  then throw (DecodeError "invalid protobuf field number")
  else if WIRE_FIXED32 <? wire_type then throw (DecodeError "invalid protobuf wire type")
  else mret (field_number, wire_type, start).

Definition read_int32 : M Z := v ← read_varint; mret (_signed v 32).
Definition read_int64 : M Z := v ← read_varint; mret (_signed v 64).
Definition read_uint32 : M Z := v ← read_varint; mret (Z.land v _MAX_UINT32).
Definition read_uint64 : M Z := read_varint.
Definition read_sint32 : M Z :=
  v ← read_varint; mret (_signed (_zigzag_decode (Z.land v _MAX_UINT32)) 32).
Definition read_sint64 : M Z := v ← read_varint; mret (_signed (_zigzag_decode v) 64).
Definition read_bool : M bool := v ← read_varint; mret (negb (v =? 0)).

(** [struct.unpack("<I" | "<i" | "<Q" | "<q" | "<d", ...)] *)
Definition read_fixed32 : M Z := b ← _read_exact 4; mret (le_value b).
Definition read_sfixed32 : M Z := b ← _read_exact 4; mret (_signed (le_value b) 32).
Definition read_fixed64 : M Z := b ← _read_exact 8; mret (le_value b).
Definition read_sfixed64 : M Z := b ← _read_exact 8; mret (_signed (le_value b) 64).
Definition read_double : M Z := b ← _read_exact 8; mret (le_value b).

Definition read_bytes : M bytes := size ← read_varint; _read_exact size.

Definition read_string : M pystr :=
  b ← read_bytes;
  match utf8_decode b with
  | Some s => mret s
  | None => throw (DecodeError "invalid UTF-8 in protobuf string")
  end.

(** The loop of [read_packed]; every iteration moves the position towards
    [stop]. *)
Fixpoint packed_loop {A} (fuel : nat) (stop : Z) (read_value : M A) (values : list A) : M (list A) :=
  fun self =>
  if _pos self <? stop then
    match fuel with
    | O => (Raise OutOfFuel, self)
    | S fuel =>
        let before := _pos self in
        match read_value self with
        | (Raise e, self') => (Raise e, self')
        | (Ok v, self') =>
            if (_pos self' <=? before) || (stop <? _pos self')
            then (Raise (DecodeError "packed protobuf value exceeds its field"), self')
            else packed_loop fuel stop read_value (values ++ [v]) self'
        end
    end
  else (Ok values, self).

Definition read_packed {A} (read_value : M A) : M (list A) :=
  size ← read_varint;
  self ← get;
  let stop := _pos self + size in
  if Z.of_nat (length (_data self)) <? stop
  then throw (DecodeError "truncated packed protobuf field")
  else packed_loop (Z.to_nat (stop - _pos self)) stop read_value [].

(** [_skip_value] and the loop of [_skip_group], whose [groups] list has its
    last element first. *)
Fixpoint _skip_value (fuel : nat) (field_number wire_type : Z) {struct fuel} : M unit :=
  if wire_type =? WIRE_VARINT then _ ← read_varint; mret ()
  else if wire_type =? WIRE_FIXED64 then _ ← _read_exact 8; mret ()
  else if wire_type =? WIRE_LENGTH_DELIMITED then n ← read_varint; _ ← _read_exact n; mret ()
  else if wire_type =? WIRE_START_GROUP then
    match fuel with
    | O => throw OutOfFuel
    | S fuel =>
        self ← get;
        if _max_depth self <? 1
        then throw (DecodeError "protobuf group nesting exceeds the configured limit")
        else skip_group_loop fuel [field_number]
    end
  else if wire_type =? WIRE_END_GROUP then throw (DecodeError "unexpected protobuf end-group tag")
  else if wire_type =? WIRE_FIXED32 then _ ← _read_exact 4; mret ()
  else throw (DecodeError "invalid protobuf wire type")
with skip_group_loop (fuel : nat) (groups : list Z) {struct fuel} : M unit :=
  match groups with
  | [] => mret ()
  | last :: outer =>
      match fuel with
      | O => throw OutOfFuel
      | S fuel =>
          t ← read_tag;
          let '(nested_number, nested_wire, _) := t in
          if nested_wire =? WIRE_START_GROUP then
            self ← get;
            if _max_depth self <=? Z.of_nat (length groups)
            then throw (DecodeError "protobuf group nesting exceeds the configured limit")
            else skip_group_loop fuel (nested_number :: groups)
          else if nested_wire =? WIRE_END_GROUP then
            if nested_number =? last then skip_group_loop fuel outer
            else throw (DecodeError "mismatched protobuf end-group tag")
          else _ ← _skip_value fuel nested_number nested_wire; skip_group_loop fuel groups
      end
  end.

(** Enough fuel for a reader: a group costs a tag per iteration. *)
Definition skip_fuel (self : Reader) : nat := S (S (Z.to_nat (remaining self))).

Definition skip_field (field_number wire_type tag_start : Z) : M bytes :=
  before ← get;
  _ ← _skip_value (skip_fuel before) field_number wire_type;
  self ← get;
  mret (slice (_data self) tag_start (_pos self)).

End BinaryReader.

(** ** Writer *)

Definition W (A : Type) : Type := A -> bytes -> result wire_error bytes.

Module BinaryWriter.

Definition init : bytes := [].
Definition to_bytes (self : bytes) : bytes := self.
Definition write_raw (data : bytes) (self : bytes) : bytes := self ++ data.

(** [while value > 0x7F], at most [fuel] bytes. *)
Fixpoint varint_bytes (fuel : nat) (value : Z) : option bytes :=
  match fuel with
  | O => None
  | S fuel =>
      if 127 <? value
      then cons (Z.lor (Z.land value 127) 128) <$> varint_bytes fuel (Z.shiftr value 7)
      else Some [value]
  end.

Definition write_varint : W Z := fun value self =>
  if (value <? 0) || (_MAX_UINT64 <? value)
  then Raise (ValueError "varint value is outside uint64 range")
  else match varint_bytes 10 value with
       | Some b => Ok (self ++ b)
       | None => Raise OutOfFuel
       end.

Definition write_tag (field_number wire_type : Z) (self : bytes) : result wire_error bytes :=
  if (field_number <=? 0) || (_MAX_FIELD_NUMBER <? field_number)
  then Raise (ValueError "invalid protobuf field number")
  else if (wire_type <? WIRE_VARINT) || (WIRE_FIXED32 <? wire_type)
  then Raise (ValueError "invalid protobuf wire type")
  else write_varint (Z.lor (Z.shiftl field_number 3) wire_type) self.

Definition write_int32 : W Z := fun value self =>
  if negb ((- Z.shiftl 1 31 <=? value) && (value <? Z.shiftl 1 31))
  then Raise (ValueError "int32 value is outside its range")
  else write_varint (Z.land value _MAX_UINT64) self.

Definition write_int64 : W Z := fun value self =>
  if negb ((- Z.shiftl 1 63 <=? value) && (value <? Z.shiftl 1 63))
  then Raise (ValueError "int64 value is outside its range")
  else write_varint (Z.land value _MAX_UINT64) self.

Definition write_uint32 : W Z := fun value self =>
  if negb ((0 <=? value) && (value <=? _MAX_UINT32))
  then Raise (ValueError "uint32 value is outside its range")
  else write_varint value self.

Definition write_uint64 : W Z := write_varint.

Definition write_sint32 : W Z := fun value self =>
  if negb ((- Z.shiftl 1 31 <=? value) && (value <? Z.shiftl 1 31))
  then Raise (ValueError "sint32 value is outside its range")
  else write_varint (Z.land (Z.lxor (Z.shiftl value 1) (Z.shiftr value 31)) _MAX_UINT32) self.

Definition write_sint64 : W Z := fun value self =>
  if negb ((- Z.shiftl 1 63 <=? value) && (value <? Z.shiftl 1 63))
  then Raise (ValueError "sint64 value is outside its range")
  else write_varint (Z.land (Z.lxor (Z.shiftl value 1) (Z.shiftr value 63)) _MAX_UINT64) self.

Definition write_bool : W bool := fun value => write_varint (if value then 1 else 0).

(** [struct.pack] of an integer in [lo, hi): outside of it [struct.error]. *)
Definition pack (lo hi : Z) (n : nat) : W Z := fun value self =>
  if (lo <=? value) && (value <? hi) then Ok (self ++ le_bytes n value) else Raise StructError.

Definition write_fixed32 : W Z := pack 0 (2 ^ 32) 4.
Definition write_sfixed32 : W Z := pack (- 2 ^ 31) (2 ^ 31) 4.
Definition write_fixed64 : W Z := pack 0 (2 ^ 64) 8.
Definition write_sfixed64 : W Z := pack (- 2 ^ 63) (2 ^ 63) 8.

(** A double, given by its bits. *)
Definition write_double : W Z := pack 0 (2 ^ 64) 8.

Definition write_bytes : W bytes := fun value self =>
  self' ← write_varint (Z.of_nat (length value)) self; Ok (self' ++ value).

Definition write_string : W pystr := fun value self =>
  match utf8_encode value with
  | Some b => write_bytes b self
  | None => Raise UnicodeEncodeError
  end.

Fixpoint write_all {A} (write_value : W A) (values : list A) (nested : bytes) :
    result wire_error bytes :=
  match values with
  | [] => Ok nested
  | v :: values => nested ← write_value v nested; write_all write_value values nested
  end.

Definition write_packed {A} (values : list A) (write_value : W A) (self : bytes) :
    result wire_error bytes :=
  nested ← write_all write_value values init; write_bytes (to_bytes nested) self.

End BinaryWriter.

Example ex_varint : BinaryWriter.write_varint 300 [] = Ok [172; 2].
Proof. reflexivity. Qed.

Example ex_skip :
  fst (BinaryReader._skip_value 10 1 3 (mkReader [16; 1; 19; 20; 12] 2 0)) = Ok ().
Proof. reflexivity. Qed.
