(* ===== verification/WireSpec.v ===== *)
(** * The wire primitives: safety and round trips

    Two interfaces.  [Steady m]: the read [m] never leaves the data, never goes
    back and never runs out of fuel.  [Codec w r dom]: on the values of [dom]
    the write [w] appends bytes from which the read [r] recovers the value,
    wherever they stand in the input, and on any other value [w] raises. *)
From S2P Require Import Prelude PyStr Json Bytes Wire.

Lemma max_uint64 : _MAX_UINT64 = 2 ^ 64 - 1.
Proof. reflexivity. Qed.

Lemma max_uint32 : _MAX_UINT32 = 2 ^ 32 - 1.
Proof. reflexivity. Qed.

(** ** Two's complement and zigzag *)

Lemma signed_spec v bits :
  0 < bits -> _signed v bits = (v + 2 ^ (bits - 1)) mod 2 ^ bits - 2 ^ (bits - 1).
Proof.
  intros Hb. unfold _signed. rewrite !Z.shiftl_1_l, land_mask by lia.
  assert (2 ^ bits = 2 * 2 ^ (bits - 1)) as E2.
  { rewrite <- Z.pow_succ_r by lia. f_equal. lia. }
  pose proof (Z.pow_pos_nonneg 2 (bits - 1)) as Hp.
  pose proof (Z.mod_pos_bound v (2 ^ bits)) as Hm.
  set (w := v mod 2 ^ bits) in *. set (h := 2 ^ (bits - 1)) in *.
  assert (Z.testbit w (bits - 1) = (h <=? w)) as Ht.
  { apply testbit_top; [lia|]. replace (bits - 1 + 1) with bits by lia. lia. }
  assert ((v + h) mod 2 ^ bits = (w + h) mod 2 ^ bits) as -> by (unfold w; by rewrite Zplus_mod_idemp_l).
  destruct (Z.eqb_spec (Z.land w h) 0) as [E|E]; simpl.
  - destruct (Z.testbit w (bits - 1)) eqn:Eb.
    + apply land_pow2_nonzero in Eb; [done|lia].
    + rewrite Z.mod_small; lia.
  - apply land_pow2_nonzero in E; [|lia]. rewrite E in Ht.
    rewrite <- (Z.mod_unique (w + h) (2 ^ bits) 1 (w + h - 2 ^ bits)); lia.
Qed.

Lemma signed_range v bits :
  0 < bits -> - 2 ^ (bits - 1) <= _signed v bits < 2 ^ (bits - 1).
Proof.
  intros Hb. rewrite signed_spec by done.
  assert (2 ^ bits = 2 * 2 ^ (bits - 1)) as E2 by (rewrite <- Z.pow_succ_r by lia; f_equal; lia).
  pose proof (Z.pow_pos_nonneg 2 (bits - 1)).
  pose proof (Z.mod_pos_bound (v + 2 ^ (bits - 1)) (2 ^ bits)). lia.
Qed.

(** Reducing modulo a larger power of two first changes nothing. *)
Lemma signed_mod v bits n :
  0 < bits <= n -> - 2 ^ (bits - 1) <= v < 2 ^ (bits - 1) -> _signed (v mod 2 ^ n) bits = v.
Proof.
  intros Hb Hv. rewrite signed_spec by lia.
  assert (2 ^ bits = 2 * 2 ^ (bits - 1)) as E2 by (rewrite <- Z.pow_succ_r by lia; f_equal; lia).
  pose proof (Z.pow_pos_nonneg 2 (bits - 1)).
  rewrite <- Zplus_mod_idemp_l, Z.mod_mod_divide, Zplus_mod_idemp_l.
  - rewrite Z.mod_small; lia.
  - exists (2 ^ (n - bits)). rewrite <- Z.pow_add_r by lia. f_equal. lia.
Qed.

Definition zigzag (v : Z) : Z := if v <? 0 then - 2 * v - 1 else 2 * v.

Lemma zigzag_encode v n :
  0 < n -> - 2 ^ (n - 1) <= v < 2 ^ (n - 1) ->
  Z.land (Z.lxor (Z.shiftl v 1) (Z.shiftr v (n - 1))) (2 ^ n - 1) = zigzag v /\ 0 <= zigzag v < 2 ^ n.
Proof.
  intros Hn Hv. unfold zigzag.
  assert (2 ^ n = 2 * 2 ^ (n - 1)) as E2 by (rewrite <- Z.pow_succ_r by lia; f_equal; lia).
  pose proof (Z.pow_pos_nonneg 2 (n - 1)).
  rewrite Z.shiftl_mul_pow2, Z.shiftr_div_pow2, land_mask by lia.
  destruct (v <? 0) eqn:E.
  - rewrite <- (Z.div_unique v (2 ^ (n - 1)) (-1) (v + 2 ^ (n - 1))) by lia.
    rewrite Z.lxor_m1_r, Z.lnot_eq_pred_opp. rewrite Z.mod_small; lia.
  - rewrite Z.div_small, Z.lxor_0_r by lia. rewrite Z.mod_small; lia.
Qed.

Lemma zigzag_decode v : _zigzag_decode (zigzag v) = v.
Proof.
  unfold _zigzag_decode, zigzag. rewrite Z.shiftr_div_pow2 by lia.
  assert (forall x, Z.land x 1 = x mod 2) as Hland by (intros; by apply (land_mask x 1)).
  rewrite Hland. destruct (v <? 0) eqn:E.
  - replace ((- 2 * v - 1) mod 2) with 1 by div_lia.
    rewrite Z.lxor_m1_r, Z.lnot_eq_pred_opp. div_lia.
  - replace (2 * v mod 2) with 0 by div_lia.
    rewrite Z.lxor_0_r. div_lia.
Qed.

(** ** Steady reads *)

Definition reader_ok (r : Reader) : Prop := 0 <= _pos r <= Z.of_nat (length (_data r)).

(** [r'] is [r], possibly further on. *)
Definition advanced (r r' : Reader) : Prop :=
  _data r' = _data r /\ _max_depth r' = _max_depth r /\
  _pos r <= _pos r' <= Z.of_nat (length (_data r)).

Class Steady {A} (m : M A) : Prop :=
  steady : forall r, reader_ok r -> advanced r (m r).2 /\ (m r).1 <> Raise OutOfFuel.

Lemma advanced_refl r : reader_ok r -> advanced r r.
Proof. unfold reader_ok, advanced. auto with lia. Qed.

Lemma advanced_trans r1 r2 r3 : advanced r1 r2 -> advanced r2 r3 -> advanced r1 r3.
Proof. intros (E1 & E2 & E3) (F1 & F2 & F3). unfold advanced. rewrite E1 in *. split_and!; [done|congruence|lia..]. Qed.

Lemma advanced_ok r r' : reader_ok r -> advanced r r' -> reader_ok r'.
Proof. unfold reader_ok. intros Hr (E1 & E2 & E3). rewrite E1. lia. Qed.

#[export] Instance mret_steady {A} (a : A) : Steady (mret (M := M) a).
Proof. intros r Hr. split; [by apply advanced_refl|done]. Qed.

#[export] Instance get_steady : Steady get.
Proof. intros r Hr. split; [by apply advanced_refl|done]. Qed.

Lemma throw_steady {A} e : e <> OutOfFuel -> Steady (@throw A e).
Proof. intros He r Hr. split; [by apply advanced_refl|]. simpl. congruence. Qed.

#[export] Hint Extern 1 (Steady (throw _)) => apply throw_steady; discriminate : typeclass_instances.

#[export] Instance bind_steady {A B} (m : M A) (f : A -> M B) :
  Steady m -> (forall a, Steady (f a)) -> Steady (m ≫= f).
Proof.
  intros Hm Hf r Hr. destruct (Hm r Hr) as [Ha Hn]. unfold mbind, M_bind.
  destruct (m r) as [[a|e] r']; simpl in *; [|by split; [|congruence]].
  destruct (Hf a r' (advanced_ok _ _ Hr Ha)) as [Hb Hn'].
  split; [by eapply advanced_trans|done].
Qed.

#[export] Instance if_steady {A} (b : bool) (m1 m2 : M A) :
  Steady m1 -> Steady m2 -> Steady (if b then m1 else m2).
Proof. by destruct b. Qed.

#[export] Instance read_exact_steady n : Steady (BinaryReader._read_exact n).
Proof.
  intros r Hr. unfold BinaryReader._read_exact, BinaryReader.remaining.
  destruct (_ || _) eqn:E; simpl; [by split; [apply advanced_refl|]|].
  split; [|done]. unfold advanced, reader_ok in *. simpl. split_and!; [done|done|lia..].
Qed.

#[export] Instance read_byte_steady : Steady BinaryReader.read_byte.
Proof. apply _. Qed.

Lemma varint_loop_steady shifts v : Steady (BinaryReader.varint_loop shifts v).
Proof. revert v. induction shifts; intros v; simpl; apply _. Qed.

#[export] Instance read_varint_steady : Steady BinaryReader.read_varint.
Proof. apply varint_loop_steady. Qed.

Lemma tag_loop_steady shifts v : Steady (BinaryReader.tag_loop shifts v).
Proof. revert v. induction shifts; intros v; simpl; apply _. Qed.

#[export] Instance read_tag_steady : Steady BinaryReader.read_tag.
Proof. unfold BinaryReader.read_tag. pose proof tag_loop_steady. apply _. Qed.

#[export] Instance read_bytes_steady : Steady BinaryReader.read_bytes.
Proof. unfold BinaryReader.read_bytes. apply _. Qed.

#[export] Instance read_string_steady : Steady BinaryReader.read_string.
Proof.
  unfold BinaryReader.read_string. apply bind_steady; [apply _|]. intros b.
  destruct (utf8_decode b); apply _.
Qed.

(** The packed loop moves towards its end, so its fuel suffices for every
    reader of values. *)
Lemma packed_loop_steady {A} (read_value : M A) `{!Steady read_value} fuel stop vs r :
  reader_ok r -> stop <= Z.of_nat (length (_data r)) -> stop - _pos r <= Z.of_nat fuel ->
  let o := BinaryReader.packed_loop fuel stop read_value vs r in
  advanced r o.2 /\ o.1 <> Raise OutOfFuel.
Proof.
  revert vs r. induction fuel as [|fuel IH]; intros vs r Hr Hs Hf; simpl;
    destruct (_ <? stop) eqn:E; try lia; try (split; [by apply advanced_refl|done]).
  destruct (Steady0 r Hr) as [Ha Hn]. destruct (read_value r) as [[v|e] r']; simpl in *;
    [|by split; [|congruence]].
  destruct (_ || _) eqn:E'; simpl; [by split|].
  pose proof (advanced_ok _ _ Hr Ha) as Hr'. destruct Ha as (E1 & E2 & E3).
  destruct (IH (vs ++ [v]) r') as [Hb Hn']; [done|rewrite E1; lia|lia|].
  split; [|done]. eapply advanced_trans; [|exact Hb]. by unfold advanced.
Qed.

#[export] Instance read_packed_steady {A} (read_value : M A) :
  Steady read_value -> Steady (BinaryReader.read_packed read_value).
Proof.
  intros Hv. unfold BinaryReader.read_packed. apply bind_steady; [apply _|]. intros size r Hr.
  unfold get, mbind, M_bind. destruct (_ <? _) eqn:E; simpl; [by split; [apply advanced_refl|]|].
  apply packed_loop_steady; [done..|lia|lia].
Qed.

(** ** Skipping *)

Lemma bind_unfold {A B} (m : M A) (f : A -> M B) r :
  (m ≫= f) r = match m r with (Ok a, r') => f a r' | (Raise e, r') => (Raise e, r') end.
Proof. done. Qed.

Lemma bind_Ok {A B} (m : M A) (f : A -> M B) r b r' :
  (m ≫= f) r = (Ok b, r') -> exists a r1, m r = (Ok a, r1) /\ f a r1 = (Ok b, r').
Proof. unfold mbind, M_bind. destruct (m r) as [[a|e] r1]; [eauto|done]. Qed.

Lemma read_byte_Ok r b r' : BinaryReader.read_byte r = (Ok b, r') -> _pos r' = _pos r + 1.
Proof.
  intros (a & r1 & H & [= <- <-])%bind_Ok. unfold BinaryReader._read_exact in H.
  destruct (_ || _); [done|]. by injection H as _ <-.
Qed.

Lemma tag_loop_Ok shifts t r t' r' :
  reader_ok r -> BinaryReader.tag_loop shifts t r = (Ok t', r') -> _pos r < _pos r'.
Proof.
  destruct shifts as [|s shifts]; [done|]. cbn [BinaryReader.tag_loop].
  intros Hr (b & r1 & Hb & H)%bind_Ok.
  destruct (read_byte_steady r Hr) as [Ha _]. rewrite Hb in Ha. simpl in Ha.
  apply read_byte_Ok in Hb. destruct (_ && _); [done|]. destruct (b <? 128).
  - injection H as _ <-. lia.
  - destruct (tag_loop_steady shifts (Z.lor t (Z.shiftl (Z.land b 127) s)) r1) as [(_ & _ & Hp) _].
    + by apply (advanced_ok r).
    + rewrite H in Hp. simpl in Hp. lia.
Qed.

(** A tag is at least one byte. *)
Lemma read_tag_Ok r t r' : reader_ok r -> BinaryReader.read_tag r = (Ok t, r') -> _pos r < _pos r'.
Proof.
  intros Hr (? & ? & [= <- <-] & (tag & r1 & Ht & H)%bind_Ok)%bind_Ok.
  apply tag_loop_Ok in Ht; [|done]. cbv zeta in H. destruct (_ || _); [done|]. destruct (_ <? _); [done|].
  by injection H as _ <-.
Qed.

Lemma remaining_advanced r r' : advanced r r' -> BinaryReader.remaining r' <= BinaryReader.remaining r.
Proof. intros (E1 & _ & E3). unfold BinaryReader.remaining. rewrite E1. lia. Qed.

(** A value that is not a group needs no fuel. *)
Lemma skip_flat_steady fuel n w : w <> WIRE_START_GROUP -> Steady (BinaryReader._skip_value fuel n w).
Proof.
  intros Hw. replace (BinaryReader._skip_value fuel n w) with (BinaryReader._skip_value 0 n w).
  - simpl. replace (w =? WIRE_START_GROUP) with false by lia. apply _.
  - destruct fuel; simpl; by replace (w =? WIRE_START_GROUP) with false by lia.
Qed.

Lemma skip_group_steady fuel groups r :
  reader_ok r -> BinaryReader.remaining r < Z.of_nat fuel ->
  let o := BinaryReader.skip_group_loop fuel groups r in
  advanced r o.2 /\ o.1 <> Raise OutOfFuel.
Proof.
  revert groups r. induction fuel as [|fuel IH]; intros groups r Hr Hf.
  { unfold BinaryReader.remaining, reader_ok in *. lia. }
  destruct groups as [|g outer]; [by split; [apply advanced_refl|]|].
  cbn [BinaryReader.skip_group_loop]. destruct (read_tag_steady r Hr) as [Ha Hn].
  rewrite bind_unfold. cbv zeta.
  destruct (BinaryReader.read_tag r) as [[[[n w] st]|e] r1] eqn:Et; simpl in Ha, Hn;
    [|split; [done|]; intros [= ->]; by apply Hn].
  apply read_tag_Ok in Et; [|done].
  pose proof (advanced_ok _ _ Hr Ha) as Hr1. pose proof (remaining_advanced _ _ Ha) as Hm.
  assert (forall gs r2, advanced r1 r2 ->
    let o := BinaryReader.skip_group_loop fuel gs r2 in advanced r o.2 /\ o.1 <> Raise OutOfFuel) as Hnext.
  { intros gs r2 H2. destruct (IH gs r2) as [Hb Hn'].
    - by eapply advanced_ok.
    - destruct Ha as (E1 & _ & E3), H2 as (F1 & _ & F3).
      unfold BinaryReader.remaining in *. rewrite F1, E1 in *. lia.
    - split; [|done]. eapply advanced_trans; [exact Ha|]. by eapply advanced_trans. }
  destruct (w =? WIRE_START_GROUP) eqn:Ew.
  - rewrite bind_unfold. unfold get. destruct (_ <=? _); [by split|].
    apply Hnext. by apply advanced_refl.
  - destruct (w =? WIRE_END_GROUP).
    + destruct (n =? g); [apply Hnext; by apply advanced_refl|by split].
    + rewrite bind_unfold. destruct (skip_flat_steady fuel n w ltac:(lia) r1 Hr1) as [Hb Hn'].
      destruct (BinaryReader._skip_value fuel n w r1) as [[v|e] r2]; simpl in *; [by apply Hnext|].
      split; [by eapply advanced_trans|congruence].
Qed.

#[export] Instance skip_field_steady n w st : Steady (BinaryReader.skip_field n w st).
Proof.
  unfold BinaryReader.skip_field. intros r Hr. rewrite bind_unfold. cbn [get].
  destruct (decide (w = WIRE_START_GROUP)) as [->|Hw].
  - rewrite bind_unfold. unfold BinaryReader.skip_fuel. cbn [BinaryReader._skip_value].
    replace (WIRE_START_GROUP =? WIRE_VARINT) with false by done.
    replace (WIRE_START_GROUP =? WIRE_FIXED64) with false by done.
    replace (WIRE_START_GROUP =? WIRE_LENGTH_DELIMITED) with false by done.
    rewrite Z.eqb_refl, bind_unfold. cbn [get].
    destruct (_ <? 1); [by split; [apply advanced_refl|]|].
    destruct (skip_group_steady (S (Z.to_nat (BinaryReader.remaining r))) [n] r Hr) as [Ha Hn]; [lia|].
    destruct (BinaryReader.skip_group_loop _ _ r) as [[v|e] r2]; simpl in *; [done|].
    split; [done|congruence].
  - pose proof (skip_flat_steady (BinaryReader.skip_fuel r) n w Hw).
    apply (_ : Steady (BinaryReader._skip_value _ n w ≫= _)). done.
Qed.

(** A varint is reduced to 64 bits. *)
Lemma varint_loop_range shifts acc r v r' :
  BinaryReader.varint_loop shifts acc r = (Ok v, r') -> 0 <= v < 2 ^ 64.
Proof.
  revert acc r. induction shifts as [|s shifts IH]; intros acc r; cbn [BinaryReader.varint_loop];
    [done|].
  intros (b & r1 & _ & H)%bind_Ok. cbv zeta in H. destruct (b <? 128); [|by eapply IH].
  injection H as <- _. rewrite max_uint64, land_mask by lia. by apply Z.mod_pos_bound.
Qed.

(** The bytes read are bytes of the data. *)
Lemma read_bytes_ok r b r' :
  reader_ok r -> bytes_ok (_data r) = true -> BinaryReader.read_bytes r = (Ok b, r') ->
  bytes_ok b = true.
Proof.
  intros Hr Hok (n & r1 & Hn & Hb)%bind_Ok.
  destruct (read_varint_steady r Hr) as [(Ed & _) _]. rewrite Hn in Ed. simpl in Ed.
  unfold BinaryReader._read_exact in Hb. destruct (_ || _); [done|]. injection Hb as <- _.
  rewrite Ed. unfold slice. generalize (Z.to_nat (_pos r1 + n - _pos r1)), (Z.to_nat (_pos r1)).
  intros k j. rewrite <- (take_drop j (_data r)), bytes_ok_app in Hok.
  apply andb_true_iff in Hok as [_ Hok].
  rewrite <- (take_drop k (drop j _)), bytes_ok_app in Hok. by apply andb_true_iff in Hok as [-> _].
Qed.

(** ** Reading back what was written *)

(** [m] reads the bytes [enc] as [v], wherever they stand. *)
Definition reads {A} (m : M A) (enc : bytes) (v : A) : Prop :=
  forall pre post depth,
    m (mkReader (pre ++ enc ++ post) depth (Z.of_nat (length pre))) =
    (Ok v, mkReader (pre ++ enc ++ post) depth (Z.of_nat (length pre + length enc))).

Lemma reads_ret {A} (v : A) : reads (mret v) [] v.
Proof. intros pre post d. simpl. by rewrite Nat.add_0_r. Qed.

Lemma reads_bind {A B} (m : M A) (f : A -> M B) e1 e2 a b :
  reads m e1 a -> reads (f a) e2 b -> reads (m ≫= f) (e1 ++ e2) b.
Proof.
  intros H1 H2 pre post d. rewrite bind_unfold, <- app_assoc, H1.
  specialize (H2 (pre ++ e1) post d). rewrite <- app_assoc, length_app in H2. rewrite H2.
  by rewrite length_app, Nat.add_assoc.
Qed.

Lemma reads_bind_ret {A B} (m : M A) (g : A -> B) e a :
  reads m e a -> reads (x ← m; mret (g x)) e (g a).
Proof. intros H. rewrite <- (app_nil_r e). eapply reads_bind; [exact H|apply reads_ret]. Qed.

Lemma reads_exact b : reads (BinaryReader._read_exact (Z.of_nat (length b))) b b.
Proof.
  intros pre post d. unfold BinaryReader._read_exact, BinaryReader.remaining. cbn [_data _pos].
  rewrite !length_app. destruct (_ || _) eqn:E; [lia|]. rewrite Nat2Z.inj_add. repeat f_equal.
  cbn [_pos]. unfold slice.
  replace (Z.to_nat (Z.of_nat (length pre) + Z.of_nat (length b) - Z.of_nat (length pre)))
    with (length b) by lia.
  rewrite Nat2Z.id, drop_app_length. apply take_app_length.
Qed.

Lemma reads_byte b : reads BinaryReader.read_byte [b] b.
Proof. apply (reads_bind_ret _ (fun l => default 0 (head l)) _ [b]). apply (reads_exact [b]). Qed.

(** *** Varints *)

(** The shifts [7 * i, 7 * (i + 1), ...]. *)
Definition shifts_from (i n : nat) : list Z := map (fun k => 7 * Z.of_nat k) (seq i n).

Lemma accumulate acc b i :
  0 <= acc < 2 ^ (7 * Z.of_nat i) ->
  Z.lor acc (Z.shiftl (Z.land b 127) (7 * Z.of_nat i)) = acc + b mod 128 * 2 ^ (7 * Z.of_nat i).
Proof. intros Ha. rewrite land_127. rewrite lor_shiftl by lia. done. Qed.

Lemma varint_byte v : Z.lor (Z.land v 127) 128 = v mod 128 + 128.
Proof.
  rewrite land_127. apply (lor_low _ 1 7); [lia|]. change (2 ^ 7) with 128. div_lia.
Qed.

Lemma pow_shift i : 2 ^ (7 * Z.of_nat (S i)) = 128 * 2 ^ (7 * Z.of_nat i).
Proof. replace (7 * Z.of_nat (S i)) with (7 + 7 * Z.of_nat i) by lia. by rewrite Z.pow_add_r by lia. Qed.

Lemma reads_varint_loop n i acc v enc :
  0 <= v -> 0 <= acc < 2 ^ (7 * Z.of_nat i) -> acc + v * 2 ^ (7 * Z.of_nat i) < 2 ^ 64 ->
  BinaryWriter.varint_bytes n v = Some enc ->
  reads (BinaryReader.varint_loop (shifts_from i n) acc) enc (acc + v * 2 ^ (7 * Z.of_nat i)).
Proof.
  revert i acc v enc. induction n as [|n IH]; intros i acc v enc Hv Ha Hlt He; [done|].
  cbn [BinaryWriter.varint_bytes] in He. cbn [shifts_from seq map BinaryReader.varint_loop].
  pose proof (pow_shift i) as Hp. set (p := 2 ^ (7 * Z.of_nat i)) in *.
  destruct (127 <? v) eqn:Ev.
  - rewrite varint_byte, Z.shiftr_div_pow2 in He by lia. change (2 ^ 7) with 128 in He.
    destruct (BinaryWriter.varint_bytes n (v / 128)) as [enc'|] eqn:E; [|done]. injection He as <-.
    apply (reads_bind _ _ [v mod 128 + 128]) with (1 := reads_byte _).
    rewrite accumulate by done. fold p. assert (0 <= v mod 128 < 128) by div_lia.
    replace ((v mod 128 + 128) mod 128) with (v mod 128) by div_lia.
    replace (v mod 128 + 128 <? 128) with false by lia.
    assert (v = 128 * (v / 128) + v mod 128) by div_lia.
    replace (acc + v * p) with (acc + v mod 128 * p + v / 128 * 2 ^ (7 * Z.of_nat (S i))) by nia.
    apply IH; [div_lia|nia|nia|done].
  - injection He as <-. rewrite <- (app_nil_r [v]). eapply reads_bind; [apply reads_byte|].
    rewrite accumulate by done. fold p. rewrite Z.mod_small by lia.
    replace (v <? 128) with true by lia.
    rewrite max_uint64, land_mask, Z.mod_small by nia. apply reads_ret.
Qed.

Lemma varint_bytes_total n v :
  (0 < n)%nat -> 0 <= v < 2 ^ (7 * Z.of_nat n) ->
  exists enc, BinaryWriter.varint_bytes n v = Some enc /\ bytes_ok enc = true /\ enc <> [].
Proof.
  revert v. induction n as [|n IH]; intros v Hn Hv; [lia|]. cbn [BinaryWriter.varint_bytes].
  unfold bytes_ok, byte_ok. destruct (127 <? v) eqn:Ev.
  - rewrite pow_shift in Hv. rewrite varint_byte, Z.shiftr_div_pow2 by lia. change (2 ^ 7) with 128.
    destruct (IH (v / 128)) as (enc & -> & Hok & _); [destruct n; simpl in *; lia|div_lia|].
    exists (v mod 128 + 128 :: enc). split_and!; [done| |done]. cbn [forallb].
    assert (0 <= v mod 128 < 128) by div_lia. unfold bytes_ok, byte_ok in Hok. rewrite Hok. lia.
  - exists [v]. split_and!; [done| |done]. cbn [forallb]. lia.
Qed.

Lemma varint_bytes_mono n k v enc :
  BinaryWriter.varint_bytes n v = Some enc -> BinaryWriter.varint_bytes (n + k) v = Some enc.
Proof.
  revert v enc. induction n as [|n IH]; intros v enc He; [done|]. simpl in *.
  destruct (127 <? v); [|done]. destruct (BinaryWriter.varint_bytes n _) eqn:E; [|done].
  by rewrite (IH _ _ E).
Qed.

(** *** Tags *)

Lemma reads_tag_loop n i acc v enc :
  (i + n <= 5)%nat -> 0 <= v -> 0 <= acc < 2 ^ (7 * Z.of_nat i) ->
  acc + v * 2 ^ (7 * Z.of_nat i) < 2 ^ 32 ->
  BinaryWriter.varint_bytes n v = Some enc ->
  reads (BinaryReader.tag_loop (shifts_from i n) acc) enc (acc + v * 2 ^ (7 * Z.of_nat i)).
Proof.
  revert i acc v enc. induction n as [|n IH]; intros i acc v enc Hi Hv Ha Hlt He; [done|].
  cbn [BinaryWriter.varint_bytes] in He. cbn [shifts_from seq map BinaryReader.tag_loop].
  pose proof (pow_shift i) as Hp.
  assert (7 * Z.of_nat i = 28 -> v < 16) as Hlast.
  { intros E. rewrite E in Hlt. change (2 ^ 28) with 268435456 in Hlt.
    change (2 ^ 32) with 4294967296 in Hlt. lia. }
  set (p := 2 ^ (7 * Z.of_nat i)) in *.
  destruct (127 <? v) eqn:Ev.
  - rewrite varint_byte, Z.shiftr_div_pow2 in He by lia. change (2 ^ 7) with 128 in He.
    destruct (BinaryWriter.varint_bytes n (v / 128)) as [enc'|] eqn:E; [|done]. injection He as <-.
    apply (reads_bind _ _ [v mod 128 + 128]) with (1 := reads_byte _).
    assert (0 <= v mod 128 < 128) by div_lia.
    replace (7 * Z.of_nat i =? 28) with false by lia.
    rewrite accumulate by done. fold p. cbn [andb].
    replace ((v mod 128 + 128) mod 128) with (v mod 128) by div_lia.
    replace (v mod 128 + 128 <? 128) with false by lia.
    assert (v = 128 * (v / 128) + v mod 128) by div_lia.
    replace (acc + v * p) with (acc + v mod 128 * p + v / 128 * 2 ^ (7 * Z.of_nat (S i))) by nia.
    apply IH; [lia|div_lia|nia|nia|done].
  - injection He as <-. rewrite <- (app_nil_r [v]). eapply reads_bind; [apply reads_byte|].
    replace ((7 * Z.of_nat i =? 28) && (15 <? v)) with false by lia.
    rewrite accumulate by done. fold p. rewrite Z.mod_small by lia.
    replace (v <? 128) with true by lia. apply reads_ret.
Qed.

Lemma reads_get {A} (f : Reader -> M A) enc v :
  (forall pre post depth,
     f (mkReader (pre ++ enc ++ post) depth (Z.of_nat (length pre)))
       (mkReader (pre ++ enc ++ post) depth (Z.of_nat (length pre))) =
     (Ok v, mkReader (pre ++ enc ++ post) depth (Z.of_nat (length pre + length enc)))) ->
  reads (get ≫= f) enc v.
Proof. intros H pre post d. apply H. Qed.

(** The reader after reading [enc]. *)
Definition reads_at {A} (m : M A) (pre enc : bytes) (v : A) : Prop :=
  forall post depth,
    m (mkReader (pre ++ enc ++ post) depth (Z.of_nat (length pre))) =
    (Ok v, mkReader (pre ++ enc ++ post) depth (Z.of_nat (length pre + length enc))).

(** A written tag reads back as its number and type, with its own offset. *)
Lemma tag_roundtrip n w :
  0 < n <= _MAX_FIELD_NUMBER -> 0 <= w <= 5 ->
  exists enc, (forall self, BinaryWriter.write_tag n w self = Ok (self ++ enc)) /\
  bytes_ok enc = true /\ enc <> [] /\
  forall pre, reads_at BinaryReader.read_tag pre enc (n, w, Z.of_nat (length pre)).
Proof.
  intros Hn Hw. change _MAX_FIELD_NUMBER with 536870911 in *.
  assert (Z.lor (Z.shiftl n 3) w = w + n * 2 ^ 3) as Etag.
  { rewrite Z.lor_comm. apply lor_shiftl; lia. }
  change (2 ^ 3) with 8 in Etag. set (tag := w + n * 8) in *.
  destruct (varint_bytes_total 5 tag) as (enc & He & Hok & Hne); [lia|change (2 ^ _) with 34359738368; lia|].
  exists enc. split; [|split; [done|split; [done|]]].
  - intros self. unfold BinaryWriter.write_tag, BinaryWriter.write_varint.
    change _MAX_FIELD_NUMBER with 536870911. change _MAX_UINT64 with 18446744073709551615.
    unfold WIRE_VARINT, WIRE_FIXED32. rewrite Etag.
    destruct (_ || _) eqn:E1; [lia|]. destruct ((w <? 0) || _) eqn:E2; [lia|].
    destruct ((tag <? 0) || _) eqn:E3; [lia|].
    change 10%nat with (5 + 5)%nat. by rewrite (varint_bytes_mono 5 5 tag enc He).
  - intros pre post d. unfold BinaryReader.read_tag. rewrite bind_unfold. cbn [get _pos].
    rewrite bind_unfold.
    rewrite (reads_tag_loop 5 0 0 tag enc) with (5 := He); [|lia|lia|simpl; lia|].
    + replace (0 + tag * 2 ^ (7 * Z.of_nat 0)) with tag by (simpl; lia). cbv zeta.
      rewrite Z.shiftr_div_pow2 by lia. change (2 ^ 3) with 8.
      rewrite land_7.
      replace (tag / 8) with n by div_lia. replace (tag mod 8) with w by div_lia.
      change _MAX_FIELD_NUMBER with 536870911. unfold WIRE_FIXED32.
      destruct (_ || _) eqn:E1; [lia|]. destruct (5 <? w) eqn:E2; [lia|done].
    + change (2 ^ 32) with 4294967296. simpl (2 ^ _). lia.
Qed.

(** ** Codecs *)

Class Codec {A} (w : W A) (rd : M A) (dom : A -> bool) : Prop := {
  codec_in v : dom v = true ->
    exists enc, (forall self, w v self = Ok (self ++ enc)) /\ reads rd enc v /\
      bytes_ok enc = true /\ enc <> [];
  codec_out v self : dom v = false -> is_Ok (w v self) = false
}.

(** A codec for another representation of the values. *)
Lemma codec_via {A B} (w : W A) (rd : M A) dom (w' : W B) (dom' : B -> bool) (f : B -> A) (g : A -> B) :
  Codec w rd dom ->
  (forall v, dom' v = true -> dom (f v) = true /\ g (f v) = v /\ forall self, w' v self = w (f v) self) ->
  (forall v self, dom' v = false -> is_Ok (w' v self) = false) ->
  Codec w' (x ← rd; mret (g x)) dom'.
Proof.
  intros Hc Hin Hout. split; [|done]. intros v Hv. destruct (Hin v Hv) as (Hd & Hg & Hw).
  destruct (codec_in (f v) Hd) as (enc & He & Hr & Hok & Hne). exists enc. split_and!; try done.
  - intros self. by rewrite Hw.
  - rewrite <- Hg at 1. by apply reads_bind_ret.
Qed.

Definition in_range (lo hi v : Z) : bool := (lo <=? v) && (v <? hi).

#[export] Instance uint64_codec :
  Codec BinaryWriter.write_uint64 BinaryReader.read_uint64 (in_range 0 (2 ^ 64)).
Proof.
  unfold in_range, BinaryWriter.write_uint64, BinaryWriter.write_varint, BinaryReader.read_uint64.
  split; intros v; [intros Hv|intros self Hv].
  - destruct (varint_bytes_total 10 v) as (enc & He & Hok & Hne); [lia|change (2 ^ _) with (64 * 2 ^ 64); lia|].
    exists enc. split_and!; try done.
    + intros self. rewrite max_uint64, He. destruct (_ || _) eqn:E; [lia|done].
    + replace v with (0 + v * 2 ^ (7 * Z.of_nat 0)) by (simpl; lia).
      apply (reads_varint_loop 10 0 0 v enc); [lia|simpl; lia|simpl (2 ^ (7 * _)); lia|done].
  - rewrite max_uint64. destruct (_ || _) eqn:E; [done|lia].
Qed.

(** The writers that reduce an integer modulo a power of two. *)
Ltac codec_via_uint64 F G :=
  unfold in_range;
  eapply (codec_via _ _ _ _ _ F G uint64_codec); unfold in_range;
  [intros v Hv; split_and!
  |intros v self Hv; match goal with |- is_Ok (?w v self) = _ => unfold w end;
   rewrite ?Z.shiftl_1_l, ?max_uint32;
   match goal with |- context [if ?b then _ else _] => destruct b eqn:E end; [done|lia]].

#[export] Instance int32_codec :
  Codec BinaryWriter.write_int32 BinaryReader.read_int32 (in_range (- 2 ^ 31) (2 ^ 31)).
Proof.
  codec_via_uint64 (fun v => v mod 2 ^ 64) (fun v => _signed v 32).
  - pose proof (Z.mod_pos_bound v (2 ^ 64)). lia.
  - apply signed_mod; [lia|]. change (32 - 1) with 31. lia.
  - intros self. unfold BinaryWriter.write_int32. change (Z.shiftl 1 31) with (2 ^ 31).
    destruct (negb _) eqn:E; [lia|]. by rewrite max_uint64, land_mask.
Qed.

#[export] Instance int64_codec :
  Codec BinaryWriter.write_int64 BinaryReader.read_int64 (in_range (- 2 ^ 63) (2 ^ 63)).
Proof.
  codec_via_uint64 (fun v => v mod 2 ^ 64) (fun v => _signed v 64).
  - pose proof (Z.mod_pos_bound v (2 ^ 64)). lia.
  - apply signed_mod; [lia|]. change (64 - 1) with 63. lia.
  - intros self. unfold BinaryWriter.write_int64. change (Z.shiftl 1 63) with (2 ^ 63).
    destruct (negb _) eqn:E; [lia|]. by rewrite max_uint64, land_mask.
Qed.

#[export] Instance uint32_codec :
  Codec BinaryWriter.write_uint32 BinaryReader.read_uint32 (in_range 0 (2 ^ 32)).
Proof.
  codec_via_uint64 (fun v : Z => v) (fun v => Z.land v _MAX_UINT32).
  - lia.
  - rewrite max_uint32, land_mask, Z.mod_small; lia.
  - intros self. unfold BinaryWriter.write_uint32. rewrite max_uint32.
    destruct (negb _) eqn:E; [lia|done].
Qed.

#[export] Instance sint32_codec :
  Codec BinaryWriter.write_sint32 BinaryReader.read_sint32 (in_range (- 2 ^ 31) (2 ^ 31)).
Proof.
  codec_via_uint64 zigzag (fun v => _signed (_zigzag_decode (Z.land v _MAX_UINT32)) 32).
  - destruct (zigzag_encode v 32); [lia|change (32 - 1) with 31; lia|lia].
  - destruct (zigzag_encode v 32) as [_ Hz]; [lia|change (32 - 1) with 31; lia|].
    rewrite max_uint32, land_mask, Z.mod_small, zigzag_decode by lia.
    rewrite signed_spec, Z.mod_small by lia. lia.
  - intros self. unfold BinaryWriter.write_sint32. change (Z.shiftl 1 31) with (2 ^ 31).
    destruct (negb _) eqn:E; [lia|]. rewrite max_uint32.
    destruct (zigzag_encode v 32) as [Hz _]; [lia|change (32 - 1) with 31; lia|].
    change (32 - 1) with 31 in Hz. by rewrite Hz.
Qed.

#[export] Instance sint64_codec :
  Codec BinaryWriter.write_sint64 BinaryReader.read_sint64 (in_range (- 2 ^ 63) (2 ^ 63)).
Proof.
  codec_via_uint64 zigzag (fun v => _signed (_zigzag_decode v) 64).
  - destruct (zigzag_encode v 64); [lia|change (64 - 1) with 63; lia|lia].
  - rewrite zigzag_decode, signed_spec, Z.mod_small by lia. lia.
  - intros self. unfold BinaryWriter.write_sint64. change (Z.shiftl 1 63) with (2 ^ 63).
    destruct (negb _) eqn:E; [lia|]. rewrite max_uint64.
    destruct (zigzag_encode v 64) as [Hz _]; [lia|change (64 - 1) with 63; lia|].
    change (64 - 1) with 63 in Hz. by rewrite Hz.
Qed.

#[export] Instance bool_codec :
  Codec BinaryWriter.write_bool BinaryReader.read_bool (fun _ => true).
Proof.
  apply (codec_via _ _ _ _ _ (fun b : bool => if b then 1 else 0) (fun v => negb (v =? 0)) uint64_codec).
  - by intros [] _.
  - done.
Qed.

(** Integers of [n] bytes. *)
Lemma pack_codec lo hi n (g : Z -> Z) :
  (0 < n)%nat -> (forall v, lo <= v < hi -> g (v mod 2 ^ (8 * Z.of_nat n)) = v) ->
  Codec (BinaryWriter.pack lo hi n)
    (b ← BinaryReader._read_exact (Z.of_nat n); mret (g (le_value b))) (in_range lo hi).
Proof.
  intros Hn Hg. unfold BinaryWriter.pack, in_range. split; intros v; [intros Hv|intros self Hv].
  - exists (le_bytes n v). split_and!.
    + intros self. by rewrite Hv.
    + rewrite <- (Hg v) at 2 by lia. rewrite <- le_value_bytes.
      apply (reads_bind_ret _ (fun b => g (le_value b))).
      rewrite <- (le_bytes_length n v) at 1. apply reads_exact.
    + apply le_bytes_ok.
    + by destruct n; [lia|].
  - by rewrite Hv.
Qed.

#[export] Instance fixed32_codec :
  Codec BinaryWriter.write_fixed32 BinaryReader.read_fixed32 (in_range 0 (2 ^ 32)).
Proof. apply (pack_codec _ _ 4 (fun v => v)); [lia|]. intros v Hv. apply Z.mod_small. done. Qed.

#[export] Instance sfixed32_codec :
  Codec BinaryWriter.write_sfixed32 BinaryReader.read_sfixed32 (in_range (- 2 ^ 31) (2 ^ 31)).
Proof. apply (pack_codec _ _ 4 (fun v => _signed v 32)); [lia|]. intros v Hv. apply signed_mod; [lia|done]. Qed.

#[export] Instance fixed64_codec :
  Codec BinaryWriter.write_fixed64 BinaryReader.read_fixed64 (in_range 0 (2 ^ 64)).
Proof. apply (pack_codec _ _ 8 (fun v => v)); [lia|]. intros v Hv. apply Z.mod_small. done. Qed.

#[export] Instance sfixed64_codec :
  Codec BinaryWriter.write_sfixed64 BinaryReader.read_sfixed64 (in_range (- 2 ^ 63) (2 ^ 63)).
Proof. apply (pack_codec _ _ 8 (fun v => _signed v 64)); [lia|]. intros v Hv. apply signed_mod; [lia|done]. Qed.

#[export] Instance double_codec :
  Codec BinaryWriter.write_double BinaryReader.read_double (in_range 0 (2 ^ 64)).
Proof. apply (pack_codec _ _ 8 (fun v => v)); [lia|]. intros v Hv. apply Z.mod_small. done. Qed.

(** Length-delimited values; a Python object is never as long as [2 ^ 64]. *)
Definition bytes_dom (b : bytes) : bool := bytes_ok b && (Z.of_nat (length b) <? 2 ^ 64).

Lemma write_bytes_enc b :
  Z.of_nat (length b) < 2 ^ 64 ->
  exists hd, (forall self, BinaryWriter.write_bytes b self = Ok (self ++ hd ++ b)) /\
    reads BinaryReader.read_varint hd (Z.of_nat (length b)) /\ bytes_ok hd = true /\ hd <> [].
Proof.
  intros Hl. destruct (codec_in (Codec := uint64_codec) (Z.of_nat (length b))) as (hd & Hw & Hr & Hok & Hne).
  { unfold in_range. lia. }
  exists hd. split_and!; try done. intros self. unfold BinaryWriter.write_bytes.
  unfold BinaryWriter.write_uint64 in Hw. rewrite Hw. cbn [mbind result_bind]. by rewrite app_assoc.
Qed.

Lemma write_bytes_long b self :
  2 ^ 64 <= Z.of_nat (length b) -> is_Ok (BinaryWriter.write_bytes b self) = false.
Proof.
  intros Hl. unfold BinaryWriter.write_bytes.
  assert (is_Ok (BinaryWriter.write_uint64 (Z.of_nat (length b)) self) = false) as Hw
    by (apply (codec_out (Codec := uint64_codec)); unfold in_range; lia).
  unfold BinaryWriter.write_uint64 in Hw. by destruct (BinaryWriter.write_varint _ _).
Qed.

Lemma reads_bytes b :
  Z.of_nat (length b) < 2 ^ 64 ->
  exists enc, (forall self, BinaryWriter.write_bytes b self = Ok (self ++ enc)) /\
    reads BinaryReader.read_bytes enc b /\ enc <> [] /\
    (bytes_ok b = true -> bytes_ok enc = true).
Proof.
  intros Hl. destruct (write_bytes_enc b Hl) as (hd & Hw & Hr & Hok & Hne).
  exists (hd ++ b). split_and!; [done| | |].
  - eapply reads_bind; [exact Hr|apply reads_exact].
  - by destruct hd.
  - intros Hb. by rewrite bytes_ok_app, Hok, Hb.
Qed.

(** Strings: exactly the texts of Unicode scalar values can be written. *)
Definition string_dom (s : pystr) : bool :=
  match utf8_encode s with Some b => Z.of_nat (length b) <? 2 ^ 64 | None => false end.

#[export] Instance string_codec :
  Codec BinaryWriter.write_string BinaryReader.read_string string_dom.
Proof.
  unfold string_dom, BinaryWriter.write_string. split; intros s; [intros Hs|intros self Hs];
    destruct (utf8_encode s) as [b|] eqn:Eb; try done.
  - destruct (reads_bytes b) as (enc & Hw & Hr & Hne & Hok); [lia|].
    exists enc. split_and!; try done; [|by apply Hok; eapply utf8_encode_ok].
    rewrite <- (app_nil_r enc). eapply reads_bind; [exact Hr|].
    rewrite (utf8_decode_encode _ _ Eb). apply reads_ret.
  - apply write_bytes_long. lia.
Qed.

(** *** Packed fields *)

Lemma write_all_enc {A} (w : W A) (rd : M A) dom `{!Codec w rd dom} vs :
  forallb dom vs = true ->
  exists encs, Forall2 (fun v enc => reads rd enc v /\ enc <> []) vs encs /\
    forall self, BinaryWriter.write_all w vs self = Ok (self ++ concat encs).
Proof.
  induction vs as [|v vs IH]; simpl.
  - intros _. exists []. split; [constructor|]. intros self. by rewrite app_nil_r.
  - intros [Hv Hvs]%andb_true_iff. destruct (IH Hvs) as (encs & Hf & Hw).
    destruct (codec_in v Hv) as (enc & He & Hr & _ & Hne). exists (enc :: encs).
    split; [by constructor|]. intros self. rewrite He. cbn [mbind result_bind].
    by rewrite Hw, <- app_assoc.
Qed.

Lemma packed_loop_reads {A} (rd : M A) vs encs :
  Forall2 (fun v enc => reads rd enc v /\ enc <> []) vs encs ->
  forall fuel pre post depth acc,
  (length (concat encs) <= fuel)%nat ->
  BinaryReader.packed_loop fuel (Z.of_nat (length pre + length (concat encs))) rd acc
    (mkReader (pre ++ concat encs ++ post) depth (Z.of_nat (length pre))) =
  (Ok (acc ++ vs),
   mkReader (pre ++ concat encs ++ post) depth (Z.of_nat (length pre + length (concat encs)))).
Proof.
  induction 1 as [|v enc vs encs [Hr Hne] Hf IH]; intros fuel pre post d acc Hfuel.
  - simpl. rewrite Nat.add_0_r, app_nil_r.
    destruct fuel; cbn [BinaryReader.packed_loop _pos]; by rewrite Z.ltb_irrefl.
  - cbn [concat] in *. rewrite length_app in *.
    assert (0 < length enc)%nat by (destruct enc; [done|simpl; lia]).
    destruct fuel as [|fuel]; [lia|]. cbn [BinaryReader.packed_loop _pos].
    destruct (_ <? _) eqn:E; [clear E|lia]. rewrite <- app_assoc, Hr. cbn [_pos].
    destruct (_ || _) eqn:E; [lia|clear E].
    specialize (IH fuel (pre ++ enc) post d (acc ++ [v])).
    rewrite length_app, <- !app_assoc in IH. rewrite Nat.add_assoc. by rewrite IH by lia.
Qed.

Lemma packed_roundtrip {A} (w : W A) (rd : M A) dom `{!Codec w rd dom} vs nested :
  forallb dom vs = true -> BinaryWriter.write_all w vs BinaryWriter.init = Ok nested ->
  Z.of_nat (length nested) < 2 ^ 64 ->
  exists enc, (forall self, BinaryWriter.write_packed vs w self = Ok (self ++ enc)) /\
    reads (BinaryReader.read_packed rd) enc vs.
Proof.
  intros Hd Hn Hl. destruct (write_all_enc w rd dom vs Hd) as (encs & Hf & Hw).
  rewrite Hw in Hn. injection Hn as <-. cbn [app BinaryWriter.init] in Hl.
  destruct (write_bytes_enc _ Hl) as (hd & Hwb & Hr & _ & _).
  exists (hd ++ concat encs). split.
  - intros self. unfold BinaryWriter.write_packed. rewrite Hw. cbn [mbind result_bind].
    apply Hwb.
  - eapply reads_bind; [exact Hr|]. apply reads_get. intros pre post d. cbn [_pos _data].
    rewrite !length_app, <- Nat2Z.inj_add. destruct (_ <? _) eqn:E; [lia|clear E].
    apply (packed_loop_reads rd vs encs Hf _ pre post d []). lia.
Qed.
