(* ===== verification/WireSkip.v ===== *)
(** * Unknown fields

    A reader that does not know a field keeps its bytes: [skip_field] walks
    over the value, nested groups included, and returns the encoding.  The
    fields a writer can produce are the trees of [ufield]; the theorem is that
    skipping one returns exactly the bytes written for it when its groups are
    not nested deeper than the limit, and raises [DecodeError] otherwise. *)
From S2P Require Import Prelude PyStr Json Bytes Wire WireSpec.

#[local] Unset Elimination Schemes.
Inductive ufield : Type :=
| UVarint (n v : Z)
| UFixed64 (n v : Z)
| UBytes (n : Z) (b : bytes)
| UGroup (n : Z) (fs : list ufield)
| UFixed32 (n v : Z).
#[local] Set Elimination Schemes.

Lemma ufield_ind (P : ufield -> Prop) :
  (forall n v, P (UVarint n v)) -> (forall n v, P (UFixed64 n v)) -> (forall n b, P (UBytes n b)) ->
  (forall n fs, Forall P fs -> P (UGroup n fs)) -> (forall n v, P (UFixed32 n v)) ->
  forall f, P f.
Proof.
  intros H1 H2 H3 H4 H5. fix IH 1. intros [| | |n fs|]; [apply H1|apply H2|apply H3| |apply H5].
  apply H4. induction fs as [|f fs IHfs]; constructor; [apply IH|exact IHfs].
Qed.

(** Writing a field with the primitives of the writer. *)
Fixpoint write_field (f : ufield) (self : bytes) : result wire_error bytes :=
  match f with
  | UVarint n v =>
      self ← BinaryWriter.write_tag n WIRE_VARINT self; BinaryWriter.write_varint v self
  | UFixed64 n v =>
      self ← BinaryWriter.write_tag n WIRE_FIXED64 self; BinaryWriter.write_fixed64 v self
  | UBytes n b =>
      self ← BinaryWriter.write_tag n WIRE_LENGTH_DELIMITED self; BinaryWriter.write_bytes b self
  | UGroup n fs =>
      self ← BinaryWriter.write_tag n WIRE_START_GROUP self;
      self ← foldl (fun acc f => self ← acc; write_field f self) (Ok self) fs;
      BinaryWriter.write_tag n WIRE_END_GROUP self
  | UFixed32 n v =>
      self ← BinaryWriter.write_tag n WIRE_FIXED32 self; BinaryWriter.write_fixed32 v self
  end.

Definition number (f : ufield) : Z :=
  match f with UVarint n _ | UFixed64 n _ | UBytes n _ | UGroup n _ | UFixed32 n _ => n end.

(** The nesting of groups. *)
Fixpoint group_depth (f : ufield) : nat :=
  match f with
  | UGroup _ fs => S (foldr (fun f n => max (group_depth f) n) 0%nat fs)
  | _ => 0%nat
  end.

Definition fields_depth (fs : list ufield) : nat := foldr (fun f n => max (group_depth f) n) 0%nat fs.

(** The fields that can be written. *)
Fixpoint ufield_ok (f : ufield) : bool :=
  in_range 1 (_MAX_FIELD_NUMBER + 1) (number f) &&
  match f with
  | UVarint _ v | UFixed64 _ v => in_range 0 (2 ^ 64) v
  | UFixed32 _ v => in_range 0 (2 ^ 32) v
  | UBytes _ b => Z.of_nat (length b) <? 2 ^ 64
  | UGroup _ fs => forallb ufield_ok fs
  end.

(** Reading a field of any kind as unknown. *)
Definition read_unknown : M bytes :=
  t ← BinaryReader.read_tag;
  let '(n, w, tag_start) := t in
  BinaryReader.skip_field n w tag_start.

(** ** Flat values *)

Lemma tag_enc n w :
  in_range 1 (_MAX_FIELD_NUMBER + 1) n = true -> 0 <= w <= 5 ->
  exists enc, (forall self, BinaryWriter.write_tag n w self = Ok (self ++ enc)) /\ enc <> [] /\
  forall pre, reads_at BinaryReader.read_tag pre enc (n, w, Z.of_nat (length pre)).
Proof.
  unfold in_range. intros Hn Hw.
  destruct (tag_roundtrip n w) as (enc & H1 & _ & H2 & H3); [lia|lia|eauto].
Qed.

(** What is known of the encoding of a field that is not a group: a tag and a
    value that [_skip_value] passes. *)
Definition flat (f : ufield) : Prop :=
  exists w tag val, w <> WIRE_START_GROUP /\ w <> WIRE_END_GROUP /\ tag <> [] /\
  (forall self, write_field f self = Ok (self ++ tag ++ val)) /\
  (forall pre, reads_at BinaryReader.read_tag pre tag (number f, w, Z.of_nat (length pre))) /\
  forall fuel, reads (BinaryReader._skip_value fuel (number f) w) val ().

Lemma skip_bytes_reads b hd :
  reads BinaryReader.read_varint hd (Z.of_nat (length b)) ->
  reads (n ← BinaryReader.read_varint; _ ← BinaryReader._read_exact n; mret ()) (hd ++ b) ().
Proof.
  intros Hr. eapply reads_bind; [exact Hr|]. apply (reads_bind_ret _ (fun _ => ()) _ b), reads_exact.
Qed.

Lemma codec_skip {A} (w : W A) (rd : M A) dom `{!Codec w rd dom} v :
  dom v = true ->
  exists enc, (forall self, w v self = Ok (self ++ enc)) /\ reads (_ ← rd; mret ()) enc ().
Proof.
  intros Hv. destruct (codec_in v Hv) as (enc & He & Hr & _). exists enc. split; [done|].
  by apply (reads_bind_ret _ (fun _ => ()) _ v).
Qed.

(** Fixed-width values. *)
Lemma pack_skip lo hi n v :
  in_range lo hi v = true ->
  exists enc, (forall self, BinaryWriter.pack lo hi n v self = Ok (self ++ enc)) /\
    reads (_ ← BinaryReader._read_exact (Z.of_nat n); mret ()) enc ().
Proof.
  unfold in_range, BinaryWriter.pack. intros Hv. exists (le_bytes n v). split.
  - intros self. by rewrite Hv.
  - apply (reads_bind_ret _ (fun _ => ()) _ (le_bytes n v)).
    rewrite <- (le_bytes_length n v) at 1. apply reads_exact.
Qed.

Lemma flat_mk f w (wv : bytes -> result wire_error bytes) (val : bytes) :
  in_range 1 (_MAX_FIELD_NUMBER + 1) (number f) = true -> 0 <= w <= 5 ->
  w <> WIRE_START_GROUP -> w <> WIRE_END_GROUP ->
  (forall self, write_field f self = self ← BinaryWriter.write_tag (number f) w self; wv self) ->
  (forall self, wv self = Ok (self ++ val)) ->
  (forall fuel, reads (BinaryReader._skip_value fuel (number f) w) val ()) -> flat f.
Proof.
  intros Hn Hw H3 H4 Hf Hv Hr. destruct (tag_enc _ w Hn Hw) as (tag & Ht & Hne & Hrt).
  exists w, tag, val. split_and!; try done.
  intros self. rewrite Hf, Ht. cbn [mbind result_bind]. by rewrite Hv, app_assoc.
Qed.

Lemma flat_ok f : ufield_ok f = true -> group_depth f = 0%nat -> flat f.
Proof.
  intros Hok Hd. destruct f as [n v|n v|n b|n fs|n v]; [..|done|]; simpl in Hok;
    apply andb_true_iff in Hok as [Hn Hv].
  - destruct (codec_skip _ _ _ (Codec0 := uint64_codec) v Hv) as (enc & Hw & Hr).
    eapply (flat_mk _ WIRE_VARINT); try done. by intros [].
  - destruct (pack_skip 0 (2 ^ 64) 8 v Hv) as (enc & Hw & Hr).
    eapply (flat_mk _ WIRE_FIXED64); try done. by intros [].
  - destruct (write_bytes_enc b) as (hd & Hw & Hr & _ & _); [lia|].
    eapply (flat_mk _ WIRE_LENGTH_DELIMITED _ (hd ++ b)); try done.
    intros []; by apply skip_bytes_reads.
  - destruct (pack_skip 0 (2 ^ 32) 4 v Hv) as (enc & Hw & Hr).
    eapply (flat_mk _ WIRE_FIXED32); try done. by intros [].
Qed.

(** ** Fields inside a group *)

Definition too_deep : wire_error :=
  DecodeError "protobuf group nesting exceeds the configured limit".

(** The reader of [pre ++ enc ++ post] before and after [enc]. *)
Definition before (pre enc post : bytes) (md : Z) : Reader :=
  mkReader (pre ++ enc ++ post) md (Z.of_nat (length pre)).
Definition after (pre enc post : bytes) (md : Z) : Reader :=
  mkReader (pre ++ enc ++ post) md (Z.of_nat (length pre + length enc)).

Lemma before_app pre e1 e2 post md :
  before pre (e1 ++ e2) post md = before pre e1 (e2 ++ post) md.
Proof. unfold before. by rewrite <- app_assoc. Qed.

Lemma after_before pre e1 e2 post md :
  after pre e1 (e2 ++ post) md = before (pre ++ e1) e2 post md.
Proof. unfold after, before. by rewrite <- app_assoc, length_app. Qed.

Lemma after_app pre e1 e2 post md :
  after (pre ++ e1) e2 post md = after pre (e1 ++ e2) post md.
Proof. unfold after. by rewrite <- !app_assoc, !length_app, Nat.add_assoc. Qed.

(** The walk over [enc] inside open groups: it ends behind [enc] when the
    nesting [d] fits the limit, and raises when it does not. *)
Record walks (enc : bytes) (d : nat) : Prop := {
  w_pass : exists k, (k <= length enc)%nat /\
    forall groups F pre post md, groups <> [] -> Z.of_nat (length groups + d) <= md ->
    BinaryReader.skip_group_loop (k + F) groups (before pre enc post md) =
    BinaryReader.skip_group_loop F groups (after pre enc post md);
  w_fail : forall groups fuel pre post md, groups <> [] -> (length enc <= fuel)%nat ->
    Z.of_nat (length groups) <= md < Z.of_nat (length groups + d) ->
    exists r', BinaryReader.skip_group_loop fuel groups (before pre enc post md) = (Raise too_deep, r')
}.

(** One iteration on a tag. *)
Lemma loop_tag fuel g outer tag rest n w pre post md :
  reads_at BinaryReader.read_tag pre tag (n, w, Z.of_nat (length pre)) ->
  BinaryReader.skip_group_loop (S fuel) (g :: outer) (before pre (tag ++ rest) post md) =
  (if w =? WIRE_START_GROUP then
     self ← get;
     if _max_depth self <=? Z.of_nat (length (g :: outer)) then throw too_deep
     else BinaryReader.skip_group_loop fuel (n :: g :: outer)
   else if w =? WIRE_END_GROUP then
     if n =? g then BinaryReader.skip_group_loop fuel outer
     else throw (DecodeError "mismatched protobuf end-group tag")
   else _ ← BinaryReader._skip_value fuel n w; BinaryReader.skip_group_loop fuel (g :: outer))
  (before (pre ++ tag) rest post md).
Proof.
  intros Ht. rewrite before_app. cbn [BinaryReader.skip_group_loop]. rewrite bind_unfold.
  unfold before at 1. rewrite Ht. fold (after pre tag (rest ++ post) md). by rewrite after_before.
Qed.

Lemma flat_walks f : flat f -> exists enc,
  (forall self, write_field f self = Ok (self ++ enc)) /\ enc <> [] /\ walks enc 0.
Proof.
  intros (w & tag & val & H3 & H4 & Hne & Hw & Ht & Hr). exists (tag ++ val).
  split; [done|]. split; [by destruct tag|].
  assert (1 <= length tag)%nat by (destruct tag; [done|simpl; lia]). split.
  - exists 1%nat. split; [rewrite length_app; lia|]. intros [|g outer] F pre post md Hg Hd; [done|].
    cbn [Nat.add]. rewrite (loop_tag _ _ _ _ _ _ _ _ _ _ (Ht pre)).
    replace (w =? WIRE_START_GROUP) with false by lia. replace (w =? WIRE_END_GROUP) with false by lia.
    rewrite bind_unfold. unfold before. rewrite (Hr F (pre ++ tag) post md).
    fold (after (pre ++ tag) val post md). by rewrite after_app.
  - intros. lia.
Qed.

Lemma walks_nil : walks [] 0.
Proof.
  split.
  - exists 0%nat. split; [done|]. intros. cbn [Nat.add]. unfold before, after. simpl.
    by rewrite Nat.add_0_r.
  - intros. lia.
Qed.

Lemma walks_app e1 e2 d1 d2 : walks e1 d1 -> walks e2 d2 -> walks (e1 ++ e2) (max d1 d2).
Proof.
  intros [(k1 & Hk1 & Hp1) Hf1] [(k2 & Hk2 & Hp2) Hf2]. split.
  - exists (k1 + k2)%nat. split; [rewrite length_app; lia|]. intros groups F pre post md Hg Hd.
    rewrite before_app, <- Nat.add_assoc, Hp1 by (done || lia).
    by rewrite after_before, Hp2, after_app by (done || lia).
  - intros groups fuel pre post md Hg Hfuel Hd. rewrite length_app in Hfuel. rewrite before_app.
    destruct (decide (md < Z.of_nat (length groups + d1))); [apply Hf1; [done|lia|lia]|].
    replace fuel with (k1 + (fuel - k1))%nat by lia. rewrite Hp1 by (done || lia).
    rewrite after_before. apply Hf2; [done|lia|lia].
Qed.

(** A nested group. *)
Lemma walks_group n tag body end_tag d :
  tag <> [] -> end_tag <> [] ->
  (forall pre, reads_at BinaryReader.read_tag pre tag (n, WIRE_START_GROUP, Z.of_nat (length pre))) ->
  (forall pre, reads_at BinaryReader.read_tag pre end_tag (n, WIRE_END_GROUP, Z.of_nat (length pre))) ->
  walks body d -> walks (tag ++ body ++ end_tag) (S d).
Proof.
  intros Hne1 Hne2 Ht He [(k & Hk & Hp) Hf].
  assert (1 <= length tag)%nat by (destruct tag; [done|simpl; lia]).
  assert (1 <= length end_tag)%nat by (destruct end_tag; [done|simpl; lia]). split.
  - exists (S (k + 1)). split; [rewrite !length_app; lia|].
    intros [|g outer] F pre post md Hg Hd; [done|]. cbn [length] in Hd. cbn [Nat.add].
    rewrite (loop_tag _ _ _ _ _ _ _ _ _ _ (Ht pre)). cbn [Z.eqb].
    replace (WIRE_START_GROUP =? WIRE_START_GROUP) with true by done.
    rewrite bind_unfold. cbn [get _max_depth before].
    destruct (md <=? _) eqn:E; [cbn [length] in E; lia|clear E].
    fold (before (pre ++ tag) (body ++ end_tag) post md).
    rewrite before_app, <- Nat.add_assoc, Hp by (done || (cbn [length]; lia)).
    rewrite after_before, <- (app_nil_r end_tag) at 1. cbn [Nat.add].
    rewrite (loop_tag _ _ _ _ _ _ _ _ _ _ (He _)).
    replace (WIRE_END_GROUP =? WIRE_START_GROUP) with false by done.
    replace (WIRE_END_GROUP =? WIRE_END_GROUP) with true by done. rewrite Z.eqb_refl. f_equal.
    unfold before, after. rewrite <- !app_assoc, !length_app. f_equal; lia.
  - intros [|g outer] fuel pre post md Hg Hfuel Hd; [done|]. rewrite !length_app in Hfuel.
    destruct fuel as [|fuel]; [lia|]. rewrite (loop_tag _ _ _ _ _ _ _ _ _ _ (Ht pre)).
    replace (WIRE_START_GROUP =? WIRE_START_GROUP) with true by done.
    rewrite bind_unfold. cbn [get _max_depth before].
    destruct (md <=? _) eqn:E; [by eexists|].
    fold (before (pre ++ tag) (body ++ end_tag) post md). rewrite before_app.
    cbn [length] in *. apply Hf; cbn [length]; (done || lia).
Qed.

(** What is known of the encoding of a field. *)
Definition encoded (f : ufield) : Prop :=
  exists enc, (forall self, write_field f self = Ok (self ++ enc)) /\ enc <> [] /\
    walks enc (group_depth f).

(** The parts of an encoded group. *)
Lemma group_parts n fs :
  ufield_ok (UGroup n fs) = true -> Forall (fun f => ufield_ok f = true -> encoded f) fs ->
  exists tag body end_tag,
    (forall self, write_field (UGroup n fs) self = Ok (self ++ tag ++ body ++ end_tag)) /\
    tag <> [] /\ end_tag <> [] /\ walks body (fields_depth fs) /\
    (forall pre, reads_at BinaryReader.read_tag pre tag (n, WIRE_START_GROUP, Z.of_nat (length pre))) /\
    (forall pre, reads_at BinaryReader.read_tag pre end_tag (n, WIRE_END_GROUP, Z.of_nat (length pre))).
Proof.
  intros Hok IH. cbn [ufield_ok number] in Hok. apply andb_true_iff in Hok as [Hn Hfs].
  destruct (tag_enc n WIRE_START_GROUP Hn ltac:(done)) as (tag & Ht & Hne1 & Hr1).
  destruct (tag_enc n WIRE_END_GROUP Hn ltac:(done)) as (end_tag & He & Hne2 & Hr2).
  assert (exists body, (forall self, foldl (fun acc f => self ← acc; write_field f self) (Ok self) fs =
      Ok (self ++ body)) /\ walks body (fields_depth fs)) as (body & Hb & Hwb).
  { clear -IH Hfs. induction IH as [|f fs Hf _ IHfs].
    - exists []. split; [intros; simpl; by rewrite app_nil_r|apply walks_nil].
    - cbn [forallb] in Hfs. apply andb_true_iff in Hfs as [H1 H2].
      destruct (Hf H1) as (e1 & Hw1 & _ & Hwalk1). destruct (IHfs H2) as (e2 & Hw2 & Hwalk2).
      exists (e1 ++ e2). split; [|by apply walks_app].
      intros self. cbn [foldl mbind result_bind]. by rewrite Hw1, Hw2, app_assoc. }
  exists tag, body, end_tag. split_and!; try done.
  intros self. cbn [write_field]. rewrite Ht. cbn [mbind result_bind]. rewrite Hb.
  cbn [mbind result_bind]. by rewrite He, <- !app_assoc.
Qed.

Lemma field_encoded f : ufield_ok f = true -> encoded f.
Proof.
  induction f as [n v|n v|n b|n fs IH|n v] using ufield_ind; intros Hok;
    try (by apply flat_walks, flat_ok).
  destruct (group_parts n fs Hok IH) as (tag & body & end_tag & Hw & Hne & ? & ? & ? & ?).
  exists (tag ++ body ++ end_tag). split; [done|]. split; [by destruct tag|].
  by apply (walks_group n).
Qed.

(** ** Whole fields *)

Lemma slice_middle (pre enc post : bytes) :
  slice (pre ++ enc ++ post) (Z.of_nat (length pre)) (Z.of_nat (length pre + length enc)) = enc.
Proof.
  unfold slice.
  replace (Z.to_nat (Z.of_nat (length pre + length enc) - Z.of_nat (length pre)))
    with (length enc) by lia.
  rewrite Nat2Z.id, drop_app_length. apply take_app_length.
Qed.

(** A tag, and [_skip_value] on the rest. *)
Lemma read_unknown_tag pre tag val post md n w :
  reads_at BinaryReader.read_tag pre tag (n, w, Z.of_nat (length pre)) ->
  read_unknown (before pre (tag ++ val) post md) =
  (let r := before (pre ++ tag) val post md in
   _ ← BinaryReader._skip_value (BinaryReader.skip_fuel r) n w;
   self ← get; mret (slice (_data self) (Z.of_nat (length pre)) (_pos self)))
  (before (pre ++ tag) val post md).
Proof.
  intros Ht. unfold read_unknown. rewrite bind_unfold, before_app.
  unfold before at 1. rewrite Ht. fold (after pre tag (val ++ post) md). by rewrite after_before.
Qed.

Lemma skip_group_unfold fuel n r :
  1 <= _max_depth r ->
  BinaryReader._skip_value (S fuel) n WIRE_START_GROUP r = BinaryReader.skip_group_loop fuel [n] r.
Proof.
  intros Hd. cbn [BinaryReader._skip_value Z.eqb WIRE_START_GROUP WIRE_VARINT WIRE_FIXED64
    WIRE_LENGTH_DELIMITED Pos.eqb]. rewrite bind_unfold. cbn [get].
  by destruct (_ <? 1) eqn:E; [lia|].
Qed.

Lemma skip_group_zero fuel n r :
  _max_depth r < 1 -> BinaryReader._skip_value (S fuel) n WIRE_START_GROUP r = (Raise too_deep, r).
Proof.
  intros Hd. cbn [BinaryReader._skip_value Z.eqb WIRE_START_GROUP WIRE_VARINT WIRE_FIXED64
    WIRE_LENGTH_DELIMITED Pos.eqb]. rewrite bind_unfold. cbn [get].
  by destruct (_ <? 1) eqn:E; [|lia].
Qed.

Lemma skip_fuel_before pre enc post md :
  BinaryReader.skip_fuel (before pre enc post md) = S (S (length (enc ++ post))).
Proof.
  unfold BinaryReader.skip_fuel, BinaryReader.remaining, before. cbn [_data _pos].
  rewrite !length_app. do 2 f_equal. lia.
Qed.

(** An encoded field, read as unknown. *)
Lemma read_unknown_spec f :
  ufield_ok f = true ->
  exists enc, (forall self, write_field f self = Ok (self ++ enc)) /\
  forall pre post md,
    (Z.of_nat (group_depth f) <= md ->
       read_unknown (before pre enc post md) = (Ok enc, after pre enc post md)) /\
    (0 <= md < Z.of_nat (group_depth f) ->
       exists r', read_unknown (before pre enc post md) = (Raise too_deep, r')).
Proof.
  intros Hok. destruct (decide (group_depth f = 0%nat)) as [Hd|Hd].
  - destruct (flat_ok f Hok Hd) as (w & tag & val & H3 & H4 & Hne & Hw & Ht & Hr).
    exists (tag ++ val). split; [done|]. intros pre post md. split; [|lia]. intros _.
    rewrite (read_unknown_tag _ _ _ _ _ _ _ (Ht pre)). cbv zeta. rewrite bind_unfold.
    unfold before at 2. rewrite Hr. fold (after (pre ++ tag) val post md).
    rewrite after_app, bind_unfold. cbn [get]. unfold mret, M_ret, after. cbn [_data _pos].
    by rewrite slice_middle.
  - destruct f as [| | |n fs|]; try done. cbn [group_depth] in *. fold (fields_depth fs) in *.
    destruct (group_parts n fs Hok) as (tag & body & end_tag & Hw & Hne & Hne2 & [(k & Hk & Hp) Hf] & Ht & He).
    { apply Forall_forall. intros f _. apply field_encoded. }
    exists (tag ++ body ++ end_tag). split; [done|]. intros pre post md.
    rewrite (read_unknown_tag _ _ _ _ _ _ _ (Ht pre)). cbv zeta. rewrite bind_unfold, skip_fuel_before.
    set (r := before (pre ++ tag) (body ++ end_tag) post md).
    assert (1 <= length end_tag)%nat by (destruct end_tag; [done|simpl; lia]).
    split; intros Hmd.
    + rewrite skip_group_unfold by (cbn; lia). unfold r. rewrite before_app.
      replace (S (length ((body ++ end_tag) ++ post)))
        with (k + S (length ((body ++ end_tag) ++ post) - k))%nat by (rewrite !length_app; lia).
      rewrite Hp by (done || (cbn [length]; lia)).
      generalize (length ((body ++ end_tag) ++ post) - k)%nat. intros F.
      rewrite after_before, <- (app_nil_r end_tag) at 1.
      rewrite (loop_tag _ _ _ _ _ _ _ _ _ _ (He _)).
      replace (WIRE_END_GROUP =? WIRE_START_GROUP) with false by done.
      replace (WIRE_END_GROUP =? WIRE_END_GROUP) with true by done. rewrite Z.eqb_refl.
      destruct F; cbn [BinaryReader.skip_group_loop];
        unfold mret, M_ret; rewrite bind_unfold; cbn [get].
      all: replace (before ((((pre ++ tag) ++ body) ++ end_tag)) [] post md)
        with (after pre (tag ++ body ++ end_tag) post md)
        by (unfold before, after; rewrite <- !app_assoc, !length_app; f_equal; lia).
      all: unfold after; cbn [_data _pos]; by rewrite slice_middle.
    + destruct (decide (md < 1)).
      * rewrite skip_group_zero by (cbn; lia). by eexists.
      * rewrite skip_group_unfold by (cbn; lia). unfold r. rewrite before_app.
        destruct (Hf [n] (S (length ((body ++ end_tag) ++ post))) (pre ++ tag) (end_tag ++ post) md)
          as [r' ->]; [done|rewrite !length_app; lia|cbn [length]; lia|]. by eexists.
Qed.
