(* ===== verification/WireTheorems.v ===== *)
(** * The wire format: the theorems

    The properties of [src/nebius/base/protos/wire.py], with instances at
    concrete bytes. *)
From S2P Require Import Prelude PyStr Json Bytes Wire WireSpec WireSkip.

(** On any input, every primitive read, packed reads of such reads and
    skipping ends (the loops never run out of their fuel), leaves the data
    and the limit alone, never moves back and never leaves the data. *)
Theorem wire_reads_steady :
  Steady BinaryReader.read_varint /\ Steady BinaryReader.read_tag /\
  Steady BinaryReader.read_bytes /\ Steady BinaryReader.read_string /\
  (forall n, Steady (BinaryReader._read_exact n)) /\
  (forall A (read_value : M A), Steady read_value -> Steady (BinaryReader.read_packed read_value)) /\
  (forall n w tag_start, Steady (BinaryReader.skip_field n w tag_start)).
Proof. split_and!; apply _. Qed.

(** Every integer writer accepts exactly the values of its type, raises on
    all others without touching the buffer, and the matching reader recovers
    the value from the bytes appended, wherever they stand in the input. *)
Theorem wire_integers_roundtrip :
  Codec BinaryWriter.write_int32 BinaryReader.read_int32 (in_range (- 2 ^ 31) (2 ^ 31)) /\
  Codec BinaryWriter.write_int64 BinaryReader.read_int64 (in_range (- 2 ^ 63) (2 ^ 63)) /\
  Codec BinaryWriter.write_uint32 BinaryReader.read_uint32 (in_range 0 (2 ^ 32)) /\
  Codec BinaryWriter.write_uint64 BinaryReader.read_uint64 (in_range 0 (2 ^ 64)) /\
  Codec BinaryWriter.write_sint32 BinaryReader.read_sint32 (in_range (- 2 ^ 31) (2 ^ 31)) /\
  Codec BinaryWriter.write_sint64 BinaryReader.read_sint64 (in_range (- 2 ^ 63) (2 ^ 63)) /\
  Codec BinaryWriter.write_bool BinaryReader.read_bool (fun _ => true) /\
  Codec BinaryWriter.write_fixed32 BinaryReader.read_fixed32 (in_range 0 (2 ^ 32)) /\
  Codec BinaryWriter.write_sfixed32 BinaryReader.read_sfixed32 (in_range (- 2 ^ 31) (2 ^ 31)) /\
  Codec BinaryWriter.write_fixed64 BinaryReader.read_fixed64 (in_range 0 (2 ^ 64)) /\
  Codec BinaryWriter.write_sfixed64 BinaryReader.read_sfixed64 (in_range (- 2 ^ 63) (2 ^ 63)) /\
  Codec BinaryWriter.write_double BinaryReader.read_double (in_range 0 (2 ^ 64)).
Proof. split_and!; apply _. Qed.

(** Byte strings and texts are read back as they were written; a text is
    written exactly when it has a UTF-8 encoding. *)
Theorem wire_strings_roundtrip :
  Codec BinaryWriter.write_string BinaryReader.read_string string_dom /\
  forall b, Z.of_nat (length b) < 2 ^ 64 ->
  exists enc, (forall self, BinaryWriter.write_bytes b self = Ok (self ++ enc)) /\
    reads BinaryReader.read_bytes enc b.
Proof.
  split; [apply _|]. intros b Hb. destruct (reads_bytes b Hb) as (enc & Hw & Hr & _). eauto.
Qed.

Lemma wire_strings_roundtrip_witness :
  exists enc, (forall self, BinaryWriter.write_bytes [1; 2; 3] self = Ok (self ++ enc)) /\
    reads BinaryReader.read_bytes enc [1; 2; 3].
Proof. apply wire_strings_roundtrip. reflexivity. Defined.

(** A string is only ever read from the one byte string that encodes it:
    overlong forms, surrogates and out-of-range sequences are rejected. *)
Theorem read_string_canonical r s r' :
  reader_ok r -> bytes_ok (_data r) = true -> BinaryReader.read_string r = (Ok s, r') ->
  exists b, BinaryReader.read_bytes r = (Ok b, r') /\ scalar_str s = true /\ utf8_encode s = Some b.
Proof.
  intros Hr Hok (b & r1 & Hb & Hs)%bind_Ok. destruct (utf8_decode b) as [s'|] eqn:E; [|done].
  injection Hs as <- <-. exists b. split; [done|].
  pose proof (utf8_encode_decode b s' (read_bytes_ok _ _ _ Hr Hok Hb) E) as He. split; [|done].
  unfold utf8_encode in He. by destruct (scalar_str s').
Qed.

Lemma read_string_canonical_witness :
  exists b, BinaryReader.read_bytes (mkReader [2; 195; 169] 0 0) = (Ok b, mkReader [2; 195; 169] 0 3) /\
    scalar_str [233] = true /\ utf8_encode [233] = Some b.
Proof.
  apply (read_string_canonical (mkReader [2; 195; 169] 0 0)); [|reflexivity|reflexivity].
  split; vm_compute; congruence.
Defined.

(** Whatever bytes it meets, a successful integer read returns a value of
    its type. *)
Theorem wire_reads_in_range r v r' :
  (BinaryReader.read_int32 r = (Ok v, r') -> - 2 ^ 31 <= v < 2 ^ 31) /\
  (BinaryReader.read_int64 r = (Ok v, r') -> - 2 ^ 63 <= v < 2 ^ 63) /\
  (BinaryReader.read_uint32 r = (Ok v, r') -> 0 <= v < 2 ^ 32) /\
  (BinaryReader.read_uint64 r = (Ok v, r') -> 0 <= v < 2 ^ 64) /\
  (BinaryReader.read_sint32 r = (Ok v, r') -> - 2 ^ 31 <= v < 2 ^ 31) /\
  (BinaryReader.read_sint64 r = (Ok v, r') -> - 2 ^ 63 <= v < 2 ^ 63).
Proof.
  split_and!; try (intros (a & r1 & _ & [= <- _])%bind_Ok).
  1, 5: by apply (signed_range _ 32).
  1, 4: by apply (signed_range _ 64).
  - rewrite max_uint32, land_mask by lia. by apply Z.mod_pos_bound.
  - apply varint_loop_range.
Qed.

Lemma wire_reads_in_range_witness : - 2 ^ 31 <= -1 < 2 ^ 31.
Proof.
  apply (proj1 (wire_reads_in_range (mkReader [255; 255; 255; 255; 255; 255; 255; 255; 255; 1] 0 0)
    (-1) (mkReader [255; 255; 255; 255; 255; 255; 255; 255; 255; 1] 0 10))).
  vm_compute. reflexivity.
Defined.

(** A valid tag is read back with its field number, its wire type and the
    offset it starts at; an invalid number or type is refused by the writer. *)
Theorem wire_tag_roundtrip n w :
  (0 < n <= _MAX_FIELD_NUMBER -> 0 <= w <= 5 ->
   exists enc, (forall self, BinaryWriter.write_tag n w self = Ok (self ++ enc)) /\
   forall pre, reads_at BinaryReader.read_tag pre enc (n, w, Z.of_nat (length pre))) /\
  (n <= 0 \/ _MAX_FIELD_NUMBER < n \/ w < 0 \/ 5 < w ->
   forall self, is_Ok (BinaryWriter.write_tag n w self) = false).
Proof.
  split.
  - intros Hn Hw. destruct (tag_roundtrip n w Hn Hw) as (enc & H1 & _ & _ & H2). eauto.
  - intros H self. unfold BinaryWriter.write_tag, WIRE_VARINT, WIRE_FIXED32.
    destruct (_ || _) eqn:E1; [done|]. destruct ((w <? 0) || _) eqn:E2; [done|]. lia.
Qed.

Lemma wire_tag_roundtrip_witness :
  exists enc, (forall self, BinaryWriter.write_tag 536870911 5 self = Ok (self ++ enc)) /\
  forall pre, reads_at BinaryReader.read_tag pre enc (536870911, 5, Z.of_nat (length pre)).
Proof. apply (wire_tag_roundtrip 536870911 5); [vm_compute; split; congruence|lia]. Defined.

(** A packed field of any codec's values is read back as the list written,
    as long as its payload has a length that fits the varint prefix. *)
Theorem wire_packed_roundtrip {A} (w : W A) (rd : M A) dom vs nested :
  Codec w rd dom -> forallb dom vs = true ->
  BinaryWriter.write_all w vs BinaryWriter.init = Ok nested -> Z.of_nat (length nested) < 2 ^ 64 ->
  exists enc, (forall self, BinaryWriter.write_packed vs w self = Ok (self ++ enc)) /\
    reads (BinaryReader.read_packed rd) enc vs.
Proof. intros Hc. apply packed_roundtrip, Hc. Qed.

Lemma wire_packed_roundtrip_witness :
  exists enc, (forall self, BinaryWriter.write_packed [1; -2; 300] BinaryWriter.write_sint32 self =
      Ok (self ++ enc)) /\
    reads (BinaryReader.read_packed BinaryReader.read_sint32) enc [1; -2; 300].
Proof.
  apply (wire_packed_roundtrip BinaryWriter.write_sint32 BinaryReader.read_sint32 _ [1; -2; 300]
    [2; 3; 216; 4] sint32_codec); reflexivity.
Defined.

(** An unknown field, whatever its kind, is skipped as a whole and its
    bytes are returned unchanged, when its groups are nested within the limit;
    a deeper field raises [DecodeError]. *)
Theorem skip_unknown_field f :
  ufield_ok f = true ->
  exists enc, (forall self, write_field f self = Ok (self ++ enc)) /\
  forall pre post md,
    (Z.of_nat (group_depth f) <= md ->
       read_unknown (before pre enc post md) = (Ok enc, after pre enc post md)) /\
    (0 <= md < Z.of_nat (group_depth f) ->
       exists r', read_unknown (before pre enc post md) = (Raise too_deep, r')).
Proof. apply read_unknown_spec. Qed.

(** A field with two levels of groups. *)
Definition ex_field : ufield := UGroup 1 [UVarint 2 300; UGroup 3 [UFixed32 4 7]; UBytes 5 [1; 2]].

Lemma skip_unknown_field_witness :
  exists enc, (forall self, write_field ex_field self = Ok (self ++ enc)) /\
  forall pre post md,
    (2 <= md -> read_unknown (before pre enc post md) = (Ok enc, after pre enc post md)) /\
    (0 <= md < 2 -> exists r', read_unknown (before pre enc post md) = (Raise too_deep, r')).
Proof. apply (skip_unknown_field ex_field). reflexivity. Defined.
