(* ===== verification/ValueCodec.v ===== *)
(** * Value codecs

    The model of [src/nebius/base/protos/codec.py]: a [ValueCodec] bundles the
    wire operations of a protobuf value type with the normaliser applied to
    assigned Python values.  An enum value is represented by its number, the
    wrapper classes being subclasses of [int].  The floating-point normalisers
    and the mutation hook of message codecs are not modelled. *)
From S2P Require Import Prelude PyStr Json Bytes Wire WireSpec.

(** A Python value, as far as the normalisers distinguish it. *)
Inductive py_value : Type :=
| VInt (n : Z)
| VBool (b : bool)
| VStr (s : pystr)
| VBytes (b : bytes)
| VOther.

Inductive codec_error : Type :=
| TypeError (msg : string)
| RangeError (msg : string)
| OverflowError
| UnicodeDecodeError.

(** [isinstance(value, int)] and the number: a [bool] is an [int]. *)
Definition as_int (value : py_value) : option Z :=
  match value with
  | VInt n => Some n
  | VBool b => Some (if b then 1 else 0)
  | _ => None
  end.

Record ValueCodec (T : Type) : Type := mkCodec {
  wire_type : Z;
  read : M T;
  write : W T;
  normalize : py_value -> result codec_error T;
  default_value : T;
  packable : bool;
  clone : option (T -> T);
  merge : option (T -> T -> T);
  deterministic_write : option (bool -> W T);
  enum_values : option (list Z);
  closed_enum : bool;
  json_kind : string;
  enum_names : option (list (Z * pystr));
  enum_numbers : option (list (pystr * Z))
}.
Arguments mkCodec {T}.
Arguments wire_type {T}.
Arguments read {T}.
Arguments write {T}.
Arguments normalize {T}.
Arguments default_value {T}.
Arguments packable {T}.
Arguments clone {T}.
Arguments merge {T}.
Arguments deterministic_write {T}.
Arguments enum_values {T}.
Arguments closed_enum {T}.
Arguments json_kind {T}.
Arguments enum_names {T}.
Arguments enum_numbers {T}.

(** A codec with the dataclass defaults for the hooks. *)
Definition simple_codec {T} (wt : Z) (rd : M T) (wr : W T) (norm : py_value -> result codec_error T)
    (d : T) (packable : bool) (kind : string) : ValueCodec T :=
  mkCodec wt rd wr norm d packable None None None None false kind None None.

Definition copy {T} (self : ValueCodec T) (value : T) : T :=
  match clone self with None => value | Some f => f value end.

Definition write_value {T} (self : ValueCodec T) (value : T) (deterministic : bool) (writer : bytes) :
    result wire_error bytes :=
  match deterministic_write self with
  | Some f => f deterministic value writer
  | None => write self value writer
  end.

Definition _integer_normalizer (name : string) (minimum maximum : Z) (value : py_value) :
    result codec_error Z :=
  match as_int value with
  | None => Raise (TypeError (name +:+ " field requires int"))
  | Some v =>
      if negb ((minimum <=? v) && (v <=? maximum))
      then Raise (RangeError (name +:+ " value is outside its range"))
      else Ok v
  end.

(** [_bool], on a platform whose C [long] has [long_bits] bits. *)
Definition _bool (long_bits : Z) (value : py_value) : result codec_error bool :=
  match as_int value with
  | None => Raise (TypeError "bool field requires bool or int")
  | Some v =>
      if negb ((- Z.shiftl 1 (long_bits - 1) <=? v) && (v <? Z.shiftl 1 (long_bits - 1)))
      then Raise OverflowError
      else Ok (negb (v =? 0))
  end.

Definition _bytes (value : py_value) : result codec_error bytes :=
  match value with VBytes b => Ok b | _ => Raise (TypeError "bytes field requires bytes") end.

Definition _string (value : py_value) : result codec_error pystr :=
  match value with
  | VStr s => Ok s
  | VBytes b => match utf8_decode b with Some s => Ok s | None => Raise UnicodeDecodeError end
  | _ => Raise (TypeError "string field requires str or UTF-8 bytes")
  end.

Definition INT32 : ValueCodec Z :=
  simple_codec WIRE_VARINT BinaryReader.read_int32 BinaryWriter.write_int32
    (_integer_normalizer "int32" (- Z.shiftl 1 31) (Z.shiftl 1 31 - 1)) 0 true "int32".
Definition INT64 : ValueCodec Z :=
  simple_codec WIRE_VARINT BinaryReader.read_int64 BinaryWriter.write_int64
    (_integer_normalizer "int64" (- Z.shiftl 1 63) (Z.shiftl 1 63 - 1)) 0 true "int64".
Definition UINT32 : ValueCodec Z :=
  simple_codec WIRE_VARINT BinaryReader.read_uint32 BinaryWriter.write_uint32
    (_integer_normalizer "uint32" 0 (Z.shiftl 1 32 - 1)) 0 true "uint32".
Definition UINT64 : ValueCodec Z :=
  simple_codec WIRE_VARINT BinaryReader.read_uint64 BinaryWriter.write_uint64
    (_integer_normalizer "uint64" 0 (Z.shiftl 1 64 - 1)) 0 true "uint64".
Definition SINT32 : ValueCodec Z :=
  simple_codec WIRE_VARINT BinaryReader.read_sint32 BinaryWriter.write_sint32
    (_integer_normalizer "sint32" (- Z.shiftl 1 31) (Z.shiftl 1 31 - 1)) 0 true "int32".
Definition SINT64 : ValueCodec Z :=
  simple_codec WIRE_VARINT BinaryReader.read_sint64 BinaryWriter.write_sint64
    (_integer_normalizer "sint64" (- Z.shiftl 1 63) (Z.shiftl 1 63 - 1)) 0 true "int64".
Definition BOOL (long_bits : Z) : ValueCodec bool :=
  simple_codec WIRE_VARINT BinaryReader.read_bool BinaryWriter.write_bool
    (_bool long_bits) false true "bool".
Definition FIXED32 : ValueCodec Z :=
  simple_codec WIRE_FIXED32 BinaryReader.read_fixed32 BinaryWriter.write_fixed32
    (_integer_normalizer "fixed32" 0 (Z.shiftl 1 32 - 1)) 0 true "uint32".
Definition SFIXED32 : ValueCodec Z :=
  simple_codec WIRE_FIXED32 BinaryReader.read_sfixed32 BinaryWriter.write_sfixed32
    (_integer_normalizer "sfixed32" (- Z.shiftl 1 31) (Z.shiftl 1 31 - 1)) 0 true "int32".
Definition FIXED64 : ValueCodec Z :=
  simple_codec WIRE_FIXED64 BinaryReader.read_fixed64 BinaryWriter.write_fixed64
    (_integer_normalizer "fixed64" 0 (Z.shiftl 1 64 - 1)) 0 true "uint64".
Definition SFIXED64 : ValueCodec Z :=
  simple_codec WIRE_FIXED64 BinaryReader.read_sfixed64 BinaryWriter.write_sfixed64
    (_integer_normalizer "sfixed64" (- Z.shiftl 1 63) (Z.shiftl 1 63 - 1)) 0 true "int64".
Definition BYTES : ValueCodec bytes :=
  simple_codec WIRE_LENGTH_DELIMITED BinaryReader.read_bytes BinaryWriter.write_bytes
    _bytes [] false "bytes".
Definition STRING : ValueCodec pystr :=
  simple_codec WIRE_LENGTH_DELIMITED BinaryReader.read_string BinaryWriter.write_string
    _string [] false "string".

(** [enum_names.setdefault(number, name)] over the declared names. *)
Definition enum_names_of (names : list (pystr * Z)) : list (Z * pystr) :=
  foldl (fun acc '(name, number) =>
    match dict_get acc number with Some _ => acc | None => dict_set acc number name end) [] names.

Definition enum_codec (values : list Z) (default : Z) (closed : bool) (names : list (pystr * Z)) :
    result codec_error (ValueCodec Z) :=
  if negb (bool_decide (default ∈ values))
  then Raise (RangeError "enum default must be one of its declared values")
  else
    let normalize value :=
      normalized ← _integer_normalizer "enum" (- Z.shiftl 1 31) (Z.shiftl 1 31 - 1) value;
      if closed && negb (bool_decide (normalized ∈ values))
      then Raise (RangeError "closed enum value is not declared")
      else Ok normalized in
    Ok (mkCodec WIRE_VARINT BinaryReader.read_int32 BinaryWriter.write_int32 normalize default true
          None None None (Some values) closed "enum" (Some (enum_names_of names)) (Some names)).

(** ** The laws of a codec *)

(** The values a codec normalises are exactly those it can write, its default
    is one of them, and a normalised value is normalised to itself. *)
Record lawful {T} (c : ValueCodec T) (inject : T -> py_value) (dom : T -> bool) : Prop := {
  law_codec : Codec (write c) (read c) dom;
  law_normalize v x : normalize c v = Ok x -> dom x = true;
  law_default : dom (default_value c) = true;
  law_inject x : dom x = true -> normalize c (inject x) = Ok x
}.

Lemma integer_lawful wt rd wr name lo hi pack kind :
  Codec wr rd (in_range lo hi) -> lo <= 0 < hi ->
  lawful (simple_codec wt rd wr (_integer_normalizer name lo (hi - 1)) 0 pack kind) VInt (in_range lo hi).
Proof.
  intros Hc H0. split; simpl; [done| |unfold in_range; lia|].
  - intros v x. unfold _integer_normalizer. destruct (as_int v) as [n|]; [|done].
    destruct (negb _) eqn:E; [done|]. intros [= <-]. unfold in_range. lia.
  - intros x Hx. unfold _integer_normalizer. simpl. unfold in_range in Hx.
    destruct (negb _) eqn:E; [lia|done].
Qed.

Lemma bool_lawful bits : 1 < bits -> lawful (BOOL bits) VBool (fun _ => true).
Proof.
  intros Hb. split; simpl; [apply _|done|done|]. intros x _. unfold _bool. simpl.
  rewrite Z.shiftl_1_l. assert (2 ^ 1 <= 2 ^ (bits - 1)) by (apply Z.pow_le_mono_r; lia).
  destruct x; destruct (negb _) eqn:E; done || lia.
Qed.

(** The first declared name of a number. *)
Fixpoint first_name (names : list (pystr * Z)) (n : Z) : option pystr :=
  match names with
  | [] => None
  | (name, k) :: names => if decide (k = n) then Some name else first_name names n
  end.

Lemma enum_names_get names n : dict_get (enum_names_of names) n = first_name names n.
Proof.
  unfold enum_names_of.
  enough (forall acc, dict_get (foldl (fun acc '(name, number) =>
    match dict_get acc number with Some _ => acc | None => dict_set acc number name end) acc names) n =
    match dict_get acc n with Some name => Some name | None => first_name names n end) as H by apply H.
  induction names as [|[name k] names IH]; intros acc; csimpl; [by destruct (dict_get acc n)|].
  rewrite IH. destruct (dict_get acc k) as [old|] eqn:Ek.
  - case_decide; [subst; by rewrite Ek|done].
  - rewrite dict_get_set. destruct (decide (n = k)) as [->|Hne].
    + by rewrite Ek, decide_True by done.
    + by rewrite (decide_False (P := k = n)) by done.
Qed.

Lemma first_name_spec names n :
  match first_name names n with
  | Some name => (name, n) ∈ names
  | None => forall name, (name, n) ∉ names
  end.
Proof.
  induction names as [|[name k] names IH]; simpl; [intros name; apply not_elem_of_nil|].
  case_decide; [subst; left|]. destruct (first_name names n); [by right|].
  intros name' [[= -> ->]|Hin]%elem_of_cons; [done|by apply (IH name')].
Qed.

(** ** Theorems *)

(** Every integer codec and the boolean codec is lawful: what [normalize]
    accepts is what [write] accepts, [read] recovers it, the default value is
    among it and normalising is idempotent. *)
Theorem value_codecs_lawful :
  lawful INT32 VInt (in_range (- 2 ^ 31) (2 ^ 31)) /\
  lawful INT64 VInt (in_range (- 2 ^ 63) (2 ^ 63)) /\
  lawful UINT32 VInt (in_range 0 (2 ^ 32)) /\
  lawful UINT64 VInt (in_range 0 (2 ^ 64)) /\
  lawful SINT32 VInt (in_range (- 2 ^ 31) (2 ^ 31)) /\
  lawful SINT64 VInt (in_range (- 2 ^ 63) (2 ^ 63)) /\
  lawful FIXED32 VInt (in_range 0 (2 ^ 32)) /\
  lawful SFIXED32 VInt (in_range (- 2 ^ 31) (2 ^ 31)) /\
  lawful FIXED64 VInt (in_range 0 (2 ^ 64)) /\
  lawful SFIXED64 VInt (in_range (- 2 ^ 63) (2 ^ 63)) /\
  lawful (BOOL 32) VBool (fun _ => true) /\ lawful (BOOL 64) VBool (fun _ => true).
Proof.
  split_and!; try (by apply bool_lawful);
    (apply (integer_lawful _ _ _ _ _ (2 ^ 31)) || apply (integer_lawful _ _ _ _ _ (2 ^ 63)) ||
     apply (integer_lawful _ _ _ _ _ (2 ^ 32)) || apply (integer_lawful _ _ _ _ _ (2 ^ 64)));
    (apply _ || by vm_compute).
Qed.

(** An enum codec exists exactly when its default is declared; it
    normalises to [int32] values, to declared values when the enum is closed,
    and its values survive the wire; a number is named by its first name. *)
Theorem enum_codec_spec values default closed names :
  match enum_codec values default closed names with
  | Raise _ => default ∉ values
  | Ok c =>
      default ∈ values /\ default_value c = default /\
      (forall v x, normalize c v = Ok x ->
         - 2 ^ 31 <= x < 2 ^ 31 /\ (closed = true -> x ∈ values) /\
         exists enc, (forall self, write c x self = Ok (self ++ enc)) /\ reads (read c) enc x) /\
      exists ns, enum_names c = Some ns /\ forall n,
        match dict_get ns n with
        | Some name => (name, n) ∈ names
        | None => forall name, (name, n) ∉ names
        end
  end.
Proof.
  unfold enum_codec. case_bool_decide as Hd; simpl; [|done].
  split; [done|]. split; [done|]. split.
  - intros v x Hn. unfold _integer_normalizer in Hn. destruct (as_int v) as [n|]; [|done].
    destruct (negb _) eqn:E; [done|]. cbn [mbind result_bind] in Hn.
    change (Z.shiftl 1 31) with (2 ^ 31) in E.
    assert (x = n /\ (closed = true -> n ∈ values)) as [-> Hcl].
    { destruct closed; simpl in Hn; [|by injection Hn as ->].
      case_bool_decide; [|done]. by injection Hn as ->. }
    assert (- 2 ^ 31 <= n < 2 ^ 31) as Hr by lia. split; [done|]. split; [done|].
    destruct (codec_in (Codec := int32_codec) n) as (enc & Hw & Hrd & _);
      [unfold in_range; lia|eauto].
  - eexists. split; [done|]. intros n. rewrite enum_names_get. apply first_name_spec.
Qed.
