(* ===== verification/Resolver.v ===== *)
(** * Service resolvers

    The model of [src/nebius/base/resolver.py].  A resolver is the tree of the
    resolver objects; [resolve] returns the outcome and the tree afterwards,
    because [Cached] fills its dict.  The [api_service_name] option of a
    service descriptor comes from the generated descriptor registry and is a
    parameter: [None] when the lookup raises [KeyError] or [LookupError].

    [lookup] is the resolver without its caches; [resolve] refines it. *)
From S2P Require Import Prelude PyStr.

Inductive resolve_error : Type :=
| UnknownServiceError (id : pystr)
| OtherError.

#[local] Unset Elimination Schemes.
Inductive Resolver : Type :=
| Basic (_parent : Resolver)
| Constant (_address : pystr)
| Single (_id _address : pystr)
| Prefix (_prefix _address : pystr)
| Conventional
| Chain (_resolvers : list Resolver)
| Cached (_cache : list (pystr * pystr)) (_next : Resolver)
| TemplateExpander (_substitutions : list (pystr * pystr)) (_next : Resolver)
| Custom (f : pystr -> result resolve_error pystr).
#[local] Set Elimination Schemes.

(** [Basic(id, address)] *)
Definition mkBasic (id address : pystr) : Resolver :=
  if endswith id (u "*") then Basic (Prefix (take (length id - 1) id) address)
  else Basic (Single id address).

(** [Cached(next)] *)
Definition mkCached (next : Resolver) : Resolver := Cached [] next.

Section Resolve.
Context (api_service_name : pystr -> option pystr).

Definition resolve_conventional (service_id : pystr) : result resolve_error pystr :=
  match split service_id (u ".") with
  | None => Raise OtherError
  | Some parts =>
      let bad :=
        (length parts <? 3)%nat || negb (bool_decide (parts !! 0%nat = Some (u "nebius"))) ||
        negb (endswith (default [] (last parts)) (u "Service")) in
      if bad then Raise (UnknownServiceError service_id) else
      let service_name := default [] (parts !! 1%nat) in
      let service_name :=
        match api_service_name service_id with
        | Some annotated => match annotated with [] => service_name | _ :: _ => annotated end
        | None => service_name
        end in
      Ok (service_name ++ u ".{domain}")
  end.

Definition expand (substitutions : list (pystr * pystr)) (addr : pystr) : pystr :=
  foldl (fun addr '(find, replace) => str_replace addr find replace) addr substitutions.

Fixpoint resolve (self : Resolver) (service_id : pystr) {struct self} :
    result resolve_error pystr * Resolver :=
  match self with
  | Basic parent =>
      let '(ret, parent') := resolve parent service_id in (ret, Basic parent')
  | Constant address => (Ok address, self)
  | Single id address =>
      (if bool_decide (service_id = id) then Ok address
       else Raise (UnknownServiceError service_id), self)
  | Prefix prefix address =>
      (if startswith service_id prefix then Ok address
       else Raise (UnknownServiceError service_id), self)
  | Conventional => (resolve_conventional service_id, self)
  | Chain resolvers =>
      let fix try_each (rs : list Resolver) : result resolve_error pystr * list Resolver :=
        match rs with
        | [] => (Raise (UnknownServiceError service_id), [])
        | r :: rs =>
            match resolve r service_id with
            | (Ok ret, r') => (Ok ret, r' :: rs)
            | (Raise (UnknownServiceError _), r') =>
                let '(ret, rs') := try_each rs in (ret, r' :: rs')
            | (Raise e, r') => (Raise e, r' :: rs)
            end
        end in
      let '(ret, rs') := try_each resolvers in (ret, Chain rs')
  | Cached cache next =>
      match dict_get cache service_id with
      | Some addr => (Ok addr, self)
      | None =>
          match resolve next service_id with
          | (Ok addr, next') => (Ok addr, Cached (dict_set cache service_id addr) next')
          | (Raise e, next') => (Raise e, Cached cache next')
          end
      end
  | TemplateExpander subs next =>
      let '(ret, next') := resolve next service_id in
      (match ret with Ok addr => Ok (expand subs addr) | Raise e => Raise e end,
       TemplateExpander subs next')
  | Custom f => (f service_id, self)
  end.

(** ** Without caches *)

(** The first outcome that is not [UnknownServiceError]. *)
Fixpoint first_known (service_id : pystr) (rs : list (result resolve_error pystr)) :
    result resolve_error pystr :=
  match rs with
  | [] => Raise (UnknownServiceError service_id)
  | Raise (UnknownServiceError _) :: rs => first_known service_id rs
  | r :: _ => r
  end.

Fixpoint lookup (self : Resolver) (service_id : pystr) : result resolve_error pystr :=
  match self with
  | Basic parent => lookup parent service_id
  | Constant address => Ok address
  | Single id address =>
      if bool_decide (service_id = id) then Ok address else Raise (UnknownServiceError service_id)
  | Prefix prefix address =>
      if startswith service_id prefix then Ok address else Raise (UnknownServiceError service_id)
  | Conventional => resolve_conventional service_id
  | Chain rs => first_known service_id (map (fun r => lookup r service_id) rs)
  | Cached _ next => lookup next service_id
  | TemplateExpander subs next =>
      match lookup next service_id with Ok addr => Ok (expand subs addr) | Raise e => Raise e end
  | Custom f => f service_id
  end.

(** Every cached address is the one the wrapped resolver gives. *)
Fixpoint cache_ok (self : Resolver) : Prop :=
  match self with
  | Basic r | TemplateExpander _ r => cache_ok r
  | Chain rs => foldr (fun r P => cache_ok r /\ P) True rs
  | Cached cache next =>
      cache_ok next /\ forall id addr, dict_get cache id = Some addr -> lookup next id = Ok addr
  | _ => True
  end.

Lemma Resolver_ind (P : Resolver -> Prop) :
  (forall r, P r -> P (Basic r)) -> (forall a, P (Constant a)) -> (forall i a, P (Single i a)) ->
  (forall p a, P (Prefix p a)) -> P Conventional -> (forall rs, Forall P rs -> P (Chain rs)) ->
  (forall c r, P r -> P (Cached c r)) -> (forall s r, P r -> P (TemplateExpander s r)) ->
  (forall f, P (Custom f)) -> forall r, P r.
Proof.
  intros H1 H2 H3 H4 H5 H6 H7 H8 H9. fix IH 1.
  intros []; [apply H1, IH|apply H2|apply H3|apply H4|apply H5| |apply H7, IH|apply H8, IH|apply H9].
  apply H6. induction _resolvers as [|r rs IHrs]; constructor; [apply IH|exact IHrs].
Qed.

(** One query: the answer, and the tree afterwards gives the same answers. *)
Definition refines (r : Resolver) (id : pystr) : Prop :=
  cache_ok r ->
  (resolve r id).1 = lookup r id /\ cache_ok (resolve r id).2 /\
  forall id', lookup (resolve r id).2 id' = lookup r id'.

Lemma resolve_refines r id : refines r id.
Proof.
  unfold refines. induction r as [r IH|a|i a|p a| |rs IH|c r IH|s r IH|f] using Resolver_ind;
    intros Hc; try done; cbn [resolve cache_ok lookup] in *.
  - destruct (IH Hc) as (H1 & H2 & H3). by destruct (resolve r id).
  - set (try_each := fix try_each (rs : list Resolver) : result resolve_error pystr * list Resolver :=
      match rs with
      | [] => (Raise (UnknownServiceError id), [])
      | r :: rs =>
          match resolve r id with
          | (Ok ret, r') => (Ok ret, r' :: rs)
          | (Raise (UnknownServiceError _), r') =>
              let '(ret, rs') := try_each rs in (ret, r' :: rs')
          | (Raise e, r') => (Raise e, r' :: rs)
          end
      end).
    assert ((try_each rs).1 = first_known id (map (fun r => lookup r id) rs) /\
      foldr (fun r P => cache_ok r /\ P) True (try_each rs).2 /\
      forall id', map (fun r => lookup r id') (try_each rs).2 = map (fun r => lookup r id') rs)
      as (H1 & H2 & H3).
    { induction IH as [|r rs Hr _ IHrs]; [done|]. cbn [foldr] in Hc. destruct Hc as [Hc Hcs].
      specialize (IHrs Hcs). destruct (Hr Hc) as (H1 & H2 & H3). cbn [try_each map first_known].
      destruct (resolve r id) as [[ret|[e|]] r']; simpl in H1, H2, H3; rewrite <- H1.
      - split; [done|]. split; [done|]. intros id'. simpl. by rewrite H3.
      - destruct IHrs as (G1 & G2 & G3). destruct (try_each rs) as [ret rs'].
        split; [done|]. split; [done|]. intros id'. simpl in *. by rewrite H3, G3.
      - split; [done|]. split; [done|]. intros id'. simpl. by rewrite H3. }
    destruct (try_each rs) as [ret rs']. simpl in *. split_and!; [done|done|].
    intros id'. by rewrite H3.
  - destruct Hc as [Hc Hd]. destruct (IH Hc) as (H1 & H2 & H3).
    destruct (dict_get c id) as [addr|] eqn:E; [by rewrite (Hd _ _ E)|].
    destruct (resolve r id) as [[addr|e] r']; simpl in *; split_and!; try done.
    + intros id' addr'. rewrite dict_get_set, H3. case_decide; [subst; by intros [= <-]|auto].
    + intros id' addr'. rewrite H3. auto.
  - destruct (IH Hc) as (H1 & H2 & H3). destruct (resolve r id) as [ret r']. simpl in *. subst ret.
    split_and!; [done|done|]. intros id'. by rewrite H3.
Qed.

(** The answers to a sequence of queries. *)
Fixpoint resolve_all (self : Resolver) (ids : list pystr) : list (result resolve_error pystr) :=
  match ids with
  | [] => []
  | id :: ids => let '(ret, self') := resolve self id in ret :: resolve_all self' ids
  end.

Lemma resolve_all_lookup r ids : cache_ok r -> resolve_all r ids = map (lookup r) ids.
Proof.
  revert r. induction ids as [|id ids IH]; intros r Hc; [done|]. simpl.
  destruct (resolve_refines r id Hc) as (H1 & H2 & H3). destruct (resolve r id) as [ret r'].
  simpl in *. rewrite IH, H1 by done. f_equal. apply map_ext. done.
Qed.

Lemma first_known_spec id rs :
  (forall a, first_known id rs = Ok a <->
     exists before after, rs = before ++ Ok a :: after /\
       forall r, r ∈ before -> exists i, r = Raise (UnknownServiceError i)) /\
  (first_known id rs = Raise (UnknownServiceError id) \/
   first_known id rs = Raise OtherError \/ exists a, first_known id rs = Ok a).
Proof.
  induction rs as [|[a|[i|]] rs [IH1 IH2]]; simpl.
  - split; [|by left]. intros a. split; [done|]. by intros ([|] & after & [= ] & _).
  - split; [|eauto]. intros a'. split.
    + intros [= ->]. exists [], rs. split; [done|]. by intros r H%not_elem_of_nil.
    + intros ([|r before] & after & [= ] & Hb); [by subst|].
      destruct (Hb r) as [i Hi]; [left|]. congruence.
  - split; [|done]. intros a. rewrite IH1. split.
    + intros (before & after & -> & Hb). exists (Raise (UnknownServiceError i) :: before), after.
      split; [done|]. intros r [->|Hin]%elem_of_cons; eauto.
    + intros ([|r before] & after & [= ] & Hb). exists before, after. subst.
      split; [done|]. intros r' Hin. apply Hb. by right.
  - split; [|by right; left]. intros a. split; [done|].
    intros ([|r before] & after & [= ] & Hb). destruct (Hb r) as [i Hi]; [left|]. congruence.
Qed.

End Resolve.

(** ** Conventional names *)

(** Splitting at a one-character separator. *)
Lemma split_char_free c cur s :
  c ∉ cur -> Forall (fun p => c ∉ p) (split_scan [c] 0 cur s).
Proof.
  revert cur. induction s as [|d s IH]; intros cur Hc; cbn [split_scan].
  - constructor; [|done]. by rewrite elem_of_reverse.
  - destruct (startswith (d :: s) [c]) eqn:E.
    + constructor; [by rewrite elem_of_reverse|]. apply IH. apply not_elem_of_nil.
    + apply IH. apply not_elem_of_cons. split; [|done]. intros ->.
      simpl in E. by rewrite bool_decide_true in E.
Qed.

Lemma join_app_last sep parts p :
  parts <> [] -> join sep (parts ++ [p]) = join sep parts ++ sep ++ p.
Proof.
  induction parts as [|q parts IH]; [done|]. intros _. destruct parts as [|q' parts]; [done|].
  change ((q :: q' :: parts) ++ [p]) with (q :: (q' :: parts) ++ [p]).
  rewrite join_cons by done. rewrite IH by done. rewrite (join_cons sep q (q' :: parts)) by done. by rewrite <- !app_assoc.
Qed.

(** A suffix without the separator lies in the last part. *)
Lemma endswith_last c parts p suf :
  parts <> [] -> c ∉ suf ->
  endswith (join [c] (parts ++ [p])) suf = endswith p suf.
Proof.
  intros Hne Hc. rewrite join_app_last by done.
  destruct (endswith p suf) eqn:E.
  - apply endswith_spec in E as [t ->]. apply endswith_spec.
    exists (join [c] parts ++ [c] ++ t). by rewrite <- !app_assoc.
  - destruct (endswith (join [c] parts ++ [c] ++ p) suf) eqn:E'; [|done].
    apply endswith_spec in E' as [t Ht]. rewrite app_assoc in Ht.
    assert (endswith p suf = true) as E''; [|congruence]. apply endswith_spec.
    apply app_eq_inv in Ht as [(k & Hk & ->)|(k & _ & ->)]; [|by exists k].
    destruct k as [|d k _] using rev_ind; [by exists []|].
    rewrite app_assoc in Hk. apply app_inj_tail in Hk as [_ ->].
    destruct Hc. apply elem_of_app. left. apply elem_of_app. right. left.
Qed.

(** The parts of a conventional name. *)
Lemma split_dot s :
  exists parts, split s (u ".") = Some parts /\ parts <> [] /\ join (u ".") parts = s /\
    Forall (fun p => 46 ∉ p) parts.
Proof.
  exists (split_scan (u ".") 0 [] s). split; [done|]. split; [apply split_scan_nonempty|].
  split; [by apply (join_split s (u "."))|]. apply (split_char_free 46), not_elem_of_nil.
Qed.

Lemma first_part_eq parts p s :
  Forall (fun p => 46 ∉ p) parts -> 46 ∉ p -> join (u ".") parts = p ++ [46] ++ s ->
  exists parts', parts = p :: parts' /\ parts' <> [] /\ join (u ".") parts' = s.
Proof.
  intros Hf Hp Hj. destruct parts as [|q [|q' parts]].
  - by destruct p.
  - simpl in Hj. apply Forall_cons in Hf as [Hq _]. destruct Hq. rewrite Hj.
    apply elem_of_app. right. left.
  - rewrite join_cons in Hj by done. apply Forall_cons in Hf as [Hq _].
    apply app_eq_inv in Hj as [(k & -> & Hk)|(k & -> & Hk)]; (destruct k as [|d k];
      [rewrite app_nil_r in *; injection Hk as Hk; exists (q' :: parts); by split_and!|]);
      injection Hk as <- _.
    + destruct Hq. apply elem_of_app. right. left.
    + destruct Hp. apply elem_of_app. right. left.
Qed.

Lemma last_part_suffix parts suf :
  parts <> [] -> 46 ∉ suf ->
  endswith (default [] (last parts)) suf = endswith (join (u ".") parts) suf \/ length parts = 1%nat.
Proof.
  intros Hne Hs. destruct parts as [|p parts _] using rev_ind; [done|].
  rewrite last_snoc. simpl. destruct parts as [|q parts]; [by right|left].
  symmetry. by apply (endswith_last 46).
Qed.

(** ** Theorems *)

(** Through any sequence of queries a resolver whose caches are consistent,
    in particular a freshly built one, answers as the same resolver without
    caches: caching never changes an answer, also not inside chains. *)
Theorem resolve_caches_transparent api_service_name r ids :
  cache_ok api_service_name r ->
  resolve_all api_service_name r ids = map (lookup api_service_name r) ids /\
  forall id, cache_ok api_service_name (resolve api_service_name r id).2.
Proof.
  intros Hc. split; [by apply resolve_all_lookup|]. intros id. by apply resolve_refines.
Qed.

(** A cached chain of a constant prefix and the convention. *)
Definition ex_resolver : Resolver :=
  mkCached (TemplateExpander [(u "{domain}", u "api.nebius.cloud:443")]
    (Chain [mkBasic (u "nebius.iam.*") (u "iam"); mkCached Conventional])).

Lemma resolve_caches_transparent_witness :
  resolve_all (fun _ => None) ex_resolver
    [u "nebius.compute.v1.DiskService"; u "x"; u "nebius.compute.v1.DiskService"] =
  map (lookup (fun _ => None) ex_resolver)
    [u "nebius.compute.v1.DiskService"; u "x"; u "nebius.compute.v1.DiskService"].
Proof. apply (resolve_caches_transparent (fun _ => None) ex_resolver). by cbn. Defined.

(** A chain gives the answer of its first resolver that knows the service;
    when there is none it raises [UnknownServiceError] for the service, unless
    a resolver raised another error. *)
Theorem chain_first_match api_service_name rs id :
  (forall a, lookup api_service_name (Chain rs) id = Ok a <->
     exists before after,
       map (fun r => lookup api_service_name r id) rs = before ++ Ok a :: after /\
       forall r, r ∈ before -> exists i, r = Raise (UnknownServiceError i)) /\
  (lookup api_service_name (Chain rs) id = Raise (UnknownServiceError id) \/
   lookup api_service_name (Chain rs) id = Raise OtherError \/
   exists a, lookup api_service_name (Chain rs) id = Ok a).
Proof. apply (first_known_spec id (map (fun r => lookup api_service_name r id) rs)). Qed.

(** A basic entry that ends in a star matches every service that extends
    the rest of the entry, any other entry matches exactly itself. *)
Theorem basic_entry api_service_name entry address id :
  lookup api_service_name (mkBasic (entry ++ u "*") address) id =
    (if startswith id entry then Ok address else Raise (UnknownServiceError id)) /\
  (endswith entry (u "*") = false ->
   lookup api_service_name (mkBasic entry address) id =
     (if bool_decide (id = entry) then Ok address else Raise (UnknownServiceError id))).
Proof.
  unfold mkBasic. split.
  - assert (endswith (entry ++ u "*") (u "*") = true) as -> by (apply endswith_spec; by exists entry).
    simpl. rewrite length_app. simpl (length (u "*")).
    replace (length entry + 1 - 1)%nat with (length entry) by lia. by rewrite take_app_length.
  - by intros ->.
Qed.

Lemma basic_entry_witness :
  lookup (fun _ => None) (mkBasic (u "nebius.iam") (u "iam")) (u "nebius.iam") =
  (if bool_decide (u "nebius.iam" = u "nebius.iam") then Ok (u "iam")
   else Raise (UnknownServiceError (u "nebius.iam"))).
Proof. apply basic_entry. reflexivity. Defined.

(** The conventional resolver knows exactly the names
    [nebius.<service>.<rest>] that end in [Service]; it answers
    [<service>.{domain}], with the annotated name in place of the service when
    the descriptor has a non-empty one. *)
Theorem conventional_names api_service_name s :
  (forall name rest, (46 ∉ name) -> s = u "nebius." ++ name ++ u "." ++ rest ->
     endswith s (u "Service") = true ->
     resolve_conventional api_service_name s =
       Ok (match api_service_name s with Some (c :: a) => c :: a | _ => name end ++ u ".{domain}")) /\
  (is_Ok (resolve_conventional api_service_name s) = true ->
     endswith s (u "Service") = true /\
     exists name rest, (46 ∉ name) /\ s = u "nebius." ++ name ++ u "." ++ rest).
Proof.
  unfold resolve_conventional. destruct (split_dot s) as (parts & -> & Hne & Hj & Hf).
  assert ((46 ∉ u "Service") /\ (46 ∉ u "nebius")) as [Hsv Hnb] by (split; apply (bool_decide_unpack _); by vm_compute).
  split.
  - intros name rest Hn -> Hs.
    destruct (first_part_eq parts (u "nebius") (name ++ u "." ++ rest) Hf Hnb Hj) as (ps & -> & Hp & Hj').
    apply Forall_cons in Hf as [_ Hf].
    destruct (first_part_eq ps name rest Hf Hn Hj') as (ps' & -> & Hp' & _).
    destruct (last_part_suffix (u "nebius" :: name :: ps') (u "Service")) as [E|E]; [done|done| |done].
    rewrite Hj, Hs in E. rewrite E. destruct ps' as [|p3 ps']; [done|]. simpl.
    by destruct (api_service_name _) as [[|]|].
  - destruct (_ || _) eqn:E; [done|]. intros _.
    destruct parts as [|p0 [|p1 [|p2 parts]]]; [done..|].
    apply orb_false_iff in E as [E E3]. apply orb_false_iff in E as [_ E2].
    apply negb_false_iff in E2, E3. apply bool_decide_eq_true in E2. injection E2 as ->.
    destruct (last_part_suffix (u "nebius" :: p1 :: p2 :: parts) (u "Service")) as [El|El]; [done|done| |done].
    rewrite E3, Hj in El. split; [done|].
    exists p1, (join (u ".") (p2 :: parts)). apply Forall_cons in Hf as [_ Hf].
    apply Forall_cons in Hf as [Hp1 _]. split; [done|]. rewrite <- Hj.
    rewrite (join_cons _ (u "nebius")), (join_cons _ p1) by done. done.
Qed.

Lemma conventional_names_witness :
  resolve_conventional (fun _ => None) (u "nebius.compute.v1.DiskService") =
  Ok (u "compute" ++ u ".{domain}").
Proof.
  apply (conventional_names (fun _ => None) (u "nebius.compute.v1.DiskService")) with
    (name := u "compute") (rest := u "v1.DiskService"); [|reflexivity|reflexivity].
  apply (bool_decide_unpack _). vm_compute. exact I.
Defined.
