(* ===== verification/Sanitizer.v ===== *)
(** * Token sanitizer

    The model of [src/nebius/base/token_sanitizer.py].  The theorem that
    matters is that the output does not depend on the signature. *)
From S2P Require Import Prelude PyStr.

Definition MASK_STRING : pystr := u "**".
Definition MAX_VISIBLE_PAYLOAD_LENGTH : Z := 15.
Definition NO_SIGNATURE : Z := -1.

Record TokenVersion : Type := mkVersion {
  prefix : pystr;
  delimiter : pystr;
  signature_position : Z;
  token_parts_count : Z
}.

Definition ACCESS_TOKEN_VERSIONS : list (pystr * TokenVersion) :=
  [(u "V0", mkVersion (u "v0.") (u ".") NO_SIGNATURE 1);
   (u "NE1", mkVersion (u "ne1") (u ".") 1 2)].

Definition CREDENTIALS_VERSIONS : list (pystr * TokenVersion) :=
  ACCESS_TOKEN_VERSIONS ++
  [(u "DE1", mkVersion (u "nd1") (u ".") 1 2);
   (u "JWT", mkVersion (u "eyJ") (u ".") 2 3)].

(** What an extractor promises to the sanitizer. *)
Definition extractor : Type := pystr -> TokenVersion * bool.

(** [DefaultTokenVersionExtractor.extract] *)
Fixpoint extract_loop (versions : list TokenVersion) (token : pystr) : TokenVersion * bool :=
  match versions with
  | [] => (mkVersion [] [] NO_SIGNATURE 0, false)
  | v :: versions =>
      if startswith token (prefix v) then (v, true) else extract_loop versions token
  end.

Definition extract (versions : list (pystr * TokenVersion)) : extractor := extract_loop versions.*2.

Definition sanitize_no_signature (token prefix : pystr) : pystr := prefix ++ MASK_STRING.

Definition sanitize_unrecognized (token : pystr) : pystr := MASK_STRING.

Inductive sanitize_error : Type := ValueError | IndexError.

(** [parts[i] = x]: a negative index counts from the end. *)
Definition list_set (parts : list pystr) (i : Z) (x : pystr) : option (list pystr) :=
  let i := if i <? 0 then i + Z.of_nat (length parts) else i in
  if (0 <=? i) && (i <? Z.of_nat (length parts)) then Some (<[Z.to_nat i := x]> parts) else None.

Module TokenSanitizer.

Definition sanitize (ex : extractor) (token : pystr) : result sanitize_error pystr :=
  match token with
  | [] => Ok []
  | _ :: _ =>
      let '(version, recognized) := ex token in
      if negb recognized then Ok (sanitize_unrecognized token) else
      match split token (delimiter version) with
      | None => Raise ValueError
      | Some token_parts =>
          if signature_position version =? NO_SIGNATURE
          then Ok (sanitize_no_signature token (prefix version))
          else if Z.of_nat (length token_parts) <=? signature_position version
          then Ok (sanitize_unrecognized token)
          else match list_set token_parts (signature_position version) MASK_STRING with
               | None => Raise IndexError
               | Some token_parts => Ok (join (delimiter version) token_parts)
               end
      end
  end.

Definition is_supported (ex : extractor) (token : pystr) : result sanitize_error bool :=
  let '(version, recognized) := ex token in
  if negb recognized then Ok false else
  match split token (delimiter version) with
  | None => Raise ValueError
  | Some token_parts => Ok (token_parts_count version <=? Z.of_nat (length token_parts))
  end.

Definition access_token_sanitizer : extractor := extract ACCESS_TOKEN_VERSIONS.
Definition credentials_sanitizer : extractor := extract CREDENTIALS_VERSIONS.

End TokenSanitizer.

(** ** Lemmas *)

(** The versions a table can hold: a delimiter to split at, and a position
    that is a part index or [NO_SIGNATURE]. *)
Definition version_ok (v : TokenVersion) : bool :=
  negb (bool_decide (delimiter v = [])) &&
  ((signature_position v =? NO_SIGNATURE) || (0 <=? signature_position v)).

Lemma extract_loop_spec versions token v :
  extract_loop versions token = (v, true) ->
  v ∈ versions /\ startswith token (prefix v) = true.
Proof.
  induction versions as [|w versions IH]; simpl; [done|].
  destruct (startswith token (prefix w)) eqn:E.
  - intros [= <-]. split; [left|done].
  - intros [Hin Hs]%IH. split; [by right|done].
Qed.

Lemma extract_ok versions token :
  Forall (fun v => version_ok v = true) versions.*2 ->
  (extract versions token).2 = true -> version_ok (extract versions token).1 = true.
Proof.
  unfold extract. intros Hv. destruct (extract_loop _ token) as [v []] eqn:E; [|done]. intros _.
  apply extract_loop_spec in E as [Hin _]. by apply (proj1 (Forall_forall _ _) Hv).
Qed.

(** What is left of a token when its secret part is blanked. *)
Definition public (v : TokenVersion) (token : pystr) : option (list pystr) :=
  parts ← split token (delimiter v);
  Some (<[Z.to_nat (signature_position v) := []]> parts).

Lemma sanitize_total ex token :
  ((ex token).2 = true -> version_ok (ex token).1 = true) ->
  is_Ok (TokenSanitizer.sanitize ex token) = true.
Proof.
  intros Hok. unfold TokenSanitizer.sanitize. destruct token as [|c token]; [done|].
  destruct (ex (c :: token)) as [v []]; simpl in *; [|done]. specialize (Hok eq_refl).
  unfold version_ok in Hok. apply andb_true_iff in Hok as [Hd Hp].
  apply negb_true_iff, bool_decide_eq_false in Hd. unfold split. destruct (delimiter v) eqn:Ed; [congruence|].
  destruct (_ =? NO_SIGNATURE) eqn:En; [done|]. destruct (Z.of_nat _ <=? signature_position v) eqn:El; [done|].
  unfold list_set. destruct (signature_position v <? 0) eqn:E0; [lia|].
  destruct (_ && _) eqn:E1; [done|lia].
Qed.

Lemma insert_insert_eq {A} (l1 l2 : list A) i x y :
  <[i := x]> l1 = <[i := x]> l2 -> <[i := y]> l1 = <[i := y]> l2.
Proof.
  intros H. apply (f_equal (fun l => <[i := y]> l)) in H. by rewrite !list_insert_insert_eq in H.
Qed.

Lemma sanitize_blind ex t1 t2 v :
  t1 <> [] -> t2 <> [] -> ex t1 = (v, true) -> ex t2 = (v, true) -> version_ok v = true ->
  signature_position v <> NO_SIGNATURE -> public v t1 = public v t2 ->
  TokenSanitizer.sanitize ex t1 = TokenSanitizer.sanitize ex t2.
Proof.
  intros H1 H2 E1 E2 Hok Hs Hp. unfold TokenSanitizer.sanitize. destruct t1, t2; try done.
  rewrite E1, E2. simpl. unfold public in Hp.
  replace (signature_position v =? NO_SIGNATURE) with false by lia.
  destruct (split _ _) as [p1|] eqn:S1, (split (_ :: t2) _) as [p2|] eqn:S2; simplify_eq/=; try done.
  assert (length p1 = length p2) as Hl.
  { apply (f_equal length) in Hp. by rewrite !length_insert in Hp. }
  rewrite Hl. destruct (_ <=? _); [done|]. unfold list_set. rewrite Hl.
  unfold version_ok in Hok. destruct (signature_position v <? 0) eqn:E0; [lia|].
  destruct (_ && _); [|done]. by rewrite (insert_insert_eq _ _ _ _ _ Hp).
Qed.

(** ** Theorems *)

(** Sanitizing never raises with the built-in version tables; an empty
    token stays empty and a token of no known version, or with too few parts,
    is masked completely. *)
Theorem sanitize_total_builtin token :
  is_Ok (TokenSanitizer.sanitize TokenSanitizer.access_token_sanitizer token) = true /\
  is_Ok (TokenSanitizer.sanitize TokenSanitizer.credentials_sanitizer token) = true /\
  (token <> [] -> (TokenSanitizer.credentials_sanitizer token).2 = false ->
   TokenSanitizer.sanitize TokenSanitizer.credentials_sanitizer token = Ok MASK_STRING).
Proof.
  split; [|split].
  - apply sanitize_total, extract_ok. by repeat constructor.
  - apply sanitize_total, extract_ok. by repeat constructor.
  - intros Hne He. unfold TokenSanitizer.sanitize. destruct token; [done|].
    by destruct (TokenSanitizer.credentials_sanitizer _) as [v []].
Qed.

Lemma sanitize_total_builtin_witness :
  TokenSanitizer.sanitize TokenSanitizer.credentials_sanitizer (u "secret") = Ok MASK_STRING.
Proof. apply (sanitize_total_builtin (u "secret")); [done|reflexivity]. Defined.

(** The sanitized text does not depend on the signature: two tokens of a
    signed version that agree in every other part have the same sanitized
    text, and the whole payload of an unsigned version is hidden. *)
Theorem sanitize_hides_signature ex t1 t2 v :
  t1 <> [] -> t2 <> [] -> ex t1 = (v, true) -> ex t2 = (v, true) -> version_ok v = true ->
  (signature_position v <> NO_SIGNATURE -> public v t1 = public v t2) ->
  TokenSanitizer.sanitize ex t1 = TokenSanitizer.sanitize ex t2.
Proof.
  intros H1 H2 E1 E2 Hok Hp. destruct (decide (signature_position v = NO_SIGNATURE)) as [Es|Es].
  - unfold TokenSanitizer.sanitize. destruct t1, t2; try done. rewrite E1, E2, Es. simpl.
    unfold split. by destruct (delimiter v).
  - by apply (sanitize_blind _ _ _ v); auto.
Qed.

Lemma sanitize_hides_signature_witness :
  TokenSanitizer.sanitize TokenSanitizer.credentials_sanitizer (u "eyJhead.payload.sig") =
  TokenSanitizer.sanitize TokenSanitizer.credentials_sanitizer (u "eyJhead.payload.other").
Proof.
  apply (sanitize_hides_signature _ _ _ (mkVersion (u "eyJ") (u ".") 2 3)); [done|done|..];
    try reflexivity.
Defined.
