(* ===== verification/Metadata.v ===== *)
(** * Metadata and idempotency keys

    The model of [src/nebius/base/metadata.py] and
    [src/nebius/aio/idempotency.py].  A metadata collection is the list
    [_contents] of its lowercased keys and values; operations return the
    outcome and the collection afterwards, because some of them change it
    before they raise.  Slices are modelled for a step of one.

    [ensure_key_in_metadata] also works on the metadata class of the gRPC
    package, so it is written against an interface, [HeaderStore], of which
    [Metadata] is an instance. *)
From S2P Require Import Prelude PyStr.

Inductive md_error : Type := TypeError | IndexError.

(** Values of dynamic type. *)
Inductive py_str : Type := PStr (s : pystr) | PNotStr.
Inductive py_pair : Type := PPair (k v : py_str) | PNotPair.
Inductive py_index : Type := IInt (i : Z) | ISlice (start stop : option Z) | IStr (s : pystr) | IOther.

Abbreviation contents := (list (pystr * pystr)).

(** *** Python list indices *)

Definition norm_index {A} (l : list A) (i : Z) : option nat :=
  let i := if i <? 0 then i + Z.of_nat (length l) else i in
  if (0 <=? i) && (i <? Z.of_nat (length l)) then Some (Z.to_nat i) else None.

(** A slice bound, clamped to the list. *)
Definition clamp {A} (l : list A) (i : Z) : nat :=
  let n := Z.of_nat (length l) in
  let i := if i <? 0 then i + n else i in
  Z.to_nat (Z.min (Z.max i 0) n).

Definition slice_bounds {A} (l : list A) (start stop : option Z) : nat * nat :=
  let a := match start with None => 0%nat | Some i => clamp l i end in
  let b := match stop with None => length l | Some i => clamp l i end in
  (a, max a b).

(** [l.insert(i, x)] *)
Definition list_insert_at {A} (l : list A) (i : Z) (x : A) : list A :=
  take (clamp l i) l ++ x :: drop (clamp l i) l.

Section Metadata.
Context `{PyLower}.

Definition as_entry (p : py_pair) : option (pystr * pystr) :=
  match p with PPair (PStr k) (PStr v) => Some (py_lower k, v) | _ => None end.

(** [Metadata(initial)]; [initial] is a list of pairs. *)
Definition init (initial : option (list (py_str * py_str))) : contents :=
  match initial with
  | None => []
  | Some l => omap (fun '(k, v) => as_entry (PPair k v)) l
  end.

Definition insert (index : Z) (value : pystr * pystr) (self : contents) : contents :=
  list_insert_at self index (py_lower value.1, value.2).

Definition add (index value : pystr) (self : contents) : contents := self ++ [(py_lower index, value)].

(** [MutableSequence.append] *)
Definition append (value : pystr * pystr) (self : contents) : contents :=
  insert (Z.of_nat (length self)) value self.

Definition getitem_str (index : pystr) (self : contents) : list pystr :=
  (filter (fun e : pystr * pystr => e.1 = py_lower index) self).*2.

Inductive item : Type := Entry (e : pystr * pystr) | Entries (l : contents) | Values (l : list pystr).

Definition getitem (index : py_index) (self : contents) : result md_error item :=
  match index with
  | IInt i =>
      match norm_index self i with
      | Some n => match self !! n with Some e => Ok (Entry e) | None => Raise IndexError end
      | None => Raise IndexError
      end
  | ISlice start stop =>
      let '(a, b) := slice_bounds self start stop in Ok (Entries (take (b - a) (drop a self)))
  | IStr s => Ok (Values (getitem_str s self))
  | IOther => Raise TypeError
  end.

Definition get_one (index : pystr) (default : option pystr) (first : bool) (self : contents) :
    option pystr :=
  match (if first then head (getitem_str index self) else last (getitem_str index self)) with
  | Some v => Some v
  | None => default
  end.

Inductive py_item : Type := KeyItem (s : pystr) | PairItem (p : py_pair) | OtherItem.

Definition contains (i : py_item) (self : contents) : bool :=
  match i with
  | KeyItem s => existsb (fun e : pystr * pystr => bool_decide (e.1 = py_lower s)) self
  | PairItem p => match as_entry p with Some e => bool_decide (e ∈ self) | None => false end
  | OtherItem => false
  end.

Definition delitem_str (index : pystr) (self : contents) : contents :=
  filter (fun e : pystr * pystr => e.1 <> py_lower index) self.

Definition delitem (index : py_index) (self : contents) : result md_error () * contents :=
  match index with
  | IInt i =>
      match norm_index self i with
      | Some n => (Ok (), delete n self)
      | None => (Raise IndexError, self)
      end
  | ISlice start stop =>
      let '(a, b) := slice_bounds self start stop in (Ok (), take a self ++ drop b self)
  | IStr s => (Ok (), delitem_str s self)
  | IOther => (Raise TypeError, self)
  end.

(** The loop of [metadata[key] = values]: what was appended stays when a later
    value is not a string. *)
Fixpoint append_values (index : pystr) (values : list py_str) (self : contents) :
    result md_error () * contents :=
  match values with
  | [] => (Ok (), self)
  | PStr s :: values => append_values index values (append (index, s) self)
  | PNotStr :: _ => (Raise TypeError, self)
  end.

(** What is assigned: a pair, an iterable of pairs, a string or an iterable of
    strings. *)
Inductive py_assign : Type :=
| APair (p : py_pair)
| APairs (l : list py_pair)
| AStr (s : pystr)
| AStrs (l : list py_str).

(** The elements an assigned value yields when it is iterated as strings. *)
Definition assigned_strings (value : py_assign) : list py_str :=
  match value with
  | AStr s => [PStr s]
  | AStrs l => l
  | APair (PPair k v) => [k; v]
  | APair PNotPair => []
  | APairs l => map (fun _ => PNotStr) l
  end.

(** ... and as pairs. *)
Definition assigned_pairs (value : py_assign) : list py_pair :=
  match value with
  | APairs l => l
  | APair (PPair _ _) => [PNotPair; PNotPair]
  | APair PNotPair => []
  | AStr s => map (fun _ => PNotPair) s
  | AStrs l => map (fun _ => PNotPair) l
  end.

Definition setitem (index : py_index) (value : py_assign) (self : contents) :
    result md_error () * contents :=
  match index with
  | IInt i =>
      match value with
      | APair p =>
          match as_entry p with
          | Some e =>
              match norm_index self i with
              | Some n => (Ok (), <[n := e]> self)
              | None => (Raise IndexError, self)
              end
          | None => (Raise TypeError, self)
          end
      | _ => (Raise TypeError, self)
      end
  | ISlice start stop =>
      match mapM as_entry (assigned_pairs value) with
      | None => (Raise TypeError, self)
      | Some entries =>
          let '(a, b) := slice_bounds self start stop in (Ok (), take a self ++ entries ++ drop b self)
      end
  | IStr s =>
      let index := py_lower s in
      append_values index (assigned_strings value) (delitem_str index self)
  | IOther => (Raise TypeError, self)
  end.

(** ** The invariant: every key is lowercase *)

Definition md_ok (self : contents) : Prop := Forall (fun e => py_lower e.1 = e.1) self.

Lemma as_entry_ok p e : as_entry p = Some e -> py_lower e.1 = e.1.
Proof. destruct p as [[k|] [v|]|]; simpl; intros [= <-]. apply py_lower_idem. Qed.

Lemma init_ok initial : md_ok (init initial).
Proof.
  unfold md_ok. destruct initial as [l|]; [|constructor]. apply Forall_forall. intros e He.
  apply list_elem_of_omap in He as ([k v] & _ & He). by apply as_entry_ok in He.
Qed.

Lemma insert_ok i v self : md_ok self -> md_ok (insert i v self).
Proof.
  unfold md_ok, insert, list_insert_at. intros Hs. apply Forall_app. split; [by apply Forall_take|].
  constructor; [apply py_lower_idem|by apply Forall_drop].
Qed.

Lemma append_eq v self : append v self = self ++ [(py_lower v.1, v.2)].
Proof.
  unfold append, insert, list_insert_at, clamp.
  replace (Z.to_nat _) with (length self) by (destruct (_ <? 0) eqn:E; lia).
  by rewrite take_ge, drop_ge by lia.
Qed.

Lemma append_values_ok index values self : md_ok self -> md_ok (append_values index values self).2.
Proof.
  revert self. induction values as [|[s|] values IH]; intros self Hs; simpl; [done| |done].
  apply IH. by apply insert_ok.
Qed.

Lemma delitem_str_ok index self : md_ok self -> md_ok (delitem_str index self).
Proof.
  unfold md_ok. rewrite !Forall_forall. intros Hs e [_ He]%list_elem_of_filter. by apply Hs.
Qed.

Lemma setitem_ok index value self : md_ok self -> md_ok (setitem index value self).2.
Proof.
  intros Hs. destruct index as [i|a b|s|]; simpl; [| | |done].
  - destruct value; try done. destruct (as_entry p) as [e|] eqn:E; [|done].
    destruct (norm_index self i) as [n|]; [|done]. simpl. unfold md_ok.
    apply Forall_insert; [done|]. by apply as_entry_ok in E.
  - destruct (mapM as_entry _) as [entries|] eqn:E; [|done]. unfold md_ok in *.
    destruct (slice_bounds self a b) as [x y]. simpl.
    apply Forall_app. split; [by apply Forall_take|]. apply Forall_app. split; [|by apply Forall_drop].
    apply mapM_Some_1 in E. clear -E H. induction E as [|p e ps es He _ IH]; constructor; [|done].
    by apply as_entry_ok in He.
  - by apply append_values_ok, delitem_str_ok.
Qed.

Lemma delitem_ok index self : md_ok self -> md_ok (delitem index self).2.
Proof.
  intros Hs. destruct index as [i|a b|s|]; simpl; [| | |done].
  - destruct (norm_index self i); simpl; [by apply Forall_delete|done].
  - destruct (slice_bounds self a b) as [x y]. simpl.
    apply Forall_app. split; [by apply Forall_take|by apply Forall_drop].
  - by apply delitem_str_ok.
Qed.

(** ** Reading after writing *)

Lemma getitem_app index l1 l2 :
  getitem_str index (l1 ++ l2) = getitem_str index l1 ++ getitem_str index l2.
Proof. unfold getitem_str. by rewrite filter_app, fmap_app. Qed.

Lemma getitem_delitem index index' self :
  getitem_str index (delitem_str index' self) =
  if decide (py_lower index = py_lower index') then [] else getitem_str index self.
Proof.
  unfold getitem_str, delitem_str. induction self as [|[k v] self IH]; [by case_decide|].
  rewrite !filter_cons. cbn [fst]. repeat case_decide; csimpl; try congruence.
  all: rewrite ?filter_cons; cbn [fst]; repeat case_decide; csimpl; congruence.
Qed.

Lemma append_values_get index index' (values : list pystr) self :
  py_lower index' = index' ->
  getitem_str index (append_values index' (PStr <$> values) self).2 =
  getitem_str index self ++ (if decide (py_lower index = index') then values else []).
Proof.
  intros Hi. revert self. induction values as [|s values IH]; intros self; csimpl.
  - case_decide; by rewrite app_nil_r.
  - rewrite IH, append_eq, getitem_app, <- app_assoc. f_equal.
    unfold getitem_str. rewrite filter_cons. cbn [fst snd]. rewrite Hi.
    case_decide; case_decide; csimpl; congruence.
Qed.

Lemma append_values_Ok index (values : list pystr) self :
  (append_values index (PStr <$> values) self).1 = Ok ().
Proof. revert self. induction values; intros self; csimpl; auto. Qed.

Lemma contains_getitem s self : contains (KeyItem s) self = negb (bool_decide (getitem_str s self = [])).
Proof.
  unfold getitem_str. induction self as [|[k v] self IH]; [done|]. cbn [contains existsb fst] in *.
  rewrite filter_cons. cbn [fst]. destruct (decide (k = py_lower s)) as [E|E]; csimpl.
  - by rewrite bool_decide_true.
  - by rewrite bool_decide_false.
Qed.

(** ** Idempotency keys *)

(** A header value, as [metadata[HEADER]] returns it: the list of values of a
    [Metadata], one value of a gRPC metadata. *)
Inductive header_value : Type := HStr (s : pystr) | HList (l : list pystr).

(** [not value or value == [""]] *)
Definition blank (v : header_value) : bool :=
  match v with
  | HStr [] | HList [] | HList [[]] => true
  | _ => false
  end.

Definition HEADER : pystr := u "x-idempotency-key".

(** Metadata as the idempotency code uses it; [get] is [None] for [KeyError]. *)
Class HeaderStore (St : Type) := {
  hs_get : St -> pystr -> option header_value;
  hs_set : St -> pystr -> pystr -> St;
  hs_get_set s k v : exists hv, hs_get (hs_set s k v) k = Some hv /\ (v <> [] -> blank hv = false)
}.

(** [new_key] supplies [key]. *)
Definition add_key_to_metadata {St} `{!HeaderStore St} (key : pystr) (metadata : St) : St :=
  hs_set metadata HEADER key.

Definition ensure_key_in_metadata {St} `{!HeaderStore St} (key : pystr) (metadata : St) : St :=
  let value := match hs_get metadata HEADER with Some v => v | None => HStr [] end in
  if blank value then add_key_to_metadata key metadata else metadata.

(** The interceptor: absent metadata is replaced by an empty one, and the call
    continues with the metadata that has a key. *)
Definition intercept_unary_unary {St} `{!HeaderStore St} {R} (empty : St) (key : pystr) (metadata : option St)
    (continuation : St -> R) : R :=
  let metadata := match metadata with None => empty | Some m => m end in
  continuation (ensure_key_in_metadata key metadata).

Lemma setitem_str_get s v self :
  getitem_str s (setitem (IStr s) (AStr v) self).2 = [v].
Proof.
  simpl. rewrite append_eq, getitem_app, getitem_delitem.
  rewrite decide_True by (by rewrite py_lower_idem). unfold getitem_str. rewrite filter_cons. cbn [fst snd].
  by rewrite decide_True by (by rewrite py_lower_idem).
Qed.

#[export] Program Instance Metadata_store : HeaderStore contents := {|
  hs_get m k := Some (HList (getitem_str k m));
  hs_set m k v := (setitem (IStr k) (AStr v) m).2
|}.
Next Obligation.
  intros m k v. eexists. split; [done|]. rewrite setitem_str_get. by destruct v.
Qed.

Lemma ensure_key_present {St} `{!HeaderStore St} key (m : St) :
  key <> [] ->
  exists hv, hs_get (ensure_key_in_metadata key m) HEADER = Some hv /\ blank hv = false.
Proof.
  intros Hk. unfold ensure_key_in_metadata, add_key_to_metadata.
  destruct (hs_get m HEADER) as [hv|] eqn:E; [|].
  - destruct (blank hv) eqn:Eb; [|by exists hv].
    destruct (hs_get_set m HEADER key) as (hv' & Hg & Hb). eauto.
  - simpl. destruct (hs_get_set m HEADER key) as (hv' & Hg & Hb). eauto.
Qed.

(** ** Theorems *)

(** Every operation keeps the keys lowercase: the constructor, insertion,
    appending, assignment and deletion, also when they raise. *)
Theorem metadata_keys_lowercase initial self index k v i a :
  md_ok (init initial) /\
  (md_ok self ->
   md_ok (insert i (k, v) self) /\ md_ok (add k v self) /\
   md_ok (setitem index a self).2 /\ md_ok (delitem index self).2).
Proof.
  split; [apply init_ok|]. intros Hs. split_and!;
    [by apply insert_ok| |by apply setitem_ok|by apply delitem_ok].
  apply Forall_app. split; [done|]. constructor; [apply py_lower_idem|constructor].
Qed.

Lemma getitem_add k k' v self :
  getitem_str k (add k' v self) =
  getitem_str k self ++ (if decide (py_lower k = py_lower k') then [v] else []).
Proof.
  unfold add. rewrite getitem_app. f_equal. unfold getitem_str. rewrite filter_cons. cbn [fst snd].
  case_decide; case_decide; csimpl; congruence.
Qed.

(** A key behaves as a case-insensitive map entry: assigning values
    replaces exactly the values of the key, whatever its case, and appends
    them in order, every other key keeps its values; deleting removes them;
    adding appends one; membership is having a value. *)
Theorem metadata_key_access self k k' (vs : list pystr) v :
  let set := setitem (IStr k') (AStrs (PStr <$> vs)) self in
  set.1 = Ok () /\
  getitem_str k set.2 = (if decide (py_lower k = py_lower k') then vs else getitem_str k self) /\
  getitem_str k (delitem_str k' self) =
    (if decide (py_lower k = py_lower k') then [] else getitem_str k self) /\
  getitem_str k (add k' v self) =
    getitem_str k self ++ (if decide (py_lower k = py_lower k') then [v] else []) /\
  contains (KeyItem k) self = negb (bool_decide (getitem_str k self = [])).
Proof.
  cbv zeta. split_and!.
  - apply append_values_Ok.
  - simpl. rewrite append_values_get by apply py_lower_idem. rewrite getitem_delitem, py_lower_idem.
    case_decide; [done|by rewrite app_nil_r].
  - apply getitem_delitem.
  - apply getitem_add.
  - apply contains_getitem.
Qed.

(** After the interceptor has run, the call carries a non-blank
    idempotency key, and a key that was there is kept; running it again (on a
    retry) changes nothing. *)
Theorem idempotency_key_kept {St} `{!HeaderStore St} {R} (empty : St) key m (continuation : St -> R) :
  key <> [] ->
  (exists s hv, intercept_unary_unary empty key m continuation = continuation s /\
     hs_get s HEADER = Some hv /\ blank hv = false) /\
  (forall s hv, m = Some s -> hs_get s HEADER = Some hv -> blank hv = false ->
     intercept_unary_unary empty key m continuation = continuation s) /\
  (forall s key', ensure_key_in_metadata key' (ensure_key_in_metadata key s) =
     ensure_key_in_metadata key s).
Proof.
  intros Hk. split_and!.
  - eexists. destruct (ensure_key_present key (match m with None => empty | Some s => s end) Hk)
      as (hv & Hg & Hb). exists hv. by split_and!.
  - intros s hv -> Hg Hb. unfold intercept_unary_unary, ensure_key_in_metadata. by rewrite Hg, Hb.
  - intros s key'. destruct (ensure_key_present key s Hk) as (hv & Hg & Hb).
    unfold ensure_key_in_metadata at 1. by rewrite Hg, Hb.
Qed.

End Metadata.

Lemma metadata_keys_lowercase_witness :
  let _ := ascii_py_lower in
  md_ok (insert 0 (u "X-Key", u "v") (init (Some [(PStr (u "A"), PStr (u "b"))]))) /\
  md_ok (add (u "X-Key") (u "v") (init (Some [(PStr (u "A"), PStr (u "b"))]))).
Proof.
  intros Hl. pose proof (metadata_keys_lowercase (Some [(PStr (u "A"), PStr (u "b"))])
    (init (Some [(PStr (u "A"), PStr (u "b"))])) IOther (u "X-Key") (u "v") 0 (AStr [])) as [Hi Hs].
  destruct (Hs Hi) as (H1 & H2 & _). by split.
Defined.

Lemma idempotency_key_kept_witness :
  let _ := ascii_py_lower in
  exists s hv, intercept_unary_unary [] (u "key") None (fun s => length s) = length s /\
    hs_get s HEADER = Some hv /\ blank hv = false.
Proof.
  intros Hl. apply (idempotency_key_kept [] (u "key") None (fun s : contents => length s)). done.
Defined.
