(* ===== verification/Methods.v ===== *)
(** * Method names and channel options

    The model of [src/nebius/base/methods.py] and [src/nebius/base/options.py].
    The regular expression of method names is deterministic: the leading
    delimiter is there exactly when the first character is one, the method is
    the run of word characters at the end and the separator stands before it;
    the matcher follows that reading.  Which characters [\w] accepts comes from
    the Unicode tables: it is a parameter, a class with the facts used. *)
From S2P Require Import Prelude PyStr.

(** ** Method names *)

Inductive method_error : Type := IndexError | InvalidMethodNameError (mismatch : bool).

Definition fix_name (method_name : pystr) : result method_error pystr :=
  match method_name with
  | [] => Raise IndexError
  | c :: rest =>
      if negb (c =? 47) then Ok method_name else Ok (str_replace rest (u "/") (u "."))
  end.

(** The characters of [[\w_]]. *)
Class WordChars := {
  is_word : Z -> bool;
  word_dot : is_word 46 = false;
  word_slash : is_word 47 = false
}.

Definition ascii_word (c : Z) : bool :=
  ((97 <=? c) && (c <=? 122)) || ((65 <=? c) && (c <=? 90)) || ((48 <=? c) && (c <=? 57)) || (c =? 95).

Definition ascii_words : WordChars := {| is_word := ascii_word; word_dot := eq_refl; word_slash := eq_refl |}.

Section Methods.
Context `{WordChars}.

Definition is_delim (c : Z) : bool := (c =? 46) || (c =? 47).

Definition is_name (s : pystr) : bool := match s with [] => false | _ :: _ => forallb is_word s end.

(** [[\w_]+(?:\.[\w_]+)*] *)
Definition is_service (s : pystr) : bool :=
  match split s (u ".") with Some parts => forallb is_name parts | None => false end.

(** The longest prefix of word characters and the rest. *)
Fixpoint take_word (s : pystr) : pystr * pystr :=
  match s with
  | [] => ([], [])
  | c :: s' => if is_word c then let '(w, r) := take_word s' in (c :: w, r) else ([], s)
  end.

(** [pattern.fullmatch]: leading delimiter, service, separator, method. *)
Definition fullmatch (input : pystr) : option (option Z * pystr * Z * pystr) :=
  let '(leading, rest) :=
    match input with
    | c :: r => if is_delim c then (Some c, r) else (None, input)
    | [] => (None, input)
    end in
  let '(rmethod, before) := take_word (reverse rest) in
  match rmethod, before with
  | _ :: _, separator :: rservice =>
      if is_delim separator && is_service (reverse rservice)
      then Some (leading, reverse rservice, separator, reverse rmethod) else None
  | _, _ => None
  end.

Definition service_from_method_name (input_string : pystr) : result method_error pystr :=
  match fullmatch input_string with
  | None => Raise (InvalidMethodNameError false)
  | Some (leading, service, separator, _) =>
      match leading with
      | Some l => if negb (separator =? l) then Raise (InvalidMethodNameError true) else Ok service
      | None => Ok service
      end
  end.

(** ** Lemmas *)

Lemma take_word_spec s w r :
  take_word s = (w, r) ->
  s = w ++ r /\ forallb is_word w = true /\ match r with [] => True | c :: _ => is_word c = false end.
Proof.
  revert w r. induction s as [|c s IH]; intros w r; simpl; [by intros [= <- <-]|].
  destruct (is_word c) eqn:E; [|by intros [= <- <-]].
  destruct (take_word s) as [w' r']. intros [= <- <-].
  destruct (IH w' r' eq_refl) as (-> & Hw & Hr). simpl. by rewrite E.
Qed.

Lemma take_word_app w c r :
  forallb is_word w = true -> is_word c = false -> take_word (w ++ c :: r) = (w, c :: r).
Proof.
  induction w as [|d w IH]; simpl; [intros _ ->; done|].
  intros [-> Hw]%andb_true_iff Hc. by rewrite IH.
Qed.

Lemma delim_not_word c : is_delim c = true -> is_word c = false.
Proof.
  unfold is_delim. intros [E|E]%orb_true_iff; apply Z.eqb_eq in E as ->; [apply word_dot|apply word_slash].
Qed.

Lemma service_head s : is_service s = true -> exists c s', s = c :: s' /\ is_word c = true.
Proof.
  unfold is_service, split. cbn [u]. destruct s as [|c s]; [done|]. simpl.
  case_bool_decide as Hc; [done|]. intros Hs. exists c, s. split; [done|].
  enough (forall cur s, cur <> [] -> forallb is_name (split_scan (u ".") 0 cur s) = true ->
    is_word (default 0 (last cur)) = true) as Hscan by (by apply (Hscan [c] s)).
  clear. intros cur s. revert cur. induction s as [|d s IH]; intros cur Hne; cbn [split_scan].
  - cbn [forallb]. rewrite andb_true_r. destruct cur as [|x cur _] using rev_ind; [done|].
    rewrite reverse_snoc, last_snoc. simpl. by intros [? _]%andb_true_iff.
  - destruct (startswith _ _).
    + cbn [forallb]. intros [Hn _]%andb_true_iff.
      destruct cur as [|x cur _] using rev_ind; [done|].
      rewrite reverse_snoc in Hn. rewrite last_snoc. simpl in *. by apply andb_true_iff in Hn as [? _].
    + intros Hs. specialize (IH (d :: cur) ltac:(done) Hs). destruct cur; [done|]. exact IH.
Qed.

(** The matcher finds the parts of a name put together from them. *)
Lemma fullmatch_parts leading service separator method :
  is_service service = true -> is_delim separator = true -> is_name method = true ->
  (forall l, leading = Some l -> is_delim l = true) ->
  fullmatch (match leading with Some l => [l] | None => [] end ++ service ++ separator :: method) =
  Some (leading, service, separator, method).
Proof.
  intros Hs Hsep Hm Hl. unfold fullmatch.
  assert ((match match leading with Some l => [l] | None => [] end ++ service ++ separator :: method with
    | c :: r => if is_delim c then (Some c, r)
                else (None, match leading with Some l => [l] | None => [] end ++ service ++ separator :: method)
    | [] => (None, match leading with Some l => [l] | None => [] end ++ service ++ separator :: method)
    end) = (leading, service ++ separator :: method)) as ->.
  { destruct leading as [l|]; simpl; [by rewrite (Hl l)|].
    destruct (service_head _ Hs) as (c & s' & -> & Hc). simpl.
    destruct (is_delim c) eqn:E; [|done]. apply delim_not_word in E. congruence. }
  rewrite reverse_app, reverse_cons, <- app_assoc. simpl.
  assert (is_name (reverse method) = true) as Hm'.
  { unfold is_name in *. destruct method as [|c m]; [done|].
    destruct (reverse (c :: m)) as [|d r] eqn:E; [by apply (f_equal length) in E; rewrite length_reverse in E|].
    by rewrite <- E, forallb_reverse. }
  rewrite take_word_app.
  - destruct (reverse method) as [|d r] eqn:Er; [done|].
    rewrite reverse_involutive, Hsep, Hs. simpl. by rewrite <- Er, reverse_involutive.
  - by destruct (reverse method).
  - by apply delim_not_word.
Qed.

Lemma fullmatch_inv input leading service separator method :
  fullmatch input = Some (leading, service, separator, method) ->
  input = match leading with Some l => [l] | None => [] end ++ service ++ separator :: method /\
  is_service service = true /\ is_delim separator = true /\ is_name method = true /\
  (forall l, leading = Some l -> is_delim l = true).
Proof.
  unfold fullmatch.
  destruct (match input with
    | c :: r => if is_delim c then (Some c, r) else (None, input)
    | [] => (None, input)
    end) as [lead rest] eqn:El.
  destruct (take_word (reverse rest)) as [w r] eqn:Ew.
  destruct w as [|c w]; [done|]. destruct r as [|sep rserv]; [done|].
  destruct (is_delim sep && _) eqn:E; [|done]. intros [= <- <- <- <-].
  apply andb_true_iff in E as [E1 E2].
  destruct (take_word_spec _ _ _ Ew) as (Hr & Hw & _).
  assert (rest = reverse rserv ++ sep :: reverse (c :: w)) as Hrest.
  { rewrite <- (reverse_involutive rest), Hr, reverse_app, reverse_cons, <- app_assoc. done. }
  split_and!; try done.
  - rewrite <- Hrest. destruct input as [|d i]; [by injection El as <- <-|].
    destruct (is_delim d); by injection El as <- <-.
  - unfold is_name. destruct (reverse (c :: w)) as [|d r] eqn:Er.
    + apply (f_equal length) in Er. by rewrite length_reverse in Er.
    + by rewrite <- Er, forallb_reverse.
  - intros l ->. destruct input as [|d i]; [done|]. destruct (is_delim d) eqn:Ed; [|done].
    by injection El as -> _.
Qed.

(** ** Theorems *)

(** The service of a method name is extracted from exactly the names of
    the form [<service><sep><method>], optionally led by the same delimiter,
    where the delimiter is a dot or a slash; a name whose leading delimiter is
    the other one is refused as inconsistent, any other as malformed. *)
Theorem method_name_service input :
  match service_from_method_name input with
  | Ok service =>
      exists lead separator method,
        input = lead ++ service ++ separator :: method /\ (lead = [] \/ lead = [separator]) /\
        is_service service = true /\ is_delim separator = true /\ is_name method = true
  | Raise e =>
      (forall service separator method,
         is_service service = true -> is_delim separator = true -> is_name method = true ->
         input <> service ++ separator :: method /\ input <> separator :: service ++ separator :: method) /\
      (e = InvalidMethodNameError true <->
       exists l service separator method, l <> separator /\ is_delim l = true /\
         input = l :: service ++ separator :: method /\
         is_service service = true /\ is_delim separator = true /\ is_name method = true)
  end.
Proof.
  unfold service_from_method_name.
  assert (forall s sep m, is_service s = true -> is_delim sep = true -> is_name m = true ->
    fullmatch (s ++ sep :: m) = Some (None, s, sep, m)) as Hnone
    by (intros; by apply (fullmatch_parts None)).
  assert (forall l s sep m, is_delim l = true -> is_service s = true -> is_delim sep = true ->
    is_name m = true -> fullmatch (l :: s ++ sep :: m) = Some (Some l, s, sep, m)) as Hsome
    by (intros; apply (fullmatch_parts (Some l)); try done; by intros ? [= <-]).
  destruct (fullmatch input) as [[[[lead service] sep] method]|] eqn:Ef.
  - pose proof (fullmatch_inv _ _ _ _ _ Ef) as (Hin & Hs & Hd & Hm & Hl).
    destruct lead as [l|]; simpl in Hin |- *.
    + destruct (sep =? l) eqn:E; simpl.
      * apply Z.eqb_eq in E as ->. exists [l], l, method. split_and!; try done. by right.
      * specialize (Hl l eq_refl). split.
        -- intros service' sep' method' Hs' Hd' Hm'. split; intros Heq; rewrite Heq in Ef.
           ++ rewrite Hnone in Ef by done. congruence.
           ++ rewrite Hsome in Ef by done. injection Ef as -> -> -> ->. lia.
        -- split; [|done]. intros _. exists l, service, sep, method. split_and!; try done. lia.
    + exists [], sep, method. split_and!; try done. by left.
  - split.
    + intros service' sep' method' Hs' Hd' Hm'. split; intros Heq; rewrite Heq in Ef.
      * by rewrite Hnone in Ef.
      * by rewrite Hsome in Ef.
    + split; [done|]. intros (l & s' & sep' & m' & _ & Hl & -> & Hs' & Hd' & Hm').
      by rewrite Hsome in Ef.
Qed.

End Methods.

(** ** Channel options *)

Section Options.
Context {V : Type} (is_expected : V -> bool).

Inductive option_error : Type := WrongTypeError (name : pystr) (received : V).

(** The loop of [pop_options]; [is_expected] is the [isinstance] test. *)
Fixpoint pop_options_loop (args : list (pystr * V)) (name : pystr) (ret : list (pystr * V))
    (found : list V) : result option_error (list (pystr * V) * list V) :=
  match args with
  | [] => Ok (ret, found)
  | arg :: args =>
      if bool_decide (arg.1 = name) then
        if is_expected arg.2 then pop_options_loop args name ret (found ++ [arg.2])
        else Raise (WrongTypeError name arg.2)
      else pop_options_loop args name (ret ++ [arg]) found
  end.

Definition pop_options (args : list (pystr * V)) (name : pystr) :
    result option_error (list (pystr * V) * list V) := pop_options_loop args name [] [].

Definition pop_option (args : list (pystr * V)) (name : pystr) :
    result option_error (list (pystr * V) * option V) :=
  '(ret, found) ← pop_options args name; Ok (ret, last found).

Lemma pop_options_loop_spec args name ret found :
  pop_options_loop args name ret found =
  match list_find (fun arg : pystr * V => arg.1 = name /\ is_expected arg.2 = false) args with
  | Some (_, arg) => Raise (WrongTypeError name arg.2)
  | None => Ok (ret ++ filter (fun arg => arg.1 <> name) args,
                found ++ (filter (fun arg => arg.1 = name) args).*2)
  end.
Proof.
  revert ret found. induction args as [|[k v] args IH]; intros ret found; cbn [pop_options_loop].
  - by rewrite !app_nil_r.
  - rewrite !filter_cons. simpl. case_bool_decide as Hk; simpl.
    + subst. rewrite (decide_False (P := name <> name)) by tauto. rewrite (decide_True (P := name = name)) by done.
      destruct (is_expected v) eqn:Ev.
      * rewrite decide_False by (intros [_ ?]; congruence). rewrite IH.
        destruct (list_find _ args) as [[i a]|]; [done|]. simpl. by rewrite <- app_assoc.
      * by rewrite decide_True.
    + rewrite decide_False by (intros [? _]; done). rewrite (decide_True (P := k <> name)) by done.
      rewrite (decide_False (P := k = name)) by done. rewrite IH.
      destruct (list_find _ args) as [[i a]|]; [done|]. simpl. by rewrite <- app_assoc.
Qed.

(** Popping an option returns the other arguments unchanged and in order,
    with the values of the option in order ([pop_option]: the last one); it
    raises exactly when a value of the option has the wrong type. *)
Theorem pop_options_partition args name :
  match pop_options args name with
  | Ok (ret, found) =>
      ret = filter (fun arg => arg.1 <> name) args /\
      found = (filter (fun arg => arg.1 = name) args).*2 /\
      Forall (fun v => is_expected v = true) found /\
      pop_option args name = Ok (ret, last found)
  | Raise (WrongTypeError n v) =>
      n = name /\ (name, v) ∈ args /\ is_expected v = false /\
      pop_option args name = Raise (WrongTypeError n v)
  end.
Proof.
  unfold pop_option. pose proof (pop_options_loop_spec args name [] []) as Hp.
  fold (pop_options args name) in Hp. rewrite Hp. clear Hp.
  destruct (list_find _ args) as [[i [k v]]|] eqn:Ef; simpl.
  - apply list_find_Some in Ef as (Hi & [Hk Hv] & _). simpl in *. subst k. split_and!; try done.
    apply list_elem_of_lookup. by exists i.
  - apply list_find_None in Ef. split_and!; try done. apply Forall_forall. intros v Hv.
    apply list_elem_of_fmap in Hv as ([k v'] & -> & Hin). apply list_elem_of_filter in Hin as [Hk Hin].
    rewrite Forall_forall in Ef. specialize (Ef _ Hin). simpl in *.
    destruct (is_expected v') eqn:E; [done|]. by destruct Ef.
Qed.

End Options.
