(* ===== verification/PythonicNames.v ===== *)
(** * Python names for protobuf identifiers

    The model of [src/nebius/base/protos/pythonic_names.py].  Names are renamed
    when they are Python keywords or look like magic methods, and also when
    they could collide with a renamed name; the theorems say that the renaming
    is injective within a container and that its results are usable.

    The keyword lists depend on the Python version: a class states what is used
    of them.  Protobuf identifiers are ASCII, so [lower] and [upper] are the
    ASCII conversions. *)
From S2P Require Import Prelude PyStr.

Definition UNDERSCORE : Z := 95.
Definition NEWLINE : Z := 10.

Class Keywords := {
  is_reserved_name : pystr -> bool;
  (** The only reserved name with an underscore is the underscore. *)
  reserved_underscore s : is_reserved_name s = true -> s = [UNDERSCORE] \/ UNDERSCORE ∉ s;
  reserved_nonempty : is_reserved_name [] = false
}.

(** Python 3.12. *)
Definition kwlist : list pystr :=
  map u ["False"; "None"; "True"; "and"; "as"; "assert"; "async"; "await"; "break"; "class";
    "continue"; "def"; "del"; "elif"; "else"; "except"; "finally"; "for"; "from"; "global"; "if";
    "import"; "in"; "is"; "lambda"; "nonlocal"; "not"; "or"; "pass"; "raise"; "return"; "try";
    "while"; "with"; "yield"; "_"; "case"; "match"; "type"]%string.

Program Definition python312 : Keywords := {| is_reserved_name s := bool_decide (s ∈ kwlist) |}.
Next Obligation.
  intros s Hs%bool_decide_eq_true.
  assert (Forall (fun s => s = [UNDERSCORE] \/ UNDERSCORE ∉ s) kwlist) as Hall.
  { apply (bool_decide_unpack _). vm_compute. exact I. }
  rewrite Forall_forall in Hall. auto.
Qed.
Next Obligation. reflexivity. Qed.

Inductive name_error : Type := Reserved | Magic | NotCanonical | LeadingUnderscore | IndexError.

(** ** Regular expressions *)

(** Any text up to [$], on the rest of a name: a dot does not match a newline
    and [$] also matches before a final one. *)
Definition dot_star_end (s : pystr) : option pystr :=
  if negb (str_contains NEWLINE s) then Some s
  else match reverse s with
       | c :: r => if (c =? NEWLINE) && negb (str_contains NEWLINE (reverse r)) then Some (reverse r) else None
       | [] => None
       end.

(** The longest run of one character, and the rest. *)
Fixpoint take_run (c : Z) (s : pystr) : nat * pystr :=
  match s with
  | d :: s' => if d =? c then let '(n, r) := take_run c s' in (S n, r) else (0%nat, s)
  | [] => (0%nat, [])
  end.

(** The pattern of a renamed keyword: one or more [c], an underscore, the rest. *)
Definition match_reserved (c : Z) (s : pystr) : option (pystr * pystr) :=
  match take_run c s with
  | (S n, d :: rest) =>
      if d =? UNDERSCORE then
        something ← dot_star_end rest; Some (replicate (S n) c, something)
      else None
  | _ => None
  end.

(** [X__] without the two underscores. *)
Definition strip_dunder (s : pystr) : option pystr :=
  match reverse s with
  | a :: b :: r => if (a =? UNDERSCORE) && (b =? UNDERSCORE) then Some (reverse r) else None
  | _ => None
  end.

(** The pattern of a renamed magic name: an underscore, any number of [c], an
    underscore, the rest and two underscores. *)
Definition match_magic (c : Z) (s : pystr) : option (pystr * pystr) :=
  match s with
  | a :: s' =>
      if a =? UNDERSCORE then
        match take_run c s' with
        | (n, d :: rest) =>
            if d =? UNDERSCORE then
              body ← dot_star_end rest; something ← strip_dunder body;
              Some (replicate n c, something)
            else None
        | _ => None
        end
      else None
  | [] => None
  end.

(** Two underscores at either end. *)
Definition is_magic (s : pystr) : bool :=
  match s with
  | a :: b :: rest =>
      (a =? UNDERSCORE) && (b =? UNDERSCORE) &&
      match dot_star_end rest ≫= strip_dunder with Some _ => true | None => false end
  | _ => false
  end.

(** An optional underscore, one character of [first], any number of [rest]. *)
Definition pep8 (first rest : Z -> bool) (s : pystr) : bool :=
  let s := match s with c :: s' => if c =? UNDERSCORE then s' else s | [] => s end in
  match s with
  | c :: s' => first c && match dot_star_end s' with Some t => forallb rest t | None => false end
  | [] => false
  end.

Definition is_upper (c : Z) : bool := (65 <=? c) && (c <=? 90).
Definition is_lower (c : Z) : bool := (97 <=? c) && (c <=? 122).
Definition is_digit (c : Z) : bool := (48 <=? c) && (c <=? 57).

Definition pep8_const (s : pystr) : bool :=
  pep8 is_upper (fun c => is_upper c || is_digit c || (c =? UNDERSCORE)) s.
Definition pep8_class (s : pystr) : bool :=
  pep8 is_upper (fun c => is_lower c || is_upper c || is_digit c || (c =? UNDERSCORE)) s.
Definition pep8_method (s : pystr) : bool :=
  pep8 is_lower (fun c => is_lower c || is_digit c || (c =? UNDERSCORE)) s.
Definition pep8_attr (s : pystr) : bool := pep8_method s.

(** ** Names *)

Fixpoint first_non_underscore (s : pystr) : option Z :=
  match s with
  | [] => None
  | c :: s => if c =? UNDERSCORE then first_non_underscore s else Some c
  end.

Section Names.
Context `{Keywords}.

(** The first letter of the container, in the case of the new name. *)
Definition container_letter (container_name : pystr) (lower : bool) : Z :=
  let c := default 120 (first_non_underscore container_name) in
  if lower then lower_char c else upper_char c.

Definition _modify_name (suggested_name container_name : pystr) (lower : bool) : pystr :=
  let c := container_letter container_name lower in
  if is_reserved_name suggested_name then [c; UNDERSCORE] ++ suggested_name else
  let check_magic :=
    match match_magic c suggested_name with
    | Some (prefix, something) =>
        [UNDERSCORE] ++ prefix ++ [c; UNDERSCORE] ++ something ++ [UNDERSCORE; UNDERSCORE]
    | None => suggested_name
    end in
  match match_reserved c suggested_name with
  | Some (prefix, something) =>
      if is_reserved_name something then prefix ++ [c; UNDERSCORE] ++ something else check_magic
  | None => check_magic
  end.

(** The checks of an annotated name. *)
Definition check_annotated (canonical : pystr -> bool) (annotated_name : pystr) :
    result name_error pystr :=
  if is_reserved_name annotated_name then Raise Reserved
  else if is_magic annotated_name then Raise Magic
  else if negb (canonical annotated_name) then Raise NotCanonical
  else if startswith annotated_name [UNDERSCORE] then Raise LeadingUnderscore
  else Ok annotated_name.

Definition _class_name (full_name annotated_name : pystr) : result name_error pystr :=
  match annotated_name with
  | _ :: _ => check_annotated pep8_class annotated_name
  | [] =>
      let name_parts := default [] (split full_name (u ".")) in
      let class_name := default [] (last name_parts) in
      let container_name :=
        if (1 <? length name_parts)%nat then default [] (name_parts !! (length name_parts - 2)%nat)
        else [] in
      Ok (_modify_name class_name container_name true)
  end.

Definition enum (full_enum_name annotated_name : pystr) : result name_error pystr :=
  _class_name full_enum_name annotated_name.

Definition message (full_enum_name annotated_name : pystr) : result name_error pystr :=
  _class_name full_enum_name annotated_name.

Definition service (full_service_name annotated_name : pystr) : result name_error pystr :=
  _class_name full_service_name annotated_name.

Definition one_of (field_name message_name annotated_name : pystr) : result name_error pystr :=
  match annotated_name with
  | _ :: _ => check_annotated pep8_attr annotated_name
  | [] => Ok (_modify_name field_name message_name true)
  end.

Definition field (field_name message_name annotated_name : pystr) : result name_error pystr :=
  match annotated_name with
  | _ :: _ => check_annotated pep8_attr annotated_name
  | [] => Ok (_modify_name field_name message_name true)
  end.

Definition enum_value (value_name enum_name annotated_name : pystr) : result name_error pystr :=
  match annotated_name with
  | _ :: _ => check_annotated pep8_const annotated_name
  | [] => Ok (_modify_name value_name enum_name false)
  end.

(** ** Snake case *)

(** The first substitution: one more underscore before each run of them. *)
Fixpoint sub_runs (in_run : bool) (s : pystr) : pystr :=
  match s with
  | [] => []
  | c :: s =>
      if c =? UNDERSCORE
      then (if in_run then [c] else [UNDERSCORE; c]) ++ sub_runs true s
      else c :: sub_runs false s
  end.

(** The other substitutions: an underscore before a character of [first] that
    stands behind one of [behind] and, when [second] is given, before one of
    [second], a class disjoint from [first]; [prev] is the character behind. *)
Fixpoint sub_after (behind first : Z -> bool) (second : option (Z -> bool)) (prev : option Z)
    (s : pystr) : pystr :=
  match s with
  | [] => []
  | c :: s' =>
      let hit :=
        match prev with Some p => behind p | None => false end && first c &&
        match second with
        | None => true
        | Some f => match s' with d :: _ => f d | [] => false end
        end in
      (if hit then [UNDERSCORE; c] else [c]) ++ sub_after behind first second (Some c) s'
  end.

Definition pascal_to_snake_case (name : pystr) : result name_error pystr :=
  match name with
  | [] => Raise IndexError
  | c :: _ =>
      let has_underscore := c =? UNDERSCORE in
      let name := sub_runs false name in
      let name := sub_after is_upper is_upper (Some is_lower) None name in
      let name := sub_after (fun c => c =? UNDERSCORE) is_lower None None name in
      let name := sub_after (fun c => is_lower c || is_digit c) is_upper None None name in
      let name :=
        match name with
        | d :: rest => if negb has_underscore && (d =? UNDERSCORE) then rest else name
        | [] => name
        end in
      Ok (ascii_lower name)
  end.

Definition method (method_name service_name annotated_name : pystr) : result name_error pystr :=
  match annotated_name with
  | _ :: _ => check_annotated pep8_method annotated_name
  | [] =>
      snake ← pascal_to_snake_case method_name;
      Ok (_modify_name snake service_name true)
  end.

Example snake_1 : pascal_to_snake_case (u "GetHTTPServer") = Ok (u "get_http_server").
Proof. reflexivity. Qed.
Example snake_2 : pascal_to_snake_case (u "Foo_bar") = Ok (u "foo___bar").
Proof. reflexivity. Qed.

(** ** Lemmas *)

Lemma take_run_spec c s n r :
  take_run c s = (n, r) -> s = replicate n c ++ r /\ head r <> Some c.
Proof.
  revert n r. induction s as [|d s IH]; intros n r; simpl; [by intros [= <- <-]|].
  destruct (d =? c) eqn:E.
  - apply Z.eqb_eq in E as ->. destruct (take_run c s) as [n' r']. intros [= <- <-].
    destruct (IH n' r' eq_refl) as [-> ?]. done.
  - intros [= <- <-]. split; [done|]. simpl. intros [= ->]. lia.
Qed.

Lemma take_run_app c d n r :
  d <> c -> take_run c (replicate n c ++ d :: r) = (n, d :: r).
Proof.
  intros Hd. induction n as [|n IH]; simpl; [by replace (d =? c) with false by lia|].
  by rewrite Z.eqb_refl, IH.
Qed.

Lemma dot_star_plain s : NEWLINE ∉ s -> dot_star_end s = Some s.
Proof. intros Hs. unfold dot_star_end, str_contains. by rewrite bool_decide_false. Qed.

Lemma strip_dunder_spec s X : strip_dunder s = Some X <-> s = X ++ [UNDERSCORE; UNDERSCORE].
Proof.
  unfold strip_dunder. split.
  - destruct (reverse s) as [|a [|b r]] eqn:E; [done..|]. destruct (_ && _) eqn:Eb; [|done].
    intros [= <-]. assert (a = UNDERSCORE /\ b = UNDERSCORE) as [-> ->] by lia.
    rewrite <- (reverse_involutive s), E, !reverse_cons, <- app_assoc. done.
  - intros ->. rewrite reverse_app. simpl. by rewrite reverse_involutive.
Qed.

Section Container.
Context (c : Z) (Hc : c <> UNDERSCORE).

(** The [n]-fold renaming of a keyword, and of a magic name. *)
Definition renamed (n : nat) (R : pystr) : pystr :=
  match n with O => R | S _ => replicate n c ++ UNDERSCORE :: R end.
Definition magic (n : nat) (X : pystr) : pystr :=
  UNDERSCORE :: replicate n c ++ UNDERSCORE :: X ++ [UNDERSCORE; UNDERSCORE].

Lemma run_inj n m x y :
  replicate n c ++ UNDERSCORE :: x = replicate m c ++ UNDERSCORE :: y -> n = m /\ x = y.
Proof using Hc.
  intros H1. pose proof (take_run_app c UNDERSCORE n x ltac:(done)) as E1.
  rewrite H1, take_run_app in E1 by done. by injection E1 as -> ->.
Qed.

Lemma match_reserved_spec s prefix something :
  NEWLINE ∉ s ->
  match_reserved c s = Some (prefix, something) <->
  exists n, prefix = replicate (S n) c /\ s = renamed (S n) something.
Proof using Hc.
  intros Hs. unfold match_reserved. destruct (take_run c s) as [n r] eqn:E.
  pose proof (take_run_spec _ _ _ _ E) as [-> Hr]. split.
  - destruct n as [|n]; [done|]. destruct r as [|d rest]; [done|].
    destruct (d =? UNDERSCORE) eqn:Ed; [|done]. apply Z.eqb_eq in Ed as ->.
    rewrite dot_star_plain.
    + intros [= <- <-]. by exists n.
    + intros Hin. apply Hs, elem_of_app. right. by right.
  - intros (m & -> & Heq). unfold renamed in Heq.
    rewrite Heq, take_run_app in E by done. injection E as <- <-. rewrite dot_star_plain; [done|].
    intros Hin. apply Hs, elem_of_app. right. by right.
Qed.

Lemma match_magic_spec s prefix something :
  NEWLINE ∉ s ->
  match_magic c s = Some (prefix, something) <->
  exists n, prefix = replicate n c /\ s = magic n something.
Proof using Hc.
  intros Hs. unfold match_magic, magic. destruct s as [|a s]; [split; [done|by intros (? & _ & ?)]|].
  destruct (a =? UNDERSCORE) eqn:Ea; [apply Z.eqb_eq in Ea as ->|
    split; [done|intros (? & _ & [= -> _]); lia]].
  apply not_elem_of_cons in Hs as [_ Hs].
  destruct (take_run c s) as [n r] eqn:E. pose proof (take_run_spec _ _ _ _ E) as [-> Hr]. split.
  - destruct r as [|d rest]; [done|]. destruct (d =? UNDERSCORE) eqn:Ed; [|done].
    apply Z.eqb_eq in Ed as ->. rewrite dot_star_plain.
    + simpl. destruct (strip_dunder rest) as [X|] eqn:Ex; [|done]. apply strip_dunder_spec in Ex as ->.
      intros [= <- <-]. by exists n.
    + intros Hin. apply Hs, elem_of_app. right. by right.
  - intros (m & -> & [= Heq]). rewrite Heq, take_run_app in E by done. injection E as <- <-.
    rewrite dot_star_plain.
    + simpl. by rewrite (proj2 (strip_dunder_spec _ something) eq_refl).
    + intros Hin. apply Hs, elem_of_app. right. by right.
Qed.

(** The three ways a name is treated. *)
Definition treated (s out : pystr) : Prop :=
  (exists n R, is_reserved_name R = true /\ s = renamed n R /\ out = renamed (S n) R) \/
  (exists n X, s = magic n X /\ out = magic (S n) X) \/
  (out = s /\ (forall n R, is_reserved_name R = true -> s <> renamed n R) /\
   (forall n X, s <> magic n X)).

Lemma replicate_snoc n : replicate n c ++ [c] = replicate (S n) c.
Proof. by rewrite <- replicate_cons_app. Qed.

Lemma renamed_magic n R m X : renamed (S n) R <> magic m X.
Proof using Hc. unfold renamed, magic. intros [= E _]. done. Qed.

Lemma treated_inj s1 s2 out : treated s1 out -> treated s2 out -> s1 = s2.
Proof using Hc.
  intros [(n & R & HR & -> & E1)|[(n & X & -> & E1)|(E1 & H1 & H2)]]
         [(m & R' & HR' & -> & E2)|[(m & X' & -> & E2)|(E2 & G1 & G2)]]; subst out; try congruence.
  - apply run_inj in E2 as [[= ->] ->]. done.
  - by apply renamed_magic in E2.
  - symmetry in E2. by apply G1 in E2.
  - symmetry in E2. by apply renamed_magic in E2.
  - unfold magic in E2. injection E2 as E2. apply run_inj in E2 as [-> E2].
    apply app_inj_2 in E2 as [-> _]; done.
  - by apply H1 in E2.
Qed.

Lemma is_magic_spec s : NEWLINE ∉ s -> is_magic s = true -> exists X, s = magic 0 X.
Proof.
  intros Hs. unfold is_magic, magic. destruct s as [|a [|b rest]]; [done..|].
  intros [[Ha Hb]%andb_true_iff Hr]%andb_true_iff.
  apply not_elem_of_cons in Hs as [_ Hs]. apply not_elem_of_cons in Hs as [_ Hs].
  rewrite dot_star_plain in Hr by done. simpl in Hr.
  destruct (strip_dunder rest) as [X|] eqn:Ex; [|done]. apply strip_dunder_spec in Ex as ->.
  apply Z.eqb_eq in Ha as ->. apply Z.eqb_eq in Hb as ->. by exists X.
Qed.

Lemma treated_usable s out :
  treated s out -> NEWLINE ∉ s -> c <> NEWLINE -> is_reserved_name out = false /\ is_magic out = false.
Proof using Hc.
  assert (forall x y z, is_reserved_name (x :: y ++ UNDERSCORE :: z) = false) as Hres.
  { intros x y z. destruct (is_reserved_name _) eqn:E; [|done].
    apply reserved_underscore in E as [E|E]; [by destruct y|]. destruct E. right.
    apply elem_of_app. right. left. }
  intros [(n & R & HR & -> & ->)|[(n & X & -> & ->)|(-> & H1 & H2)]] Hs Hn; (split; [|]).
  - apply (Hres c (replicate n c)).
  - unfold is_magic, renamed. simpl. replace (c =? UNDERSCORE) with false by lia. by repeat case_match.
  - apply (Hres UNDERSCORE (replicate (S n) c)).
  - unfold is_magic, magic. simpl. by replace (c =? UNDERSCORE) with false by lia.
  - destruct (is_reserved_name s) eqn:E; [|done]. by destruct (H1 0%nat s E).
  - destruct (is_magic s) eqn:E; [|done]. apply is_magic_spec in E as [X E]; [|done].
    by destruct (H2 0%nat X).
Qed.

End Container.

Lemma container_letter_ok container lower :
  NEWLINE ∉ container ->
  container_letter container lower <> UNDERSCORE /\ container_letter container lower <> NEWLINE.
Proof.
  intros Hn. assert (forall d, first_non_underscore container = Some d -> d <> UNDERSCORE /\ d <> NEWLINE) as Hd.
  { induction container as [|d s IH]; simpl; [done|]. apply not_elem_of_cons in Hn as [Hd Hn].
    destruct (d =? UNDERSCORE) eqn:E; [auto|]. intros d' [= <-]. lia. }
  unfold container_letter. destruct (first_non_underscore container) as [d|]; simpl; [|by destruct lower].
  specialize (Hd d eq_refl). unfold UNDERSCORE, NEWLINE in *. unfold lower_char, upper_char.
  destruct lower; case_match; lia.
Qed.

Lemma modify_treated s container lower :
  NEWLINE ∉ s -> NEWLINE ∉ container ->
  treated (container_letter container lower) s (_modify_name s container lower).
Proof.
  intros Hs Hcn. destruct (container_letter_ok container lower Hcn) as [Hc _].
  unfold _modify_name. set (c := container_letter container lower) in *.
  destruct (is_reserved_name s) eqn:Er; [left; by exists 0%nat, s|].
  set (check := match match_magic c s with Some _ => _ | None => _ end).
  assert ((forall n R, is_reserved_name R = true -> s <> renamed c n R) -> treated c s check) as Hcheck.
  { intros Hnr. subst check. destruct (match_magic c s) as [[prefix something]|] eqn:Em.
    - apply match_magic_spec in Em as (n & -> & ->); [|done..]. right. left.
      exists n, something. split; [done|]. unfold magic.
      change ([UNDERSCORE] ++ replicate n c ++ [c; UNDERSCORE] ++ something ++ [UNDERSCORE; UNDERSCORE])
        with (UNDERSCORE :: replicate n c ++ [c] ++ UNDERSCORE :: something ++ [UNDERSCORE; UNDERSCORE]).
      by rewrite app_assoc, replicate_snoc.
    - right. right. split; [done|]. split; [done|]. intros n X ->.
      assert (match_magic c (magic c n X) = Some (replicate n c, X)) as E; [|congruence].
      apply match_magic_spec; [done|done|]. by exists n. }
  destruct (match_reserved c s) as [[prefix something]|] eqn:Em.
  - apply match_reserved_spec in Em as (n & -> & ->); [|done..].
    destruct (is_reserved_name something) eqn:Es.
    + left. exists (S n), something. split; [done|]. split; [done|]. unfold renamed.
      change ([c; UNDERSCORE] ++ something) with ([c] ++ UNDERSCORE :: something).
      by rewrite app_assoc, replicate_snoc.
    + apply Hcheck. intros [|m] R HR Heq; [change (renamed c 0 R) with R in Heq; congruence|].
      apply (run_inj c Hc (S n) (S m)) in Heq as [_ ->]. congruence.
  - apply Hcheck. intros [|m] R HR Heq; [change (renamed c 0 R) with R in Heq; congruence|]. subst s.
    assert (match_reserved c (renamed c (S m) R) = Some (replicate (S m) c, R)) as E; [|congruence].
    apply match_reserved_spec; [done|done|]. by exists m.
Qed.

(** *** Snake case only inserts underscores *)

Definition squeeze (s : pystr) : pystr := filter (fun c => c <> UNDERSCORE) s.

Lemma squeeze_app s t : squeeze (s ++ t) = squeeze s ++ squeeze t.
Proof. apply filter_app. Qed.

Lemma squeeze_under s : squeeze (UNDERSCORE :: s) = squeeze s.
Proof. unfold squeeze. rewrite filter_cons_False; [done|]. by intros []. Qed.

Lemma sub_runs_squeeze b s : squeeze (sub_runs b s) = squeeze s.
Proof.
  revert b. induction s as [|c s IH]; intros b; [done|]. cbn [sub_runs].
  destruct (c =? UNDERSCORE) eqn:E.
  - apply Z.eqb_eq in E as ->. rewrite squeeze_app, IH, squeeze_under. by destruct b.
  - change (c :: sub_runs false s) with ([c] ++ sub_runs false s).
    change (c :: s) with ([c] ++ s). by rewrite !squeeze_app, IH.
Qed.

Lemma sub_after_squeeze behind first second prev s :
  squeeze (sub_after behind first second prev s) = squeeze s.
Proof.
  revert prev. induction s as [|c s IH]; intros prev; [done|]. cbn [sub_after].
  change (c :: s) with ([c] ++ s). rewrite !squeeze_app, IH. f_equal.
  destruct (_ && _ && _); [|done]. apply squeeze_under.
Qed.

Lemma squeeze_lower s : squeeze (ascii_lower s) = ascii_lower (squeeze s).
Proof.
  unfold squeeze, ascii_lower. induction s as [|c s IH]; [done|]. csimpl. rewrite !filter_cons.
  assert (lower_char c <> UNDERSCORE <-> c <> UNDERSCORE) as Hl
    by (unfold lower_char, UNDERSCORE; case_match; lia).
  destruct (decide (c <> UNDERSCORE)).
  - rewrite decide_True by tauto. csimpl. by rewrite IH.
  - rewrite decide_False by tauto. done.
Qed.

(** ** Theorems *)

(** Within a container, two different protobuf names never get the same
    Python name: renamed keywords and magic names do not collide with names
    that already look renamed. *)
Theorem modify_name_injective s1 s2 container lower :
  NEWLINE ∉ s1 -> NEWLINE ∉ s2 -> NEWLINE ∉ container ->
  _modify_name s1 container lower = _modify_name s2 container lower -> s1 = s2.
Proof.
  intros H1 H2 Hn Heq. destruct (container_letter_ok container lower Hn) as [Hc _].
  apply (treated_inj _ Hc s1 s2 (_modify_name s1 container lower)); [by apply modify_treated|].
  rewrite Heq. by apply modify_treated.
Qed.

(** A derived name is neither a Python keyword nor a magic-method name. *)
Theorem modify_name_usable s container lower :
  NEWLINE ∉ s -> NEWLINE ∉ container ->
  is_reserved_name (_modify_name s container lower) = false /\
  is_magic (_modify_name s container lower) = false.
Proof.
  intros Hs Hn. destruct (container_letter_ok container lower Hn) as [Hc Hc'].
  by apply (treated_usable (container_letter container lower) Hc s); [apply modify_treated|..].
Qed.

(** Converting a method name to snake case gives lowercase text and only
    inserts underscores: without them it is the lowercased method name. *)
Theorem snake_case_letters name :
  match pascal_to_snake_case name with
  | Ok snake =>
      Forall (fun c => is_upper c = false) snake /\
      squeeze snake = ascii_lower (squeeze name)
  | Raise e => e = IndexError /\ name = []
  end.
Proof.
  unfold pascal_to_snake_case. destruct name as [|c name]; [done|].
  set (full := c :: name).
  set (t := sub_after (fun c => is_lower c || is_digit c) is_upper None None _).
  assert (squeeze t = squeeze full) as Ht.
  { subst t. by rewrite !sub_after_squeeze, sub_runs_squeeze. }
  split.
  - unfold ascii_lower. apply Forall_fmap, Forall_true. intros d. simpl.
    unfold is_upper, lower_char. case_match; lia.
  - rewrite squeeze_lower. f_equal. destruct t as [|d t]; [done|].
    destruct (negb _ && _) eqn:E; [|done]. apply andb_true_iff in E as [_ E].
    apply Z.eqb_eq in E as ->. by rewrite <- Ht, squeeze_under.
Qed.

End Names.

Lemma modify_name_injective_witness :
  let _ := python312 in
  _modify_name (u "class") (u "Course") true = u "c_class" /\
  _modify_name (u "c_class") (u "Course") true = u "cc_class" /\
  (_modify_name (u "class") (u "Course") true = _modify_name (u "class") (u "Course") true ->
   u "class" = u "class").
Proof.
  intros kw. split; [reflexivity|]. split; [reflexivity|].
  apply (modify_name_injective (u "class") (u "class") (u "Course") true);
    apply (bool_decide_unpack _); vm_compute; exact I.
Defined.

Lemma modify_name_usable_witness :
  let _ := python312 in
  is_reserved_name (_modify_name (u "__init__") (u "Course") true) = false /\
  is_magic (_modify_name (u "__init__") (u "Course") true) = false.
Proof.
  intros kw. apply (modify_name_usable (u "__init__") (u "Course") true);
    apply (bool_decide_unpack _); vm_compute; exact I.
Defined.
