(* ===== verification/TokenCache.v ===== *)
(** * Tokens and the token file cache

    The model of the [Token] class of [src/nebius/aio/token/token.py], of
    [src/nebius/aio/token/file_cache/token_cache.py] and of
    [src/nebius/aio/token/file_cache/throttled_token_cache.py].

    A [datetime] is the number of microseconds since the epoch; the conversion
    to seconds truncates, which is what [int(x.timestamp())] does for the dates
    before the year 2242, where the [float] keeps every microsecond apart.
    The YAML package is a parameter: a class of load and dump functions over
    what a file holds, with the facts used.  A disk is the content of the cache
    file, absent when there is no file; a locked section is one transition of
    the disk, at the time its clock was read.  Directory creation, permissions
    and lock timeouts are not modelled. *)
From S2P Require Import Prelude PyStr Json Sanitizer.

(** ** YAML values *)

#[local] Unset Elimination Schemes.
Inductive yaml : Type :=
| YNull
| YBool (b : bool)
| YInt (n : Z)
| YStr (s : pystr)
| YMap (entries : list (yaml * yaml))
| YOther (truthy : bool).
#[local] Set Elimination Schemes.

(** [data.get(key)] for a string key. *)
Fixpoint ymap_get (entries : list (yaml * yaml)) (key : pystr) : option yaml :=
  match entries with
  | [] => None
  | (YStr k, v) :: entries => if bool_decide (k = key) then Some v else ymap_get entries key
  | _ :: entries => ymap_get entries key
  end.

(** Truth value. *)
Definition truthy (v : yaml) : bool :=
  match v with
  | YNull | YBool false | YInt 0 | YStr [] | YMap [] => false
  | YOther b => b
  | _ => true
  end.

(** [isinstance(v, int)] and the number. *)
Definition yaml_int (v : yaml) : option Z :=
  match v with YInt n => Some n | YBool b => Some (if b then 1 else 0) | _ => None end.

(** ** Token *)

Inductive token_error : Type := ValueError | OverflowError.

Definition second : Z := 1000000.

Record Token : Type := mkToken { _tok : pystr; _exp : option Z }.

#[export] Instance Token_eq_dec : EqDecision Token.
Proof. solve_decision. Defined.

Module Token.

Definition empty : Token := mkToken [] None.

Definition is_empty (self : Token) : bool := bool_decide (_tok self = []).

Definition is_expired (now : Z) (self : Token) : bool :=
  match _exp self with None => false | Some e => e <=? now end.

(** [self == value] for a token [value]. *)
Definition eqb (self value : Token) : bool :=
  bool_decide (_tok self = _tok value) && bool_decide (_exp self = _exp value).

Definition to_dict (self : Token) : yaml :=
  YMap [(YStr (u "token"), YStr (_tok self));
        (YStr (u "expires_at"),
         match _exp self with Some e => YInt (Z.quot e second) | None => YNull end)].

(** [datetime.fromtimestamp(n, tz=timezone.utc)]: the years 1 to 9999, and
    [OverflowError] beyond the platform's 64-bit [time_t]. *)
Definition fromtimestamp (n : Z) : result token_error Z :=
  if (n <? - 2 ^ 63) || (2 ^ 63 <=? n) then Raise OverflowError
  else if (n <? -62135596800) || (253402300799 <? n) then Raise ValueError
  else Ok (n * second).

Definition from_dict (data : yaml) : result token_error Token :=
  match data with
  | YMap entries =>
      let token := default (YStr []) (ymap_get entries (u "token")) in
      let token := match token with YNull => YStr [] | t => t end in
      match token with
      | YStr tok =>
          match default YNull (ymap_get entries (u "expires_at")) with
          | YNull => Ok (mkToken tok None)
          | expires_at =>
              match yaml_int expires_at with
              | None => Raise ValueError
              | Some n =>
                  if truthy expires_at
                  then e ← fromtimestamp n; Ok (mkToken tok (Some e))
                  else Ok (mkToken tok None)
              end
          end
      | _ => Raise ValueError
      end
  | _ => Raise ValueError
  end.

(** [str(token)]: the parts up to the expiration. *)
Definition str_head (self : Token) : result sanitize_error pystr :=
  if is_empty self then Ok (u "Token(empty)")
  else match TokenSanitizer.sanitize TokenSanitizer.access_token_sanitizer (_tok self) with
       | Ok s => Ok (u "Token(" ++ s)
       | Raise e => Raise e
       end.

End Token.

(** ** The YAML package *)

(** The documents the cache writes: token mappings under ["tokens"], with
    distinct names, of texts that are sequences of Unicode scalar values. *)
Definition token_doc (toks : list (pystr * Token)) : yaml :=
  YMap [(YStr (u "tokens"), YMap ((fun '(k, t) => (YStr k, Token.to_dict t)) <$> toks))].

Definition doc_ok (toks : list (pystr * Token)) : Prop :=
  dict_wf toks /\ Forall (fun '(k, t) => scalar_str k = true /\ scalar_str (_tok t) = true) toks.

Class Yaml := {
  text : Type;
  empty_text : text;
  safe_load : text -> option yaml;
  dump : yaml -> text;
  load_empty : safe_load empty_text = Some YNull;
  load_dump toks : doc_ok toks -> safe_load (dump (token_doc toks)) = Some (token_doc toks)
}.

(** Files that hold the value itself. *)
Definition plain_yaml : Yaml := {|
  text := yaml;
  empty_text := YNull;
  safe_load := Some;
  dump := id;
  load_empty := eq_refl;
  load_dump := fun _ _ => eq_refl
|}.

(** ** TokenCache *)

Section Cache.
Context `{Yaml}.

Abbreviation disk := (option text).
Abbreviation tokens := (list (pystr * Token)).


(** The loop over the entries of the [tokens] mapping. *)
Fixpoint parse_tokens (acc : tokens) (entries : list (yaml * yaml)) : result token_error tokens :=
  match entries with
  | [] => Ok acc
  | (k, v) :: entries =>
      match k with
      | YStr k => t ← Token.from_dict v; parse_tokens (dict_set acc k t) entries
      | _ => Raise ValueError
      end
  end.

(** [_yaml_parse]; a [YAMLError] becomes a [ValueError]. *)
Definition _yaml_parse (data : text) : result token_error tokens :=
  match safe_load data with
  | None => Raise ValueError
  | Some v =>
      match (if truthy v then v else YMap []) with
      | YMap entries =>
          match default (YMap []) (ymap_get entries (u "tokens")) with
          | YMap toks => parse_tokens [] toks
          | _ => Raise ValueError
          end
      | _ => Raise ValueError
      end
  end.

(** [_yaml_dump] *)
Definition _yaml_dump (now : Z) (toks : tokens) : text :=
  match filter (fun e => Token.is_expired now e.2 = false) toks with
  | [] => empty_text
  | alive => dump (token_doc alive)
  end.

(** The tokens a locked section starts from: an unreadable file counts as an
    empty cache, other errors propagate. *)
Definition parse_or_empty (data : text) : result token_error tokens :=
  match _yaml_parse data with Raise ValueError => Ok [] | r => r end.

(** [set]: opening with ["a+"] creates the file. *)
Definition set (now : Z) (name : pystr) (token : Token) (d : disk) : result token_error () * disk :=
  let data := match d with None => empty_text | Some data => data end in
  match parse_or_empty data with
  | Ok toks => (Ok (), Some (_yaml_dump now (dict_set toks name token)))
  | Raise e => (Raise e, Some data)
  end.

Definition remove (now : Z) (name : pystr) (d : disk) : result token_error () * disk :=
  match d with
  | None => (Ok (), None)
  | Some data =>
      match parse_or_empty data with
      | Ok toks => (Ok (), Some (_yaml_dump now (dict_del toks name)))
      | Raise e => (Raise e, d)
      end
  end.

Definition remove_if_equal (now : Z) (name : pystr) (token : Token) (d : disk) :
    result token_error () * disk :=
  match d with
  | None => (Ok (), None)
  | Some data =>
      match parse_or_empty data with
      | Ok toks =>
          let toks :=
            match dict_get toks name with
            | Some t => if Token.eqb t token then dict_del toks name else toks
            | None => toks
            end in
          (Ok (), Some (_yaml_dump now toks))
      | Raise e => (Raise e, d)
      end
  end.

(** The locked read of [get]: [None] when the token must be removed. *)
Inductive get_outcome : Type := Found (t : Token) | Absent | Cleanup | Failed (e : token_error).

Definition get_read (now : Z) (name : pystr) (d : disk) : get_outcome :=
  match d with
  | None => Absent
  | Some data =>
      match _yaml_parse data with
      | Raise ValueError => Absent
      | Raise e => Failed e
      | Ok toks =>
          match dict_get toks name with
          | Some t => if Token.is_expired now t then Cleanup else Found t
          | None => Cleanup
          end
      end
  end.

(** [get]: the read and, in a second locked section, the clean-up. *)
Definition get (now : Z) (name : pystr) (d : disk) : result token_error (option Token) * disk :=
  match get_read now name d with
  | Found t => (Ok (Some t), d)
  | Absent => (Ok None, d)
  | Failed e => (Raise e, d)
  | Cleanup =>
      match remove now name d with
      | (Ok _, d') => (Ok None, d')
      | (Raise ValueError, d') => (Ok None, d')
      | (Raise e, d') => (Raise e, d')
      end
  end.

End Cache.

(** ** ThrottledTokenCache *)

Record Throttled : Type := mkThrottled {
  _name : pystr;
  _throttle : Z;
  _cached_token : option Token;
  _next_check : Z
}.

Module Throttled.

Section Ops.
Context `{Yaml}.

Abbreviation disk := (option text).

Definition init (now : Z) (name : pystr) (throttle : Z) : Throttled := mkThrottled name throttle None now.

Definition get_cached (self : Throttled) : option Token := _cached_token self.

Definition refresh (now : Z) (self : Throttled) (d : disk) :
    result token_error (option Token) * Throttled * disk :=
  match get now (_name self) d with
  | (Ok (Some token), d') =>
      if Token.is_expired now token then (Ok None, self, d')
      else (Ok (Some token),
            mkThrottled (_name self) (_throttle self) (Some token) (now + _throttle self), d')
  | (Ok None, d') => (Ok None, self, d')
  | (Raise e, d') => (Raise e, self, d')
  end.

Definition get (now : Z) (self : Throttled) (d : disk) :
    result token_error (option Token) * Throttled * disk :=
  match _cached_token self with
  | Some t =>
      if negb (Token.is_expired now t) && (now <? _next_check self)
      then (Ok (Some t), self, d) else refresh now self d
  | None => refresh now self d
  end.

(** [self._cached_token == token] *)
Definition cached_is (self : Throttled) (token : Token) : bool :=
  match _cached_token self with Some t => Token.eqb t token | None => false end.

Definition set (now : Z) (token : Token) (self : Throttled) (d : disk) :
    result token_error () * Throttled * disk :=
  if cached_is self token then (Ok (), self, d) else
  match set now (_name self) token d with
  | (Ok _, d') =>
      (Ok (), mkThrottled (_name self) (_throttle self) (Some token) (now + _throttle self), d')
  | (Raise e, d') => (Raise e, self, d')
  end.

Definition remove (now : Z) (self : Throttled) (d : disk) : result token_error () * Throttled * disk :=
  match remove now (_name self) d with
  | (Ok _, d') => (Ok (), mkThrottled (_name self) (_throttle self) None now, d')
  | (Raise e, d') => (Raise e, self, d')
  end.

Definition remove_if_equal (now : Z) (token : Token) (self : Throttled) (d : disk) :
    result token_error () * Throttled * disk :=
  match remove_if_equal now (_name self) token d with
  | (Ok _, d') =>
      (Ok (), if cached_is self token then mkThrottled (_name self) (_throttle self) None now else self, d')
  | (Raise e, d') => (Raise e, self, d')
  end.

End Ops.

End Throttled.

(** ** What a token becomes on disk *)

(** The expiration is cut to whole seconds, and the epoch means none. *)
Definition stored (t : Token) : Token :=
  mkToken (_tok t)
    match _exp t with
    | Some e => if Z.quot e second =? 0 then None else Some (Z.quot e second * second)
    | None => None
    end.

(** The expiration is a date of the years 1 to 9999. *)
Definition exp_ok (t : Token) : Prop :=
  forall e, _exp t = Some e -> -62135596800 <= Z.quot e second <= 253402300799.

Lemma fromtimestamp_ok n :
  -62135596800 <= n <= 253402300799 -> Token.fromtimestamp n = Ok (n * second).
Proof.
  intros Hn. unfold Token.fromtimestamp. destruct (_ || _) eqn:E1; [lia|].
  destruct ((n <? -62135596800) || _) eqn:E2; [lia|done].
Qed.

Lemma to_dict_get v1 v2 :
  ymap_get [(YStr (u "token"), v1); (YStr (u "expires_at"), v2)] (u "token") = Some v1 /\
  ymap_get [(YStr (u "token"), v1); (YStr (u "expires_at"), v2)] (u "expires_at") = Some v2.
Proof. by split. Qed.

Lemma from_to_dict t : exp_ok t -> Token.from_dict (Token.to_dict t) = Ok (stored t).
Proof.
  intros Ht. unfold Token.to_dict, Token.from_dict, stored.
  destruct (to_dict_get (YStr (_tok t))
    match _exp t with Some e => YInt (Z.quot e second) | None => YNull end) as [-> ->].
  destruct (_exp t) as [e|] eqn:E; [|done]. specialize (Ht e E). set (n := Z.quot e second) in *.
  destruct n as [|p|p]; [done|..]; cbn -[Token.fromtimestamp second]; by rewrite fromtimestamp_ok.
Qed.

Lemma stored_idem t : stored (stored t) = stored t.
Proof.
  unfold stored. cbn. destruct (_exp t) as [e|]; [|done].
  destruct (Z.quot e second =? 0) eqn:E; [done|].
  rewrite Z.quot_mul by done. by rewrite E.
Qed.

Lemma exp_ok_stored t : exp_ok t -> exp_ok (stored t).
Proof.
  unfold exp_ok, stored. cbn. intros Ht e. destruct (_exp t) as [e'|]; [|done].
  destruct (_ =? 0); [done|]. intros [= <-]. rewrite Z.quot_mul by done. by apply Ht.
Qed.

(** ** Reading what was written *)

Section CacheLemmas.
Context `{Yaml}.

Lemma parse_tokens_doc toks acc :
  dict_wf (acc ++ toks) -> Forall (fun e => exp_ok e.2) toks ->
  parse_tokens acc ((fun '(k, t) => (YStr k, Token.to_dict t)) <$> toks) =
  Ok (acc ++ (prod_map id stored <$> toks)).
Proof.
  revert acc. induction toks as [|[k t] toks IH]; intros acc Hwf Hex; [by rewrite app_nil_r|].
  rewrite !fmap_cons. cbn [parse_tokens].
  apply Forall_cons in Hex as [Ht Hex]. cbn [snd] in Ht. rewrite from_to_dict by done.
  cbn [mbind result_bind].
  assert (dict_set acc k (stored t) = acc ++ [(k, stored t)]) as ->.
  { apply dict_set_new. unfold dict_wf in Hwf. rewrite fmap_app in Hwf. csimpl in Hwf.
    apply NoDup_app in Hwf as (_ & Hd & _). intros Hin. apply (Hd k Hin). left. }
  rewrite IH, <- app_assoc; [done| |done]. unfold dict_wf in *. rewrite !fmap_app in *. csimpl in *.
  by rewrite <- app_assoc.
Qed.

Lemma parse_empty : _yaml_parse empty_text = Ok [].
Proof. unfold _yaml_parse. by rewrite load_empty. Qed.

Lemma filter_dict_wf {V} (P : pystr * V -> Prop) `{!forall x, Decision (P x)} (d : list (pystr * V)) :
  dict_wf d -> dict_wf (filter P d).
Proof.
  induction d as [|[k v] d IH]; intros Hd; [done|]. apply dict_wf_cons in Hd as [Hk Hd].
  rewrite filter_cons. case_decide; [|auto]. apply dict_wf_cons. split; [|auto].
  apply dict_get_None in Hk. apply dict_get_None. intros Hin. apply Hk.
  apply list_elem_of_fmap in Hin as (e & -> & [_ He]%list_elem_of_filter).
  apply list_elem_of_fmap. eauto.
Qed.

Lemma dict_get_filter {V} (P : pystr * V -> Prop) `{!forall x, Decision (P x)} (d : list (pystr * V)) k :
  dict_wf d ->
  dict_get (filter P d) k =
  match dict_get d k with Some v => if decide (P (k, v)) then Some v else None | None => None end.
Proof.
  induction d as [|[k0 v0] d IH]; intros Hwf; [done|]. apply dict_wf_cons in Hwf as [Hk0 Hwf].
  specialize (IH Hwf). rewrite filter_cons. cbn [dict_get].
  destruct (decide (k = k0)) as [->|Hne]; destruct (decide (P (k0, v0))); cbn [dict_get].
  - by rewrite decide_True.
  - by rewrite IH, Hk0.
  - by rewrite decide_False.
  - done.
Qed.

Definition alive (now : Z) (toks : list (pystr * Token)) : list (pystr * Token) :=
  filter (fun e => Token.is_expired now e.2 = false) toks.

Lemma parse_dump now toks :
  doc_ok toks -> Forall (fun e => exp_ok e.2) toks ->
  _yaml_parse (_yaml_dump now toks) = Ok (prod_map id stored <$> alive now toks).
Proof.
  intros [Hwf Hs] Hex. unfold _yaml_dump. fold (alive now toks).
  assert (doc_ok (alive now toks)) as [Hwf' Hs'].
  { split; [by apply filter_dict_wf|]. rewrite Forall_forall in Hs |- *.
    intros e [_ He]%list_elem_of_filter. by apply Hs. }
  assert (Forall (fun e => exp_ok e.2) (alive now toks)) as Hex'.
  { rewrite Forall_forall in Hex |- *. intros e [_ He]%list_elem_of_filter. by apply Hex. }
  destruct (alive now toks) as [|e toks'] eqn:Ea; [apply parse_empty|].
  unfold _yaml_parse. rewrite load_dump by done. unfold token_doc. cbn -[u parse_tokens fmap].
  rewrite bool_decide_true by done. cbn -[parse_tokens fmap].
  by apply (parse_tokens_doc (e :: toks') []).
Qed.

(** ** The cache as a map *)

(** A readable cache file, as the cache itself leaves it. *)
Definition disk_ok (d : option text) : Prop :=
  match d with
  | None => True
  | Some data => exists toks, _yaml_parse data = Ok toks /\ doc_ok toks /\
      Forall (fun e => exp_ok e.2 /\ stored e.2 = e.2) toks
  end.

Definition contents (d : option text) : list (pystr * Token) :=
  match d with
  | None => []
  | Some data => match _yaml_parse data with Ok toks => toks | Raise _ => [] end
  end.

(** The live token of a name. *)
Definition live (now : Z) (o : option Token) : option Token :=
  match o with Some t => if Token.is_expired now t then None else Some t | None => None end.

Definition view (now : Z) (d : option text) (name : pystr) : option Token :=
  live now (dict_get (contents d) name).

Lemma parse_or_empty_contents d :
  disk_ok d -> parse_or_empty (match d with None => empty_text | Some data => data end) = Ok (contents d).
Proof.
  unfold parse_or_empty. destruct d as [data|]; [|by rewrite parse_empty].
  intros (toks & Hp & _). simpl. by rewrite Hp.
Qed.

Lemma contents_ok d :
  disk_ok d -> doc_ok (contents d) /\ Forall (fun e => exp_ok e.2 /\ stored e.2 = e.2) (contents d).
Proof.
  destruct d as [data|]; simpl; [|by repeat constructor]. intros (toks & -> & ? & ?). done.
Qed.

(** A token that can be stored. *)
Definition storable (name : pystr) (t : Token) : Prop :=
  scalar_str name = true /\ scalar_str (_tok t) = true /\ exp_ok t.

(** Dumping tokens and looking again. *)
Lemma dump_view now toks :
  doc_ok toks -> Forall (fun e => exp_ok e.2) toks ->
  disk_ok (Some (_yaml_dump now toks)) /\
  forall name, view now (Some (_yaml_dump now toks)) name =
    live now (stored <$> live now (dict_get toks name)).
Proof.
  intros Hd Hex. pose proof (parse_dump now toks Hd Hex) as Hp. destruct Hd as [Hwf Hs]. split.
  - eexists. split; [exact Hp|]. assert (dict_wf (alive now toks)) as Hwf' by (by apply filter_dict_wf).
    assert (forall e, e ∈ alive now toks -> e ∈ toks) as Hsub by (by intros e [_ ?]%list_elem_of_filter).
    split; [split|].
    + unfold dict_wf in *. rewrite <- list_fmap_compose. by rewrite (list_fmap_ext _ fst) by (by intros ? []).
    + apply Forall_fmap, Forall_forall. intros [k t] Hin. rewrite Forall_forall in Hs.
      apply (Hs (k, t)). by apply Hsub.
    + apply Forall_fmap, Forall_forall. intros [k t] Hin. rewrite Forall_forall in Hex.
      specialize (Hex (k, t) (Hsub _ Hin)). simpl in *. split; [by apply exp_ok_stored|apply stored_idem].
  - intros name. unfold view, contents. rewrite Hp, dict_get_fmap.
    assert (dict_get (alive now toks) name = live now (dict_get toks name)) as ->; [|done].
    unfold alive. rewrite dict_get_filter by done.
    destruct (dict_get toks name) as [t|]; [|done]. simpl. by destruct (Token.is_expired now t).
Qed.

Lemma live_stored now t : stored t = t -> live now (stored <$> live now (Some t)) = live now (Some t).
Proof. intros Ht. simpl. destruct (Token.is_expired now t) eqn:E; [done|]. simpl. by rewrite Ht, E. Qed.

Lemma live_contents now d name :
  disk_ok d ->
  live now (stored <$> live now (dict_get (contents d) name)) = view now d name.
Proof.
  intros [_ Hc]%contents_ok. unfold view. destruct (dict_get (contents d) name) as [t|] eqn:E; [|done].
  apply live_stored. apply dict_get_elem in E. rewrite Forall_forall in Hc. by apply (Hc (name, t)).
Qed.

Lemma set_view now name t d :
  disk_ok d -> storable name t ->
  (set now name t d).1 = Ok () /\ disk_ok (set now name t d).2 /\
  forall n, view now (set now name t d).2 n =
    if decide (n = name) then live now (stored <$> live now (Some t)) else view now d n.
Proof.
  intros Hd (Hn & Ht & He). unfold set. rewrite parse_or_empty_contents by done. cbn [fst snd].
  destruct (contents_ok d Hd) as [[Hwf Hs] Hc].
  destruct (dump_view now (dict_set (contents d) name t)) as [Hok Hv].
  - split; [by apply dict_set_wf|]. rewrite Forall_forall in Hs |- *.
    intros e [->|Hin]%dict_set_elem; [done|by apply Hs].
  - rewrite Forall_forall in Hc |- *. intros e [->|Hin]%dict_set_elem; [done|by apply Hc].
  - split; [done|]. split; [done|]. intros n. rewrite Hv, dict_get_set. case_decide; [done|].
    by apply live_contents.
Qed.

Lemma dump_subset_view now toks d :
  disk_ok d -> dict_wf toks -> (forall e, e ∈ toks -> e ∈ contents d) ->
  disk_ok (Some (_yaml_dump now toks)) /\
  forall n, view now (Some (_yaml_dump now toks)) n =
    match dict_get toks n with Some _ => view now d n | None => None end.
Proof.
  intros Hd Hwf Hsub. destruct (contents_ok d Hd) as [[Hwfc Hs] Hc].
  destruct (dump_view now toks) as [Hok Hv].
  - split; [done|]. rewrite Forall_forall in Hs |- *. intros e He. by apply Hs, Hsub.
  - rewrite Forall_forall in Hc |- *. intros e He. by apply Hc, Hsub.
  - split; [done|]. intros n. rewrite Hv. destruct (dict_get toks n) as [t|] eqn:E; [|done].
    rewrite <- live_contents by done. apply dict_get_elem, Hsub in E.
    by rewrite (dict_elem_get (contents d) n t).
Qed.

Lemma remove_view now name d :
  disk_ok d ->
  (remove now name d).1 = Ok () /\ disk_ok (remove now name d).2 /\
  forall n, view now (remove now name d).2 n = if decide (n = name) then None else view now d n.
Proof.
  intros Hd. unfold remove. destruct d as [data|]; [|by split_and!; try done; intros n; case_decide].
  pose proof (parse_or_empty_contents (Some data) Hd) as ->. cbn [fst snd].
  destruct (contents_ok _ Hd) as [[Hwf _] _].
  destruct (dump_subset_view now (dict_del (contents (Some data)) name) (Some data)) as [Hok Hv];
    [done|by apply dict_del_wf|by intros e ?%dict_del_elem|].
  split; [done|]. split; [done|]. intros n. rewrite Hv, dict_get_del. case_decide; [done|].
  destruct (dict_get _ n) eqn:E; [done|]. unfold view. by rewrite E.
Qed.

Lemma remove_if_equal_view now name t d :
  disk_ok d ->
  (remove_if_equal now name t d).1 = Ok () /\ disk_ok (remove_if_equal now name t d).2 /\
  forall n, view now (remove_if_equal now name t d).2 n =
    if decide (n = name /\ dict_get (contents d) name = Some t) then None else view now d n.
Proof.
  intros Hd. unfold remove_if_equal. destruct d as [data|];
    [|split_and!; try done; intros n; by case_decide].
  pose proof (parse_or_empty_contents (Some data) Hd) as ->. cbn [fst snd].
  destruct (contents_ok _ Hd) as [[Hwf _] _]. set (toks := contents (Some data)) in *.
  assert (forall n, dict_get toks n = None -> view now (Some data) n = None) as Hnone
    by (intros n E; unfold view; fold toks; by rewrite E).
  assert (disk_ok (Some (_yaml_dump now toks)) /\
    forall n, view now (Some (_yaml_dump now toks)) n = view now (Some data) n) as [Hsame Hsv].
  { destruct (dump_subset_view now toks (Some data)) as [Hok Hv]; [done|done|done|].
    split; [done|]. intros n. rewrite Hv. destruct (dict_get toks n) eqn:E; [done|]. by rewrite Hnone. }
  destruct (dict_get toks name) as [t0|] eqn:Et.
  - unfold Token.eqb. destruct (_ && _) eqn:Eq.
    + apply andb_true_iff in Eq as [E1%bool_decide_eq_true E2%bool_decide_eq_true].
      assert (t0 = t) as -> by (destruct t0, t; simpl in *; congruence).
      destruct (dump_subset_view now (dict_del toks name) (Some data)) as [Hok Hv];
        [done|by apply dict_del_wf|by intros e ?%dict_del_elem|].
      split; [done|]. split; [done|]. intros n. rewrite Hv, dict_get_del.
      destruct (decide (n = name)) as [->|Hne]; [by rewrite decide_True|].
      rewrite decide_False by tauto. destruct (dict_get toks n) eqn:E; [done|]. by rewrite Hnone.
    + split; [done|]. split; [done|]. intros n. rewrite decide_False; [done|].
      intros [_ [= ->]]. by rewrite !bool_decide_true in Eq.
  - split; [done|]. split; [done|]. intros n. rewrite decide_False; [done|]. by intros [_ ?].
Qed.

Lemma get_view now name d :
  disk_ok d ->
  (get now name d).1 = Ok (view now d name) /\ disk_ok (get now name d).2 /\
  forall n, view now (get now name d).2 n = view now d n.
Proof.
  intros Hd. destruct (remove_view now name d Hd) as (Hr1 & Hr2 & Hr3).
  assert (view now d name = None -> get_read now name d = Cleanup ->
    (get now name d).1 = Ok None /\ disk_ok (get now name d).2 /\
    forall n, view now (get now name d).2 n = view now d n) as Hclean.
  { intros Hv Hc. unfold get. rewrite Hc. destruct (remove now name d) as [r d'] eqn:E.
    simpl in Hr1. subst r. simpl in *. split; [done|]. split; [done|].
    intros n. rewrite Hr3. case_decide; [by subst|done]. }
  unfold view in Hclean at 1. destruct d as [data|]; [|done].
  destruct Hd as (toks & Hp & Hok & Hst). unfold view at 1. simpl in *.
  unfold get, get_read in *. rewrite Hp in *.
  destruct (dict_get toks name) as [t|] eqn:E; simpl in *; [|by apply Hclean].
  destruct (Token.is_expired now t); [by apply Hclean|]. split; [done|]. split; [by exists toks|done].
Qed.

End CacheLemmas.

(** ** Theorems *)

Lemma stored_exact t : stored t = t <-> forall e, _exp t = Some e -> (second | e) /\ e <> 0.
Proof.
  unfold stored. destruct t as [s [e|]]; simpl; [|by split].
  split.
  - intros [= He] e' [= <-]. destruct (Z.quot e second =? 0) eqn:E; [done|].
    injection He as He. split; [exists (Z.quot e second); lia|]. intros ->. done.
  - intros He. destruct (He e eq_refl) as [[q ->] Hne]. rewrite Z.quot_mul by done.
    destruct (q =? 0) eqn:E; [lia|done].
Qed.

(** Restoring a token from its serialized form keeps the token text and
    cuts the expiration to whole seconds; the token is restored exactly when it
    does not expire or expires at a whole second other than the epoch, an
    expiration in the epoch's second becomes "never". *)
Theorem token_dict_roundtrip t :
  exp_ok t ->
  Token.from_dict (Token.to_dict t) = Ok (stored t) /\
  (stored t = t <-> forall e, _exp t = Some e -> (second | e) /\ e <> 0).
Proof. intros Ht. split; [by apply from_to_dict|apply stored_exact]. Qed.

Lemma token_dict_roundtrip_witness :
  Token.from_dict (Token.to_dict (mkToken (u "t") (Some 1700000000500000))) =
  Ok (mkToken (u "t") (Some 1700000000000000)).
Proof.
  apply (token_dict_roundtrip (mkToken (u "t") (Some 1700000000500000))).
  intros e [= <-]. vm_compute. split; discriminate.
Defined.


Section CacheTheorems.
Context `{Yaml}.

(** On a readable cache file the operations act as on a map of the live
    tokens: [set] binds the name to the stored form of the token, [remove]
    unbinds it, [get] returns the binding; no operation raises, none changes
    another name and each leaves a readable file. *)
Theorem token_cache_map now name t d :
  disk_ok d -> storable name t ->
  ((set now name t d).1 = Ok () /\ disk_ok (set now name t d).2 /\
   forall n, view now (set now name t d).2 n =
     if decide (n = name) then live now (stored <$> live now (Some t)) else view now d n) /\
  ((remove now name d).1 = Ok () /\ disk_ok (remove now name d).2 /\
   forall n, view now (remove now name d).2 n = if decide (n = name) then None else view now d n) /\
  ((get now name d).1 = Ok (view now d name) /\ disk_ok (get now name d).2 /\
   forall n, view now (get now name d).2 n = view now d n).
Proof.
  intros Hd Ht. split; [by apply set_view|]. split; [by apply remove_view|by apply get_view].
Qed.

(** A token whose serialized form is not itself is never found equal. *)
Lemma remove_if_equal_inexact now name t d :
  disk_ok d -> stored t <> t ->
  (remove_if_equal now name t d).1 = Ok () /\ disk_ok (remove_if_equal now name t d).2 /\
  forall n, view now (remove_if_equal now name t d).2 n = view now d n.
Proof.
  intros Hd Ht. destruct (remove_if_equal_view now name t d Hd) as (H1 & H2 & H3).
  split; [done|]. split; [done|]. intros n. rewrite H3.
  destruct (decide (n = name /\ dict_get (contents d) name = Some t)) as [[_ Hc]|_]; [|done].
  apply dict_get_elem in Hc. destruct (contents_ok d Hd) as [_ Hall].
  rewrite Forall_forall in Hall. by destruct (Hall (name, t) Hc).
Qed.

(** A token whose expiration has a fraction of a second cannot be removed
    by value: after [set] and [remove_if_equal] of the same token by the
    throttled cache, the next [get] returns it again from the file. *)
Theorem removed_token_comes_back now name throttle t d :
  disk_ok d -> storable name t -> stored t <> t ->
  Token.is_expired now t = false -> Token.is_expired now (stored t) = false ->
  let '(_, c1, d1) := Throttled.set now t (Throttled.init now name throttle) d in
  let '(r2, c2, d2) := Throttled.remove_if_equal now t c1 d1 in
  let '(r3, _, _) := Throttled.get now c2 d2 in
  r2 = Ok () /\ Throttled.get_cached c2 = None /\ r3 = Ok (Some (stored t)).
Proof.
  intros Hd Hst Hne Ha Hs. destruct (set_view now name t d Hd Hst) as (S1 & S2 & S3).
  unfold Throttled.set, Throttled.cached_is. simpl. destruct (set now name t d) as [r d1].
  simpl in S1, S2, S3. subst r. simpl.
  destruct (remove_if_equal_inexact now name t d1 S2 Hne) as (R1 & R2 & R3).
  unfold Throttled.remove_if_equal. simpl. destruct (remove_if_equal now name t d1) as [r d2].
  simpl in R1, R2, R3. subst r. simpl. unfold Throttled.cached_is. simpl.
  replace (Token.eqb t t) with true by (unfold Token.eqb; by rewrite !bool_decide_true).
  simpl. unfold Throttled.get, Throttled.refresh. simpl.
  destruct (get_view now name d2 R2) as (G1 & _ & _).
  destruct (get now name d2) as [r3 d3]. simpl in G1. subst r3.
  rewrite R3, S3, decide_True by done. simpl. rewrite Ha. simpl. rewrite Hs. simpl. rewrite Hs. done.
Qed.

(** The clean-up of [get] races with other processes: when the locked read
    found no live token and another process stores one before the second
    locked section, that section deletes the new token. *)
Theorem get_cleanup_race now name t d :
  disk_ok d -> storable name t -> get_read now name d = Cleanup ->
  Token.is_expired now t = false -> Token.is_expired now (stored t) = false ->
  let d1 := (set now name t d).2 in
  view now d1 name = Some (stored t) /\ view now (remove now name d1).2 name = None.
Proof.
  intros Hd Hst _ Ha Hs d1. subst d1. destruct (set_view now name t d Hd Hst) as (_ & S2 & S3). split.
  - rewrite S3, decide_True by done. simpl. rewrite Ha. simpl. by rewrite Hs.
  - destruct (remove_view now name _ S2) as (_ & _ & R3). by rewrite R3, decide_True.
Qed.

(** A throttled cache only hands out live tokens and never raises on a
    readable file: inside the throttle period the cached token, without
    touching the file, otherwise the file's token, which it then keeps for one
    period. *)
Theorem throttled_get now c d :
  disk_ok d ->
  let '(r, c', d') := Throttled.get now c d in
  disk_ok d' /\
  match _cached_token c with
  | Some t =>
      Token.is_expired now t = false /\ now < _next_check c /\ r = Ok (Some t) /\ c' = c /\ d' = d \/
      (Token.is_expired now t = true \/ _next_check c <= now) /\ r = Ok (view now d (_name c))
  | None => r = Ok (view now d (_name c))
  end /\
  match r with
  | Ok (Some t) => Token.is_expired now t = false /\ _cached_token c' = Some t
  | Ok None => c' = c
  | Raise _ => False
  end.
Proof.
  intros Hd. destruct (get_view now (_name c) d Hd) as (G1 & G2 & _).
  assert (forall t, view now d (_name c) = Some t -> Token.is_expired now t = false) as Hlive.
  { intros t. unfold view, live. case_match; [|done]. case_match eqn:E; [done|]. by intros [= <-]. }
  assert (let '(r, c', d') := Throttled.refresh now c d in
    disk_ok d' /\ r = Ok (view now d (_name c)) /\
    match r with
    | Ok (Some t) => Token.is_expired now t = false /\ _cached_token c' = Some t
    | Ok None => c' = c
    | Raise _ => False
    end) as Hr.
  { unfold Throttled.refresh. destruct (get now (_name c) d) as [r d']. simpl in G1, G2. subst r.
    destruct (view now d (_name c)) as [t|]; [|done]. rewrite (Hlive t eq_refl).
    split_and!; auto. }
  unfold Throttled.get. destruct (_cached_token c) as [t|] eqn:Ec.
  - destruct (negb (Token.is_expired now t) && (now <? _next_check c)) eqn:E.
    + apply andb_true_iff in E as [E1%negb_true_iff E2%Z.ltb_lt]. split_and!; auto. left. done.
    + destruct (Throttled.refresh now c d) as [[r c'] d']. destruct Hr as (H1 & H2 & H3).
      split; [done|]. split; [|done]. right. split; [|done].
      destruct (Token.is_expired now t); [by left|right]. simpl in E. lia.
  - destruct (Throttled.refresh now c d) as [[r c'] d']. tauto.
Qed.

End CacheTheorems.

#[local] Existing Instance plain_yaml.

Definition ex_token : Token := mkToken (u "secret") (Some 1700000000500000).

Lemma ex_storable : storable (u "sa") ex_token.
Proof. split_and!; [reflexivity|reflexivity|]. intros e [= <-]. vm_compute. split; discriminate. Qed.

Lemma token_cache_map_witness :
  (get 0 (u "sa") (set 0 (u "sa") ex_token None).2).1 =
  Ok (Some (stored ex_token)).
Proof.
  destruct (token_cache_map 0 (u "sa") ex_token None) as [(_ & Hd & Hv) _]; [exact I|apply ex_storable|].
  destruct (token_cache_map 0 (u "sa") ex_token (set 0 (u "sa") ex_token None).2)
    as [_ [_ (-> & _)]]; [done|apply ex_storable|]. rewrite Hv. vm_compute. reflexivity.
Defined.

Lemma removed_token_comes_back_witness :
  let '(_, c1, d1) := Throttled.set 0 ex_token (Throttled.init 0 (u "sa") 5) None in
  let '(r2, c2, d2) := Throttled.remove_if_equal 0 ex_token c1 d1 in
  let '(r3, _, _) := Throttled.get 0 c2 d2 in
  r2 = Ok () /\ Throttled.get_cached c2 = None /\ r3 = Ok (Some (stored ex_token)).
Proof.
  apply (removed_token_comes_back 0 (u "sa") 5 ex_token None);
    [exact I|apply ex_storable|done|reflexivity|reflexivity].
Defined.

Lemma get_cleanup_race_witness :
  view 0 (set 0 (u "sa") ex_token (Some (YNull : @text plain_yaml))).2 (u "sa") = Some (stored ex_token) /\
  view 0 (remove 0 (u "sa") (set 0 (u "sa") ex_token (Some (YNull : @text plain_yaml))).2).2 (u "sa") = None.
Proof.
  apply (get_cleanup_race 0 (u "sa") ex_token (Some (YNull : @text plain_yaml)));
    [|apply ex_storable|reflexivity..].
  exists []. split; [reflexivity|]. split; [split; constructor|constructor].
Defined.

Lemma throttled_get_witness :
  let '(r, c', d') := Throttled.get 0 (Throttled.init 0 (u "sa") 5) (None : option text) in disk_ok d'.
Proof.
  pose proof (throttled_get 0 (Throttled.init 0 (u "sa") 5) (None : option text) I) as Ht.
  destruct (Throttled.get 0 (Throttled.init 0 (u "sa") 5) None) as [[r c'] d']. by destruct Ht.
Defined.
