(* ===== verification/PyText.v ===== *)
(** * White space, digits, substrings and [decimal.Decimal]

    What the configuration and error-handling parts of the SDK use of Python's
    text and decimal libraries: [str.strip], [in] on strings, the longest run
    of characters of a class (the deterministic part of their regular
    expressions) and the arithmetic of [decimal] in its default context: 28
    significant digits, ROUND_HALF_EVEN, exponents up to 999999, Overflow
    trapped and Underflow not. *)
From S2P Require Import Prelude PyStr.

Lemma result_bind_Ok {E A B} (m : result E A) (f : A -> result E B) b :
  m ≫= f = Ok b -> exists a, m = Ok a /\ f a = Ok b.
Proof. destruct m as [a|e]; [eauto|done]. Qed.

(** ** White space *)

(** The characters [str.isspace] accepts. *)
Definition is_space (c : Z) : bool :=
  ((9 <=? c) && (c <=? 13)) || ((28 <=? c) && (c <=? 32)) || (c =? 133) || (c =? 160) ||
  (c =? 5760) || ((8192 <=? c) && (c <=? 8202)) || (c =? 8232) || (c =? 8233) ||
  (c =? 8239) || (c =? 8287) || (c =? 12288).

(** The longest prefix of characters of a class, and what follows it. *)
Fixpoint span (p : Z -> bool) (s : pystr) : pystr * pystr :=
  match s with
  | c :: s' => if p c then let '(a, b) := span p s' in (c :: a, b) else ([], s)
  | [] => ([], [])
  end.

Definition lstrip (s : pystr) : pystr := (span is_space s).2.

(** [s.strip()] *)
Definition strip (s : pystr) : pystr := reverse (lstrip (reverse (lstrip s))).

(** [t in s] on strings *)
Fixpoint str_in (t s : pystr) : bool :=
  startswith s t || match s with [] => false | _ :: s' => str_in t s' end.

Definition starts_with_none (p : Z -> bool) (s : pystr) : Prop :=
  match s with c :: _ => p c = false | [] => True end.

Lemma span_app p s : let '(a, b) := span p s in s = a ++ b /\ forallb p a = true /\ starts_with_none p b.
Proof.
  induction s as [|c s IH]; simpl; [done|].
  destruct (p c) eqn:E; simpl; [|done].
  destruct (span p s) as [a b]. simpl. rewrite E. destruct IH as (-> & -> & ?). done.
Qed.

Lemma span_run p a b : forallb p a = true -> starts_with_none p b -> span p (a ++ b) = (a, b).
Proof.
  induction a as [|c a IH]; simpl.
  - intros _ Hb. destruct b as [|c b]; simpl in *; [done|]. by rewrite Hb.
  - intros [Hc Ha]%andb_prop Hb. by rewrite Hc, IH.
Qed.

Lemma lstrip_run a b : forallb is_space a = true -> starts_with_none is_space b -> lstrip (a ++ b) = b.
Proof. intros Ha Hb. unfold lstrip. by rewrite span_run. Qed.

(** [strip] drops exactly the white space around a text that neither starts
    nor ends with it. *)
Lemma strip_spec a s b :
  forallb is_space a = true -> forallb is_space b = true ->
  starts_with_none is_space s -> starts_with_none is_space (reverse s) -> s <> [] ->
  strip (a ++ s ++ b) = s.
Proof.
  intros Ha Hb Hs Hr Hne. unfold strip. rewrite lstrip_run; [|done|by destruct s].
  rewrite reverse_app, lstrip_run by (rewrite ?forallb_reverse; done).
  apply reverse_involutive.
Qed.

Lemma str_in_spec t s : str_in t s = true <-> exists a b, s = a ++ t ++ b.
Proof.
  split.
  - induction s as [|c s IH]; simpl; intros [H|H]%orb_prop.
    + apply startswith_spec in H as [b ->]. by exists [], b.
    + done.
    + apply startswith_spec in H as [b ->]. by exists [], b.
    + destruct (IH H) as (a & b & ->). by exists (c :: a), b.
  - intros (a & b & ->). induction a as [|c a IH]; simpl.
    + destruct (t ++ b) eqn:E; simpl; rewrite <- ?E, ?startswith_app; [|done].
      by destruct t.
    + by rewrite IH, orb_true_r.
Qed.

(** ** Decimal digits *)

Definition ascii_digit (c : Z) : bool := (48 <=? c) && (c <=? 57).

(** [int(s)] on ASCII digits *)
Definition digits_value (s : pystr) : Z := foldl (fun n c => 10 * n + (c - 48)) 0 s.

Lemma digits_value_from n s :
  foldl (fun n c => 10 * n + (c - 48)) n s = n * 10 ^ Z.of_nat (length s) + digits_value s.
Proof.
  unfold digits_value. revert n. induction s as [|c s IH]; intros n; simpl; [lia|].
  rewrite (IH (10 * n + (c - 48))), (IH (10 * 0 + (c - 48))).
  rewrite Nat2Z.inj_succ, Z.pow_succ_r by lia. simpl. lia.
Qed.

Lemma digits_value_nonneg s : forallb ascii_digit s = true -> 0 <= digits_value s.
Proof.
  induction s as [|c s IH]; simpl; [done|].
  intros [Hc Hs]%andb_prop. unfold digits_value. simpl. rewrite digits_value_from.
  unfold ascii_digit in Hc. specialize (IH Hs). nia.
Qed.

(** The number of decimal digits of [|m|], one for zero. *)
Fixpoint digit_count (fuel : nat) (m : Z) : Z :=
  match fuel with
  | O => 1
  | S fuel => if m <? 10 then 1 else 1 + digit_count fuel (m / 10)
  end.
Definition num_digits (m : Z) : Z := digit_count (S (Z.to_nat (Z.log2 (Z.abs m)))) (Z.abs m).

Lemma digit_count_spec fuel m :
  0 < m -> Z.log2 m < Z.of_nat fuel -> 10 ^ (digit_count fuel m - 1) <= m < 10 ^ digit_count fuel m.
Proof.
  revert m. induction fuel as [|fuel IH]; intros m Hm Hl.
  { pose proof (Z.log2_nonneg m). lia. }
  simpl. destruct (m <? 10) eqn:E; [simpl; lia|].
  assert (Hq : 0 < m / 10) by (apply Z.div_str_pos; lia).
  assert (Hlq : Z.log2 (m / 10) < Z.of_nat fuel).
  { assert (Hlt : Z.log2 (m / 10) < Z.log2 m); [|lia].
    apply Z.lt_le_trans with (Z.log2 (2 * (m / 10))).
    - rewrite Z.log2_double by lia. lia.
    - apply Z.log2_le_mono. pose proof (Z.mul_div_le m 10). lia. }
  specialize (IH _ Hq Hlq). set (d := digit_count fuel (m / 10)) in *.
  assert (Hd : 1 <= d).
  { destruct (decide (1 <= d)); [done|]. rewrite (Z.pow_neg_r 10 (d - 1)) in IH by lia.
    assert (10 ^ d <= 1); [|lia]. destruct (decide (d = 0)) as [->|]; [done|].
    rewrite Z.pow_neg_r by lia. lia. }
  replace (1 + d - 1) with (Z.succ (d - 1)) by lia. rewrite Z.pow_succ_r by lia.
  replace (1 + d) with (Z.succ d) by lia. rewrite Z.pow_succ_r by lia.
  pose proof (Z.mul_div_le m 10). pose proof (Z.mul_succ_div_gt m 10). lia.
Qed.

Lemma num_digits_small m k : Z.abs m < 10 ^ k -> 1 <= k -> num_digits m <= k.
Proof.
  intros Hm Hk. unfold num_digits. destruct (decide (m = 0)) as [->|Hne]; [done|].
  pose proof (Z.log2_nonneg (Z.abs m)).
  pose proof (digit_count_spec (S (Z.to_nat (Z.log2 (Z.abs m)))) (Z.abs m) ltac:(lia) ltac:(lia)) as H1.
  set (d := digit_count _ _) in *. destruct (decide (d <= k)); [done|].
  pose proof (Z.pow_le_mono_r 10 k (d - 1)). lia.
Qed.

(** ** [decimal.Decimal] in the default context *)

(** [coefficient * 10 ^ exponent]; the sign of a zero is not kept, no code
    depends on it. *)
Record Decimal : Type := mkDecimal { coefficient : Z; exponent : Z }.

Definition PREC : Z := 28.
Definition E_MAX : Z := 999999.
Definition E_TINY : Z := - E_MAX - (PREC - 1).
Definition E_TOP : Z := E_MAX - (PREC - 1).

Inductive decimal_error : Type := Overflow.

(** [n / p] rounded to the nearest integer, halves to the even one *)
Definition round_half_even (n p : Z) : Z :=
  let q := n / p in let r := n mod p in
  if 2 * r <? p then q else if p <? 2 * r then q + 1 else if Z.even q then q else q + 1.

(** The rounding that ends every operation of the context. *)
Definition dec_fix (d : Decimal) : result decimal_error Decimal :=
  let m := coefficient d in let e := exponent d in
  if m =? 0 then Ok (mkDecimal 0 (Z.min (Z.max e E_TINY) E_MAX)) else
  let exp_min := num_digits m + e - PREC in
  if E_TOP <? exp_min then Raise Overflow else
  let exp_min := Z.max exp_min E_TINY in
  if e <? exp_min then
    let q := round_half_even (Z.abs m) (10 ^ (exp_min - e)) in
    let '(q, exp_min) := if PREC <? num_digits q then (q / 10, exp_min + 1) else (q, exp_min) in
    if E_TOP <? exp_min then Raise Overflow else Ok (mkDecimal (Z.sgn m * q) exp_min)
  else Ok d.

Definition dec_of_int (n : Z) : Decimal := mkDecimal n 0.
Definition dec_mul (a b : Decimal) : result decimal_error Decimal :=
  dec_fix (mkDecimal (coefficient a * coefficient b) (exponent a + exponent b)).
Definition dec_add (a b : Decimal) : result decimal_error Decimal :=
  let e := Z.min (exponent a) (exponent b) in
  dec_fix (mkDecimal (coefficient a * 10 ^ (exponent a - e) + coefficient b * 10 ^ (exponent b - e)) e).
(** Division by [10 ^ k], whose exact quotient only moves the exponent. *)
Definition dec_div_pow10 (a : Decimal) (k : Z) : result decimal_error Decimal :=
  dec_fix (mkDecimal (coefficient a) (exponent a - k)).
(** [int(a.to_integral_value(rounding=ROUND_CEILING))] *)
Definition dec_ceiling (a : Decimal) : Z :=
  if 0 <=? exponent a then coefficient a * 10 ^ exponent a
  else - ((- coefficient a) / 10 ^ (- exponent a)).

(** An exact result of at most 28 digits is not rounded. *)
Lemma dec_fix_exact d :
  Z.abs (coefficient d) < 10 ^ PREC -> E_TINY <= exponent d <= 0 -> dec_fix d = Ok d.
Proof.
  destruct d as [m e]. unfold dec_fix, E_TINY, E_TOP, E_MAX, PREC. simpl coefficient. simpl exponent.
  intros Hm He. destruct (m =? 0) eqn:E0.
  - do 2 f_equal; lia.
  - pose proof (num_digits_small m 28 Hm ltac:(lia)).
    destruct (Z.ltb_spec (999999 - (28 - 1)) (num_digits m + e - 28)); [lia|].
    destruct (Z.ltb_spec e (Z.max (num_digits m + e - 28) (- (999999) - (28 - 1)))); [lia|done].
Qed.
