(* ===== verification/Keepalive.v ===== *)
(** * Keepalive configuration

    [src/nebius/aio/keepalive.py]: the keepalive settings of a channel from its
    constructor options or from the environment, Go-style durations, and the
    gRPC channel arguments they become.  The process environment is an argument
    of the definitions that read it. *)
From S2P Require Import Prelude PyStr PyText.

(** The exceptions, one constructor per message; [NotInteger] and [NotBool] are
    [TypeError]s, [BadDecimal] is a trapped condition of [decimal], [DurationFuel]
    is the end of the model's fuel and never raised, the others are
    [ValueError]s. *)
Inductive keepalive_error : Type :=
| EmptyDuration (name : pystr)
| InvalidDuration (name : pystr)
| Negative (name : pystr)
| InvalidBoolean (name value : pystr)
| NotPositive (name : pystr)
| TimeoutNotPositive
| NotInteger (name : pystr)
| NotBool (name : pystr)
| DurationFuel
| BadDecimal (e : decimal_error).

Definition lift_decimal {A} (r : result decimal_error A) : result keepalive_error A :=
  match r with Ok a => Ok a | Raise e => Raise (BadDecimal e) end.

Definition DEFAULT_KEEPALIVE_TIME_MS : Z := 20000.
Definition DEFAULT_KEEPALIVE_TIMEOUT_MS : Z := 10000.

(** A value of an option: what [isinstance] and truth tests can tell apart. *)
Inductive pyvalue : Type :=
| VNone
| VBool (b : bool)
| VInt (n : Z)
| VOther (truthy : bool).

Definition truth (v : pyvalue) : bool :=
  match v with VNone => false | VBool b => b | VInt n => negb (n =? 0) | VOther b => b end.

Definition DEFAULT_KEEPALIVE_PERMIT_WITHOUT_STREAM : pyvalue := VBool true.

Definition ENV_GRPC_KEEPALIVE_TIME : pystr := u "NEBIUS_GRPC_KEEPALIVE_TIME".
Definition ENV_GRPC_KEEPALIVE_TIMEOUT : pystr := u "NEBIUS_GRPC_KEEPALIVE_TIMEOUT".
Definition ENV_GRPC_KEEPALIVE_PERMIT_WITHOUT_STREAM : pystr :=
  u "NEBIUS_GRPC_KEEPALIVE_PERMIT_WITHOUT_STREAM".

(** ** Durations *)

(** The units with their nanoseconds, in the order of the alternatives of the
    regular expression; the two forms of micro are U+00B5 and U+03BC. *)
Definition _UNIT_TO_NANOSECONDS : list (pystr * Z) :=
  [(u "ns", 1); (u "us", 1000); ([181; 115], 1000); ([956; 115], 1000); (u "ms", 1000000);
   (u "s", 1000000000); (u "m", 60000000000); (u "h", 3600000000000)].

Definition POINT : Z := 46.

(** The first alternative that matches, and the text after it. *)
Fixpoint match_unit (units : list (pystr * Z)) (s : pystr) : option (Z * pystr) :=
  match units with
  | [] => None
  | (t, ns) :: units => if startswith s t then Some (ns, drop (length t) s) else match_unit units s
  end.

(** The number group of [_DURATION_PART_RE].  Its runs of digits are greedy, and
    giving a digit back never helps: neither a point nor a unit follows. *)
Definition match_number (s : pystr) : option (pystr * pystr * pystr) :=
  let '(whole, rest) := span ascii_digit s in
  match rest with
  | c :: rest' =>
      if c =? POINT then
        let '(fraction, rest'') := span ascii_digit rest' in
        match whole, fraction with
        | [], [] => None
        | _, _ => Some (whole, fraction, rest'')
        end
      else match whole with [] => None | _ => Some (whole, [], rest) end
  | [] => match whole with [] => None | _ => Some (whole, [], rest) end
  end.

(** [_DURATION_PART_RE.match]: the number, the nanoseconds of the unit, and the
    text after the match. *)
Definition match_part (s : pystr) : option (Decimal * Z * pystr) :=
  '(whole, fraction, rest) ← match_number s;
  '(ns, rest) ← match_unit _UNIT_TO_NANOSECONDS rest;
  Some (mkDecimal (digits_value (whole ++ fraction)) (- Z.of_nat (length fraction)), ns, rest).

Definition _duration_part_ns (value : Decimal) (ns : Z) : result decimal_error Decimal :=
  dec_mul value (dec_of_int ns).

(** The loop over the parts; each takes at least one character. *)
Fixpoint duration_loop (fuel : nat) (name value : pystr) (total_ns : Decimal) :
    result keepalive_error Decimal :=
  match value with
  | [] => Ok total_ns
  | _ =>
      match fuel with
      | O => Raise DurationFuel
      | S fuel =>
          match match_part value with
          | None => Raise (InvalidDuration name)
          | Some (number, ns, rest) =>
              part ← lift_decimal (_duration_part_ns number ns);
              total_ns ← lift_decimal (dec_add total_ns part);
              duration_loop fuel name rest total_ns
          end
      end
  end.

Definition MINUS : Z := 45.
Definition PLUS : Z := 43.

Definition parse_go_duration_ms (name value : pystr) : result keepalive_error Z :=
  let value := strip value in
  match value with
  | [] => Raise (EmptyDuration name)
  | c :: value' =>
      if bool_decide (value = u "0") then Ok 0 else
      let '(sign, value) :=
        if (c =? PLUS) || (c =? MINUS) then (if c =? MINUS then -1 else 1, value') else (1, value) in
      match value with
      | [] => Raise (InvalidDuration name)
      | _ =>
          total_ns ← duration_loop (length value) name value (dec_of_int 0);
          total_ns ← lift_decimal (dec_mul total_ns (dec_of_int sign));
          if coefficient total_ns <? 0 then Raise (Negative name) else
          if coefficient total_ns =? 0 then Ok 0 else
          ms ← lift_decimal (dec_div_pow10 total_ns 6);
          Ok (dec_ceiling ms)
      end
  end.

Definition parse_go_bool (name value : pystr) : result keepalive_error bool :=
  let value := strip value in
  if bool_decide (value ∈ [u "1"; u "t"; u "T"; u "TRUE"; u "true"; u "True"]) then Ok true else
  if bool_decide (value ∈ [u "0"; u "f"; u "F"; u "FALSE"; u "false"; u "False"]) then Ok false else
  Raise (InvalidBoolean name value).

(** ** Configuration *)

Record KeepaliveConfig : Type := mkConfig {
  enabled : bool;
  time_ms : Z;
  timeout_ms : Z;
  permit_without_stream : pyvalue
}.

Definition default_keepalive_config : KeepaliveConfig :=
  mkConfig true DEFAULT_KEEPALIVE_TIME_MS DEFAULT_KEEPALIVE_TIMEOUT_MS
    DEFAULT_KEEPALIVE_PERMIT_WITHOUT_STREAM.

(** The check of a value that should be an [int]; the checked integer is
    returned. *)
Definition _assert_valid_keepalive_ms (name : pystr) (value : pyvalue) (allow_zero : bool) :
    result keepalive_error Z :=
  match value with
  | VInt n =>
      if n <? 0 then Raise (Negative name) else
      if (n =? 0) && negb allow_zero then Raise (NotPositive name) else Ok n
  | _ => Raise (NotInteger name)
  end.

Definition validate_keepalive_config (cfg : KeepaliveConfig) : result keepalive_error unit :=
  _ ← _assert_valid_keepalive_ms (u "keepalive.time_ms") (VInt (time_ms cfg)) true;
  _ ← _assert_valid_keepalive_ms (u "keepalive.timeout_ms") (VInt (timeout_ms cfg)) true;
  if enabled cfg && (timeout_ms cfg <=? 0) then Raise TimeoutNotPositive else Ok tt.

(** [environ]: the value of a variable, if it is set. *)
Abbreviation environment := (pystr -> option pystr).

Definition _lookup_keepalive_env (env : environment) (name : pystr) : option pystr :=
  value ← env name;
  let value := strip value in
  if bool_decide (value = []) then None else Some value.

Definition keepalive_config_from_env (env : environment) : result keepalive_error KeepaliveConfig :=
  let cfg := default_keepalive_config in
  '(enabled, time_ms) ←
     match _lookup_keepalive_env env ENV_GRPC_KEEPALIVE_TIME with
     | Some keepalive_time =>
         time_ms ← parse_go_duration_ms ENV_GRPC_KEEPALIVE_TIME keepalive_time;
         Ok (negb (time_ms =? 0), time_ms)
     | None => Ok (enabled cfg, time_ms cfg)
     end;
  timeout_ms ←
     match _lookup_keepalive_env env ENV_GRPC_KEEPALIVE_TIMEOUT with
     | Some keepalive_timeout => parse_go_duration_ms ENV_GRPC_KEEPALIVE_TIMEOUT keepalive_timeout
     | None => Ok (timeout_ms cfg)
     end;
  permit_without_stream ←
     match _lookup_keepalive_env env ENV_GRPC_KEEPALIVE_PERMIT_WITHOUT_STREAM with
     | Some permit =>
         b ← parse_go_bool ENV_GRPC_KEEPALIVE_PERMIT_WITHOUT_STREAM permit; Ok (VBool b)
     | None => Ok (permit_without_stream cfg)
     end;
  let cfg := mkConfig enabled time_ms timeout_ms permit_without_stream in
  _ ← validate_keepalive_config cfg;
  Ok cfg.

(** The constructor argument: [None], a [bool], a [KeepaliveOptions] object or a
    mapping.  The fields of the object are not checked by its class. *)
Inductive keepalive_argument : Type :=
| ArgNone
| ArgBool (b : bool)
| KeepaliveOptions (o_time_ms o_timeout_ms o_permit : pyvalue)
| ArgMapping (m : list (pystr * pyvalue)).

(** [options.get(snake_name, options.get(camel_name))] *)
Definition mapping_get (m : list (pystr * pyvalue)) (snake_name camel_name : pystr) : pyvalue :=
  match dict_get m snake_name with Some v => v | None => default VNone (dict_get m camel_name) end.

Definition _mapping_keepalive_int (m : list (pystr * pyvalue)) (snake_name camel_name : pystr) :
    result keepalive_error pyvalue :=
  match mapping_get m snake_name camel_name with
  | VNone => Ok VNone
  | VInt n => Ok (VInt n)
  | _ => Raise (NotInteger (u "keepalive." ++ snake_name))
  end.

Definition _mapping_keepalive_bool (m : list (pystr * pyvalue)) (snake_name camel_name : pystr) :
    result keepalive_error pyvalue :=
  match mapping_get m snake_name camel_name with
  | VNone => Ok VNone
  | VBool b => Ok (VBool b)
  | _ => Raise (NotBool (u "keepalive." ++ snake_name))
  end.

(** The three explicit values of the options. *)
Definition explicit_values (options : keepalive_argument) :
    result keepalive_error (pyvalue * pyvalue * pyvalue) :=
  match options with
  | KeepaliveOptions t o p => Ok (t, o, p)
  | ArgMapping m =>
      t ← _mapping_keepalive_int m (u "time_ms") (u "timeMs");
      o ← _mapping_keepalive_int m (u "timeout_ms") (u "timeoutMs");
      p ← _mapping_keepalive_bool m (u "permit_without_stream") (u "permitWithoutStream");
      Ok (t, o, p)
  | _ => Ok (VNone, VNone, VNone)
  end.

Definition override_ms (name : pystr) (explicit : pyvalue) (dflt : Z) : result keepalive_error Z :=
  match explicit with VNone => Ok dflt | v => _assert_valid_keepalive_ms name v true end.

Definition keepalive_config_from_options (env : environment) (options : keepalive_argument) :
    result keepalive_error KeepaliveConfig :=
  let cfg := default_keepalive_config in
  match options with
  | ArgBool false => Ok (mkConfig false 0 (timeout_ms cfg) (permit_without_stream cfg))
  | ArgNone => keepalive_config_from_env env
  | ArgBool true => _ ← validate_keepalive_config cfg; Ok cfg
  | _ =>
      '(explicit_time_ms, explicit_timeout_ms, explicit_permit) ← explicit_values options;
      time_ms ← override_ms (u "keepalive.time_ms") explicit_time_ms (time_ms cfg);
      timeout_ms ← override_ms (u "keepalive.timeout_ms") explicit_timeout_ms (timeout_ms cfg);
      let permit := match explicit_permit with VNone => permit_without_stream cfg | v => v end in
      let resolved := mkConfig (negb (time_ms =? 0)) time_ms timeout_ms permit in
      _ ← validate_keepalive_config resolved;
      Ok resolved
  end.

Definition keepalive_channel_options (cfg : KeepaliveConfig) : list (pystr * Z) :=
  if negb (enabled cfg) then [] else
  [(u "grpc.keepalive_time_ms", time_ms cfg);
   (u "grpc.keepalive_timeout_ms", timeout_ms cfg);
   (u "grpc.keepalive_permit_without_calls", if truth (permit_without_stream cfg) then 1 else 0)].

(** [keepalive_channel_options(keepalive_config_from_options(options))], as a
    channel uses them *)
Definition channel_keepalive (env : environment) (options : keepalive_argument) :
    result keepalive_error (list (pystr * Z)) :=
  cfg ← keepalive_config_from_options env options; Ok (keepalive_channel_options cfg).

Example parse_1m30s : parse_go_duration_ms [] (u " 1m30.0000001s ") = Ok 90001.
Proof. vm_compute. reflexivity. Qed.
Example parse_half : parse_go_duration_ms [] (u "-.5h") = Raise (Negative []).
Proof. vm_compute. reflexivity. Qed.
Example parse_minus_zero : parse_go_duration_ms [] (u "-0h") = Ok 0.
Proof. vm_compute. reflexivity. Qed.
(** The 28 digits of the context decide: the exact sum is above one millisecond. *)
Example parse_rounded :
  parse_go_duration_ms [] (u "1.0000000000000000000000000000000001ms") = Ok 1.
Proof. vm_compute. reflexivity. Qed.

(** ** The grammar of durations *)

Record part : Type := mkPart { whole : pystr; point : option pystr; unit_of : pystr * Z }.

Definition fraction (p : part) : pystr := default [] (point p).

Definition part_ok (p : part) : Prop :=
  forallb ascii_digit (whole p) = true /\ forallb ascii_digit (fraction p) = true /\
  whole p ++ fraction p <> [] /\ unit_of p ∈ _UNIT_TO_NANOSECONDS.

Definition part_text (p : part) : pystr :=
  whole p ++ match point p with Some f => POINT :: f | None => [] end ++ (unit_of p).1.

(** The duration of a part in units of [10 ^ -K] nanoseconds. *)
Definition part_amount (K : Z) (p : part) : Z :=
  digits_value (whole p ++ fraction p) * (unit_of p).2 * 10 ^ (K - Z.of_nat (length (fraction p))).

Definition parts_text (ps : list part) : pystr := concat (part_text <$> ps).
Definition total (K : Z) (ps : list part) : Z := foldr Z.add 0 (part_amount K <$> ps).

Inductive sign : Type := NoSign | PlusSign | MinusSign.
Definition sign_text (s : sign) : pystr :=
  match s with NoSign => [] | PlusSign => [PLUS] | MinusSign => [MINUS] end.

Definition part_decimal (p : part) : Decimal :=
  mkDecimal (digits_value (whole p ++ fraction p)) (- Z.of_nat (length (fraction p))).

(** What may follow a part: another one, or the end. *)
Definition part_start (c : Z) : bool := ascii_digit c || (c =? POINT).
Definition follows (s : pystr) : Prop := match s with [] => True | c :: _ => part_start c = true end.

Lemma match_unit_text t rest :
  t ∈ _UNIT_TO_NANOSECONDS -> follows rest -> match_unit _UNIT_TO_NANOSECONDS (t.1 ++ rest) = Some (t.2, rest).
Proof.
  intros Ht Hr. unfold _UNIT_TO_NANOSECONDS in Ht.
  repeat (apply elem_of_cons in Ht as [->|Ht]; [try reflexivity|]); [|by apply not_elem_of_nil in Ht].
  (* "m" is not the start of "ms" *)
  destruct rest as [|c rest]; [reflexivity|]. simpl in Hr |- *.
  rewrite bool_decide_eq_false_2; [done|]. intros <-. discriminate.
Qed.

Lemma match_unit_inv units s ns rest :
  match_unit units s = Some (ns, rest) -> exists t, (t, ns) ∈ units /\ s = t ++ rest.
Proof.
  induction units as [|[t n] units IH]; simpl; [done|].
  destruct (startswith s t) eqn:E.
  - intros [= <- <-]. exists t. split; [left|]. by apply startswith_drop.
  - intros (t' & ? & ->)%IH. exists t'. split; [by right|done].
Qed.

Lemma unit_starts t rest :
  t ∈ _UNIT_TO_NANOSECONDS -> starts_with_none part_start (t.1 ++ rest).
Proof.
  intros Ht. unfold _UNIT_TO_NANOSECONDS in Ht.
  repeat (apply elem_of_cons in Ht as [->|Ht]; [reflexivity|]). by apply not_elem_of_nil in Ht.
Qed.

#[local] Arguments match_unit : simpl never.

Lemma starts_with_none_weaken (p q : Z -> bool) s :
  (forall c, q c = true -> p c = true) -> starts_with_none p s -> starts_with_none q s.
Proof. destruct s as [|c s]; simpl; [done|]. intros H Hp. destruct (q c) eqn:E; [|done]. by rewrite (H _ E) in Hp. Qed.

Lemma match_part_text p rest :
  part_ok p -> follows rest ->
  match_part (part_text p ++ rest) = Some (part_decimal p, (unit_of p).2, rest).
Proof.
  intros (Hw & Hf & Hne & Hu) Hr. destruct p as [w pt t]. unfold fraction in *. simpl in *.
  unfold match_part, match_number, part_text, part_decimal, fraction. simpl.
  pose proof (unit_starts t rest Hu) as Hstart.
  assert (Hd : starts_with_none ascii_digit (t.1 ++ rest)).
  { eapply starts_with_none_weaken; [|done]. intros c Hc. unfold part_start. by rewrite Hc. }
  destruct pt as [f|]; simpl in *.
  - rewrite <- !app_assoc, span_run by done. cbn [app Z.eqb Pos.eqb POINT]. rewrite <- ?app_assoc, span_run by done.
    destruct w as [|c w]; [destruct f as [|c f]; [done|]|];
      cbn [mbind option_bind]; by rewrite match_unit_text.
  - rewrite app_nil_r in *. rewrite <- app_assoc, span_run by done.
    destruct w as [|d w]; [done|].
    destruct (t.1 ++ rest) as [|c r] eqn:E; [|simpl in Hstart].
    { pose proof (match_unit_text t rest Hu Hr) as H. rewrite E in H. discriminate. }
    assert (c =? POINT = false) as -> by (apply orb_false_iff in Hstart; tauto).
    cbn [mbind option_bind]. rewrite <- E, match_unit_text by done. simpl. by rewrite !app_nil_r.
Qed.

Lemma match_number_inv s w f rest :
  match_number s = Some (w, f, rest) ->
  forallb ascii_digit w = true /\ forallb ascii_digit f = true /\ w ++ f <> [] /\
  (s = w ++ POINT :: f ++ rest \/ f = [] /\ s = w ++ rest).
Proof.
  unfold match_number. pose proof (span_app ascii_digit s) as H.
  destruct (span ascii_digit s) as [w' r]. destruct H as (-> & Hw & _).
  destruct r as [|c r].
  { destruct w'; [done|]. intros [= <- <- <-]. rewrite ?app_nil_r. split_and!; try done; auto. }
  destruct (c =? POINT) eqn:Ec.
  - apply Z.eqb_eq in Ec as ->. pose proof (span_app ascii_digit r) as H.
    destruct (span ascii_digit r) as [f' r']. destruct H as (-> & Hf & _).
    destruct w' as [|d w'], f' as [|e f']; intros [= <- <- <-]; split_and!; try done; auto.
  - destruct w'; [done|]. intros [= <- <- <-]. rewrite ?app_nil_r. split_and!; try done; auto.
Qed.

Lemma match_part_inv s d ns rest :
  match_part s = Some (d, ns, rest) ->
  exists p, part_ok p /\ s = part_text p ++ rest /\ d = part_decimal p /\ ns = (unit_of p).2.
Proof.
  unfold match_part. destruct (match_number s) as [[[w f] r]|] eqn:E; [|done].
  cbn [mbind option_bind]. destruct (match_unit _ r) as [[n r']|] eqn:Eu; [|done].
  cbn [mbind option_bind]. intros [= <- <- <-].
  apply match_number_inv in E as (Hw & Hf & Hne & Hs). apply match_unit_inv in Eu as (t & Ht & ->).
  destruct Hs as [->|[-> ->]].
  - exists (mkPart w (Some f) (t, n)). unfold part_ok, part_text. simpl. rewrite <- !app_assoc.
    split_and!; try done. by rewrite <- app_comm_cons, <- app_assoc.
  - exists (mkPart w None (t, n)). unfold part_ok, part_text. simpl. rewrite <- !app_assoc.
    by split_and!.
Qed.

Lemma part_text_nonempty p : part_ok p -> part_text p <> [].
Proof.
  intros (_ & _ & _ & Hu) H. apply app_eq_nil in H as [_ H]. apply app_eq_nil in H as [_ H].
  pose proof (match_unit_text _ [] Hu I) as E. rewrite H in E. discriminate.
Qed.

Lemma parts_follow ps : Forall part_ok ps -> follows (parts_text ps).
Proof.
  destruct ps as [|p ps]; [done|]. intros [(Hw & Hf & Hne & _) _]%Forall_cons.
  destruct p as [w [f|] t]; unfold parts_text, part_text, fraction in *; simpl in *;
    destruct w as [|c w]; simpl in *; [done| |done|]; apply andb_prop in Hw as [Hw _]; unfold part_start; by rewrite Hw.
Qed.

(** ** The sum *)

Lemma unit_positive p : part_ok p -> 0 < (unit_of p).2.
Proof.
  intros (_ & _ & _ & Ht). unfold _UNIT_TO_NANOSECONDS in Ht.
  repeat (apply elem_of_cons in Ht as [->|Ht]; [done|]). by apply not_elem_of_nil in Ht.
Qed.

Lemma part_amount_nonneg K p : part_ok p -> 0 <= part_amount K p.
Proof.
  intros Hp. pose proof (unit_positive p Hp). destruct Hp as (Hw & Hf & _).
  unfold part_amount. pose proof (digits_value_nonneg (whole p ++ fraction p)) as H0.
  rewrite forallb_app, Hw, Hf in H0. specialize (H0 eq_refl).
  pose proof (Z.pow_nonneg 10 (K - Z.of_nat (length (fraction p)))). nia.
Qed.

Lemma total_nonneg K ps : Forall part_ok ps -> 0 <= total K ps.
Proof.
  unfold total. induction 1 as [|p ps Hp _ IH]; csimpl; [done|].
  pose proof (part_amount_nonneg K p Hp). lia.
Qed.

(** The running total holds [acc] units of [10 ^ -K] nanoseconds exactly. *)
Definition holds (K acc : Z) (d : Decimal) : Prop :=
  0 <= coefficient d /\ - K <= exponent d <= 0 /\ coefficient d * 10 ^ (K + exponent d) = acc.

Lemma holds_small K acc d : holds K acc d -> coefficient d <= acc.
Proof.
  intros (Hc & He & <-). pose proof (Z.pow_pos_nonneg 10 (K + exponent d)). nia.
Qed.

Lemma holds_fix K acc d :
  holds K acc d -> K <= 1000020 -> acc < 10 ^ PREC -> dec_fix d = Ok d.
Proof.
  intros H HK Ha. pose proof (holds_small _ _ _ H). destruct H as (? & ? & _).
  apply dec_fix_exact; unfold E_TINY, E_MAX, PREC in *; lia.
Qed.

Lemma part_step K acc d p :
  holds K acc d -> part_ok p -> Z.of_nat (length (fraction p)) <= K -> K <= 1000000 ->
  acc + part_amount K p < 10 ^ PREC ->
  exists d1 d2, _duration_part_ns (part_decimal p) (unit_of p).2 = Ok d1 /\
    dec_add d d1 = Ok d2 /\ holds K (acc + part_amount K p) d2.
Proof.
  intros Hd Hp HK HK2 Hsum. pose proof (part_amount_nonneg K p Hp). pose proof (unit_positive p Hp).
  pose proof Hd as (Hc & He & Hacc).
  assert (Hacc0 : 0 <= acc) by (subst; pose proof (Z.pow_nonneg 10 (K + exponent d)); nia).
  set (k := Z.of_nat (length (fraction p))) in *.
  set (m := digits_value (whole p ++ fraction p) * (unit_of p).2).
  assert (Hm : 0 <= m).
  { pose proof (digits_value_nonneg (whole p ++ fraction p)) as H1. destruct Hp as (Hw & Hf & _).
    rewrite forallb_app, Hw, Hf in H1. specialize (H1 eq_refl). nia. }
  assert (H1 : holds K (part_amount K p) (mkDecimal m (- k))).
  { unfold holds, part_amount. simpl. fold k m. repeat split; [done|lia..|]. do 2 f_equal. lia. }
  exists (mkDecimal m (- k)). unfold _duration_part_ns, dec_mul, dec_add.
  cbn [coefficient exponent part_decimal dec_of_int]. fold k m.
  rewrite Z.add_0_r, (holds_fix K (part_amount K p)) by (done || lia).
  set (e := Z.min (exponent d) (- k)).
  assert (H2 : holds K (acc + part_amount K p)
     (mkDecimal (coefficient d * 10 ^ (exponent d - e) + m * 10 ^ (- k - e)) e)).
  { destruct H1 as (_ & _ & H1). cbn [coefficient exponent] in H1.
    unfold holds. cbn [coefficient exponent]. rewrite <- Hacc, <- H1.
    pose proof (Z.pow_nonneg 10 (exponent d - e)). pose proof (Z.pow_nonneg 10 (- k - e)).
    repeat split; [nia|lia..|]. rewrite Z.mul_add_distr_r, <- !Z.mul_assoc, <- !Z.pow_add_r by lia.
    do 3 f_equal; lia. }
  eexists. rewrite (holds_fix K (acc + part_amount K p)) by (done || lia). eauto.
Qed.

Lemma parts_text_cons p ps : parts_text (p :: ps) = part_text p ++ parts_text ps.
Proof. done. Qed.

Lemma part_text_length p : part_ok p -> (2 <= length (part_text p))%nat.
Proof.
  intros Hp. pose proof Hp as (_ & _ & Hne & Hu).
  assert (Hl : (1 <= length (unit_of p).1)%nat).
  { pose proof (match_unit_text _ [] Hu I) as E. destruct (unit_of p).1; [discriminate|simpl; lia]. }
  unfold part_text, fraction in *. rewrite !length_app.
  destruct (whole p); [|simpl; lia]. destruct (point p); simpl in *; [lia|done].
Qed.

Lemma duration_loop_exact K name ps : Forall part_ok ps ->
  Forall (fun p => Z.of_nat (length (fraction p)) <= K) ps -> K <= 1000000 ->
  forall fuel acc d, holds K acc d -> 0 <= acc -> acc + total K ps < 10 ^ PREC ->
  (length (parts_text ps) <= fuel)%nat ->
  exists d', duration_loop fuel name (parts_text ps) d = Ok d' /\ holds K (acc + total K ps) d'.
Proof.
  intros Hps Hk HK. induction Hps as [|p ps Hp Hps IH]; intros fuel acc d Hd Hacc Hsum Hf.
  { exists d. unfold total in *. simpl. rewrite Z.add_0_r. by destruct fuel. }
  apply Forall_cons in Hk as [Hkp Hk]. rewrite parts_text_cons, length_app in *.
  pose proof (part_text_length p Hp). pose proof (part_amount_nonneg K p Hp).
  pose proof (total_nonneg K ps Hps).
  change (total K (p :: ps)) with (part_amount K p + total K ps) in *.
  destruct (part_step K acc d p) as (d1 & d2 & E1 & E2 & Hd2); [done..|lia|].
  destruct fuel as [|fuel]; [lia|]. destruct (part_text p ++ parts_text ps) as [|c s] eqn:Es.
  { apply app_eq_nil in Es as [Es _]. rewrite Es in *. simpl in *. lia. }
  cbn [duration_loop]. rewrite <- Es, match_part_text by auto using parts_follow.
  rewrite E1. cbn [lift_decimal mbind result_bind]. rewrite E2. cbn [lift_decimal mbind result_bind].
  rewrite Z.add_assoc. apply IH; [done|done|lia..].
Qed.

Lemma duration_loop_accepts name fuel s d :
  (length s <= fuel)%nat ->
  match duration_loop fuel name s d with
  | Ok _ => exists ps, Forall part_ok ps /\ s = parts_text ps
  | Raise e => e = InvalidDuration name \/ exists e', e = BadDecimal e'
  end.
Proof.
  revert s d. induction fuel as [|fuel IH]; intros s d Hf; (destruct s as [|c s]; [by exists []|]); [simpl in Hf; lia|].
  cbn [duration_loop]. destruct (match_part (c :: s)) as [[[n ns] rest]|] eqn:E; [|by left].
  apply match_part_inv in E as (p & Hp & Es & -> & ->). rewrite Es in Hf |- *.
  pose proof (part_text_length p Hp). rewrite length_app in Hf.
  destruct (_duration_part_ns _ _) as [d1|e1]; cbn; [|eauto].
  destruct (dec_add d d1) as [d2|e2]; cbn; [|eauto].
  specialize (IH rest d2 ltac:(lia)). destruct (duration_loop fuel name rest d2); [|done].
  destruct IH as (ps & Hps & ->). exists (p :: ps). auto.
Qed.

(** [ceil(a / b)] *)
Definition ceil_div (a b : Z) : Z := - ((- a) / b).

Lemma dec_ceiling_holds K acc d :
  holds K acc d -> dec_ceiling (mkDecimal (coefficient d) (exponent d - 6)) = ceil_div acc (10 ^ (K + 6)).
Proof.
  intros (Hc & He & <-). unfold dec_ceiling, ceil_div. cbn [coefficient exponent].
  destruct (Z.leb_spec 0 (exponent d - 6)); [lia|]. f_equal.
  replace (K + 6) with (- (exponent d - 6) + (K + exponent d)) by lia.
  rewrite (Z.pow_add_r 10 (- (exponent d - 6))) by lia. rewrite <- Z.mul_opp_l.
  pose proof (Z.pow_pos_nonneg 10 (K + exponent d)).
  pose proof (Z.pow_pos_nonneg 10 (- (exponent d - 6))). by rewrite Z.div_mul_cancel_r by lia.
Qed.

(** The tail of the parser after a sign, on an exact total. *)
Lemma duration_sign sg ps :
  Forall part_ok ps -> ps <> [] ->
  exists c s, sign_text sg ++ parts_text ps = c :: s /\ c :: s <> u "0" /\
  (if (c =? PLUS) || (c =? MINUS) then (if c =? MINUS then -1 else 1, s) else (1, c :: s)) =
  (if sg is MinusSign then -1 else 1, parts_text ps) /\ parts_text ps <> [].
Proof.
  intros Hps Hne. destruct ps as [|p ps]; [done|]. pose proof (parts_follow _ Hps) as Hf.
  apply Forall_cons in Hps as [Hp _]. pose proof (part_text_length p Hp) as Hl.
  rewrite parts_text_cons in *. destruct (part_text p ++ parts_text ps) as [|c s] eqn:E.
  { apply app_eq_nil in E as [E _]. rewrite E in Hl. simpl in Hl. lia. }
  assert (Hl2 : (2 <= length (c :: s))%nat) by (rewrite <- E, length_app; lia).
  destruct sg; simpl.
  - exists c, s. split_and!; [done| | |done..]. { intros H. rewrite H in Hl2. simpl in Hl2. lia. }
    assert (c =? PLUS = false /\ c =? MINUS = false) as [-> ->]; [|done].
    unfold follows, part_start, ascii_digit, POINT in Hf. unfold PLUS, MINUS. lia.
  - exists PLUS, (c :: s). split_and!; done.
  - exists MINUS, (c :: s). split_and!; done.
Qed.

(** The texts the parser accepts. *)
Definition duration_text (s : pystr) : Prop :=
  strip s = u "0" \/
  exists sg ps, strip s = sign_text sg ++ parts_text ps /\ Forall part_ok ps /\ ps <> [].

Lemma parse_exact name s sg ps K :
  strip s = sign_text sg ++ parts_text ps -> Forall part_ok ps -> ps <> [] ->
  Forall (fun p => Z.of_nat (length (fraction p)) <= K) ps -> 0 <= K <= 1000000 ->
  total K ps < 10 ^ PREC ->
  parse_go_duration_ms name s =
  if sg is MinusSign then if total K ps =? 0 then Ok 0 else Raise (Negative name)
  else Ok (ceil_div (total K ps) (10 ^ (K + 6))).
Proof.
  intros Hs Hps Hne Hk HK Hsum. unfold parse_go_duration_ms. rewrite Hs.
  destruct (duration_sign sg ps Hps Hne) as (c & s' & -> & Hz & Hsg & Hpt).
  rewrite bool_decide_eq_false_2 by done. rewrite Hsg.
  destruct (duration_loop_exact K name ps Hps Hk ltac:(lia) (length (parts_text ps)) 0 (dec_of_int 0))
    as (d & Ed & Hd); [split; simpl; lia|lia|lia|lia|]. rewrite Z.add_0_l in Hd.
  destruct (parts_text ps) as [|c0 s0] eqn:Ept; [done|]. rewrite Ed. cbn [mbind result_bind lift_decimal].
  pose proof (holds_small _ _ _ Hd) as Hle. pose proof (total_nonneg K ps Hps) as H0.
  pose proof Hd as (Hc & He & Heq). unfold dec_mul. cbn [coefficient exponent dec_of_int].
  rewrite Z.add_0_r. unfold PREC in *.
  rewrite dec_fix_exact by (destruct sg; cbn; unfold E_TINY, E_MAX, PREC; lia).
  cbn [mbind result_bind lift_decimal coefficient exponent].
  assert (Hzero : (total K ps =? 0) = (coefficient d =? 0)).
  { pose proof (Z.pow_pos_nonneg 10 (K + exponent d)). apply eq_iff_eq_true. rewrite !Z.eqb_eq. nia. }
  assert (Hpos : forall x, x = coefficient d -> (if x <? 0 then Raise (Negative name) else
     if x =? 0 then Ok 0 else ms ← lift_decimal (dec_div_pow10 (mkDecimal x (exponent d)) 6);
     Ok (dec_ceiling ms)) = Ok (ceil_div (total K ps) (10 ^ (K + 6)))).
  { intros x ->. destruct (Z.ltb_spec (coefficient d) 0); [lia|]. rewrite <- Hzero.
    destruct (Z.eqb_spec (total K ps) 0) as [->|]; [done|].
    unfold dec_div_pow10. cbn [coefficient exponent].
    rewrite dec_fix_exact by (cbn; unfold E_TINY, E_MAX, PREC; lia). cbn.
    f_equal. by apply dec_ceiling_holds. }
  destruct sg; [apply Hpos; lia..|]. rewrite Hzero.
  destruct (Z.ltb_spec (coefficient d * -1) 0), (Z.eqb_spec (coefficient d) 0),
    (Z.eqb_spec (coefficient d * -1) 0); try lia; done.
Qed.

Lemma parse_accepts name s :
  match parse_go_duration_ms name s with
  | Ok n => duration_text s
  | Raise (Negative _) => duration_text s
  | Raise e => e = EmptyDuration name \/ e = InvalidDuration name \/ exists e', e = BadDecimal e'
  end.
Proof.
  unfold parse_go_duration_ms, duration_text. destruct (strip s) as [|c s'] eqn:Es; [by left|].
  case_bool_decide; [by left|].
  set (p := if _ || _ then _ else _). assert (Hp : exists sg, c :: s' = sign_text sg ++ p.2).
  { subst p. destruct (c =? PLUS) eqn:E1; [apply Z.eqb_eq in E1 as ->; by exists PlusSign|].
    destruct (c =? MINUS) eqn:E2; [apply Z.eqb_eq in E2 as ->; by exists MinusSign|].
    by exists NoSign. }
  destruct p as [sgn v]. destruct Hp as [sg ->]. simpl in *.
  destruct v as [|c0 v]; [by auto|].
  pose proof (duration_loop_accepts name (length (c0 :: v)) (c0 :: v) (dec_of_int 0) ltac:(lia)) as Hl.
  destruct (duration_loop _ _ _ _) as [d|e]; cbn [mbind result_bind];
    [|by destruct Hl as [->|[e' ->]]; eauto].
  destruct Hl as (ps & Hps & Hv). rewrite Hv.
  assert (Hacc : strip s = u "0" \/ exists sg' ps', sign_text sg ++ parts_text ps = sign_text sg' ++ parts_text ps' /\ Forall part_ok ps' /\ ps' <> []).
  { right. exists sg, ps. split_and!; [done..|]. by intros ->. }
  destruct (dec_mul d _) as [d1|e1]; cbn; [|eauto].
  destruct (_ <? 0); [naive_solver|]. destruct (_ =? 0); [naive_solver|].
  destruct (dec_div_pow10 d1 6); cbn; [naive_solver|eauto].
Qed.

(** ** The resolved configuration *)

Record config_ok (cfg : KeepaliveConfig) : Prop := {
  ok_time : 0 <= time_ms cfg;
  ok_timeout : 0 <= timeout_ms cfg;
  ok_enabled : enabled cfg = negb (time_ms cfg =? 0);
  ok_positive : enabled cfg = true -> 0 < timeout_ms cfg
}.

Lemma assert_valid_ms name n :
  _assert_valid_keepalive_ms name (VInt n) true = if n <? 0 then Raise (Negative name) else Ok n.
Proof. simpl. by rewrite andb_false_r. Qed.

Lemma validate_ok cfg :
  enabled cfg = negb (time_ms cfg =? 0) ->
  match validate_keepalive_config cfg with
  | Ok _ => config_ok cfg
  | Raise e => ~ config_ok cfg /\
      (e = Negative (u "keepalive.time_ms") \/ e = Negative (u "keepalive.timeout_ms") \/ e = TimeoutNotPositive)
  end.
Proof.
  destruct cfg as [en t o p]. simpl. intros ->.
  unfold validate_keepalive_config. cbn [time_ms timeout_ms enabled]. rewrite !assert_valid_ms.
  destruct (Z.ltb_spec t 0); cbn [mbind result_bind].
  { split; [|by auto]. intros []. simpl in *. lia. }
  destruct (Z.ltb_spec o 0); cbn [mbind result_bind].
  { split; [|by auto]. intros []. simpl in *. lia. }
  destruct (negb (t =? 0)) eqn:Et; cbn [andb].
  - destruct (Z.leb_spec o 0).
    + split; [|by auto]. intros []. simpl in *. lia.
    + split; simpl; lia.
  - split; simpl; lia || congruence.
Qed.

Lemma env_enabled env cfg :
  keepalive_config_from_env env = Ok cfg -> config_ok cfg.
Proof.
  unfold keepalive_config_from_env. intros ([en t] & H1 & H)%result_bind_Ok.
  apply result_bind_Ok in H as (o & _ & H). apply result_bind_Ok in H as (p & _ & H). apply result_bind_Ok in H as ([] & Hv & [= <-]).
  assert (He : en = negb (t =? 0)).
  { destruct (_lookup_keepalive_env _ _); [|by injection H1 as <- <-].
    by apply result_bind_Ok in H1 as (t' & _ & [= <- <-]). }
  pose proof (validate_ok (mkConfig en t o p) He) as Hok. by rewrite Hv in Hok.
Qed.

Lemma overridden_ok t o p cfg :
  (time_ms ← override_ms (u "keepalive.time_ms") t (time_ms default_keepalive_config);
   timeout_ms ← override_ms (u "keepalive.timeout_ms") o (timeout_ms default_keepalive_config);
   let resolved := mkConfig (negb (time_ms =? 0)) time_ms timeout_ms p in
   _ ← validate_keepalive_config resolved; Ok resolved) = Ok cfg -> config_ok cfg.
Proof.
  intros (t' & _ & H)%result_bind_Ok. apply result_bind_Ok in H as (o' & _ & H). apply result_bind_Ok in H as ([] & Hv & [= <-]).
  pose proof (validate_ok (mkConfig (negb (t' =? 0)) t' o' p) eq_refl) as Hok. by rewrite Hv in Hok.
Qed.

(** Every configuration the SDK resolves, from the environment or from
    constructor options, has non-negative times, is enabled exactly when its
    interval is not zero, and then has a positive timeout; the channel gets
    either no keepalive arguments or all three, with positive times and a flag.
    Explicit options never look at the environment. *)
Theorem keepalive_config_valid env options cfg :
  keepalive_config_from_options env options = Ok cfg ->
  config_ok cfg /\
  (keepalive_channel_options cfg = [] \/
   exists t o b, keepalive_channel_options cfg =
     [(u "grpc.keepalive_time_ms", t); (u "grpc.keepalive_timeout_ms", o);
      (u "grpc.keepalive_permit_without_calls", b)] /\ 0 < t /\ 0 < o /\ (b = 0 \/ b = 1)) /\
  (options <> ArgNone -> forall env', keepalive_config_from_options env' options = Ok cfg).
Proof.
  intros H. assert (Hok : config_ok cfg).
  { destruct options as [|[]|t o p|m]; simpl in H.
    - by apply (env_enabled env).
    - simplify_eq. by split.
    - simplify_eq. by split.
    - by apply overridden_ok in H.
    - apply result_bind_Ok in H as ([[t o] p] & _ & H). by apply overridden_ok in H. }
  split_and!; [done| |by destruct options as [|[]| |]].
  unfold keepalive_channel_options. destruct (enabled cfg) eqn:E; simpl; [right|by left].
  do 3 eexists. split; [done|]. destruct Hok as [H1 H2 H3 H4]. rewrite E in H3.
  specialize (H4 E). split_and!; [lia|lia|]. destruct (truth _); auto.
Qed.

Definition ex_options : keepalive_argument :=
  ArgMapping [(u "timeMs", VInt 0); (u "time_ms", VInt 500); (u "timeoutMs", VInt 7)].

Lemma keepalive_config_valid_witness :
  config_ok (mkConfig true 500 7 (VBool true)) /\
  keepalive_config_from_options (fun _ => Some (u "1s")) ex_options = Ok (mkConfig true 500 7 (VBool true)).
Proof.
  pose proof (keepalive_config_valid (fun _ => None) ex_options (mkConfig true 500 7 (VBool true)) eq_refl)
    as (H & _ & He).
  split; [exact H | by apply He].
Defined.

(** A duration text is an optional sign and one or more numbers with units.
    When its exact total needs at most 28 digits the parser returns the total
    in milliseconds, rounded up, and refuses a negative total; it returns a
    value for no other text, except a bare zero. *)
Theorem keepalive_duration_spec name s :
  (forall sg ps K, strip s = sign_text sg ++ parts_text ps -> Forall part_ok ps -> ps <> [] ->
     Forall (fun p => Z.of_nat (length (fraction p)) <= K) ps -> 0 <= K <= 1000000 ->
     total K ps < 10 ^ PREC ->
     parse_go_duration_ms name s =
     if sg is MinusSign then if total K ps =? 0 then Ok 0 else Raise (Negative name)
     else Ok (ceil_div (total K ps) (10 ^ (K + 6)))) /\
  (forall n, parse_go_duration_ms name s = Ok n -> duration_text s).
Proof.
  split; [intros; by apply parse_exact|].
  intros n H. pose proof (parse_accepts name s) as Ha. by rewrite H in Ha.
Qed.

Lemma keepalive_duration_spec_witness :
  parse_go_duration_ms [] (u " 1m30.0000001s ") = Ok (ceil_div 900000001000000000 (10 ^ 13)).
Proof.
  apply (proj1 (keepalive_duration_spec [] (u " 1m30.0000001s ")) NoSign
    [mkPart (u "1") None (u "m", 60000000000); mkPart (u "30") (Some (u "0000001")) (u "s", 1000000000)] 7).
  - vm_compute. reflexivity.
  - repeat constructor; try discriminate; vm_compute; try done; apply (bool_decide_unpack _); vm_compute; exact I.
  - done.
  - repeat constructor; vm_compute; done.
  - done.
  - vm_compute. reflexivity.
Defined.
