(* ===== verification/Registry.v ===== *)
(** * The message registry and [Any]

    [src/nebius/base/protos/registry.py]: the symbols of one namespace, their
    lazy resolution with a cache, type URLs, packing into and unpacking from
    [google.protobuf.Any].  Importing modules and calling the factories of
    generated code, and the binary form of the messages, are an interface;
    descriptors are not modelled. *)
From S2P Require Import Prelude PyStr PyText.

Inductive registry_error : Type :=
| ValueE (text : string)
| LookupE (text : string)
| TypeE (text : string)
| DecodeE.

(** A generated class: its protobuf name, the registry it belongs to, and
    whether it is a direct message class or an enum. *)
Inductive class_kind : Type := MessageKind | EnumKind.
Record pyclass : Type := mkClass { full_name : pystr; owner : nat; kind : class_kind }.

#[export] Instance class_kind_eq_dec : EqDecision class_kind.
Proof. solve_decision. Defined.
#[export] Instance pyclass_eq_dec : EqDecision pyclass.
Proof. solve_decision. Defined.

(** An object a reference may resolve to. *)
Inductive pyobject : Type := AClass (c : pyclass) | NotAClass.

Record MessageReference : Type := mkReference {
  module : option pystr;
  qualname : option pystr;
  factory : option nat
}.

(** What the registry uses of the program around it. *)
Class Program := {
  (** [factory()] *)
  call_factory : nat -> result registry_error pyobject;
  (** [import_module] followed by the [getattr] of every component *)
  import_path : pystr -> list pystr -> result registry_error pyobject;
  (** a message object *)
  msg : Type;
  class_of : msg -> pyclass;
  (** [SerializeToString(deterministic=True)] and [_from_string] *)
  serialize : msg -> list Z;
  from_string : pyclass -> list Z -> option msg;
  from_string_class : forall c b m, from_string c b = Some m -> class_of m = c
}.

(** ** Names *)

Definition DOT : Z := 46.
Definition SLASH : Z := 47.

Definition ident_start (c : Z) : bool :=
  ((65 <=? c) && (c <=? 90)) || ((97 <=? c) && (c <=? 122)) || (c =? 95).
Definition ident_char (c : Z) : bool := ident_start c || ascii_digit c.
Definition is_ident (s : pystr) : bool :=
  match s with c :: s => ident_start c && forallb ident_char s | [] => false end.

(** [_PROTO_NAME.fullmatch]: identifiers separated by dots *)
Definition _PROTO_NAME (s : pystr) : bool :=
  match split s [DOT] with Some parts => forallb is_ident parts | None => false end.

(** [name.lstrip(".")], [prefix.rstrip("/")] *)
Definition lstrip_dots (s : pystr) : pystr := (span (Z.eqb DOT) s).2.
Definition rstrip_slashes (s : pystr) : pystr := reverse (span (Z.eqb SLASH) (reverse s)).2.

(** [s.rpartition("/")]: the text before the last slash and after it, or [None]
    without one. *)
Definition rpartition_slash (s : pystr) : option (pystr * pystr) :=
  let '(tail, head) := span (fun c => negb (c =? SLASH)) (reverse s) in
  match head with [] => None | _ :: head => Some (reverse head, reverse tail) end.

Definition type_name (type_url : pystr) : result registry_error pystr :=
  match rpartition_slash type_url with
  | Some (_ :: _, full_name) =>
      if _PROTO_NAME full_name then Ok full_name else Raise (ValueE "malformed Any type URL")
  | _ => Raise (ValueE "malformed Any type URL")
  end.

Section Registry.
Context {P : Program}.

Definition resolve (r : MessageReference) : result registry_error pyobject :=
  match factory r with
  | Some f => call_factory f
  | None =>
      match module r, qualname r with
      | Some m, Some q => import_path m (default [] (split q [DOT]))
      | _, _ => Raise (ValueE "message reference requires a factory or module/qualname")
      end
  end.

(** ** The registry *)

Abbreviation symbols_map := (list (pystr * MessageReference)).

Record Registry : Type := mkRegistry {
  registry_id : nat;
  _symbols : symbols_map;
  _enum_symbols : symbols_map;
  _any_type : option MessageReference;
  _cache : list (pystr * pyclass);
  _enum_cache : list (pystr * pyclass)
}.

(** The loops of [__init__] over the symbols. *)
Fixpoint normalize_loop (normalized symbols : symbols_map) : result registry_error symbols_map :=
  match symbols with
  | [] => Ok normalized
  | (name, reference) :: symbols =>
      let canonical := lstrip_dots name in
      if negb (_PROTO_NAME canonical) then Raise (ValueE "invalid protobuf name") else
      if dict_has normalized canonical then Raise (ValueE "duplicate protobuf name") else
      normalize_loop (dict_set normalized canonical reference) symbols
  end.

Definition init (self : nat) (symbols : symbols_map) (any_type : option MessageReference)
    (enum_symbols : symbols_map) : result registry_error Registry :=
  normalized ← normalize_loop [] symbols;
  normalized_enums ← normalize_loop [] enum_symbols;
  Ok (mkRegistry self normalized normalized_enums any_type [] []).

Record RegistryFragment : Type := mkFragment { symbols : symbols_map; enum_symbols : symbols_map }.

(** The inner loops of [from_fragments]. *)
Fixpoint merge_symbols (acc more : symbols_map) : result registry_error symbols_map :=
  match more with
  | [] => Ok acc
  | (name, reference) :: more =>
      if dict_has acc name then Raise (ValueE "duplicate protobuf name")
      else merge_symbols (dict_set acc name reference) more
  end.

Fixpoint merge_fragments (acc enums : symbols_map) (fragments : list RegistryFragment) :
    result registry_error (symbols_map * symbols_map) :=
  match fragments with
  | [] => Ok (acc, enums)
  | f :: fragments =>
      acc ← merge_symbols acc (symbols f);
      enums ← merge_symbols enums (enum_symbols f);
      merge_fragments acc enums fragments
  end.

Definition from_fragments (self : nat) (fragments : list RegistryFragment) :
    result registry_error Registry :=
  '(symbols, enum_symbols) ← merge_fragments [] [] fragments;
  init self symbols (dict_get symbols (u "google.protobuf.Any")) enum_symbols.

(** The checks of a class a symbol resolved to. *)
Definition check_class (k : class_kind) (canonical : pystr) (self : nat) (o : pyobject) :
    result registry_error pyclass :=
  match o with
  | AClass c =>
      if negb (bool_decide (kind c = k)) then Raise (TypeE "symbol is not a class of the kind") else
      if negb (bool_decide (canonical = full_name c)) then Raise (ValueE "symbol resolved to another name") else
      if negb (owner c =? self)%nat then Raise (ValueE "symbol belongs to another registry") else Ok c
  | NotAClass => Raise (TypeE "symbol is not a class of the kind")
  end.

(** [message_class]: the class and the registry with its new cache. *)
Definition message_class (self : Registry) (name : pystr) : result registry_error (pyclass * Registry) :=
  let canonical := lstrip_dots name in
  match dict_get (_cache self) canonical with
  | Some cached => Ok (cached, self)
  | None =>
      match dict_get (_symbols self) canonical with
      | None => Raise (LookupE "message is not registered in this namespace")
      | Some reference =>
          o ← resolve reference;
          c ← check_class MessageKind canonical (registry_id self) o;
          Ok (c, mkRegistry (registry_id self) (_symbols self) (_enum_symbols self) (_any_type self)
                   (dict_set (_cache self) canonical c) (_enum_cache self))
      end
  end.

Definition enum_class (self : Registry) (name : pystr) : result registry_error (pyclass * Registry) :=
  let canonical := lstrip_dots name in
  match dict_get (_enum_cache self) canonical with
  | Some cached => Ok (cached, self)
  | None =>
      match dict_get (_enum_symbols self) canonical with
      | None => Raise (LookupE "enum is not registered in this namespace")
      | Some reference =>
          o ← resolve reference;
          c ← check_class EnumKind canonical (registry_id self) o;
          Ok (c, mkRegistry (registry_id self) (_symbols self) (_enum_symbols self) (_any_type self)
                   (_cache self) (dict_set (_enum_cache self) canonical c))
      end
  end.

(** The generated class of the reference is a direct message class. *)
Definition _any_class (self : Registry) : result registry_error pyclass :=
  match _any_type self with
  | None => Raise (LookupE "google.protobuf.Any is not generated in this namespace")
  | Some reference =>
      o ← resolve reference;
      match o with
      | AClass c =>
          if negb (bool_decide (full_name c = u "google.protobuf.Any"))
          then Raise (ValueE "configured Any reference is not google.protobuf.Any") else
          if negb (owner c =? registry_id self)%nat
          then Raise (ValueE "configured Any class belongs to another registry") else Ok c
      | NotAClass => Raise (TypeE "object has no protobuf name")
      end
  end.

(** ** [Any] *)

Record AnyMessage : Type := mkAny { any_class : pyclass; type_url : pystr; value : list Z }.

Definition pack_any (self : Registry) (message : msg) (type_url_prefix : pystr) :
    result registry_error AnyMessage :=
  if negb (owner (class_of message) =? registry_id self)%nat
  then Raise (ValueE "cannot pack a message from another registry") else
  let prefix := rstrip_slashes type_url_prefix in
  if bool_decide (prefix = []) then Raise (ValueE "Any type URL prefix must not be empty") else
  let name := full_name (class_of message) in
  if negb (_PROTO_NAME name) then Raise (ValueE "invalid protobuf message name") else
  c ← _any_class self;
  Ok (mkAny c (prefix ++ [SLASH] ++ name) (serialize message)).

Definition unpack_any (self : Registry) (a : AnyMessage) (expected_type : option pyclass) :
    result registry_error (msg * Registry) :=
  c ← _any_class self;
  if negb (bool_decide (any_class a = c)) then Raise (ValueE "Any message belongs to another registry") else
  name ← type_name (type_url a);
  '(message_type, self') ← message_class self name;
  _ ← match expected_type with
      | None => Ok tt
      | Some e =>
          if negb (owner e =? registry_id self)%nat
          then Raise (ValueE "expected Any type belongs to another registry") else
          if negb (bool_decide (message_type = e)) then Raise (ValueE "Any contains another type") else Ok tt
      end;
  match from_string message_type (value a) with
  | Some m => Ok (m, self')
  | None => Raise DecodeE
  end.

(** ** Names: lemmas *)

Lemma proto_name_chars s : _PROTO_NAME s = true -> Forall (fun c => c = DOT \/ ident_char c = true) s.
Proof.
  unfold _PROTO_NAME. destruct (split s [DOT]) as [parts|] eqn:E; [|done]. intros Hp.
  apply join_split in E as <-. induction parts as [|p parts IH]; [constructor|].
  simpl in Hp. apply andb_prop in Hp as [Hp Hps].
  assert (Hchars : Forall (fun c => c = DOT \/ ident_char c = true) p).
  { destruct p as [|c p]; [constructor|]. simpl in Hp. apply andb_prop in Hp as [Hc Hp].
    constructor; [right; unfold ident_char; by rewrite Hc|].
    apply Forall_forall. intros x Hx%list_elem_of_In.
    right. by apply (proj1 (forallb_forall _ _) Hp). }
  destruct parts as [|q parts]; [done|]. rewrite join_cons by done.
  apply Forall_app. split; [done|]. apply Forall_app. split; [constructor; [by left|constructor]|by apply IH].
Qed.

Lemma proto_name_start s : _PROTO_NAME s = true -> exists c t, s = c :: t /\ ident_start c = true.
Proof.
  unfold _PROTO_NAME. destruct (split s [DOT]) as [parts|] eqn:E; [|done].
  pose proof (split_nonempty _ _ _ E) as Hne. apply join_split in E as <-.
  destruct parts as [|p parts]; [done|]. simpl. intros [Hp _]%andb_prop.
  destruct p as [|c p]; [done|]. simpl in Hp. apply andb_prop in Hp as [Hc _].
  destruct parts; simpl; eauto.
Qed.

Lemma proto_name_no_slash s : _PROTO_NAME s = true -> forallb (fun c => negb (c =? SLASH)) s = true.
Proof.
  intros Hs%proto_name_chars. apply forallb_forall. intros c Hc%list_elem_of_In.
  rewrite Forall_forall in Hs. destruct (Hs c Hc) as [->|Hi]; [done|].
  unfold ident_char, ident_start, ascii_digit, SLASH in *. lia.
Qed.

Lemma lstrip_proto_name s : _PROTO_NAME s = true -> lstrip_dots s = s.
Proof.
  intros (c & t & -> & Hc)%proto_name_start. unfold lstrip_dots. cbn [span].
  by destruct (Z.eqb_spec DOT c) as [<-|].
Qed.

Lemma rpartition_slash_app p s :
  forallb (fun c => negb (c =? SLASH)) s = true -> rpartition_slash (p ++ SLASH :: s) = Some (p, s).
Proof.
  intros Hs. unfold rpartition_slash. rewrite reverse_app, reverse_cons, <- app_assoc.
  rewrite span_run; [|by rewrite forallb_reverse|done]. simpl. by rewrite !reverse_involutive.
Qed.

Lemma type_name_url p s : p <> [] -> _PROTO_NAME s = true -> type_name (p ++ [SLASH] ++ s) = Ok s.
Proof.
  intros Hp Hs. unfold type_name. simpl. rewrite rpartition_slash_app by (by apply proto_name_no_slash).
  destruct p; [done|]. by rewrite Hs.
Qed.

Lemma type_name_valid url s : type_name url = Ok s -> _PROTO_NAME s = true.
Proof.
  unfold type_name. destruct (rpartition_slash url) as [[[|c p] n]|]; [done| |done].
  destruct (_PROTO_NAME n) eqn:E; [|done]. by intros [= <-].
Qed.

(** ** Lookups *)

(** The lookup without caches. *)
Definition lookup_class (k : class_kind) (self : nat) (ss : symbols_map) (name : pystr) :
    result registry_error pyclass :=
  match dict_get ss (lstrip_dots name) with
  | None => Raise (LookupE (match k with MessageKind => "message is not registered in this namespace"
                                        | EnumKind => "enum is not registered in this namespace" end))
  | Some reference => o ← resolve reference; check_class k (lstrip_dots name) self o
  end.

(** A cache holds what the lookup would find. *)
Definition cache_ok (k : class_kind) (self : nat) (ss : symbols_map) (cache : list (pystr * pyclass)) : Prop :=
  forall n c, dict_get cache n = Some c ->
  exists reference o, dict_get ss n = Some reference /\ resolve reference = Ok o /\ check_class k n self o = Ok c.

Record registry_ok (r : Registry) : Prop := {
  ok_cache : cache_ok MessageKind (registry_id r) (_symbols r) (_cache r);
  ok_enum_cache : cache_ok EnumKind (registry_id r) (_enum_symbols r) (_enum_cache r)
}.

Lemma check_class_Ok k n self o c :
  check_class k n self o = Ok c -> o = AClass c /\ full_name c = n /\ owner c = self /\ kind c = k.
Proof.
  destruct o as [c'|]; [|done]. simpl. repeat case_bool_decide; simpl; try done.
  destruct (Nat.eqb_spec (owner c') self); [|done]. intros [= <-]. auto.
Qed.

Lemma cache_ok_set k self ss cache n reference o c :
  cache_ok k self ss cache -> dict_get ss n = Some reference -> resolve reference = Ok o ->
  check_class k n self o = Ok c -> cache_ok k self ss (dict_set cache n c).
Proof.
  intros Hc H1 H2 H3 n' c'. rewrite dict_get_set. case_decide; [intros [= <-]; subst; eauto|apply Hc].
Qed.

Lemma lookup_class_Ok k self ss n c :
  lookup_class k self ss n = Ok c -> full_name c = lstrip_dots n /\ owner c = self /\ kind c = k.
Proof.
  unfold lookup_class. destruct (dict_get ss _) as [reference|]; [|done].
  intros (o & _ & H)%result_bind_Ok. by apply check_class_Ok in H as (_ & H).
Qed.

(** A lookup gives what the lookup without caches gives, and keeps the rest. *)
Lemma message_class_lookup r n :
  registry_ok r ->
  match message_class r n with
  | Ok (c, r') => lookup_class MessageKind (registry_id r) (_symbols r) n = Ok c /\ registry_ok r' /\
      registry_id r' = registry_id r /\ _symbols r' = _symbols r /\ _enum_symbols r' = _enum_symbols r /\
      _any_type r' = _any_type r
  | Raise e => lookup_class MessageKind (registry_id r) (_symbols r) n = Raise e
  end.
Proof.
  intros [Hc He]. unfold message_class, lookup_class.
  destruct (dict_get (_cache r) _) as [c|] eqn:E1.
  { destruct (Hc _ _ E1) as (reference & o & -> & Ho & Hk). cbn. rewrite Ho. cbn. by rewrite Hk. }
  destruct (dict_get (_symbols r) _) as [reference|] eqn:E2; [|done].
  destruct (resolve reference) as [o|e] eqn:E3; cbn; [|done].
  destruct (check_class _ _ _ o) as [c|e] eqn:E4; cbn; [|done].
  split_and!; try done. split; cbn; [by eapply cache_ok_set|done].
Qed.

Lemma enum_class_lookup r n :
  registry_ok r ->
  match enum_class r n with
  | Ok (c, r') => lookup_class EnumKind (registry_id r) (_enum_symbols r) n = Ok c /\ registry_ok r' /\
      registry_id r' = registry_id r /\ _symbols r' = _symbols r /\ _enum_symbols r' = _enum_symbols r /\
      _any_type r' = _any_type r
  | Raise e => lookup_class EnumKind (registry_id r) (_enum_symbols r) n = Raise e
  end.
Proof.
  intros [Hc He]. unfold enum_class, lookup_class.
  destruct (dict_get (_enum_cache r) _) as [c|] eqn:E1.
  { destruct (He _ _ E1) as (reference & o & -> & Ho & Hk). cbn. rewrite Ho. cbn. by rewrite Hk. }
  destruct (dict_get (_enum_symbols r) _) as [reference|] eqn:E2; [|done].
  destruct (resolve reference) as [o|e] eqn:E3; cbn; [|done].
  destruct (check_class _ _ _ o) as [c|e] eqn:E4; cbn; [|done].
  split_and!; try done. split; cbn; [done|by eapply cache_ok_set].
Qed.

(** The registries lookups can lead to. *)
Inductive reaches (r : Registry) : Registry -> Prop :=
| reaches_refl : reaches r r
| reaches_message r1 n c r2 : reaches r r1 -> message_class r1 n = Ok (c, r2) -> reaches r r2
| reaches_enum r1 n c r2 : reaches r r1 -> enum_class r1 n = Ok (c, r2) -> reaches r r2.

Lemma registry_init_ok self ss any enums r :
  init self ss any enums = Ok r -> registry_ok r /\ registry_id r = self.
Proof.
  intros (n & _ & H)%result_bind_Ok. apply result_bind_Ok in H as (m & _ & [= <-]).
  split; [|done]. split; intros k c; done.
Qed.

Lemma reaches_ok r0 r :
  reaches r0 r -> registry_ok r0 ->
  registry_ok r /\ registry_id r = registry_id r0 /\ _symbols r = _symbols r0 /\
  _enum_symbols r = _enum_symbols r0 /\ _any_type r = _any_type r0.
Proof.
  induction 1 as [|r1 n c r2 _ IH Hc|r1 n c r2 _ IH Hc]; intros H0; [done|..];
    destruct (IH H0) as (H1 & E1 & E2 & E3 & E4).
  - pose proof (message_class_lookup r1 n H1) as H2. rewrite Hc in H2.
    destruct H2 as (_ & ? & ? & ? & ? & ?). split_and!; congruence.
  - pose proof (enum_class_lookup r1 n H1) as H2. rewrite Hc in H2.
    destruct H2 as (_ & ? & ? & ? & ? & ?). split_and!; congruence.
Qed.

(** The normalized symbols: every given symbol under its canonical name. *)
Lemma normalize_loop_get ss acc out n :
  normalize_loop acc ss = Ok out ->
  dict_get out n = match dict_get acc n with
                   | Some r => Some r
                   | None => dict_get (prod_map lstrip_dots id <$> ss) n
                   end.
Proof.
  revert acc. induction ss as [|[name r] ss IH]; intros acc; cbn [normalize_loop].
  - intros [= <-]. by destruct (dict_get acc n).
  - destruct (_PROTO_NAME _); [|done]. simpl. destruct (dict_has acc _) eqn:Eh; [done|].
    intros H%IH. rewrite H, dict_get_set. unfold dict_has in Eh.
    destruct (decide (n = lstrip_dots name)) as [->|]; [|done].
    by destruct (dict_get acc (lstrip_dots name)).
Qed.

(** Whatever was looked up before, a registry answers every lookup as the
    symbols it was built from do, its caches never showing; the class it
    returns has the name that was asked for and belongs to this registry. *)
Theorem registry_lookup_spec self ss any enums r0 r n :
  init self ss any enums = Ok r0 -> reaches r0 r ->
  fst <$> match message_class r n with Ok x => Some x | Raise _ => None end =
    match lookup_class MessageKind self (prod_map lstrip_dots id <$> ss) n with
    | Ok c => Some c | Raise _ => None end /\
  (forall c r', message_class r n = Ok (c, r') ->
     full_name c = lstrip_dots n /\ owner c = self /\ kind c = MessageKind) /\
  (forall c r', enum_class r n = Ok (c, r') ->
     full_name c = lstrip_dots n /\ owner c = self /\ kind c = EnumKind) /\
  (forall e, message_class r n = Raise e ->
     lookup_class MessageKind self (prod_map lstrip_dots id <$> ss) n = Raise e).
Proof.
  intros Hi Hr. pose proof (registry_init_ok _ _ _ _ _ Hi) as [H0 Eid].
  destruct (reaches_ok r0 r Hr H0) as (Hok & E1 & E2 & E3 & E4).
  assert (Hl : lookup_class MessageKind (registry_id r) (_symbols r) n =
               lookup_class MessageKind self (prod_map lstrip_dots id <$> ss) n).
  { unfold lookup_class. rewrite E1, E2, Eid. unfold init in Hi.
    apply result_bind_Ok in Hi as (norm & Hn & H). apply result_bind_Ok in H as (? & _ & [= <-]).
    cbn. by rewrite (normalize_loop_get _ _ _ _ Hn). }
  pose proof (message_class_lookup r n Hok) as Hm. pose proof (enum_class_lookup r n Hok) as He.
  rewrite Hl in Hm. destruct (message_class r n) as [[c r']|e].
  - destruct Hm as (Hm & _). rewrite Hm. split_and!; [done| | |done].
    + intros c' r'' [= <- <-]. by apply lookup_class_Ok in Hm.
    + intros c' r'' Hc. rewrite Hc in He. destruct He as [He _]. apply lookup_class_Ok in He. by rewrite E1, Eid in He.
  - rewrite Hm. split_and!; [done|done| |by intros ? [= <-]].
    intros c' r'' Hc. rewrite Hc in He. destruct He as [He _]. apply lookup_class_Ok in He. by rewrite E1, Eid in He.
Qed.

(** A message of a registered class that was packed into an [Any] is
    unpacked as it was, with or without naming its class as the expected one;
    naming another class is refused. *)
Theorem any_roundtrip r m prefix a :
  registry_ok r -> pack_any r m prefix = Ok a ->
  lookup_class MessageKind (registry_id r) (_symbols r) (full_name (class_of m)) = Ok (class_of m) ->
  from_string (class_of m) (serialize m) = Some m ->
  exists r', unpack_any r a None = Ok (m, r') /\ unpack_any r a (Some (class_of m)) = Ok (m, r') /\
    registry_ok r' /\ forall e, e <> class_of m -> exists t, unpack_any r a (Some e) = Raise (ValueE t).
Proof.
  intros Hok Hp Hl Hs. unfold pack_any in Hp.
  destruct (Nat.eqb_spec (owner (class_of m)) (registry_id r)) as [Ho|]; [|done]. simpl in Hp.
  case_bool_decide as Hne; [done|]. destruct (_PROTO_NAME _) eqn:En; [|done]. simpl in Hp.
  apply result_bind_Ok in Hp as (c & Hc & [= <-]). unfold unpack_any. rewrite Hc. cbn [mbind result_bind].
  cbn [any_class]. rewrite (bool_decide_eq_true_2 (c = c) eq_refl). cbn [negb type_url value].
  pose proof (type_name_url _ _ Hne En) as Ht. simpl in Ht. rewrite Ht. cbn [mbind result_bind].
  pose proof (message_class_lookup r (full_name (class_of m)) Hok) as Hm. rewrite Hl in Hm.
  destruct (message_class r _) as [[c' r']|e]; [|done]. destruct Hm as ([= <-] & Hok' & _).
  cbn [mbind result_bind]. rewrite Hs. exists r'. split_and!; [done| |done|].
  - rewrite Ho, Nat.eqb_refl, (bool_decide_eq_true_2 (class_of m = class_of m) eq_refl). done.
  - intros e He. destruct (owner e =? registry_id r)%nat; simpl; [|eauto].
    rewrite bool_decide_eq_false_2 by congruence. simpl. eauto.
Qed.

End Registry.

(** ** A small program *)

(** Messages are byte strings of one class, [nebius.common.v1.Note], in the
    registry 7, next to [Any]. *)
Definition note_class : pyclass := mkClass (u "nebius.common.v1.Note") 7 MessageKind.
Definition any_pyclass : pyclass := mkClass (u "google.protobuf.Any") 7 MessageKind.

Definition notes_from_string (c : pyclass) (b : list Z) : option (pyclass * list Z) := Some (c, b).
Lemma notes_from_string_class c b m : notes_from_string c b = Some m -> m.1 = c.
Proof. by intros [= <-]. Qed.

#[local] Instance notes : Program :=
  {| call_factory := fun f => if (f =? 0)%nat then Ok (AClass note_class) else Ok (AClass any_pyclass);
     import_path := fun _ _ => Raise (LookupE "no module");
     msg := pyclass * list Z; class_of := fst; serialize := snd; from_string := notes_from_string;
     from_string_class := notes_from_string_class |}.

Definition note_symbols : list (pystr * MessageReference) :=
  [(u ".nebius.common.v1.Note", mkReference None None (Some 0%nat));
   (u "google.protobuf.Any", mkReference None None (Some 1%nat))].

Definition note_registry : Registry :=
  mkRegistry 7 (prod_map lstrip_dots id <$> note_symbols) [] (Some (mkReference None None (Some 1%nat))) [] [].

Lemma note_registry_init :
  init 7 note_symbols (Some (mkReference None None (Some 1%nat))) [] = Ok note_registry.
Proof. vm_compute. reflexivity. Qed.

Lemma registry_lookup_spec_witness :
  exists r', message_class note_registry (u "..nebius.common.v1.Note") = Ok (note_class, r') /\
  full_name note_class = u "nebius.common.v1.Note" /\ owner note_class = 7%nat.
Proof.
  destruct (registry_lookup_spec 7 note_symbols (Some (mkReference None None (Some 1%nat))) []
    note_registry note_registry (u "..nebius.common.v1.Note") note_registry_init (reaches_refl _))
    as (_ & Hc & _).
  destruct (message_class note_registry (u "..nebius.common.v1.Note")) as [[c r']|] eqn:E;
    [|vm_compute in E; discriminate].
  exists r'. assert (c = note_class) as -> by (vm_compute in E; by injection E as <- _).
  destruct (Hc _ _ eq_refl) as (H1 & H2 & _). done.
Defined.

Definition ex_note : @msg notes := (note_class, [1; 2]).

Lemma any_roundtrip_witness :
  exists r', unpack_any note_registry
    (mkAny any_pyclass (u "type.googleapis.com/nebius.common.v1.Note") [1; 2]) None = Ok (ex_note, r').
Proof.
  destruct (any_roundtrip note_registry ex_note (u "type.googleapis.com//")
    (mkAny any_pyclass (u "type.googleapis.com/nebius.common.v1.Note") [1; 2])) as (r' & H & _).
  - split; intros k c; done.
  - vm_compute. reflexivity.
  - vm_compute. reflexivity.
  - reflexivity.
  - by exists r'.
Defined.
