(* ===== verification/ServiceError.v ===== *)
(** * Service errors and the decision to retry

    [src/nebius/aio/service_error.py]: the regular expressions that find a
    proxy's HTTP status in a gRPC message, the retry hints of service errors,
    the walk over an exception and its causes, the classification of an
    exception, the texts of errors.  [grpc.StatusCode] is an interface; the
    enumeration of the gRPC protocol is an instance of it. *)
From stdpp Require Import sets.
From S2P Require Import Prelude PyStr PyText Methods.

(** ** Regular expressions

    The part of [re] the patterns use: characters of a class, sequences,
    optional and repeated parts.  [matches r s] lists what may be left of [s]
    after [r], the preferred match first. *)
Inductive re : Type :=
| RChar (p : Z -> bool)
| REps
| RSeq (a b : re)
| ROpt (a : re)
| RAlt (a b : re)
| RStar (p : Z -> bool).

Fixpoint star_matches (p : Z -> bool) (s : pystr) : list pystr :=
  match s with
  | [] => [[]]
  | c :: s' => if p c then star_matches p s' ++ [s] else [s]
  end.

Fixpoint matches (r : re) (s : pystr) : list pystr :=
  match r with
  | RChar p => match s with c :: s' => if p c then [s'] else [] | [] => [] end
  | REps => [s]
  | RSeq a b => s' ← matches a s; matches b s'
  | ROpt a => matches a s ++ [s]
  | RAlt a b => matches a s ++ matches b s
  | RStar p => star_matches p s
  end.

(** The texts a pattern describes. *)
Inductive lang : re -> pystr -> Prop :=
| lang_char p c : p c = true -> lang (RChar p) [c]
| lang_eps : lang REps []
| lang_seq a b s t : lang a s -> lang b t -> lang (RSeq a b) (s ++ t)
| lang_opt_none a : lang (ROpt a) []
| lang_opt_some a s : lang a s -> lang (ROpt a) s
| lang_alt_l a b s : lang a s -> lang (RAlt a b) s
| lang_alt_r a b s : lang b s -> lang (RAlt a b) s
| lang_star p s : forallb p s = true -> lang (RStar p) s.

Lemma star_matches_spec p s r :
  r ∈ star_matches p s <-> exists w, s = w ++ r /\ forallb p w = true.
Proof.
  split.
  - induction s as [|c s IH]; simpl.
    + intros ->%list_elem_of_singleton. by exists [].
    + destruct (p c) eqn:E.
      * intros [(w & -> & Hw)%IH| ->%list_elem_of_singleton]%elem_of_app; [|by exists []].
        exists (c :: w). simpl. by rewrite E.
      * intros ->%list_elem_of_singleton. by exists [].
  - intros (w & -> & Hw). induction w as [|c w IH]; simpl in *.
    + destruct r as [|c r]; simpl; [by left|]. destruct (p c); [apply elem_of_app; right|]; by left.
    + apply andb_prop in Hw as [-> Hw]. apply elem_of_app. left. auto.
Qed.

(** A match is a text of the pattern in front of what is left. *)
Lemma matches_lang r s t : t ∈ matches r s <-> exists w, s = w ++ t /\ lang r w.
Proof.
  split.
  - revert s t. induction r as [p| |a IHa b IHb|a IHa|a IHa b IHb|p]; intros s t; simpl.
    + destruct s as [|c s]; [by intros ?%not_elem_of_nil|]. destruct (p c) eqn:E; [|by intros ?%not_elem_of_nil].
      intros ->%list_elem_of_singleton. exists [c]. split; [done|by constructor].
    + intros ->%list_elem_of_singleton. exists []. split; [done|constructor].
    + intros (s' & Ht & Hs')%list_elem_of_bind. apply IHa in Hs' as (w1 & -> & H1).
      apply IHb in Ht as (w2 & -> & H2). exists (w1 ++ w2). rewrite app_assoc. split; [done|by constructor].
    + intros [(w & -> & H)%IHa| ->%list_elem_of_singleton]%elem_of_app.
      * exists w. split; [done|by apply lang_opt_some].
      * exists []. split; [done|apply lang_opt_none].
    + intros [(w & -> & H)%IHa|(w & -> & H)%IHb]%elem_of_app; exists w; (split; [done|]);
        [by apply lang_alt_l | by apply lang_alt_r].
    + intros (w & -> & Hw)%star_matches_spec. exists w. split; [done|by constructor].
  - intros (w & -> & Hw). revert t. induction Hw as [p c Hc| |a b s1 s2 _ IH1 _ IH2|a|a s _ IH|a b s _ IH|a b s _ IH|p s Hs];
      intros t; simpl.
    + rewrite Hc. by left.
    + by left.
    + apply list_elem_of_bind. rewrite <- app_assoc. eauto.
    + apply elem_of_app. right. by left.
    + apply elem_of_app. by left.
    + apply elem_of_app. by left.
    + apply elem_of_app. by right.
    + apply star_matches_spec. eauto.
Qed.

(** The decimal digits of Unicode, with their values; only the ASCII digits are
    fixed. *)
Class UnicodeDigits := {
  digit_value : Z -> option Z;
  digit_ascii : forall c, ascii_digit c = true -> digit_value c = Some (c - 48);
  digit_range : forall c v, digit_value c = Some v -> 0 <= v <= 9
}.

Definition ascii_digit_value (c : Z) : option Z := if ascii_digit c then Some (c - 48) else None.
Lemma ascii_digit_value_range c v : ascii_digit_value c = Some v -> 0 <= v <= 9.
Proof. unfold ascii_digit_value, ascii_digit. intros. case_match; simplify_eq; lia. Qed.
Lemma ascii_digit_value_ascii c : ascii_digit c = true -> ascii_digit_value c = Some (c - 48).
Proof. unfold ascii_digit_value. by intros ->. Qed.
Definition ascii_digits : UnicodeDigits :=
  {| digit_value := ascii_digit_value; digit_ascii := ascii_digit_value_ascii;
     digit_range := ascii_digit_value_range |}.

(** A letter under [re.IGNORECASE]: besides the other case, U+017F stands for
    [s] and U+0130 and U+0131 for [i]. *)
Definition ignorecase (l c : Z) : bool :=
  (lower_char c =? l) || ((l =? 115) && (c =? 383)) || ((l =? 105) && ((c =? 304) || (c =? 305))).

Definition word (s : string) : re := foldr (fun l r => RSeq (RChar (ignorecase l)) r) REps (u s).
Definition spaces : re := RSeq (RChar is_space) (RStar is_space).
Definition spaces0 : re := RStar is_space.
Definition seqs (rs : list re) : re := foldr RSeq REps rs.
Definition colon_or_eq : re := ROpt (RChar (fun c => (c =? 58) || (c =? 61))).

(** The patterns up to the code; each starts at a word boundary and goes on with
    three digits. *)
Definition _HTTP_STATUS_PATTERNS : list re :=
  [seqs [word "unexpected"; spaces; word "http"; spaces; word "status"; ROpt (RSeq spaces (word "code"));
         ROpt (seqs [spaces; word "received"; spaces; word "from"; spaces; word "server"]);
         spaces0; colon_or_eq; spaces0];
   seqs [word "received"; spaces; word "http"; ROpt (word "2"); spaces; word "header"; spaces;
         word "with"; spaces; word "status"; spaces0; colon_or_eq; spaces0];
   seqs [word "http"; ROpt (RAlt (word "/2") (word "2")); spaces; word "status";
         ROpt (RSeq spaces (word "code")); spaces0; colon_or_eq; spaces0]].

Section Patterns.
Context {WC : WordChars} {UD : UnicodeDigits}.

(** [(?P<code>\d{3})]: the integer and the text after it. *)
Definition code_group (s : pystr) : option (Z * pystr) :=
  match s with
  | a :: b :: c :: rest =>
      x ← digit_value a; y ← digit_value b; z ← digit_value c; Some (100 * x + 10 * y + z, rest)
  | _ => None
  end.

Fixpoint first_some {A B} (f : A -> option B) (l : list A) : option B :=
  match l with [] => None | a :: l => match f a with Some b => Some b | None => first_some f l end end.

(** A match of pattern and code at this place. *)
Definition match_status (r : re) (s : pystr) : option (Z * pystr) := first_some code_group (matches r s).

(** [\b] between the previous character and the text *)
Definition at_boundary (prev : option Z) (s : pystr) : bool :=
  xorb (match prev with Some c => is_word c | None => false end)
       (match s with c :: _ => is_word c | [] => false end).

(** The codes of [pattern.finditer(message)]: after a match the search goes on
    behind it, [skip] characters further. *)
Fixpoint find_codes (r : re) (skip : nat) (prev : option Z) (s : pystr) : list Z :=
  match s with
  | [] => []
  | c :: s' =>
      match skip with
      | S skip => find_codes r skip (Some c) s'
      | O =>
          match (if at_boundary prev s then match_status r s else None) with
          | Some (code, rest) => code :: find_codes r (length s' - length rest) (Some c) s'
          | None => find_codes r 0 (Some c) s'
          end
      end
  end.

Definition _has_unexpected_http_52x_status (message : option pystr) : bool :=
  match message with
  | None | Some [] => false
  | Some message =>
      existsb (fun r => existsb (fun code => (520 <=? code) && (code <? 530)) (find_codes r 0 None message))
        _HTTP_STATUS_PATTERNS
  end.

(** A message that reports an HTTP status: a phrase of a pattern at a word
    boundary, then the three digits of the code. *)
Definition reports (message : pystr) (code : Z) : Prop :=
  exists r a w b rest, r ∈ _HTTP_STATUS_PATTERNS /\ message = a ++ w ++ b ++ rest /\ lang r w /\
    code_group b = Some (code, []) /\ at_boundary (last a) (w ++ b ++ rest) = true.

Lemma code_group_inv s code rest :
  code_group s = Some (code, rest) -> exists b, s = b ++ rest /\ code_group b = Some (code, []).
Proof.
  unfold code_group. destruct s as [|x [|y [|z s]]]; try done. intros Hc.
  exists [x; y; z]. simpl. destruct (digit_value x); [|done]. destruct (digit_value y); [|done].
  destruct (digit_value z); [|done]. simpl in *. by simplify_eq.
Qed.

Lemma first_some_inv {A B} (f : A -> option B) l b : first_some f l = Some b -> exists a, a ∈ l /\ f a = Some b.
Proof.
  induction l as [|a l IH]; simpl; [done|]. destruct (f a) eqn:E.
  - intros [= <-]. exists a. split; [left|done].
  - intros (a' & ? & ?)%IH. exists a'. split; [by right|done].
Qed.

Lemma find_codes_reports r (prev : pystr) skip s code :
  r ∈ _HTTP_STATUS_PATTERNS -> code ∈ find_codes r skip (last prev) s -> reports (prev ++ s) code.
Proof.
  intros Hr. revert skip prev. induction s as [|c s IH]; intros skip prev Hin; [by apply not_elem_of_nil in Hin|].
  assert (Hnext : forall k, code ∈ find_codes r k (Some c) s -> reports (prev ++ c :: s) code).
  { intros k Hk. rewrite cons_middle, app_assoc. apply (IH k). by rewrite last_snoc. }
  destruct skip as [|skip]; [|by apply (Hnext skip)]. cbn [find_codes] in Hin.
  destruct (at_boundary (last prev) (c :: s)) eqn:Eb; [|by eapply Hnext].
  destruct (match_status r (c :: s)) as [[code' rest]|] eqn:Em; [|by eapply Hnext].
  apply elem_of_cons in Hin as [->|Hin]; [|by eapply Hnext].
  apply first_some_inv in Em as (t & (w & Hs & Hl)%matches_lang & (b & -> & Hc)%code_group_inv).
  exists r, prev, w, b, rest. rewrite <- Hs. auto.
Qed.

(** A message taken for a proxy error reports a status from 520 to 529. *)
Lemma has_52x_reports message :
  _has_unexpected_http_52x_status message = true ->
  exists m code, message = Some m /\ reports m code /\ 520 <= code < 530.
Proof.
  destruct message as [[|c m]|]; try done. intros (r & Hr & Hc)%existsb_exists.
  apply existsb_exists in Hc as (code & Hc & Hv). apply list_elem_of_In in Hr, Hc.
  exists (c :: m), code. split; [done|]. split; [|lia]. by apply (find_codes_reports r [] 0).
Qed.
End Patterns.

(** ** Status codes *)

(** What the SDK uses of [grpc.StatusCode]: an enumeration whose members have a
    number, [value[0]], and a name. *)
Class StatusCodes := {
  StatusCode : Type;
  StatusCode_eq_dec :: EqDecision StatusCode;
  status_members : list StatusCode;
  status_number : StatusCode -> Z;
  status_name : StatusCode -> pystr;
  OK : StatusCode; CANCELLED : StatusCode; UNKNOWN : StatusCode; DEADLINE_EXCEEDED : StatusCode;
  RESOURCE_EXHAUSTED : StatusCode; UNAVAILABLE : StatusCode; UNAUTHENTICATED : StatusCode;
  status_members_all : forall c, c ∈ status_members;
  status_number_inj : forall c d, status_number c = status_number d -> c = d;
  status_name_UNKNOWN : forall c, status_name c = u "UNKNOWN" <-> c = UNKNOWN
}.

(** The codes of the gRPC protocol, by their numbers. *)
Inductive grpc_code : Type :=
| gOK | gCANCELLED | gUNKNOWN | gINVALID_ARGUMENT | gDEADLINE_EXCEEDED | gNOT_FOUND | gALREADY_EXISTS
| gPERMISSION_DENIED | gRESOURCE_EXHAUSTED | gFAILED_PRECONDITION | gABORTED | gOUT_OF_RANGE
| gUNIMPLEMENTED | gINTERNAL | gUNAVAILABLE | gDATA_LOSS | gUNAUTHENTICATED.

#[export] Instance grpc_code_eq_dec : EqDecision grpc_code.
Proof. solve_decision. Defined.

Definition grpc_members : list grpc_code :=
  [gOK; gCANCELLED; gUNKNOWN; gINVALID_ARGUMENT; gDEADLINE_EXCEEDED; gNOT_FOUND; gALREADY_EXISTS;
   gPERMISSION_DENIED; gRESOURCE_EXHAUSTED; gFAILED_PRECONDITION; gABORTED; gOUT_OF_RANGE;
   gUNIMPLEMENTED; gINTERNAL; gUNAVAILABLE; gDATA_LOSS; gUNAUTHENTICATED].

Definition grpc_number (c : grpc_code) : Z :=
  match c with
  | gOK => 0 | gCANCELLED => 1 | gUNKNOWN => 2 | gINVALID_ARGUMENT => 3 | gDEADLINE_EXCEEDED => 4
  | gNOT_FOUND => 5 | gALREADY_EXISTS => 6 | gPERMISSION_DENIED => 7 | gRESOURCE_EXHAUSTED => 8
  | gFAILED_PRECONDITION => 9 | gABORTED => 10 | gOUT_OF_RANGE => 11 | gUNIMPLEMENTED => 12
  | gINTERNAL => 13 | gUNAVAILABLE => 14 | gDATA_LOSS => 15 | gUNAUTHENTICATED => 16
  end.

Definition grpc_name (c : grpc_code) : pystr :=
  match c with
  | gOK => u "OK" | gCANCELLED => u "CANCELLED" | gUNKNOWN => u "UNKNOWN"
  | gINVALID_ARGUMENT => u "INVALID_ARGUMENT" | gDEADLINE_EXCEEDED => u "DEADLINE_EXCEEDED"
  | gNOT_FOUND => u "NOT_FOUND" | gALREADY_EXISTS => u "ALREADY_EXISTS"
  | gPERMISSION_DENIED => u "PERMISSION_DENIED" | gRESOURCE_EXHAUSTED => u "RESOURCE_EXHAUSTED"
  | gFAILED_PRECONDITION => u "FAILED_PRECONDITION" | gABORTED => u "ABORTED"
  | gOUT_OF_RANGE => u "OUT_OF_RANGE" | gUNIMPLEMENTED => u "UNIMPLEMENTED" | gINTERNAL => u "INTERNAL"
  | gUNAVAILABLE => u "UNAVAILABLE" | gDATA_LOSS => u "DATA_LOSS" | gUNAUTHENTICATED => u "UNAUTHENTICATED"
  end.

Lemma grpc_members_all c : c ∈ grpc_members.
Proof. destruct c; apply (bool_decide_unpack _); vm_compute; exact I. Qed.
Lemma grpc_number_inj c d : grpc_number c = grpc_number d -> c = d.
Proof. destruct c, d; simpl; done. Qed.
Lemma grpc_name_UNKNOWN c : grpc_name c = u "UNKNOWN" <-> c = gUNKNOWN.
Proof. destruct c; split; done. Qed.

Definition grpc_codes : StatusCodes :=
  {| StatusCode := grpc_code; status_members := grpc_members; status_number := grpc_number;
     status_name := grpc_name; OK := gOK; CANCELLED := gCANCELLED; UNKNOWN := gUNKNOWN;
     DEADLINE_EXCEEDED := gDEADLINE_EXCEEDED; RESOURCE_EXHAUSTED := gRESOURCE_EXHAUSTED;
     UNAVAILABLE := gUNAVAILABLE; UNAUTHENTICATED := gUNAUTHENTICATED;
     status_members_all := grpc_members_all; status_number_inj := grpc_number_inj;
     status_name_UNKNOWN := grpc_name_UNKNOWN |}.

(** ** Service errors *)

(** The details of a [ServiceError], one constructor per member of its oneof;
    [other_detail] is a member this version does not know, with its [repr]. *)
Inductive error_details : Type :=
| bad_request (violations : list (pystr * pystr))
| bad_resource_state (resource_id message : pystr)
| resource_not_found (resource_id : pystr)
| resource_already_exists (resource_id : pystr)
| out_of_range (requested limit : pystr)
| permission_denied (resource_id : pystr)
| resource_conflict (resource_id message : pystr)
| operation_aborted (operation_id aborted_by_operation_id resource_id : pystr)
| operation_conflict (conflicting_operation_id resource_id : pystr)
| too_many_requests (violation : pystr)
| quota_failure (violations : list (pystr * pystr * pystr * pystr))
| not_enough_resources (violations : list (pystr * pystr * pystr))
| internal_error (request_id trace_id : pystr)
| other_detail (field text : pystr).

(** [retry_type] is [None] for a message without the field, and the name of the
    enum member, if it has one, otherwise. *)
Record ServiceError : Type := mkServiceError {
  service : pystr;
  code : pystr;
  details : option error_details;
  retry_type : option (option pystr)
}.

Definition details_text (d : error_details) : pystr :=
  match d with
  | bad_request vs => u " bad request, violations:" ++
      concat ((fun '(field, message) => u " " ++ field ++ u " - " ++ message ++ u ";") <$> vs)
  | bad_resource_state id message => u " bad resource " ++ id ++ u " state: " ++ message
  | resource_not_found id => u " resource " ++ id ++ u " not found"
  | resource_already_exists id => u " resource " ++ id ++ u " already exists"
  | out_of_range requested limit => u " out of range " ++ limit ++ u ", requested " ++ requested
  | permission_denied id => u " permission denied for resource " ++ id
  | resource_conflict id message => u " resource conflict for " ++ id ++ u ": " ++ message
  | operation_aborted op by_op id =>
      u " operation " ++ op ++ u " over resource " ++ id ++ u " aborted by newer operation " ++ by_op
  | operation_conflict op id =>
      u " operation conflict: resource: " ++ id ++ u ", conflicting operation ID: " ++ op
  | too_many_requests v => u " too many requests: " ++ v
  | quota_failure vs => u " quota failure, violations: " ++
      concat ((fun '(quota, requested, limit, message) =>
        u " " ++ quota ++ u " " ++ requested ++ u " of " ++ limit ++ u ": " ++ message ++ u ";") <$> vs)
  | not_enough_resources vs => u " not enough resources: " ++
      concat ((fun '(resource_type, requested, message) =>
        u " " ++ resource_type ++ u " requested " ++ requested ++ u ": " ++ message ++ u ";") <$> vs)
  | internal_error request_id trace_id =>
      u " internal service error: request ID: " ++ request_id ++ u " trace ID: " ++ trace_id
  | other_detail field text => u " " ++ field ++ u ": " ++ text
  end.

Definition to_str (err : ServiceError) : pystr :=
  u "Error " ++ code err ++ u " in service " ++ service err ++
  match details err with Some d => details_text d | None => [] end.

(** An [Any] of the status details: type URL and payload. *)
Abbreviation any_detail := (pystr * list Z)%type.

Section Errors.
Context {WC : WordChars} {UD : UnicodeDigits} {SC : StatusCodes}.

(** An argument that is a code or a number. *)
Inductive code_argument : Type := CodeMember (c : StatusCode) | CodeNumber (i : Z).

Definition code_map : list (Z * StatusCode) :=
  foldl (fun d c => dict_set d (status_number c) c) [] status_members.

Definition int_to_status_code (i : code_argument) : StatusCode :=
  match i with
  | CodeMember c => c
  | CodeNumber n => match dict_get code_map n with Some c => c | None => UNKNOWN end
  end.

(** The loop of [request_status._status_code]. *)
Fixpoint find_member (n : Z) (ms : list StatusCode) : StatusCode :=
  match ms with [] => UNKNOWN | c :: ms => if status_number c =? n then c else find_member n ms end.

Definition _status_code (value : code_argument) : StatusCode :=
  match value with CodeMember c => c | CodeNumber n => find_member n status_members end.

Definition DefaultRetriableCodes : list StatusCode := [RESOURCE_EXHAUSTED; UNAVAILABLE].

(** What a [code()] method or attribute may hold: a member, a number, a tuple
    with a number first, an object with a name, anything else. *)
Inductive code_value : Type :=
| KMember (c : StatusCode)
| KNumber (n : Z)
| KTuple (first : option Z)
| KNamed (name : pystr)
| KOther.

Definition _is_unknown_code (code : code_value) : bool :=
  match code with
  | KMember c => bool_decide (c = UNKNOWN) || bool_decide (status_name c = u "UNKNOWN")
  | KNumber n => n =? status_number UNKNOWN
  | KTuple (Some n) => n =? status_number UNKNOWN
  | KTuple None => false
  | KNamed name => bool_decide (name = u "UNKNOWN")
  | KOther => false
  end.

(** ** The status of a request *)

Record RequestStatusExtended : Type := mkStatus {
  rs_code : StatusCode;
  rs_message : option pystr;
  rs_details : list any_detail;
  service_errors : list ServiceError;
  rs_request_id : pystr;
  rs_trace_id : pystr
}.

Fixpoint numbered (inc : Z) (errs : list ServiceError) : pystr :=
  match errs with
  | [] => []
  | err :: errs => u " " ++ str_of_int inc ++ u ". " ++ to_str err ++ numbered (inc + 1) errs
  end.

Definition status_str (self : RequestStatusExtended) : pystr :=
  status_name (rs_code self) ++
  match rs_message self with Some m => u ": " ++ m | None => [] end ++
  (if bool_decide (rs_request_id self = []) then [] else u "; request_id: " ++ rs_request_id self) ++
  (if bool_decide (rs_trace_id self = []) then [] else u "; trace_id: " ++ rs_trace_id self) ++
  match service_errors self with
  | [] => []
  | errs => u "; Caused by error" ++ (if (1 <? length errs)%nat then u "s" else []) ++ u ":" ++ numbered 1 errs
  end ++
  match rs_details self with [] => [] | _ => u " (additional details not shown)" end.

(** The decision of one service error. *)
Definition error_hint (e : ServiceError) : option bool :=
  match retry_type e with
  | Some (Some name) =>
      if bool_decide (name = u "CALL") then Some true else
      if bool_decide (name ∈ [u "NOTHING"; u "UNIT_OF_WORK"]) then Some false else None
  | _ => None
  end.

Fixpoint hint_loop (errs : list ServiceError) : option bool :=
  match errs with
  | [] => None
  | e :: errs => match error_hint e with Some b => Some b | None => hint_loop errs end
  end.

Definition retry_hint (self : RequestStatusExtended) : option bool := hint_loop (service_errors self).

Definition is_retriable (self : RequestStatusExtended) (deadline_retriable : bool) : bool :=
  match retry_hint self with
  | Some hint => hint
  | None =>
      if bool_decide (rs_code self ∈ DefaultRetriableCodes) then true else
      if deadline_retriable && bool_decide (rs_code self = DEADLINE_EXCEEDED) then true else
      if _is_unknown_code (KMember (rs_code self)) && _has_unexpected_http_52x_status (rs_message self)
      then true else false
  end.

(** ** Exceptions *)

(** The result of [_call_error_method]: an attribute that is missing or [None],
    a plain value, or a method with its result, [None] when it raises.  A value
    has the text [str] gives for it. *)
Inductive attribute (A : Type) : Type :=
| NoAttribute
| Value (a : A)
| Method (r : option A).
#[local] Arguments NoAttribute {A}.
#[local] Arguments Value {A} a.
#[local] Arguments Method {A} r.

Definition _call_error_method {A} (a : attribute A) : option A :=
  match a with NoAttribute => None | Value v => Some v | Method r => r end.

(** An exception object: its classes, the status of a [RequestError], the
    attributes a gRPC error has, [str(err)] and its links. *)
Record exception : Type := mkException {
  is_Exception : bool;
  is_OSError : bool;
  request_error : option RequestStatusExtended;
  code_attribute : attribute code_value;
  details_attribute : attribute pystr;
  debug_attribute : attribute pystr;
  text : pystr;
  cause : option nat;
  context : option nat;
  suppress_context : bool
}.

Definition _grpc_error_has_unknown_http_52x_status (err : exception) : bool :=
  if negb (match _call_error_method (code_attribute err) with Some c => _is_unknown_code c | None => false end)
  then false else
  existsb _has_unexpected_http_52x_status
    [_call_error_method (details_attribute err); _call_error_method (debug_attribute err); Some (text err)].

Definition is_network_error (err : exception) : bool := is_OSError err && str_in (u "timed out") (text err).
Definition is_transport_error (err : exception) : bool :=
  is_OSError err && (str_in (u "connection refused") (text err) || str_in (u "connection reset") (text err)).
Definition is_dns_error (err : exception) : bool := str_in (u "name resolution") (text err).

(** The exceptions of a program state, by their [id]. *)
Abbreviation objects := (list exception).

Definition next_error (h : objects) (cur : nat) : option nat :=
  err ← h !! cur;
  match cause err with
  | Some c => Some c
  | None => match context err with Some c => if suppress_context err then None else Some c | None => None end
  end.

(** The generator [_iter_error_chain], as the list of what it yields; each
    round adds an object to [seen]. *)
Fixpoint chain_loop (fuel : nat) (h : objects) (seen : list nat) (cur : option nat) : list nat :=
  match cur with
  | None => []
  | Some i =>
      if bool_decide (i ∈ seen) then [] else
      match fuel with
      | O => []
      | S fuel => i :: chain_loop fuel h (i :: seen) (next_error h i)
      end
  end.

Definition _iter_error_chain (h : objects) (err : nat) : list nat :=
  chain_loop (length h) h [] (Some err).

(** What one exception of the chain decides. *)
Definition decision (deadline_retriable : bool) (err : exception) : option bool :=
  match request_error err with
  | Some status => Some (is_retriable status deadline_retriable)
  | None =>
      if _grpc_error_has_unknown_http_52x_status err then Some true else
      if is_Exception err && (is_network_error err || is_transport_error err || is_dns_error err)
      then Some true else None
  end.

Fixpoint decide_loop (deadline_retriable : bool) (h : objects) (chain : list nat) : bool :=
  match chain with
  | [] => false
  | i :: chain =>
      match h !! i ≫= decision deadline_retriable with
      | Some b => b
      | None => decide_loop deadline_retriable h chain
      end
  end.

Definition is_retriable_error (h : objects) (err : nat) (deadline_retriable : bool) : bool :=
  decide_loop deadline_retriable h (_iter_error_chain h err).

(** ** Status codes *)

Lemma code_map_get n :
  dict_get code_map n = list_find (fun c => status_number c = n) status_members ≫= (fun '(_, c) => Some c).
Proof.
  unfold code_map.
  assert (H : forall ms d, dict_get (foldl (fun d c => dict_set d (status_number c) c) d ms) n =
    match list_find (fun c => status_number c = n) ms with Some (_, c) => Some c | None => dict_get d n end).
  { induction ms as [|c ms IH]; intros d; simpl; [done|]. rewrite IH, dict_get_set.
    destruct (decide (status_number c = n)) as [<-|Hc].
    - destruct (list_find _ ms) as [[i c']|] eqn:E; simpl; [|by rewrite decide_True].
      apply list_find_Some in E as (_ & Hc' & _). f_equal. by apply status_number_inj.
    - rewrite (decide_False (P := n = _)) by congruence. by destruct (list_find _ ms) as [[]|]. }
  rewrite H. by destruct (list_find _ _) as [[]|].
Qed.

Lemma find_member_list n ms :
  find_member n ms = match list_find (fun c => status_number c = n) ms with Some (_, c) => c | None => UNKNOWN end.
Proof.
  induction ms as [|c ms IH]; simpl; [done|]. destruct (Z.eqb_spec (status_number c) n).
  - by rewrite decide_True.
  - rewrite decide_False by done. rewrite IH. by destruct (list_find _ ms) as [[]|].
Qed.

Lemma status_code_number n c : status_number c = n -> _status_code (CodeNumber n) = c.
Proof.
  intros <-. simpl. rewrite find_member_list.
  destruct (list_find_elem_of (fun d => status_number d = status_number c) status_members c)
    as [[i d] E]; [apply status_members_all|done|].
  rewrite E. apply list_find_Some in E as (_ & Hd & _). by apply status_number_inj.
Qed.

(** ** The chain of an exception *)

(** Every link leads to an exception object. *)
Definition closed (h : objects) : Prop := forall i j, next_error h i = Some j -> (j < length h)%nat.

(** The exception [k] links away. *)
Fixpoint walk (h : objects) (cur : option nat) (k : nat) : option nat :=
  match k with O => cur | S k => i ← cur; walk h (next_error h i) k end.

Lemma chain_loop_spec h : closed h -> forall fuel seen cur,
  NoDup seen -> (forall i, i ∈ seen -> (i < length h)%nat) -> (forall i, cur = Some i -> (i < length h)%nat) ->
  (length h <= length seen + fuel)%nat ->
  let l := chain_loop fuel h seen cur in
  NoDup l /\ (forall i, i ∈ l -> i ∉ seen) /\
  (forall i, cur = Some i -> i ∈ seen \/ i ∈ l) /\
  (forall i j, i ∈ l -> next_error h i = Some j -> j ∈ seen \/ j ∈ l) /\
  (forall k i, l !! k = Some i -> walk h cur k = Some i).
Proof.
  intros Hclosed. induction fuel as [|fuel IH]; intros seen cur Hnd Hlt Hcur Hlen l.
  - destruct cur as [i|]; subst l; simpl.
    + assert (Hin : i ∈ seen).
      { destruct (decide (i ∈ seen)) as [|Hn]; [done|]. exfalso.
        assert (Hsub : i :: seen ⊆+ seq 0 (length h)).
        { apply NoDup_submseteq; [by constructor|]. intros x [->|Hx]%elem_of_cons; apply elem_of_seq; [specialize (Hcur i eq_refl)|specialize (Hlt x Hx)]; lia. }
        apply submseteq_length in Hsub. rewrite length_seq in Hsub. simpl in Hsub. lia. }
      rewrite bool_decide_eq_true_2 by done. split_and!; try constructor; try done; set_solver.
    + split_and!; try constructor; try done; set_solver.
  - destruct cur as [i|]; [|subst l; simpl; split_and!; try constructor; try done; set_solver].
    subst l. cbn [chain_loop]. case_bool_decide as Hin.
    { split_and!; try constructor; try done; set_solver. }
    destruct (IH (i :: seen) (next_error h i)) as (H1 & H2 & H3 & H4 & H5).
    { by constructor. }
    { intros x [->|Hx]%elem_of_cons; auto. }
    { intros j Hj. by apply (Hclosed i). }
    { simpl. lia. }
    split_and!.
    + constructor; [|done]. intros Hi. apply (H2 i Hi). left.
    + intros x [->|Hx]%elem_of_cons; [done|]. specialize (H2 x Hx). set_solver.
    + intros x [= <-]. right. left.
    + intros x j [->|Hx]%elem_of_cons Hj; [destruct (H3 j Hj)|destruct (H4 x j Hx Hj)]; set_solver.
    + intros [|k] x; simpl; [done|]. apply H5.
Qed.

Lemma walk_snoc h cur k : walk h cur (S k) = (walk h cur k ≫= next_error h).
Proof.
  revert cur. induction k as [|k IH]; intros cur; [by destruct cur|].
  destruct cur as [i|]; [|done]. change (walk h (Some i) (S (S k))) with (walk h (next_error h i) (S k)).
  by rewrite IH.
Qed.

(** The walk ends, meets no object twice and misses none. *)
Lemma chain_spec h err : closed h -> (err < length h)%nat ->
  NoDup (_iter_error_chain h err) /\
  (forall k i, _iter_error_chain h err !! k = Some i -> walk h (Some err) k = Some i) /\
  (forall k i, walk h (Some err) k = Some i -> i ∈ _iter_error_chain h err).
Proof.
  intros Hclosed Herr.
  destruct (chain_loop_spec h Hclosed (length h) [] (Some err)) as (H1 & _ & H3 & H4 & H5);
    [constructor|set_solver|by intros ? [= <-]|simpl; lia|].
  split_and!; [done|done|]. unfold _iter_error_chain. induction k as [|k IH]; intros i Hi.
  - destruct (H3 i Hi) as [?%not_elem_of_nil|]; done.
  - rewrite walk_snoc in Hi. destruct (walk h (Some err) k) as [j|]; [|done]. simpl in Hi.
    destruct (H4 j i (IH j eq_refl) Hi) as [?%not_elem_of_nil|]; done.
Qed.

Lemma decide_loop_spec dl h chain :
  decide_loop dl h chain = true <->
  exists k i, chain !! k = Some i /\ h !! i ≫= decision dl = Some true /\
    forall k' i', (k' < k)%nat -> chain !! k' = Some i' -> h !! i' ≫= decision dl = None.
Proof.
  induction chain as [|i chain IH]; simpl.
  { split; [done|]. intros (k & i & H & _). by rewrite lookup_nil in H. }
  destruct (h !! i ≫= decision dl) as [b|] eqn:E.
  - split.
    + intros ->. exists 0%nat, i. split_and!; [done..|]. intros; lia.
    + intros ([|k] & j & Hj & Hd & Hpre); simpl in *; [congruence|].
      specialize (Hpre 0%nat i ltac:(lia) eq_refl). congruence.
  - rewrite IH. split.
    + intros (k & j & Hj & Hd & Hpre). exists (S k), j. split_and!; [done..|].
      intros [|k'] i' Hk Hi'; simpl in *; [congruence|]. apply (Hpre k'); [lia|done].
    + intros ([|k] & j & Hj & Hd & Hpre); simpl in *; [congruence|].
      exists k, j. split_and!; [done..|]. intros k' i' Hk Hi'. apply (Hpre (S k')); [lia|done].
Qed.

(** C22: The walk over an exception and its causes ends on every closed set of
    objects, cyclic links included; it meets every linked exception once, and
    the error is retriable exactly when the first exception that decides,
    a [RequestError] by its status or a recognised transport failure, says so. *)
Theorem retriable_error_spec h err dl : closed h -> (err < length h)%nat ->
  NoDup (_iter_error_chain h err) /\
  (forall k i, walk h (Some err) k = Some i -> i ∈ _iter_error_chain h err) /\
  (is_retriable_error h err dl = true <->
   exists k i, walk h (Some err) k = Some i /\ h !! i ≫= decision dl = Some true /\
     forall k' i', (k' < k)%nat -> walk h (Some err) k' = Some i' -> h !! i' ≫= decision dl = None).
Proof.
  intros Hc He. destruct (chain_spec h err Hc He) as (H1 & H2 & H3). split_and!; [done..|].
  unfold is_retriable_error. rewrite decide_loop_spec.
  assert (Hfirst : forall k i, _iter_error_chain h err !! k = Some i -> forall k' i', (k' < k)%nat ->
     walk h (Some err) k' = Some i' -> _iter_error_chain h err !! k' = Some i').
  { intros k i Hk k' i' Hlt Hw.
    destruct (_iter_error_chain h err !! k') as [i2|] eqn:E.
    - apply H2 in E. congruence.
    - apply lookup_ge_None in E. apply lookup_lt_Some in Hk. lia. }
  split.
  - intros (k & i & Hk & Hd & Hpre). exists k, i. split_and!; [by apply H2|done|].
    intros k' i' Hlt Hw. apply (Hpre k'); [done|]. by eapply Hfirst.
  - intros (k & i & Hk & Hd & Hpre). destruct (list_elem_of_lookup_1 _ _ (H3 k i Hk)) as [k0 Hk0].
    exists k0, i. split_and!; [done..|]. intros k' i' Hlt Hi'.
    destruct (decide (k' < k)%nat) as [Hlt'|Hge]; [apply (Hpre k'); [done|by apply H2]|].
    pose proof (Hfirst k0 i Hk0 k i ltac:(lia) Hk) as Hk2.
    pose proof (NoDup_lookup _ _ _ _ H1 Hk2 Hk0). lia.
Qed.

(** ** Retry hints *)

Lemma hint_loop_spec errs b :
  hint_loop errs = Some b <->
  exists pre e post, errs = pre ++ e :: post /\ error_hint e = Some b /\ Forall (fun e => error_hint e = None) pre.
Proof.
  induction errs as [|e errs IH]; simpl.
  { split; [done|]. intros (pre & e & post & H & _). by destruct pre. }
  destruct (error_hint e) as [b'|] eqn:E.
  - split.
    + intros [= <-]. exists [], e, errs. auto.
    + intros ([|e' pre] & e0 & post & [= <- ->] & H1 & H2); [congruence|].
      apply Forall_cons in H2 as [H2 _]. congruence.
  - rewrite IH. split.
    + intros (pre & e0 & post & -> & H1 & H2). exists (e :: pre), e0, post. auto.
    + intros ([|e' pre] & e0 & post & [= <- ->] & H1 & H2); [congruence|].
      apply Forall_cons in H2 as [_ H2]. by exists pre, e0, post.
Qed.

Lemma hint_loop_None errs : hint_loop errs = None <-> Forall (fun e => error_hint e = None) errs.
Proof.
  induction errs as [|e errs IH]; simpl; [split; auto|]. rewrite Forall_cons, <- IH.
  destruct (error_hint e); naive_solver.
Qed.

Lemma is_unknown_member c : _is_unknown_code (KMember c) = bool_decide (c = UNKNOWN).
Proof.
  simpl. rewrite (bool_decide_ext _ _ (status_name_UNKNOWN c)). by rewrite orb_diag.
Qed.

(** Whether a status is retriable: the first service error with a retry
    hint decides, and only without any hint does the status code, where
    RESOURCE_EXHAUSTED and UNAVAILABLE, an accepted DEADLINE_EXCEEDED, and an
    UNKNOWN whose message reports an HTTP status from 520 to 529 are
    retriable. *)
Theorem is_retriable_spec st dl :
  (forall pre e post b, service_errors st = pre ++ e :: post ->
     Forall (fun e => error_hint e = None) pre -> error_hint e = Some b -> is_retriable st dl = b) /\
  (Forall (fun e => error_hint e = None) (service_errors st) ->
   (is_retriable st dl = true <->
    rs_code st = RESOURCE_EXHAUSTED \/ rs_code st = UNAVAILABLE \/
    (dl = true /\ rs_code st = DEADLINE_EXCEEDED) \/
    (rs_code st = UNKNOWN /\ _has_unexpected_http_52x_status (rs_message st) = true))) /\
  (is_retriable st dl = true -> rs_code st = UNKNOWN ->
   Forall (fun e => error_hint e = None) (service_errors st) ->
   UNKNOWN ∉ DefaultRetriableCodes -> UNKNOWN <> DEADLINE_EXCEEDED ->
   exists m c, rs_message st = Some m /\ reports m c /\ 520 <= c < 530).
Proof.
  assert (H2 : Forall (fun e => error_hint e = None) (service_errors st) ->
   (is_retriable st dl = true <->
    rs_code st = RESOURCE_EXHAUSTED \/ rs_code st = UNAVAILABLE \/
    (dl = true /\ rs_code st = DEADLINE_EXCEEDED) \/
    (rs_code st = UNKNOWN /\ _has_unexpected_http_52x_status (rs_message st) = true))).
  { intros Hn%hint_loop_None. unfold is_retriable, retry_hint. rewrite Hn, is_unknown_member.
    unfold DefaultRetriableCodes. case_bool_decide as Hd.
    - rewrite !elem_of_cons in Hd. split; [intros _|done].
      destruct Hd as [?|[?|?%not_elem_of_nil]]; auto; done.
    - rewrite !elem_of_cons in Hd. destruct dl; simpl; repeat case_bool_decide; simpl;
        destruct (_has_unexpected_http_52x_status _); naive_solver. }
  split_and!; [|done|].
  - intros pre e post b He Hpre Hb. unfold is_retriable, retry_hint.
    assert (hint_loop (service_errors st) = Some b) as ->; [|done].
    apply hint_loop_spec. eauto 10.
  - intros Hr Hc Hn Hu Hd. apply H2 in Hr; [|done]. unfold DefaultRetriableCodes in Hu.
    rewrite !elem_of_cons, Hc in *. apply has_52x_reports. naive_solver.
Qed.

End Errors.

(** ** Instances *)

Definition silent_error : ServiceError := mkServiceError (u "compute") (u "Busy") None (Some (Some (u "UNSPECIFIED"))).
Definition call_error : ServiceError :=
  mkServiceError (u "compute") (u "Quota") (Some (too_many_requests (u "rate"))) (Some (Some (u "CALL"))).

#[local] Existing Instance ascii_words.
#[local] Existing Instance ascii_digits.
#[local] Existing Instance grpc_codes.

Example to_str_example :
  to_str call_error = u "Error Quota in service compute too many requests: rate".
Proof. reflexivity. Qed.

Example http_52x :
  _has_unexpected_http_52x_status (Some (u "Unexpected  HTTP status code: 521 (http status 200)")) = true /\
  _has_unexpected_http_52x_status (Some (u "received http2 header with status = 529")) = true /\
  _has_unexpected_http_52x_status (Some (u "HTTP/2 status 404")) = false /\
  _has_unexpected_http_52x_status (Some (u "xhttp status 522")) = false.
Proof. vm_compute. auto. Qed.

(** A final code with a hint to call again. *)
Definition hinted_status : RequestStatusExtended :=
  mkStatus (OK : StatusCode) (Some (u "quota")) [] [silent_error; call_error] [] [].

Lemma is_retriable_spec_witness : is_retriable hinted_status false = true.
Proof.
  apply (proj1 (is_retriable_spec hinted_status false) [silent_error] call_error [] true).
  - reflexivity.
  - repeat constructor.
  - reflexivity.
Defined.

(** A gRPC error that was raised while handling itself: its context leads back
    to it over an [OSError]. *)
Definition ex_objects : list exception :=
  [mkException true false None (Method _ (Some (KMember (UNKNOWN : StatusCode)))) (NoAttribute _) (NoAttribute _)
     (u "no luck") None (Some 1%nat) false;
   mkException true true None (NoAttribute _) (NoAttribute _) (NoAttribute _)
     (u "connection reset by peer") None (Some 0%nat) false].

Lemma retriable_error_spec_witness : is_retriable_error ex_objects 0 false = true.
Proof.
  apply (proj2 (proj2 (retriable_error_spec ex_objects 0 false
    ltac:(intros [|[|i]] j; vm_compute; intros; simplify_eq; lia) ltac:(simpl; lia)))).
  exists 1%nat, 1%nat. split_and!; [reflexivity..|].
  intros [|k'] i' Hk; [|lia]. intros [= <-]. vm_compute. reflexivity.
Defined.
