(* ===== verification/RpcStatus.v ===== *)
(** * Statuses on the wire

    [src/nebius/aio/request_status.py], the conversions of
    [RequestStatusExtended] in [src/nebius/aio/service_error.py], and
    [src/nebius/base/_service_error.py]: a [google.rpc.Status] becomes the
    status of a request, its service errors taken out of the details, and goes
    back; a rich status travels in the trailing metadata of a call.  All
    messages belong to one namespace, so a message is local already; their
    binary form is an interface. *)
From stdpp Require Import countable.
From S2P Require Import Prelude PyStr PyText Methods ServiceError Registry.

Inductive status_error : Type :=
| StatusValueError (text : string)
| StatusTypeError (text : string)
| StatusDecodeError.

(** [google.rpc.Status] *)
Record StatusPb : Type := mkStatusPb { sp_code : Z; sp_message : pystr; sp_details : list any_detail }.

#[export] Instance status_pb_eq_dec : EqDecision StatusPb.
Proof. solve_decision. Defined.

Definition NEBIUS_ERROR : pystr := u "nebius.common.v1.ServiceError".
Definition _SERVICE_ERROR_NAMES : list pystr := [NEBIUS_ERROR; u "nebius.common.error.v1alpha1.ServiceError"].

(** The messages: the classes the registry has, and the binary forms. *)
Class StatusMessages := {
  (** [message_class] finds the name *)
  registered : pystr -> bool;
  (** [__PROTO_FULL_NAME__] of a service error *)
  error_name : ServiceError -> pystr;
  encode_error : ServiceError -> list Z;
  (** [_from_string] of the class; [None] is a [DecodeError] *)
  decode_error : pystr -> list Z -> option ServiceError;
  encode_any : any_detail -> list Z;
  encode_status : StatusPb -> list Z;
  decode_status : list Z -> option StatusPb;
  decode_encode_error : forall e, decode_error (error_name e) (encode_error e) = Some e;
  decode_error_name : forall n b e, decode_error n b = Some e -> error_name e = n;
  decode_encode_status : forall s, decode_status (encode_status s) = Some s
}.

Section Status.
Context {WC : WordChars} {UD : UnicodeDigits} {SC : StatusCodes} {SM : StatusMessages}.

(** ** Service errors in the details *)

(** [registry.pack_any(error)] *)
Definition pack_error (e : ServiceError) : any_detail :=
  (u "type.googleapis.com" ++ [SLASH] ++ error_name e, encode_error e).

(** The loop of [from_rpc_status] over the details. *)
Fixpoint split_details (details : list any_detail) :
    result status_error (list ServiceError * list any_detail) :=
  match details with
  | [] => Ok ([], [])
  | detail :: details =>
      let keep := '(errors, rest) ← split_details details; Ok (errors, detail :: rest) in
      match type_name detail.1 with
      | Raise _ => keep
      | Ok full_name =>
          if negb (bool_decide (full_name ∈ _SERVICE_ERROR_NAMES)) then keep else
          if negb (registered full_name) then keep else
          match decode_error full_name detail.2 with
          | None => Raise StatusDecodeError
          | Some e => '(errors, rest) ← split_details details; Ok (e :: errors, rest)
          end
      end
  end.

(** ** The status of a request *)

Abbreviation status_state := (StatusCode * option pystr * list (list Z))%type.
Abbreviation extended_state := (status_state * list (list Z))%type.

(** A [RequestStatusExtended] with the raw status it came from and its state at
    that time. *)
Record Extended : Type := mkExtended {
  status : RequestStatusExtended;
  _raw_status : option StatusPb;
  _original_extended_state : option extended_state
}.

Definition _state (s : RequestStatusExtended) : status_state :=
  (rs_code s, rs_message s, encode_any <$> rs_details s).

Definition _extended_state (s : RequestStatusExtended) : extended_state :=
  (_state s, encode_error <$> service_errors s).

Definition from_rpc_status (s : StatusPb) (request_id trace_id : pystr) : result status_error Extended :=
  '(errors, rest) ← split_details (sp_details s);
  let result :=
    mkStatus (_status_code (CodeNumber (sp_code s))) (Some (sp_message s)) rest errors request_id trace_id in
  Ok (mkExtended result (Some s) (Some (_extended_state result))).

(** [request_status_from_rpc_status] *)
Definition request_status_from_rpc_status (s : StatusPb) : result status_error Extended :=
  from_rpc_status s [] [].

(** The checks of the service errors before they are packed. *)
Fixpoint localized_errors (errors : list ServiceError) : result status_error (list ServiceError) :=
  match errors with
  | [] => Ok []
  | e :: errors =>
      if negb (bool_decide (error_name e ∈ _SERVICE_ERROR_NAMES))
      then Raise (StatusTypeError "service error has an unexpected protobuf type") else
      es ← localized_errors errors; Ok (e :: es)
  end.

(** [RequestStatus.to_rpc_status] of a status that keeps no base state. *)
Definition base_to_rpc_status (s : RequestStatusExtended) : StatusPb :=
  mkStatusPb (status_number (rs_code s)) (default [] (rs_message s)) (rs_details s).

(** The raw status with the code and the message that were changed. *)
Definition updated_raw (raw : StatusPb) (s : RequestStatusExtended) (original : status_state) : StatusPb :=
  let '(original_code, original_message, _) := original in
  mkStatusPb
    (if bool_decide (rs_code s = original_code) then sp_code raw else status_number (rs_code s))
    (if bool_decide (rs_message s = original_message) then sp_message raw else default [] (rs_message s))
    (sp_details raw).

Definition to_rpc_status (self : Extended) : result status_error StatusPb :=
  let s := status self in
  let pack ret details :=
    errors ← localized_errors (service_errors s);
    Ok (mkStatusPb (sp_code ret) (sp_message ret) (details ++ (pack_error <$> errors))) in
  match _raw_status self, _original_extended_state self with
  | Some raw, Some original =>
      let ret := updated_raw raw s original.1 in
      if bool_decide (_extended_state s = original) then Ok ret else pack ret (rs_details s)
  | _, _ => let ret := base_to_rpc_status s in pack ret (rs_details s)
  end.

(** ** Rich statuses of calls *)

Inductive metadata_value : Type := MdText (s : pystr) | MdBytes (b : list Z).

(** What a finished call reports. *)
Record rpc_call : Type := mkCall {
  trailing_metadata : option (list (pystr * metadata_value));
  call_code : StatusCode;
  call_details : pystr
}.

Definition _STATUS_DETAILS_KEY : pystr := u "grpc-status-details-bin".

(** The check that the status in the metadata is the status of the call. *)
Definition consistent (call : rpc_call) (s : StatusPb) : result status_error (option StatusPb) :=
  if negb (status_number (call_code call) =? sp_code s)
  then Raise (StatusValueError "code does not match") else
  if negb (bool_decide (call_details call = sp_message s))
  then Raise (StatusValueError "message does not match") else Ok (Some s).

Fixpoint rich_status (call : rpc_call) (md : list (pystr * metadata_value)) :
    result status_error (option StatusPb) :=
  match md with
  | [] => Ok None
  | (key, value) :: md =>
      if negb (bool_decide (key = _STATUS_DETAILS_KEY)) then rich_status call md else
      match value with
      | MdText _ => Raise (StatusTypeError "grpc-status-details-bin value must be bytes")
      | MdBytes b =>
          match decode_status b with
          | None => Raise StatusDecodeError
          | Some s => consistent call s
          end
      end
  end.

Definition _rich_status_from_call (call : rpc_call) : result status_error (option StatusPb) :=
  match trailing_metadata call with None => Ok None | Some md => rich_status call md end.

(** [request_status.rpc_status_from_call]: the same loop, which needs a registry
    once it meets the key. *)
Definition rpc_status_from_call (has_registry : bool) (call : rpc_call) : result status_error (option StatusPb) :=
  match trailing_metadata call with
  | None => Ok None
  | Some md =>
      if existsb (fun kv => bool_decide (kv.1 = _STATUS_DETAILS_KEY)) md && negb has_registry
      then Raise (StatusValueError "rich gRPC status decoding requires a direct registry")
      else rich_status call md
  end.

(** [base/_service_error._status_code]: no default. *)
Fixpoint strict_member (n : Z) (ms : list StatusCode) : result status_error StatusCode :=
  match ms with
  | [] => Raise (StatusValueError "invalid gRPC status code")
  | c :: ms => if status_number c =? n then Ok c else strict_member n ms
  end.
Definition strict_status_code (n : Z) : result status_error StatusCode := strict_member n status_members.

(** [unpack_any] of a detail as [pb2_from_status] sees it: a [ServiceErrorPb],
    something else, or a raise. *)
Inductive unpacked : Type := UnpackedError (e : ServiceError) | UnpackedOther | UnpackRaises.

(** The loop of [pb2_from_status]; [unpack] stands for the registry. *)
Fixpoint pb2_loop (unpack : any_detail -> unpacked) (details : list any_detail) :
    result status_error (list ServiceError * list any_detail) :=
  match details with
  | [] => Ok ([], [])
  | d :: details =>
      match unpack d with
      | UnpackRaises => Raise StatusDecodeError
      | UnpackedError e => '(ret, rest) ← pb2_loop unpack details; Ok (e :: ret, rest)
      | UnpackedOther => '(ret, rest) ← pb2_loop unpack details; Ok (ret, d :: rest)
      end
  end.

(** The errors, and the status, whose details lose them on request. *)
Definition pb2_from_status (unpack : any_detail -> unpacked) (s : StatusPb) (remove_from_details : bool) :
    result status_error (list ServiceError * StatusPb) :=
  '(ret, rest) ← pb2_loop unpack (sp_details s);
  Ok (ret, if remove_from_details then mkStatusPb (sp_code s) (sp_message s) rest else s).

Definition pb2_from_error (unpack : any_detail -> unpacked) (err : rpc_call) :
    result status_error (list ServiceError) :=
  s ← _rich_status_from_call err;
  match s with
  | None => Ok []
  | Some s => '(ret, _) ← pb2_from_status unpack s false; Ok ret
  end.

Definition pbrpc_status_of_errors (code : Z) (message : pystr) (errors : list ServiceError) : StatusPb :=
  mkStatusPb code message (pack_error <$> errors).

(** The gRPC status: code, details and trailing metadata. *)
Definition grpc_status_of_errors (code : Z) (message : pystr) (errors : list ServiceError) :
    result status_error rpc_call :=
  let s := pbrpc_status_of_errors code message errors in
  c ← strict_status_code (sp_code s);
  Ok (mkCall (Some [(_STATUS_DETAILS_KEY, MdBytes (encode_status s))]) c (sp_message s)).

Definition trailing_metadata_of_errors (errors : list ServiceError) (status_code : Z)
    (status_message : pystr) : result status_error (option (list (pystr * metadata_value))) :=
  c ← grpc_status_of_errors status_code status_message errors; Ok (trailing_metadata c).

(** ** Conversions: lemmas *)

(** The service error a detail holds, for a detail the loop takes out. *)
Definition detail_error (d : any_detail) : option ServiceError :=
  match type_name d.1 with
  | Ok n => if bool_decide (n ∈ _SERVICE_ERROR_NAMES) && registered n then decode_error n d.2 else None
  | Raise _ => None
  end.

(** A detail the loop cannot decode. *)
Definition undecodable (d : any_detail) : Prop :=
  exists n, type_name d.1 = Ok n /\ n ∈ _SERVICE_ERROR_NAMES /\ registered n = true /\ decode_error n d.2 = None.

Lemma split_details_spec ds :
  match split_details ds with
  | Ok (errors, rest) => errors = omap detail_error ds /\ rest = filter (fun d => detail_error d = None) ds /\
      Forall (fun d => ~ undecodable d) ds
  | Raise e => e = StatusDecodeError /\ Exists undecodable ds
  end.
Proof.
  induction ds as [|d ds IH]; cbn [split_details]; [split_and!; constructor|].
  assert (Hkeep : detail_error d = None -> ~ undecodable d ->
    match ('(errors, rest) ← split_details ds; Ok (errors, d :: rest)) with
    | Ok (errors, rest) => errors = omap detail_error (d :: ds) /\
        rest = filter (fun d => detail_error d = None) (d :: ds) /\ Forall (fun d => ~ undecodable d) (d :: ds)
    | Raise e => e = StatusDecodeError /\ Exists undecodable (d :: ds)
    end).
  { intros Hd Hu. rewrite filter_cons_True by done. csimpl. rewrite Hd.
    destruct (split_details ds) as [[es rest]|e]; cbn.
    - destruct IH as (-> & -> & H). auto.
    - destruct IH as (-> & H). auto. }
  unfold detail_error in Hkeep at 1. unfold undecodable in Hkeep at 1.
  destruct (type_name d.1) as [n|e] eqn:Et; [|apply Hkeep; [done|]; intros (n' & H1 & H2 & H3 & H4); congruence].
  case_bool_decide as Hn; cbn [negb andb] in *; [|apply Hkeep; [done|]; intros (n' & H1 & H2 & H3 & H4); congruence].
  destruct (registered n) eqn:Er; cbn [negb] in *; [|apply Hkeep; [done|]; intros (n' & H1 & H2 & H3 & H4); congruence].
  destruct (decode_error n d.2) as [e|] eqn:Ed.
  - assert (Hd : detail_error d = Some e).
    { unfold detail_error. rewrite Et, bool_decide_eq_true_2, Er by done. done. }
    assert (Hu : ~ undecodable d) by (intros (n' & H1 & _ & _ & H2); congruence).
    rewrite filter_cons_False by congruence. csimpl. rewrite Hd.
    destruct (split_details ds) as [[es rest]|e']; cbn.
    + destruct IH as (-> & -> & H). auto.
    + destruct IH as (-> & H). auto.
  - split; [done|]. left. exists n. auto.
Qed.

Lemma pack_error_detail e :
  error_name e ∈ _SERVICE_ERROR_NAMES -> registered (error_name e) = true ->
  detail_error (pack_error e) = Some e.
Proof.
  intros Hn Hr. unfold detail_error, pack_error. cbn [fst snd].
  rewrite type_name_url; [|done|].
  - rewrite bool_decide_eq_true_2, Hr by done. apply decode_encode_error.
  - unfold _SERVICE_ERROR_NAMES in Hn. rewrite !elem_of_cons in Hn.
    destruct Hn as [->|[->|?%not_elem_of_nil]]; done.
Qed.

Lemma packed_errors es :
  Forall (fun e => error_name e ∈ _SERVICE_ERROR_NAMES /\ registered (error_name e) = true) es ->
  omap detail_error (pack_error <$> es) = es /\
  filter (fun d => detail_error d = None) (pack_error <$> es) = [].
Proof.
  induction 1 as [|e es [Hn Hr] _ [IH1 IH2]]; [done|]. rewrite fmap_cons. split.
  - csimpl. rewrite pack_error_detail by done. by rewrite IH1.
  - rewrite filter_cons_False; [done|]. by rewrite pack_error_detail.
Qed.

Lemma other_details ds :
  Forall (fun d => detail_error d = None /\ ~ undecodable d) ds ->
  omap detail_error ds = [] /\ filter (fun d => detail_error d = None) ds = ds.
Proof.
  induction 1 as [|d ds [Hd _] _ [IH1 IH2]]; [done|]. split.
  - csimpl. by rewrite Hd.
  - rewrite filter_cons_True by done. by rewrite IH2.
Qed.

Lemma localized_errors_Ok errors :
  Forall (fun e => error_name e ∈ _SERVICE_ERROR_NAMES) errors -> localized_errors errors = Ok errors.
Proof.
  induction 1 as [|e es He _ IH]; simpl; [done|]. rewrite bool_decide_eq_true_2 by done. simpl. by rewrite IH.
Qed.

Lemma strict_member_Ok c ms : c ∈ ms -> strict_member (status_number c) ms = Ok c.
Proof.
  induction ms as [|d ms IH]; simpl; [by intros ?%not_elem_of_nil|].
  intros Hc. destruct (Z.eqb_spec (status_number d) (status_number c)) as [E|].
  - f_equal. by apply status_number_inj.
  - apply elem_of_cons in Hc as [->|Hc]; [done|auto].
Qed.

Lemma strict_member_inv n ms c : strict_member n ms = Ok c -> status_number c = n.
Proof.
  induction ms as [|d ms IH]; simpl; [done|]. destruct (Z.eqb_spec (status_number d) n); [|done].
  by intros [= <-].
Qed.

(** A status read from the wire has the code of its number, or UNKNOWN, and
    exactly the service errors its details hold, in order, the other details
    staying in order.  Written back unchanged it is the status that was read,
    number and details included. *)
Theorem rpc_status_roundtrip s rid tid x :
  from_rpc_status s rid tid = Ok x ->
  to_rpc_status x = Ok s /\
  service_errors (status x) = omap detail_error (sp_details s) /\
  rs_details (status x) = filter (fun d => detail_error d = None) (sp_details s) /\
  rs_message (status x) = Some (sp_message s) /\
  (forall c, status_number c = sp_code s -> rs_code (status x) = c) /\
  (forall y, from_rpc_status s rid tid = Ok y -> y = x).
Proof.
  unfold from_rpc_status. pose proof (split_details_spec (sp_details s)) as Hs.
  destruct (split_details (sp_details s)) as [[errors rest]|e]; [|done]. destruct Hs as (-> & -> & _).
  cbn [mbind result_bind]. intros [= <-]. cbn. split_and!; try done.
  - unfold to_rpc_status. cbn. rewrite !bool_decide_eq_true_2 by done. by destruct s.
  - intros c Hc. by apply status_code_number.
  - by intros y [= <-].
Qed.

(** A status that was built from errors, not read, carries them over the
    wire: reading what [to_rpc_status] wrote gives the same code, errors and
    other details. *)
Theorem rpc_status_errors_roundtrip st rid tid :
  Forall (fun e => error_name e ∈ _SERVICE_ERROR_NAMES /\ registered (error_name e) = true) (service_errors st) ->
  Forall (fun d => detail_error d = None /\ ~ undecodable d) (rs_details st) ->
  exists s x, to_rpc_status (mkExtended st None None) = Ok s /\ from_rpc_status s rid tid = Ok x /\
    rs_code (status x) = rs_code st /\ service_errors (status x) = service_errors st /\
    rs_details (status x) = rs_details st /\ rs_message (status x) = Some (default [] (rs_message st)).
Proof.
  intros He Hd. unfold to_rpc_status. cbn.
  rewrite localized_errors_Ok by (eapply Forall_impl; [done|]; naive_solver). cbn.
  exists (mkStatusPb (status_number (rs_code st)) (default [] (rs_message st))
    (rs_details st ++ (pack_error <$> service_errors st))). unfold from_rpc_status. cbn [sp_details sp_code sp_message].
  pose proof (split_details_spec (rs_details st ++ (pack_error <$> service_errors st))) as Hs.
  destruct (packed_errors _ He) as [P1 P2]. destruct (other_details _ Hd) as [O1 O2].
  destruct (split_details _) as [[errors rest]|e].
  - destruct Hs as (-> & -> & _). eexists. split; [done|]. cbn [mbind result_bind].
    split; [done|]. cbn [status service_errors rs_details rs_message rs_code].
    rewrite omap_app, filter_app, P1, P2, O1, O2, app_nil_r. split_and!; [by apply (status_code_number _ (rs_code st))|done..].
  - destruct Hs as [_ Hs]. exfalso. apply Exists_app in Hs as [Hs|Hs].
    + apply Exists_exists in Hs as (d & Hin & Hu). rewrite Forall_forall in Hd. by destruct (Hd d Hin).
    + apply Exists_exists in Hs as (d & Hin & n & H3 & H4 & H5 & H6).
      apply list_elem_of_fmap in Hin as (e' & -> & Hin).
      rewrite Forall_forall in He. destruct (He e' Hin) as [Hn Hr].
      pose proof (pack_error_detail e' Hn Hr) as Hp. unfold detail_error in Hp.
      rewrite H3, H6 in Hp. by destruct (_ && _).
Qed.

(** The trailing metadata of a gRPC status built from service errors is
    accepted by the reader of that call and gives the errors back; a number
    that is no gRPC code is refused when the status is built; a call whose code
    or message differs from its metadata is refused when it is read. *)
Theorem grpc_status_roundtrip unpack n message errors call :
  (forall e, e ∈ errors -> unpack (pack_error e) = UnpackedError e) ->
  grpc_status_of_errors n message errors = Ok call ->
  pb2_from_error unpack call = Ok errors /\ status_number (call_code call) = n /\
  rpc_status_from_call true call = Ok (Some (pbrpc_status_of_errors n message errors)) /\
  (forall c m, c <> call_code call \/ m <> message ->
     exists t, rpc_status_from_call true (mkCall (trailing_metadata call) c m) = Raise (StatusValueError t)) /\
  (forall n', (forall c, status_number c <> n') ->
     grpc_status_of_errors n' message errors = Raise (StatusValueError "invalid gRPC status code")).
Proof.
  intros Hu Hg. unfold grpc_status_of_errors in Hg. apply result_bind_Ok in Hg as (c & Hc & [= <-]).
  cbn [sp_code pbrpc_status_of_errors sp_message] in *. pose proof (strict_member_inv _ _ _ Hc) as Hn.
  set (s := pbrpc_status_of_errors n message errors).
  assert (Hrich : forall c' m', rich_status (mkCall (Some [(_STATUS_DETAILS_KEY, MdBytes (encode_status s))]) c' m')
      [(_STATUS_DETAILS_KEY, MdBytes (encode_status s))] =
      consistent (mkCall (Some [(_STATUS_DETAILS_KEY, MdBytes (encode_status s))]) c' m') s).
  { intros c' m'. cbn. by rewrite decode_encode_status. }
  assert (Hread : forall c' m', rpc_status_from_call true
     (mkCall (Some [(_STATUS_DETAILS_KEY, MdBytes (encode_status s))]) c' m') =
     consistent (mkCall (Some [(_STATUS_DETAILS_KEY, MdBytes (encode_status s))]) c' m') s).
  { intros c' m'. unfold rpc_status_from_call. cbn [trailing_metadata negb]. rewrite andb_false_r. apply Hrich. }
  assert (Hcons : consistent (mkCall (Some [(_STATUS_DETAILS_KEY, MdBytes (encode_status s))]) c message) s = Ok (Some s)).
  { unfold consistent. cbn. by rewrite Hn, Z.eqb_refl, bool_decide_eq_true_2. }
  split_and!; [|done|by rewrite Hread| |].
  - unfold pb2_from_error, _rich_status_from_call. cbn [trailing_metadata]. rewrite Hrich, Hcons.
    cbn [mbind result_bind]. unfold pb2_from_status. cbn [sp_details s pbrpc_status_of_errors].
    assert (Hl : forall es, (forall e, e ∈ es -> unpack (pack_error e) = UnpackedError e) ->
      pb2_loop unpack (pack_error <$> es) = Ok (es, [])).
    { induction es as [|e es IH]; intros H; csimpl; [done|]. rewrite (H e) by left.
      rewrite IH; [done|]. intros; apply H; by right. }
    by rewrite Hl.
  - intros c' m' Hd. cbn [trailing_metadata]. rewrite Hread. unfold consistent. cbn.
    destruct (Z.eqb_spec (status_number c') n) as [E|]; cbn; [|eauto].
    case_bool_decide; cbn; [|eauto]. subst n. apply status_number_inj in E. naive_solver.
  - intros n' Hn'. unfold grpc_status_of_errors, strict_status_code. cbn.
    induction status_members as [|d ms IH]; cbn; [done|].
    destruct (Z.eqb_spec (status_number d) n') as [E|]; [by apply Hn' in E|done].
Qed.

End Status.

(** ** Messages with a binary form

    A service error is its fields as one number; the messages are of the class
    [nebius.common.v1.ServiceError]. *)
Definition details_fields (d : error_details) : nat * list (list pystr) :=
  match d with
  | bad_request vs => (0%nat, (fun '(f, m) => [f; m]) <$> vs)
  | bad_resource_state i m => (1%nat, [[i; m]])
  | resource_not_found i => (2%nat, [[i]])
  | resource_already_exists i => (3%nat, [[i]])
  | out_of_range r l => (4%nat, [[r; l]])
  | permission_denied i => (5%nat, [[i]])
  | resource_conflict i m => (6%nat, [[i; m]])
  | operation_aborted o b i => (7%nat, [[o; b; i]])
  | operation_conflict o i => (8%nat, [[o; i]])
  | too_many_requests v => (9%nat, [[v]])
  | quota_failure vs => (10%nat, (fun '(q, r, l, m) => [q; r; l; m]) <$> vs)
  | not_enough_resources vs => (11%nat, (fun '(t, r, m) => [t; r; m]) <$> vs)
  | internal_error r t => (12%nat, [[r; t]])
  | other_detail f t => (13%nat, [[f; t]])
  end.

Definition fields_details (p : nat * list (list pystr)) : option error_details :=
  match p with
  | (0%nat, vs) => Some (bad_request (omap (fun v => if v is [f; m] then Some (f, m) else None) vs))
  | (1%nat, [[i; m]]) => Some (bad_resource_state i m)
  | (2%nat, [[i]]) => Some (resource_not_found i)
  | (3%nat, [[i]]) => Some (resource_already_exists i)
  | (4%nat, [[r; l]]) => Some (out_of_range r l)
  | (5%nat, [[i]]) => Some (permission_denied i)
  | (6%nat, [[i; m]]) => Some (resource_conflict i m)
  | (7%nat, [[o; b; i]]) => Some (operation_aborted o b i)
  | (8%nat, [[o; i]]) => Some (operation_conflict o i)
  | (9%nat, [[v]]) => Some (too_many_requests v)
  | (10%nat, vs) => Some (quota_failure (omap (fun v => if v is [q; r; l; m] then Some (q, r, l, m) else None) vs))
  | (11%nat, vs) => Some (not_enough_resources (omap (fun v => if v is [t; r; m] then Some (t, r, m) else None) vs))
  | (12%nat, [[r; t]]) => Some (internal_error r t)
  | (13%nat, [[f; t]]) => Some (other_detail f t)
  | _ => None
  end.

Lemma omap_fields {A B} (f : A -> B) (g : B -> option A) (l : list A) :
  (forall a, g (f a) = Some a) -> omap g (f <$> l) = l.
Proof. intros H. induction l as [|a l IH]; csimpl; [done|]. by rewrite H, IH. Qed.

Lemma fields_details_fields d : fields_details (details_fields d) = Some d.
Proof.
  destruct d; simpl; try done; f_equal; f_equal; apply omap_fields; intros; by repeat case_match; simplify_eq.
Qed.

#[export] Instance error_details_eq_dec : EqDecision error_details.
Proof. solve_decision. Defined.
#[export] Instance error_details_countable : Countable error_details :=
  inj_countable details_fields fields_details fields_details_fields.
#[export] Instance service_error_eq_dec : EqDecision ServiceError.
Proof. solve_decision. Defined.
#[export] Instance service_error_countable : Countable ServiceError.
Proof.
  refine (inj_countable' (fun e => (service e, code e, details e, retry_type e))
    (fun '(s, c, d, r) => mkServiceError s c d r) _). by intros [].
Defined.
#[export] Instance status_pb_countable : Countable StatusPb.
Proof.
  refine (inj_countable' (fun s => (sp_code s, sp_message s, sp_details s))
    (fun '(c, m, d) => mkStatusPb c m d) _). by intros [].
Defined.

Definition bytes_of {A} `{Countable A} (a : A) : list Z := [Zpos (encode a)].
Definition of_bytes {A} `{Countable A} (b : list Z) : option A :=
  match b with [Zpos p] => decode p | _ => None end.

Lemma of_bytes_of {A} `{Countable A} (a : A) : of_bytes (bytes_of a) = Some a.
Proof. apply decode_encode. Qed.

Definition decode_nebius (n : pystr) (b : list Z) : option ServiceError :=
  if bool_decide (n = NEBIUS_ERROR) then of_bytes b else None.
Lemma decode_nebius_bytes e : decode_nebius NEBIUS_ERROR (bytes_of e) = Some e.
Proof. unfold decode_nebius. rewrite bool_decide_eq_true_2 by done. apply of_bytes_of. Qed.
Lemma decode_nebius_name n b e : decode_nebius n b = Some e -> NEBIUS_ERROR = n.
Proof. unfold decode_nebius. by case_bool_decide. Qed.

#[local] Instance number_messages : StatusMessages :=
  {| registered := fun n => bool_decide (n = NEBIUS_ERROR); error_name := fun _ => NEBIUS_ERROR;
     encode_error := bytes_of; decode_error := decode_nebius; encode_any := bytes_of;
     encode_status := bytes_of; decode_status := of_bytes; decode_encode_error := decode_nebius_bytes;
     decode_error_name := decode_nebius_name; decode_encode_status := of_bytes_of |}.

#[local] Existing Instance ascii_words.
#[local] Existing Instance ascii_digits.
#[local] Existing Instance grpc_codes.

(** A status with an error, an unknown detail and a number gRPC does not have. *)
Definition ex_status : StatusPb := mkStatusPb 77 (u "no") [pack_error call_error; (u "x/a.B", [1])].

Lemma rpc_status_roundtrip_witness :
  exists x, from_rpc_status ex_status [] [] = Ok x /\ to_rpc_status x = Ok ex_status.
Proof.
  eexists. split; [reflexivity|].
  refine (proj1 (rpc_status_roundtrip ex_status [] [] _ _)). reflexivity.
Defined.

Definition built_status : RequestStatusExtended :=
  mkStatus (UNAVAILABLE : StatusCode) None [(u "x/a.B", [1])] [call_error; silent_error] [] [].

Lemma rpc_status_errors_roundtrip_witness :
  exists s x, to_rpc_status (mkExtended built_status None None) = Ok s /\ from_rpc_status s [] [] = Ok x /\
    service_errors (status x) = [call_error; silent_error].
Proof.
  destruct (rpc_status_errors_roundtrip built_status [] []) as (s & x & H1 & H2 & _ & H3 & _).
  - repeat constructor; apply (bool_decide_unpack _); vm_compute; exact I.
  - repeat constructor. intros (n & H1 & H2 & _). revert H2.
    assert (n = u "a.B") as -> by (vm_compute in H1; by injection H1 as <-).
    apply (bool_decide_unpack _). vm_compute. exact I.
  - by exists s, x.
Defined.

Definition ex_unpack (d : any_detail) : unpacked :=
  match detail_error d with Some e => UnpackedError e | None => UnpackedOther end.

Lemma grpc_status_roundtrip_witness :
  exists call, grpc_status_of_errors 8 (u "busy") [call_error] = Ok call /\
    pb2_from_error ex_unpack call = Ok [call_error].
Proof.
  eexists. split; [reflexivity|].
  refine (proj1 (grpc_status_roundtrip ex_unpack 8 (u "busy") [call_error] _ _ _)); [|reflexivity].
  intros e _. unfold ex_unpack. rewrite pack_error_detail; [done| |reflexivity].
  apply (bool_decide_unpack _). vm_compute. exact I.
Defined.
