(* ===== verification/Request.v ===== *)
(** * Requests: retries, deadlines and cancellation

    [src/nebius/aio/request.py]: the flags of a [Request] that its lock guards,
    the deadlines, and the state machine of the retry and authorization loops.
    The owner loop runs one phase at a time; between two phases another thread
    may cancel the request, a waiter may expire, the native call may finish and
    time may pass.  What a native call, the authenticator and the conversion of
    an error answer is chosen by the environment.  Times are exact numbers of
    one unit, and [monotonic()] never goes back. *)
From S2P Require Import Prelude.

(** ** The flags *)

Record flags : Type := mkFlags {
  _cancelled : bool;
  _native_terminal : bool;
  _retry_decision_pending : bool;
  _native_attempt_terminal : bool;
  _cancel_after_terminal_attempt : bool;
  _deadline_expired : bool
}.

Definition new_flags : flags := mkFlags false false false false false false.

Definition set_cancelled (b : bool) (f : flags) : flags :=
  mkFlags b (_native_terminal f) (_retry_decision_pending f) (_native_attempt_terminal f)
    (_cancel_after_terminal_attempt f) (_deadline_expired f).
Definition set_terminal (b : bool) (f : flags) : flags :=
  mkFlags (_cancelled f) b (_retry_decision_pending f) (_native_attempt_terminal f)
    (_cancel_after_terminal_attempt f) (_deadline_expired f).
Definition set_pending (b : bool) (f : flags) : flags :=
  mkFlags (_cancelled f) (_native_terminal f) b (_native_attempt_terminal f)
    (_cancel_after_terminal_attempt f) (_deadline_expired f).
Definition set_attempt_terminal (b : bool) (f : flags) : flags :=
  mkFlags (_cancelled f) (_native_terminal f) (_retry_decision_pending f) b
    (_cancel_after_terminal_attempt f) (_deadline_expired f).
Definition set_cancel_after (b : bool) (f : flags) : flags :=
  mkFlags (_cancelled f) (_native_terminal f) (_retry_decision_pending f) (_native_attempt_terminal f)
    b (_deadline_expired f).
Definition set_expired (b : bool) (f : flags) : flags :=
  mkFlags (_cancelled f) (_native_terminal f) (_retry_decision_pending f) (_native_attempt_terminal f)
    (_cancel_after_terminal_attempt f) b.

(** The shared awaitable of a submitted request. *)
Inductive future : Type :=
| NoFuture
| Running
| Finished (was_cancelled : bool).

Definition future_done (fut : future) : bool := match fut with Finished _ => true | _ => false end.

Definition done (f : flags) (fut : future) : bool :=
  (_native_terminal f && negb (_retry_decision_pending f)) || future_done fut.

(** [code_cancelled]: the native code or the status is CANCELLED. *)
Definition cancelled (f : flags) (fut : future) (code_cancelled : bool) : bool :=
  match fut with
  | Finished true => true
  | _ => _cancelled f || code_cancelled
  end.

(** [cancel()]: the answer, the flags, and whether [future.cancel()], which
    answers [fut_cancel], reached the wrapper task. *)
Definition cancel (f : flags) (fut : future) (fut_cancel : bool) : bool * flags * bool :=
  if _cancelled f || (_native_terminal f && negb (_retry_decision_pending f)) then (false, f, false) else
  if _native_attempt_terminal f then (true, set_cancel_after true (set_cancelled true f), false) else
  match fut with
  | NoFuture => (true, set_cancelled true f, false)
  | _ => if fut_cancel then (true, set_cancelled true f, true) else (false, f, false)
  end.

(** [_expire_wait()]: whether an outcome must be awaited, the flags, whether the
    wrapper task was cancelled, and whether cancellation was accepted.
    [completed]: the future completed before the cancellation took effect. *)
Definition _expire_wait (f : flags) (fut : future) (fut_cancel completed : bool) : bool * flags * bool * bool :=
  match fut with
  | Finished c => (negb c, f, false, false)
  | _ =>
      if _native_terminal f && negb (_retry_decision_pending f) then (true, set_expired true f, false, false) else
      if _native_attempt_terminal f || (_native_terminal f && _retry_decision_pending f) then
        if _cancelled f then (true, f, false, false)
        else (true, set_cancel_after true (set_cancelled true (set_expired true f)), false, true)
      else
        let '(accepted, f, reached) := cancel f fut fut_cancel in (completed, f, reached, accepted)
  end.

(** The callback of the native call; [current]: it is the call of the request. *)
Definition _mark_native_attempt_terminal (current : bool) (f : flags) : flags :=
  if current && negb (_native_terminal f) then set_attempt_terminal true f else f.

(** The section after a successful native response. *)
Definition on_success (f : flags) : flags :=
  let f := set_attempt_terminal false (set_terminal true f) in
  if _cancel_after_terminal_attempt f then set_cancelled false (set_cancel_after false f) else f.

(** The section after a native error. *)
Definition on_native_error (could_retry awaiting_auth_retry : bool) (f : flags) : flags :=
  let f := set_pending (could_retry || awaiting_auth_retry)
             (set_attempt_terminal awaiting_auth_retry (set_terminal true f)) in
  if _cancel_after_terminal_attempt f && negb (_retry_decision_pending f)
  then set_cancelled false (set_cancel_after false f) else f.

(** The section that decides about the next attempt: the final [retry], whether
    cancellation won, and the flags. *)
Definition on_attempt_error (retry deferred_unauthenticated : bool) (f : flags) : bool * bool * flags :=
  let retry := retry && negb (_deadline_expired f && negb (_retry_decision_pending f)) in
  let terminal_attempt := _native_terminal f || _native_attempt_terminal f in
  let f := if terminal_attempt then
             let f := set_terminal true f in
             if deferred_unauthenticated then f else set_attempt_terminal false f
           else f in
  let cancelled_during_decision :=
    retry && terminal_attempt && _retry_decision_pending f && _cancelled f in
  let f := if deferred_unauthenticated then f else set_pending false f in
  let f := if terminal_attempt && negb deferred_unauthenticated
           then set_cancel_after false (set_attempt_terminal false f) else f in
  let f := if terminal_attempt && negb retry && negb deferred_unauthenticated then set_cancelled false f else f in
  let f := if retry && terminal_attempt && negb cancelled_during_decision then set_terminal false f else f in
  (retry, cancelled_during_decision, f).

(** Whether a queued cancellation prevents the retry, and the flags. *)
Definition _resolve_authorization_retry (retry : bool) (f : flags) : bool * flags :=
  let cancelled_retry := retry && _retry_decision_pending f && _cancelled f in
  let f := set_cancel_after false (set_attempt_terminal false (set_pending false f)) in
  (cancelled_retry,
   if retry && negb cancelled_retry then set_terminal false f
   else if negb retry then set_cancelled false f else f).

(** ** Deadlines *)

Inductive timeout_error : Type := TimedOutBeforeDispatch.

Definition min_deadline (own outer : option Z) : option Z :=
  match own, outer with
  | d, None => d
  | None, d => d
  | Some a, Some b => Some (Z.min a b)
  end.

(** The deadline of one retry loop: [request_deadline] is the clock of the
    submission, [timeout] the configured budget. *)
Definition loop_deadline (request_deadline timeout outer : option Z) (start : Z) : option Z :=
  let own := match request_deadline, timeout with
             | Some d, _ => Some d
             | None, Some t => Some (start + t)
             | None, None => None
             end in
  min_deadline own outer.

(** The timeout of an attempt, from two readings of the clock. *)
Definition attempt_timeout (retries per_retry_timeout deadline : option Z) (now1 now2 : Z) :
    result timeout_error (option Z) :=
  let timeout := (fun d => d - now1) <$> deadline in
  match timeout with
  | Some t => if t <=? 0 then Raise TimedOutBeforeDispatch else
      match per_retry_timeout with
      | Some p =>
          if (match retries with None => true | Some r => 0 <? r end) && (p <? t) then
            let remaining := default 0 deadline - now2 in
            Ok (Some (if remaining <=? 0 then 0 else Z.min p remaining))
          else Ok (Some t)
      | None => Ok (Some t)
      end
  | None =>
      match per_retry_timeout with
      | Some p => if (match retries with None => true | Some r => 0 <? r end) then Ok (Some p) else Ok None
      | None => Ok None
      end
  end.

(** The request clock, which stops while the request authorizes. *)
Record clock : Type := mkClock {
  _request_deadline : option Z;
  _request_timeout_remaining : option Z;
  _request_deadline_paused : bool
}.

Definition _pause_request_deadline (timeout : option Z) (now : Z) (c : clock) : clock :=
  match timeout with
  | None => c
  | Some t =>
      if _request_deadline_paused c then c else
      mkClock None
        (Some (match _request_deadline c with None => Z.max 0 t | Some d => Z.max 0 (d - now) end)) true
  end.

Definition _resume_request_deadline (timeout : option Z) (now : Z) (c : clock) : clock :=
  match timeout with
  | None => c
  | Some t =>
      if negb (_request_deadline_paused c) then c else
      mkClock (Some (now + default (Z.max 0 t) (_request_timeout_remaining c)))
        (_request_timeout_remaining c) false
  end.

(** The fresh budget of an authenticated cycle, then [_resume_request_deadline]. *)
Definition start_cycle (timeout : option Z) (now : Z) (c : clock) : clock :=
  _resume_request_deadline timeout now
    match timeout with
    | None => c
    | Some t => mkClock (_request_deadline c) (Some (Z.max 0 t)) (_request_deadline_paused c)
    end.

(** The deadlines fixed at submission. *)
Record deadlines : Type := mkDeadlines {
  request_deadline : option Z;
  authorization_deadline : option Z;
  submission_deadline : option Z;
  dispatch_deadline : option Z
}.

Definition after (now : Z) (limit : option Z) : option Z := (fun l => now + Z.max l 0) <$> limit.

(** [applies]: the answer of [_authorization_deadline_applies]. *)
Definition submit_deadlines (timeout auth_timeout : option Z) (applies : option bool) (now : Z) : deadlines :=
  let request := after now timeout in
  let authorization := if bool_decide (applies = Some true) then after now auth_timeout else None in
  mkDeadlines request authorization
    match applies with
    | Some true => after now auth_timeout
    | Some false => after now timeout
    | None => None
    end
    (if bool_decide (applies = Some true) then min_deadline request authorization else None).

(** [_authorization_deadline_applies]: [probe] is the answer of the channel's
    probe, if it has one. *)
Definition _authorization_deadline_applies (disabled : bool) (probe : option (option bool)) : option bool :=
  if disabled then Some false else match probe with None => None | Some r => r end.

(** [_sync_wait_timeout()]; [grace] is the 0.2 seconds the wait adds. *)
Definition _sync_wait_timeout (timeout auth_timeout : option Z) (fut : future) (submission : option Z)
    (applies : option bool) (now grace : Z) : option Z :=
  match fut with
  | NoFuture =>
      match applies with
      | None => None
      | Some a => (fun l => Z.max 0 l + grace) <$> (if a then auth_timeout else timeout)
      end
  | _ => (fun d => Z.max 0 (d - now) + grace) <$> submission
  end.
