(* ===== verification/RequestLoop.v ===== *)
(** * The loops of a request as a state machine

    [_retry_loop] and [_request_with_authorization_loop_impl] of
    [src/nebius/aio/request.py], one owner step per piece of code between two
    points where another thread or the clock can interfere, on the flags and
    deadlines of [Request]. *)
From stdpp Require Import relations.
From S2P Require Import Prelude Request.

(** What the classification of a failed attempt finds: whether the native error
    may be retried by its code or its hints, and for the exception that comes
    out of the conversion whether it is retriable; whether they are
    UNAUTHENTICATED. *)
Record failure : Type := mkFailure {
  raw_retriable : bool;
  retriable : bool;
  raw_unauthenticated : bool;
  unauthenticated : bool
}.

(** The end of a native call.  After a success the completion of the request,
    which reads metadata and wraps the result, may fail. *)
Inductive outcome : Type :=
| Success (completion : option failure)
| Failure (x : failure).

Inductive ending : Type := Returned | CancelledEnd | TimedOut | Failed.

Inductive phase : Type :=
| PIdle                      (** not submitted *)
| PStart                     (** submitted *)
| PAuth                      (** the head of the authorization loop *)
| PAuthWait                  (** awaiting [authenticate] *)
| PHead                      (** [while not self._cancelled] *)
| PTimeout                   (** the timeout of the attempt *)
| PCheck (timeout : option Z) (** [_send] up to its test of [_cancelled] *)
| POpen (timeout : option Z) (** [_send] after it *)
| PFlight                    (** awaiting the native call *)
| PDone (o : outcome)        (** the call is finished, the owner not resumed *)
| PComplete (completion : option failure)
| PFail (x : failure)        (** in [except Exception] *)
| PDecide (x : failure) (retry : bool) (** before its locked section *)
| PAuthDecide                (** UNAUTHENTICATED in the authorization loop *)
| PEnd (e : ending).

Record state : Type := mkState {
  fl : flags;
  fut : future;
  task_cancel : bool;        (** the wrapper task is asked to cancel *)
  ph : phase;
  attempt : Z;
  now : Z;
  clk : clock;
  deadline : option Z;       (** of the current retry loop *)
  cycles : Z;                (** retry loops started *)
  opened : Z;                (** attempts that passed the test of [_send] *)
  accepted : bool            (** a cancellation was accepted *)
}.

Definition with_phase (p : phase) (s : state) : state :=
  mkState (fl s) (fut s) (task_cancel s) p (attempt s) (now s) (clk s) (deadline s) (cycles s) (opened s) (accepted s).
Definition with_flags (f : flags) (s : state) : state :=
  mkState f (fut s) (task_cancel s) (ph s) (attempt s) (now s) (clk s) (deadline s) (cycles s) (opened s) (accepted s).
Definition with_future (x : future) (s : state) : state :=
  mkState (fl s) x (task_cancel s) (ph s) (attempt s) (now s) (clk s) (deadline s) (cycles s) (opened s) (accepted s).
Definition with_attempt (n : Z) (s : state) : state :=
  mkState (fl s) (fut s) (task_cancel s) (ph s) n (now s) (clk s) (deadline s) (cycles s) (opened s) (accepted s).
Definition with_now (t : Z) (s : state) : state :=
  mkState (fl s) (fut s) (task_cancel s) (ph s) (attempt s) t (clk s) (deadline s) (cycles s) (opened s) (accepted s).
Definition with_clock (c : clock) (s : state) : state :=
  mkState (fl s) (fut s) (task_cancel s) (ph s) (attempt s) (now s) c (deadline s) (cycles s) (opened s) (accepted s).
Definition count_opened (s : state) : state :=
  mkState (fl s) (fut s) (task_cancel s) (ph s) (attempt s) (now s) (clk s) (deadline s) (cycles s) (opened s + 1)
    (accepted s).
(** A new retry loop with its clock and deadline. *)
Definition new_loop (c : clock) (d : option Z) (s : state) : state :=
  mkState (fl s) (fut s) (task_cancel s) PHead 0 (now s) c d (cycles s + 1) (opened s) (accepted s).
(** A cancellation: its flags, whether it reached the task and was accepted. *)
Definition with_cancel (f : flags) (reached ok : bool) (s : state) : state :=
  mkState f (fut s) (task_cancel s || reached) (ph s) (attempt s) (now s) (clk s) (deadline s) (cycles s) (opened s)
    (accepted s || ok).

Definition initial (t : Z) : state :=
  mkState new_flags NoFuture false PIdle 0 t (mkClock None None false) None 0 0 false.

Section Loop.
(** The configuration: [provider] says that requests authorize, [timeout],
    [auth_deadline], [per_retry_timeout] and [retries] are the budgets. *)
Context (provider : bool) (timeout auth_deadline per_retry_timeout retries : option Z).

Definition time_left (s : state) : bool :=
  match deadline s with None => true | Some d => now s <? d end.

Definition attempts_left (s : state) : bool :=
  match retries with None => true | Some r => attempt s <? r end.

(** [could_retry] and [awaiting_auth_retry] of a native error *)
Definition could_retry (x : failure) (s : state) : bool := time_left s && raw_retriable x && attempts_left s.
Definition awaiting_auth_retry (x : failure) (s : state) : bool :=
  provider && time_left s && raw_unauthenticated x.

(** [retry] and [deferred_unauthenticated] of the exception *)
Definition wants_retry (x : failure) (s : state) : bool := time_left s && retriable x && attempts_left s.
Definition deferred (x : failure) : bool := provider && unauthenticated x.

Definition cancelled_failure : failure := mkFailure false false false false.

(** Submission and the authorization loop. *)
Inductive auth_step : state -> state -> Prop :=
| submit s : ph s = PIdle ->
    auth_step s (with_phase PStart (with_future Running (with_clock (mkClock (after (now s) timeout) None false) s)))
| start_cancelled s : ph s = PStart -> task_cancel s = true -> auth_step s (with_phase (PEnd CancelledEnd) s)
| start_late s d : ph s = PStart -> provider = true ->
    min_deadline (_request_deadline (clk s)) auth_deadline = Some d -> d <= now s ->
    auth_step s (with_phase (PEnd TimedOut) (with_flags (set_cancelled true (fl s)) s))
| start_plain s : ph s = PStart -> provider = false ->
    auth_step s (new_loop (clk s) (loop_deadline (_request_deadline (clk s)) timeout None (now s)) s)
| start_auth s : ph s = PStart -> provider = true ->
    match min_deadline (_request_deadline (clk s)) auth_deadline with Some d => now s < d | None => True end ->
    auth_step s (with_phase PAuth (with_clock (_pause_request_deadline timeout (now s) (clk s)) s))
| auth_timeout s d : ph s = PAuth -> auth_deadline = Some d -> d <= now s -> auth_step s (with_phase (PEnd TimedOut) s)
| auth_begin s : ph s = PAuth -> match auth_deadline with Some d => now s < d | None => True end ->
    auth_step s (with_phase PAuthWait s)
| auth_ok s c : ph s = PAuthWait -> start_cycle timeout (now s) (clk s) = c ->
    auth_step s (new_loop c (loop_deadline (_request_deadline c) timeout auth_deadline (now s)) s)
| auth_again s : ph s = PAuthWait -> auth_step s (with_phase PAuth s)
| auth_failed s : ph s = PAuthWait -> auth_step s (with_phase (PEnd Failed) s)
| auth_failed_late s d c f : ph s = PAuthWait -> auth_deadline = Some d -> d <= now s ->
    _resolve_authorization_retry false (fl s) = (c, f) -> auth_step s (with_phase (PEnd Failed) (with_flags f s))
| auth_cancelled s : ph s = PAuthWait -> task_cancel s = true -> auth_step s (with_phase (PEnd CancelledEnd) s)
| auth_final s c f : ph s = PAuthDecide -> _resolve_authorization_retry false (fl s) = (c, f) ->
    auth_step s (with_phase (PEnd Failed) (with_flags f s))
| auth_retry s c f : ph s = PAuthDecide -> match auth_deadline with Some d => now s < d | None => True end ->
    _resolve_authorization_retry true (fl s) = (c, f) ->
    auth_step s (with_phase (if c then PEnd CancelledEnd else PAuth) (with_flags f s)).

(** The retry loop. *)
Inductive retry_step : state -> state -> Prop :=
| head_stop s : ph s = PHead -> _cancelled (fl s) = true -> retry_step s (with_phase (PEnd CancelledEnd) s)
| head_go s : ph s = PHead -> _cancelled (fl s) = false ->
    retry_step s (with_phase PTimeout (with_attempt (attempt s + 1) s))
| timeout_passed s e t2 : ph s = PTimeout ->
    attempt_timeout retries per_retry_timeout (deadline s) (now s) t2 = Raise e ->
    retry_step s (with_phase (PEnd TimedOut) s)
| timeout_set s t t2 : ph s = PTimeout -> now s <= t2 ->
    attempt_timeout retries per_retry_timeout (deadline s) (now s) t2 = Ok t ->
    retry_step s (with_phase (PCheck t) (with_now t2 s))
| check_stop s t : ph s = PCheck t -> _cancelled (fl s) = true ->
    retry_step s (with_phase (PFail cancelled_failure) s)
| check_go s t : ph s = PCheck t -> _cancelled (fl s) = false ->
    retry_step s (with_phase (POpen t) (count_opened s))
| open_failed s t x : ph s = POpen t -> retry_step s (with_phase (PFail x) s)
| open_call s t : ph s = POpen t -> retry_step s (with_phase PFlight s)
| flight_cancelled s : ph s = PFlight -> task_cancel s = true -> _native_attempt_terminal (fl s) = false ->
    retry_step s (with_phase (PEnd CancelledEnd) s)
| done_success s c : ph s = PDone (Success c) ->
    retry_step s (with_phase (PComplete c) (with_flags (on_success (fl s)) s))
| complete_ok s : ph s = PComplete None -> retry_step s (with_phase (PEnd Returned) s)
| complete_failed s x : ph s = PComplete (Some x) -> retry_step s (with_phase (PFail x) s)
| done_failure s x : ph s = PDone (Failure x) ->
    retry_step s (with_phase (PFail x)
      (with_flags (on_native_error (could_retry x s) (awaiting_auth_retry x s) (fl s)) s))
| fail_decide s x : ph s = PFail x -> retry_step s (with_phase (PDecide x (wants_retry x s)) s)
| decide_end s x r r' c f : ph s = PDecide x r -> on_attempt_error r (deferred x) (fl s) = (r', c, f) ->
    retry_step s (with_phase
      (if c then PEnd CancelledEnd else if r' then PHead else if deferred x then PAuthDecide else PEnd Failed)
      (with_clock (if negb provider || r' && negb c then clk s else _pause_request_deadline timeout (now s) (clk s))
        (with_flags f s))).

Definition owner_step (s s' : state) : Prop := auth_step s s' \/ retry_step s s'.

(** The environment: the native call finishes, and its callback runs, which
    after a cancellation can come late; another thread cancels; a waiter
    expires; the result of a finished request is published; time passes. *)
Inductive native_step : state -> state -> Prop :=
| native_done s o : ph s = PFlight ->
    native_step s (with_phase (PDone o) (with_flags (_mark_native_attempt_terminal true (fl s)) s)).

Inductive outside_step : state -> state -> Prop :=
| outside_cancel s answer f reached fut_cancel :
    (fut_cancel = true -> fut s = Running) ->
    cancel (fl s) (fut s) fut_cancel = (answer, f, reached) ->
    outside_step s (with_cancel f reached answer s)
| outside_expire s answer f reached ok fut_cancel completed :
    (fut_cancel = true -> fut s = Running) ->
    _expire_wait (fl s) (fut s) fut_cancel completed = (answer, f, reached, ok) ->
    outside_step s (with_cancel f reached ok s)
| outside_late s : ph s = PEnd CancelledEnd ->
    outside_step s (with_flags (_mark_native_attempt_terminal true (fl s)) s)
| outside_finish s e c : ph s = PEnd e -> outside_step s (with_future (Finished c) s)
| outside_tick s t : now s <= t -> outside_step s (with_now t s).

Definition step (s s' : state) : Prop := owner_step s s' \/ native_step s s' \/ outside_step s s'.

Definition reachable (s : state) : Prop := exists t, rtc step (initial t) s.

(** ** Cancellation *)

(** The conversion of a native error never makes it more retriable. *)
Definition coherent (x : failure) : Prop :=
  (retriable x = true -> raw_retriable x = true) /\
  (unauthenticated x = true -> raw_unauthenticated x = true).

(** A failure that ends the request. *)
Definition quiet (x : failure) : Prop := retriable x = false /\ unauthenticated x = false.

(** A call has succeeded, which takes back a cancellation that was accepted since, but
    the completion of the request fails with an error that may lead to a retry. *)
Definition reopens (s : state) : Prop := exists x, ph s = PComplete (Some x) /\ ~ quiet x.

Lemma quiet_dec x : quiet x \/ ~ quiet x.
Proof. unfold quiet. destruct (retriable x), (unauthenticated x); naive_solver. Qed.

(** Native errors are coherent ([native_errors_coherent] of [RequestTheorems] shows
    that their classification makes them so), and no service status comes before there is
    a call. *)
Definition coherent_step (s s' : state) : Prop :=
  step s s' /\
  match ph s' with PDone (Failure x) => coherent x | _ => True end /\
  match ph s, ph s' with POpen _, PFail x => unauthenticated x = false | _, _ => True end.

Definition in_loop (p : phase) : bool :=
  match p with PIdle | PStart | PAuth | PAuthWait | PEnd _ => false | _ => true end.

(** A deferred failure is terminal; when a cancellation was accepted its decision is open
    unless the time is over. *)
Definition deferred_ok (s : state) : Prop :=
  _native_terminal (fl s) = true /\
  (accepted s = true -> _retry_decision_pending (fl s) = true \/ time_left s = false).

Definition deferred_inv (s : state) : Prop :=
  match ph s with
  | PDone (Failure x) => coherent x
  | PComplete _ => _native_terminal (fl s) = true
  | PFail x | PDecide x _ => deferred x = true -> deferred_ok s
  | PAuthDecide => provider = true /\ deferred_ok s
  | _ => True
  end.

(** An accepted cancellation is still recorded, or nothing is sent any more. *)
Definition accepted_inv (s : state) : Prop :=
  accepted s = true ->
  match ph s with
  | PComplete (Some x) => quiet x
  | PComplete None | PEnd _ => True
  | PFail x => _cancelled (fl s) = true \/
      (wants_retry x s = false /\ (deferred x = true -> time_left s = false))
  | PDecide x r => _cancelled (fl s) = true \/ (r = false /\ (deferred x = true -> time_left s = false))
  | PAuthDecide => (_cancelled (fl s) = true /\ _retry_decision_pending (fl s) = true) \/ time_left s = false
  | _ => _cancelled (fl s) = true
  end.

Record cancel_inv (s : state) : Prop := {
  ci_clock : timeout = None -> _request_deadline (clk s) = None;
  ci_deadline : timeout = None -> provider = true -> in_loop (ph s) = true -> deadline s = auth_deadline;
  ci_deferred : deferred_inv s;
  ci_accepted : accepted_inv s
}.

Lemma wants_could x s : coherent x -> wants_retry x s = true -> could_retry x s = true.
Proof. intros [Hc _]. unfold wants_retry, could_retry. destruct (retriable x); [rewrite Hc by done; done|]. by rewrite andb_false_r. Qed.

(** What the locked section keeps. *)
Lemma on_attempt_error_keeps r d f r' c f' :
  on_attempt_error r d f = (r', c, f') ->
  (r' = true -> r = true /\ _cancelled f' = _cancelled f) /\
  (r' = false -> d = true -> _cancelled f' = _cancelled f /\
     _retry_decision_pending f' = _retry_decision_pending f /\
     (_native_terminal f = true -> _native_terminal f' = true)).
Proof. destruct f as [[] [] [] [] [] []], r, d; cbn; intros [= <- <- <-]; auto. Qed.

Lemma clock_step s s' :
  owner_step s s' -> timeout = None -> _request_deadline (clk s) = None -> _request_deadline (clk s') = None.
Proof.
  intros Hs Ht Hc. destruct Hs as [Hs|Hs]; destruct Hs; simpl; try done.
  - by rewrite Ht.
  - unfold _pause_request_deadline. by rewrite Ht.
  - subst c. unfold start_cycle, _resume_request_deadline. by rewrite Ht.
  - unfold _pause_request_deadline. rewrite Ht. by destruct (negb provider || r' && negb c).
Qed.

Lemma deadline_step s s' :
  owner_step s s' -> timeout = None -> provider = true -> _request_deadline (clk s) = None ->
  (in_loop (ph s) = true -> deadline s = auth_deadline) -> in_loop (ph s') = true -> deadline s' = auth_deadline.
Proof.
  intros Hs Ht Hp Hc Hd. destruct Hs as [Hs|Hs]; destruct Hs; simpl; try done; try congruence;
    try (intros _; apply Hd; by match goal with H : ph _ = _ |- _ => rewrite H end).
  intros _. subst c. unfold start_cycle, _resume_request_deadline, loop_deadline. rewrite Ht, Hc. simpl.
  by destruct auth_deadline.
Qed.

Lemma deferred_step s s' :
  owner_step s s' -> deferred_inv s -> accepted_inv s ->
  match ph s, ph s' with POpen _, PFail x => unauthenticated x = false | _, _ => True end ->
  deferred_inv s'.
Proof.
  intros Hs Hi Ha Ho. unfold deferred_inv, accepted_inv in *.
  destruct Hs as [Hs|Hs]; destruct Hs; simpl in *; try done;
    match goal with H : ph _ = _ |- _ => rewrite H in * end; try done.
  - by destruct c.
  - unfold deferred, cancelled_failure. simpl. by rewrite andb_false_r.
  - unfold deferred. rewrite Ho, andb_false_r. done.
  - unfold on_success. simpl. by destruct (_cancel_after_terminal_attempt (fl s)).
  - intros Hd. split; [done|]. intros Hacc. destruct (Ha Hacc) as [_ Hu]. unfold deferred in Hd. by rewrite Hu, andb_false_r in Hd.
  - intros Hd. unfold deferred in Hd. apply andb_prop in Hd as [Hp Hu].
    destruct Hi as [_ Hr]. specialize (Hr Hu). unfold deferred_ok, time_left. simpl.
    unfold on_native_error, awaiting_auth_retry. rewrite Hp, Hr. simpl.
    destruct (time_left s) eqn:Et; unfold time_left in Et; rewrite ?orb_true_r; simpl;
      destruct (_cancel_after_terminal_attempt (fl s)); simpl; auto;
      match goal with |- context [if ?b then _ else _] => destruct b end; simpl; auto.
  - destruct c; [done|]. destruct r'; [done|]. destruct (deferred x) eqn:Ed; [|done].
    destruct (on_attempt_error_keeps _ _ _ _ _ _ H0) as [_ Hk]. destruct (Hk eq_refl eq_refl) as (_ & E2 & E3).
    apply andb_prop in Ed as [Hpr _]. split; [done|]. destruct (Hi eq_refl) as [Ht Hp].
    unfold deferred_ok, time_left in *. simpl. rewrite E2. auto.
Qed.

Lemma accepted_step s s' :
  owner_step s s' -> deferred_inv s ->
  (provider = true -> in_loop (ph s) = true -> deadline s = auth_deadline) ->
  ~ reopens s' -> accepted_inv s -> accepted_inv s'.
Proof.
  intros Hs Hi Hd Hre Ha Hacc. assert (Hacc0 : accepted s = true) by (by destruct Hs as [Hs|Hs]; destruct Hs).
  specialize (Ha Hacc0). unfold deferred_inv in Hi.
  destruct Hs as [Hs|Hs]; destruct Hs; simpl in *; try done;
    match goal with H : ph _ = _ |- _ => rewrite H in * end; try done; try (left; done); try congruence.
  - (* the authorization loop *)
    unfold _resolve_authorization_retry in *. simplify_eq. simpl.
    destruct Ha as [[Hc Hp]|Ht]; [by rewrite Hc, Hp|]. exfalso.
    destruct Hi as [Hpr _]. unfold time_left in Ht. rewrite (Hd Hpr eq_refl) in Ht.
    destruct auth_deadline; [|done]. lia.
  - (* a call has succeeded *)
    destruct c as [x|]; [|done]. destruct (quiet_dec x) as [Hx|Hx]; [done|]. destruct Hre. by exists x.
  - (* completion failed *)
    destruct Ha as [Hr Hu]. right. unfold wants_retry, deferred. rewrite Hr, Hu.
    rewrite !andb_false_r. done.
  - (* native error *)
    unfold on_native_error. set (b := could_retry x s || awaiting_auth_retry x s).
    destruct (_cancel_after_terminal_attempt (fl s)) eqn:Eca, b eqn:Eb; simpl; rewrite ?Eca; simpl; auto.
    right. apply orb_false_iff in Eb as [E1 E2]. split.
    + destruct (wants_retry x s) eqn:Ew; [|done]. by rewrite (wants_could x s Hi Ew) in E1.
    + intros [Hp Hu]%andb_prop. destruct Hi as [_ Hr]. specialize (Hr Hu).
      unfold awaiting_auth_retry in E2. rewrite Hp, Hr, andb_true_r in E2. done.
  - (* the locked section *)
    destruct c; [done|]. destruct (on_attempt_error_keeps _ _ _ _ _ _ H0) as [K1 K2]. destruct r'.
    + destruct (K1 eq_refl) as [-> ->]. by destruct Ha as [Ha|[? _]].
    + destruct (deferred x) eqn:Ed; [|done]. destruct (K2 eq_refl eq_refl) as (-> & -> & _).
      destruct (Hi eq_refl) as [_ Hp]. destruct Ha as [Ha|[_ Hl]]; [|right; by apply Hl].
      destruct (Hp Hacc0) as [?|?]; [by left|by right].
Qed.

(** What a cancellation does to the flags. *)
Definition cancels (ok : bool) (f f' : flags) : Prop :=
  _native_terminal f' = _native_terminal f /\ _retry_decision_pending f' = _retry_decision_pending f /\
  (_cancelled f = true -> _cancelled f' = true) /\
  (ok = true -> _cancelled f' = true /\ (_native_terminal f = true -> _retry_decision_pending f = true)).

Lemma cancel_cancels f x b ok f' r : cancel f x b = (ok, f', r) -> cancels ok f f'.
Proof.
  unfold cancels. destruct f as [[] [] [] [] [] []], x, b; cbn; intros [= <- <- <-]; cbn; auto.
Qed.

Lemma expire_cancels f x b d a f' r ok : _expire_wait f x b d = (a, f', r, ok) -> cancels ok f f'.
Proof.
  unfold cancels. destruct f as [[] [] [] [] [] []], x, b; cbn; intros [= <- <- <- <-]; cbn; auto.
Qed.

Lemma time_left_cancel f r ok s : time_left (with_cancel f r ok s) = time_left s.
Proof. done. Qed.

Lemma cancel_inv_cancel f r ok s :
  cancels ok (fl s) f -> ~ (accepted s || ok = true /\ reopens s) -> cancel_inv s -> cancel_inv (with_cancel f r ok s).
Proof.
  intros (Ht & Hp & Hc & Ha) Hre [I1 I2 I3 I4]. split; [done|done| |].
  - assert (deferred_ok s -> deferred_ok (with_cancel f r ok s)) as Hd.
    { intros [H1 H2]. unfold deferred_ok. cbn [with_cancel fl accepted]. rewrite Ht, Hp. split; [done|].
      intros [Hacc|Hok]%orb_prop; [exact (H2 Hacc)|left; by apply Ha]. }
    unfold deferred_inv in *. cbn [with_cancel ph fl]. rewrite Ht. destruct (ph s); try done; [auto|auto|].
    destruct I3. by split; [|apply Hd].
  - unfold accepted_inv, deferred_inv, deferred_ok in *. cbn [with_cancel ph fl accepted].
    intros H. pose proof H as [Hacc|Hacc]%orb_prop.
    + specialize (I4 Hacc). destruct (ph s); auto; rewrite ?Hp; destruct I4; auto. destruct H0; auto.
    + destruct (Ha Hacc) as [E1 E2]. destruct (ph s) as [| | | | | |?|?| |?|[x|]|?|? ?| |?] eqn:Eph; auto.
      * destruct (quiet_dec x) as [|Hx]; [done|]. destruct Hre. split; [done|]. by exists x.
      * rewrite Hp. destruct I3 as (_ & Hnt & I3). left. auto.
Qed.

Lemma cancel_inv_tick t s : now s <= t -> cancel_inv s -> cancel_inv (with_now t s).
Proof.
  intros Hn [I1 I2 I3 I4].
  assert (Hl : time_left (with_now t s) = true -> time_left s = true).
  { unfold time_left. simpl. destruct (deadline s); [|done]. lia. }
  assert (Hf : time_left s = false -> time_left (with_now t s) = false).
  { destruct (time_left (with_now t s)); [|done]. intros E. by rewrite Hl in E. }
  split; [done|done| |].
  - unfold deferred_inv, deferred_ok in *. cbn [with_now ph fl]. destruct (ph s); try done; naive_solver.
  - unfold accepted_inv in *. cbn [with_now ph fl accepted]. intros H. specialize (I4 H).
    destruct (ph s); try done; [|naive_solver..]. destruct I4 as [I4|[I4 I5]]; [by left|right].
    split; [|auto]. unfold wants_retry in *. destruct (time_left (with_now t s)) eqn:E; [|done].
    by rewrite (Hl eq_refl) in I4.
Qed.

Lemma cancel_inv_step s s' :
  (provider = true -> timeout = None) -> coherent_step s s' -> ~ (accepted s' = true /\ reopens s') -> cancel_inv s -> cancel_inv s'.
Proof.
  intros Hconf ([Hs|[Hs|Hs]] & Hco & Ho) Hre Hi; pose proof Hi as [I1 I2 I3 I4].
  - split.
    + intros Ht. by eapply clock_step; [|done|apply I1].
    + intros Ht Hp. eapply deadline_step; eauto.
    + by eapply deferred_step.
    + destruct (accepted s') eqn:Ea; [|by intros E; rewrite Ea in E].
      eapply accepted_step; eauto.
  - destruct Hs as [s o Hph]. simpl in *. split; simpl; [done| | |].
    + intros Ht Hp _. apply I2; [done..|]. by rewrite Hph.
    + unfold deferred_inv. simpl. by destruct o.
    + unfold accepted_inv in *. simpl. rewrite Hph in I4. intros Hacc. specialize (I4 Hacc).
      unfold _mark_native_attempt_terminal. by destruct (_native_terminal (fl s)).
  - destruct Hs as [s a f r b _ Hc|s a f r ok b d _ Hc|s Hph|s e c Hph|s t Ht].
    + apply cancel_inv_cancel; [by eapply cancel_cancels|exact Hre|done].
    + apply cancel_inv_cancel; [by eapply expire_cancels|exact Hre|done].
    + split; [done|done| |]; unfold deferred_inv, accepted_inv in *; simpl; by rewrite Hph.
    + split; [done|done| |]; unfold deferred_inv, accepted_inv in *; simpl; by rewrite Hph.
    + by apply cancel_inv_tick.
Qed.

Lemma cancel_inv_initial t : cancel_inv (initial t).
Proof. split; done. Qed.

(** After an accepted cancellation no attempt passes the test of [_send]. *)
Lemma accepted_opens_nothing s s' :
  coherent_step s s' -> cancel_inv s -> accepted s = true -> opened s' = opened s /\ accepted s' = true.
Proof.
  intros ([Hs|[Hs|Hs]] & _) [_ _ _ I4] Hacc; specialize (I4 Hacc).
  - destruct Hs as [Hs|Hs]; destruct Hs; simpl; try done. rewrite H in I4. congruence.
  - by destruct Hs.
  - destruct Hs; simpl; try done; by rewrite Hacc.
Qed.

(** The run to [s] has reopened a request whose cancellation was accepted. *)
Definition reopened (t : Z) (s : state) : Prop :=
  exists m, rtc coherent_step (initial t) m /\ accepted m = true /\ reopens m /\ rtc coherent_step m s.

Lemma reopens_dec s : reopens s \/ ~ reopens s.
Proof.
  unfold reopens. destruct (ph s) as [| | | | | |?|?| |?|[x|]|?|? ?| |?]; try (right; intros (y & Hy & _); congruence).
  destruct (quiet_dec x) as [Hx|Hx]; [right|left; by exists x]. by intros (y & [= <-] & Hy).
Qed.

Lemma cancel_inv_run t s :
  (provider = true -> timeout = None) -> rtc coherent_step (initial t) s -> cancel_inv s \/ reopened t s.
Proof.
  intros Hc Hr. apply (rtc_ind_r (R := coherent_step) (fun s => cancel_inv s \/ reopened t s) (initial t)); [left; apply cancel_inv_initial| |exact Hr].
  clear s Hr. intros s s' Hr Hs [Hi|(m & H1 & H2 & H3 & H4)]; [|right; exists m; split_and!; [done..|by eapply rtc_r]].
  destruct (reopens_dec s') as [Hre|Hre], (accepted s') eqn:Ha.
  - right. exists s'. split_and!; [by eapply rtc_r|done..|apply rtc_refl].
  - left. eapply cancel_inv_step; [done..| |done]. intros [E _]. congruence.
  - left. eapply cancel_inv_step; [done..| |done]. by intros [_ E].
  - left. eapply cancel_inv_step; [done..| |done]. by intros [_ E].
Qed.

(** C10: After a cancellation was accepted, by [cancel] or by an expired waiter,
    no further attempt of the request is sent, whatever the threads and the
    native calls do next, for requests without authorization, and for those
    with an unlimited request timeout: with one exception, that the call the
    cancellation came too late for has succeeded, and the completion of the request
    fails with an error that is retriable or UNAUTHENTICATED.  ([completion_reopens] of
    [RequestTheorems] shows that the exception is real.) *)
Theorem cancel_prevents_attempts t s s' :
  (provider = true -> timeout = None) ->
  rtc coherent_step (initial t) s -> accepted s = true -> rtc coherent_step s s' ->
  opened s' = opened s \/
  exists m x, rtc coherent_step (initial t) m /\ rtc coherent_step m s' /\
    accepted m = true /\ ph m = PComplete (Some x) /\ (retriable x = true \/ unauthenticated x = true).
Proof.
  intros Hconf H1 Hacc H2.
  assert (opened s' = opened s \/ reopened t s') as [?|(m & Hm & Ha & (x & Hx & Hq) & Hm')]; [|by left|].
  - revert H1 Hacc. induction H2 as [s|s s1 s2 Hs Hr IH]; intros H1 Hacc; [by left|].
    destruct (cancel_inv_run t s Hconf H1) as [Hi|(m & M1 & M2 & M3 & M4)].
    + destruct (accepted_opens_nothing _ _ Hs Hi Hacc) as [<- Hacc1]. apply IH; [by eapply rtc_r|done].
    + right. exists m. split_and!; [done..|]. etransitivity; [exact M4|]. by eapply rtc_l.
  - right. exists m, x. split_and!; [done..|]. unfold quiet in Hq. destruct (retriable x), (unauthenticated x); naive_solver.
Qed.

(** ** The number of attempts *)

(** The attempts one retry loop may make. *)
Definition limit (r : Z) : Z := Z.max 1 r.

Definition attempts_inv (r : Z) (s : state) : Prop :=
  (cycles s = 0 /\ attempt s = 0 /\ opened s <= 0 /\ in_loop (ph s) = false) \/
  (1 <= cycles s /\ 0 <= attempt s <= limit r /\
   opened s <= (cycles s - 1) * limit r +
     match ph s with PTimeout | PCheck _ => attempt s - 1 | _ => attempt s end /\
   match ph s with
   | PIdle | PStart => False
   | PHead => attempt s = 0 \/ attempt s < r
   | PTimeout | PCheck _ => 1 <= attempt s
   | PDecide _ true => attempt s < r
   | _ => True
   end).

Lemma attempts_step r s s' :
  retries = Some r -> owner_step s s' -> attempts_inv r s -> attempts_inv r s'.
Proof.
  intros Hr Hs. unfold attempts_inv, limit.
  destruct Hs as [Hs|Hs]; destruct Hs; simpl; match goal with H : ph _ = _ |- _ => rewrite H; simpl end; try lia.
  - destruct c; simpl; lia.
  - (* the retry is wanted *)
    unfold wants_retry, attempts_left. rewrite Hr. destruct (time_left s && retriable x); simpl; [|lia].
    destruct (attempt s <? r) eqn:E; simpl; lia.
  - destruct (on_attempt_error_keeps _ _ _ _ _ _ H0) as [K1 _].
    destruct c; [simpl; destruct r0; lia|]. destruct r'; [destruct (K1 eq_refl) as [-> _]; simpl; lia|].
    destruct (deferred x), r0; simpl; lia.
Qed.

Lemma attempts_other r s s' :
  native_step s s' \/ outside_step s s' -> attempts_inv r s -> attempts_inv r s'.
Proof.
  unfold attempts_inv. intros [Hs|Hs]; destruct Hs; simpl; try done.
  rewrite H. simpl. lia.
Qed.

Lemma attempts_rtc r s s' : retries = Some r -> rtc step s s' -> attempts_inv r s -> attempts_inv r s'.
Proof.
  intros Hr. induction 1 as [|s s1 s2 [Hs|Hs] _ IH]; [done| |]; intros Hi; apply IH.
  - by eapply attempts_step.
  - by eapply attempts_other.
Qed.

(** ** Termination *)

Definition rank (p : phase) : Z :=
  match p with
  | PIdle => 3 | PStart => 2 | PAuth => 1 | PAuthWait => 1 | PHead => 1 | PTimeout => 9 | PCheck _ => 8 | POpen _ => 7
  | PFlight => 6 | PDone _ => 5 | PComplete _ => 4 | PFail _ => 3 | PDecide _ _ => 2 | PAuthDecide => 1
  | PEnd _ => 0
  end.

(** The steps the request itself can still make. *)
Definition measure (r : Z) (s : state) : Z :=
  match ph s with PEnd _ => 0 | p => 10 * (limit r - attempt s) + rank p end.

Lemma measure_range r s : attempts_inv r s -> 0 <= measure r s <= 10 * limit r + 9.
Proof. unfold measure, attempts_inv, limit. destruct (ph s); simpl; lia. Qed.

Definition plain_phase (p : phase) : bool :=
  match p with PAuth | PAuthWait | PAuthDecide => false | _ => true end.

Record plain_inv (r : Z) (s : state) : Prop := {
  pi_attempts : attempts_inv r s;
  pi_phase : plain_phase (ph s) = true
}.

Lemma plain_step r s s' :
  provider = false -> retries = Some r -> owner_step s s' \/ native_step s s' -> plain_inv r s -> plain_inv r s'.
Proof.
  intros Hp Hr Hs [H1 H2]. split.
  { destruct Hs; [by eapply attempts_step|]. eapply attempts_other; eauto. }
  destruct Hs as [[Hs|Hs]|Hs]; destruct Hs; simpl; try done; try congruence;
    match goal with H : ph _ = _ |- _ => rewrite H in * end; try done.
  unfold deferred in *. rewrite Hp. simpl. by destruct c, r'.
Qed.

Lemma measure_step r s s' :
  provider = false -> retries = Some r -> plain_inv r s -> owner_step s s' \/ native_step s s' ->
  0 <= measure r s' < measure r s.
Proof.
  intros Hp Hr Hi Hs. pose proof (plain_step r s s' Hp Hr Hs Hi) as [Hi' _]. destruct Hi as [Hi Hpl].
  unfold attempts_inv, limit in *. unfold measure, limit.
  destruct Hs as [[Hs|Hs]|Hs]; destruct Hs; simpl in *;
    match goal with H : ph _ = _ |- _ => rewrite H in *; simpl in * end; try congruence; try lia.
  destruct (on_attempt_error_keeps _ _ _ _ _ _ H0) as [K1 _].
  destruct c; [simpl; lia|]. destruct r'; [destruct (K1 eq_refl) as [-> _]; simpl in *; lia|].
  unfold deferred in *. rewrite Hp in *. simpl in *. lia.
Qed.

(** A run with [k] steps of the request and its native calls, and any number of
    steps of the outside in between. *)
Inductive run : nat -> state -> state -> Prop :=
| run_nil s : run 0 s s
| run_own k s s1 s2 : owner_step s s1 \/ native_step s s1 -> run k s1 s2 -> run (S k) s s2
| run_outside k s s1 s2 : outside_step s s1 -> run k s1 s2 -> run k s s2.

Lemma measure_outside r s s' : outside_step s s' -> measure r s' = measure r s.
Proof. by destruct 1. Qed.

Lemma plain_outside r s s' : outside_step s s' -> plain_inv r s -> plain_inv r s'.
Proof. intros Hs [H1 H2]. split; [eapply attempts_other; eauto|by destruct Hs]. Qed.

Lemma run_bound r k s s' :
  provider = false -> retries = Some r -> plain_inv r s -> run k s s' ->
  Z.of_nat k + measure r s' <= measure r s.
Proof.
  intros Hp Hr Hi Hrun. revert Hi. induction Hrun as [s|k s s1 s2 Hs _ IH|k s s1 s2 Hs _ IH]; intros Hi; [lia|..].
  - pose proof (measure_step r s s1 Hp Hr Hi Hs). pose proof (IH (plain_step r s s1 Hp Hr Hs Hi)). lia.
  - rewrite <- (measure_outside r s s1 Hs). apply IH. by eapply plain_outside.
Qed.

(** Every unfinished request can go on; only a native call is waited for. *)
Lemma can_step s : (forall e, ph s <> PEnd e) -> exists s', owner_step s s' \/ native_step s s'.
Proof.
  intros Hne. destruct (ph s) as [| | | | | |t|t| |o|c|x|x r| |e] eqn:E.
  - eexists. left; left; by apply submit.
  - destruct provider eqn:Ep; [|eexists; left; left; by apply start_plain].
    destruct (min_deadline (_request_deadline (clk s)) auth_deadline) as [d|] eqn:Ed.
    + destruct (decide (d <= now s)); [eexists; left; left; by eapply start_late|].
      eexists; left; left; apply start_auth; [done..|]. rewrite Ed. lia.
    + eexists; left; left; apply start_auth; [done..|]. by rewrite Ed.
  - destruct auth_deadline as [d|] eqn:Ed; [destruct (decide (d <= now s))|].
    + eexists; left; left; by eapply auth_timeout.
    + eexists; left; left; apply auth_begin; [done|]. rewrite Ed. lia.
    + eexists; left; left; apply auth_begin; [done|]. by rewrite Ed.
  - eexists; left; left; by apply auth_failed.
  - destruct (_cancelled (fl s)) eqn:Ec; eexists; left; right; [by apply head_stop|by apply head_go].
  - destruct (attempt_timeout retries per_retry_timeout (deadline s) (now s) (now s)) eqn:Et;
      eexists; left; right; [by eapply timeout_set|by eapply timeout_passed].
  - destruct (_cancelled (fl s)) eqn:Ec; eexists; left; right; [by eapply check_stop|by eapply check_go].
  - eexists; left; right; by eapply open_call.
  - eexists; right; by apply (native_done _ (Success None)).
  - destruct o as [c|x]; eexists; left; right; [by apply done_success|by apply done_failure].
  - destruct c as [x|]; eexists; left; right; [by apply complete_failed|by apply complete_ok].
  - eexists; left; right; by apply fail_decide.
  - destruct (on_attempt_error r (deferred x) (fl s)) as [[r' c] f] eqn:Eo.
    eexists; left; right; by eapply decide_end.
  - destruct (_resolve_authorization_retry false (fl s)) as [c f] eqn:Er.
    eexists; left; left; by eapply auth_final.
  - by destruct (Hne e).
Qed.

Lemma initial_plain r t : plain_inv r (initial t).
Proof. split; [|done]. left. done. Qed.

Lemma plain_rtc r s s' :
  provider = false -> retries = Some r -> rtc step s s' -> plain_inv r s -> plain_inv r s'.
Proof.
  intros Hp Hr. induction 1 as [|s s1 s2 [Hs|[Hs|Hs]] _ IH]; [done|..]; intros Hi; apply IH.
  - by eapply plain_step; eauto.
  - by eapply plain_step; eauto.
  - by eapply plain_outside.
Qed.

(** From a state a request without authorization can always be driven to its end. *)
Lemma run_ends r s :
  provider = false -> retries = Some r -> plain_inv r s -> exists k s' e, run k s s' /\ ph s' = PEnd e.
Proof.
  intros Hp Hr. remember (Z.to_nat (measure r s)) as n eqn:En.
  revert s En. induction n as [n IH] using lt_wf_ind. intros s En Hi.
  assert (Hend : (exists e, ph s = PEnd e) \/ forall e, ph s <> PEnd e) by (destruct (ph s); naive_solver).
  destruct Hend as [[e He]|Hne]; [by exists 0%nat, s, e; split; [constructor|]|].
  destruct (can_step s Hne) as [s1 Hs].
  pose proof (measure_step r s s1 Hp Hr Hi Hs).
  destruct (IH (Z.to_nat (measure r s1)) ltac:(lia) s1 eq_refl (plain_step r s s1 Hp Hr Hs Hi)) as (k & s' & e & H1 & H2).
  exists (S k), s', e. split; [by econstructor|done].
Qed.

(** A retry loop makes at most [max 1 retries] attempts: the attempts sent
    never exceed that bound for each loop started, and there is one loop
    without authorization. *)
Theorem attempts_bounded t s r :
  retries = Some r -> rtc step (initial t) s ->
  attempt s <= limit r /\ opened s <= cycles s * limit r /\
  (provider = false -> cycles s <= 1 /\ opened s <= limit r).
Proof.
  intros Hr Hs. pose proof (attempts_rtc r _ _ Hr Hs (or_introl (conj eq_refl (conj eq_refl (conj (Z.le_refl 0) eq_refl))))) as Hi.
  assert (Hb : attempt s <= limit r /\ opened s <= cycles s * limit r).
  { unfold attempts_inv, limit in *. destruct Hi as [Hi|(H1 & H2 & H3 & _)]; [lia|].
    destruct (ph s); lia. }
  destruct Hb as [H1 H2]. split_and!; [done..|]. intros Hp.
  assert (Hc : cycles s <= 1); [|unfold limit in *; nia].
  assert (Hone : forall s s', rtc step s s' -> (cycles s = 0 \/ (cycles s = 1 /\ match ph s with PIdle | PStart | PAuth | PAuthWait | PAuthDecide => False | _ => True end)) ->
     match ph s with PAuth | PAuthWait | PAuthDecide => False | _ => True end -> cycles s' <= 1).
  { clear -Hp. induction 1 as [s|s s1 s2 Hs _ IH]; intros Hc Hph; [lia|]. apply IH; clear IH.
    - destruct Hs as [[Hs|Hs]|[Hs|Hs]]; destruct Hs; simpl in *; try done;
        match goal with H : ph _ = _ |- _ => rewrite H in * end; try tauto; try congruence; try lia.
      unfold deferred. rewrite Hp. simpl. destruct c, r'; tauto.
    - destruct Hs as [[Hs|Hs]|[Hs|Hs]]; destruct Hs; simpl in *; try done; try congruence;
        match goal with H : ph _ = _ |- _ => rewrite H in * end; try done.
      unfold deferred. rewrite Hp. simpl. by destruct c, r'. }
  by apply (Hone _ _ Hs); [left|].
Qed.

(** C16: A request without authorization ends: with [retries] set, every run
    from the moment it is created takes a bounded number of steps of its own,
    whatever the other threads do, it is never stuck before its end except for
    a native call it waits for, and from each of its states it can reach the
    end. *)
Theorem request_ends t s r :
  provider = false -> retries = Some r -> rtc step (initial t) s ->
  (forall k s', run k s s' -> Z.of_nat k <= 10 * limit r + 9) /\
  ((forall e, ph s <> PEnd e) -> exists s', owner_step s s' \/ native_step s s') /\
  (exists k s' e, run k s s' /\ ph s' = PEnd e).
Proof.
  intros Hp Hr Hs. pose proof (plain_rtc r _ _ Hp Hr Hs (initial_plain r t)) as Hi. split_and!.
  - intros k s' Hrun. pose proof (run_bound r k s s' Hp Hr Hi Hrun) as Hk.
    assert (Hi' : plain_inv r s').
    { clear -Hp Hr Hi Hrun. induction Hrun as [|k s s1 s2 Hs _ IH|k s s1 s2 Hs _ IH]; [done|..]; apply IH;
        [by eapply plain_step|by eapply plain_outside]. }
    destruct Hi as [Hi _], Hi' as [Hi' _].
    pose proof (measure_range r s Hi). pose proof (measure_range r s' Hi'). lia.
  - apply can_step.
  - by eapply run_ends.
Qed.

End Loop.
