(* ===== verification/RequestTheorems.v ===== *)
(** * Requests: classification of errors, deadlines, instances

    How [_retry_loop] of [src/nebius/aio/request.py] classifies a native error,
    with the definitions of [ServiceError] and [RpcStatus], and why the answers
    are coherent in the sense of [RequestLoop]; the timeouts of the attempts;
    two traces on which a cancellation does not do what it should; instances. *)
From stdpp Require Import relations.
From S2P Require Import Prelude PyStr PyText Methods ServiceError RpcStatus Request RequestLoop.

(** ** Native errors *)

Section Classify.
Context {WC : WordChars} {UD : UnicodeDigits} {SC : StatusCodes} {SM : StatusMessages}.

(** An [AioRpcError]: what the call reports, the debug string, [str(err)]. *)
Record AioRpcError : Type := mkRpcError {
  reported : rpc_call;
  debug_error_string : pystr;
  error_text : pystr
}.

(** The exception object, as [is_retriable_error] sees it. *)
Definition raw_exception (e : AioRpcError) : exception :=
  mkException true false None (Method _ (Some (KMember (call_code (reported e)))))
    (Method _ (Some (call_details (reported e)))) (Method _ (Some (debug_error_string e))) (error_text e)
    None None false.

Definition _structured_error_retry_decision (has_registry : bool) (e : AioRpcError) : option bool :=
  match rpc_status_from_call has_registry (reported e) with
  | Ok (Some s) =>
      match from_rpc_status s [] [] with Ok x => retry_hint (status x) | Raise _ => None end
  | _ => None
  end.

(** The status of the [RequestError] that [_raise_request_error] raises, or the
    failure of the conversion. *)
Definition _raise_request_error (has_registry : bool) (request_id trace_id : pystr) (e : AioRpcError) :
    result status_error RequestStatusExtended :=
  s ← rpc_status_from_call has_registry (reported e);
  match s with
  | None =>
      Ok (mkStatus (call_code (reported e)) (Some (call_details (reported e))) [] [] request_id trace_id)
  | Some s => x ← from_rpc_status s request_id trace_id; Ok (status x)
  end.

(** The exception that reaches [except Exception]: a [RequestError], or the
    exception of the conversion, with text [text], whose context is the native
    error.  The native error is object 1. *)
Definition converted_exception (text : pystr) (converted : result status_error RequestStatusExtended) : exception :=
  match converted with
  | Ok st => mkException true false (Some st) (NoAttribute _) (NoAttribute _) (NoAttribute _) [] None (Some 1%nat) true
  | Raise _ => mkException true false None (NoAttribute _) (NoAttribute _) (NoAttribute _) text None (Some 1%nat) false
  end.

(** The answers the loop gets for a native error. *)
Definition classify (has_registry : bool) (request_id trace_id text : pystr) (e : AioRpcError) : failure :=
  let structured_retry := _structured_error_retry_decision has_registry e in
  let raw_code := call_code (reported e) in
  let raw_code_retriable :=
    match structured_retry with
    | None => bool_decide (raw_code ∈ [DEADLINE_EXCEEDED; RESOURCE_EXHAUSTED; UNAVAILABLE])
    | Some b => b
    end in
  let converted := _raise_request_error has_registry request_id trace_id e in
  mkFailure
    (raw_code_retriable ||
     (bool_decide (structured_retry = None) && is_retriable_error [raw_exception e] 0 true))
    (is_retriable_error [converted_exception text converted; raw_exception e] 0 true)
    (bool_decide (raw_code = UNAUTHENTICATED))
    match converted with Ok st => bool_decide (rs_code st = UNAUTHENTICATED) | Raise _ => false end.

Lemma from_rpc_status_ids s rid tid rid' tid' x :
  from_rpc_status s rid tid = Ok x ->
  exists x', from_rpc_status s rid' tid' = Ok x' /\ service_errors (status x') = service_errors (status x) /\
    rs_code (status x) = _status_code (CodeNumber (sp_code s)) /\ rs_message (status x) = Some (sp_message s).
Proof.
  unfold from_rpc_status. destruct (split_details (sp_details s)) as [[es rest]|]; [|done].
  cbn. intros [= <-]. eexists. split; [done|]. done.
Qed.

Lemma rich_status_call call md s :
  rich_status call md = Ok (Some s) -> status_number (call_code call) = sp_code s /\ call_details call = sp_message s.
Proof.
  induction md as [|[k v] md IH]; simpl; [done|]. case_bool_decide; simpl; [|done].
  destruct v as [t|b]; [done|]. destruct (decode_status b) as [s'|]; [|done]. unfold consistent.
  destruct (Z.eqb_spec (status_number (call_code call)) (sp_code s')); [|done]. simpl.
  case_bool_decide; [|done]. simpl. by intros [= <-].
Qed.

Lemma rpc_status_call b call s :
  rpc_status_from_call b call = Ok (Some s) ->
  status_number (call_code call) = sp_code s /\ call_details call = sp_message s.
Proof.
  unfold rpc_status_from_call. destruct (trailing_metadata call) as [md|]; [|done].
  destruct (_ && _); [done|]. apply rich_status_call.
Qed.

(** The converted status has the code and the message of the call, and the hint
    the classification saw. *)
Lemma converted_status b rid tid e st :
  _raise_request_error b rid tid e = Ok st ->
  rs_code st = call_code (reported e) /\ rs_message st = Some (call_details (reported e)) /\
  retry_hint st = _structured_error_retry_decision b e.
Proof.
  unfold _raise_request_error, _structured_error_retry_decision.
  destruct (rpc_status_from_call b (reported e)) as [[s|]|] eqn:E; [| |done].
  - intros H. cbn [mbind result_bind] in H. apply result_bind_Ok in H as (x & Hx & [= <-]). apply rpc_status_call in E as [Hc Hm].
    destruct (from_rpc_status_ids _ _ _ [] [] _ Hx) as (x' & -> & He & -> & ->).
    split_and!; [by apply status_code_number|by rewrite Hm|]. unfold retry_hint. by rewrite He.
  - by intros [= <-].
Qed.

Lemma raw_exception_decides e :
  is_retriable_error [raw_exception e] 0 true = default false (decision true (raw_exception e)).
Proof.
  unfold is_retriable_error, _iter_error_chain. cbn [length chain_loop].
  rewrite bool_decide_eq_false_2 by apply not_elem_of_nil. cbn [decide_loop lookup list_lookup mbind option_bind].
  by destruct (decision true (raw_exception e)).
Qed.

Lemma converted_decides text r e :
  is_retriable_error [converted_exception text r; raw_exception e] 0 true =
  match decision true (converted_exception text r) with
  | Some b => b
  | None => if suppress_context (converted_exception text r) then false
            else default false (decision true (raw_exception e))
  end.
Proof.
  unfold is_retriable_error, _iter_error_chain. cbn [length chain_loop].
  rewrite bool_decide_eq_false_2 by apply not_elem_of_nil.
  cbn [decide_loop lookup list_lookup mbind option_bind].
  destruct (decision true (converted_exception text r)) as [d|] eqn:E; [done|].
  destruct r as [st|err]; cbn; [done|].
  destruct (decision true (raw_exception e)) as [d|]; done.
Qed.

(** The answers the retry loop works with are coherent: an error that its
    conversion makes retriable was retriable as a native error, by its code, by
    its hint or as a proxy failure, and an UNAUTHENTICATED status comes from
    that code; so a decision taken before the conversion is not overturned. *)
Theorem native_errors_coherent b rid tid words e :
  str_in (u "name resolution") words = false -> coherent (classify b rid tid words e).
Proof.
  intros Htext. unfold coherent, classify. cbn [retriable raw_retriable unauthenticated raw_unauthenticated].
  rewrite converted_decides, raw_exception_decides. split.
  - destruct (_raise_request_error b rid tid e) as [st|err] eqn:Ec; cbn [converted_exception].
    + apply converted_status in Ec as (Hcode & Hmsg & Hhint). unfold decision at 1. cbn [request_error].
      unfold is_retriable. rewrite Hhint, Hcode, Hmsg.
      destruct (_structured_error_retry_decision b e) as [h|]; [by intros ->|].
      rewrite (bool_decide_eq_true_2 (@None bool = None)) by done. cbn [andb]. intros H. apply orb_true_iff.
      match type of H with context [bool_decide ?Q] => destruct (bool_decide_reflect Q) as [H1|H1] end.
      { left. apply bool_decide_eq_true_2. unfold DefaultRetriableCodes in H1. rewrite !elem_of_cons in *. tauto. }
      match type of H with context [bool_decide ?Q] => destruct (bool_decide_reflect Q) as [H2|H2] end; cbn [andb] in H.
      { left. apply bool_decide_eq_true_2. rewrite !elem_of_cons. tauto. }
      right. destruct (_is_unknown_code _) eqn:Eu; [|done]. cbn [andb] in H.
      destruct (_has_unexpected_http_52x_status _) eqn:Eh; [|done].
      unfold decision, raw_exception. cbn [request_error].
      unfold _grpc_error_has_unknown_http_52x_status. cbn [code_attribute details_attribute _call_error_method].
      rewrite Eu. cbn [negb existsb]. by rewrite Eh.
    + unfold decision at 1. cbn [request_error]. unfold _grpc_error_has_unknown_http_52x_status.
      cbn [code_attribute _call_error_method negb]. unfold is_network_error, is_transport_error, is_dns_error.
      cbn [is_OSError text is_Exception]. rewrite Htext. cbn. intros H.
      assert (_structured_error_retry_decision b e = None) as ->.
      { unfold _raise_request_error in Ec. unfold _structured_error_retry_decision.
        destruct (rpc_status_from_call b (reported e)) as [[s|]|]; [|done..]. cbn in Ec.
        destruct (from_rpc_status s rid tid) as [x|] eqn:Ex; [done|].
        destruct (from_rpc_status s [] []) as [x|] eqn:Ex2; [|done].
        destruct (from_rpc_status_ids _ _ _ rid tid _ Ex2) as (x' & Hx' & _). congruence. }
      rewrite (bool_decide_eq_true_2 (@None bool = None)) by done. cbn [andb]. rewrite H. apply orb_true_r.
  - destruct (_raise_request_error b rid tid e) as [st|err] eqn:Ec; [|done].
    apply converted_status in Ec as (-> & _). done.
Qed.

End Classify.

(** ** Timeouts *)

(** An attempt is refused exactly when its loop's deadline has passed;
    otherwise its timeout never reaches beyond the deadline, never exceeds the
    per-retry timeout when retries are on, is not negative unless that timeout
    is, and is missing only when nothing limits it. *)
Theorem attempt_timeout_spec retries per_retry deadline now1 now2 :
  now1 <= now2 ->
  match attempt_timeout retries per_retry deadline now1 now2 with
  | Raise _ => exists d, deadline = Some d /\ d <= now1
  | Ok None => deadline = None /\ (per_retry = None \/ exists r, retries = Some r /\ r <= 0)
  | Ok (Some t) =>
      (forall d, deadline = Some d -> now1 < d /\ now1 + t <= d) /\
      (forall p, per_retry = Some p -> (forall r, retries = Some r -> 0 < r) -> t <= Z.max 0 p) /\
      ((forall p, per_retry = Some p -> 0 <= p) -> 0 <= t)
  end.
Proof.
  intros Hn. unfold attempt_timeout.
  assert (Hr : match retries with None => true | Some r => 0 <? r end = true \/
     exists r, retries = Some r /\ r <= 0 /\ match retries with None => true | Some r => 0 <? r end = false).
  { destruct retries as [r|]; [|by left]. destruct (Z.ltb_spec 0 r); [by left|right; eauto]. }
  destruct deadline as [d|]; simpl.
  - destruct (Z.leb_spec (d - now1) 0); [exists d; split; [done|lia]|].
    destruct per_retry as [p|].
    + destruct Hr as [->|(r & -> & Hr & ->)]; simpl.
      * destruct (Z.ltb_spec p (d - now1)); simpl.
        -- destruct (Z.leb_spec (d - now2) 0); (split_and!; [intros ? [= <-]|intros ? [= <-] _|intros Hp; specialize (Hp p eq_refl)]); lia.
        -- split_and!; [intros ? [= <-]|intros ? [= <-] _|intros _]; lia.
      * split_and!; [intros ? [= <-]; lia|intros ? [= <-] Hx; specialize (Hx r eq_refl); lia|lia].
    + split_and!; [intros ? [= <-]; lia|done|lia].
  - destruct per_retry as [p|]; [|by split; [|left]].
    destruct Hr as [->|(r & -> & Hr & ->)]; [|split; [done|right; eauto]].
    split_and!; [done|intros ? [= <-] _; lia|intros Hp; by apply Hp].
Qed.

Lemma attempt_timeout_spec_witness :
  attempt_timeout (Some 3) (Some 20) (Some 50) 10 12 = Ok (Some 20) /\ 10 + 20 <= 50.
Proof.
  pose proof (attempt_timeout_spec (Some 3) (Some 20) (Some 50) 10 12 ltac:(lia)) as H.
  split; [reflexivity|]. exact (proj2 (proj1 H 50 eq_refl)).
Defined.

(** The time of an authorization is not charged to the request: a clock that
    was paused goes on with what was left. *)
Lemma request_clock_excludes_auth t d n1 n2 :
  _request_deadline (_resume_request_deadline (Some t) n2
    (_pause_request_deadline (Some t) n1 (mkClock (Some d) None false))) = Some (n2 + Z.max 0 (d - n1)) /\
  forall c, _request_deadline_paused c = true ->
    _request_deadline (start_cycle (Some t) n2 c) = Some (n2 + Z.max 0 t).
Proof.
  split; [done|]. intros c Hc. unfold start_cycle, _resume_request_deadline. simpl. by rewrite Hc.
Qed.

(** The deadline a synchronous waiter uses is the authorization budget when
    authorization applies and the request budget when it does not. *)
Lemma sync_wait_before_submission timeout auth a now grace :
  _sync_wait_timeout timeout auth NoFuture None (Some a) now grace =
  _sync_wait_timeout timeout auth Running
    (submission_deadline (submit_deadlines timeout auth (Some a) now)) (Some a) now grace.
Proof.
  unfold _sync_wait_timeout, submit_deadlines, after.
  destruct a, timeout as [t|], auth as [b|]; simpl; try done; do 2 f_equal; lia.
Qed.

(** ** Traces *)

Ltac own c := eapply rtc_l; [split_and!; [left; first [left; eapply c | right; eapply c]; reflexivity || done || (simpl; lia) | done | done] | simpl].

Section Traces.

(** UNAUTHENTICATED without and with a hint to call again. *)
Definition unauth : failure := mkFailure false false true true.
Definition unauth_call : failure := mkFailure true true true true.

(** A request with a timeout of 5, authorization without a deadline. *)
Definition lossy (s s' : state) : Prop := coherent_step true (Some 5) None None (Some 3) s s'.

(** The state in which the first call has failed and was cancelled. *)
Definition cancelled_late : state :=
  mkState (mkFlags true false false true true false) Running false (PDone (Failure unauth)) 1 0
    (mkClock (Some 5) (Some 5) false) (Some 5) 1 1 true.

Lemma cancelled_late_reached : rtc lossy (initial 0) cancelled_late.
Proof.
  unfold lossy, initial. own submit. own start_auth. own auth_begin. own auth_ok. own head_go.
  eapply rtc_l; [split_and!; [left; right; eapply timeout_set with (t := Some 5) (t2 := 0); reflexivity || done|done|done]|simpl].
  own check_go. own open_call.
  eapply rtc_l; [split_and!; [right; left; by apply (native_done _ (Failure unauth))|split; done|done]|simpl].
  eapply rtc_l; [split_and!; [right; right; by eapply (outside_cancel _ true _ false false)|split; done|done]|simpl].
  apply rtc_refl.
Qed.

(** A cancellation can be lost: accepted when a call has failed with
    UNAUTHENTICATED but is not classified yet, it is dropped if the request's
    own deadline has passed while the authorization deadline has not, and the
    request authenticates and sends another attempt. *)
Theorem cancellation_lost :
  exists s s', rtc lossy (initial 0) s /\ accepted s = true /\ rtc lossy s s' /\ opened s < opened s'.
Proof.
  exists cancelled_late. eexists. split; [apply cancelled_late_reached|]. split; [done|]. split.
  - unfold lossy, cancelled_late.
    eapply rtc_l; [split_and!; [right; right; by apply (outside_tick _ 7)|split; done|done]|simpl].
    own done_failure. own fail_decide. own decide_end.
    eapply rtc_l; [split_and!; [left; left; by eapply auth_retry|done|done]|simpl].
    own auth_begin. own auth_ok. own head_go.
    eapply rtc_l; [split_and!; [left; right; eapply timeout_set with (t := Some 5) (t2 := 7); reflexivity || done|done|done]|simpl].
    own check_go. apply rtc_refl.
  - done.
Qed.

(** An UNAUTHENTICATED error with a hint to call again is retried inside the
    retry loop and leaves the mark of a finished attempt behind: while the next
    call is in flight a cancellation is accepted without reaching it. *)
Theorem stale_attempt_mark :
  exists s, rtc lossy (initial 0) s /\ ph s = PFlight /\ opened s = 2 /\ accepted s = false /\
    cancel (fl s) (fut s) true = (true, set_cancel_after true (set_cancelled true (fl s)), false).
Proof.
  eexists. split.
  - unfold lossy, initial. own submit. own start_auth. own auth_begin. own auth_ok. own head_go.
    eapply rtc_l; [split_and!; [left; right; eapply timeout_set with (t := Some 5) (t2 := 0); reflexivity || done|done|done]|simpl].
    own check_go. own open_call.
    eapply rtc_l; [split_and!; [right; left; by apply (native_done _ (Failure unauth_call))|split; done|done]|simpl].
    own done_failure. own fail_decide. own decide_end. own head_go.
    eapply rtc_l; [split_and!; [left; right; eapply timeout_set with (t := Some 5) (t2 := 0); reflexivity || done|done|done]|simpl].
    own check_go. own open_call. apply rtc_refl.
  - split_and!; done.
Qed.

End Traces.

(** ** Instances *)

(** A request of two attempts that was cancelled before it was submitted. *)
Definition early_cancelled : state :=
  with_cancel (set_cancelled true new_flags) false true (initial 0).
Definition early_end : state :=
  mkState (set_cancelled true new_flags) Running false (PEnd CancelledEnd) 0 0
    (mkClock (Some 5) None false) (Some 5) 1 0 true.

Lemma early_trace :
  rtc (coherent_step false (Some 5) None None (Some 2)) (initial 0) early_cancelled /\
  rtc (coherent_step false (Some 5) None None (Some 2)) early_cancelled early_end.
Proof.
  split.
  - apply rtc_once. split_and!; [right; right; by eapply (outside_cancel _ true _ false false)|done|done].
  - unfold early_cancelled, with_cancel, initial, early_end. simpl. own submit. own start_plain. own head_stop.
    apply rtc_refl.
Qed.

(** A call that succeeded, and whose completion fails with a retriable error; it was
    cancelled when it was over. *)
Definition flaky : failure := mkFailure true true false false.
Definition plain_step : state -> state -> Prop := coherent_step false (Some 5) None None (Some 2).
Definition cancelled_success : state :=
  mkState (mkFlags true false false true true false) Running false (PDone (Success (Some flaky))) 1 0
    (mkClock (Some 5) None false) (Some 5) 1 1 true.
Definition sent_again : state :=
  mkState new_flags Running false (POpen (Some 5)) 2 0 (mkClock (Some 5) None false) (Some 5) 1 2 true.

Lemma cancelled_success_trace : rtc plain_step (initial 0) cancelled_success.
Proof.
  unfold plain_step, initial. own submit. own start_plain. own head_go.
  eapply rtc_l; [split_and!; [left; right; eapply timeout_set with (t := Some 5) (t2 := 0); reflexivity || done|done|done]|simpl].
  own check_go. own open_call.
  eapply rtc_l; [split_and!; [right; left; by apply (native_done _ (Success (Some flaky)))|done|done]|simpl].
  eapply rtc_l; [split_and!; [right; right; by eapply (outside_cancel _ true _ false false)|done|done]|simpl].
  apply rtc_refl.
Qed.

Lemma sent_again_trace : rtc plain_step cancelled_success sent_again.
Proof.
  unfold plain_step, cancelled_success. own done_success. own complete_failed. own fail_decide. own decide_end. own head_go.
  eapply rtc_l; [split_and!; [left; right; eapply timeout_set with (t := Some 5) (t2 := 0); reflexivity || done|done|done]|simpl].
  own check_go. apply rtc_refl.
Qed.

(** The exception of [cancel_prevents_attempts] is real: a cancellation that was accepted
    when a call had succeeded is taken back, and when the completion of the request fails
    with a retriable error another attempt is sent. *)
Theorem completion_reopens :
  exists s s', rtc plain_step (initial 0) s /\ accepted s = true /\ rtc plain_step s s' /\ opened s < opened s'.
Proof.
  exists cancelled_success, sent_again. split_and!; [apply cancelled_success_trace|done|apply sent_again_trace|done].
Qed.

Lemma cancel_prevents_attempts_witness :
  (opened early_end = opened early_cancelled \/
   exists m x, rtc plain_step (initial 0) m /\ rtc plain_step m early_end /\
     accepted m = true /\ ph m = PComplete (Some x) /\ (retriable x = true \/ unauthenticated x = true)) /\
  exists m x, rtc plain_step (initial 0) m /\ rtc plain_step m sent_again /\
    accepted m = true /\ ph m = PComplete (Some x) /\ (retriable x = true \/ unauthenticated x = true).
Proof.
  split.
  - exact (cancel_prevents_attempts false (Some 5) None None (Some 2) 0 early_cancelled early_end
      ltac:(discriminate) (proj1 early_trace) eq_refl (proj2 early_trace)).
  - destruct (cancel_prevents_attempts false (Some 5) None None (Some 2) 0 cancelled_success sent_again
      ltac:(discriminate) cancelled_success_trace eq_refl sent_again_trace) as [E|Hm]; [discriminate E|exact Hm].
Defined.

Lemma early_steps : rtc (step false (Some 5) None None (Some 2)) (initial 0) early_cancelled.
Proof.
  apply rtc_once. right; right. by eapply (outside_cancel _ true _ false false).
Qed.

Lemma attempts_bounded_witness : attempt early_cancelled <= 2 /\ opened early_cancelled <= 2.
Proof.
  destruct (attempts_bounded false (Some 5) None None (Some 2) 0 early_cancelled 2 eq_refl early_steps) as (H1 & _ & H3).
  split; [exact H1|exact (proj2 (H3 eq_refl))].
Defined.

Lemma request_ends_witness :
  exists k s' e, run false (Some 5) None None (Some 2) k early_cancelled s' /\ ph s' = PEnd e.
Proof.
  exact (proj2 (proj2 (request_ends false (Some 5) None None (Some 2) 0 early_cancelled 2 eq_refl eq_refl early_steps))).
Defined.

#[local] Existing Instance ascii_words.
#[local] Existing Instance ascii_digits.
#[local] Existing Instance grpc_codes.
#[local] Existing Instance number_messages.

(** A call that failed with UNKNOWN behind a proxy. *)
Definition proxy_error : AioRpcError :=
  mkRpcError (mkCall None (UNKNOWN : StatusCode) (u "Unexpected HTTP status 522")) [] [].

Lemma native_errors_coherent_witness :
  coherent (classify true [] [] (u "bad status") proxy_error) /\
  retriable (classify true [] [] (u "bad status") proxy_error) = true.
Proof.
  split; [|vm_compute; reflexivity].
  apply (native_errors_coherent true [] [] (u "bad status") proxy_error). vm_compute. reflexivity.
Defined.
