(* ===== verification/Operation.v ===== *)
(** * Long-running operations

    [src/nebius/aio/operation.py]: the [Operation] wrapper holds the last message
    the service sent; [update] replaces it and [wait] polls until it carries a
    status.  Polling runs on the SDK loop, where any number of updates and waits
    of one wrapper interleave at their awaits; an asynchronous lock serializes
    the requests.  What the service answers, when tasks are cancelled and how
    time passes is chosen by the environment.  Times are exact numbers of one
    unit, and [monotonic()] never goes back.  The check that the process did not
    fork is left out. *)
From stdpp Require Import relations.
From S2P Require Import Prelude PyStr PyText Methods ServiceError RpcStatus Request.

Section Operation.
Context {WC : WordChars} {UD : UnicodeDigits} {SC : StatusCodes} {SM : StatusMessages}.

(** ** The wrapped message *)

(** The status of an operation: the extended status of a parsed message, or a
    plain [RequestStatus] that was assigned, with the registry it may keep. *)
Inductive op_status : Type :=
| ExtendedStatus (x : Extended)
| PlainStatus (s : RequestStatusExtended) (raw : option (StatusPb * (StatusCode * option pystr * list (list Z)))) (has_registry : bool).

Definition code_of (st : op_status) : StatusCode :=
  match st with ExtendedStatus x => rs_code (status x) | PlainStatus s _ _ => rs_code s end.

(** [operation_type]: the generated class, [v1] or [v1alpha1]. *)
Record operation : Type := mkOperation {
  operation_type : nat;
  op_id : pystr;
  op_status_field : option op_status
}.

Definition done (op : operation) : bool :=
  match op_status_field op with None => false | Some _ => true end.

Definition successful (op : operation) : bool :=
  match op_status_field op with None => false | Some st => bool_decide (code_of st = OK) end.

(** ** Polling *)

(** What an update can raise: a local timeout, a [RequestError] with its code,
    or anything else. *)
Inductive poll_error : Type :=
| LocalTimeout
| RequestFailed (code : StatusCode)
| OtherError.

Definition _is_ignorable (err : poll_error) : bool :=
  match err with
  | LocalTimeout => true
  | RequestFailed code => bool_decide (code = DEADLINE_EXCEEDED)
  | OtherError => false
  end.

(** A coroutine on the SDK loop: one update with the deadlines captured at its
    submission, or a wait. *)
Inductive job : Type :=
| Update (request_deadline authorization_deadline : option Z)
| Wait (interval : Z) (deadline : option Z).

Inductive outcome : Type :=
| Returned
| OperationFailed      (** [OperationError] *)
| WaitTimedOut         (** "The operation wait timed out." *)
| Raised (e : poll_error)
| Cancelled.

Inductive phase : Type :=
| Start                (** submitted *)
| Locking              (** [async with self._update_lock] *)
| Requesting           (** [await req], with the lock *)
| Head                 (** [while not self.done()] *)
| Sleeping (until : Z)
| Ended (o : outcome).

Definition passed (deadline : option Z) (now : Z) : bool :=
  match deadline with None => false | Some d => d <=? now end.

(** [_raise_if_failed] after the loop. *)
Definition conclude (op : operation) : outcome := if successful op then Returned else OperationFailed.

(** The part of [_update_internal] between the lock and the request. *)
Inductive locked : Type := AlreadyDone | Expired | Send.

Definition locked_section (j : job) (op : operation) (now : Z) : locked :=
  if done op then AlreadyDone else
  match j with
  | Update request_deadline authorization_deadline =>
      if passed request_deadline now || passed authorization_deadline now then Expired else Send
  | Wait _ _ => Send
  end.

(** The update of a job has ended, with [err] when it raised: an update is over,
    [_safe_update] of a wait sorts the errors. *)
Definition after_update (j : job) (err : option poll_error) (now : Z) : phase :=
  match j, err with
  | Update _ _, None => Ended Returned
  | Update _ _, Some e => Ended (Raised e)
  | Wait _ _, None => Head
  | Wait _ deadline, Some e =>
      if passed deadline now then Ended WaitTimedOut else if _is_ignorable e then Head else Ended (Raised e)
  end.

(** [_safe_update] up to its await. *)
Definition enter_update (j : job) (now : Z) : phase :=
  match j with
  | Update _ _ => Locking
  | Wait _ deadline => if passed deadline now then Ended WaitTimedOut else Locking
  end.

Definition begin_job (j : job) (op : operation) (now : Z) : phase :=
  if done op then match j with Update _ _ => Ended Returned | Wait _ _ => Ended (conclude op) end
  else enter_update j now.

(** The head of the loop of [_wait_internal]. *)
Definition head_section (interval : Z) (deadline : option Z) (op : operation) (now : Z) : phase :=
  if done op then Ended (conclude op) else
  match deadline with
  | None => Sleeping (now + interval)
  | Some d => if d - now <=? 0 then Ended WaitTimedOut else Sleeping (now + Z.min interval (d - now))
  end.

(** [_set_new_operation] *)
Definition _set_new_operation (op new : operation) : result poll_error operation :=
  if (operation_type new =? operation_type op)%nat then Ok new else Raise OtherError.

(** ** The system: the wrapper and its tasks *)

Record task : Type := mkTask {
  task_job : job;
  task_phase : phase;
  polls : Z;            (** requests this task has sent *)
  started : Z
}.

Record state : Type := mkState {
  _operation : operation;
  _update_lock : option nat;
  tasks : list task;
  now : Z;
  requests : list pystr  (** the ids asked for, latest first *)
}.

Definition at_phase (p : phase) (t : task) : task := mkTask (task_job t) p (polls t) (started t).

Definition move (i : nat) (t : task) (p : phase) (s : state) : state :=
  mkState (_operation s) (_update_lock s) (<[i := at_phase p t]> (tasks s)) (now s) (requests s).

Definition release (i : nat) (s : state) : state :=
  mkState (_operation s) (if bool_decide (_update_lock s = Some i) then None else _update_lock s)
    (tasks s) (now s) (requests s).

Definition store (op : operation) (s : state) : state :=
  mkState op (_update_lock s) (tasks s) (now s) (requests s).

(** The request of task [i] is sent while it holds the lock. *)
Definition send (i : nat) (t : task) (s : state) : state :=
  mkState (_operation s) (Some i) (<[i := mkTask (task_job t) Requesting (polls t + 1) (started t)]> (tasks s))
    (now s) (op_id (_operation s) :: requests s).

Inductive task_step (i : nat) : state -> state -> Prop :=
| task_start s t : tasks s !! i = Some t -> task_phase t = Start ->
    task_step i s (move i t (begin_job (task_job t) (_operation s) (now s)) s)
| task_lock s t : tasks s !! i = Some t -> task_phase t = Locking -> _update_lock s = None ->
    task_step i s
      match locked_section (task_job t) (_operation s) (now s) with
      | AlreadyDone => move i t (after_update (task_job t) None (now s)) s
      | Expired => move i t (after_update (task_job t) (Some LocalTimeout) (now s)) s
      | Send => send i t s
      end
| task_response s t new : tasks s !! i = Some t -> task_phase t = Requesting ->
    task_step i s
      match _set_new_operation (_operation s) new with
      | Ok op => release i (move i t (after_update (task_job t) None (now s)) (store op s))
      | Raise e => release i (move i t (after_update (task_job t) (Some e) (now s)) s)
      end
| task_error s t e : tasks s !! i = Some t -> task_phase t = Requesting ->
    task_step i s (release i (move i t (after_update (task_job t) (Some e) (now s)) s))
| task_expire s t interval deadline : tasks s !! i = Some t -> task_job t = Wait interval deadline ->
    task_phase t = Locking \/ task_phase t = Requesting -> passed deadline (now s) = true ->
    task_step i s (release i (move i t (Ended WaitTimedOut) s))
| task_head s t interval deadline : tasks s !! i = Some t -> task_phase t = Head ->
    task_job t = Wait interval deadline ->
    task_step i s (move i t (head_section interval deadline (_operation s) (now s)) s)
| task_wake s t until : tasks s !! i = Some t -> task_phase t = Sleeping until -> until <= now s ->
    task_step i s (move i t (enter_update (task_job t) (now s)) s).

(** A job that can be submitted: [wait] refuses other intervals. *)
Definition job_ok (j : job) : Prop := match j with Update _ _ => True | Wait interval _ => 0 < interval end.

Inductive env_step : state -> state -> Prop :=
| env_submit s j : job_ok j ->
    env_step s (mkState (_operation s) (_update_lock s) (tasks s ++ [mkTask j Start 0 (now s)]) (now s) (requests s))
| env_cancel s i t : tasks s !! i = Some t -> (forall o, task_phase t <> Ended o) ->
    env_step s (release i (move i t (Ended Cancelled) s))
| env_tick s t : now s <= t ->
    env_step s (mkState (_operation s) (_update_lock s) (tasks s) t (requests s)).

Definition step (s s' : state) : Prop := (exists i, task_step i s s') \/ env_step s s'.

Definition new_state (op : operation) (t : Z) : state := mkState op None [] t [].

(** ** The argument checks of [wait] and [update] *)

(** A [float] argument: a finite number or not. *)
Inductive pynumber : Type := Num (z : Z) | NotFinite.

Inductive argument_error : Type := ArgumentValueError (text : pystr).

Definition _validate_timeout (name : pystr) (value : option pynumber) : result argument_error (option Z) :=
  match value with
  | None => Ok None
  | Some (Num z) => Ok (Some z)
  | Some NotFinite => Raise (ArgumentValueError (u "The " ++ name ++ u " value must be finite or None."))
  end.

(** [_wait_from_submission] of an unfinished operation, up to the submission. *)
Definition wait_job (interval : pynumber) (timeout : option pynumber) (submitted_at : Z) :
    result argument_error job :=
  timeout ← _validate_timeout (u "timeout") timeout;
  let invalid := Raise (ArgumentValueError (u "The interval value must be a finite positive number of seconds.")) in
  match interval with
  | NotFinite => invalid
  | Num i =>
      if i <=? 0 then invalid else Ok (Wait i (after submitted_at timeout))
  end.

(** The deadlines of the job that [_update_from_submission] submits. *)
Definition job_deadlines (timeout auth_timeout : option pynumber) (applies : option bool) (submitted_at : Z) :
    result argument_error (option Z * option Z) :=
  timeout ← _validate_timeout (u "timeout") timeout;
  auth_timeout ← _validate_timeout (u "auth_timeout") auth_timeout;
  Ok (after submitted_at timeout,
      if bool_decide (applies = Some true) then after submitted_at auth_timeout else None).

(** The deadlines of the caller, who waits for the submitted job: [min] of no
    limits raises. *)
Definition caller_deadlines (request authorization : option Z) (applies : option bool) :
    result argument_error deadlines :=
  let caller := match applies with Some true => authorization | Some false => request | None => None end in
  dispatch ← (if bool_decide (applies = Some true)
              then match request, authorization with
                   | None, None => Raise (ArgumentValueError (u "min() arg is an empty sequence"))
                   | _, _ => Ok (min_deadline request authorization)
                   end
              else Ok None);
  Ok (mkDeadlines request authorization caller dispatch).

(** [_update_from_submission] up to its first await. *)
Definition update_job (timeout auth_timeout : option pynumber) (applies : option bool) (submitted_at : Z) :
    result argument_error deadlines :=
  '(request, authorization) ← job_deadlines timeout auth_timeout applies submitted_at;
  caller_deadlines request authorization applies.

(** ** Invariant *)

Definition task_ok (op : operation) (now : Z) (t : task) : Prop :=
  (job_ok (task_job t) /\ started t <= now) /\
  match task_job t with
  | Update _ _ =>
      match task_phase t with Start | Locking | Requesting | Ended (Returned | Raised _ | Cancelled) => True
      | _ => False end
  | Wait interval deadline =>
      (polls t - 1) * interval <= now - started t /\
      match task_phase t with
      | Start => polls t = 0
      | Locking => polls t * interval <= now - started t
      | Requesting | Head => True
      | Sleeping until =>
          (polls t * interval <= until - started t \/ exists d, deadline = Some d /\ d <= until) /\
          forall d, deadline = Some d -> until <= d
      | Ended Returned => successful op = true
      | Ended OperationFailed => done op = true /\ successful op = false
      | Ended WaitTimedOut => passed deadline now = true
      | Ended (Raised e) => _is_ignorable e = false
      | Ended Cancelled => True
      end
  end.

Record state_ok (s : state) : Prop := {
  ok_requesting : forall i t, tasks s !! i = Some t -> task_phase t = Requesting ->
    _update_lock s = Some i /\ done (_operation s) = false;
  ok_lock : forall i, _update_lock s = Some i -> exists t, tasks s !! i = Some t /\ task_phase t = Requesting;
  ok_tasks : Forall (task_ok (_operation s) (now s)) (tasks s)
}.

Lemma successful_done op : successful op = true -> done op = true.
Proof. unfold successful, done. by destruct (op_status_field op). Qed.

Lemma passed_mono deadline now now' : now <= now' -> passed deadline now = true -> passed deadline now' = true.
Proof. destruct deadline; simpl; lia. Qed.

(** Time passes; an unfinished operation is replaced. *)
Lemma task_ok_tick op n n' t : n <= n' -> task_ok op n t -> task_ok op n' t.
Proof.
  intros Hn [[Hj Hs] Ht]. split; [split; [done|lia]|]. destruct (task_job t) as [|interval deadline]; [done|].
  destruct Ht as [Hb Ht]. split; [lia|]. destruct (task_phase t) as [| | | |u|[]]; try done; [lia|].
  by eapply passed_mono.
Qed.

Lemma task_ok_store op op' n t : done op = false -> task_ok op n t -> task_ok op' n t.
Proof.
  intros Hd [Hj Ht]. split; [done|]. destruct (task_job t); [done|]. destruct Ht as [Hb Ht]. split; [done|].
  destruct (task_phase t) as [| | | | |[]]; try done; [apply successful_done in Ht|destruct Ht]; congruence.
Qed.

(** What the parts of a coroutine do to its task. *)
Lemma conclude_ok op n t interval deadline :
  task_job t = Wait interval deadline -> job_ok (task_job t) /\ started t <= n -> done op = true ->
  (polls t - 1) * interval <= n - started t -> task_ok op n (at_phase (Ended (conclude op)) t).
Proof.
  intros Hj Hok Hd Hb. split; [done|]. simpl. rewrite Hj. split; [done|]. unfold conclude.
  by destruct (successful op) eqn:E.
Qed.

Lemma enter_update_ok op n t :
  job_ok (task_job t) /\ started t <= n -> (forall interval deadline, task_job t = Wait interval deadline ->
    passed deadline n = false -> polls t * interval <= n - started t) ->
  (forall interval deadline, task_job t = Wait interval deadline -> (polls t - 1) * interval <= n - started t) ->
  task_ok op n (at_phase (enter_update (task_job t) n) t).
Proof.
  intros Hok Hb1 Hb2. split; [done|]. simpl. destruct (task_job t) as [|interval deadline]; [done|]. simpl.
  split; [by eapply Hb2|]. destruct (passed deadline n) eqn:E; [done|]. by eapply Hb1.
Qed.

Lemma after_update_ok op n t err :
  task_ok op n t -> (task_phase t = Locking \/ task_phase t = Requesting) ->
  task_ok op n (at_phase (after_update (task_job t) err n) t).
Proof.
  intros [Hok Ht] _. split; [done|]. simpl.
  destruct (task_job t) as [|interval deadline]; [by destruct err|]. destruct Ht as [Hb _]. split; [done|].
  destruct err as [e|]; simpl; [|done].
  destruct (passed deadline n) eqn:Ep; [done|]. by destruct (_is_ignorable e) eqn:Ei.
Qed.

Lemma head_section_ok op n t interval deadline :
  task_ok op n t -> task_job t = Wait interval deadline ->
  task_ok op n (at_phase (head_section interval deadline op n) t).
Proof.
  intros [[Hok Hs] Ht] Hj. pose proof Ht as Ht'. rewrite Hj in Ht'. destruct Ht' as [Hb _].
  unfold head_section. destruct (done op) eqn:Ed; [by eapply conclude_ok|].
  split; [done|]. simpl. rewrite Hj. split; [done|]. rewrite Hj in Hok. simpl in Hok.
  destruct deadline as [d|]; [destruct (Z.leb_spec (d - n) 0); simpl; [lia|]|].
  - split; [|intros d' [= <-]; lia].
    destruct (Z.le_ge_cases interval (d - n)); [left; nia|right; exists d; split; [done|lia]].
  - split; [left; nia|done].
Qed.

Lemma begin_job_ok op n t :
  task_ok op n t -> task_phase t = Start -> task_ok op n (at_phase (begin_job (task_job t) op n) t).
Proof.
  intros [Hok Ht] Hp. unfold begin_job. destruct (done op) eqn:Ed.
  - destruct (task_job t) as [|interval deadline] eqn:Ej; [split; simpl; by rewrite Ej|].
    eapply conclude_ok; [done|by rewrite Ej|done|apply Ht].
  - apply enter_update_ok; [done|..]; intros interval deadline Ej; rewrite Ej, Hp in Ht; simpl in Ht.
    + intros _. destruct Ht as [_ ->], Hok as [_ Hs]. lia.
    + apply Ht.
Qed.

Lemma release_move_ok s i t p :
  state_ok s -> tasks s !! i = Some t -> p <> Requesting -> task_ok (_operation s) (now s) (at_phase p t) ->
  state_ok (release i (move i t p s)).
Proof.
  intros [Hr Hl Ht] Hi Hp Hok. pose proof (lookup_lt_Some _ _ _ Hi) as Hlt. split; simpl.
  - intros j tj Hj Hpj. destruct (decide (i = j)) as [<-|Hne].
    + rewrite list_lookup_insert_eq in Hj by done. by injection Hj as <-.
    + rewrite list_lookup_insert_ne in Hj by done. destruct (Hr j tj Hj Hpj) as [-> Hd].
      by rewrite bool_decide_eq_false_2 by congruence.
  - intros j. case_bool_decide as E; [done|]. intros Hj. destruct (Hl j Hj) as (tj & Htj & Hpj).
    exists tj. rewrite list_lookup_insert_ne by congruence. done.
  - by apply Forall_insert.
Qed.

Lemma move_ok s i t p :
  state_ok s -> tasks s !! i = Some t -> task_phase t <> Requesting -> p <> Requesting ->
  task_ok (_operation s) (now s) (at_phase p t) -> state_ok (move i t p s).
Proof.
  intros Hs Hi Hpt Hp Hok. pose proof (release_move_ok _ _ _ _ Hs Hi Hp Hok) as H.
  unfold release in H. rewrite bool_decide_eq_false_2 in H; [done|].
  intros E. destruct (ok_lock _ Hs _ E) as (t' & Ht' & Hp'). congruence.
Qed.

Lemma store_ok s op :
  state_ok s -> _update_lock s = None -> done (_operation s) = false -> state_ok (store op s).
Proof.
  intros [Hr Hl Ht] Hlock Hd. split; simpl.
  - intros i t Hi Hp. destruct (Hr i t Hi Hp). congruence.
  - congruence.
  - eapply Forall_impl; [done|]. intros t. by apply task_ok_store.
Qed.

Lemma send_ok s i t :
  state_ok s -> tasks s !! i = Some t -> task_phase t = Locking -> _update_lock s = None ->
  done (_operation s) = false -> state_ok (send i t s).
Proof.
  intros [Hr Hl Ht] Hi Hp Hlock Hd. pose proof (lookup_lt_Some _ _ _ Hi) as Hlt. split; simpl.
  - intros j tj Hj Hpj. split; [|done]. destruct (decide (i = j)) as [<-|Hne]; [done|].
    rewrite list_lookup_insert_ne in Hj by done. destruct (Hr j tj Hj Hpj). congruence.
  - intros j [= <-]. eexists. by rewrite list_lookup_insert_eq.
  - apply Forall_insert; [done|]. rewrite Forall_lookup in Ht. destruct (Ht i t Hi) as [Hok Hw].
    split; [done|]. simpl. rewrite Hp in Hw. destruct (task_job t); [done|]. split; [lia|done].
Qed.

Lemma after_update_phase j err n : after_update j err n <> Requesting.
Proof. destruct j as [|? d], err as [e|]; simpl; try done. destruct (passed d n), (_is_ignorable e); done. Qed.

Lemma enter_update_phase j n : enter_update j n <> Requesting.
Proof. destruct j as [|? d]; simpl; [done|]. by destruct (passed d n). Qed.

Lemma begin_job_phase j op n : begin_job j op n <> Requesting.
Proof. unfold begin_job. destruct (done op), j as [|? d]; simpl; try done. by destruct (passed d n). Qed.

Lemma head_section_phase interval deadline op n : head_section interval deadline op n <> Requesting.
Proof.
  unfold head_section. destruct (done op), deadline as [d|]; try done. by destruct (d - n <=? 0).
Qed.

Lemma wake_ok s i t until :
  state_ok s -> tasks s !! i = Some t -> task_phase t = Sleeping until -> until <= now s ->
  task_ok (_operation s) (now s) (at_phase (enter_update (task_job t) (now s)) t).
Proof.
  intros Hs Hi Hp Hu. pose proof (ok_tasks _ Hs) as Ht. rewrite Forall_lookup in Ht.
  destruct (Ht i t Hi) as [Hok Hw]. rewrite Hp in Hw.
  apply enter_update_ok; [done|..]; intros interval deadline Ej; rewrite Ej in Hw; [|apply Hw].
  intros Hpass. destruct Hw as (_ & [Hb|(d & -> & Hd)] & _); simpl in *; lia.
Qed.

Lemma task_step_ok i s s' : task_step i s s' -> state_ok s -> state_ok s'.
Proof.
  intros Hstep Hs. pose proof (ok_tasks _ Hs) as Ht. rewrite Forall_lookup in Ht.
  destruct Hstep as [s t Hi Hp|s t Hi Hp Hlock|s t new Hi Hp|s t e Hi Hp|s t interval deadline Hi Hj Hp Hd
    |s t interval deadline Hi Hp Hj|s t until Hi Hp Hu].
  - apply move_ok; [done..|by rewrite Hp|apply begin_job_phase|]. apply begin_job_ok; eauto.
  - destruct (locked_section _ _ _) eqn:E.
    1, 2: apply move_ok; [done..|by rewrite Hp|apply after_update_phase|]; apply after_update_ok; eauto.
    apply send_ok; [done..|]. unfold locked_section in E. by destruct (done (_operation s)).
  - destruct (ok_requesting _ Hs i t Hi Hp) as [Hlock Hd].
    assert (Hm : forall err, state_ok (release i (move i t (after_update (task_job t) err (now s)) s))).
    { intros err. apply release_move_ok; [done..|apply after_update_phase|]. apply after_update_ok; eauto. }
    destruct (_set_new_operation _ _) as [op|e]; [|apply Hm].
    apply (store_ok _ op (Hm None)); simpl; [by rewrite bool_decide_eq_true_2|done].
  - apply release_move_ok; [done..|apply after_update_phase|]. apply after_update_ok; eauto.
  - apply release_move_ok; [done..|]. destruct (Ht i t Hi) as [Hok Hw]. split; [done|]. simpl.
    rewrite Hj in *. by destruct Hw.
  - apply move_ok; [done..|by rewrite Hp|apply head_section_phase|]. apply head_section_ok; eauto.
  - apply move_ok; [done..|by rewrite Hp|apply enter_update_phase|]. by eapply wake_ok.
Qed.

Lemma env_step_ok s s' : env_step s s' -> state_ok s -> state_ok s'.
Proof.
  intros Hstep Hs. pose proof (ok_tasks _ Hs) as Ht. destruct Hstep as [s j Hj|s i t Hi Hp|s n Hn].
  - destruct Hs as [Hr Hl _]. split; simpl.
    + intros i t Hi Hp. apply lookup_app_Some in Hi as [Hi|[_ Hi]]; [eauto|].
      by apply list_lookup_singleton_Some in Hi as [_ <-].
    + intros i Hi. destruct (Hl i Hi) as (t & Hti & Hp). exists t. by rewrite (lookup_app_l_Some _ _ _ _ Hti).
    + apply Forall_app. split; [done|]. constructor; [|constructor]. split; [split; [done|simpl; lia]|].
      simpl. destruct j as [|interval]; [done|]. simpl in *. split; [lia|done].
  - apply release_move_ok; [done..|]. rewrite Forall_lookup in Ht. destruct (Ht i t Hi) as [Hok Hw].
    split; [done|]. simpl. destruct (task_job t); [done|]. by destruct Hw.
  - destruct Hs as [Hr Hl _]. split; simpl; [done..|]. eapply Forall_impl; [done|].
    intros t. by apply task_ok_tick.
Qed.

Lemma operation_reachable_ok op t s : rtc step (new_state op t) s -> state_ok s.
Proof.
  assert (Hnew : state_ok (new_state op t)) by (split; [done..|constructor]).
  intros H. revert Hnew. induction H as [|x y z [[i Hx]|Hx] _ IH]; [done|..]; intros Hok; apply IH.
  - by eapply task_step_ok.
  - by eapply env_step_ok.
Qed.

(** ** A finished operation stays as it is *)

Lemma done_task_step i s s' :
  task_step i s s' -> state_ok s -> done (_operation s) = true ->
  _operation s' = _operation s /\ requests s' = requests s.
Proof.
  intros Hstep Hs Hd. destruct Hstep as [| s t Hi Hp Hlock | s t new Hi Hp | | | |]; try done.
  - unfold locked_section. by rewrite Hd.
  - destruct (ok_requesting _ Hs i t Hi Hp). congruence.
Qed.

Lemma done_step s s' :
  step s s' -> state_ok s -> done (_operation s) = true ->
  _operation s' = _operation s /\ requests s' = requests s.
Proof. intros [[i Hi]|He]; [by apply (done_task_step i)|by destruct He]. Qed.

(** C17: An operation that carries a status is final: whatever updates and waits
    run, are submitted or are cancelled afterwards, the stored message does not
    change and the service is not asked again. *)
Theorem operation_final op t s s' :
  rtc step (new_state op t) s -> done (_operation s) = true -> rtc step s s' ->
  _operation s' = _operation s /\ requests s' = requests s.
Proof.
  intros Hr%operation_reachable_ok Hd Hs. revert Hr Hd. induction Hs as [|x y z Hx _ IH]; [done|]. intros Hok Hd.
  destruct (done_step _ _ Hx Hok Hd) as [Ho Hq].
  assert (Hoky : state_ok y).
  { destruct Hx as [[i Hx]|Hx]; [by eapply task_step_ok|by eapply env_step_ok]. }
  rewrite <- Ho, <- Hq. apply IH; [done|by rewrite Ho].
Qed.

(** How a wait can end, and how often it asks: it returns only for a
    successful operation, raises [OperationError] only for a failed one, times
    out only after its deadline, raises no error that polling ignores, and sends
    at most one request per interval after the first. *)
Theorem wait_outcome op t s i w interval deadline :
  rtc step (new_state op t) s -> tasks s !! i = Some w -> task_job w = Wait interval deadline ->
  (polls w - 1) * interval <= now s - started w /\
  match task_phase w with
  | Ended Returned => successful (_operation s) = true
  | Ended OperationFailed => done (_operation s) = true /\ successful (_operation s) = false
  | Ended WaitTimedOut => exists d, deadline = Some d /\ d <= now s
  | Ended (Raised e) => e = OtherError \/ exists c, e = RequestFailed c /\ c <> DEADLINE_EXCEEDED
  | _ => True
  end.
Proof.
  intros Hr%operation_reachable_ok Hi Hj. pose proof (ok_tasks _ Hr) as Ht. rewrite Forall_lookup in Ht.
  destruct (Ht i w Hi) as [_ Hw]. rewrite Hj in Hw. destruct Hw as [Hb Hw]. split; [done|].
  destruct (task_phase w) as [| | | | |[| | |e|]]; try done.
  - unfold passed in Hw. destruct deadline as [d|]; [|done]. exists d. split; [done|lia].
  - destruct e as [|c|]; simpl in Hw; [done| |by left]. right. exists c. split; [done|].
    by apply bool_decide_eq_false_1 in Hw.
Qed.

(** ** Waits end *)

(** A history with [k] steps of task [i]. *)
Inductive run (i : nat) : nat -> state -> state -> Prop :=
| run_nil s : run i 0 s s
| run_own k s s1 s2 : task_step i s s1 -> run i k s1 s2 -> run i (S k) s s2
| run_task j k s s1 s2 : j <> i -> task_step j s s1 -> run i k s1 s2 -> run i k s s2
| run_env k s s1 s2 : env_step s s1 -> run i k s1 s2 -> run i k s s2.

Definition rank (p : phase) : nat :=
  match p with Start | Sleeping _ => 4 | Locking => 3 | Requesting => 2 | Head => 1 | Ended _ => 0 end.

(** Task [i] is a wait of rank at most [r] for a finished operation, or one
    whose deadline has passed. *)
Definition settling (i r : nat) (s : state) : Prop :=
  exists w interval deadline, tasks s !! i = Some w /\ task_job w = Wait interval deadline /\
    (done (_operation s) = true \/ passed deadline (now s) = true) /\ (rank (task_phase w) <= r)%nat.

Lemma other_step_settling i j r s s' :
  j <> i -> task_step j s s' -> state_ok s -> settling i r s -> settling i r s'.
Proof.
  intros Hne Hstep Hs (w & interval & deadline & Hw & Hj & Hd & Hrank).
  assert (Hsame : tasks s' !! i = tasks s !! i /\ now s' = now s).
  { destruct Hstep as [| s t ? ? ? | s t new ? ? | | | |]; try (destruct (locked_section _ _ _));
      try (destruct (_set_new_operation _ _)); simpl; (split; [by rewrite list_lookup_insert_ne|done]). }
  destruct Hsame as [Ht Hn]. exists w, interval, deadline. rewrite Ht, Hn. split_and!; [done..| |done].
  destruct Hd as [Hd|Hd]; [left|by right]. by destruct (done_task_step _ _ _ Hstep Hs Hd) as [-> _].
Qed.

Lemma env_step_settling i r s s' : env_step s s' -> settling i r s -> settling i r s'.
Proof.
  intros Hstep (w & interval & deadline & Hw & Hj & Hd & Hrank).
  destruct Hstep as [s j Hjob|s k t Hk Hp|s n Hn].
  - exists w, interval, deadline. simpl. rewrite (lookup_app_l_Some _ _ _ _ Hw). done.
  - destruct (decide (k = i)) as [->|Hne].
    + exists (at_phase (Ended Cancelled) t), interval, deadline. simpl.
      rewrite list_lookup_insert_eq by (by eapply lookup_lt_Some). simplify_eq. simpl. split_and!; [done..|lia].
    + exists w, interval, deadline. simpl. by rewrite list_lookup_insert_ne.
  - exists w, interval, deadline. simpl. split_and!; [done..| |done].
    destruct Hd; [by left|right; by eapply passed_mono].
Qed.

Lemma own_step_settling i r s s' :
  task_step i s s' -> state_ok s -> settling i (S r) s -> settling i r s'.
Proof.
  intros Hstep Hs (w & interval & deadline & Hw & Hj & Hd & Hrank).
  assert (Hlt := lookup_lt_Some _ _ _ Hw).
  assert (Hgo : forall p op lock q,
    (rank p <= r)%nat -> (done (_operation s) = true -> done op = true) ->
    settling i r (mkState op lock (<[i := at_phase p w]> (tasks s)) (now s) q)).
  { intros p op lock q Hp Hop. exists (at_phase p w), interval, deadline. simpl.
    rewrite list_lookup_insert_eq by done. split_and!; [done..| |done]. destruct Hd; auto. }
  destruct Hstep as [s t Hi Hp|s t Hi Hp Hlock|s t new Hi Hp|s t e Hi Hp|s t int' dl' Hi Hj' Hp Hdl
    |s t int' dl' Hi Hp Hj'|s t until Hi Hp Hu]; assert (t = w) as -> by congruence;
    try (assert (int' = interval /\ dl' = deadline) as [-> ->] by (split; congruence)); rewrite ?Hp in Hrank; simpl in Hrank.
  - apply Hgo; [|done]. rewrite Hj. unfold begin_job, enter_update.
    destruct (done _); simpl; [lia|]. destruct (passed _ _); simpl; lia.
  - destruct (locked_section _ _ _) eqn:E; rewrite Hj in *; unfold locked_section in E.
    + apply Hgo; [simpl; lia|done].
    + by destruct (done _).
    + exists (mkTask (task_job w) Requesting (polls w + 1) (started w)), interval, deadline. simpl.
      rewrite list_lookup_insert_eq by done. split_and!; [done..|lia].
  - destruct (ok_requesting _ Hs i w Hw Hp) as [_ Hnd].
    destruct (_set_new_operation _ _) as [op|e]; apply Hgo; try done; rewrite Hj; simpl; [lia|congruence|].
    destruct (passed _ _), (_is_ignorable e); simpl; lia.
  - apply Hgo; [|done]. rewrite Hj; simpl. destruct (passed _ _), (_is_ignorable e); simpl; lia.
  - apply Hgo; [simpl; lia|done].
  - apply Hgo; [|done]. unfold head_section. destruct (done (_operation s)) eqn:Ed; simpl; [lia|].
    destruct Hd as [|Hd]; [done|]. unfold passed in Hd. destruct deadline as [d|]; [|done].
    destruct (Z.leb_spec (d - now s) 0); simpl; lia.
  - apply Hgo; [|done]. rewrite Hj. simpl. destruct (passed _ _); simpl; lia.
Qed.

Lemma run_settling i k s s' : run i k s s' -> forall r, state_ok s -> settling i r s -> settling i (r - k) s'.
Proof.
  induction 1 as [s|k s s1 s2 Hs _ IH|j k s s1 s2 Hne Hs _ IH|k s s1 s2 Hs _ IH]; intros r Hok Hr.
  - by rewrite Nat.sub_0_r.
  - destruct r as [|r].
    + apply (IH 0%nat); [by eapply task_step_ok|]. eapply own_step_settling; [done..|].
      destruct Hr as (w & ? & ? & ? & ? & ? & ?). repeat (eexists; eauto).
    + rewrite Nat.sub_succ. apply IH; [by eapply task_step_ok|]. by eapply own_step_settling.
  - apply IH; [by eapply task_step_ok|]. by eapply other_step_settling.
  - apply IH; [by eapply env_step_ok|]. by eapply env_step_settling.
Qed.

Lemma wait_enabled s i w interval deadline :
  state_ok s -> tasks s !! i = Some w -> task_job w = Wait interval deadline ->
  done (_operation s) = true \/ passed deadline (now s) = true ->
  (forall o, task_phase w <> Ended o) ->
  (forall until, task_phase w = Sleeping until -> passed deadline (now s) = true \/ until <= now s) ->
  exists s', task_step i s s'.
Proof.
  intros Hs Hi Hj Hd Hne Hu. destruct (task_phase w) as [| | | |u|o] eqn:Ep.
  - eexists. by apply task_start.
  - destruct Hd as [Hd|Hd]; [|eexists; eapply task_expire; eauto].
    destruct (_update_lock s) as [j|] eqn:El; [|eexists; by apply task_lock].
    destruct (ok_lock _ Hs j El) as (t & Ht & Hp). destruct (ok_requesting _ Hs j t Ht Hp). congruence.
  - eexists. by apply (task_error i s w LocalTimeout).
  - eexists. by eapply task_head.
  - eexists. eapply task_wake; [done..|]. destruct (Hu u eq_refl) as [Hp|]; [|done].
    pose proof (ok_tasks _ Hs) as Ht. rewrite Forall_lookup in Ht. destruct (Ht i w Hi) as [_ Hw].
    rewrite Hj, Ep in Hw. destruct Hw as (_ & _ & Hle). unfold passed in Hp. destruct deadline as [d|]; [|done].
    specialize (Hle d eq_refl). lia.
  - by destruct (Hne o).
Qed.

(** C32: A wait ends: once the operation is finished or the deadline has passed,
    four steps of its own are enough, whatever the other tasks and the service
    do, and it can always take the next one, except that a sleep without a passed
    deadline has to run out first. *)
Theorem wait_ends op t s i w interval deadline :
  rtc step (new_state op t) s -> tasks s !! i = Some w -> task_job w = Wait interval deadline ->
  done (_operation s) = true \/ passed deadline (now s) = true ->
  (forall k s', run i k s s' -> (4 <= k)%nat ->
     exists w' o, tasks s' !! i = Some w' /\ task_phase w' = Ended o) /\
  ((forall o, task_phase w <> Ended o) ->
   (forall until, task_phase w = Sleeping until -> passed deadline (now s) = true \/ until <= now s) ->
   exists s', task_step i s s').
Proof.
  intros Hr%operation_reachable_ok Hi Hj Hd. split; [|by eapply wait_enabled].
  intros k s' Hrun Hk.
  assert (H4 : settling i 4 s).
  { exists w, interval, deadline. split_and!; [done..|]. destruct (task_phase w); simpl; lia. }
  destruct (run_settling _ _ _ _ Hrun 4 Hr H4) as (w' & ? & ? & Hw' & _ & _ & Hrank). exists w'.
  destruct (task_phase w') as [| | | | |o]; simpl in Hrank; try lia. by exists o.
Qed.

(** ** Deadlines of an update *)

(** With authorization and no limits at all, which the arguments allow,
    [update] raises [ValueError] after the update was submitted; in every other
    case finite or missing limits give deadlines that are not before the
    submission, and the dispatch is limited at most until the caller's
    deadline. *)
Theorem update_limits timeout auth_timeout applies submitted_at :
  update_job (Num <$> timeout) (Num <$> auth_timeout) applies submitted_at =
    (if bool_decide (applies = Some true /\ timeout = None /\ auth_timeout = None)
     then Raise (ArgumentValueError (u "min() arg is an empty sequence"))
     else Ok (submit_deadlines timeout auth_timeout applies submitted_at)) /\
  forall ds, update_job (Num <$> timeout) (Num <$> auth_timeout) applies submitted_at = Ok ds ->
    (forall d, request_deadline ds = Some d \/ authorization_deadline ds = Some d -> submitted_at <= d) /\
    forall c d, submission_deadline ds = Some c -> dispatch_deadline ds = Some d -> d <= c.
Proof.
  assert (Heq : update_job (Num <$> timeout) (Num <$> auth_timeout) applies submitted_at =
    if bool_decide (applies = Some true /\ timeout = None /\ auth_timeout = None)
    then Raise (ArgumentValueError (u "min() arg is an empty sequence"))
    else Ok (submit_deadlines timeout auth_timeout applies submitted_at)).
  { unfold update_job, job_deadlines, caller_deadlines, submit_deadlines. destruct timeout, auth_timeout, applies as [[]|]; simpl;
      repeat case_bool_decide; try done; naive_solver. }
  split; [done|]. intros ds. rewrite Heq. case_bool_decide as E; [done|]. intros [= <-].
  unfold submit_deadlines. destruct timeout, auth_timeout, applies as [[]|]; simpl; repeat case_bool_decide; simpl;
    (split; [intros d [Hd|Hd]|intros c d Hc Hd]); simplify_eq; lia.
Qed.

End Operation.
