(* ===== verification/OperationTheorems.v ===== *)
(** * Operations: errors, progress, instances

    [OperationError] and the progress tracker of [src/nebius/aio/operation.py],
    and concrete histories for the theorems of [Operation].  Fractions are exact
    rationals; timestamps are numbers of microseconds. *)
From Stdlib Require Import QArith Lqa.
From stdpp Require Import relations.
From S2P Require Import Prelude PyStr PyText Methods ServiceError RpcStatus Request Operation.
#[local] Open Scope Z_scope.

(** ** [OperationError] *)

Section Errors.
Context {WC : WordChars} {UD : UnicodeDigits} {SC : StatusCodes} {SM : StatusMessages}.

(** [RequestStatus.to_rpc_status]: the raw status with what was changed since. *)
Definition plain_to_rpc_status (s : RequestStatusExtended)
    (raw : option (StatusPb * (StatusCode * option pystr * list (list Z)))) : StatusPb :=
  match raw with
  | Some (raw, original) =>
      let localized := updated_raw raw s original in
      if bool_decide ((_state s).2 = original.2) then localized
      else mkStatusPb (sp_code localized) (sp_message localized) (rs_details s)
  | None => base_to_rpc_status s
  end.

(** The status that [OperationError.__init__] makes of the one of the operation. *)
Definition operation_error_status (st : option op_status) : result status_error RequestStatusExtended :=
  match st with
  | None => Ok (mkStatus UNKNOWN None [] [] [] [])
  | Some (ExtendedStatus x) => Ok (status x)
  | Some (PlainStatus s raw true) =>
      x ← from_rpc_status (plain_to_rpc_status s raw) (rs_request_id s) (rs_trace_id s); Ok (status x)
  | Some (PlainStatus s raw false) =>
      Ok (mkStatus (rs_code s) (rs_message s) (rs_details s) [] (rs_request_id s) (rs_trace_id s))
  end.

(** [RequestStatus.from_rpc_status] remembers the state it had at first. *)
Definition status_ok (st : op_status) : Prop :=
  match st with
  | PlainStatus _ (Some (raw, original)) _ =>
      original = (_status_code (CodeNumber (sp_code raw)), Some (sp_message raw), encode_any <$> sp_details raw)
  | _ => True
  end.

Definition message_of (st : op_status) : option pystr :=
  match st with ExtendedStatus x => rs_message (status x) | PlainStatus s _ _ => rs_message s end.
Definition ids_of (st : op_status) : pystr * pystr :=
  match st with
  | ExtendedStatus x => (rs_request_id (status x), rs_trace_id (status x))
  | PlainStatus s _ _ => (rs_request_id s, rs_trace_id s)
  end.

Lemma plain_status_code s raw b :
  status_ok (PlainStatus s raw b) ->
  _status_code (CodeNumber (sp_code (plain_to_rpc_status s raw))) = rs_code s /\
  sp_message (plain_to_rpc_status s raw) = default [] (rs_message s).
Proof.
  destruct raw as [[raw original]|]; simpl; intros H.
  - subst original. unfold updated_raw. simpl. destruct (bool_decide (encode_any <$> rs_details s = encode_any <$> sp_details raw)); simpl;
      (split; [case_bool_decide as E; [by rewrite E|by apply status_code_number]
              |case_bool_decide as E; [by rewrite E|done]]).
  - split; [by apply status_code_number|done].
Qed.

(** The exception of a failed operation reports the code, the message text
    and the ids of its status, whether that came extended from the wire or as a
    plain status with or without a registry, raw numbers and later changes
    included; an operation without a status gives UNKNOWN. *)
Theorem operation_error_spec st e :
  (forall s, st = Some s -> status_ok s) -> operation_error_status st = Ok e ->
  rs_code e = from_option code_of UNKNOWN st /\
  default [] (rs_message e) = default [] (st ≫= message_of) /\
  (rs_request_id e, rs_trace_id e) = from_option ids_of ([], []) st.
Proof.
  intros Hok. destruct st as [[x|s raw []]|]; simpl; try by intros [= <-].
  intros He. apply result_bind_Ok in He as (x & Hx & [= <-]).
  destruct (plain_status_code s raw true (Hok _ eq_refl)) as [Hc Hm].
  unfold from_rpc_status in Hx. destruct (split_details _) as [[es rest]|]; [|done]. cbn in Hx.
  injection Hx as <-. simpl. by rewrite <- Hc, Hm.
Qed.

End Errors.

(** ** Progress *)

Record WorkDone : Type := mkWork { total_tick_count : Z; done_tick_count : Z }.

(** The fields of a [ProgressTracker]; absent fields read as [None]. *)
Record ProgressTracker : Type := mkTracker {
  tr_started_at : option Z;
  tr_finished_at : option Z;
  tr_estimated_finished_at : option Z;
  tr_work_done : option WorkDone
}.

(** What the wrapper reads of one snapshot of the operation. *)
Record snapshot : Type := mkSnapshot {
  snap_done : bool;
  snap_finished_at : option Z;
  progress_tracker : option ProgressTracker
}.

Definition fraction_of (w : WorkDone) : option Q :=
  if total_tick_count w <=? 0 then None else Some (inject_Z (done_tick_count w) / inject_Z (total_tick_count w))%Q.

Definition work_fraction (o : snapshot) : option Q :=
  if snap_done o then Some 1%Q else
  tracker ← progress_tracker o; work_done ← tr_work_done tracker; fraction_of work_done.

Definition estimated_finished_at (o : snapshot) : option Z :=
  match progress_tracker o with
  | None => snap_finished_at o
  | Some tracker =>
      match tr_finished_at tracker, snap_finished_at o with
      | Some t, _ => Some t
      | None, Some t => Some t
      | None, None => tr_estimated_finished_at tracker
      end
  end.

Definition time_fraction (o : snapshot) (now : Z) : option Q :=
  if snap_done o then Some 1%Q else
  tracker ← progress_tracker o;
  started ← tr_started_at tracker;
  estimated ← tr_estimated_finished_at tracker;
  if now <? started then Some 0%Q else
  if estimated <? now then Some 1%Q else
  let total_duration := estimated - started in
  let elapsed_duration := now - started in
  if (total_duration <=? 0) || (elapsed_duration <? 0) then None
  else Some (inject_Z elapsed_duration / inject_Z total_duration)%Q.

Lemma time_fraction_inv o now f :
  time_fraction o now = Some f -> snap_done o = false ->
  exists tr st en, progress_tracker o = Some tr /\ tr_started_at tr = Some st /\
    tr_estimated_finished_at tr = Some en /\
    ((now < st /\ f = 0%Q) \/ (st <= now /\ en < now /\ f = 1%Q) \/
     (st <= now <= en /\ 0 < en - st /\ f = (inject_Z (now - st) / inject_Z (en - st))%Q)).
Proof.
  unfold time_fraction. intros Hf Hd. rewrite Hd in Hf. clear Hd.
  destruct (progress_tracker o) as [tr|]; [|done]. simpl in Hf.
  destruct (tr_started_at tr) as [st|] eqn:Es; [|done]. simpl in Hf.
  destruct (tr_estimated_finished_at tr) as [en|] eqn:Ee; [|done]. simpl in Hf.
  exists tr, st, en. split_and!; [done..|].
  destruct (Z.ltb_spec now st); [left; by injection Hf as <-|right].
  destruct (Z.ltb_spec en now); [left; by injection Hf as <-|right].
  destruct (Z.leb_spec (en - st) 0), (Z.ltb_spec (now - st) 0); try done. injection Hf as <-. done.
Qed.

Lemma inject_Z_pos z : 0 < z -> (0 < inject_Z z)%Q.
Proof. intros. change 0%Q with (inject_Z 0). by rewrite <- Zlt_Qlt. Qed.

Lemma inject_Z_le a b : a <= b -> (inject_Z a <= inject_Z b)%Q.
Proof. by rewrite <- Zle_Qle. Qed.

Lemma share_bounds a b : 0 <= a <= b -> 0 < b -> (0 <= inject_Z a / inject_Z b <= 1)%Q.
Proof.
  intros [Ha Hab] Hb. apply inject_Z_pos in Hb. split.
  - apply Qle_shift_div_l; [done|]. rewrite Qmult_0_l. change 0%Q with (inject_Z 0). by apply inject_Z_le.
  - apply Qle_shift_div_r; [done|]. rewrite Qmult_1_l. by apply inject_Z_le.
Qed.

(** The fractions of progress: elapsed time is between 0 and 1 and does not
    shrink while the same message is shown; work is between 0 and 1 when the
    service counts no more than the total; both are 1 for a finished operation. *)
Theorem progress_fractions o now now' :
  now <= now' ->
  (forall f, time_fraction o now = Some f -> (0 <= f <= 1)%Q) /\
  (forall f f', time_fraction o now = Some f -> time_fraction o now' = Some f' -> (f <= f')%Q) /\
  (forall f, work_fraction o = Some f ->
     (forall tr w, progress_tracker o = Some tr -> tr_work_done tr = Some w ->
        0 <= done_tick_count w <= total_tick_count w) -> (0 <= f <= 1)%Q) /\
  (snap_done o = true -> time_fraction o now = Some 1%Q /\ work_fraction o = Some 1%Q).
Proof.
  intros Hn. destruct (snap_done o) eqn:Ed.
  { unfold time_fraction, work_fraction. rewrite Ed. split_and!; try done; intros; simplify_eq; lra. }
  assert (Hrange : forall n f, time_fraction o n = Some f -> (0 <= f <= 1)%Q).
  { intros n f Hf. destruct (time_fraction_inv _ _ _ Hf Ed) as (tr & st & en & _ & _ & _ & [[_ ->]|[(_ & _ & ->)|(? & ? & ->)]]);
      [lra..|]. apply share_bounds; lia. }
  split_and!; [apply Hrange| | |done].
  - intros f f' Hf Hf'. pose proof (Hrange _ _ Hf) as Hr. pose proof (Hrange _ _ Hf') as Hr'.
    destruct (time_fraction_inv _ _ _ Hf Ed) as (tr & st & en & H1 & H2 & H3 & Hcase).
    destruct (time_fraction_inv _ _ _ Hf' Ed) as (tr' & st' & en' & H1' & H2' & H3' & Hcase'). simplify_eq.
    destruct Hcase as [[_ ->]|[(? & ? & ->)|(? & ? & ->)]]; [lra| |];
      destruct Hcase' as [[? ->]|[(? & ? & ->)|(? & ? & ->)]]; try lra; try lia.
    apply Qle_shift_div_l; [by apply inject_Z_pos|]. unfold Qdiv. rewrite <- Qmult_assoc.
    rewrite (Qmult_comm (/ _)), Qmult_inv_r, Qmult_1_r; [apply inject_Z_le; lia|].
    intros E. pose proof (inject_Z_pos (en - st) ltac:(lia)). lra.
  - intros f Hf Hw. unfold work_fraction in Hf. rewrite Ed in Hf.
    destruct (progress_tracker o) as [tr|]; [|done]. simpl in Hf.
    destruct (tr_work_done tr) as [w|] eqn:Ew; [|done]. simpl in Hf. unfold fraction_of in Hf.
    destruct (Z.leb_spec (total_tick_count w) 0); [done|]. injection Hf as <-. apply share_bounds; [eauto|lia].
Qed.

(** ** Instances *)

#[local] Existing Instance grpc_codes.
#[local] Existing Instance number_messages.

Definition ex_pending : operation := mkOperation 1 (u "op-1") None.
Definition ex_finished : operation :=
  mkOperation 1 (u "op-1") (Some (PlainStatus (mkStatus (OK : StatusCode) None [] [] [] []) None false)).

(** A wait with an interval of 10 and a deadline at 100 polls twice; the second
    answer is final. *)
Definition ex_task (p : phase) (n : Z) : task := mkTask (Wait 10 (Some 100)) p n 0.
Definition ex_sleeping : state := mkState ex_pending None [ex_task (Sleeping 12) 1] 2 [u "op-1"].
Definition ex_answered : state := mkState ex_finished None [ex_task Head 2] 13 [u "op-1"; u "op-1"].
Definition ex_over : state := mkState ex_finished None [ex_task (Ended Returned) 2] 13 [u "op-1"; u "op-1"].

Lemma ex_sleeping_reached : rtc step (new_state ex_pending 0) ex_sleeping.
Proof.
  eapply rtc_l; [right; by apply (env_submit _ (Wait 10 (Some 100)))|]. simpl.
  eapply rtc_l; [left; exists 0%nat; by eapply task_start|]. simpl.
  eapply rtc_l; [left; exists 0%nat; by eapply task_lock|]. simpl.
  eapply rtc_l; [right; by apply (env_tick _ 2)|]. simpl.
  eapply rtc_l; [left; exists 0%nat; by eapply (task_error 0 _ _ LocalTimeout)|]. simpl.
  eapply rtc_l; [left; exists 0%nat; by eapply task_head|]. simpl. apply rtc_refl.
Qed.

Lemma ex_answered_reached : rtc step (new_state ex_pending 0) ex_answered.
Proof.
  etrans; [apply ex_sleeping_reached|]. unfold ex_sleeping, ex_answered.
  eapply rtc_l; [right; by apply (env_tick _ 13)|]. simpl.
  eapply rtc_l; [left; exists 0%nat; by eapply task_wake|]. simpl.
  eapply rtc_l; [left; exists 0%nat; by eapply task_lock|]. simpl.
  eapply rtc_l; [left; exists 0%nat; by eapply (task_response 0 _ _ ex_finished)|]. simpl. apply rtc_refl.
Qed.

Lemma ex_over_step : task_step 0 ex_answered ex_over.
Proof. exact (task_head 0 ex_answered (ex_task Head 2) 10 (Some 100) eq_refl eq_refl eq_refl). Qed.

Lemma operation_final_witness : _operation ex_over = ex_finished /\ requests ex_over = requests ex_answered.
Proof.
  apply (operation_final ex_pending 0 ex_answered ex_over).
  - exact ex_answered_reached.
  - reflexivity.
  - apply rtc_once. left. exists 0%nat. exact ex_over_step.
Defined.

Lemma wait_outcome_witness : (2 - 1) * 10 <= 13 - 0 /\ successful (_operation ex_over) = true.
Proof.
  refine (wait_outcome ex_pending 0 ex_over 0 (ex_task (Ended Returned) 2) 10 (Some 100) _ eq_refl eq_refl).
  etrans; [exact ex_answered_reached|]. apply rtc_once. left. exists 0%nat. exact ex_over_step.
Defined.

Lemma wait_ends_witness : exists s', task_step 0 ex_answered s'.
Proof.
  apply (wait_ends ex_pending 0 ex_answered 0 (ex_task Head 2) 10 (Some 100) ex_answered_reached eq_refl eq_refl);
    [by left|done|done].
Defined.

(** A plain status read from the wire, with a number gRPC does not have and a
    message that was changed afterwards. *)
Definition ex_plain : op_status :=
  PlainStatus (mkStatus (UNKNOWN : StatusCode) (Some (u "late")) [] [] (u "r") (u "t"))
    (Some (mkStatusPb 77 (u "no") [], (UNKNOWN : StatusCode, Some (u "no"), []))) true.

Lemma operation_error_spec_witness :
  exists e, operation_error_status (Some ex_plain) = Ok e /\ rs_code e = (UNKNOWN : StatusCode) /\
    default [] (rs_message e) = u "late".
Proof.
  eexists. split; [reflexivity|].
  destruct (operation_error_spec (Some ex_plain) _ ltac:(intros s [= <-]; reflexivity) eq_refl) as (H1 & H2 & _).
  split; [exact H1|exact H2].
Defined.

Definition ex_snapshot : snapshot :=
  mkSnapshot false None (Some (mkTracker (Some 10) None (Some 50) (Some (mkWork 8 2)))).

Lemma progress_fractions_witness : (1 # 4 <= 3 # 4)%Q /\ (0 <= 1 # 4 <= 1)%Q.
Proof.
  destruct (progress_fractions ex_snapshot 20 40 ltac:(lia)) as (H1 & H2 & _). split.
  - assert (H := H2 _ _ eq_refl eq_refl). vm_compute in H |- *. exact H.
  - assert (H := H1 _ eq_refl). vm_compute in H |- *. exact H.
Defined.

Lemma update_limits_witness :
  update_job None None (Some true) 0 = Raise (ArgumentValueError (u "min() arg is an empty sequence")) /\
  exists ds, update_job (Some (Num 5)) (Some (Num 9)) (Some true) 1 = Ok ds /\ 1 <= 6.
Proof.
  split; [exact (proj1 (update_limits None None (Some true) 0))|].
  eexists. split; [reflexivity|].
  exact (proj1 (proj2 (update_limits (Some 5) (Some 9) (Some true) 1) _ eq_refl) 6 (or_introl eq_refl)).
Defined.
