(* ===== verification/Renewable.v ===== *)
(** * The renewable token bearer

    [src/nebius/aio/token/renewable.py]: the cached token, the events and the
    shared renewal result of [Bearer], the background loop [_run] with its
    attempts and its backoff, [fetch] of any number of callers, [stop], and the
    retry counter of [Receiver].  All of it runs on one event loop, so the code
    between two awaits is one step; the source bearer answers as the
    environment chooses.  Durations are rational numbers of seconds; metrics
    and logging are left out. *)
From Stdlib Require Import QArith Qabs Lqa.
From stdpp Require Import relations.
From S2P Require Import Prelude.
#[local] Open Scope Z_scope.

(** ** Backoff *)

Record backoff : Type := mkBackoff {
  _lifetime_safe_fraction : Q;
  _initial_retry_timeout : Q;
  _max_retry_timeout : Q;
  _retry_timeout_exponent : Q
}.

(** [VERY_LONG_TIMEOUT], ten years *)
Definition VERY_LONG_TIMEOUT : Q := inject_Z (365 * 10 * 24 * 3600).

Definition Qltb (a b : Q) : bool := negb (Qle_bool b a).
Definition Qmin' (a b : Q) : Q := if Qltb b a then b else a.

(** The delay never goes below the initial one. *)
Definition at_least_initial (c : backoff) (d : Q) : Q :=
  if Qltb d (_initial_retry_timeout c) then _initial_retry_timeout c else d.

(** The delay after a token with [left] seconds to live, or without end. *)
Definition delay_after_success (c : backoff) (left : option Q) : Q :=
  at_least_initial c
    match left with
    | None => VERY_LONG_TIMEOUT
    | Some l => (l * _lifetime_safe_fraction c)%Q
    end.

(** [abs(exponent - 1) < 1e-9] *)
Definition flat_exponent (c : backoff) : bool :=
  Qltb (Qabs (_retry_timeout_exponent c - 1)) (1 # 1000000000).

(** The delay after attempt number [attempt] failed, the last delay being
    [previous]. *)
Definition delay_after_failure (c : backoff) (attempt : Z) (previous : Q) : Q :=
  at_least_initial c
    (if (attempt <=? 1) || flat_exponent c then _initial_retry_timeout c
     else Qmin' (previous * _retry_timeout_exponent c)%Q (_max_retry_timeout c)).

(** ** The bearer *)

(** A renewal result that callers share: pending, or settled with a token or an
    error. *)
Inductive answer (T : Type) : Type := Pending | Got (tok : T) | Error.
Arguments Pending {T}.
Arguments Got {T} tok.
Arguments Error {T}.

(** Where the background loop is. *)
Inductive loop_phase : Type :=
| LNone                      (** not started *)
| LHead                      (** [while not self._is_stopped.is_set()] *)
| LFetching (timeout : Q)    (** awaiting the source or a break *)
| LSleeping (delay : Q)      (** awaiting a request or the delay *)
| LDone.

Section Bearer.
Context {T : Type} (c : backoff) (refresh_request_timeout : Q) (seconds_left : T -> option Q).

Record bearer : Type := mkBearer {
  _cache : option T;
  _is_fresh : bool;
  _is_stopped : bool;
  _renew_requested : bool;
  _synchronous_can_proceed : bool;
  _break_previous_attempt : bool;
  _renewal_attempt : Z;
  _renew_synchronous_timeout : option Q;
  _renewal_future : option nat;      (** the shared result, by number *)
  futures : list (answer T);         (** all shared results ever made *)
  loop : loop_phase;
  retry_timeout : Q;
  started : nat                      (** attempts started *)
}.

Definition new_bearer : bearer :=
  mkBearer None false false false true false 0 None None [] LNone (_initial_retry_timeout c) 0.

(** [self._renewal_future is not None and not self._renewal_future.done()] *)
Definition renewal_pending (b : bearer) : bool :=
  match _renewal_future b with
  | Some i => match futures b !! i with Some Pending => true | _ => false end
  | None => false
  end.

(** Settling the shared result, whose callback then drops it. *)
Definition settle (a : answer T) (b : bearer) : bearer :=
  if renewal_pending b then
    mkBearer (_cache b) (_is_fresh b) (_is_stopped b) (_renew_requested b) (_synchronous_can_proceed b)
      (_break_previous_attempt b) (_renewal_attempt b) (_renew_synchronous_timeout b) None
      (match _renewal_future b with Some i => <[i := a]> (futures b) | None => futures b end)
      (loop b) (retry_timeout b) (started b)
  else b.

Definition is_renewal_required (b : bearer) : bool :=
  match _cache b with None => true | Some _ => _renew_requested b end.

Definition request_renewal (b : bearer) : bearer :=
  if _is_stopped b then b else
  mkBearer (_cache b) false (_is_stopped b) true (_synchronous_can_proceed b) (_break_previous_attempt b)
    (_renewal_attempt b) (_renew_synchronous_timeout b) (_renewal_future b) (futures b) (loop b)
    (retry_timeout b) (started b).

Definition stop (b : bearer) : bearer :=
  mkBearer (_cache b) false true true (_synchronous_can_proceed b) true
    (_renewal_attempt b) (_renew_synchronous_timeout b) (_renewal_future b) (futures b) (loop b)
    (retry_timeout b) (started b).

(** [close()]: the bearer is stopped and its tasks are cancelled and awaited; a
    loop that was never started may still be. *)
Definition close (b : bearer) : bearer :=
  mkBearer (_cache b) false true true true true
    (_renewal_attempt b) (_renew_synchronous_timeout b) (_renewal_future b) (futures b)
    (match loop b with LNone => LNone | _ => LDone end) (retry_timeout b) (started b).

(** ** The background loop *)

(** [_fetch_once] up to its await. *)
Definition begin_attempt (b : bearer) : bearer :=
  mkBearer (_cache b) (_is_fresh b) (_is_stopped b) (_renew_requested b) false false (_renewal_attempt b + 1) None
    (_renewal_future b) (futures b)
    (LFetching (default refresh_request_timeout (_renew_synchronous_timeout b))) (retry_timeout b) (S (started b)).

(** The end of the await: requests are served, synchronous callers may go on. *)
Definition end_attempt (b : bearer) : bearer :=
  mkBearer (_cache b) (_is_fresh b) (_is_stopped b) false true (_break_previous_attempt b) (_renewal_attempt b)
    (_renew_synchronous_timeout b) (_renewal_future b) (futures b) (loop b) (retry_timeout b) (started b).

(** The source answered: the token is published and the loop sleeps. *)
Definition attempt_ok (tok : T) (b : bearer) : bearer :=
  let b := settle (Got tok) (end_attempt b) in
  let d := delay_after_success c (seconds_left tok) in
  mkBearer (Some tok) true (_is_stopped b) (_renew_requested b) (_synchronous_can_proceed b)
    (_break_previous_attempt b) 0 (_renew_synchronous_timeout b) (_renewal_future b) (futures b)
    (LSleeping d) d (started b).

(** The source failed, or the attempt was broken: the error goes to the shared
    result and the loop backs off. *)
Definition attempt_failed (b : bearer) : bearer :=
  let b := settle Error (end_attempt b) in
  let d := delay_after_failure c (_renewal_attempt b) (retry_timeout b) in
  mkBearer (_cache b) (_is_fresh b) (_is_stopped b) (_renew_requested b) (_synchronous_can_proceed b)
    (_break_previous_attempt b) (_renewal_attempt b) (_renew_synchronous_timeout b) (_renewal_future b) (futures b)
    (LSleeping d) d (started b).

Definition with_loop (l : loop_phase) (b : bearer) : bearer :=
  mkBearer (_cache b) (_is_fresh b) (_is_stopped b) (_renew_requested b) (_synchronous_can_proceed b)
    (_break_previous_attempt b) (_renewal_attempt b) (_renew_synchronous_timeout b) (_renewal_future b) (futures b)
    l (retry_timeout b) (started b).

(** The fetch of the source was cancelled, and not by this bearer (a source may
    raise [CancelledError] for reasons of its own): [token_task.result()] raises
    [CancelledError], which [except Exception] of [_run] does not catch.  The loop
    ends, and nothing settles the shared result. *)
Definition attempt_cancelled (b : bearer) : bearer := with_loop LDone (end_attempt b).

Inductive loop_step : bearer -> bearer -> Prop :=
| loop_end b : loop b = LHead -> _is_stopped b = true -> loop_step b (with_loop LDone b)
| loop_begin b : loop b = LHead -> _is_stopped b = false -> loop_step b (begin_attempt b)
| loop_token b t tok : loop b = LFetching t -> loop_step b (attempt_ok tok b)
| loop_error b t : loop b = LFetching t -> loop_step b (attempt_failed b)
| loop_broken b t : loop b = LFetching t -> _break_previous_attempt b = true -> loop_step b (attempt_failed b)
| loop_cancelled b t : loop b = LFetching t -> loop_step b (attempt_cancelled b)
| loop_wake b d : loop b = LSleeping d -> _renew_requested b = true -> loop_step b (with_loop LHead b).

(** The delay of a sleeping loop is over. *)
Inductive timer_step : bearer -> bearer -> Prop :=
| timer_due b d : loop b = LSleeping d -> timer_step b (with_loop LHead b).

(** ** [fetch] *)

Record fetch_options : Type := mkOptions {
  required : bool;
  synchronous : bool;
  report_error : bool;
  request_timeout : option Q     (** a valid [OPTION_RENEW_REQUEST_TIMEOUT] *)
}.

(** What a caller of [fetch] waits for, or got. *)
Inductive caller : Type :=
| WaitProceed (o : fetch_options) (released : bool) (since : nat)
| WaitFuture (i : nat) (since : option nat)
| WaitFresh (released : bool)
| Returned (tok : T) (since : option nat)
| EmptyCache
| Raised.

(** The end of [fetch]: the cached token. *)
Definition finish (b : bearer) : caller := match _cache b with Some tok => Returned tok None | None => EmptyCache end.

(** The code after the wait for [_synchronous_can_proceed]; [since] counts the
    attempts started when a synchronous caller came that joined no renewal. *)
Definition fetch_request (o : fetch_options) (since : option nat) (b : bearer) : bearer * caller :=
  let sync_timeout := if synchronous o && bool_decide (since <> None)
                      then match request_timeout o with Some t => Some t | None => _renew_synchronous_timeout b end
                      else _renew_synchronous_timeout b in
  let fresh_future := (report_error o || synchronous o) && negb (renewal_pending b) in
  let i := length (futures b) in
  let future := if fresh_future then Some i else _renewal_future b in
  let b := mkBearer (_cache b) (_is_fresh b) (_is_stopped b) true (_synchronous_can_proceed b)
             (_break_previous_attempt b) (_renewal_attempt b) sync_timeout future
             (if fresh_future then futures b ++ [Pending] else futures b) (loop b) (retry_timeout b) (started b) in
  (b, if report_error o || synchronous o
      then WaitFuture (default i future) since
      else WaitFresh (_is_fresh b)).

(** [fetch] up to its first await. *)
Definition fetch_begin (o : fetch_options) (b : bearer) : bearer * caller :=
  let b := match loop b with LNone => with_loop LHead b | _ => b end in
  if is_renewal_required b || required o then
    if synchronous o && negb (renewal_pending b) then
      (mkBearer (_cache b) (_is_fresh b) (_is_stopped b) (_renew_requested b) (_synchronous_can_proceed b)
         true (_renewal_attempt b) (_renew_synchronous_timeout b) (_renewal_future b) (futures b) (loop b)
         (retry_timeout b) (started b),
       WaitProceed o (_synchronous_can_proceed b) (started b))
    else fetch_request o None b
  else (b, finish b).

(** ** The system: the bearer and its callers *)

Record system : Type := mkSystem { bear : bearer; callers : list caller }.

(** An event that a step of the bearer sets releases those who wait for it. *)
Definition release (b : bearer) (w : caller) : caller :=
  match w with
  | WaitProceed o r s => WaitProceed o (r || _synchronous_can_proceed b) s
  | WaitFresh r => WaitFresh (r || _is_fresh b)
  | w => w
  end.

Definition after_bearer (b : bearer) (s : system) : system := mkSystem b (release b <$> callers s).

Definition waiting (w : caller) : bool :=
  match w with WaitProceed _ _ _ | WaitFuture _ _ | WaitFresh _ => true | _ => false end.

Inductive step : system -> system -> Prop :=
| step_loop s b : loop_step (bear s) b -> step s (after_bearer b s)
| step_timer s b : timer_step (bear s) b -> step s (after_bearer b s)
| step_request s : step s (after_bearer (request_renewal (bear s)) s)
| step_stop s : step s (after_bearer (stop (bear s)) s)
| step_close s : step s (after_bearer (close (bear s)) s)
| step_fetch s o b w : fetch_begin o (bear s) = (b, w) -> step s (mkSystem b (callers s ++ [w]))
| step_proceed s k o since b w : callers s !! k = Some (WaitProceed o true since) ->
    fetch_request o (Some since) (bear s) = (b, w) -> step s (mkSystem b (<[k := w]> (callers s)))
| step_got s k i since tok : callers s !! k = Some (WaitFuture i since) -> futures (bear s) !! i = Some (Got tok) ->
    step s (mkSystem (bear s) (<[k := Returned tok since]> (callers s)))
| step_raise s k i since : callers s !! k = Some (WaitFuture i since) -> futures (bear s) !! i = Some Error ->
    step s (mkSystem (bear s) (<[k := Raised]> (callers s)))
| step_fresh s k : callers s !! k = Some (WaitFresh true) ->
    step s (mkSystem (bear s) (<[k := finish (bear s)]> (callers s)))
| step_timeout s k w : callers s !! k = Some w -> waiting w = true -> step s (mkSystem (bear s) (<[k := Raised]> (callers s))).

Definition new_system : system := mkSystem new_bearer [].

(** ** Invariant *)

Definition fetching (b : bearer) : bool := match loop b with LFetching _ => true | _ => false end.

Record bearer_ok (b : bearer) : Prop := {
  (** a fresh bearer has a token *)
  ok_fresh : _is_fresh b = true -> _cache b <> None;
  (** synchronous callers go on only between attempts *)
  ok_proceed : _synchronous_can_proceed b = true -> fetching b = false;
  (** a shared result is waited for by a loop that will serve it, or has ended *)
  ok_pending : renewal_pending b = true -> loop b <> LNone /\
    (fetching b = true \/ _renew_requested b = true \/ loop b = LDone)
}.

(** The source marks its tokens: [tag] is the number of the attempt that brought
    a token. *)
Context (tag : T -> nat).

Definition caller_ok (b : bearer) (w : caller) : Prop :=
  match w with
  | WaitProceed o released since =>
      synchronous o = true /\ (since <= started b)%nat /\ (released = true -> fetching b = true -> (since < started b)%nat)
  | WaitFuture i since =>
      match since with
      | None => True
      | Some n =>
          match futures b !! i with
          | Some Pending => (n <= started b)%nat /\ (fetching b = true -> (n < started b)%nat)
          | Some (Got tok) => (n < tag tok)%nat
          | _ => True
          end
      end /\ (i < length (futures b))%nat
  | WaitFresh released => released = true -> _cache b <> None
  | Returned tok (Some n) => (n < tag tok)%nat
  | EmptyCache => False
  | _ => True
  end.

Record system_ok (s : system) : Prop := {
  sys_bearer : bearer_ok (bear s);
  sys_callers : Forall (caller_ok (bear s)) (callers s);
  sys_loop : callers s <> [] -> loop (bear s) <> LNone
}.

(** A step in which the source marks the token it gives. *)
Definition marked_step (s s' : system) : Prop :=
  step s s' /\ forall t tok, loop (bear s) = LFetching t -> bear s' = attempt_ok tok (bear s) -> tag tok = started (bear s).

Lemma new_system_ok : system_ok new_system.
Proof. split; [by split|constructor|done]. Qed.

Lemma renewal_pending_spec b :
  renewal_pending b = true <-> exists i, _renewal_future b = Some i /\ futures b !! i = Some Pending.
Proof.
  unfold renewal_pending. split.
  - destruct (_renewal_future b) as [i|]; [|done]. destruct (futures b !! i) as [[]|] eqn:E; try done. eauto.
  - by intros (i & -> & ->).
Qed.

(** What settling does to the shared results. *)
Lemma settle_futures a b :
  (futures (settle a b) = futures b /\ renewal_pending b = false) \/
  exists j, _renewal_future b = Some j /\ futures b !! j = Some Pending /\ futures (settle a b) = <[j := a]> (futures b).
Proof.
  unfold settle. destruct (renewal_pending b) eqn:E; [right|by left].
  apply renewal_pending_spec in E as (j & Ej & Hj). exists j. simpl. by rewrite Ej.
Qed.

Lemma settle_pending a b : a <> Pending -> renewal_pending (settle a b) = false.
Proof.
  intros Ha. unfold settle. destruct (renewal_pending b) eqn:E; [|done]. by unfold renewal_pending; simpl.
Qed.

(** ** The invariant is kept *)

Lemma settle_ok a b : a <> Pending -> renewal_pending (settle a (end_attempt b)) = false.
Proof. apply settle_pending. Qed.

Lemma loop_step_ok b b' : loop_step b b' -> bearer_ok b -> bearer_ok b'.
Proof.
  intros Hs [H1 H2 H3]. destruct Hs as [b Hl Hst|b Hl Hst|b t tok Hl|b t Hl|b t Hl Hb|b t Hl|b d Hl Hr].
  - split; simpl; [done|done|]. intros Hp. split; [done|by right; right].
  - split; simpl; [done|done|]. intros Hp. split; [done|by left].
  - split; simpl; [done|done|]. intros Hp. exfalso.
    assert (E : renewal_pending (settle (Got tok) (end_attempt b)) = true) by done. by rewrite settle_ok in E.
  - split; simpl; [|done|].
    + unfold settle. destruct (renewal_pending _); simpl; done.
    + intros Hp. exfalso.
      assert (E : renewal_pending (settle Error (end_attempt b)) = true) by done. by rewrite settle_ok in E.
  - split; simpl; [|done|].
    + unfold settle. destruct (renewal_pending _); simpl; done.
    + intros Hp. exfalso.
      assert (E : renewal_pending (settle Error (end_attempt b)) = true) by done. by rewrite settle_ok in E.
  - split; simpl; [done|done|]. intros Hp. split; [done|by right; right].
  - split; simpl; [done|done|]. intros Hp. split; [done|by right; left].
Qed.

(** The callers after an attempt has settled the shared result with [a]. *)
Lemma attempt_end_caller a b b' w :
  fetching b = true -> fetching b' = false -> started b' = started b ->
  futures b' = futures (settle a (end_attempt b)) ->
  (_cache b <> None -> _cache b' <> None) -> (_is_fresh b' = true -> _cache b' <> None) ->
  (forall tok, a = Got tok -> tag tok = started b) ->
  caller_ok b w -> caller_ok b' (release b' w).
Proof.
  intros Hf Hf' Hst Hfu Hc Hfr Ht. destruct w as [o r n|i since|r|tok [n|]| |]; simpl; try done.
  - rewrite Hst, Hf'. intros (H0 & H1 & H2). done.
  - rewrite Hst, Hf', Hfu. intros [H1 H2].
    destruct (settle_futures a (end_attempt b)) as [[-> _]|(j & Hj & Hp & ->)];
      cbn [end_attempt _renewal_future futures] in *.
    + split; [|done]. destruct since as [n|]; [|done]. destruct (futures b !! i) as [[]|]; try done. by split; [apply H1|].
    + rewrite length_insert. split; [|done]. destruct since as [n|]; [|done].
      destruct (decide (i = j)) as [->|].
      * rewrite list_lookup_insert_eq by done. rewrite Hp in H1. destruct a as [|tok|]; [| |done].
        -- by split; [apply H1|].
        -- rewrite (Ht tok eq_refl). by apply H1.
      * rewrite list_lookup_insert_ne by done. destruct (futures b !! i) as [[]|]; try done. by split; [apply H1|].
  - intros H1 [Hr|Hr]%orb_prop; auto.
Qed.

(** A step of the bearer that starts no attempt and settles nothing. *)
Lemma quiet_caller b b' w :
  fetching b' = fetching b \/ fetching b' = false -> started b' = started b -> futures b' = futures b ->
  _cache b' = _cache b -> (_is_fresh b' = true -> _cache b' <> None) ->
  (_synchronous_can_proceed b' = true -> fetching b' = false) ->
  caller_ok b w -> caller_ok b' (release b' w).
Proof.
  intros Hf Hst Hfu Hc Hfr Hp. destruct w as [o r n|i since|r|tok [n|]| |]; simpl; try done; rewrite ?Hst, ?Hfu, ?Hc.
  - intros (H0 & H1 & H2). split_and!; [done..|]. intros [Hr|Hr]%orb_prop Hft; [|by rewrite Hp in Hft].
    destruct Hf as [Hf|Hf]; rewrite Hf in Hft; [auto|done].
  - intros [H1 H2]. split; [|done]. destruct since as [n|]; [|done]. destruct (futures b !! i) as [[]|]; try done.
    split; [apply H1|]. intros Hft. destruct Hf as [Hf|Hf]; rewrite Hf in Hft; [by apply H1|done].
  - intros H1 [Hr|Hr]%orb_prop; [auto|]. rewrite <- Hc. auto.
Qed.

Lemma loop_callers b b' w :
  loop_step b b' -> bearer_ok b -> (forall t tok, loop b = LFetching t -> b' = attempt_ok tok b -> tag tok = started b) ->
  caller_ok b w -> caller_ok b' (release b' w).
Proof.
  intros Hs Hok Ht. pose proof (loop_step_ok b b' Hs Hok) as [K1 K2 K3]. destruct Hok as [H1 H2 H3].
  assert (Hend : forall b' a, fetching b' = false -> started b' = started b ->
    futures b' = futures (settle a (end_attempt b)) -> fetching b = true ->
    (_cache b <> None -> _cache b' <> None) -> (_is_fresh b' = true -> _cache b' <> None) ->
    (forall tok, a = Got tok -> tag tok = started b) -> caller_ok b w -> caller_ok b' (release b' w)).
  { intros. by eapply (attempt_end_caller a b). }
  assert (Hset : forall a, started (settle a (end_attempt b)) = started b /\
     _cache (settle a (end_attempt b)) = _cache b).
  { intros a. unfold settle. by destruct (renewal_pending _). }
  destruct Hs as [b Hl Hst|b Hl Hst|b t tok Hl|b t Hl|b t Hl Hb|b t Hl|b d Hl Hr].
  - apply quiet_caller; auto.
  - destruct w as [o r n|i since|r|tok [n|]| |]; simpl in *; try done.
    + intros (H0 & H4 & H5). split_and!; [done|lia..].
    + intros [H4 H5]. split; [|done]. destruct since as [n|]; [|done]. destruct (futures b !! i) as [[]|]; try done. lia.
    + intros H4 [Hr|Hr]%orb_prop; auto.
  - apply (Hend _ (Got tok)); try done; [apply Hset|by unfold fetching; rewrite Hl|].
    intros tok' [= <-]. by eapply Ht.
  - apply (Hend _ Error); try done; [apply Hset|by unfold fetching; rewrite Hl|].
    simpl. by rewrite (proj2 (Hset Error)).
  - apply (Hend _ Error); try done; [apply Hset|by unfold fetching; rewrite Hl|].
    simpl. by rewrite (proj2 (Hset Error)).
  - apply quiet_caller; auto.
  - apply quiet_caller; auto.
Qed.

(** Callers only see the loop, the token and the shared results. *)
Lemma caller_ok_mono b b' w :
  fetching b' = fetching b -> started b' = started b -> _cache b' = _cache b ->
  (futures b' = futures b \/ futures b' = futures b ++ [Pending]) ->
  caller_ok b w -> caller_ok b' w.
Proof.
  intros Hf Hst Hc Hfu. destruct w as [o r n|i since|r|tok [n|]| |]; simpl; try done; rewrite ?Hf, ?Hst, ?Hc; try done.
  intros [H1 H2]. destruct Hfu as [->| ->]; [done|]. rewrite length_app, lookup_app_l by done. split; [done|lia].
Qed.

Lemma fetch_request_ok o since b b' w :
  bearer_ok b -> loop b <> LNone -> fetch_request o since b = (b', w) ->
  (since <> None -> synchronous o = true) ->
  match since with None => True | Some n => (n <= started b)%nat /\ (fetching b = true -> (n < started b)%nat) end ->
  bearer_ok b' /\ caller_ok b' w /\ forall w0, caller_ok b w0 -> caller_ok b' w0.
Proof.
  intros [H1 H2 H3] Hl Hf Hsy Hsince. unfold fetch_request in Hf.
  set (fresh := (report_error o || synchronous o) && negb (renewal_pending b)) in *.
  injection Hf as <- <-. split_and!.
  - split; simpl; auto.
  - destruct (report_error o || synchronous o) eqn:Eo; simpl; [|auto].
    destruct (renewal_pending b) eqn:Ep; simpl.
    + apply renewal_pending_spec in Ep as (i & Hi & Hp). rewrite Hi. simpl. rewrite Hp.
      split; [by destruct since|]. by eapply lookup_lt_Some.
    + rewrite lookup_app_r, Nat.sub_diag by done. simpl. rewrite length_app. simpl.
      split; [by destruct since|lia].
  - intros w0. apply caller_ok_mono; try done. simpl. destruct fresh; auto.
Qed.

Lemma fetch_begin_ok o b b' w :
  bearer_ok b -> fetch_begin o b = (b', w) ->
  bearer_ok b' /\ caller_ok b' w /\ (forall w0, caller_ok b w0 -> caller_ok b' w0) /\ loop b' <> LNone.
Proof.
  intros Hok Hf. unfold fetch_begin in Hf.
  set (b1 := match loop b with LNone => with_loop LHead b | _ => b end) in *.
  assert (Hb1 : bearer_ok b1 /\ loop b1 <> LNone /\ (forall w0, caller_ok b w0 -> caller_ok b1 w0)).
  { subst b1. destruct (loop b) eqn:El; try (split_and!; [done|by rewrite El|done]).
    split_and!; [|done|].
    - destruct Hok as [H1 H2 H3]. split; simpl; [done|done|]. intros Hp. destruct (H3 Hp) as [Hn _]. done.
    - intros w0. apply caller_ok_mono; try done; [|by left]. unfold fetching. simpl. by rewrite El. }
  clearbody b1. destruct Hb1 as (Hok1 & Hl & Hmono).
  destruct (is_renewal_required b1 || required o) eqn:Er.
  - destruct (synchronous o && negb (renewal_pending b1)) eqn:Es.
    + injection Hf as <- <-. destruct Hok1 as [H1 H2 H3]. split_and!.
      * split; simpl; auto.
      * simpl. apply andb_prop in Es as [Es _]. split_and!; [done|lia|]. intros Hp Hft. change (fetching b1 = true) in Hft. by rewrite H2 in Hft.
      * intros w0 Hw. apply (caller_ok_mono b1); try done; [by left|auto].
      * done.
    + destruct (fetch_request_ok o None b1 b' w Hok1 Hl Hf) as (K1 & K2 & K3); [done..|]. split_and!; auto.
      by injection Hf as <- _.
  - injection Hf as <- <-. split_and!; [done| |done|done]. unfold finish, is_renewal_required in *.
    by destruct (_cache b1).
Qed.

Lemma finish_ok b : _cache b <> None -> caller_ok b (finish b).
Proof. unfold finish. by destruct (_cache b). Qed.

Definition outside (b b' : bearer) : Prop :=
  b' = request_renewal b \/ b' = stop b \/ b' = close b \/ timer_step b b'.

Lemma outside_bearer_ok b b' : bearer_ok b -> outside b b' -> bearer_ok b'.
Proof.
  intros [H1 H2 H3] [->|[->|[->|Hb]]].
  - unfold request_renewal. destruct (_is_stopped b) eqn:E; [by split|]. split; simpl; try done.
    intros Hp. destruct (H3 Hp). auto.
  - split; simpl; try done. intros Hp. destruct (H3 Hp). auto.
  - split; [done| |]; unfold fetching; simpl; [by destruct (loop b)|].
    intros Hp. destruct (H3 Hp). destruct (loop b); auto.
  - destruct Hb as [b d Hl]. split; simpl; try done. intros Hp.
    destruct (H3 Hp) as [_ [Hf|[Hf|Hf]]]; [|by auto|congruence]. unfold fetching in Hf. by rewrite Hl in Hf.
Qed.

Lemma outside_callers b b' w : bearer_ok b -> outside b b' -> caller_ok b w -> caller_ok b' (release b' w).
Proof.
  intros Hok Hb. pose proof (outside_bearer_ok b b' Hok Hb) as [K1 K2 K3].
  destruct Hb as [->|[->|[->|Hb]]].
  - unfold request_renewal in *. destruct (_is_stopped b); apply quiet_caller; auto.
  - apply quiet_caller; auto.
  - apply quiet_caller; auto.
  - destruct Hb as [b d Hl]. apply quiet_caller; auto.
Qed.

Lemma after_bearer_ok s b' :
  system_ok s -> bearer_ok b' -> (forall w, caller_ok (bear s) w -> caller_ok b' (release b' w)) ->
  (loop (bear s) <> LNone -> loop b' <> LNone) -> system_ok (after_bearer b' s).
Proof.
  intros [Hb Hc Hl] K1 K2 K3. split; simpl; [done| |].
  - apply Forall_fmap. eapply Forall_impl; [done|]. intros w Hw. by apply K2.
  - intros Hne. apply K3, Hl. by destruct (callers s).
Qed.

Lemma insert_caller_ok s b' k w w0 :
  system_ok s -> callers s !! k = Some w0 -> bearer_ok b' -> caller_ok b' w ->
  (forall w, caller_ok (bear s) w -> caller_ok b' w) -> loop b' <> LNone ->
  system_ok (mkSystem b' (<[k := w]> (callers s))).
Proof.
  intros [Hb Hc Hl] Hk K1 K2 K3 K4. split; simpl; [done| |done].
  apply Forall_insert; [|done]. eapply Forall_impl; [done|]. apply K3.
Qed.

Lemma system_step_ok s s' : marked_step s s' -> system_ok s -> system_ok s'.
Proof.
  intros [Hs Ht] Hok. pose proof Hok as [Hb Hc Hl].
  assert (Hloop : forall k w, callers s !! k = Some w -> loop (bear s) <> LNone).
  { intros k w Hk. apply Hl. by destruct (callers s). }
  assert (Hout : forall b', outside (bear s) b' -> system_ok (after_bearer b' s)).
  { intros b' Hb'. apply after_bearer_ok; [done|by eapply outside_bearer_ok|intros; by eapply outside_callers|].
    destruct Hb' as [->|[->|[->|Hb']]]; [|done|simpl; by destruct (loop (bear s))|by destruct Hb'].
    unfold request_renewal. by destruct (_is_stopped _). }
  destruct Hs as [s b Hs|s b Hs|s|s|s|s o b w Hf|s k o n b w Hk Hf|s k i n tok Hk Hi|s k i n Hk Hi|s k Hk|s k w Hk Hw].
  - apply after_bearer_ok; [done|by eapply loop_step_ok|intros; eapply loop_callers; eauto|by destruct Hs].
  - apply Hout. unfold outside. auto.
  - apply Hout. unfold outside. auto.
  - apply Hout. unfold outside. auto.
  - apply Hout. unfold outside. auto.
  - destruct (fetch_begin_ok o (bear s) b w Hb Hf) as (K1 & K2 & K3 & K4). split; simpl; [done| |done].
    apply Forall_app. split; [|by constructor]. eapply Forall_impl; [done|]. apply K3.
  - pose proof (Forall_lookup_1 _ _ _ _ Hc Hk) as (W0 & W1 & W2).
    destruct (fetch_request_ok o (Some n) (bear s) b w Hb (Hloop _ _ Hk) Hf) as (K1 & K2 & K3); [done|by auto|].
    eapply insert_caller_ok; eauto. injection Hf as <- _. by apply (Hloop k _ Hk).
  - pose proof (Forall_lookup_1 _ _ _ _ Hc Hk) as [Hw _]. rewrite Hi in Hw.
    eapply insert_caller_ok; eauto.
  - eapply insert_caller_ok; eauto. done.
  - pose proof (Forall_lookup_1 _ _ _ _ Hc Hk) as Hw. simpl in Hw. eapply insert_caller_ok; eauto. apply finish_ok. auto.
  - eapply insert_caller_ok; eauto. done.
Qed.

Lemma system_rtc_ok s s' : rtc marked_step s s' -> system_ok s -> system_ok s'.
Proof. induction 1; [done|]. intros. apply IHrtc. by eapply system_step_ok. Qed.

(** C34: Whatever the callers, the source and the clock do, [fetch] never ends
    with an empty cache, and a synchronous caller that joined no running
    renewal gets a token from an attempt that was started after its call. *)
Theorem renewable_fetch_fresh s :
  rtc marked_step new_system s ->
  EmptyCache ∉ callers s /\
  forall tok n, Returned tok (Some n) ∈ callers s -> (n < tag tok)%nat.
Proof.
  intros Hs. destruct (system_rtc_ok _ _ Hs new_system_ok) as [_ Hc _]. rewrite Forall_forall in Hc.
  split; [intros H; apply (Hc _ H)|]. intros tok n H. apply (Hc _ H).
Qed.

(** ** Renewals are served *)

(** The shared result [i] is open, or it was settled. *)
Definition open_future (i : nat) (b : bearer) : Prop :=
  _renewal_future b = Some i /\ futures b !! i = Some Pending.
Definition settled (i : nat) (b : bearer) : Prop := exists a, futures b !! i = Some a /\ a <> Pending.

(** What the parts of [fetch] keep. *)
Lemma fetch_request_fields o since b b' w :
  fetch_request o since b = (b', w) ->
  loop b' = loop b /\ _is_stopped b' = _is_stopped b /\
  (futures b' = futures b \/ futures b' = futures b ++ [Pending]) /\
  (forall i, open_future i b -> open_future i b').
Proof.
  intros Hf. injection Hf as <- _. cbn [loop _is_stopped futures].
  set (fresh := (report_error o || synchronous o) && negb (renewal_pending b)).
  split_and!; [done|done|destruct fresh; auto|]. intros i Hi.
  assert (Hp : renewal_pending b = true) by (apply renewal_pending_spec; by exists i).
  assert (fresh = false) as -> by (unfold fresh; rewrite Hp; apply andb_false_r). done.
Qed.

Lemma fetch_begin_fields o b b' w :
  fetch_begin o b = (b', w) ->
  loop b' = match loop b with LNone => LHead | l => l end /\ _is_stopped b' = _is_stopped b /\
  (futures b' = futures b \/ futures b' = futures b ++ [Pending]) /\
  (forall i, open_future i b -> open_future i b').
Proof.
  unfold fetch_begin. set (b1 := match loop b with LNone => with_loop LHead b | _ => b end).
  assert (Hb1 : loop b1 = match loop b with LNone => LHead | l => l end /\ _is_stopped b1 = _is_stopped b /\
    futures b1 = futures b /\ _renewal_future b1 = _renewal_future b).
  { subst b1. by destruct (loop b) eqn:El. }
  clearbody b1. destruct Hb1 as (<- & <- & E1 & E2).
  assert (Ho : forall i, open_future i b -> open_future i b1) by (unfold open_future; rewrite E1, E2; done).
  rewrite <- E1. destruct (_ || _).
  - destruct (_ && _).
    + intros [= <- <-]. split_and!; auto.
    + intros (H1 & H2 & H3 & H4)%fetch_request_fields. split_and!; auto.
  - intros [= <- <-]. split_and!; auto.
Qed.

(** The end of the loop is final. *)
Lemma loop_done_step s s' : step s s' -> loop (bear s) = LDone -> loop (bear s') = LDone.
Proof.
  intros Hs Hl. destruct Hs as [s b Hs|s b Hs|s|s|s|s o b w Hf|s k o n b w Hk Hf| | | |]; simpl; try done.
  - destruct Hs; congruence.
  - destruct Hs; congruence.
  - unfold request_renewal. by destruct (_is_stopped (bear s)).
  - by rewrite Hl.
  - apply fetch_begin_fields in Hf as (-> & _). by rewrite Hl.
  - by apply fetch_request_fields in Hf as (-> & _).
Qed.

Definition loop_rank (b : bearer) : nat :=
  match loop b with LSleeping _ => 3 | LHead => 2 | LFetching _ => 1 | _ => 0 end.

Lemma settle_open i a b : a <> Pending -> open_future i b -> settled i (settle a (end_attempt b)).
Proof.
  intros Ha [Hi Hp]. exists a. split; [|done].
  destruct (settle_futures a (end_attempt b)) as [[_ Hn]|(j & Hj & _ & ->)].
  - assert (renewal_pending (end_attempt b) = true) by (apply renewal_pending_spec; by exists i). congruence.
  - simpl in Hj. replace j with i by congruence. apply list_lookup_insert_eq. by eapply lookup_lt_Some.
Qed.

Lemma loop_step_serves i b b' :
  loop_step b b' -> open_future i b -> loop b' <> LDone ->
  settled i b' \/ (open_future i b' /\ (loop_rank b' < loop_rank b)%nat).
Proof.
  intros Hs Hi Hd. destruct Hs as [b Hl Hs|b Hl Hs|b t tok Hl|b t Hl|b t Hl Hb|b t Hl|b d Hl Hr]; [done|..].
  - right. split; [done|]. unfold loop_rank. rewrite Hl. simpl. lia.
  - left. by apply (settle_open i (Got tok)).
  - left. by apply (settle_open i Error).
  - left. by apply (settle_open i Error).
  - done.
  - right. split; [done|]. unfold loop_rank. rewrite Hl. simpl. lia.
Qed.

(** A future that is settled stays so. *)
Lemma settled_step i s s' : step s s' -> settled i (bear s) -> settled i (bear s').
Proof.
  intros Hs (a & Ha & Hne).
  assert (Hset : forall x, settled i (settle x (end_attempt (bear s)))).
  { intros x. exists a. split; [|done].
    destruct (settle_futures x (end_attempt (bear s))) as [[-> _]|(j & Hj & Hp & ->)]; [done|].
    simpl in *. rewrite list_lookup_insert_ne; [done|]. intros ->. congruence. }
  destruct Hs as [s b Hs|s b Hs|s|s|s|s o b w Hf|s k o n b w Hk Hf| | | |]; simpl; try by exists a.
  - destruct Hs as [| |b t tok Hl|b t Hl|b t Hl Hb|b t Hl|]; try (by exists a);
      [apply (Hset (Got tok))|apply (Hset Error)..].
  - destruct Hs. by exists a.
  - unfold request_renewal. destruct (_is_stopped (bear s)); by exists a.
  - apply fetch_begin_fields in Hf as (_ & _ & Hfu & _).
    exists a. split; [|done]. destruct Hfu as [->| ->]; [done|]. by apply lookup_app_l_Some.
  - apply fetch_request_fields in Hf as (_ & _ & Hfu & _).
    exists a. split; [|done]. destruct Hfu as [->| ->]; [done|]. by apply lookup_app_l_Some.
Qed.

(** Requests, callers and their timeouts leave the loop and an open future alone. *)
Lemma open_step i s s' :
  step s s' -> open_future i (bear s) -> loop (bear s) <> LNone -> loop (bear s') <> LDone ->
  settled i (bear s') \/ (open_future i (bear s') /\ (loop_rank (bear s') <= loop_rank (bear s))%nat).
Proof.
  intros Hs Hi Hl Hd.
  destruct Hs as [s b Hs|s b Hs|s|s|s|s o b w Hf|s k o n b w Hk Hf| | | |]; simpl in *; try done; try (by right; split; [|lia]).
  - destruct (loop_step_serves i _ _ Hs Hi Hd) as [?|[? ?]]; [by left|right]. split; [done|lia].
  - right. destruct Hs as [b d El]. split; [done|]. unfold loop_rank. rewrite El. simpl. lia.
  - right. unfold request_renewal. destruct (_is_stopped (bear s)); by split.
  - right. by split.
  - right. split; [done|]. unfold loop_rank. simpl. destruct (loop (bear s)); lia.
  - right. apply fetch_begin_fields in Hf as (El & _ & _ & Ho). split; [auto|].
    unfold loop_rank. rewrite El. by destruct (loop (bear s)).
  - right. apply fetch_request_fields in Hf as (El & _ & _ & Ho). split; [auto|]. unfold loop_rank. by rewrite El.
Qed.

(** A run with [k] steps of the background loop. *)
Inductive run : nat -> system -> system -> Prop :=
| run_nil s : run 0 s s
| run_loop k s b s' : loop_step (bear s) b -> run k (after_bearer b s) s' -> run (S k) s s'
| run_other k s s1 s' : step s s1 -> run k s1 s' -> run k s s'.

Lemma renewal_run_done k s s' : run k s s' -> loop (bear s) = LDone -> loop (bear s') = LDone.
Proof.
  induction 1 as [|k s b s' Hs _ IH|k s s1 s' Hs _ IH]; [done|..]; intros Hl; apply IH; [|by eapply loop_done_step].
  apply (loop_done_step s (after_bearer b s)); [by apply step_loop|done].
Qed.

Lemma run_settled i k s s' : run k s s' -> settled i (bear s) -> settled i (bear s').
Proof.
  induction 1 as [|k s b s' Hs _ IH|k s s1 s' Hs _ IH]; [done|..]; intros Hi; apply IH; eapply settled_step; eauto.
  by apply step_loop.
Qed.

Lemma loop_not_none s s' : step s s' -> loop (bear s) <> LNone -> loop (bear s') <> LNone.
Proof.
  intros Hs Hl. destruct Hs as [s b Hs|s b Hs|s|s|s|s o b w Hf|s k o n b w Hk Hf| | | |]; simpl; try done.
  - by destruct Hs.
  - by destruct Hs.
  - unfold request_renewal. by destruct (_is_stopped (bear s)).
  - by destruct (loop (bear s)).
  - apply fetch_begin_fields in Hf as (-> & _). by destruct (loop (bear s)).
  - by apply fetch_request_fields in Hf as (-> & _).
Qed.

Lemma run_serves i k s s' :
  run k s s' -> open_future i (bear s) -> loop (bear s) <> LNone -> loop (bear s') <> LDone ->
  (loop_rank (bear s) <= k)%nat -> settled i (bear s').
Proof.
  intros Hr. induction Hr as [s|k s b s' Hs Hr IH|k s s1 s' Hs Hr IH]; intros Hi Hl Hd Hk.
  - unfold loop_rank in Hk. by destruct (loop (bear s)); try lia.
  - assert (step s (after_bearer b s)) as Hst by by apply step_loop.
    assert (loop b <> LDone) as Hb by (intros E; apply Hd; by apply (renewal_run_done _ _ _ Hr)).
    destruct (loop_step_serves i _ _ Hs Hi Hb) as [Hset|[Hi' Hlt]]; [by eapply run_settled|].
    apply IH; [done|by eapply loop_not_none|done|simpl; lia].
  - assert (loop (bear s1) <> LDone) as Hb by (intros E; apply Hd; by apply (renewal_run_done _ _ _ Hr)).
    destruct (open_step i _ _ Hs Hi Hl Hb) as [Hset|[Hi' Hle]]; [by eapply run_settled|].
    apply IH; [done|by eapply loop_not_none|done|lia].
Qed.

(** The ways a loop ends. *)
Lemma ends_by s s' :
  step s s' -> loop (bear s) <> LDone -> loop (bear s') = LDone ->
  _is_stopped (bear s') = true \/ (fetching (bear s) = true /\ bear s' = attempt_cancelled (bear s)).
Proof.
  intros Hs Hd Hl. unfold fetching.
  destruct Hs as [s b Hs|s b Hs|s|s|s|s o b w Hf|s k o n b w Hk Hf| | | |]; simpl in *; try done; auto.
  - destruct Hs as [b El Est|b El Est|b t tok El|b t El|b t El Hb|b t El|b d El Hr]; simpl in *; try done; auto.
    right. by rewrite El.
  - by destruct Hs.
  - unfold request_renewal in Hl. by destruct (_is_stopped (bear s)).
  - apply fetch_begin_fields in Hf as (E & _). rewrite E in Hl. by destruct (loop (bear s)).
  - apply fetch_request_fields in Hf as (E & _). congruence.
Qed.

(** After the loop has ended nothing settles a shared result. *)
Lemma stopped_forever i s s' :
  rtc step s s' -> loop (bear s) = LDone -> open_future i (bear s) ->
  loop (bear s') = LDone /\ open_future i (bear s').
Proof.
  induction 1 as [|s s1 s2 Hs _ IH]; [done|]. intros Hl Hi. apply IH; [by eapply loop_done_step|]. clear IH.
  destruct Hs as [s b Hs|s b Hs|s|s|s|s o b w Hf|s k o n b w Hk Hf| | | |]; simpl; try done.
  - destruct Hs; congruence.
  - destruct Hs; congruence.
  - unfold request_renewal. by destruct (_is_stopped (bear s)).
  - apply fetch_begin_fields in Hf as (_ & _ & _ & Ho). auto.
  - apply fetch_request_fields in Hf as (_ & _ & _ & Ho). auto.
Qed.

(** C15: A shared renewal result that callers wait for is settled, with a token or
    an error, after at most three steps of the background loop, unless the loop has
    ended; and until it ends the loop always has a next step.  The loop ends in
    three ways: [stop], [close], and a [CancelledError] of the source. *)
Theorem renewal_served s i :
  rtc marked_step new_system s -> open_future i (bear s) -> loop (bear s) <> LDone ->
  ((exists b, loop_step (bear s) b) /\
   forall k s', run k s s' -> loop (bear s') <> LDone -> (3 <= k)%nat -> settled i (bear s')) /\
  forall s', step s s' -> loop (bear s') = LDone ->
    _is_stopped (bear s') = true \/ (fetching (bear s) = true /\ bear s' = attempt_cancelled (bear s)).
Proof.
  intros Hs Hi Hd. destruct (system_rtc_ok _ _ Hs new_system_ok) as [[_ _ Hp] _ _].
  destruct Hp as [Hl Hr]; [apply renewal_pending_spec; by exists i|]. split_and!.
  - destruct (loop (bear s)) as [| |t|d|] eqn:El; [done| | | |done].
    + destruct (_is_stopped (bear s)) eqn:Est; eexists; [by apply loop_end|by apply loop_begin].
    + eexists. by eapply loop_error.
    + eexists. eapply loop_wake; [done|]. unfold fetching in Hr. rewrite El in Hr. by destruct Hr as [?|[?|?]].
  - intros k s' Hrun Hd' Hk. eapply run_serves; eauto. unfold loop_rank. destruct (loop (bear s)); lia.
  - intros s' Hstep. by apply ends_by.
Qed.

(** The exception is real: once the source has raised [CancelledError], the
    shared result that was open stays open for ever, although nobody has stopped
    the bearer, and no later [fetch] starts another loop. *)
Theorem cancelled_source_strands s t i :
  loop (bear s) = LFetching t -> open_future i (bear s) ->
  exists s1, step s s1 /\ _is_stopped (bear s1) = _is_stopped (bear s) /\
    forall s', rtc step s1 s' -> loop (bear s') = LDone /\ open_future i (bear s').
Proof.
  intros Hl Hi. exists (after_bearer (attempt_cancelled (bear s)) s). split_and!.
  - apply step_loop. by eapply loop_cancelled.
  - done.
  - intros s' Hr. by apply (stopped_forever i _ _ Hr).
Qed.

(** ** What a fetch may miss *)

Definition no_options : fetch_options := mkOptions false false false None.
Definition required_only : fetch_options := mkOptions true false false None.

(** A token that was invalidated is handed out again after the renewal that
    should replace it has failed: the failed attempt takes back the request, so
    the next plain [fetch] answers from the cache at once, although the bearer
    is not fresh. *)
Theorem invalidated_token_returned b tok :
  _cache b = Some tok -> _is_stopped b = false -> loop b <> LNone ->
  let b' := attempt_failed (begin_attempt (request_renewal b)) in
  _is_fresh b' = false /\ fetch_begin no_options b' = (b', Returned tok None).
Proof.
  intros Hc Hst Hl. unfold attempt_failed, request_renewal. rewrite Hst.
  set (b1 := end_attempt _).
  assert (Hset : _cache (settle Error b1) = Some tok /\ _is_fresh (settle Error b1) = false /\
    _renew_requested (settle Error b1) = false).
  { unfold settle. by destruct (renewal_pending b1). }
  destruct Hset as (E1 & E2 & E3). generalize dependent (settle Error b1). intros b2 E1 E2 E3. cbn.
  split; [done|]. unfold fetch_begin, is_renewal_required. cbn. rewrite E1, E3. cbn. done.
Qed.

(** [OPTION_RENEW_REQUIRED] alone does not wait for a renewal: on a fresh
    bearer the caller is let through at once and gets the cached token, while
    the renewal is only requested. *)
Theorem required_returns_cached b tok :
  _cache b = Some tok -> _is_fresh b = true -> loop b <> LNone ->
  exists b', fetch_begin required_only b = (b', WaitFresh true) /\ started b' = started b /\
    _renew_requested b' = true /\ finish b' = Returned tok None.
Proof.
  intros Hc Hf Hl. eexists. unfold fetch_begin. destruct (loop b) eqn:El; [done|..];
    rewrite orb_true_r; unfold fetch_request; simpl; rewrite Hf; (split; [done|]);
    unfold finish; simpl; by rewrite Hc.
Qed.

(** A caller that asked for errors, then [stop] before its renewal started. *)
Definition report_only : fetch_options := mkOptions false false true None.

(** [stop] does not release the callers of [fetch]: a caller that waits for
    a shared result when the bearer is stopped between two attempts waits for
    ever, unless its own timeout ends the wait; no [IsStoppedError] is raised. *)
Theorem stopped_caller_waits :
  exists s, rtc step new_system s /\ callers s = [WaitFuture 0 None] /\
    forall s', rtc step s s' -> open_future 0 (bear s') /\
      (forall tok n, callers s' !! 0%nat <> Some (Returned tok n)).
Proof.
  eexists. split.
  { eapply rtc_l; [by eapply (step_fetch _ report_only)|]. simpl.
    eapply rtc_l; [apply step_stop|]. simpl.
    eapply rtc_l; [apply step_loop; by apply loop_end|]. simpl. apply rtc_refl. }
  split; [done|]. intros s' Hs.
  assert (Hall : forall s s', rtc step s s' -> loop (bear s) = LDone -> open_future 0 (bear s) ->
    callers s !! 0%nat = Some (WaitFuture 0 None) \/ callers s !! 0%nat = Some Raised ->
    callers s' !! 0%nat = Some (WaitFuture 0 None) \/ callers s' !! 0%nat = Some Raised).
  { clear. induction 1 as [|s s1 s2 Hs _ IH]; [done|]. intros Hl Hi Hc.
    destruct (stopped_forever 0 s s1) as [Hl1 Hi1]; [by apply rtc_once|done|done|]. apply IH; [done|done|]. clear IH.
    assert (Hins : forall k w, (k <> 0%nat \/ w = Raised) ->
      (<[k := w]> (callers s)) !! 0%nat = Some (WaitFuture 0 None) \/ (<[k := w]> (callers s)) !! 0%nat = Some Raised).
    { intros k w [Hk| ->]; [by rewrite list_lookup_insert_ne|].
      destruct (decide (k = 0%nat)) as [->|]; [|by rewrite list_lookup_insert_ne].
      right. apply list_lookup_insert_eq. destruct Hc; by eapply lookup_lt_Some. }
    assert (Hrel : forall b, (release b <$> callers s) !! 0%nat = Some (WaitFuture 0 None) \/
      (release b <$> callers s) !! 0%nat = Some Raised).
    { intros b. rewrite list_lookup_fmap. by destruct Hc as [->| ->]; [left|right]. }
    destruct Hs as [s b Hs|s b Hs|s|s|s|s o b w Hf|s k o n b w Hk Hf|s k i n tok Hk Hf|s k i n Hk Hf|s k Hk|s k w Hk Hw];
      simpl; try apply Hrel; try (apply Hins; by right).
    - destruct Hc; [left|right]; by apply lookup_app_l_Some.
    - apply Hins. left. intros ->. destruct Hc; congruence.
    - destruct (decide (k = 0%nat)) as [->|]; [|apply Hins; by left].
      destruct Hc as [Hc|Hc]; rewrite Hc in Hk; [|done]. injection Hk as <- <-. destruct Hi. congruence.
    - apply Hins. left. intros ->. destruct Hc; congruence. }
  match type of Hs with rtc step ?s0 _ => destruct (stopped_forever 0 s0 s' Hs) as [H1 H2]; [done|done|] end.
  split; [done|]. intros tok n Hn. destruct (Hall _ _ Hs) as [E|E]; [done|done|by left|..]; congruence.
Qed.
End Bearer.

(** ** Delays *)

Lemma Qltb_true a b : Qltb a b = true <-> (a < b)%Q.
Proof.
  unfold Qltb. rewrite negb_true_iff. split.
  - intros H. apply Qnot_le_lt. intros Hle%Qle_bool_iff. congruence.
  - intros H. destruct (Qle_bool b a) eqn:E; [|done]. apply Qle_bool_iff in E. lra.
Qed.

Lemma Qltb_false a b : Qltb a b = false <-> (b <= a)%Q.
Proof. unfold Qltb. rewrite negb_false_iff. apply Qle_bool_iff. Qed.

Lemma at_least_initial_spec c d :
  (_initial_retry_timeout c <= at_least_initial c d)%Q /\ (d <= at_least_initial c d)%Q /\
  (at_least_initial c d == d \/ at_least_initial c d == _initial_retry_timeout c)%Q.
Proof.
  unfold at_least_initial. destruct (Qltb d _) eqn:E.
  - apply Qltb_true in E. split_and!; [lra|lra|right; lra].
  - apply Qltb_false in E. split_and!; [lra|lra|left; lra].
Qed.

(** The background loop never renews faster than the initial delay; after a
    failure the delay stays between the initial and the maximal one, starts at
    the initial one, and with an exponent of at least one it never shrinks
    while attempts keep failing; after a success it is at least the safe
    fraction of the token's life. *)
Theorem renewal_delay_bounds c :
  (_initial_retry_timeout c <= _max_retry_timeout c)%Q ->
  (forall left, (_initial_retry_timeout c <= delay_after_success c left)%Q /\
     forall l, left = Some l -> (l * _lifetime_safe_fraction c <= delay_after_success c left)%Q) /\
  (forall n prev, (_initial_retry_timeout c <= delay_after_failure c n prev <= _max_retry_timeout c)%Q) /\
  (forall prev, (delay_after_failure c 1 prev == _initial_retry_timeout c)%Q) /\
  (forall n prev, 1 < n -> flat_exponent c = false -> (1 <= _retry_timeout_exponent c)%Q ->
     (0 <= prev <= _max_retry_timeout c)%Q -> (prev <= delay_after_failure c n prev)%Q).
Proof.
  intros Hc. split_and!.
  - intros left. unfold delay_after_success. split; [apply at_least_initial_spec|].
    intros l ->. apply at_least_initial_spec.
  - intros n prev. unfold delay_after_failure.
    match goal with |- context [at_least_initial c ?d] => pose proof (at_least_initial_spec c d) as (H1 & _ & H3) end.
    split; [done|]. destruct H3 as [H3|H3]; rewrite H3; [|done].
    destruct (_ || _); [done|]. unfold Qmin'. destruct (Qltb _ _) eqn:E; [lra|]. apply Qltb_false in E. lra.
  - intros prev. unfold delay_after_failure. simpl. unfold at_least_initial. destruct (Qltb _ _); lra.
  - intros n prev Hn Hf He [Hp1 Hp2]. unfold delay_after_failure. rewrite Hf.
    destruct (Z.leb_spec n 1); [lia|]. simpl.
    eapply Qle_trans; [|apply at_least_initial_spec]. unfold Qmin'.
    destruct (Qltb _ _) eqn:E; [done|]. nra.
Qed.

(** ** The receiver *)

Record receiver : Type := mkReceiver { _max_retries : Z; _trial : Z }.

(** [_fetch] counts a trial before it asks the bearer. *)
Definition count_fetch (r : receiver) : receiver := mkReceiver (_max_retries r) (_trial r + 1).

Definition OPTION_MAX_RETRIES : pystr := u "max_fetch_token_retries".
Definition OPTION_RENEW_REQUIRED : pystr := u "token_renew_required".
Definition OPTION_RENEW_SYNCHRONOUS : pystr := u "token_renew_synchronous".
Definition OPTION_REPORT_ERROR : pystr := u "token_renew_report_error".
Definition OPTION_RENEW_REQUEST_TIMEOUT : pystr := u "token_renew_request_timeout".

(** [options.get(key, "") != ""] *)
Definition flag (options : list (pystr * pystr)) (key : pystr) : bool :=
  negb (bool_decide (default [] (dict_get options key) = [])).

(** The options [fetch] reads; [py_float] is [float()], [None] its
    [ValueError]. *)
Definition read_options (py_float : pystr -> option Q) (options : option (list (pystr * pystr))) : fetch_options :=
  match options with
  | None => mkOptions false false false None
  | Some o => mkOptions (flag o OPTION_RENEW_REQUIRED) (flag o OPTION_RENEW_SYNCHRONOUS) (flag o OPTION_REPORT_ERROR)
      (dict_get o OPTION_RENEW_REQUEST_TIMEOUT ≫= py_float)
  end.

(** [can_retry]: the answer, and whether the parent is told to renew;
    [py_int] is [int()], [None] its [ValueError]. *)
Definition can_retry (py_int : pystr -> option Z) (r : receiver) (options : option (list (pystr * pystr))) :
    bool * bool :=
  let '(max_retries, sync) :=
    match options with
    | None => (_max_retries r, false)
    | Some o =>
        (match dict_get o OPTION_MAX_RETRIES with
         | Some v => default (_max_retries r) (py_int v)
         | None => _max_retries r
         end, flag o OPTION_RENEW_SYNCHRONOUS)
    end in
  if max_retries <=? _trial r then (false, false) else (true, negb sync).

(** A caller that fetches, and fetches again as long as the receiver allows it:
    the number of fetches. *)
Fixpoint fetches (fuel : nat) (py_int : pystr -> option Z) (r : receiver) (options : option (list (pystr * pystr))) : Z :=
  match fuel with
  | O => 0
  | S fuel =>
      let r := count_fetch r in
      1 + if (can_retry py_int r options).1 then fetches fuel py_int r options else 0
  end.

(** Such a caller fetches at most [max_retries] times, and at least once. *)
Lemma fetches_bounded fuel py_int r :
  0 <= _trial r -> fetches fuel py_int r None <= Z.max 1 (_max_retries r - _trial r).
Proof.
  revert r. induction fuel as [|fuel IH]; intros r Hr; cbn [fetches]; [lia|].
  unfold can_retry. cbn [count_fetch _max_retries _trial].
  destruct (Z.leb_spec (_max_retries r) (_trial r + 1)); cbn [fst]; [lia|].
  specialize (IH (count_fetch r) ltac:(simpl; lia)). cbn [count_fetch _max_retries _trial] in IH |- *. lia.
Qed.

(** ** Instances *)

Definition ex_backoff : backoff := mkBackoff (9 # 10) 1 60 (3 # 2).

Lemma renewal_delay_bounds_witness : (1 <= delay_after_failure ex_backoff 5 (50 # 1) <= 60)%Q.
Proof. apply (proj1 (proj2 (renewal_delay_bounds ex_backoff ltac:(simpl; lra)))). Defined.

(** Tokens are the numbers of their attempts. *)
Definition ex_left (n : nat) : option Q := None.

(** A synchronous caller that waits for the first attempt. *)
Definition sync_only : fetch_options := mkOptions false true false None.

Definition ex_waiting : system :=
  mkSystem (T := nat)
    (mkBearer None false false true true true 0 None (Some 0%nat) [Pending] LHead 1 0)
    [WaitFuture 0 (Some 0%nat)].

Definition ex_served : system :=
  mkSystem (T := nat)
    (mkBearer (Some 1%nat) true false false true false 0 None None [Got 1%nat]
       (LSleeping VERY_LONG_TIMEOUT) VERY_LONG_TIMEOUT 1)
    [Returned 1%nat (Some 0%nat)].

Lemma ex_waiting_reached : rtc (marked_step ex_backoff 5 ex_left id) (new_system ex_backoff) ex_waiting.
Proof.
  eapply rtc_l; [split; [by eapply (step_fetch _ _ _ _ sync_only)|done]|]. simpl.
  eapply rtc_l; [split; [by eapply (step_proceed _ _ _ _ 0)|done]|]. apply rtc_refl.
Qed.

Lemma ex_served_reached : rtc (marked_step ex_backoff 5 ex_left id) (new_system ex_backoff) ex_served.
Proof.
  etransitivity; [apply ex_waiting_reached|].
  eapply rtc_l; [split; [apply step_loop; by apply loop_begin|done]|]. simpl.
  eapply rtc_l; [split; [apply step_loop; by eapply (loop_token _ _ _ _ _ 1%nat)|]|].
  { simpl. intros t tok _ E. by injection E as <-. }
  simpl. eapply rtc_l; [split; [by eapply (step_got _ _ _ _ 0)|done]|]. apply rtc_refl.
Qed.

Lemma renewable_fetch_fresh_witness : EmptyCache ∉ callers ex_served /\ (0 < 1)%nat.
Proof.
  destruct (renewable_fetch_fresh ex_backoff 5 ex_left id ex_served ex_served_reached) as [H1 H2].
  split; [exact H1|]. apply (H2 1%nat 0%nat). left.
Defined.

Lemma renewal_served_witness : exists b, loop_step ex_backoff 5 ex_left (bear ex_waiting) b.
Proof.
  apply (renewal_served ex_backoff 5 ex_left id ex_waiting 0 ex_waiting_reached); [split; reflexivity|discriminate].
Defined.

Lemma cancelled_source_strands_witness :
  exists s1, step ex_backoff 5 ex_left (mkSystem (begin_attempt 5 (bear ex_waiting)) (callers ex_waiting)) s1 /\
    _is_stopped (bear s1) = false.
Proof.
  destruct (cancelled_source_strands ex_backoff 5 ex_left (mkSystem (begin_attempt 5 (bear ex_waiting)) (callers ex_waiting))
    5 0 eq_refl (conj eq_refl eq_refl)) as (s1 & H1 & H2 & _). by exists s1.
Defined.

Lemma invalidated_token_returned_witness :
  (fetch_begin no_options
    (attempt_failed ex_backoff (begin_attempt 5 (request_renewal (bear ex_served))))).2 = Returned 1%nat None.
Proof.
  rewrite (proj2 (invalidated_token_returned ex_backoff 5 (bear ex_served) 1%nat eq_refl eq_refl ltac:(discriminate))).
  reflexivity.
Defined.

Lemma required_returns_cached_witness :
  exists b', fetch_begin required_only (bear ex_served) = (b', WaitFresh true) /\ finish b' = Returned 1%nat None.
Proof.
  destruct (required_returns_cached (bear ex_served) 1%nat eq_refl eq_refl ltac:(discriminate)) as (b' & H1 & _ & _ & H2).
  by exists b'.
Defined.
