(* ===== verification/ChannelPool.v ===== *)
(** * The pool of transports

    [src/nebius/aio/channel.py] leases native gRPC channels to calls and keeps
    returned ones for reuse; [src/nebius/aio/base.py] has the wrapper, one fresh
    [AddressChannel] per lease, whose [_retired_by_sdk] mark decides who may close
    the transport.  Leases, returns and the clean-up run on the SDK loop, one at a
    time, but [close] and late releases come from other threads: every section
    under the pool lock is one definition, and the sections of one operation are
    separate steps.  The native channel, its connectivity and the moment of each
    step are the environment's; wrappers of applications that override
    [_new_lease] are not modelled. *)
From stdpp Require Import relations.
From S2P Require Import Prelude.

(** ** Wrappers and the pool *)

(** [channel] is the identity of the native channel, [own_loop] whether
    [event_loop] is the SDK loop; [handed] records that a caller has had the
    wrapper, and so may release it. *)
Record AddressChannel : Type := mkWrapper {
  address : pystr;
  channel : nat;
  own_loop : bool;
  _retired_by_sdk : bool;
  handed : bool
}.

Definition set_retired (x : AddressChannel) : AddressChannel :=
  mkWrapper (address x) (channel x) (own_loop x) true (handed x).
Definition set_handed (x : AddressChannel) : AddressChannel :=
  mkWrapper (address x) (channel x) (own_loop x) (_retired_by_sdk x) true.

(** [_new_lease] *)
Definition _new_lease (x : AddressChannel) : AddressChannel :=
  mkWrapper (address x) (channel x) (own_loop x) false false.

(** Where the clean-up of [_close_internal] is: before its snapshot, awaiting
    [cancel_submissions], awaiting the closes it has requested, at its end or in its
    [except] branch. *)
Inductive cleanup_state : Type := NoCleanup | CancellingWork | ClosesRequested | CleanupDone | CleanupFailed.

(** Wrappers are objects, known by their index.  [_close_completion] tells
    whether [_close_internal] has taken its snapshot, [channels].  [closing] are the
    wrappers whose native close was handed to a task, a submission or the loop that owns
    the transport; [refused] those whose close was not, because the loop has stopped or
    the task was refused, or because the clean-up failed before.  [created] counts native
    channels. *)
Record pool : Type := mkPool {
  wrappers : list AddressChannel;
  _free_channels : list (pystr * list nat);
  _leased_channels : list nat;
  _closed : bool;
  _close_completion : bool;
  closing : list nat;
  refused : list nat;
  channels : list nat;
  cleanup : cleanup_state;
  created : nat
}.

Section Pool.
Context (_max_free_channels_per_address : nat).

Definition new_pool : pool := mkPool [] [] [] false false [] [] [] NoCleanup 0.

Definition is_retired (w : nat) (p : pool) : bool :=
  match wrappers p !! w with Some x => _retired_by_sdk x | None => false end.
Definition is_own (w : nat) (p : pool) : bool :=
  match wrappers p !! w with Some x => own_loop x | None => false end.

Definition with_wrappers (h : list AddressChannel) (p : pool) : pool :=
  mkPool h (_free_channels p) (_leased_channels p) (_closed p) (_close_completion p) (closing p) (refused p) (channels p)
    (cleanup p) (created p).
Definition with_free (f : list (pystr * list nat)) (p : pool) : pool :=
  mkPool (wrappers p) f (_leased_channels p) (_closed p) (_close_completion p) (closing p) (refused p) (channels p)
    (cleanup p) (created p).
Definition with_leased (l : list nat) (p : pool) : pool :=
  mkPool (wrappers p) (_free_channels p) l (_closed p) (_close_completion p) (closing p) (refused p) (channels p)
    (cleanup p) (created p).
Definition with_closing (l r : list nat) (p : pool) : pool :=
  mkPool (wrappers p) (_free_channels p) (_leased_channels p) (_closed p) (_close_completion p) l r (channels p)
    (cleanup p) (created p).
Definition with_cleanup (c : cleanup_state) (p : pool) : pool :=
  mkPool (wrappers p) (_free_channels p) (_leased_channels p) (_closed p) (_close_completion p) (closing p) (refused p)
    (channels p) c (created p).

(** [_retire_by_sdk]: the mark is set; the answer is whether it was not yet. *)
Definition _retire_by_sdk (w : nat) (p : pool) : bool * pool :=
  (negb (is_retired w p), with_wrappers (alter set_retired w (wrappers p)) p).

(** ** Sections *)

(** The entries of a dict of lists without one wrapper; empty lists go. *)
Definition drop_free (addr : pystr) (w : nat) (f : list (pystr * list nat)) : list (pystr * list nat) :=
  match dict_get f addr with
  | None => f
  | Some l =>
      match filter (fun v => v <> w) l with
      | [] => dict_del f addr
      | l => dict_set f addr l
      end
  end.

Definition address_of (w : nat) (p : pool) : pystr :=
  match wrappers p !! w with Some x => address x | None => [] end.

(** The native close is handed over, or is not: a foreign owner has stopped or stops
    before it takes the close over, or the runtime refuses the work. *)
Definition start_close (accepted : bool) (w : nat) (p : pool) : pool :=
  if accepted then with_closing (closing p ++ [w]) (refused p) p else with_closing (closing p) (refused p ++ [w]) p.

Definition request_close (accepted : bool) (w : nat) (p : pool) : pool :=
  start_close accepted w (with_free (drop_free (address_of w p) w (_free_channels p)) p).

(** [_schedule_address_channel_close] *)
Definition _schedule_address_channel_close (w : nat) (already_retired accepted : bool) (p : pool) : pool :=
  if already_retired then request_close accepted w p else
  let '(first, p) := _retire_by_sdk w p in
  if first then request_close accepted w p else p.

Inductive pool_error : Type := ChannelClosedError.

(** The search of [_get_channel_by_addr_internal], from the end. *)
Fixpoint pop_last (f : nat -> bool) (l : list nat) : option (nat * list nat) :=
  match l with
  | [] => None
  | x :: l =>
      match pop_last f l with
      | Some (w, r) => Some (w, x :: r)
      | None => if f x then Some (x, l) else None
      end
  end.

Definition pop_section (addr : pystr) (p : pool) : result pool_error (option nat * pool) :=
  if _closed p then Raise ChannelClosedError else
  let chans := default [] (dict_get (_free_channels p) addr) in
  match pop_last (fun w => is_own w p) chans with
  | Some (w, rest) => Ok (Some w, with_free (dict_set (_free_channels p) addr rest) p)
  | None => Ok (None, with_free (dict_set (_free_channels p) addr chans) p)
  end.

(** [create_address_channel]: a wrapper of a new native channel. *)
Definition create_address_channel (addr : pystr) (own : bool) (p : pool) : nat * pool :=
  (length (wrappers p),
   mkPool (wrappers p ++ [mkWrapper addr (created p) own false false]) (_free_channels p) (_leased_channels p)
     (_closed p) (_close_completion p) (closing p) (refused p) (channels p) (cleanup p) (S (created p))).

(** [_lease_address_channel] *)
Definition _lease_address_channel (w : nat) (accepted : bool) (p : pool) : result pool_error nat * pool :=
  if _closed p then (Raise ChannelClosedError, _schedule_address_channel_close w false accepted p)
  else (Ok w, with_leased (w :: _leased_channels p) (with_wrappers (alter set_handed w (wrappers p)) p)).

Definition is_leased (w : nat) (p : pool) : bool := bool_decide (w ∈ _leased_channels p).
Definition pop_leased (w : nat) (p : pool) : pool :=
  with_leased (filter (fun v => v <> w) (_leased_channels p)) p.

(** The section of a release that finds the pool closed: whether the wrapper is leased. *)
Definition closed_lookup (w : nat) (p : pool) : bool * pool :=
  (is_leased w p, if _close_completion p then pop_leased w p else p).

(** The first section of [_release_address_channel] on an open pool, with the
    retirement that a discard reserves. *)
Definition release_begin (w : nat) (discard : bool) (p : pool) : bool * pool :=
  let p := pop_leased w p in
  if discard then _retire_by_sdk w p else (false, p).

(** The rest of [_release_address_channel]; [shutdown] is the connectivity. *)
Definition release_end (w : nat) (discard reserved shutdown accepted : bool) (p : pool) : pool :=
  match wrappers p !! w with
  | None => p
  | Some x =>
      let reusable := negb discard && negb (_retired_by_sdk x) && own_loop x && negb shutdown in
      if negb (_closed p) && reusable then
        let chans := default [] (dict_get (_free_channels p) (address x)) in
        let p := with_free (dict_set (_free_channels p) (address x) chans) p in
        if bool_decide (w ∈ chans) then p else
        if (length chans <? _max_free_channels_per_address)%nat then
          let '(_, p) := _retire_by_sdk w p in
          with_free (dict_set (_free_channels p) (address x) (chans ++ [length (wrappers p)]))
            (with_wrappers (wrappers p ++ [_new_lease x]) p)
        else _schedule_address_channel_close w reserved accepted p
      else _schedule_address_channel_close w reserved accepted p
  end.

(** The snapshot of [_close_internal]: every tracked wrapper is retired and kept for the
    clean-up. *)
Definition tracked (p : pool) : list nat := concat (_free_channels p).*2 ++ _leased_channels p.

Definition close_snapshot (p : pool) : pool :=
  if _close_completion p then p else
  mkPool (foldr (fun w h => alter set_retired w h) (wrappers p) (tracked p)) [] (_leased_channels p) true true
    (closing p) (refused p) (tracked p) CancellingWork (created p).

(** The clean-up after [cancel_submissions]: the closes are requested, of transports of
    other loops by [_schedule_address_channel_close], of the others as tasks.  [accepted]
    are the answers. *)
Definition close_channel (accepted : nat -> bool) (p : pool) (w : nat) : pool :=
  if is_own w p then start_close (accepted w) w p else _schedule_address_channel_close w true (accepted w) p.
Definition cleanup_close (accepted : nat -> bool) (p : pool) : pool :=
  with_cleanup ClosesRequested (foldl (close_channel accepted) p (channels p)).

(** The clean-up forgets the leases of the snapshot. *)
Definition forget_leases (p : pool) : pool :=
  with_leased (filter (fun w => w ∉ channels p) (_leased_channels p)) p.
Definition cleanup_end (p : pool) : pool := with_cleanup CleanupDone (forget_leases p).

(** The [except] branch of the clean-up; nothing is closed when [cancel_submissions] has
    raised. *)
Definition cleanup_fails (p : pool) : pool :=
  let p := match cleanup p with CancellingWork => with_closing (closing p) (refused p ++ channels p) p | _ => p end in
  with_cleanup CleanupFailed (forget_leases p).

(** [_get_close_handle] *)
Definition set_closed (p : pool) : pool :=
  mkPool (wrappers p) (_free_channels p) (_leased_channels p) true (_close_completion p) (closing p) (refused p) (channels p)
    (cleanup p) (created p).

(** ** The interleaving *)

(** What the SDK loop is in the middle of. *)
Inductive activity : Type :=
| Idle
| Searching (addr : pystr)               (** the head of the loop of a lease *)
| Popped (addr : pystr) (w : nat)        (** a pooled candidate, its state not read yet *)
| Creating (addr : pystr)
| Leasing (w : nat)
| Releasing (w : nat) (discard reserved : bool).

(** A release on any thread that has found the pool closed, and what the lookup found;
    and one that is going to close the transport. *)
Inductive late_release : Type := LateLooked (w : nat) (leased : bool) | LateCloses (w : nat).

Record state : Type := mkState { pl : pool; act : activity; late : list late_release }.

Definition may_release (w : nat) (p : pool) : Prop :=
  exists x, wrappers p !! w = Some x /\ handed x = true.

Inductive loop_step : state -> state -> Prop :=
| get_begin p addr l : loop_step (mkState p Idle l) (mkState p (Searching addr) l)
| get_refused p addr e l : pop_section addr p = Raise e -> loop_step (mkState p (Searching addr) l) (mkState p Idle l)
| get_popped p addr w p' l : pop_section addr p = Ok (Some w, p') ->
    loop_step (mkState p (Searching addr) l) (mkState p' (Popped addr w) l)
| get_none p addr p' l : pop_section addr p = Ok (None, p') ->
    loop_step (mkState p (Searching addr) l) (mkState p' (Creating addr) l)
| get_stopped p addr w accepted l :
    loop_step (mkState p (Popped addr w) l) (mkState (_schedule_address_channel_close w false accepted p) (Searching addr) l)
| get_usable p addr w l : loop_step (mkState p (Popped addr w) l) (mkState p (Leasing w) l)
| get_create p addr own w p' l : create_address_channel addr own p = (w, p') ->
    loop_step (mkState p (Creating addr) l) (mkState p' (Leasing w) l)
| get_lease p w accepted r p' l : _lease_address_channel w accepted p = (r, p') ->
    loop_step (mkState p (Leasing w) l) (mkState p' Idle l)
| release_open p w discard reserved p' l : may_release w p -> _closed p = false ->
    release_begin w discard p = (reserved, p') ->
    loop_step (mkState p Idle l) (mkState p' (Releasing w discard reserved) l)
| release_rest p w discard reserved shutdown accepted l :
    loop_step (mkState p (Releasing w discard reserved) l) (mkState (release_end w discard reserved shutdown accepted p) Idle l)
| close_run p l : _closed p = true -> loop_step (mkState p Idle l) (mkState (close_snapshot p) Idle l)
| close_requests p accepted l : cleanup p = CancellingWork ->
    loop_step (mkState p Idle l) (mkState (cleanup_close accepted p) Idle l)
| close_end p l : cleanup p = ClosesRequested -> loop_step (mkState p Idle l) (mkState (cleanup_end p) Idle l)
| close_fails p l : cleanup p = CancellingWork \/ cleanup p = ClosesRequested ->
    loop_step (mkState p Idle l) (mkState (cleanup_fails p) Idle l).

(** [close] from any thread, and the sections of a release that finds the pool closed, on
    any thread, the loop's included: the lookup, the test of the mark, and
    [_schedule_address_channel_close]. *)
Inductive outside_step : state -> state -> Prop :=
| outside_close p a l : outside_step (mkState p a l) (mkState (set_closed p) a l)
| late_look p a l w leased p' : may_release w p -> _closed p = true -> closed_lookup w p = (leased, p') ->
    outside_step (mkState p a l) (mkState p' a (LateLooked w leased :: l))
| late_test p a l1 l2 w leased :
    outside_step (mkState p a (l1 ++ LateLooked w leased :: l2))
      (mkState p a (l1 ++ (if negb leased && negb (is_retired w p) then [LateCloses w] else []) ++ l2))
| late_close p a l1 l2 w accepted :
    outside_step (mkState p a (l1 ++ LateCloses w :: l2)) (mkState (_schedule_address_channel_close w false accepted p) a (l1 ++ l2)).

Definition step (s s' : state) : Prop := loop_step s s' \/ outside_step s s'.

Definition new_state : state := mkState new_pool Idle [].

(** ** Invariant *)

Definition live (p : pool) (w : nat) (x : AddressChannel) : Prop :=
  wrappers p !! w = Some x /\ _retired_by_sdk x = false.

Definition in_free (p : pool) (w : nat) : Prop :=
  exists addr l, dict_get (_free_channels p) addr = Some l /\ w ∈ l.

(** Nobody can use the transport of a dead wrapper any more. *)
Definition dead (p : pool) (w : nat) : Prop :=
  exists x, wrappers p !! w = Some x /\ _retired_by_sdk x = true /\
    forall w' x', live p w' x' -> channel x' <> channel x.

(** What is to be closed: by somebody already, by nobody, or by the clean-up. *)
Definition doomed (p : pool) : list nat := closing p ++ refused p ++ channels p.

Definition closes_requested (p : pool) : bool :=
  match cleanup p with ClosesRequested | CleanupDone | CleanupFailed => true | _ => false end.

(** The leases of the snapshot, and what is closed of it. *)
Record cleanup_ok (p : pool) : Prop := {
  cl_none : _close_completion p = false <-> cleanup p = NoCleanup;
  cl_empty : _close_completion p = false -> channels p = [];
  cl_leased : _close_completion p = true -> forall w, w ∈ _leased_channels p -> w ∈ channels p;
  cl_unique : _close_completion p = true -> forall w1 w2 x1 x2, w1 ∈ _leased_channels p -> w2 ∈ _leased_channels p ->
    wrappers p !! w1 = Some x1 -> wrappers p !! w2 = Some x2 -> channel x1 = channel x2 -> w1 = w2;
  cl_apart : cleanup p = CancellingWork -> forall w1 w2 x1 x2, w1 ∈ _leased_channels p -> w2 ∈ closing p ->
    wrappers p !! w1 = Some x1 -> wrappers p !! w2 = Some x2 -> channel x1 <> channel x2;
  cl_requested : closes_requested p = true -> forall w, w ∈ channels p -> w ∈ closing p \/ w ∈ refused p;
  cl_done : cleanup p = CleanupDone \/ cleanup p = CleanupFailed -> _leased_channels p = []
}.

(** [inflight]: the wrapper an operation holds between two sections;
    [reserved]: a retired one whose close it is about to request. *)
Record pool_ok (p : pool) (inflight reserved : option nat) : Prop := {
  ok_unique : forall w1 w2 x1 x2, live p w1 x1 -> live p w2 x2 -> channel x1 = channel x2 -> w1 = w2;
  ok_native : forall w x, wrappers p !! w = Some x -> (channel x < created p)%nat;
  ok_wf : dict_wf (_free_channels p);
  ok_free : forall addr l w, dict_get (_free_channels p) addr = Some l -> w ∈ l ->
    exists x, live p w x /\ own_loop x = true /\ address x = addr /\ handed x = false;
  ok_list : forall addr l, dict_get (_free_channels p) addr = Some l ->
    NoDup l /\ (length l <= _max_free_channels_per_address)%nat;
  ok_leased : forall w, w ∈ _leased_channels p -> exists x, wrappers p !! w = Some x /\ handed x = true /\
    (_close_completion p = false -> _retired_by_sdk x = false);
  ok_closing : forall w, w ∈ doomed p -> dead p w;
  ok_reserved : forall w, reserved = Some w -> dead p w;
  ok_tracked : forall w x, live p w x -> in_free p w \/ w ∈ _leased_channels p \/ inflight = Some w;
  ok_covered : forall n, (n < created p)%nat ->
    (exists w x, live p w x /\ channel x = n) \/
    (exists w x, (w ∈ doomed p \/ reserved = Some w) /\ wrappers p !! w = Some x /\ channel x = n);
  ok_completed : _close_completion p = true -> _closed p = true /\ _free_channels p = [] /\
    forall w x, w ∈ _leased_channels p -> wrappers p !! w = Some x -> _retired_by_sdk x = true;
  ok_cleanup : cleanup_ok p
}.

Definition holds (p : pool) (a : activity) : Prop :=
  match a with
  | Idle | Searching _ => pool_ok p None None
  | Creating _ => _close_completion p = false /\ pool_ok p None None
  | Popped _ w | Leasing w =>
      _close_completion p = false /\ pool_ok p (Some w) None /\
      exists x, live p w x /\ handed x = false /\ ~ in_free p w
  | Releasing w _ reserved =>
      _close_completion p = false /\ pool_ok p (Some w) (if reserved then Some w else None) /\
      may_release w p /\ w ∉ _leased_channels p
  end.

(** Before the snapshot the clean-up has no state. *)
Lemma cleanup_ok_open p p' :
  _close_completion p = false -> _close_completion p' = false -> cleanup p' = cleanup p -> channels p' = channels p ->
  cleanup_ok p -> cleanup_ok p'.
Proof.
  intros Hc Hc' E1 E2 []. assert (cleanup p = NoCleanup) as E by (by apply cl_none0).
  split; unfold closes_requested; rewrite ?Hc', ?E1, ?E2, ?E; try done; [by auto|]. by intros [|].
Qed.

(** Leases go. *)
Lemma cleanup_ok_fewer p l :
  (forall w, w ∈ l -> w ∈ _leased_channels p) -> cleanup_ok p -> cleanup_ok (with_leased l p).
Proof.
  intros Hl []. split; cbn; try done; auto.
  - intros Hc w1 w2 x1 x2 H1%Hl H2%Hl. eauto.
  - intros Hc w1 w2 x1 x2 H1%Hl. eauto.
  - intros Hd. specialize (cl_done0 Hd). destruct l as [|w l]; [done|]. specialize (Hl w ltac:(left)). rewrite cl_done0 in Hl.
    by apply not_elem_of_nil in Hl.
Qed.

Lemma new_state_ok : holds new_pool Idle.
Proof.
  split; try (by intros); simpl.
  - by intros w1 w2 x1 x2 [? _].
  - apply dict_nil_wf.
  - by intros w ?%not_elem_of_nil.
  - by intros w ?%not_elem_of_nil.
  - by intros w x [? _].
  - lia.
Qed.

Lemma pool_ok_inflight p e r : pool_ok p None r -> pool_ok p e r.
Proof.
  intros [? ? ? ? ? ? ? ? Ht ? ? ?]. split; try done. intros w x Hw. destruct (Ht w x Hw) as [|[|]]; auto. done.
Qed.

(** A free wrapper has never been handed out. *)
Lemma handed_not_free p e r w x :
  pool_ok p e r -> wrappers p !! w = Some x -> handed x = true -> ~ in_free p w.
Proof.
  intros Hok Hw Hh (addr & l & Hl & Hin). destruct (ok_free _ _ _ Hok addr l w Hl Hin) as (x' & [Hx' _] & _ & _ & Hf).
  congruence.
Qed.

(** ** Dropping a wrapper from the free lists *)

Lemma filter_other (w : nat) (l : list nat) : w ∉ l -> filter (fun v => v <> w) l = l.
Proof.
  induction l as [|v l IH]; [done|]. intros [Hv Hl]%not_elem_of_cons.
  rewrite filter_cons_True by done. by rewrite IH.
Qed.

Lemma drop_free_wf addr w f : dict_wf f -> dict_wf (drop_free addr w f).
Proof.
  intros Hf. unfold drop_free. destruct (dict_get f addr) as [l|]; [|done].
  destruct (filter _ l); auto using dict_set_wf, dict_del_wf.
Qed.

(** For a wrapper that is not free only an empty list may go. *)
Lemma drop_free_get addr w f a l :
  (forall a l, dict_get f a = Some l -> w ∉ l) ->
  dict_get (drop_free addr w f) a = Some l -> dict_get f a = Some l.
Proof.
  intros Hw. unfold drop_free. destruct (dict_get f addr) as [l0|] eqn:E; [|done].
  rewrite filter_other by eauto. destruct l0 as [|v l0].
  - rewrite dict_get_del. by case_decide.
  - rewrite dict_get_set. case_decide; [subst; congruence|done].
Qed.

Lemma drop_free_keeps addr w f a l v :
  (forall a l, dict_get f a = Some l -> w ∉ l) ->
  dict_get f a = Some l -> v ∈ l -> dict_get (drop_free addr w f) a = Some l.
Proof.
  intros Hw Hl Hv. unfold drop_free. destruct (dict_get f addr) as [l0|] eqn:E; [|done].
  rewrite filter_other by eauto. destruct l0 as [|v0 l0].
  - rewrite dict_get_del. case_decide; [subst|done]. rewrite E in Hl. injection Hl as <-.
    by apply not_elem_of_nil in Hv.
  - rewrite dict_get_set. case_decide; [subst; congruence|done].
Qed.

(** ** Retirement and closing *)

Definition retired (w : nat) (p : pool) : pool := with_wrappers (alter set_retired w (wrappers p)) p.

Lemma lookup_retired w p v :
  wrappers (retired w p) !! v = if decide (v = w) then set_retired <$> wrappers p !! v else wrappers p !! v.
Proof.
  simpl. case_decide as E; [subst; apply list_lookup_alter_eq|by apply list_lookup_alter_ne].
Qed.

Lemma live_retired w p v x : live (retired w p) v x <-> v <> w /\ live p v x.
Proof.
  unfold live. rewrite lookup_retired. case_decide as E; [|naive_solver].
  split; [|naive_solver]. intros [H1 H2]. destruct (wrappers p !! v); [|done]. by injection H1 as <-.
Qed.

Lemma lookup_retired_Some w p v x :
  wrappers p !! v = Some x -> exists x', wrappers (retired w p) !! v = Some x' /\ channel x' = channel x /\
    handed x' = handed x /\ (v <> w -> x' = x) /\ (_retired_by_sdk x = true -> _retired_by_sdk x' = true).
Proof. rewrite lookup_retired. intros ->. case_decide; simpl; eexists; split_and!; done. Qed.

Lemma dead_retired w p v : dead p v -> dead (retired w p) v.
Proof.
  intros (x & Hx & Hr & Hl). destruct (lookup_retired_Some w p v x Hx) as (x' & Hx' & Hc & _ & _ & Hr').
  exists x'. split_and!; [done|auto|]. intros w' y [_ Hy]%live_retired. rewrite Hc. eauto.
Qed.

Lemma retired_id w p : is_retired w p = true -> retired w p = p.
Proof.
  unfold is_retired, retired. intros H. destruct (wrappers p !! w) as [x|] eqn:E; [|done].
  destruct p as [h f l c cc cl n]. unfold with_wrappers. simpl in *. f_equal.
  apply list_eq. intros v. destruct (decide (w = v)) as [<-|]; [|by rewrite list_lookup_alter_ne].
  rewrite list_lookup_alter_eq, E. simpl. by destruct x as [? ? ? []].
Qed.

Lemma retire_ok p w x :
  _close_completion p = false -> pool_ok p (Some w) None -> live p w x -> w ∉ _leased_channels p -> ~ in_free p w ->
  pool_ok (retired w p) None (Some w).
Proof.
  intros Hcc Hok Hw Hl Hf. pose proof Hw as [Hx Hr]. destruct Hok. split; try done.
  - intros w1 w2 x1 x2 [_ H1]%live_retired [_ H2]%live_retired. eauto.
  - intros v y Hv. rewrite lookup_retired in Hv. case_decide; [|eauto].
    apply fmap_Some in Hv as (y' & Hy' & ->). by apply (ok_native0 v y').
  - intros addr l v Hv Hin. destruct (ok_free0 addr l v Hv Hin) as (y & Hy & ?). exists y.
    split; [|done]. apply live_retired. split; [|done]. intros ->. by destruct Hf; exists addr, l.
  - intros v Hv. destruct (ok_leased0 v Hv) as (y & Hy & ?). exists y. rewrite lookup_retired.
    rewrite decide_False; [done|]. by intros ->.
  - intros v Hv. apply dead_retired. eauto.
  - intros v [= <-]. exists (set_retired x). rewrite lookup_retired, decide_True, Hx by done.
    split_and!; [done..|]. intros w' x' [Hne Hw']%live_retired Hc. destruct Hne. by apply (ok_unique0 w' w x' x).
  - intros v y [Hne Hv]%live_retired. destruct (ok_tracked0 v y Hv) as [|[|[=]]]; auto. congruence.
  - intros n Hn. destruct (ok_covered0 n Hn) as [(v & y & Hv & Hc)|(v & y & [Hv|[=]] & Hy & Hc)].
    + destruct (decide (v = w)) as [->|].
      * right. exists w, (set_retired x). rewrite lookup_retired, decide_True, Hx by done.
        split_and!; [by right|done|]. destruct Hv. simpl. congruence.
      * left. exists v, y. split; [by apply live_retired|done].
    + right. destruct (lookup_retired_Some w p v y Hy) as (y' & Hy' & Hc' & _). exists v, y'.
      split_and!; [by left|done|congruence].
  - intros Hc. destruct (ok_completed0 Hc) as (? & ? & Hall). split_and!; [done..|].
    intros v y Hv. rewrite lookup_retired. case_decide; [subst; done|]. eauto.
  - by apply (cleanup_ok_open p).
Qed.

(** The reserved wrapper is closed. *)
Lemma doomed_start accepted w p v : v ∈ doomed (start_close accepted w p) <-> v ∈ doomed p \/ v = w.
Proof. unfold doomed, start_close. destruct accepted; cbn; rewrite !elem_of_app, list_elem_of_singleton; tauto. Qed.

Lemma request_ok p w e accepted :
  _close_completion p = false -> pool_ok p e (Some w) -> ~ in_free p w -> pool_ok (request_close accepted w p) e None.
Proof.
  intros Hcc Hok Hf.
  assert (Hnot : forall a l, dict_get (_free_channels p) a = Some l -> w ∉ l).
  { intros a l Hl Hin. by destruct Hf; exists a, l. }
  set (f := drop_free (address_of w p) w (_free_channels p)).
  assert (Hkeep : forall v, in_free p v -> exists a l, dict_get f a = Some l /\ v ∈ l).
  { intros v (a & l & Hl & Hin). exists a, l. split; [|done]. by eapply drop_free_keeps. }
  assert (exists cl rf, request_close accepted w p = with_closing cl rf (with_free f p) /\
    forall v, v ∈ cl ++ rf ++ channels p <-> v ∈ doomed p \/ v = w) as (cl & rf & -> & Hd).
  { destruct accepted; eexists _, _; (split; [done|]); intros v; [exact (doomed_start true w p v)|exact (doomed_start false w p v)]. }
  destruct Hok. split; try done.
  - by apply drop_free_wf.
  - intros addr l v Hl. eapply drop_free_get in Hl; eauto.
  - intros addr l Hl. eapply drop_free_get in Hl; eauto.
  - intros v [Hv| ->]%Hd; [by apply ok_closing0|by apply ok_reserved0].
  - intros v x Hv. destruct (ok_tracked0 v x Hv) as [Hin|[|]]; auto. left. exact (Hkeep v Hin).
  - intros n Hn. destruct (ok_covered0 n Hn) as [?|(v & y & Hv & Hy & Hc)]; [by left|right].
    exists v, y. split_and!; [|done..]. left. apply Hd. destruct Hv as [Hv|[= <-]]; auto.
  - intros Hc. cbn in Hc. congruence.
  - by apply (cleanup_ok_open p).
Qed.

Lemma schedule_retired p w accepted : is_retired w p = true -> _schedule_address_channel_close w false accepted p = p.
Proof.
  intros H. unfold _schedule_address_channel_close, _retire_by_sdk. rewrite H. simpl. by apply retired_id.
Qed.

Lemma schedule_ok p w x accepted :
  _close_completion p = false ->
  pool_ok p (Some w) None -> live p w x -> w ∉ _leased_channels p -> ~ in_free p w ->
  pool_ok (_schedule_address_channel_close w false accepted p) None None.
Proof.
  intros Hcc Hok Hw Hl Hf. unfold _schedule_address_channel_close, _retire_by_sdk, is_retired.
  destruct Hw as [Hx Hr]. rewrite Hx, Hr. simpl.
  apply request_ok; [done|by eapply retire_ok|done].
Qed.

(** ** Leasing *)

Lemma pop_last_spec f l w r :
  pop_last f l = Some (w, r) -> exists l1 l2, l = l1 ++ w :: l2 /\ r = l1 ++ l2 /\ f w = true.
Proof.
  revert r. induction l as [|x l IH]; simpl; [done|]. intros r.
  destruct (pop_last f l) as [[w' r']|].
  - intros [= <- <-]. destruct (IH r' eq_refl) as (l1 & l2 & -> & -> & Hf). by exists (x :: l1), l2.
  - destruct (f x) eqn:E; [|done]. intros [= <- <-]. by exists [], l.
Qed.

Lemma open_incomplete p e r : _closed p = false -> pool_ok p e r -> _close_completion p = false.
Proof.
  intros Hopen Hok. destruct (_close_completion p) eqn:Ec; [|done]. destruct (ok_completed _ _ _ Hok Ec). congruence.
Qed.

(** A lookup that inserts an empty list changes nothing that counts. *)
Lemma setdefault_ok p addr e r :
  _closed p = false -> pool_ok p e r ->
  pool_ok (with_free (dict_set (_free_channels p) addr (default [] (dict_get (_free_channels p) addr))) p) e r.
Proof.
  intros Hopen Hok. pose proof (open_incomplete _ _ _ Hopen Hok) as Hcc.
  assert (Hget : forall a l, dict_get (dict_set (_free_channels p) addr (default [] (dict_get (_free_channels p) addr))) a
    = Some l -> dict_get (_free_channels p) a = Some l \/ l = []).
  { intros a l. rewrite dict_get_set. case_decide; [subst|by left].
    destruct (dict_get (_free_channels p) addr); naive_solver. }
  destruct Hok. split; try done.
  - by apply dict_set_wf.
  - intros a l w [Hl| ->]%Hget; [eauto|]. by intros ?%not_elem_of_nil.
  - intros a l [Hl| ->]%Hget; [eauto|]. split; [constructor|simpl; lia].
  - intros w x Hw. destruct (ok_tracked0 w x Hw) as [(a & l & Hl & Hin)|[|]]; auto.
    left. exists a, l. split; [|done]. simpl. rewrite dict_get_set. case_decide; [subst; by rewrite Hl|done].
  - intros Hc. destruct (ok_completed0 Hc). congruence.
  - by apply (cleanup_ok_open p).
Qed.

Lemma pop_ok p addr w p' :
  pop_section addr p = Ok (Some w, p') -> pool_ok p None None -> holds p' (Popped addr w).
Proof.
  unfold pop_section. intros Hpop Hok. destruct (_closed p) eqn:Hopen; [done|].
  destruct (pop_last _ _) as [[w' rest]|] eqn:E; [|done]. injection Hpop as -> <-.
  apply pop_last_spec in E as (l1 & l2 & El & -> & _).
  destruct (dict_get (_free_channels p) addr) as [l|] eqn:Eg; [|by destruct l1]. simpl in El. subst l.
  assert (Hw : w ∈ l1 ++ w :: l2) by (apply elem_of_app; right; left).
  destruct (ok_free _ _ _ Hok addr _ w Eg Hw) as (x & Hlive & Hown & Haddr & Hh).
  destruct (ok_list _ _ _ Hok addr _ Eg) as [Hnd Hlen].
  assert (Hcc : _close_completion p = false).
  { destruct (_close_completion p) eqn:Ec; [|done]. destruct (ok_completed _ _ _ Hok Ec). congruence. }
  assert (Hrest : forall v, v ∈ l1 ++ l2 <-> v <> w /\ v ∈ l1 ++ w :: l2).
  { intros v. apply NoDup_app in Hnd as (_ & Hd & Hnd). apply NoDup_cons in Hnd as [Hw2 _].
    rewrite !elem_of_app, elem_of_cons. specialize (Hd w). rewrite elem_of_cons in Hd. naive_solver. }
  assert (Hget : forall a l, dict_get (dict_set (_free_channels p) addr (l1 ++ l2)) a = Some l ->
    exists l', dict_get (_free_channels p) a = Some l' /\ sublist l l' /\ (forall v, v ∈ l -> v <> w)).
  { intros a l. rewrite dict_get_set. case_decide as Ea; [subst a|].
    - intros [= <-]. exists (l1 ++ w :: l2). split_and!; [done| |by intros v [? _]%Hrest].
      apply sublist_app; [done|by constructor].
    - intros Hl. exists l. split_and!; [done..|]. intros v Hv ->.
      destruct (ok_free _ _ _ Hok a l w Hl Hv) as (x' & [Hx' _] & _ & Ha' & _). destruct Hlive. congruence. }
  split; [done|]. split; [|exists x; split_and!; [done..|]; intros (a & l & Hl & Hin);
    destruct (Hget a l Hl) as (_ & _ & _ & Hne); by apply (Hne w)].
  destruct Hok. split; try done.
  - by apply dict_set_wf.
  - intros a l v (l' & Hl' & Hsub & _)%Hget Hin. apply (ok_free0 a l' v Hl'). by eapply elem_of_sublist.
  - intros a l (l' & Hl' & Hsub & _)%Hget. destruct (ok_list0 a l' Hl') as [Hnd' Hlen']. split.
    + by eapply sublist_NoDup.
    + apply sublist_length in Hsub. lia.
  - intros v y Hv. destruct (decide (v = w)) as [->|Hne]; [by right; right|].
    destruct (ok_tracked0 v y Hv) as [(a & l & Hl & Hin)|[|]]; [|auto|done]. left.
    unfold in_free. simpl. setoid_rewrite dict_get_set. destruct (decide (a = addr)) as [->|].
    + exists addr, (l1 ++ l2). rewrite decide_True by done. split; [done|]. apply Hrest. split; [done|]. congruence.
    + exists a, l. by rewrite decide_False.
  - intros Hc. destruct (ok_completed0 Hc). congruence.
  - by apply (cleanup_ok_open p).
Qed.

Lemma pop_none_ok p addr p' :
  pop_section addr p = Ok (None, p') -> pool_ok p None None -> holds p' (Creating addr).
Proof.
  unfold pop_section. intros Hpop Hok. destruct (_closed p) eqn:Hopen; [done|].
  destruct (pop_last _ _) as [[w' rest]|]; [done|]. injection Hpop as <-. split; [|by apply setdefault_ok].
  simpl. destruct (_close_completion p) eqn:Ec; [|done]. destruct (ok_completed _ _ _ Hok Ec). congruence.
Qed.

Lemma create_ok p addr own w p' :
  create_address_channel addr own p = (w, p') -> holds p (Creating addr) -> holds p' (Leasing w).
Proof.
  unfold create_address_channel. intros [= <- <-] [Hcc Hok]. simpl.
  set (new := mkWrapper addr (created p) own false false).
  assert (Hold : forall v y, wrappers p !! v = Some y -> (wrappers p ++ [new]) !! v = Some y).
  { intros v y Hv. by apply lookup_app_l_Some. }
  assert (Hlook : forall v y, (wrappers p ++ [new]) !! v = Some y ->
    wrappers p !! v = Some y \/ v = length (wrappers p) /\ y = new).
  { intros v y [?|[Hge Hs]]%lookup_app_Some; [by left|right].
    apply list_lookup_singleton_Some in Hs as [H0 <-]. split; [lia|done]. }
  assert (Hnew : ~ exists y, wrappers p !! length (wrappers p) = Some y).
  { intros [y Hy]. apply lookup_lt_Some in Hy. lia. }
  split; [done|]. split.
  - destruct Hok. split; try done; simpl.
    + intros w1 w2 x1 x2 [[H1|[-> ->]]%Hlook R1] [[H2|[-> ->]]%Hlook R2] Hc; [by eapply ok_unique0| | |done].
      * apply ok_native0 in H1. simpl in Hc. lia.
      * apply ok_native0 in H2. simpl in Hc. lia.
    + intros v y [Hv|[-> ->]]%Hlook; [apply ok_native0 in Hv; lia|simpl; lia].
    + intros a l v Hl Hin. destruct (ok_free0 a l v Hl Hin) as (y & [Hy ?] & ?). exists y. split; [|done].
      split; [by apply Hold|done].
    + intros v Hv. destruct (ok_leased0 v Hv) as (y & Hy & ?). exists y. auto.
    + intros v Hv. destruct (ok_closing0 v Hv) as (y & Hy & Hr & Hd). exists y. split_and!; [auto..|].
      intros w' x' [[Hw'|[-> ->]]%Hlook R']; [by apply (Hd w')|]. simpl. apply ok_native0 in Hy. lia.
    + intros v y [[Hv|[-> ->]]%Hlook R]; [|by auto].
      destruct (ok_tracked0 v y (conj Hv R)) as [?|[?|?]]; auto. done.
    + intros n Hn. destruct (decide (n = created p)) as [->|].
      { left. exists (length (wrappers p)), new. split; [|done]. split; [|done].
        by apply list_lookup_middle. }
      destruct (ok_covered0 n) as [(v & y & [Hv R] & Hc)|(v & y & Hv & Hy & Hc)]; [lia| |].
      * left. exists v, y. split; [split; auto|done].
      * right. exists v, y. auto.
    + intros Hc. congruence.
    + by apply (cleanup_ok_open p).
  - exists new. split_and!; [split; [by apply list_lookup_middle|done]|done|].
    intros (a & l & Hl & Hin). destruct (ok_free _ _ _ Hok a l _ Hl Hin) as (y & [Hy _] & _). by destruct Hnew; exists y.
Qed.

Lemma lease_ok p w accepted r p' :
  _lease_address_channel w accepted p = (r, p') -> holds p (Leasing w) -> pool_ok p' None None.
Proof.
  intros Hl (Hcc & Hok & x & Hw & Hh & Hf). pose proof Hw as [Hx Hr].
  assert (Hnl : w ∉ _leased_channels p).
  { intros Hin. destruct (ok_leased _ _ _ Hok w Hin) as (y & Hy & ? & _). congruence. }
  unfold _lease_address_channel in Hl. destruct (_closed p) eqn:Hopen; injection Hl as <- <-.
  { by eapply schedule_ok. }
  set (h := alter set_handed w (wrappers p)).
  assert (Hlook : forall v, h !! v = if decide (v = w) then Some (set_handed x) else wrappers p !! v).
  { intros v. unfold h. case_decide as E; [subst; by rewrite list_lookup_alter_eq, Hx|by rewrite list_lookup_alter_ne]. }
  assert (Hlive : forall v y, h !! v = Some y -> exists y0, wrappers p !! v = Some y0 /\ channel y0 = channel y /\
    _retired_by_sdk y0 = _retired_by_sdk y).
  { intros v y. rewrite Hlook. case_decide; [subst; intros [= <-]; by exists x|]. intros Hy. by exists y. }
  assert (Hback : forall v y, wrappers p !! v = Some y -> exists y', h !! v = Some y' /\ channel y' = channel y /\
    _retired_by_sdk y' = _retired_by_sdk y /\ (handed y = true -> handed y' = true)).
  { intros v y Hy. rewrite Hlook. case_decide; [subst|by exists y].
    exists (set_handed x). rewrite Hx in Hy. by injection Hy as <-. }
  destruct Hok. split; try done; simpl; fold h.
  - intros w1 w2 x1 x2 [(y1 & H1 & C1 & R1)%Hlive R1'] [(y2 & H2 & C2 & R2)%Hlive R2'] Hc.
    apply (ok_unique0 w1 w2 y1 y2); [split; congruence..|congruence].
  - intros v y (y0 & Hy0 & <- & _)%Hlive. eauto.
  - intros a l v Hv Hin. destruct (ok_free0 a l v Hv Hin) as (y & [Hy Ry] & ?). exists y. split; [|done].
    split; [|done]. rewrite Hlook. rewrite decide_False; [done|]. intros ->. by destruct Hf; exists a, l.
  - intros v [->|Hv]%elem_of_cons.
    + exists (set_handed x). rewrite Hlook, decide_True by done. done.
    + destruct (ok_leased0 v Hv) as (y & Hy & Hhy & Ry). destruct (Hback v y Hy) as (y' & Hy' & _ & R' & Hh').
      exists y'. split_and!; [done|auto|]. rewrite R'. auto.
  - intros v Hv. destruct (ok_closing0 v Hv) as (y & Hy & Ry & Hd). destruct (Hback v y Hy) as (y' & Hy' & C' & R' & _).
    exists y'. split_and!; [done|congruence|]. intros w' z [(z0 & Hz0 & C0 & R0)%Hlive Rz].
    rewrite C', <- C0. apply (Hd w'). split; congruence.
  - intros v y [(y0 & Hy0 & C0 & R0)%Hlive Ry].
    destruct (ok_tracked0 v y0) as [Hin|[Hin|[= ->]]]; [split; congruence|by left|right; left; by right|right; left; left].
  - intros n Hn. destruct (ok_covered0 n Hn) as [(v & y & [Hv Rv] & Hc)|(v & y & Hv & Hy & Hc)].
    + destruct (Hback v y Hv) as (y' & Hy' & C' & R' & _). left. exists v, y'. split; [split; [done|congruence]|congruence].
    + destruct (Hback v y Hy) as (y' & Hy' & C' & _). right. exists v, y'. split_and!; [done..|congruence].
  - intros Hc. congruence.
  - by apply (cleanup_ok_open p).
Qed.

(** ** Releasing *)

Lemma pop_leased_ok p w e r :
  _close_completion p = true \/ e = Some w -> pool_ok p e r -> pool_ok (pop_leased w p) e r.
Proof.
  intros He Hok. destruct Hok. split; try done; simpl.
  - intros v [_ Hv]%list_elem_of_filter. eauto.
  - intros v x [Hv R]. destruct (ok_tracked0 v x (conj Hv R)) as [?|[Hin|?]]; [by left| |by auto].
    destruct He as [Hc| ->].
    + destruct (ok_completed0 Hc) as (_ & _ & Hall). specialize (Hall v x Hin Hv). congruence.
    + destruct (decide (v = w)) as [->|]; [by auto|]. right. left. by apply list_elem_of_filter.
  - intros Hc. destruct (ok_completed0 Hc) as (? & ? & Hall). split_and!; [done..|].
    intros v x [_ Hv]%list_elem_of_filter. eauto.
  - apply cleanup_ok_fewer; [|done]. by intros v [_ ?]%list_elem_of_filter.
Qed.

Lemma pool_ok_retired p w r : pool_ok p (Some w) r -> is_retired w p = true -> pool_ok p None r.
Proof.
  intros Hok Hr. destruct Hok. split; try done. intros v x Hv.
  destruct (ok_tracked0 v x Hv) as [?|[?|[= ->]]]; auto. unfold is_retired in Hr. destruct Hv as [Hv R].
  rewrite Hv in Hr. congruence.
Qed.

Lemma dead_is_retired p w : dead p w -> is_retired w p = true.
Proof. intros (x & Hx & Hr & _). unfold is_retired. by rewrite Hx. Qed.

Lemma may_release_retired p w v : may_release w p -> may_release w (retired v p).
Proof.
  intros (x & Hx & Hh). destruct (lookup_retired_Some v p w x Hx) as (x' & Hx' & _ & Hh' & _).
  exists x'. split; congruence.
Qed.

Lemma may_release_schedule p w v b accepted : may_release w p -> may_release w (_schedule_address_channel_close v b accepted p).
Proof.
  intros H. unfold _schedule_address_channel_close, _retire_by_sdk, request_close, start_close.
  destruct b, accepted; try done; (destruct (negb _); by apply (may_release_retired p w v)).
Qed.

Lemma schedule_same v b accepted p :
  let p' := _schedule_address_channel_close v b accepted p in
  _close_completion p' = _close_completion p /\ _leased_channels p' = _leased_channels p /\ _closed p' = _closed p /\
  cleanup p' = cleanup p /\ channels p' = channels p.
Proof.
  unfold _schedule_address_channel_close, _retire_by_sdk, request_close, start_close.
  destruct b, accepted; cbn; [done..| |]; by destruct (is_retired v p).
Qed.

(** A wrapper that a caller holds, is not leased and not retired, is being
    released right now. *)
Lemma loose_wrapper p a w :
  holds p a -> may_release w p -> is_leased w p = false -> is_retired w p = false ->
  exists discard, a = Releasing w discard false.
Proof.
  intros Ha (x & Hx & Hh) Hl Hr. unfold is_leased in Hl. apply bool_decide_eq_false_1 in Hl.
  unfold is_retired in Hr. rewrite Hx in Hr.
  assert (Hin : forall e r, pool_ok p e r -> e = Some w).
  { intros e r Hok. destruct (ok_tracked _ _ _ Hok w x (conj Hx Hr)) as [Hf|[?|?]]; [|done..].
    by destruct (handed_not_free _ _ _ _ _ Hok Hx Hh). }
  destruct a as [|addr|addr v|addr|v|v d r]; simpl in Ha.
  - by specialize (Hin _ _ Ha).
  - by specialize (Hin _ _ Ha).
  - destruct Ha as (_ & Hok & y & [Hy _] & ? & _). pose proof (Hin _ _ Hok) as [= ->]. congruence.
  - destruct Ha as (_ & Hok). by specialize (Hin _ _ Hok).
  - destruct Ha as (_ & Hok & y & [Hy _] & ? & _). pose proof (Hin _ _ Hok) as [= ->]. congruence.
  - destruct Ha as (_ & Hok & _). pose proof (Hin _ _ Hok) as [= ->]. destruct r; [|by exists d].
    pose proof (dead_is_retired _ _ (ok_reserved _ _ _ Hok w eq_refl)) as Hd. unfold is_retired in Hd.
    rewrite Hx in Hd. congruence.
Qed.

(** Every clause of the invariant survives when leases of a completed close go. *)
Lemma holds_pop_leased p a w :
  _close_completion p = true -> holds p a -> holds (pop_leased w p) a.
Proof.
  intros Hc. destruct a; simpl; try (by intros [? _]; congruence); intros Hok; apply pop_leased_ok; auto.
Qed.

(** A late release has a wrapper that is leased no more, if it was not when it looked. *)
Definition late_ok (p : pool) (r : late_release) : Prop :=
  _closed p = true /\
  match r with
  | LateLooked w leased => may_release w p /\ (leased = false -> w ∉ _leased_channels p)
  | LateCloses w => may_release w p /\ w ∉ _leased_channels p
  end.

Lemma late_look_ok p a w leased p' :
  may_release w p -> _closed p = true -> closed_lookup w p = (leased, p') -> holds p a ->
  holds p' a /\ late_ok p' (LateLooked w leased).
Proof.
  intros Hm Hcl [= <- <-] Ha. split; [destruct (_close_completion p) eqn:Ec; [by apply holds_pop_leased|done]|].
  split; [by destruct (_close_completion p)|]. split; [by destruct (_close_completion p)|].
  unfold is_leased. intros Hl%bool_decide_eq_false_1. destruct (_close_completion p); [|done].
  by intros [_ ?]%list_elem_of_filter.
Qed.

Lemma late_close_ok p a w accepted :
  may_release w p -> w ∉ _leased_channels p -> holds p a -> holds (_schedule_address_channel_close w false accepted p) a.
Proof.
  intros Hm Hnl Ha. destruct (is_retired w p) eqn:Er; [by rewrite schedule_retired|].
  assert (is_leased w p = false) as El by (by apply bool_decide_eq_false_2).
  destruct (loose_wrapper p a w Ha Hm El Er) as [d ->]. destruct Ha as (Hcc & Hok & _ & _).
  destruct (schedule_same w false accepted p) as (E1 & E2 & _). cbn [holds]. rewrite E1, E2.
  split_and!; [done| |by apply may_release_schedule|done].
  apply pool_ok_inflight. pose proof Hm as (x & Hx & Hh). eapply schedule_ok; [done|done| |done|].
  - split; [done|]. unfold is_retired in Er. by rewrite Hx in Er.
  - by eapply handed_not_free.
Qed.

Lemma release_begin_ok p w discard reserved p' :
  may_release w p -> _closed p = false -> release_begin w discard p = (reserved, p') ->
  pool_ok p None None -> holds p' (Releasing w discard reserved).
Proof.
  intros Hm Hopen Hb Hok. pose proof (open_incomplete _ _ _ Hopen Hok) as Hcc.
  pose proof (pool_ok_inflight _ (Some w) _ Hok) as Hok1. apply (pop_leased_ok p w) in Hok1; [|by right].
  set (p1 := pop_leased w p) in *.
  assert (Hnl : w ∉ _leased_channels p1) by (by intros [? _]%list_elem_of_filter).
  unfold release_begin in Hb. fold p1 in Hb. destruct discard; [|injection Hb as <- <-; done].
  unfold _retire_by_sdk in Hb. injection Hb as <- <-.
  change (with_wrappers _ p1) with (retired w p1).
  destruct (is_retired w p1) eqn:Er; cbn [holds negb]; [by rewrite retired_id|].
  pose proof Hm as (x & Hx & Hh). split_and!; [done| |by apply may_release_retired|done].
  apply pool_ok_inflight. eapply retire_ok; [done|done| |done|by eapply (handed_not_free p1)].
  split; [done|]. unfold is_retired in Er. simpl in Er. by rewrite Hx in Er.
Qed.

(** A returned transport goes back to the pool under a new wrapper. *)
Lemma pool_again p w x chans :
  pool_ok p (Some w) None -> _closed p = false -> live p w x -> own_loop x = true -> handed x = true ->
  w ∉ _leased_channels p -> dict_get (_free_channels p) (address x) = Some chans ->
  (length chans < _max_free_channels_per_address)%nat ->
  pool_ok (with_free (dict_set (_free_channels p) (address x) (chans ++ [length (wrappers (retired w p))]))
    (with_wrappers (wrappers (retired w p) ++ [_new_lease x]) (retired w p))) None None.
Proof.
  intros Hok Hopen Hw Hown Hh Hnl Hc Hlen.
  pose proof (handed_not_free _ _ _ _ _ Hok (proj1 Hw) Hh) as Hnf.
  pose proof (open_incomplete _ _ _ Hopen Hok) as Hcc. pose proof (retire_ok p w x Hcc Hok Hw Hnl Hnf) as Hok1.
  destruct (ok_reserved _ _ _ Hok1 w eq_refl) as (x' & Hx' & Rx' & Hdead).
  assert (Ex : channel x' = channel x).
  { rewrite lookup_retired, decide_True, (proj1 Hw) in Hx' by done. by injection Hx' as <-. }
  assert (Hcl : forall v y, v ∈ doomed (retired w p) -> wrappers (retired w p) !! v = Some y -> channel x <> channel y).
  { intros v y Hv Hy. destruct (ok_closing _ _ _ Hok v Hv) as (y0 & Hy0 & _ & Hd).
    destruct (lookup_retired_Some w p v y0 Hy0) as (y1 & Hy1 & Hc1 & _). rewrite Hy in Hy1. injection Hy1 as <-.
    rewrite Hc1. by apply (Hd w). }
  change (_free_channels p) with (_free_channels (retired w p)) in *.
  change (_closed p) with (_closed (retired w p)) in Hopen.
  change (_close_completion p) with (_close_completion (retired w p)) in Hcc.
  set (q := retired w p) in *. clearbody q. set (n := length (wrappers q)).
  assert (Hlook : forall v y, (wrappers q ++ [_new_lease x]) !! v = Some y ->
    wrappers q !! v = Some y \/ v = n /\ y = _new_lease x).
  { intros v y [?|[Hge Hs]]%lookup_app_Some; [by left|right].
    apply list_lookup_singleton_Some in Hs as [H0 <-]. split; [unfold n; lia|done]. }
  assert (Hold : forall v y, wrappers q !! v = Some y -> (wrappers q ++ [_new_lease x]) !! v = Some y).
  { intros v y Hv. by apply lookup_app_l_Some. }
  assert (Hnew : (wrappers q ++ [_new_lease x]) !! n = Some (_new_lease x)) by (by apply list_lookup_middle).
  assert (Hfresh : forall a l, dict_get (_free_channels q) a = Some l -> n ∉ l).
  { intros a l Hl Hin. destruct (ok_free _ _ _ Hok1 a l n Hl Hin) as (y & [Hy _] & _).
    apply lookup_lt_Some in Hy. unfold n in Hy. lia. }
  destruct Hok1. split; try done; simpl.
  - intros w1 w2 x1 x2 [[H1|[-> ->]]%Hlook R1] [[H2|[-> ->]]%Hlook R2] Hch; [by eapply ok_unique0| | |done].
    + destruct (Hdead w1 x1 (conj H1 R1)). simpl in Hch. congruence.
    + destruct (Hdead w2 x2 (conj H2 R2)). simpl in Hch. congruence.
  - intros v y [Hv|[-> ->]]%Hlook; [eauto|]. simpl. rewrite <- Ex. eauto.
  - by apply dict_set_wf.
  - intros a l v. rewrite dict_get_set. case_decide as Ea.
    + intros [= <-] [Hv| ->%list_elem_of_singleton]%elem_of_app.
      * destruct (ok_free0 _ _ v Hc Hv) as (y & [Hy Ry] & ?). exists y. split; [split; auto|]. by rewrite Ea.
      * exists (_new_lease x). split_and!; [split; done|done|by rewrite Ea|done].
    + intros Hl Hv. destruct (ok_free0 _ _ v Hl Hv) as (y & [Hy Ry] & ?). exists y. split; [split; auto|done].
  - intros a l. rewrite dict_get_set. case_decide as Ea; [|eauto]. intros [= <-].
    destruct (ok_list0 _ _ Hc) as [Hnd _]. split; [|rewrite length_app; simpl; lia].
    apply NoDup_app. split_and!; [done| |apply NoDup_singleton].
    intros v Hv ->%list_elem_of_singleton. by apply (Hfresh _ _ Hc).
  - intros v Hv. destruct (ok_leased0 v Hv) as (y & Hy & ?). exists y. auto.
  - intros v Hv. destruct (ok_closing0 v Hv) as (y & Hy & Ry & Hd). exists y. split_and!; [auto..|].
    intros w' z [[Hz|[-> ->]]%Hlook Rz]; [by apply (Hd w')|]. simpl. by apply (Hcl v).
  - intros v y [[Hv|[-> ->]]%Hlook R].
    + destruct (ok_tracked0 v y (conj Hv R)) as [(a & l & Hl & Hin)|[?|?]]; [|by auto|done]. left.
      unfold in_free. simpl. setoid_rewrite dict_get_set. destruct (decide (a = address x)) as [->|].
      * exists (address x), (chans ++ [n]). rewrite decide_True by done. split; [done|].
        apply elem_of_app. left. congruence.
      * exists a, l. by rewrite decide_False.
    + left. exists (address x), (chans ++ [n]). simpl. rewrite dict_get_set, decide_True by done.
      split; [done|]. apply elem_of_app. right. by apply list_elem_of_singleton.
  - intros m Hm. destruct (ok_covered0 m Hm) as [(v & y & [Hv R] & Hch)|(v & y & [Hv|[= <-]] & Hy & Hch)].
    + left. exists v, y. split; [split; auto|done].
    + right. exists v, y. auto.
    + left. exists n, (_new_lease x). split; [split; done|]. simpl. congruence.
  - intros Hcc'. congruence.
  - by apply (cleanup_ok_open q).
Qed.

(** The end of a release that closes its transport. *)
Lemma schedule_release p w (reserved : bool) accepted :
  _close_completion p = false ->
  pool_ok p (Some w) (if reserved then Some w else None) -> may_release w p -> w ∉ _leased_channels p ->
  pool_ok (_schedule_address_channel_close w reserved accepted p) None None.
Proof.
  intros Hcc Hok (x & Hx & Hh) Hnl. pose proof (handed_not_free _ _ _ _ _ Hok Hx Hh) as Hnf. destruct reserved.
  - apply request_ok; [done| |done]. eapply pool_ok_retired; [done|]. apply dead_is_retired. by eapply ok_reserved.
  - destruct (is_retired w p) eqn:Er.
    + rewrite schedule_retired by done. by eapply pool_ok_retired.
    + eapply schedule_ok; [done|done| |done..]. split; [done|]. unfold is_retired in Er. by rewrite Hx in Er.
Qed.

Lemma release_end_ok p w discard reserved shutdown accepted :
  holds p (Releasing w discard reserved) -> pool_ok (release_end w discard reserved shutdown accepted p) None None.
Proof.
  intros (Hcc & Hok & Hm & Hnl). pose proof Hm as (x & Hx & Hh). unfold release_end. rewrite Hx.
  pose proof (handed_not_free _ _ _ _ _ Hok Hx Hh) as Hnf.
  destruct (negb (_closed p) && _) eqn:E; [|by apply schedule_release].
  apply andb_true_iff in E as [Hopen%negb_true_iff E].
  apply andb_true_iff in E as [E _]. apply andb_true_iff in E as [E Hown].
  apply andb_true_iff in E as [_ Hr%negb_true_iff].
  set (chans := default [] (dict_get (_free_channels p) (address x))).
  pose proof (setdefault_ok p (address x) _ _ Hopen Hok) as Hok1. fold chans in Hok1.
  set (p1 := with_free (dict_set (_free_channels p) (address x) chans) p) in *.
  assert (Hget : dict_get (_free_channels p1) (address x) = Some chans) by apply dict_get_set_eq.
  case_bool_decide as Hin.
  { destruct Hnf. exists (address x), chans. unfold chans in *.
    destruct (dict_get (_free_channels p) (address x)); [done|]. by apply not_elem_of_nil in Hin. }
  destruct (Nat.ltb_spec (length chans) _max_free_channels_per_address); [|by apply schedule_release].
  destruct reserved.
  - pose proof (dead_is_retired _ _ (ok_reserved _ _ _ Hok w eq_refl)) as Hd. unfold is_retired in Hd.
    rewrite Hx in Hd. congruence.
  - by apply (pool_again p1 w x chans).
Qed.

(** ** Closing *)

Lemma set_closed_ok p e r : pool_ok p e r -> pool_ok (set_closed p) e r.
Proof.
  intros []. split; try done; [intros Hc; by destruct (ok_completed0 Hc) as (_ & ? & ?)|]. by destruct ok_cleanup0.
Qed.

Lemma holds_set_closed p a : holds p a -> holds (set_closed p) a.
Proof.
  destruct a; simpl; try apply set_closed_ok; intros [? ?]; split; try done; destruct_and?; split_and?;
    try done; by apply set_closed_ok.
Qed.

Lemma retire_all_lookup (h : list AddressChannel) ws v :
  foldr (fun w h => alter set_retired w h) h ws !! v =
  if decide (v ∈ ws) then set_retired <$> h !! v else h !! v.
Proof.
  induction ws as [|w ws IH]; simpl; [done|]. destruct (decide (v = w)) as [->|Hne].
  - rewrite list_lookup_alter_eq, IH, (decide_True (P := w ∈ w :: ws)) by left.
    case_decide; [|done]. by destruct (h !! w).
  - rewrite list_lookup_alter_ne, IH by done. destruct (decide (v ∈ ws)) as [Hv|Hv].
    + rewrite decide_True; [done|by right].
    + rewrite decide_False; [done|]. by intros [|]%elem_of_cons.
Qed.

Lemma elem_of_concat (w : nat) (ls : list (list nat)) : w ∈ concat ls <-> exists l, w ∈ l /\ l ∈ ls.
Proof. rewrite list_elem_of_In, List.in_concat. setoid_rewrite list_elem_of_In. naive_solver. Qed.

Lemma tracked_spec p e r w : pool_ok p e r -> w ∈ tracked p <-> in_free p w \/ w ∈ _leased_channels p.
Proof.
  intros Hok. unfold tracked. rewrite elem_of_app. apply or_iff_compat_r. rewrite elem_of_concat. split.
  - intros (l & Hin & Hl). apply list_elem_of_fmap in Hl as ([a l'] & -> & Hal). exists a, l'.
    split; [|done]. apply dict_elem_get; [by eapply ok_wf|done].
  - intros (a & l & Hl & Hin). exists l. split; [done|]. apply list_elem_of_fmap. exists (a, l).
    split; [done|]. by apply dict_get_elem.
Qed.

Lemma snapshot_ok p : pool_ok p None None -> pool_ok (close_snapshot p) None None.
Proof.
  intros Hok. unfold close_snapshot. destruct (_close_completion p) eqn:Ec; [done|].
  set (h := foldr _ _ _).
  assert (Hlook : forall v, h !! v = if decide (v ∈ tracked p) then set_retired <$> wrappers p !! v else wrappers p !! v)
    by (intros v; apply retire_all_lookup).
  assert (Hnone : forall v y, h !! v = Some y -> _retired_by_sdk y = true).
  { intros v y. rewrite Hlook. case_decide as Hv; [by intros (y0 & _ & ->)%fmap_Some|].
    intros Hy. destruct (_retired_by_sdk y) eqn:Er; [done|]. destruct Hv. apply (tracked_spec _ _ _ _ Hok).
    destruct (ok_tracked _ _ _ Hok v y (conj Hy Er)) as [|[|]]; auto. done. }
  assert (Hback : forall v y, wrappers p !! v = Some y -> exists y', h !! v = Some y' /\ channel y' = channel y /\
    handed y' = handed y).
  { intros v y Hy. rewrite Hlook, Hy. case_decide; simpl; eauto. }
  assert (Hdead : forall v y, wrappers p !! v = Some y ->
    dead (mkPool h [] (_leased_channels p) true true (closing p) (refused p) (tracked p) CancellingWork (created p)) v).
  { intros v y Hy. destruct (Hback v y Hy) as (y' & Hy' & _). exists y'. split_and!; [done|by eapply Hnone|].
    intros w' z [Hz Rz]. apply Hnone in Hz. simpl in *. congruence. }
  assert (Hsome : forall v, v ∈ tracked p -> exists y, wrappers p !! v = Some y).
  { intros v [(a & l & Hl & Hin)|Hin]%(tracked_spec _ _ _ _ Hok).
    - destruct (ok_free _ _ _ Hok a l v Hl Hin) as (y & [Hy _] & _). by exists y.
    - destruct (ok_leased _ _ _ Hok v Hin) as (y & Hy & _). by exists y. }
  pose proof (cl_empty _ (ok_cleanup _ _ _ Hok) Ec) as Hch.
  assert (Hdm : forall v, v ∈ closing p ++ refused p ++ tracked p -> v ∈ doomed p \/ v ∈ tracked p).
  { intros v. unfold doomed. rewrite !elem_of_app. tauto. }
  destruct Hok. split; try done; simpl.
  - intros w1 w2 x1 x2 [H1 R1]. apply Hnone in H1. simpl in *. congruence.
  - intros v y. rewrite Hlook. case_decide; [|eauto]. intros (y0 & Hy0 & ->)%fmap_Some. by apply (ok_native0 v y0).
  - apply dict_nil_wf.
  - intros v Hv. destruct (ok_leased0 v Hv) as (y & Hy & Hh & _). destruct (Hback v y Hy) as (y' & Hy' & _ & Hh').
    exists y'. split_and!; [done|congruence|done].
  - intros v [Hv|Hv]%Hdm; [destruct (ok_closing0 v Hv) as (y & Hy & _)|destruct (Hsome v Hv) as [y Hy]];
      by eapply Hdead.
  - intros v y [Hv Rv]. apply Hnone in Hv. simpl in *. congruence.
  - intros n Hn. right. destruct (ok_covered0 n Hn) as [(v & y & [Hv Rv] & Hc)|(v & y & [Hv|[=]] & Hy & Hc)].
    + destruct (Hback v y Hv) as (y' & Hy' & Hc' & _). exists v, y'. split_and!; [left|done|congruence].
      unfold doomed. cbn. rewrite !elem_of_app. right. right. unfold tracked. rewrite elem_of_app.
      destruct (ok_tracked0 v y (conj Hv Rv)) as [(a & l & Hl & Hin)|[Hin|[=]]]; [left|by right].
      apply elem_of_concat. exists l. split; [done|]. apply list_elem_of_fmap. exists (a, l).
      split; [done|by apply dict_get_elem].
    + destruct (Hback v y Hy) as (y' & Hy' & Hc' & _). exists v, y'. split_and!; [left|done|congruence].
      unfold doomed in *. cbn. rewrite Hch, app_nil_r in Hv. rewrite app_assoc, elem_of_app. by left.
  - intros _. split_and!; [done..|]. intros v y _. apply Hnone.
  - assert (Hlive : forall v y, v ∈ _leased_channels p -> h !! v = Some y -> exists z, live p v z /\ channel z = channel y).
    { intros v y Hv Hy. destruct (ok_leased0 v Hv) as (z & Hz & _ & Rz). exists z. split; [split; auto|].
      destruct (Hback v z Hz) as (z' & Hz' & Ez & _). congruence. }
    split; cbn; try done.
    + intros _ v Hv. unfold tracked. rewrite elem_of_app. by right.
    + intros _ w1 w2 x1 x2 H1 H2 E1 E2 Hc. destruct (Hlive w1 x1 H1 E1) as (z1 & L1 & C1), (Hlive w2 x2 H2 E2) as (z2 & L2 & C2).
      apply (ok_unique0 w1 w2 z1 z2); congruence.
    + intros _ w1 w2 x1 x2 H1 H2 E1 E2. destruct (Hlive w1 x1 H1 E1) as (z1 & L1 & C1).
      destruct (ok_closing0 w2) as (z2 & Hz2 & _ & Hd); [unfold doomed; rewrite elem_of_app; by left|].
      destruct (Hback w2 z2 Hz2) as (z' & Hz' & Ez & _). specialize (Hd w1 z1 L1). congruence.
    + by intros [|].
Qed.

(** The closes of the clean-up. *)
Lemma close_channels accepted ws : forall p, _free_channels p = [] ->
  exists cl rf, foldl (close_channel accepted) p ws = with_closing cl rf p /\
    (forall v, v ∈ cl \/ v ∈ rf <-> v ∈ closing p \/ v ∈ refused p \/ v ∈ ws).
Proof.
  induction ws as [|w ws IH]; intros p Hf; cbn [foldl].
  - exists (closing p), (refused p). split; [by destruct p|]. intros v. pose proof (not_elem_of_nil v). tauto.
  - assert (exists cl rf, close_channel accepted p w = with_closing cl rf p /\
      (forall v, v ∈ cl \/ v ∈ rf <-> v ∈ closing p \/ v ∈ refused p \/ v = w)) as (cl & rf & E & Hcr).
    { assert (forall q, _free_channels q = [] -> q = p -> exists cl rf, start_close (accepted w) w q = with_closing cl rf p /\
        (forall v, v ∈ cl \/ v ∈ rf <-> v ∈ closing p \/ v ∈ refused p \/ v = w)) as Hs.
      { intros q _ ->. unfold start_close. destruct (accepted w); eexists _, _; (split; [done|]);
          intros v; rewrite elem_of_app, list_elem_of_singleton; tauto. }
      unfold close_channel. destruct (is_own w p); [by apply (Hs p)|]. cbn. apply (Hs _); unfold drop_free; rewrite Hf; cbn; [done|].
      destruct p; cbn in *. by rewrite Hf. }
    rewrite E. destruct (IH (with_closing cl rf p) Hf) as (cl' & rf' & -> & Hcr'). exists cl', rf'. split; [done|].
    intros v. rewrite Hcr', elem_of_cons. cbn. specialize (Hcr v). tauto.
Qed.

Lemma cleanup_close_ok p accepted :
  cleanup p = CancellingWork -> pool_ok p None None -> pool_ok (cleanup_close accepted p) None None.
Proof.
  intros Hph Hok. assert (_close_completion p = true) as Hc.
  { destruct (_close_completion p) eqn:E; [done|]. apply (cl_none _ (ok_cleanup _ _ _ Hok)) in E. congruence. }
  destruct (ok_completed _ _ _ Hok Hc) as (_ & Hf & _). unfold cleanup_close.
  destruct (close_channels accepted (channels p) p Hf) as (cl & rf & -> & Hcr).
  assert (forall v, v ∈ cl ++ rf ++ channels p <-> v ∈ doomed p) as Hd.
  { intros v. unfold doomed. rewrite !elem_of_app. specialize (Hcr v). tauto. }
  destruct Hok. split; try done; cbn.
  - intros v Hv%Hd. exact (ok_closing0 v Hv).
  - intros n Hn. destruct (ok_covered0 n Hn) as [?|(v & y & [Hv|[=]] & Hy & Hch)]; [by left|right].
    exists v, y. split_and!; [|done..]. left. by apply Hd.
  - destruct ok_cleanup0. split; cbn; try done.
    + rewrite Hc. by split.
    + intros _ v Hv. apply Hcr. auto.
    + by intros [|].
Qed.

Lemma forget_leases_ok p : _close_completion p = true -> pool_ok p None None -> pool_ok (forget_leases p) None None.
Proof.
  intros Hc []. destruct (ok_completed0 Hc) as (Hcl & Hf & Hall). split; try done; simpl.
  - intros v [_ Hv]%list_elem_of_filter. eauto.
  - intros v x [Hv R]. destruct (ok_tracked0 v x (conj Hv R)) as [?|[Hin|?]]; [by left| |done].
    specialize (Hall v x Hin Hv). congruence.
  - intros _. split_and!; [done..|]. intros v x [_ Hv]%list_elem_of_filter. eauto.
  - apply cleanup_ok_fewer; [|done]. by intros v [_ ?]%list_elem_of_filter.
Qed.

Lemma forget_leases_all p : _close_completion p = true -> pool_ok p None None -> _leased_channels (forget_leases p) = [].
Proof.
  intros Hc Hok. pose proof (cl_leased _ (ok_cleanup _ _ _ Hok) Hc) as Hl. cbn.
  induction (_leased_channels p) as [|w l IH]; [done|]. rewrite filter_cons_False.
  - apply IH. intros v Hv. apply Hl. by right.
  - intros Hn. apply Hn, Hl. by left.
Qed.

(** The end of the clean-up, in either way. *)
Lemma cleanup_over p c :
  _close_completion p = true -> (forall v, v ∈ channels p -> v ∈ closing p \/ v ∈ refused p) ->
  c = CleanupDone \/ c = CleanupFailed -> pool_ok p None None -> pool_ok (with_cleanup c (forget_leases p)) None None.
Proof.
  intros Hc Hch Hd Hok. pose proof (forget_leases_all p Hc Hok) as Hn. pose proof (forget_leases_ok p Hc Hok) as [].
  split; try done. destruct ok_cleanup0. change (forget_leases p) with (with_leased (_leased_channels (forget_leases p)) p) in *.
  split; cbn in *; rewrite ?Hn in *; try done.
  - rewrite Hc. split; [done|]. by destruct Hd as [-> | ->].
  - by destruct Hd as [-> | ->].
Qed.

Lemma completion_by_cleanup p : pool_ok p None None -> cleanup p <> NoCleanup -> _close_completion p = true.
Proof.
  intros Hok Hn. destruct (_close_completion p) eqn:E; [done|]. by apply (cl_none _ (ok_cleanup _ _ _ Hok)) in E.
Qed.

Lemma cleanup_end_ok p : cleanup p = ClosesRequested -> pool_ok p None None -> pool_ok (cleanup_end p) None None.
Proof.
  intros Hph Hok. apply cleanup_over; [apply completion_by_cleanup; [done|congruence]| |by left|done].
  apply (cl_requested _ (ok_cleanup _ _ _ Hok)). unfold closes_requested. by rewrite Hph.
Qed.

Lemma cleanup_fails_ok p :
  cleanup p = CancellingWork \/ cleanup p = ClosesRequested -> pool_ok p None None -> pool_ok (cleanup_fails p) None None.
Proof.
  intros Hph Hok. assert (_close_completion p = true) as Hc by (apply completion_by_cleanup; [done|]; destruct Hph; congruence).
  unfold cleanup_fails. destruct Hph as [Hph|Hph]; rewrite Hph.
  - apply cleanup_over; [done| |by right|]; [cbn; intros v Hv; rewrite elem_of_app; auto|].
    assert (forall v, v ∈ closing p ++ (refused p ++ channels p) ++ channels p <-> v ∈ doomed p) as Hd.
    { intros v. unfold doomed. rewrite !elem_of_app. tauto. }
    destruct Hok. split; try done; cbn.
    + intros v Hv%Hd. exact (ok_closing0 v Hv).
    + intros n Hn. destruct (ok_covered0 n Hn) as [?|(v & y & [Hv|[=]] & Hy & Hch)]; [by left|right].
      exists v, y. split_and!; [|done..]. left. by apply Hd.
    + destruct ok_cleanup0. split; try done. unfold closes_requested. cbn. by rewrite Hph.
  - apply cleanup_over; [done| |by right|done]. apply (cl_requested _ (ok_cleanup _ _ _ Hok)). unfold closes_requested. by rewrite Hph.
Qed.

(** ** Steps *)

Lemma closed_grows s s' : step s s' -> _closed (pl s) = true ->
  _closed (pl s') = true /\ forall w, w ∈ _leased_channels (pl s') -> w ∈ _leased_channels (pl s).
Proof.
  intros [Hs|Hs].
  - destruct Hs as [| |p addr w p' l Hp|p addr p' l Hp|p addr w ac| |p addr own w p' l Hp|p w ac r p' l Hp
      |p w d r p' l Hm Ho|p w d r sh ac|p|p|p|p]; cbn [pl]; intros Hc; auto; try congruence.
    + unfold pop_section in Hp. by rewrite Hc in Hp.
    + unfold pop_section in Hp. by rewrite Hc in Hp.
    + destruct (schedule_same w false ac p) as (_ & -> & -> & _). auto.
    + injection Hp as <- <-. auto.
    + assert (p' = _schedule_address_channel_close w false ac p) as ->.
      { unfold _lease_address_channel in Hp. rewrite Hc in Hp. congruence. }
      destruct (schedule_same w false ac p) as (_ & -> & -> & _). auto.
    + unfold release_end. destruct (wrappers p !! w); [|auto]. rewrite Hc. cbn [negb andb].
      destruct (schedule_same w r ac p) as (_ & -> & -> & _). auto.
    + unfold close_snapshot. destruct (_close_completion p); auto.
    + unfold cleanup_close. cbn. assert (forall ws q, _closed (foldl (close_channel accepted) q ws) = _closed q /\
        _leased_channels (foldl (close_channel accepted) q ws) = _leased_channels q) as Hf; [|destruct (Hf (channels p) p) as [-> ->]; auto].
      induction ws as [|w ws IH]; intros q; cbn; [done|]. destruct (IH (close_channel accepted q w)) as [-> ->].
      unfold close_channel, start_close, _schedule_address_channel_close, request_close, start_close.
      by destruct (is_own w q), (accepted w).
    + split; [done|]. intros w. simpl. rewrite list_elem_of_filter. naive_solver.
    + unfold cleanup_fails. split; [by destruct (cleanup p)|]. intros w. destruct (cleanup p); cbn; rewrite list_elem_of_filter; naive_solver.
  - destruct Hs as [|p a l w b p' Hm Hc Hl| |p a l1 l2 w ac]; cbn [pl]; auto.
    + intros _. injection Hl as _ <-. destruct (_close_completion p); [|auto]. split; [done|]. intros v. cbn. rewrite list_elem_of_filter. naive_solver.
    + destruct (schedule_same w false ac p) as (_ & -> & -> & _). auto.
Qed.

(** What a caller had he keeps. *)
Definition keeps (p p' : pool) : Prop := forall w, may_release w p -> may_release w p'.

Lemma pool_keeps_trans p q r : keeps p q -> keeps q r -> keeps p r.
Proof. intros H1 H2 w Hw. auto. Qed.

Lemma keeps_alter p v : keeps p (with_wrappers (alter set_handed v (wrappers p)) p).
Proof.
  intros w (x & Hx & Hh). unfold may_release. cbn. destruct (decide (v = w)) as [->|].
  - rewrite list_lookup_alter_eq, Hx. by eexists.
  - rewrite list_lookup_alter_ne by done. by exists x.
Qed.

Lemma keeps_append p x : keeps p (with_wrappers (wrappers p ++ [x]) p).
Proof. intros w (y & Hy & Hh). exists y. split; [|done]. by apply lookup_app_l_Some. Qed.

Lemma keeps_retire_all p ws q : wrappers q = foldr (fun w h => alter set_retired w h) (wrappers p) ws -> keeps p q.
Proof.
  intros E w (x & Hx & Hh). unfold may_release. rewrite E, retire_all_lookup, Hx. case_decide; eexists; by split.
Qed.

Lemma keeps_schedule p v b accepted : keeps p (_schedule_address_channel_close v b accepted p).
Proof. intros w. apply may_release_schedule. Qed.

Lemma step_keeps s s' : step s s' -> keeps (pl s) (pl s').
Proof.
  intros [Hs|Hs].
  - destruct Hs as [| |p addr w p' l Hp|p addr p' l Hp|p addr w ac| |p addr own w p' l Hp|p w ac r p' l Hp
      |p w d r p' l Hm Ho Hr|p w d r sh ac|p|p|p|p]; cbn [pl]; try (by intros ?).
    + unfold pop_section in Hp. destruct (_closed p); [done|]. destruct (pop_last _ _) as [[? ?]|]; simplify_eq; by intros ?.
    + unfold pop_section in Hp. destruct (_closed p); [done|]. destruct (pop_last _ _) as [[? ?]|]; simplify_eq; by intros ?.
    + apply keeps_schedule.
    + injection Hp as <- <-. intros v Hv. exact (keeps_append p _ v Hv).
    + unfold _lease_address_channel in Hp. destruct (_closed p); injection Hp as <- <-; [exact (keeps_schedule p w false ac)|].
      intros v Hv. exact (keeps_alter p w v Hv).
    + unfold release_begin, _retire_by_sdk in Hr. destruct d; injection Hr as <- <-; [|by intros ?].
      intros v Hv. exact (may_release_retired (pop_leased w p) v w Hv).
    + unfold release_end. destruct (wrappers p !! w) as [x|]; [|by intros ?]. destruct (negb (_closed p) && _); [|apply keeps_schedule].
      case_bool_decide; [by intros ?|]. destruct (_ <? _)%nat; [|intros v Hv; exact (keeps_schedule (with_free _ p) w r ac v Hv)].
      cbn. intros v Hv. destruct (may_release_retired p v w Hv) as (y & Hy & Hh). exists y. split; [|done]. by apply lookup_app_l_Some.
    + unfold close_snapshot. destruct (_close_completion p); [by intros ?|]. by eapply keeps_retire_all.
    + unfold cleanup_close. assert (forall ws q, keeps q (foldl (close_channel accepted) q ws)) as Hf; [|exact (Hf (channels p) p)].
      induction ws as [|w ws IH]; intros q; cbn; [by intros ?|]. eapply pool_keeps_trans; [|apply IH].
      unfold close_channel. destruct (is_own w q); [|apply keeps_schedule]. unfold start_close. destruct (accepted w); by intros ?.
    + unfold cleanup_fails. destruct (cleanup p); by intros ?.
  - destruct Hs as [|p a l w b p' Hm Hc Hl| |p a l1 l2 w ac]; cbn [pl]; try (by intros ?).
    + injection Hl as _ <-. destruct (_close_completion p); by intros ?.
    + apply keeps_schedule.
Qed.

Lemma late_ok_step s s' r : step s s' -> late_ok (pl s) r -> late_ok (pl s') r.
Proof.
  intros Hst [Hc Hr]. destruct (closed_grows s s' Hst Hc) as [Hc' Hl]. pose proof (step_keeps s s' Hst) as Hk.
  split; [done|]. destruct r as [w b|w]; destruct Hr as [H1 H2]; (split; [by apply Hk|]); [intros Hb Hw|intros Hw].
  - by apply (H2 Hb), Hl.
  - by apply H2, Hl.
Qed.

Definition state_ok (s : state) : Prop := holds (pl s) (act s) /\ Forall (late_ok (pl s)) (late s).

Lemma step_holds s s' : step s s' -> state_ok s -> holds (pl s') (act s').
Proof.
  intros [Hs|Hs] [Hh Hl]; destruct Hs; simpl in *; try done.
  - by eapply (pop_ok p addr).
  - by eapply (pop_none_ok p addr).
  - destruct Hh as (Hcc & Hok & x & Hw & Hh & Hf). eapply schedule_ok; [done..| |done].
    intros Hin. destruct (ok_leased _ _ _ Hok w Hin) as (y & Hy & ? & _). destruct Hw. congruence.
  - by apply (create_ok p addr own).
  - by eapply lease_ok.
  - by eapply release_begin_ok.
  - by apply release_end_ok.
  - by apply snapshot_ok.
  - by apply cleanup_close_ok.
  - by apply cleanup_end_ok.
  - by apply cleanup_fails_ok.
  - by apply (holds_set_closed p a).
  - by eapply late_look_ok.
  - rewrite Forall_app, Forall_cons in Hl. destruct Hl as (_ & (_ & Hm & Hnl) & _). by apply late_close_ok.
Qed.

Lemma step_ok s s' : step s s' -> state_ok s -> state_ok s'.
Proof.
  intros Hst Hok. split; [by eapply step_holds|]. destruct Hok as [Hh Hl].
  assert (Forall (late_ok (pl s')) (late s)) as Hl' by (eapply Forall_impl; [exact Hl|]; intros r; by apply late_ok_step).
  destruct Hst as [Hs|Hs]; [by destruct Hs|]. destruct Hs as [|p a l w b p' Hm Hc Hk|p a l1 l2 w b|p a l1 l2 w ac]; cbn [pl late act] in *; [done| | |].
  - constructor; [|done]. by eapply late_look_ok.
  - rewrite Forall_app, Forall_cons in Hl'. destruct Hl' as (H1 & [Hc [Hm Hb]] & H2). rewrite !Forall_app. split; [done|]. split; [|done].
    destruct b; cbn; [by constructor|]. destruct (negb _); [|by constructor]. constructor; [|by constructor]. split; [done|]. auto.
  - rewrite Forall_app, Forall_cons in Hl'. rewrite Forall_app. tauto.
Qed.

Lemma pool_reachable_ok s : rtc step new_state s -> state_ok s.
Proof.
  assert (H0 : state_ok new_state) by (split; [apply new_state_ok|constructor]). intros H. revert H0.
  induction H as [|x y z Hx _ IH]; [done|]. intros. apply IH. by eapply step_ok.
Qed.

Lemma holds_pool p a : holds p a -> exists e r, pool_ok p e r.
Proof. destruct a; simpl; intros; destruct_and?; eauto. Qed.

(** C11: Transports are leased exclusively: whatever callers release twice, late or
    after somebody else got the transport, and whoever closes the channel
    meanwhile, two leases never share a transport, a leased transport is never
    in the pool, the pool of an address keeps at most the configured number, and nobody
    closes a leased transport but the clean-up of the closed channel, when it has
    cancelled the work of the runtime. *)
Theorem pool_exclusive s :
  rtc step new_state s ->
  (forall addr l, dict_get (_free_channels (pl s)) addr = Some l ->
     (length l <= _max_free_channels_per_address)%nat) /\
  (forall w x, w ∈ _leased_channels (pl s) -> wrappers (pl s) !! w = Some x ->
     forall w' x', wrappers (pl s) !! w' = Some x' -> channel x' = channel x ->
       (w' ∈ _leased_channels (pl s) -> w' = w) /\ ~ in_free (pl s) w' /\
       (w' ∈ closing (pl s) -> closes_requested (pl s) = true)).
Proof.
  intros [Hs _]%pool_reachable_ok. destruct (holds_pool _ _ Hs) as (e & r & Hok). split.
  { intros addr l Hl. by destruct (ok_list _ _ _ Hok addr l Hl). }
  intros w x Hw Hx w' x' Hx' Hch. destruct (ok_leased _ _ _ Hok w Hw) as (y & Hy & Hh & Hr).
  rewrite Hx in Hy. injection Hy as <-. pose proof (ok_cleanup _ _ _ Hok) as [].
  destruct (_close_completion (pl s)) eqn:Hcc.
  - destruct (ok_completed _ _ _ Hok Hcc) as (_ & Hf & _). split_and!.
    + intros Hw'. by apply (cl_unique0 eq_refl w' w x' x).
    + intros (a & l & Hl & _). by rewrite Hf in Hl.
    + intros Hw'. unfold closes_requested. destruct (cleanup (pl s)) eqn:Ep; try done.
      * by destruct (proj2 cl_none0 eq_refl).
      * by destruct (cl_apart0 eq_refl w w' x x' Hw Hw' Hx Hx').
  - specialize (Hr eq_refl). assert (Hlive : live (pl s) w x) by done. split_and!.
    + intros Hw'. destruct (ok_leased _ _ _ Hok w' Hw') as (y & Hy & _ & Hr'). rewrite Hx' in Hy. injection Hy as <-.
      apply (ok_unique _ _ _ Hok w' w x' x); [split; auto|done..].
    + intros (a & l & Hl & Hin). destruct (ok_free _ _ _ Hok a l w' Hl Hin) as (y & Hly & _ & _ & Hf).
      pose proof Hly as [Hy _]. rewrite Hx' in Hy. injection Hy as <-.
      pose proof (ok_unique _ _ _ Hok w' w x' x Hly Hlive Hch) as ->. congruence.
    + intros Hin. destruct (ok_closing _ _ _ Hok w') as (y & Hy & _ & Hd); [unfold doomed; rewrite elem_of_app; by left|].
      rewrite Hx' in Hy. injection Hy as <-. by destruct (Hd w x).
Qed.

(** C30: Closing loses nothing: once the channel is marked closed no transport is
    leased any more; when the clean-up has requested its closes and no lease or
    return is under way, the pool is empty and every native channel that was ever
    created is being closed, or its close was refused, by the loop that owns it, by the
    runtime or because the clean-up failed before; and when the clean-up is over no lease
    is left. *)
Theorem pool_drained s :
  rtc step new_state s ->
  (_closed (pl s) = true -> forall s', rtc step s s' ->
     forall w, w ∈ _leased_channels (pl s') -> w ∈ _leased_channels (pl s)) /\
  (closes_requested (pl s) = true -> act s = Idle ->
     _free_channels (pl s) = [] /\
     (forall n, (n < created (pl s))%nat ->
       exists w x, (w ∈ closing (pl s) \/ w ∈ refused (pl s)) /\ wrappers (pl s) !! w = Some x /\ channel x = n) /\
     (cleanup (pl s) <> ClosesRequested -> _leased_channels (pl s) = [])).
Proof.
  intros Hr. split.
  - intros Hc s' Hs. clear Hr. induction Hs as [|x y z Hx _ IH]; [done|].
    destruct (closed_grows _ _ Hx Hc) as [Hc' Hsub]. intros w Hw. apply Hsub. by apply IH.
  - intros Hq Ha. apply pool_reachable_ok in Hr as [Hr _]. rewrite Ha in Hr. simpl in Hr.
    assert (_close_completion (pl s) = true) as Hcc.
    { apply completion_by_cleanup; [done|]. unfold closes_requested in Hq. by destruct (cleanup (pl s)). }
    destruct (ok_completed _ _ _ Hr Hcc) as (_ & Hf & Hall). pose proof (ok_cleanup _ _ _ Hr) as Hcl. split; [done|]. split.
    + intros n Hn. destruct (ok_covered _ _ _ Hr n Hn) as [(w & x & [Hw R] & _)|(w & x & [Hw|[=]] & Hx & Hch)].
      * destruct (ok_tracked _ _ _ Hr w x (conj Hw R)) as [(a & l & Hl & _)|[Hin|[=]]].
        -- rewrite Hf in Hl. done.
        -- specialize (Hall w x Hin Hw). congruence.
      * exists w, x. split_and!; [|done..]. unfold doomed in Hw. rewrite !elem_of_app in Hw.
        pose proof (cl_requested _ Hcl Hq w). tauto.
    + intros Hne. apply (cl_done _ Hcl). unfold closes_requested in Hq. destruct (cleanup (pl s)); auto; done.
Qed.

End Pool.

(** ** Instances *)

(** One transport is leased, returned, leased again under a new wrapper, and the
    first wrapper is returned once more. *)
Definition host : pystr := u "h".
Definition ex_state : state :=
  mkState (mkPool [mkWrapper host 0 true true true; mkWrapper host 0 true false true]
    [(host, [])] [1%nat] false false [] [] [] NoCleanup 1) Idle [].

(** The state at the head of a trace, evaluated. *)
Ltac at_state :=
  match goal with |- rtc _ ?s _ =>
    let v := eval vm_compute in s in
    first [constr_eq s v | let E := fresh in assert (s = v) as E by (vm_compute; reflexivity); rewrite E; clear E]
  end.
Tactic Notation "loop_to" uconstr(c) := eapply rtc_l; [left; eapply c; vm_compute; reflexivity|at_state].
Tactic Notation "loop_now" uconstr(c) := eapply rtc_l; [left; eapply c|at_state].
Tactic Notation "release_now" constr(w) :=
  eapply rtc_l; [left; eapply (release_open 2 _ w false); [by eexists|vm_compute; reflexivity|vm_compute; reflexivity]|at_state].

Lemma ex_state_reached : rtc (step 2) new_state ex_state.
Proof.
  at_state. loop_now (get_begin 2 _ host). loop_to get_none. loop_to (get_create 2 _ _ true). loop_to (get_lease 2 _ _ true).
  release_now 0%nat. loop_now (release_rest 2 _ 0 false false false true).
  loop_now (get_begin 2 _ host). loop_to get_popped. loop_now get_usable. loop_to (get_lease 2 _ _ true).
  release_now 0%nat. loop_now (release_rest 2 _ 0 false false false true). apply rtc_refl.
Qed.

Lemma pool_exclusive_witness : ~ in_free (pl ex_state) 0 /\ 0%nat ∉ closing (pl ex_state).
Proof.
  destruct (pool_exclusive 2 ex_state ex_state_reached) as [_ H].
  destruct (H 1%nat _ ltac:(left) eq_refl 0%nat _ eq_refl eq_refl) as (_ & H1 & H2).
  split; [exact H1|]. intros Hin. discriminate (H2 Hin).
Defined.

(** The channel is closed, and the second wrapper is returned meanwhile. *)
Definition ex_drained : state :=
  mkState (mkPool [mkWrapper host 0 true true true; mkWrapper host 0 true true true] [] [] true true [1%nat] [] [1%nat] CleanupDone 1)
    Idle [LateLooked 1 true].

Lemma ex_drained_reached : rtc (step 2) new_state ex_drained.
Proof.
  etrans; [apply ex_state_reached|]. eapply rtc_l; [right; apply outside_close|at_state].
  loop_to close_run.
  eapply rtc_l; [right; eapply (late_look _ _ _ 1); [by eexists|vm_compute; reflexivity|vm_compute; reflexivity]|at_state].
  loop_to (close_requests 2 _ (fun _ => true)). loop_to close_end. apply rtc_refl.
Qed.

Lemma pool_drained_witness :
  (exists w x, (w ∈ closing (pl ex_drained) \/ w ∈ refused (pl ex_drained)) /\ wrappers (pl ex_drained) !! w = Some x /\ channel x = 0%nat) /\
  refused (pl ex_drained) = [].
Proof.
  destruct (pool_drained 2 ex_drained ex_drained_reached) as [_ H]. split; [|vm_compute; reflexivity].
  exact (proj1 (proj2 (H eq_refl eq_refl)) 0%nat ltac:(vm_compute; lia)).
Defined.
