(* ===== verification/Routing.v ===== *)
(** * Addresses of calls

    [src/nebius/aio/channel.py] and [src/nebius/aio/route.py]: how the channel
    finds the address of a service, of a method name and of a generated route,
    with its caches [_methods] and [_routes], and the options of an address.  The
    custom resolver is one object that the channel's resolver and the route
    resolver share, so its caches are one state. *)
From S2P Require Import Prelude PyStr Methods Resolver.

Inductive routing_error : Type :=
| ResolveFailed (e : resolve_error)
| MethodFailed (e : method_error).

Record Route : Type := mkRoute {
  service : pystr;
  method : pystr;
  api_service_name : pystr;
  registry : nat            (** the identity of the registry object *)
}.

Abbreviation route_key := (nat * pystr * pystr * pystr)%type.

Record routing : Type := mkRouting {
  _route_substitutions : list (pystr * pystr);
  custom_chain : option Resolver;
  _methods : list (pystr * pystr);
  _routes : list (route_key * pystr)
}.

Section Routing.
Context {WC : WordChars} (annotation : pystr -> option pystr).

(** The resolvers [__init__] builds over the substitutions, [{domain}] first. *)
Definition init (domain : pystr) (substitutions : list (pystr * pystr)) (resolver : option Resolver) : routing :=
  mkRouting (foldl (fun d '(k, v) => dict_set d k v) [(u "{domain}", domain)] substitutions)
    ((fun r => Chain [r]) <$> resolver) [] [].

Definition _resolver (st : routing) : Resolver :=
  TemplateExpander (_route_substitutions st)
    match custom_chain st with Some c => Chain [c; Conventional] | None => Conventional end.

(** The shared part of a resolver that was asked. *)
Definition shared (r : Resolver) (old : option Resolver) : option Resolver :=
  match old, r with
  | Some _, TemplateExpander _ (Chain (c :: _ :: _)) => Some c
  | _, _ => old
  end.

Definition with_custom (c : option Resolver) (st : routing) : routing :=
  mkRouting (_route_substitutions st) c (_methods st) (_routes st).

Definition lift {A} (r : result resolve_error A) : result routing_error A :=
  match r with Ok a => Ok a | Raise e => Raise (ResolveFailed e) end.

(** [if len(service_name) > 1 and service_name[0] == "."] *)
Definition strip_dot (name : pystr) : pystr :=
  match name with c :: (_ :: _) as rest => if c =? 46 then rest else name | _ => name end.

Definition get_addr_from_service_name (name : pystr) (st : routing) : result routing_error pystr * routing :=
  let '(ret, r) := resolve annotation (_resolver st) (strip_dot name) in
  (lift ret, with_custom (shared r (custom_chain st)) st).

Definition get_addr_by_method (name : pystr) (st : routing) : result routing_error pystr * routing :=
  match dict_get (_methods st) name with
  | Some a => (Ok a, st)
  | None =>
      match service_from_method_name name with
      | Raise e => (Raise (MethodFailed e), st)
      | Ok service_name =>
          match get_addr_from_service_name service_name st with
          | (Ok a, st) =>
              (Ok a, mkRouting (_route_substitutions st) (custom_chain st) (dict_set (_methods st) name a) (_routes st))
          | (Raise e, st) => (Raise e, st)
          end
      end
  end.

(** The custom resolver of a route: an address, no answer, or an error. *)
Definition route_custom (r : Route) (st : routing) : result resolve_error (option pystr) * routing :=
  match custom_chain st with
  | None => (Ok None, st)
  | Some c =>
      match resolve annotation (TemplateExpander (_route_substitutions st) c) (service r) with
      | (ret, TemplateExpander _ c') =>
          (match ret with
           | Ok a => Ok (Some a)
           | Raise (UnknownServiceError _) => Ok None
           | Raise e => Raise e
           end, with_custom (Some c') st)
      | (_, _) => (Ok None, st)
      end
  end.

Definition route_key_of (r : Route) : route_key := (registry r, service r, method r, api_service_name r).

Definition get_addr_by_route (r : Route) (st : routing) : result routing_error pystr * routing :=
  match dict_get (_routes st) (route_key_of r) with
  | Some a => (Ok a, st)
  | None =>
      let '(address, st) :=
        match route_custom r st with
        | (Raise e, st) => (Raise (ResolveFailed e), st)
        | (Ok (Some a), st) => (Ok a, st)
        | (Ok None, st) =>
            match api_service_name r with
            | [] => get_addr_from_service_name (service r) st
            | _ :: _ => (Ok (expand (_route_substitutions st) (api_service_name r ++ u ".{domain}")), st)
            end
        end in
      match address with
      | Ok a =>
          (Ok a, mkRouting (_route_substitutions st) (custom_chain st) (_methods st)
                   (dict_set (_routes st) (route_key_of r) a))
      | Raise e => (Raise e, st)
      end
  end.

(** ** Options of an address *)

Definition set_user_agent_option {V} (user_agent : V) (options : list (pystr * V)) : list (pystr * V) :=
  options ++ [(u "grpc.primary_user_agent", user_agent)].

Definition get_address_options {V} (keepalive global : list (pystr * V)) (address_options : list (pystr * list (pystr * V)))
    (user_agent : V) (addr : pystr) : list (pystr * V) :=
  set_user_agent_option user_agent (keepalive ++ global ++ default [] (dict_get address_options addr)).

(** ** Without caches *)

Definition service_address (subs : list (pystr * pystr)) (custom : option Resolver) (name : pystr) :
    result routing_error pystr :=
  lift (lookup annotation (TemplateExpander subs
    match custom with Some c => Chain [c; Conventional] | None => Conventional end) (strip_dot name)).

Definition method_address subs custom (name : pystr) : result routing_error pystr :=
  match service_from_method_name name with
  | Raise e => Raise (MethodFailed e)
  | Ok s => service_address subs custom s
  end.

Definition route_address subs custom (r : Route) : result routing_error pystr :=
  match match custom with None => Raise (UnknownServiceError (service r)) | Some c => lookup annotation c (service r) end with
  | Ok a => Ok (expand subs a)
  | Raise OtherError => Raise (ResolveFailed OtherError)
  | Raise (UnknownServiceError _) =>
      match api_service_name r with
      | [] => service_address subs custom (service r)
      | _ :: _ => Ok (expand subs (api_service_name r ++ u ".{domain}"))
      end
  end.

Inductive query : Type := ByService (name : pystr) | ByMethod (name : pystr) | ByRoute (r : Route).

Definition ask (q : query) (st : routing) : result routing_error pystr * routing :=
  match q with
  | ByService n => get_addr_from_service_name n st
  | ByMethod n => get_addr_by_method n st
  | ByRoute r => get_addr_by_route r st
  end.

Definition address_of subs custom (q : query) : result routing_error pystr :=
  match q with
  | ByService n => service_address subs custom n
  | ByMethod n => method_address subs custom n
  | ByRoute r => route_address subs custom r
  end.

Fixpoint ask_all (qs : list query) (st : routing) : list (result routing_error pystr) :=
  match qs with
  | [] => []
  | q :: qs => let '(ret, st) := ask q st in ret :: ask_all qs st
  end.

(** ** The caches do not show *)

Definition same_lookup (c c' : option Resolver) : Prop :=
  match c, c' with
  | None, None => True
  | Some c, Some c' => forall id, lookup annotation c' id = lookup annotation c id
  | _, _ => False
  end.

(** The caches hold the addresses of the resolver [custom] the channel got. *)
Record routing_ok (custom : option Resolver) (st : routing) : Prop := {
  ok_custom : same_lookup custom (custom_chain st);
  ok_cache : match custom_chain st with Some c => cache_ok annotation c | None => True end;
  ok_methods : forall n a, dict_get (_methods st) n = Some a ->
    method_address (_route_substitutions st) custom n = Ok a;
  ok_routes : forall r a, dict_get (_routes st) (route_key_of r) = Some a ->
    route_address (_route_substitutions st) custom r = Ok a
}.

Lemma service_address_same subs c c' n :
  same_lookup c c' -> service_address subs c' n = service_address subs c n.
Proof.
  unfold same_lookup, service_address. destruct c as [c|], c' as [c'|]; try done. intros H. simpl. by rewrite H.
Qed.

Lemma resolve_shared subs c id :
  (resolve annotation (TemplateExpander subs (Chain [c; Conventional])) id).2 =
  TemplateExpander subs (Chain [(resolve annotation c id).2; Conventional]).
Proof.
  cbn [resolve]. destruct (resolve annotation c id) as [[a|[e|]] c']; [done| |done].
  by destruct (resolve_conventional annotation id) as [a|[e'|]].
Qed.

Lemma same_lookup_resolve custom c id :
  same_lookup custom (Some c) -> cache_ok annotation c ->
  same_lookup custom (Some (resolve annotation c id).2) /\ cache_ok annotation (resolve annotation c id).2.
Proof.
  intros Hs Hc. destruct (resolve_refines annotation c id Hc) as (_ & H2 & H3). split; [|done].
  destruct custom as [c0|]; [|done]. intros id'. by rewrite H3, Hs.
Qed.

Lemma with_custom_ok custom c id st :
  routing_ok custom st -> custom_chain st = Some c ->
  routing_ok custom (with_custom (Some (resolve annotation c id).2) st).
Proof.
  intros [Hs Hcc Hm Hr] Ec. rewrite Ec in *. destruct (same_lookup_resolve custom c id Hs Hcc). by split.
Qed.

Lemma ask_service_ok custom n st ret st' :
  routing_ok custom st -> get_addr_from_service_name n st = (ret, st') ->
  ret = service_address (_route_substitutions st) custom n /\ routing_ok custom st' /\
  _route_substitutions st' = _route_substitutions st.
Proof.
  intros Hok Hask. unfold get_addr_from_service_name in Hask.
  destruct (resolve annotation (_resolver st) (strip_dot n)) as [r' tree] eqn:E. injection Hask as <- <-.
  assert (Hc : cache_ok annotation (_resolver st)).
  { pose proof (ok_cache _ _ Hok) as H. unfold _resolver. simpl. destruct (custom_chain st); [by simpl|done]. }
  pose proof (resolve_refines annotation (_resolver st) (strip_dot n) Hc) as (H1 & H2 & H3). rewrite E in *. simpl in H1, H2, H3.
  split; [|split; [|done]].
  - rewrite <- (service_address_same _ _ _ n (ok_custom _ _ Hok)). unfold service_address. by rewrite H1.
  - unfold shared, _resolver in *. destruct (custom_chain st) as [c|] eqn:Ec; [|by destruct Hok; split; simpl; rewrite ?Ec in *].
    pose proof (resolve_shared (_route_substitutions st) c (strip_dot n)) as Ht. rewrite E in Ht. simpl in Ht. subst tree.
    by eapply with_custom_ok.
Qed.

Lemma route_custom_ok custom r st ret st' :
  routing_ok custom st -> route_custom r st = (ret, st') ->
  ret = match match custom with None => Raise (UnknownServiceError (service r))
                              | Some c => lookup annotation c (service r) end with
        | Ok a => Ok (Some (expand (_route_substitutions st) a))
        | Raise OtherError => Raise OtherError
        | Raise (UnknownServiceError _) => Ok None
        end /\ routing_ok custom st' /\ _route_substitutions st' = _route_substitutions st.
Proof.
  intros Hok. unfold route_custom. pose proof (ok_custom _ _ Hok) as Hs. pose proof (ok_cache _ _ Hok) as Hc.
  destruct (custom_chain st) as [c|] eqn:Ec; [|destruct custom; [done|]; by intros [= <- <-]].
  destruct custom as [c0|] eqn:Ec0; [|done]. cbn [resolve].
  destruct (resolve_refines annotation c (service r) Hc) as (H1 & _ & _). rewrite <- (Hs (service r)), <- H1.
  pose proof (with_custom_ok _ c (service r) _ Hok Ec) as Hok'.
  destruct (resolve annotation c (service r)) as [[a|[e|]] c']; intros [= <- <-]; done.
Qed.

Lemma route_address_key subs custom r r' :
  route_key_of r = route_key_of r' -> route_address subs custom r = route_address subs custom r'.
Proof. destruct r, r'. unfold route_key_of, route_address. simpl. by intros [= -> -> -> ->]. Qed.

Lemma add_method_ok custom n a st :
  routing_ok custom st -> method_address (_route_substitutions st) custom n = Ok a ->
  routing_ok custom (mkRouting (_route_substitutions st) (custom_chain st) (dict_set (_methods st) n a) (_routes st)).
Proof.
  intros [] Hn. split; try done. simpl. intros n' a'. rewrite dict_get_set. case_decide; [subst; congruence|auto].
Qed.

Lemma add_route_ok custom r a st :
  routing_ok custom st -> route_address (_route_substitutions st) custom r = Ok a ->
  routing_ok custom (mkRouting (_route_substitutions st) (custom_chain st) (_methods st)
    (dict_set (_routes st) (route_key_of r) a)).
Proof.
  intros [] Hn. split; try done. simpl. intros r' a'. rewrite dict_get_set. case_decide as E; [|auto].
  rewrite (route_address_key _ _ _ _ E). congruence.
Qed.

Lemma ask_ok custom q st ret st' :
  routing_ok custom st -> ask q st = (ret, st') ->
  ret = address_of (_route_substitutions st) custom q /\ routing_ok custom st' /\
  _route_substitutions st' = _route_substitutions st.
Proof.
  intros Hok. destruct q as [n|n|r]; simpl; [by apply ask_service_ok| |].
  - unfold get_addr_by_method. destruct (dict_get (_methods st) n) as [a|] eqn:Ed.
    { intros [= <- <-]. by rewrite (ok_methods _ _ Hok n a Ed). }
    pose proof (add_method_ok custom n) as Hadd. unfold method_address in *.
    destruct (service_from_method_name n) as [s|e]; [|by intros [= <- <-]].
    destruct (get_addr_from_service_name s st) as [ret1 st1] eqn:E1.
    destruct (ask_service_ok _ _ _ _ _ Hok E1) as (-> & Hok1 & Hs1).
    destruct (service_address _ custom s) as [a|e] eqn:Ea; intros Heq; injection Heq as <- <-; [|done].
    split; [done|]. split; [|done]. apply Hadd; [done|]. by rewrite Hs1.
  - unfold get_addr_by_route. destruct (dict_get (_routes st) (route_key_of r)) as [a|] eqn:Ed.
    { intros [= <- <-]. by rewrite (ok_routes _ _ Hok r a Ed). }
    destruct (route_custom r st) as [ret1 st1] eqn:E1.
    destruct (route_custom_ok _ _ _ _ _ Hok E1) as (Hret1 & Hok1 & Hs1).
    pose proof (add_route_ok custom r) as Hadd.
    assert (Hgo : forall address st2, routing_ok custom st2 -> _route_substitutions st2 = _route_substitutions st ->
      address = route_address (_route_substitutions st) custom r ->
      match address with
      | Ok a => (Ok a, mkRouting (_route_substitutions st2) (custom_chain st2) (_methods st2)
                   (dict_set (_routes st2) (route_key_of r) a))
      | Raise e => (Raise e, st2)
      end = (ret, st') ->
      ret = route_address (_route_substitutions st) custom r /\ routing_ok custom st' /\
      _route_substitutions st' = _route_substitutions st).
    { intros address st2 Hok2 Hs2 ->. rewrite <- Hs2.
      destruct (route_address _ custom r) as [a|e] eqn:Ea; intros Heq; injection Heq as <- <-; [|done].
      split; [done|]. split; [|done]. by apply Hadd. }
    subst ret1.
    destruct (match custom with None => _ | Some c => lookup annotation c (service r) end) as [a|[i|]] eqn:El.
    + apply (Hgo (Ok _) st1); [done..|]. unfold route_address. by rewrite El.
    + destruct (api_service_name r) as [|x xs] eqn:Ex.
      * destruct (get_addr_from_service_name (service r) st1) as [ret2 st2] eqn:E2.
        destruct (ask_service_ok _ _ _ _ _ Hok1 E2) as (-> & Hok2 & Hs2).
        apply (Hgo _ st2); [done|congruence|]. unfold route_address. by rewrite El, Ex, Hs1.
      * apply (Hgo (Ok _) st1); [done..|]. unfold route_address. by rewrite El, Ex, Hs1.
    + apply (Hgo (Raise _) st1); [done..|]. unfold route_address. by rewrite El.
Qed.

Lemma ask_all_ok custom qs st :
  routing_ok custom st -> ask_all qs st = map (address_of (_route_substitutions st) custom) qs.
Proof.
  revert st. induction qs as [|q qs IH]; intros st Hok; [done|]. simpl. destruct (ask q st) as [ret st'] eqn:E.
  destruct (ask_ok _ _ _ _ _ Hok E) as (-> & Hok' & Hs). by rewrite IH, Hs.
Qed.

Lemma init_routing_ok domain subs custom :
  match custom with Some c => cache_ok annotation c | None => True end ->
  routing_ok (custom_chain (init domain subs custom)) (init domain subs custom).
Proof. intros Hc. by destruct custom; split. Qed.

(** Whatever was asked before, by service, by method or by route, a channel
    answers as its resolvers without any cache; a method name is answered as its
    service, and a route as its service too, unless it carries an annotation of
    its own, which then agrees with the service when the descriptor has the same
    one and the service name is conventional. *)
Theorem routing_transparent domain subs custom qs :
  match custom with Some c => cache_ok annotation c | None => True end ->
  let st := init domain subs custom in
  let address := address_of (_route_substitutions st) (custom_chain st) in
  ask_all qs st = map address qs /\
  (forall n s, service_from_method_name n = Ok s -> address (ByMethod n) = address (ByService s)) /\
  (forall r, strip_dot (service r) = service r ->
     (api_service_name r = [] \/
      (annotation (service r) = Some (api_service_name r) /\
       is_Ok (resolve_conventional annotation (service r)) = true)) ->
     address (ByRoute r) = address (ByService (service r))).
Proof.
  intros Hc st address. split_and!.
  - apply ask_all_ok. by apply init_routing_ok.
  - intros n s Hs. unfold address, address_of, method_address. by rewrite Hs.
  - intros r Hdot Hr. unfold address, address_of, route_address, service_address. rewrite Hdot.
    assert (Hconv : api_service_name r <> [] -> is_Ok (resolve_conventional annotation (service r)) = true ->
      annotation (service r) = Some (api_service_name r) ->
      resolve_conventional annotation (service r) = Ok (api_service_name r ++ u ".{domain}")).
    { intros Hne Hok Ha. destruct (proj2 (conventional_names annotation (service r)) Hok) as (Hs & name & rest & Hn & E).
      rewrite (proj1 (conventional_names annotation (service r)) name rest Hn E Hs), Ha.
      by destruct (api_service_name r). }
    destruct (custom_chain st) as [c|]; simpl.
    + destruct (lookup annotation c (service r)) as [a|[i|]]; [done| |done].
      destruct (api_service_name r) as [|x xs]; [done|]. destruct Hr as [|[Ha Hok]]; [done|].
      rewrite Hconv by done. simpl. done.
    + destruct (api_service_name r) as [|x xs]; [done|]. destruct Hr as [|[Ha Hok]]; [done|].
      rewrite Hconv by done. done.
Qed.

(** The user agent is the last option and the options before it stay, also an
    older user agent. *)
Lemma address_options_user_agent {V} keepalive global address_options (user_agent : V) addr :
  last (get_address_options keepalive global address_options user_agent addr) =
    Some (u "grpc.primary_user_agent", user_agent) /\
  forall o, o ∈ keepalive ++ global -> o ∈ get_address_options keepalive global address_options user_agent addr.
Proof.
  unfold get_address_options, set_user_agent_option. split; [by rewrite last_snoc|].
  intros o Ho. rewrite app_assoc, !elem_of_app. rewrite elem_of_app in Ho. naive_solver.
Qed.

End Routing.

(** ** Instances *)

#[local] Existing Instance ascii_words.

Definition disk_route : Route := mkRoute (u "nebius.compute.v1.DiskService") (u "Get") [] 3.

Lemma routing_transparent_witness :
  ask_all (fun _ => None)
    [ByRoute disk_route; ByMethod (u "/nebius.compute.v1.DiskService/Get"); ByRoute disk_route; ByService (u ".x")]
    (init (u "api.example:443") [] (Some (mkCached (mkBasic (u "nebius.iam.*") (u "iam.{domain}"))))) =
  [Ok (u "compute.api.example:443"); Ok (u "compute.api.example:443"); Ok (u "compute.api.example:443");
   Raise (ResolveFailed (UnknownServiceError (u "x")))].
Proof.
  etransitivity; [apply (routing_transparent (fun _ => None)); done|]. vm_compute. reflexivity.
Defined.
