(* ===== verification/Receivers.v ===== *)
(** * Token receivers and the authenticator

    [src/nebius/aio/token/token.py] (class [Receiver]), [static.py], [file.py]
    and [exchangeable.py] of the same directory, and
    [src/nebius/aio/authorization/token.py].  A receiver is an object with a
    state: an instance of the class [Receiver], whose operations also take what
    the call meets outside (the clock, the text of a file, the answer of the
    exchange service).  The request layer sees a receiver through the
    authenticator only.  Metrics and logging are left out. *)
From Stdlib Require Import QArith.
From S2P Require Import Prelude PyStr PyText TokenCache Metadata Renewable.
#[local] Open Scope Z_scope.

(** ** Receivers *)

Inductive fetch_error : Type :=
| CacheFailed (e : token_error)
| SourceFailed                      (** anything an outside source raised *)
| SDKError (msg : pystr)
| NoTokenInEnvError (env : pystr)
| UnsupportedResponseError
| UnsupportedTokenTypeError (token_type : pystr)
| ExpirationOverflow                (** [OverflowError] of [datetime] *)
| AttributeError.

#[export] Instance fetch_error_eq_dec : EqDecision fetch_error.
Proof. assert (EqDecision token_error) by solve_decision. solve_decision. Defined.

(** [fetch] and [can_retry] of a receiver of state [R]; [W] is what the call
    meets outside.  [can_retry] of a receiver may raise. *)
Class Receiver (W R : Type) := {
  receiver_fetch : W -> R -> result fetch_error Token * R;
  receiver_can_retry : W -> fetch_error -> R -> result fetch_error bool * R
}.

(** ** [static.py] *)

Module Static.

Record receiver : Type := mkReceiver { _latest : Token }.

Definition bearer_init (token : Token) : result fetch_error Token :=
  if Token.is_empty token then Raise (SDKError (u "empty token provided")) else Ok token.

(** [EnvBearer(env_var_name)]; [value] is the variable, when it is set. *)
Definition env_bearer_init (env_var_name : pystr) (value : option pystr) : result fetch_error Token :=
  let val := strip (default [] value) in
  if decide (val = []) then Raise (NoTokenInEnvError env_var_name) else bearer_init (mkToken val None).

Definition new_receiver (bearer : Token) : receiver := mkReceiver bearer.

#[global] Instance static_receiver : Receiver () receiver := {|
  receiver_fetch _ self := (Ok (_latest self), self);
  receiver_can_retry _ _ self := (Ok false, self)
|}.

End Static.

(** ** [file.py] *)

Module TokenFile.

(** Times are those of [monotonic()]. *)
Record bearer : Type := mkBearer {
  _refresh_period : Q;
  _cached_token : option Token;
  _refresh_at : Q
}.

Definition bearer_init (refresh_period : Q) : bearer := mkBearer refresh_period None 0.

Definition _invalidate_cache (self : bearer) : bearer := mkBearer (_refresh_period self) None 0.

(** [text] is what [read_text()] returns; [None]: it raises. *)
Definition _read_token_value (text : option pystr) : result fetch_error pystr :=
  match text with
  | None => Raise SourceFailed
  | Some text =>
      let token_value := strip text in
      if decide (token_value = []) then Raise (SDKError (u "empty token file provided")) else
      if str_contains 10 token_value then Raise (SDKError (u "invalid token file")) else Ok token_value
  end.

(** The cached token, when it can be served. *)
Definition cached_fresh (now : Q) (self : bearer) : option Token :=
  match _cached_token self with
  | Some t =>
      if negb (Token.is_empty t) && (Qeq_bool (_refresh_period self) 0 || Qltb now (_refresh_at self))
      then Some t else None
  | None => None
  end.

(** [now] and [now2] are the clock before and after the file is read. *)
Definition fetch_token (now now2 : Q) (text : option pystr) (self : bearer) : result fetch_error Token * bearer :=
  match cached_fresh now self with
  | Some t => (Ok t, self)
  | None =>
      match _read_token_value text with
      | Raise e => (Raise e, self)
      | Ok token_value =>
          let tok := mkToken token_value None in
          (Ok tok, mkBearer (_refresh_period self) (Some tok) (now2 + _refresh_period self)%Q)
      end
  end.

Definition should_retry_after_error (token : Token) (text : option pystr) (self : bearer) : bool * bearer :=
  match _cached_token self with
  | Some t =>
      if negb (Token.is_empty t) && bool_decide (_tok t <> _tok token) then (true, _invalidate_cache self) else
      (match _read_token_value text with Raise _ => false | Ok v => bool_decide (v <> _tok token) end,
       _invalidate_cache self)
  | None =>
      (match _read_token_value text with Raise _ => false | Ok v => bool_decide (v <> _tok token) end,
       _invalidate_cache self)
  end.

(** A receiver with the bearer it belongs to.  The class declares [_latest] and
    gives it no value: [None] stands for the attribute that is not there. *)
Record receiver : Type := mkReceiver { _bearer : bearer; _latest : option Token }.

Definition new_receiver (b : bearer) : receiver := mkReceiver b None.

(** What a call meets: two readings of the clock and the file. *)
Record world : Type := mkWorld { clock : Q; clock2 : Q; file : option pystr }.

(** [fetch] of the base class, with the [_fetch] of this one. *)
Definition fetch (w : world) (self : receiver) : result fetch_error Token * receiver :=
  let '(r, b) := fetch_token (clock w) (clock2 w) (file w) (_bearer self) in
  (r, mkReceiver b (match r with Ok tok => Some tok | Raise _ => _latest self end)).

Definition can_retry (w : world) (self : receiver) : result fetch_error bool * receiver :=
  match _latest self with
  | None => (Raise AttributeError, self)
  | Some latest =>
      if Token.is_empty latest then (Ok false, self) else
      let '(b, bearer) := should_retry_after_error latest (file w) (_bearer self) in
      (Ok b, mkReceiver bearer (_latest self))
  end.

#[global] Instance file_receiver : Receiver world receiver := {|
  receiver_fetch := fetch;
  receiver_can_retry w _ := can_retry w
|}.

End TokenFile.

(** ** [exchangeable.py] *)

Module Exchange.

Record receiver : Type := mkReceiver { _max_retries : Z; _trial : Z }.

Definition new_receiver (max_retries : Z) : receiver := mkReceiver max_retries 0.

(** [expires_in] is a 64-bit integer of the message. *)
Record CreateTokenResponse : Type := mkResponse {
  access_token : pystr;
  token_type : pystr;
  expires_in : Z
}.

(** A response of another type, or an error of the requester, the service or the
    deadline. *)
Inductive answer : Type := Response (r : CreateTokenResponse) | OtherResponse | Failed (e : fetch_error).

(** [now + timedelta(seconds=n)], in microseconds.  The sum leaves the years 1 to
    9999 whenever [timedelta] itself overflows. *)
Definition add_seconds (now n : Z) : result fetch_error Z :=
  let e := now + n * second in
  if (e <? -62135596800 * second) || (253402300800 * second <=? e) then Raise ExpirationOverflow else Ok e.

(** The token of an answer; [now] was read before the service was called. *)
Definition token_of (now : Z) (a : answer) : result fetch_error Token :=
  match a with
  | Failed e => Raise e
  | OtherResponse => Raise UnsupportedResponseError
  | Response ret =>
      if decide (token_type ret <> u "Bearer") then Raise (UnsupportedTokenTypeError (token_type ret)) else
      match add_seconds now (expires_in ret) with
      | Raise e => Raise e
      | Ok e => Ok (mkToken (access_token ret) (Some e))
      end
  end.

Definition fetch (now : Z) (a : answer) (self : receiver) : result fetch_error Token * receiver :=
  (token_of now a, mkReceiver (_max_retries self) (_trial self + 1)).

(** [py_int] is [int()], [None] its [ValueError]. *)
Definition can_retry (py_int : pystr -> option Z) (options : option (list (pystr * pystr))) (self : receiver) : bool :=
  let max_retries :=
    match options ≫= fun o => dict_get o OPTION_MAX_RETRIES with
    | Some v => default (_max_retries self) (py_int v)
    | None => _max_retries self
    end in
  negb (max_retries <=? _trial self).

#[global] Instance exchange_receiver : Receiver (Z * answer) receiver := {|
  receiver_fetch w self := fetch w.1 w.2 self;
  receiver_can_retry _ _ self := (Ok (can_retry (fun _ => None) None self), self)
|}.

End Exchange.

(** ** [authorization/token.py] *)

Definition HEADER : pystr := u "authorization".

Section Authenticator.
Context `{PyLower} {W R : Type} `{!Receiver W R}.

(** [TokenAuthenticator.authenticate]: the outcome, the metadata and the
    receiver. *)
Definition authenticate (env : W) (metadata : Metadata.contents) (self : R) :
    result fetch_error () * Metadata.contents * R :=
  let '(r, self) := receiver_fetch env self in
  match r with
  | Raise e => (Raise e, metadata, self)
  | Ok tok => (Ok (), Metadata.add HEADER (u "Bearer " ++ _tok tok) (Metadata.delitem_str HEADER metadata), self)
  end.

(** [TokenAuthenticator.can_retry] *)
Definition auth_can_retry (env : W) (err : fetch_error) (self : R) : result fetch_error bool * R :=
  receiver_can_retry env err self.

End Authenticator.

(** ** The authenticator *)

Section AuthenticatorSpec.
Context `{PyLower} {W R : Type} `{!Receiver W R}.

(** For every receiver: when the fetch fails, authentication raises that error
    and leaves the metadata as it was; otherwise exactly one authorization value
    is left, ["Bearer "] and the token, however the old headers were spelt, and
    the values of every other key are unchanged. *)
Theorem authenticate_spec (env : W) metadata (self : R) :
  let '(r, metadata', self') := authenticate env metadata self in
  self' = (receiver_fetch env self).2 /\
  match (receiver_fetch env self).1 with
  | Raise e => r = Raise e /\ metadata' = metadata
  | Ok tok =>
      r = Ok () /\ getitem_str HEADER metadata' = [u "Bearer " ++ _tok tok] /\
      forall k, py_lower k <> py_lower HEADER -> getitem_str k metadata' = getitem_str k metadata
  end.
Proof.
  unfold authenticate. destruct (receiver_fetch env self) as [[tok|e] self'] eqn:E; [|done].
  split; [done|]. split; [done|]. split.
  - by rewrite getitem_add, getitem_delitem, !decide_True.
  - intros k Hk. by rewrite getitem_add, getitem_delitem, !decide_False, app_nil_r.
Qed.

End AuthenticatorSpec.

(** ** The token file *)

Section TokenFileSpec.
Import TokenFile.

Lemma read_token_value_spec text v :
  _read_token_value text = Ok v -> v <> [] /\ ~ 10 ∈ v /\ exists t, text = Some t /\ v = strip t.
Proof.
  unfold _read_token_value, str_contains. destruct text as [t|]; [|done].
  destruct (decide _) as [|Hn]; [done|]. case_bool_decide as Hc; [done|]. intros [= <-]. eauto.
Qed.

(** Without a cached token that can be served, a fetch reads the file. *)
Lemma fetch_reads w b latest :
  cached_fresh (clock w) b = None ->
  (fetch w (mkReceiver b latest)).1 =
    match _read_token_value (file w) with Ok v => Ok (mkToken v None) | Raise e => Raise e end.
Proof. intros Hc. unfold fetch, fetch_token. simpl. rewrite Hc. by destruct (_read_token_value (file w)). Qed.

Lemma invalidated b now : cached_fresh now (_invalidate_cache b) = None.
Proof. done. Qed.

(** The bearer never caches an empty token. *)
Definition bearer_ok (b : bearer) : Prop := forall t, _cached_token b = Some t -> Token.is_empty t = false.

Lemma fetch_token_ok now now2 text b :
  bearer_ok b ->
  let '(r, b') := fetch_token now now2 text b in
  bearer_ok b' /\ forall t, r = Ok t -> Token.is_empty t = false /\ _cached_token b' = Some t.
Proof.
  intros Hb. unfold fetch_token, cached_fresh.
  assert (Hread : match _read_token_value text with
    | Ok v => Token.is_empty (mkToken v None) = false | Raise _ => True end).
  { destruct (_read_token_value text) as [v|] eqn:Ev; [|done].
    apply read_token_value_spec in Ev as [Hv _]. unfold Token.is_empty. simpl. by rewrite bool_decide_eq_false. }
  assert (Hgo : let '(r, b') := match _read_token_value text with
      | Raise e => (Raise e, b)
      | Ok v => (Ok (mkToken v None), mkBearer (_refresh_period b) (Some (mkToken v None)) (now2 + _refresh_period b)%Q)
      end in bearer_ok b' /\ forall t, r = Ok t -> Token.is_empty t = false /\ _cached_token b' = Some t).
  { destruct (_read_token_value text) as [v|e]; [|done]. split; [by intros t [= <-]|]. by intros t [= <-]. }
  destruct (_cached_token b) as [t|] eqn:Et; [|done]. destruct (_ && _); [|done].
  split; [done|]. intros t' [= <-]. auto.
Qed.

(** After a rejection of the token a receiver fetched, while no other receiver
    has cached another token, the receiver allows a retry exactly when the file
    holds a different token now, and the fetch that follows returns the token of
    the file, whatever the refresh period; when the file cannot be read or is not
    a token, it does not allow a retry.  Either way the cache is dropped. *)
Theorem rotation_detected (w w' : world) (self : receiver) (t : Token) :
  bearer_ok (_bearer self) -> _latest self = Some t -> Token.is_empty t = false ->
  (forall c, _cached_token (_bearer self) = Some c -> _tok c = _tok t) -> file w' = file w ->
  let '(b, self') := can_retry w self in
  _cached_token (_bearer self') = None /\
  match _read_token_value (file w) with
  | Ok v => b = Ok (bool_decide (v <> _tok t)) /\ (fetch w' self').1 = Ok (mkToken v None)
  | Raise e => b = Ok false /\ (fetch w' self').1 = Raise e
  end.
Proof.
  intros Hok Hl He Hc Hf. unfold can_retry. rewrite Hl, He.
  assert (Hs : should_retry_after_error t (file w) (_bearer self) =
    (match _read_token_value (file w) with Raise _ => false | Ok v => bool_decide (v <> _tok t) end,
     _invalidate_cache (_bearer self))).
  { unfold should_retry_after_error. destruct (_cached_token (_bearer self)) as [c|] eqn:Ec; [|done].
    rewrite (bool_decide_eq_false_2 (_tok c <> _tok t)) by (intros Hn; by apply Hn, Hc).
    by rewrite andb_false_r. }
  rewrite Hs. split; [done|]. rewrite (fetch_reads w' _ _ (invalidated _ _)), Hf.
  by destruct (_read_token_value (file w)).
Qed.

(** The first fetch of a receiver that cannot read its token file fails, and
    the [can_retry] the request layer calls on that error then raises
    [AttributeError], since the class declares [_latest] without a value: the
    error of the file is not the one the request ends with. *)
Theorem unreadable_file_masked (w w' : world) (refresh_period : Q) (e : fetch_error) :
  _read_token_value (file w) = Raise e ->
  let '(r, self) := fetch w (new_receiver (bearer_init refresh_period)) in
  r = Raise e /\ (auth_can_retry w' e self).1 = Raise AttributeError.
Proof. intros He. unfold fetch, fetch_token. simpl. by rewrite He. Qed.

End TokenFileSpec.

(** ** The exchange *)

(** A fetch returns a token exactly for a ["Bearer"] response whose expiration
    the calendar can express; the expiration is counted from before the call. *)
Lemma exchange_fetch_spec now a self t :
  (Exchange.fetch now a self).1 = Ok t <->
  exists r, a = Exchange.Response r /\ Exchange.token_type r = u "Bearer" /\
    t = mkToken (Exchange.access_token r) (Some (now + Exchange.expires_in r * second)) /\
    -62135596800 * second <= now + Exchange.expires_in r * second < 253402300800 * second.
Proof.
  unfold Exchange.fetch, Exchange.token_of, Exchange.add_seconds. simpl. split.
  - destruct a as [r| |e]; [|done..]. destruct (decide _) as [|Ht]; [done|].
    apply dec_stable in Ht. destruct (_ || _) eqn:Eb; [done|]. intros [= <-].
    apply orb_false_iff in Eb as [?%Z.ltb_ge ?%Z.leb_gt]. eauto 10.
  - intros (r & -> & Ht & -> & Hb). rewrite decide_False by auto.
    rewrite (proj2 (orb_false_iff _ _)); [done|]. split; [apply Z.ltb_ge|apply Z.leb_gt]; lia.
Qed.

(** ** Instances *)

#[local] Existing Instance ascii_py_lower.

Definition ex_world (text : option pystr) : TokenFile.world := TokenFile.mkWorld 1 2 text.

Definition ex_fetched : TokenFile.receiver :=
  (TokenFile.fetch (ex_world (Some (u "one"))) (TokenFile.new_receiver (TokenFile.bearer_init 0))).2.

Lemma rotation_detected_witness :
  (TokenFile.can_retry (ex_world (Some (u "two"))) ex_fetched).1 = Ok true /\
  (TokenFile.fetch (ex_world (Some (u "two")))
     (TokenFile.can_retry (ex_world (Some (u "two"))) ex_fetched).2).1 = Ok (mkToken (u "two") None).
Proof.
  pose proof (rotation_detected (ex_world (Some (u "two"))) (ex_world (Some (u "two"))) ex_fetched
    (mkToken (u "one") None)) as Hr.
  destruct Hr as (_ & H1 & H2); [by intros t [= <-]|reflexivity|reflexivity|by intros c [= <-]|reflexivity|].
  split; [exact H1|exact H2].
Defined.

Lemma unreadable_file_masked_witness :
  (auth_can_retry (ex_world None) SourceFailed
     (TokenFile.fetch (ex_world None) (TokenFile.new_receiver (TokenFile.bearer_init 300))).2).1 = Raise AttributeError.
Proof. apply (unreadable_file_masked (ex_world None) (ex_world None) 300 SourceFailed). reflexivity. Defined.

(** An old header of any spelling is replaced. *)
Example authenticate_replaces :
  (authenticate () (Metadata.add (u "AUTHORIZATION") (u "x") (Metadata.add (u "k") (u "v") []))
    (Static.new_receiver (mkToken (u "tok") None))).1 =
  (Ok (), [(u "k", u "v"); (u "authorization", u "Bearer tok")]).
Proof. vm_compute. reflexivity. Qed.
