(* ===== verification/FileBearer.v ===== *)
(** * Bearers over the token file cache

    [src/nebius/aio/token/file_cache/renewable_bearer.py] and [file_bearer.py]:
    receivers that answer from the throttled file cache of [TokenCache] and, the
    first one, renew through a wrapped receiver, which is any instance of
    [Receiver].  Every operation of the cache reads the clock on its own; the
    times are arguments, as is what the call of the wrapped receiver meets
    outside.  Metrics are left out. *)
From S2P Require Import Prelude PyStr TokenCache Receivers.
#[local] Open Scope Z_scope.

Section Renewable.
Context `{Yaml} {W R : Type} `{!Receiver W R}.
(** [self._bearer.wrapped.receiver()] *)
Context (wrapped_receiver : R).
Context (safety_margin : option Z).

Abbreviation disk := (option text).

Record RenewableFileCacheReceiver : Type := mkFileReceiver {
  _receiver : option R;
  _last_saved : option Token;
  _from_cache : bool
}.

Definition new_receiver : RenewableFileCacheReceiver := mkFileReceiver None None true.

Definition _is_token_fresh (now : Z) (token : Token) : bool :=
  if Token.is_expired now token then false else
  match safety_margin, _exp token with
  | None, _ | _, None => true
  | Some m, Some e => now <? e - m
  end.

(** [self._last_saved == token] *)
Definition last_saved_is (self : RenewableFileCacheReceiver) (token : option Token) : bool :=
  match _last_saved self, token with
  | Some a, Some b => Token.eqb a b
  | None, None => true
  | _, _ => false
  end.

(** The token of the cache: at once, or read again after an error, when the
    token that was saved last does not count. *)
Definition cached_candidate (now : Z) (self : RenewableFileCacheReceiver) (c : Throttled) (d : disk) :
    result token_error (option Token) * Throttled * disk :=
  if _from_cache self then Throttled.get now c d else
  let '(r, c, d) := Throttled.refresh now c d in
  (match r with
   | Ok token => Ok (if last_saved_is self token then None else token)
   | Raise e => Raise e
   end, c, d).

(** The part of [_fetch] after a miss; [now] is the time of the store. *)
Definition fetch_source (env : W) (now : Z) (self : RenewableFileCacheReceiver) (c : Throttled) (d : disk) :
    result fetch_error Token * RenewableFileCacheReceiver * Throttled * disk :=
  let '(r, source) := receiver_fetch env (default wrapped_receiver (_receiver self)) in
  let self := mkFileReceiver (Some source) (_last_saved self) false in
  match r with
  | Raise e => (Raise e, self, c, d)
  | Ok token =>
      if Token.is_empty token then (Ok token, mkFileReceiver (Some source) None false, c, d) else
      let '(s, c, d) := Throttled.set now token c d in
      match s with
      | Raise e => (Raise (CacheFailed e), self, c, d)
      | Ok _ => (Ok token, mkFileReceiver (Some source) (Some token) false, c, d)
      end
  end.

(** [_fetch]: [now], [now2] and [now3] are the clock at the read, at the test of
    freshness and at the store. *)
Definition _fetch (env : W) (now now2 now3 : Z) (self : RenewableFileCacheReceiver) (c : Throttled) (d : disk) :
    result fetch_error Token * RenewableFileCacheReceiver * Throttled * disk :=
  let '(r, c, d) := cached_candidate now self c d in
  match r with
  | Raise e => (Raise (CacheFailed e), self, c, d)
  | Ok (Some token) =>
      if _is_token_fresh now2 token
      then (Ok token, mkFileReceiver (_receiver self) (Some token) true, c, d)
      else fetch_source env now3 self c d
  | Ok None => fetch_source env now3 self c d
  end.

Definition can_retry (env : W) (err : fetch_error) (self : RenewableFileCacheReceiver) :
    result fetch_error bool * RenewableFileCacheReceiver :=
  if _from_cache self then (Ok true, mkFileReceiver (_receiver self) (_last_saved self) false) else
  match _receiver self with
  | None => (Ok true, self)
  | Some r =>
      let '(b, r) := receiver_can_retry env err r in (b, mkFileReceiver (Some r) (_last_saved self) (_from_cache self))
  end.

#[export] Instance file_cache_receiver (now now2 now3 : Z) :
    Receiver W (RenewableFileCacheReceiver * Throttled * disk) := {|
  receiver_fetch env st :=
    let '(self, c, d) := st in
    let '(r, self, c, d) := _fetch env now now2 now3 self c d in (r, (self, c, d));
  receiver_can_retry env err st :=
    let '(self, c, d) := st in let '(b, self) := can_retry env err self in (b, (self, c, d))
|}.

(** ** [PureFileCacheReceiver] *)

Definition pure_fetch (now : Z) (c : Throttled) (d : disk) : result token_error Token * Throttled * disk :=
  let '(r, c, d) := Throttled.get now c d in
  (match r with Raise e => Raise e | Ok None => Ok Token.empty | Ok (Some token) => Ok token end, c, d).

(** ** What a fetch does *)

Lemma eqb_spec a b : Token.eqb a b = true <-> a = b.
Proof.
  unfold Token.eqb. rewrite andb_true_iff, !bool_decide_eq_true. destruct a, b; simpl. naive_solver.
Qed.

Lemma view_live now d name t : view now d name = Some t -> Token.is_expired now t = false.
Proof. unfold view, live. case_match; [|done]. case_match eqn:E; [done|]. by intros [= <-]. Qed.

Lemma throttled_refresh_spec now c d :
  disk_ok d ->
  let '(r, c', d') := Throttled.refresh now c d in
  disk_ok d' /\ _name c' = _name c /\ r = Ok (view now d (_name c)) /\
  forall n, view now d' n = view now d n.
Proof.
  intros Hd. destruct (get_view now (_name c) d Hd) as (G1 & G2 & G3). unfold Throttled.refresh.
  destruct (get now (_name c) d) as [r d']. simpl in G1, G2, G3. subst r.
  destruct (view now d (_name c)) as [t|] eqn:E; [|done]. by rewrite (view_live _ _ _ _ E).
Qed.

Lemma throttled_get_spec now c d :
  disk_ok d ->
  let '(r, c', d') := Throttled.get now c d in
  disk_ok d' /\ _name c' = _name c /\ (forall n, view now d' n = view now d n) /\
  exists o, r = Ok o /\ (o = view now d (_name c) \/ o = _cached_token c) /\
    forall t, o = Some t -> Token.is_expired now t = false.
Proof.
  intros Hd. pose proof (throttled_refresh_spec now c d Hd) as Hr. unfold Throttled.get.
  assert (Hgo : let '(r, c', d') := Throttled.refresh now c d in
    disk_ok d' /\ _name c' = _name c /\ (forall n, view now d' n = view now d n) /\
    exists o, r = Ok o /\ (o = view now d (_name c) \/ o = _cached_token c) /\
      forall t, o = Some t -> Token.is_expired now t = false).
  { destruct (Throttled.refresh now c d) as [[r c'] d']. destruct Hr as (H1 & H2 & -> & H3).
    split_and!; [done..|]. eexists. split_and!; [done|by left|]. intros t. apply view_live. }
  destruct (_cached_token c) as [t|] eqn:Ec; [|done].
  destruct (_ && _) eqn:E; [|done]. apply andb_true_iff in E as [E%negb_true_iff _].
  split_and!; [done..|]. exists (Some t). split_and!; [done|by right|]. by intros t' [= <-].
Qed.

(** The candidate of a readable file: a live token, and after an error not the
    token that was saved last. *)
Lemma candidate_spec now self c d :
  disk_ok d ->
  let '(r, c', d') := cached_candidate now self c d in
  disk_ok d' /\ _name c' = _name c /\
  exists o, r = Ok o /\ forall t, o = Some t ->
    Token.is_expired now t = false /\
    (_from_cache self = false -> view now d (_name c) = Some t /\ _last_saved self <> Some t).
Proof.
  intros Hd. unfold cached_candidate. pose proof (throttled_get_spec now c d Hd) as Hg.
  pose proof (throttled_refresh_spec now c d Hd) as Hr.
  destruct (_from_cache self) eqn:Ef.
  - destruct (Throttled.get now c d) as [[r c'] d']. destruct Hg as (H1 & H2 & _ & o & -> & _ & H3).
    split_and!; [done..|]. exists o. split; [done|]. intros t ->. split; [by apply H3|done].
  - destruct (Throttled.refresh now c d) as [[r c'] d']. destruct Hr as (H1 & H2 & -> & _).
    split_and!; [done..|]. eexists. split; [done|]. intros t.
    destruct (last_saved_is self _) eqn:El; [done|]. intros Ht. split; [by eapply view_live|]. intros _. split; [done|].
    intros Hs. rewrite Ht in El. unfold last_saved_is in El. rewrite Hs in El.
    by rewrite (proj2 (eqb_spec t t) eq_refl) in El.
Qed.

Lemma throttled_set_spec now token c d :
  disk_ok d -> storable (_name c) token ->
  let '(r, c', d') := Throttled.set now token c d in
  r = Ok () /\ disk_ok d' /\ _name c' = _name c /\ _cached_token c' = Some token /\
  (Throttled.cached_is c token = false ->
   view now d' (_name c) = live now (stored <$> live now (Some token))).
Proof.
  intros Hd Ht. unfold Throttled.set. destruct (Throttled.cached_is c token) eqn:Ec.
  - unfold Throttled.cached_is in Ec. destruct (_cached_token c) as [t|] eqn:E; [|done].
    apply eqb_spec in Ec as ->. done.
  - destruct (set_view now (_name c) token d Hd Ht) as (S1 & S2 & S3).
    destruct (set now (_name c) token d) as [r d']. simpl in S1, S2, S3. subst r. simpl.
    split_and!; [done..|]. intros _. by rewrite S3, decide_True.
Qed.

(** The source, as [_fetch] asks it. *)
Definition source_answer (env : W) (self : RenewableFileCacheReceiver) : result fetch_error Token * R :=
  receiver_fetch env (default wrapped_receiver (_receiver self)).

Lemma fetch_source_spec env now self c d :
  disk_ok d ->
  (forall t r', source_answer env self = (Ok t, r') -> Token.is_empty t = false -> storable (_name c) t) ->
  let '(r, self', c', d') := fetch_source env now self c d in
  disk_ok d' /\ _name c' = _name c /\ r = (source_answer env self).1 /\
  _receiver self' = Some (source_answer env self).2 /\ _from_cache self' = false /\
  forall t, r = Ok t -> Token.is_empty t = false -> _last_saved self' = Some t /\ _cached_token c' = Some t.
Proof.
  intros Hd Hst. unfold fetch_source, source_answer in *.
  destruct (receiver_fetch _) as [[t|e] r'] eqn:E; [|by split_and!].
  destruct (Token.is_empty t) eqn:Ee; [split_and!; try done; by intros t' [= <-]; rewrite Ee|].
  specialize (Hst t r' eq_refl Ee). pose proof (throttled_set_spec now t c d Hd Hst) as Hset.
  destruct (Throttled.set now t c d) as [[r c'] d']. destruct Hset as (-> & H1 & H2 & H3 & _).
  split_and!; try done. by intros t' [= <-].
Qed.

(** On a readable cache file a fetch fails only with an error of the source.
    A token it returns without asking the source is outside the safety margin
    and, after a token was rejected, not that token; otherwise it is the answer
    of the source, and a non-empty one is cached.  In both cases the file stays
    readable and the receiver remembers what it returned. *)
Theorem file_fetch_spec env now now2 now3 self c d :
  disk_ok d ->
  (forall t r', source_answer env self = (Ok t, r') -> Token.is_empty t = false -> storable (_name c) t) ->
  let '(r, self', c', d') := _fetch env now now2 now3 self c d in
  disk_ok d' /\ _name c' = _name c /\
  ((_from_cache self' = true /\ _receiver self' = _receiver self /\
    exists t, r = Ok t /\ _is_token_fresh now2 t = true /\ _last_saved self' = Some t /\
      (_from_cache self = false -> _last_saved self <> Some t)) \/
   (_from_cache self' = false /\ r = (source_answer env self).1 /\ _receiver self' = Some (source_answer env self).2 /\
    forall t, r = Ok t -> Token.is_empty t = false -> _last_saved self' = Some t /\ _cached_token c' = Some t)).
Proof.
  intros Hd Hst. unfold _fetch. pose proof (candidate_spec now self c d Hd) as Hc.
  destruct (cached_candidate now self c d) as [[r c1] d1]. destruct Hc as (Hd1 & Hn1 & o & -> & Ho).
  assert (Hsrc : let '(r, self', c', d') := fetch_source env now3 self c1 d1 in
    disk_ok d' /\ _name c' = _name c /\
    ((_from_cache self' = true /\ _receiver self' = _receiver self /\
      exists t, r = Ok t /\ _is_token_fresh now2 t = true /\ _last_saved self' = Some t /\
        (_from_cache self = false -> _last_saved self <> Some t)) \/
     (_from_cache self' = false /\ r = (source_answer env self).1 /\ _receiver self' = Some (source_answer env self).2 /\
      forall t, r = Ok t -> Token.is_empty t = false -> _last_saved self' = Some t /\ _cached_token c' = Some t))).
  { pose proof (fetch_source_spec env now3 self c1 d1 Hd1) as Hs. rewrite Hn1 in Hs. specialize (Hs Hst).
    destruct (fetch_source env now3 self c1 d1) as [[[r self'] c'] d']. destruct Hs as (H1 & H2 & H3 & H4 & H5 & H6).
    split_and!; [done|congruence|]. right. done. }
  destruct o as [t|]; [|done]. destruct (_is_token_fresh now2 t) eqn:Ef; [|done].
  split_and!; [done..|]. left. split_and!; [done..|]. exists t. split_and!; try done.
  intros Hc. by destruct (Ho t eq_refl) as [_ [_ ?]].
Qed.

(** A first fetch with nothing in the cache. *)
Lemma first_fetch env now name throttle t d r' :
  disk_ok d -> storable name t -> view now d name = None ->
  receiver_fetch env wrapped_receiver = (Ok t, r') -> Token.is_empty t = false ->
  exists c1 d1,
    _fetch env now now now new_receiver (Throttled.init now name throttle) d =
      (Ok t, mkFileReceiver (Some r') (Some t) false, c1, d1) /\
    disk_ok d1 /\ _name c1 = name /\ view now d1 name = live now (stored <$> live now (Some t)).
Proof.
  intros Hd Hst Hv Hsrc Hemp. set (c := Throttled.init now name throttle).
  unfold _fetch, cached_candidate, new_receiver, Throttled.get. simpl.
  destruct (get_view now name d Hd) as (G1 & G2 & _). unfold Throttled.refresh. simpl.
  destruct (get now name d) as [r0 d0]. simpl in G1, G2. rewrite Hv in G1. subst r0.
  unfold fetch_source. simpl. rewrite Hsrc, Hemp.
  pose proof (throttled_set_spec now t c d0 G2 Hst) as Hset.
  destruct (Throttled.set now t c d0) as [[r1 c1] d1]. destruct Hset as (-> & Hd1 & Hn1 & _ & Hview).
  exists c1, d1. split_and!; [done..|]. by apply Hview.
Qed.

(** A rejected token can be served again: when the token of the source expires
    at a fraction of a second, the file holds it cut to whole seconds, so after
    the rejection and [can_retry] the next fetch does not recognise it, takes it
    from the file and does not ask the source. *)
Theorem rejected_token_reused env now name throttle t d err r' :
  disk_ok d -> storable name t -> stored t <> t -> view now d name = None ->
  receiver_fetch env wrapped_receiver = (Ok t, r') -> Token.is_empty t = false ->
  Token.is_expired now t = false -> _is_token_fresh now (stored t) = true ->
  let '(r1, s1, c1, d1) := _fetch env now now now new_receiver (Throttled.init now name throttle) d in
  let s2 := (can_retry env err s1).2 in
  let '(r2, s3, _, _) := _fetch env now now now s2 c1 d1 in
  r1 = Ok t /\ r2 = Ok (stored t) /\ _tok (stored t) = _tok t /\ _receiver s3 = _receiver s2.
Proof.
  intros Hd Hst Hne Hv Hsrc Hemp Hexp Hfresh.
  assert (Hexp' : Token.is_expired now (stored t) = false).
  { unfold _is_token_fresh in Hfresh. by destruct (Token.is_expired now (stored t)). }
  destruct (first_fetch env now name throttle t d r') as (c1 & d1 & -> & Hd1 & Hn1 & Hview); [done..|].
  unfold can_retry. simpl.
  destruct (receiver_can_retry env err r') as [b r'']. simpl. unfold _fetch, cached_candidate. simpl.
  pose proof (throttled_refresh_spec now c1 d1 Hd1) as Hr1.
  destruct (Throttled.refresh now c1 d1) as [[r2 c2] d2]. destruct Hr1 as (_ & _ & -> & _).
  assert (Hv1 : view now d1 name = Some (stored t)).
  { rewrite Hview. unfold live at 2. rewrite Hexp. simpl. by rewrite Hexp'. }
  rewrite Hn1, Hv1. unfold last_saved_is. simpl.
  destruct (Token.eqb t (stored t)) eqn:Eq; [by apply eqb_spec in Eq|]. by rewrite Hfresh.
Qed.

(** The pure receiver returns the live token of the cache or the empty token. *)
Lemma pure_fetch_spec now c d :
  disk_ok d ->
  let '(r, _, d') := pure_fetch now c d in
  disk_ok d' /\ exists t, r = Ok t /\ Token.is_expired now t = false /\
    (t = Token.empty \/ view now d (_name c) = Some t \/ _cached_token c = Some t).
Proof.
  intros Hd. unfold pure_fetch. pose proof (throttled_get_spec now c d Hd) as Hg.
  destruct (Throttled.get now c d) as [[r c'] d']. destruct Hg as (H1 & _ & _ & o & -> & Ho & Hlive).
  split; [done|]. destruct o as [t|]; [|by exists Token.empty; split_and!; auto].
  exists t. split_and!; [done|by apply Hlive|]. destruct Ho as [->| ->]; auto.
Qed.

End Renewable.

(** ** Instances *)

#[local] Existing Instance plain_yaml.

(** Half a second past the epoch the service grants a token for 1700000000 s. *)
Definition ex_answer : Z * Exchange.answer :=
  (500000, Exchange.Response (Exchange.mkResponse (u "secret") (u "Bearer") 1700000000)).

Lemma file_fetch_spec_witness :
  disk_ok (_fetch (Exchange.new_receiver 2) None ex_answer 500000 500000 500000 new_receiver
    (Throttled.init 500000 (u "sa") 5) None).2.
Proof.
  pose proof (file_fetch_spec (Exchange.new_receiver 2) None ex_answer 500000 500000 500000 new_receiver
    (Throttled.init 500000 (u "sa") 5) None I) as Hs.
  destruct (_fetch _ _ _ _ _ _ _ _ _) as [[[r self'] c'] d']. apply Hs.
  intros t r' [= <- _] _. apply ex_storable.
Defined.

Lemma rejected_token_reused_witness :
  let '(r1, s1, c1, d1) := _fetch (Exchange.new_receiver 2) None ex_answer 500000 500000 500000 new_receiver
    (Throttled.init 500000 (u "sa") 5) None in
  let s2 := (can_retry ex_answer SourceFailed s1).2 in
  let '(r2, s3, _, _) := _fetch (Exchange.new_receiver 2) None ex_answer 500000 500000 500000 s2 c1 d1 in
  r1 = Ok ex_token /\ r2 = Ok (stored ex_token) /\ _tok (stored ex_token) = _tok ex_token /\ _receiver s3 = _receiver s2.
Proof.
  apply (rejected_token_reused (Exchange.new_receiver 2) None ex_answer 500000 (u "sa") 5 ex_token None SourceFailed
    (Exchange.mkReceiver 2 1)); [exact I|apply ex_storable|done|reflexivity..].
Defined.
