(* ===== verification/AsyncFileBearer.v ===== *)
(** * The asynchronous bearer over the token file

    [src/nebius/aio/token/file_cache/async_renewable_bearer.py]: a bearer that
    answers from the throttled file cache of [TokenCache] and renews in the
    background, with the backoff of [Renewable].  It runs on one event loop: the
    code between two awaits is one step, and so is an operation of the cache file,
    which is done under a lock.  Other processes write the file, and the source
    answers, as the environment chooses; every step reads the clock on its own.
    Metrics and logging are left out. *)
From Stdlib Require Import QArith.
From stdpp Require Import relations.
From S2P Require Import Prelude PyStr TokenCache FileBearer Renewable.
#[local] Open Scope Z_scope.

(** Where the background loop [_run] is. *)
Inductive loop_phase : Type :=
| LNone                      (** not started *)
| LInit                      (** [_run(True)]: awaiting the cache *)
| LHead                      (** [while not self._is_stopped.is_set()] *)
| LSleeping (delay : Q)      (** awaiting a request or the delay *)
| LWoken                     (** awaiting the cancelled helpers *)
| LFetching (timeout : Q)    (** awaiting the source or a break *)
| LStoring (tok : Token)     (** awaiting [self._file_cache.set] *)
| LDone.

Section Bearer.
Context `{Yaml} (c : backoff) (_refresh_request_timeout _retry_safety_margin : Q).

Abbreviation disk := (option text).

(** A shared result is settled with a token, here with the number of the attempt
    that brought it (a number the code does not keep: two attempts may bring
    equal tokens). *)
Abbreviation renewal := (answer (Token * nat)).

Record bearer : Type := mkBearer {
  safety_margin : option Z;
  _file_cache : Throttled;
  _is_fresh : bool;
  _is_stopped : bool;
  _renew_requested : bool;
  _synchronous_can_proceed : bool;
  _break_previous_attempt : bool;
  _renewal_attempt : Z;
  _renew_synchronous_timeout : option Q;
  _renewal_future : option nat;      (** the shared result, by number *)
  futures : list renewal;     (** all shared results ever made *)
  loop : loop_phase;
  retry_timeout : Q;
  started : nat                      (** attempts started *)
}.

Definition new_bearer (margin : option Z) (cache : Throttled) : bearer :=
  mkBearer margin cache false false false true false 0 None None [] LNone 0 0.

Definition with_loop (l : loop_phase) (b : bearer) : bearer :=
  mkBearer (safety_margin b) (_file_cache b) (_is_fresh b) (_is_stopped b) (_renew_requested b)
    (_synchronous_can_proceed b) (_break_previous_attempt b) (_renewal_attempt b) (_renew_synchronous_timeout b)
    (_renewal_future b) (futures b) l (retry_timeout b) (started b).
Definition with_cache (cache : Throttled) (b : bearer) : bearer :=
  mkBearer (safety_margin b) cache (_is_fresh b) (_is_stopped b) (_renew_requested b)
    (_synchronous_can_proceed b) (_break_previous_attempt b) (_renewal_attempt b) (_renew_synchronous_timeout b)
    (_renewal_future b) (futures b) (loop b) (retry_timeout b) (started b).
(** At the head of the loop, with a delay. *)
Definition at_head (delay : Q) (b : bearer) : bearer :=
  mkBearer (safety_margin b) (_file_cache b) (_is_fresh b) (_is_stopped b) (_renew_requested b)
    (_synchronous_can_proceed b) (_break_previous_attempt b) (_renewal_attempt b) (_renew_synchronous_timeout b)
    (_renewal_future b) (futures b) LHead delay (started b).

Definition _is_token_fresh (margin : option Z) (now : Z) (token : Token) : bool :=
  if Token.is_expired now token then false else
  match margin, _exp token with
  | None, _ | _, None => true
  | Some m, Some e => now <? e - m
  end.

Definition renewal_pending (b : bearer) : bool :=
  match _renewal_future b with
  | Some i => match futures b !! i with Some Pending => true | _ => false end
  | None => false
  end.

(** Settling the shared result; [_discard_renewal_future] then drops it. *)
Definition settle (a : renewal) (b : bearer) : bearer :=
  if renewal_pending b then
    mkBearer (safety_margin b) (_file_cache b) (_is_fresh b) (_is_stopped b) (_renew_requested b)
      (_synchronous_can_proceed b) (_break_previous_attempt b) (_renewal_attempt b) (_renew_synchronous_timeout b) None
      (match _renewal_future b with Some i => <[i := a]> (futures b) | None => futures b end)
      (loop b) (retry_timeout b) (started b)
  else b.

Definition is_renewal_required (b : bearer) : bool :=
  match Throttled.get_cached (_file_cache b) with None => true | Some _ => _renew_requested b end.

Definition request_renewal (b : bearer) : bearer :=
  if _is_stopped b then b else
  mkBearer (safety_margin b) (_file_cache b) false (_is_stopped b) true (_synchronous_can_proceed b)
    (_break_previous_attempt b) (_renewal_attempt b) (_renew_synchronous_timeout b) (_renewal_future b) (futures b)
    (loop b) (retry_timeout b) (started b).

Definition stop (b : bearer) : bearer :=
  mkBearer (safety_margin b) (_file_cache b) false true true (_synchronous_can_proceed b) true
    (_renewal_attempt b) (_renew_synchronous_timeout b) (_renewal_future b) (futures b) (loop b)
    (retry_timeout b) (started b).

(** [close()]: the bearer is stopped and its tasks are cancelled and awaited. *)
Definition close (b : bearer) : bearer :=
  mkBearer (safety_margin b) (_file_cache b) false true true true true
    (_renewal_attempt b) (_renew_synchronous_timeout b) (_renewal_future b) (futures b)
    (match loop b with LNone => LNone | _ => LDone end) (retry_timeout b) (started b).

(** ** The background loop *)

(** [(exp - now).total_seconds()] *)
Definition seconds_left (now : Z) (token : Token) : option Q :=
  (fun e => inject_Z (e - now) / inject_Z second)%Q <$> _exp token.

(** The first delay of [_run(True)], for the token of the cache. *)
Definition initial_delay (now : Z) (token : option Token) : Q :=
  match token with
  | Some t =>
      if Token.is_expired now t then 0 else
      match seconds_left now t with Some l => (l - _retry_safety_margin)%Q | None => VERY_LONG_TIMEOUT end
  | None => 0
  end.

(** [_fetch_once] up to its first await. *)
Definition begin_attempt (b : bearer) : bearer :=
  mkBearer (safety_margin b) (_file_cache b) (_is_fresh b) (_is_stopped b) (_renew_requested b) false false
    (_renewal_attempt b + 1) None (_renewal_future b) (futures b)
    (LFetching (default _refresh_request_timeout (_renew_synchronous_timeout b))) (retry_timeout b) (S (started b)).

(** The end of that await: requests are served, synchronous callers may go on. *)
Definition end_attempt (b : bearer) : bearer :=
  mkBearer (safety_margin b) (_file_cache b) (_is_fresh b) (_is_stopped b) false true (_break_previous_attempt b)
    (_renewal_attempt b) (_renew_synchronous_timeout b) (_renewal_future b) (futures b) (loop b) (retry_timeout b) (started b).

(** The source answered: waiters get the token before it is stored. *)
Definition attempt_token (tok : Token) (b : bearer) : bearer := 
  with_loop (LStoring tok) (settle (Got (tok, started b)) (end_attempt b)).

(** The handler of [_run] for a failure. *)
Definition handle_failure (b : bearer) : bearer :=
  let b := settle Error b in at_head (delay_after_failure c (_renewal_attempt b) (retry_timeout b)) b.

(** The source failed, or the attempt was broken. *)
Definition attempt_failed (b : bearer) : bearer := handle_failure (end_attempt b).

(** The token is stored. *)
Definition attempt_stored (now : Z) (tok : Token) (cache : Throttled) (b : bearer) : bearer :=
  mkBearer (safety_margin b) cache true (_is_stopped b) (_renew_requested b) (_synchronous_can_proceed b)
    (_break_previous_attempt b) 0 (_renew_synchronous_timeout b) (_renewal_future b) (futures b)
    LHead (delay_after_success c (seconds_left now tok)) (started b).

(** The fetch of the source was cancelled, and not by this bearer:
    [token_task.result()] raises [CancelledError], which [except Exception] of
    [_run] does not catch.  The loop ends, and nothing settles the shared result. *)
Definition attempt_cancelled (b : bearer) : bearer := with_loop LDone (end_attempt b).

Inductive loop_step : bearer -> disk -> bearer -> disk -> Prop :=
| loop_init b d now now2 tok cache d' : loop b = LInit -> Throttled.get now (_file_cache b) d = (Ok tok, cache, d') ->
    loop_step b d (at_head (initial_delay now2 tok) (with_cache cache b)) d'
| loop_init_error b d now e cache d' : loop b = LInit -> Throttled.get now (_file_cache b) d = (Raise e, cache, d') ->
    loop_step b d (with_loop LDone (with_cache cache b)) d'
| loop_end b d : loop b = LHead -> _is_stopped b = true -> loop_step b d (with_loop LDone b) d
| loop_sleep b d : loop b = LHead -> _is_stopped b = false -> loop_step b d (with_loop (LSleeping (retry_timeout b)) b) d
| loop_wake b d t : loop b = LSleeping t -> _renew_requested b = true -> loop_step b d (with_loop LWoken b) d
| loop_begin b d : loop b = LWoken -> loop_step b d (begin_attempt b) d
| loop_token b d t tok : loop b = LFetching t -> loop_step b d (attempt_token tok b) d
| loop_error b d t : loop b = LFetching t -> loop_step b d (attempt_failed b) d
| loop_broken b d t : loop b = LFetching t -> _break_previous_attempt b = true -> loop_step b d (attempt_failed b) d
| loop_cancelled b d t : loop b = LFetching t -> loop_step b d (attempt_cancelled b) d
| loop_stored b d tok now now2 cache d' : loop b = LStoring tok ->
    Throttled.set now tok (_file_cache b) d = (Ok (), cache, d') -> loop_step b d (attempt_stored now2 tok cache b) d'
| loop_not_stored b d tok now e cache d' : loop b = LStoring tok ->
    Throttled.set now tok (_file_cache b) d = (Raise e, cache, d') -> loop_step b d (handle_failure (with_cache cache b)) d'.

(** The delay of a sleeping loop is over. *)
Inductive timer_step : bearer -> bearer -> Prop :=
| timer_due b t : loop b = LSleeping t -> timer_step b (with_loop LWoken b).

(** ** [fetch] *)

(** Where a returned token comes from: the cache, read at some time, or the shared
    renewal that attempt number [attempt] settled, for a synchronous caller with
    the attempts started when it came. *)
Inductive origin : Type := FromCache (now : Z) | FromRenewal (since : option nat) (attempt : nat).

Inductive caller : Type :=
| Starting (o : fetch_options)                                (** awaiting the first read *)
| WaitProceed (o : fetch_options) (released : bool) (since : nat)
| WaitFuture (i : nat) (since : option nat)
| WaitFresh (released : bool)
| Reading                                                     (** awaiting the last read *)
| Returned (tok : Token) (from : origin)
| EmptyCache
| Raised.

(** The code after the wait for [_synchronous_can_proceed]; [since] as in
    [FromRenewal]. *)
Definition fetch_request (o : fetch_options) (since : option nat) (b : bearer) : bearer * caller :=
  let sync_timeout := match since, request_timeout o with Some _, Some t => Some t | _, _ => _renew_synchronous_timeout b end in
  let shared := report_error o || synchronous o in
  let fresh_future := shared && negb (renewal_pending b) in
  let i := length (futures b) in
  let future := if fresh_future then Some i else _renewal_future b in
  (mkBearer (safety_margin b) (_file_cache b) (_is_fresh b) (_is_stopped b) true (_synchronous_can_proceed b)
     (_break_previous_attempt b) (_renewal_attempt b) sync_timeout future
     (if fresh_future then futures b ++ [Pending] else futures b) (loop b) (retry_timeout b) (started b),
   if shared then WaitFuture (default i future) since else WaitFresh (_is_fresh b)).

(** A synchronous caller breaks the attempt that runs. *)
Definition break_attempt (b : bearer) : bearer :=
  mkBearer (safety_margin b) (_file_cache b) (_is_fresh b) (_is_stopped b) (_renew_requested b)
    (_synchronous_can_proceed b) true (_renewal_attempt b) (_renew_synchronous_timeout b) (_renewal_future b)
    (futures b) (loop b) (retry_timeout b) (started b).

(** [self._refresh_task = self.bg_task(self._run(...))], unless it is there. *)
Definition start_waiting (b : bearer) : bearer := match loop b with LNone => with_loop LInit b | _ => b end.
Definition start_at_once (b : bearer) : bearer := match loop b with LNone => at_head 0 b | _ => b end.

(** The margin counts for the first fetch only. *)
Definition no_margin (b : bearer) : bearer :=
  mkBearer None (_file_cache b) (_is_fresh b) (_is_stopped b) (_renew_requested b)
    (_synchronous_can_proceed b) (_break_previous_attempt b) (_renewal_attempt b) (_renew_synchronous_timeout b)
    (_renewal_future b) (futures b) (loop b) (retry_timeout b) (started b).

Definition served_from_cache (o : fetch_options) (now : Z) (tok : option Token) (b : bearer) : bool :=
  match tok with Some t => negb (required o) && _is_token_fresh (safety_margin b) now t | None => false end.

(** [fetch] from its first read, which gave [tok] at [read], to its next await. *)
Definition fetch_first (o : fetch_options) (read now : Z) (tok : option Token) (b : bearer) : bearer * caller :=
  match tok, served_from_cache o now tok b with
  | Some t, true => (start_waiting b, Returned t (FromCache read))
  | _, _ =>
      let b := start_at_once (no_margin b) in
      if is_renewal_required b || required o then
        if synchronous o && negb (renewal_pending b)
        then (break_attempt b, WaitProceed o (_synchronous_can_proceed b) (started b))
        else fetch_request o None b
      else (b, Reading)
  end.

(** The last read. *)
Definition fetch_last (read : Z) (tok : option Token) : caller :=
  match tok with Some t => Returned t (FromCache read) | None => EmptyCache end.

(** ** The system *)

Record system : Type := mkSystem { bear : bearer; file : disk; callers : list caller }.

Definition release (b : bearer) (w : caller) : caller :=
  match w with
  | WaitProceed o r s => WaitProceed o (r || _synchronous_can_proceed b) s
  | WaitFresh r => WaitFresh (r || _is_fresh b)
  | w => w
  end.

Definition after_bearer (b : bearer) (d : disk) (s : system) : system := mkSystem b d (release b <$> callers s).

Definition waiting (w : caller) : bool :=
  match w with Returned _ _ | EmptyCache | Raised => false | _ => true end.

Inductive step : system -> system -> Prop :=
| step_loop s b d : loop_step (bear s) (file s) b d -> step s (after_bearer b d s)
| step_timer s b : timer_step (bear s) b -> step s (after_bearer b (file s) s)
| step_request s : step s (after_bearer (request_renewal (bear s)) (file s) s)
| step_stop s : step s (after_bearer (stop (bear s)) (file s) s)
| step_close s : step s (after_bearer (close (bear s)) (file s) s)
| step_file s d : step s (mkSystem (bear s) d (callers s))
| step_fetch s o : step s (mkSystem (bear s) (file s) (callers s ++ [Starting o]))
| step_first s k o now now2 tok cache d b w : callers s !! k = Some (Starting o) ->
    Throttled.get now (_file_cache (bear s)) (file s) = (Ok tok, cache, d) ->
    fetch_first o now now2 tok (with_cache cache (bear s)) = (b, w) ->
    step s (mkSystem b d (<[k := w]> (callers s)))
| step_proceed s k o since b w : callers s !! k = Some (WaitProceed o true since) ->
    fetch_request o (Some since) (bear s) = (b, w) -> step s (mkSystem b (file s) (<[k := w]> (callers s)))
| step_got s k i since tok n : callers s !! k = Some (WaitFuture i since) -> futures (bear s) !! i = Some (Got (tok, n)) ->
    step s (mkSystem (bear s) (file s) (<[k := Returned tok (FromRenewal since n)]> (callers s)))
| step_raise s k i since : callers s !! k = Some (WaitFuture i since) -> futures (bear s) !! i = Some Error ->
    step s (mkSystem (bear s) (file s) (<[k := Raised]> (callers s)))
| step_fresh s k : callers s !! k = Some (WaitFresh true) ->
    step s (mkSystem (bear s) (file s) (<[k := Reading]> (callers s)))
| step_last s k now tok cache d : callers s !! k = Some Reading ->
    Throttled.get now (_file_cache (bear s)) (file s) = (Ok tok, cache, d) ->
    step s (mkSystem (with_cache cache (bear s)) d (<[k := fetch_last now tok]> (callers s)))
| step_unreadable s k w now e cache d : callers s !! k = Some w -> (w = Reading \/ exists o, w = Starting o) ->
    Throttled.get now (_file_cache (bear s)) (file s) = (Raise e, cache, d) ->
    step s (mkSystem (with_cache cache (bear s)) d (<[k := Raised]> (callers s)))
| step_timeout s k w : callers s !! k = Some w -> waiting w = true ->
    step s (mkSystem (bear s) (file s) (<[k := Raised]> (callers s))).

Definition new_system (margin : option Z) (cache : Throttled) (d : disk) : system :=
  mkSystem (new_bearer margin cache) d [].

(** ** Invariant *)

Definition fetching (b : bearer) : bool := match loop b with LFetching _ => true | _ => false end.

Record bearer_ok (b : bearer) : Prop := {
  (** synchronous callers go on only between attempts *)
  ok_proceed : _synchronous_can_proceed b = true -> fetching b = false;
  (** a shared result is waited for by a loop that will serve it, or has ended *)
  ok_pending : renewal_pending b = true ->
    loop b <> LNone /\ (fetching b = true \/ _renew_requested b = true \/ loop b = LDone)
}.

Definition caller_ok (b : bearer) (w : caller) : Prop :=
  match w with
  | WaitProceed o released since =>
      loop b <> LNone /\ (since <= started b)%nat /\ (released = true -> fetching b = true -> (since < started b)%nat)
  | WaitFuture i since =>
      match since with
      | None => True
      | Some n =>
          match futures b !! i with
          | Some Pending => (n <= started b)%nat /\ (fetching b = true -> (n < started b)%nat)
          | Some (Got (_, m)) => (n < m)%nat
          | _ => True
          end
      end /\ (i < length (futures b))%nat
  | Returned _ (FromRenewal (Some n) m) => (n < m)%nat
  | Returned tok (FromCache now) => Token.is_expired now tok = false
  | _ => True
  end.

Record system_ok (s : system) : Prop := {
  sys_bearer : bearer_ok (bear s);
  sys_callers : Forall (caller_ok (bear s)) (callers s)
}.

Lemma async_renewal_pending_spec b :
  renewal_pending b = true <-> exists i, _renewal_future b = Some i /\ futures b !! i = Some Pending.
Proof.
  unfold renewal_pending. split.
  - destruct (_renewal_future b) as [i|]; [|done]. destruct (futures b !! i) as [[]|] eqn:E; try done. eauto.
  - by intros (i & -> & ->).
Qed.

(** What settling does: only the shared result changes. *)
Lemma settle_spec a b :
  a <> Pending ->
  renewal_pending (settle a b) = false /\ loop (settle a b) = loop b /\ started (settle a b) = started b /\
  _synchronous_can_proceed (settle a b) = _synchronous_can_proceed b /\ _is_stopped (settle a b) = _is_stopped b /\
  ((futures (settle a b) = futures b /\ renewal_pending b = false) \/
   exists j, _renewal_future b = Some j /\ futures b !! j = Some Pending /\ futures (settle a b) = <[j := a]> (futures b)).
Proof.
  intros Ha. unfold settle. destruct (renewal_pending b) eqn:E.
  - split_and!; try done. right. apply async_renewal_pending_spec in E as (j & Ej & Hj). exists j. simpl. by rewrite Ej.
  - split_and!; try done. by left.
Qed.

(** The token a read gives is live when it is read. *)
Lemma get_live now cache d t cache' d' :
  Throttled.get now cache d = (Ok (Some t), cache', d') -> Token.is_expired now t = false.
Proof.
  assert (forall t cache' d', Throttled.refresh now cache d = (Ok (Some t), cache', d') -> Token.is_expired now t = false) as Hr.
  { intros t0 c0 d0. unfold Throttled.refresh. destruct (get now (_name cache) d) as [[[t1|]|] ?]; try done.
    destruct (Token.is_expired now t1) eqn:E; [done|]. by intros [= <- _ _]. }
  unfold Throttled.get. destruct (_cached_token cache) as [t0|]; [|by apply Hr].
  destruct (_ && _) eqn:E; [|by apply Hr]. apply andb_true_iff in E as [E%negb_true_iff _]. by intros [= <- _ _].
Qed.

(** *** Steps of the bearer *)

(** What callers see of the bearer, after a step that begins no attempt. *)
Lemma async_quiet_caller b b' w :
  (fetching b' = fetching b \/ fetching b' = false) -> started b' = started b ->
  (futures b' = futures b \/ futures b' = futures b ++ [Pending] \/
   exists j a, futures b !! j = Some Pending /\ futures b' = <[j := a]> (futures b) /\ a <> Pending /\
     forall tok m, a = Got (tok, m) -> fetching b = true /\ m = started b) ->
  (loop b <> LNone -> loop b' <> LNone) -> caller_ok b w -> caller_ok b' w.
Proof.
  intros Hf Hst Hfu Hln. destruct w as [o|o r n|i since|r| |tok [now|[n|] m]| |]; simpl; try done; rewrite ?Hst.
  - intros (H0 & H1 & H2). split; [auto|]. split; [done|]. intros Hr Hft. destruct Hf as [Hf|Hf]; rewrite Hf in Hft; [auto|done].
  - intros [H1 H2].
    assert (forall x, match x with Some Pending => (i < length (futures b))%nat | _ => True end ->
      (futures b !! i = x -> match since with None => True | Some n => match x with
        | Some Pending => (n <= started b)%nat /\ (fetching b' = true -> (n < started b)%nat)
        | Some (Got (_, m)) => (n < m)%nat | _ => True end end)) as Hsame.
    { intros x _ Hx. rewrite Hx in H1. destruct since as [n|]; [|done]. destruct x as [[]|]; try done. destruct H1 as [H1 H3].
      split; [done|]. intros Hft. destruct Hf as [Hf|Hf]; rewrite Hf in Hft; [auto|done]. }
    destruct Hfu as [->|[->|(j & a & Hj & -> & Ha & Ht)]].
    + split; [|done]. apply (Hsame (futures b !! i)); [|done]. by destruct (futures b !! i) as [[]|].
    + rewrite length_app, lookup_app_l by done. split; [|lia]. apply (Hsame (futures b !! i)); [|done]. by destruct (futures b !! i) as [[]|].
    + rewrite length_insert. split; [|done]. destruct (decide (i = j)) as [->|].
      * rewrite list_lookup_insert_eq by done. destruct since as [n|]; [|done]. rewrite Hj in H1. destruct a as [|[tok m]|]; [done| |done].
        destruct (Ht tok m eq_refl) as [Hft ->]. by apply H1.
      * rewrite list_lookup_insert_ne by done. apply (Hsame (futures b !! i)); [|done]. by destruct (futures b !! i) as [[]|].
Qed.

(** Events release callers. *)
Lemma release_ok b w : bearer_ok b -> caller_ok b w -> caller_ok b (release b w).
Proof.
  intros [Hp _]. destruct w; simpl; try done. intros (H0 & H1 & H2). split; [done|]. split; [done|].
  intros [Hr|Hr]%orb_prop Hf; [auto|]. by rewrite Hp in Hf.
Qed.

(** Settling the shared result, between attempts or at the end of one. *)
Lemma settle_callers a b w :
  a <> Pending -> (forall tok m, a = Got (tok, m) -> fetching b = true /\ m = started b) ->
  caller_ok b w -> caller_ok (settle a b) w.
Proof.
  intros Ha Ht. destruct (settle_spec a b Ha) as (E1 & E2 & E3 & E4 & E5 & E6). apply async_quiet_caller; [|done|..].
  - left. unfold fetching. by rewrite E2.
  - destruct E6 as [[-> _]|(j & Hj & Hp & ->)]; [by left|]. right. right. by exists j, a.
  - by rewrite E2.
Qed.

Lemma failure_ok b :
  bearer_ok (handle_failure b) /\ forall w, caller_ok b w -> caller_ok (handle_failure b) w.
Proof.
  destruct (settle_spec Error b) as (E1 & E2 & E3 & E4 & E5 & E6); [done|]. split.
  - split; [done|]. unfold handle_failure. intros Hp. change (renewal_pending (settle Error b) = true) in Hp. congruence.
  - intros w Hw. apply (async_quiet_caller (settle Error b)); [by right|done|by left|done|]. by apply settle_callers.
Qed.

Lemma async_loop_step_ok b d b' d' :
  loop_step b d b' d' -> bearer_ok b -> bearer_ok b' /\ forall w, caller_ok b w -> caller_ok b' w.
Proof.
  intros Hs [Hp Hq].
  assert (forall b', renewal_pending b' = renewal_pending b -> _renew_requested b' = _renew_requested b -> loop b' <> LNone ->
    loop b <> LDone -> fetching b = false -> fetching b' = false -> bearer_ok b') as Hquiet.
  { intros b1 E1 E2 E3 E4 E5 E6. split; [by rewrite E6|]. rewrite E1, E2. intros Hpe. split; [done|].
    destruct (Hq Hpe) as [_ [?|[?|?]]]; [congruence|auto|done]. }
  destruct Hs as [b d now now2 tok cache d' Hl Hg|b d now e cache d' Hl Hg|b d Hl Hst|b d Hl Hst|b d t Hl Hr|b d Hl
    |b d t tok Hl|b d t Hl|b d t Hl Hb|b d t Hl|b d tok now now2 cache d' Hl Hg|b d tok now e cache d' Hl Hg];
    assert (fetching b = match loop b with LFetching _ => true | _ => false end) as Hfe by done; rewrite Hl in Hfe.
  1-5, 11: split; [apply Hquiet; done || congruence|intros w; apply async_quiet_caller; [by right|done|by left|done]].
  - split.
    + split; [done|]. intros Hpe. split; [done|by left].
    + intros w. destruct w as [o|o r n|i since|r| |tok [now|[n|] m]| |]; simpl; try done.
      * intros (H0 & H1 & H2). split_and!; [done|lia|]. intros. lia.
      * intros [H1 H2]. split; [|done]. destruct since as [n|]; [|done]. destruct (futures b !! i) as [[]|]; try done. lia.
  - destruct (settle_spec (Got (tok, started b)) (end_attempt b)) as (E1 & E2 & E3 & E4 & E5 & E6); [done|]. split.
    + split; [done|]. intros Hpe. change (renewal_pending (settle (Got (tok, started b)) (end_attempt b)) = true) in Hpe. congruence.
    + intros w Hw. apply (async_quiet_caller (settle (Got (tok, started b)) (end_attempt b))); [by right|done|by left|done|].
      apply settle_callers; [done| |by apply (async_quiet_caller b); [left|done|left| |]].
      by intros tok' m [= _ <-].
  - destruct (failure_ok (end_attempt b)) as [H1 H2]. split; [done|]. intros w Hw. apply H2.
    by apply (async_quiet_caller b); [left|done|left| |].
  - destruct (failure_ok (end_attempt b)) as [H1 H2]. split; [done|]. intros w Hw. apply H2.
    by apply (async_quiet_caller b); [left|done|left| |].
  - split; [split; [done|]; intros _; split; [done|by right; right]|].
    intros w. apply async_quiet_caller; [by right|done|by left|done].
  - destruct (failure_ok (with_cache cache b)) as [H1 H2]. split; [done|]. intros w Hw. apply H2.
    by apply (async_quiet_caller b); [left|done|left| |].
Qed.

(** The other steps of the bearer. *)
Definition outside (b b' : bearer) : Prop :=
  b' = request_renewal b \/ b' = stop b \/ b' = close b \/ timer_step b b'.

Lemma outside_ok b b' : outside b b' -> bearer_ok b -> bearer_ok b' /\ forall w, caller_ok b w -> caller_ok b' w.
Proof.
  intros Ho [Hp Hq]. destruct Ho as [->|[->|[->|Ht]]].
  - unfold request_renewal. destruct (_is_stopped b); [by split|]. split; [|intros w; apply async_quiet_caller; [by left|done|by left|done]].
    split; [done|]. intros Hpe. destruct (Hq Hpe). auto.
  - split; [|intros w; apply async_quiet_caller; [by left|done|by left|done]]. split; [done|]. intros Hpe. destruct (Hq Hpe). auto.
  - assert (fetching (close b) = false) as Hf by (unfold fetching; simpl; by destruct (loop b)).
    split; [|intros w; apply async_quiet_caller; [by right|done|by left|simpl; by destruct (loop b)]].
    split; [done|]. intros Hpe. destruct (Hq Hpe) as [Hl _]. simpl. split; [by destruct (loop b)|by right; left].
  - destruct Ht as [b t Hl]. assert (fetching b = false) as Hf by (unfold fetching; by rewrite Hl).
    split; [|intros w; apply async_quiet_caller; [by right|done|by left|done]].
    split; [done|]. intros Hpe. split; [done|]. destruct (Hq Hpe) as [_ [?|[?|?]]]; [congruence|by right; left|congruence].
Qed.

(** *** Steps of callers *)

Lemma async_fetch_request_ok o since b b' w :
  bearer_ok b -> loop b <> LNone -> fetch_request o since b = (b', w) ->
  match since with None => True | Some n => (n <= started b)%nat /\ (fetching b = true -> (n < started b)%nat) end ->
  bearer_ok b' /\ caller_ok b' w /\ forall w0, caller_ok b w0 -> caller_ok b' w0.
Proof.
  intros [H1 H2] Hl Hf Hsince. unfold fetch_request in Hf. injection Hf as <- <-. split_and!.
  - split; simpl; auto.
  - destruct (report_error o || synchronous o); simpl; [|done]. destruct (renewal_pending b) eqn:Ep; simpl.
    + apply async_renewal_pending_spec in Ep as (i & Hi & Hp). rewrite Hi. simpl. rewrite Hp.
      split; [by destruct since|]. by eapply lookup_lt_Some.
    + rewrite lookup_app_r, Nat.sub_diag by done. simpl. rewrite length_app. simpl. split; [by destruct since|lia].
  - intros w0. apply async_quiet_caller; [by left|done| |done]. simpl. destruct (_ && _); auto.
Qed.

(** Reading the cache and starting the loop leave callers alone. *)
Lemma start_ok b :
  bearer_ok b ->
  (bearer_ok (start_waiting b) /\ forall w, caller_ok b w -> caller_ok (start_waiting b) w) /\
  (bearer_ok (start_at_once b) /\ loop (start_at_once b) <> LNone /\ forall w, caller_ok b w -> caller_ok (start_at_once b) w).
Proof.
  intros Hok. pose proof Hok as [Hp Hq]. unfold start_waiting, start_at_once. destruct (loop b) eqn:El; try (split; [by split|split; [done|split; [by rewrite El|done]]]).
  assert (fetching b = false) as Hf by (unfold fetching; by rewrite El).
  assert (renewal_pending b = false) as Hpe by (destruct (renewal_pending b); [by destruct (Hq eq_refl)|done]).
  split; (split; [split; [done|intros E; change (renewal_pending b = true) in E; congruence]|]); [|split; [done|]];
    (intros w; apply async_quiet_caller; [by right|done|by left|done]).
Qed.

Lemma fetch_first_ok o read now tok b b' w :
  bearer_ok b -> fetch_first o read now tok b = (b', w) -> (forall t, tok = Some t -> Token.is_expired read t = false) ->
  bearer_ok b' /\ caller_ok b' w /\ forall w0, caller_ok b w0 -> caller_ok b' w0.
Proof.
  intros Hok Hf Hlive. destruct (start_ok b Hok) as [[W1 W2] _].
  assert (bearer_ok (no_margin b)) as Hnm by (destruct Hok; by split).
  destruct (start_ok (no_margin b) Hnm) as [_ (A1 & A2 & A3)]. set (b1 := start_at_once (no_margin b)) in *.
  assert (forall w0, caller_ok b w0 -> caller_ok b1 w0) as Hb1
    by (intros w0 Hw0; apply A3; by apply (async_quiet_caller b); [left|done|left| |]).
  assert ((if is_renewal_required b1 || required o then
        if synchronous o && negb (renewal_pending b1)
        then (break_attempt b1, WaitProceed o (_synchronous_can_proceed b1) (started b1)) else fetch_request o None b1
      else (b1, Reading)) = (b', w) -> bearer_ok b' /\ caller_ok b' w /\ forall w0, caller_ok b w0 -> caller_ok b' w0) as Hmiss.
  { clear Hf. destruct (_ || _).
    - destruct (_ && _).
      + intros [= <- <-]. split_and!; [by destruct A1; split| |].
        * simpl. split; [done|]. split; [lia|]. intros Hp Hft. change (fetching b1 = true) in Hft. destruct A1 as [A1 _]. by rewrite A1 in Hft.
        * intros w0 Hw0. by apply (async_quiet_caller b1); [left|done|left| |apply Hb1].
      + intros Hreq. destruct (async_fetch_request_ok o None b1 b' w A1 A2 Hreq I) as (R1 & R2 & R3). split_and!; auto.
    - intros [= <- <-]. by split_and!. }
  unfold fetch_first in Hf. destruct tok as [t|]; [|by apply Hmiss].
  destruct (served_from_cache o now (Some t) b); [|by apply Hmiss].
  injection Hf as <- <-. split_and!; [done|by apply Hlive|done].
Qed.

(** ** The system *)

Lemma async_insert_ok s b d k w :
  bearer_ok b -> caller_ok b w -> (forall w, caller_ok (bear s) w -> caller_ok b w) -> system_ok s ->
  system_ok (mkSystem b d (<[k := w]> (callers s))).
Proof.
  intros Hb Hw Hmono [_ Hc]. split; [done|]. simpl. apply Forall_insert; [|done]. eapply Forall_impl; [exact Hc|]. apply Hmono.
Qed.

Lemma after_ok s b d :
  bearer_ok b -> (forall w, caller_ok (bear s) w -> caller_ok b w) -> system_ok s -> system_ok (after_bearer b d s).
Proof.
  intros Hb Hmono [_ Hc]. split; [done|]. simpl. apply Forall_fmap. eapply Forall_impl; [exact Hc|].
  intros w Hw. apply release_ok; auto.
Qed.

Lemma cache_ok cache b :
  bearer_ok b -> bearer_ok (with_cache cache b) /\ forall w, caller_ok b w -> caller_ok (with_cache cache b) w.
Proof. intros [Hp Hq]. split; [by split|]. intros w. by apply async_quiet_caller; [left| |left|]. Qed.

Lemma async_system_step_ok s s' : step s s' -> system_ok s -> system_ok s'.
Proof.
  intros Hs Hok. pose proof Hok as [Hb Hc].
  assert (forall k w, callers s !! k = Some w -> caller_ok (bear s) w) as Hat by (intros k w; by apply Forall_lookup_1).
  assert (forall b d, outside (bear s) b -> system_ok (after_bearer b d s)) as Hout.
  { intros b d Ho. destruct (outside_ok _ _ Ho Hb). by apply after_ok. }
  destruct Hs as [s b d Hs|s b Hs|s|s|s|s d|s o|s k o now now2 tok cache d b w Hk Hg Hf|s k o n b w Hk Hf|s k i n tok m Hk Hi
    |s k i n Hk Hi|s k Hk|s k now tok cache d Hk Hg|s k w now e cache d Hk Hw Hg|s k w Hk Hw].
  - destruct (async_loop_step_ok _ _ _ _ Hs Hb) as [H1 H2]. by apply after_ok.
  - apply Hout. by do 3 right.
  - apply Hout. by left.
  - apply Hout. by right; left.
  - apply Hout. by do 2 right; left.
  - by split.
  - split; [done|]. simpl. apply Forall_app. split; [done|]. by constructor.
  - destruct (cache_ok cache (bear s) Hb) as [C1 C2].
    destruct (fetch_first_ok o now now2 tok _ b w C1 Hf) as (F1 & F2 & F3); [intros t ->; by eapply get_live|].
    apply async_insert_ok; auto.
  - destruct (Hat k _ Hk) as (W0 & W1 & W2).
    destruct (async_fetch_request_ok o (Some n) (bear s) b w Hb W0 Hf) as (F1 & F2 & F3); [by auto|]. apply async_insert_ok; auto.
  - destruct (Hat k _ Hk) as [W1 _]. apply async_insert_ok; auto. destruct n as [n|]; [|done]. simpl. by rewrite Hi in W1.
  - by apply async_insert_ok.
  - by apply async_insert_ok.
  - destruct (cache_ok cache (bear s) Hb) as [C1 C2]. apply async_insert_ok; auto.
    destruct tok as [t|]; [|done]. simpl. by eapply get_live.
  - destruct (cache_ok cache (bear s) Hb) as [C1 C2]. by apply async_insert_ok.
  - by apply async_insert_ok.
Qed.

Lemma async_system_rtc_ok s s' : rtc step s s' -> system_ok s -> system_ok s'.
Proof. induction 1; [done|]. intros. apply IHrtc. by eapply async_system_step_ok. Qed.

Lemma async_new_system_ok margin cache d : system_ok (new_system margin cache d).
Proof. split; [by split|constructor]. Qed.

(** C24: Whatever the callers, the source, the other processes and the clock do, a
    token that [fetch] returns from the cache was not expired when it was read,
    and a synchronous caller that joined no running renewal gets the token of an
    attempt that was started after its call; a source may bring equal tokens in
    different attempts. *)
Theorem async_fetch_live margin cache d s :
  rtc step (new_system margin cache d) s ->
  (forall tok now, Returned tok (FromCache now) ∈ callers s -> Token.is_expired now tok = false) /\
  (forall tok since attempt, Returned tok (FromRenewal (Some since) attempt) ∈ callers s -> (since < attempt)%nat).
Proof.
  intros Hs. destruct (async_system_rtc_ok _ _ Hs (async_new_system_ok margin cache d)) as [_ Hc]. rewrite Forall_forall in Hc.
  split; [intros tok now Hin|intros tok n m Hin]; exact (Hc _ Hin).
Qed.

(** ** Renewals are served *)

Definition open_future (i : nat) (b : bearer) : Prop :=
  _renewal_future b = Some i /\ futures b !! i = Some Pending.
Definition settled (i : nat) (b : bearer) : Prop := exists a, futures b !! i = Some a /\ a <> Pending.

(** A step that is not one of the loop: it starts no attempt and settles nothing;
    the loop may be started, woken by its timer or closed. *)
Record keeps (b b' : bearer) : Prop := {
  k_stopped : _is_stopped b = true -> _is_stopped b' = true;
  k_started : started b' = started b;
  k_loop : loop b' = loop b \/ (loop b = LNone /\ (loop b' = LInit \/ loop b' = LHead)) \/
    (loop b <> LNone /\ loop b' = LDone /\ _is_stopped b' = true) \/ (exists t, loop b = LSleeping t /\ loop b' = LWoken);
  k_open i : open_future i b -> open_future i b';
  k_futures i a : futures b !! i = Some a -> futures b' !! i = Some a
}.

Lemma keeps_trans b1 b2 b3 : keeps b1 b2 -> keeps b2 b3 -> loop b3 = loop b2 \/ loop b2 = loop b1 -> keeps b1 b3.
Proof.
  intros [A1 A2 A3 A4 A5] [B1 B2 B3 B4 B5] Hl. split; [auto|congruence| |auto|auto].
  destruct Hl as [Hl|Hl]; rewrite Hl in *; [|exact B3]. destruct A3 as [?|[?|[(? & ? & ?)|?]]]; auto. right. right. left. auto.
Qed.

Lemma fetch_request_keeps o since b b' w : fetch_request o since b = (b', w) -> keeps b b' /\ loop b' = loop b.
Proof.
  intros Hf. injection Hf as <- _. split; [|done]. split; simpl; auto.
  - intros i [Hi Hp]. assert (renewal_pending b = true) as Hpe by (apply async_renewal_pending_spec; by exists i).
    rewrite Hpe, andb_false_r. done.
  - intros i a Ha. destruct (_ && _); [|done]. by apply lookup_app_l_Some.
Qed.

Lemma start_keeps b : keeps b (start_waiting b) /\ keeps b (start_at_once (no_margin b)).
Proof.
  unfold start_waiting, start_at_once. split; simpl; destruct (loop b) eqn:El; split; simpl; auto; rewrite ?El; auto.
Qed.

Lemma fetch_first_keeps o read now tok b b' w : fetch_first o read now tok b = (b', w) -> keeps b b'.
Proof.
  destruct (start_keeps b) as [Hw Ha]. intros Hf. unfold fetch_first in Hf.
  set (b1 := start_at_once (no_margin b)) in *.
  assert ((if is_renewal_required b1 || required o then
        if synchronous o && negb (renewal_pending b1)
        then (break_attempt b1, WaitProceed o (_synchronous_can_proceed b1) (started b1)) else fetch_request o None b1
      else (b1, Reading)) = (b', w) -> keeps b b') as Hmiss.
  { clear Hf. destruct (_ || _); [|by intros [= <- _]]. destruct (_ && _).
    - intros [= <- _]. apply (keeps_trans b b1); [done| |by left]. split; simpl; auto.
    - intros [Hk El]%fetch_request_keeps. apply (keeps_trans b b1); auto. }
  destruct tok as [t|]; [|by apply Hmiss]. destruct (served_from_cache o now (Some t) b); [|by apply Hmiss].
  by injection Hf as <- _.
Qed.

Lemma step_cases s s' : step s s' -> loop_step (bear s) (file s) (bear s') (file s') \/ keeps (bear s) (bear s').
Proof.
  assert (forall b, keeps b b) as Hid by (intros b; split; auto).
  assert (forall cache b, keeps b (with_cache cache b)) as Hcache by (intros; split; simpl; auto).
  intros Hs. destruct Hs as [s b d Hs|s b Hs|s|s|s|s d|s o|s k o now now2 tok cache d b w Hk Hg Hf|s k o n b w Hk Hf|s k i n tok m Hk Hi
    |s k i n Hk Hi|s k Hk|s k now tok cache d Hk Hg|s k w now e cache d Hk Hw Hg|s k w Hk Hw]; simpl; auto; right.
  - destruct Hs as [b t Hl]. split; simpl; auto. right. right. right. eauto.
  - unfold request_renewal. destruct (_is_stopped (bear s)) eqn:E; [done|]. split; simpl; auto. congruence.
  - split; simpl; auto.
  - split; simpl; auto. destruct (loop (bear s)) eqn:El; auto; right; right; left; auto.
  - apply (keeps_trans (bear s) (with_cache cache (bear s))); [done|by eapply fetch_first_keeps|by right].
  - by apply fetch_request_keeps in Hf as [? _].
Qed.

Definition rank (b : bearer) : nat :=
  match loop b with LInit | LStoring _ => 5 | LHead => 4 | LSleeping _ => 3 | LWoken => 2 | LFetching _ => 1 | _ => 0 end.

Lemma async_settle_open i a b : a <> Pending -> open_future i b -> settled i (settle a b).
Proof.
  intros Ha [Hi Hp]. exists a. split; [|done]. destruct (settle_spec a b Ha) as (_ & _ & _ & _ & _ & [[_ Hn]|(j & Hj & _ & ->)]).
  - assert (renewal_pending b = true) by (apply async_renewal_pending_spec; by exists i). congruence.
  - replace j with i by congruence. apply list_lookup_insert_eq. by eapply lookup_lt_Some.
Qed.

Lemma loop_serves i b d b' d' :
  loop_step b d b' d' -> open_future i b -> loop b' <> LDone ->
  settled i b' \/ (open_future i b' /\ (rank b' < rank b)%nat).
Proof.
  intros Hs Ho Hd.
  destruct Hs as [b d now now2 tok cache d' Hl Hg|b d now e cache d' Hl Hg|b d Hl Hst|b d Hl Hst|b d t Hl Hr|b d Hl
    |b d t tok Hl|b d t Hl|b d t Hl Hb|b d t Hl|b d tok now now2 cache d' Hl Hg|b d tok now e cache d' Hl Hg]; try done;
    unfold rank; rewrite Hl; simpl; try (right; split; [done|lia]); left.
  - by apply (async_settle_open i (Got (tok, started b)) (end_attempt b)).
  - by apply (async_settle_open i Error (end_attempt b)).
  - by apply (async_settle_open i Error (end_attempt b)).
  - by apply (async_settle_open i Error (with_cache cache b)).
Qed.

Lemma loop_settled i b d b' d' : loop_step b d b' d' -> settled i b -> settled i b'.
Proof.
  intros Hs (a & Ha & Hne).
  assert (forall x b0, x <> Pending -> futures b0 = futures b -> settled i (settle x b0)) as Hset.
  { intros x b0 Hx Hfu. exists a. split; [|done]. destruct (settle_spec x b0 Hx) as (_ & _ & _ & _ & _ & [[-> _]|(j & Hj & Hp & ->)]).
    - by rewrite Hfu.
    - rewrite Hfu in *. rewrite list_lookup_insert_ne; [done|]. intros ->. congruence. }
  destruct Hs as [b d now now2 tok cache d' Hl Hg|b d now e cache d' Hl Hg|b d Hl Hst|b d Hl Hst|b d t Hl Hr|b d Hl
    |b d t tok Hl|b d t Hl|b d t Hl Hb|b d t Hl|b d tok now now2 cache d' Hl Hg|b d tok now e cache d' Hl Hg]; try (by exists a).
  - by apply (Hset (Got (tok, started b)) (end_attempt b)).
  - by apply (Hset Error (end_attempt b)).
  - by apply (Hset Error (end_attempt b)).
  - by apply (Hset Error (with_cache cache b)).
Qed.

(** The end of the loop is final. *)
Lemma async_done_step s s' : step s s' -> loop (bear s) = LDone -> loop (bear s') = LDone.
Proof.
  intros [Hs|Hs]%step_cases Hl.
  - by destruct Hs; try congruence.
  - destruct (k_loop _ _ Hs) as [?|[[? _]|[(_ & ? & _)|(t & ? & _)]]]; congruence.
Qed.

(** A run with [k] steps of the background loop. *)
Inductive run : nat -> system -> system -> Prop :=
| run_nil s : run 0 s s
| run_loop k s b d s' : loop_step (bear s) (file s) b d -> run k (after_bearer b d s) s' -> run (S k) s s'
| run_other k s s1 s' : step s s1 -> run k s1 s' -> run k s s'.

Lemma run_done k s s' : run k s s' -> loop (bear s) = LDone -> loop (bear s') = LDone.
Proof.
  induction 1 as [|k s b d s' Hs _ IH|k s s1 s' Hs _ IH]; [done|..]; intros Hl; apply IH.
  - apply (async_done_step s (after_bearer b d s)); [by apply step_loop|done].
  - by apply (async_done_step s).
Qed.

Lemma async_run_settled i k s s' : run k s s' -> settled i (bear s) -> settled i (bear s').
Proof.
  induction 1 as [|k s b d s' Hs _ IH|k s s1 s' Hs _ IH]; [done|..]; intros Hi; apply IH.
  - by eapply (loop_settled i _ _ b).
  - destruct (step_cases _ _ Hs) as [Hl|Hk]; [by eapply loop_settled|]. destruct Hi as (a & Ha & ?). exists a.
    split; [by eapply k_futures|done].
Qed.

Lemma async_run_serves i k s s' :
  run k s s' -> open_future i (bear s) -> loop (bear s) <> LNone -> loop (bear s') <> LDone -> (rank (bear s) <= k)%nat ->
  settled i (bear s').
Proof.
  intros Hr. induction Hr as [s|k s b d s' Hs Hr IH|k s s1 s' Hs Hr IH]; intros Hi Hn Hd Hk.
  - unfold rank in Hk. by destruct (loop (bear s)); try lia.
  - assert (loop b <> LDone) as Hb by (intros E; apply Hd; by apply (run_done _ _ _ Hr)).
    destruct (loop_serves i _ _ b d Hs Hi Hb) as [Hset|[Ho Hrk]]; [by eapply async_run_settled|].
    apply IH; [done| |done|simpl; lia]. simpl. by destruct Hs; simpl; try congruence; unfold handle_failure, settle; case_match.
  - assert (loop (bear s1) <> LDone) as Hb by (intros E; apply Hd; by apply (run_done _ _ _ Hr)).
    destruct (step_cases _ _ Hs) as [Hl|Hke].
    + destruct (loop_serves i _ _ _ _ Hl Hi Hb) as [Hset|[Ho Hrk]]; [by eapply async_run_settled|].
      apply IH; [done| |done|lia]. by destruct Hl; simpl; try congruence; unfold handle_failure, settle; case_match.
    + apply IH; [by apply (k_open _ _ Hke)| |done|].
      * destruct (k_loop _ _ Hke) as [E|[[E _]|[(_ & E & _)|(t & _ & E)]]]; congruence.
      * unfold rank in *. destruct (k_loop _ _ Hke) as [E|[[E _]|[(_ & E & _)|(t & E1 & E)]]]; try congruence; rewrite E; [done|].
        rewrite E1 in Hk. lia.
Qed.

(** A shared renewal result that callers wait for is settled, with a token or
    an error, after at most five steps of the background loop, unless the loop
    ended: the bearer was stopped, the first read of the cache file failed, or the
    source raised [CancelledError].
    Until then the loop has a next step. *)
Theorem async_renewal_served margin cache d s i :
  rtc step (new_system margin cache d) s -> open_future i (bear s) -> loop (bear s) <> LDone ->
  (exists b d', loop_step (bear s) (file s) b d') /\
  forall k s', run k s s' -> loop (bear s') <> LDone -> (5 <= k)%nat -> settled i (bear s').
Proof.
  intros Hs Hi Hd. destruct (async_system_rtc_ok _ _ Hs (async_new_system_ok margin cache d)) as [[_ Hp] _].
  destruct Hp as [Hn Hr]; [apply async_renewal_pending_spec; by exists i|]. split.
  - destruct (loop (bear s)) as [| | |t| |t|tok|] eqn:El; try done.
    + destruct (Throttled.get 0 (_file_cache (bear s)) (file s)) as [[[tok|e] c'] d'] eqn:Eg.
      * do 2 eexists. by eapply (loop_init _ _ 0 0).
      * do 2 eexists. by eapply loop_init_error.
    + destruct (_is_stopped (bear s)) eqn:Est; do 2 eexists; [by apply loop_end|by apply loop_sleep].
    + do 2 eexists. eapply loop_wake; [done|]. unfold fetching in Hr. rewrite El in Hr. by destruct Hr as [?|[?|?]].
    + do 2 eexists. by apply loop_begin.
    + do 2 eexists. by eapply loop_error.
    + destruct (Throttled.set 0 tok (_file_cache (bear s)) (file s)) as [[[[]|e] c'] d'] eqn:Eg.
      * do 2 eexists. by eapply (loop_stored _ _ _ 0 0).
      * do 2 eexists. by eapply loop_not_stored.
  - intros k s' Hrun Hd' Hk. eapply async_run_serves; eauto. unfold rank. destruct (loop (bear s)); lia.
Qed.

(** ** Stopping *)

(** The attempts a stopped loop still starts. *)
Definition budget (b : bearer) : nat := match loop b with LSleeping _ | LWoken => 1 | _ => 0 end.

Lemma loop_stopped b d b' d' :
  loop_step b d b' d' -> _is_stopped b = true -> _is_stopped b' = true /\ (started b' + budget b' <= started b + budget b)%nat.
Proof.
  intros Hs Hst.
  assert (forall a b0, a <> Pending -> started (settle a b0) = started b0 /\ _is_stopped (settle a b0) = _is_stopped b0) as Hset.
  { intros a b0 Ha. by destruct (settle_spec a b0 Ha) as (_ & _ & ? & _ & ? & _). }
  destruct Hs as [b d now now2 tok cache d' Hl Hg|b d now e cache d' Hl Hg|b d Hl Hst'|b d Hl Hst'|b d t Hl Hr|b d Hl
    |b d t tok Hl|b d t Hl|b d t Hl Hb|b d t Hl|b d tok now now2 cache d' Hl Hg|b d tok now e cache d' Hl Hg]; try congruence;
    unfold budget; rewrite Hl; simpl; try (split; [done|lia]).
  - destruct (Hset (Got (tok, started b)) (end_attempt b)) as [E1 E2]; [done|]. rewrite E1, E2. split; [done|simpl; lia].
  - destruct (Hset Error (end_attempt b)) as [E1 E2]; [done|]. rewrite E1, E2. split; [done|simpl; lia].
  - destruct (Hset Error (end_attempt b)) as [E1 E2]; [done|]. rewrite E1, E2. split; [done|simpl; lia].
  - destruct (Hset Error (with_cache cache b)) as [E1 E2]; [done|]. rewrite E1, E2. split; [done|simpl; lia].
Qed.

Lemma step_stopped s s' :
  step s s' -> _is_stopped (bear s) = true ->
  _is_stopped (bear s') = true /\ (started (bear s') + budget (bear s') <= started (bear s) + budget (bear s))%nat.
Proof.
  intros [Hs|Hs]%step_cases Hst; [by eapply loop_stopped|]. destruct Hs as [H1 -> H3 _ _]. split; [auto|]. unfold budget.
  destruct H3 as [->|[[-> [-> | ->]]|[(_ & -> & _)|(t & -> & ->)]]]; lia.
Qed.

Definition stopped (s : system) : system := after_bearer (stop (bear s)) (file s) s.

(** After [stop] at most one more attempt to renew is started, whatever the
    callers do; but one is: a loop that sleeps is woken by [stop] itself, clears
    the break that [stop] has set and asks the source. *)
Theorem async_stop_attempts s :
  (forall s', rtc step (stopped s) s' -> (started (bear s') <= S (started (bear s)))%nat) /\
  (forall t, loop (bear s) = LSleeping t ->
     exists s', rtc step (stopped s) s' /\ started (bear s') = S (started (bear s)) /\
       fetching (bear s') = true /\ _break_previous_attempt (bear s') = false).
Proof.
  split.
  - intros s' Hr. assert (forall s1 s2, rtc step s1 s2 -> _is_stopped (bear s1) = true ->
      (started (bear s2) + budget (bear s2) <= started (bear s1) + budget (bear s1))%nat) as Hall.
    { induction 1 as [|x y z Hs _ IH]; [done|]. intros Hst. destruct (step_stopped _ _ Hs Hst) as [Hy Hle].
      specialize (IH Hy). lia. }
    specialize (Hall _ _ Hr eq_refl). simpl in Hall. unfold budget in Hall. simpl in Hall. destruct (loop (bear s)); lia.
  - intros t Hl. eexists. split.
    { eapply rtc_l; [apply step_loop; by eapply loop_wake|]. eapply rtc_l; [apply step_loop; by apply loop_begin|].
      apply rtc_refl. }
    done.
Qed.

(** ** Expired tokens *)

Lemma refresh_absent now cache d :
  disk_ok d -> view now d (_name cache) = None ->
  exists d', Throttled.refresh now cache d = (Ok None, cache, d') /\ disk_ok d' /\ view now d' (_name cache) = None.
Proof.
  intros Hd Hv. pose proof (throttled_refresh_spec now cache d Hd) as Hr. unfold Throttled.refresh in *.
  destruct (get now (_name cache) d) as [[[t|]|e] d'].
  - destruct (Token.is_expired now t); [|destruct Hr as (_ & _ & E & _); congruence].
    destruct Hr as (H1 & _ & _ & H4). exists d'. by rewrite H4.
  - destruct Hr as (H1 & _ & _ & H4). exists d'. by rewrite H4.
  - by destruct Hr as (_ & _ & E & _).
Qed.

Lemma get_expired now cache d t :
  _cached_token cache = Some t -> Token.is_expired now t = true -> disk_ok d -> view now d (_name cache) = None ->
  exists d', Throttled.get now cache d = (Ok None, cache, d') /\ disk_ok d' /\ view now d' (_name cache) = None.
Proof. intros Hc Ht Hd Hv. unfold Throttled.get. rewrite Hc, Ht. by apply refresh_absent. Qed.

(** Once the token in memory has expired and the file has no other one, a
    plain [fetch] fails at once with an empty cache: it neither requests a renewal
    nor waits for one, because the expired token still counts as cached. *)
Theorem async_expired_refused s k o t now :
  callers s !! k = Some (Starting o) -> required o = false -> loop (bear s) <> LNone ->
  _cached_token (_file_cache (bear s)) = Some t -> Token.is_expired now t = true ->
  disk_ok (file s) -> view now (file s) (_name (_file_cache (bear s))) = None -> _renew_requested (bear s) = false ->
  exists s', rtc step s s' /\ callers s' !! k = Some EmptyCache /\
    _renew_requested (bear s') = false /\ started (bear s') = started (bear s).
Proof.
  intros Hk Ho Hl Hc Ht Hd Hv Hr. destruct (get_expired now _ _ t Hc Ht Hd Hv) as (d1 & G1 & D1 & V1).
  destruct (get_expired now _ d1 t Hc Ht D1 V1) as (d2 & G2 & D2 & V2).
  set (b1 := no_margin (with_cache (_file_cache (bear s)) (bear s))).
  assert (fetch_first o now now None (with_cache (_file_cache (bear s)) (bear s)) = (b1, Reading)) as Hf.
  { unfold fetch_first. fold b1. assert (start_at_once b1 = b1) as -> by (unfold start_at_once; simpl; by destruct (loop (bear s))).
    unfold is_renewal_required, Throttled.get_cached. simpl. by rewrite Hc, Hr, Ho. }
  assert ((k < length (callers s))%nat) as Hlt by by eapply lookup_lt_Some.
  eexists. split.
  { eapply rtc_l; [by eapply (step_first s k o now now None)|].
    eapply rtc_l; [eapply (step_last _ k now None); simpl; [by apply list_lookup_insert_eq|exact G2]|]. apply rtc_refl. }
  simpl. split; [|done]. rewrite list_insert_insert_eq. by apply list_lookup_insert_eq.
Qed.

End Bearer.

(** ** The receiver *)

(** [AsynchronousRenewableFileCacheReceiver]: [_fetch] counts a trial before it
    asks the bearer. *)
Definition receiver_fetch (r : receiver) : receiver := mkReceiver (_max_retries r) (_trial r + 1).

(** [can_retry]: the answer, and whether the bearer is asked to renew; [py_int] is
    [int()], [None] its [ValueError]. *)
Definition receiver_can_retry (py_int : pystr -> option Z) (r : receiver) (options : option (list (pystr * pystr))) :
    bool * bool :=
  let synchronous := match options with Some o => flag o OPTION_RENEW_SYNCHRONOUS | None => false end in
  let max_retries :=
    match options ≫= fun o => dict_get o OPTION_MAX_RETRIES with
    | Some v => default (_max_retries r) (py_int v)
    | None => _max_retries r
    end in
  if max_retries <=? _trial r then (false, false) else (true, negb synchronous).

(** It decides as the receiver of the renewable bearer. *)
Lemma receiver_can_retry_eq py_int r options : receiver_can_retry py_int r options = can_retry py_int r options.
Proof. by destruct options as [o|]; unfold receiver_can_retry, can_retry; simpl; [destruct (dict_get o _)|]. Qed.

(** ** Instances *)

#[local] Existing Instance plain_yaml.

Definition ex_cache : Throttled := Throttled.init 0 (u "sa") 300000000.
Definition ex_tok : Token := mkToken (u "t") (Some 5000000).
Definition ex_start : system := new_system None ex_cache None.
Abbreviation ex_step := (step Renewable.ex_backoff 5 7200).

(** A synchronous caller waits for the first attempt. *)
Definition ex_waiting : system :=
  mkSystem (mkBearer None ex_cache false false true true true 0 None (Some 0%nat) [Pending] LHead 0 0) None
    [WaitFuture 0 (Some 0%nat)].

Lemma async_ex_waiting_reached : rtc ex_step ex_start ex_waiting.
Proof.
  eapply rtc_l; [apply (step_fetch _ _ _ ex_start (Renewable.sync_only))|].
  eapply rtc_l; [eapply (step_first _ _ _ _ 0 _ 0 0); [done|vm_compute; reflexivity|vm_compute; reflexivity]|].
  eapply rtc_l; [eapply (step_proceed _ _ _ _ 0); [done|vm_compute; reflexivity]|].
  apply rtc_refl.
Qed.

(** It gets the token, and the loop sleeps after it has stored it. *)
Definition ex_served : system :=
  mkSystem (mkBearer None (mkThrottled (u "sa") 300000000 (Some ex_tok) 300000000) true false false true false 0 None None
      [Got (ex_tok, 1%nat)] (LSleeping (delay_after_success Renewable.ex_backoff (seconds_left 0 ex_tok)))
      (delay_after_success Renewable.ex_backoff (seconds_left 0 ex_tok)) 1)
    (Some (token_doc [(u "sa", ex_tok)])) [Returned ex_tok (FromRenewal (Some 0%nat) 1)].

Lemma async_ex_served_reached : rtc ex_step ex_start ex_served.
Proof.
  etransitivity; [apply async_ex_waiting_reached|].
  eapply rtc_l; [apply step_loop; by apply loop_sleep|].
  eapply rtc_l; [apply step_loop; by eapply loop_wake|].
  eapply rtc_l; [apply step_loop; by apply loop_begin|].
  eapply rtc_l; [apply step_loop; by eapply (loop_token _ _ _ _ _ _ ex_tok)|].
  eapply rtc_l; [apply step_loop; eapply (loop_stored _ _ _ _ _ ex_tok 0 0); [done|vm_compute; reflexivity]|].
  eapply rtc_l; [apply step_loop; by apply loop_sleep|].
  eapply rtc_l; [by eapply (step_got _ _ _ _ 0)|]. apply rtc_refl.
Qed.

Lemma async_fetch_live_witness : (0 < 1)%nat.
Proof.
  destruct (async_fetch_live Renewable.ex_backoff 5 7200 None ex_cache None ex_served async_ex_served_reached) as [_ H].
  apply (H ex_tok 0%nat 1%nat). left.
Defined.

Lemma async_renewal_served_witness : exists b d', loop_step Renewable.ex_backoff 5 7200 (bear ex_waiting) None b d'.
Proof.
  apply (async_renewal_served Renewable.ex_backoff 5 7200 None ex_cache None ex_waiting 0 async_ex_waiting_reached);
    [split; reflexivity|discriminate].
Defined.

(** Ten seconds later the token has expired. *)
Definition ex_late : system := mkSystem (bear ex_served) (file ex_served) [Starting Renewable.no_options].

Lemma async_expired_refused_witness :
  exists s', rtc ex_step ex_late s' /\ callers s' !! 0%nat = Some EmptyCache /\
    _renew_requested (bear s') = false /\ started (bear s') = 1%nat.
Proof.
  apply (async_expired_refused Renewable.ex_backoff 5 7200 ex_late 0 Renewable.no_options ex_tok 10000000);
    try reflexivity; [discriminate|].
  exists [(u "sa", ex_tok)]. split; [reflexivity|]. split.
  - split; [apply NoDup_singleton|by apply Forall_singleton].
  - apply Forall_singleton. split; [|reflexivity]. intros e [= <-]. vm_compute. split; discriminate.
Defined.

Lemma async_stop_attempts_witness :
  exists s', rtc ex_step (stopped ex_served) s' /\ started (bear s') = 2%nat.
Proof.
  destruct (async_stop_attempts Renewable.ex_backoff 5 7200 ex_served) as [_ H].
  destruct (H _ eq_refl) as (s' & H1 & H2 & _). exists s'. split; [exact H1|exact H2].
Defined.
