(* ===== verification/Message.v ===== *)
(** * Messages

    The model of the state and the binary behaviour of generated messages,
    [src/nebius/base/protos/direct.py], and of their containers,
    [containers.py] and [RepeatedValues] of [extensions.py].

    A message class is a number; a [Schema] gives the fields of every class.
    A [Field] object is its position in [__FIELDS__], so the dict [_values] and
    the set [_present], which are keyed by field identity, are the list of
    [slots] of a message, one per field.  Assigned values are copied and
    decoded values are fresh, so a message owns what it holds and is a tree.

    Left out: classes with an extension registry, [float] fields, conversions
    to Python types, deprecation warnings and the mutation callbacks, which run
    when user code changes a nested message it got from a getter.  What a
    message holds after an operation that raised is not modelled either. *)
From stdpp Require Import gmap.
From S2P Require Import Prelude PyStr Json FieldMask Bytes Wire ValueCodec.

(** ** Values *)

Inductive scalar : Type :=
| IntV (n : Z)
| BoolV (b : bool)
| FloatV (bits : Z)
| BytesV (b : bytes)
| StrV (s : pystr).

#[export] Instance scalar_eq_dec : EqDecision scalar.
Proof. solve_decision. Defined.

#[local] Unset Elimination Schemes.
Inductive value : Type :=
| Scalar (s : scalar)
| MessageV (m : message)
with message : Type :=
| mkMessage (cls : nat) (slots : list slot) (_oneofs : gmap pystr nat)
    (_unknown_fields : list bytes) (_reset_mask : Mask)
with slot : Type :=
| mkSlot (cell_of : option cell) (is_present : bool)
with cell : Type :=
| One (v : value)
| Items (l : list value)
| Entries (l : list (scalar * value)).
#[local] Set Elimination Schemes.

Definition cls (m : message) : nat := let 'mkMessage c _ _ _ _ := m in c.
Definition slots (m : message) : list slot := let 'mkMessage _ s _ _ _ := m in s.
Definition _oneofs (m : message) : gmap pystr nat := let 'mkMessage _ _ o _ _ := m in o.
Definition _unknown_fields (m : message) : list bytes := let 'mkMessage _ _ _ u _ := m in u.
Definition _reset_mask (m : message) : Mask := let 'mkMessage _ _ _ _ k := m in k.
Definition cell_of (s : slot) : option cell := let 'mkSlot c _ := s in c.
Definition is_present (s : slot) : bool := let 'mkSlot _ p := s in p.

Definition no_slot : slot := mkSlot None false.

(** ** Fields *)

(** The codecs of [codec.py] a field uses, and [message_codec]. *)
Inductive codec : Type :=
| CInt (c : ValueCodec Z)
| CBool
| CDouble
| CBytes
| CString
| CMessage (cls : nat).

Record Field : Type := mkField {
  proto_name : pystr;
  python_name : pystr;
  number : Z;
  codec_of : codec;
  repeated : bool;
  packed : bool;
  explicit_presence : bool;
  required : bool;
  oneof : option pystr;
  default_factory : option scalar;
  map_key_codec : option codec;
  public : bool;
  immutable : bool;
  immutable_oneof : bool;
  json_name : option pystr
}.

Class Schema := {
  FIELDS : nat -> list Field;
  MAX_NESTING_DEPTH : nat -> Z;
  PY_TO_PB2 : nat -> list (pystr * pystr);
  (** [_C_LONG_BITS] *)
  long_bits : Z;
  (** [float(n)] of an integer, as bits *)
  float_of_int : Z -> result codec_error Z
}.

Inductive message_error : Type :=
| WireE (e : wire_error)
| CodecE (e : codec_error)
| TypeE (msg : string)
| ValueE (msg : string)
| EncodeE (msg : string) (missing : list pystr)
| MessageFuel.

Definition nesting_too_deep : string := "protobuf message nesting exceeds the configured limit".

Definition message_field (f : Field) : bool := match codec_of f with CMessage _ => true | _ => false end.
Definition map_field (f : Field) : bool := match map_key_codec f with Some _ => true | None => false end.

Definition has_presence (f : Field) : bool :=
  explicit_presence f || required f || (message_field f && negb (map_field f)) ||
  match oneof f with Some _ => true | None => false end.

Definition wire_type_of (c : codec) : Z :=
  match c with
  | CInt c => wire_type c
  | CBool => wire_type (BOOL 64)
  | CDouble => WIRE_FIXED64
  | CBytes => wire_type BYTES
  | CString => wire_type STRING
  | CMessage _ => WIRE_LENGTH_DELIMITED
  end.

Definition packable_of (c : codec) : bool :=
  match c with
  | CInt c => packable c
  | CBool => packable (BOOL 64)
  | CDouble => true
  | CBytes => packable BYTES
  | CString => packable STRING
  | CMessage _ => false
  end.

(** *** Floating-point equality on the bits *)

Definition is_nan (bits : Z) : bool := 0x7FF0000000000000 <? Z.land bits (2 ^ 63 - 1).
Definition is_zero (bits : Z) : bool := Z.land bits (2 ^ 63 - 1) =? 0.
Definition float_eqb (a b : Z) : bool :=
  negb (is_nan a) && negb (is_nan b) && ((a =? b) || (is_zero a && is_zero b)).

(** [a == b] on values of one codec. *)
Definition scalar_eqb (a b : scalar) : bool :=
  match a, b with
  | FloatV x, FloatV y => float_eqb x y
  | _, _ => bool_decide (a = b)
  end.

(** Messages compare by identity. *)
Definition value_eqb (v : value) (s : scalar) : bool :=
  match v with Scalar a => scalar_eqb a s | MessageV _ => false end.

Section Messages.
Context `{Schema}.

(** [cls()] *)
Definition new (c : nat) : message :=
  mkMessage c (replicate (length (FIELDS c)) no_slot) ∅ [] emptyMask.

Definition indexed (c : nat) : list (nat * Field) := zip (seq 0 (length (FIELDS c))) (FIELDS c).

Definition _nesting_limit (c : nat) : Z := Z.min (MAX_NESTING_DEPTH c) 100.

(** The default of a field that is not a message. *)
Definition scalar_default (c : codec) : scalar :=
  match c with
  | CInt c => IntV (default_value c)
  | CBool => BoolV (default_value (BOOL 64))
  | CDouble => FloatV 0
  | CBytes => BytesV (default_value BYTES)
  | CString | CMessage _ => StrV (default_value STRING)
  end.

Definition default (f : Field) : scalar :=
  match default_factory f with Some s => s | None => scalar_default (codec_of f) end.

Definition codec_default (c : codec) : value :=
  match c with CMessage k => MessageV (new k) | _ => Scalar (scalar_default c) end.

(** *** Slots *)

Definition get_slot (m : message) (i : nat) : slot :=
  match slots m !! i with Some s => s | None => no_slot end.

Definition set_slot (i : nat) (s : slot) (m : message) : message :=
  mkMessage (cls m) (<[i := s]> (slots m)) (_oneofs m) (_unknown_fields m) (_reset_mask m).
Definition set_oneofs (o : gmap pystr nat) (m : message) : message :=
  mkMessage (cls m) (slots m) o (_unknown_fields m) (_reset_mask m).
Definition set_unknown (u : list bytes) (m : message) : message :=
  mkMessage (cls m) (slots m) (_oneofs m) u (_reset_mask m).
Definition set_mask (k : Mask) (m : message) : message :=
  mkMessage (cls m) (slots m) (_oneofs m) (_unknown_fields m) k.

Definition set_cell (i : nat) (c : cell) (m : message) : message :=
  set_slot i (mkSlot (Some c) (is_present (get_slot m i))) m.

Definition add_unknown (raw : bytes) (m : message) : message :=
  set_unknown (_unknown_fields m ++ [raw]) m.

(** [_repeated(field)] and [_map(field)], as the items they hold. *)
Definition items_of (s : slot) : list value :=
  match cell_of s with Some (Items l) => l | _ => [] end.
Definition entries_of (s : slot) : list (scalar * value) :=
  match cell_of s with Some (Entries l) => l | _ => [] end.

(** [not value], of a container slot. *)
Definition slot_empty (s : slot) : bool :=
  match items_of s, entries_of s with [], [] => true | _, _ => false end.

Definition _field_is_default (f : Field) (s : slot) : bool :=
  if map_field f || repeated f then slot_empty s
  else if has_presence f then negb (is_present s)
  else match cell_of s with Some (One v) => value_eqb v (default f) | _ => true end.

Definition _field_has_value (f : Field) (s : slot) : bool :=
  if map_field f || repeated f then negb (slot_empty s)
  else if has_presence f then is_present s
  else negb (_field_is_default f s).

(** ** Presence and oneofs *)

Definition _clear_state (i : nat) (f : Field) (m : message) : message :=
  if map_field f then
    match cell_of (get_slot m i) with Some _ => set_cell i (Entries []) m | None => m end
  else if repeated f then
    match cell_of (get_slot m i) with Some _ => set_cell i (Items []) m | None => m end
  else
    let m := set_slot i no_slot m in
    match oneof f with
    | Some o => if decide (_oneofs m !! o = Some i) then set_oneofs (delete o (_oneofs m)) m else m
    | None => m
    end.

Definition clear_index (i : nat) (m : message) : message :=
  match FIELDS (cls m) !! i with Some f => _clear_state i f m | None => m end.

Definition mark_present (i : nat) (m : message) : message :=
  set_slot i (mkSlot (cell_of (get_slot m i)) true) m.

(** The clearing half of [_select]: another selected member is cleared. *)
Definition deselect (i : nat) (f : Field) (m : message) : message :=
  match oneof f with
  | Some o =>
      match _oneofs m !! o with
      | Some j => if decide (j = i) then m else clear_index j m
      | None => m
      end
  | None => m
  end.

Definition _select (i : nat) (f : Field) (m : message) : message :=
  let m :=
    match oneof f with
    | Some o => let m := deselect i f m in set_oneofs (<[o := i]> (_oneofs m)) m
    | None => m
    end in
  if has_presence f then mark_present i m else m.

Definition _record_reset (f : Field) (m : message) : message :=
  set_mask (mkMask (any (_reset_mask m))
    (match dict_get (field_parts (_reset_mask m)) (proto_name f) with
     | Some _ => field_parts (_reset_mask m)
     | None => dict_set (field_parts (_reset_mask m)) (proto_name f) emptyMask
     end)) m.

Definition Clear (m : message) : message :=
  let m := foldl (fun m '(i, f) => _clear_state i f m) m (indexed (cls m)) in
  mkMessage (cls m) ((fun s => mkSlot (cell_of s) false) <$> slots m) ∅ [] emptyMask.

(** [_oneof_python_name]; the candidates are tried in field order, the code
    iterates over a set of them. *)
Definition oneof_candidates (c : nat) : list pystr :=
  omap (fun f => if public f then oneof f else None) (FIELDS c).

Definition _oneof_python_name (c : nat) (name : pystr) : option pystr :=
  if decide (name ∈ oneof_candidates c) then Some name
  else snd <$> list_find (fun candidate =>
         match dict_get (PY_TO_PB2 c) candidate with Some pb => pb | None => candidate end = name)
         (oneof_candidates c).

(** [_public_fields_by_proto_name()[name]]: of fields with one name the last. *)
Definition public_field (c : nat) (name : pystr) : option (nat * Field) :=
  foldl (fun acc '(i, f) => if public f && bool_decide (proto_name f = name) then Some (i, f) else acc)
    None (indexed c).

(** The selected member of a oneof, if it is public. *)
Definition selected_public (m : message) (o : pystr) : option (nat * Field) :=
  match _oneofs m !! o with
  | Some i => match FIELDS (cls m) !! i with
              | Some f => if public f then Some (i, f) else None
              | None => None
              end
  | None => None
  end.

Definition HasField (name : pystr) (m : message) : result message_error bool :=
  match _oneof_python_name (cls m) name with
  | Some o => Ok (match selected_public m o with Some _ => true | None => false end)
  | None =>
      match public_field (cls m) name with
      | None => Raise (ValueE "unknown field")
      | Some (i, f) =>
          if repeated f || negb (has_presence f) then Raise (ValueE "field does not have presence")
          else Ok (is_present (get_slot m i))
      end
  end.

Definition WhichOneof (name : pystr) (m : message) : result message_error (option pystr) :=
  match _oneof_python_name (cls m) name with
  | None => Raise (ValueE "unknown oneof")
  | Some o => Ok ((fun '(_, f) => proto_name f) <$> selected_public m o)
  end.

Definition ClearField (name : pystr) (m : message) : result message_error message :=
  match _oneof_python_name (cls m) name with
  | Some o =>
      Ok (match selected_public m o with
          | Some (i, f) => _record_reset f (_clear_state i f m)
          | None => m
          end)
  | None =>
      match public_field (cls m) name with
      | None => Raise (ValueE "unknown field")
      | Some (i, f) => Ok (_record_reset f (_clear_state i f m))
      end
  end.

(** ** Values in and out of the containers *)

Definition as_py (v : value) : py_value :=
  match v with
  | Scalar (IntV n) => VInt n
  | Scalar (BoolV b) => VBool b
  | Scalar (BytesV b) => VBytes b
  | Scalar (StrV s) => VStr s
  | Scalar (FloatV _) | MessageV _ => VOther
  end.

Definition coerce {A} (inj : A -> scalar) (r : result codec_error A) : result message_error value :=
  match r with Ok a => Ok (Scalar (inj a)) | Raise e => Raise (CodecE e) end.

(** [codec.normalize(value)] *)
Definition normalize_value (c : codec) (v : value) : result message_error value :=
  match c with
  | CInt c => coerce IntV (normalize c (as_py v))
  | CBool => coerce BoolV (normalize (BOOL long_bits) (as_py v))
  | CDouble =>
      match v with
      | Scalar (FloatV x) => Ok v
      | _ => match as_int (as_py v) with
             | Some n => coerce FloatV (float_of_int n)
             | None => Raise (TypeE "floating-point field requires int or float")
             end
      end
  | CBytes => coerce BytesV (normalize BYTES (as_py v))
  | CString => coerce StrV (normalize STRING (as_py v))
  | CMessage k =>
      match v with
      | MessageV m => if decide (cls m = k) then Ok v else Raise (TypeE "message field requires another class")
      | Scalar _ => Raise (TypeE "message field requires another class")
      end
  end.

Definition normalize_key (c : codec) (k : scalar) : result message_error scalar :=
  v ← normalize_value c (Scalar k);
  match v with Scalar s => Ok s | MessageV _ => Raise (TypeE "map key") end.

Fixpoint traverse {A B} (f : A -> result message_error B) (l : list A) : result message_error (list B) :=
  match l with [] => Ok [] | a :: l => b ← f a; bs ← traverse f l; Ok (b :: bs) end.

Fixpoint fold_result {A S} (f : S -> A -> result message_error S) (l : list A) (s : S) :
    result message_error S :=
  match l with [] => Ok s | a :: l => s ← f s a; fold_result f l s end.

Section Containers.
(** [codec.clone], for a message *)
Context (clone_message : nat -> message -> result message_error message).

(** [codec.copy(value)] *)
Definition copy_value (c : codec) (v : value) : result message_error value :=
  match c, v with
  | CMessage k, MessageV m => m' ← clone_message k m; Ok (MessageV m')
  | _, _ => Ok v
  end.

(** [_prepare] of both containers *)
Definition _prepare (c : codec) (v : value) : result message_error value :=
  v ← normalize_value c v; copy_value c v.

(** [RepeatedValues.extend]; [append] is [extend] of one value. *)
Definition extend (c : codec) (items values : list value) : result message_error (list value) :=
  prepared ← traverse (_prepare c) values; Ok (items ++ prepared).

(** [MapValues.__setitem__] *)
Definition map_set (kc c : codec) (entries : list (scalar * value)) (e : scalar * value) :
    result message_error (list (scalar * value)) :=
  k ← normalize_key kc (fst e); v ← _prepare c (snd e); Ok (dict_set entries k v).

(** ** MergeFrom *)

(** The iteration of [MergeFrom] for one field; [mf] is [MergeFrom] of nested
    messages. *)
Definition merge_field (mf : message -> message -> result message_error message) (other : message)
    (self : message) (x : nat * Field) : result message_error message :=
  let '(i, f) := x in
  let s := get_slot other i in
  match map_key_codec f with
  | Some kc =>
      match entries_of s with
      | [] => Ok self
      | es => es' ← fold_result (map_set kc (codec_of f)) es (entries_of (get_slot self i));
              Ok (set_cell i (Entries es') self)
      end
  | None =>
      if repeated f then
        match items_of s with
        | [] => Ok self
        | vs => vs' ← extend (codec_of f) (items_of (get_slot self i)) vs;
                Ok (set_cell i (Items vs') self)
        end
      else if negb (_field_has_value f s) then Ok self
      else match cell_of s with
           | Some (One v) =>
               v ← copy_value (codec_of f) v;
               v ← match cell_of (get_slot self i), v with
                   | Some (One (MessageV m)), MessageV m' =>
                       if message_field f && is_present (get_slot self i)
                       then m ← mf m m'; Ok (MessageV m) else Ok v
                   | _, _ => Ok v
                   end;
               Ok (_select i f (set_cell i (One v) self))
           | _ => Raise (TypeE "present field without a value")
           end
  end.

End Containers.

(** [MergeFrom]; the fuel bounds the nesting of [other]. *)
Fixpoint MergeFrom (fuel : nat) (self other : message) : result message_error message :=
  match fuel with
  | O => Raise MessageFuel
  | S fuel =>
      if negb (cls other =? cls self)%nat then Raise (TypeE "expected the same message class") else
      self ← fold_result (merge_field (fun k m => MergeFrom fuel (Clear (new k)) m) (MergeFrom fuel) other)
               (indexed (cls self)) self;
      Ok (set_unknown (_unknown_fields self ++ _unknown_fields other) self)
  end.

(** [CopyFrom] of another object, and [clone] of [message_codec] *)
Definition CopyFrom (fuel : nat) (self other : message) : result message_error message :=
  if negb (cls other =? cls self)%nat then Raise (TypeE "expected the same message class")
  else MergeFrom fuel (Clear self) other.

Definition clone_message (fuel : nat) (k : nat) (m : message) : result message_error message :=
  CopyFrom fuel (new k) m.

(** ** Required fields *)

Definition _format_map_key (k : scalar) : pystr :=
  match k with
  | StrV s => u "[" ++ [QUOTE] ++ str_replace s [QUOTE] [BACKSLASH; QUOTE] ++ [QUOTE] ++ u "]"
  | BoolV b => if b then u "[true]" else u "[false]"
  | IntV n => u "[" ++ str_of_int n ++ u "]"
  | FloatV _ | BytesV _ => []
  end.

(** [f"{prefix}.{nested}"] for the errors of a nested message *)
Definition nested_errors (find : message -> result message_error (list pystr)) (prefix : pystr) (v : value) :
    result message_error (list pystr) :=
  match v with
  | MessageV m => errors ← find m; Ok (map (fun e : pystr => prefix ++ u "." ++ e) errors)
  | Scalar _ => Ok []
  end.

Definition field_errors (find : message -> result message_error (list pystr)) (m : message)
    (x : nat * Field) : result message_error (list pystr) :=
  let '(i, f) := x in
  let s := get_slot m i in
  let missing := if required f && negb (is_present s) then [proto_name f] else [] in
  nested ←
    (if negb (message_field f) then Ok []
     else if is_present s then
       match cell_of s with Some (One v) => nested_errors find (proto_name f) v | _ => Ok [] end
     else if map_field f then
       es ← traverse (fun '(k, v) => nested_errors find (proto_name f ++ _format_map_key k) v) (entries_of s);
       Ok (concat es)
     else if repeated f then
       es ← traverse (fun '(index, v) =>
              nested_errors find (proto_name f ++ u "[" ++ str_of_int (Z.of_nat index) ++ u "]") v)
              (zip (seq 0 (length (items_of s))) (items_of s));
       Ok (concat es)
     else Ok []);
  Ok (missing ++ nested).

(** [FindInitializationErrors] with [d] levels left. *)
Fixpoint find_initialization_errors (d : nat) (m : message) : result message_error (list pystr) :=
  match d with
  | O => Raise (EncodeE nesting_too_deep [])
  | S d =>
      es ← traverse (field_errors (find_initialization_errors d) m) (indexed (cls m));
      Ok (concat es)
  end.

Definition FindInitializationErrors (m : message) : result message_error (list pystr) :=
  find_initialization_errors (Z.to_nat (_nesting_limit (cls m))) m.

Definition IsInitialized (m : message) : result message_error bool :=
  es ← FindInitializationErrors m; Ok (match es with [] => true | _ => false end).

(** ** Serialization *)

Definition lift_wire {A} (r : result wire_error A) : result message_error A :=
  match r with Ok a => Ok a | Raise e => Raise (WireE e) end.

(** [codec.write(writer, value)] of a codec that is not a message; a value of
    another type does not get into a field. *)
Definition write_scalar (c : codec) : W scalar := fun s w =>
  match c, s with
  | CInt c, IntV n => write c n w
  | CBool, BoolV b => write (BOOL 64) b w
  | CDouble, FloatV x => BinaryWriter.write_double x w
  | CBytes, BytesV b => write BYTES b w
  | CString, StrV s => write STRING s w
  | _, _ => Raise StructError
  end.

Section Serialize.
(** [SerializeToString] of nested messages. *)
Context (serialize : message -> result message_error bytes).

(** [codec.write_value(writer, value, deterministic=...)] *)
Definition write_val (c : codec) (v : value) (w : bytes) : result message_error bytes :=
  match v with
  | MessageV m => b ← serialize m; lift_wire (BinaryWriter.write_bytes b w)
  | Scalar s => lift_wire (write_scalar c s w)
  end.

Definition _write_field (f : Field) (v : value) (w : bytes) : result message_error bytes :=
  w ← lift_wire (BinaryWriter.write_tag (number f) (wire_type_of (codec_of f)) w);
  write_val (codec_of f) v w.

Definition write_entry (f : Field) (kc : codec) (w : bytes) (e : scalar * value) :
    result message_error bytes :=
  nested ← lift_wire (BinaryWriter.write_tag 1 (wire_type_of kc) BinaryWriter.init);
  nested ← lift_wire (write_scalar kc (fst e) nested);
  nested ← lift_wire (BinaryWriter.write_tag 2 (wire_type_of (codec_of f)) nested);
  nested ← write_val (codec_of f) (snd e) nested;
  w ← lift_wire (BinaryWriter.write_tag (number f) WIRE_LENGTH_DELIMITED w);
  lift_wire (BinaryWriter.write_bytes (BinaryWriter.to_bytes nested) w).

Definition scalar_leb (a b : scalar) : bool :=
  match a, b with
  | IntV x, IntV y => x <=? y
  | BoolV x, BoolV y => implb x y
  | StrV x, StrV y => str_leb x y
  | _, _ => true
  end.

Fixpoint insert_entry (e : scalar * value) (l : list (scalar * value)) : list (scalar * value) :=
  match l with
  | [] => [e]
  | e' :: l' => if scalar_leb (fst e) (fst e') then e :: l else e' :: insert_entry e l'
  end.

(** The entries in the order they are written. *)
Definition entry_order (deterministic : bool) (l : list (scalar * value)) : list (scalar * value) :=
  if deterministic then foldr insert_entry [] l else l.

(** The scalars of a list of values. *)
Definition scalars (l : list value) : list scalar :=
  omap (fun v => match v with Scalar s => Some s | MessageV _ => None end) l.

Definition write_slot (deterministic : bool) (f : Field) (s : slot) (w : bytes) :
    result message_error bytes :=
  match map_key_codec f with
  | Some kc => fold_result (write_entry f kc) (entry_order deterministic (entries_of s)) w
  | None =>
      if repeated f then
        match items_of s with
        | [] => Ok w
        | vs =>
            if packed f && packable_of (codec_of f) then
              w ← lift_wire (BinaryWriter.write_tag (number f) WIRE_LENGTH_DELIMITED w);
              lift_wire (BinaryWriter.write_packed (scalars vs) (write_scalar (codec_of f)) w)
            else fold_result (fun w v => _write_field f v w) vs w
        end
      else if _field_has_value f s then
        match cell_of s with
        | Some (One v) => _write_field f v w
        | _ => Raise (TypeE "present field without a value")
        end
      else Ok w
  end.

End Serialize.

(** [sorted(self.__FIELDS__, key=lambda item: item.number)] *)
Fixpoint insert_field (x : nat * Field) (l : list (nat * Field)) : list (nat * Field) :=
  match l with
  | [] => [x]
  | y :: l' => if number (snd x) <=? number (snd y) then x :: l else y :: insert_field x l'
  end.

Definition sorted_fields (c : nat) : list (nat * Field) := foldr insert_field [] (indexed c).

(** [SerializeToString] with [d] levels left. *)
Fixpoint serialize_to_string (d : nat) (deterministic : bool) (m : message) : result message_error bytes :=
  match d with
  | O => Raise (EncodeE nesting_too_deep [])
  | S d =>
      missing ← FindInitializationErrors m;
      match missing with
      | _ :: _ => Raise (EncodeE "Message is missing required fields" missing)
      | [] =>
          w ← fold_result (fun w '(i, f) =>
                write_slot (serialize_to_string d deterministic) deterministic f (get_slot m i) w)
                (sorted_fields (cls m)) BinaryWriter.init;
          Ok (foldl (fun w raw => BinaryWriter.write_raw raw w) w (_unknown_fields m))
      end
  end.

Definition SerializeToString (deterministic : bool) (m : message) : result message_error bytes :=
  serialize_to_string (Z.to_nat (_nesting_limit (cls m))) deterministic m.

Definition ByteSize (m : message) : result message_error Z :=
  b ← SerializeToString false m; Ok (Z.of_nat (length b)).

(** ** Parsing *)

Definition lift_read {A} (m : M A) (r : Reader) : result message_error (A * Reader) :=
  match m r with (Ok a, r') => Ok (a, r') | (Raise e, _) => Raise (WireE e) end.

(** [codec.read(reader)] of a codec that is not a message *)
Definition read_scalar (c : codec) : M scalar :=
  match c with
  | CInt c => n ← read c; mret (IntV n)
  | CBool => b ← read (BOOL 64); mret (BoolV b)
  | CDouble => x ← BinaryReader.read_double; mret (FloatV x)
  | CBytes => b ← read BYTES; mret (BytesV b)
  | CString | CMessage _ => s ← read STRING; mret (StrV s)
  end.

(** [codec.closed_enum and ... value not in codec.enum_values] *)
Definition closed_unknown (c : codec) (v : value) : bool :=
  match c, v with
  | CInt c, Scalar (IntV n) =>
      closed_enum c && match enum_values c with Some l => negb (bool_decide (n ∈ l)) | None => false end
  | _, _ => false
  end.

(** The position of [_fields_by_number().get(n)]: of fields with one number
    the last. *)
Definition field_by_number (c : nat) (n : Z) : option (nat * Field) :=
  foldl (fun acc '(i, f) => if number f =? n then Some (i, f) else acc) None (indexed c).

(** [BinaryReader(payload)] *)
Definition reader (payload : bytes) : Reader := mkReader payload 100 0.

Section Parse.
(** [FromString] of nested messages, and the fuel of [MergeFrom]. *)
Context (from_string : nat -> bytes -> result message_error message) (fuel : nat).

Definition read_val (c : codec) (r : Reader) : result message_error (value * Reader) :=
  match c with
  | CMessage k =>
      '(b, r) ← lift_read BinaryReader.read_bytes r; m ← from_string k b; Ok (MessageV m, r)
  | _ => '(s, r) ← lift_read (read_scalar c) r; Ok (Scalar s, r)
  end.

(** What [_decode_map_entry] keeps: key, value, [value_seen], [invalid]. *)
Record entry : Type := mkEntry { e_key : scalar; e_value : value; e_seen : bool; e_invalid : bool }.

Definition skip_entry (e : entry) (n w start : Z) (r : Reader) : result message_error (entry * Reader) :=
  '(_, r) ← lift_read (BinaryReader.skip_field n w start) r;
  Ok (mkEntry (e_key e) (e_value e) (e_seen e) true, r).

Definition entry_value (c : codec) (e : entry) (decoded : value) : result message_error entry :=
  if closed_unknown c decoded then Ok (mkEntry (e_key e) (e_value e) true true)
  else match e_value e, decoded with
       | MessageV m, MessageV m' =>
           if e_seen e then m ← MergeFrom fuel m m'; Ok (mkEntry (e_key e) (MessageV m) true (e_invalid e))
           else Ok (mkEntry (e_key e) decoded true (e_invalid e))
       | _, _ => Ok (mkEntry (e_key e) decoded true (e_invalid e))
       end.

Definition entry_step (kc c : codec) (e : entry) (r : Reader) : result message_error (entry * Reader) :=
  '(n, w, start, r) ← lift_read BinaryReader.read_tag r;
  if n =? 1 then
    if w =? wire_type_of kc then
      '(k, r) ← lift_read (read_scalar kc) r; Ok (mkEntry k (e_value e) (e_seen e) (e_invalid e), r)
    else skip_entry e n w start r
  else if n =? 2 then
    if w =? wire_type_of c then
      '(decoded, r) ← read_val c r; e ← entry_value c e decoded; Ok (e, r)
    else skip_entry e n w start r
  else skip_entry e n w start r.

(** [while not reader.eof()]; a step reads at least its tag. *)
Fixpoint entry_loop (n : nat) (kc c : codec) (e : entry) (r : Reader) : result message_error entry :=
  if BinaryReader.eof r then Ok e else
  match n with
  | O => Raise MessageFuel
  | S n => '(e, r) ← entry_step kc c e r; entry_loop n kc c e r
  end.

Definition _decode_map_entry (i : nat) (f : Field) (kc : codec) (payload : bytes) (self : message) :
    result message_error (option message) :=
  e ← entry_loop (length payload) kc (codec_of f)
        (mkEntry (scalar_default kc) (codec_default (codec_of f)) false false) (reader payload);
  if e_invalid e then Ok None
  else es ← map_set (clone_message fuel) kc (codec_of f) (entries_of (get_slot self i)) (e_key e, e_value e);
       Ok (Some (set_cell i (Entries es) self)).

(** The encoding [_closed_enum_unknown] keeps of a packed value. *)
Definition packed_unknown (f : Field) (s : scalar) : result message_error bytes :=
  w ← lift_wire (BinaryWriter.write_tag (number f) (wire_type_of (codec_of f)) BinaryWriter.init);
  lift_wire (write_scalar (codec_of f) s w).

(** One value of a packed field: [append], or kept as unknown. *)
Definition packed_value (i : nat) (f : Field) (self : message) (s : scalar) : result message_error message :=
  if closed_unknown (codec_of f) (Scalar s) then raw ← packed_unknown f s; Ok (add_unknown raw self)
  else items ← extend (clone_message fuel) (codec_of f) (items_of (get_slot self i)) [Scalar s];
       Ok (set_cell i (Items items) self).

Definition raw_since (start : Z) (r : Reader) : result message_error bytes :=
  lift_wire (BinaryReader.raw_bytes start None r).

(** The last part of [_try_decode_field]: a singular value. *)
Definition set_singular (i : nat) (f : Field) (decoded : value) (self : message) :
    result message_error message :=
  let self := deselect i f self in
  v ← copy_value (clone_message fuel) (codec_of f) decoded;
  v ← match cell_of (get_slot self i), v with
      | Some (One (MessageV m)), MessageV m' =>
          if message_field f && is_present (get_slot self i)
          then m ← MergeFrom fuel m m'; Ok (MessageV m) else Ok v
      | _, _ => Ok v
      end;
  Ok (_select i f (set_cell i (One v) self)).

(** [_try_decode_field]; [None] when the wire type does not fit. *)
Definition _try_decode_field (i : nat) (f : Field) (w start : Z) (self : message) (r : Reader) :
    result message_error (option (message * Reader)) :=
  match map_key_codec f with
  | Some kc =>
      if negb (w =? WIRE_LENGTH_DELIMITED) then Ok None else
      '(payload, r) ← lift_read BinaryReader.read_bytes r;
      self' ← _decode_map_entry i f kc payload self;
      match self' with
      | Some self => Ok (Some (self, r))
      | None => raw ← raw_since start r; Ok (Some (add_unknown raw self, r))
      end
  | None =>
      if repeated f && packable_of (codec_of f) && (w =? WIRE_LENGTH_DELIMITED) then
        '(vs, r) ← lift_read (BinaryReader.read_packed (read_scalar (codec_of f))) r;
        self ← fold_result (packed_value i f) vs
                 (set_cell i (Items (items_of (get_slot self i))) self);
        Ok (Some (self, r))
      else if negb (w =? wire_type_of (codec_of f)) then Ok None else
      '(decoded, r) ← read_val (codec_of f) r;
      raw ← raw_since start r;
      if closed_unknown (codec_of f) decoded then Ok (Some (add_unknown raw self, r))
      else if repeated f then
        items ← extend (clone_message fuel) (codec_of f) (items_of (get_slot self i)) [decoded];
        Ok (Some (set_cell i (Items items) self, r))
      else self ← set_singular i f decoded self; Ok (Some (self, r))
  end.

Definition keep_unknown (n w start : Z) (self : message) (r : Reader) :
    result message_error (message * Reader) :=
  '(raw, r) ← lift_read (BinaryReader.skip_field n w start) r; Ok (add_unknown raw self, r).

Definition merge_step (self : message) (r : Reader) : result message_error (message * Reader) :=
  '(n, w, start, r) ← lift_read BinaryReader.read_tag r;
  match field_by_number (cls self) n with
  | Some (i, f) =>
      self' ← _try_decode_field i f w start self r;
      match self' with
      | Some x => Ok x
      | None => keep_unknown n w start self r
      end
  | None => keep_unknown n w start self r
  end.

(** [while not reader.eof()] *)
Fixpoint merge_loop (n : nat) (self : message) (r : Reader) : result message_error message :=
  if BinaryReader.eof r then Ok self else
  match n with
  | O => Raise MessageFuel
  | S n => '(self, r) ← merge_step self r; merge_loop n self r
  end.

End Parse.

(** [MergeFromString] with [d] levels left. *)
Fixpoint merge_from_string (d : nat) (payload : bytes) (self : message) : result message_error message :=
  match d with
  | O => Raise (WireE (DecodeError nesting_too_deep))
  | S d =>
      merge_loop (fun k b => merge_from_string d b (Clear (new k))) (S d) (length payload) self (reader payload)
  end.

Definition MergeFromString (payload : bytes) (self : message) : result message_error message :=
  merge_from_string (Z.to_nat (_nesting_limit (cls self))) payload self.

Definition ParseFromString (payload : bytes) (self : message) : result message_error message :=
  MergeFromString payload (Clear self).

Definition FromString (c : nat) (payload : bytes) : result message_error message :=
  ParseFromString payload (new c).

(** ** Assignment *)

(** An assigned Python value: [None], a value of a field, an iterable, a
    mapping, or something else. *)
Inductive py_input : Type :=
| PNone
| PValue (v : value)
| PList (vs : list value)
| PDict (es : list (scalar * value))
| POther.

(** The values an iterable yields; a mapping yields its keys. *)
Definition iterate (x : py_input) : option (list value) :=
  match x with
  | PList vs => Some vs
  | PDict es => Some (map (fun e => Scalar (fst e)) es)
  | PNone | PValue _ | POther => None
  end.

(** [_set_field]; [suspended] while the constructor assigns its arguments. *)
Definition _set_field (fuel : nat) (suspended : bool) (i : nat) (f : Field) (x : py_input) (self : message) :
    result message_error message :=
  let record self := if suspended then self else _record_reset f self in
  match x with
  | PNone => Ok (record (_clear_state i f self))
  | _ =>
      match map_key_codec f with
      | Some kc =>
          match x with
          | PDict es =>
              es ← fold_result (map_set (clone_message fuel) kc (codec_of f)) es [];
              let self := set_cell i (Entries es) self in
              Ok (match es with [] => record self | _ => self end)
          | _ => Raise (TypeE "map field requires a mapping")
          end
      | None =>
          if repeated f then
            match iterate x with
            | Some vs =>
                vs ← extend (clone_message fuel) (codec_of f) [] vs;
                let self := set_cell i (Items vs) self in
                Ok (match vs with [] => record self | _ => self end)
            | None => Raise (TypeE "repeated field requires an iterable")
            end
          else
            match x with
            | PValue v =>
                owned ← _prepare (clone_message fuel) (codec_of f) v;
                let self := set_cell i (One owned) (_select i f self) in
                Ok (if negb (has_presence f) && value_eqb owned (default f) then record self else self)
            | _ => Raise (TypeE "field requires another type")
            end
      end
  end.

End Messages.
