(* ===== verification/MessageInv.v ===== *)
(** * The message invariant

    What a message holds at any time: every slot has the shape and the value
    types of its field, a singular field is marked present only when it has a
    value, and [_oneofs] names exactly the present members, so that at most one
    member of a oneof is present.  Every operation of [Message] keeps it, and
    parsing keeps it on any input. *)
From stdpp Require Import gmap.
From S2P Require Import Prelude PyStr Json FieldMask Bytes Wire WireSpec ValueCodec Message.

(** ** Schemas *)

(** What the fields of a message rely on in an integer codec. *)
Record int_codec_ok (c : ValueCodec Z) : Prop := {
  ic_codec : exists dom, Codec (write c) (read c) dom /\ forall v x, normalize c v = Ok x -> dom x = true;
  ic_write x w : write c x w <> Raise OutOfFuel;
  ic_steady : Steady (read c);
  ic_wire : wire_type c = WIRE_VARINT \/ wire_type c = WIRE_FIXED64 \/ wire_type c = WIRE_FIXED32;
  ic_idem v x : normalize c v = Ok x -> normalize c (VInt x) = Ok x;
  ic_closed x : normalize c (VInt x) = Ok x -> closed_unknown (CInt c) (Scalar (IntV x)) = false;
  ic_default : normalize c (VInt (default_value c)) = Ok (default_value c);
  ic_read r x r' : reader_ok r -> bytes_ok (_data r) = true -> read c r = (Ok x, r') ->
    closed_unknown (CInt c) (Scalar (IntV x)) = true \/ normalize c (VInt x) = Ok x
}.

Definition codec_ok (c : codec) : Prop := match c with CInt c => int_codec_ok c | _ => True end.

Definition key_codec_ok (c : codec) : Prop :=
  match c with CInt c => int_codec_ok c /\ closed_enum c = false | CBool | CString => True | _ => False end.

(** A value a codec's [normalize] returns. *)
Definition scalar_ok (c : codec) (s : scalar) : Prop :=
  match c, s with
  | CInt c, IntV n => normalize c (VInt n) = Ok n
  | CBool, BoolV _ | CDouble, FloatV _ | CBytes, BytesV _ | CString, StrV _ => True
  | _, _ => False
  end.

Definition singular (f : Field) : bool := negb (map_field f) && negb (repeated f).

Record field_ok (f : Field) : Prop := {
  f_codec : codec_ok (codec_of f);
  f_key kc : map_key_codec f = Some kc -> key_codec_ok kc;
  f_number : in_range 1 (_MAX_FIELD_NUMBER + 1) (number f) = true;
  f_oneof o : oneof f = Some o -> singular f = true
}.

(** The numbers of a class are distinct and its fields are declared as the
    generator declares them. *)
Record schema_ok `{Schema} : Prop := {
  s_fields c : Forall field_ok (FIELDS c);
  s_numbers c : NoDup (number <$> FIELDS c);
  s_long : 1 < long_bits
}.
Arguments schema_ok _ : clear implicits.

Section Invariant.
Context `{Schema} (HS : schema_ok _).

Definition value_ok (P : message -> Prop) (c : codec) (v : value) : Prop :=
  match c, v with
  | CMessage k, MessageV m => cls m = k /\ P m
  | CMessage _, Scalar _ => False
  | _, Scalar s => scalar_ok c s
  | _, MessageV _ => False
  end.

Definition entry_ok (P : message -> Prop) (kc c : codec) (e : scalar * value) : Prop :=
  scalar_ok kc e.1 /\ value_ok P c e.2.

Definition cell_ok (P : message -> Prop) (f : Field) (x : cell) : Prop :=
  match map_key_codec f, x with
  | Some kc, Entries es => dict_wf es /\ Forall (entry_ok P kc (codec_of f)) es
  | None, Items l => repeated f = true /\ Forall (value_ok P (codec_of f)) l
  | None, One v => repeated f = false /\ value_ok P (codec_of f) v
  | _, _ => False
  end.

Record slot_ok (P : message -> Prop) (f : Field) (s : slot) : Prop := {
  sl_cell x : cell_of s = Some x -> cell_ok P f x;
  sl_present : is_present s = true -> singular f = true /\ has_presence f = true /\ cell_of s <> None
}.

Definition oneofs_ok (m : message) : Prop :=
  forall o i, _oneofs m !! o = Some i <->
    exists f, FIELDS (cls m) !! i = Some f /\ oneof f = Some o /\ is_present (get_slot m i) = true.

Lemma value_ok_mono (P Q : message -> Prop) c v : (forall m, P m -> Q m) -> value_ok P c v -> value_ok Q c v.
Proof. intros HPQ. destruct c, v; simpl; try done. naive_solver. Qed.

Lemma cell_ok_mono (P Q : message -> Prop) f x : (forall m, P m -> Q m) -> cell_ok P f x -> cell_ok Q f x.
Proof.
  intros HPQ. unfold cell_ok. destruct (map_key_codec f), x; try done; intros [? Hx]; (split; [done|]).
  - eapply Forall_impl; [exact Hx|]. intros e [? ?]. split; [done|by eapply value_ok_mono].
  - by eapply value_ok_mono.
  - eapply Forall_impl; [exact Hx|]. intros v ?. by eapply value_ok_mono.
Qed.

Lemma singular_keys f : singular f = true <-> map_key_codec f = None /\ repeated f = false.
Proof. unfold singular, map_field. destruct (map_key_codec f), (repeated f); naive_solver. Qed.

(** The shape of the cell of a singular field. *)
Lemma cell_ok_one P f v :
  singular f = true -> value_ok P (codec_of f) v -> cell_ok P f (One v).
Proof. intros [Hk Hr]%singular_keys Hv. unfold cell_ok. by rewrite Hk. Qed.

Lemma slot_one P f s x :
  slot_ok P f s -> singular f = true -> cell_of s = Some x -> exists v, x = One v /\ value_ok P (codec_of f) v.
Proof.
  intros [Hc _] [Hk Hr]%singular_keys Hx. specialize (Hc x Hx). unfold cell_ok in Hc.
  rewrite Hk in Hc. destruct x as [v|l|l]; try done; [naive_solver|]. by rewrite Hr in Hc; destruct Hc.
Qed.

(** What is known of the unknown fields of a class. *)
Context (U : nat -> bytes -> Prop).

Record body_ok (P : message -> Prop) (m : message) : Prop := {
  b_slots : Forall2 (slot_ok P) (FIELDS (cls m)) (slots m);
  b_oneofs : oneofs_ok m;
  b_unknown : Forall (U (cls m)) (_unknown_fields m)
}.

(** A message with at most [n] levels. *)
Fixpoint message_ok (n : nat) (m : message) : Prop :=
  match n with O => False | S n => body_ok (message_ok n) m end.

(** *** Monotonicity *)

Lemma body_ok_mono (P Q : message -> Prop) m : (forall m, P m -> Q m) -> body_ok P m -> body_ok Q m.
Proof.
  intros HPQ [Hs Ho Hu]. split; [|done..]. eapply Forall2_impl; [exact Hs|].
  intros f s [Hc Hp]. split; [|done]. intros x Hx. eapply cell_ok_mono; eauto.
Qed.

Lemma message_ok_S n m : message_ok n m -> message_ok (S n) m.
Proof.
  revert m. induction n as [|n IH]; intros m; [done|]. intros Hm.
  cbn [message_ok] in *. eapply body_ok_mono; [|exact Hm]. exact IH.
Qed.

Lemma message_ok_mono n k m : (n <= k)%nat -> message_ok n m -> message_ok k m.
Proof. induction 1; [done|]. intros ?. by apply message_ok_S, IHle. Qed.

(** *** Slots *)

Lemma get_set_slot m i j s :
  (i < length (slots m))%nat -> get_slot (set_slot i s m) j = if decide (j = i) then s else get_slot m j.
Proof.
  intros Hi. unfold get_slot, set_slot. simpl. case_decide.
  - subst. by rewrite list_lookup_insert_eq by done.
  - by rewrite list_lookup_insert_ne by done.
Qed.

Lemma body_length P m : body_ok P m -> length (slots m) = length (FIELDS (cls m)).
Proof. intros [Hs _ _]. symmetry. by eapply Forall2_length. Qed.

Lemma body_slot P m i f :
  body_ok P m -> FIELDS (cls m) !! i = Some f -> slot_ok P f (get_slot m i) /\ (i < length (slots m))%nat.
Proof.
  intros [Hs _ _] Hf. destruct (Forall2_lookup_l _ _ _ _ _ Hs Hf) as (s & Hl & Hok).
  unfold get_slot. rewrite Hl. split; [done|]. by eapply lookup_lt_Some.
Qed.

(** Replacing a slot by one with the same presence. *)
Lemma set_slot_ok P m i f s :
  body_ok P m -> FIELDS (cls m) !! i = Some f -> slot_ok P f s ->
  is_present s = is_present (get_slot m i) -> body_ok P (set_slot i s m).
Proof.
  intros Hm Hf Hok Hp. destruct (body_slot P m i f Hm Hf) as [_ Hi]. destruct Hm as [Hs Ho Hu].
  split; [|..|done].
  - change (cls (set_slot i s m)) with (cls m). change (slots (set_slot i s m)) with (<[i := s]> (slots m)).
    rewrite <- (list_insert_id (FIELDS (cls m)) i f Hf). by apply Forall2_insert.
  - intros o j. change (_oneofs (set_slot i s m)) with (_oneofs m). rewrite (Ho o j).
    change (cls (set_slot i s m)) with (cls m). rewrite get_set_slot by done.
    case_decide; [subst; by rewrite Hp|done].
Qed.

Lemma set_cell_ok P m i f x :
  body_ok P m -> FIELDS (cls m) !! i = Some f -> cell_ok P f x -> body_ok P (set_cell i x m).
Proof.
  intros Hm Hf Hx. destruct (body_slot P m i f Hm Hf) as [[Hc Hp] _].
  eapply set_slot_ok; [done..| |done]. split; simpl.
  - by intros y [= <-].
  - intros Hpr. by destruct (Hp Hpr) as (? & ? & _).
Qed.

Lemma add_unknown_ok P m raw : body_ok P m -> U (cls m) raw -> body_ok P (add_unknown raw m).
Proof. intros [Hs Ho Hu] Hr. split; [done..|]. simpl. apply Forall_app. by repeat constructor. Qed.

(** ** Presence *)

Lemma clear_state_ok P m i f :
  body_ok P m -> FIELDS (cls m) !! i = Some f -> body_ok P (_clear_state i f m).
Proof.
  intros Hm Hf. destruct (body_slot P m i f Hm Hf) as [[Hc Hp] Hi]. unfold _clear_state, map_field.
  destruct (map_key_codec f) as [kc|] eqn:Ek.
  { destruct (cell_of (get_slot m i)); [|done]. eapply set_cell_ok; [done..|].
    unfold cell_ok. rewrite Ek. split; [by apply NoDup_nil|constructor]. }
  destruct (repeated f) eqn:Er.
  { destruct (cell_of (get_slot m i)); [|done]. eapply set_cell_ok; [done..|].
    unfold cell_ok. rewrite Ek. by split; [|constructor]. }
  pose proof Hm as [Hs Ho Hu].
  assert (Forall2 (slot_ok P) (FIELDS (cls m)) (<[i := no_slot]> (slots m))) as Hs'.
  { rewrite <- (list_insert_id (FIELDS (cls m)) i f Hf). apply Forall2_insert; [done|]. by split. }
  assert (forall j, get_slot (set_slot i no_slot m) j = if decide (j = i) then no_slot else get_slot m j)
    as Hget by (intros j; by apply get_set_slot).
  destruct (oneof f) as [o|] eqn:Eo.
  - case_decide as Hd; (split; [done| |done]); intros o' j.
    + change (cls (set_oneofs _ _)) with (cls m). simpl. unfold get_slot. simpl.
      fold (set_slot i no_slot m). specialize (Hget j). unfold get_slot in Hget. simpl in Hget.
      rewrite Hget, lookup_delete_Some, (Ho o' j). simpl in Hd. split.
      * intros [Hne (f' & H1 & H2 & H3)]. exists f'. split; [done|]. split; [done|].
        rewrite decide_False; [done|]. intros ->. naive_solver.
      * intros (f' & H1 & H2 & H3). destruct (decide (j = i)) as [->|Hji]; [done|]. split; [|by eauto].
        intros <-. apply Hji. apply (inj Some). rewrite <- Hd. symmetry. apply Ho. eauto.
    + rewrite Hget. change (_oneofs (set_slot i no_slot m)) with (_oneofs m) in *.
      change (cls (set_slot i no_slot m)) with (cls m). rewrite (Ho o' j). split.
      * intros (f' & H1 & H2 & H3). exists f'. split; [done|]. split; [done|].
        rewrite decide_False; [done|]. intros ->. apply Hd. apply Ho. rewrite Hf in H1.
        injection H1 as <-. rewrite Eo in H2. injection H2 as <-. eauto.
      * intros (f' & H1 & H2 & H3). by destruct (decide (j = i)); [|eauto].
  - split; [done| |done]. intros o' j. rewrite Hget.
    change (_oneofs (set_slot i no_slot m)) with (_oneofs m).
    change (cls (set_slot i no_slot m)) with (cls m). rewrite (Ho o' j). split.
    + intros (f' & H1 & H2 & H3). exists f'. split; [done|]. split; [done|].
      rewrite decide_False; [done|]. intros ->. naive_solver.
    + intros (f' & H1 & H2 & H3). by destruct (decide (j = i)); [|eauto].
Qed.

(** Selecting a member when no other one of its oneof is selected. *)
Definition chosen (i : nat) (f : Field) (m : message) : message :=
  match oneof f with Some o => set_oneofs (<[o := i]> (_oneofs m)) m | None => m end.

Lemma mark_ok P m i f :
  body_ok P m -> FIELDS (cls m) !! i = Some f -> singular f = true -> has_presence f = true ->
  cell_of (get_slot m i) <> None ->
  (forall o j, oneof f = Some o -> _oneofs m !! o = Some j -> j = i) ->
  body_ok P (mark_present i (chosen i f m)).
Proof.
  intros Hm Hf Hsg Hp Hcell Hsel. destruct (body_slot P m i f Hm Hf) as [[Hc _] Hi].
  destruct Hm as [Hs Ho Hu].
  assert (cls (chosen i f m) = cls m /\ slots (chosen i f m) = slots m /\
    _unknown_fields (chosen i f m) = _unknown_fields m) as (E1 & E2 & E3)
    by (unfold chosen; by destruct (oneof f)).
  assert (forall j, get_slot (mark_present i (chosen i f m)) j =
    if decide (j = i) then mkSlot (cell_of (get_slot m i)) true else get_slot m j) as Hget.
  { intros j. unfold mark_present. rewrite get_set_slot by by rewrite E2. unfold get_slot. by rewrite E2. }
  split.
  - change (cls (mark_present i (chosen i f m))) with (cls (chosen i f m)). rewrite E1.
    unfold mark_present. simpl. rewrite E2. replace (get_slot (chosen i f m) i) with (get_slot m i)
      by (unfold get_slot; by rewrite E2).
    rewrite <- (list_insert_id (FIELDS (cls m)) i f Hf). apply Forall2_insert; [done|]. by split.
  - intros o j. change (cls (mark_present i (chosen i f m))) with (cls (chosen i f m)).
    change (_oneofs (mark_present i (chosen i f m))) with (_oneofs (chosen i f m)).
    rewrite E1, Hget. unfold chosen.
    assert ((exists f', FIELDS (cls m) !! j = Some f' /\ oneof f' = Some o /\
        is_present (if decide (j = i) then mkSlot (cell_of (get_slot m i)) true else get_slot m j) = true) <->
      (j = i /\ oneof f = Some o) \/ (j <> i /\ _oneofs m !! o = Some j)) as ->.
    { rewrite (Ho o j). destruct (decide (j = i)) as [->|Hji]; simpl; naive_solver. }
    destruct (oneof f) as [o'|] eqn:Eo; simpl.
    + rewrite lookup_insert_Some. destruct (decide (o' = o)) as [->|Hne]; [naive_solver|].
      destruct (decide (j = i)) as [->|]; [|naive_solver]. rewrite (Ho o i). naive_solver.
    + destruct (decide (j = i)) as [->|]; [|naive_solver]. rewrite (Ho o i). naive_solver.
  - change (cls (mark_present i (chosen i f m))) with (cls (chosen i f m)).
    change (_unknown_fields (mark_present i (chosen i f m))) with (_unknown_fields (chosen i f m)).
    by rewrite E1, E3.
Qed.

Lemma cls_clear_state i f m : cls (_clear_state i f m) = cls m.
Proof.
  unfold _clear_state. destruct (map_field f); [by destruct (cell_of _)|].
  destruct (repeated f); [by destruct (cell_of _)|]. destruct (oneof f); [|done]. by case_decide.
Qed.

Lemma get_clear_state i f m j : j <> i -> get_slot (_clear_state i f m) j = get_slot m j.
Proof.
  intros Hne. unfold _clear_state. unfold get_slot, set_cell, set_slot.
  destruct (map_field f); [destruct (cell_of _); simpl; by rewrite ?list_lookup_insert_ne|].
  destruct (repeated f); [destruct (cell_of _); simpl; by rewrite ?list_lookup_insert_ne|].
  destruct (oneof f); [case_decide|]; simpl; by rewrite list_lookup_insert_ne.
Qed.

Lemma deselect_ok P m i f :
  body_ok P m -> FIELDS (cls m) !! i = Some f ->
  body_ok P (deselect i f m) /\ cls (deselect i f m) = cls m /\
  get_slot (deselect i f m) i = get_slot m i /\
  forall o j, oneof f = Some o -> _oneofs (deselect i f m) !! o = Some j -> j = i.
Proof.
  intros Hm Hf. unfold deselect. destruct (oneof f) as [o|] eqn:Eo; [|by split_and!].
  destruct (_oneofs m !! o) as [j|] eqn:Ej; [|by split_and!; naive_solver].
  destruct (decide (j = i)) as [->|Hne]; [by split_and!; naive_solver|].
  unfold clear_index. destruct (b_oneofs _ _ Hm o j) as [Hx _].
  destruct (Hx Ej) as (fj & Hfj & Hoj & Hpj). rewrite Hfj.
  destruct (body_slot P m j fj Hm Hfj) as [[_ Hp] _]. destruct (Hp Hpj) as (Hsg & _).
  split; [by apply clear_state_ok|]. split; [apply cls_clear_state|].
  split; [by apply get_clear_state|]. intros o' j' [= <-]. unfold _clear_state.
  apply singular_keys in Hsg as [Hk Hr]. unfold map_field. rewrite Hk, Hr, Hoj. simpl.
  rewrite decide_True by done. simpl. by rewrite lookup_delete_eq.
Qed.

Lemma select_unfold i f m :
  _select i f m =
  (let m' := chosen i f (deselect i f m) in if has_presence f then mark_present i m' else m').
Proof. unfold _select, chosen, deselect. by destruct (oneof f). Qed.

Lemma oneof_presence f o : oneof f = Some o -> has_presence f = true.
Proof. intros Ho. unfold has_presence. rewrite Ho. by rewrite !orb_true_r. Qed.

Lemma select_ok P m i f :
  body_ok P m -> FIELDS (cls m) !! i = Some f -> singular f = true ->
  cell_of (get_slot m i) <> None -> body_ok P (_select i f m) /\ cls (_select i f m) = cls m.
Proof.
  intros Hm Hf Hsg Hc. destruct (deselect_ok P m i f Hm Hf) as (Hd & Ecls & Eslot & Hsel).
  rewrite select_unfold. cbv zeta. destruct (has_presence f) eqn:Ep.
  - split; [apply mark_ok; by rewrite ?Ecls, ?Eslot|].
    change (cls (chosen i f (deselect i f m)) = cls m). unfold chosen. by destruct (oneof f).
  - unfold chosen. destruct (oneof f) as [o|] eqn:Eo; [|done].
    by rewrite (oneof_presence f o Eo) in Ep.
Qed.

(** Setting a value and selecting the field commute. *)
Lemma set_one_ok P m i f v :
  body_ok P m -> FIELDS (cls m) !! i = Some f -> singular f = true -> value_ok P (codec_of f) v ->
  body_ok P (_select i f (set_cell i (One v) m)) /\ cls (_select i f (set_cell i (One v) m)) = cls m.
Proof.
  intros Hm Hf Hsg Hv. pose proof (body_slot P m i f Hm Hf) as [_ Hi].
  destruct (select_ok P (set_cell i (One v) m) i f) as [H1 H2]; [|done|done| |done].
  - eapply set_cell_ok; [done..|]. by apply cell_ok_one.
  - unfold set_cell. rewrite get_set_slot by done. by rewrite decide_True.
Qed.

Lemma new_ok P c : body_ok P (new c).
Proof.
  split; simpl.
  - apply Forall2_same_length_lookup_2; [by rewrite length_replicate|].
    intros i f s _ [-> _]%lookup_replicate. by split.
  - intros o i. split; [intros E; exfalso; exact (lookup_empty_Some o i E)|]. intros (f & _ & _ & Hp). exfalso.
    unfold get_slot in Hp. simpl in Hp. destruct (replicate _ _ !! i) as [s|] eqn:E; [|done].
    apply lookup_replicate in E as [-> _]. done.
  - constructor.
Qed.

Lemma indexed_lookup c i f : (i, f) ∈ indexed c <-> FIELDS c !! i = Some f.
Proof.
  unfold indexed. rewrite list_elem_of_lookup. split.
  - intros [k Hk]. apply lookup_zip_Some in Hk as [[-> _]%lookup_seq Hk]. done.
  - intros Hf. exists i. apply lookup_zip_Some. split; [|done]. apply lookup_seq.
    split; [done|]. by eapply lookup_lt_Some.
Qed.

Lemma Clear_ok P m : body_ok P m -> body_ok P (Clear m) /\ cls (Clear m) = cls m.
Proof.
  intros Hm. unfold Clear.
  assert (forall l m', body_ok P m' -> cls m' = cls m -> (forall x, x ∈ l -> x ∈ indexed (cls m)) ->
    let m'' := foldl (fun m '(i, f) => _clear_state i f m) m' l in body_ok P m'' /\ cls m'' = cls m) as Hl.
  { induction l as [|[i f] l IH]; intros m' Hm' Ec Hin; [done|]. cbn [foldl]. apply IH.
    - apply clear_state_ok; [done|]. rewrite Ec. apply indexed_lookup, Hin. left.
    - by rewrite cls_clear_state.
    - intros x Hx. apply Hin. by right. }
  destruct (Hl (indexed (cls m)) m Hm eq_refl ltac:(done)) as [[Hs _ _] Ec].
  set (m' := foldl _ _ _) in *. split; [|done]. split; simpl; [|..|constructor].
  - apply Forall2_fmap_r. eapply Forall2_impl; [exact Hs|]. intros f s [Hc Hp]. by split.
  - intros o i. split; [intros E; exfalso; exact (lookup_empty_Some o i E)|]. intros (f & _ & _ & Hp). exfalso.
    unfold get_slot in Hp. simpl in Hp. rewrite list_lookup_fmap in Hp. by destruct (slots m' !! i).
Qed.

Lemma record_reset_ok P m f : body_ok P m -> body_ok P (_record_reset f m).
Proof. intros [Hs Ho Hu]. by split. Qed.

End Invariant.
