(* ===== verification/MessageOps.v ===== *)
(** * The operations keep the message invariant

    Merging and copying well-formed messages succeeds and gives a well-formed
    message; assignment and parsing give a well-formed message or raise. *)
From stdpp Require Import gmap.
From S2P Require Import Prelude PyStr Json FieldMask Bytes Wire WireSpec ValueCodec Message MessageInv.

(** [r] is a value that satisfies [Q]. *)
Definition returns {A} (r : result message_error A) (Q : A -> Prop) : Prop := exists a, r = Ok a /\ Q a.

(** [r] is a value that satisfies [Q], or an error other than the model's
    running out of fuel. *)
Definition returns_or_raises {A} (r : result message_error A) (Q : A -> Prop) : Prop :=
  match r with Ok a => Q a | Raise e => e <> MessageFuel /\ e <> WireE OutOfFuel end.

Lemma returns_bind {A B} (r : result message_error A) (k : A -> result message_error B) Q R :
  returns r Q -> (forall a, Q a -> returns (k a) R) -> returns (r ≫= k) R.
Proof. intros (a & -> & Ha) Hk. exact (Hk a Ha). Qed.

Lemma ror_bind {A B} (r : result message_error A) (k : A -> result message_error B) Q R :
  returns_or_raises r Q -> (forall a, Q a -> returns_or_raises (k a) R) -> returns_or_raises (r ≫= k) R.
Proof. destruct r; simpl; auto. Qed.

Lemma returns_ror {A} (r : result message_error A) Q : returns r Q -> returns_or_raises r Q.
Proof. by intros (a & -> & Ha). Qed.

Lemma ror_impl {A} (r : result message_error A) (Q R : A -> Prop) :
  returns_or_raises r Q -> (forall a, Q a -> R a) -> returns_or_raises r R.
Proof. destruct r; simpl; auto. Qed.

Lemma fold_returns {A S} (f : S -> A -> result message_error S) (I : S -> Prop) l s :
  (forall s a, I s -> a ∈ l -> returns (f s a) I) -> I s -> returns (fold_result f l s) I.
Proof.
  revert s. induction l as [|a l IH]; intros s Hf Hs; [by exists s|]. cbn [fold_result].
  eapply returns_bind; [apply Hf; [done|left]|]. intros s' Hs'. apply IH; [|done].
  intros s'' a' ??. apply Hf; [done|by right].
Qed.

Lemma fold_ror {A S} (f : S -> A -> result message_error S) (I : S -> Prop) l s :
  (forall s a, I s -> a ∈ l -> returns_or_raises (f s a) I) -> I s -> returns_or_raises (fold_result f l s) I.
Proof.
  revert s. induction l as [|a l IH]; intros s Hf Hs; [done|]. cbn [fold_result].
  eapply ror_bind; [apply Hf; [done|left]|]. intros s' Hs'. apply IH; [|done].
  intros s'' a' ??. apply Hf; [done|by right].
Qed.

Lemma traverse_returns {A B} (f : A -> result message_error B) (Q : B -> Prop) l :
  (forall a, a ∈ l -> returns (f a) Q) -> returns (traverse f l) (Forall Q).
Proof.
  induction l as [|a l IH]; intros Hf; [exists []; split; [done|constructor]|]. cbn [traverse].
  eapply returns_bind; [apply Hf; left|]. intros b Hb.
  eapply returns_bind; [apply IH; intros a' ?; apply Hf; by right|]. intros bs Hbs.
  exists (b :: bs). split; [done|by constructor].
Qed.

Lemma traverse_ror {A B} (f : A -> result message_error B) (Q : B -> Prop) l :
  (forall a, a ∈ l -> returns_or_raises (f a) Q) -> returns_or_raises (traverse f l) (Forall Q).
Proof.
  induction l as [|a l IH]; intros Hf; [constructor|]. cbn [traverse].
  eapply ror_bind; [apply Hf; left|]. intros b Hb.
  eapply ror_bind; [apply IH; intros a' ?; apply Hf; by right|]. intros bs Hbs. by constructor.
Qed.

Section Ops.
Context `{Schema} (HS : schema_ok _).

(** *** Normalising *)

Lemma normalize_value_ok P c v : value_ok P c v -> normalize_value c v = Ok v.
Proof.
  intros Hv. destruct c as [c| | | | |k], v as [[]|m]; simpl in *; try done.
  - by rewrite Hv.
  - pose proof (law_inject _ _ _ (bool_lawful long_bits (s_long HS)) b eq_refl) as Hb.
    simpl in Hb. by rewrite Hb.
  - destruct Hv as [-> _]. by rewrite decide_True.
Qed.

Lemma normalize_key_ok kc k : key_codec_ok kc -> scalar_ok kc k -> normalize_key kc k = Ok k.
Proof.
  intros Hk Hok. unfold normalize_key.
  rewrite (normalize_value_ok (fun _ => True) kc (Scalar k)); [done|]. by destruct kc.
Qed.

(** The message in a value. *)
Definition holds (P : message -> Prop) (v : value) : Prop :=
  match v with MessageV m => P m | Scalar _ => True end.

Lemma normalize_typed P c v :
  codec_ok c -> holds P v -> returns_or_raises (normalize_value c v) (value_ok P c).
Proof.
  intros Hc Hv. destruct c as [c| | | | |k]; simpl.
  - unfold coerce. destruct (normalize c (as_py v)) as [n|] eqn:E; [|done]. simpl. by eapply ic_idem.
  - unfold coerce. by destruct (_bool _ _).
  - destruct v as [[]|m]; simpl; try done; unfold coerce; by destruct (float_of_int _).
  - unfold coerce. by destruct (_bytes _).
  - unfold coerce. by destruct (_string _).
  - destruct v as [s|m]; [done|]. by case_decide.
Qed.

(** ** Containers *)

Section Containers.
Context (P : message -> Prop) (clone : nat -> message -> result message_error message).
Context (Hclone : forall m, P m -> returns (clone (cls m) m) (fun m' => cls m' = cls m /\ P m')).

Lemma copy_value_ok c v : value_ok P c v -> returns (copy_value clone c v) (value_ok P c).
Proof.
  intros Hv. destruct c as [| | | | |k], v as [s|m]; simpl in *; try done; try by eexists.
  destruct Hv as [<- Hm]. eapply returns_bind; [by apply Hclone|].
  intros m' [Ec Hm']. by exists (MessageV m').
Qed.

Lemma prepare_ok c v : value_ok P c v -> returns (_prepare clone c v) (value_ok P c).
Proof. intros Hv. unfold _prepare. rewrite (normalize_value_ok P) by done. by apply copy_value_ok. Qed.

Lemma prepare_typed c v :
  codec_ok c -> holds P v -> returns_or_raises (_prepare clone c v) (value_ok P c).
Proof.
  intros Hc Hv. unfold _prepare. eapply ror_bind; [by apply normalize_typed|].
  intros v' Hv'. by apply returns_ror, copy_value_ok.
Qed.

Lemma extend_typed c vs :
  codec_ok c -> Forall (holds P) vs -> returns_or_raises (extend clone c [] vs) (Forall (value_ok P c)).
Proof.
  intros Hc Hv. unfold extend. rewrite Forall_forall in Hv.
  eapply ror_bind; [apply traverse_ror; intros v ?; apply prepare_typed; [done|by apply Hv]|]. done.
Qed.

Definition entries_ok (kc c : codec) (es : list (scalar * value)) : Prop :=
  dict_wf es /\ Forall (entry_ok P kc c) es.

Lemma dict_set_ok kc c es k v :
  entries_ok kc c es -> scalar_ok kc k -> value_ok P c v -> entries_ok kc c (dict_set es k v).
Proof.
  intros [Hwf Hall] Hk Hv. split; [by apply dict_set_wf|]. rewrite Forall_forall in *.
  intros e [->|?]%dict_set_elem; [by split|by apply Hall].
Qed.

Lemma normalize_key_typed kc k :
  key_codec_ok kc -> returns_or_raises (normalize_key kc k) (scalar_ok kc).
Proof.
  intros Hkc. unfold normalize_key. eapply ror_bind.
  - apply (normalize_typed (fun _ => True)); [|done]. by destruct kc; try done; destruct Hkc.
  - intros [s|m] Hv; [|by destruct kc]. by destruct kc.
Qed.

Lemma map_set_typed kc c es e :
  key_codec_ok kc -> codec_ok c -> entries_ok kc c es -> holds P e.2 ->
  returns_or_raises (map_set clone kc c es e) (entries_ok kc c).
Proof.
  intros Hkc Hc Hes Hv. unfold map_set. eapply ror_bind; [by apply normalize_key_typed|]. intros k Hk.
  eapply ror_bind; [by apply prepare_typed|]. intros v' Hv'. by apply dict_set_ok.
Qed.

End Containers.

(** ** Merging *)

Lemma Clear_new k : Clear (new k) = new k.
Proof.
  unfold Clear. assert (forall l, foldl (fun m '(i, f) => _clear_state i f m) (new k) l = new k) as ->.
  { induction l as [|[i f] l IH]; [done|]. cbn [foldl].
    enough (_clear_state i f (new k) = new k) as -> by done. unfold _clear_state.
    assert (get_slot (new k) i = no_slot) as Hg.
    { unfold get_slot. simpl. destruct (replicate _ _ !! i) eqn:E; [|done].
      by apply lookup_replicate in E as [-> _]. }
    rewrite Hg. simpl. destruct (map_field f); [done|]. destruct (repeated f); [done|].
    assert (set_slot i no_slot (new k) = new k) as ->.
    { unfold set_slot, new. simpl. f_equal. apply list_eq. intros j.
      destruct (decide (j = i)) as [->|]; [|by rewrite list_lookup_insert_ne].
      destruct (decide (i < length (FIELDS k))%nat) as [Hi|Hi].
      - rewrite list_lookup_insert_eq by by rewrite length_replicate. symmetry. by apply lookup_replicate.
      - rewrite !lookup_ge_None_2; [done|..]; rewrite ?length_insert, length_replicate; lia. }
    destruct (oneof f); [|done]. by rewrite decide_False by (by rewrite lookup_empty). }
  unfold new. simpl. f_equal. apply list_eq. intros j. rewrite list_lookup_fmap.
  destruct (replicate _ _ !! j) as [s|] eqn:E; [|done]. by apply lookup_replicate in E as [-> _].
Qed.

Section MergeField.
(** The nested messages of [self] satisfy [P], those of [other] [Q]. *)
Context (P Q : message -> Prop) (HQP : forall m, Q m -> P m).
Context (clone : nat -> message -> result message_error message).
Context (mf : message -> message -> result message_error message).
Context (Hclone : forall m, Q m -> returns (clone (cls m) m) (fun m' => cls m' = cls m /\ Q m')).
Context (Hmf : forall m m', P m -> Q m' -> cls m = cls m' ->
  returns (mf m m') (fun r => cls r = cls m /\ P r)).

Lemma copy_into c v : value_ok Q c v -> returns (copy_value clone c v) (value_ok Q c).
Proof. by apply copy_value_ok. Qed.

Lemma prepare_into c v : value_ok Q c v -> returns (_prepare clone c v) (value_ok P c).
Proof.
  intros Hv. destruct (prepare_ok Q clone Hclone c v Hv) as (v' & -> & ?). exists v'.
  split; [done|by eapply value_ok_mono].
Qed.

(** What [merge_field] leaves of a field's own items and entries. *)
Lemma items_ok R f s :
  slot_ok R f s -> map_key_codec f = None -> repeated f = true -> Forall (value_ok R (codec_of f)) (items_of s).
Proof.
  intros [Hc _] Hk Hr. unfold items_of. destruct (cell_of s) as [[|l|]|]; try constructor.
  specialize (Hc _ eq_refl). unfold cell_ok in Hc. rewrite Hk in Hc. by destruct Hc.
Qed.

Lemma slot_entries_ok R f s kc :
  slot_ok R f s -> map_key_codec f = Some kc -> entries_ok R kc (codec_of f) (entries_of s).
Proof.
  intros [Hc _] Hk. unfold entries_of. destruct (cell_of s) as [[| |l]|];
    try (split; [by apply NoDup_nil|constructor]).
  specialize (Hc _ eq_refl). unfold cell_ok in Hc. by rewrite Hk in Hc.
Qed.

Lemma map_set_into kc c es e :
  key_codec_ok kc -> entries_ok P kc c es -> entry_ok Q kc c e ->
  returns (map_set clone kc c es e) (entries_ok P kc c).
Proof.
  intros Hkc Hes [Hk Hv]. unfold map_set. rewrite normalize_key_ok by done. cbn [mbind result_bind].
  eapply returns_bind; [by apply prepare_into|]. intros v' Hv'.
  eexists. split; [done|]. by apply dict_set_ok.
Qed.

Lemma merge_entries kc c es es0 :
  key_codec_ok kc -> entries_ok P kc c es0 -> Forall (entry_ok Q kc c) es ->
  returns (fold_result (map_set clone kc c) es es0) (entries_ok P kc c).
Proof.
  intros Hkc H0 Hes. rewrite Forall_forall in Hes. apply fold_returns; [|done].
  intros es1 e H1 He. apply map_set_into; auto.
Qed.

Lemma merge_items c items vs :
  Forall (value_ok P c) items -> Forall (value_ok Q c) vs ->
  returns (extend clone c items vs) (Forall (value_ok P c)).
Proof.
  intros Hi Hv. unfold extend. rewrite Forall_forall in Hv.
  eapply returns_bind; [apply traverse_returns; intros v ?; by apply prepare_into, Hv|].
  intros bs Hbs. exists (items ++ bs). split; [done|by apply Forall_app].
Qed.

(** The value of a singular field, merged into the one of [self]. *)
Lemma merge_value f s v :
  slot_ok P f s -> singular f = true -> value_ok Q (codec_of f) v ->
  returns
    (match cell_of s, v with
     | Some (One (MessageV m)), MessageV m' =>
         if message_field f && is_present s then m ← mf m m'; Ok (MessageV m) else Ok v
     | _, _ => Ok v
     end) (value_ok P (codec_of f)).
Proof.
  intros Hs Hsg Hv. assert (value_ok P (codec_of f) v) as HvP by by eapply value_ok_mono.
  assert (returns (Ok v : result message_error value) (value_ok P (codec_of f))) as Hid by by exists v.
  destruct (cell_of s) as [x|] eqn:Ex; [|done].
  destruct (slot_one P f s x Hs Hsg Ex) as (v0 & -> & Hv0).
  destruct v0 as [|m]; [done|]. destruct v as [|m']; [done|].
  destruct (message_field f && is_present s); [|done].
  destruct (codec_of f) as [| | | | |k] eqn:Ec; try done. simpl in Hv, Hv0.
  destruct Hv as [E1 Hm'], Hv0 as [E2 Hm].
  eapply returns_bind; [apply Hmf; [done|done|congruence]|]. intros r [Er Hr].
  exists (MessageV r). split; [done|]. simpl. split; [congruence|done].
Qed.

Context (U : nat -> bytes -> Prop).

Lemma merge_field_ok other self i f :
  body_ok U Q other -> body_ok U P self -> cls other = cls self -> FIELDS (cls self) !! i = Some f ->
  returns (merge_field clone mf other self (i, f)) (fun r => body_ok U P r /\ cls r = cls self).
Proof.
  intros Ho Hs Ec Hf. assert (returns (Ok self : result message_error message)
    (fun r => body_ok U P r /\ cls r = cls self)) as Hid by by exists self.
  assert (FIELDS (cls other) !! i = Some f) as Hfo by by rewrite Ec.
  destruct (body_slot _ _ _ _ _ Ho Hfo) as [Hso _]. destruct (body_slot _ _ _ _ _ Hs Hf) as [Hss _].
  pose proof (proj1 (Forall_forall _ _) (s_fields HS (cls self)) f
    (list_elem_of_lookup_2 _ _ _ Hf)) as Hfok.
  unfold merge_field. destruct (map_key_codec f) as [kc|] eqn:Ek.
  { pose proof (slot_entries_ok Q f _ kc Hso Ek) as [_ Hes].
    destruct (entries_of (get_slot other i)) as [|e es] eqn:Ee; [done|].
    eapply returns_bind.
    - apply merge_entries; [by eapply f_key|by eapply slot_entries_ok|exact Hes].
    - intros es' Hes'. eexists. split; [done|]. split; [|done]. eapply set_cell_ok; [done..|].
      unfold cell_ok. by rewrite Ek. }
  destruct (repeated f) eqn:Er.
  { pose proof (items_ok Q f _ Hso Ek Er) as Hit.
    destruct (items_of (get_slot other i)) as [|v vs] eqn:Ei; [done|].
    eapply returns_bind.
    - apply merge_items; [by apply items_ok|exact Hit].
    - intros vs' Hvs'. eexists. split; [done|]. split; [|done]. eapply set_cell_ok; [done..|].
      unfold cell_ok. by rewrite Ek. }
  assert (singular f = true) as Hsg by by apply singular_keys.
  destruct (_field_has_value f (get_slot other i)) eqn:Ev; [|done]. cbn [negb].
  assert (cell_of (get_slot other i) <> None) as Hne.
  { unfold _field_has_value, _field_is_default, map_field in Ev. rewrite Ek, Er in Ev. simpl in Ev.
    destruct (has_presence f); [by apply (sl_present _ _ _ Hso)|]. by intros Hn; rewrite Hn in Ev. }
  destruct (cell_of (get_slot other i)) as [x|] eqn:Ex; [|done].
  destruct (slot_one Q f _ x Hso Hsg Ex) as (v & -> & Hv).
  eapply returns_bind; [by apply copy_into|]. intros v' Hv'.
  eapply returns_bind; [by apply merge_value|]. intros v'' Hv''.
  eexists. split; [done|]. by apply set_one_ok.
Qed.

End MergeField.

(** ** Whole messages *)

Context (U : nat -> bytes -> Prop).

Abbreviation body_ok := (body_ok U).
Abbreviation message_ok := (message_ok U).


Lemma set_unknown_ok P m l :
  body_ok P m -> Forall (U (cls m)) l -> body_ok P (set_unknown (_unknown_fields m ++ l) m).
Proof. intros [Hs Ho Hu] Hl. split; [done..|]. simpl. by apply Forall_app. Qed.

Lemma MergeFrom_ok n N fuel self other :
  (n <= N)%nat -> (n <= fuel)%nat -> message_ok n other -> message_ok N self -> cls other = cls self ->
  returns (MergeFrom fuel self other) (fun r => cls r = cls self /\ message_ok N r).
Proof.
  revert N fuel self other. induction n as [|n IH]; intros N fuel self other HN Hfuel Ho Hs Ec; [done|].
  destruct N as [|N]; [lia|]. destruct fuel as [|fuel]; [lia|]. cbn [MergeFrom].
  replace (cls other =? cls self)%nat with true by (symmetry; by apply Nat.eqb_eq). cbn [negb].
  cbn [MessageInv.message_ok] in Ho, Hs.
  eapply returns_bind.
  - apply (fold_returns _ (fun r => body_ok (message_ok N) r /\ cls r = cls self)); [|done].
    intros s [i f] [Hb Ecs] Hin%indexed_lookup. rewrite <- Ecs in Hin.
    destruct (merge_field_ok (message_ok N) (message_ok n)
      ltac:(intros; eapply message_ok_mono; [|done]; lia)
      (fun k m => MergeFrom fuel (Clear (new k)) m) (MergeFrom fuel)) with (U := U) (other := other) (self := s) (i := i) (f := f)
      as (r & -> & Hr & Er); [| |done|done|congruence|done|].
    + intros m Hm. rewrite Clear_new. apply (IH n fuel (new (cls m)) m); [lia|lia|done| |done].
      destruct n; [done|]. apply new_ok.
    + intros m m' Hm Hm' Em. apply (IH N fuel); [lia|lia|done..].
    + exists r. split; [done|]. split; [done|congruence].
  - intros r [Hr Er]. eexists. split; [done|]. split; [done|]. cbn [MessageInv.message_ok].
    apply set_unknown_ok; [done|]. destruct Ho as [_ _ Hu]. by rewrite Er, <- Ec.
Qed.

Lemma new_message_ok n k : message_ok (S n) (new k).
Proof. apply new_ok. Qed.

Lemma clone_ok n fuel m :
  (n <= fuel)%nat -> message_ok n m ->
  returns (clone_message fuel (cls m) m) (fun m' => cls m' = cls m /\ message_ok n m').
Proof.
  intros Hf Hm. unfold clone_message, CopyFrom. simpl. rewrite Nat.eqb_refl. cbn [negb].
  rewrite Clear_new. apply (MergeFrom_ok n n fuel (new (cls m)) m); [lia|done|done| |done]. destruct n; [done|]. apply new_ok.
Qed.

End Ops.
