(* ===== verification/MessageParse.v ===== *)
(** * Parsing keeps the message invariant

    On any bytes, [MergeFromString] ends, and what it makes of a well-formed
    message is well-formed. *)
From stdpp Require Import gmap.
From S2P Require Import Prelude PyStr Json FieldMask Bytes Wire WireSpec ValueCodec Message MessageInv MessageOps.

(** A reader inside its data, which are bytes. *)
Definition good (r : Reader) : Prop := reader_ok r /\ bytes_ok (_data r) = true.

Lemma good_advanced r r' : good r -> advanced r r' -> good r'.
Proof. intros [Hr Hb] Ha. split; [by eapply advanced_ok|]. destruct Ha as [-> _]. done. Qed.

Lemma good_start payload : bytes_ok payload = true -> good (reader payload).
Proof. intros Hb. split; [|done]. unfold reader_ok, reader. simpl. lia. Qed.

(** Every value of a packed field was read. *)
Lemma packed_loop_forall {A} (rd : M A) `{!Steady rd} (R : A -> Prop) fuel stop vs r vs' r' :
  (forall r v r', good r -> rd r = (Ok v, r') -> R v) -> good r -> Forall R vs ->
  BinaryReader.packed_loop fuel stop rd vs r = (Ok vs', r') -> Forall R vs'.
Proof.
  intros Hrd. revert vs r. induction fuel as [|fuel IH]; intros vs r Hr Hvs; cbn [BinaryReader.packed_loop].
  - destruct (_ <? _); [done|]. by intros [= <- _].
  - destruct (_ <? _); [|by intros [= <- _]]. destruct (steady r (proj1 Hr)) as [Ha _].
    destruct (rd r) as [[v|e] r1] eqn:Er; [|done]. destruct (_ || _); [done|].
    apply IH; [by eapply good_advanced|]. apply Forall_app. split; [done|].
    constructor; [by eapply Hrd|constructor].
Qed.

Lemma read_packed_forall {A} (rd : M A) `{!Steady rd} (R : A -> Prop) r vs r' :
  (forall r v r', good r -> rd r = (Ok v, r') -> R v) -> good r ->
  BinaryReader.read_packed rd r = (Ok vs, r') -> Forall R vs.
Proof.
  intros Hrd Hr (size & r1 & Hv & (self & r2 & [= <- <-] & Hp)%bind_Ok)%bind_Ok. cbv zeta in Hp.
  destruct (read_varint_steady r (proj1 Hr)) as [Ha _]. rewrite Hv in Ha.
  destruct (_ <? _); [done|].
  eapply packed_loop_forall; [done|exact Hrd|by eapply good_advanced|constructor|exact Hp].
Qed.

Lemma lift_read_ok {A} (m : M A) `{!Steady m} r :
  good r -> returns_or_raises (lift_read m r) (fun '(a, r') => advanced r r' /\ m r = (Ok a, r')).
Proof.
  intros Hr. destruct (steady r (proj1 Hr)) as [Ha Hn]. unfold lift_read.
  destruct (m r) as [[a|e] r']; simpl in *; [done|]. split; [done|congruence].
Qed.

(** The reader only moves forward over its data. *)
Ltac step_read :=
  eapply ror_bind; [apply lift_read_ok; [try apply _|by (assumption || (eapply good_advanced; eassumption))]|].

Lemma write_varint_fuel v w : BinaryWriter.write_varint v w <> Raise OutOfFuel.
Proof.
  destruct (in_range 0 (2 ^ 64) v) eqn:E.
  - destruct (codec_in (Codec := uint64_codec) v E) as (enc & Hw & _).
    unfold BinaryWriter.write_uint64 in Hw. by rewrite Hw.
  - unfold BinaryWriter.write_varint, in_range in *. rewrite max_uint64.
    by destruct (_ || _) eqn:E2; [|lia].
Qed.

Lemma write_tag_fuel n t w : BinaryWriter.write_tag n t w <> Raise OutOfFuel.
Proof.
  unfold BinaryWriter.write_tag. destruct (_ || _); [done|]. destruct (_ || _); [done|].
  apply write_varint_fuel.
Qed.

Lemma lift_wire_ok {A} (r : result wire_error A) :
  r <> Raise OutOfFuel -> returns_or_raises (lift_wire r) (fun _ => True).
Proof. destruct r as [|e]; simpl; [done|]. intros He. split; congruence. Qed.

Section Parse.
Context `{Schema} (HS : schema_ok _).

(** Nothing is claimed of unknown fields here. *)
Abbreviation any_bytes := (fun (_ : nat) (_ : bytes) => True).
Abbreviation body_ok := (body_ok any_bytes).
Abbreviation message_ok := (message_ok any_bytes).

Lemma read_scalar_steady c : codec_ok c -> Steady (read_scalar c).
Proof.
  intros Hc. destruct c as [c| | | | |k]; simpl; try apply _.
  apply bind_steady; [by apply ic_steady|apply _].
Qed.

Definition scalar_codec (c : codec) : bool := match c with CMessage _ => false | _ => true end.

Lemma read_scalar_typed c r s r' :
  codec_ok c -> scalar_codec c = true -> good r -> read_scalar c r = (Ok s, r') ->
  closed_unknown c (Scalar s) = true \/ scalar_ok c s.
Proof.
  intros Hc Hs [Hr Hb]. destruct c as [c| | | | |k]; simpl; try done;
    intros (x & r1 & Hx & [= <- _])%bind_Ok; simpl; auto. by eapply (ic_read c).
Qed.

Lemma key_codec_scalar kc : key_codec_ok kc -> codec_ok kc /\ scalar_codec kc = true /\
  forall s, closed_unknown kc (Scalar s) = false.
Proof.
  destruct kc as [c| | | | |]; simpl; try done.
  intros [Hc He]. split_and!; [done|done|]. intros []; simpl; try done. by rewrite He.
Qed.

Section Loops.
(** The messages of [self] satisfy [P], decoded messages [Q]. *)
Context (P Q : message -> Prop) (HQP : forall m, Q m -> P m) (Qnew : forall k, Q (new k)).
Context (from_string : nat -> bytes -> result message_error message) (fuel : nat).
Context (Hfrom : forall k b, bytes_ok b = true -> returns_or_raises (from_string k b) (fun m => cls m = k /\ Q m)).
Context (Hclone : forall m, Q m -> returns (clone_message fuel (cls m) m) (fun m' => cls m' = cls m /\ Q m')).
Context (Hmf : forall m m', P m -> Q m' -> cls m = cls m' ->
  returns (MergeFrom fuel m m') (fun r => cls r = cls m /\ P r)).
Context (HmfQ : forall m m', Q m -> Q m' -> cls m = cls m' ->
  returns (MergeFrom fuel m m') (fun r => cls r = cls m /\ Q r)).

Lemma read_val_ok c r :
  codec_ok c -> good r ->
  returns_or_raises (read_val from_string c r)
    (fun '(v, r') => advanced r r' /\ (closed_unknown c v = true \/ value_ok Q c v)).
Proof.
  intros Hc Hr. destruct (scalar_codec c) eqn:Es.
  - assert (read_val from_string c r = '(s, r) ← lift_read (read_scalar c) r; Ok (Scalar s, r)) as ->
      by by destruct c.
    eapply ror_bind; [apply lift_read_ok; [by apply read_scalar_steady|done]|].
    intros [s r'] [Ha Hrd]. split; [done|].
    destruct (read_scalar_typed c r s r' Hc Es Hr Hrd) as [?|?]; [by left|right]. by destruct c.
  - destruct c as [| | | | |k]; try done. cbn [read_val]. step_read.
    intros [b r'] [Ha Hb]. apply (read_bytes_ok r) in Hb; [|apply Hr..].
    eapply ror_bind; [by apply Hfrom|]. intros m [Em Hm]. split; [done|]. by right.
Qed.

(** *** Map entries *)

Definition entry_inv (kc c : codec) (e : entry) : Prop :=
  scalar_ok kc (e_key e) /\ (e_invalid e = true \/ value_ok Q c (e_value e)) /\
  match e_value e with MessageV m => Q m /\ c = CMessage (cls m) | Scalar _ => scalar_codec c = true end.

Lemma value_kind c v : value_ok Q c v ->
  match v with MessageV m => Q m /\ c = CMessage (cls m) | Scalar _ => scalar_codec c = true end.
Proof. destruct c, v; simpl; try done. by intros [-> ?]. Qed.

Lemma skip_entry_ok kc c e n w st r :
  entry_inv kc c e -> good r ->
  returns_or_raises (skip_entry e n w st r) (fun '(e', r') => advanced r r' /\ entry_inv kc c e').
Proof.
  intros (Hk & _ & Hv) Hr. unfold skip_entry. step_read. intros [b r'] [Ha _]. split; [done|].
  split; [done|]. split; [by left|done].
Qed.

Lemma entry_value_ok kc c e v :
  entry_inv kc c e -> closed_unknown c v = true \/ value_ok Q c v ->
  returns_or_raises (entry_value fuel c e v) (entry_inv kc c).
Proof.
  intros (Hk & Hi & Hv) Hd. unfold entry_value. destruct (closed_unknown c v) eqn:Ec.
  { split; [done|]. split; [by left|done]. }
  destruct Hd as [?|Hd]; [done|].
  assert (forall b, entry_inv kc c (mkEntry (e_key e) v true b)) as Hnew
    by (intros b; split; [done|]; split; [by right|by apply value_kind]).
  destruct (e_value e) as [s|m] eqn:Ee; [apply Hnew|]. destruct v as [s|m']; [apply Hnew|].
  destruct (e_seen e); [|apply Hnew]. destruct Hv as [Hm Em].
  pose proof (value_kind c (MessageV m') Hd) as [Hm' Em']. rewrite Em in Em'. injection Em' as Em'.
  eapply ror_bind; [apply returns_ror, HmfQ; [exact Hm|exact Hm'|done]|]. intros r [Er Hr].
  subst c. split; [done|]. split; [by right|]. simpl. split; [done|congruence].
Qed.

Lemma entry_step_ok kc c e r :
  key_codec_ok kc -> codec_ok c -> entry_inv kc c e -> good r ->
  returns_or_raises (entry_step from_string fuel kc c e r)
    (fun '(e', r') => advanced r r' /\ _pos r < _pos r' /\ entry_inv kc c e').
Proof.
  intros Hkc Hc He Hr. destruct (key_codec_scalar kc Hkc) as (Hcc & Hsc & Hcl). unfold entry_step.
  step_read. intros [[[n w] st] r1] [Ha Ht]. apply read_tag_Ok in Ht; [|apply Hr].
  pose proof (good_advanced _ _ Hr Ha) as Hr1.
  assert (forall (o : result message_error (entry * Reader)),
    returns_or_raises o (fun '(e', r') => advanced r1 r' /\ entry_inv kc c e') ->
    returns_or_raises o (fun '(e', r') => advanced r r' /\ _pos r < _pos r' /\ entry_inv kc c e')) as Hnext.
  { intros o Ho. eapply ror_impl; [exact Ho|]. intros [e' r'] [H1 H2].
    split; [by eapply advanced_trans|]. split; [|done]. destruct H1 as (_ & _ & ?). lia. }
  apply Hnext. pose proof (skip_entry_ok kc c e n w st r1 He Hr1) as Hskip.
  destruct (n =? 1); [destruct (w =? wire_type_of kc); [|done]|].
  - eapply ror_bind; [apply lift_read_ok; [by apply read_scalar_steady|done]|].
    intros [k r2] [H2 Hk]. destruct He as (_ & Hi & Hv). split; [done|]. split; [|done].
    destruct (read_scalar_typed kc r1 k r2 Hcc Hsc Hr1 Hk) as [Hx|?]; [by rewrite Hcl in Hx|done].
  - destruct (n =? 2); [destruct (w =? wire_type_of c); [|done]|done].
    eapply ror_bind; [by apply read_val_ok|]. intros [v r2] [H2 Hv].
    eapply ror_bind; [by apply (entry_value_ok kc)|]. intros e' He'. done.
Qed.

Lemma entry_loop_ok n kc c e r :
  key_codec_ok kc -> codec_ok c -> entry_inv kc c e -> good r ->
  BinaryReader.remaining r <= Z.of_nat n ->
  returns_or_raises (entry_loop from_string fuel n kc c e r) (entry_inv kc c).
Proof.
  intros Hkc Hc. revert e r. induction n as [|n IH]; intros e r He Hr Hn; cbn [entry_loop];
    destruct (BinaryReader.eof r) eqn:Eo; try done.
  { destruct Hr as [Hr _]. unfold BinaryReader.eof, BinaryReader.remaining, reader_ok in *. lia. }
  eapply ror_bind; [by apply entry_step_ok|]. intros [e' r'] (Ha & Hp & He').
  apply IH; [done|by eapply good_advanced|]. destruct Ha as (E1 & _ & E3).
  unfold BinaryReader.remaining in *. rewrite E1. lia.
Qed.

Lemma codec_default_ok c : codec_ok c -> value_ok Q c (codec_default c).
Proof. intros Hc. destruct c; simpl; try done. by apply ic_default. Qed.

Lemma scalar_default_ok kc : key_codec_ok kc -> scalar_ok kc (scalar_default kc).
Proof. destruct kc; simpl; try done. intros [Hc _]. by apply ic_default. Qed.

(** What a decoding step makes of a message. *)
Abbreviation stays self := (fun r : message => body_ok P r /\ cls r = cls self).

Lemma decode_map_entry_ok i f kc payload self :
  body_ok P self -> FIELDS (cls self) !! i = Some f -> map_key_codec f = Some kc -> field_ok f ->
  bytes_ok payload = true ->
  returns_or_raises (_decode_map_entry from_string fuel i f kc payload self)
    (fun o => match o with Some r => body_ok P r /\ cls r = cls self | None => True end).
Proof.
  intros Hs Hf Ek Hfok Hb. pose proof (f_key f Hfok kc Ek) as Hkc. pose proof (f_codec f Hfok) as Hc.
  destruct (body_slot _ _ _ _ _ Hs Hf) as [Hss _].
  unfold _decode_map_entry. eapply ror_bind.
  - apply entry_loop_ok; [done..| | |].
    + split; [by apply scalar_default_ok|]. pose proof (codec_default_ok _ Hc) as Hd.
      split; [by right|by apply value_kind].
    + by apply good_start.
    + unfold BinaryReader.remaining, reader. simpl. lia.
  - intros e (Hk & Hi & _). destruct (e_invalid e); [done|]. destruct Hi as [?|Hv]; [done|].
    eapply ror_bind.
    + apply returns_ror. eapply (map_set_into HS P Q); [done..|by apply slot_entries_ok|by split].
    + intros es Hes. split; [|done]. eapply set_cell_ok; [done..|]. unfold cell_ok. by rewrite Ek.
Qed.

Lemma write_scalar_fuel c s w : codec_ok c -> write_scalar c s w <> Raise OutOfFuel.
Proof.
  intros Hc. unfold write_scalar. destruct c, s; try done.
  - by apply ic_write.
  - apply write_varint_fuel.
  - simpl. unfold BinaryWriter.write_double, BinaryWriter.pack. by destruct (_ && _).
  - simpl. unfold BinaryWriter.write_bytes. pose proof (write_varint_fuel (Z.of_nat (length b)) w).
    by destruct (BinaryWriter.write_varint _ _).
  - simpl. unfold BinaryWriter.write_string. destruct (utf8_encode _) as [b|]; [|done].
    unfold BinaryWriter.write_bytes. pose proof (write_varint_fuel (Z.of_nat (length b)) w).
    by destruct (BinaryWriter.write_varint _ _).
Qed.

Lemma add_raw_ok raw self : body_ok P self -> body_ok P (add_unknown raw self).
Proof. intros Hs. by apply add_unknown_ok. Qed.

Lemma append_ok i f self v :
  body_ok P self -> FIELDS (cls self) !! i = Some f -> map_key_codec f = None -> repeated f = true ->
  value_ok Q (codec_of f) v ->
  returns_or_raises
    (items ← extend (clone_message fuel) (codec_of f) (items_of (get_slot self i)) [v];
     Ok (set_cell i (Items items) self)) (stays self).
Proof.
  intros Hs Hf Ek Er Hv. destruct (body_slot _ _ _ _ _ Hs Hf) as [Hss _]. eapply ror_bind.
  - apply returns_ror. eapply (merge_items HS P Q); [done..|by apply items_ok|by constructor].
  - intros items Hit. split; [|done]. eapply set_cell_ok; [done..|]. unfold cell_ok. by rewrite Ek.
Qed.

Lemma packed_value_ok i f self s :
  body_ok P self -> FIELDS (cls self) !! i = Some f -> map_key_codec f = None -> repeated f = true ->
  codec_ok (codec_of f) -> scalar_codec (codec_of f) = true ->
  closed_unknown (codec_of f) (Scalar s) = true \/ scalar_ok (codec_of f) s ->
  returns_or_raises (packed_value fuel i f self s) (stays self).
Proof.
  intros Hs Hf Ek Er Hc Hsc Hd. unfold packed_value.
  destruct (closed_unknown _ _) eqn:Ecl; [|destruct Hd as [?|Hd]; [done|]].
  - unfold packed_unknown. eapply ror_bind; [eapply ror_bind|].
    + apply lift_wire_ok, write_tag_fuel.
    + intros w _. by apply lift_wire_ok, write_scalar_fuel.
    + intros raw _. split; [by apply add_raw_ok|done].
  - apply append_ok; [done..|]. by destruct (codec_of f).
Qed.

Lemma raw_since_ok start r : returns_or_raises (raw_since start r) (fun _ => True).
Proof. unfold raw_since. apply lift_wire_ok. unfold BinaryReader.raw_bytes. cbv zeta. by destruct (_ || _). Qed.

Lemma set_singular_ok i f v self :
  body_ok P self -> FIELDS (cls self) !! i = Some f -> singular f = true -> value_ok Q (codec_of f) v ->
  returns_or_raises (set_singular fuel i f v self) (stays self).
Proof.
  intros Hs Hf Hsg Hv. destruct (deselect_ok any_bytes P self i f Hs Hf) as (Hd & Ec & Eslot & _).
  unfold set_singular. set (self' := deselect i f self) in *.
  assert (FIELDS (cls self') !! i = Some f) as Hf' by by rewrite Ec.
  destruct (body_slot _ _ _ _ _ Hd Hf') as [Hss _].
  eapply ror_bind; [apply returns_ror; by apply (copy_value_ok Q)|]. intros v' Hv'.
  eapply ror_bind; [apply returns_ror; by apply (merge_value P Q HQP (MergeFrom fuel) Hmf)|]. intros v'' Hv''.
  destruct (set_one_ok any_bytes P self' i f v'') as [H1 H2]; [done..|]. split; [done|congruence].
Qed.

Lemma set_items_ok i f self :
  body_ok P self -> FIELDS (cls self) !! i = Some f -> map_key_codec f = None -> repeated f = true ->
  body_ok P (set_cell i (Items (items_of (get_slot self i))) self).
Proof.
  intros Hs Hf Ek Er. destruct (body_slot _ _ _ _ _ Hs Hf) as [Hss _]. eapply set_cell_ok; [done..|].
  unfold cell_ok. rewrite Ek. split; [done|by apply items_ok].
Qed.

Lemma try_decode_ok i f w start self r :
  body_ok P self -> FIELDS (cls self) !! i = Some f -> field_ok f -> good r ->
  returns_or_raises (_try_decode_field from_string fuel i f w start self r)
    (fun o => match o with
              | Some (self', r') => (body_ok P self' /\ cls self' = cls self) /\ advanced r r'
              | None => True
              end).
Proof.
  intros Hs Hf Hfok Hr. pose proof (f_codec f Hfok) as Hc. unfold _try_decode_field.
  destruct (map_key_codec f) as [kc|] eqn:Ek.
  { destruct (negb _); [done|]. step_read. intros [payload r'] [Ha Hpay]. apply (read_bytes_ok r) in Hpay; [|apply Hr..].
    eapply ror_bind; [by apply decode_map_entry_ok|]. intros [self'|] Ho; [by split|].
    eapply ror_bind; [apply raw_since_ok|]. intros raw _. split; [|done]. split; [by apply add_raw_ok|done]. }
  destruct (repeated f && packable_of (codec_of f) && (w =? WIRE_LENGTH_DELIMITED)) eqn:Epk.
  { apply andb_true_iff in Epk as [[Er Ep]%andb_true_iff _].
    assert (scalar_codec (codec_of f) = true) as Hsc by by destruct (codec_of f).
    eapply ror_bind; [apply lift_read_ok; [|done]|].
    { apply read_packed_steady. by apply read_scalar_steady. }
    intros [vs r'] [Ha Hp].
    assert (Forall (fun s => closed_unknown (codec_of f) (Scalar s) = true \/ scalar_ok (codec_of f) s) vs)
      as Hvs.
    { pose proof (read_scalar_steady (codec_of f) Hc) as Hst.
      refine (read_packed_forall (read_scalar (codec_of f)) _ r vs r' _ Hr Hp). intros ?????. by eapply read_scalar_typed. }
    rewrite Forall_forall in Hvs. eapply ror_bind.
    - apply (fold_ror _ (stays self)).
      + intros self1 s [H1 E1] Hin. rewrite <- E1 in Hf. rewrite <- E1. apply packed_value_ok; auto.
      + split; [|done]. by apply set_items_ok with f.
    - intros self1 H1. by split. }
  destruct (negb _); [done|]. eapply ror_bind; [by apply read_val_ok|]. intros [v r'] [Ha Hv].
  eapply ror_bind; [apply raw_since_ok|]. intros raw _.
  destruct (closed_unknown (codec_of f) v) eqn:Ecl.
  { split; [|done]. split; [by apply add_raw_ok|done]. }
  destruct Hv as [?|Hv]; [done|]. destruct (repeated f) eqn:Er.
  - pose proof (append_ok i f self v Hs Hf Ek Er Hv) as Happ.
    destruct (extend _ _ _ _); simpl in *; [by split|done].
  - eapply ror_bind; [apply set_singular_ok; [done..|by apply singular_keys|done]|].
    intros self' Hself'. by split.
Qed.

Lemma keep_unknown_ok n w start self r :
  body_ok P self -> good r ->
  returns_or_raises (keep_unknown n w start self r)
    (fun '(self', r') => (body_ok P self' /\ cls self' = cls self) /\ advanced r r').
Proof.
  intros Hs Hr. unfold keep_unknown. step_read. intros [raw r'] [Ha _]. split; [|done].
  split; [by apply add_raw_ok|done].
Qed.

Lemma field_by_number_Some c n i f :
  field_by_number c n = Some (i, f) -> FIELDS c !! i = Some f /\ number f = n.
Proof.
  unfold field_by_number.
  assert (forall l acc, (forall x, acc = Some x -> x ∈ indexed c /\ number x.2 = n) ->
    (forall x, x ∈ l -> x ∈ indexed c) -> forall x,
    foldl (fun acc '(i, f) => if number f =? n then Some (i, f) else acc) acc l = Some x ->
    x ∈ indexed c /\ number x.2 = n) as Hl.
  { induction l as [|[j g] l IH]; intros acc Hacc Hin x; [apply Hacc|]. cbn [foldl]. apply IH.
    - intros y. destruct (number g =? n) eqn:E; [|apply Hacc]. intros [= <-]. split; [apply Hin; left|].
      simpl. lia.
    - intros y Hy. apply Hin. by right. }
  intros Hx. destruct (Hl (indexed c) None ltac:(done) ltac:(done) _ Hx) as [Hin Hn].
  split; [by apply indexed_lookup|done].
Qed.

Lemma merge_step_ok self r :
  body_ok P self -> good r ->
  returns_or_raises (merge_step from_string fuel self r)
    (fun '(self', r') => (body_ok P self' /\ cls self' = cls self) /\ advanced r r' /\ _pos r < _pos r').
Proof.
  intros Hs Hr. unfold merge_step. step_read. intros [[[n w] st] r1] [Ha Ht].
  apply read_tag_Ok in Ht; [|apply Hr]. pose proof (good_advanced _ _ Hr Ha) as Hr1.
  assert (forall o : result message_error (message * Reader),
    returns_or_raises o (fun '(self', r') => (body_ok P self' /\ cls self' = cls self) /\ advanced r1 r') ->
    returns_or_raises o (fun '(self', r') =>
      (body_ok P self' /\ cls self' = cls self) /\ advanced r r' /\ _pos r < _pos r')) as Hnext.
  { intros o Ho. eapply ror_impl; [exact Ho|]. intros [s' r'] [H1 H2]. split; [done|].
    split; [by eapply advanced_trans|]. destruct H2 as (_ & _ & ?). lia. }
  apply Hnext. destruct (field_by_number (cls self) n) as [[i f]|] eqn:Ef; [|by apply keep_unknown_ok].
  apply field_by_number_Some in Ef as [Hf _].
  pose proof (proj1 (Forall_forall _ _) (s_fields HS (cls self)) f (list_elem_of_lookup_2 _ _ _ Hf)) as Hfok.
  eapply ror_bind; [by apply try_decode_ok|]. intros [[s' r']|] Ho; [done|]. by apply keep_unknown_ok.
Qed.

Lemma merge_loop_ok n self r :
  body_ok P self -> good r -> BinaryReader.remaining r <= Z.of_nat n ->
  returns_or_raises (merge_loop from_string fuel n self r) (stays self).
Proof.
  revert self r. induction n as [|n IH]; intros self r Hs Hr Hn; cbn [merge_loop];
    destruct (BinaryReader.eof r) eqn:Eo; try done.
  { destruct Hr as [Hr _]. unfold BinaryReader.eof, BinaryReader.remaining, reader_ok in *. lia. }
  eapply ror_bind; [by apply merge_step_ok|]. intros [s' r'] ([Hs' Ec] & Ha & Hp).
  rewrite <- Ec. apply IH; [done|by eapply good_advanced|]. destruct Ha as (E1 & _ & E3).
  unfold BinaryReader.remaining in *. rewrite E1. lia.
Qed.

End Loops.

Lemma merge_from_string_ok d N payload self :
  bytes_ok payload = true -> (S d <= N)%nat -> message_ok N self ->
  returns_or_raises (merge_from_string d payload self) (fun r => message_ok N r /\ cls r = cls self).
Proof.
  revert N payload self. induction d as [|d IH]; intros N payload self Hb HN Hs; [done|].
  destruct N as [|N]; [lia|]. cbn [merge_from_string]. cbn [MessageInv.message_ok] in *.
  apply (merge_loop_ok (message_ok N) (message_ok (S d))); [..|done|by apply good_start|].
  - intros m. apply message_ok_mono. lia.
  - intros k. apply new_message_ok.
  - intros k b Hb'. rewrite Clear_new. eapply ror_impl; [apply (IH (S d)); [done|lia|apply new_message_ok]|].
    intros m [? ?]. by split.
  - intros m Hm. by apply (clone_ok HS _ (S d)).
  - intros m m' Hm Hm' Ec. by apply (MergeFrom_ok HS _ (S d) N); [lia|..].
  - intros m m' Hm Hm' Ec. by apply (MergeFrom_ok HS _ (S d) (S d)).
  - unfold BinaryReader.remaining, reader. simpl. lia.
Qed.

End Parse.
