(* ===== verification/MessageSteps.v ===== *)
(** * Reachable messages

    The state machine of one message: the operations as a step relation, and
    the invariant of every message that can be reached from a new one; before them, that
    the codecs of [codec.py] have what a schema asks of them. *)
From stdpp Require Import gmap relations.
From S2P Require Import Prelude PyStr Json FieldMask Bytes Wire WireSpec ValueCodec Message MessageInv MessageOps MessageParse.

(** ** The codecs messages use

    Every integer and enum codec of [codec.py] has what the fields of a message rely
    on, so a schema built from them is well-formed. *)

(** A slice of the data is bytes. *)
Lemma slice_ok l a b : bytes_ok l = true -> bytes_ok (slice l a b) = true.
Proof.
  unfold slice. generalize (Z.to_nat a), (Z.to_nat (b - a)). intros j k Hok.
  rewrite <- (take_drop j l), bytes_ok_app in Hok. apply andb_true_iff in Hok as [_ Hok].
  rewrite <- (take_drop k (drop j l)), bytes_ok_app in Hok. by apply andb_true_iff in Hok as [-> _].
Qed.

Lemma read_exact_value n r b r' :
  reader_ok r -> bytes_ok (_data r) = true -> BinaryReader._read_exact (Z.of_nat n) r = (Ok b, r') ->
  0 <= le_value b < 2 ^ (8 * Z.of_nat n).
Proof.
  unfold reader_ok, BinaryReader._read_exact, BinaryReader.remaining. intros Hr Hok.
  destruct (_ || _) eqn:E; [done|]. cbn [_pos]. intros [= <- _].
  pose proof (le_value_bound _ (slice_ok (_data r) (_pos r) (_pos r + Z.of_nat n) Hok)) as Hb.
  replace (length (slice (_data r) (_pos r) (_pos r + Z.of_nat n))) with n in Hb; [done|].
  unfold slice. rewrite length_take, length_drop. lia.
Qed.

Lemma writes_varint_fuel (v : Z) (b : bool) msg w :
  (if b then Raise (ValueError msg) else BinaryWriter.write_varint v w) <> Raise OutOfFuel.
Proof. destruct b; [done|apply write_varint_fuel]. Qed.

Lemma pack_fuel lo hi n v w : BinaryWriter.pack lo hi n v w <> Raise OutOfFuel.
Proof. unfold BinaryWriter.pack. by destruct (_ && _). Qed.

Lemma simple_codec_ok wt rd wr name lo hi kind :
  Codec wr rd (in_range lo hi) -> Steady rd -> lo <= 0 < hi ->
  wt = WIRE_VARINT \/ wt = WIRE_FIXED64 \/ wt = WIRE_FIXED32 ->
  (forall v w, wr v w <> Raise OutOfFuel) ->
  (forall r x r', reader_ok r -> bytes_ok (_data r) = true -> rd r = (Ok x, r') -> lo <= x < hi) ->
  int_codec_ok (simple_codec wt rd wr (_integer_normalizer name lo (hi - 1)) 0 true kind).
Proof.
  intros Hc Hst H0 Hwt Hw Hr.
  assert (forall n, lo <= n < hi -> _integer_normalizer name lo (hi - 1) (VInt n) = Ok n) as Hin.
  { intros n Hn. unfold _integer_normalizer. simpl. by destruct (negb _) eqn:E; [lia|]. }
  split; simpl; try done.
  - exists (in_range lo hi). split; [done|]. intros v x. unfold _integer_normalizer.
    destruct (as_int v) as [n|]; [|done]. destruct (negb _) eqn:E; [done|]. intros [= <-].
    unfold in_range. lia.
  - intros v x Hx. unfold _integer_normalizer in Hx. destruct (as_int v) as [n|]; [|done].
    destruct (negb _) eqn:E; [done|]. injection Hx as <-. apply Hin. lia.
  - apply Hin. lia.
  - intros r x r' Hr1 Hr2 Hrd. right. eapply Hin, Hr; done.
Qed.

(** A codec with the bounds [lo] and [hi]; [tac] proves the range of its reads. *)
Ltac builtin lo hi tac :=
  apply (simple_codec_ok _ _ _ _ lo hi);
  [apply _|apply _|lia|by auto
  |intros v w; first [apply writes_varint_fuel | apply write_varint_fuel | apply pack_fuel]|tac].

Ltac signed_reads :=
  intros r x r' Hr Hok (b & r1 & Hb & [= <- _])%bind_Ok;
  first [exact (signed_range _ 32 eq_refl) | exact (signed_range _ 64 eq_refl)].

Lemma builtin_codecs_ok :
  int_codec_ok INT32 /\ int_codec_ok INT64 /\ int_codec_ok UINT32 /\ int_codec_ok UINT64 /\
  int_codec_ok SINT32 /\ int_codec_ok SINT64 /\ int_codec_ok FIXED32 /\ int_codec_ok SFIXED32 /\
  int_codec_ok FIXED64 /\ int_codec_ok SFIXED64.
Proof.
  split_and!.
  - builtin (- 2 ^ 31) (2 ^ 31) signed_reads.
  - builtin (- 2 ^ 63) (2 ^ 63) signed_reads.
  - builtin 0 (2 ^ 32) ltac:(idtac). intros r x r' _ _ (a & r1 & _ & [= <- _])%bind_Ok.
    rewrite max_uint32, land_mask by lia. by apply Z.mod_pos_bound.
  - builtin 0 (2 ^ 64) ltac:(idtac). intros r x r' _ _. apply varint_loop_range.
  - builtin (- 2 ^ 31) (2 ^ 31) signed_reads.
  - builtin (- 2 ^ 63) (2 ^ 63) signed_reads.
  - builtin 0 (2 ^ 32) ltac:(idtac). intros r x r' Hr Hok (b & r1 & Hb & [= <- _])%bind_Ok.
    exact (read_exact_value 4 r b r1 Hr Hok Hb).
  - builtin (- 2 ^ 31) (2 ^ 31) signed_reads.
  - builtin 0 (2 ^ 64) ltac:(idtac). intros r x r' Hr Hok (b & r1 & Hb & [= <- _])%bind_Ok.
    exact (read_exact_value 8 r b r1 Hr Hok Hb).
  - builtin (- 2 ^ 63) (2 ^ 63) signed_reads.
Qed.

(** An enum codec accepts the [int32] values, the declared ones when closed. *)
Lemma enum_codec_ok values default closed names c :
  - 2 ^ 31 <= default < 2 ^ 31 -> enum_codec values default closed names = Ok c -> int_codec_ok c.
Proof.
  intros Hd. unfold enum_codec. case_bool_decide as Hin; simpl; [|done]. intros [= <-].
  destruct builtin_codecs_ok as [H32 _]. change (Z.shiftl 1 31) with (2 ^ 31).
  set (norm := fun value => normalized ← _integer_normalizer "enum" (- 2 ^ 31) (2 ^ 31 - 1) value; _).
  assert (forall v x, norm v = Ok x -> norm (VInt x) = Ok x) as Hidem.
  { intros v x. unfold norm, _integer_normalizer. destruct (as_int v) as [n|]; [|done]. cbn [as_int].
    destruct (negb ((- 2 ^ 31 <=? n) && _)) eqn:E; [done|]. cbn [mbind result_bind].
    destruct (closed && _) eqn:E2; [done|]. intros [= <-]. rewrite E. cbn [mbind result_bind]. by rewrite E2. }
  assert (forall n, - 2 ^ 31 <= n < 2 ^ 31 -> closed && negb (bool_decide (n ∈ values)) = false ->
    norm (VInt n) = Ok n) as Hok.
  { intros n Hn Hc. unfold norm, _integer_normalizer. cbn [as_int].
    assert (negb ((- 2 ^ 31 <=? n) && (n <=? 2 ^ 31 - 1)) = false) as -> by lia.
    cbn [mbind result_bind]. by rewrite Hc. }
  split; simpl.
  - exists (in_range (- 2 ^ 31) (2 ^ 31)). split; [apply _|]. intros v x. unfold norm, _integer_normalizer.
    destruct (as_int v) as [n|]; [|done]. destruct (negb ((- 2 ^ 31 <=? n) && _)) eqn:E; [done|].
    cbn [mbind result_bind]. destruct (closed && _); [done|]. intros [= <-]. unfold in_range. lia.
  - exact (ic_write _ H32).
  - exact (ic_steady _ H32).
  - by left.
  - exact Hidem.
  - intros x. unfold norm. destruct (_integer_normalizer _ _ _ _) as [n|e]; [|done]. cbn [mbind result_bind].
    destruct (closed && _) eqn:E; [done|]. by intros [= <-].
  - apply Hok; [done|]. by rewrite bool_decide_true, andb_false_r.
  - intros r x r' Hr Hb Hrd. destruct (closed && negb (bool_decide (x ∈ values))) eqn:E; [by left|right].
    apply Hok; [|done]. apply bind_Ok in Hrd as (a & r1 & _ & [= <- _]). exact (signed_range _ 32 eq_refl).
Qed.

(** ** The step relation *)

Section Steps.
Context `{Schema}.

Abbreviation any_bytes := (fun (_ : nat) (_ : bytes) => True).
Abbreviation message_ok := (message_ok any_bytes).
Abbreviation body_ok := (body_ok any_bytes).

(** The messages inside an assigned value have at most [n] levels. *)
Definition input_ok (n : nat) (x : py_input) : Prop :=
  match x with
  | PValue v => holds (message_ok n) v
  | PList vs => Forall (holds (message_ok n)) vs
  | PDict es => Forall (fun e => holds (message_ok n) e.2) es
  | PNone | POther => True
  end.

(** One operation on a message; the bounds on nesting are those of the
    messages passed in. *)
Inductive mutates (m : message) : message -> Prop :=
| m_assign n suspended i f x m' :
    FIELDS (cls m) !! i = Some f -> input_ok n x -> _set_field n suspended i f x m = Ok m' -> mutates m m'
| m_clear_field name m' : ClearField name m = Ok m' -> mutates m m'
| m_clear : mutates m (Clear m)
| m_merge n other m' : message_ok n other -> MergeFrom n m other = Ok m' -> mutates m m'
| m_copy n other m' : message_ok n other -> CopyFrom n m other = Ok m' -> mutates m m'
| m_merge_string payload m' : bytes_ok payload = true -> MergeFromString payload m = Ok m' -> mutates m m'
| m_parse payload m' : bytes_ok payload = true -> ParseFromString payload m = Ok m' -> mutates m m'.

Definition reachable (c : nat) (m : message) : Prop := rtc mutates (new c) m.

Context (HS : schema_ok _).

Lemma field_is_ok c i f : FIELDS c !! i = Some f -> field_ok f.
Proof. intros Hf. exact (proj1 (Forall_forall _ _) (s_fields HS c) f (list_elem_of_lookup_2 _ _ _ Hf)). Qed.

(** *** Assignment *)

Lemma set_cell_mark i f x m :
  (i < length (slots m))%nat ->
  set_cell i x (mark_present i (chosen i f m)) = mark_present i (chosen i f (set_cell i x m)).
Proof.
  intros Hi. unfold set_cell, mark_present. rewrite !get_set_slot by (unfold chosen; by destruct (oneof f)).
  rewrite !decide_True by done. simpl.
  assert (get_slot (chosen i f (set_slot i (mkSlot (Some x) (is_present (get_slot m i))) m)) i =
    mkSlot (Some x) (is_present (get_slot m i))) as ->.
  { transitivity (get_slot (set_slot i (mkSlot (Some x) (is_present (get_slot m i))) m) i).
    - unfold chosen. by destruct (oneof f).
    - rewrite get_set_slot by done. by rewrite decide_True. }
  unfold set_slot, chosen. destruct (oneof f); simpl; by rewrite !list_insert_insert_eq.
Qed.

Lemma assign_one_ok P m i f v :
  body_ok P m -> FIELDS (cls m) !! i = Some f -> singular f = true -> value_ok P (codec_of f) v ->
  body_ok P (set_cell i (One v) (_select i f m)) /\ cls (set_cell i (One v) (_select i f m)) = cls m.
Proof.
  intros Hm Hf Hsg Hv. destruct (deselect_ok any_bytes P m i f Hm Hf) as (Hd & Ec & Eslot & Hsel).
  assert (FIELDS (cls (deselect i f m)) !! i = Some f) as Hf' by by rewrite Ec.
  destruct (body_slot _ _ _ _ _ Hd Hf') as [_ Hi]. rewrite select_unfold. cbv zeta.
  pose proof (set_cell_ok any_bytes P (deselect i f m) i f (One v) Hd Hf' (cell_ok_one _ _ _ Hsg Hv)) as Hsc.
  destruct (has_presence f) eqn:Ep.
  - rewrite set_cell_mark by done. split.
    + apply mark_ok; [done..| |].
      * unfold set_cell. rewrite get_set_slot by done. by rewrite decide_True.
      * intros o j. apply Hsel.
    + rewrite <- Ec. unfold chosen. by destruct (oneof f).
  - unfold chosen. destruct (oneof f) as [o|] eqn:Eo; [by rewrite (oneof_presence f o Eo) in Ep|]. by split.
Qed.

Lemma record_ok P (suspended : bool) f m :
  body_ok P m -> body_ok P (if suspended then m else _record_reset f m).
Proof. destruct suspended; [done|]. apply record_reset_ok. Qed.

Lemma assign_items_ok n N suspended i f vs m :
  (n <= N)%nat -> body_ok (message_ok N) m -> FIELDS (cls m) !! i = Some f -> map_key_codec f = None ->
  repeated f = true -> Forall (holds (message_ok n)) vs ->
  returns_or_raises
    (vs ← extend (clone_message n) (codec_of f) [] vs;
     let self := set_cell i (Items vs) m in
     Ok (match vs with [] => if suspended : bool then self else _record_reset f self | _ => self end))
    (fun m' => body_ok (message_ok N) m' /\ cls m' = cls m).
Proof.
  intros HN Hm Hf Ek Er Hvs. pose proof (f_codec f (field_is_ok _ _ _ Hf)) as Hc.
  eapply ror_bind.
  - apply (extend_typed (message_ok n)); [|done..]. intros m'. by apply (clone_ok HS any_bytes n n).
  - intros vs' Hvs'. assert (body_ok (message_ok N) (set_cell i (Items vs') m)) as Hset.
    { eapply set_cell_ok; [done..|]. unfold cell_ok. rewrite Ek. split; [done|].
      eapply Forall_impl; [exact Hvs'|]. intros v. apply value_ok_mono. intros m'. by apply message_ok_mono. }
    destruct vs'; [|by split]. split; [by apply record_ok|by destruct suspended].
Qed.

Lemma set_field_ok n N suspended i f x m :
  (n <= N)%nat -> message_ok (S N) m -> FIELDS (cls m) !! i = Some f -> input_ok n x ->
  returns_or_raises (_set_field n suspended i f x m) (fun m' => message_ok (S N) m' /\ cls m' = cls m).
Proof.
  intros HN Hm Hf Hx. pose proof (field_is_ok _ _ _ Hf) as Hfok. pose proof (f_codec f Hfok) as Hc.
  cbn [MessageInv.message_ok] in *. set (P := message_ok N) in *.
  assert (forall v, value_ok (message_ok n) (codec_of f) v -> value_ok P (codec_of f) v) as Hup
    by (intros v; apply value_ok_mono; intros m'; by apply message_ok_mono).
  pose proof (fun m' => clone_ok HS any_bytes n n m' (le_n n)) as Hclone.
  assert (forall m', cls (if suspended then m' else _record_reset f m') = cls m') as Ecls by by destruct suspended.
  unfold _set_field. destruct x as [|v|vs|es|].
  { split; [|by rewrite Ecls, cls_clear_state]. by apply record_ok, clear_state_ok. }
  all: destruct (map_key_codec f) as [kc|] eqn:Ek; try done.
  - destruct (repeated f) eqn:Er; [done|].
    eapply ror_bind; [by apply (prepare_typed (message_ok n))|]. intros v' Hv'.
    destruct (assign_one_ok P m i f v' Hm Hf) as [H1 H2]; [by apply singular_keys|by apply Hup|].
    destruct (_ && _); (split; [|by rewrite ?Ecls]); [by apply record_ok|done].
  - destruct (repeated f) eqn:Er; [|done]. by apply assign_items_ok.
  - eapply ror_bind.
    + apply (fold_ror _ (entries_ok (message_ok n) kc (codec_of f))).
      * intros es' e Hes' He. apply map_set_typed; [done|by eapply f_key|done..|].
        by apply (proj1 (Forall_forall _ _) Hx).
      * split; [by apply NoDup_nil|constructor].
    + intros es' [Hwf Hes'].
      assert (body_ok P (set_cell i (Entries es') m)) as Hset.
      { eapply set_cell_ok; [done..|]. unfold cell_ok. rewrite Ek. split; [done|].
        eapply Forall_impl; [exact Hes'|]. intros e [? ?]. split; auto. }
      destruct es'; (split; [|by rewrite ?Ecls]); [by apply record_ok|done].
  - destruct (repeated f) eqn:Er; [|done]. apply assign_items_ok; try done.
    simpl. apply Forall_fmap, Forall_true. done.
  - by destruct (repeated f).
Qed.

(** ** The invariant of reachable messages *)

Definition well_formed (m : message) : Prop := exists n, message_ok n m.

Lemma record_clear_ok P m i f :
  body_ok P m -> FIELDS (cls m) !! i = Some f -> body_ok P (_record_reset f (_clear_state i f m)).
Proof. intros Hm Hf. by apply record_reset_ok, clear_state_ok. Qed.

Lemma public_field_Some c name i f : public_field c name = Some (i, f) -> FIELDS c !! i = Some f.
Proof.
  unfold public_field.
  assert (forall l acc, (forall x, acc = Some x -> x ∈ indexed c) -> (forall x, x ∈ l -> x ∈ indexed c) ->
    forall x, foldl (fun acc '(i, f) =>
      if public f && bool_decide (proto_name f = name) then Some (i, f) else acc) acc l = Some x ->
    x ∈ indexed c) as Hl.
  { induction l as [|[j g] l IH]; intros acc Hacc Hin x; [apply Hacc|]. cbn [foldl]. apply IH.
    - intros y. destruct (_ && _); [|apply Hacc]. intros [= <-]. apply Hin. left.
    - intros y Hy. apply Hin. by right. }
  intros Hx. apply indexed_lookup. by apply (Hl (indexed c) None).
Qed.

Lemma clear_field_ok P m name :
  body_ok P m -> returns_or_raises (ClearField name m) (fun m' => body_ok P m' /\ cls m' = cls m).
Proof.
  intros Hm. unfold ClearField. destruct (_oneof_python_name _ _) as [o|].
  - unfold selected_public. destruct (_oneofs m !! o) as [i|]; [|by split].
    destruct (FIELDS (cls m) !! i) as [f|] eqn:Ef; [|by split]. destruct (public f); [|by split].
    split; [by apply record_clear_ok|apply cls_clear_state].
  - destruct (public_field (cls m) name) as [[i f]|] eqn:Ef; [|done]. apply public_field_Some in Ef.
    split; [by apply record_clear_ok|apply cls_clear_state].
Qed.

Lemma mutates_ok m m' : well_formed m -> mutates m m' -> well_formed m' /\ cls m' = cls m.
Proof.
  intros [N HN] Hmut.
  assert (forall k, message_ok (max N k) m) as Hup by (intros k; eapply message_ok_mono; [|done]; lia).
  destruct N as [|N]; [done|].
  destruct Hmut as [n suspended i f x m' Hf Hx Hr|name m' Hr| |n other m' Ho Hr|n other m' Ho Hr|payload m' Hb Hr
    |payload m' Hb Hr].
  - assert (message_ok (S (max N n)) m) as Hm by (eapply message_ok_mono; [|done]; lia).
    pose proof (set_field_ok n (max N n) suspended i f x m ltac:(lia) Hm Hf Hx) as Hset.
    rewrite Hr in Hset. destruct Hset. by split; [eexists|].
  - pose proof (clear_field_ok (message_ok N) m name HN) as Hset. rewrite Hr in Hset.
    destruct Hset. split; [by exists (S N)|done].
  - destruct (Clear_ok any_bytes (message_ok N) m HN). split; [by exists (S N)|done].
  - destruct (decide (cls other = cls m)) as [Ec|Hne].
    + destruct (MergeFrom_ok HS any_bytes n (max (S N) n) n m other) as (r & Hr' & Er & Hok); try done; [lia|].
      rewrite Hr in Hr'. injection Hr' as <-. split; [by eexists|done].
    + destruct n; [done|]. cbn [MergeFrom] in Hr.
      by rewrite (proj2 (Nat.eqb_neq _ _)) in Hr.
  - unfold CopyFrom in Hr. destruct (cls other =? cls m)%nat eqn:Ec; [|done]. apply Nat.eqb_eq in Ec.
    cbn [negb] in Hr. destruct (Clear_ok any_bytes (message_ok N) m HN) as [Hc Ecl].
    destruct (MergeFrom_ok HS any_bytes n (max (S N) n) n (Clear m) other) as (r & Hr' & Er & Hok);
      [lia|done|done| |congruence|].
    { eapply message_ok_mono; [|exact (Hc : message_ok (S N) _)]. lia. }
    rewrite Hr in Hr'. injection Hr' as <-. split; [by eexists|congruence].
  - unfold MergeFromString in Hr.
    pose proof (merge_from_string_ok HS (Z.to_nat (_nesting_limit (cls m)))
      (max (S N) (S (Z.to_nat (_nesting_limit (cls m))))) payload m Hb ltac:(lia) (Hup _)) as Hp.
    rewrite Hr in Hp. destruct Hp. split; [by eexists|done].
  - unfold ParseFromString, MergeFromString in Hr. destruct (Clear_ok any_bytes (message_ok N) m HN) as [Hc Ecl].
    rewrite Ecl in Hr.
    pose proof (merge_from_string_ok HS (Z.to_nat (_nesting_limit (cls m)))
      (max (S N) (S (Z.to_nat (_nesting_limit (cls m))))) payload (Clear m) Hb ltac:(lia)) as Hp.
    rewrite Hr in Hp. destruct Hp; [|split; [by eexists|congruence]].
    eapply message_ok_mono; [|exact (Hc : message_ok (S N) _)]. lia.
Qed.

Lemma reachable_ok c m : reachable c m -> well_formed m /\ cls m = c.
Proof.
  unfold reachable. intros Hr.
  assert (forall a b, rtc mutates a b -> well_formed a -> well_formed b /\ cls b = cls a) as Hi.
  { induction 1 as [|a b d Hab _ IH]; [done|]. intros Ha.
    destruct (mutates_ok a b Ha Hab) as [Hb E]. destruct (IH Hb). split; [done|congruence]. }
  apply (Hi _ _ Hr). exists 1%nat. apply new_message_ok.
Qed.

End Steps.
