(* ===== verification/MessageCanon.v ===== *)
(** * Canonical messages

    What parsing makes of a serialized message: the canonical form has no
    empty containers, no values that are not serialized and an empty reset
    mask, at every level.  A canonical message is rebuilt from a new one by
    placing its slots in any order, and cloning leaves it as it is. *)
From stdpp Require Import gmap.
From S2P Require Import Prelude PyStr Json FieldMask Bytes Wire WireSpec ValueCodec Message MessageInv MessageOps.

Section Canon.
Context `{Schema}.

Section Level.
Context (cn : message -> message) (deterministic : bool).

Definition canon_value (v : value) : value :=
  match v with MessageV m => MessageV (cn m) | Scalar s => Scalar s end.

Definition canon_entry (e : scalar * value) : scalar * value := (e.1, canon_value e.2).

Definition canon_slot (f : Field) (s : slot) : slot :=
  match map_key_codec f with
  | Some _ =>
      match entries_of s with
      | [] => no_slot
      | es => mkSlot (Some (Entries (canon_entry <$> entry_order deterministic es))) false
      end
  | None =>
      if repeated f then
        match items_of s with
        | [] => no_slot
        | vs => mkSlot (Some (Items (canon_value <$> vs))) false
        end
      else if _field_has_value f s then
        match cell_of s with
        | Some (One v) => mkSlot (Some (One (canon_value v))) (has_presence f)
        | _ => no_slot
        end
      else no_slot
  end.

Definition canon_body (m : message) : message :=
  mkMessage (cls m) (zip_with canon_slot (FIELDS (cls m)) (slots m)) (_oneofs m) (_unknown_fields m)
    emptyMask.

End Level.

(** The canonical form, down to [n] levels. *)
Fixpoint canon (n : nat) (deterministic : bool) (m : message) : message :=
  match n with O => m | S n => canon_body (canon n deterministic) deterministic m end.

Lemma cls_canon n det m : cls (canon n det m) = cls m.
Proof. by destruct n. Qed.

(** ** Building a message slot by slot *)

(** The shapes of canonical slots. *)
Inductive canonical_slot (f : Field) : slot -> Prop :=
| cs_none : canonical_slot f no_slot
| cs_map kc es : map_key_codec f = Some kc -> es <> [] -> dict_wf es ->
    Forall (fun e => scalar_ok kc e.1) es -> canonical_slot f (mkSlot (Some (Entries es)) false)
| cs_items vs : map_key_codec f = None -> repeated f = true -> vs <> [] ->
    canonical_slot f (mkSlot (Some (Items vs)) false)
| cs_one v : singular f = true -> _field_has_value f (mkSlot (Some (One v)) (has_presence f)) = true ->
    canonical_slot f (mkSlot (Some (One v)) (has_presence f)).

Definition slot_values (s : slot) : list value :=
  match cell_of s with
  | None => []
  | Some (One v) => [v]
  | Some (Items vs) => vs
  | Some (Entries es) => es.*2
  end.

(** A message without unknown fields or mask, with canonical slots. *)
Record canonical (c : message) : Prop := {
  c_slots : Forall2 canonical_slot (FIELDS (cls c)) (slots c);
  c_oneofs : oneofs_ok c;
  c_mask : _reset_mask c = emptyMask
}.

(** The part of [c] in the slots [L]. *)
Definition built (c : message) (L : list nat) : message :=
  mkMessage (cls c) (imap (fun i s => if decide (i ∈ L) then s else no_slot) (slots c))
    (filter (fun x => x.2 ∈ L) (_oneofs c)) [] emptyMask.

(** Placing a slot, the way the operations do. *)
Definition place (i : nat) (f : Field) (s : slot) (m : message) : message :=
  match cell_of s with
  | None => m
  | Some (One v) => _select i f (set_cell i (One v) m)
  | Some x => set_cell i x m
  end.

Lemma get_built c L i : get_slot (built c L) i = if decide (i ∈ L) then get_slot c i else no_slot.
Proof.
  unfold get_slot, built. simpl. rewrite list_lookup_imap.
  destruct (slots c !! i); simpl; by case_decide.
Qed.

Lemma length_built c L : length (slots (built c L)) = length (slots c).
Proof. unfold built. simpl. apply length_imap. Qed.

Lemma built_nil c : length (slots c) = length (FIELDS (cls c)) -> built c [] = new (cls c).
Proof.
  intros Hl. unfold built, new. f_equal.
  - apply list_eq. intros i. rewrite list_lookup_imap. rewrite <- Hl.
    destruct (slots c !! i) eqn:E; cbn [fmap option_fmap option_map].
    + rewrite decide_False by apply not_elem_of_nil. symmetry. apply lookup_replicate.
      split; [done|by eapply lookup_lt_Some].
    + symmetry. apply lookup_ge_None. rewrite length_replicate. by apply lookup_ge_None.
  - apply map_empty. intros o. apply map_lookup_filter_None. right. intros i _ Hi. simpl in Hi. inversion Hi.
Qed.

Lemma built_all c L :
  (forall i, (i < length (slots c))%nat -> i ∈ L) -> oneofs_ok c -> _reset_mask c = emptyMask ->
  length (slots c) = length (FIELDS (cls c)) -> set_unknown (_unknown_fields c) (built c L) = c.
Proof.
  intros HL Ho Hk Hlen. destruct c as [cl ss oo uu kk]. simpl in *. unfold set_unknown, built. simpl. subst kk.
  f_equal.
  - apply list_eq. intros i. rewrite list_lookup_imap. destruct (ss !! i) eqn:E; [|done]. simpl.
    rewrite decide_True; [done|]. apply HL. by eapply lookup_lt_Some.
  - apply map_filter_id. intros o i Hoi. simpl. apply HL. rewrite Hlen.
    apply Ho in Hoi as (f & Hf & _). by eapply lookup_lt_Some.
Qed.

(** Two states with the same parts. *)
Lemma message_eq m1 m2 :
  cls m1 = cls m2 -> length (slots m1) = length (slots m2) ->
  (forall j, get_slot m1 j = get_slot m2 j) ->
  (forall o, _oneofs m1 !! o = _oneofs m2 !! o) -> _unknown_fields m1 = _unknown_fields m2 ->
  _reset_mask m1 = _reset_mask m2 -> m1 = m2.
Proof.
  destruct m1 as [c1 s1 o1 u1 k1], m2 as [c2 s2 o2 u2 k2]. simpl. intros -> Hl Hg Ho -> ->. f_equal.
  - apply list_eq. intros j. specialize (Hg j). unfold get_slot in Hg. simpl in Hg.
    destruct (s1 !! j) eqn:E1, (s2 !! j) eqn:E2; try congruence.
    + apply lookup_lt_Some in E1. apply lookup_ge_None in E2. lia.
    + apply lookup_lt_Some in E2. apply lookup_ge_None in E1. lia.
  - by apply map_eq.
Qed.

Lemma get_set_cell m i x j :
  (i < length (slots m))%nat ->
  get_slot (set_cell i x m) j = if decide (j = i) then mkSlot (Some x) (is_present (get_slot m i)) else get_slot m j.
Proof. intros Hi. unfold set_cell. by apply get_set_slot. Qed.

Lemma length_set_cell m i x : length (slots (set_cell i x m)) = length (slots m).
Proof. unfold set_cell, set_slot. simpl. apply length_insert. Qed.

Lemma set_cell_twice m i x y :
  (i < length (slots m))%nat -> set_cell i x (set_cell i y m) = set_cell i x m.
Proof.
  intros Hi. unfold set_cell at 1. rewrite get_set_cell by done. rewrite decide_True by done. simpl.
  unfold set_cell, set_slot. simpl. by rewrite list_insert_insert_eq.
Qed.

Section Place.
Context (c : message) (Hc : canonical c).

Lemma canon_length : length (slots c) = length (FIELDS (cls c)).
Proof. symmetry. exact (Forall2_length _ _ _ (c_slots c Hc)). Qed.

Lemma canonical_at i f : FIELDS (cls c) !! i = Some f -> canonical_slot f (get_slot c i) /\ (i < length (slots c))%nat.
Proof.
  intros Hf. destruct (Forall2_lookup_l _ _ _ _ _ (c_slots c Hc) Hf) as (s & Hs & Hok).
  unfold get_slot. rewrite Hs. split; [done|by eapply lookup_lt_Some].
Qed.

(** The oneof a present field is selected in. *)
Lemma selected_at i f o :
  FIELDS (cls c) !! i = Some f -> oneof f = Some o -> is_present (get_slot c i) = true ->
  _oneofs c !! o = Some i.
Proof. intros Hf Ho Hp. apply (c_oneofs c Hc). eauto. Qed.

Lemma built_oneofs L o j : _oneofs (built c L) !! o = Some j <-> _oneofs c !! o = Some j /\ j ∈ L.
Proof. unfold built. simpl. apply map_lookup_filter_Some. Qed.

(** A slot that is not selected in a oneof is just filled. *)
Lemma fill_built L i m :
  cls m = cls c -> length (slots m) = length (slots c) ->
  (forall j, get_slot m j = if decide (j = i) then get_slot c i else get_slot (built c L) j) ->
  (forall o j, _oneofs m !! o = Some j <-> _oneofs c !! o = Some j /\ (j = i \/ j ∈ L)) ->
  _unknown_fields m = [] -> _reset_mask m = emptyMask -> m = built c (i :: L).
Proof.
  intros H1 H2 H3 H4 H5 H6. apply message_eq; [done|by rewrite length_built| | |done|done].
  - intros j. rewrite H3, !get_built. destruct (decide (j = i)) as [->|Hne].
    + rewrite decide_True; [done|left].
    + destruct (decide (j ∈ L)) as [Hj|Hj]; [rewrite decide_True; [done|by right]|].
      rewrite decide_False; [done|]. by rewrite elem_of_cons; intros [?|?].
  - intros o. apply option_eq. intros j. rewrite H4, built_oneofs, elem_of_cons. done.
Qed.

(** A field without a selected oneof adds nothing to [_oneofs]. *)
Lemma oneofs_same L i f o j :
  FIELDS (cls c) !! i = Some f -> is_present (get_slot c i) = false \/ oneof f = None ->
  _oneofs (built c L) !! o = Some j <-> _oneofs c !! o = Some j /\ (j = i \/ j ∈ L).
Proof.
  intros Hf Hn. rewrite built_oneofs. split; [tauto|]. intros [Ho [->|?]]; [|done]. exfalso.
  apply (c_oneofs c Hc) in Ho as (f' & Hf' & Ho & Hp). destruct Hn; congruence.
Qed.

Lemma place_cell L i f x :
  FIELDS (cls c) !! i = Some f -> i ∉ L -> get_slot c i = mkSlot (Some x) false ->
  set_cell i x (built c L) = built c (i :: L).
Proof.
  intros Hf Hi Hs. destruct (canonical_at i f Hf) as [_ Hlt].
  apply fill_built; [done|by rewrite length_set_cell, length_built| | |done|done].
  - intros j. rewrite get_set_cell by by rewrite length_built. case_decide; [|done].
    by rewrite get_built, decide_False, Hs.
  - intros o j. apply (oneofs_same L i f); [done|]. left. by rewrite Hs.
Qed.

Lemma deselect_built L i f :
  FIELDS (cls c) !! i = Some f -> i ∉ L -> get_slot c i <> no_slot -> singular f = true ->
  deselect i f (built c L) = built c L.
Proof.
  intros Hf Hi Hs Hsg. unfold deselect. destruct (oneof f) as [o|] eqn:Eo; [|done].
  destruct (_oneofs (built c L) !! o) as [j|] eqn:Ej; [|done]. apply built_oneofs in Ej as [Ej Hj].
  destruct (canonical_at i f Hf) as [Hcs _].
  assert (is_present (get_slot c i) = true) as Hp.
  { apply singular_keys in Hsg as [Hk Hr].
    inversion Hcs as [E|kc es ? ? ? ? E|vs ? ? ? E|v ? ? E]; [by rewrite <- E in Hs|congruence|congruence|].
    simpl. by eapply oneof_presence. }
  rewrite (selected_at i f o Hf Eo Hp) in Ej. by injection Ej as <-.
Qed.

Lemma place_one L i f v :
  FIELDS (cls c) !! i = Some f -> i ∉ L -> singular f = true ->
  get_slot c i = mkSlot (Some (One v)) (has_presence f) ->
  _select i f (set_cell i (One v) (built c L)) = built c (i :: L).
Proof.
  intros Hf Hi Hsg Hs. destruct (canonical_at i f Hf) as [_ Hlt].
  rewrite select_unfold. cbv zeta.
  assert (deselect i f (set_cell i (One v) (built c L)) = set_cell i (One v) (built c L)) as ->.
  { pose proof (deselect_built L i f Hf Hi ltac:(by rewrite Hs) Hsg) as Hd. unfold deselect in *.
    destruct (oneof f) as [o|] eqn:Eo; [|done].
    change (_oneofs (set_cell i (One v) (built c L))) with (_oneofs (built c L)).
    destruct (_oneofs (built c L) !! o) as [j|] eqn:Ej; [|done].
    apply built_oneofs in Ej as [Ej Hj].
    rewrite (selected_at i f o Hf Eo) in Ej; [by injection Ej as <-|].
    rewrite Hs. by eapply oneof_presence. }
  destruct (has_presence f) eqn:Ep.
  - apply fill_built.
    + unfold chosen. by destruct (oneof f).
    + unfold mark_present, chosen. destruct (oneof f); simpl; by rewrite !length_insert, length_imap.
    + intros j. unfold mark_present.
      rewrite get_set_slot by (unfold chosen; destruct (oneof f); simpl; by rewrite length_insert, length_imap).
      assert (forall k, get_slot (chosen i f (set_cell i (One v) (built c L))) k =
        get_slot (set_cell i (One v) (built c L)) k) as Hch by (intros k; unfold chosen; by destruct (oneof f)).
      rewrite !Hch, !get_set_cell by by rewrite length_built.
      rewrite (decide_True (P := i = i)) by done. case_decide; [by rewrite Hs|done].
    + intros o j. unfold chosen. destruct (oneof f) as [o'|] eqn:Eo; simpl.
      * rewrite lookup_insert_Some. rewrite (built_oneofs L).
        pose proof (selected_at i f o' Hf Eo ltac:(by rewrite Hs)) as Hsel. split.
        -- intros [[<- <-]|[Hne [Hoj Hj]]]; [by split; [|left]|by split; [|right]].
        -- intros [Hoj [->|Hj]].
           ++ left. split; [|done]. apply (c_oneofs c Hc) in Hoj as (f' & Hf' & Ho' & _). naive_solver.
           ++ destruct (decide (o' = o)) as [->|]; [|by right]. exfalso. naive_solver.
      * apply (oneofs_same L i f); [done|by right].
    + unfold chosen. by destruct (oneof f).
    + unfold chosen. by destruct (oneof f).
  - unfold chosen. destruct (oneof f) as [o|] eqn:Eo; [by rewrite (oneof_presence f o Eo) in Ep|].
    by apply (place_cell L i f).
Qed.

Lemma place_built L i f :
  FIELDS (cls c) !! i = Some f -> i ∉ L -> place i f (get_slot c i) (built c L) = built c (i :: L).
Proof.
  intros Hf Hi. destruct (canonical_at i f Hf) as [Hcs Hlt]. unfold place.
  remember (get_slot c i) as s eqn:Es. destruct Hcs; simpl.
  - apply fill_built; [done|by rewrite length_built| | |done|done].
    + intros j. case_decide; [|done]. subst j. by rewrite get_built, decide_False.
    + intros o j. apply (oneofs_same L i f); [done|]. left. by rewrite <- Es.
  - by eapply place_cell.
  - by eapply place_cell.
  - by apply place_one.
Qed.

(** ** Cloning *)

Section Clone.
Context (clone : nat -> message -> result message_error message).
Context (mf : message -> message -> result message_error message).
Context (HS : schema_ok _).

(** Cloning and normalising leave the values of a slot alone. *)
Definition stable (f : Field) (v : value) : Prop :=
  normalize_value (codec_of f) v = Ok v /\ copy_value clone (codec_of f) v = Ok v.

Lemma traverse_id {A} (g : A -> result message_error A) l : Forall (fun a => g a = Ok a) l -> traverse g l = Ok l.
Proof. induction 1 as [|a l Ha _ IH]; [done|]. cbn [traverse]. rewrite Ha. cbn [mbind result_bind]. by rewrite IH. Qed.

Lemma stable_prepare f v : stable f v -> _prepare clone (codec_of f) v = Ok v.
Proof. intros [H1 H2]. unfold _prepare. by rewrite H1. Qed.

Lemma map_set_new f kc es k v :
  key_codec_ok kc -> scalar_ok kc k -> stable f v -> k ∉ es.*1 ->
  map_set clone kc (codec_of f) es (k, v) = Ok (es ++ [(k, v)]).
Proof.
  intros Hkc Hk Hv Hn. unfold map_set. simpl. rewrite (normalize_key_ok HS) by done.
  rewrite stable_prepare by done. cbn [mbind result_bind]. by rewrite dict_set_new.
Qed.

Lemma fold_map_set f kc es es0 :
  key_codec_ok kc -> Forall (fun e => scalar_ok kc e.1) es -> Forall (stable f) es.*2 ->
  dict_wf (es0 ++ es) -> fold_result (map_set clone kc (codec_of f)) es es0 = Ok (es0 ++ es).
Proof.
  intros Hkc. revert es0. induction es as [|[k v] es IH]; intros es0 Hk Hv Hwf; [by rewrite app_nil_r|].
  apply Forall_cons in Hk as [Hk Hks]. apply Forall_cons in Hv as [Hv Hvs]. cbn [fold_result].
  unfold dict_wf in *. rewrite map_set_new; [|done..|].
  - cbn [mbind result_bind]. rewrite IH; [by rewrite <- app_assoc|done..|by rewrite <- app_assoc].
  - rewrite fmap_app in Hwf. apply NoDup_app in Hwf as (_ & Hd & _). intros Hin. apply (Hd k Hin). left.
Qed.

Lemma merge_field_canonical L i f :
  FIELDS (cls c) !! i = Some f -> i ∉ L -> Forall (stable f) (slot_values (get_slot c i)) ->
  merge_field clone mf c (built c L) (i, f) = Ok (built c (i :: L)).
Proof.
  intros Hf Hi Hst. pose proof (place_built L i f Hf Hi) as Hp. destruct (canonical_at i f Hf) as [Hcs Hlt].
  assert (get_slot (built c L) i = no_slot) as Hb by by rewrite get_built, decide_False.
  unfold merge_field, place in *. rewrite Hb. remember (get_slot c i) as s eqn:Es.
  destruct Hcs as [|kc es Hk Hne Hwf Hks|vs Hk Hr Hne|v Hsg Hhv];
    unfold entries_of, items_of, slot_values in *; cbn [cell_of no_slot] in *.
  - rewrite <- Hp. destruct (map_key_codec f) eqn:Ek; [done|]. destruct (repeated f) eqn:Er; [done|].
    unfold _field_has_value, _field_is_default, map_field. rewrite Ek, Er. simpl.
    by destruct (has_presence f).
  - rewrite Hk. destruct es as [|e es]; [done|]. rewrite (fold_map_set f kc (e :: es) []); [|..|done|done|done].
    + cbn [mbind result_bind app]. by rewrite Hp.
    + eapply f_key; [|exact Hk].
      exact (proj1 (Forall_forall _ _) (s_fields HS (cls c)) f (list_elem_of_lookup_2 _ _ _ Hf)).
  - rewrite Hk, Hr. destruct vs as [|v vs]; [done|]. unfold extend. rewrite traverse_id.
    + cbn [mbind result_bind app]. by rewrite Hp.
    + eapply Forall_impl; [exact Hst|]. intros w. apply stable_prepare.
  - apply singular_keys in Hsg as [Hk Hr]. rewrite Hk, Hr, Hhv. cbn [negb].
    apply Forall_cons in Hst as [[_ Hcp] _]. rewrite Hcp. cbn [mbind result_bind]. by rewrite Hp.
Qed.

Lemma fold_canonical l L :
  NoDup (l.*1 ++ L) -> (forall x, x ∈ l -> FIELDS (cls c) !! x.1 = Some x.2) ->
  (forall i f, FIELDS (cls c) !! i = Some f -> Forall (stable f) (slot_values (get_slot c i))) ->
  fold_result (merge_field clone mf c) l (built c L) = Ok (built c (reverse l.*1 ++ L)).
Proof.
  revert L. induction l as [|[i f] l IH]; intros L Hnd Hin Hst; [done|]. cbn [fold_result].
  simpl in Hnd. apply NoDup_cons in Hnd as [Hi Hnd]. rewrite not_elem_of_app in Hi. destruct Hi as [Hi1 Hi2].
  rewrite merge_field_canonical; [|apply (Hin (i, f)); left|done|apply Hst, (Hin (i, f)); left].
  cbn [mbind result_bind]. rewrite IH.
  - f_equal. f_equal. simpl. by rewrite reverse_cons, <- app_assoc.
  - rewrite <- Permutation_middle. constructor; [|done]. by rewrite not_elem_of_app.
  - intros x Hx. apply Hin. by right.
  - done.
Qed.

End Clone.

End Place.

Lemma indexed_fst c : (indexed c).*1 = seq 0 (length (FIELDS c)).
Proof. unfold indexed. apply fst_zip. by rewrite length_seq. Qed.

(** Merging a canonical message into a new one gives that message. *)
Lemma merge_canonical fuel c :
  schema_ok _ -> canonical c ->
  (forall i f, FIELDS (cls c) !! i = Some f ->
     Forall (stable (fun k m => MergeFrom fuel (Clear (new k)) m) f) (slot_values (get_slot c i))) ->
  MergeFrom (S fuel) (new (cls c)) c = Ok c.
Proof.
  intros HS Hc Hst. cbn [MergeFrom cls new]. rewrite Nat.eqb_refl. cbn [negb].
  rewrite <- (built_nil c) by by apply canon_length.
  rewrite (fold_canonical c Hc _ _ HS); [|..|exact Hst].
  - cbn [mbind result_bind]. f_equal. rewrite app_nil_r. cbn [_unknown_fields built app].
    apply built_all; [|apply Hc|apply Hc|by apply canon_length].
    intros i Hi. rewrite elem_of_reverse, indexed_fst. apply elem_of_seq.
    rewrite canon_length in Hi by done. lia.
  - rewrite app_nil_r, indexed_fst. apply NoDup_seq.
  - intros [i f] Hx. by apply indexed_lookup in Hx.
Qed.

(** ** The canonical form is canonical *)

Section Form.
Context (HS : schema_ok _) (U : nat -> bytes -> Prop).
Context (P : message -> Prop) (cn : message -> message) (det : bool).
Context (Hcn : forall m, cls (cn m) = cls m).

Lemma insert_entry_perm (e : scalar * value) l : insert_entry e l ≡ₚ e :: l.
Proof.
  induction l as [|e' l IH]; simpl; [done|]. destruct (scalar_leb _ _); [done|].
  rewrite IH. apply Permutation_swap.
Qed.

Lemma entry_order_perm (l : list (scalar * value)) : entry_order det l ≡ₚ l.
Proof.
  unfold entry_order. destruct det; [|done]. induction l as [|e l IH]; simpl; [done|].
  by rewrite insert_entry_perm, IH.
Qed.

Lemma entry_order_nil (l : list (scalar * value)) : entry_order det l = [] <-> l = [].
Proof.
  split; intros E.
  - apply Permutation_nil_r. by rewrite <- E, entry_order_perm.
  - subst. unfold entry_order. by destruct det.
Qed.

Lemma canon_entries_ok kc c es :
  entries_ok P kc c es ->
  dict_wf (canon_entry cn <$> entry_order det es) /\
  Forall (fun e => scalar_ok kc e.1) (canon_entry cn <$> entry_order det es) /\
  Forall (value_ok P c) (entry_order det es).*2.
Proof.
  intros [Hwf Hall]. rewrite <- entry_order_perm in Hall. unfold dict_wf in *.
  assert ((canon_entry cn <$> entry_order det es).*1 = (entry_order det es).*1) as E.
  { rewrite <- list_fmap_compose. by apply list_fmap_ext. }
  split; [rewrite E; by rewrite entry_order_perm|]. split.
  - apply Forall_fmap. eapply Forall_impl; [exact Hall|]. by intros e [? _].
  - apply Forall_fmap. eapply Forall_impl; [exact Hall|]. by intros e [_ ?].
Qed.

(** Canonical values of a slot. *)
Lemma canon_slot_values f s :
  slot_ok P f s ->
  exists vs, slot_values (canon_slot cn det f s) = canon_value cn <$> vs /\ Forall (value_ok P (codec_of f)) vs.
Proof.
  intros Hs. assert (exists vs, @nil value = canon_value cn <$> vs /\ Forall (value_ok P (codec_of f)) vs)
    as Hnil by by exists [].
  unfold canon_slot. destruct (map_key_codec f) as [kc|] eqn:Ek.
  - pose proof (slot_entries_ok P f s kc Hs Ek) as Hes.
    destruct (entries_of s) as [|e es] eqn:Ee; [done|].
    destruct (canon_entries_ok kc (codec_of f) (e :: es) Hes) as (_ & _ & Hv).
    exists (entry_order det (e :: es)).*2. split; [|done]. unfold slot_values. cbn [cell_of].
    by rewrite <- !list_fmap_compose.
  - destruct (repeated f) eqn:Er.
    + pose proof (items_ok P f s Hs Ek Er) as Hit. destruct (items_of s) as [|v vs] eqn:Ei; [done|].
      by exists (v :: vs).
    + destruct (_field_has_value f s); [|done]. destruct (cell_of s) as [[v| |]|] eqn:Ec; try done.
      exists [v]. split; [done|]. constructor; [|done].
      pose proof (sl_cell _ _ _ Hs _ Ec) as Hc. unfold cell_ok in Hc. rewrite Ek in Hc. by destruct Hc.
Qed.

(** A value compared with a default is a scalar. *)
Lemma value_eqb_canon v s : value_eqb (canon_value cn v) s = value_eqb v s.
Proof. by destruct v. Qed.

Lemma canon_slot_canonical f s :
  slot_ok P f s ->
  canonical_slot f (canon_slot cn det f s) /\ is_present (canon_slot cn det f s) = is_present s.
Proof.
  intros Hs. assert (is_present s = true -> singular f = true) as Hsg by apply (sl_present _ _ _ Hs).
  unfold canon_slot. destruct (map_key_codec f) as [kc|] eqn:Ek.
  - assert (is_present s = false) as Hp.
    { destruct (is_present s); [|done]. apply singular_keys in Hsg as [? _]; [congruence|done]. }
    rewrite Hp. pose proof (slot_entries_ok P f s kc Hs Ek) as Hes.
    destruct (entries_of s) as [|e es] eqn:Ee; [by split; [constructor|]|].
    destruct (canon_entries_ok kc (codec_of f) (e :: es) Hes) as (Hwf & Hk & _).
    split; [|done]. apply (cs_map _ kc); [done| |done|done].
    intros E%fmap_nil_inv. by apply (proj1 (entry_order_nil _)) in E.
  - destruct (repeated f) eqn:Er.
    + assert (is_present s = false) as Hp.
      { destruct (is_present s); [|done]. apply singular_keys in Hsg as [_ ?]; [congruence|done]. }
      rewrite Hp. destruct (items_of s) as [|v vs] eqn:Ei; [by split; [constructor|]|].
      split; [|done]. by apply cs_items.
    + assert (singular f = true) as Hsf by by apply singular_keys.
      assert (forall s', _field_has_value f s' = if has_presence f then is_present s'
        else negb (match cell_of s' with Some (One v) => value_eqb v (default f) | _ => true end)) as Hhv.
      { intros s'. unfold _field_has_value, _field_is_default, map_field. rewrite Ek, Er. simpl.
        by destruct (has_presence f). }
      pose proof (sl_present _ _ _ Hs) as Hpres.
      rewrite Hhv. destruct (has_presence f) eqn:Ep.
      * destruct (is_present s) eqn:Eps; [|by split; [constructor|]].
        destruct (Hpres eq_refl) as (_ & _ & Hne). destruct (cell_of s) as [x|] eqn:Ex; [|done].
        destruct (slot_one P f s x Hs Hsf Ex) as (v & -> & _). split; [|done].
        rewrite <- Ep. apply cs_one; [done|]. by rewrite Hhv, Ep.
      * assert (is_present s = false) as Hp.
        { destruct (is_present s); [|done]. by destruct (Hpres eq_refl) as (_ & ? & _). }
        rewrite Hp. destruct (cell_of s) as [x|] eqn:Ex; [|by split; [constructor|]].
        destruct (slot_one P f s x Hs Hsf Ex) as (v & -> & _).
        destruct (value_eqb v (default f)) eqn:Ev; [by split; [constructor|]|]. cbn [negb].
        split; [|done]. rewrite <- Ep. apply cs_one; [done|]. rewrite Hhv, Ep. cbn [cell_of].
        by rewrite value_eqb_canon, Ev.
Qed.

Lemma canon_get m i f :
  body_ok U P m -> FIELDS (cls m) !! i = Some f ->
  get_slot (canon_body cn det m) i = canon_slot cn det f (get_slot m i).
Proof.
  intros [Hs _ _] Hf. destruct (Forall2_lookup_l _ _ _ _ _ Hs Hf) as (s & Hl & _).
  unfold get_slot. cbn [slots canon_body]. by rewrite lookup_zip_with, Hf, Hl.
Qed.

Lemma canon_canonical m : body_ok U P m -> canonical (canon_body cn det m).
Proof.
  intros Hm. pose proof Hm as [Hs Ho Hu]. split; [| |done].
  - cbn [cls slots canon_body]. apply Forall2_same_length_lookup_2.
    + rewrite length_zip_with, (Forall2_length _ _ _ Hs). lia.
    + intros i f s Hf Hz. rewrite lookup_zip_with, Hf in Hz.
      destruct (slots m !! i) as [s0|] eqn:E0; [|done]. injection Hz as <-.
      destruct (Forall2_lookup_l _ _ _ _ _ Hs Hf) as (s' & Hl & Hok).
      rewrite E0 in Hl. injection Hl as <-. by apply canon_slot_canonical.
  - intros o i. change (_oneofs (canon_body cn det m)) with (_oneofs m). rewrite (Ho o i).
    change (cls (canon_body cn det m)) with (cls m).
    split; intros (f & Hf & Hof & Hp); exists f; (split; [done|]); (split; [done|]);
      destruct (body_slot _ _ _ _ _ Hm Hf) as [Hsl _]; revert Hp;
      rewrite (canon_get m i f Hm Hf), (proj2 (canon_slot_canonical f _ Hsl)); done.
Qed.

End Form.

(** Cloning leaves a canonical message as it is. *)
Lemma clone_canon U n fuel det m :
  schema_ok _ -> (n <= fuel)%nat -> message_ok U n m ->
  MergeFrom fuel (new (cls m)) (canon n det m) = Ok (canon n det m).
Proof.
  intros HS. revert fuel m. induction n as [|n IH]; intros fuel m Hf Hm; [done|].
  destruct fuel as [|fuel]; [lia|]. cbn [message_ok canon] in *.
  change (cls m) with (cls (canon_body (canon n det) det m)).
  apply merge_canonical; [done|by eapply canon_canonical|].
  intros i f Hfi. change (cls (canon_body (canon n det) det m)) with (cls m) in Hfi.
  rewrite (canon_get U (message_ok U n)) with (f := f) by done.
  destruct (body_slot _ _ _ _ _ Hm Hfi) as [Hsl _].
  destruct (canon_slot_values (message_ok U n) (canon n det) det f _ Hsl) as (vs & -> & Hvs).
  apply Forall_fmap. eapply Forall_impl; [exact Hvs|]. intros v Hv. unfold stable. simpl.
  destruct v as [s|mv]; simpl.
  - split; [by apply (normalize_value_ok HS (message_ok U n))|by destruct (codec_of f)].
  - destruct (codec_of f) as [| | | | |k]; try done. simpl in *. destruct Hv as [Ek Hmv].
    rewrite cls_canon, Ek, decide_True by done. split; [done|]. rewrite Clear_new, <- Ek.
    rewrite IH by (done || lia). done.
Qed.

End Canon.
