(* ===== verification/MessageRoundtrip.v ===== *)
(** * Parsing what was serialized

    The bytes [SerializeToString] writes for a field are consumed by the
    parsing loop and place the field's canonical slot; so parsing a serialized
    message gives its canonical form. *)
From stdpp Require Import gmap.
From S2P Require Import Prelude PyStr Json FieldMask Bytes Wire WireSpec WireSkip ValueCodec Message MessageInv MessageOps MessageParse MessageCanon.

(** ** Scalars *)

(** A codec seen through an injection of its values. *)
Lemma inj_codec {A} (w : W A) (rd : M A) dom (inj : A -> scalar) (prj : scalar -> option A) (w' : W scalar) :
  Codec w rd dom -> (forall s a, prj s = Some a <-> s = inj a) ->
  (forall s self, w' s self = match prj s with Some a => w a self | None => Raise StructError end) ->
  Codec w' (x ← rd; mret (inj x)) (fun s => match prj s with Some a => dom a | None => false end).
Proof.
  intros Hc Hp Hw. split; intros s.
  - destruct (prj s) as [a|] eqn:E; [|done]. intros Ha.
    destruct (codec_in a Ha) as (enc & He & Hr & Hok & Hne). exists enc. split_and!; try done.
    + intros self. by rewrite Hw, E.
    + apply Hp in E as ->. by apply reads_bind_ret.
  - intros self Hd. rewrite Hw. destruct (prj s) as [a|]; [|done]. by apply (codec_out (Codec := Hc)).
Qed.

Lemma codec_writes {A} (w : W A) (rd : M A) dom v self self' :
  Codec w rd dom -> w v self = Ok self' ->
  dom v = true /\ exists enc, self' = self ++ enc /\ reads rd enc v /\ enc <> [].
Proof.
  intros Hc Hw. destruct (dom v) eqn:E.
  - split; [done|]. destruct (codec_in v E) as (enc & He & Hr & _ & Hne). rewrite He in Hw.
    injection Hw as <-. eauto.
  - pose proof (codec_out (Codec := Hc) v self E) as Hn. by rewrite Hw in Hn.
Qed.

(** The packable codecs and strings. *)
Lemma scalar_Codec c :
  codec_ok c -> scalar_codec c = true -> c <> CBytes -> exists dom, Codec (write_scalar c) (read_scalar c) dom.
Proof.
  intros Hc Hs Hb. destruct c as [c| | | | |k]; try done.
  - destruct (ic_codec c Hc) as (dom & Hd & _). eexists.
    eapply (inj_codec _ _ dom IntV (fun s => match s with IntV n => Some n | _ => None end)); [done|..].
    + intros [] a; naive_solver.
    + by intros [] self.
  - eexists. eapply (inj_codec _ _ _ BoolV (fun s => match s with BoolV n => Some n | _ => None end) _ bool_codec).
    + intros [] a; naive_solver.
    + by intros [] self.
  - eexists. eapply (inj_codec _ _ _ FloatV (fun s => match s with FloatV n => Some n | _ => None end) _ double_codec).
    + intros [] a; naive_solver.
    + by intros [] self.
  - eexists. eapply (inj_codec _ _ _ StrV (fun s => match s with StrV n => Some n | _ => None end) _ string_codec).
    + intros [] a; naive_solver.
    + by intros [] self.
Qed.

Lemma write_bytes_writes b w w' :
  BinaryWriter.write_bytes b w = Ok w' ->
  exists enc, w' = w ++ enc /\ reads BinaryReader.read_bytes enc b /\ enc <> [].
Proof.
  intros Hw. destruct (decide (Z.of_nat (length b) < 2 ^ 64)) as [Hl|Hl].
  - destruct (reads_bytes b Hl) as (enc & He & Hr & Hne & _). rewrite He in Hw. injection Hw as <-. eauto.
  - pose proof (write_bytes_long b w ltac:(lia)) as Hn. by rewrite Hw in Hn.
Qed.

Lemma scalar_writes c s w w' :
  codec_ok c -> scalar_ok c s -> write_scalar c s w = Ok w' ->
  exists enc, w' = w ++ enc /\ reads (read_scalar c) enc s /\ enc <> [].
Proof.
  intros Hc Hs Hw. destruct (scalar_codec c) eqn:Esc; [|by destruct c, s].
  assert (c = CBytes \/ c <> CBytes) as [->|Hb] by (destruct c; by (left + right)).
  - destruct s as [| | |b|]; try done. cbn in Hw.
    destruct (write_bytes_writes b w w' Hw) as (enc & -> & Hr & Hne). exists enc. split; [done|].
    split; [|done]. by apply (reads_bind_ret BinaryReader.read_bytes BytesV).
  - destruct (scalar_Codec c Hc Esc Hb) as [dom Hd].
    by destruct (codec_writes _ _ _ _ _ _ Hd Hw) as [_ ?].
Qed.

Lemma lift_Ok {A} (r : result wire_error A) a : lift_wire r = Ok a -> r = Ok a.
Proof. destruct r; simpl; congruence. Qed.

Lemma bind_result_Ok {E A B} (r : result E A) (k : A -> result E B) b :
  r ≫= k = Ok b -> exists a, r = Ok a /\ k a = Ok b.
Proof. destruct r as [a|]; [|done]. intros Hk. by exists a. Qed.

Lemma tag_writes n t w w' :
  in_range 1 (_MAX_FIELD_NUMBER + 1) n = true -> 0 <= t <= 5 ->
  lift_wire (BinaryWriter.write_tag n t w) = Ok w' ->
  exists tag, w' = w ++ tag /\ tag <> [] /\
    forall pre, reads_at BinaryReader.read_tag pre tag (n, t, Z.of_nat (length pre)).
Proof.
  intros Hn Ht Hw%lift_Ok. destruct (tag_enc n t Hn Ht) as (tag & He & Hne & Hr).
  rewrite He in Hw. injection Hw as <-. eauto.
Qed.

Lemma lift_reads {A} (m : M A) enc v pre post :
  reads m enc v -> lift_read m (before pre enc post 100) = Ok (v, after pre enc post 100).
Proof. intros Hr. unfold lift_read, before. by rewrite Hr. Qed.

Lemma lift_tag n t tag rest pre post :
  reads_at BinaryReader.read_tag pre tag (n, t, Z.of_nat (length pre)) ->
  lift_read BinaryReader.read_tag (before pre (tag ++ rest) post 100) =
  Ok (n, t, Z.of_nat (length pre), before (pre ++ tag) rest post 100).
Proof.
  intros Hr. unfold lift_read. rewrite before_app. unfold before at 1. rewrite Hr.
  fold (after pre tag (rest ++ post) 100). by rewrite after_before.
Qed.

Lemma raw_since_after (pre tag val post : bytes) :
  exists raw, raw_since (Z.of_nat (length pre)) (after (pre ++ tag) val post 100) = Ok raw.
Proof.
  unfold raw_since, BinaryReader.raw_bytes, after. cbn [_pos _data]. rewrite length_app.
  destruct (_ || _) eqn:E; [lia|]. by eexists.
Qed.

(** ** The parsing loop on written bytes *)

Section Roundtrip.
Context `{Schema} (HS : schema_ok _).
Context (P : message -> Prop) (cn : message -> message) (det : bool).
Context (ser : message -> result message_error bytes).
Context (from : nat -> bytes -> result message_error message) (fuel : nat).
Context (Hcls : forall m, cls (cn m) = cls m).
Context (Hser : forall m b, P m -> ser m = Ok b -> from (cls m) b = Ok (cn m)).
Context (Hclone : forall m, P m -> clone_message fuel (cls m) (cn m) = Ok (cn m)).

(** [enc], wherever it stands, takes the loop from [s] to [s']. *)
Definition consumes (enc : bytes) (s s' : message) : Prop :=
  exists k, (k <= length enc)%nat /\ forall F pre post,
    merge_loop from fuel (k + F) s (before pre enc post 100) =
    merge_loop from fuel F s' (after pre enc post 100).

Lemma consumes_nil s : consumes [] s s.
Proof.
  exists 0%nat. split; [done|]. intros F pre post. unfold before, after. simpl. by rewrite Nat.add_0_r.
Qed.

Lemma consumes_app e1 e2 s1 s2 s3 : consumes e1 s1 s2 -> consumes e2 s2 s3 -> consumes (e1 ++ e2) s1 s3.
Proof.
  intros (k1 & Hk1 & H1) (k2 & Hk2 & H2). exists (k1 + k2)%nat. split; [rewrite length_app; lia|].
  intros F pre post. by rewrite before_app, <- Nat.add_assoc, H1, after_before, H2, after_app.
Qed.

Lemma consumes_step enc s s' :
  enc <> [] -> (forall pre post, merge_step from fuel s (before pre enc post 100) = Ok (s', after pre enc post 100)) ->
  consumes enc s s'.
Proof.
  intros Hne Hs. exists 1%nat. split; [destruct enc; [done|simpl; lia]|]. intros F pre post.
  cbn [Nat.add merge_loop].
  assert (BinaryReader.eof (before pre enc post 100) = false) as ->.
  { unfold BinaryReader.eof, before. cbn [_pos _data]. rewrite !length_app. destruct enc; [done|].
    simpl length. lia. }
  by rewrite Hs.
Qed.

Lemma merge_loop_whole enc s s' :
  consumes enc s s' -> merge_loop from fuel (length enc) s (reader enc) = Ok s'.
Proof.
  intros (k & Hk & Hl). specialize (Hl (length enc - k)%nat [] []).
  replace (k + (length enc - k))%nat with (length enc) in Hl by lia.
  replace (before [] enc [] 100) with (reader enc) in Hl by (unfold before, reader; by rewrite app_nil_r).
  rewrite Hl. assert (BinaryReader.eof (after [] enc [] 100) = true) as He.
  { unfold BinaryReader.eof, after. cbn [_pos _data]. rewrite !length_app. simpl. lia. }
  destruct (length enc - k)%nat; cbn [merge_loop]; by rewrite He.
Qed.

(** The field of a number. *)
Lemma field_by_number_at c i f : FIELDS c !! i = Some f -> field_by_number c (number f) = Some (i, f).
Proof.
  intros Hf. destruct (field_by_number c (number f)) as [[j g]|] eqn:E.
  - apply field_by_number_Some in E as [Hg En].
    pose proof (NoDup_lookup (number <$> FIELDS c) i j (number f) (s_numbers HS c)) as Hij.
    rewrite !list_lookup_fmap, Hf, Hg in Hij. simpl in Hij. rewrite En in Hij.
    specialize (Hij eq_refl eq_refl). subst j. congruence.
  - exfalso. apply indexed_lookup in Hf. unfold field_by_number in E.
    assert (forall (l : list (nat * Field)) acc,
      foldl (fun acc '(i, g) => if number g =? number f then Some (i, g) else acc) acc l = None ->
      acc = None /\ forall x, x ∈ l -> number x.2 <> number f) as Hl.
    { induction l as [|[j g] l IH]; intros acc; cbn [foldl].
      - intros ->. split; [done|]. intros x Hx. inversion Hx.
      - intros Hn. apply IH in Hn as [Hn1 Hn2]. destruct (number g =? number f) eqn:Eg; [done|].
        split; [done|]. intros x [->|Hx]%elem_of_cons; [simpl; lia|by apply Hn2]. }
    destruct (Hl _ _ E) as [_ Hne]. by apply (Hne (i, f)).
Qed.

(** *** Values *)

Lemma wire_type_range c : codec_ok c -> 0 <= wire_type_of c <= 5.
Proof.
  intros Hc. destruct c as [c| | | | |k]; simpl; unfold WIRE_VARINT, WIRE_FIXED64, WIRE_LENGTH_DELIMITED; try lia.
  destruct (ic_wire c Hc) as [-> | [-> | ->]]; unfold WIRE_VARINT, WIRE_FIXED64, WIRE_FIXED32; lia.
Qed.

Lemma packable_wire c : codec_ok c -> packable_of c = true -> (wire_type_of c =? WIRE_LENGTH_DELIMITED) = false.
Proof.
  intros Hc Hp. destruct c as [c| | | | |k]; try done. simpl.
  destruct (ic_wire c Hc) as [-> | [-> | ->]]; done.
Qed.

Lemma write_val_reads c v w w' :
  codec_ok c -> value_ok P c v -> write_val ser c v w = Ok w' ->
  exists enc, w' = w ++ enc /\ enc <> [] /\ forall pre post,
    read_val from c (before pre enc post 100) = Ok (canon_value cn v, after pre enc post 100).
Proof.
  intros Hc Hv Hw. destruct v as [s|m]; cbn [write_val] in Hw.
  - assert (scalar_ok c s) as Hs by by destruct c.
    destruct (scalar_writes c s w w' Hc Hs (lift_Ok _ _ Hw)) as (enc & -> & Hr & Hne).
    exists enc. split_and!; try done. intros pre post.
    assert (read_val from c (before pre enc post 100) =
      '(s, r) ← lift_read (read_scalar c) (before pre enc post 100); Ok (Scalar s, r)) as ->
      by by destruct c.
    by rewrite (lift_reads _ _ _ pre post Hr).
  - apply bind_result_Ok in Hw as (b & Hb & Hw%lift_Ok).
    destruct (write_bytes_writes b w w' Hw) as (enc & -> & Hr & Hne). exists enc. split_and!; try done.
    intros pre post. destruct c as [| | | | |k]; try done. simpl in Hv. destruct Hv as [<- Hm].
    cbn [read_val]. rewrite (lift_reads _ _ _ pre post Hr). cbn [mbind result_bind].
    by rewrite (Hser m b Hm Hb).
Qed.

(** Canonical values pass the containers unchanged. *)
Lemma canon_value_stable f v : value_ok P (codec_of f) v -> stable (clone_message fuel) f (canon_value cn v).
Proof.
  intros Hv. destruct v as [s|m]; simpl.
  - split; [by apply (normalize_value_ok HS P)|by destruct (codec_of f)].
  - unfold stable. destruct (codec_of f) as [| | | | |k]; try done. simpl in *. destruct Hv as [Ek Hm].
    rewrite Hcls, Ek, decide_True by done. split; [done|]. rewrite <- Ek, Hclone by done. done.
Qed.

Lemma canon_closed c v : codec_ok c -> value_ok P c v -> closed_unknown c (canon_value cn v) = false.
Proof.
  intros Hc Hv. destruct c as [c| | | | |k], v as [s|m]; try done. destruct s; try done. by apply ic_closed.
Qed.

(** *** Fields *)

Section Field.
Context (c i : nat) (f : Field).
Context (Hf : FIELDS c !! i = Some f).
Context (Hc : codec_ok (codec_of f)) (Hn : in_range 1 (_MAX_FIELD_NUMBER + 1) (number f) = true).


(** One value, with its own tag. *)
Lemma write_field_consumes v w w' :
  map_key_codec f = None -> value_ok P (codec_of f) v -> _write_field ser f v w = Ok w' ->
  exists enc, w' = w ++ enc /\ forall s s', cls s = c ->
    (if repeated f then set_cell i (Items (items_of (get_slot s i) ++ [canon_value cn v])) s = s'
     else set_singular fuel i f (canon_value cn v) s = Ok s') -> consumes enc s s'.
Proof.
  intros Hk Hv Hw. apply bind_result_Ok in Hw as (w1 & Ht & Hw).
  apply tag_writes in Ht as (tag & -> & Hne & Htag); [|done|by apply wire_type_range].
  destruct (write_val_reads _ v _ _ Hc Hv Hw) as (val & -> & Hnv & Hval).
  exists (tag ++ val). split; [by rewrite app_assoc|]. intros s s' Hs Hs'.
  apply consumes_step; [by destruct tag|]. intros pre post. unfold merge_step.
  rewrite (lift_tag _ _ _ _ _ _ (Htag pre)). cbn [mbind result_bind].
  rewrite Hs, (field_by_number_at c i f Hf). unfold _try_decode_field. rewrite Hk.
  assert (repeated f && packable_of (codec_of f) && (wire_type_of (codec_of f) =? WIRE_LENGTH_DELIMITED) = false)
    as ->.
  { destruct (packable_of (codec_of f)) eqn:Ep; [|by rewrite andb_false_r].
    by rewrite (packable_wire _ Hc Ep), andb_false_r. }
  rewrite Z.eqb_refl. cbn [negb]. rewrite Hval. cbn [mbind result_bind].
  destruct (raw_since_after pre tag val post) as [raw Hraw]. rewrite Hraw. cbn [mbind result_bind].
  rewrite (canon_closed _ _ Hc Hv), after_app.
  destruct (repeated f).
  - unfold extend. cbn [traverse]. rewrite stable_prepare by by apply canon_value_stable.
    cbn [mbind result_bind]. by rewrite Hs'.
  - rewrite Hs'. done.
Qed.

Lemma items_set s x : (i < length (slots s))%nat -> items_of (get_slot (set_cell i (Items x) s) i) = x.
Proof. intros Hi. rewrite get_set_cell by done. by rewrite decide_True. Qed.

(** The values of a repeated field. *)
Lemma write_items_consumes vs : forall w w',
  map_key_codec f = None -> repeated f = true -> Forall (value_ok P (codec_of f)) vs ->
  fold_result (fun w v => _write_field ser f v w) vs w = Ok w' ->
  exists enc, w' = w ++ enc /\ forall s items, cls s = c -> (i < length (slots s))%nat ->
    consumes enc (set_cell i (Items items) s) (set_cell i (Items (items ++ (canon_value cn <$> vs))) s).
Proof.
  induction vs as [|v vs IH]; intros w w' Hk Hr Hvs Hw.
  - injection Hw as <-. exists []. split; [by rewrite app_nil_r|]. intros s items _ _.
    rewrite app_nil_r. apply consumes_nil.
  - apply Forall_cons in Hvs as [Hv Hvs]. apply bind_result_Ok in Hw as (w1 & Hw1 & Hw).
    destruct (write_field_consumes v w w1 Hk Hv Hw1) as (e1 & -> & H1).
    destruct (IH _ _ Hk Hr Hvs Hw) as (e2 & -> & H2). exists (e1 ++ e2). split; [by rewrite app_assoc|].
    intros s items Hs Hi. apply (consumes_app _ _ _ (set_cell i (Items (items ++ [canon_value cn v])) s)).
    + apply H1; [done|]. rewrite Hr, items_set by done. by apply set_cell_twice.
    + rewrite fmap_cons.
      replace (items ++ canon_value cn v :: (canon_value cn <$> vs))
        with ((items ++ [canon_value cn v]) ++ (canon_value cn <$> vs)) by (by rewrite <- app_assoc).
      by apply H2.
Qed.

(** A packed field. *)
Lemma write_all_dom {A} (wr : W A) (rd : M A) dom vs w w' :
  Codec wr rd dom -> BinaryWriter.write_all wr vs w = Ok w' -> forallb dom vs = true.
Proof.
  intros Hcd. revert w. induction vs as [|v vs IH]; intros w Hw; [done|]. cbn [BinaryWriter.write_all] in Hw.
  apply bind_result_Ok in Hw as (w1 & H1 & Hw). cbn [forallb].
  rewrite (proj1 (codec_writes _ _ _ _ _ _ Hcd H1)). by apply (IH w1).
Qed.

Lemma scalars_of vs : scalar_codec (codec_of f) = true -> Forall (value_ok P (codec_of f)) vs ->
  vs = Scalar <$> scalars vs /\ (canon_value cn <$> vs) = vs /\ Forall (scalar_ok (codec_of f)) (scalars vs).
Proof.
  intros Hs. induction 1 as [|v vs Hv _ (IH1 & IH2 & IH3)]; [by repeat constructor|].
  assert (exists s, v = Scalar s /\ scalar_ok (codec_of f) s) as (s & -> & Hsc).
  { destruct v as [s|m]; [exists s; split; [done|by destruct (codec_of f)]|by destruct (codec_of f)]. }
  change (scalars (Scalar s :: vs)) with (s :: scalars vs). rewrite !fmap_cons. cbn [canon_value].
  split; [by rewrite <- IH1|]. split; [by rewrite IH2|by constructor].
Qed.

Lemma packed_values_fold ss : forall s items,
  (i < length (slots s))%nat -> Forall (scalar_ok (codec_of f)) ss -> scalar_codec (codec_of f) = true ->
  fold_result (packed_value fuel i f) ss (set_cell i (Items items) s) =
  Ok (set_cell i (Items (items ++ (Scalar <$> ss))) s).
Proof.
  induction ss as [|x ss IH]; intros s items Hi Hss Hsc; [by rewrite app_nil_r|].
  apply Forall_cons in Hss as [Hx Hss]. cbn [fold_result].
  assert (value_ok P (codec_of f) (Scalar x)) as Hvx by by destruct (codec_of f).
  pose proof (canon_closed _ (Scalar x) Hc Hvx) as Hcl. cbn [canon_value] in Hcl.
  unfold packed_value. rewrite Hcl, items_set by done. unfold extend.
  cbn [traverse]. rewrite (stable_prepare _ f (Scalar x)) by by apply (canon_value_stable f (Scalar x)).
  cbn [mbind result_bind]. rewrite set_cell_twice by done.
  rewrite IH by done. by rewrite fmap_cons, <- app_assoc.
Qed.

Lemma write_packed_consumes vs w w1 w' :
  map_key_codec f = None -> repeated f = true -> packable_of (codec_of f) = true ->
  Forall (value_ok P (codec_of f)) vs ->
  lift_wire (BinaryWriter.write_tag (number f) WIRE_LENGTH_DELIMITED w) = Ok w1 ->
  BinaryWriter.write_packed (scalars vs) (write_scalar (codec_of f)) w1 = Ok w' ->
  exists enc, w' = w ++ enc /\ forall s, cls s = c -> (i < length (slots s))%nat ->
    items_of (get_slot s i) = [] -> consumes enc s (set_cell i (Items (canon_value cn <$> vs)) s).
Proof.
  intros Hk Hr Hp Hvs Ht Hw.
  assert (scalar_codec (codec_of f) = true /\ codec_of f <> CBytes) as [Hsc Hnb] by by destruct (codec_of f).
  destruct (scalars_of vs Hsc Hvs) as (E1 & E2 & Hss).
  apply tag_writes in Ht as (tag & -> & Hne & Htag); [|done|done].
  destruct (scalar_Codec _ Hc Hsc Hnb) as [dom Hcd]. unfold BinaryWriter.write_packed in Hw.
  apply bind_result_Ok in Hw as (nested & Hall & Hw).
  pose proof (write_all_dom _ _ _ _ _ _ Hcd Hall) as Hdom.
  assert (Z.of_nat (length nested) < 2 ^ 64) as Hlen.
  { destruct (decide (Z.of_nat (length nested) < 2 ^ 64)); [done|].
    pose proof (write_bytes_long nested (w ++ tag) ltac:(lia)) as Hx. unfold BinaryWriter.to_bytes in Hw.
    by rewrite Hw in Hx. }
  destruct (packed_roundtrip _ _ dom (scalars vs) nested Hdom Hall Hlen) as (enc & He & Hrd).
  specialize (He (w ++ tag)). unfold BinaryWriter.write_packed in He. rewrite Hall in He.
  cbn [mbind result_bind] in He. rewrite He in Hw. injection Hw as <-.
  exists (tag ++ enc). split; [by rewrite app_assoc|]. intros s Hs Hi Hit.
  apply consumes_step; [by destruct tag|]. intros pre post. unfold merge_step.
  rewrite (lift_tag _ _ _ _ _ _ (Htag pre)). cbn [mbind result_bind].
  rewrite Hs, (field_by_number_at c i f Hf). unfold _try_decode_field. rewrite Hk, Hr, Hp, Z.eqb_refl.
  cbn [andb]. rewrite (lift_reads _ _ _ _ _ Hrd). cbn [mbind result_bind].
  rewrite Hit, packed_values_fold by done. cbn [mbind result_bind app]. by rewrite after_app, <- E1, E2.
Qed.

(** *** Map entries *)

Context (kc : codec) (Hk : map_key_codec f = Some kc) (Hkc : key_codec_ok kc).

Lemma entry_step_key k tag kenc rest pre post e :
  (forall pre, reads_at BinaryReader.read_tag pre tag (1, wire_type_of kc, Z.of_nat (length pre))) ->
  reads (read_scalar kc) kenc k ->
  entry_step from fuel kc (codec_of f) e (before pre (tag ++ kenc ++ rest) post 100) =
  Ok (mkEntry k (e_value e) (e_seen e) (e_invalid e), before (pre ++ tag ++ kenc) rest post 100).
Proof.
  intros Ht Hr. unfold entry_step. rewrite (lift_tag _ _ _ _ _ _ (Ht pre)). cbn [mbind result_bind].
  change (1 =? 1) with true. rewrite Z.eqb_refl. cbv iota.
  rewrite before_app, (lift_reads _ _ _ _ _ Hr). cbn [mbind result_bind].
  by rewrite after_before, <- app_assoc.
Qed.

Lemma entry_step_value v tag venc pre post e :
  value_ok P (codec_of f) v -> e_seen e = false ->
  (forall pre, reads_at BinaryReader.read_tag pre tag (2, wire_type_of (codec_of f), Z.of_nat (length pre))) ->
  (forall pre post, read_val from (codec_of f) (before pre venc post 100) =
     Ok (canon_value cn v, after pre venc post 100)) ->
  entry_step from fuel kc (codec_of f) e (before pre (tag ++ venc) post 100) =
  Ok (mkEntry (e_key e) (canon_value cn v) true (e_invalid e), after pre (tag ++ venc) post 100).
Proof.
  intros Hv Hs Ht Hr. unfold entry_step. rewrite (lift_tag _ _ _ _ _ _ (Ht pre)). cbn [mbind result_bind].
  change (2 =? 1) with false. change (2 =? 2) with true. rewrite Z.eqb_refl. cbv iota.
  rewrite Hr. cbn [mbind result_bind]. unfold entry_value. rewrite (canon_closed _ _ Hc Hv), Hs, after_app.
  destruct (e_value e) as [s0|m0]; [done|]. by destruct (canon_value cn v).
Qed.

Lemma write_entry_consumes k v w w' :
  scalar_ok kc k -> value_ok P (codec_of f) v -> write_entry ser f kc w (k, v) = Ok w' ->
  exists enc, w' = w ++ enc /\ forall s, cls s = c -> (k ∉ (entries_of (get_slot s i)).*1) ->
    consumes enc s (set_cell i (Entries (entries_of (get_slot s i) ++ [(k, canon_value cn v)])) s).
Proof.
  intros Hks Hv Hw. destruct (key_codec_scalar kc Hkc) as (Hkcc & _ & _). unfold write_entry in Hw. cbn [fst snd] in Hw.
  apply bind_result_Ok in Hw as (n1 & Ht1 & Hw).
  apply tag_writes in Ht1 as (t1 & -> & Hne1 & Hr1); [|done|by apply wire_type_range].
  apply bind_result_Ok in Hw as (n2 & Hkw%lift_Ok & Hw).
  destruct (scalar_writes kc k _ _ Hkcc Hks Hkw) as (kenc & -> & Hkr & _).
  apply bind_result_Ok in Hw as (n3 & Ht2 & Hw).
  apply tag_writes in Ht2 as (t2 & -> & Hne2 & Hr2); [|done|by apply wire_type_range].
  apply bind_result_Ok in Hw as (n4 & Hvw & Hw).
  destruct (write_val_reads _ v _ _ Hc Hv Hvw) as (venc & -> & _ & Hvr).
  apply bind_result_Ok in Hw as (w1 & Ht & Hw%lift_Ok).
  apply tag_writes in Ht as (tag & -> & Hne & Htag); [|done|done].
  set (nested := BinaryWriter.to_bytes _) in Hw.
  assert (nested = t1 ++ kenc ++ t2 ++ venc) as Enest.
  { unfold nested, BinaryWriter.to_bytes, BinaryWriter.init. by rewrite <- !app_assoc. }
  destruct (write_bytes_writes nested _ _ Hw) as (enc & -> & Hrb & _).
  exists (tag ++ enc). split; [by rewrite app_assoc|]. intros s Hs Hfresh.
  apply consumes_step; [by destruct tag|]. intros pre post. unfold merge_step.
  rewrite (lift_tag _ _ _ _ _ _ (Htag pre)). cbn [mbind result_bind].
  rewrite Hs, (field_by_number_at c i f Hf). unfold _try_decode_field. rewrite Hk, Z.eqb_refl. cbn [negb].
  rewrite (lift_reads _ _ _ _ _ Hrb). cbn [mbind result_bind]. unfold _decode_map_entry.
  assert (entry_loop from fuel (length nested) kc (codec_of f)
    (mkEntry (scalar_default kc) (codec_default (codec_of f)) false false) (reader nested) =
    Ok (mkEntry k (canon_value cn v) true false)) as ->.
  { assert (exists n, length nested = S (S n)) as [n ->].
    { rewrite Enest, !length_app. destruct t1, t2; try done. exists (length t1 + length kenc + length t2 + length venc)%nat.
      simpl. lia. }
    rewrite Enest.
    assert (forall e n r, BinaryReader.eof r = false ->
      entry_loop from fuel (S n) kc (codec_of f) e r =
      '(e, r) ← entry_step from fuel kc (codec_of f) e r; entry_loop from fuel n kc (codec_of f) e r) as Hstep
      by (intros e n' r Hr; cbn [entry_loop]; by rewrite Hr).
    assert (reader (t1 ++ kenc ++ t2 ++ venc) = before [] (t1 ++ kenc ++ t2 ++ venc) [] 100) as ->
      by (unfold reader, before; by rewrite app_nil_r).
    rewrite Hstep by (unfold BinaryReader.eof, before; cbn [_pos _data]; rewrite !length_app;
      destruct t1; [done|simpl length; lia]).
    rewrite (entry_step_key k t1 kenc (t2 ++ venc) [] []) by done. cbn [mbind result_bind].
    rewrite Hstep by (unfold BinaryReader.eof, before; cbn [_pos _data]; rewrite !length_app;
      destruct t2; [done|simpl length; lia]).
    rewrite (entry_step_value v t2 venc) by done. cbn [mbind result_bind e_key e_invalid].
    destruct n; cbn [entry_loop]; (replace (BinaryReader.eof _) with true; [done|]);
      unfold BinaryReader.eof, after; cbn [_pos _data]; rewrite !length_app; simpl length; lia. }
  cbn [mbind result_bind e_invalid e_key e_value].
  rewrite (map_set_new _ HS f kc) by (done || by apply canon_value_stable).
  cbn [mbind result_bind]. by rewrite after_app.
Qed.

Lemma write_entries_consumes es : forall w w',
  Forall (entry_ok P kc (codec_of f)) es -> fold_result (write_entry ser f kc) es w = Ok w' ->
  exists enc, w' = w ++ enc /\ forall s es0, cls s = c -> (i < length (slots s))%nat -> dict_wf (es0 ++ es) ->
    consumes enc (set_cell i (Entries es0) s) (set_cell i (Entries (es0 ++ (canon_entry cn <$> es))) s).
Proof.
  induction es as [|[k v] es IH]; intros w w' Hes Hw.
  - injection Hw as <-. exists []. split; [by rewrite app_nil_r|]. intros s es0 _ _ _. rewrite app_nil_r.
    apply consumes_nil.
  - apply Forall_cons in Hes as [[Hk1 Hv1] Hes]. apply bind_result_Ok in Hw as (w1 & Hw1 & Hw).
    destruct (write_entry_consumes k v w w1 Hk1 Hv1 Hw1) as (e1 & -> & H1).
    destruct (IH _ _ Hes Hw) as (e2 & -> & H2). exists (e1 ++ e2). split; [by rewrite app_assoc|].
    intros s es0 Hs Hi Hwf.
    assert (entries_of (get_slot (set_cell i (Entries es0) s) i) = es0) as Hent
      by (rewrite get_set_cell by done; by rewrite decide_True).
    apply (consumes_app _ _ _ (set_cell i (Entries (es0 ++ [(k, canon_value cn v)])) s)).
    + specialize (H1 (set_cell i (Entries es0) s) Hs). rewrite Hent, set_cell_twice in H1 by done.
      apply H1. unfold dict_wf in Hwf. rewrite fmap_app in Hwf. apply NoDup_app in Hwf as (_ & Hd & _).
      intros Hin. apply (Hd k Hin). left.
    + rewrite fmap_cons.
      replace (es0 ++ canon_entry cn (k, v) :: (canon_entry cn <$> es))
        with ((es0 ++ [(k, canon_value cn v)]) ++ (canon_entry cn <$> es)) by (by rewrite <- app_assoc).
      apply H2; [done..|]. unfold dict_wf in *. rewrite !fmap_app in *. rewrite <- app_assoc. done.
Qed.

End Field.

(** *** Slots *)

Section Slots.
Context (U : nat -> bytes -> Prop) (m : message) (Hm : body_ok U P m).

Abbreviation target := (canon_body cn det m).

Lemma slot_facts L i f :
  FIELDS (cls m) !! i = Some f -> i ∉ L ->
  slot_ok P f (get_slot m i) /\ field_ok f /\ (i < length (slots (built target L)))%nat /\
  get_slot (built target L) i = no_slot /\ get_slot target i = canon_slot cn det f (get_slot m i).
Proof.
  intros Hf Hi. destruct (body_slot _ _ _ _ _ Hm Hf) as [Hs Hlt].
  pose proof (canon_canonical U P cn det m Hm) as Hcan.
  split; [done|]. split.
  { exact (proj1 (Forall_forall _ _) (s_fields HS (cls m)) f (list_elem_of_lookup_2 _ _ _ Hf)). }
  split; [rewrite length_built; by apply (canonical_at target Hcan i f)|].
  split; [by rewrite get_built, decide_False|by eapply canon_get].
Qed.

Lemma set_singular_built L i f v :
  FIELDS (cls m) !! i = Some f -> i ∉ L -> singular f = true -> value_ok P (codec_of f) v ->
  get_slot target i <> no_slot ->
  set_singular fuel i f (canon_value cn v) (built target L) =
  Ok (_select i f (set_cell i (One (canon_value cn v)) (built target L))).
Proof.
  intros Hf Hi Hsg Hv Hne. destruct (slot_facts L i f Hf Hi) as (_ & _ & _ & Hb & _).
  pose proof (canon_canonical U P cn det m Hm) as Hcan.
  unfold set_singular. rewrite (deselect_built target Hcan L i f) by done.
  destruct (canon_value_stable f v Hv) as [_ Hcp]. rewrite Hcp. cbn [mbind result_bind]. by rewrite Hb.
Qed.

Lemma write_slot_consumes L i f w w' :
  FIELDS (cls m) !! i = Some f -> i ∉ L -> write_slot ser det f (get_slot m i) w = Ok w' ->
  exists enc, w' = w ++ enc /\ consumes enc (built target L) (built target (i :: L)).
Proof.
  intros Hf Hi Hw. destruct (slot_facts L i f Hf Hi) as (Hs & Hfok & Hlt & Hb & Et).
  pose proof (f_codec f Hfok) as Hc. pose proof (f_number f Hfok) as Hn.
  rewrite <- (place_built target (canon_canonical U P cn det m Hm) L i f Hf Hi), Et.
  assert ((Ok w : result message_error bytes) = Ok w' -> exists enc, w' = w ++ enc /\ consumes enc (built target L) (built target L)) as Hnone.
  { intros [= <-]. exists []. split; [by rewrite app_nil_r|apply consumes_nil]. }
  unfold write_slot in Hw. unfold canon_slot in *. destruct (map_key_codec f) as [kc|] eqn:Ek.
  { pose proof (slot_entries_ok P f _ kc Hs Ek) as Hes.
    destruct (entries_of (get_slot m i)) as [|e0 es0] eqn:Ee.
    { rewrite (proj2 (entry_order_nil det []) eq_refl) in Hw. by apply Hnone. }
    assert (entry_order det (e0 :: es0) <> []) as Hne
      by (intros E; by apply (proj1 (entry_order_nil det _)) in E).
    destruct Hes as [Hwf Hall]. rewrite <- (entry_order_perm det) in Hall.
    assert (dict_wf (entry_order det (e0 :: es0))) as Hwf'
      by (unfold dict_wf in *; by rewrite (entry_order_perm det)).
    cbn [place cell_of]. destruct (entry_order det (e0 :: es0)) as [|[k v] es]; [done|].
    apply Forall_cons in Hall as [[Hk1 Hv1] Hall]. apply bind_result_Ok in Hw as (w1 & Hw1 & Hw).
    destruct (write_entry_consumes _ i f Hf Hc Hn kc Ek (f_key f Hfok kc Ek) k v w w1 Hk1 Hv1 Hw1)
      as (e1 & -> & H1).
    destruct (write_entries_consumes _ i f Hf Hc Hn kc Ek (f_key f Hfok kc Ek) es _ _ Hall Hw) as (e2 & -> & H2).
    exists (e1 ++ e2). split; [by rewrite app_assoc|]. eapply consumes_app.
    - apply H1; [done|]. rewrite Hb. simpl. apply not_elem_of_nil.
    - rewrite Hb. apply (H2 (built target L) [(k, canon_value cn v)]); [done..|].
      unfold dict_wf in *. exact Hwf'. }
  destruct (repeated f) eqn:Er.
  { pose proof (items_ok P f _ Hs Ek Er) as Hit. destruct (items_of (get_slot m i)) as [|v vs] eqn:Ei; [by apply Hnone|].
    cbn [place cell_of]. destruct (packed f && packable_of (codec_of f)) eqn:Epk.
    - apply andb_true_iff in Epk as [_ Epk]. apply bind_result_Ok in Hw as (w1 & Ht & Hw%lift_Ok).
      destruct (write_packed_consumes _ i f Hf Hc Hn (v :: vs) w w1 w' Ek Er Epk Hit Ht Hw) as (enc & -> & H1).
      exists enc. split; [done|]. apply H1; [done..|]. by rewrite Hb.
    - apply Forall_cons in Hit as [Hv Hvs]. apply bind_result_Ok in Hw as (w1 & Hw1 & Hw).
      destruct (write_field_consumes _ i f Hf Hc Hn v w w1 Ek Hv Hw1) as (e1 & -> & H1).
      destruct (write_items_consumes _ i f Hf Hc Hn vs _ _ Ek Er Hvs Hw) as (e2 & -> & H2).
      exists (e1 ++ e2). split; [by rewrite app_assoc|].
      apply (consumes_app _ _ _ (set_cell i (Items [canon_value cn v]) (built target L))).
      + apply H1; [done|]. by rewrite Er, Hb.
      + by apply (H2 (built target L) [canon_value cn v]). }
  destruct (_field_has_value f (get_slot m i)) eqn:Ev; [|by apply Hnone].
  assert (singular f = true) as Hsg by by apply singular_keys.
  destruct (cell_of (get_slot m i)) as [x|] eqn:Ex; [|done].
  destruct (slot_one P f _ x Hs Hsg Ex) as (v & -> & Hv). cbn [place cell_of].
  destruct (write_field_consumes _ i f Hf Hc Hn v w w' Ek Hv Hw) as (enc & -> & H1).
  exists enc. split; [done|]. apply H1; [done|]. rewrite Er. apply set_singular_built; try done. by rewrite Et.
Qed.

Lemma write_slots_consumes l : forall L w w',
  NoDup (l.*1 ++ L) -> (forall x, x ∈ l -> FIELDS (cls m) !! x.1 = Some x.2) ->
  fold_result (fun w '(i, f) => write_slot ser det f (get_slot m i) w) l w = Ok w' ->
  exists enc, w' = w ++ enc /\ consumes enc (built target L) (built target (reverse l.*1 ++ L)).
Proof.
  induction l as [|[i f] l IH]; intros L w w' Hnd Hin Hw.
  - injection Hw as <-. exists []. split; [by rewrite app_nil_r|apply consumes_nil].
  - simpl in Hnd. apply NoDup_cons in Hnd as [Hi Hnd]. rewrite not_elem_of_app in Hi. destruct Hi as [Hi1 Hi2].
    apply bind_result_Ok in Hw as (w1 & Hw1 & Hw).
    destruct (write_slot_consumes L i f w w1 (Hin (i, f) ltac:(left)) Hi2 Hw1) as (e1 & -> & H1).
    destruct (IH (i :: L) (w ++ e1) w') as (e2 & -> & H2); [..|done|].
    + rewrite <- Permutation_middle. constructor; [|done]. by rewrite not_elem_of_app.
    + intros x Hx. apply Hin. by right.
    + exists (e1 ++ e2). split; [by rewrite app_assoc|]. eapply consumes_app; [exact H1|].
      rewrite fmap_cons, reverse_cons, <- app_assoc. exact H2.
Qed.

End Slots.

(** *** Unknown fields *)

(** The encoding of a field whose number the class does not have. *)
Definition unknown_ok (c : nat) (raw : bytes) : Prop :=
  exists g, ufield_ok g = true /\ field_by_number c (WireSkip.number g) = None /\
    Z.of_nat (group_depth g) <= 100 /\ write_field g [] = Ok raw.

Lemma field_tag g :
  ufield_ok g = true -> exists t tag rest, (forall self, write_field g self = Ok (self ++ tag ++ rest)) /\ tag <> [] /\
    forall pre, reads_at BinaryReader.read_tag pre tag (WireSkip.number g, t, Z.of_nat (length pre)).
Proof.
  intros Hok. destruct (decide (group_depth g = 0%nat)) as [Hd|Hd].
  - destruct (flat_ok g Hok Hd) as (t & tag & val & _ & _ & Hne & Hw & Ht & _). by exists t, tag, val.
  - destruct g as [| | |n fs|]; try done.
    destruct (group_parts n fs Hok) as (tag & body & end_tag & Hw & Hne & _ & _ & Ht & _).
    { apply Forall_forall. intros g _. apply field_encoded. }
    by exists WIRE_START_GROUP, tag, (body ++ end_tag).
Qed.

Lemma unknown_consumes raw s : unknown_ok (cls s) raw -> consumes raw s (add_unknown raw s).
Proof.
  intros (g & Hok & Hnum & Hd & Hw). destruct (read_unknown_spec g Hok) as (enc & He & Hr).
  destruct (field_tag g Hok) as (t & tag & rest & Ht & Hne & Htag).
  rewrite He in Hw. injection Hw as <-. specialize (He []). rewrite Ht in He. injection He as <-.
  cbn [app] in *. apply consumes_step; [by destruct tag|]. intros pre post.
  destruct (Hr pre post 100) as [Hskip _]. specialize (Hskip Hd).
  unfold merge_step. rewrite (lift_tag _ _ _ _ _ _ (Htag pre)). cbn [mbind result_bind]. rewrite Hnum.
  unfold keep_unknown. unfold read_unknown in Hskip. rewrite bind_unfold, before_app in Hskip.
  unfold before in Hskip at 1. rewrite (Htag pre) in Hskip. fold (after pre tag (rest ++ post) 100) in Hskip.
  rewrite after_before in Hskip. unfold lift_read. by rewrite Hskip.
Qed.

Lemma unknowns_consume raws : forall s,
  Forall (unknown_ok (cls s)) raws -> consumes (concat raws) s (set_unknown (_unknown_fields s ++ raws) s).
Proof.
  induction raws as [|raw raws IH]; intros s Hr.
  - rewrite app_nil_r. destruct s. apply consumes_nil.
  - apply Forall_cons in Hr as [Hraw Hr]. simpl. eapply consumes_app; [by apply unknown_consumes|].
    pose proof (IH (add_unknown raw s) Hr) as Hi. unfold add_unknown in Hi. cbn in Hi.
    rewrite <- app_assoc in Hi. exact Hi.
Qed.

End Roundtrip.

(** ** Whole messages *)

Section Whole.
Context `{Schema} (HS : schema_ok _).

Lemma insert_field_perm x l : insert_field x l ≡ₚ x :: l.
Proof.
  induction l as [|y l IH]; simpl; [done|]. destruct (_ <=? _); [done|]. rewrite IH. apply Permutation_swap.
Qed.

Lemma sorted_fields_perm c : sorted_fields c ≡ₚ indexed c.
Proof.
  unfold sorted_fields. induction (indexed c) as [|x l IH]; simpl; [done|]. by rewrite insert_field_perm, IH.
Qed.

Lemma write_raws (raws : list bytes) (w : bytes) :
  foldl (fun w raw => BinaryWriter.write_raw raw w) w raws = w ++ concat raws.
Proof.
  revert w. induction raws as [|raw raws IH]; intros w; simpl; [by rewrite app_nil_r|].
  rewrite IH. unfold BinaryWriter.write_raw. by rewrite <- app_assoc.
Qed.

Lemma parse_serialized d det m b :
  message_ok unknown_ok d m -> serialize_to_string d det m = Ok b ->
  merge_from_string d b (new (cls m)) = Ok (canon d det m).
Proof.
  revert m b. induction d as [|d IH]; intros m b Hm Hser; [done|].
  cbn [serialize_to_string] in Hser. apply bind_result_Ok in Hser as (missing & _ & Hser).
  destruct missing; [|done]. apply bind_result_Ok in Hser as (w & Hw & [= <-]). rewrite write_raws.
  cbn [message_ok canon merge_from_string] in *.
  set (target := canon_body (canon d det) det m).
  set (from := fun k b => merge_from_string d b (Clear (new k))).
  assert (forall m b, message_ok unknown_ok d m -> serialize_to_string d det m = Ok b ->
    from (cls m) b = Ok (canon d det m)) as Hfrom.
  { intros m' b' Hm' Hb'. unfold from. rewrite Clear_new. by apply IH. }
  assert (forall m, message_ok unknown_ok d m ->
    clone_message (S d) (cls m) (canon d det m) = Ok (canon d det m)) as Hclone.
  { intros m' Hm'. unfold clone_message, CopyFrom. rewrite cls_canon, Nat.eqb_refl. cbn [negb].
    rewrite Clear_new. apply (clone_canon unknown_ok); [done|lia|done]. }
  pose proof (canon_canonical unknown_ok _ (canon d det) det m Hm) as Hcan. fold target in Hcan.
  destruct (write_slots_consumes HS (message_ok unknown_ok d) (canon d det) det (serialize_to_string d det)
    from (S d) (cls_canon d det) Hfrom Hclone unknown_ok m Hm (sorted_fields (cls m)) [] [] w) as (enc & -> & Hc).
  { rewrite app_nil_r, sorted_fields_perm, indexed_fst. apply NoDup_seq. }
  { intros [i f] Hx. rewrite sorted_fields_perm in Hx. by apply indexed_lookup in Hx. }
  { exact Hw. }
  apply merge_loop_whole. rewrite app_nil_l. fold target in Hc.
  change (new (cls m)) with (new (cls target)). rewrite <- (built_nil target) by by apply canon_length.
  eapply consumes_app; [exact Hc|].
  assert (forall i, (i < length (slots target))%nat -> i ∈ reverse (sorted_fields (cls m)).*1 ++ []) as Hall.
  { intros i Hi. rewrite app_nil_r, elem_of_reverse, sorted_fields_perm, indexed_fst. apply elem_of_seq.
    rewrite (canon_length target Hcan) in Hi. change (cls target) with (cls m) in Hi. lia. }
  rewrite <- (built_all target _ Hall (c_oneofs _ Hcan) (c_mask _ Hcan) (canon_length target Hcan)) at 2.
  apply (unknowns_consume from (S d) (_unknown_fields m)). exact (b_unknown _ _ _ Hm).
Qed.

End Whole.
