(* ===== verification/MessageEncode.v ===== *)
(** * Serialization succeeds

    Finding the missing required fields ends without an error on every message
    whose nesting fits the limit, and finds none when all of them are there.  When
    none is missing and every text has a UTF-8 encoding, [SerializeToString] returns
    bytes; the exceptions left are that of a part of at least 2^64 bytes, whose
    length has no varint, and that of a nested message whose own class allows less
    nesting than it has. *)
From stdpp Require Import gmap.
From S2P Require Import Prelude PyStr Json FieldMask Bytes Wire WireSpec WireSkip ValueCodec Message MessageInv MessageOps MessageParse MessageCanon MessageRoundtrip.

Definition oversized : message_error := WireE (ValueError "varint value is outside uint64 range").

(** A value, or an exception that satisfies [E]. *)
Definition raises_only (E : message_error -> Prop) {A} (r : result message_error A) : Prop :=
  match r with Ok _ => True | Raise e => E e end.

Lemma raises_bind E {A B} (r : result message_error A) (k : A -> result message_error B) :
  raises_only E r -> (forall a, raises_only E (k a)) -> raises_only E (r ≫= k).
Proof. destruct r; simpl; auto. Qed.

Lemma raises_fold E {A S} (f : S -> A -> result message_error S) l s :
  (forall s a, a ∈ l -> raises_only E (f s a)) -> raises_only E (fold_result f l s).
Proof.
  revert s. induction l as [|a l IH]; intros s Hf; [done|]. cbn [fold_result].
  apply raises_bind; [apply Hf; left|]. intros s'. apply IH. intros s'' a' ?. apply Hf. by right.
Qed.

Lemma raises_traverse E {A B} (f : A -> result message_error B) l :
  (forall a, a ∈ l -> raises_only E (f a)) -> raises_only E (traverse f l).
Proof.
  induction l as [|a l IH]; intros Hf; [done|]. cbn [traverse]. apply raises_bind; [apply Hf; left|].
  intros b. apply raises_bind; [|done]. apply IH. intros a' ?. apply Hf. by right.
Qed.

(** Texts with a UTF-8 encoding and floating-point numbers of 64 bits. *)
Definition scalar_fits (s : scalar) : Prop :=
  match s with
  | StrV s => is_Some (utf8_encode s)
  | FloatV x => in_range 0 (2 ^ 64) x = true
  | _ => True
  end.

Definition value_fits (P : message -> Prop) (v : value) : Prop :=
  match v with Scalar s => scalar_fits s | MessageV m => P m end.

(** The values of a slot, keys included. *)
Definition slot_holds (s : slot) (v : value) : Prop :=
  match cell_of s with
  | None => False
  | Some (One v') => v = v'
  | Some (Items l) => v ∈ l
  | Some (Entries es) => exists e, e ∈ es /\ (v = Scalar e.1 \/ v = e.2)
  end.

(** ** Writers *)

Section Writers.
Context (E : message_error -> Prop).

(** Bytes, or the exception for a part that is too long, or one of [E]. *)
Abbreviation written := (raises_only (fun e => e = oversized \/ E e)).

Lemma lift_bind {A B} (r : result wire_error A) (k : A -> result wire_error B) :
  lift_wire (r ≫= k) = lift_wire r ≫= fun a => lift_wire (k a).
Proof. by destruct r. Qed.

Lemma codec_written {A} (w : W A) (rd : M A) dom v self :
  Codec w rd dom -> dom v = true -> written (lift_wire (w v self)).
Proof. intros Hc Hv. destruct (codec_in v Hv) as (enc & He & _). by rewrite He. Qed.

Lemma write_bytes_written b w : written (lift_wire (BinaryWriter.write_bytes b w)).
Proof.
  destruct (decide (Z.of_nat (length b) < 2 ^ 64)) as [Hl|Hl].
  - destruct (reads_bytes b Hl) as (enc & He & _). by rewrite He.
  - unfold BinaryWriter.write_bytes, BinaryWriter.write_varint.
    assert ((Z.of_nat (length b) <? 0) || (_MAX_UINT64 <? Z.of_nat (length b)) = true) as -> by
      (rewrite max_uint64; lia).
    by left.
Qed.

Lemma write_tag_written n t w :
  in_range 1 (_MAX_FIELD_NUMBER + 1) n = true -> 0 <= t <= 5 ->
  written (lift_wire (BinaryWriter.write_tag n t w)).
Proof. intros Hn Ht. destruct (tag_enc n t Hn Ht) as (tag & He & _). by rewrite He. Qed.

Lemma write_scalar_written c s w :
  codec_ok c -> scalar_ok c s -> scalar_fits s -> written (lift_wire (write_scalar c s w)).
Proof.
  intros Hc Hs Hf. destruct c as [c| | | | |k], s; try done; cbn [write_scalar].
  - destruct (ic_codec c Hc) as (dom & Hd & Hn). eapply codec_written; [done|by eapply Hn].
  - by apply (codec_written BinaryWriter.write_bool _ _ _ _ bool_codec).
  - by apply (codec_written _ _ _ _ _ double_codec).
  - apply write_bytes_written.
  - destruct Hf as [b Hb]. change (write STRING s w) with (BinaryWriter.write_string s w).
    unfold BinaryWriter.write_string. rewrite Hb. apply write_bytes_written.
Qed.

Lemma write_all_written {A} (wr : W A) l w :
  (forall a w, a ∈ l -> written (lift_wire (wr a w))) -> written (lift_wire (BinaryWriter.write_all wr l w)).
Proof.
  revert w. induction l as [|a l IH]; intros w Hl; [done|]. cbn [BinaryWriter.write_all].
  rewrite lift_bind. apply raises_bind; [apply Hl; left|]. intros w'. apply IH. intros a' w'' ?.
  apply Hl. by right.
Qed.

Section Encode.
Context `{Schema} (HS : schema_ok _).

(** ** Slots *)

Section Slot.
Context (P : message -> Prop) (ser : message -> result message_error bytes).

(** What a written value needs. *)
Notation fit v := (value_fits (fun m => written (ser m)) v).

Lemma write_val_written c v w : codec_ok c -> value_ok P c v -> fit v -> written (write_val ser c v w).
Proof.
  intros Hc Hv Hf. destruct v as [s|m]; cbn [write_val].
  - apply write_scalar_written; [done| |done]. by destruct c.
  - apply raises_bind; [done|]. intros b. apply write_bytes_written.
Qed.

Lemma write_field_written f v w :
  field_ok f -> value_ok P (codec_of f) v -> fit v -> written (_write_field ser f v w).
Proof.
  intros Hf Hv Hv'. apply raises_bind; [|intros w'; apply write_val_written; [apply Hf|done..]].
  apply write_tag_written; [apply Hf|]. apply wire_type_range, Hf.
Qed.

Lemma write_entry_written f kc e w :
  field_ok f -> map_key_codec f = Some kc -> entry_ok P kc (codec_of f) e -> scalar_fits e.1 -> fit e.2 ->
  written (write_entry ser f kc w e).
Proof.
  intros Hf Hk [Hkey Hv] Hfk Hfv. destruct (key_codec_scalar kc (f_key f Hf kc Hk)) as (Hkc & _).
  unfold write_entry. repeat (apply raises_bind; [|intros ?]).
  - by apply write_tag_written; [|apply wire_type_range].
  - by apply write_scalar_written.
  - apply write_tag_written; [done|apply wire_type_range, Hf].
  - apply write_val_written; [apply Hf|done..].
  - apply write_tag_written; [apply Hf|done].
  - apply write_bytes_written.
Qed.

Lemma write_slot_written det f s w :
  field_ok f -> slot_ok P f s ->
  (forall v, slot_holds s v -> _field_has_value f s = true -> fit v) -> written (write_slot ser det f s w).
Proof.
  intros Hf Hs Hv. unfold write_slot. destruct (cell_of s) as [x|] eqn:Ex.
  2:{ unfold entries_of, items_of. rewrite Ex. destruct (map_key_codec f) eqn:Ek; [by destruct det|].
      destruct (repeated f) eqn:Er; [done|]. unfold _field_has_value, _field_is_default, map_field.
      rewrite Ek, Er, Ex. cbn [orb]. destruct (has_presence f); [|done].
      destruct (is_present s) eqn:Ep; [|done]. by destruct (sl_present _ _ _ Hs Ep) as (_ & _ & []). }
  pose proof (sl_cell _ _ _ Hs x Ex) as Hx. unfold cell_ok in Hx. unfold slot_holds in Hv. rewrite Ex in Hv.
  unfold entries_of, items_of. rewrite Ex.
  destruct (map_key_codec f) as [kc|] eqn:Ek; [|destruct (repeated f) eqn:Er].
  - destruct x as [|l|es]; try done. destruct Hx as [_ Hx]. apply raises_fold. intros w' e He.
    rewrite entry_order_perm in He. rewrite Forall_forall in Hx.
    assert (_field_has_value f s = true) as Hh.
    { unfold _field_has_value, map_field, slot_empty, items_of, entries_of. rewrite Ek, Ex. simpl.
      destruct es; [inversion He|done]. }
    apply write_entry_written; [done|done|by apply Hx|exact (Hv _ (ex_intro _ e (conj He (or_introl eq_refl))) Hh)|].
    exact (Hv _ (ex_intro _ e (conj He (or_intror eq_refl))) Hh).
  - destruct x as [v|l|es]; [by destruct Hx| |done]. destruct Hx as [_ Hx]. destruct l as [|v0 l0]; [done|].
    assert (_field_has_value f s = true) as Hh.
    { unfold _field_has_value, map_field, slot_empty, items_of, entries_of. by rewrite Ek, Er, Ex. }
    set (l := v0 :: l0) in *. rewrite Forall_forall in Hx. destruct (packed f && packable_of (codec_of f)) eqn:Ep.
    + apply raises_bind; [apply write_tag_written; [apply Hf|done]|]. intros w'.
      unfold BinaryWriter.write_packed. rewrite lift_bind.
      apply raises_bind; [|intros ?; apply write_bytes_written]. apply write_all_written. intros a w'' Ha.
      apply list_elem_of_omap in Ha as ([s'|m] & Ha & [= ->]).
      apply write_scalar_written; [apply Hf| |by apply (Hv (Scalar a))].
      specialize (Hx _ Ha). by destruct (codec_of f).
    + apply raises_fold. intros w' v Hin. apply write_field_written; [done|by apply Hx|by apply Hv].
  - destruct (_field_has_value f s) eqn:Hh; [|done]. destruct x as [v|l|es]; [|by destruct Hx|done].
    apply write_field_written; [done|by destruct Hx|by apply Hv].
Qed.

End Slot.
End Encode.
End Writers.

(** ** Missing required fields *)

Section Missing.
Context `{Schema} (HS : schema_ok _).

Lemma traverse_ext {A B} (f g : A -> result message_error B) l :
  (forall a, a ∈ l -> f a = g a) -> traverse f l = traverse g l.
Proof.
  induction l as [|a l IH]; intros Hl; [done|]. cbn [traverse]. rewrite (Hl a) by left.
  rewrite IH; [done|]. intros a' ?. apply Hl. by right.
Qed.

Lemma traverse_elem {A B} (f : A -> result message_error B) l bs a :
  traverse f l = Ok bs -> a ∈ l -> exists b, f a = Ok b /\ b ∈ bs.
Proof.
  revert bs. induction l as [|a' l IH]; intros bs Ht Ha; [inversion Ha|]. cbn [traverse] in Ht.
  apply bind_result_Ok in Ht as (b & Hb & Ht). apply bind_result_Ok in Ht as (bs' & Hbs & [= <-]).
  apply elem_of_cons in Ha as [->|Ha]; [exists b; split; [done|left]|].
  destruct (IH bs' Hbs Ha) as (b' & ? & ?). exists b'. split; [done|by right].
Qed.

Lemma concat_none {A} (l : list (list A)) x : concat l = [] -> x ∈ l -> x = [].
Proof.
  induction l as [|y l IH]; intros Hc Hx; [inversion Hx|]. apply app_eq_nil in Hc as [-> Hc].
  by apply elem_of_cons in Hx as [->|Hx]; [|apply IH].
Qed.

Lemma indexed_elem {A} (l : list A) k a : (k, a) ∈ zip (seq 0 (length l)) l -> a ∈ l.
Proof.
  intros [j Hj]%list_elem_of_lookup. apply lookup_zip_Some in Hj as [_ Hj]. by eapply list_elem_of_lookup_2.
Qed.

Lemma elem_indexed {A} (l : list A) a : a ∈ l -> exists k, (k, a) ∈ zip (seq 0 (length l)) l.
Proof.
  intros [k Hk]%list_elem_of_lookup. exists k. apply list_elem_of_lookup. exists k. apply lookup_zip_Some.
  split; [|done]. apply lookup_seq. split; [done|]. by eapply lookup_lt_Some.
Qed.

(** The nested messages of a field. *)
Definition nested_in (m : message) (i : nat) (m' : message) : Prop := slot_holds (get_slot m i) (MessageV m').

Lemma holds_item s v : v ∈ items_of s -> slot_holds s v.
Proof. unfold items_of, slot_holds. destruct (cell_of s) as [[]|]; try done; intros Hv; inversion Hv. Qed.

Lemma holds_entry s e : e ∈ entries_of s -> slot_holds s e.2.
Proof.
  unfold entries_of, slot_holds. destruct (cell_of s) as [[| |es]|]; try (intros Hv; by inversion Hv).
  intros He. exists e. auto.
Qed.

Lemma field_errors_ext g h m i f :
  (forall m', nested_in m i m' -> g m' = h m') -> field_errors g m (i, f) = field_errors h m (i, f).
Proof.
  intros Hgh. assert (forall p v, slot_holds (get_slot m i) v -> nested_errors g p v = nested_errors h p v) as Hn.
  { intros p [s|m'] Hv; [done|]. cbn [nested_errors]. by rewrite Hgh. }
  unfold field_errors. destruct (negb (message_field f)); [done|]. destruct (is_present _).
  - destruct (cell_of (get_slot m i)) as [[v| |]|] eqn:Ec; try done. rewrite Hn; [done|].
    unfold slot_holds. by rewrite Ec.
  - destruct (map_field f); [|destruct (repeated f); [|done]].
    + rewrite (traverse_ext _ (fun '(k, v) => nested_errors h (proto_name f ++ _format_map_key k) v)); [done|].
      intros [k v] He. apply Hn. by apply (holds_entry _ (k, v)).
    + erewrite traverse_ext; [done|]. intros [k v] Hv. apply Hn, holds_item. by eapply indexed_elem.
Qed.

Lemma field_errors_total find m i f :
  (forall m', nested_in m i m' -> exists es, find m' = Ok es) -> exists es, field_errors find m (i, f) = Ok es.
Proof.
  intros Hf. assert (forall p v, slot_holds (get_slot m i) v -> returns (nested_errors find p v) (fun _ => True)) as Hn.
  { intros p [s|m'] Hv; [by eexists|]. cbn [nested_errors]. destruct (Hf m' Hv) as [es ->]. by eexists. }
  unfold field_errors. destruct (negb (message_field f)); [by eexists|]. destruct (is_present _).
  - destruct (cell_of (get_slot m i)) as [[v| |]|] eqn:Ec; try by eexists.
    destruct (Hn (proto_name f) v) as (es & -> & _); [|by eexists]. unfold slot_holds. by rewrite Ec.
  - destruct (map_field f); [|destruct (repeated f); [|by eexists]].
    + edestruct (traverse_returns (fun '(k, v) => nested_errors find (proto_name f ++ _format_map_key k) v)
        (fun _ => True) (entries_of (get_slot m i))) as (es & -> & _); [|by eexists].
      intros [k v] He. apply Hn. by apply (holds_entry _ (k, v)).
    + edestruct (traverse_returns (fun '(index, v) =>
        nested_errors find (proto_name f ++ u "[" ++ str_of_int (Z.of_nat index) ++ u "]") v)
        (fun _ => True) (zip (seq 0 (length (items_of (get_slot m i)))) (items_of (get_slot m i))))
        as (es & -> & _); [|by eexists].
      intros [k v] Hv. apply Hn, holds_item. by eapply indexed_elem.
Qed.

Lemma nested_errors_none find p m : nested_errors find p (MessageV m) = Ok [] -> find m = Ok [].
Proof. cbn [nested_errors]. destruct (find m) as [[|e es]|]; done. Qed.

(** Nothing is missing in a nested message that is written. *)
Lemma field_errors_none P find m i f m' :
  slot_ok P f (get_slot m i) -> field_errors find m (i, f) = Ok [] -> nested_in m i m' ->
  _field_has_value f (get_slot m i) = true -> find m' = Ok [].
Proof.
  intros Hs He Hm Hh. unfold nested_in, slot_holds in Hm.
  destruct (cell_of (get_slot m i)) as [x|] eqn:Ex; [|done].
  pose proof (sl_cell _ _ _ Hs x Ex) as Hx. unfold cell_ok in Hx.
  assert (message_field f = true) as Hmf.
  { unfold message_field. destruct (map_key_codec f) as [kc|], x as [v|l|es]; try done.
    - destruct Hx as [_ Hx]. destruct Hm as (e & Hin & [Hm|Hm]); [done|]. rewrite Forall_forall in Hx.
      destruct (Hx e Hin) as [_ Hv]. rewrite <- Hm in Hv. by destruct (codec_of f).
    - destruct Hx as [_ Hx]. subst v. by destruct (codec_of f).
    - destruct Hx as [_ Hx]. rewrite Forall_forall in Hx. specialize (Hx _ Hm). by destruct (codec_of f). }
  unfold field_errors in He. rewrite Hmf, Ex in He. cbn [negb] in He.
  apply bind_result_Ok in He as (nested & Hn & [= He]). apply app_eq_nil in He as [_ ->].
  destruct (is_present _) eqn:Ep.
  - destruct (sl_present _ _ _ Hs Ep) as ([Hk Hr]%singular_keys & _). rewrite Hk in Hx.
    destruct x as [v|l|es]; [|by rewrite Hr in Hx; destruct Hx|done]. subst v. by eapply nested_errors_none.
  - unfold map_field in Hn. destruct (map_key_codec f) as [kc|] eqn:Ek; [|destruct (repeated f) eqn:Er].
    + destruct x as [|l|es]; try done. destruct Hm as (e & Hin & [Hm|Hm]); [done|].
      apply bind_result_Ok in Hn as (ess & Ht & [= Hn]).
      assert (e ∈ entries_of (get_slot m i)) as Hin' by (unfold entries_of; by rewrite Ex).
      destruct (traverse_elem _ _ _ _ Ht Hin') as (b & Hb & Hbin). rewrite (concat_none _ _ Hn Hbin) in Hb.
      destruct e as [k v]. simpl in Hm. subst v. by eapply nested_errors_none.
    + destruct x as [|l|es]; [by destruct Hx| |done].
      apply bind_result_Ok in Hn as (ess & Ht & [= Hn]).
      assert (MessageV m' ∈ items_of (get_slot m i)) as Hin by (unfold items_of; by rewrite Ex).
      apply elem_indexed in Hin as [k Hin].
      destruct (traverse_elem _ _ _ _ Ht Hin) as (b & Hb & Hbin). rewrite (concat_none _ _ Hn Hbin) in Hb.
      by eapply nested_errors_none.
    + exfalso. unfold _field_has_value, map_field, has_presence, map_field in Hh.
      rewrite Ek, Er, Hmf, Ep in Hh. cbn [negb andb] in Hh.
      by rewrite !orb_true_r in Hh.
Qed.

(** Only nesting stops the search. *)
Lemma find_raises d m : raises_only (eq (EncodeE nesting_too_deep [])) (find_initialization_errors d m).
Proof.
  revert m. induction d as [|d IH]; intros m; [done|]. cbn [find_initialization_errors].
  assert (forall p v, raises_only (eq (EncodeE nesting_too_deep [])) (nested_errors (find_initialization_errors d) p v)) as Hn.
  { intros p [s|m']; [done|]. cbn [nested_errors]. by apply raises_bind. }
  apply raises_bind; [|done]. apply raises_traverse. intros [i f] _. unfold field_errors. apply raises_bind; [|done].
  repeat case_match; try done; try apply Hn; (apply raises_bind; [|done]); apply raises_traverse; intros [? ?] _; apply Hn.
Qed.

Lemma traverse_mono {A B} (f g : A -> result message_error B) l bs :
  (forall a b, f a = Ok b -> g a = Ok b) -> traverse f l = Ok bs -> traverse g l = Ok bs.
Proof.
  intros Hfg. revert bs. induction l as [|a l IH]; intros bs; [done|]. cbn [traverse].
  intros (b & Hb & (bs' & Hbs & [= <-])%bind_result_Ok)%bind_result_Ok. by rewrite (Hfg a b Hb), (IH bs' Hbs).
Qed.

Lemma field_errors_mono g h m x es :
  (forall m r, g m = Ok r -> h m = Ok r) -> field_errors g m x = Ok es -> field_errors h m x = Ok es.
Proof.
  intros Hgh. assert (forall p v es, nested_errors g p v = Ok es -> nested_errors h p v = Ok es) as Hn.
  { intros p [s|m'] es'; [done|]. cbn [nested_errors]. intros (e & He & Hes)%bind_result_Ok. by rewrite (Hgh m' e He). }
  destruct x as [i f]. unfold field_errors. intros (nested & Hnest & Hb)%bind_result_Ok.
  match goal with |- ?r ≫= _ = _ => assert (r = Ok nested) as ->; [|done] end.
  destruct (negb (message_field f)); [done|]. destruct (is_present _); [|destruct (map_field f); [|destruct (repeated f); [|done]]].
  - destruct (cell_of (get_slot m i)) as [[v| |]|]; try done. by apply Hn.
  - apply bind_result_Ok in Hnest as (ess & Hess & Hc). erewrite traverse_mono; [exact Hc| |exact Hess]. intros [k v] b'. apply Hn.
  - apply bind_result_Ok in Hnest as (ess & Hess & Hc). erewrite traverse_mono; [exact Hc| |exact Hess]. intros [k v] b'. apply Hn.
Qed.

(** A search that ends, ends in the same way with more levels. *)
Lemma find_mono d d' m es :
  (d <= d')%nat -> find_initialization_errors d m = Ok es -> find_initialization_errors d' m = Ok es.
Proof.
  revert d' m es. induction d as [|d IH]; intros d' m es Hd; [done|]. destruct d' as [|d']; [lia|].
  cbn [find_initialization_errors]. intros (ess & Ht & Hes)%bind_result_Ok. erewrite traverse_mono; [exact Hes| |exact Ht].
  intros x b. apply field_errors_mono. intros m' r. apply IH. lia.
Qed.

(** The values a slot slot_holds are those of its field. *)
Lemma slot_nested_ok P f s m' : slot_ok P f s -> slot_holds s (MessageV m') -> P m'.
Proof.
  intros Hs Hm. unfold slot_holds in Hm. destruct (cell_of s) as [x|] eqn:Ex; [|done].
  pose proof (sl_cell _ _ _ Hs x Ex) as Hx. unfold cell_ok in Hx.
  assert (forall v, value_ok P (codec_of f) v -> v = MessageV m' -> P m') as Hv.
  { intros v Hv ->. destruct (codec_of f); [done..|]. apply Hv. }
  destruct (map_key_codec f) as [kc|], x as [v|l|es]; try done; destruct Hx as [_ Hx].
  - destruct Hm as (e & Hin & [Hm|Hm]); [done|]. rewrite Forall_forall in Hx. by apply (Hv _ (proj2 (Hx e Hin))).
  - by apply (Hv v).
  - rewrite Forall_forall in Hx. by apply (Hv _ (Hx _ Hm)).
Qed.

(** ** Whole messages *)

Fixpoint fits (n : nat) (m : message) : Prop :=
  match n with
  | O => False
  | S n => forall i v, slot_holds (get_slot m i) v -> value_fits (fits n) v
  end.

Context (U : nat -> bytes -> Prop).

Lemma field_slot n m i f :
  message_ok U (S n) m -> (i, f) ∈ indexed (cls m) -> field_ok f /\ slot_ok (message_ok U n) f (get_slot m i).
Proof.
  intros Hm Hi%indexed_lookup. split; [|by apply (body_slot U _ m i f Hm Hi)].
  exact (Forall_lookup_1 _ _ _ _ (s_fields HS (cls m)) Hi).
Qed.

Lemma find_more n n' m :
  message_ok U n m -> (n <= n')%nat -> find_initialization_errors n' m = find_initialization_errors n m.
Proof.
  revert n' m. induction n as [|n IH]; intros n' m Hm Hn; [done|]. destruct n' as [|n']; [lia|].
  cbn [find_initialization_errors]. f_equal. apply traverse_ext. intros [i f] Hi.
  apply field_errors_ext. intros m' Hm'. apply IH; [|lia].
  by eapply slot_nested_ok; [apply (field_slot n m i f Hm Hi)|].
Qed.

Lemma find_total n m : message_ok U n m -> exists es, find_initialization_errors n m = Ok es.
Proof.
  revert m. induction n as [|n IH]; intros m Hm; [done|]. cbn [find_initialization_errors].
  destruct (traverse_returns (field_errors (find_initialization_errors n) m) (fun _ => True) (indexed (cls m)))
    as (es & -> & _); [|by eexists].
  intros [i f] Hi. edestruct (field_errors_total (find_initialization_errors n) m i f) as [es He];
    [|exists es; split; [exact He|done]].
  intros m' Hm'. apply IH. by eapply slot_nested_ok; [apply (field_slot n m i f Hm Hi)|].
Qed.

(** The messages that are written with [m], nested at any level. *)
Inductive within (m : message) : message -> Prop :=
| within_self : within m m
| within_nested m1 i f m2 : within m m1 -> FIELDS (cls m1) !! i = Some f -> _field_has_value f (get_slot m1 i) = true ->
    slot_holds (get_slot m1 i) (MessageV m2) -> within m m2.

Lemma within_first m i f m' x :
  FIELDS (cls m) !! i = Some f -> _field_has_value f (get_slot m i) = true -> slot_holds (get_slot m i) (MessageV m') ->
  within m' x -> within m x.
Proof.
  intros Hf Hh Hs Hx. induction Hx as [|m1 j g m2 _ IH Hg Hv Hm]; [|by eapply within_nested].
  eapply within_nested; [apply within_self|done..].
Qed.

(** No required field is missing in [m] itself. *)
Definition has_required (m : message) : Prop :=
  forall i f, FIELDS (cls m) !! i = Some f -> required f = true -> is_present (get_slot m i) = true.

(** Nothing is missing: in this field, and in the messages below that are written. *)
Lemma none_here find m i f :
  (required f = true -> is_present (get_slot m i) = true) ->
  (forall m', nested_in m i m' -> _field_has_value f (get_slot m i) = true -> find m' = Ok []) ->
  field_ok f -> slot_ok (fun _ => True) f (get_slot m i) -> field_errors find m (i, f) = Ok [].
Proof.
  intros Hr Hn Hf Hs.
  assert (_field_has_value f (get_slot m i) = true -> forall p v, slot_holds (get_slot m i) v -> nested_errors find p v = Ok []) as Hv.
  { intros Hh p [s|m'] Hv; [done|]. cbn [nested_errors]. by rewrite (Hn m' Hv Hh). }
  assert (forall A (g : A -> result message_error (list pystr)) l, (forall x, x ∈ l -> g x = Ok []) ->
    (es ← traverse g l; Ok (concat es)) = Ok []) as Htr.
  { intros A g l Hg. induction l as [|a l IH]; [done|]. cbn [traverse]. rewrite (Hg a) by left. cbn [mbind result_bind].
    assert (forall x, x ∈ l -> g x = Ok []) as Hl by (intros x ?; apply Hg; by right). specialize (IH Hl).
    destruct (traverse g l) as [es|]; [|done]. cbn in *. by injection IH as ->. }
  unfold field_errors. assert (required f && negb (is_present (get_slot m i)) = false) as ->.
  { destruct (required f); [|done]. by rewrite Hr. }
  match goal with |- ?r ≫= _ = _ => assert (r = Ok []) as ->; [|done] end.
  destruct (negb (message_field f)) eqn:Em; [done|]. destruct (is_present _) eqn:Ep.
  - destruct (sl_present _ _ _ Hs Ep) as (Hsg & Hp & _). pose proof Hsg as [Hk Hrep]%singular_keys.
    destruct (cell_of (get_slot m i)) as [[v| |]|] eqn:Ec; try done. apply Hv; [|unfold slot_holds; by rewrite Ec].
    unfold _field_has_value, map_field. by rewrite Hk, Hrep, Hp.
  - destruct (map_field f) eqn:Emap; [|destruct (repeated f) eqn:Er; [|done]]; apply Htr.
    + intros [k v] He. apply Hv; [|by apply (holds_entry _ (k, v))].
      unfold _field_has_value, slot_empty. rewrite Emap. destruct (entries_of _); [by inversion He|]. by destruct (items_of _).
    + intros [k v] He%indexed_elem. apply Hv; [|by apply holds_item].
      unfold _field_has_value, slot_empty. rewrite Emap, Er. by destruct (items_of _); [inversion He|].
Qed.

Lemma find_none n m :
  message_ok U n m -> find_initialization_errors n m = Ok [] <-> forall m', within m m' -> has_required m'.
Proof.
  intros Hm. split.
  - intros Hfind m' Hw.
    assert (forall n m, message_ok U n m -> find_initialization_errors n m = Ok [] -> has_required m /\
      forall i f m', FIELDS (cls m) !! i = Some f -> _field_has_value f (get_slot m i) = true -> nested_in m i m' ->
        exists n', message_ok U n' m' /\ find_initialization_errors n' m' = Ok []) as Hstep.
    { clear -HS. intros [|n] m Hm Hfind; [done|]. cbn [find_initialization_errors] in Hfind.
      apply bind_result_Ok in Hfind as (ess & Ht & [= Hc]).
      assert (forall i f, FIELDS (cls m) !! i = Some f -> field_errors (find_initialization_errors n) m (i, f) = Ok []) as Hall.
      { intros i f Hi%indexed_lookup. destruct (traverse_elem _ _ _ _ Ht Hi) as (b & Hb & Hbin). by rewrite (concat_none _ _ Hc Hbin) in Hb. }
      split.
      - intros i f Hf Hr. specialize (Hall i f Hf). unfold field_errors in Hall. rewrite Hr in Hall.
        apply bind_result_Ok in Hall as (x & _ & [= Hx]). by destruct (is_present _).
      - intros i f m' Hf Hh Hn. pose proof (proj2 (indexed_lookup _ _ _) Hf) as Hi. destruct (field_slot n m i f Hm Hi) as [_ Hs].
        exists n. split; [by eapply slot_nested_ok|]. by eapply field_errors_none; [exact Hs|apply Hall|..]. }
    assert (exists n', message_ok U n' m' /\ find_initialization_errors n' m' = Ok []) as (n' & H1 & H2).
    { induction Hw as [|m1 i f m2 _ (n1 & H1 & H2) Hf Hh Hs]; [by exists n|]. by apply (proj2 (Hstep n1 m1 H1 H2) i f). }
    by apply (Hstep n' m').
  - revert m Hm. induction n as [|n IH]; intros m Hm Hreq; [done|]. cbn [find_initialization_errors].
    assert (forall x, x ∈ indexed (cls m) -> field_errors (find_initialization_errors n) m x = Ok []) as Hall.
    { intros [i f] Hi. destruct (field_slot n m i f Hm Hi) as [Hf Hs]. apply indexed_lookup in Hi. apply none_here; [|..|done|].
      - intros Hr. by apply (Hreq m (within_self m) i f).
      - intros m' Hn Hh. apply IH; [by eapply slot_nested_ok|]. intros x Hx. apply Hreq. by eapply within_first.
      - destruct Hs as [Hs1 Hs2]. split; [|done]. intros x Hx. by eapply cell_ok_mono; [|apply Hs1]. }
    clear -Hall. induction (indexed (cls m)) as [|x l IH]; [done|]. cbn [traverse]. rewrite (Hall x) by left. cbn [mbind result_bind].
    assert (forall x, x ∈ l -> field_errors (find_initialization_errors n) m x = Ok []) as Hl by (intros y ?; apply Hall; by right).
    specialize (IH Hl). destruct (traverse _ l) as [es|]; [|done]. cbn in *. by injection IH as ->.
Qed.

(** The limit of the class of a message. *)
Definition own_limit (m : message) : nat := Z.to_nat (_nesting_limit (cls m)).

(** The exceptions that are left: a part is too long, or one of the messages below
    [root] that are written is nested deeper than its own class allows. *)
Definition too_deep (root : message) (e : message_error) : Prop :=
  e = EncodeE nesting_too_deep [] /\ exists m', within root m' /\ ~ message_ok U (own_limit m') m'.

Lemma serialize_written root n det m :
  within root m -> message_ok U n m -> fits n m -> find_initialization_errors n m = Ok [] ->
  raises_only (fun e => e = oversized \/ too_deep root e) (serialize_to_string n det m).
Proof.
  revert m. induction n as [|n IH]; intros m Hw Hm Hfit Hfind; [done|]. cbn [serialize_to_string].
  destruct (FindInitializationErrors m) as [es|e] eqn:Ef.
  - assert (es = []) as ->.
    { unfold FindInitializationErrors in Ef. set (d := Z.to_nat _) in *.
      pose proof (find_mono d (max d (S n)) m es ltac:(lia) Ef) as E1.
      pose proof (find_mono (S n) (max d (S n)) m [] ltac:(lia) Hfind) as E2. congruence. }
    cbn [mbind result_bind]. apply raises_bind; [|done]. apply raises_fold. intros w [i f] Hi.
    rewrite sorted_fields_perm in Hi. destruct (field_slot n m i f Hm Hi) as [Hf Hs].
    apply (write_slot_written _ (message_ok U n)); [done|done|]. intros v Hv Hh.
    pose proof (Hfit i v Hv) as Hfv. destruct v as [s|m']; [done|]. cbn [value_fits] in *.
    apply IH; [|by eapply slot_nested_ok|done|].
    + apply indexed_lookup in Hi. by eapply within_nested.
    + cbn [find_initialization_errors] in Hfind. apply bind_result_Ok in Hfind as (ess & Ht & [= Hc]).
      destruct (traverse_elem _ _ _ _ Ht Hi) as (b & Hb & Hbin). rewrite (concat_none _ _ Hc Hbin) in Hb.
      by eapply field_errors_none.
  - pose proof (find_raises (own_limit m) m) as He. unfold FindInitializationErrors in Ef. unfold own_limit in *.
    rewrite Ef in He. cbn in He. subst e. right. split; [done|]. exists m. split; [done|].
    intros Hown. destruct (find_total _ m Hown) as [es Hes]. unfold own_limit in Hes. congruence.
Qed.

End Missing.

(** ** A message is written as its canonical form is

    What a message is written as, and the required fields it lacks, depend on its
    canonical form only. *)
Section OfCanon.
Context `{Schema} (HS : schema_ok _).
Context (P : message -> Prop) (cn : message -> message).

Lemma traverse_fmap {A B C} (f : B -> result message_error C) (g : A -> B) l : traverse f (g <$> l) = traverse (f ∘ g) l.
Proof. induction l as [|a l IH]; [done|]. rewrite fmap_cons. cbn [traverse]. by rewrite IH. Qed.

Lemma bind_ext {A B} (r : result message_error A) (k k' : A -> result message_error B) :
  (forall a, k a = k' a) -> r ≫= k = r ≫= k'.
Proof. intros Hk. by destruct r; [apply Hk|]. Qed.

Lemma fold_result_fmap {A B S} (f : S -> B -> result message_error S) (g : A -> B) l s :
  fold_result f (g <$> l) s = fold_result (fun s a => f s (g a)) l s.
Proof. revert s. induction l as [|a l IH]; intros s; [done|]. rewrite fmap_cons. cbn [fold_result]. destruct (f s (g a)); [apply IH|done]. Qed.

Lemma fold_result_ext {A S} (f g : S -> A -> result message_error S) l s :
  (forall s a, a ∈ l -> f s a = g s a) -> fold_result f l s = fold_result g l s.
Proof.
  revert s. induction l as [|a l IH]; intros s Hl; [done|]. cbn [fold_result]. rewrite (Hl s a) by left.
  destruct (g s a); [|done]. apply IH. intros s' a' ?. apply Hl. by right.
Qed.

Lemma zip_canon {A B C} (g : B -> C) (k : list A) l : zip k (g <$> l) = (fun x => (x.1, g x.2)) <$> zip k l.
Proof. revert l. induction k as [|a k IH]; intros [|b l]; [done..|]. rewrite fmap_cons. cbn [zip_with]. by rewrite IH. Qed.

Lemma items_canon f s :
  map_key_codec f = None -> repeated f = true -> items_of (canon_slot cn false f s) = canon_value cn <$> items_of s.
Proof. intros Hk Hr. unfold canon_slot. rewrite Hk, Hr. by destruct (items_of s). Qed.

Lemma entries_canon f kc s :
  map_key_codec f = Some kc -> entries_of (canon_slot cn false f s) = canon_entry cn <$> entries_of s.
Proof. intros Hk. unfold canon_slot. rewrite Hk. by destruct (entries_of s). Qed.

Lemma insert_canon e l : insert_entry (canon_entry cn e) (canon_entry cn <$> l) = canon_entry cn <$> insert_entry e l.
Proof. induction l as [|e' l IH]; [done|]. rewrite fmap_cons. simpl. destruct (scalar_leb e.1 e'.1); [done|]. simpl. by f_equal. Qed.

Lemma order_canon det l : entry_order det (canon_entry cn <$> l) = canon_entry cn <$> entry_order det l.
Proof. destruct det; [|done]. simpl. induction l as [|e l IH]; [done|]. rewrite fmap_cons. simpl. by rewrite IH, insert_canon. Qed.

Lemma scalars_canon l : scalars (canon_value cn <$> l) = scalars l.
Proof. unfold scalars. induction l as [|[s|m] l IH]; [done|..]; rewrite fmap_cons; cbn [canon_value omap list_omap]; [by f_equal|exact IH]. Qed.

(** A singular field of the canonical form. *)
Lemma one_canon f s :
  slot_ok P f s -> singular f = true ->
  _field_has_value f (canon_slot cn false f s) = _field_has_value f s /\
  (_field_has_value f s = true -> exists v, cell_of s = Some (One v) /\ cell_of (canon_slot cn false f s) = Some (One (canon_value cn v))).
Proof.
  intros Hs Hsg. pose proof Hsg as [Hk Hr]%singular_keys. pose proof (canon_slot_canonical P cn false f s Hs) as [Hc _].
  unfold canon_slot in *. rewrite Hk, Hr in *.
  assert (_field_has_value f no_slot = false) as Hno.
  { unfold _field_has_value, _field_is_default, map_field. rewrite Hk, Hr. simpl. by destruct (has_presence f). }
  destruct (_field_has_value f s) eqn:Ev; [|by rewrite Hno].
  assert (cell_of s <> None) as Hne.
  { unfold _field_has_value, _field_is_default, map_field in Ev. rewrite Hk, Hr in Ev. simpl in Ev.
    destruct (has_presence f); [by apply (sl_present _ _ _ Hs)|]. by intros Hn; rewrite Hn in Ev. }
  destruct (cell_of s) as [x|] eqn:Ex; [|done]. destruct (slot_one P f s x Hs Hsg Ex) as (v & -> & _).
  split; [|intros _; by exists v]. revert Ev. unfold _field_has_value, _field_is_default, map_field. rewrite Hk, Hr. simpl.
  destruct (has_presence f); [done|]. rewrite Ex. by rewrite value_eqb_canon.
Qed.

Lemma nested_canon find p v :
  (forall m', v = MessageV m' -> find (cn m') = find m') -> nested_errors find p (canon_value cn v) = nested_errors find p v.
Proof. destruct v as [s|m']; [done|]. intros Hf. cbn [canon_value nested_errors]. by rewrite Hf. Qed.

Lemma field_errors_canon find m c i f :
  slot_ok P f (get_slot m i) -> get_slot c i = canon_slot cn false f (get_slot m i) ->
  (forall m', nested_in m i m' -> find (cn m') = find m') -> field_errors find c (i, f) = field_errors find m (i, f).
Proof.
  intros Hs Ec Hf. assert (forall p v, slot_holds (get_slot m i) v -> nested_errors find p (canon_value cn v) = nested_errors find p v) as Hn.
  { intros p v Hv. apply nested_canon. intros m' ->. by apply Hf. }
  unfold field_errors. pose proof (canon_slot_canonical P cn false f _ Hs) as [_ Hpr]. rewrite Ec, Hpr.
  f_equal. destruct (negb (message_field f)); [done|]. destruct (is_present (get_slot m i)) eqn:Ep.
  - destruct (sl_present _ _ _ Hs Ep) as (Hsg & Hhp & _). destruct (one_canon f _ Hs Hsg) as [_ Ho].
    destruct Ho as (v & E1 & E2).
    { unfold _field_has_value. apply singular_keys in Hsg as [Hk Hr]. unfold map_field. by rewrite Hk, Hr, Hhp. }
    rewrite E1, E2. apply Hn. unfold slot_holds. by rewrite E1.
  - unfold map_field. destruct (map_key_codec f) as [kc|] eqn:Ek; [|destruct (repeated f) eqn:Er; [|done]].
    + rewrite (entries_canon f kc) by done. rewrite traverse_fmap. f_equal. apply traverse_ext.
      intros [k v] He. apply Hn. by apply (holds_entry _ (k, v)).
    + rewrite items_canon by done. rewrite length_fmap. f_equal. rewrite zip_canon, traverse_fmap.
      apply traverse_ext. intros [x v] Hv. apply Hn, holds_item. by eapply indexed_elem.
Qed.

Lemma write_slot_canon ser det f s w :
  slot_ok P f s -> (forall m', slot_holds s (MessageV m') -> ser (cn m') = ser m') ->
  write_slot ser det f (canon_slot cn false f s) w = write_slot ser det f s w.
Proof.
  intros Hs Hser. assert (forall c v w, slot_holds s v -> write_val ser c (canon_value cn v) w = write_val ser c v w) as Hv.
  { intros c [x|m'] w' Hh; [done|]. cbn [canon_value write_val]. by rewrite Hser. }
  unfold write_slot. destruct (map_key_codec f) as [kc|] eqn:Ek.
  - rewrite (entries_canon f kc) by done. rewrite order_canon, fold_result_fmap. apply fold_result_ext. intros w' e He.
    unfold write_entry. cbn [canon_entry fst snd]. rewrite entry_order_perm in He. pose proof (holds_entry s e He) as Hh.
    do 3 (apply bind_ext; intros ?). by rewrite Hv.
  - destruct (repeated f) eqn:Er.
    + rewrite items_canon by done. destruct (items_of s) as [|v vs] eqn:Ei; [done|]. rewrite <- Ei.
      assert (canon_value cn <$> items_of s <> []) as Hne by (rewrite Ei; done).
      destruct (canon_value cn <$> items_of s) as [|v' vs'] eqn:Ei'; [done|]. rewrite <- Ei', Ei, <- Ei.
      rewrite scalars_canon. destruct (packed f && packable_of (codec_of f)); [by rewrite Ei|].
      rewrite fold_result_fmap. rewrite Ei, <- Ei. apply fold_result_ext. intros w' x Hx. unfold _write_field.
      apply bind_ext. intros w1. by apply Hv, holds_item.
    + destruct (one_canon f s Hs) as [E Ho]; [by apply singular_keys|]. rewrite E.
      destruct (_field_has_value f s); [|done]. destruct (Ho eq_refl) as (v & E1 & E2). rewrite E1, E2. unfold _write_field.
      apply bind_ext. intros w1. apply Hv. unfold slot_holds. by rewrite E1.
Qed.

End OfCanon.

Section Written.
Context `{Schema} (HS : schema_ok _) (U : nat -> bytes -> Prop).

Lemma find_canon d n m : message_ok U n m -> find_initialization_errors d (canon n false m) = find_initialization_errors d m.
Proof.
  revert n m. induction d as [|d IH]; intros n m Hm; [done|]. destruct n as [|n]; [done|].
  cbn [find_initialization_errors]. rewrite cls_canon. f_equal. apply traverse_ext. intros [i f] Hi.
  destruct (field_slot HS U n m i f Hm Hi) as [_ Hs]. cbn [canon].
  apply (field_errors_canon (message_ok U n) (canon n false)); [done|..].
  - apply indexed_lookup in Hi. exact (canon_get U (message_ok U n) _ _ m i f Hm Hi).
  - intros m' Hm'. apply IH. by eapply slot_nested_ok.
Qed.

Lemma serialize_canon d n det m :
  message_ok U n m -> serialize_to_string d det (canon n false m) = serialize_to_string d det m.
Proof.
  revert n m. induction d as [|d IH]; intros n m Hm; [done|]. destruct n as [|n]; [done|].
  cbn [serialize_to_string]. unfold FindInitializationErrors. rewrite find_canon, cls_canon by done.
  destruct (find_initialization_errors _ m) as [[|]|]; [|done..]. cbn [mbind result_bind].
  f_equal. apply fold_result_ext. intros w [i f] Hi. rewrite sorted_fields_perm in Hi.
  destruct (field_slot HS U n m i f Hm Hi) as [_ Hs]. cbn [canon]. apply indexed_lookup in Hi. rewrite (canon_get U (message_ok U n) _ _ m i f Hm Hi).
  apply (write_slot_canon (message_ok U n)); [done|]. intros m' Hm'. apply IH. by eapply slot_nested_ok.
Qed.

(** Messages with the same canonical form are written alike. *)
Lemma same_bytes n det m m' :
  message_ok U n m -> message_ok U n m' -> canon n false m' = canon n false m ->
  SerializeToString det m' = SerializeToString det m.
Proof.
  intros Hm Hm' E. assert (cls m' = cls m) as Ek by (rewrite <- (cls_canon n false m), <- E; symmetry; apply cls_canon).
  unfold SerializeToString. rewrite Ek, <- (serialize_canon _ n det m), <- E by done. symmetry. by apply serialize_canon.
Qed.

End Written.
