(* ===== verification/MessageMerge.v ===== *)
(** * What merging does to each field

    [MergeFrom] goes through the fields one by one, and selecting a member of a
    oneof clears another field.  Here the effect on every slot is described at
    once: containers are joined, singular values replaced or merged, and a
    member of a oneof gives way to another member the source has. *)
From stdpp Require Import gmap.
From S2P Require Import Prelude PyStr Json FieldMask Bytes Wire WireSpec ValueCodec Message MessageInv MessageOps.
From S2P Require Import MessageCanon MessageRoundtrip MessageEncode.

Lemma fold_result_app {A S} (f : S -> A -> result message_error S) l1 l2 s :
  fold_result f (l1 ++ l2) s = fold_result f l1 s ≫= fold_result f l2.
Proof.
  revert s. induction l1 as [|a l1 IH]; intros s; [done|]. cbn [app fold_result].
  destruct (f s a) as [s'|e]; [apply IH|done].
Qed.

Section Merge.
Context `{Schema}.

Section Spec.
Context (clone : nat -> message -> result message_error message).
Context (mf : message -> message -> result message_error message).

(** The value [v'] of the source, merged into the slot [s]. *)
Definition merged_value (s : slot) (v' w : value) : Prop :=
  match cell_of s, v' with
  | Some (One (MessageV m)), MessageV m' =>
      if is_present s then exists r, mf m m' = Ok r /\ w = MessageV r else w = v'
  | _, _ => w = v'
  end.

(** A slot that is not written to: it is cleared when it is the selected member
    of its oneof and another one is selected instead. *)
Definition kept (displaced : Prop) (s r : slot) : Prop :=
  (displaced /\ is_present s = true -> r = no_slot) /\ (~ (displaced /\ is_present s = true) -> r = s).

(** The slot [r] of a field after the slot [t] of the source was merged into
    [s]; [displaced] says that the source has another member of its oneof. *)
Definition merged (f : Field) (displaced : Prop) (s t r : slot) : Prop :=
  match map_key_codec f, repeated f with
  | Some kc, _ =>
      exists vs, traverse (copy_value clone (codec_of f)) (entries_of t).*2 = Ok vs /\
        entries_of r = foldl (fun es e => dict_set es e.1 e.2) (entries_of s) (zip (entries_of t).*1 vs)
  | None, true =>
      exists vs, traverse (copy_value clone (codec_of f)) (items_of t) = Ok vs /\
        items_of r = items_of s ++ vs
  | None, false =>
      if _field_has_value f t then
        exists v v' w, cell_of t = Some (One v) /\ copy_value clone (codec_of f) v = Ok v' /\
          merged_value s v' w /\ r = mkSlot (Some (One w)) (has_presence f)
      else kept displaced s r
  end.

End Spec.

(** Another member of the oneof of the field is present in [other] and among
    the fields [l]. *)
Definition displaced (other : message) (l : list (nat * Field)) (i : nat) (f : Field) : Prop :=
  exists j g o, (j, g) ∈ l /\ j <> i /\ oneof g = Some o /\ oneof f = Some o /\
    is_present (get_slot other j) = true.

Context (HS : schema_ok _) (U : nat -> bytes -> Prop).

(** ** Selecting *)

Lemma select_rest P m i f :
  body_ok U P m -> FIELDS (cls m) !! i = Some f ->
  _unknown_fields (_select i f m) = _unknown_fields m /\ _reset_mask (_select i f m) = _reset_mask m.
Proof.
  intros Hm Hf. rewrite select_unfold. cbv zeta.
  assert (_unknown_fields (deselect i f m) = _unknown_fields m /\ _reset_mask (deselect i f m) = _reset_mask m)
    as [E1 E2].
  { unfold deselect. destruct (oneof f) as [o|]; [|done]. destruct (_oneofs m !! o) as [j|]; [|done].
    destruct (decide (j = i)); [done|]. unfold clear_index. destruct (FIELDS (cls m) !! j) as [g|]; [|done].
    unfold _clear_state. destruct (map_field g); [by destruct (cell_of _)|].
    destruct (repeated g); [by destruct (cell_of _)|]. destruct (oneof g); [|done]. by case_decide. }
  rewrite <- E1, <- E2. unfold chosen. by destruct (has_presence f), (oneof f).
Qed.

Lemma get_chosen i f m j : get_slot (chosen i f m) j = get_slot m j.
Proof. unfold chosen. by destruct (oneof f). Qed.

(** The members of a oneof are singular. *)
Lemma member_singular c j g o : FIELDS c !! j = Some g -> oneof g = Some o -> map_key_codec g = None /\ repeated g = false.
Proof.
  intros Hg Ho. apply singular_keys. eapply f_oneof; [|done].
  exact (Forall_lookup_1 _ _ _ _ (s_fields HS c) Hg).
Qed.

Lemma get_deselect P m i f j :
  body_ok U P m -> FIELDS (cls m) !! i = Some f -> j <> i ->
  get_slot (deselect i f m) j =
    match oneof f with
    | Some o => if decide (_oneofs m !! o = Some j) then no_slot else get_slot m j
    | None => get_slot m j
    end.
Proof.
  intros Hm Hf Hj. unfold deselect. destruct (oneof f) as [o|] eqn:Eo; [|done].
  destruct (_oneofs m !! o) as [k|] eqn:Ek; [|by rewrite decide_False].
  destruct (decide (k = i)) as [->|Hk]; [rewrite decide_False; [done|congruence]|].
  destruct (proj1 (b_oneofs _ _ _ Hm o k) Ek) as (g & Hg & Hog & _). unfold clear_index. rewrite Hg.
  destruct (decide (j = k)) as [->|Hjk].
  2:{ rewrite get_clear_state by done. rewrite decide_False; [done|congruence]. }
  rewrite decide_True by done. destruct (member_singular _ _ _ _ Hg Hog) as [Hmk Hr].
  destruct (body_slot _ _ _ _ _ Hm Hg) as [_ Hlen].
  unfold _clear_state, map_field. rewrite Hmk, Hr, Hog. case_decide; apply (get_set_slot m k k no_slot) in Hlen;
    rewrite decide_True in Hlen by done; exact Hlen.
Qed.

Lemma get_select P m i f j :
  body_ok U P m -> FIELDS (cls m) !! i = Some f ->
  get_slot (_select i f m) j =
    if decide (j = i) then mkSlot (cell_of (get_slot m i)) (has_presence f || is_present (get_slot m i))
    else match oneof f with
         | Some o => if decide (_oneofs m !! o = Some j) then no_slot else get_slot m j
         | None => get_slot m j
         end.
Proof.
  intros Hm Hf. destruct (deselect_ok U P m i f Hm Hf) as (Hd & Ec & Es & _).
  assert ((i < length (slots (chosen i f (deselect i f m))))%nat) as Hlen.
  { rewrite <- Ec in Hf. destruct (body_slot _ _ _ _ _ Hd Hf) as [_ Hl]. unfold chosen. by destruct (oneof f). }
  rewrite select_unfold. cbv zeta. destruct (decide (j = i)) as [->|Hj].
  - destruct (has_presence f); cbn [orb].
    + unfold mark_present. rewrite get_set_slot, decide_True, get_chosen, Es by done. done.
    + rewrite get_chosen, Es. by destruct (get_slot m i).
  - rewrite <- (get_deselect P m i f j) by done. destruct (has_presence f); [|apply get_chosen].
    unfold mark_present. rewrite get_set_slot, decide_False, get_chosen by done. done.
Qed.

(** ** One field *)

Section Field.
Context (P Q : message -> Prop) (HQP : forall m, Q m -> P m).
Context (clone : nat -> message -> result message_error message).
Context (mf : message -> message -> result message_error message).
Context (Hclone : forall m, Q m -> returns (clone (cls m) m) (fun m' => cls m' = cls m /\ Q m')).
Context (Hmf : forall m m', P m -> Q m' -> cls m = cls m' ->
  returns (mf m m') (fun r => cls r = cls m /\ P r)).

Lemma traverse_prepare c vs :
  Forall (value_ok Q c) vs -> traverse (_prepare clone c) vs = traverse (copy_value clone c) vs.
Proof.
  intros Hvs. rewrite Forall_forall in Hvs. apply traverse_ext. intros v Hv.
  unfold _prepare. by rewrite (normalize_value_ok HS Q) by auto.
Qed.

Lemma map_sets kc c es acc es' :
  key_codec_ok kc -> Forall (entry_ok Q kc c) es ->
  fold_result (map_set clone kc c) es acc = Ok es' ->
  exists vs, traverse (copy_value clone c) es.*2 = Ok vs /\
    es' = foldl (fun es e => dict_set es e.1 e.2) acc (zip es.*1 vs).
Proof.
  intros Hkc. revert acc. induction es as [|[k v] es IH]; intros acc Hes Hf.
  - injection Hf as <-. by exists [].
  - apply Forall_cons in Hes as [[Hk Hv] Hes]. cbn [fold_result] in Hf.
    apply bind_result_Ok in Hf as (acc' & Ha & Hf). unfold map_set in Ha. cbn [fst snd] in *.
    rewrite (normalize_key_ok HS) in Ha by done. cbn [mbind result_bind] in Ha. unfold _prepare in Ha.
    rewrite (normalize_value_ok HS Q) in Ha by done. cbn [mbind result_bind] in Ha.
    apply bind_result_Ok in Ha as (v' & Hv' & [= <-]). destruct (IH _ Hes Hf) as (vs & Hvs & ->).
    exists (v' :: vs). rewrite !fmap_cons. cbn [traverse fst snd]. rewrite Hv'. cbn [mbind result_bind].
    by rewrite Hvs.
Qed.

(** Does merging write the slot? *)
Definition acts (f : Field) (t : slot) : bool := negb (singular f) || _field_has_value f t.

(** What a written field does to the other slots of [self]. *)
Definition rest_slot (self : message) (f : Field) (t : slot) (j : nat) : slot :=
  match oneof f with
  | Some o => if acts f t && bool_decide (_oneofs self !! o = Some j) then no_slot else get_slot self j
  | None => get_slot self j
  end.

Lemma merge_field_slots other self i f r :
  body_ok U Q other -> body_ok U P self -> cls other = cls self -> FIELDS (cls self) !! i = Some f ->
  merge_field clone mf other self (i, f) = Ok r ->
  _unknown_fields r = _unknown_fields self /\ _reset_mask r = _reset_mask self /\
  merged clone mf f False (get_slot self i) (get_slot other i) (get_slot r i) /\
  forall j, j <> i -> get_slot r j = rest_slot self f (get_slot other i) j.
Proof.
  intros Ho Hs Ec Hf Hm. assert (FIELDS (cls other) !! i = Some f) as Hfo by by rewrite Ec.
  destruct (body_slot _ _ _ _ _ Ho Hfo) as [Hso _]. destruct (body_slot _ _ _ _ _ Hs Hf) as [Hss Hlen].
  pose proof (Forall_lookup_1 _ _ _ _ (s_fields HS (cls self)) Hf) as Hfok.
  unfold merge_field in Hm. unfold merged, rest_slot, acts, singular, map_field.
  assert (map_key_codec f <> None \/ repeated f = true -> oneof f = None) as Hnone.
  { destruct (oneof f) as [o|] eqn:Eo; [|done]. destruct (member_singular _ _ _ _ Hf Eo) as [E1 E2].
    rewrite E1, E2. naive_solver. }
  destruct (map_key_codec f) as [kc|] eqn:Ek; [|destruct (repeated f) eqn:Er].
  - rewrite Hnone by auto. pose proof (slot_entries_ok Q f _ kc Hso Ek) as [_ Hes].
    destruct (entries_of (get_slot other i)) as [|e es] eqn:Ee.
    { injection Hm as <-. split_and!; try done. by exists []. }
    apply bind_result_Ok in Hm as (es' & Hfold & [= <-]).
    apply map_sets in Hfold as (vs & Hvs & Heq); [|by eapply f_key|done].
    split_and!; try done.
    + exists vs. split; [done|]. rewrite get_set_cell, decide_True by done. exact Heq.
    + intros j Hj. by rewrite get_set_cell, decide_False.
  - rewrite Hnone by auto. pose proof (items_ok Q f _ Hso Ek Er) as Hit.
    destruct (items_of (get_slot other i)) as [|v vs] eqn:Ei.
    { injection Hm as <-. split_and!; try done. exists []. by rewrite app_nil_r. }
    apply bind_result_Ok in Hm as (vs' & Hext & [= <-]). unfold extend in Hext.
    apply bind_result_Ok in Hext as (bs & Hbs & [= <-]). rewrite traverse_prepare in Hbs by done.
    split_and!; try done.
    + exists bs. split; [done|]. by rewrite get_set_cell, decide_True.
    + intros j Hj. by rewrite get_set_cell, decide_False.
  - cbn [negb andb orb]. destruct (_field_has_value f (get_slot other i)) eqn:Ev; cbn [negb] in Hm.
    2:{ injection Hm as <-. split_and!; try done; [split; [by intros [[] _]|done]|]. intros j _. by destruct (oneof f). }
    destruct (cell_of (get_slot other i)) as [[v|l|l]|] eqn:Ex; try done.
    apply bind_result_Ok in Hm as (v' & Hv' & Hm). apply bind_result_Ok in Hm as (w & Hw & [= <-]).
    assert (singular f = true) as Hsg by by apply singular_keys.
    destruct (slot_one Q f _ _ Hso Hsg Ex) as (v1 & [= <-] & Hv).
    assert (merged_value mf (get_slot self i) v' w) as Hmv.
    { unfold merged_value. destruct (cell_of (get_slot self i)) as [[[s0|m0]|l|l]|] eqn:Es; try congruence.
      destruct v' as [s1|m1]; [congruence|].
      destruct (slot_one P f _ _ Hss Hsg Es) as (v2 & [= <-] & Hv2).
      assert (message_field f = true) as Hmsg by (unfold message_field; by destruct (codec_of f)).
      rewrite Hmsg in Hw. cbn [andb] in Hw. destruct (is_present (get_slot self i)); [|congruence].
      apply bind_result_Ok in Hw as (m2 & Hm2 & [= <-]). by exists m2. }
    destruct (copy_into Q clone Hclone _ _ Hv) as (v2 & E2 & Hvq). rewrite Hv' in E2. injection E2 as <-.
    destruct (merge_value P Q HQP mf Hmf f _ v' Hss Hsg Hvq) as (w2 & E2 & Hwp).
    rewrite Hw in E2. injection E2 as <-.
    set (self' := set_cell i (One w) self).
    assert (body_ok U P self') as Hb by (eapply set_cell_ok; [done..|by apply cell_ok_one]).
    destruct (select_rest P self' i f Hb Hf) as [E1 E2].
    assert (has_presence f || is_present (get_slot self i) = has_presence f) as Hpr.
    { destruct (is_present (get_slot self i)) eqn:Ep; [|apply orb_false_r].
      by destruct (sl_present _ _ _ Hss Ep) as (_ & -> & _). }
    split_and!; try done.
    + exists v, v', w. split_and!; try done. rewrite (get_select P) by done. rewrite decide_True by done.
      unfold self'. rewrite get_set_cell, decide_True by done. simpl. by rewrite Hpr.
    + intros j Hj. rewrite (get_select P) by done. rewrite decide_False by done.
      unfold self'. rewrite get_set_cell, decide_False by done. cbn [andb].
      destruct (oneof f); [|done]. change (_oneofs (set_cell i (One w) self)) with (_oneofs self).
      by case_bool_decide; case_decide.
Qed.

(** ** All fields *)

Lemma acts_merged f X Y s t r : acts f t = true -> merged clone mf f X s t r -> merged clone mf f Y s t r.
Proof.
  unfold acts, merged, singular, map_field. destruct (map_key_codec f), (repeated f); try done.
  cbn [negb andb orb]. by intros ->.
Qed.

Lemma idle_merged f X s t r : acts f t = false -> merged clone mf f X s t r <-> kept X s r.
Proof.
  unfold acts, merged, singular, map_field. destruct (map_key_codec f), (repeated f); try done.
  cbn [negb andb orb]. by intros ->.
Qed.

Context (other self : message) (Hother : body_ok U Q other) (Ecls : cls other = cls self).

Lemma member_acts i f o :
  FIELDS (cls self) !! i = Some f -> oneof f = Some o -> acts f (get_slot other i) = is_present (get_slot other i).
Proof.
  intros Hf Ho. destruct (member_singular _ _ _ _ Hf Ho) as [Hk Hr].
  unfold acts, _field_has_value, singular, map_field. by rewrite Hk, Hr, (oneof_presence f o Ho).
Qed.

Lemma member_unique i j f g o :
  FIELDS (cls self) !! i = Some f -> FIELDS (cls self) !! j = Some g -> oneof f = Some o -> oneof g = Some o ->
  is_present (get_slot other i) = true -> is_present (get_slot other j) = true -> i = j.
Proof.
  rewrite <- Ecls. intros Hf Hg Hof Hog Hi Hj.
  assert (_oneofs other !! o = Some i) by (apply (b_oneofs _ _ _ Hother); eauto).
  assert (_oneofs other !! o = Some j) by (apply (b_oneofs _ _ _ Hother); eauto). congruence.
Qed.

(** The state after the fields [l]. *)
Record after_fields (l : list (nat * Field)) (r : message) : Prop := {
  af_ok : body_ok U P r;
  af_cls : cls r = cls self;
  af_unknown : _unknown_fields r = _unknown_fields self;
  af_mask : _reset_mask r = _reset_mask self;
  af_written i f : FIELDS (cls self) !! i = Some f -> i ∈ l.*1 -> acts f (get_slot other i) = true ->
    merged clone mf f False (get_slot self i) (get_slot other i) (get_slot r i);
  af_kept i f : FIELDS (cls self) !! i = Some f -> ~ (i ∈ l.*1 /\ acts f (get_slot other i) = true) ->
    kept (displaced other l i f) (get_slot self i) (get_slot r i)
}.

Lemma displaced_snoc l j g i f :
  displaced other (l ++ [(j, g)]) i f <->
  displaced other l i f \/
  j <> i /\ is_present (get_slot other j) = true /\ exists o, oneof g = Some o /\ oneof f = Some o.
Proof.
  unfold displaced. split.
  - intros (k & h & o & [Hin|Hin%list_elem_of_singleton]%elem_of_app & ?); [left; by exists k, h, o|].
    right. injection Hin as -> ->. naive_solver.
  - intros [(k & h & o & Hin & ?)|(? & ? & o & ? & ?)].
    + exists k, h, o. rewrite elem_of_app. by split; [left|].
    + exists j, g, o. rewrite elem_of_app, list_elem_of_singleton. by split; [right|].
Qed.

Lemma displaced_skip l j g i f :
  ~ (is_present (get_slot other j) = true /\ exists o, oneof g = Some o /\ oneof f = Some o) ->
  displaced other l i f <-> displaced other (l ++ [(j, g)]) i f.
Proof. intros Hn. rewrite displaced_snoc. split; [by left|]. intros [?|(_ & ? & ?)]; [done|]. by destruct Hn. Qed.

Lemma displaced_dec l i f : displaced other l i f \/ ~ displaced other l i f.
Proof.
  induction l as [|[j g] l IH] using rev_ind; [right; intros (? & ? & ? & Hin & _); inversion Hin|].
  rewrite displaced_snoc. destruct IH as [IH|IH]; [by left; left|].
  destruct (decide (j <> i /\ is_present (get_slot other j) = true)) as [[? ?]|]; [|right; naive_solver].
  destruct (oneof f) as [o|]; [|right; naive_solver]. destruct (oneof g) as [o'|]; [|right; naive_solver].
  destruct (decide (o = o')) as [->|]; [left; right; naive_solver|right; naive_solver].
Qed.

(** The slot of the field itself is not displaced when the field is written. *)
Lemma not_displaced l j g :
  (forall k h, (k, h) ∈ l -> FIELDS (cls self) !! k = Some h) ->
  FIELDS (cls self) !! j = Some g -> acts g (get_slot other j) = true -> ~ displaced other l j g.
Proof.
  intros Hl Hg Ha (k & h & o & Hin & Hne & Hoh & Hog & Hp). apply Hne.
  rewrite (member_acts j g o) in Ha by done. eapply member_unique; eauto.
Qed.

Lemma kept_iff X Y s r : (X <-> Y) -> kept X s r -> kept Y s r.
Proof. unfold kept. intros ->. done. Qed.

(** A slot that the fields before did not write, after the field [g]. *)
Lemma kept_step l j g r0 i f :
  body_ok U P r0 -> cls r0 = cls self -> FIELDS (cls self) !! i = Some f -> FIELDS (cls self) !! j = Some g ->
  i <> j -> kept (displaced other l i f) (get_slot self i) (get_slot r0 i) ->
  kept (displaced other (l ++ [(j, g)]) i f) (get_slot self i) (rest_slot r0 g (get_slot other j) i).
Proof.
  intros Hok Hc Hf Hg Hij Hk. unfold rest_slot. destruct (oneof g) as [o|] eqn:Eo.
  2:{ eapply kept_iff; [|done]. apply displaced_skip. rewrite Eo. by intros (_ & o & ? & _). }
  rewrite (member_acts j g o) by done.
  destruct (is_present (get_slot other j)) eqn:Ep; cbn [andb].
  2:{ eapply kept_iff; [|done]. apply displaced_skip. rewrite Ep. by intros [? _]. }
  assert (_oneofs r0 !! o = Some i <-> oneof f = Some o /\ is_present (get_slot r0 i) = true) as Hsel.
  { rewrite (b_oneofs _ _ _ Hok o i), Hc. split; [|by exists f]. intros (f' & Hf' & ? & ?).
    rewrite Hf in Hf'. by injection Hf' as <-. }
  destruct (decide (oneof f = Some o)) as [Hof|Hof].
  2:{ rewrite bool_decide_false by by intros [? _]%Hsel. eapply kept_iff; [|done]. apply displaced_skip.
      rewrite Eo. intros (_ & o' & [= <-] & ?). done. }
  assert (displaced other (l ++ [(j, g)]) i f) as Hd by (apply displaced_snoc; right; eauto).
  destruct Hk as [Hk1 Hk2]. destruct (is_present (get_slot self i)) eqn:Es.
  - assert ((if bool_decide (_oneofs r0 !! o = Some i) then no_slot else get_slot r0 i) = no_slot) as ->.
    { case_bool_decide as Hb; [done|]. destruct (displaced_dec l i f) as [Hd0|Hd0]; [by apply Hk1|].
      exfalso. apply Hb, Hsel. split; [done|]. rewrite Hk2; [done|]. by intros [? _]. }
    split; [done|]. intros []. by rewrite Es.
  - assert (get_slot r0 i = get_slot self i) as E by (apply Hk2; by intros [_ ?]).
    rewrite bool_decide_false by (intros [_ Hp]%Hsel; congruence). split; [|done]. rewrite Es. by intros [_ ?].
Qed.

Lemma after_step l j g r0 r :
  (forall k h, (k, h) ∈ l -> FIELDS (cls self) !! k = Some h) ->
  FIELDS (cls self) !! j = Some g -> j ∉ l.*1 -> after_fields l r0 ->
  merge_field clone mf other r0 (j, g) = Ok r -> after_fields (l ++ [(j, g)]) r.
Proof.
  intros Hl Hg Hj [Hok Hc Hu Hm Hw Hk] Hr.
  assert (FIELDS (cls r0) !! j = Some g) as Hg0 by by rewrite Hc.
  destruct (merge_field_ok HS P Q HQP clone mf Hclone Hmf U other r0 j g) as (r' & Er & Hr1 & Hr2);
    [done|done|congruence|done|]. rewrite Hr in Er. injection Er as <-.
  destruct (merge_field_slots other r0 j g r Hother Hok ltac:(congruence) Hg0 Hr) as (E1 & E2 & Hslot & Hrest).
  assert (forall i, i ∈ (l ++ [(j, g)]).*1 <-> i ∈ l.*1 \/ i = j) as Hin.
  { intros i. rewrite fmap_app, elem_of_app. cbn. by rewrite list_elem_of_singleton. }
  assert (forall i f, i <> j -> FIELDS (cls self) !! i = Some f -> forall o, oneof g = Some o ->
    acts g (get_slot other j) = true -> _oneofs r0 !! o = Some i ->
    oneof f = Some o /\ is_present (get_slot r0 i) = true /\ is_present (get_slot other j) = true) as Hsel.
  { intros i f Hij Hf o Ho Ha Hoi. destruct (proj1 (b_oneofs _ _ _ Hok o i) Hoi) as (f' & Hf' & Hof & Hp).
    rewrite Hc, Hf in Hf'. injection Hf' as <-. split; [done|]. split; [done|]. by rewrite <- (member_acts j g o). }
  split; [done|congruence..| |].
  - intros i f Hf Hi Ha. destruct (decide (i = j)) as [->|Hij].
    + assert (f = g) as -> by congruence.
      destruct (Hk j g Hg) as [_ Hs]; [by intros [? _]|]. rewrite <- Hs; [done|].
      intros [Hd _]. by eapply not_displaced.
    + apply Hin in Hi as [Hi|?]; [|done]. rewrite Hrest by done. unfold rest_slot.
      destruct (oneof g) as [o|] eqn:Eo; [|by apply Hw]. destruct (acts g _ && _) eqn:Ed; [|by apply Hw].
      apply andb_true_iff in Ed as [Ha' Ed%bool_decide_eq_true].
      destruct (Hsel i f Hij Hf o eq_refl Ha' Ed) as (Hof & _ & Hp). exfalso. apply Hij.
      rewrite (member_acts i f o) in Ha by done. eapply member_unique; eauto.
  - intros i f Hf Hi. destruct (decide (i = j)) as [->|Hij].
    + assert (f = g) as -> by congruence. assert (acts g (get_slot other j) = false) as Ha.
      { apply not_true_is_false. intros Ha. apply Hi. split; [apply Hin; by right|done]. }
      apply idle_merged in Hslot as [_ Hs]; [|done]. rewrite Hs by by intros [[] _].
      eapply kept_iff; [|apply (Hk j g Hg); by intros [? _]]. rewrite displaced_snoc. naive_solver.
    + assert (kept (displaced other l i f) (get_slot self i) (get_slot r0 i)) as Hk0.
      { apply Hk; [done|]. intros [Hi' Ha]. apply Hi. split; [apply Hin; by left|done]. }
      rewrite Hrest by done. by apply (kept_step l j g r0 i f).
Qed.

Lemma after_all l r :
  NoDup l.*1 -> (forall k h, (k, h) ∈ l -> FIELDS (cls self) !! k = Some h) -> body_ok U P self ->
  fold_result (merge_field clone mf other) l self = Ok r -> after_fields l r.
Proof.
  intros Hnd Hl Hself. revert r. induction l as [|[j g] l IH] using rev_ind; intros r Hr.
  - injection Hr as <-. split; try done; [intros i f _ Hi; inversion Hi|].
    intros i f _ _. split; [|done]. intros [(? & ? & ? & Hin & _) _]. inversion Hin.
  - rewrite fold_result_app in Hr. apply bind_result_Ok in Hr as (r0 & H0 & Hr).
    cbn [fold_result] in Hr. apply bind_result_Ok in Hr as (r' & Hr & [= <-]).
    rewrite fmap_app in Hnd. apply NoDup_app in Hnd as (Hnd & Hj & _).
    assert (forall k h, (k, h) ∈ l -> FIELDS (cls self) !! k = Some h) as Hl'.
    { intros k h Hin. apply Hl, elem_of_app. by left. }
    apply (after_step l j g r0); [done| | |by apply IH|done].
    + apply Hl, elem_of_app. right. by apply list_elem_of_singleton.
    + intros Hin. apply (Hj j Hin). cbn. by apply list_elem_of_singleton.
Qed.

(** What a whole pass over the fields makes of each slot. *)
Lemma pass_merged r :
  body_ok U P self -> fold_result (merge_field clone mf other) (indexed (cls self)) self = Ok r ->
  _unknown_fields r = _unknown_fields self /\ _reset_mask r = _reset_mask self /\
  forall i f, FIELDS (cls self) !! i = Some f ->
    merged clone mf f (displaced other (indexed (cls self)) i f) (get_slot self i) (get_slot other i) (get_slot r i).
Proof.
  intros Hself Hr. destruct (after_all (indexed (cls self)) r) as [_ _ Hu Hm Hw Hk]; [| |done|done|].
  { rewrite indexed_fst. apply NoDup_seq. }
  { intros k h. by rewrite indexed_lookup. }
  split; [done|]. split; [done|]. intros i f Hf. destruct (acts f (get_slot other i)) eqn:Ea.
  - apply (acts_merged f False); [done|]. apply Hw; [done| |done]. rewrite indexed_fst. apply elem_of_seq.
    split; [lia|]. by eapply lookup_lt_Some.
  - apply idle_merged; [done|]. apply Hk; [done|]. rewrite Ea. by intros [_ ?].
Qed.

End Field.

(** ** Whole messages *)

Lemma MergeFrom_merged n N self other :
  (n <= N)%nat -> message_ok U (S n) other -> message_ok U (S N) self -> cls other = cls self ->
  exists r, MergeFrom (S n) self other = Ok r /\ cls r = cls self /\ message_ok U (S N) r /\
    _unknown_fields r = _unknown_fields self ++ _unknown_fields other /\ _reset_mask r = _reset_mask self /\
    forall i f, FIELDS (cls self) !! i = Some f ->
      merged (fun k m => MergeFrom n (Clear (new k)) m) (MergeFrom n) f
        (displaced other (indexed (cls self)) i f) (get_slot self i) (get_slot other i) (get_slot r i).
Proof.
  intros HN Ho Hs Ec. destruct (MergeFrom_ok HS U (S n) (S N) (S n) self other) as (r & Hr & Hcls & Hok);
    [lia|lia|done|done|done|]. exists r. split; [done|]. split; [done|]. split; [done|].
  cbn [MergeFrom] in Hr. rewrite Ec, Nat.eqb_refl in Hr. cbn [negb] in Hr.
  apply bind_result_Ok in Hr as (r0 & Hr0 & [= <-]).
  destruct (pass_merged (message_ok U N) (message_ok U n) ltac:(intros; eapply message_ok_mono; [|done]; lia)
    (fun k m => MergeFrom n (Clear (new k)) m) (MergeFrom n)) with (other := other) (self := self) (r := r0)
    as (E1 & E2 & Hm); [| |done|done|done|done|].
  - intros m Hm. rewrite Clear_new. apply (MergeFrom_ok HS U n n n (new (cls m)) m); [lia|lia|done| |done].
    destruct n; [done|]. apply new_ok.
  - intros m m' Hm Hm' Em. apply (MergeFrom_ok HS U n N n); [lia|lia|done..].
  - cbn [_unknown_fields _reset_mask set_unknown]. split; [by rewrite E1|]. split; [done|]. exact Hm.
Qed.

End Merge.
