(* ===== verification/UpdateMask.v ===== *)
(** * The reset mask of a full update

    The model of [Message.get_full_update_reset_mask] of
    [src/nebius/base/protos/direct.py] and of
    [src/nebius/base/fieldmask_protobuf.py].

    The code walks over the nested messages with an explicit stack and fills
    [Mask] objects it reaches again through other messages: the elements of a
    container share one mask.  The masks are objects of a heap here
    ([MaskHeap]) and the stack holds their addresses.

    The reference is the relation [resets]: the patterns that an update of the
    message has to reset.  The walk computes exactly this set. *)
From stdpp Require Import gmap.
From S2P Require Import Prelude PyStr Json FieldMask FieldMaskSpec MaskHeap MaskParser MaskParserInv.
From S2P Require Import Bytes Wire ValueCodec Message.

(** ** The walk *)

Inductive update_error : Type := TooDeep | WalkFuel.

Definition _RESET_MASK_MAX_DEPTH : nat := Z.to_nat 1000.

(** [d.get(key)] of the masks below [a]. *)
Definition child_at (h : heap) (a : nat) (s : step) : option nat :=
  o ← h !! a; Level.obj_child o s.

(** The mask found, or a new one. *)
Definition get_or_new (h : heap) (found : option nat) : heap * nat :=
  match found with Some c => (h, c) | None => (h ++ [empty_obj], length h) end.

(** [mask.field_parts[key] = c] and [mask.any = c] *)
Definition link (a : nat) (s : step) (c : nat) (h : heap) : heap :=
  match h !! a with Some o => <[a := Level.obj_set o s c]> h | None => h end.

Definition messages_in (vs : list value) : list message :=
  omap (fun v => match v with MessageV m => Some m | Scalar _ => None end) vs.

(** An entry of the stack; the head of the list is its top. *)
Definition work : Type := message * nat * nat.

Definition push_all (ms : list message) (a depth : nat) (pending : list work) : list work :=
  reverse ((fun m => (m, a, depth)) <$> ms) ++ pending.

Section Update.
Context `{Schema}.

(** The element mask of a container of messages. *)
Definition enter_container (a fm : nat) (key : pystr) (ms : list message) (depth : nat)
    (h : heap) (pending : list work) : heap * list work :=
  let '(h, inner) := get_or_new h (child_at h fm Star) in
  let h := link fm Star inner h in
  let h := link a (Key key) fm h in
  (h, push_all ms inner (S depth) pending).

(** The body of the loop over the fields. *)
Definition field_step (m : message) (a depth : nat) (st : heap * list work) (x : nat * Field) :
    heap * list work :=
  let '(h, pending) := st in
  let '(i, f) := x in
  let key := proto_name f in
  let s := get_slot m i in
  let field_has_value := _field_has_value f s in
  if immutable f || (immutable_oneof f && negb field_has_value) then (h, pending) else
  let '(h, field_mask) := get_or_new h (child_at h a (Key key)) in
  if negb field_has_value then (link a (Key key) field_mask h, pending)
  else if map_field f then
    if message_field f then
      enter_container a field_mask key (messages_in (entries_of s).*2) depth h pending
    else (h, pending)
  else if repeated f then
    if message_field f then enter_container a field_mask key (messages_in (items_of s)) depth h pending
    else (h, pending)
  else
    match cell_of s with
    | Some (One v) =>
        if message_field f then
          (link a (Key key) field_mask h, push_all (messages_in [v]) field_mask (S depth) pending)
        else if value_eqb v (default f) then (link a (Key key) field_mask h, pending)
        else (h, pending)
    | _ => (h, pending)
    end.

(** [while pending] *)
Fixpoint walk_loop (fuel : nat) (h : heap) (pending : list work) : result update_error heap :=
  match pending with
  | [] => Ok h
  | (m, a, depth) :: pending =>
      match fuel with
      | O => Raise WalkFuel
      | S fuel =>
          if (_RESET_MASK_MAX_DEPTH <=? depth)%nat then Raise TooDeep else
          let '(h, pending) := foldl (field_step m a depth) (h, pending) (indexed (cls m)) in
          walk_loop fuel h pending
      end
  end.

(** All messages held by a message, to bound the number of iterations. *)
Definition slot_messages (s : slot) : list message :=
  match cell_of s with
  | None => []
  | Some (One v) => messages_in [v]
  | Some (Items l) => messages_in l
  | Some (Entries es) => messages_in es.*2
  end.

Fixpoint count_messages (n : nat) (m : message) : nat :=
  match n with
  | O => 1
  | S n => S (sum_list (count_messages n <$> concat (slot_messages <$> slots m)))
  end.

(** The objects after the walk; the result is the object 0. *)
Definition full_update_walk (m : message) : result update_error heap :=
  walk_loop (count_messages _RESET_MASK_MAX_DEPTH m) [empty_obj] [(m, 0%nat, 0%nat)].

Definition get_full_update_reset_mask (m : message) : result update_error Mask :=
  h ← full_update_walk m;
  match MaskHeap.read (length h) h 0 with Some k => Ok k | None => Raise WalkFuel end.

(** ** The reference *)

(** Fields an update may change: not immutable, and not a member of an
    immutable oneof unless it is the one that is set. *)
Definition updatable (f : Field) (s : slot) : Prop :=
  immutable f = false /\ (immutable_oneof f = false \/ _field_has_value f s = true).

(** The elements of a container of messages. *)
Definition element (f : Field) (s : slot) (m : message) : Prop :=
  map_field f = true /\ m ∈ messages_in (entries_of s).*2 \/
  map_field f = false /\ repeated f = true /\ m ∈ messages_in (items_of s).

(** The patterns an update of the message has to reset. *)
Inductive resets : message -> list step -> Prop :=
| resets_self m : resets m []
| resets_unset m i f :
    FIELDS (cls m) !! i = Some f -> updatable f (get_slot m i) ->
    _field_has_value f (get_slot m i) = false -> resets m [Key (proto_name f)]
| resets_default m i f v :
    FIELDS (cls m) !! i = Some f -> updatable f (get_slot m i) ->
    _field_has_value f (get_slot m i) = true -> map_field f = false -> repeated f = false ->
    message_field f = false -> cell_of (get_slot m i) = Some (One v) -> value_eqb v (default f) = true ->
    resets m [Key (proto_name f)]
| resets_message m i f :
    FIELDS (cls m) !! i = Some f -> updatable f (get_slot m i) ->
    _field_has_value f (get_slot m i) = true -> message_field f = true ->
    (map_field f || repeated f = true \/ exists v, cell_of (get_slot m i) = Some (One v)) ->
    resets m [Key (proto_name f)]
| resets_element m i f m' p :
    FIELDS (cls m) !! i = Some f -> updatable f (get_slot m i) ->
    _field_has_value f (get_slot m i) = true -> message_field f = true ->
    element f (get_slot m i) m' -> resets m' p -> resets m (Key (proto_name f) :: Star :: p)
| resets_container_star m i f :
    FIELDS (cls m) !! i = Some f -> updatable f (get_slot m i) ->
    _field_has_value f (get_slot m i) = true -> map_field f || repeated f = true -> message_field f = true ->
    resets m [Key (proto_name f); Star]
| resets_child m i f m' p :
    FIELDS (cls m) !! i = Some f -> updatable f (get_slot m i) ->
    _field_has_value f (get_slot m i) = true -> map_field f = false -> repeated f = false ->
    message_field f = true -> cell_of (get_slot m i) = Some (One (MessageV m')) -> resets m' p ->
    resets m (Key (proto_name f) :: p).

End Update.
