(* ===== verification/UpdateMaskSpec.v ===== *)
(** * The walk computes the patterns to reset

    Masks in a heap are described by the walks that lead from one object to
    another.  Adding a child adds exactly the walks through it, so every step of
    the loop keeps the set of patterns that are in the heap already or still to
    come from the stack. *)
From stdpp Require Import gmap.
From S2P Require Import Prelude PyStr Json FieldMask FieldMaskSpec MaskHeap MaskParser MaskParserInv.
From S2P Require Import Bytes Wire ValueCodec Message MessageInv MessageEncode UpdateMask.

(** ** Walks *)

Fixpoint walk (h : heap) (l : nat) (p : list step) : option nat :=
  match p with
  | [] => if decide (l < length h)%nat then Some l else None
  | s :: p => c ← child_at h l s; walk h c p
  end.

Lemma walk_app h l p q : walk h l (p ++ q) = a ← walk h l p; walk h a q.
Proof.
  revert l. induction p as [|s p IH]; intros l; simpl.
  - case_decide as Hl; [done|]. destruct q as [|s q]; simpl; [by rewrite decide_False|].
    unfold child_at. by rewrite lookup_ge_None_2 by lia.
  - destruct (child_at h l s) as [c|]; [|done]. simpl. apply IH.
Qed.

Lemma child_lt h l s c : heap_ok h -> child_at h l s = Some c -> (l < c < length h)%nat.
Proof.
  unfold child_at. intros Hh Hc. apply bind_Some in Hc as (o & Ho & Hc).
  destruct (Hh l o Ho) as [_ Hr]. apply Hr. unfold refs. destruct s as [|k]; simpl in Hc.
  - rewrite Hc. left.
  - apply dict_get_elem in Hc. apply elem_of_app. right. apply list_elem_of_fmap. by exists (k, c).
Qed.

Lemma walk_lt h l p a : heap_ok h -> walk h l p = Some a -> (l <= a < length h)%nat.
Proof.
  intros Hh. revert l. induction p as [|s p IH]; intros l; simpl.
  - case_decide; [|done]. intros [= <-]. lia.
  - intros Hc. apply bind_Some in Hc as (c & Hc & Hw). apply child_lt in Hc; [|done].
    apply IH in Hw. lia.
Qed.

(** The tree of an object has the patterns of its walks. *)
Lemma read_has n h l m p :
  MaskHeap.read n h l = Some m -> has m p = bool_decide (is_Some (walk h l p)).
Proof.
  revert l m p. induction n as [|n IH]; intros l m p Hr; [done|]. rewrite read_unfold in Hr.
  apply bind_Some in Hr as (o & Ho & Hr). apply bind_Some in Hr as (a & Ha & Hr).
  apply bind_Some in Hr as (ps & Hps & [= <-]).
  destruct p as [|s p].
  { cbn [walk]. rewrite decide_True by by eapply lookup_lt_Some. by rewrite has_nil, bool_decide_true. }
  cbn [walk]. unfold child_at. rewrite Ho. cbn [mbind option_bind]. rewrite has_cons.
  assert (match child (mkMask a ps) s, Level.obj_child o s with
          | Some c', Some c => MaskHeap.read n h c = Some c' | None, None => True | _, _ => False end) as Hc.
  { destruct s as [|k]; cbn.
    - destruct (o_any o) as [c|]; [|by injection Ha as <-]. apply fmap_Some in Ha as (c' & ? & ->). done.
    - clear - Hps. revert ps Hps. induction (o_parts o) as [|[k' c] cs IHc]; intros ps Hps.
      + by injection Hps as <-.
      + rewrite mapM_cons_pair in Hps. apply bind_Some in Hps as (c' & Hc' & Hps).
        apply bind_Some in Hps as (ps' & Hps' & [= <-]). cbn [dict_get]. case_decide; [done|]. by apply IHc. }
  destruct (child (mkMask a ps) s) as [c'|], (Level.obj_child o s) as [c|]; try done. by apply IH.
Qed.

(** ** Adding a child *)

(** The child [s] of [a], created when there is none. *)
Definition ensure (h : heap) (a : nat) (s : step) : heap * nat :=
  match child_at h a s with
  | Some c => (h, c)
  | None => (link a s (length h) (h ++ [empty_obj]), length h)
  end.

Lemma child_app h l s : (l < length h)%nat -> child_at (h ++ [empty_obj]) l s = child_at h l s.
Proof. intros Hl. unfold child_at. by rewrite lookup_app_l. Qed.

Lemma child_link h a s c l s' :
  (a < length h)%nat ->
  child_at (link a s c h) l s' = if decide (l = a /\ s' = s) then Some c else child_at h l s'.
Proof.
  intros [o Ho]%lookup_lt_is_Some_2. unfold link, child_at. rewrite Ho.
  destruct (decide (l = a)) as [->|Hl].
  - rewrite list_lookup_insert_eq by by eapply lookup_lt_Some. rewrite Ho. cbn.
    destruct s as [|k], s' as [|k']; cbn; try (by rewrite decide_False by naive_solver);
      try (by rewrite decide_True).
    rewrite dict_get_set. destruct (decide (k' = k)) as [->|]; [by rewrite decide_True|].
    by rewrite decide_False by naive_solver.
  - rewrite list_lookup_insert_ne by done. by rewrite decide_False by naive_solver.
Qed.

Lemma link_length a s c h : length (link a s c h) = length h.
Proof. unfold link. destruct (h !! a); [apply length_insert|done]. Qed.

(** Linking a child that is there changes nothing. *)
Lemma link_same h a s c : heap_ok h -> child_at h a s = Some c -> link a s c h = h.
Proof.
  unfold child_at, link. intros Hh Hc. apply bind_Some in Hc as (o & Ho & Hc). rewrite Ho.
  destruct (Hh a o Ho) as [Hd _]. rewrite <- (list_insert_id h a o Ho) at 2. f_equal.
  destruct o as [oa ops], s as [|k]; cbn in *; [by rewrite Hc|]. f_equal.
  clear - Hc. induction ops as [|[k' c'] ops IH]; [done|]. cbn in *. case_decide; [congruence|]. by rewrite IH.
Qed.

(** Trees: no object has two parents. *)
Definition unique_parents (h : heap) : Prop :=
  forall l s l' s' c, child_at h l s = Some c -> child_at h l' s' = Some c -> l = l' /\ s = s'.

Record tree_ok (h : heap) : Prop := {
  t_heap : heap_ok h;
  t_unique : unique_parents h;
  t_root : (0 < length h)%nat
}.

Lemma child_new h s : child_at (h ++ [empty_obj]) (length h) s = None.
Proof. unfold child_at. rewrite lookup_app_r, Nat.sub_diag by lia. by destruct s. Qed.

Lemma child_range h l s c : child_at h l s = Some c -> (l < length h)%nat.
Proof. unfold child_at. intros (o & Ho & _)%bind_Some. by eapply lookup_lt_Some. Qed.

Lemma tree_new h : tree_ok h -> tree_ok (h ++ [empty_obj]).
Proof.
  intros [Hh Hu Hr]. split; [by apply heap_ok_new| |rewrite length_app; lia].
  assert (forall l s c, child_at (h ++ [empty_obj]) l s = Some c -> child_at h l s = Some c) as Hc.
  { intros l s c Hc. destruct (decide (l < length h)%nat); [by rewrite child_app in Hc|].
    pose proof (child_range _ _ _ _ Hc) as Hl. rewrite length_app in Hl. simpl in Hl.
    assert (l = length h) as -> by lia. by rewrite child_new in Hc. }
  intros l s l' s' c H1%Hc H2%Hc. by eapply Hu.
Qed.

(** Linking a fresh object. *)
Lemma tree_link h a s :
  tree_ok h -> (a < length h)%nat -> tree_ok (link a s (length h) (h ++ [empty_obj])).
Proof.
  intros Ht Ha. pose proof (tree_new h Ht) as [Hh' Hu' Hr'].
  assert (a < length (h ++ [empty_obj]))%nat as Ha' by (rewrite length_app; simpl; lia).
  split; [| |by rewrite link_length].
  - unfold link. destruct ((h ++ [empty_obj]) !! a) as [o|] eqn:Eo; [|done].
    apply heap_ok_set; [done..|]. rewrite length_app. simpl. lia.
  - assert (forall l s', child_at (h ++ [empty_obj]) l s' <> Some (length h)) as Hfresh.
    { intros l s' Hc. destruct (decide (l < length h)%nat) as [Hl|Hl].
      - rewrite child_app in Hc by done. apply child_lt in Hc; [lia|apply Ht].
      - pose proof (child_range _ _ _ _ Hc) as Hx. rewrite length_app in Hx. simpl in Hx.
        assert (l = length h) as -> by lia. by rewrite child_new in Hc. }
    intros l s1 l' s2 c. rewrite !child_link by done.
    destruct (decide (l = a /\ s1 = s)) as [[-> ->]|]; destruct (decide (l' = a /\ s2 = s)) as [[-> ->]|];
      [done|..]; intros H1 H2.
    + injection H1 as <-. by apply Hfresh in H2.
    + injection H2 as <-. by apply Hfresh in H1.
    + by eapply Hu'.
Qed.

(** The walks in a heap with one more object. *)
Lemma walk_new h l p : heap_ok h -> (l < length h)%nat -> walk (h ++ [empty_obj]) l p = walk h l p.
Proof.
  intros Hh. revert l. induction p as [|s p IH]; intros l Hl; simpl.
  - rewrite !decide_True; [done|lia|rewrite length_app; lia].
  - rewrite child_app by done. destruct (child_at h l s) as [c|] eqn:Ec; [|done]. simpl. apply IH.
    apply child_lt in Ec; [lia|done].
Qed.

Lemma walk_link h a s l p b :
  heap_ok h -> (a < length h)%nat -> child_at h a s = None -> (l < length h)%nat ->
  walk (link a s (length h) (h ++ [empty_obj])) l p = Some b <->
  walk h l p = Some b \/ b = length h /\ exists q, p = q ++ [s] /\ walk h l q = Some a.
Proof.
  intros Hh Ha Hn. set (h1 := link a s (length h) (h ++ [empty_obj])).
  assert (length h1 = S (length h)) as Hlen by (unfold h1; rewrite link_length, length_app; simpl; lia).
  assert (forall l s', (l < length h)%nat -> child_at h1 l s' =
    if decide (l = a /\ s' = s) then Some (length h) else child_at h l s') as Hc.
  { intros l' s' Hl'. unfold h1. rewrite child_link by (rewrite length_app; simpl; lia). by rewrite child_app. }
  revert l. induction p as [|s' p IH]; intros l Hl; cbn [walk].
  - rewrite !decide_True by lia. split; [by left|]. intros [?|(_ & q & Hq & _)]; [done|].
    destruct q; discriminate.
  - rewrite Hc by done. destruct (decide (l = a /\ s' = s)) as [[-> ->]|Hne].
    + rewrite Hn. cbn [mbind option_bind]. split.
      * destruct p as [|s' p]; cbn [walk].
        -- rewrite decide_True by lia. intros [= <-]. right. split; [done|]. exists []. split; [done|].
           cbn [walk]. by rewrite decide_True.
        -- assert (child_at h1 (length h) s' = None) as ->; [|done]. unfold h1.
           rewrite child_link, decide_False, child_new by (rewrite ?length_app; simpl; lia). done.
      * intros [?|(-> & q & Hq & Hw)]; [done|]. destruct q as [|s1 q].
        -- injection Hq as ->. cbn [walk]. by rewrite decide_True by lia.
        -- injection Hq as <- ->. exfalso. cbn [walk] in Hw. rewrite Hn in Hw. done.
    + destruct (child_at h l s') as [c|] eqn:Ec; cbn [mbind option_bind].
      * pose proof (child_lt _ _ _ _ Hh Ec) as Hcl. rewrite IH by lia. split.
        -- intros [?|(? & q & -> & Hw)]; [by left|right]. split; [done|]. exists (s' :: q). split; [done|].
           cbn [walk]. by rewrite Ec.
        -- intros [?|(? & q & Hq & Hw)]; [by left|]. destruct q as [|s1 q].
           ++ injection Hq as -> ->. cbn [walk] in Hw. case_decide; [|done]. exfalso. apply Hne. by injection Hw as ->.
           ++ injection Hq as <- ->. cbn [walk] in Hw. rewrite Ec in Hw. right. split; [done|]. by exists q.
      * split; [done|]. intros [?|(? & q & Hq & Hw)]; [done|]. exfalso. destruct q as [|s1 q].
        -- injection Hq as -> ->. cbn [walk] in Hw. case_decide; [|done]. apply Hne. by injection Hw as ->.
        -- injection Hq as <- ->. cbn [walk] in Hw. by rewrite Ec in Hw.
Qed.

(** What stays when objects are added: the walks from the root to old objects. *)
Definition stable (h h' : heap) : Prop :=
  (length h <= length h')%nat /\
  forall q b, (b < length h)%nat -> walk h' 0 q = Some b <-> walk h 0 q = Some b.

Lemma stable_refl h : stable h h.
Proof. by split. Qed.

Lemma stable_trans h1 h2 h3 : stable h1 h2 -> stable h2 h3 -> stable h1 h3.
Proof. intros [L1 H1] [L2 H2]. split; [lia|]. intros q b Hb. rewrite H2 by lia. by apply H1. Qed.

Lemma ensure_spec h a s h1 c :
  tree_ok h -> (a < length h)%nat -> ensure h a s = (h1, c) ->
  tree_ok h1 /\ stable h h1 /\ child_at h1 a s = Some c /\ (c < length h1)%nat /\
  forall p, is_Some (walk h1 0 p) <-> is_Some (walk h 0 p) \/ exists q, p = q ++ [s] /\ walk h 0 q = Some a.
Proof.
  intros Ht Ha. unfold ensure. destruct (child_at h a s) as [c'|] eqn:Ec; intros [= <- <-].
  - split; [done|]. split; [apply stable_refl|]. split; [done|].
    split; [by apply child_lt in Ec as [? ?]; [|apply Ht]|].
    intros p. split; [by left|]. intros [?|(q & -> & Hq)]; [done|]. rewrite walk_app, Hq. cbn.
    rewrite Ec. cbn. rewrite decide_True; [done|]. apply child_lt in Ec as [? ?]; [done|apply Ht].
  - pose proof (fun p b => walk_link h a s 0 p b (t_heap _ Ht) Ha Ec (t_root _ Ht)) as Hw.
    split; [by apply tree_link|]. split_and!.
    + split; [rewrite link_length, length_app; lia|]. intros q b Hb. rewrite Hw. split; [|by left].
      intros [?|[-> _]]; [done|lia].
    + rewrite child_link by (rewrite length_app; simpl; lia). by rewrite decide_True.
    + rewrite link_length, length_app. simpl. lia.
    + intros p. split.
      * intros [b Hb]. apply Hw in Hb as [?|[_ ?]]; [left; by eexists|by right].
      * intros [[b Hb]|Hq]; [exists b; apply Hw; by left|]. exists (length h). apply Hw. by right.
Qed.

(** The walks to a child go through its parent. *)
Lemma walk_to_child h a s c q :
  tree_ok h -> child_at h a s = Some c -> walk h 0 q = Some c ->
  exists q', q = q' ++ [s] /\ walk h 0 q' = Some a.
Proof.
  intros Ht Hc Hw. pose proof (child_lt _ _ _ _ (t_heap _ Ht) Hc) as Hlt.
  destruct q as [|s' q' _] using rev_ind.
  { cbn [walk] in Hw. case_decide; [|done]. injection Hw as <-. lia. }
  rewrite walk_app in Hw. apply bind_Some in Hw as (a' & Ha' & Hw). cbn [walk] in Hw.
  apply bind_Some in Hw as (c' & Hc' & Hw). case_decide; [|done]. injection Hw as ->.
  destruct (t_unique _ Ht _ _ _ _ _ Hc Hc') as [<- <-]. by exists q'.
Qed.

(** ** What is in the heap and what is to come *)

Section Walk.
Context `{Schema}.

Definition works_ok (h : heap) (pending : list work) : Prop :=
  forall m a d, (m, a, d) ∈ pending -> (a < length h)%nat.

Definition total (h : heap) (pending : list work) (p : list step) : Prop :=
  is_Some (walk h 0 p) \/
  exists m a d q r, (m, a, d) ∈ pending /\ p = q ++ r /\ walk h 0 q = Some a /\ resets m r.

(** The patterns [S] below the object [a]. *)
Definition below (h : heap) (a : nat) (S : list step -> Prop) (p : list step) : Prop :=
  exists q r, p = q ++ r /\ walk h 0 q = Some a /\ S r.

Lemma total_grow h h' pending (X : list step -> Prop) :
  works_ok h pending -> stable h h' ->
  (forall p, is_Some (walk h' 0 p) <-> is_Some (walk h 0 p) \/ X p) ->
  forall p, total h' pending p <-> total h pending p \/ X p.
Proof.
  intros Hw [_ Hs] HX p. unfold total. rewrite HX. split.
  - intros [[?|?]|(m & a & d & q & r & Hin & -> & Hq & Hr)]; [by left; left|by right|].
    left. right. exists m, a, d, q, r. split_and!; try done. apply Hs; [by eapply Hw|done].
  - intros [[?|(m & a & d & q & r & Hin & -> & Hq & Hr)]|?]; [by left; left| |by left; right].
    right. exists m, a, d, q, r. split_and!; try done. apply Hs; [by eapply Hw|done].
Qed.

Lemma total_ensure h a s h1 c pending :
  tree_ok h -> (a < length h)%nat -> works_ok h pending -> ensure h a s = (h1, c) ->
  forall p, total h1 pending p <-> total h pending p \/ below h a (fun r => r = [s]) p.
Proof.
  intros Ht Ha Hw He. destruct (ensure_spec h a s h1 c Ht Ha He) as (_ & Hs & _ & _ & HX).
  apply total_grow; [done|done|]. intros p. rewrite HX. unfold below. split.
  - intros [?|(q & -> & ?)]; [by left|right]. by exists q, [s].
  - intros [?|(q & r & -> & ? & ->)]; [by left|right]. by exists q.
Qed.

Lemma total_push h a s c ms d pending :
  tree_ok h -> child_at h a s = Some c ->
  forall p, total h (push_all ms c d pending) p <->
    total h pending p \/ below h a (fun r => exists m r', m ∈ ms /\ r = s :: r' /\ resets m r') p.
Proof.
  intros Ht Hc p. unfold total, push_all, below. split.
  - intros [?|(m & a' & d' & q & r & Hin & -> & Hq & Hr)]; [by left; left|].
    apply elem_of_app in Hin as [Hin|Hin]; [|left; right; by exists m, a', d', q, r].
    apply elem_of_reverse, list_elem_of_fmap in Hin as (m' & [= -> -> ->] & Hin). right.
    destruct (walk_to_child _ _ _ _ _ Ht Hc Hq) as (q' & -> & Hq').
    exists q', (s :: r). split; [by rewrite <- app_assoc|]. split; [done|]. by exists m', r.
  - intros [[?|(m & a' & d' & q & r & Hin & -> & Hq & Hr)]|(q & r & -> & Hq & m & r' & Hin & -> & Hr)].
    + by left.
    + right. exists m, a', d', q, r. split; [|done]. apply elem_of_app. by right.
    + right. exists m, c, d, (q ++ [s]), r'. split_and!; try done.
      * apply elem_of_app. left. apply elem_of_reverse, list_elem_of_fmap. by exists m.
      * by rewrite <- app_assoc.
      * rewrite walk_app, Hq. cbn. rewrite Hc. cbn. rewrite decide_True; [done|].
        by apply child_lt in Hc as [? ?]; [|apply Ht].
Qed.

(** ** One field *)

(** The patterns of one field. *)
Definition field_resets (m : message) (i : nat) (f : Field) (r : list step) : Prop :=
  let s := get_slot m i in
  updatable f s /\
  if _field_has_value f s then
    if map_field f || repeated f then
      message_field f = true /\
      (r = [Key (proto_name f)] \/ r = [Key (proto_name f); Star] \/
       exists m' r', element f s m' /\ r = Key (proto_name f) :: Star :: r' /\ resets m' r')
    else exists v, cell_of s = Some (One v) /\
      if message_field f then
        r = [Key (proto_name f)] \/
        exists m' r', v = MessageV m' /\ r = Key (proto_name f) :: r' /\ resets m' r'
      else value_eqb v (default f) = true /\ r = [Key (proto_name f)]
  else r = [Key (proto_name f)].

Lemma resets_fields m r :
  resets m r <-> r = [] \/ exists i f, FIELDS (cls m) !! i = Some f /\ field_resets m i f r.
Proof.
  unfold field_resets. split.
  - intros Hr. destruct Hr as [|m i f Hf Hu Hv|m i f v Hf Hu Hv Hm Hrep Hmsg Hc Hd|m i f Hf Hu Hv Hmsg Hk
      |m i f m' p Hf Hu Hv Hmsg He Hp|m i f Hf Hu Hv Hk Hmsg|m i f m' p Hf Hu Hv Hm Hrep Hmsg Hc Hp];
      [by left|right; exists i, f; (split; [done|]); (split; [done|]); rewrite Hv..].
    + done.
    + rewrite Hm, Hrep. exists v. by rewrite Hmsg.
    + destruct (map_field f || repeated f) eqn:E; [by split; [|left]|]. destruct Hk as [?|[v Hc]]; [done|].
      exists v. split; [done|]. rewrite Hmsg. by left.
    + assert (map_field f || repeated f = true) as ->.
      { destruct He as [[-> _]|(-> & -> & _)]; done. }
      split; [done|]. right. right. by exists m', p.
    + rewrite Hk. split; [done|]. by right; left.
    + rewrite Hm, Hrep. exists (MessageV m'). split; [done|]. rewrite Hmsg. right. by exists m', p.
  - intros [->|(i & f & Hf & Hu & Hr)]; [constructor|].
    destruct (_field_has_value f (get_slot m i)) eqn:Hv; [|subst r; by eapply resets_unset].
    destruct (map_field f || repeated f) eqn:Hk.
    + destruct Hr as [Hmsg [->|[->|(m' & r' & He & -> & Hr)]]].
      * eapply resets_message; eauto.
      * by eapply resets_container_star.
      * by eapply resets_element.
    + apply orb_false_iff in Hk as [Hm Hrep]. destruct Hr as (v & Hc & Hr).
      destruct (message_field f) eqn:Hmsg.
      * destruct Hr as [->|(m' & r' & -> & -> & Hr)]; [eapply resets_message; eauto|by eapply resets_child].
      * destruct Hr as [Hd ->]. by eapply resets_default.
Qed.

(** Finding or creating the mask of a field and storing it. *)
Lemma get_link h a s h0 c :
  tree_ok h -> (a < length h)%nat -> get_or_new h (child_at h a s) = (h0, c) ->
  ensure h a s = (link a s c h0, c).
Proof.
  intros Ht Ha. unfold ensure, get_or_new. destruct (child_at h a s) as [c'|] eqn:Ec; intros [= <- <-]; [|done].
  by rewrite link_same by (done || apply Ht).
Qed.

(** The mask of the field, not stored. *)
Lemma get_unlinked h a s h0 c :
  tree_ok h -> get_or_new h (child_at h a s) = (h0, c) ->
  tree_ok h0 /\ stable h h0 /\ forall p, walk h0 0 p = walk h 0 p.
Proof.
  intros Ht. unfold get_or_new. destruct (child_at h a s); intros [= <- <-]; [by split; [|split; [apply stable_refl|]]|].
  assert (forall p, walk (h ++ [empty_obj]) 0 p = walk h 0 p) as Hw
    by (intros p; apply walk_new; apply Ht).
  split; [by apply tree_new|]. split; [|done]. split; [rewrite length_app; lia|]. intros q b _. by rewrite Hw.
Qed.

Lemma link_comm h a s c a' s' c' :
  a <> a' -> link a s c (link a' s' c' h) = link a' s' c' (link a s c h).
Proof.
  intros Hne. unfold link. destruct (h !! a) as [o|] eqn:Ea; destruct (h !! a') as [o'|] eqn:Ea';
    rewrite ?list_lookup_insert_ne, ?Ea, ?Ea' by done; try done. by apply list_insert_insert_ne.
Qed.

Lemma link_app h a s c : (a < length h)%nat -> link a s c (h ++ [empty_obj]) = link a s c h ++ [empty_obj].
Proof.
  intros Ha. unfold link. rewrite lookup_app_l by done.
  destruct (h !! a) eqn:E; [|by apply lookup_ge_None in E; lia]. by rewrite insert_app_l.
Qed.

(** Entering a container creates its mask and its element mask. *)
Lemma enter_container_ensure h a k h0 fm ms depth pending h' pending' :
  tree_ok h -> (a < length h)%nat -> get_or_new h (child_at h a (Key k)) = (h0, fm) ->
  enter_container a fm k ms depth h0 pending = (h', pending') ->
  exists h1 inner, ensure h a (Key k) = (h1, fm) /\ ensure h1 fm Star = (h', inner) /\
    pending' = push_all ms inner (S depth) pending.
Proof.
  intros Ht Ha Hg. pose proof (get_link _ _ _ _ _ Ht Ha Hg) as He.
  destruct (ensure_spec _ _ _ _ _ Ht Ha He) as (Ht1 & _ & Hc1 & Hfm & _).
  pose proof (child_lt _ _ _ _ (t_heap _ Ht1) Hc1) as Hlt.
  unfold enter_container. intros Hx. eexists _. unfold ensure at 2.
  assert (child_at (link a (Key k) fm h0) fm Star = child_at h0 fm Star) as ->.
  { rewrite child_link, decide_False; [done|naive_solver|]. rewrite link_length in Hlt. lia. }
  unfold get_or_new in Hx. rewrite link_length. destruct (child_at h0 fm Star) as [inner|] eqn:Ei.
  - exists inner. split; [done|]. injection Hx as <- <-. split; [|done]. f_equal.
    rewrite link_comm by lia. symmetry. apply link_same; [apply Ht1|].
    rewrite child_link, decide_False; [done|naive_solver|]. rewrite link_length in Hlt. lia.
  - exists (length h0). split; [done|]. injection Hx as <- <-. split; [|done]. f_equal.
    rewrite (link_comm _ a) by lia. f_equal. symmetry. apply link_app. rewrite link_length in Hlt. lia.
Qed.

Lemma works_ok_stable h h' pending : works_ok h pending -> stable h h' -> works_ok h' pending.
Proof. intros Hw [Hl _] m a d Hin. specialize (Hw m a d Hin). lia. Qed.

Lemma works_ok_push h ms c d pending :
  works_ok h pending -> (c < length h)%nat -> works_ok h (push_all ms c d pending).
Proof.
  intros Hw Hc m a d' [Hin|Hin]%elem_of_app; [|by eapply Hw].
  apply elem_of_reverse, list_elem_of_fmap in Hin as (m' & [= -> -> ->] & _). done.
Qed.

Lemma below_or h a (S T : list step -> Prop) p :
  below h a (fun r => S r \/ T r) p <-> below h a S p \/ below h a T p.
Proof. unfold below. naive_solver. Qed.

Lemma below_ext h a (S T : list step -> Prop) p : (forall r, S r <-> T r) -> below h a S p <-> below h a T p.
Proof. unfold below. intros HST. by setoid_rewrite HST. Qed.

Lemma below_stable h h' a S p : stable h h' -> (a < length h)%nat -> below h' a S p <-> below h a S p.
Proof. intros [_ Hs] Ha. unfold below. setoid_rewrite Hs; [done|done]. Qed.

(** What a step of the walk keeps and adds. *)
Record extends (h : heap) (pending : list work) (a : nat) (S : list step -> Prop)
    (h' : heap) (pending' : list work) : Prop := {
  ex_tree : tree_ok h';
  ex_stable : stable h h';
  ex_works : works_ok h' pending';
  ex_total p : total h' pending' p <-> total h pending p \/ below h a S p
}.

Lemma extends_ext h pending a S T h' pending' :
  (forall r, S r <-> T r) -> extends h pending a S h' pending' -> extends h pending a T h' pending'.
Proof. intros HST [? ? ? Ht]. split; [done..|]. intros p. by rewrite Ht, (below_ext _ _ S T). Qed.

Lemma extends_none h pending a h' (S : list step -> Prop) :
  tree_ok h' -> stable h h' -> works_ok h pending -> (forall p, walk h' 0 p = walk h 0 p) -> (forall r, ~ S r) ->
  extends h pending a S h' pending.
Proof.
  intros Ht Hs Hw He HS. split; [done|done|by eapply works_ok_stable|]. intros p.
  rewrite (total_grow h h' pending (fun _ => False)); [|done|done|intros q; rewrite He; tauto].
  split; [tauto|]. intros [?|(q & r & _ & _ & Hr)]; [by left|]. by apply HS in Hr.
Qed.

Lemma extends_leaf h pending a s h' c :
  tree_ok h -> (a < length h)%nat -> works_ok h pending -> ensure h a s = (h', c) ->
  extends h pending a (fun r => r = [s]) h' pending.
Proof.
  intros Ht Ha Hw He. destruct (ensure_spec _ _ _ _ _ Ht Ha He) as (Ht' & Hs & _).
  split; [done|done|by eapply works_ok_stable|]. by apply total_ensure with c.
Qed.

(** A child mask with messages below it. *)
Lemma extends_push h pending a s h' c ms d :
  tree_ok h -> (a < length h)%nat -> works_ok h pending -> ensure h a s = (h', c) ->
  extends h pending a (fun r => r = [s] \/ exists m r', m ∈ ms /\ r = s :: r' /\ resets m r')
    h' (push_all ms c d pending).
Proof.
  intros Ht Ha Hw He. destruct (ensure_spec _ _ _ _ _ Ht Ha He) as (Ht' & Hs & Hc & Hl & _).
  split; [done|done|apply works_ok_push; [by eapply works_ok_stable|done]|].
  intros p. rewrite (total_push h' a s c) by done. rewrite (total_ensure h a s h' c) by done.
  rewrite below_or, (below_stable h h') by done. tauto.
Qed.

Lemma extends_trans h1 p1 h2 p2 h3 p3 a (S T : list step -> Prop) :
  (a < length h1)%nat -> extends h1 p1 a S h2 p2 -> extends h2 p2 a T h3 p3 ->
  extends h1 p1 a (fun r => S r \/ T r) h3 p3.
Proof.
  intros Ha [H1 H2 H3 H4] [H5 H6 H7 H8]. split; [done|by eapply stable_trans|done|].
  intros p. rewrite H8, H4, below_or, (below_stable h1 h2) by done. tauto.
Qed.

Lemma not_updatable f s :
  immutable f || (immutable_oneof f && negb (_field_has_value f s)) = true <-> ~ updatable f s.
Proof.
  unfold updatable. destruct (immutable f), (immutable_oneof f), (_field_has_value f s); simpl; naive_solver.
Qed.

Lemma container_extends h pending a k h0 fm ms depth h' pending' :
  tree_ok h -> (a < length h)%nat -> works_ok h pending ->
  get_or_new h (child_at h a (Key k)) = (h0, fm) ->
  enter_container a fm k ms depth h0 pending = (h', pending') ->
  extends h pending a (fun r => r = [Key k] \/ r = [Key k; Star] \/
    exists m r', m ∈ ms /\ r = Key k :: Star :: r' /\ resets m r') h' pending'.
Proof.
  intros Ht Ha Hw Hg He.
  destruct (enter_container_ensure _ _ _ _ _ _ _ _ _ _ Ht Ha Hg He) as (h1 & inner & E1 & E2 & ->).
  destruct (ensure_spec _ _ _ _ _ Ht Ha E1) as (Ht1 & Hs1 & Hc1 & Hl1 & _).
  pose proof (extends_leaf _ _ _ _ _ _ Ht Ha Hw E1) as [_ _ Hw1 H1].
  destruct (extends_push h1 pending fm Star h' inner ms (S depth) Ht1 Hl1 Hw1 E2) as [Ht' Hs' Hw' H2].
  split; [done|by eapply stable_trans|done|]. intros p. rewrite H2, H1, !below_or.
  assert (forall S, below h1 fm S p <-> below h a (fun r => exists r', r = Key k :: r' /\ S r') p) as Hb.
  { intros S. unfold below. split.
    - intros (q & r & -> & Hq & Hr). destruct (walk_to_child _ _ _ _ _ Ht1 Hc1 Hq) as (q' & -> & Hq').
      exists q', (Key k :: r). split; [by rewrite <- app_assoc|]. split; [by apply Hs1|]. by exists r.
    - intros (q & r & -> & Hq & r' & -> & Hr). exists (q ++ [Key k]), r'. split; [by rewrite <- app_assoc|].
      split; [|done]. apply Hs1 in Hq; [|done]. rewrite walk_app, Hq. cbn. rewrite Hc1. cbn. by rewrite decide_True. }
  rewrite !Hb. unfold below. naive_solver.
Qed.

Lemma field_step_extends m a depth h pending i f h' pending' :
  tree_ok h -> (a < length h)%nat -> works_ok h pending ->
  field_step m a depth (h, pending) (i, f) = (h', pending') ->
  extends h pending a (field_resets m i f) h' pending'.
Proof.
  intros Ht Ha Hw. unfold field_step. set (s := get_slot m i).
  destruct (immutable f || _) eqn:Eu.
  { intros [= <- <-]. apply not_updatable in Eu. apply extends_none; [done|apply stable_refl|done|done|].
    by intros r [? _]. }
  assert (updatable f s) as Hu.
  { unfold updatable. subst s. destruct (immutable f), (immutable_oneof f), (_field_has_value f _); simpl in *; auto. }
  destruct (get_or_new h (child_at h a (Key (proto_name f)))) as [h0 fm] eqn:Eg.
  pose proof (get_link _ _ _ _ _ Ht Ha Eg) as He.
  destruct (get_unlinked _ _ _ _ _ Ht Eg) as (Ht0 & Hs0 & Hw0).
  unfold field_resets. fold s. destruct (_field_has_value f s) eqn:Ev; cbn [negb].
  2:{ intros [= <- <-]. eapply extends_ext; [|by eapply extends_leaf]. intros r. tauto. }
  destruct (map_field f) eqn:Em; cbn [orb].
  { destruct (message_field f) eqn:Emsg.
    - intros Hc. eapply extends_ext; [|by eapply container_extends]. intros r. unfold element. rewrite Em.
      naive_solver.
    - intros [= <- <-]. apply extends_none; try done. by intros r (_ & ? & _). }
  destruct (repeated f) eqn:Er.
  { destruct (message_field f) eqn:Emsg.
    - intros Hc. eapply extends_ext; [|by eapply container_extends]. intros r. unfold element. rewrite Em, Er.
      naive_solver.
    - intros [= <- <-]. apply extends_none; try done. by intros r (_ & ? & _). }
  destruct (cell_of s) as [[v|l|l]|] eqn:Ec;
    try (intros [= <- <-]; apply extends_none; try done; intros r (_ & v & ? & _); done).
  destruct (message_field f) eqn:Emsg.
  - intros [= <- <-]. eapply extends_ext; [|by eapply extends_push]. intros r. split.
    + intros [->|(m' & r' & Hin & -> & Hr)]; (split; [done|]); exists v; (split; [done|]); [by left|right].
      unfold messages_in in Hin. destruct v as [|m'']; [by inversion Hin|].
      apply list_elem_of_singleton in Hin as ->. by exists m'', r'.
    + intros (_ & v' & [= <-] & [->|(m' & r' & -> & -> & Hr)]); [by left|right]. exists m', r'.
      split; [by apply list_elem_of_singleton|done].
  - destruct (value_eqb v (default f)) eqn:Ed; intros [= <- <-].
    + eapply extends_ext; [|by eapply extends_leaf]. intros r. naive_solver.
    + apply extends_none; try done. intros r (_ & v' & [= <-] & Hd & _). congruence.
Qed.

(** ** All fields of a message *)

Lemma fields_extend m a depth l h pending h' pending' :
  tree_ok h -> (a < length h)%nat -> works_ok h pending ->
  foldl (field_step m a depth) (h, pending) l = (h', pending') ->
  extends h pending a (fun r => exists i f, (i, f) ∈ l /\ field_resets m i f r) h' pending'.
Proof.
  revert h pending. induction l as [|[i f] l IH]; intros h pending Ht Ha Hw Hf; cbn [foldl] in Hf.
  - injection Hf as <- <-. apply extends_none; [done|apply stable_refl|done|done|].
    intros r (i & f & Hin & _). inversion Hin.
  - destruct (field_step m a depth (h, pending) (i, f)) as [h1 p1] eqn:E1.
    pose proof (field_step_extends _ _ _ _ _ _ _ _ _ Ht Ha Hw E1) as H1.
    pose proof H1 as [Ht1 [Hl1 _] Hw1 _].
    eapply extends_ext; [|eapply extends_trans; [exact Ha|exact H1|apply IH; [done|lia|done|exact Hf]]].
    intros r. setoid_rewrite elem_of_cons. naive_solver.
Qed.

Lemma message_extends m a depth h pending h' pending' :
  tree_ok h -> works_ok h ((m, a, depth) :: pending) ->
  foldl (field_step m a depth) (h, pending) (indexed (cls m)) = (h', pending') ->
  tree_ok h' /\ works_ok h' pending' /\ forall p, total h' pending' p <-> total h ((m, a, depth) :: pending) p.
Proof.
  intros Ht Hw Hf. assert (a < length h)%nat as Ha by (eapply Hw; left).
  assert (works_ok h pending) as Hw' by (intros ????; eapply Hw; by right).
  destruct (fields_extend _ _ _ _ _ _ _ _ Ht Ha Hw' Hf) as [Ht' _ Hwk Htot]. split; [done|]. split; [done|].
  intros p. rewrite Htot. unfold total at 2, below. split.
  - intros [[?|(m' & a' & d' & q & r & Hin & ?)]|(q & r & -> & Hq & i & f & Hi & Hr)]; [by left|right|right].
    + exists m', a', d', q, r. split; [by right|done].
    + exists m, a, depth, q, r. split; [left|]. split; [done|]. split; [done|]. apply resets_fields.
      right. exists i, f. split; [by apply indexed_lookup|done].
  - intros [?|(m' & a' & d' & q & r & Hin & -> & Hq & Hr)]; [by left; left|].
    apply elem_of_cons in Hin as [[= -> -> ->]|Hin].
    + apply resets_fields in Hr as [->|(i & f & Hi & Hr)].
      * left. left. rewrite app_nil_r. by eexists.
      * right. exists q, r. split; [done|]. split; [done|]. exists i, f. split; [by apply indexed_lookup|done].
    + left. right. by exists m', a', d', q, r.
Qed.

Lemma walk_loop_total fuel h pending h' :
  tree_ok h -> works_ok h pending -> walk_loop fuel h pending = Ok h' ->
  tree_ok h' /\ forall p, is_Some (walk h' 0 p) <-> total h pending p.
Proof.
  revert h pending. induction fuel as [|fuel IH]; intros h [|[[m a] depth] pending] Ht Hw Hl; cbn [walk_loop] in Hl;
    try done.
  1,2: injection Hl as <-; split; [done|]; intros p; unfold total; split; [by left|];
    intros [?|(? & ? & ? & ? & ? & Hin & _)]; [done|inversion Hin].
  destruct (_ <=? _)%nat; [done|].
  destruct (foldl _ _ _) as [h1 p1] eqn:Ef.
  destruct (message_extends _ _ _ _ _ _ _ Ht Hw Ef) as (Ht1 & Hw1 & H1).
  destruct (IH h1 p1 Ht1 Hw1 Hl) as [Ht' H']. split; [done|]. intros p. by rewrite H', H1.
Qed.

(** The mask has exactly the patterns to reset. *)
Lemma update_mask_has m h :
  full_update_walk m = Ok h ->
  exists k, MaskHeap.read (length h) h 0 = Some k /\ wf k /\ forall p, has k p = true <-> resets m p.
Proof.
  intros Hf. assert (tree_ok [empty_obj]) as Ht.
  { split; [|intros l s l' s' c Hc|simpl; lia].
    - apply (heap_ok_new []). intros l o Hl. by rewrite lookup_nil in Hl.
    - exfalso. apply child_range in Hc as Hl. simpl in Hl. assert (l = 0%nat) as -> by lia.
      by destruct s. }
  assert (works_ok [empty_obj] [(m, 0%nat, 0%nat)]) as Hw0.
  { intros m' a d Hin. apply list_elem_of_singleton in Hin. injection Hin as -> -> ->. simpl. lia. }
  destruct (walk_loop_total _ _ _ _ Ht Hw0 Hf) as [[Hh _ Hr] Hw].
  destruct (read_heap_ok h 0 Hh Hr) as (k & Hk & Hwf). rewrite Nat.sub_0_r in Hk. exists k.
  split; [done|]. split; [done|]. intros p. rewrite (read_has _ _ _ _ _ Hk), bool_decide_eq_true, Hw.
  unfold total. split.
  - intros [[b Hb]|(m' & a & d & q & r & Hin & -> & Hq & Hres)].
    + destruct p as [|s p]; [constructor|]. cbn [walk] in Hb. by destruct s.
    + apply list_elem_of_singleton in Hin. injection Hin as -> -> ->.
      destruct q as [|s q]; [done|]. cbn [walk] in Hq. by destruct s.
  - intros Hres. right. exists m, 0%nat, 0%nat, [], p. split; [by apply list_elem_of_singleton|]. done.
Qed.

(** ** The walk ends *)

Lemma sum_list_cons (x : nat) l : sum_list (x :: l) = (x + sum_list l)%nat.
Proof. done. Qed.

Lemma sum_list_app' (l1 l2 : list nat) : sum_list (l1 ++ l2) = (sum_list l1 + sum_list l2)%nat.
Proof. induction l1; simpl; lia. Qed.

Lemma sum_list_reverse (l : list nat) : sum_list (reverse l) = sum_list l.
Proof. induction l as [|x l IH]; [done|]. rewrite reverse_cons, sum_list_app'. simpl. lia. Qed.

(** Iterations left for an entry of the stack. *)
Definition cost (w : work) : nat :=
  let '(m, _, d) := w in count_messages (_RESET_MASK_MAX_DEPTH - d) m.

Definition field_cost (n : nat) (s : slot) : nat := sum_list (count_messages n <$> slot_messages s).

Lemma push_cost ms a d pending :
  sum_list (cost <$> push_all ms a d pending) =
  (sum_list (count_messages (_RESET_MASK_MAX_DEPTH - d) <$> ms) + sum_list (cost <$> pending))%nat.
Proof.
  unfold push_all. rewrite fmap_app, sum_list_app'. f_equal. rewrite fmap_reverse, sum_list_reverse.
  f_equal. rewrite <- list_fmap_compose. by apply list_fmap_ext.
Qed.

Lemma field_step_cost m a depth h pending i f h' pending' :
  field_step m a depth (h, pending) (i, f) = (h', pending') ->
  (sum_list (cost <$> pending') <=
   field_cost (_RESET_MASK_MAX_DEPTH - S depth) (get_slot m i) + sum_list (cost <$> pending))%nat.
Proof.
  unfold field_step, enter_container. destruct (immutable f || _); [intros [= <- <-]; lia|].
  destruct (get_or_new h _) as [h0 fm]. destruct (negb _); [intros [= <- <-]; lia|].
  unfold field_cost, slot_messages, entries_of, items_of.
  destruct (map_field f); [|destruct (repeated f)].
  1,2: destruct (message_field f); [|intros [= <- <-]; lia]; destruct (get_or_new h0 _) as [h2 inner];
    intros [= <- <-]; rewrite push_cost; destruct (cell_of _) as [[]|]; simpl; lia.
  destruct (cell_of _) as [[v|l|l]|]; try (intros [= <- <-]; lia).
  generalize (messages_in [v]). intros ms.
  destruct (message_field f); [intros [= <- <-]; rewrite push_cost; lia|].
  destruct (value_eqb _ _); intros [= <- <-]; lia.
Qed.

Lemma fields_cost m a depth l h pending h' pending' :
  foldl (field_step m a depth) (h, pending) l = (h', pending') ->
  (sum_list (cost <$> pending') <=
   sum_list ((fun x => field_cost (_RESET_MASK_MAX_DEPTH - S depth) (get_slot m x.1)) <$> l) +
   sum_list (cost <$> pending))%nat.
Proof.
  revert h pending. induction l as [|[i f] l IH]; intros h pending Hf; cbn [foldl] in Hf.
  - injection Hf as <- <-. simpl. lia.
  - destruct (field_step m a depth (h, pending) (i, f)) as [h1 p1] eqn:E1.
    apply field_step_cost in E1. apply IH in Hf. rewrite fmap_cons, sum_list_cons. cbn [fst]. lia.
Qed.

Lemma concat_cost n (l : list slot) :
  sum_list (count_messages n <$> concat (slot_messages <$> l)) = sum_list (field_cost n <$> l).
Proof.
  induction l as [|s l IH]; [done|]. rewrite !fmap_cons, sum_list_cons. cbn [concat].
  rewrite fmap_app, sum_list_app'. f_equal. exact IH.
Qed.

Lemma slots_cost m n :
  length (slots m) = length (FIELDS (cls m)) ->
  sum_list ((fun x => field_cost n (get_slot m x.1)) <$> indexed (cls m)) = sum_list (field_cost n <$> slots m).
Proof.
  intros Hl. f_equal. apply list_eq. intros i. rewrite !list_lookup_fmap.
  destruct (indexed (cls m) !! i) as [[j f]|] eqn:E.
  - unfold indexed in E. apply lookup_zip_Some in E as [[-> Hj]%lookup_seq Hf]. cbn.
    apply lookup_lt_Some in Hf. destruct (lookup_lt_is_Some_2 (slots m) i) as [s Hs]; [lia|].
    unfold get_slot. by rewrite Hs.
  - assert (length (FIELDS (cls m)) <= i)%nat as Hi.
    { apply lookup_ge_None in E. unfold indexed in E. rewrite length_zip_with, length_seq in E. lia. }
    rewrite lookup_ge_None_2; [done|lia].
Qed.

(** A well-formed message of any depth. *)
Definition typed (m : message) : Prop := exists U n, message_ok U n m.

Lemma typed_slots m : typed m -> length (slots m) = length (FIELDS (cls m)).
Proof. intros (U & [|n] & Hm); [done|]. by eapply body_length. Qed.

Lemma messages_held s m : m ∈ slot_messages s -> slot_holds s (MessageV m).
Proof.
  unfold slot_messages, slot_holds, messages_in. destruct (cell_of s) as [[v|l|es]|]; intros Hin.
  - apply list_elem_of_omap in Hin as ([|m'] & Hin & [= ->]). by apply list_elem_of_singleton in Hin as <-.
  - by apply list_elem_of_omap in Hin as ([|m'] & Hin & [= ->]).
  - apply list_elem_of_omap in Hin as ([|m'] & Hin & [= ->]). apply list_elem_of_fmap in Hin as (e & He & Hin).
    exists e. auto.
  - inversion Hin.
Qed.

Lemma typed_child m i f m' :
  typed m -> FIELDS (cls m) !! i = Some f -> m' ∈ slot_messages (get_slot m i) -> typed m'.
Proof.
  intros (U & [|n] & Hm) Hf Hin; [done|]. exists U, n. destruct (body_slot _ _ _ _ _ Hm Hf) as [Hs _].
  eapply slot_nested_ok; [done|]. by apply messages_held.
Qed.

(** A property of the messages on the stack and their depths. *)
Section Stack.
Context (R : message -> nat -> Prop).

Definition works_all (pending : list work) : Prop := forall m a d, (m, a, d) ∈ pending -> R m d.

Lemma push_all_works ms a d pending :
  works_all pending -> (forall m, m ∈ ms -> R m d) -> works_all (push_all ms a d pending).
Proof.
  intros Hp Hm m a' d' [Hin|Hin]%elem_of_app; [|by eapply Hp].
  apply elem_of_reverse, list_elem_of_fmap in Hin as (m' & [= -> -> ->] & Hin). by apply Hm.
Qed.

Lemma field_step_works m a depth h pending i f h' pending' :
  (forall m', m' ∈ slot_messages (get_slot m i) -> R m' (S depth)) -> works_all pending ->
  field_step m a depth (h, pending) (i, f) = (h', pending') -> works_all pending'.
Proof.
  intros Hc Hp. revert Hc. unfold field_step, enter_container, slot_messages, entries_of, items_of.
  destruct (immutable f || _); [by intros _ [= <- <-]|].
  destruct (get_or_new h _) as [h0 fm]. destruct (negb _); [by intros _ [= <- <-]|].
  destruct (map_field f); [|destruct (repeated f)].
  1,2: destruct (message_field f); [|by intros _ [= <- <-]]; destruct (get_or_new h0 _) as [h2 inner];
    intros Hc [= <- <-]; apply push_all_works; [done|]; intros m' Hin; apply Hc;
    destruct (cell_of _) as [[]|]; (done || inversion Hin).
  destruct (cell_of _) as [[v|l|l]|]; try (by intros _ [= <- <-]).
  generalize (messages_in [v]). intros ms Hc.
  destruct (message_field f); [intros [= <- <-]; by apply push_all_works|].
  destruct (value_eqb _ _); by intros [= <- <-].
Qed.

Lemma fields_works m a depth l h pending h' pending' :
  (forall i f m', (i, f) ∈ l -> m' ∈ slot_messages (get_slot m i) -> R m' (S depth)) -> works_all pending ->
  foldl (field_step m a depth) (h, pending) l = (h', pending') -> works_all pending'.
Proof.
  revert h pending. induction l as [|[i f] l IH]; intros h pending Hl Hp Hf; cbn [foldl] in Hf.
  - by injection Hf as <- <-.
  - destruct (field_step m a depth (h, pending) (i, f)) as [h1 p1] eqn:E1.
    eapply IH; [intros i' f' m' ?; apply (Hl i' f'); by right| |exact Hf].
    eapply field_step_works; [|done|exact E1]. intros m'. apply (Hl i f). left.
Qed.

End Stack.

Lemma walk_loop_ends fuel h pending :
  works_all (fun m _ => typed m) pending -> (sum_list (cost <$> pending) <= fuel)%nat ->
  walk_loop fuel h pending <> Raise WalkFuel.
Proof.
  revert h pending. induction fuel as [|fuel IH]; intros h [|[[m a] depth] pending] Ht Hc; cbn [walk_loop]; try done.
  { exfalso. rewrite fmap_cons, sum_list_cons in Hc. cbn [cost] in Hc.
    destruct (_RESET_MASK_MAX_DEPTH - depth)%nat; cbn [count_messages] in Hc; lia. }
  destruct (_ <=? _)%nat eqn:Ed; [done|]. apply Nat.leb_gt in Ed.
  destruct (foldl _ _ _) as [h1 p1] eqn:Ef. assert (typed m) as Hm by (eapply (Ht m a depth); left). apply IH.
  - eapply fields_works; [|intros ????; eapply Ht; by right|exact Ef].
    intros i f m' Hi%indexed_lookup Hin. by eapply typed_child.
  - apply fields_cost in Ef. rewrite slots_cost in Ef by by apply typed_slots.
    rewrite fmap_cons, sum_list_cons in Hc. cbn [cost] in Hc.
    replace (_RESET_MASK_MAX_DEPTH - depth)%nat with (S (_RESET_MASK_MAX_DEPTH - S depth)) in Hc by lia.
    cbn [count_messages] in Hc. rewrite concat_cost in Hc. lia.
Qed.

(** Messages nested within the limit are walked to the end. *)
Definition shallow (m : message) (d : nat) : Prop :=
  exists U n, message_ok U n m /\ (d + n <= _RESET_MASK_MAX_DEPTH)%nat.

Lemma walk_loop_shallow fuel h pending : works_all shallow pending -> walk_loop fuel h pending <> Raise TooDeep.
Proof.
  revert h pending. induction fuel as [|fuel IH]; intros h [|[[m a] depth] pending] Hs; cbn [walk_loop]; try done.
  destruct (Hs m a depth) as (U & n & Hm & Hn); [left|]. destruct n as [|n]; [done|].
  destruct (_ <=? _)%nat eqn:Ed; [apply Nat.leb_le in Ed; lia|].
  destruct (foldl _ _ _) as [h1 p1] eqn:Ef. apply IH.
  eapply fields_works; [|intros ????; eapply Hs; by right|exact Ef].
  intros i f m' Hi%indexed_lookup Hin. exists U, n. split; [|lia].
  destruct (body_slot _ _ _ _ _ Hm Hi) as [Hsl _]. eapply slot_nested_ok; [done|]. by apply messages_held.
Qed.

Lemma full_update_walk_cases m :
  typed m ->
  match full_update_walk m with
  | Ok h => exists k, get_full_update_reset_mask m = Ok k /\ wf k /\ forall p, has k p = true <-> resets m p
  | Raise e => e = TooDeep /\ get_full_update_reset_mask m = Raise TooDeep /\ ~ shallow m 0
  end.
Proof.
  intros Hm. unfold get_full_update_reset_mask. destruct (full_update_walk m) as [h|e] eqn:E.
  - destruct (update_mask_has m h E) as (k & Hk & Hwf & Hp). cbn [mbind result_bind]. rewrite Hk. by exists k.
  - assert (forall R : message -> nat -> Prop, R m 0%nat -> works_all R [(m, 0%nat, 0%nat)]) as Hall.
    { intros R HR m' a d Hin. apply list_elem_of_singleton in Hin. by injection Hin as -> -> ->. }
    destruct e.
    + split; [done|]. split; [done|]. intros Hsh. by eapply walk_loop_shallow; [apply Hall|exact E].
    + exfalso. eapply walk_loop_ends; [apply (Hall (fun m _ => typed m)); exact Hm| |exact E].
      rewrite fmap_cons, sum_list_cons. cbn [cost fmap list_fmap]. rewrite Nat.sub_0_r. simpl sum_list. lia.
Qed.

End Walk.
