(* ===== verification/MessageTheorems.v ===== *)
(** * Messages: the theorems

    The properties of the message runtime, with instances at a schema that has
    a field of every kind. *)
From stdpp Require Import gmap relations.
From S2P Require Import Prelude PyStr Json FieldMask Bytes Wire WireSpec WireSkip ValueCodec Message MessageInv MessageOps MessageParse MessageSteps MessageCanon MessageRoundtrip MessageEncode MessageMerge.

(** ** An example schema *)

Definition ex_fld (name : pystr) (n : Z) (c : codec) (rep : bool) (o : option pystr) (kc : option codec) : Field :=
  mkField name name n c rep rep false false o None kc true false false None.

Definition ex_fields : list Field := [
  ex_fld (u "id") 1 CString false None None;
  ex_fld (u "counts") 2 (CInt INT32) true None None;
  ex_fld (u "child") 3 (CMessage 0) false None None;
  ex_fld (u "labels") 4 (CMessage 0) false None (Some CString);
  ex_fld (u "size") 5 (CInt INT64) false (Some (u "kind")) None;
  ex_fld (u "name") 6 CString false (Some (u "kind")) None;
  ex_fld (u "ratio") 7 CDouble false None None].

Definition ex_schema : Schema := {|
  FIELDS := fun _ => ex_fields;
  MAX_NESTING_DEPTH := fun _ => 100;
  PY_TO_PB2 := fun _ => [];
  long_bits := 64;
  float_of_int := fun _ => Raise OverflowError
|}.
#[local] Existing Instance ex_schema.

Lemma ex_schema_ok : schema_ok ex_schema.
Proof.
  destruct builtin_codecs_ok as (H1 & H2 & _). split; simpl.
  - intros _. unfold ex_fields. rewrite !Forall_cons.
    split_and!; try apply Forall_nil_2; split; simpl; try done; by intros kc [= <-].
  - intros _. apply (bool_decide_unpack _). by vm_compute.
  - lia.
Qed.

(** A message with a value in every field; the map is not in key order and the
    last value is a negative zero. *)
Definition ex_message : message :=
  mkMessage 0
    [mkSlot (Some (One (Scalar (StrV (u "x"))))) false;
     mkSlot (Some (Items [Scalar (IntV (-1)); Scalar (IntV 5)])) false;
     mkSlot (Some (One (MessageV (new 0)))) true;
     mkSlot (Some (Entries [(StrV (u "k"), MessageV (new 0)); (StrV (u "a"), MessageV (new 0))])) false;
     mkSlot (Some (One (Scalar (IntV 0)))) true;
     no_slot;
     mkSlot (Some (One (Scalar (FloatV (2 ^ 63))))) false]
    {[u "kind" := 4%nat]} [[72; 1]] emptyMask.

Lemma ex_oneofs : oneofs_ok ex_message.
Proof.
  intros o i. change (_oneofs ex_message) with ({[u "kind" := 4%nat]} : gmap pystr nat).
  rewrite lookup_singleton_Some. split.
  - intros [<- <-]. eexists. split; [done|]. by split.
  - intros (f & Hf & Ho & Hp). do 7 (destruct i as [|i]; [simpl in *; naive_solver|]). done.
Qed.

Lemma ex_message_shallow : message_ok unknown_ok 2 ex_message.
Proof.
  cbn [message_ok].
  assert (forall c, body_ok unknown_ok (fun _ => False) (new c)) as Hnew by (intros; apply new_ok).
  split; [|apply ex_oneofs|].
  - unfold ex_message. cbn [cls slots FIELDS ex_schema]. unfold ex_fields. rewrite !Forall2_cons.
    split_and!; try apply Forall2_nil_2; split; simpl; try done; intros x [= <-]; try done; simpl.
    + split; [done|]. repeat constructor.
    + split; [apply (bool_decide_unpack _); by vm_compute|].
      do 2 (apply Forall_cons; split; [split; [done|split; [done|apply Hnew]]|]). apply Forall_nil_2.
  - constructor; [|constructor]. exists (UVarint 9 1). by vm_compute.
Qed.

Lemma ex_message_ok : message_ok unknown_ok 100 ex_message.
Proof. apply (message_ok_mono _ 2 100); [lia|exact ex_message_shallow]. Qed.

(** ** The state machine *)

(** C2: whatever is done to a new message of a class (assignments, clearing,
    merging, copying and parsing of any bytes), it stays a message of its
    class with typed slots and consistent oneofs: [_oneofs] names the present
    member, and no two members of a oneof are present together. *)
Theorem message_reachable_ok `{Schema} c m :
  schema_ok _ -> reachable c m ->
  cls m = c /\ well_formed m /\ oneofs_ok m /\
  forall i j f g o, FIELDS c !! i = Some f -> FIELDS c !! j = Some g ->
    oneof f = Some o -> oneof g = Some o ->
    is_present (get_slot m i) = true -> is_present (get_slot m j) = true -> i = j.
Proof.
  intros HS Hr. destruct (reachable_ok HS c m Hr) as [[n Hn] Ec]. destruct n as [|n]; [done|].
  pose proof (b_oneofs _ _ _ Hn) as Ho. split; [done|]. split; [by exists (S n)|]. split; [done|].
  intros i j f g o Hf Hg Hof Hog Hpi Hpj. rewrite <- Ec in Hf, Hg.
  assert (_oneofs m !! o = Some i) as Hi by (apply Ho; eauto).
  assert (_oneofs m !! o = Some j) as Hj by (apply Ho; eauto). congruence.
Qed.

(** The members [size] and [name] of the oneof, assigned one after the other. *)
Definition ex_size : Field := ex_fld (u "size") 5 (CInt INT64) false (Some (u "kind")) None.
Definition ex_name : Field := ex_fld (u "name") 6 CString false (Some (u "kind")) None.

Definition ex_assign (i : nat) (f : Field) (x : scalar) (m : message) : message :=
  match _set_field 1 false i f (PValue (Scalar x)) m with Ok m => m | Raise _ => m end.

Definition ex_half : message := ex_assign 4 ex_size (IntV 7) (new 0).
Definition ex_reached : message := ex_assign 5 ex_name (StrV (u "n")) ex_half.

Lemma ex_reachable : reachable 0 ex_reached.
Proof.
  apply (rtc_l _ _ ex_half); [|apply (rtc_l _ _ ex_reached); [|apply rtc_refl]].
  - apply (m_assign (new 0) 1 false 4 ex_size (PValue (Scalar (IntV 7))));
      [reflexivity|exact I|vm_compute; reflexivity].
  - apply (m_assign ex_half 1 false 5 ex_name (PValue (Scalar (StrV (u "n")))));
      [reflexivity|exact I|vm_compute; reflexivity].
Qed.

Lemma message_reachable_ok_witness :
  cls ex_reached = 0%nat /\ well_formed ex_reached /\ WhichOneof (u "kind") ex_reached = Ok (Some (u "name")).
Proof.
  destruct (message_reachable_ok 0 ex_reached ex_schema_ok ex_reachable) as (H1 & H2 & _).
  split; [exact H1|]. split; [exact H2|]. vm_compute. reflexivity.
Defined.

(** C8: parsing ends on every input: it raises, or it gives a well-formed
    message of the class. *)
Theorem message_parse_total `{Schema} c payload :
  schema_ok _ -> bytes_ok payload = true ->
  returns_or_raises (FromString c payload) (fun m => well_formed m /\ cls m = c).
Proof.
  intros HS Hb. unfold FromString, ParseFromString, MergeFromString. rewrite Clear_new.
  change (cls (new c)) with c. set (d := Z.to_nat (_nesting_limit c)).
  eapply ror_impl; [apply (merge_from_string_ok HS d (S d)); [done|lia|apply new_message_ok]|].
  intros m [Hm Ec]. split; [by eexists|done].
Qed.

Lemma message_parse_total_witness :
  returns_or_raises (FromString 0 [26; 2; 10; 5]) (fun m => well_formed m /\ cls m = 0%nat).
Proof. apply (message_parse_total 0 [26; 2; 10; 5]); [exact ex_schema_ok|reflexivity]. Defined.

(** C25: merging messages of one class succeeds and does what protobuf asks of
    it, field by field: repeated fields are concatenated, map entries replaced
    by key, present singular values replaced or, for messages present on both
    sides, merged, a oneof takes the member of the source, unknown fields are
    appended; the result is well formed.  Copying succeeds too, and merging a
    message of another class raises [TypeError]. *)
Theorem message_merge_total `{Schema} U n N self other :
  schema_ok _ -> (n <= N)%nat -> message_ok U (S n) other -> message_ok U (S N) self ->
  (cls other = cls self ->
   (exists r, MergeFrom (S n) self other = Ok r /\ cls r = cls self /\ message_ok U (S N) r /\
      _unknown_fields r = _unknown_fields self ++ _unknown_fields other /\ _reset_mask r = _reset_mask self /\
      forall i f, FIELDS (cls self) !! i = Some f ->
        merged (fun k m => MergeFrom n (Clear (new k)) m) (MergeFrom n) f
          (displaced other (indexed (cls self)) i f) (get_slot self i) (get_slot other i) (get_slot r i)) /\
   returns (CopyFrom (S n) self other) (fun r => cls r = cls self /\ message_ok U (S N) r)) /\
  (cls other <> cls self -> exists msg, MergeFrom (S n) self other = Raise (TypeE msg)).
Proof.
  intros HS HN Ho Hs. split.
  - intros Ec. split; [by apply MergeFrom_merged|]. unfold CopyFrom. rewrite Ec, Nat.eqb_refl.
    cbn [negb]. destruct (Clear_ok _ _ self Hs) as [Hc Ecl].
    destruct (MergeFrom_ok HS U (S n) (S N) (S n) (Clear self) other) as (r & -> & Er & Hr);
      [lia|done|done|done|congruence|]. exists r. split; [done|]. split; [congruence|done].
  - intros Hne. cbn [MergeFrom]. rewrite (proj2 (Nat.eqb_neq _ _)) by done. by eexists.
Qed.

Lemma message_merge_total_witness :
  exists r, MergeFrom 2 ex_message ex_message = Ok r /\ cls r = 0%nat /\
    items_of (get_slot r 1) = Scalar <$> [IntV (-1); IntV 5; IntV (-1); IntV 5] /\
    length (_unknown_fields r) = 2%nat.
Proof.
  destruct (message_merge_total unknown_ok 1 99 ex_message ex_message ex_schema_ok) as [Hm _];
    [lia|exact ex_message_shallow|exact ex_message_ok|].
  destruct (Hm eq_refl) as [(r & H1 & H2 & _ & H4 & _ & H5) _]. exists r. split; [exact H1|]. split; [exact H2|].
  split; [|rewrite H4; reflexivity].
  destruct (H5 1%nat _ eq_refl) as (vs & Hvs & ->). vm_compute in Hvs. injection Hvs as <-. reflexivity.
Defined.

(** ** Serialization *)

(** C1: parsing a serialized message gives its canonical form: every value that
    was serialized, in the order it was written, the oneof selections, the
    presence of every field and the unknown fields, at every level. *)
Theorem message_roundtrip `{Schema} det m b :
  schema_ok _ -> message_ok unknown_ok (Z.to_nat (_nesting_limit (cls m))) m ->
  SerializeToString det m = Ok b ->
  FromString (cls m) b = Ok (canon (Z.to_nat (_nesting_limit (cls m))) det m).
Proof.
  intros HS Hm Hb. unfold FromString, ParseFromString, MergeFromString. rewrite Clear_new.
  change (cls (new (cls m))) with (cls m). by apply parse_serialized.
Qed.

Definition ex_bytes : bytes :=
  [10; 1; 120; 18; 11; 255; 255; 255; 255; 255; 255; 255; 255; 255; 1; 5; 26; 0;
   34; 5; 10; 1; 97; 18; 0; 34; 5; 10; 1; 107; 18; 0; 40; 0; 72; 1].

Lemma message_roundtrip_witness : FromString 0 ex_bytes = Ok (canon 100 true ex_message).
Proof.
  apply (message_roundtrip true ex_message ex_bytes ex_schema_ok ex_message_ok). vm_compute. reflexivity.
Defined.

(** C20: what serialization can end with.  The missing required fields of a
    well-formed message are found without an error, and there are none exactly when
    the message and the messages below it that are written have all of theirs.  When
    there are some, [SerializeToString] raises [EncodeError] with them.  Otherwise,
    when its texts have UTF-8 encodings, it returns bytes, unless a part reaches 2^64
    bytes, or a message below it is nested deeper than its own class allows: each
    message is searched with the limit of its own class, and that search raises. *)
Theorem message_serialize_total `{Schema} U det m :
  schema_ok _ -> message_ok U (own_limit m) m -> fits (own_limit m) m ->
  exists missing, FindInitializationErrors m = Ok missing /\
    (missing = [] <-> forall m', within m m' -> has_required m') /\
    (missing <> [] ->
     SerializeToString det m = Raise (EncodeE "Message is missing required fields" missing)) /\
    (missing = [] ->
     (exists b, SerializeToString det m = Ok b) \/ SerializeToString det m = Raise oversized \/
     (SerializeToString det m = Raise (EncodeE nesting_too_deep []) /\
      exists m', within m m' /\ ~ message_ok U (own_limit m') m')).
Proof.
  intros HS Hm Hf. destruct (find_total HS U (own_limit m) m Hm) as [missing Hmiss].
  assert (FindInitializationErrors m = Ok missing) as Hfind by done.
  exists missing. split; [done|]. unfold SerializeToString. fold (own_limit m). split_and!.
  - rewrite <- (find_none HS U (own_limit m) m Hm), Hmiss. split; [by intros ->|by intros [= ->]].
  - intros Hne. destruct (own_limit m) as [|n]; [done|]. cbn [serialize_to_string]. rewrite Hfind.
    cbn [mbind result_bind]. by destruct missing.
  - intros ->. pose proof (serialize_written HS U m (own_limit m) det m (within_self m) Hm Hf Hmiss) as Hw.
    destruct (serialize_to_string (own_limit m) det m) as [b|e]; [left; by eexists|right].
    destruct Hw as [->|[-> Hdeep]]; [by left|by right].
Qed.

Lemma ex_new_fits n : fits (S n) (new 0).
Proof. intros i v Hv. do 7 (destruct i as [|i]; [done|]). done. Qed.

Lemma ex_message_fits : fits 100 ex_message.
Proof.
  intros i v Hv.
  do 6 (destruct i as [|i]; [cbn in Hv; repeat first
    [ destruct Hv as (e & He & [-> | ->])
    | apply elem_of_cons in Hv as [-> | Hv] | apply elem_of_cons in He as [-> | He]
    | subst v | by inversion Hv | by inversion He];
    first [apply ex_new_fits | exact I | by eexists | done]|]).
  destruct i as [|i]; [|done]. cbn in Hv. by subst v.
Qed.

Lemma message_serialize_total_witness :
  SerializeToString true ex_message = Ok ex_bytes /\ forall m', within ex_message m' -> has_required m'.
Proof.
  split; [vm_compute; reflexivity|].
  destruct (message_serialize_total unknown_ok true ex_message) as (missing & H1 & H2 & _);
    [exact ex_schema_ok|exact ex_message_ok|exact ex_message_fits|].
  apply H2. assert (Ok missing = Ok []) as E by (rewrite <- H1; vm_compute; reflexivity). by injection E.
Defined.

(** Presence survives the wire: on a parsed message [HasField] and
    [WhichOneof] answer as on the serialized one, for every name. *)
Theorem message_presence_roundtrip `{Schema} det m b :
  schema_ok _ -> message_ok unknown_ok (Z.to_nat (_nesting_limit (cls m))) m ->
  SerializeToString det m = Ok b ->
  exists m', FromString (cls m) b = Ok m' /\ forall name,
    HasField name m' = HasField name m /\ WhichOneof name m' = WhichOneof name m.
Proof.
  intros HS Hm Hb. exists (canon (Z.to_nat (_nesting_limit (cls m))) det m). split.
  { unfold FromString, ParseFromString, MergeFromString. rewrite Clear_new.
    change (cls (new (cls m))) with (cls m). by apply parse_serialized. }
  destruct (Z.to_nat (_nesting_limit (cls m))) as [|n]; [done|]. cbn [canon message_ok] in *.
  intros name. split; [|done]. unfold HasField. cbn [cls canon_body].
  destruct (_oneof_python_name _ _); [done|]. destruct (public_field _ _) as [[i f]|] eqn:Ef; [|done].
  apply public_field_Some in Ef. rewrite (canon_get _ _ _ _ _ _ _ Hm Ef).
  destruct (body_slot _ _ _ _ _ Hm Ef) as [Hs _].
  by rewrite (proj2 (canon_slot_canonical _ (canon n det) det f _ Hs)).
Qed.

Lemma message_presence_roundtrip_witness :
  exists m', FromString 0 ex_bytes = Ok m' /\ WhichOneof (u "kind") m' = Ok (Some (u "size")).
Proof.
  destruct (message_presence_roundtrip true ex_message ex_bytes ex_schema_ok ex_message_ok) as (m' & H1 & H2).
  - vm_compute. reflexivity.
  - exists m'. split; [exact H1|]. destruct (H2 (u "kind")) as [_ ->]. vm_compute. reflexivity.
Defined.

(** A field without presence that holds the floating-point number -0.0 is
    not serialized: it compares equal to the default, and the sign is lost. *)
Theorem negative_zero_lost `{Schema} det i f m :
  FIELDS (cls m) !! i = Some f -> codec_of f = CDouble -> singular f = true -> has_presence f = false ->
  default_factory f = None -> get_slot m i = mkSlot (Some (One (Scalar (FloatV (2 ^ 63))))) false ->
  forall ser w, write_slot ser det f (get_slot m i) w = Ok w.
Proof.
  intros Hf Hc [Hk Hr]%singular_keys Hp Hd Hs ser w. unfold write_slot. rewrite Hk, Hr, Hs.
  unfold _field_has_value, _field_is_default, map_field, Message.default. rewrite Hk, Hr, Hp, Hd, Hc. done.
Qed.

Lemma negative_zero_lost_witness :
  forall ser w, write_slot ser false (ex_fld (u "ratio") 7 CDouble false None None) (get_slot ex_message 6) w = Ok w.
Proof. apply (negative_zero_lost false 6 _ ex_message); reflexivity. Defined.
