(* ===== verification/UpdateTheorems.v ===== *)
(** * Full updates: the reset-mask header

    [ensure_reset_mask_in_metadata] of [src/nebius/base/fieldmask_protobuf.py]
    and what a server reads from the header: the patterns the message has to
    reset.  Messages, field masks, their text and the metadata work together
    here. *)
From stdpp Require Import gmap.
From S2P Require Import Prelude PyStr Json FieldMask FieldMaskSpec MaskHeap MaskParser MaskRoundtrip MaskMarshal.
From S2P Require Import Metadata.
From S2P Require Import Bytes Wire ValueCodec Message MessageInv MessageRoundtrip UpdateMask UpdateMaskSpec MessageTheorems.

Definition RESET_MASK_HEADER : pystr := u "X-ResetMask".

Section Header.
Context `{PyLower, Schema}.

Definition ensure_reset_mask_in_metadata (msg : message) (metadata : option (list (py_str * py_str))) :
    result update_error contents :=
  let metadata := Metadata.init metadata in
  if negb (Metadata.contains (KeyItem RESET_MASK_HEADER) metadata) then
    mask ← get_full_update_reset_mask msg;
    Ok (Metadata.setitem (IStr RESET_MASK_HEADER) (AStr (Mask.marshal mask)) metadata).2
  else Ok metadata.

(** The names of the schema can be written in a mask; protobuf identifiers can. *)
Definition names_ok : Prop := forall c f, f ∈ FIELDS c -> good_key (proto_name f) = true.

Lemma resets_good m p : names_ok -> resets m p -> Forall (fun s => good_step s = true) p.
Proof.
  intros Hn. assert (forall c i f, FIELDS c !! i = Some f -> good_key (proto_name f) = true) as Hg.
  { intros c i f Hf. eapply Hn. by eapply list_elem_of_lookup_2. }
  induction 1; repeat constructor; simpl; eauto.
Qed.

(** A mask with good patterns is good. *)
Lemma patterns_good k :
  wf k -> (forall p, has k p = true -> Forall (fun s => good_step s = true) p) -> good_mask k = true.
Proof.
  induction k as [a ps IHa IHp] using Mask_ind. intros Hwf Hk. cbn [good_mask].
  assert (forall s c, child (mkMask a ps) s = Some c -> good_step s = true /\
    forall p, has c p = true -> Forall (fun s => good_step s = true) p) as Hc.
  { intros s c Hc. split.
    - specialize (Hk [s]). rewrite has_cons, Hc, has_nil in Hk. by apply Forall_cons in Hk as [? _].
    - intros p Hp. specialize (Hk (s :: p)). rewrite has_cons, Hc in Hk. by apply Forall_cons in Hk as [_ ?]. }
  apply andb_true_iff. split.
  - destruct a as [x|]; [|done]. apply IHa; [done|by apply (wf_child _ Star x Hwf)|]. by apply (Hc Star x).
  - apply forallb_forall. intros [k v] Hin%list_elem_of_In.
    assert (child (mkMask (a) ps) (Key k) = Some v) as Hch.
    { cbn. apply dict_elem_get; [|done]. by apply (wf_parts _ Hwf). }
    destruct (Hc _ _ Hch) as [Hs Hp]. apply andb_true_iff. split; [done|].
    eapply IHp; [done|by apply (wf_child _ _ _ Hwf Hch)|done].
Qed.

Lemma header_name_other key md v :
  py_lower key <> py_lower RESET_MASK_HEADER ->
  getitem_str key (setitem (IStr RESET_MASK_HEADER) (AStr v) md).2 = getitem_str key md.
Proof.
  intros Hne. cbn [setitem assigned_strings]. change [PStr v] with (PStr <$> [v]).
  rewrite append_values_get by apply py_lower_idem. rewrite getitem_delitem, py_lower_idem.
  rewrite !decide_False by done. by rewrite app_nil_r.
Qed.

(** ** Theorems *)

(** C3: the reset mask of a full update has exactly the patterns the message
    has to reset, unset and default fields included and immutable ones left
    out, although the walk fills shared mask objects in stack order; it ends on
    every well-formed message and raises only beyond 1000 levels of nesting. *)
Theorem update_mask_spec m :
  typed m ->
  match get_full_update_reset_mask m with
  | Ok k => wf k /\ forall p, has k p = true <-> resets m p
  | Raise e => e = TooDeep /\ ~ shallow m 0
  end.
Proof.
  intros Hm. pose proof (full_update_walk_cases m Hm) as Hc. destruct (full_update_walk m) as [h|e].
  - by destruct Hc as (k & -> & ? & ?).
  - by destruct Hc as (_ & -> & ?).
Qed.

(** The reset-mask header tells a server what to reset: a header that is
    there is kept, otherwise one value is added that parses back to a mask with
    exactly the patterns the message has to reset; the other headers stay. *)
Theorem update_header_spec m metadata :
  names_ok -> typed m ->
  match ensure_reset_mask_in_metadata m metadata with
  | Ok md =>
      if contains (KeyItem RESET_MASK_HEADER) (init metadata) then md = init metadata else
      (exists text k, getitem_str RESET_MASK_HEADER md = [text] /\ Mask_unmarshal text = Ok k /\
         forall p, has k p = true <-> resets m p) /\
      forall key, py_lower key <> py_lower RESET_MASK_HEADER -> getitem_str key md = getitem_str key (init metadata)
  | Raise e => e = TooDeep /\ ~ shallow m 0
  end.
Proof.
  intros Hn Hm. unfold ensure_reset_mask_in_metadata. destruct (contains _ _); [done|]. cbn [negb].
  pose proof (full_update_walk_cases m Hm) as Hc. destruct (full_update_walk m) as [h|e].
  - destruct Hc as (k & -> & Hwf & Hk). cbn [mbind result_bind]. split; [|by intros; apply header_name_other].
    destruct (parse_marshal k Hwf) as (k' & Hp & Hwf' & He).
    { apply patterns_good; [done|]. intros p Hp. by eapply resets_good, Hk. }
    exists (Mask.marshal k), k'. split; [apply setitem_str_get|]. split; [done|].
    intros p. rewrite (proj1 (eqb_has k' k Hwf' Hwf) He). apply Hk.
  - destruct Hc as (_ & -> & ?). done.
Qed.

End Header.

(** ** Examples *)

#[local] Existing Instance ex_schema.
#[local] Existing Instance ascii_py_lower.

Definition ex_header : pystr := u "child.(child,counts,id,labels,name,ratio,size),labels.*.(child,counts,id,labels,name,ratio,size),name,ratio,size".

Lemma ex_typed : typed ex_message.
Proof. exists unknown_ok, 100%nat. exact ex_message_ok. Qed.

Lemma ex_names : names_ok.
Proof.
  intros c f Hf. assert (Forall (fun f => good_key (proto_name f) = true) ex_fields) as Hall.
  { unfold ex_fields. repeat constructor; by vm_compute. }
  rewrite Forall_forall in Hall. by apply Hall.
Qed.

Lemma update_mask_spec_witness :
  exists k, get_full_update_reset_mask ex_message = Ok k /\ wf k /\ Mask.marshal k = ex_header.
Proof.
  pose proof (update_mask_spec ex_message ex_typed) as Hs.
  destruct (get_full_update_reset_mask ex_message) as [k|e] eqn:E; [|vm_compute in E; discriminate].
  exists k. split; [reflexivity|]. split; [exact (proj1 Hs)|].
  vm_compute in E. injection E as <-. vm_compute. reflexivity.
Defined.

Lemma update_header_spec_witness :
  exists md k, ensure_reset_mask_in_metadata ex_message None = Ok md /\
    getitem_str RESET_MASK_HEADER md = [ex_header] /\ Mask_unmarshal ex_header = Ok k /\
    forall p, has k p = true <-> resets ex_message p.
Proof.
  pose proof (update_header_spec ex_message None ex_names ex_typed) as Hs.
  destruct (ensure_reset_mask_in_metadata ex_message None) as [md|e] eqn:E; [|vm_compute in E; discriminate].
  destruct Hs as [(text & k & H1 & H2 & H3) _].
  assert (text = ex_header) as ->.
  { assert ([text] = [ex_header]) as Ht by (rewrite <- H1; vm_compute in E; injection E as <-; vm_compute; reflexivity).
    by injection Ht. }
  exists md, k. split; [reflexivity|]. split; [exact H1|]. split; [exact H2|exact H3].
Defined.
