(* ===== verification/MessageClone.v ===== *)
(** * Clones and assignments

    A clone is the canonical form of a message, at every level, so the values a
    message takes over by assignment are canonical.  A message that is filled
    field by field, through assignments, has the canonical form of the message the
    values came from. *)
From stdpp Require Import gmap.
From S2P Require Import Prelude PyStr Json FieldMask Bytes Wire WireSpec ValueCodec Message MessageInv MessageOps MessageCanon MessageParse MessageSteps.

Section Clone.
Context `{Schema} (HS : schema_ok _).

(** ** A clone is the canonical form *)

Section Field.
Context (U : nat -> bytes -> Prop) (P : message -> Prop) (cn : message -> message).
Context (clone : nat -> message -> result message_error message).
Context (mf : message -> message -> result message_error message).
Context (Hclone : forall m, P m -> clone (cls m) m = Ok (cn m)).

Lemma copy_canon c v : value_ok P c v -> copy_value clone c v = Ok (canon_value cn v).
Proof.
  intros Hv. destruct c as [| | | | |k], v as [s|m]; simpl in *; try done.
  destruct Hv as [<- Hm]. by rewrite Hclone.
Qed.

Lemma prepare_canon c v : value_ok P c v -> _prepare clone c v = Ok (canon_value cn v).
Proof. intros Hv. unfold _prepare. rewrite (normalize_value_ok HS P) by done. by apply copy_canon. Qed.

Lemma extend_canon c vs : Forall (value_ok P c) vs -> extend clone c [] vs = Ok (canon_value cn <$> vs).
Proof.
  intros Hvs. unfold extend. assert (traverse (_prepare clone c) vs = Ok (canon_value cn <$> vs)) as ->; [|done].
  induction Hvs as [|v vs Hv _ IH]; [done|]. cbn [traverse]. rewrite prepare_canon by done.
  cbn [mbind result_bind]. by rewrite IH.
Qed.

Lemma map_sets_canon kc c es es0 :
  key_codec_ok kc -> Forall (entry_ok P kc c) es -> dict_wf (es0 ++ es) ->
  fold_result (map_set clone kc c) es es0 = Ok (es0 ++ (canon_entry cn <$> es)).
Proof.
  intros Hkc Hes. revert es0. induction Hes as [|[k v] es [Hk Hv] _ IH]; intros es0 Hwf; [by rewrite app_nil_r|].
  cbn [fold_result]. unfold map_set. simpl in Hk, Hv. cbn [fst snd]. rewrite (normalize_key_ok HS) by done.
  rewrite prepare_canon by done. cbn [mbind result_bind]. unfold dict_wf in *. rewrite fmap_app in Hwf.
  rewrite dict_set_new.
  - rewrite IH; [by rewrite <- app_assoc|]. by rewrite !fmap_app, <- app_assoc.
  - apply NoDup_app in Hwf as (_ & Hd & _). intros Hin. apply (Hd k Hin). left.
Qed.

(** A singular field with a value has one in its slot. *)
Lemma has_value_one f s :
  slot_ok P f s -> singular f = true -> _field_has_value f s = true ->
  exists v, cell_of s = Some (One v) /\ value_ok P (codec_of f) v.
Proof.
  intros Hs Hsg Hv. assert (cell_of s <> None) as Hne.
  { pose proof Hsg as [Hk Hr]%singular_keys. unfold _field_has_value, _field_is_default, map_field in Hv.
    rewrite Hk, Hr in Hv. simpl in Hv.
    destruct (has_presence f); [by apply (sl_present _ _ _ Hs)|]. by intros Hn; rewrite Hn in Hv. }
  destruct (cell_of s) as [x|] eqn:Ex; [|done]. destruct (slot_one P f s x Hs Hsg Ex) as (v & -> & ?). eauto.
Qed.

Lemma merge_field_canon m L i f :
  body_ok U P m -> FIELDS (cls m) !! i = Some f -> i ∉ L ->
  merge_field clone mf m (built (canon_body cn false m) L) (i, f) = Ok (built (canon_body cn false m) (i :: L)).
Proof.
  intros Hm Hf Hi. set (c := canon_body cn false m). pose proof (canon_canonical U P cn false m Hm) as Hc.
  pose proof (place_built c Hc L i f Hf Hi) as Hp. destruct (body_slot _ _ _ _ _ Hm Hf) as [Hs _].
  unfold c in Hp at 1. rewrite (canon_get U P cn false m i f Hm Hf) in Hp.
  assert (get_slot (built c L) i = no_slot) as Hb by by rewrite get_built, decide_False.
  unfold merge_field. rewrite Hb. change (entries_of no_slot) with (@nil (scalar * value)).
  change (items_of no_slot) with (@nil value). unfold place, canon_slot in Hp. destruct (map_key_codec f) as [kc|] eqn:Ek.
  - pose proof (slot_entries_ok P f _ kc Hs Ek) as [Hwf Hes].
    destruct (entries_of (get_slot m i)) as [|e es] eqn:Ee; [by rewrite <- Hp|].
    rewrite (map_sets_canon kc (codec_of f) (e :: es) []); [|by eapply f_key; [eapply field_is_ok|]|done|done].
    cbn [mbind result_bind app]. by rewrite <- Hp.
  - destruct (repeated f) eqn:Er.
    + pose proof (items_ok P f _ Hs Ek Er) as Hit.
      destruct (items_of (get_slot m i)) as [|v vs] eqn:Ei; [by rewrite <- Hp|].
      rewrite extend_canon by done. cbn [mbind result_bind]. by rewrite <- Hp.
    + destruct (_field_has_value f (get_slot m i)) eqn:Ev; [|by rewrite <- Hp]. cbn [negb].
      destruct (has_value_one f _ Hs) as (v & Hv & Hok); [by apply singular_keys|done|]. rewrite Hv in Hp |- *.
      rewrite copy_canon by done. cbn [mbind result_bind no_slot cell_of] in *. by rewrite <- Hp.
Qed.

End Field.

Lemma clone_is_canon U n fuel m :
  (n <= fuel)%nat -> message_ok U n m -> MergeFrom fuel (new (cls m)) m = Ok (canon n false m).
Proof.
  revert fuel m. induction n as [|n IH]; intros fuel m Hf Hm; [done|]. destruct fuel as [|fuel]; [lia|].
  cbn [message_ok canon] in *. cbn [MergeFrom cls new]. rewrite Nat.eqb_refl. cbn [negb].
  set (c := canon_body (canon n false) false m).
  assert (canonical c) as Hc by by eapply canon_canonical.
  assert (forall l L, NoDup (l.*1 ++ L) -> (forall x, x ∈ l -> FIELDS (cls m) !! x.1 = Some x.2) ->
    fold_result (merge_field (fun k m => MergeFrom fuel (Clear (new k)) m) (MergeFrom fuel) m) l (built c L) =
    Ok (built c (reverse l.*1 ++ L))) as Hfold.
  { induction l as [|[i f] l IHl]; intros L Hnd Hin; [done|]. simpl in Hnd. apply NoDup_cons in Hnd as [Hi Hnd].
    rewrite not_elem_of_app in Hi. destruct Hi as [Hi1 Hi2]. cbn [fold_result]. unfold c.
    rewrite (merge_field_canon U (message_ok U n) (canon n false)).
    - cbn [mbind result_bind]. fold c. rewrite IHl; [by rewrite fmap_cons, reverse_cons, <- app_assoc| |].
      + rewrite <- Permutation_middle. constructor; [|done]. by rewrite not_elem_of_app.
      + intros x Hx. apply Hin. by right.
    - intros m' Hm'. rewrite Clear_new. apply IH; [lia|done].
    - done.
    - apply (Hin (i, f)). left.
    - done. }
  change (new (cls m)) with (new (cls c)). rewrite <- (built_nil c) by by apply canon_length.
  rewrite Hfold; [|by rewrite app_nil_r, indexed_fst; apply NoDup_seq|by intros [i f] Hx; apply indexed_lookup in Hx].
  cbn [mbind result_bind]. f_equal. rewrite app_nil_r. cbn [_unknown_fields built app].
  change (_unknown_fields m) with (_unknown_fields c). apply built_all; [|apply Hc|apply Hc|by apply canon_length].
  intros i Hi. rewrite elem_of_reverse, indexed_fst. apply elem_of_seq. rewrite canon_length in Hi by done.
  change (cls c) with (cls m) in Hi. lia.
Qed.

Lemma canon_message_ok U n m : message_ok U n m -> message_ok U n (canon n false m).
Proof.
  intros Hm. destruct n as [|n]; [done|].
  destruct (MergeFrom_ok HS U (S n) (S n) (S n) (new (cls m)) m) as (r & Hr & _ & Hok); try done; [apply new_ok|].
  rewrite (clone_is_canon U (S n)) in Hr by done. by injection Hr as <-.
Qed.

Lemma prepare_clone U n fuel c v :
  (n <= fuel)%nat -> value_ok (message_ok U n) c v ->
  _prepare (clone_message fuel) c v = Ok (canon_value (canon n false) v).
Proof.
  intros Hn Hv. apply (prepare_canon (message_ok U n)); [|done]. intros m Hm.
  unfold clone_message, CopyFrom. cbn [cls new]. rewrite Nat.eqb_refl, Clear_new. by eapply clone_is_canon.
Qed.

(** ** The canonical form of one level *)

Definition tidy : Field -> slot -> slot := canon_slot (fun m => m) false.

Lemma canon_value_id v : canon_value (fun m => m) v = v.
Proof. by destruct v. Qed.

Lemma canon_value_id_list (vs : list value) : canon_value (fun m => m) <$> vs = vs.
Proof. induction vs as [|v vs IH]; [done|]. by rewrite fmap_cons, canon_value_id, IH. Qed.

Lemma canon_entry_id_list (es : list (scalar * value)) : canon_entry (fun m => m) <$> es = es.
Proof. induction es as [|[k v] es IH]; [done|]. rewrite fmap_cons, IH. unfold canon_entry. by rewrite canon_value_id. Qed.

Lemma tidy_canonical f s : canonical_slot f s -> tidy f s = s.
Proof.
  unfold tidy, canon_slot. intros [|kc es Hk Hne _ _|vs Hk Hr Hne|v Hsg Hv].
  - destruct (map_key_codec f); [done|]. destruct (repeated f); [done|]. by destruct (_field_has_value f no_slot).
  - rewrite Hk. unfold entries_of. cbn [cell_of]. destruct es; [done|]. unfold entry_order. by rewrite canon_entry_id_list.
  - rewrite Hk, Hr. unfold items_of. cbn [cell_of]. destruct vs; [done|]. by rewrite canon_value_id_list.
  - apply singular_keys in Hsg as [Hk Hr]. rewrite Hk, Hr, Hv. cbn [cell_of]. by rewrite canon_value_id.
Qed.

(** The presence of a slot a message can have is that of its canonical form. *)
Lemma canon_tidy P cn f s : slot_ok P f s -> canon_slot cn false f (tidy f s) = canon_slot cn false f s.
Proof.
  intros Hs. unfold tidy, canon_slot. destruct (map_key_codec f) as [kc|] eqn:Ek.
  - destruct (entries_of s) as [|e es] eqn:Ee; [done|]. unfold entries_of at 1. cbn [cell_of].
    unfold entry_order. by rewrite canon_entry_id_list.
  - destruct (repeated f) eqn:Er.
    + destruct (items_of s) as [|v vs] eqn:Ei; [done|]. unfold items_of at 1. cbn [cell_of]. by rewrite canon_value_id_list.
    + assert (singular f = true) as Hsg by by apply singular_keys.
      assert (_field_has_value f no_slot = false) as Hno.
      { unfold _field_has_value, _field_is_default, map_field. rewrite Ek, Er. simpl. by destruct (has_presence f). }
      destruct (_field_has_value f s) eqn:Ev; [|by rewrite Hno].
      destruct (has_value_one P f s Hs Hsg Ev) as (v & Hv & _). rewrite Hv, canon_value_id. cbn [cell_of].
      assert (_field_has_value f (mkSlot (Some (One v)) (has_presence f)) = true) as ->; [|done].
      revert Ev. unfold _field_has_value, _field_is_default, map_field. rewrite Ek, Er. simpl.
      destruct (has_presence f); [done|]. by rewrite Hv.
Qed.

(** ** Filling a message by assignments *)

Abbreviation any_bytes := (fun (_ : nat) (_ : bytes) => True).

Section Fill.
Context (P : message -> Prop) (c : message) (Hc : canonical c).

(** [m] holds the fields [L] of [c], and perhaps values that count as unset. *)
Record filled (L : list nat) (m : message) : Prop := {
  fl_body : body_ok any_bytes P m;
  fl_cls : cls m = cls c;
  fl_slots i f : FIELDS (cls c) !! i = Some f -> tidy f (get_slot m i) = get_slot (built c L) i;
  fl_oneofs : _oneofs m = _oneofs (built c L);
  fl_unknown : _unknown_fields m = []
}.

Lemma filled_new : filled [] (new (cls c)).
Proof.
  rewrite <- built_nil by by apply canon_length. split; [|done| |done|done].
  - rewrite built_nil by by apply canon_length. apply new_ok.
  - intros i f Hf. rewrite get_built, decide_False by apply not_elem_of_nil. apply tidy_canonical. constructor.
Qed.

Lemma filled_skip L m i : get_slot c i = no_slot -> filled L m -> filled (i :: L) m.
Proof.
  intros Hi [Hb Hk Hs Ho Hu]. split; try done.
  - intros j f Hf. rewrite (Hs j f Hf), !get_built. destruct (decide (j ∈ L)) as [Hj|Hj].
    + rewrite decide_True; [done|by right].
    + destruct (decide (j ∈ i :: L)) as [[->|?]%elem_of_cons|]; [by rewrite Hi|done|done].
  - rewrite Ho. apply map_eq. intros o. apply option_eq. intros j.
    rewrite !built_oneofs, elem_of_cons. split; [tauto|]. intros [Hj [->|?]]; [|done]. exfalso.
    apply (c_oneofs c Hc) in Hj as (f & _ & _ & Hp). by rewrite Hi in Hp.
Qed.

(** What an assignment of [x] leaves in the slot of a field. *)
Inductive yields (fuel : nat) (f : Field) : py_input -> slot -> Prop :=
| y_map kc es es' : map_key_codec f = Some kc ->
    fold_result (map_set (clone_message fuel) kc (codec_of f)) es [] = Ok es' -> cell_ok P f (Entries es') ->
    yields fuel f (PDict es) (match es' with [] => no_slot | _ => mkSlot (Some (Entries es')) false end)
| y_items vs vs' : map_key_codec f = None -> repeated f = true ->
    extend (clone_message fuel) (codec_of f) [] vs = Ok vs' -> cell_ok P f (Items vs') ->
    yields fuel f (PList vs) (match vs' with [] => no_slot | _ => mkSlot (Some (Items vs')) false end)
| y_one v v' : singular f = true -> _prepare (clone_message fuel) (codec_of f) v = Ok v' ->
    value_ok P (codec_of f) v' ->
    yields fuel f (PValue v)
      (if has_presence f || negb (value_eqb v' (default f)) then mkSlot (Some (One v')) (has_presence f) else no_slot).

Lemma deselect_idle i f m :
  (forall o j, oneof f = Some o -> _oneofs m !! o = Some j -> j = i) -> deselect i f m = m.
Proof.
  intros Ho. unfold deselect. destruct (oneof f) as [o|] eqn:Eo; [|done].
  destruct (_oneofs m !! o) as [j|] eqn:Ej; [|done]. by rewrite (Ho o j eq_refl Ej), decide_True.
Qed.

Lemma oneof_only L i f o j :
  FIELDS (cls c) !! i = Some f -> is_present (get_slot c i) = true -> oneof f = Some o ->
  _oneofs (built c L) !! o = Some j -> j = i.
Proof. intros Hf Hp Ho [Hj _]%built_oneofs. rewrite (selected_at c Hc i f o Hf Ho Hp) in Hj. congruence. Qed.

(** A slot of [m] changes and becomes that of [c]. *)
Lemma filled_slot L m m' i f :
  filled L m -> FIELDS (cls c) !! i = Some f -> body_ok any_bytes P m' -> cls m' = cls m ->
  (forall j, j <> i -> get_slot m' j = get_slot m j) -> tidy f (get_slot m' i) = get_slot c i ->
  _oneofs m' = _oneofs (built c (i :: L)) -> _unknown_fields m' = _unknown_fields m -> filled (i :: L) m'.
Proof.
  intros [Hb Hk Hs Ho Hu] Hf Hb' Hk' Hoth Hi Ho' Hu'. split; [done|congruence| |done|congruence].
  intros j g Hg. rewrite get_built. destruct (decide (j = i)) as [->|Hne].
  - rewrite decide_True by left. by simplify_eq.
  - rewrite (Hoth j Hne), (Hs j g Hg), get_built. destruct (decide (j ∈ L)) as [Hj|Hj].
    + rewrite decide_True; [done|by right].
    + rewrite decide_False; [done|]. by rewrite elem_of_cons; intros [?|?].
Qed.

Lemma filled_container L m i f x :
  filled L m -> FIELDS (cls c) !! i = Some f -> cell_ok P f x -> singular f = false ->
  tidy f (mkSlot (Some x) false) = get_slot c i -> filled (i :: L) (set_cell i x m).
Proof.
  intros Hfl Hf Hx Hsg Ht. pose proof Hfl as [Hb Hk Hs Ho Hu]. pose proof Hf as Hfm. rewrite <- Hk in Hfm.
  destruct (body_slot _ _ _ _ _ Hb Hfm) as [Hsl Hi].
  assert (is_present (get_slot m i) = false) as Hp.
  { destruct (is_present (get_slot m i)) eqn:E; [|done]. destruct (sl_present _ _ _ Hsl E). congruence. }
  apply (filled_slot L m _ i f); [done|done|by eapply set_cell_ok|done| | | |done].
  - intros j Hne. by rewrite get_set_cell, decide_False.
  - by rewrite get_set_cell, decide_True, Hp.
  - change (_oneofs (set_cell i x m)) with (_oneofs m). rewrite Ho. apply map_eq. intros o. apply option_eq. intros j.
    rewrite (oneofs_same c Hc L i f o j Hf), built_oneofs, elem_of_cons; [done|]. right.
    destruct (oneof f) eqn:Eo; [|done]. rewrite (f_oneof f (field_is_ok HS _ _ _ Hf) _ Eo) in Hsg. done.
Qed.

Lemma filled_one L m i f v :
  filled L m -> FIELDS (cls c) !! i = Some f -> singular f = true -> value_ok P (codec_of f) v ->
  get_slot c i = (if has_presence f || negb (value_eqb v (default f)) then mkSlot (Some (One v)) (has_presence f) else no_slot) ->
  filled (i :: L) (set_cell i (One v) (_select i f m)).
Proof.
  intros Hfl Hf Hsg Hv Hci. pose proof Hfl as [Hb Hk Hs Ho Hu]. pose proof Hf as Hfm. rewrite <- Hk in Hfm.
  destruct (body_slot _ _ _ _ _ Hb Hfm) as [Hsl Hi]. pose proof (assign_one_ok P m i f v Hb Hfm Hsg Hv) as [Hb' Hk'].
  assert (deselect i f m = m) as Hd.
  { apply deselect_idle. intros o j Hoo. rewrite Ho. apply (oneof_only L i f); [done| |done].
    by rewrite Hci, (oneof_presence f o Hoo). }
  revert Hb' Hk'. rewrite select_unfold. cbv zeta. rewrite Hd. apply singular_keys in Hsg as [Ek Er].
  assert (forall p, (has_presence f = true -> p = true) -> tidy f (mkSlot (Some (One v)) p) = get_slot c i) as Ht.
  { intros p Hp. rewrite Hci. unfold tidy, canon_slot, _field_has_value, _field_is_default, map_field. rewrite Ek, Er. simpl.
    rewrite canon_value_id. destruct (has_presence f); [by rewrite Hp|]. by destruct (value_eqb v (default f)). }
  destruct (has_presence f) eqn:Ep.
  - rewrite set_cell_mark by done. intros Hb' Hk'. simpl in Hci.
    assert (forall j, get_slot (mark_present i (chosen i f (set_cell i (One v) m))) j =
      if decide (j = i) then mkSlot (Some (One v)) true else get_slot m j) as Hg.
    { intros j. assert (forall k, get_slot (chosen i f (set_cell i (One v) m)) k = get_slot (set_cell i (One v) m) k)
        as Hch by (intros k; unfold chosen; by destruct (oneof f)).
      unfold mark_present. rewrite get_set_slot.
      - rewrite !Hch, !get_set_cell by done. rewrite (decide_True (P := i = i)) by done. simpl. by case_decide.
      - unfold chosen. destruct (oneof f); simpl; by rewrite length_insert. }
    apply (filled_slot L m _ i f); [done|done|done|done| | | |].
    + intros j Hne. by rewrite Hg, decide_False.
    + rewrite Hg, decide_True by done. by apply Ht.
    + change (_oneofs (mark_present i ?x)) with (_oneofs x).
      unfold chosen. apply map_eq. intros o. apply option_eq. intros j. rewrite built_oneofs, elem_of_cons.
      destruct (oneof f) as [o'|] eqn:Eo; simpl.
      * pose proof (selected_at c Hc i f o' Hf Eo ltac:(by rewrite Hci)) as Hsel.
        rewrite lookup_insert_Some, Ho, built_oneofs. split; [naive_solver|]. intros [Hoj [->|Hj]].
        -- left. split; [|done]. apply (c_oneofs c Hc) in Hoj as (f' & Hf' & Ho' & _). naive_solver.
        -- destruct (decide (o' = o)) as [->|]; [|by right]. left. split; [done|]. congruence.
      * change (_oneofs (set_cell i (One v) m)) with (_oneofs m). rewrite Ho.
        rewrite (oneofs_same c Hc L i f o j Hf); [done|by right].
    + unfold chosen. by destruct (oneof f).
  - unfold chosen. destruct (oneof f) as [o|] eqn:Eo; [by rewrite (oneof_presence f o Eo) in Ep|].
    intros Hb' Hk'. apply (filled_slot L m _ i f); [done|done|done|done| | | |done].
    + intros j Hne. by rewrite get_set_cell, decide_False.
    + rewrite get_set_cell, decide_True by done. by apply Ht.
    + change (_oneofs (set_cell i (One v) m)) with (_oneofs m). rewrite Ho. apply map_eq. intros o. apply option_eq.
      intros j. rewrite (oneofs_same c Hc L i f o j Hf), built_oneofs, elem_of_cons; [done|by right].
Qed.

(** An assignment that yields a slot of [c]. *)
Lemma filled_assign fuel L m i f x :
  filled L m -> FIELDS (cls c) !! i = Some f -> yields fuel f x (get_slot c i) ->
  exists m', _set_field fuel true i f x m = Ok m' /\ filled (i :: L) m'.
Proof.
  intros Hfl Hf Hy. remember (get_slot c i) as s eqn:Es. destruct Hy as [kc es es' Hk He Hx|vs vs' Hk Hr He Hx|v v' Hsg He Hv].
  - exists (set_cell i (Entries es') m). unfold _set_field. rewrite Hk, He. cbn [mbind result_bind].
    split; [by destruct es'|]. apply (filled_container L m i f); [done..| |].
    + unfold singular, map_field. by rewrite Hk.
    + rewrite <- Es. unfold tidy, canon_slot, entries_of. rewrite Hk. cbn [cell_of]. destruct es'; [done|].
      unfold entry_order. by rewrite canon_entry_id_list.
  - exists (set_cell i (Items vs') m). unfold _set_field. rewrite Hk, Hr. cbn [iterate]. rewrite He. cbn [mbind result_bind].
    split; [by destruct vs'|]. apply (filled_container L m i f); [done..| |].
    + unfold singular. rewrite Hr. by rewrite andb_false_r.
    + rewrite <- Es. unfold tidy, canon_slot, items_of. rewrite Hk, Hr. cbn [cell_of]. destruct vs'; [done|].
      by rewrite canon_value_id_list.
  - exists (set_cell i (One v') (_select i f m)). pose proof Hsg as [Hk Hr]%singular_keys. unfold _set_field.
    rewrite Hk, Hr, He. cbn [mbind result_bind]. split; [by destruct (_ && _)|]. by apply filled_one.
Qed.

End Fill.

(** ** Filled messages *)

Section Idempotent.
Context (P : message -> Prop) (cn : message -> message) (Hidem : forall m, P m -> cn (cn m) = cn m).

Lemma canon_value_idem c v : value_ok P c v -> canon_value cn (canon_value cn v) = canon_value cn v.
Proof. destruct v as [s|m]; [done|]. destruct c; try done. intros [_ Hm]. simpl. by rewrite Hidem. Qed.

Lemma canon_slot_idem f s : slot_ok P f s -> canon_slot cn false f (canon_slot cn false f s) = canon_slot cn false f s.
Proof.
  intros Hs. pose proof (canon_slot_canonical P cn false f s Hs) as [Hcs _].
  pose proof (canon_slot_values P cn false f s Hs) as (vs & Hvs & Hok).
  assert (canon_value cn <$> slot_values (canon_slot cn false f s) = slot_values (canon_slot cn false f s)) as Hv.
  { rewrite Hvs. clear -Hok Hidem. induction Hok as [|v vs Hv _ IH]; [done|].
    rewrite !fmap_cons, IH. by erewrite canon_value_idem. }
  clear Hvs Hok. revert Hcs Hv. generalize (canon_slot cn false f s). intros t Hcs Hv.
  rewrite <- (tidy_canonical f t Hcs) at 2. unfold tidy, canon_slot. unfold slot_values in Hv.
  destruct (map_key_codec f); [|destruct (repeated f)]; unfold entries_of, items_of;
    destruct (cell_of t) as [[v|l|l]|]; try done.
  - destruct l as [|e l]; [done|]. do 3 f_equal. rewrite canon_entry_id_list. unfold entry_order.
    revert Hv. generalize (e :: l). intros l'. induction l' as [|[k v] l' IH]; [done|]. cbn [fmap list_fmap].
    intros [= E1 E2]. unfold canon_entry at 1. cbn [fst snd]. rewrite E1, IH; done.
  - destruct l as [|e l]; [done|]. do 3 f_equal. by rewrite canon_value_id_list.
  - destruct (_field_has_value f t); [|done]. do 3 f_equal. rewrite canon_value_id. by injection Hv.
Qed.

End Idempotent.

(** Messages with the same canonical slots and oneofs. *)
Lemma canon_body_eq U P cn m m' :
  body_ok U P m -> body_ok U P m' -> cls m' = cls m -> _oneofs m' = _oneofs m -> _unknown_fields m' = _unknown_fields m ->
  (forall i f, FIELDS (cls m) !! i = Some f ->
     canon_slot cn false f (get_slot m' i) = canon_slot cn false f (get_slot m i)) ->
  canon_body cn false m' = canon_body cn false m.
Proof.
  intros Hm Hm' Ec Eo Eu Hs.
  apply message_eq; [done| | |by intros o; cbn [_oneofs canon_body]; rewrite Eo|done|done].
  - cbn [slots canon_body]. rewrite !length_zip_with. rewrite (body_length _ _ _ Hm), (body_length _ _ _ Hm'). by rewrite Ec.
  - intros j. destruct (FIELDS (cls m) !! j) as [f|] eqn:Ej.
    + rewrite (canon_get U P cn false m j f Hm Ej), (canon_get U P cn false m' j f); [by apply Hs|done|by rewrite Ec].
    + unfold get_slot. cbn [slots canon_body]. by rewrite !lookup_zip_with, Ec, Ej.
Qed.

Lemma canon_idem n m : message_ok any_bytes n m -> canon n false (canon n false m) = canon n false m.
Proof.
  revert m. induction n as [|n IH]; intros m Hm; [done|]. cbn [message_ok canon] in *.
  set (cn := canon n false). assert (canonical (canon_body cn false m)) as Hc by by eapply canon_canonical.
  apply message_eq; [done| |..|done|done|done].
  - cbn [slots canon_body cls]. rewrite !length_zip_with, (body_length _ _ _ Hm). lia.
  - intros j. destruct (FIELDS (cls m) !! j) as [f|] eqn:Ej.
    + destruct (body_slot _ _ _ _ _ Hm Ej) as [Hs _]. rewrite (canon_get any_bytes _ cn false m j f Hm Ej).
      rewrite <- (canon_slot_idem (message_ok any_bytes n) cn IH f) by done.
      rewrite <- (canon_get any_bytes _ cn false m j f Hm Ej).
      assert (is_Some (slots m !! j)) as [s Hsj].
      { apply lookup_lt_is_Some. rewrite (body_length _ _ _ Hm). by eapply lookup_lt_Some. }
      unfold get_slot. cbn [slots canon_body cls]. by rewrite !lookup_zip_with, Ej, Hsj.
    + unfold get_slot. cbn [slots canon_body cls]. by rewrite !lookup_zip_with, Ej.
Qed.

(** A message filled with all the fields of a canonical form has that form. *)
Lemma filled_canon n m m' L :
  message_ok any_bytes (S n) m -> _unknown_fields m = [] ->
  filled (message_ok any_bytes n) (canon (S n) false m) L m' ->
  (forall i, get_slot (canon (S n) false m) i = no_slot \/ i ∈ L) ->
  message_ok any_bytes (S n) m' /\ canon (S n) false m' = canon (S n) false m.
Proof.
  intros Hm Hu [Hb Hk Hs Ho Hu'] HL. split; [done|]. cbn [message_ok canon] in *. set (cn := canon n false) in *.
  assert (canonical (canon_body cn false m)) as Hc by by eapply canon_canonical.
  eapply (canon_body_eq any_bytes (message_ok any_bytes n)); [done|done|done| |congruence|].
  - rewrite Ho. apply map_eq. intros o. apply option_eq. intros j. rewrite built_oneofs. split; [by intros [? _]|].
    intros Hj. split; [done|]. apply (c_oneofs _ Hc) in Hj as (f & _ & _ & Hp). destruct (HL j) as [E|?]; [|done].
    by rewrite E in Hp.
  - intros i f Hf. destruct (body_slot _ _ _ _ _ Hm Hf) as [Hsl _]. pose proof Hf as Hf'.
    change (cls m) with (cls (canon_body cn false m)) in Hf'. rewrite <- Hk in Hf'.
    destruct (body_slot _ _ _ _ _ Hb Hf') as [Hsl' _].
    rewrite <- (canon_tidy (message_ok any_bytes n) cn f (get_slot m' i)) by done. rewrite (Hs i f Hf), get_built.
    rewrite <- (canon_slot_idem (message_ok any_bytes n) cn (canon_idem n) f (get_slot m i)) by done.
    rewrite <- (canon_get any_bytes _ cn false m i f Hm Hf). case_decide as Hi; [done|].
    destruct (HL i) as [E|E]; [by rewrite E|done].
Qed.

End Clone.
