(* ===== verification/PyNumber.v ===== *)
(** * Numbers of Python texts and floating-point numbers

    [int()] and [float()] of a [str], and the IEEE 754 binary64 arithmetic the
    SDK uses: conversion from a decimal text and from an integer, the product
    with an integer, [is_integer], [round].  A float is the 64 bits of its
    encoding, as in [Wire] and [Message].  Python converts the digits and the
    white space beyond ASCII to ASCII before it reads a number; the digits of
    the Unicode tables are the class [PyDigits].  Python's limit on the length of integer
    texts is left out. *)
From stdpp Require Import pretty.
From S2P Require Import Prelude PyStr PyText Bytes.
#[local] Open Scope Z_scope.

(** ** Texts of numbers *)

(** The decimal value of a character of the category Nd. *)
Class PyDigits := {
  char_digit : Z -> option Z;
  char_digit_ascii c : 0 <= c < 128 -> char_digit c = if ascii_digit c then Some (c - 48) else None;
  char_digit_range c d : char_digit c = Some d -> 0 <= d <= 9
}.

Definition ascii_digits : PyDigits.
Proof.
  refine {| char_digit c := if ascii_digit c then Some (c - 48) else None |}.
  - done.
  - intros c d. unfold ascii_digit. case_match; [|done]. intros [= <-]. lia.
Defined.

Definition UNDERSCORE : Z := 95.

(** Underscores are allowed between digits only. *)
Fixpoint underscores_ok (before : bool) (s : pystr) : bool :=
  match s with
  | [] => true
  | c :: s' =>
      if c =? UNDERSCORE
      then before && match s' with d :: _ => ascii_digit d | [] => false end && underscores_ok false s'
      else underscores_ok (ascii_digit c) s'
  end.

Definition is_sign (c : Z) : bool := (c =? 43) || (c =? 45).

(** An optional sign: whether it is a minus, and the rest. *)
Definition take_sign (s : pystr) : bool * pystr :=
  match s with c :: s' => if is_sign c then (c =? 45, s') else (false, s) | [] => (false, []) end.

(** The ASCII white space around a number. *)
Definition number_space (c : Z) : bool := ((9 <=? c) && (c <=? 13)) || (c =? 32).
Definition strip_number (s : pystr) : pystr :=
  reverse (span number_space (reverse (span number_space s).2)).2.

Section Texts.
Context `{PyDigits}.

Definition transform_char (c : Z) : Z :=
  if c <? 127 then c else if is_space c then 32 else match char_digit c with Some d => 48 + d | None => c end.

(** The text a number is read from; [None]: a misplaced underscore. *)
Definition number_text (s : pystr) : option pystr :=
  let t := strip_number (transform_char <$> s) in
  if underscores_ok false t then Some (filter (fun c => c <> UNDERSCORE) t) else None.

(** [int(s)]; [None] is the [ValueError]. *)
Definition py_int (s : pystr) : option Z :=
  match number_text s with
  | None => None
  | Some t =>
      let '(neg, ds) := take_sign t in
      match ds with
      | [] => None
      | _ => if forallb ascii_digit ds then Some (if neg then - digits_value ds else digits_value ds) else None
      end
  end.

End Texts.

(** ** Binary64 *)

Definition INF : Z := 0x7FF0000000000000.
Definition NAN : Z := 0x7FF8000000000000.
Definition SIGN : Z := 2 ^ 63.

Definition magnitude (x : Z) : Z := Z.land x (SIGN - 1).
Definition negative (x : Z) : bool := Z.testbit x 63.
Definition isfinite (x : Z) : bool := magnitude x <? INF.
Definition isinf (x : Z) : bool := magnitude x =? INF.
Definition isnan (x : Z) : bool := INF <? magnitude x.
Definition with_sign (neg : bool) (m : Z) : Z := if neg then SIGN + m else m.

(** The largest [k] with [2 ^ k <= n / d]. *)
Definition ratio_log2 (n d : Z) : Z :=
  let k := Z.log2 n - Z.log2 d in
  if d * 2 ^ Z.max k 0 <=? n * 2 ^ Z.max (- k) 0 then k else k - 1.

(** [n / d], not negative, to the nearest float, halves to the even one. *)
Definition round_ratio (n d : Z) : Z :=
  if n =? 0 then 0 else
  let e := Z.max (ratio_log2 n d - 52) (-1074) in
  let m := round_half_even (n * 2 ^ Z.max (- e) 0) (d * 2 ^ Z.max e 0) in
  Z.min INF ((e + 1074) * 2 ^ 52 + m).

(** A finite magnitude as [m * 2 ^ e]. *)
Definition float_parts (x : Z) : Z * Z :=
  let E := magnitude x / 2 ^ 52 in
  let M := magnitude x mod 2 ^ 52 in
  if E =? 0 then (M, -1074) else (M + 2 ^ 52, E - 1075).

(** [abs(x)] as a ratio. *)
Definition float_ratio (x : Z) : Z * Z :=
  let '(m, e) := float_parts x in (m * 2 ^ Z.max e 0, 2 ^ Z.max (- e) 0).

(** [float(n)] of an integer; [None] is the [OverflowError]. *)
Definition float_of_integer (n : Z) : option Z :=
  let m := round_ratio (Z.abs n) 1 in
  if m <? INF then Some (with_sign (n <? 0) m) else None.

(** [x * k] for an integer [k] that is a float, of a finite [x]. *)
Definition float_mul_int (x k : Z) : Z :=
  let '(n, d) := float_ratio x in
  with_sign (xorb (negative x) (k <? 0)) (round_ratio (n * Z.abs k) d).

(** [x.is_integer()] and [int(x)] of a finite [x]. *)
Definition float_is_integer (x : Z) : bool := let '(n, d) := float_ratio x in n mod d =? 0.
Definition float_to_int (x : Z) : Z :=
  let '(n, d) := float_ratio x in if negative x then - (n / d) else n / d.

(** [round(x)]; [None] for the exceptions of infinities and NaN. *)
Definition float_round (x : Z) : option Z :=
  if negb (isfinite x) then None else
  let '(n, d) := float_ratio x in
  Some (if negative x then - round_half_even n d else round_half_even n d).

(** *** [float()] of a text *)

Definition lower_text (s : pystr) : pystr := ascii_lower s.

(** The exponent after the digits: nothing, or [e] and an integer. *)
Definition take_exponent (s : pystr) : option Z :=
  match s with
  | [] => Some 0
  | c :: s' =>
      if (c =? 101) || (c =? 69) then
        let '(neg, ds) := take_sign s' in
        match ds with
        | [] => None
        | _ => if forallb ascii_digit ds then Some (if neg then - digits_value ds else digits_value ds) else None
        end
      else None
  end.

(** [ds * 10 ^ e] *)
Definition decimal_float (ds : Z) (e : Z) : Z := round_ratio (ds * 10 ^ Z.max e 0) (10 ^ Z.max (- e) 0).

(** A decimal number without sign. *)
Definition float_digits (s : pystr) : option Z :=
  let '(whole, rest) := span ascii_digit s in
  let '(fraction, rest) :=
    match rest with
    | c :: rest' => if c =? 46 then span ascii_digit rest' else ([], rest)
    | [] => ([], [])
    end in
  match whole ++ fraction with
  | [] => None
  | ds =>
      match take_exponent rest with
      | None => None
      | Some e => Some (decimal_float (digits_value ds) (e - Z.of_nat (length fraction)))
      end
  end.

Section FloatText.
Context `{PyDigits}.

(** [float(s)]; [None] is the [ValueError]. *)
Definition py_float (s : pystr) : option Z :=
  match number_text s with
  | None => None
  | Some t =>
      let '(neg, body) := take_sign t in
      let name := lower_text body in
      if decide (name = u "inf" \/ name = u "infinity") then Some (with_sign neg INF) else
      if decide (name = u "nan") then Some (with_sign neg NAN) else
      with_sign neg <$> float_digits body
  end.

End FloatText.

(** ** Reading integers back *)

(** A text of digits and signs, which is read as it is. *)
Definition plain_char (c : Z) : bool := (33 <=? c) && (c <? 127) && negb (c =? UNDERSCORE).

Lemma span_none p s : forallb (fun c => negb (p c)) s = true -> span p s = ([], s).
Proof. destruct s as [|c s]; [done|]. simpl. intros [Hc _]%andb_prop. by destruct (p c). Qed.

Lemma strip_plain s : forallb plain_char s = true -> strip_number s = s.
Proof.
  intros Hs. assert (Hn : forall t, forallb plain_char t = true -> (span number_space t).2 = t).
  { intros t Ht. rewrite span_none; [done|]. rewrite forallb_forall in *. intros c Hc. specialize (Ht c Hc).
    unfold plain_char, number_space in *. lia. }
  unfold strip_number. rewrite (Hn s Hs), Hn by (by rewrite forallb_reverse). apply reverse_involutive.
Qed.

Lemma underscores_plain b s : forallb plain_char s = true -> underscores_ok b s = true.
Proof.
  revert b. induction s as [|c s IH]; intros b; [done|]. simpl. intros [Hc Hs]%andb_prop.
  unfold plain_char in Hc. destruct (c =? UNDERSCORE) eqn:E; [lia|]. by apply IH.
Qed.

Lemma number_text_plain `{PyDigits} s : forallb plain_char s = true -> number_text s = Some s.
Proof.
  intros Hs. unfold number_text. assert (transform_char <$> s = s) as ->.
  { rewrite <- (list_fmap_id s) at 2. apply list_fmap_ext. intros i c Hc. apply list_elem_of_lookup_2 in Hc.
    rewrite forallb_forall in Hs. specialize (Hs c (proj1 (list_elem_of_In _ _) Hc)). unfold plain_char in Hs.
    unfold transform_char, id. destruct (c <? 127) eqn:E; [done|lia]. }
  rewrite strip_plain, underscores_plain by done. f_equal.
  induction s as [|c s IH]; [done|]. simpl in Hs. apply andb_prop in Hs as [Hc Hs].
  rewrite filter_cons_True by (unfold plain_char in Hc; lia). by rewrite IH.
Qed.

Lemma digits_plain s : forallb ascii_digit s = true -> forallb plain_char s = true.
Proof.
  intros Hs. rewrite forallb_forall in *. intros c Hc. specialize (Hs c Hc).
  unfold ascii_digit, plain_char, UNDERSCORE in *. lia.
Qed.

Lemma py_int_digits `{PyDigits} (neg : bool) s :
  s <> [] -> forallb ascii_digit s = true ->
  py_int ((if neg then [45] else []) ++ s) = Some (if neg then - digits_value s else digits_value s).
Proof.
  intros Hne Hs. unfold py_int.
  rewrite number_text_plain by (rewrite forallb_app, (digits_plain s) by done; by destruct neg).
  destruct s as [|c s]; [done|]. destruct neg; simpl app.
  - unfold take_sign. simpl. simpl in Hs. by rewrite Hs.
  - unfold take_sign. destruct (is_sign c) eqn:E.
    + simpl in Hs. unfold ascii_digit, is_sign in *. lia.
    + by rewrite Hs.
Qed.

(** *** [str(n)] *)

Lemma u_app a b : u (a +:+ b) = u a ++ u b.
Proof. induction a as [|c a IH]; [done|]. unfold u in *. simpl. by f_equal. Qed.

Lemma pretty_N_char_digit n :
  (n < 10)%N -> u (String (pretty_N_char n) EmptyString) = [48 + Z.of_N n].
Proof.
  intros Hn. assert (n = 0 \/ n = 1 \/ n = 2 \/ n = 3 \/ n = 4 \/ n = 5 \/ n = 6 \/ n = 7 \/ n = 8 \/ n = 9)%N as Hc by lia.
  by repeat destruct Hc as [->|Hc]; subst.
Qed.

Lemma pretty_digits (n : N) :
  forallb ascii_digit (u (pretty n)) = true /\ u (pretty n) <> [] /\ digits_value (u (pretty n)) = Z.of_N n /\
  (n <> 0%N -> 10 ^ (Z.of_nat (length (u (pretty n))) - 1) <= Z.of_N n).
Proof.
  unfold pretty, pretty_N. destruct (decide (n = 0%N)) as [->|Hn]; [done|].
  enough (forall s, 0 < n -> exists ds, u (pretty_N_go n s) = ds ++ u s /\ forallb ascii_digit ds = true /\
    ds <> [] /\ digits_value ds = Z.of_N n /\ (10 ^ (Z.of_nat (length ds) - 1) <= Z.of_N n)%Z)%N as Hgo.
  { destruct (Hgo ""%string) as (ds & -> & H1 & H2 & H3 & H4); [lia|]. unfold u. simpl. by rewrite app_nil_r. }
  induction (N.lt_wf_0 n) as [n _ IH]. intros s Hpos. rewrite pretty_N_go_step by done.
  set (c := pretty_N_char (n `mod` 10)).
  assert (Hc : u (String c s) = [48 + Z.of_N (n `mod` 10)] ++ u s).
  { rewrite <- pretty_N_char_digit by (apply N.mod_lt; lia). done. }
  destruct (decide (n / 10 = 0)%N) as [Hz|Hz].
  - rewrite Hz, pretty_N_go_0, Hc. eexists. split; [done|].
    assert (n < 10)%N by (apply N.div_small_iff in Hz; lia). rewrite N.mod_small by done.
    split; [unfold ascii_digit; simpl; lia|]. split; [done|]. unfold digits_value. simpl. lia.
  - destruct (IH (n / 10)%N) with (s := String c s) as (ds & -> & H1 & H2 & H3 & H4);
      [apply N.div_lt; lia|lia|lia|]. rewrite Hc, app_assoc. eexists. split; [done|]. split_and!.
    + rewrite forallb_app, H1. pose proof (N.mod_lt n 10). unfold ascii_digit. simpl. lia.
    + by destruct ds.
    + unfold digits_value in *. rewrite foldl_app, H3. simpl.
      pose proof (N.div_mod n 10). lia.
    + rewrite length_app. simpl length. destruct ds as [|d ds]; [done|]. rewrite length_cons in *.
      replace (Z.of_nat (S (length ds) + 1) - 1) with (Z.succ (Z.of_nat (length ds))) by lia.
      replace (Z.of_nat (S (length ds)) - 1) with (Z.of_nat (length ds)) in H4 by lia.
      rewrite Z.pow_succ_r by lia. pose proof (N.div_mod n 10). lia.
Qed.

Lemma str_of_int_text n :
  exists ds, str_of_int n = (if n <? 0 then [45] else []) ++ ds /\ forallb ascii_digit ds = true /\ ds <> [] /\
    digits_value ds = Z.abs n /\ (n <> 0 -> 10 ^ (Z.of_nat (length ds) - 1) <= Z.abs n) /\
    (n = 0 -> length ds = 1%nat).
Proof.
  unfold str_of_int, pretty, pretty_Z. destruct n as [|p|p].
  - by exists (u "0").
  - exists (u (pretty (N.pos p))). destruct (pretty_digits (N.pos p)) as (H1 & H2 & H3 & H4).
    split_and!; [done..| |done]. intros _. by apply H4.
  - exists (u (pretty (N.pos p))). destruct (pretty_digits (N.pos p)) as (H1 & H2 & H3 & H4). rewrite u_app.
    split_and!; [done..| |done]. intros _. by apply H4.
Qed.

(** [int(str(n)) == n] *)
Lemma py_int_str `{PyDigits} n : py_int (str_of_int n) = Some n.
Proof.
  destruct (str_of_int_text n) as (ds & -> & H1 & H2 & H3 & _). rewrite py_int_digits by done.
  f_equal. destruct (n <? 0) eqn:E; lia.
Qed.

(** *** Digits of a fixed width *)

Fixpoint digits_of (w : nat) (n : Z) : pystr :=
  match w with O => [] | S w => digits_of w (n / 10) ++ [48 + n mod 10] end.

(** [f"{n:0wd}"] of a number that is not negative *)
Definition zero_padded (w : nat) (n : Z) : pystr :=
  replicate (w - length (str_of_int n)) 48 ++ str_of_int n.

Lemma digits_of_value w s : length s = w -> forallb ascii_digit s = true -> digits_of w (digits_value s) = s.
Proof.
  revert s. induction w as [|w IH]; intros s Hl Hs; [by destruct s|].
  destruct s as [|c s _] using rev_ind; [done|]. rewrite length_app in Hl. simpl in Hl.
  rewrite forallb_app in Hs. apply andb_prop in Hs as [Hs Hc]. simpl in Hc. cbn [digits_of].
  specialize (IH s ltac:(lia) Hs). unfold digits_value in *. rewrite foldl_app. simpl. unfold ascii_digit in Hc.
  set (v := foldl _ 0 s) in *.
  rewrite <- (Z.div_unique (10 * v + (c - 48)) 10 v (c - 48)) by lia.
  rewrite <- (Z.mod_unique (10 * v + (c - 48)) 10 v (c - 48)) by lia.
  rewrite IH. do 2 f_equal. lia.
Qed.

Lemma digits_value_zeros k s : digits_value (replicate k 48 ++ s) = digits_value s.
Proof. induction k as [|k IH]; [done|]. exact IH. Qed.

Lemma zero_padded_digits w n :
  (1 <= w)%nat -> 0 <= n < 10 ^ Z.of_nat w -> zero_padded w n = digits_of w n.
Proof.
  intros Hw Hn. unfold zero_padded.
  destruct (str_of_int_text n) as (ds & -> & H1 & H2 & H3 & H4 & H5).
  destruct (Z.ltb_spec n 0); [lia|]. cbn [app]. rewrite Z.abs_eq in * by lia.
  assert (Hl : (length ds <= w)%nat).
  { destruct (Z.eqb_spec n 0) as [->|Hne]; [rewrite H5 by done; lia|].
    destruct (Nat.le_gt_cases (length ds) w) as [|Hgt]; [done|exfalso].
    pose proof (Z.pow_le_mono_r 10 (Z.of_nat w) (Z.of_nat (length ds) - 1) ltac:(lia) ltac:(lia)).
    specialize (H4 Hne). lia. }
  rewrite <- H3, <- (digits_value_zeros (w - length ds) ds). symmetry. apply digits_of_value.
  - rewrite length_app, length_replicate. lia.
  - rewrite forallb_app, H1, andb_true_r. apply forallb_forall. intros c Hc.
    apply list_elem_of_In, elem_of_replicate in Hc as [-> _]. done.
Qed.

Lemma digits_of_facts w n :
  0 <= n -> length (digits_of w n) = w /\ forallb ascii_digit (digits_of w n) = true /\
  digits_value (digits_of w n) = n mod 10 ^ Z.of_nat w.
Proof.
  revert n. induction w as [|w IH]; intros n Hn.
  - split_and!; [done..|]. by rewrite Z.mod_1_r.
  - destruct (IH (n / 10)) as (H1 & H2 & H3); [apply Z.div_pos; lia|]. cbn [digits_of].
    pose proof (Z.mod_pos_bound n 10 ltac:(lia)). split_and!.
    + rewrite length_app, H1. simpl. lia.
    + rewrite forallb_app, H2. unfold ascii_digit. simpl. lia.
    + unfold digits_value in *. rewrite foldl_app, H3. simpl.
      rewrite Nat2Z.inj_succ, Z.pow_succ_r, Z.rem_mul_r by lia. lia.
Qed.

Lemma digits_of_app a b n : digits_of (a + b) n = digits_of a (n / 10 ^ Z.of_nat b) ++ digits_of b n.
Proof.
  revert n. induction b as [|b IH]; intros n.
  - rewrite Nat.add_0_r, app_nil_r. by rewrite Z.div_1_r.
  - rewrite Nat.add_succ_r. cbn [digits_of]. rewrite IH, <- app_assoc. do 2 f_equal.
    rewrite Nat2Z.inj_succ, Z.pow_succ_r, Z.div_div by lia. done.
Qed.

(** ** Rounding errors *)

Lemma half_even_error n p : 0 < p -> 2 * Z.abs (n - p * round_half_even n p) <= p.
Proof.
  intros Hp. unfold round_half_even. pose proof (Z.div_mod n p ltac:(lia)). pose proof (Z.mod_pos_bound n p Hp).
  set (q := n / p) in *. set (r := n mod p) in *.
  destruct (Z.ltb_spec (2 * r) p); [lia|]. destruct (Z.ltb_spec p (2 * r)); [lia|]. destruct (Z.even q); lia.
Qed.

(** The integer that is nearer than a half. *)
Lemma half_even_near n p k : 0 < p -> 2 * Z.abs (n - k * p) < p -> round_half_even n p = k.
Proof. intros Hp Hk. pose proof (half_even_error n p Hp). nia. Qed.

Lemma half_even_mono n p lo : 0 < p -> lo * p <= n -> lo <= round_half_even n p.
Proof.
  intros Hp Hn. unfold round_half_even. pose proof (Z.div_le_lower_bound n p lo Hp ltac:(lia)).
  repeat case_match; lia.
Qed.

Lemma half_even_upper n p hi : 0 < p -> n <= hi * p -> round_half_even n p <= hi.
Proof. intros Hp Hn. pose proof (half_even_error n p Hp). nia. Qed.

Lemma pow2_pos k : 0 < 2 ^ Z.max k 0.
Proof. apply Z.pow_pos_nonneg; lia. Qed.

(** Moving a factor of two across. *)
Lemma pow2_shift k j a b :
  0 <= j -> 0 <= a -> 0 <= b ->
  (a * 2 ^ Z.max k 0 <= b * 2 ^ Z.max (- k) 0 <->
   a * 2 ^ j * 2 ^ Z.max (k - j) 0 <= b * 2 ^ Z.max (- (k - j)) 0).
Proof.
  intros Hj Ha Hb. destruct (Z.leb_spec k 0).
  - rewrite (Z.max_r k 0), (Z.max_r (k - j) 0), (Z.max_l (- k) 0), (Z.max_l (- (k - j)) 0) by lia.
    replace (- (k - j)) with (- k + j) by lia. rewrite Z.pow_add_r by lia.
    pose proof (Z.pow_pos_nonneg 2 j ltac:(lia) Hj). nia.
  - destruct (Z.leb_spec (k - j) 0).
    + rewrite (Z.max_l k 0), (Z.max_r (k - j) 0), (Z.max_r (- k) 0), (Z.max_l (- (k - j)) 0) by lia.
      replace j with (k + - (k - j)) at 1 by lia. rewrite Z.pow_add_r by lia.
      pose proof (Z.pow_pos_nonneg 2 (- (k - j)) ltac:(lia) ltac:(lia)). nia.
    + rewrite (Z.max_l k 0), (Z.max_l (k - j) 0), (Z.max_r (- k) 0), (Z.max_r (- (k - j)) 0) by lia.
      replace k with (j + (k - j)) at 1 by lia. rewrite Z.pow_add_r by lia.
      split; intros; nia.
Qed.

(** [2 ^ k <= n / d < 2 ^ (k + 1)] *)
Lemma ratio_log2_spec n d :
  0 < n -> 0 < d -> let k := ratio_log2 n d in
  d * 2 ^ Z.max k 0 <= n * 2 ^ Z.max (- k) 0 /\ n * 2 ^ Z.max (- (k + 1)) 0 < d * 2 ^ Z.max (k + 1) 0.
Proof.
  intros Hn Hd. unfold ratio_log2. set (k := Z.log2 n - Z.log2 d).
  pose proof (Z.log2_spec n Hn) as [Hn1 Hn2]. pose proof (Z.log2_spec d Hd) as [Hd1 Hd2].
  pose proof (Z.log2_nonneg n). pose proof (Z.log2_nonneg d).
  assert (Hup : n * 2 ^ Z.max (- (k + 1)) 0 < d * 2 ^ Z.max (k + 1) 0).
  { destruct (Z.leb_spec 0 (k + 1)).
    - rewrite (Z.max_r (- (k + 1))), (Z.max_l (k + 1)) by lia.
      replace (Z.succ (Z.log2 n)) with (Z.log2 d + (k + 1)) in Hn2 by lia. rewrite Z.pow_add_r in Hn2 by lia.
      pose proof (Z.pow_pos_nonneg 2 (k + 1) ltac:(lia) ltac:(lia)). nia.
    - rewrite (Z.max_l (- (k + 1))), (Z.max_r (k + 1)) by lia.
      assert (2 ^ Z.log2 d = 2 ^ Z.succ (Z.log2 n) * 2 ^ (- (k + 1))) as He.
      { rewrite <- Z.pow_add_r by lia. f_equal. lia. }
      pose proof (Z.pow_pos_nonneg 2 (- (k + 1)) ltac:(lia) ltac:(lia)). nia. }
  destruct (Z.leb_spec (d * 2 ^ Z.max k 0) (n * 2 ^ Z.max (- k) 0)) as [Hle|Hlt]; [done|].
  replace (k - 1 + 1) with k by lia. split; [|done].
  destruct (Z.leb_spec 0 (k - 1)).
  - rewrite (Z.max_r (- (k - 1))), (Z.max_l (k - 1)) by lia.
    assert (2 ^ Z.log2 n = 2 ^ Z.succ (Z.log2 d) * 2 ^ (k - 1)) as He.
    { rewrite <- Z.pow_add_r by lia. f_equal. lia. }
    pose proof (Z.pow_pos_nonneg 2 (k - 1) ltac:(lia) ltac:(lia)). nia.
  - rewrite (Z.max_l (- (k - 1))), (Z.max_r (k - 1)) by lia.
    assert (2 ^ Z.succ (Z.log2 d) = 2 ^ Z.log2 n * 2 ^ (- (k - 1))) as He.
    { rewrite <- Z.pow_add_r by lia. f_equal. lia. }
    pose proof (Z.pow_pos_nonneg 2 (- (k - 1)) ltac:(lia) ltac:(lia)). nia.
Qed.

Lemma magnitude_small x : 0 <= x < SIGN -> magnitude x = x.
Proof.
  intros Hx. unfold magnitude, SIGN in *. rewrite land_mask by lia.
  by apply Z.mod_small.
Qed.

Lemma negative_small x : 0 <= x < SIGN -> negative x = false.
Proof. intros Hx. unfold negative, SIGN in *. apply Z.testbit_false; [lia|]. by rewrite Z.div_small. Qed.

(** The encoding of [m * 2 ^ e]; the carry of a full significand goes into the
    exponent. *)
Lemma float_ratio_encode m e :
  2 ^ 52 <= m <= 2 ^ 53 -> -1074 <= e -> (e + 1074) * 2 ^ 52 + m < INF ->
  let '(a, b) := float_ratio ((e + 1074) * 2 ^ 52 + m) in
  0 < a /\ 0 < b /\ a * 2 ^ Z.max (- e) 0 = m * 2 ^ Z.max e 0 * b.
Proof.
  intros Hm He Hi. unfold float_ratio, float_parts. set (B := (e + 1074) * 2 ^ 52 + m) in *.
  rewrite magnitude_small by (unfold INF, SIGN in *; lia).
  destruct (Z.eqb_spec m (2 ^ 53)) as [->|Hne].
  - replace B with ((e + 1076) * 2 ^ 52) by lia. rewrite Z.div_mul, Z.mod_mul by lia.
    destruct (Z.eqb_spec (e + 1076) 0); [lia|]. replace (e + 1076 - 1075) with (e + 1) by lia.
    pose proof (pow2_pos (e + 1)). pose proof (pow2_pos (- (e + 1))). split_and!; [lia|lia|].
    destruct (Z.leb_spec 0 e).
    + rewrite (Z.max_l (e + 1)), (Z.max_r (- e)), (Z.max_l e), (Z.max_r (- (e + 1))) by lia.
      rewrite Z.pow_add_r by lia. lia.
    + rewrite (Z.max_r (e + 1)), (Z.max_l (- e)), (Z.max_r e), (Z.max_l (- (e + 1))) by lia.
      replace (- e) with (1 + - (e + 1)) by lia. rewrite Z.pow_add_r by lia. lia.
  - replace B with ((e + 1075) * 2 ^ 52 + (m - 2 ^ 52)) by lia.
    rewrite <- (Z.div_unique _ (2 ^ 52) (e + 1075) (m - 2 ^ 52)) by lia.
    rewrite <- (Z.mod_unique _ (2 ^ 52) (e + 1075) (m - 2 ^ 52)) by lia.
    destruct (Z.eqb_spec (e + 1075) 0); [lia|]. replace (e + 1075 - 1075) with e by lia.
    replace (m - 2 ^ 52 + 2 ^ 52) with m by lia.
    pose proof (pow2_pos e). pose proof (pow2_pos (- e)). split_and!; nia.
Qed.

(** The relative error of a rounding to a normal number is at most [2 ^ -53]. *)
Lemma round_ratio_error n d :
  0 < n -> 0 < d -> -1022 <= ratio_log2 n d -> round_ratio n d < INF ->
  let '(a, b) := float_ratio (round_ratio n d) in
  0 < a /\ 0 < b /\ 2 ^ 53 * Z.abs (a * d - n * b) <= n * b.
Proof.
  intros Hn Hd Hk Hi. destruct (ratio_log2_spec n d Hn Hd) as [Hlo Hhi]. unfold round_ratio in *.
  destruct (Z.eqb_spec n 0); [lia|]. set (k := ratio_log2 n d) in *.
  rewrite (Z.max_l (k - 52)) in * by lia. set (e := k - 52) in *.
  set (num := n * 2 ^ Z.max (- e) 0) in *. set (den := d * 2 ^ Z.max e 0) in *.
  set (m := round_half_even num den) in *.
  pose proof (pow2_pos e) as Hpe. pose proof (pow2_pos (- e)) as Hpe'.
  assert (Hden : 0 < den) by (unfold den; nia).
  assert (H52 : 2 ^ 52 * den <= num).
  { apply (pow2_shift k 52) in Hlo; [|lia..]. fold e in Hlo. unfold num, den. lia. }
  assert (H53 : num <= 2 ^ 53 * den).
  { destruct (Z.le_gt_cases num (2 ^ 53 * den)) as [|Hgt]; [done|exfalso].
    assert (~ d * 2 ^ Z.max (k + 1) 0 <= n * 2 ^ Z.max (- (k + 1)) 0) as Hc by lia. apply Hc.
    apply (pow2_shift (k + 1) 53); [lia..|]. replace (k + 1 - 53) with e by lia. unfold num, den in *. lia. }
  assert (Hm : 2 ^ 52 <= m <= 2 ^ 53).
  { split; [by apply half_even_mono|by apply half_even_upper]. }
  rewrite Z.min_r in * by (unfold INF in *; lia).
  pose proof (float_ratio_encode m e Hm ltac:(lia) ltac:(lia)) as Hr.
  destruct (float_ratio _) as [a b]. destruct Hr as (Ha & Hb & Hab). split_and!; [done..|].
  pose proof (half_even_error num den Hden) as Herr. fold m in Herr.
  set (P := 2 ^ Z.max (- e) 0) in *. set (Q := 2 ^ Z.max e 0) in *.
  assert (Hx : (a * d - n * b) * P = (m * den - num) * b).
  { unfold num, den. rewrite Z.mul_sub_distr_r, <- (Z.mul_assoc a), (Z.mul_comm d), Z.mul_assoc, Hab. ring. }
  assert (Hx' : Z.abs (a * d - n * b) * P = Z.abs (num - den * m) * b).
  { transitivity (Z.abs ((a * d - n * b) * P)); [by rewrite Z.abs_mul, (Z.abs_eq P) by lia|].
    rewrite Hx, Z.abs_mul, (Z.abs_eq b) by lia. f_equal. rewrite <- Z.abs_opp. f_equal. ring. }
  apply (Z.mul_le_mono_pos_r _ _ P); [lia|].
  rewrite <- Z.mul_assoc, Hx'. replace (n * b * P) with (num * b) by (unfold num; ring).
  rewrite Z.mul_assoc. apply Z.mul_le_mono_nonneg_r; [lia|]. lia.
Qed.

(** A float near [k] is rounded to [k]. *)
Lemma float_round_near x k :
  0 <= x < INF -> let '(a, b) := float_ratio x in 0 < b -> 2 * Z.abs (a - k * b) < b -> float_round x = Some k.
Proof.
  intros Hx. unfold float_round. destruct (float_ratio x) as [a b] eqn:E. intros Hb Hk.
  unfold isfinite. rewrite magnitude_small by (unfold INF, SIGN in *; lia).
  destruct (Z.ltb_spec x INF); [|lia]. cbn [negb]. rewrite negative_small by (unfold INF, SIGN in *; lia).
  by rewrite (half_even_near a b k).
Qed.

Lemma ratio_log2_upper n d j : 0 < n -> 0 < d -> 0 <= j -> n < 2 ^ j * d -> ratio_log2 n d < j.
Proof.
  intros Hn Hd Hj Hlt. destruct (ratio_log2_spec n d Hn Hd) as [Hlo _]. set (k := ratio_log2 n d) in *.
  destruct (Z.lt_ge_cases k j) as [|Hge]; [done|exfalso].
  rewrite (Z.max_l k 0), (Z.max_r (- k) 0) in Hlo by lia. rewrite Z.pow_0_r in Hlo.
  pose proof (Z.pow_le_mono_r 2 j k ltac:(lia) Hge). nia.
Qed.

Lemma ratio_log2_lower n d j : 0 < n -> 0 < d -> 0 <= j -> d <= 2 ^ j * n -> - j <= ratio_log2 n d.
Proof.
  intros Hn Hd Hj Hle. destruct (ratio_log2_spec n d Hn Hd) as [_ Hhi]. set (k := ratio_log2 n d) in *.
  destruct (Z.le_gt_cases (- j) k) as [|Hgt]; [done|exfalso].
  rewrite (Z.max_l (- (k + 1)) 0), (Z.max_r (k + 1) 0) in Hhi by lia. rewrite Z.pow_0_r in Hhi.
  pose proof (Z.pow_le_mono_r 2 j (- (k + 1)) ltac:(lia) ltac:(lia)). nia.
Qed.

(** Ratios of moderate size are rounded without overflow. *)
Lemma round_ratio_range n d :
  0 < n -> 0 < d -> -1022 <= ratio_log2 n d <= 1000 -> 0 <= round_ratio n d < INF.
Proof.
  intros Hn Hd Hk. destruct (ratio_log2_spec n d Hn Hd) as [_ Hhi]. unfold round_ratio.
  destruct (Z.eqb_spec n 0); [lia|]. set (k := ratio_log2 n d) in *.
  rewrite (Z.max_l (k - 52)) by lia. set (e := k - 52) in *.
  set (num := n * 2 ^ Z.max (- e) 0). set (den := d * 2 ^ Z.max e 0).
  pose proof (pow2_pos e). pose proof (pow2_pos (- e)).
  assert (0 < den) by (unfold den; nia).
  assert (0 <= round_half_even num den) by (apply half_even_mono; [lia|unfold num; nia]).
  assert (round_half_even num den <= 2 ^ 53).
  { apply half_even_upper; [lia|]. destruct (Z.le_gt_cases num (2 ^ 53 * den)) as [|Hgt]; [done|exfalso].
    assert (~ d * 2 ^ Z.max (k + 1) 0 <= n * 2 ^ Z.max (- (k + 1)) 0) as Hc by lia. apply Hc.
    apply (pow2_shift (k + 1) 53); [lia..|]. replace (k + 1 - 53) with e by lia. unfold num, den in *. lia. }
  unfold INF. lia.
Qed.

(** Nanoseconds survive the detour through a float: a decimal fraction of at most
    nine digits, read as a float and multiplied by [10 ^ 9], is rounded to its
    exact value. *)
Lemma fraction_round n L :
  0 <= L <= 9 -> 0 <= n < 10 ^ L ->
  float_round (float_mul_int (round_ratio n (10 ^ L)) (10 ^ 9)) = Some (n * 10 ^ (9 - L)).
Proof.
  intros HL Hn. destruct (Z.eqb_spec n 0) as [->|Hne]; [by vm_compute|].
  assert (Hd : 0 < 10 ^ L) by (apply Z.pow_pos_nonneg; lia).
  assert (Hd9 : 10 ^ L * 10 ^ (9 - L) = 10 ^ 9) by (rewrite <- Z.pow_add_r by lia; f_equal; lia).
  assert (Hs : 0 < 10 ^ (9 - L)) by (apply Z.pow_pos_nonneg; lia).
  pose proof (ratio_log2_upper n (10 ^ L) 1 ltac:(lia) Hd ltac:(lia) ltac:(lia)) as Hk1.
  pose proof (ratio_log2_lower n (10 ^ L) 30 ltac:(lia) Hd ltac:(lia) ltac:(nia)) as Hk2.
  pose proof (round_ratio_range n (10 ^ L) ltac:(lia) Hd ltac:(lia)) as Hx.
  pose proof (round_ratio_error n (10 ^ L) ltac:(lia) Hd ltac:(lia) ltac:(lia)) as He.
  unfold float_mul_int. set (x := round_ratio n (10 ^ L)) in *. destruct (float_ratio x) as [a b].
  destruct He as (Ha & Hb & He). set (k := n * 10 ^ (9 - L)).
  assert (Hk : 0 < k < 10 ^ 9) by (unfold k; nia).
  assert (He' : 2 ^ 53 * Z.abs (a * 10 ^ 9 - k * b) <= k * b).
  { replace (a * 10 ^ 9 - k * b) with ((a * 10 ^ L - n * b) * 10 ^ (9 - L)) by (unfold k; rewrite <- Hd9; ring).
    rewrite Z.abs_mul, (Z.abs_eq (10 ^ (9 - L))) by lia. unfold k. nia. }
  rewrite negative_small by (unfold INF, SIGN in *; lia). cbn [xorb]. cbn [with_sign].
  change (Z.abs (10 ^ 9)) with (10 ^ 9). change (10 ^ 9 <? 0) with false. cbn [with_sign].
  set (A := a * 10 ^ 9) in *. assert (HA : 0 < A) by lia.
  pose proof (ratio_log2_upper A b 31 HA Hb ltac:(lia) ltac:(nia)) as Hj1.
  pose proof (ratio_log2_lower A b 1 HA Hb ltac:(lia) ltac:(nia)) as Hj2.
  pose proof (round_ratio_range A b HA Hb ltac:(lia)) as Hy.
  pose proof (round_ratio_error A b HA Hb ltac:(lia) ltac:(lia)) as Hey.
  pose proof (float_round_near (round_ratio A b) k Hy) as Hnear.
  destruct (float_ratio (round_ratio A b)) as [a2 b2]. destruct Hey as (Ha2 & Hb2 & Hey).
  apply Hnear; [lia|]. apply (Z.mul_lt_mono_pos_r b); [lia|].
  assert (Htri : Z.abs (a2 - k * b2) * b <= Z.abs (a2 * b - A * b2) + b2 * Z.abs (A - k * b)).
  { rewrite <- (Z.abs_eq b) at 1 by lia. rewrite <- Z.abs_mul. rewrite <- (Z.abs_eq b2) at 3 by lia.
    rewrite <- Z.abs_mul. replace ((a2 - k * b2) * b) with ((a2 * b - A * b2) + b2 * (A - k * b)) by ring.
    apply Z.abs_triangle. }
  assert (HAk : A <= 2 * (k * b)) by lia.
  assert (2 ^ 53 * (b2 * Z.abs (A - k * b)) <= k * b * b2) by nia.
  assert (A * b2 <= 2 * (k * b * b2)) by nia.
  assert (k * b * b2 < 10 ^ 9 * (b * b2)) by nia.
  replace (2 * Z.abs (a2 - k * b2) * b) with (2 * (Z.abs (a2 - k * b2) * b)) by ring. lia.
Qed.

(** *** Texts of fractions *)

Lemma with_sign_bits neg x :
  0 <= x < SIGN -> negative (with_sign neg x) = neg /\ magnitude (with_sign neg x) = x.
Proof.
  intros Hx. destruct neg; cbn [with_sign]; [|split; [by apply negative_small|by apply magnitude_small]].
  unfold SIGN in *. split.
  - unfold negative. apply Z.testbit_true; [lia|]. change (2 ^ 63) with (1 * 2 ^ 63) at 1.
    rewrite Z.div_add_l, (Z.div_small x) by lia. done.
  - unfold magnitude, SIGN. rewrite land_mask by lia. change (2 ^ 63) with (1 * 2 ^ 63) at 1.
    rewrite Z.add_comm, Z.mod_add, Z.mod_small by lia. done.
Qed.

Lemma float_ratio_sign neg x : 0 <= x < SIGN -> float_ratio (with_sign neg x) = float_ratio x.
Proof.
  intros Hx. unfold float_ratio, float_parts. destruct (with_sign_bits neg x Hx) as [_ ->].
  by rewrite magnitude_small.
Qed.

Lemma round_ratio_finite n L : 0 <= L <= 9 -> 0 <= n < 10 ^ L -> 0 <= round_ratio n (10 ^ L) < INF.
Proof.
  intros HL Hn. destruct (Z.eqb_spec n 0) as [->|Hne]; [done|].
  assert (Hd : 0 < 10 ^ L) by (apply Z.pow_pos_nonneg; lia).
  pose proof (Z.pow_le_mono_r 10 L 9 ltac:(lia) ltac:(lia)).
  pose proof (ratio_log2_upper n (10 ^ L) 1 ltac:(lia) Hd ltac:(lia) ltac:(lia)).
  pose proof (ratio_log2_lower n (10 ^ L) 30 ltac:(lia) Hd ltac:(lia) ltac:(lia)).
  apply round_ratio_range; lia.
Qed.

Lemma round_ratio_bound n d : 0 <= n -> 0 < d -> 0 <= round_ratio n d <= INF.
Proof.
  intros Hn Hd. unfold round_ratio. destruct (n =? 0); [done|]. set (e := Z.max _ (-1074)).
  pose proof (pow2_pos e). pose proof (pow2_pos (- e)).
  assert (0 <= round_half_even (n * 2 ^ Z.max (- e) 0) (d * 2 ^ Z.max e 0)) by (apply half_even_mono; nia).
  unfold INF. lia.
Qed.

Lemma float_ratio_pos x : let '(a, b) := float_ratio x in 0 <= a /\ 0 < b.
Proof.
  unfold float_ratio, float_parts. pose proof (Z.mod_pos_bound (magnitude x) (2 ^ 52) ltac:(lia)).
  destruct (_ =? 0); split; try apply pow2_pos; apply Z.mul_nonneg_nonneg; try apply Z.lt_le_incl, pow2_pos; lia.
Qed.

(** The product of a signed fraction and [10 ^ 9]. *)
Lemma fraction_round_sign neg n L :
  0 <= L <= 9 -> 0 <= n < 10 ^ L ->
  float_round (float_mul_int (with_sign neg (round_ratio n (10 ^ L))) (10 ^ 9)) =
    Some (if neg then - (n * 10 ^ (9 - L)) else n * 10 ^ (9 - L)).
Proof.
  intros HL Hn. pose proof (fraction_round n L HL Hn) as Hr. pose proof (round_ratio_finite n L HL Hn) as Hx.
  set (x := round_ratio n (10 ^ L)) in *. assert (Hx' : 0 <= x < SIGN) by (unfold INF, SIGN in *; lia).
  destruct neg; [|done]. unfold float_mul_int in *. rewrite float_ratio_sign by done.
  destruct (with_sign_bits true x Hx') as [-> _]. rewrite negative_small in Hr by done.
  pose proof (float_ratio_pos x) as Hab. destruct (float_ratio x) as [a b].
  pose proof (round_ratio_bound (a * Z.abs (10 ^ 9)) b ltac:(lia) ltac:(lia)) as Hy.
  change (10 ^ 9 <? 0) with false in *. cbn [xorb] in *. set (y := round_ratio (a * Z.abs (10 ^ 9)) b) in *.
  clearbody y. change (with_sign false y) with y in Hr. assert (Hy' : 0 <= y < SIGN) by (unfold INF, SIGN in *; lia).
  unfold float_round, isfinite in *. rewrite float_ratio_sign by done.
  destruct (with_sign_bits true y Hy') as [-> ->]. rewrite magnitude_small, negative_small in Hr by done.
  destruct (y <? INF); [|done]. cbn [negb] in *. destruct (float_ratio y). by injection Hr as ->.
Qed.

Lemma digits_not_name s t : s <> [] -> forallb ascii_digit (take 1 s) = true -> t <> [] ->
  forallb (fun c => negb (ascii_digit c)) t = true -> lower_text s <> t.
Proof.
  destruct s as [|c s]; [done|]. intros _ Hs Ht Hn He. destruct t as [|d t]; [done|].
  simpl in Hs, Hn. unfold lower_text, ascii_lower in He. simpl in He. injection He as He _. subst d.
  unfold ascii_digit, lower_char in *. destruct ((65 <=? c) && (c <=? 90)) eqn:E; lia.
Qed.

Lemma span_everything p s : forallb p s = true -> span p s = (s, []).
Proof.
  induction s as [|c s IH]; [done|]. simpl. intros [-> Hs]%andb_prop. by rewrite (IH Hs).
Qed.

(** The float of a fraction with digits behind a zero. *)
Lemma py_float_fraction `{PyDigits} (neg : bool) ds :
  forallb ascii_digit ds = true ->
  py_float ((if neg then u "-0" else u "0") ++ 46 :: ds) =
    Some (with_sign neg (round_ratio (digits_value ds) (10 ^ Z.of_nat (length ds)))).
Proof.
  intros Hds. unfold py_float.
  rewrite number_text_plain; [|rewrite forallb_app; simpl; rewrite (digits_plain ds) by done; by destruct neg].
  assert (take_sign ((if neg then u "-0" else u "0") ++ 46 :: ds) = (neg, 48 :: 46 :: ds)) as -> by by destruct neg.
  rewrite decide_False by (intros [?|?]; by eapply (digits_not_name (48 :: 46 :: ds))).
  rewrite decide_False by (by apply digits_not_name).
  unfold float_digits. cbn [span]. change (ascii_digit 48) with true. change (ascii_digit 46) with false.
  cbv iota. change (46 =? 46) with true. cbv iota. rewrite span_everything by done. cbn [app take_exponent fmap option_fmap option_map].
  do 2 f_equal. unfold decimal_float. rewrite Z.max_r, Z.max_l by lia. rewrite Z.pow_0_r, Z.mul_1_r.
  f_equal. f_equal. lia.
Qed.

Module Examples.
#[local] Existing Instance ascii_digits.

Example float_tenth : py_float (u "0.1") = Some 0x3FB999999999999A.
Proof. vm_compute. reflexivity. Qed.
Example float_underscore : py_float (u " -1_0.5E-1") = Some (SIGN + 0x3FF0CCCCCCCCCCCD).
Proof. vm_compute. reflexivity. Qed.
Example float_max : py_float (u "1.7976931348623157e308") = Some 0x7FEFFFFFFFFFFFFF.
Proof. vm_compute. reflexivity. Qed.
Example float_over : py_float (u "1.7976931348623159e308") = Some INF.
Proof. vm_compute. reflexivity. Qed.
Example float_tiny : py_float (u "5e-324") = Some 1 /\ py_float (u "2e-324") = Some 0.
Proof. split; vm_compute; reflexivity. Qed.
Example float_bad : py_float (u "1_.5") = None /\ py_float (u ".") = None /\ py_float (u "+Infinity") = Some INF.
Proof. split_and!; vm_compute; reflexivity. Qed.
Example int_texts : py_int (u "+1_000 ") = Some 1000 /\ py_int (u "-0") = Some 0 /\ py_int (u "1e3") = None.
Proof. split_and!; vm_compute; reflexivity. Qed.
Example round_halves : float_round 0x4004000000000000 = Some 2 /\ float_round 0xC00C000000000000 = Some (-4).
Proof. split; vm_compute; reflexivity. Qed.
Example integers : float_of_integer 9007199254740993 = Some 0x4340000000000000 /\ float_of_integer (10 ^ 400) = None.
Proof. split; vm_compute; reflexivity. Qed.

End Examples.
