(* ===== verification/PyTime.v ===== *)
(** * The calendar of [datetime]

    What the SDK uses of Python's [datetime]: the ordinals of the proleptic
    Gregorian calendar, the conversion of seconds to a date and a time of day,
    and [strptime] with the format ["%Y-%m-%dT%H:%M:%S"].  A [\d] of the regular
    expression of [strptime] is any digit of the Unicode tables. *)
From S2P Require Import Prelude PyStr PyText Bytes PyNumber.
#[local] Open Scope Z_scope.

(** ** Ordinals *)

Definition is_leap (y : Z) : bool := (y mod 4 =? 0) && (negb (y mod 100 =? 0) || (y mod 400 =? 0)).

(** Days in the months before month [m] of a common year. *)
Definition DAYS_BEFORE_MONTH : list Z := [0; 0; 31; 59; 90; 120; 151; 181; 212; 243; 273; 304; 334; 365].

Definition days_before_month (y m : Z) : Z :=
  nth (Z.to_nat m) DAYS_BEFORE_MONTH 0 + (if (2 <? m) && is_leap y then 1 else 0).
Definition days_in_month (y m : Z) : Z :=
  nth (Z.to_nat (m + 1)) DAYS_BEFORE_MONTH 0 - nth (Z.to_nat m) DAYS_BEFORE_MONTH 0 +
  (if (m =? 2) && is_leap y then 1 else 0).
Definition days_before_year (y : Z) : Z :=
  (y - 1) * 365 + (y - 1) / 4 - (y - 1) / 100 + (y - 1) / 400.

Definition ymd2ord (y m d : Z) : Z := days_before_year y + days_before_month y m + d.

(** [_ord2ymd] *)
Definition ord2ymd (n : Z) : Z * Z * Z :=
  let n := n - 1 in
  let n400 := n / 146097 in let n := n mod 146097 in
  let n100 := n / 36524 in let n := n mod 36524 in
  let n4 := n / 1461 in let n := n mod 1461 in
  let n1 := n / 365 in let n := n mod 365 in
  let year := n400 * 400 + 1 + n100 * 100 + n4 * 4 + n1 in
  if (n1 =? 4) || (n100 =? 4) then (year - 1, 12, 31) else
  let leap := (n1 =? 3) && (negb (n4 =? 24) || (n100 =? 3)) in
  let month := Z.shiftr (n + 50) 5 in
  let preceding := nth (Z.to_nat month) DAYS_BEFORE_MONTH 0 + (if (2 <? month) && leap then 1 else 0) in
  if n <? preceding then
    let month := month - 1 in
    let preceding := preceding - (nth (Z.to_nat (month + 1)) DAYS_BEFORE_MONTH 0 -
      nth (Z.to_nat month) DAYS_BEFORE_MONTH 0 + (if (month =? 2) && leap then 1 else 0)) in
    (year, month, n - preceding + 1)
  else (year, month, n - preceding + 1).

Definition valid_date (y m d : Z) : bool :=
  (1 <=? y) && (y <=? 9999) && (1 <=? m) && (m <=? 12) && (1 <=? d) && (d <=? days_in_month y m).

Lemma days_in_month_le y m : 1 <= m <= 12 -> days_in_month y m <= 31.
Proof.
  intros Hm. unfold days_in_month. assert (m = 1 \/ m = 2 \/ m = 3 \/ m = 4 \/ m = 5 \/ m = 6 \/ m = 7 \/ m = 8 \/
    m = 9 \/ m = 10 \/ m = 11 \/ m = 12) as Hc by lia.
  repeat destruct Hc as [->|Hc]; subst; simpl; destruct (is_leap y); lia.
Qed.

(** *** The ordinals of one cycle of 400 years *)

(** [p] on [2 ^ k] numbers from [lo], as far as they are below [hi]. *)
Fixpoint check_range (p : Z -> bool) (hi : Z) (k : nat) (lo : Z) : bool :=
  match k with
  | O => (hi <=? lo) || p lo
  | S k => (hi <=? lo) || (check_range p hi k lo && check_range p hi k (lo + 2 ^ Z.of_nat k))
  end.

Lemma check_range_spec p hi k lo r :
  check_range p hi k lo = true -> lo <= r < lo + 2 ^ Z.of_nat k -> r < hi -> p r = true.
Proof.
  revert lo. induction k as [|k IH]; intros lo; cbn [check_range].
  - intros Hc Hr Hh. replace r with lo by (simpl in Hr; lia). destruct (Z.leb_spec hi lo); [simpl in Hr; lia|done].
  - rewrite Nat2Z.inj_succ, Z.pow_succ_r by lia. intros Hc Hr Hh. destruct (Z.leb_spec hi lo); [lia|].
    simpl in Hc. apply andb_prop in Hc as [H1 H2]. destruct (Z.ltb_spec r (lo + 2 ^ Z.of_nat k)).
    + apply (IH lo); [done|lia|done].
    + apply (IH (lo + 2 ^ Z.of_nat k)); [done|lia|done].
Qed.

(** The first day and the length of a year of the cycle. *)
Definition year_ok (i : Z) : bool :=
  (days_before_year (1 + i) =? 36524 * (i / 100) + 1461 * (i mod 100 / 4) + 365 * (i mod 4)) &&
  eqb (is_leap (1 + i)) ((i mod 4 =? 3) && (negb (i mod 100 / 4 =? 24) || (i / 100 =? 3))).

(** Month and day of a day [n] of a year, as [ord2ymd] finds them. *)
Definition month_day (leap : bool) (n : Z) : Z * Z :=
  let month := Z.shiftr (n + 50) 5 in
  let preceding := nth (Z.to_nat month) DAYS_BEFORE_MONTH 0 + (if (2 <? month) && leap then 1 else 0) in
  if n <? preceding then
    let month := month - 1 in
    let preceding := preceding - (nth (Z.to_nat (month + 1)) DAYS_BEFORE_MONTH 0 -
      nth (Z.to_nat month) DAYS_BEFORE_MONTH 0 + (if (month =? 2) && leap then 1 else 0)) in
    (month, n - preceding + 1)
  else (month, n - preceding + 1).

Definition day_ok (leap : bool) (n : Z) : bool :=
  let '(m, d) := month_day leap n in
  (1 <=? m) && (m <=? 12) && (1 <=? d) &&
  (d <=? nth (Z.to_nat (m + 1)) DAYS_BEFORE_MONTH 0 - nth (Z.to_nat m) DAYS_BEFORE_MONTH 0 +
     (if (m =? 2) && leap then 1 else 0)) &&
  (nth (Z.to_nat m) DAYS_BEFORE_MONTH 0 + (if (2 <? m) && leap then 1 else 0) + d =? n + 1).

Lemma years_ok i : 0 <= i < 400 -> year_ok i = true.
Proof. intros Hi. apply (check_range_spec year_ok 400 9 0); [by vm_compute|lia|lia]. Qed.

Lemma days_ok leap n : 0 <= n < 365 -> day_ok leap n = true.
Proof. intros Hn. apply (check_range_spec (day_ok leap) 365 9 0); [by destruct leap; vm_compute|lia|lia]. Qed.

(** A date of the first 400 years and its ordinal. *)
Definition names (n y m d : Z) : Prop :=
  ymd2ord y m d = n /\ 1 <= y <= 400 /\ 1 <= m <= 12 /\ 1 <= d <= days_in_month y m.

(** The last day of a leap year. *)
Lemma last_day y n :
  1 <= y <= 400 -> is_leap y = true -> days_before_year y + 366 = n -> names n y 12 31.
Proof.
  intros Hy Hl Hn. unfold names, ymd2ord, days_before_month, days_in_month. rewrite Hl. simpl.
  split_and!; lia.
Qed.

Lemma cycle_ok r :
  0 <= r < 146097 -> let '(y, m, d) := ord2ymd (r + 1) in names (r + 1) y m d.
Proof.
  intros Hr. unfold ord2ymd. replace (r + 1 - 1) with r by ring. rewrite (Z.div_small r), (Z.mod_small r) by lia.
  pose proof (Z.div_mod r 36524 ltac:(lia)) as E1. pose proof (Z.mod_pos_bound r 36524 ltac:(lia)) as B1.
  set (c := r / 36524) in *. set (r1 := r mod 36524) in *.
  pose proof (Z.div_mod r1 1461 ltac:(lia)) as E2. pose proof (Z.mod_pos_bound r1 1461 ltac:(lia)) as B2.
  set (f := r1 / 1461) in *. set (r2 := r1 mod 1461) in *.
  pose proof (Z.div_mod r2 365 ltac:(lia)) as E3. pose proof (Z.mod_pos_bound r2 365 ltac:(lia)) as B3.
  set (o := r2 / 365) in *. set (n := r2 mod 365) in *. clearbody c r1 f r2 o n. cbv zeta.
  assert (Hidx : forall c f o, 0 <= c < 4 -> 0 <= f < 25 -> 0 <= o < 4 ->
    (100 * c + 4 * f + o) / 100 = c /\ (100 * c + 4 * f + o) mod 100 / 4 = f /\ (100 * c + 4 * f + o) mod 4 = o).
  { intros c' f' o' ???. rewrite <- (Z.div_unique _ 100 c' (4 * f' + o')) by lia.
    rewrite <- (Z.mod_unique _ 100 c' (4 * f' + o')) by lia. rewrite <- (Z.div_unique _ 4 f' o') by lia.
    by rewrite <- (Z.mod_unique _ 4 (25 * c' + f') o') by lia. }
  assert (Hyear : forall c f o, 0 <= c < 4 -> 0 <= f < 25 -> 0 <= o < 4 ->
    days_before_year (1 + (100 * c + 4 * f + o)) = 36524 * c + 1461 * f + 365 * o /\
    is_leap (1 + (100 * c + 4 * f + o)) = (o =? 3) && (negb (f =? 24) || (c =? 3))).
  { intros c' f' o' Hc Hf Ho. destruct (Hidx c' f' o' Hc Hf Ho) as (I1 & I2 & I3).
    pose proof (years_ok (100 * c' + 4 * f' + o') ltac:(lia)) as Hy. unfold year_ok in Hy.
    rewrite I1, I2, I3 in Hy. apply andb_prop in Hy as [H1%Z.eqb_eq H2%eqb_prop]. done. }
  destruct (Z.eqb_spec o 4) as [->|Ho].
  - assert (0 <= c < 4 /\ 0 <= f < 24) as [Hc Hf] by lia.
    destruct (Hyear c f 3 Hc ltac:(lia) ltac:(lia)) as [Hd Hl].
    replace (0 * 400 + 1 + c * 100 + f * 4 + 4 - 1) with (1 + (100 * c + 4 * f + 3)) by ring. cbn [orb].
    apply last_day; [lia|rewrite Hl; destruct (Z.eqb_spec f 24); [lia|done]|lia].
  - cbn [orb]. destruct (Z.eqb_spec c 4) as [->|Hc4].
    + destruct (Hyear 3 24 3 ltac:(lia) ltac:(lia) ltac:(lia)) as [Hd Hl].
      assert (f = 0 /\ o = 0 /\ n = 0) as (-> & -> & ->) by lia. apply last_day; [lia|done|].
      change (0 * 400 + 1 + 4 * 100 + 0 * 4 + 0 - 1) with (1 + (100 * 3 + 4 * 24 + 3)). lia.
    + assert (0 <= c < 4 /\ 0 <= f < 25 /\ 0 <= o < 4) as (Hc & Hf & Ho') by lia.
      destruct (Hyear c f o Hc Hf Ho') as [Hd Hl].
      replace (0 * 400 + 1 + c * 100 + f * 4 + o) with (1 + (100 * c + 4 * f + o)) by ring.
      rewrite <- Hl. set (y := 1 + (100 * c + 4 * f + o)) in *.
      pose proof (days_ok (is_leap y) n B3) as Hday. unfold day_ok, month_day in Hday. cbv zeta in Hday.
      unfold names, ymd2ord, days_before_month, days_in_month. destruct (n <? _); lia.
Qed.

Lemma is_leap_shift q y : is_leap (400 * q + y) = is_leap y.
Proof.
  unfold is_leap. replace (400 * q + y) with (y + (100 * q) * 4) at 1 by ring.
  replace (400 * q + y) with (y + (4 * q) * 100) at 1 by ring.
  replace (400 * q + y) with (y + q * 400) by ring. by rewrite !Z.mod_add by lia.
Qed.

Lemma ymd2ord_shift q y m d : ymd2ord (400 * q + y) m d = 146097 * q + ymd2ord y m d.
Proof.
  unfold ymd2ord, days_before_month, days_before_year. rewrite is_leap_shift.
  replace (400 * q + y - 1) with (y - 1 + (100 * q) * 4) at 2 by ring.
  replace (400 * q + y - 1) with (y - 1 + (4 * q) * 100) at 2 by ring.
  replace (400 * q + y - 1) with (y - 1 + q * 400) at 2 by ring.
  rewrite !Z.div_add by lia. ring.
Qed.

Lemma ord2ymd_shift q r :
  0 <= r < 146097 ->
  ord2ymd (146097 * q + r + 1) = let '(y, m, d) := ord2ymd (r + 1) in (400 * q + y, m, d).
Proof.
  intros Hr. unfold ord2ymd. replace (146097 * q + r + 1 - 1) with (r + q * 146097) by ring.
  replace (r + 1 - 1) with r by ring. rewrite Z.div_add, Z.mod_add by lia.
  rewrite (Z.div_small r), (Z.mod_small r) by lia. cbv zeta.
  repeat case_match; simplify_eq; f_equal; f_equal; lia.
Qed.

(** The date of an ordinal is a date of the calendar and has this ordinal. *)
Lemma ord2ymd_spec n :
  1 <= n -> let '(y, m, d) := ord2ymd n in
  ymd2ord y m d = n /\ 1 <= y /\ 1 <= m <= 12 /\ 1 <= d <= days_in_month y m /\
  400 * ((n - 1) / 146097) + 1 <= y <= 400 * ((n - 1) / 146097) + 400.
Proof.
  intros Hn. pose proof (Z.div_mod (n - 1) 146097 ltac:(lia)) as Hdm.
  pose proof (Z.mod_pos_bound (n - 1) 146097 ltac:(lia)) as Hr.
  pose proof (Z.div_pos (n - 1) 146097 ltac:(lia) ltac:(lia)) as Hq.
  set (q := (n - 1) / 146097) in *. set (r := (n - 1) mod 146097) in *.
  replace n with (146097 * q + r + 1) by lia. rewrite ord2ymd_shift by done.
  pose proof (cycle_ok r Hr) as Hc. destruct (ord2ymd (r + 1)) as [[y m] d].
  destruct Hc as (Ho & Hy & Hm & Hd).
  rewrite ymd2ord_shift. unfold days_in_month in *. rewrite is_leap_shift. lia.
Qed.

(** ** Dates and times *)

Record datetime : Type := mkDatetime {
  year : Z; month : Z; day : Z; hour : Z; minute : Z; second : Z
}.

(** The ordinal of 1970-01-01. *)
Definition EPOCH : Z := 719163.

(** [datetime(1970, 1, 1) + timedelta(seconds=s)] in the range of the years *)
Definition datetime_of_seconds (s : Z) : datetime :=
  let '(y, m, d) := ord2ymd (s / 86400 + EPOCH) in
  let t := s mod 86400 in
  mkDatetime y m d (t / 3600) (t / 60 mod 60) (t mod 60).

(** [delta.days * 86400 + delta.seconds] of [t - datetime(1970, 1, 1)] *)
Definition seconds_of_datetime (t : datetime) : Z :=
  (ymd2ord (year t) (month t) (day t) - EPOCH) * 86400 + hour t * 3600 + minute t * 60 + second t.

(** The constructor accepts the fields. *)
Definition valid_datetime (t : datetime) : bool :=
  valid_date (year t) (month t) (day t) && (0 <=? hour t) && (hour t <=? 23) &&
  (0 <=? minute t) && (minute t <=? 59) && (0 <=? second t) && (second t <=? 59).

Definition MIN_SECONDS : Z := -62135596800.
Definition MAX_SECONDS : Z := 253402300799.

Lemma datetime_roundtrip s :
  MIN_SECONDS <= s <= MAX_SECONDS ->
  valid_datetime (datetime_of_seconds s) = true /\ seconds_of_datetime (datetime_of_seconds s) = s.
Proof.
  unfold MIN_SECONDS, MAX_SECONDS. intros Hs. unfold datetime_of_seconds.
  pose proof (Z.div_mod s 86400 ltac:(lia)) as Hdm. pose proof (Z.mod_pos_bound s 86400 ltac:(lia)) as Ht.
  set (q := s / 86400) in *. set (t := s mod 86400) in *. clearbody q t.
  pose proof (ord2ymd_spec (q + EPOCH) ltac:(unfold EPOCH; lia)) as Ho.
  destruct (ord2ymd (q + EPOCH)) as [[y m] d] eqn:Ey. destruct Ho as (Ho & Hy & Hm & Hd & Hy').
  unfold valid_datetime, valid_date, seconds_of_datetime. cbn [year month day hour minute second].
  assert (Hy9 : y <= 9999).
  { unfold EPOCH in *. destruct (Z.ltb_spec (q + 719163) 3652060); [|lia].
    assert ((q + 719163 - 1) / 146097 <= 24) by (apply Z.lt_succ_r, Z.div_lt_upper_bound; lia).
    destruct (Z.le_gt_cases y 9999); [done|exfalso]. assert (y = 10000) as -> by lia.
    unfold ymd2ord, days_before_month, days_before_year in Ho. change (is_leap 10000) with true in Ho.
    assert (0 <= nth (Z.to_nat m) DAYS_BEFORE_MONTH 0).
    { assert (m = 1 \/ m = 2 \/ m = 3 \/ m = 4 \/ m = 5 \/ m = 6 \/ m = 7 \/ m = 8 \/ m = 9 \/ m = 10 \/ m = 11 \/ m = 12)
        as Hc by lia. by repeat destruct Hc as [->|Hc]; subst. }
    change ((10000 - 1) * 365 + (10000 - 1) / 4 - (10000 - 1) / 100 + (10000 - 1) / 400) with 3652059 in Ho.
    destruct ((2 <? m) && true); lia. }
  rewrite Ho. split; [|unfold EPOCH; lia]. lia.
Qed.

(** ** [strptime] *)

Section Strptime.
Context `{PyDigits}.

Definition any_digit (c : Z) : bool := match char_digit c with Some _ => true | None => false end.
Definition between (lo hi c : Z) : bool := (lo <=? c) && (c <=? hi).

(** The characters of an alternative of a directive. *)
Definition alternative : Type := list (Z -> bool).

Definition d_year : list alternative := [[any_digit; any_digit; any_digit; any_digit]].
Definition d_month : list alternative :=
  [[between 49 49; between 48 50]; [between 48 48; between 49 57]; [between 49 57]].
Definition d_day : list alternative :=
  [[between 51 51; between 48 49]; [between 49 50; any_digit]; [between 48 48; between 49 57];
   [between 49 57]; [between 32 32; between 49 57]].
Definition d_hour : list alternative :=
  [[between 50 50; between 48 51]; [between 48 49; any_digit]; [any_digit]].
Definition d_minute : list alternative := [[between 48 53; any_digit]; [any_digit]].
Definition d_second : list alternative := [[between 54 54; between 48 49]; [between 48 53; any_digit]; [any_digit]].

Fixpoint match_alternative (a : alternative) (s : pystr) : option (pystr * pystr) :=
  match a, s with
  | [], _ => Some ([], s)
  | p :: a, c :: s' =>
      if p c then match match_alternative a s' with Some (t, r) => Some (c :: t, r) | None => None end else None
  | _ :: _, [] => None
  end.

(** The first alternative that [follow] accepts, with what follows. *)
Fixpoint match_directive {A} (alts : list alternative) (follow : pystr -> pystr -> option A) (s : pystr) : option A :=
  match alts with
  | [] => None
  | a :: alts =>
      match match_alternative a s with
      | Some (t, r) =>
          match follow t r with Some x => Some x | None => match_directive alts follow s end
      | None => match_directive alts follow s
      end
  end.

(** A directive, then one of the characters [seps]. *)
Definition directive {A} (alts : list alternative) (seps : list Z) (k : Z -> pystr -> option A) : pystr -> option A :=
  match_directive alts (fun t r =>
    match py_int t, r with
    | Some n, c :: r => if bool_decide (c ∈ seps) then k n r else None
    | _, _ => None
    end).

(** [datetime.strptime(s, "%Y-%m-%dT%H:%M:%S")]; letters are matched without
    case.  [None] is the [ValueError]. *)
Definition strptime (s : pystr) : option datetime :=
  let fields :=
    directive d_year [45] (fun y =>
    directive d_month [45] (fun m =>
    directive d_day [84; 116] (fun d =>
    directive d_hour [58] (fun h =>
    directive d_minute [58] (fun mi =>
    match_directive d_second (fun t r =>
      match py_int t with Some se => Some (mkDatetime y m d h mi se, r) | None => None end)))))) s in
  match fields with
  | Some (t, []) => if valid_datetime t then Some t else None
  | _ => None
  end.

End Strptime.

(** ** Reading a formatted time *)

(** [f"{t.year:04d}-{t.month:02d}-{t.day:02d}T{t.hour:02d}:{t.minute:02d}:{t.second:02d}"] *)
Definition render (t : datetime) : pystr :=
  zero_padded 4 (year t) ++ [45] ++ zero_padded 2 (month t) ++ [45] ++ zero_padded 2 (day t) ++ [84] ++
  zero_padded 2 (hour t) ++ [58] ++ zero_padded 2 (minute t) ++ [58] ++ zero_padded 2 (second t).

Section Render.
Context `{PyDigits}.

Lemma any_digit_ascii d : 0 <= d <= 9 -> any_digit (48 + d) = true.
Proof.
  intros Hd. unfold any_digit. rewrite char_digit_ascii by lia.
  unfold ascii_digit. destruct ((48 <=? 48 + d) && (48 + d <=? 57)) eqn:E; [done|lia].
Qed.

Lemma between_digit lo hi d : lo <= 48 + d <= hi -> between lo hi (48 + d) = true.
Proof. unfold between. lia. Qed.

(** The two digits of a field, matched by one of the alternatives of length two;
    the alternatives before it have length two as well. *)
Lemma match_two {A} (pre post : list alternative) p q (follow : pystr -> pystr -> option A) c1 c2 r x :
  Forall (fun a => length a = 2%nat) pre -> p c1 = true -> q c2 = true -> follow [c1; c2] r = Some x ->
  match_directive (pre ++ [p; q] :: post) follow (c1 :: c2 :: r) = Some x.
Proof.
  intros Hpre Hp Hq Hx. induction Hpre as [|a pre Ha _ IH]; cbn [match_directive app match_alternative].
  - by rewrite Hp, Hq, Hx.
  - destruct a as [|p' [|q' [|]]]; try done. cbn [match_alternative].
    destruct (p' c1), (q' c2); [|done..]. by rewrite Hx.
Qed.

Lemma py_int_two d1 d2 : 0 <= d1 <= 9 -> 0 <= d2 <= 9 -> py_int [48 + d1; 48 + d2] = Some (10 * d1 + d2).
Proof.
  intros H1 H2. rewrite (py_int_digits false [48 + d1; 48 + d2]); [|done|].
  - f_equal. unfold digits_value. simpl. lia.
  - unfold ascii_digit. simpl. lia.
Qed.

Lemma digits_of_two n : 0 <= n <= 99 -> digits_of 2 n = [48 + n / 10; 48 + n mod 10].
Proof. intros Hn. simpl. rewrite (Z.mod_small (n / 10)); [done|]. pose proof (Z.div_lt_upper_bound n 10 10). lia. Qed.

(** The directives with two digits: for each number of their range one of the
    alternatives fits. *)
Definition covers (alts : list alternative) (n : Z) : Prop :=
  exists pre p q post, alts = pre ++ [p; q] :: post /\ Forall (fun a => length a = 2%nat) pre /\
    p (48 + n / 10) = true /\ q (48 + n mod 10) = true.

Lemma directive_two {A} alts seps (k : Z -> pystr -> option A) n c r x :
  0 <= n <= 99 -> covers alts n -> c ∈ seps -> k n r = Some x ->
  directive alts seps k (digits_of 2 n ++ c :: r) = Some x.
Proof.
  intros Hn (pre & p & q & post & -> & Hpre & Hp & Hq) Hc Hk. rewrite digits_of_two by done. unfold directive.
  apply match_two; [done..|]. pose proof (Z.div_mod n 10 ltac:(lia)). pose proof (Z.mod_pos_bound n 10 ltac:(lia)).
  rewrite py_int_two by lia. replace (10 * (n / 10) + n mod 10) with n by lia.
  by rewrite bool_decide_eq_true_2.
Qed.

(** The first alternative, or one behind alternatives of length two. *)
Local Ltac cover pre p q post :=
  exists pre, p, q, post; split; [reflexivity|]; split; [repeat constructor|];
  split; first [apply any_digit_ascii; lia | apply between_digit; lia].

Lemma cover_month m : 1 <= m <= 12 -> covers d_month m.
Proof.
  intros Hm. pose proof (Z.div_mod m 10 ltac:(lia)). pose proof (Z.mod_pos_bound m 10 ltac:(lia)).
  destruct (Z.leb_spec 10 m).
  - cover (@nil alternative) (between 49 49) (between 48 50) [[between 48 48; between 49 57]; [between 49 57]].
  - cover [[between 49 49; between 48 50]] (between 48 48) (between 49 57) [[between 49 57]].
Qed.

Lemma cover_day d : 1 <= d <= 31 -> covers d_day d.
Proof.
  intros Hm. pose proof (Z.div_mod d 10 ltac:(lia)). pose proof (Z.mod_pos_bound d 10 ltac:(lia)). unfold d_day.
  destruct (Z.leb_spec 30 d); [|destruct (Z.leb_spec 10 d)].
  - cover (@nil alternative) (between 51 51) (between 48 49)
      [[between 49 50; any_digit]; [between 48 48; between 49 57]; [between 49 57]; [between 32 32; between 49 57]].
  - cover [[between 51 51; between 48 49]] (between 49 50) any_digit
      [[between 48 48; between 49 57]; [between 49 57]; [between 32 32; between 49 57]].
  - cover [[between 51 51; between 48 49]; [between 49 50; any_digit]] (between 48 48) (between 49 57)
      [[between 49 57]; [between 32 32; between 49 57]].
Qed.

Lemma cover_hour h : 0 <= h <= 23 -> covers d_hour h.
Proof.
  intros Hm. pose proof (Z.div_mod h 10 ltac:(lia)). pose proof (Z.mod_pos_bound h 10 ltac:(lia)).
  destruct (Z.leb_spec 20 h).
  - cover (@nil alternative) (between 50 50) (between 48 51) [[between 48 49; any_digit]; [any_digit]].
  - cover [[between 50 50; between 48 51]] (between 48 49) any_digit [[any_digit]].
Qed.

Lemma cover_minute m : 0 <= m <= 59 -> covers d_minute m.
Proof.
  intros Hm. pose proof (Z.div_mod m 10 ltac:(lia)). pose proof (Z.mod_pos_bound m 10 ltac:(lia)).
  cover (@nil alternative) (between 48 53) any_digit [[any_digit]].
Qed.

Lemma cover_second s : 0 <= s <= 59 -> covers d_second s.
Proof.
  intros Hm. pose proof (Z.div_mod s 10 ltac:(lia)). pose proof (Z.mod_pos_bound s 10 ltac:(lia)).
  cover [[between 54 54; between 48 49]] (between 48 53) any_digit [[any_digit]].
Qed.

Lemma directive_year {A} (k : Z -> pystr -> option A) y r x :
  0 <= y <= 9999 -> k y r = Some x -> directive d_year [45] k (digits_of 4 y ++ 45 :: r) = Some x.
Proof.
  intros Hy Hk.
  assert (forallb ascii_digit (digits_of 4 y) = true /\ digits_value (digits_of 4 y) = y) as [Hd Hv].
  { rewrite <- zero_padded_digits by (simpl; lia). unfold zero_padded.
    destruct (str_of_int_text y) as (ds & -> & H1 & H2 & H3 & _). destruct (Z.ltb_spec y 0); [lia|]. cbn [app].
    rewrite digits_value_zeros, forallb_app, H1, andb_true_r. split; [|lia].
    apply forallb_forall. intros c Hc. apply list_elem_of_In, elem_of_replicate in Hc as [-> _]. done. }
  pose proof (py_int_digits false (digits_of 4 y)) as Hp. rewrite Hv in Hp. cbn [app] in Hp.
  cbn [digits_of app] in *. unfold directive, d_year. cbn [match_directive match_alternative].
  assert (Hany : forall n, any_digit (48 + n mod 10) = true).
  { intros n. apply any_digit_ascii. pose proof (Z.mod_pos_bound n 10). lia. }
  rewrite !Hany, Hp by done. by rewrite bool_decide_eq_true_2, Hk by (by left).
Qed.

(** A time is read back from its text. *)
Lemma strptime_render t : valid_datetime t = true -> strptime (render t) = Some t.
Proof.
  destruct t as [y m d h mi se]. intros Hv. pose proof Hv as Hv'.
  unfold valid_datetime, valid_date in Hv'. cbn [year month day hour minute second] in Hv'.
  pose proof (days_in_month_le y m) as Hdim.
  unfold render, strptime. cbn [year month day hour minute second].
  rewrite !zero_padded_digits by (simpl; lia). cbn [app].
  rewrite (directive_year _ y _ (mkDatetime y m d h mi se, [])); [by rewrite Hv|lia|apply directive_two; [lia|apply cover_month; lia|by left|
    apply directive_two; [lia|apply cover_day; lia|by left|
    apply directive_two; [lia|apply cover_hour; lia|by left|
    apply directive_two; [lia|apply cover_minute; lia|by left|]]]]].
  destruct (cover_second se) as (pre & p & q & post & -> & Hpre & Hp & Hq); [lia|].
  rewrite digits_of_two by lia. apply match_two; [done..|].
  pose proof (Z.div_mod se 10 ltac:(lia)). pose proof (Z.mod_pos_bound se 10 ltac:(lia)).
  rewrite py_int_two by lia. by replace (10 * (se / 10) + se mod 10) with se by lia.
Qed.

End Render.
