(* ===== verification/Base64.v ===== *)
(** * Base64

    [base64.b64encode] and [base64.urlsafe_b64decode] of Python's standard
    library: the encoder with padding, and the lenient decoder of [binascii],
    which skips characters outside of the alphabet and stops at the padding. *)
From S2P Require Import Prelude PyStr PyText Bytes.
#[local] Open Scope Z_scope.

(** ** Encoding *)

Definition b64_char (v : Z) : Z :=
  if v <? 26 then 65 + v else if v <? 52 then 71 + v else if v <? 62 then v - 4
  else if v =? 62 then 43 else 47.

Definition PAD : Z := 61.

Fixpoint b64encode (b : bytes) : pystr :=
  match b with
  | [] => []
  | [x] => [b64_char (x / 4); b64_char (x mod 4 * 16); PAD; PAD]
  | [x; y] => [b64_char (x / 4); b64_char (x mod 4 * 16 + y / 16); b64_char (y mod 16 * 4); PAD]
  | x :: y :: z :: b =>
      b64_char (x / 4) :: b64_char (x mod 4 * 16 + y / 16) :: b64_char (y mod 16 * 4 + z / 64) ::
      b64_char (z mod 64) :: b64encode b
  end.

(** ** Decoding *)

Definition b64_value (c : Z) : option Z :=
  if (65 <=? c) && (c <=? 90) then Some (c - 65) else if (97 <=? c) && (c <=? 122) then Some (c - 71)
  else if (48 <=? c) && (c <=? 57) then Some (c + 4) else if c =? 43 then Some 62
  else if c =? 47 then Some 63 else None.

Definition emit (b : Z) (r : option bytes) : option bytes :=
  match r with Some bs => Some (b :: bs) | None => None end.

(** [binascii.a2b_base64] without strict mode: the position in the group of four,
    the bits left over, the padding seen.  [None] is [binascii.Error]. *)
Fixpoint a2b (quad left pads : Z) (s : pystr) : option bytes :=
  match s with
  | [] => if quad =? 0 then Some [] else None
  | c :: s =>
      if c =? PAD then
        if 2 <=? quad then if 4 <=? quad + (pads + 1) then Some [] else a2b quad left (pads + 1) s
        else a2b quad left pads s
      else
        match b64_value c with
        | None => a2b quad left pads s
        | Some v =>
            if quad =? 0 then a2b 1 v 0 s
            else if quad =? 1 then emit (left * 4 + v / 16) (a2b 2 (v mod 16) 0 s)
            else if quad =? 2 then emit (left * 16 + v / 4) (a2b 3 (v mod 4) 0 s)
            else emit (left * 64 + v) (a2b 0 0 0 s)
        end
  end.

Definition urlsafe_char (c : Z) : Z := if c =? 45 then 43 else if c =? 95 then 47 else c.

(** [base64.urlsafe_b64decode(s)]; [None] is the [ValueError]. *)
Definition urlsafe_b64decode (s : pystr) : option bytes :=
  if is_ascii s then a2b 0 0 0 (urlsafe_char <$> s) else None.

(** ** The round trip *)

Lemma b64_value_char v : 0 <= v < 64 -> b64_value (b64_char v) = Some v.
Proof. intros Hv. unfold b64_value, b64_char. repeat case_match; try lia; f_equal; lia. Qed.

Lemma b64_char_plain v : 0 <= v < 64 -> b64_char v <> PAD /\ urlsafe_char (b64_char v) = b64_char v /\
  is_space (b64_char v) = false /\ 0 <= b64_char v < 128.
Proof. intros Hv. unfold b64_char, urlsafe_char, is_space, PAD. repeat case_match; lia. Qed.

(** One sextet. *)
Lemma a2b_char quad left pads v s :
  0 <= v < 64 ->
  a2b quad left pads (b64_char v :: s) =
    if quad =? 0 then a2b 1 v 0 s
    else if quad =? 1 then emit (left * 4 + v / 16) (a2b 2 (v mod 16) 0 s)
    else if quad =? 2 then emit (left * 16 + v / 4) (a2b 3 (v mod 4) 0 s)
    else emit (left * 64 + v) (a2b 0 0 0 s).
Proof.
  intros Hv. cbn [a2b]. destruct (Z.eqb_spec (b64_char v) PAD); [by destruct (b64_char_plain v Hv)|].
  by rewrite b64_value_char.
Qed.

(** The parts of bytes and sextets. *)
Lemma byte_parts x k m : 0 < k -> 0 < m -> 0 <= x < k * m -> 0 <= x / k < m /\ 0 <= x mod k < k /\ x = k * (x / k) + x mod k.
Proof.
  intros Hk Hm Hx. pose proof (Z.mod_pos_bound x k Hk). pose proof (Z.div_mod x k ltac:(lia)).
  pose proof (Z.div_lt_upper_bound x k m Hk). pose proof (Z.div_pos x k). lia.
Qed.

Lemma sextet h l k m : 0 <= h < m -> 0 <= l < k -> (h * k + l) / k = h /\ (h * k + l) mod k = l.
Proof.
  intros Hh Hl. split; [symmetry; apply (Z.div_unique _ k h l); lia|symmetry; apply (Z.mod_unique _ k h l); lia].
Qed.

Lemma byte_ok_range b : byte_ok b = true -> 0 <= b < 256.
Proof. unfold byte_ok. lia. Qed.

Lemma a2b_encode b : bytes_ok b = true -> a2b 0 0 0 (b64encode b) = Some b.
Proof.
  induction b as [b IH] using (induction_ltof1 _ (@length Z)). unfold ltof in IH.
  destruct b as [|x [|y [|z b]]]; intros Hb; unfold bytes_ok in Hb; cbn [forallb] in Hb; cbn [b64encode]; [done|..].
  - assert (0 <= x < 256) as Hx by (apply byte_ok_range; lia).
    destruct (byte_parts x 4 64) as (A1 & A2 & A3); [lia..|].
    rewrite !a2b_char by lia. cbn -[Z.mul Z.add Z.div Z.modulo].
    replace (x mod 4 * 16) with (x mod 4 * 16 + 0) by lia.
    destruct (sextet (x mod 4) 0 16 4) as [-> _]; [lia..|]. simpl. do 2 f_equal. lia.
  - assert (0 <= x < 256 /\ 0 <= y < 256) as [Hx Hy] by (split; apply byte_ok_range; lia).
    destruct (byte_parts x 4 64) as (A1 & A2 & A3); [lia..|].
    destruct (byte_parts y 16 16) as (B1 & B2 & B3); [lia..|].
    rewrite !a2b_char by lia. cbn -[Z.mul Z.add Z.div Z.modulo].
    destruct (sextet (x mod 4) (y / 16) 16 4) as [-> ->]; [lia..|].
    replace (y mod 16 * 4) with (y mod 16 * 4 + 0) by lia.
    destruct (sextet (y mod 16) 0 4 16) as [-> _]; [lia..|]. simpl. do 3 f_equal; lia.
  - assert (0 <= x < 256 /\ 0 <= y < 256 /\ 0 <= z < 256) as (Hx & Hy & Hz) by (split_and!; apply byte_ok_range; lia).
    destruct (byte_parts x 4 64) as (A1 & A2 & A3); [lia..|].
    destruct (byte_parts y 16 16) as (B1 & B2 & B3); [lia..|].
    destruct (byte_parts z 64 4) as (C1 & C2 & C3); [lia..|].
    rewrite !a2b_char by lia. cbn -[Z.mul Z.add Z.div Z.modulo a2b].
    destruct (sextet (x mod 4) (y / 16) 16 4) as [-> ->]; [lia..|].
    destruct (sextet (y mod 16) (z / 64) 4 16) as [-> ->]; [lia..|].
    rewrite IH; [|simpl; lia|unfold bytes_ok; lia]. cbn [emit]. do 4 f_equal; lia.
Qed.

(** The characters of an encoding: no white space, and nothing the URL-safe
    alphabet replaces; the length is a multiple of four. *)
Definition b64_plain (c : Z) : Prop := urlsafe_char c = c /\ is_space c = false /\ 0 <= c < 128.

Lemma encode_plain b :
  bytes_ok b = true -> Forall b64_plain (b64encode b) /\ Z.of_nat (length (b64encode b)) mod 4 = 0.
Proof.
  assert (Hc : forall v, 0 <= v < 64 -> b64_plain (b64_char v)).
  { intros v Hv. by destruct (b64_char_plain v Hv) as (_ & ? & ? & ?). }
  assert (Hp : b64_plain PAD) by (by split_and!).
  induction b as [b IH] using (induction_ltof1 _ (@length Z)). unfold ltof in IH.
  destruct b as [|x [|y [|z b]]]; intros Hb; unfold bytes_ok in Hb; cbn [forallb] in Hb; cbn [b64encode]; [done|..].
  - assert (0 <= x < 256) as Hx by (apply byte_ok_range; lia). destruct (byte_parts x 4 64) as (A1 & A2 & A3); [lia..|].
    split; [|done]. repeat constructor; try done; apply Hc; lia.
  - assert (0 <= x < 256 /\ 0 <= y < 256) as [Hx Hy] by (split; apply byte_ok_range; lia).
    destruct (byte_parts x 4 64) as (A1 & A2 & A3); [lia..|]. destruct (byte_parts y 16 16) as (B1 & B2 & B3); [lia..|].
    split; [|done]. repeat constructor; try done; apply Hc; lia.
  - assert (0 <= x < 256 /\ 0 <= y < 256 /\ 0 <= z < 256) as (Hx & Hy & Hz) by (split_and!; apply byte_ok_range; lia).
    destruct (byte_parts x 4 64) as (A1 & A2 & A3); [lia..|]. destruct (byte_parts y 16 16) as (B1 & B2 & B3); [lia..|].
    destruct (byte_parts z 64 4) as (C1 & C2 & C3); [lia..|].
    destruct (IH b) as [IH1 IH2]; [simpl; lia|unfold bytes_ok; lia|]. split.
    + repeat (constructor; [apply Hc; lia|]). done.
    + rewrite !length_cons, !Nat2Z.inj_succ. set (n := Z.of_nat _) in *.
      replace (Z.succ (Z.succ (Z.succ (Z.succ n)))) with (n + 1 * 4) by lia. by rewrite Z.mod_add.
Qed.

Lemma decode_encode b : bytes_ok b = true -> urlsafe_b64decode (b64encode b) = Some b.
Proof.
  intros Hb. destruct (encode_plain b Hb) as [Hp _]. unfold urlsafe_b64decode.
  assert (is_ascii (b64encode b) = true) as ->.
  { apply forallb_forall. intros c Hc. apply list_elem_of_In in Hc. rewrite Forall_forall in Hp.
    destruct (Hp c Hc) as (_ & _ & ?). lia. }
  assert (urlsafe_char <$> b64encode b = b64encode b) as ->; [|by apply a2b_encode].
  induction Hp as [|c s Hc _ IH]; [done|]. rewrite fmap_cons, IH. f_equal. apply Hc.
Qed.
