(* ===== verification/JsonFormat.v ===== *)
(** * The JSON form of messages

    The model of [src/nebius/base/protos/json_format.py]: the conversion of a
    message to a JSON value and back, with the well-known types.  The text of the
    JSON document ([json.dumps] and [json.loads]) is not part of it; a document is
    a value of [json], whose objects are dicts with [str] keys.

    Classes are numbers, as in [Message]; [JsonProgram] adds their full names and
    the registry lookup of an [Any].  Messages have no extensions, and the entries
    a getter leaves in the reset mask are not kept.  The recursion of the code has
    no limit: the model has fuel, one unit per nested message, and running out is
    an error of its own. *)
From stdpp Require Import gmap.
From S2P Require Import Prelude PyStr PyText Json Bytes PyNumber PyTime Base64 Wire ValueCodec Message.
#[local] Open Scope Z_scope.

#[local] Unset Elimination Schemes.
Inductive json : Type :=
| JNull
| JBool (b : bool)
| JInt (n : Z)
| JFloat (bits : Z)
| JStr (s : pystr)
| JArr (l : list json)
| JObj (l : list (pystr * json)).
#[local] Set Elimination Schemes.

(** [JsonError], or another exception: of a message, [OverflowError] of
    [float()]. *)
Inductive json_failure : Type :=
| JsonError (msg : string)
| Unwrapped (e : message_error)
| FloatOverflow
| JsonFuel.

Class JsonProgram `{Schema} := {
  (** [__PROTO_FULL_NAME__] *)
  FULL_NAME : nat -> pystr;
  (** whether the class has a namespace registry *)
  REGISTRY : nat -> bool;
  (** [registry.message_class(registry.type_name(type_url))] *)
  find_type : pystr -> option nat
}.

(** The Unicode tables of letters: [isupper], [islower], [upper] and [lower] of a
    character. *)
Class PyCase := {
  char_isupper : Z -> bool;
  char_islower : Z -> bool;
  char_upper : Z -> pystr;
  char_lower : Z -> pystr;
  case_ascii c : 0 <= c < 128 ->
    char_isupper c = (65 <=? c) && (c <=? 90) /\ char_islower c = (97 <=? c) && (c <=? 122) /\
    char_upper c = [upper_char c] /\ char_lower c = [lower_char c]
}.

Definition ascii_case : PyCase := {|
  char_isupper c := (65 <=? c) && (c <=? 90);
  char_islower c := (97 <=? c) && (c <=? 122);
  char_upper c := [upper_char c];
  char_lower c := [lower_char c];
  case_ascii c _ := conj eq_refl (conj eq_refl (conj eq_refl eq_refl))
|}.

Record options : Type := mkOptions {
  preserving_proto_field_name : bool;
  always_print_fields_with_no_presence : bool;
  use_integers_for_enums : bool
}.

(** The exceptions of a message that [except (TypeError, ValueError, OverflowError)]
    catches.  [EncodeError] and [DecodeError] of protobuf and [struct.error] derive
    from [Exception] alone; running out of fuel is no exception of the code. *)
Definition caught (e : message_error) : bool :=
  match e with
  | WireE (ValueError _) | WireE UnicodeEncodeError | CodecE _ | TypeE _ | ValueE _ => true
  | WireE _ | EncodeE _ _ | MessageFuel => false
  end.

(** [except (LookupError, TypeError, ValueError)] *)
Definition caught_by_any (e : message_error) : bool :=
  match e with CodecE OverflowError => false | _ => caught e end.

(** ** Names *)

Definition TIMESTAMP : pystr := u "google.protobuf.Timestamp".
Definition DURATION : pystr := u "google.protobuf.Duration".
Definition FIELD_MASK : pystr := u "google.protobuf.FieldMask".
Definition STRUCT : pystr := u "google.protobuf.Struct".
Definition LIST_VALUE : pystr := u "google.protobuf.ListValue".
Definition VALUE : pystr := u "google.protobuf.Value".
Definition ANY : pystr := u "google.protobuf.Any".
Definition EMPTY : pystr := u "google.protobuf.Empty".

Definition _WRAPPERS : list pystr := [
  u "google.protobuf.BoolValue"; u "google.protobuf.BytesValue"; u "google.protobuf.DoubleValue";
  u "google.protobuf.FloatValue"; u "google.protobuf.Int32Value"; u "google.protobuf.Int64Value";
  u "google.protobuf.StringValue"; u "google.protobuf.UInt32Value"; u "google.protobuf.UInt64Value"].
Definition _ANY_VALUE_TYPES : list pystr :=
  _WRAPPERS ++ [ANY; DURATION; FIELD_MASK; LIST_VALUE; STRUCT; TIMESTAMP; VALUE].

Definition _DURATION_MAX : Z := 315576000000.

Section Case.
Context `{PyCase}.

(** [part[:1].upper() + part[1:]] *)
Definition capitalize (part : pystr) : pystr :=
  match part with [] => [] | c :: s => char_upper c ++ s end.

Definition _json_name (f : Field) : pystr :=
  match json_name f with
  | Some n => n
  | None =>
      match split (proto_name f) [95] with
      | Some (p :: parts) => p ++ concat (capitalize <$> parts)
      | _ => []
      end
  end.

(** *** Paths of a [FieldMask] *)

Fixpoint snake_loop (capitalized : bool) (path : pystr) : result json_failure pystr :=
  match path with
  | [] => if capitalized then Raise (JsonError "trailing underscore") else Ok []
  | c :: path =>
      if char_isupper c then Raise (JsonError "contains uppercase letters")
      else if c =? 95 then
        if capitalized then Raise (JsonError "consecutive underscores") else snake_loop true path
      else if capitalized then
        if negb (char_islower c) then Raise (JsonError "underscore must precede a letter")
        else r ← snake_loop false path; Ok (char_upper c ++ r)
      else r ← snake_loop false path; Ok (c :: r)
  end.

Definition _snake_to_camel (path : pystr) : result json_failure pystr := snake_loop false path.

Definition _camel_to_snake (path : pystr) : result json_failure pystr :=
  if str_contains 95 path then Raise (JsonError "contains an underscore")
  else Ok (path ≫= fun c => if char_isupper c then 95 :: char_lower c else [c]).

End Case.

(** ** Texts of times *)

Definition _fraction (nanos : Z) : pystr :=
  if nanos =? 0 then [] else
  let digits := if nanos mod 1000000 =? 0 then 3%nat else if nanos mod 1000 =? 0 then 6%nat else 9%nat in
  take (S digits) (46 :: zero_padded 9 nanos).

Definition valid_timestamp (seconds nanos : Z) : bool :=
  (MIN_SECONDS <=? seconds) && (seconds <=? MAX_SECONDS) && (0 <=? nanos) && (nanos <? 1000000000).

Definition encode_timestamp (seconds nanos : Z) : result json_failure pystr :=
  if negb (valid_timestamp seconds nanos) then Raise (JsonError "Timestamp is outside its valid range")
  else Ok (render (datetime_of_seconds seconds) ++ _fraction nanos ++ [90]).

Definition valid_duration (seconds nanos : Z) : bool :=
  (- _DURATION_MAX <=? seconds) && (seconds <=? _DURATION_MAX) && (-999999999 <=? nanos) && (nanos <=? 999999999) &&
  negb (((seconds <? 0) && (0 <? nanos)) || ((0 <? seconds) && (nanos <? 0))).

Definition encode_duration (seconds nanos : Z) : result json_failure pystr :=
  if negb (valid_duration seconds nanos) then Raise (JsonError "Duration is outside its valid range")
  else Ok ((if (seconds <? 0) || (nanos <? 0) then [45] else []) ++ str_of_int (Z.abs seconds) ++
           _fraction (Z.abs nanos) ++ [115]).

(** [s.find(c)] and [s.rfind(c)] *)
Fixpoint find_char (c : Z) (s : pystr) : option nat :=
  match s with
  | [] => None
  | d :: s => if d =? c then Some 0%nat else S <$> find_char c s
  end.
Definition rfind_char (c : Z) (s : pystr) : option nat :=
  (fun i => (length s - 1 - i)%nat) <$> find_char c (reverse s).

Definition orelse {A} (a b : option A) : option A := match a with Some _ => a | None => b end.

Section Times.
Context `{PyDigits}.

(** [round(float(text) * 1_000_000_000)] *)
Definition nanos_of (text : pystr) : option Z :=
  match py_float text with Some x => float_round (float_mul_int x 1000000000) | None => None end.

(** The time and the offset of a timestamp; [None] for the exceptions that become
    a [JsonError]. *)
Definition timestamp_parts (value : pystr) : option (datetime * Z * Z) :=
  match orelse (find_char 90 value) (orelse (find_char 43 value) (rfind_char 45 value)) with
  | None => None
  | Some zone_position =>
      let time_value := take zone_position value in
      let '(base, fraction) :=
        match find_char 46 time_value with
        | None => (time_value, [])
        | Some p => (take p time_value, drop (S p) time_value)
        end in
      if str_contains 116 base then None else
      match strptime base with
      | None => None
      | Some local =>
          if (9 <? length fraction)%nat then None else
          match (match fraction with [] => Some 0 | _ => nanos_of (u "0." ++ fraction) end) with
          | None => None
          | Some nanos =>
              match drop zone_position value with
              | [] => None
              | z :: zone =>
                  if z =? 90 then match zone with [] => Some (local, nanos, 0) | _ => None end
                  else match find_char 58 zone with
                       | None => None
                       | Some colon =>
                           match py_int (take colon zone), py_int (drop (S colon) zone) with
                           | Some h, Some m =>
                               let offset := (h * 60 + m) * 60 in
                               Some (local, nanos, if z =? 45 then - offset else offset)
                           | _, _ => None
                           end
                       end
              end
          end
      end
  end.

Definition parse_timestamp (value : pystr) : result json_failure (Z * Z) :=
  match timestamp_parts value with
  | None => Raise (JsonError "invalid Timestamp")
  | Some (local, nanos, offset) =>
      let seconds := seconds_of_datetime local - offset in
      if negb (valid_timestamp seconds nanos) then Raise (JsonError "Timestamp is outside its valid range")
      else Ok (seconds, nanos)
  end.

Definition duration_parts (value : pystr) : option (Z * Z) :=
  match find_char 46 value with
  | None => n ← py_int (take (length value - 1) value); Some (n, 0)
  | Some point =>
      seconds ← py_int (take point value);
      nanos ← nanos_of ((if startswith value [45] then u "-0" else u "0") ++
                drop point (take (length value - 1) value));
      Some (seconds, nanos)
  end.

Definition parse_duration (value : pystr) : result json_failure (Z * Z) :=
  if negb (endswith value [115]) then Raise (JsonError "Duration must end with 's'") else
  match duration_parts value with
  | None => Raise (JsonError "invalid Duration")
  | Some (seconds, nanos) =>
      if negb (valid_duration seconds nanos) then Raise (JsonError "Duration is outside its valid range")
      else Ok (seconds, nanos)
  end.

End Times.

(** ** Encoding *)

Section Encode.
Context `{JsonProgram} `{PyCase}.

(** [message.__class__._fields_by_proto_name()[name]] *)
Definition field_by_name (c : nat) (name : pystr) : option (nat * Field) :=
  foldl (fun acc '(i, f) => if bool_decide (proto_name f = name) then Some (i, f) else acc) None (indexed c).

Definition _field (c : nat) (name : pystr) : result json_failure (nat * Field) :=
  match field_by_name c name with Some x => Ok x | None => Raise (JsonError "missing WKT field") end.

(** The value of a field that is not a message. *)
Definition get_value (m : message) (i : nat) (f : Field) : value :=
  match cell_of (get_slot m i) with Some (One v) => v | _ => Scalar (default f) end.

Definition other_type : json_failure := Unwrapped (TypeE "unsupported operand type").

Definition get_int (m : message) (name : pystr) : result json_failure Z :=
  '(i, f) ← _field (cls m) name;
  match get_value m i f with Scalar (IntV n) => Ok n | _ => Raise other_type end.

Definition get_str (m : message) (name : pystr) : result json_failure pystr :=
  '(i, f) ← _field (cls m) name;
  match get_value m i f with Scalar (StrV s) => Ok s | _ => Raise other_type end.

Definition get_bytes (m : message) (name : pystr) : result json_failure bytes :=
  '(i, f) ← _field (cls m) name;
  match get_value m i f with Scalar (BytesV b) => Ok b | _ => Raise other_type end.

Definition json_kind_of (c : codec) : string :=
  match c with
  | CInt c => json_kind c
  | CBool => "bool"
  | CDouble => "double"
  | CBytes => "bytes"
  | CString => "string"
  | CMessage _ => "message"
  end.

Definition unsupported : json_failure := JsonError "unsupported ProtoJSON codec kind".

Definition encode_float (x : Z) : json :=
  if isnan x then JStr (u "NaN")
  else if isinf x then JStr (if negative x then u "-Infinity" else u "Infinity")
  else JFloat x.

Definition encode_integer (o : options) (c : ValueCodec Z) (n : Z) : result json_failure json :=
  let kind := json_kind c in
  if bool_decide (kind ∈ ["int64"; "uint64"]) then Ok (JStr (str_of_int n))
  else if bool_decide (kind ∈ ["int32"; "uint32"]) then Ok (JInt n)
  else if bool_decide (kind = "enum") then
    Ok (if use_integers_for_enums o then JInt n else
        match enum_names c ≫= fun names => dict_get names n with Some name => JStr name | None => JInt n end)
  else Raise unsupported.

Section Nested.
Context (o : options).
(** [message_to_value] of nested messages *)
Context (nested : message -> result json_failure json).

Definition _encode_value (c : codec) (v : value) : result json_failure json :=
  match c, v with
  | CInt c, Scalar (IntV n) => encode_integer o c n
  | CBool, Scalar (BoolV b) => Ok (JBool b)
  | CDouble, Scalar (FloatV x) => Ok (encode_float x)
  | CBytes, Scalar (BytesV b) => Ok (JStr (b64encode b))
  | CString, Scalar (StrV s) => Ok (JStr s)
  | CMessage _, MessageV m => nested m
  | _, _ => Raise other_type
  end.

Definition _encode_map_key (k : scalar) : pystr :=
  match k with
  | BoolV b => if b then u "true" else u "false"
  | IntV n => str_of_int n
  | StrV s => s
  | FloatV _ | BytesV _ => []
  end.

Fixpoint traverse_json {A B} (f : A -> result json_failure B) (l : list A) : result json_failure (list B) :=
  match l with [] => Ok [] | a :: l => b ← f a; bs ← traverse_json f l; Ok (b :: bs) end.

Fixpoint fold_json {A S} (f : S -> A -> result json_failure S) (l : list A) (s : S) : result json_failure S :=
  match l with [] => Ok s | a :: l => s ← f s a; fold_json f l s end.

(** A dict comprehension over the entries of a map. *)
Definition encode_entries (enc : value -> result json_failure json) (es : list (scalar * value)) :
    result json_failure json :=
  d ← fold_json (fun d '(k, v) => j ← enc v; Ok (dict_set d (_encode_map_key k) j)) es [];
  Ok (JObj d).

Definition encode_items (enc : value -> result json_failure json) (vs : list value) : result json_failure json :=
  js ← traverse_json enc vs; Ok (JArr js).

(** The value of a field in [message_to_dict]; [None]: the field is left out. *)
Definition encode_field (m : message) (i : nat) (f : Field) : result json_failure (option json) :=
  let s := get_slot m i in
  let always := always_print_fields_with_no_presence o in
  match map_key_codec f with
  | Some _ =>
      if slot_empty s && negb always then Ok None
      else j ← encode_entries (_encode_value (codec_of f)) (entries_of s); Ok (Some j)
  | None =>
      if repeated f then
        if slot_empty s && negb always then Ok None
        else j ← encode_items (_encode_value (codec_of f)) (items_of s); Ok (Some j)
      else if has_presence f then
        if negb (is_present s) then Ok None
        else match cell_of s with
             | Some (One v) => j ← _encode_value (codec_of f) v; Ok (Some j)
             | _ => Raise other_type
             end
      else
        let current := get_value m i f in
        if value_eqb current (default f) && negb always then Ok None
        else j ← _encode_value (codec_of f) current; Ok (Some j)
  end.

Definition field_key (f : Field) : pystr :=
  if preserving_proto_field_name o then proto_name f else _json_name f.

Definition dict_step (m : message) (d : list (pystr * json)) (x : nat * Field) :
    result json_failure (list (pystr * json)) :=
  let '(i, f) := x in
  if negb (public f) then Ok d else
  j ← encode_field m i f;
  match j with Some j => Ok (dict_set d (field_key f) j) | None => Ok d end.

(** [message_to_dict] *)
Definition dict_of (m : message) : result json_failure (list (pystr * json)) :=
  fold_json (dict_step m) (indexed (cls m)) [].

(** [_get(message, name)] of a container field *)
Definition get_items (m : message) (name : pystr) : result json_failure (Field * list value) :=
  '(i, f) ← _field (cls m) name; Ok (f, items_of (get_slot m i)).
Definition get_entries (m : message) (name : pystr) : result json_failure (Field * list (scalar * value)) :=
  '(i, f) ← _field (cls m) name; Ok (f, entries_of (get_slot m i)).

(** [message_to_value] of an element *)
Definition nested_value (v : value) : result json_failure json :=
  match v with MessageV m => nested m | Scalar _ => Raise other_type end.

Definition encode_value_message (m : message) : result json_failure json :=
  match WhichOneof (u "kind") m with
  | Raise e => Raise (Unwrapped e)
  | Ok None => Ok JNull
  | Ok (Some selected) =>
      if decide (selected = u "null_value") then Ok JNull else
      '(i, f) ← _field (cls m) selected;
      let v := get_value m i f in
      if decide (selected = u "number_value") then
        match v with
        | Scalar (FloatV x) =>
            if negb (isfinite x) then Raise (JsonError "Value cannot contain a non-finite number") else Ok (JFloat x)
        | _ => Raise other_type
        end
      else if decide (selected = u "string_value" \/ selected = u "bool_value") then
        match v with
        | Scalar (StrV s) => Ok (JStr s)
        | Scalar (BoolV b) => Ok (JBool b)
        | _ => Raise other_type
        end
      else nested_value v
  end.

Definition encode_any (m : message) : result json_failure json :=
  type_url ← get_str m (u "type_url");
  payload ← get_bytes m (u "value");
  match type_url, payload with
  | [], [] => Ok (JObj [])
  | _, _ =>
      if negb (REGISTRY (cls m)) then Raise (JsonError "Any ProtoJSON requires a namespace registry") else
      match find_type type_url with
      | None => Raise (JsonError "unknown type")
      | Some k =>
          match FromString k payload with
          | Raise e => Raise (if caught_by_any e then JsonError "malformed payload" else Unwrapped e)
          | Ok embedded =>
              if bool_decide (FULL_NAME k ∈ _ANY_VALUE_TYPES)
              then j ← nested embedded; Ok (JObj [(u "@type", JStr type_url); (u "value", j)])
              else d ← dict_of embedded;
                   Ok (JObj (foldl (fun r '(k, j) => dict_set r k j) [(u "@type", JStr type_url)] d))
          end
      end
  end.

(** [_encode_well_known]; [None]: not handled. *)
Definition _encode_well_known (m : message) : result json_failure (option json) :=
  let name := FULL_NAME (cls m) in
  if decide (name = TIMESTAMP) then
    seconds ← get_int m (u "seconds"); nanos ← get_int m (u "nanos");
    s ← encode_timestamp seconds nanos; Ok (Some (JStr s))
  else if decide (name = DURATION) then
    seconds ← get_int m (u "seconds"); nanos ← get_int m (u "nanos");
    s ← encode_duration seconds nanos; Ok (Some (JStr s))
  else if decide (name = FIELD_MASK) then
    '(_, paths) ← get_items m (u "paths");
    camel ← traverse_json (fun v => match v with Scalar (StrV p) => _snake_to_camel p | _ => Raise other_type end) paths;
    Ok (Some (JStr (join [44] camel)))
  else if decide (name = STRUCT) then
    '(_, es) ← get_entries m (u "fields"); j ← encode_entries nested_value es; Ok (Some j)
  else if decide (name = LIST_VALUE) then
    '(_, vs) ← get_items m (u "values"); j ← encode_items nested_value vs; Ok (Some j)
  else if decide (name = VALUE) then j ← encode_value_message m; Ok (Some j)
  else if decide (name ∈ _WRAPPERS) then
    '(i, f) ← _field (cls m) (u "value");
    j ← _encode_value (codec_of f) (get_value m i f); Ok (Some j)
  else if decide (name = ANY) then j ← encode_any m; Ok (Some j)
  else if decide (name = EMPTY) then Ok (Some (JObj []))
  else Ok None.

End Nested.

Fixpoint message_to_value (fuel : nat) (o : options) (m : message) : result json_failure json :=
  match fuel with
  | O => Raise JsonFuel
  | S fuel =>
      w ← _encode_well_known o (message_to_value fuel o) m;
      match w with
      | Some j => Ok j
      | None => d ← dict_of o (message_to_value fuel o) m; Ok (JObj d)
      end
  end.

Definition message_to_dict (fuel : nat) (o : options) (m : message) : result json_failure (list (pystr * json)) :=
  dict_of o (message_to_value fuel o) m.

End Encode.

(** ** Parsing *)

Section Parse.
Context `{JsonProgram} `{PyCase} `{PyDigits}.

Definition lift_message {A} (r : result message_error A) : result json_failure A :=
  match r with Ok a => Ok a | Raise e => Raise (Unwrapped e) end.

(** [except (TypeError, ValueError, OverflowError)] of [_parse_value] *)
Definition wrap {A} (r : result json_failure A) : result json_failure A :=
  match r with
  | Ok a => Ok a
  | Raise (Unwrapped e) => Raise (if caught e then JsonError "invalid value" else Unwrapped e)
  | Raise FloatOverflow => Raise (JsonError "int too large to convert to float")
  | Raise e => Raise e
  end.

Definition _parse_integer (j : json) : result json_failure Z :=
  let invalid := Raise (JsonError "invalid ProtoJSON integer") in
  match j with
  | JBool _ => Raise (JsonError "integer field does not accept bool")
  | JInt n => Ok n
  | JFloat x => if isfinite x && float_is_integer x then Ok (float_to_int x) else invalid
  | JStr s =>
      if str_contains 32 s then invalid else
      match py_int s with
      | Some n => Ok n
      | None =>
          match py_float s with
          | Some x => if isfinite x && float_is_integer x then Ok (float_to_int x) else invalid
          | None => invalid
          end
      end
  | _ => invalid
  end.

Definition no_surrogate (s : pystr) : bool := match utf8_encode s with Some _ => true | None => false end.

Definition _parse_float (j : json) : result json_failure Z :=
  match j with
  | JStr s =>
      if decide (s = u "NaN") then Ok NAN
      else if decide (s = u "Infinity") then Ok INF
      else if decide (s = u "-Infinity") then Ok (with_sign true INF)
      else match py_float s with
           | None => Raise (JsonError "could not convert string to float")
           | Some x => if decide (s = u "nan") then Raise (JsonError "NaN requires the exact spelling") else Ok x
           end
  | JInt n =>
      match float_of_integer n with Some x => Ok x | None => Raise FloatOverflow end
  | JBool b => Ok (if b then 0x3FF0000000000000 else 0)
  | JFloat x => if isfinite x then Ok x else Raise (JsonError "non-finite floats require a quoted spelling")
  | _ => Raise (JsonError "invalid ProtoJSON float")
  end.

Definition _parse_bytes (j : json) : result json_failure bytes :=
  match j with
  | JStr s =>
      let compact := filter (fun c => is_space c = false) s in
      let padded := compact ++ replicate (Z.to_nat ((- Z.of_nat (length compact)) mod 4)) PAD in
      match urlsafe_b64decode padded with Some b => Ok b | None => Raise (JsonError "Incorrect padding") end
  | _ => Raise (JsonError "bytes field requires a base64 string")
  end.

(** [codec.normalize(value)] *)
Definition norm (c : codec) (s : scalar) : result json_failure (option value) :=
  v ← lift_message (normalize_value c (Scalar s)); Ok (Some v).

Definition parse_enum (ignore_unknown : bool) (c : ValueCodec Z) (j : json) : result json_failure (option value) :=
  match j with
  | JStr s =>
      match enum_numbers c ≫= fun numbers => dict_get numbers s with
      | Some n => norm (CInt c) (IntV n)
      | None =>
          match py_int s with
          | Some n => norm (CInt c) (IntV n)
          | None => if ignore_unknown then Ok None else Raise (JsonError "unknown enum name")
          end
      end
  | _ => n ← _parse_integer j; norm (CInt c) (IntV n)
  end.

Definition _accepts_null (c : codec) : bool :=
  match c with CMessage k => bool_decide (FULL_NAME k = VALUE) | _ => false end.

Definition _parse_map_key (c : codec) (key : pystr) : result json_failure scalar :=
  match c with
  | CString => if no_surrogate key then lift_message (normalize_key c (StrV key))
               else Raise (JsonError "map key contains an unpaired surrogate")
  | CBool =>
      if decide (key = u "true") then Ok (BoolV true)
      else if decide (key = u "false") then Ok (BoolV false)
      else Raise (JsonError "bool map key must be 'true' or 'false'")
  | _ => n ← _parse_integer (JStr key); lift_message (normalize_key c (IntV n))
  end.

(** [_json_name] and proto names of the public fields, to their positions. *)
Definition json_names (c : nat) : list (pystr * (nat * Field)) :=
  foldl (fun d '(i, f) =>
    if public f then dict_set (dict_set d (proto_name f) (i, f)) (_json_name f) (i, f) else d) [] (indexed c).

Section Nested.
Context (ignore_unknown : bool) (fuel : nat).
(** [parse_value] of nested messages *)
Context (nested : json -> message -> result json_failure message).

(** [_parse_value]; [None] is [_SKIP]. *)
Definition _parse_value (c : codec) (j : json) : result json_failure (option value) :=
  wrap
    match c with
    | CInt ic =>
        if bool_decide (json_kind ic ∈ ["int32"; "uint32"; "int64"; "uint64"])
        then n ← _parse_integer j; norm c (IntV n)
        else if bool_decide (json_kind ic = "enum") then parse_enum ignore_unknown ic j
        else Raise unsupported
    | CBool => match j with JBool b => norm c (BoolV b) | _ => Raise (JsonError "bool field requires a JSON bool") end
    | CString =>
        match j with
        | JStr s => if no_surrogate s then norm c (StrV s)
                    else Raise (JsonError "string field contains an unpaired surrogate")
        | _ => Raise (JsonError "string field requires a JSON string")
        end
    | CDouble => x ← _parse_float j; norm c (FloatV x)
    | CBytes => b ← _parse_bytes j; norm c (BytesV b)
    | CMessage k => m ← nested j (new k); Ok (Some (MessageV m))
    end.

(** [_set(message, name, value)], while mutations are suspended *)
Definition set_at (i : nat) (f : Field) (x : py_input) (m : message) : result json_failure message :=
  lift_message (_set_field fuel true i f x m).
Definition _set (name : pystr) (x : py_input) (m : message) : result json_failure message :=
  '(i, f) ← _field (cls m) name; set_at i f x m.

Definition child (f : Field) (j : json) : result json_failure value :=
  match codec_of f with
  | CMessage k => m ← nested j (new k); Ok (MessageV m)
  | _ => Raise other_type
  end.

Definition set_times (r : result json_failure (Z * Z)) (m : message) : result json_failure message :=
  '(seconds, nanos) ← r;
  m ← _set (u "seconds") (PValue (Scalar (IntV seconds))) m;
  _set (u "nanos") (PValue (Scalar (IntV nanos))) m.

Definition parse_struct_entry (f : Field) (es : list (scalar * value)) (x : pystr * json) :
    result json_failure (list (scalar * value)) :=
  k ← _parse_map_key CString x.1; v ← child f x.2; Ok (dict_set es k v).

Definition set_scalar (name : pystr) (s : scalar) (m : message) : result json_failure message :=
  _set name (PValue (Scalar s)) m.

Definition parse_value_message (j : json) (m : message) : result json_failure message :=
  match j with
  | JNull => set_scalar (u "null_value") (IntV 0) m
  | JBool b => set_scalar (u "bool_value") (BoolV b) m
  | JInt n =>
      match float_of_integer n with
      | None => Raise FloatOverflow
      | Some x => set_scalar (u "number_value") (FloatV x) m
      end
  | JFloat x =>
      if negb (isfinite x) then Raise (JsonError "Value cannot contain a non-finite number")
      else set_scalar (u "number_value") (FloatV x) m
  | JStr s => if no_surrogate s then set_scalar (u "string_value") (StrV s) m
              else Raise (JsonError "string field contains an unpaired surrogate")
  | JObj _ => '(i, f) ← _field (cls m) (u "struct_value"); v ← child f j; set_at i f (PValue v) m
  | JArr _ => '(i, f) ← _field (cls m) (u "list_value"); v ← child f j; set_at i f (PValue v) m
  end.

(** *** [parse_dict] *)

Record dict_state : Type := mkDict { d_message : message; d_seen : list nat; d_oneofs : list pystr }.

Definition parse_map_entry (kc c : codec) (es : list (scalar * value)) (x : pystr * json) :
    result json_failure (list (scalar * value)) :=
  v ← _parse_value c x.2;
  match v with
  | Some v => k ← _parse_map_key kc x.1; Ok (dict_set es k v)
  | None => Ok es
  end.

Definition is_null (j : json) : bool := match j with JNull => true | _ => false end.

(** The value of a field that is there and not cleared. *)
Definition parse_field (i : nat) (f : Field) (seen : bool) (raw : json) (m : message) : result json_failure message :=
  match map_key_codec f with
  | Some kc =>
      match raw with
      | JObj es => es ← fold_json (parse_map_entry kc (codec_of f)) es []; set_at i f (PDict es) m
      | _ => Raise (JsonError "map field requires a JSON object")
      end
  | None =>
      if repeated f then
        match raw with
        | JArr items =>
            if existsb is_null items && negb (_accepts_null (codec_of f))
            then Raise (JsonError "repeated fields do not accept null elements")
            else vs ← traverse_json (_parse_value (codec_of f)) items; set_at i f (PList (omap id vs)) m
        | _ => Raise (JsonError "repeated field requires a JSON array")
        end
      else
        v ← _parse_value (codec_of f) raw;
        match v with
        | None => Ok m
        | Some v =>
            match (if seen && message_field f then cell_of (get_slot m i) else None), v with
            | Some (One (MessageV current)), MessageV parsed =>
                current ← lift_message (MergeFrom fuel current parsed);
                Ok (set_cell i (One (MessageV current)) m)
            | _, _ => set_at i f (PValue v) m
            end
        end
  end.

Definition parse_dict_step (st : dict_state) (x : pystr * json) : result json_failure dict_state :=
  let '(name, raw) := x in
  match dict_get (json_names (cls (d_message st))) name with
  | None => if ignore_unknown then Ok st else Raise (JsonError "unknown field")
  | Some (i, f) =>
      if is_null raw && negb (_accepts_null (codec_of f))
      then Ok (mkDict (_clear_state i f (d_message st)) (i :: d_seen st) (d_oneofs st))
      else
        oneofs ← match oneof f with
                 | Some o => if bool_decide (o ∈ d_oneofs st)
                             then Raise (JsonError "multiple fields supplied for oneof")
                             else Ok (o :: d_oneofs st)
                 | None => Ok (d_oneofs st)
                 end;
        m ← parse_field i f (bool_decide (i ∈ d_seen st)) raw (d_message st);
        Ok (mkDict m (i :: d_seen st) oneofs)
  end.

Definition dict_parse (data : list (pystr * json)) (m : message) : result json_failure message :=
  st ← fold_json parse_dict_step data (mkDict (Clear m) [] []); Ok (d_message st).

(** *** Well-known types *)

Definition parse_any (j : json) (m : message) : result json_failure message :=
  match j with
  | JObj [] => Ok m
  | JObj data =>
      match dict_get data (u "@type") with
      | None => Raise (JsonError "@type is required for Any")
      | Some (JStr type_url) =>
          if negb (REGISTRY (cls m)) then Raise (JsonError "Any ProtoJSON requires a namespace registry") else
          match find_type type_url with
          | None => Raise (JsonError "unknown type")
          | Some k =>
              embedded ←
                (if bool_decide (FULL_NAME k ∈ _ANY_VALUE_TYPES) then
                   match dict_get data (u "value") with
                   | None => Raise (JsonError "value is required for an Any containing a WKT")
                   | Some v => nested v (new k)
                   end
                 else dict_parse (dict_del data (u "@type")) (new k));
              m ← set_scalar (u "type_url") (StrV type_url) m;
              b ← lift_message (SerializeToString true embedded);
              set_scalar (u "value") (BytesV b) m
          end
      | Some _ => Raise (JsonError "Any @type must be a string")
      end
  | _ => Raise (JsonError "Any requires a JSON object")
  end.

(** [_parse_well_known]; [None]: not handled. *)
Definition _parse_well_known (j : json) (m : message) : result json_failure (option message) :=
  let name := FULL_NAME (cls m) in
  if decide (name = TIMESTAMP) then
    match j with
    | JStr s => m ← set_times (parse_timestamp s) m; Ok (Some m)
    | _ => Raise (JsonError "Timestamp requires an RFC 3339 string")
    end
  else if decide (name = DURATION) then
    match j with
    | JStr s => m ← set_times (parse_duration s) m; Ok (Some m)
    | _ => Raise (JsonError "Duration requires a string")
    end
  else if decide (name = FIELD_MASK) then
    match j with
    | JStr s =>
        paths ← match s with
                | [] => Ok []
                | _ => traverse_json (fun p => r ← _camel_to_snake p; Ok (Scalar (StrV r)))
                         (match split s [44] with Some l => l | None => [] end)
                end;
        m ← _set (u "paths") (PList paths) m; Ok (Some m)
    | _ => Raise (JsonError "FieldMask requires a comma-separated string")
    end
  else if decide (name = STRUCT) then
    match j with
    | JObj data =>
        '(i, f) ← _field (cls m) (u "fields");
        es ← fold_json (parse_struct_entry f) data [];
        m ← set_at i f (PDict es) m; Ok (Some m)
    | _ => Raise (JsonError "Struct requires a JSON object")
    end
  else if decide (name = LIST_VALUE) then
    match j with
    | JArr items =>
        '(i, f) ← _field (cls m) (u "values");
        vs ← traverse_json (child f) items;
        m ← set_at i f (PList vs) m; Ok (Some m)
    | _ => Raise (JsonError "ListValue requires a JSON array")
    end
  else if decide (name = VALUE) then m ← parse_value_message j m; Ok (Some m)
  else if decide (name ∈ _WRAPPERS) then
    '(i, f) ← _field (cls m) (u "value");
    v ← _parse_value (codec_of f) j;
    match v with
    | Some v => m ← set_at i f (PValue v) m; Ok (Some m)
    | None => Raise other_type
    end
  else if decide (name = ANY) then m ← parse_any j m; Ok (Some m)
  else if decide (name = EMPTY) then
    match j with
    | JObj [] => Ok (Some m)
    | JObj _ => if ignore_unknown then Ok (Some m) else Raise (JsonError "unknown field")
    | _ => Raise (JsonError "Empty requires a JSON object")
    end
  else Ok None.

End Nested.

Fixpoint parse_value (fuel : nat) (ignore_unknown : bool) (j : json) (m : message) : result json_failure message :=
  match fuel with
  | O => Raise JsonFuel
  | S fuel =>
      let m := Clear m in
      w ← _parse_well_known ignore_unknown fuel (parse_value fuel ignore_unknown) j m;
      match w with
      | Some m => Ok m
      | None =>
          match j with
          | JObj data => dict_parse ignore_unknown fuel (parse_value fuel ignore_unknown) data m
          | _ => Raise (JsonError "message ProtoJSON must be an object")
          end
      end
  end.

Definition parse_dict (fuel : nat) (ignore_unknown : bool) (data : list (pystr * json)) (m : message) :
    result json_failure message :=
  dict_parse ignore_unknown fuel (parse_value fuel ignore_unknown) data m.

End Parse.

(** [_reject_duplicate_keys], the hook of [json.loads] *)
Definition _reject_duplicate_keys (pairs : list (pystr * json)) : result json_failure (list (pystr * json)) :=
  fold_json (fun d '(k, v) =>
    if dict_has d k then Raise (JsonError "duplicate JSON key") else Ok (dict_set d k v)) pairs [].
