(* ===== verification/JsonScalars.v ===== *)
(** * JSON: times, scalars and map keys

    What the parser makes of the texts the encoder writes: timestamps, durations
    and paths, the values of every scalar codec and the keys of maps. *)
From stdpp Require Import gmap.
From S2P Require Import Prelude PyStr PyText Json Bytes PyNumber PyTime Base64 Wire ValueCodec Message MessageInv MessageOps JsonFormat.
#[local] Open Scope Z_scope.

(** ** Characters in texts *)

Lemma find_char_app c s t : Forall (fun d => d <> c) s -> find_char c (s ++ t) = (fun i => (length s + i)%nat) <$> find_char c t.
Proof.
  induction 1 as [|d s Hd _ IH]; simpl; [by destruct (find_char c t)|].
  destruct (Z.eqb_spec d c); [done|]. rewrite IH. by destruct (find_char c t).
Qed.

Lemma find_char_none c s : Forall (fun d => d <> c) s -> find_char c s = None.
Proof. intros Hs. rewrite <- (app_nil_r s), find_char_app by done. done. Qed.

Lemma digits_other s c : forallb ascii_digit s = true -> ascii_digit c = false -> Forall (fun d => d <> c) s.
Proof.
  intros Hs Hc. apply Forall_forall. intros d Hd ->. rewrite forallb_forall in Hs.
  rewrite Hs in Hc; [done|]. by apply list_elem_of_In.
Qed.

(** ** Fractions *)

(** The digits of a fraction. *)
Lemma fraction_digits n :
  0 < n < 10 ^ 9 ->
  exists ds, _fraction n = 46 :: ds /\ forallb ascii_digit ds = true /\ ds <> [] /\ (length ds <= 9)%nat /\
    0 <= digits_value ds < 10 ^ Z.of_nat (length ds) /\ digits_value ds * 10 ^ (9 - Z.of_nat (length ds)) = n.
Proof.
  intros Hn. unfold _fraction. destruct (Z.eqb_spec n 0); [lia|].
  rewrite zero_padded_digits by (simpl; lia). cbn [take].
  assert (Htake : forall a b : nat, (a + b = 9)%nat -> (1 <= a)%nat -> n mod 10 ^ Z.of_nat b = 0 ->
    exists ds, 46 :: take a (digits_of 9 n) = 46 :: ds /\ forallb ascii_digit ds = true /\ ds <> [] /\
      (length ds <= 9)%nat /\ 0 <= digits_value ds < 10 ^ Z.of_nat (length ds) /\
      digits_value ds * 10 ^ (9 - Z.of_nat (length ds)) = n).
  { intros a b Hab Ha Hm. exists (digits_of a (n / 10 ^ Z.of_nat b)).
    assert (Hpb : 0 < 10 ^ Z.of_nat b) by (apply Z.pow_pos_nonneg; lia).
    assert (Hq : 0 <= n / 10 ^ Z.of_nat b) by (apply Z.div_pos; lia).
    destruct (digits_of_facts a _ Hq) as (H1 & H2 & H3). rewrite H1.
    assert (Hlt : n / 10 ^ Z.of_nat b < 10 ^ Z.of_nat a).
    { apply Z.div_lt_upper_bound; [done|]. rewrite <- Z.pow_add_r by lia. replace (Z.of_nat b + Z.of_nat a) with 9 by lia. lia. }
    rewrite Z.mod_small in H3 by lia. split_and!; try done; try lia.
    - f_equal. rewrite <- Hab at 1. rewrite digits_of_app, take_app_length'; [done|]. by rewrite H1.
    - intros He. rewrite He in H1. simpl in H1. lia.
    - rewrite H3. replace (9 - Z.of_nat a) with (Z.of_nat b) by lia.
      pose proof (Z.div_mod n (10 ^ Z.of_nat b) ltac:(lia)). lia. }
  destruct (Z.eqb_spec (n mod 1000000) 0) as [H6|H6]; [|destruct (Z.eqb_spec (n mod 1000) 0) as [H3|H3]].
  - apply (Htake 3%nat 6%nat); [done|lia|done].
  - apply (Htake 6%nat 3%nat); [done|lia|done].
  - apply (Htake 9%nat 0%nat); [done|lia|by rewrite Z.mod_1_r].
Qed.

Section Times.
Context `{PyDigits}.

(** The nanoseconds of a fraction with a sign. *)
Lemma nanos_of_fraction (neg : bool) n ds :
  0 < n < 10 ^ 9 -> _fraction n = 46 :: ds ->
  nanos_of ((if neg then u "-0" else u "0") ++ 46 :: ds) = Some (if neg then - n else n).
Proof.
  intros Hn Hf. destruct (fraction_digits n Hn) as (ds' & Hf' & Hd & Hne & Hl & Hv & He).
  rewrite Hf in Hf'. injection Hf' as <-. unfold nanos_of. rewrite py_float_fraction by done.
  change 1000000000 with (10 ^ 9). rewrite fraction_round_sign by lia. by rewrite He.
Qed.

(** *** Timestamps *)

Lemma render_chars t c :
  valid_datetime t = true -> ascii_digit c = false -> c <> 45 -> c <> 84 -> c <> 58 -> Forall (fun d => d <> c) (render t).
Proof.
  intros Hv Hc H1 H2 H3. destruct t as [y m d h mi se]. unfold valid_datetime, valid_date in Hv.
  cbn [year month day hour minute second] in Hv. unfold render. cbn [year month day hour minute second].
  assert (forall w n, (1 <= w)%nat -> 0 <= n < 10 ^ Z.of_nat w -> Forall (fun d => d <> c) (zero_padded w n)) as Hz.
  { intros w n Hw Hn. rewrite zero_padded_digits by done. apply digits_other; [|done].
    apply digits_of_facts. lia. }
  pose proof (days_in_month_le y m) as Hdim.
  rewrite !Forall_app, !Forall_singleton. split_and!; try (apply Hz; simpl; lia); auto.
Qed.

Lemma parse_encode_timestamp seconds nanos s :
  encode_timestamp seconds nanos = Ok s -> parse_timestamp s = Ok (seconds, nanos).
Proof.
  unfold encode_timestamp. destruct (valid_timestamp seconds nanos) eqn:Hv; [|done]. cbn [negb]. intros [= <-].
  destruct (datetime_roundtrip seconds) as [Hd Hs]; [unfold valid_timestamp in Hv; lia|].
  set (t := datetime_of_seconds seconds) in *. clearbody t. unfold parse_timestamp.
  assert (timestamp_parts (render t ++ _fraction nanos ++ [90]) = Some (t, nanos, 0)) as ->;
    [|by rewrite Hs, Z.sub_0_r, Hv].
  assert (Hz : Forall (fun d => d <> 90) (render t ++ _fraction nanos)).
  { apply Forall_app. split; [by apply render_chars|]. destruct (Z.eqb_spec nanos 0) as [->|Hne]; [constructor|].
    destruct (fraction_digits nanos) as (ds & -> & Hds & _); [unfold valid_timestamp in Hv; lia|].
    constructor; [done|by apply digits_other]. }
  unfold timestamp_parts. rewrite app_assoc, find_char_app by done. cbn [find_char].
  change (90 =? 90) with true. cbn [fmap option_fmap option_map orelse]. rewrite Nat.add_0_r, take_app_length, drop_app_length.
  assert (Ht : str_contains 116 (render t) = false).
  { unfold str_contains. apply bool_decide_eq_false. intros Hin.
    pose proof (render_chars t 116 Hd ltac:(done) ltac:(done) ltac:(done) ltac:(done)) as Hc.
    by apply (proj1 (Forall_forall _ _) Hc 116 Hin). }
  destruct (Z.eqb_spec nanos 0) as [->|Hne].
  - change (_fraction 0) with (@nil Z). rewrite app_nil_r, find_char_none by (by apply render_chars).
    by rewrite Ht, strptime_render.
  - assert (Hn : 0 < nanos < 10 ^ 9) by (unfold valid_timestamp in Hv; lia).
    destruct (fraction_digits nanos Hn) as (ds & Hf & Hds & Hnil & Hl & _). rewrite Hf.
    rewrite find_char_app by (by apply render_chars). cbn [find_char]. change (46 =? 46) with true.
    cbn [fmap option_fmap option_map]. rewrite Nat.add_0_r, take_app_length.
    rewrite drop_app_ge, Nat.sub_succ_l, Nat.sub_diag by lia. cbn [drop]. rewrite drop_0, Ht, strptime_render by done.
    destruct (Nat.ltb_spec 9 (length ds)); [lia|]. destruct ds as [|c ds]; [done|].
    change (u "0." ++ c :: ds) with (u "0" ++ 46 :: c :: ds).
    rewrite (nanos_of_fraction false nanos (c :: ds)) by done. done.
Qed.

(** *** Durations *)

Lemma endswith_snoc s c : endswith (s ++ [c]) [c] = true.
Proof. apply endswith_spec. by exists s. Qed.

Lemma parse_encode_duration seconds nanos s :
  encode_duration seconds nanos = Ok s -> parse_duration s = Ok (seconds, nanos).
Proof.
  unfold encode_duration. destruct (valid_duration seconds nanos) eqn:Hv; [|done]. cbn [negb]. intros [= <-].
  set (neg := (seconds <? 0) || (nanos <? 0)).
  destruct (str_of_int_text (Z.abs seconds)) as (sd & Hsd & Hd1 & Hd2 & Hd3 & _).
  destruct (Z.ltb_spec (Z.abs seconds) 0); [lia|]. cbn [app] in Hsd. rewrite Hsd.
  unfold parse_duration. rewrite !app_assoc, endswith_snoc. cbn [negb].
  assert (Hint : py_int ((if neg then [45] else []) ++ sd) = Some seconds).
  { rewrite py_int_digits by done. f_equal. rewrite Hd3. unfold valid_duration in Hv. subst neg.
    destruct (Z.ltb_spec seconds 0), (Z.ltb_spec nanos 0); simpl; lia. }
  assert (duration_parts ((((if neg then [45] else []) ++ sd) ++ _fraction (Z.abs nanos)) ++ [115]) = Some (seconds, nanos)) as ->;
    [|by rewrite Hv].
  set (head := (if neg then [45] else []) ++ sd) in *.
  assert (Hhead : Forall (fun d => d <> 46) head).
  { apply Forall_app. split; [by destruct neg; repeat constructor|by apply digits_other]. }
  unfold duration_parts. rewrite <- app_assoc.
  assert (Hcut : forall a : pystr, take (length (a ++ [115]) - 1) (a ++ [115]) = a).
  { intros a. rewrite length_app. simpl. rewrite Nat.add_sub. apply take_app_length. }
  rewrite app_assoc, Hcut, <- app_assoc. destruct (Z.eqb_spec nanos 0) as [->|Hne].
  - change (_fraction (Z.abs 0)) with (@nil Z). rewrite app_nil_r, app_nil_l.
    rewrite find_char_app by done. change (find_char 46 [115]) with (@None nat). cbn [fmap option_fmap option_map].
    rewrite Hint. done.
  - assert (Hn : 0 < Z.abs nanos < 10 ^ 9) by (unfold valid_duration in Hv; lia).
    destruct (fraction_digits (Z.abs nanos) Hn) as (ds & Hf & Hds & _). rewrite Hf.
    rewrite find_char_app by done. cbn [app find_char]. change (46 =? 46) with true.
    cbn [fmap option_fmap option_map]. rewrite Nat.add_0_r, take_app_length, Hint, drop_app_length.
    cbn [mbind option_bind].
    assert (startswith (head ++ 46 :: ds ++ [115]) [45] = neg) as ->.
    { unfold head. destruct neg; [done|]. cbn [app]. destruct sd as [|c sd]; [done|]. simpl in Hd1 |- *.
      case_bool_decide; [subst; unfold ascii_digit in Hd1; lia|done]. }
    rewrite (nanos_of_fraction neg (Z.abs nanos)) by done. cbn [mbind option_bind]. do 2 f_equal.
    unfold valid_duration in Hv. subst neg. destruct (Z.ltb_spec seconds 0), (Z.ltb_spec nanos 0); simpl; lia.
Qed.

End Times.

(** ** Scalars *)

Definition INTEGER_KINDS : list string := ["int32"; "uint32"; "int64"; "uint64"].

(** A codec with a JSON form; the names of an enum lead back to their numbers. *)
Definition codec_json_ok (c : codec) : Prop :=
  match c with
  | CInt c =>
      json_kind c ∈ INTEGER_KINDS \/
      (json_kind c = "enum" /\ forall n name,
         (enum_names c ≫= fun names => dict_get names n) = Some name ->
         (enum_numbers c ≫= fun numbers => dict_get numbers name) = Some n)
  | _ => True
  end.

Definition key_json_ok (c : codec) : Prop :=
  match c with CInt c => json_kind c ∈ INTEGER_KINDS | CBool | CString => True | _ => False end.

(** A scalar JSON can carry: texts have UTF-8 encodings, and of the NaNs there is
    one. *)
Definition scalar_json (s : scalar) : Prop :=
  match s with
  | StrV s => no_surrogate s = true
  | BytesV b => bytes_ok b = true
  | FloatV x => 0 <= x < 2 ^ 64 /\ (isnan x = true -> x = NAN)
  | IntV _ | BoolV _ => True
  end.

Lemma float_bits x : 0 <= x < 2 ^ 64 -> x = with_sign (negative x) (magnitude x).
Proof.
  intros Hx. unfold magnitude, negative, SIGN. rewrite land_mask by lia.
  rewrite (testbit_top x 63) by lia.
  destruct (Z.leb_spec (2 ^ 63) x); cbn [with_sign]; unfold SIGN.
  - rewrite <- (Z.mod_unique x (2 ^ 63) 1 (x - 2 ^ 63)) by lia. lia.
  - by rewrite Z.mod_small by lia.
Qed.

Section Scalars.
Context `{JsonProgram} `{PyCase} `{PyDigits} (HS : schema_ok _).
Context (ign : bool) (enc : message -> result json_failure json).
Context (dec : json -> message -> result json_failure message).

Lemma norm_ok c s : scalar_ok c s -> norm c s = Ok (Some (Scalar s)).
Proof.
  intros Hs. unfold norm. rewrite (normalize_value_ok HS (fun _ => False)); [done|]. by destruct c.
Qed.

Lemma parse_integer_str n : _parse_integer (JStr (str_of_int n)) = Ok n.
Proof.
  unfold _parse_integer. rewrite py_int_str.
  assert (str_contains 32 (str_of_int n) = false) as ->; [|done].
  unfold str_contains. apply bool_decide_eq_false. intros Hin.
  destruct (str_of_int_text n) as (ds & He & Hd & _). rewrite He in Hin. apply elem_of_app in Hin as [Hin|Hin].
  - destruct (n <? 0); [|by inversion Hin]. apply list_elem_of_singleton in Hin. done.
  - rewrite forallb_forall in Hd. apply list_elem_of_In in Hin. by specialize (Hd 32 Hin).
Qed.

Lemma parse_encode_bytes b : bytes_ok b = true -> _parse_bytes (JStr (b64encode b)) = Ok b.
Proof.
  intros Hb. destruct (encode_plain b Hb) as [Hp Hl]. unfold _parse_bytes.
  assert (filter (fun c => is_space c = false) (b64encode b) = b64encode b) as ->.
  { clear Hl. induction Hp as [|c s (_ & Hc & _) _ IH]; [done|]. by rewrite filter_cons_True, IH. }
  rewrite Z.mod_opp_l_z by (done || lia). simpl. by rewrite app_nil_r, decode_encode.
Qed.

Lemma parse_encode_float x :
  0 <= x < 2 ^ 64 -> (isnan x = true -> x = NAN) -> _parse_float (encode_float x) = Ok x /\ encode_float x <> JNull.
Proof.
  intros Hx Hn. unfold encode_float. destruct (isnan x) eqn:En; [by rewrite Hn|].
  destruct (isinf x) eqn:Ei.
  - split; [|done]. apply Z.eqb_eq in Ei. pose proof (float_bits x Hx) as Hb. rewrite Ei in Hb.
    destruct (negative x); rewrite Hb at 1; done.
  - split; [|done]. unfold _parse_float, isfinite, isnan, isinf in *. destruct (magnitude x <? INF) eqn:E; [done|lia].
Qed.

Lemma parse_encode_scalar o c s j :
  scalar_ok c s -> codec_json_ok c -> scalar_json s -> _encode_value o enc c (Scalar s) = Ok j ->
  _parse_value ign dec c j = Ok (Some (Scalar s)) /\ j <> JNull.
Proof.
  intros Hs Hc Hj He. unfold _parse_value. destruct c as [ic| | | | |k], s as [n|b|x|b|s]; try done; simpl in He.
  - unfold encode_integer in He. destruct Hc as [Hk|[Hk Hnames]].
    + unfold INTEGER_KINDS in Hk. rewrite (bool_decide_eq_true_2 (json_kind ic ∈ _)) by done.
      destruct (bool_decide (json_kind ic ∈ ["int64"; "uint64"])) eqn:E1.
      * injection He as <-. rewrite parse_integer_str. cbn [mbind result_bind]. by rewrite norm_ok.
      * rewrite bool_decide_eq_true_2 in He.
        { injection He as <-. cbn [_parse_integer mbind result_bind]. by rewrite norm_ok. }
        apply bool_decide_eq_false in E1. set_solver.
    + rewrite Hk in He |- *.
      change (bool_decide ("enum" ∈ ["int64"; "uint64"])) with false in He.
      change (bool_decide ("enum" ∈ ["int32"; "uint32"])) with false in He.
      change (bool_decide ("enum" = "enum")) with true in He |- *.
      change (bool_decide ("enum" ∈ ["int32"; "uint32"; "int64"; "uint64"])) with false.
      cbv iota in He |- *. injection He as <-. unfold parse_enum.
      destruct (use_integers_for_enums o); [cbn [_parse_integer mbind result_bind]; by rewrite norm_ok|].
      destruct (enum_names ic ≫= _) as [name|] eqn:En.
      * rewrite (Hnames n name En). by rewrite norm_ok.
      * cbn [_parse_integer mbind result_bind]. by rewrite norm_ok.
  - injection He as <-. by rewrite norm_ok.
  - injection He as <-. destruct Hj as [Hx Hn]. destruct (parse_encode_float x Hx Hn) as [-> ?].
    cbn [mbind result_bind]. by rewrite norm_ok.
  - injection He as <-. rewrite parse_encode_bytes by done. cbn [mbind result_bind]. by rewrite norm_ok.
  - injection He as <-. simpl in Hj. rewrite Hj. by rewrite norm_ok.
Qed.

(** The key of a map entry is read back, and keys stay distinct. *)
Lemma parse_encode_key kc k :
  key_codec_ok kc -> key_json_ok kc -> scalar_ok kc k -> scalar_json k -> _parse_map_key kc (_encode_map_key k) = Ok k.
Proof.
  intros Hkc Hkj Hs Hj. unfold _parse_map_key.
  destruct kc as [ic| | | | |c], k as [n|b|x|b|s]; try done; cbn [_encode_map_key].
  - rewrite parse_integer_str. cbn [mbind result_bind]. by rewrite (normalize_key_ok HS).
  - by destruct b.
  - simpl in Hj. rewrite Hj. by rewrite (normalize_key_ok HS).
Qed.

Lemma encode_key_inj kc k k' :
  key_codec_ok kc -> key_json_ok kc -> scalar_ok kc k -> scalar_ok kc k' -> scalar_json k -> scalar_json k' ->
  _encode_map_key k = _encode_map_key k' -> k = k'.
Proof.
  intros Hkc Hkj Hs Hs' Hj Hj' He. pose proof (parse_encode_key kc k Hkc Hkj Hs Hj) as Hk.
  rewrite He, (parse_encode_key kc k' Hkc Hkj Hs' Hj') in Hk. by injection Hk.
Qed.

End Scalars.

(** ** Paths *)

(** Splitting a join at a character its parts do not have. *)
Lemma split_scan_part c p cur s :
  Forall (fun d => d <> c) p -> split_scan [c] 0 cur (p ++ c :: s) = (reverse cur ++ p) :: split_scan [c] 0 [] s.
Proof.
  intros Hp. revert cur. induction Hp as [|d p Hd _ IH]; intros cur; cbn [app split_scan startswith].
  - by rewrite bool_decide_eq_true_2, app_nil_r.
  - rewrite bool_decide_eq_false_2 by done. cbn [andb]. by rewrite IH, reverse_cons, <- app_assoc.
Qed.

Lemma split_scan_last c p cur : Forall (fun d => d <> c) p -> split_scan [c] 0 cur p = [reverse cur ++ p].
Proof.
  intros Hp. revert cur. induction Hp as [|d p Hd _ IH]; intros cur; cbn [split_scan startswith].
  - by rewrite app_nil_r.
  - rewrite bool_decide_eq_false_2 by done. cbn [andb]. by rewrite IH, reverse_cons, <- app_assoc.
Qed.

Lemma split_join c ps :
  ps <> [] -> Forall (Forall (fun d => d <> c)) ps -> split (join [c] ps) [c] = Some ps.
Proof.
  intros Hne Hps. unfold split. f_equal. induction Hps as [|p ps Hp Hps IH]; [done|]. clear Hne.
  destruct ps as [|p' ps]; [by apply split_scan_last|]. rewrite join_cons by done. cbn [app].
  rewrite split_scan_part by done. by rewrite IH.
Qed.

(** A path of a mask that has a JSON form. *)
Definition mask_path `{PyCase} (p : pystr) : Prop :=
  p <> [] /\ Forall (fun c => 0 <= c < 128 /\ c <> 44) p /\ exists q, _snake_to_camel p = Ok q.

Section Paths.
Context `{PyCase}.

Definition camel (path : pystr) : pystr := path ≫= fun c => if char_isupper c then 95 :: char_lower c else [c].

Lemma snake_loop_camel p capitalized q :
  Forall (fun c => 0 <= c < 128 /\ c <> 44) p -> snake_loop capitalized p = Ok q ->
  camel q = (if capitalized then 95 :: p else p) /\ Forall (fun c => c <> 95 /\ c <> 44) q.
Proof.
  intros Hp. revert capitalized q. induction Hp as [|c p [Hc Hcomma] _ IH]; intros capitalized q; simpl.
  { destruct capitalized; [done|]. by intros [= <-]. }
  destruct (case_ascii c Hc) as (Hu & Hl & Hup & Hlo). destruct (char_isupper c) eqn:Eu; [done|].
  destruct (Z.eqb_spec c 95) as [->|Hne].
  { destruct capitalized; [done|]. apply IH. }
  destruct capitalized.
  - destruct (char_islower c) eqn:El; [|done]. cbn [negb]. destruct (snake_loop false p) as [r|] eqn:Er; [|done].
    intros [= <-]. destruct (IH _ _ Er) as [IH1 IH2]. rewrite Hup. unfold upper_char. rewrite <- Hl.
    destruct (case_ascii (c - 32) ltac:(lia)) as (Hu' & _ & _ & Hlo').
    cbn [app]. split; [|constructor; [lia|done]]. unfold camel in *. cbn [mbind list_bind]. fold (@mbind list _).
    rewrite Hu', Hlo'. unfold lower_char. replace ((65 <=? c - 32) && (c - 32 <=? 90)) with true by lia.
    cbn [app]. do 2 f_equal; [lia|done].
  - destruct (snake_loop false p) as [r|] eqn:Er; [|done]. intros [= <-]. destruct (IH _ _ Er) as [IH1 IH2].
    split; [|by constructor]. unfold camel in *. cbn [mbind list_bind]. fold (@mbind list _). rewrite Eu. cbn [app]. by f_equal.
Qed.

Lemma camel_of_snake p :
  mask_path p -> exists q, _snake_to_camel p = Ok q /\ _camel_to_snake q = Ok p /\ q <> [] /\ Forall (fun c => c <> 44) q.
Proof.
  intros (Hne & Hp & q & Hq). exists q. split; [done|]. destruct (snake_loop_camel p false q Hp Hq) as [Hcam Hno].
  unfold _camel_to_snake, str_contains. rewrite bool_decide_eq_false_2.
  - fold (camel q). rewrite Hcam. split; [done|]. split; [by intros ->|]. eapply Forall_impl; [exact Hno|]. by intros c [_ ?].
  - intros Hin. rewrite Forall_forall in Hno. by destruct (Hno 95 Hin).
Qed.

End Paths.
