(* ===== verification/JsonRoundtrip.v ===== *)
(** * JSON: the fields of a message, there and back

    The messages with a JSON form and the schemas that give them one; what the
    parser makes of the encoded value of a field, for elements, lists, maps and
    singular fields, with one level of nested messages given. *)
From stdpp Require Import gmap.
From S2P Require Import Prelude PyStr PyText Json Bytes PyNumber PyTime Base64 Wire ValueCodec Message MessageInv MessageOps MessageCanon MessageSteps MessageEncode MessageClone JsonFormat JsonScalars.
#[local] Open Scope Z_scope.

Abbreviation any_bytes := (fun (_ : nat) (_ : bytes) => True).
Abbreviation message_ok := (message_ok any_bytes).
Abbreviation body_ok := (body_ok any_bytes).

(** ** Schemas *)

Section Schemas.
Context `{JsonProgram} `{PyCase}.

Definition plain (f : Field) : Prop :=
  singular f = true /\ has_presence f = false /\ public f = true.

Definition int_field (name : pystr) (f : Field) : Prop :=
  proto_name f = name /\ plain f /\ exists c, codec_of f = CInt c.

(** The members of [google.protobuf.Value]. *)
Definition value_member (f : Field) : Prop :=
  (proto_name f = u "null_value" /\ exists c, codec_of f = CInt c) \/
  (proto_name f = u "number_value" /\ codec_of f = CDouble) \/
  (proto_name f = u "string_value" /\ codec_of f = CString) \/
  (proto_name f = u "bool_value" /\ codec_of f = CBool) \/
  (proto_name f = u "struct_value" /\ exists k, codec_of f = CMessage k /\ FULL_NAME k = STRUCT) \/
  (proto_name f = u "list_value" /\ exists k, codec_of f = CMessage k /\ FULL_NAME k = LIST_VALUE).

(** A class with a well-known name has the fields of that type. *)
Record well_known_shape (c : nat) : Prop := {
  wk_times : FULL_NAME c = TIMESTAMP \/ FULL_NAME c = DURATION -> exists s n,
    FIELDS c = [s; n] /\ int_field (u "seconds") s /\ int_field (u "nanos") n;
  wk_mask : FULL_NAME c = FIELD_MASK -> exists f,
    FIELDS c = [f] /\ proto_name f = u "paths" /\ map_key_codec f = None /\ repeated f = true /\ codec_of f = CString;
  wk_struct : FULL_NAME c = STRUCT -> exists f k,
    FIELDS c = [f] /\ proto_name f = u "fields" /\ map_key_codec f = Some CString /\ codec_of f = CMessage k;
  wk_list : FULL_NAME c = LIST_VALUE -> exists f k,
    FIELDS c = [f] /\ proto_name f = u "values" /\ map_key_codec f = None /\ repeated f = true /\ codec_of f = CMessage k;
  wk_wrapper : FULL_NAME c ∈ _WRAPPERS -> exists f, FIELDS c = [f] /\ proto_name f = u "value" /\ plain f;
  wk_value : FULL_NAME c = VALUE -> exists o, _oneof_python_name c (u "kind") = Some o /\
    forall i f, FIELDS c !! i = Some f -> oneof f = Some o /\ public f = true /\
      field_by_name c (proto_name f) = Some (i, f) /\ value_member f;
  wk_empty : FULL_NAME c = EMPTY -> FIELDS c = [];
  wk_any : FULL_NAME c = ANY -> exists t v, FIELDS c = [t; v] /\
    proto_name t = u "type_url" /\ plain t /\ default t = StrV [] /\ proto_name v = u "value" /\ plain v /\ default v = BytesV []
}.

Record json_schema_ok : Prop := {
  js_schema : schema_ok _;
  js_names c i f : FIELDS c !! i = Some f -> public f = true ->
    dict_get (json_names c) (proto_name f) = Some (i, f) /\ dict_get (json_names c) (_json_name f) = Some (i, f);
  js_codec c f : f ∈ FIELDS c -> codec_json_ok (codec_of f) /\ forall kc, map_key_codec f = Some kc -> key_json_ok kc;
  js_default c f : f ∈ FIELDS c -> singular f = true -> has_presence f = false ->
    scalar_ok (codec_of f) (default f) /\ scalar_json (default f) /\ scalar_eqb (default f) (default f) = true;
  js_well_known c : well_known_shape c;
  (** the key of an [Any] for its type is no field of a message *)
  js_type_key c f : f ∈ FIELDS c -> public f = true -> proto_name f <> u "@type" /\ _json_name f <> u "@type"
}.

(** ** Messages *)

Definition json_value (J : message -> Prop) (v : value) : Prop :=
  match v with Scalar s => scalar_json s | MessageV m => J m end.

(** The values of the well-known types that have a JSON form. *)
Record well_known_value (m : message) : Prop := {
  wv_timestamp : FULL_NAME (cls m) = TIMESTAMP -> exists s n,
    get_int m (u "seconds") = Ok s /\ get_int m (u "nanos") = Ok n /\ valid_timestamp s n = true;
  wv_duration : FULL_NAME (cls m) = DURATION -> exists s n,
    get_int m (u "seconds") = Ok s /\ get_int m (u "nanos") = Ok n /\ valid_duration s n = true;
  wv_mask : FULL_NAME (cls m) = FIELD_MASK -> forall p, Scalar (StrV p) ∈ items_of (get_slot m 0) -> mask_path p;
  wv_value : FULL_NAME (cls m) = VALUE -> exists i f v,
    FIELDS (cls m) !! i = Some f /\ get_slot m i = mkSlot (Some (One v)) true /\
    (proto_name f = u "null_value" -> v = Scalar (IntV 0)) /\
    (forall x, v = Scalar (FloatV x) -> isfinite x = true)
}.

(** An [Any] JSON carries whole: it is empty, or its type is known and its payload is the
    encoding of a message of that type, which satisfies [J]. *)
Definition any_json (J : message -> Prop) (m : message) : Prop :=
  exists url payload, get_str m (u "type_url") = Ok url /\ get_bytes m (u "value") = Ok payload /\
    ((url = [] /\ payload = []) \/
     ((url <> [] \/ payload <> []) /\ REGISTRY (cls m) = true /\ exists e, find_type url = Some (cls e) /\
      FromString (cls e) payload = Ok e /\ SerializeToString true e = Ok payload /\ J e)).

(** A message with at most [n] levels that JSON carries whole: no unknown fields,
    no hidden fields with values, and values with a JSON form.  The message in an
    [Any] is one level below it. *)
Fixpoint jsonable (n : nat) (m : message) : Prop :=
  match n with
  | O => False
  | S n =>
      _unknown_fields m = [] /\ (FULL_NAME (cls m) = ANY -> any_json (fun e => message_ok n e /\ jsonable n e) m) /\
      (forall i f, FIELDS (cls m) !! i = Some f -> public f = true \/ get_slot m i = no_slot) /\
      (forall i, Forall (json_value (jsonable n)) (slot_values (get_slot m i)) /\
                 Forall scalar_json (entries_of (get_slot m i)).*1) /\
      well_known_value m
  end.

Lemma any_json_mono (J K : message -> Prop) m : (forall e, J e -> K e) -> any_json J m -> any_json K m.
Proof.
  intros HJK (url & b & Hu & Hb & [?|(Hne & Hr & e & ? & ? & ? & ?%HJK)]); exists url, b; (split; [done|]; split; [done|]);
    [by left|right]. split; [done|]. split; [done|]. by exists e.
Qed.

Lemma jsonable_more n m : jsonable n m -> jsonable (S n) m.
Proof.
  revert m. induction n as [|n IH]; intros m; [done|]. intros (Hu & Hany & Hp & Hv & Hwk).
  change (jsonable (S (S n)) m) with (_unknown_fields m = [] /\
    (FULL_NAME (cls m) = ANY -> any_json (fun e => message_ok (S n) e /\ jsonable (S n) e) m) /\
    (forall i f, FIELDS (cls m) !! i = Some f -> public f = true \/ get_slot m i = no_slot) /\
    (forall i, Forall (json_value (jsonable (S n))) (slot_values (get_slot m i)) /\
               Forall scalar_json (entries_of (get_slot m i)).*1) /\ well_known_value m).
  split; [done|]. split; [|split; [done|split; [|done]]].
  - intros Hn. apply (any_json_mono (fun e => message_ok n e /\ jsonable n e)); [|by apply Hany].
    intros e [He Hj]. split; [by apply message_ok_S|by apply IH].
  - intros i. destruct (Hv i) as [Hs Hk]. split; [|done]. eapply Forall_impl; [exact Hs|]. intros [s|m']; [done|apply IH].
Qed.

End Schemas.

(** ** Folds and traversals *)

Lemma fold_dict_set {A K V} `{EqDecision K} (step : list (K * V) -> A -> result json_failure (list (K * V))) l kvs d0 :
  Forall2 (fun a kv => forall d, step d a = Ok (dict_set d kv.1 kv.2)) l kvs -> NoDup (d0 ++ kvs).*1 ->
  fold_json step l d0 = Ok (d0 ++ kvs).
Proof.
  intros Hl. revert d0. induction Hl as [|a [k v] l kvs Ha _ IH]; intros d0 Hnd; [by rewrite app_nil_r|].
  cbn [fold_json]. rewrite Ha. cbn [mbind result_bind fst snd]. rewrite dict_set_new.
  - rewrite IH; [by rewrite <- app_assoc|by rewrite <- app_assoc].
  - rewrite fmap_app in Hnd. apply NoDup_app in Hnd as (_ & Hd & _). intros Hin. apply (Hd k Hin). left.
Qed.

Lemma traverse_json_Forall2 {A B} (g : A -> result json_failure B) l l' :
  Forall2 (fun a b => g a = Ok b) l l' -> traverse_json g l = Ok l'.
Proof.
  induction 1 as [|a b l l' Hab _ IH]; [done|]. cbn [traverse_json]. rewrite Hab. cbn [mbind result_bind]. by rewrite IH.
Qed.

Lemma omap_id_Some {A} (l : list A) : omap id (Some <$> l) = l.
Proof. induction l as [|a l IH]; [done|]. cbn. by f_equal. Qed.

Lemma Forall2_exists {A B} (R : A -> B -> Prop) l : Forall (fun a => exists b, R a b) l -> exists l', Forall2 R l l'.
Proof.
  induction 1 as [|a l [b Hb] _ [l' IH]]; [by exists []|]. exists (b :: l'). by constructor.
Qed.

(** ** One level *)

Section Level.
Context `{JsonProgram} `{PyCase} `{PyDigits} (HJ : json_schema_ok).
Context (o : options) (ign : bool) (n : nat).
Context (enc : message -> result json_failure json) (dec : json -> message -> result json_failure message).

(** What is known of nested messages. *)
Definition there_and_back (m : message) : Prop :=
  exists j m', enc m = Ok j /\ dec j (new (cls m)) = Ok m' /\ cls m' = cls m /\ message_ok n m' /\
    canon n false m' = canon n false m /\ (is_null j = true -> FULL_NAME (cls m) = VALUE).

Context (Hnested : forall m, message_ok n m -> jsonable n m -> there_and_back m).

Abbreviation cn := (canon n false).
Abbreviation clone := (clone_message n).
Abbreviation P := (message_ok n).

Let HS : schema_ok _ := js_schema HJ.

Lemma canon_value_ok c v : value_ok P c v -> value_ok P c (canon_value cn v).
Proof.
  destruct v as [s|m], c as [| | | | |k]; try done. intros [Hk Hm]. simpl. rewrite cls_canon.
  split; [done|by apply (canon_message_ok HS)].
Qed.

(** *** Elements *)

Lemma encode_scalar_total c s :
  scalar_ok c s -> codec_json_ok c -> exists j, _encode_value o enc c (Scalar s) = Ok j.
Proof.
  intros Hs Hc. destruct c as [ic| | | | |k], s as [z|b|x|b|s]; try done; simpl; try by eexists.
  unfold encode_integer. destruct (bool_decide (json_kind ic ∈ ["int64"; "uint64"])) eqn:E1; [by eexists|].
  destruct (bool_decide (json_kind ic ∈ ["int32"; "uint32"])) eqn:E2; [by eexists|].
  destruct Hc as [Hk|[-> _]]; [|by eexists]. apply bool_decide_eq_false in E1, E2. unfold INTEGER_KINDS in Hk. clear -E1 E2 Hk. set_solver.
Qed.

Lemma elem_back c v :
  value_ok P c v -> codec_json_ok c -> json_value (jsonable n) v ->
  exists j v', _encode_value o enc c v = Ok j /\ _parse_value ign dec c j = Ok (Some v') /\ value_ok P c v' /\
    canon_value cn v' = canon_value cn v /\ (is_null j = true -> _accepts_null c = true).
Proof.
  intros Hv Hc Hj. destruct v as [s|m].
  - assert (scalar_ok c s) as Hs by by destruct c.
    destruct (encode_scalar_total c s Hs Hc) as [j He]. exists j, (Scalar s). split; [done|].
    destruct (parse_encode_scalar HS ign enc dec o c s j Hs Hc Hj He) as [Hp Hn].
    split; [done|]. split; [done|]. split; [done|]. by destruct j.
  - destruct c as [| | | | |k]; try done. destruct Hv as [<- Hm].
    destruct (Hnested m Hm Hj) as (j & m' & He & Hd & Hk & Hok & Hcan & Hnull).
    exists j, (MessageV m'). split; [done|]. unfold _parse_value. rewrite Hd. cbn [mbind result_bind wrap].
    split; [done|]. split; [done|]. simpl. split; [by rewrite Hcan|]. intros Hn. by apply bool_decide_eq_true, Hnull.
Qed.

(** An element that is a message, outside [_parse_value]. *)
Lemma child_back f k v :
  codec_of f = CMessage k -> value_ok P (codec_of f) v -> json_value (jsonable n) v ->
  exists j v', nested_value enc v = Ok j /\ child dec f j = Ok v' /\ value_ok P (codec_of f) v' /\
    canon_value cn v' = canon_value cn v.
Proof.
  intros Hk Hv Hj. unfold child. rewrite Hk in *. destruct v as [s|m]; [done|]. destruct Hv as [Ek Hm]. subst k.
  destruct (Hnested m Hm Hj) as (j & m' & He & Hd & Hk' & Hok & Hcan & _).
  exists j, (MessageV m'). simpl. rewrite Hd. cbn [mbind result_bind]. by rewrite Hcan.
Qed.

Lemma prepare_back c v v' :
  value_ok P c v' -> canon_value cn v' = canon_value cn v -> _prepare clone c v' = Ok (canon_value cn v).
Proof. intros Hv' <-. by apply (prepare_clone HS any_bytes n). Qed.

(** *** Lists *)

Lemma extend_back c vs vs' :
  Forall2 (fun v v' => value_ok P c v' /\ canon_value cn v' = canon_value cn v) vs vs' ->
  extend clone c [] vs' = Ok (canon_value cn <$> vs).
Proof.
  intros Hvs. unfold extend. assert (traverse (_prepare clone c) vs' = Ok (canon_value cn <$> vs)) as ->; [|done].
  induction Hvs as [|v v' vs vs' [Hv Hc] _ IH]; [done|]. cbn [traverse]. rewrite (prepare_back c v v') by done.
  cbn [mbind result_bind]. by rewrite IH.
Qed.

Lemma items_cell f vs :
  map_key_codec f = None -> repeated f = true -> Forall (value_ok P (codec_of f)) vs ->
  cell_ok P f (Items (canon_value cn <$> vs)).
Proof.
  intros Hk Hr Hvs. unfold cell_ok. rewrite Hk. split; [done|]. apply Forall_fmap.
  eapply Forall_impl; [exact Hvs|]. intros v. apply canon_value_ok.
Qed.

Lemma canon_items f s :
  map_key_codec f = None -> repeated f = true ->
  canon_slot cn false f s =
  match canon_value cn <$> items_of s with [] => no_slot | _ => mkSlot (Some (Items (canon_value cn <$> items_of s))) false end.
Proof. intros Hk Hr. unfold canon_slot. rewrite Hk, Hr. by destruct (items_of s). Qed.

(** *** Maps *)

Lemma map_sets_back kc c es es' :
  key_codec_ok kc -> dict_wf es ->
  Forall2 (fun e e' => scalar_ok kc e.1 /\ e'.1 = e.1 /\ value_ok P c e'.2 /\ canon_value cn e'.2 = canon_value cn e.2) es es' ->
  fold_result (map_set clone kc c) es' [] = Ok (canon_entry cn <$> es).
Proof.
  intros Hkc Hwf Hes.
  assert (es'.*1 = es.*1 /\ canon_entry cn <$> es' = canon_entry cn <$> es /\ Forall (entry_ok P kc c) es') as (E1 & E2 & Hok).
  { clear Hwf. induction Hes as [|e e' es es' (Hk & Ek & Hv & Hc) _ (IH1 & IH2 & IH3)]; [done|].
    rewrite !fmap_cons, Ek, IH1, IH2. split; [done|]. split; [unfold canon_entry; by rewrite Hc, Ek|].
    constructor; [|done]. split; [by rewrite Ek|done]. }
  rewrite (map_sets_canon HS P cn clone) with (es0 := []); [by rewrite E2| |done|done|].
  - intros m Hm. unfold clone_message, CopyFrom. cbn [cls new]. rewrite Nat.eqb_refl, Clear_new. by eapply clone_is_canon.
  - unfold dict_wf. simpl. by rewrite E1.
Qed.

Lemma entries_cell f kc es :
  map_key_codec f = Some kc -> dict_wf es -> Forall (entry_ok P kc (codec_of f)) es ->
  cell_ok P f (Entries (canon_entry cn <$> es)).
Proof.
  intros Hk Hwf Hes. unfold cell_ok. rewrite Hk. split.
  - unfold dict_wf in *. rewrite <- list_fmap_compose. exact Hwf.
  - apply Forall_fmap. eapply Forall_impl; [exact Hes|]. intros e [? ?]. split; [done|by apply canon_value_ok].
Qed.

Lemma canon_entries f kc s :
  map_key_codec f = Some kc ->
  canon_slot cn false f s =
  match canon_entry cn <$> entries_of s with [] => no_slot | _ => mkSlot (Some (Entries (canon_entry cn <$> entries_of s))) false end.
Proof. intros Hk. unfold canon_slot. rewrite Hk. by destruct (entries_of s). Qed.

(** The encoded keys of a map are distinct. *)
Lemma encoded_keys kc c es :
  key_codec_ok kc -> key_json_ok kc -> dict_wf es -> Forall (entry_ok P kc c) es -> Forall scalar_json es.*1 ->
  NoDup ((fun e => _encode_map_key e.1) <$> es).
Proof.
  intros Hkc Hkj Hwf Hes Hj. unfold dict_wf in Hwf. induction es as [|e es IH]; [constructor|].
  apply Forall_cons in Hes as [[He _] Hes]. apply Forall_cons in Hj as [Hje Hj].
  simpl in Hwf. apply NoDup_cons in Hwf as [Hni Hwf]. rewrite fmap_cons. constructor; [|by apply IH].
  intros (e' & Heq & Hin)%list_elem_of_fmap. apply Hni. apply list_elem_of_fmap. exists e'. split; [|done].
  rewrite Forall_forall in Hes. rewrite Forall_forall in Hj. eapply (encode_key_inj HS kc); [done|done|done|by apply Hes|done| |done].
  apply Hj. apply list_elem_of_fmap. eauto.
Qed.

(** *** Fields *)

Section Message.
Context (m : message) (Hm : body_ok P m).
Context (Hvalues : forall i, Forall (json_value (jsonable n)) (slot_values (get_slot m i)) /\
                             Forall scalar_json (entries_of (get_slot m i)).*1).

Abbreviation c := (canon_body cn false m).

Lemma slot_of_canon i f : FIELDS (cls m) !! i = Some f -> get_slot c i = canon_slot cn false f (get_slot m i).
Proof. by apply (canon_get any_bytes P). Qed.

Lemma field_facts i f :
  FIELDS (cls m) !! i = Some f ->
  field_ok f /\ slot_ok P f (get_slot m i) /\ codec_json_ok (codec_of f) /\ forall kc, map_key_codec f = Some kc -> key_json_ok kc.
Proof.
  intros Hf. split; [by eapply field_is_ok|]. split; [by eapply body_slot|].
  apply (js_codec HJ (cls m)). by eapply list_elem_of_lookup_2.
Qed.

Lemma items_slot i : Forall (json_value (jsonable n)) (items_of (get_slot m i)).
Proof. destruct (Hvalues i) as [Hv _]. unfold slot_values, items_of in *. by destruct (cell_of _) as [[]|]. Qed.

Lemma entries_slot i : Forall (json_value (jsonable n)) (entries_of (get_slot m i)).*2.
Proof. destruct (Hvalues i) as [Hv _]. unfold slot_values, entries_of in *. by destruct (cell_of _) as [[]|]. Qed.

Definition back (i : nat) (f : Field) (j : json) : Prop :=
  (is_null j = true -> _accepts_null (codec_of f) = true) /\
  exists x, yields P n f x (get_slot c i) /\
    forall st, parse_field ign n dec i f false j st = set_at n i f x st.

Lemma items_back i f :
  FIELDS (cls m) !! i = Some f -> map_key_codec f = None -> repeated f = true ->
  exists j, encode_items (_encode_value o enc (codec_of f)) (items_of (get_slot m i)) = Ok j /\ back i f j.
Proof.
  intros Hf Hk Hr. destruct (field_facts i f Hf) as (Hfok & Hs & Hcj & _).
  pose proof (items_ok P f _ Hs Hk Hr) as Hok. pose proof (items_slot i) as Hj.
  destruct (Forall2_exists (fun v (x : json * value) => _encode_value o enc (codec_of f) v = Ok x.1 /\
    _parse_value ign dec (codec_of f) x.1 = Ok (Some x.2) /\ value_ok P (codec_of f) x.2 /\
    canon_value cn x.2 = canon_value cn v /\ (is_null x.1 = true -> _accepts_null (codec_of f) = true))
    (items_of (get_slot m i))) as [xs Hxs].
  { apply Forall_forall. intros v Hv. rewrite Forall_forall in Hok. rewrite Forall_forall in Hj.
    destruct (elem_back (codec_of f) v (Hok v Hv) Hcj (Hj v Hv)) as (j & v' & ?). by exists (j, v'). }
  exists (JArr xs.*1). unfold encode_items. rewrite (traverse_json_Forall2 _ _ xs.*1).
  2: { apply Forall2_fmap_r. eapply Forall2_impl; [exact Hxs|]. by intros v x (? & _). }
  split; [done|]. split; [done|]. exists (PList xs.*2). split.
  - rewrite (slot_of_canon i f Hf), canon_items by done. apply y_items; [done|done| |by apply items_cell].
    apply extend_back. apply Forall2_fmap_r. eapply Forall2_impl; [exact Hxs|]. naive_solver.
  - intros st. unfold parse_field. rewrite Hk, Hr.
    assert (existsb is_null xs.*1 && negb (_accepts_null (codec_of f)) = false) as ->.
    { clear -Hxs. induction Hxs as [|v x l xs (_ & _ & _ & _ & Hn) _ IH]; [done|]. cbn.
      destruct (is_null x.1); [by rewrite Hn|done]. }
    rewrite (traverse_json_Forall2 _ _ (Some <$> xs.*2)).
    + cbn [mbind result_bind]. by rewrite omap_id_Some.
    + clear -Hxs. induction Hxs as [|v x l xs (_ & Hp & _) _ IH]; [constructor|]. by constructor.
Qed.

Lemma entries_back i f kc :
  FIELDS (cls m) !! i = Some f -> map_key_codec f = Some kc ->
  exists j, encode_entries (_encode_value o enc (codec_of f)) (entries_of (get_slot m i)) = Ok j /\ back i f j.
Proof.
  intros Hf Hk. destruct (field_facts i f Hf) as (Hfok & Hs & Hcj & Hkj). specialize (Hkj kc Hk).
  pose proof (f_key f Hfok kc Hk) as Hkc. pose proof (slot_entries_ok P f _ kc Hs Hk) as [Hwf Hok].
  pose proof (entries_slot i) as Hj. destruct (Hvalues i) as [_ Hkeys]. set (es := entries_of (get_slot m i)) in *.
  destruct (Forall2_exists (fun (e : scalar * value) (x : (pystr * json) * (scalar * value)) =>
    x.1.1 = _encode_map_key e.1 /\ _encode_value o enc (codec_of f) e.2 = Ok x.1.2 /\ x.2.1 = e.1 /\
    _parse_map_key kc x.1.1 = Ok x.2.1 /\ _parse_value ign dec (codec_of f) x.1.2 = Ok (Some x.2.2) /\
    scalar_ok kc e.1 /\ value_ok P (codec_of f) x.2.2 /\ canon_value cn x.2.2 = canon_value cn e.2) es) as [xs Hxs].
  { apply Forall_forall. intros e He. rewrite Forall_forall in Hok. rewrite Forall_forall in Hj.
    rewrite Forall_forall in Hkeys. destruct (Hok e He) as [Hke Hve].
    destruct (elem_back (codec_of f) e.2 Hve Hcj) as (j & v' & H1' & H2' & H3' & H4' & _).
    { apply Hj. apply list_elem_of_fmap. eauto. }
    exists ((_encode_map_key e.1, j), (e.1, v')). simpl. rewrite (parse_encode_key HS) by
      (done || apply Hkeys, list_elem_of_fmap; eauto). done. }
  assert (xs.*1.*1 = (fun e => _encode_map_key e.1) <$> es /\ xs.*2.*1 = es.*1) as [E1 E2].
  { clear -Hxs. induction Hxs as [|e x l xs (E & _ & E' & _) _ [IH1 IH2]]; [done|].
    rewrite !fmap_cons, E, E', IH1, IH2. done. }
  exists (JObj xs.*1). unfold encode_entries. rewrite (fold_dict_set _ es xs.*1 []).
  2: { apply Forall2_fmap_r. eapply Forall2_impl; [exact Hxs|]. intros [k v] x (Ek & He & _) d. cbn [fst snd] in *.
       rewrite He, Ek. done. }
  2: { simpl. rewrite E1. by eapply encoded_keys. }
  split; [done|]. split; [done|]. exists (PDict xs.*2). split.
  - rewrite (slot_of_canon i f Hf), (canon_entries f kc) by done. fold es. apply (y_map _ _ _ kc); [done| |by eapply entries_cell].
    apply map_sets_back; [done|done|]. apply Forall2_fmap_r. eapply Forall2_impl; [exact Hxs|]. naive_solver.
  - intros st. unfold parse_field. rewrite Hk. rewrite (fold_dict_set _ xs.*1 xs.*2 []); [done| |].
    + clear -Hxs. induction Hxs as [|e x l xs (_ & _ & _ & Hpk & Hpv & _) _ IH]; [constructor|]. constructor; [|done].
      intros d. unfold parse_map_entry. rewrite Hpv. cbn [mbind result_bind]. by rewrite Hpk.
    + simpl. by rewrite E2.
Qed.

(** A singular field that is there. *)
Lemma single_back i f v :
  FIELDS (cls m) !! i = Some f -> singular f = true -> value_ok P (codec_of f) v -> json_value (jsonable n) v ->
  get_slot c i = (if has_presence f || negb (value_eqb (canon_value cn v) (default f))
                  then mkSlot (Some (One (canon_value cn v))) (has_presence f) else no_slot) ->
  exists j, _encode_value o enc (codec_of f) v = Ok j /\ back i f j.
Proof.
  intros Hf Hsg Hv Hj Hc. destruct (field_facts i f Hf) as (_ & _ & Hcj & _).
  destruct (elem_back (codec_of f) v Hv Hcj Hj) as (j & v' & He & Hp & Hv' & Hcan & Hn).
  exists j. split; [done|]. split; [done|]. exists (PValue v'). split.
  - rewrite Hc. apply y_one; [done|by apply prepare_back|by apply canon_value_ok].
  - intros st. apply singular_keys in Hsg as [Hk Hr]. unfold parse_field. rewrite Hk, Hr, Hp. cbn [mbind result_bind].
    by destruct v'.
Qed.

(** The current value of a field without presence. *)
Lemma plain_value i f :
  FIELDS (cls m) !! i = Some f -> singular f = true -> has_presence f = false ->
  exists s, get_value m i f = Scalar s /\ scalar_ok (codec_of f) s /\ scalar_json s /\
    get_slot c i = (if negb (scalar_eqb s (default f)) then mkSlot (Some (One (Scalar s))) false else no_slot).
Proof.
  intros Hf Hsg Hp. destruct (field_facts i f Hf) as (_ & Hs & _). rewrite (slot_of_canon i f Hf).
  pose proof Hsg as [Hk Hr]%singular_keys.
  assert (message_field f = false) as Hmf.
  { unfold has_presence, map_field in Hp. rewrite Hk in Hp. destruct (message_field f); [|done].
    by rewrite orb_true_r in Hp. }
  unfold get_value, canon_slot, _field_has_value, _field_is_default, map_field. rewrite Hk, Hr, Hp. simpl.
  destruct (cell_of (get_slot m i)) as [x|] eqn:Ex.
  - destruct (slot_one P f _ x Hs Hsg Ex) as (v & -> & Hv). destruct v as [s|mv].
    + exists s. split; [done|]. split; [by destruct (codec_of f)|]. split; [|by destruct (negb _)].
      destruct (Hvalues i) as [Hj _]. unfold slot_values in Hj. rewrite Ex in Hj. by apply Forall_cons in Hj as [? _].
    + unfold message_field in Hmf. by destruct (codec_of f).
  - destruct (js_default HJ (cls m) f (list_elem_of_lookup_2 _ _ _ Hf) Hsg Hp) as (H1' & H2' & H3').
    exists (default f). split; [done|]. split; [done|]. split; [done|]. by rewrite H3'.
Qed.

Lemma field_back i f :
  FIELDS (cls m) !! i = Some f ->
  (encode_field o enc m i f = Ok None /\ get_slot c i = no_slot) \/
  exists j, encode_field o enc m i f = Ok (Some j) /\ back i f j.
Proof.
  intros Hf. destruct (field_facts i f Hf) as (_ & Hs & _). unfold encode_field.
  destruct (map_key_codec f) as [kc|] eqn:Hk.
  { destruct (slot_empty (get_slot m i) && _) eqn:E.
    - left. split; [done|]. rewrite (slot_of_canon i f Hf), (canon_entries f kc) by done.
      apply andb_true_iff in E as [E _]. unfold slot_empty in E. by destruct (items_of _), (entries_of _).
    - right. destruct (entries_back i f kc Hf Hk) as (j & -> & Hb). by exists j. }
  destruct (repeated f) eqn:Hr.
  { destruct (slot_empty (get_slot m i) && _) eqn:E.
    - left. split; [done|]. rewrite (slot_of_canon i f Hf), (canon_items f) by done.
      apply andb_true_iff in E as [E _]. unfold slot_empty in E. by destruct (items_of _).
    - right. destruct (items_back i f Hf Hk Hr) as (j & -> & Hb). by exists j. }
  assert (singular f = true) as Hsg by by apply singular_keys.
  destruct (has_presence f) eqn:Hp.
  - assert (_field_has_value f (get_slot m i) = is_present (get_slot m i)) as Hhv
      by (unfold _field_has_value, map_field; by rewrite Hk, Hr, Hp).
    destruct (is_present (get_slot m i)) eqn:Ei; cbn [negb].
    + destruct (has_value_one P f _ Hs Hsg Hhv) as (v & Hv & Hok). rewrite Hv. right.
      destruct (single_back i f v) as (j & -> & Hb); [done..| | |by exists j].
      * destruct (Hvalues i) as [Hj _]. unfold slot_values in Hj. rewrite Hv in Hj. by apply Forall_cons in Hj as [? _].
      * rewrite (slot_of_canon i f Hf). unfold canon_slot. by rewrite Hk, Hr, Hhv, Hv, Hp.
    + left. split; [done|]. rewrite (slot_of_canon i f Hf). unfold canon_slot. by rewrite Hk, Hr, Hhv.
  - destruct (plain_value i f Hf Hsg Hp) as (s & Hg & Hok & Hj & Hc). rewrite Hg. simpl.
    destruct (scalar_eqb s (default f) && _) eqn:E.
    + left. split; [done|]. rewrite Hc. by apply andb_true_iff in E as [-> _].
    + right. destruct (single_back i f (Scalar s)) as (j & He & Hb); [done|done|by destruct (codec_of f)|done| |].
      * rewrite Hp. simpl. exact Hc.
      * rewrite He. by exists j.
Qed.

(** *** Objects *)

Context (Hpublic : forall i f, FIELDS (cls m) !! i = Some f -> public f = true \/ get_slot m i = no_slot).

Lemma canonical_c : canonical c.
Proof. by eapply canon_canonical. Qed.

Lemma canon_no_slot i f : FIELDS (cls m) !! i = Some f -> get_slot m i = no_slot -> get_slot c i = no_slot.
Proof.
  intros Hf Hi. rewrite (slot_of_canon i f Hf), Hi. unfold canon_slot. simpl. destruct (map_key_codec f); [done|].
  destruct (repeated f); [done|]. by destruct (_field_has_value f no_slot).
Qed.

Lemma key_back i f :
  FIELDS (cls m) !! i = Some f -> public f = true -> dict_get (json_names (cls m)) (field_key o f) = Some (i, f).
Proof.
  intros Hf Hp. destruct (js_names HJ (cls m) i f Hf Hp) as [H1' H2']. unfold field_key.
  by destruct (preserving_proto_field_name o).
Qed.

(** A member of a oneof that is given is the selected one. *)
Lemma yields_selected i f x w :
  FIELDS (cls m) !! i = Some f -> yields P n f x (get_slot c i) -> oneof f = Some w -> _oneofs c !! w = Some i.
Proof.
  intros Hf Hy Hw. apply (selected_at c canonical_c i f w Hf Hw).
  destruct (field_facts i f Hf) as (Hfok & _). pose proof (f_oneof f Hfok w Hw) as [Hk Hr]%singular_keys.
  remember (get_slot c i) as s. destruct Hy as [kc es es' Hk'|vs vs' _ Hr'|v v']; [congruence|congruence|].
  by rewrite (oneof_presence f w Hw).
Qed.

(** The loop of [parse_dict]: what it has done for the fields [L]. *)
Record parsing (L : list nat) (st : dict_state) : Prop := {
  pg_filled : filled P c L (d_message st);
  pg_seen i : i ∈ d_seen st -> i ∈ L;
  pg_oneofs w : w ∈ d_oneofs st -> exists i, i ∈ L /\ _oneofs c !! w = Some i
}.

Lemma parsing_skip L st i : get_slot c i = no_slot -> parsing L st -> parsing (i :: L) st.
Proof.
  intros Hi [Hfl Hs Ho]. split; [by apply (filled_skip P c canonical_c)|intros; right; auto|].
  intros w Hw. destruct (Ho w Hw) as (j & Hj & ?). exists j. split; [by right|done].
Qed.

Lemma step_back L st i f j :
  FIELDS (cls m) !! i = Some f -> public f = true -> i ∉ L -> back i f j -> parsing L st ->
  exists st', parse_dict_step ign n dec st (field_key o f, j) = Ok st' /\ parsing (i :: L) st'.
Proof.
  intros Hf Hp Hi [Hnull (x & Hy & Hpf)] [Hfl Hs Ho]. unfold parse_dict_step.
  rewrite (fl_cls _ _ _ _ Hfl). change (cls c) with (cls m). rewrite (key_back i f Hf Hp).
  assert (is_null j && negb (_accepts_null (codec_of f)) = false) as ->.
  { destruct (is_null j); [by rewrite Hnull|done]. }
  set (os := match oneof f with Some w => w :: d_oneofs st | None => d_oneofs st end).
  assert ((match oneof f with
           | Some w => if bool_decide (w ∈ d_oneofs st) then Raise (JsonError "multiple fields supplied for oneof")
                       else Ok (w :: d_oneofs st)
           | None => Ok (d_oneofs st) end) = Ok os) as ->.
  { subst os. destruct (oneof f) as [w|] eqn:Ew; [|done]. rewrite bool_decide_eq_false_2; [done|].
    intros (k & Hk & Hwk)%Ho. rewrite (yields_selected i f x w Hf Hy Ew) in Hwk. congruence. }
  cbn [mbind result_bind]. rewrite bool_decide_eq_false_2 by naive_solver. rewrite Hpf. unfold set_at.
  destruct (filled_assign HS P c canonical_c n L (d_message st) i f x Hfl Hf Hy) as (m' & -> & Hfl').
  cbn [lift_message mbind result_bind]. eexists. split; [done|]. split; [done| |].
  - simpl. intros k [->|?]%elem_of_cons; [left|right; auto].
  - simpl. intros w Hw. subst os. destruct (oneof f) as [w'|] eqn:Ew.
    + apply elem_of_cons in Hw as [->|Hw]; [exists i; split; [left|by eapply yields_selected]|].
      destruct (Ho w Hw) as (k & ? & ?). exists k. split; [by right|done].
    + destruct (Ho w Hw) as (k & ? & ?). exists k. split; [by right|done].
Qed.

Lemma dict_back l L d0 :
  NoDup (l.*1 ++ L) -> (forall x, x ∈ l -> FIELDS (cls m) !! x.1 = Some x.2) ->
  (forall k, k ∈ d0.*1 -> exists i f, i ∈ L /\ FIELDS (cls m) !! i = Some f /\ public f = true /\ k = field_key o f) ->
  exists es, fold_json (dict_step o enc m) l d0 = Ok (d0 ++ es) /\
    forall st, parsing L st -> exists st', fold_json (parse_dict_step ign n dec) es st = Ok st' /\ parsing (reverse l.*1 ++ L) st'.
Proof.
  revert L d0. induction l as [|[i f] l IH]; intros L d0 Hnd Hin Hkeys.
  { exists []. rewrite app_nil_r. split; [done|]. intros st Hst. by exists st. }
  pose proof (Hin (i, f) ltac:(left)) as Hf. cbn [fst snd] in Hf. simpl in Hnd. apply NoDup_cons in Hnd as [Hi Hnd].
  rewrite not_elem_of_app in Hi. destruct Hi as [Hi1 Hi2].
  assert (NoDup (l.*1 ++ i :: L)) as Hnd'.
  { rewrite <- Permutation_middle. constructor; [|done]. by rewrite not_elem_of_app. }
  assert (forall x, x ∈ l -> FIELDS (cls m) !! x.1 = Some x.2) as Hin' by (intros x Hx; apply Hin; by right).
  assert (forall k, k ∈ d0.*1 -> exists i' f', i' ∈ i :: L /\ FIELDS (cls m) !! i' = Some f' /\ public f' = true /\
    k = field_key o f') as Hkeys'.
  { intros k Hk. destruct (Hkeys k Hk) as (i' & f' & ? & ?). exists i', f'. split; [by right|done]. }
  rewrite fmap_cons, reverse_cons, <- app_assoc. cbn [fold_json app fst].
  change (dict_step o enc m d0 (i, f)) with (if negb (public f) then Ok d0 else
    encode_field o enc m i f ≫= fun j => match j with Some j => Ok (dict_set d0 (field_key o f) j) | None => Ok d0 end).
  assert (get_slot c i = no_slot -> exists es, fold_json (dict_step o enc m) l d0 = Ok (d0 ++ es) /\
    forall st, parsing L st -> exists st', fold_json (parse_dict_step ign n dec) es st = Ok st' /\
      parsing (reverse l.*1 ++ i :: L) st') as Hskip.
  { intros Hno. destruct (IH (i :: L) d0 Hnd' Hin' Hkeys') as (es & He & Hes). exists es. split; [done|].
    intros st Hst. by apply Hes, parsing_skip. }
  destruct (public f) eqn:Ep; cbn [negb mbind result_bind].
  2: { apply Hskip. destruct (Hpublic i f Hf) as [?|?]; [congruence|by eapply canon_no_slot]. }
  destruct (field_back i f Hf) as [[-> Hno]|(j & -> & Hb)]; [by apply Hskip|]. cbn [mbind result_bind].
  assert (field_key o f ∉ d0.*1) as Hnew.
  { intros (i' & f' & Hi' & Hf' & Hp' & Hk)%Hkeys. pose proof (key_back i' f' Hf' Hp') as Hg.
    rewrite <- Hk, (key_back i f Hf Ep) in Hg. congruence. }
  rewrite dict_set_new by done. destruct (IH (i :: L) (d0 ++ [(field_key o f, j)]) Hnd' Hin') as (es & He & Hes).
  { intros k. rewrite fmap_app. intros [?|Hk]%elem_of_app; [by apply Hkeys'|].
    apply list_elem_of_singleton in Hk as ->. exists i, f. split; [left|done]. }
  exists ((field_key o f, j) :: es). rewrite He, <- app_assoc. split; [done|]. intros st Hst. cbn [fold_json].
  destruct (step_back L st i f j Hf Ep Hi2 Hb Hst) as (st' & -> & Hst'). cbn [mbind result_bind]. by apply Hes.
Qed.

(** The keys of the object: names of fields, each once. *)
Lemma object_keys d : dict_of o enc m = Ok d -> NoDup d.*1 /\ u "@type" ∉ d.*1.
Proof.
  unfold dict_of. assert (forall l d0, (forall x, x ∈ l -> FIELDS (cls m) !! x.1 = Some x.2) ->
    NoDup d0.*1 /\ u "@type" ∉ d0.*1 -> fold_json (dict_step o enc m) l d0 = Ok d -> NoDup d.*1 /\ u "@type" ∉ d.*1) as Hgo.
  { intros l. induction l as [|[i f] l IH]; intros d0 Hin Hd0; cbn [fold_json]; [by intros [= <-]|].
    intros (d1 & Hd1 & Hd)%result_bind_Ok. apply (IH d1); [intros x Hx; apply Hin; by right| |done].
    unfold dict_step in Hd1. destruct (public f) eqn:Ep; cbn [negb] in Hd1; [|by injection Hd1 as <-].
    destruct (encode_field o enc m i f) as [[j|]|]; [| |done]; cbn [mbind result_bind] in Hd1; [|by injection Hd1 as <-].
    injection Hd1 as <-. destruct Hd0 as [Hn Ht]. split; [by apply dict_set_wf|].
    rewrite dict_set_keys. intros [E|?]; [|done].
    pose proof (Hin (i, f) ltac:(left)) as Hf%list_elem_of_lookup_2. destruct (js_type_key HJ _ f Hf Ep) as [Hk1 Hk2].
    unfold field_key in E. destruct (preserving_proto_field_name o); congruence. }
  apply Hgo; [intros [i f] Hx; by apply indexed_lookup in Hx|]. split; [constructor|apply not_elem_of_nil].
Qed.

(** [message_to_dict] and [parse_dict]. *)
Lemma object_back :
  exists d m' L, dict_of o enc m = Ok d /\ dict_parse ign n dec d (new (cls m)) = Ok m' /\ filled P c L m' /\
    forall i, get_slot c i = no_slot \/ i ∈ L.
Proof.
  destruct (dict_back (indexed (cls m)) [] []) as (es & He & Hes).
  - rewrite app_nil_r, indexed_fst. apply NoDup_seq.
  - intros [i f] Hx. by apply indexed_lookup in Hx.
  - intros k Hk. by apply elem_of_nil in Hk.
  - destruct (Hes (mkDict (new (cls m)) [] [])) as (st' & Hst' & Hp).
    { split; [exact (filled_new P c canonical_c)|by intros i Hi%elem_of_nil|by intros w Hw%elem_of_nil]. }
    exists es, (d_message st'), (reverse (indexed (cls m)).*1 ++ []). unfold dict_of, dict_parse. rewrite Clear_new, Hst'.
    split; [done|]. split; [done|]. split; [apply Hp|]. intros i.
    rewrite app_nil_r, elem_of_reverse, indexed_fst, elem_of_seq.
    destruct (FIELDS (cls m) !! i) as [f|] eqn:Ef; [right; apply lookup_lt_Some in Ef; lia|].
    left. unfold get_slot. cbn [slots canon_body]. by rewrite lookup_zip_with, Ef.
Qed.

End Message.

End Level.
