(* ===== verification/JsonWellKnown.v ===== *)
(** * JSON: the well-known types, there and back

    The parser on what the encoder writes for the types with a JSON form of their
    own, with one level of nested messages given. *)
From stdpp Require Import gmap.
From S2P Require Import Prelude PyStr PyText Json Bytes PyNumber PyTime Base64 Wire ValueCodec Message MessageInv MessageOps MessageCanon MessageSteps MessageEncode MessageClone JsonFormat JsonScalars JsonRoundtrip.
#[local] Open Scope Z_scope.

Section WellKnown.
Context `{JsonProgram} `{PyCase} `{PyDigits} (HJ : json_schema_ok).
Context (o : options) (ign : bool) (n : nat).
Context (enc : message -> result json_failure json) (dec : json -> message -> result json_failure message).
Context (Hnested : forall m, message_ok n m -> jsonable n m -> there_and_back n enc dec m).
Context (m : message) (Hm : body_ok (message_ok n) m).
Context (Hvalues : forall i, Forall (json_value (jsonable n)) (slot_values (get_slot m i)) /\
                             Forall scalar_json (entries_of (get_slot m i)).*1).
Context (Hwk : well_known_value m).
Context (Hany : FULL_NAME (cls m) = ANY -> any_json (fun e => message_ok n e /\ jsonable n e) m).

Abbreviation cn := (canon n false).
Abbreviation clone := (clone_message n).
Abbreviation P := (message_ok n).
Abbreviation c := (canon_body cn false m).

Let HS : schema_ok _ := js_schema HJ.

Let Hc : canonical c.
Proof. by eapply canon_canonical. Qed.

(** [m'] holds all the fields of [m]. *)
Definition complete (m' : message) : Prop :=
  exists L, filled P c L m' /\ forall i, get_slot c i = no_slot \/ i ∈ L.

Lemma slot_outside i : FIELDS (cls m) !! i = None -> get_slot c i = no_slot.
Proof. intros Hf. unfold get_slot. cbn [slots canon_body]. by rewrite lookup_zip_with, Hf. Qed.

Lemma complete_one f m' : FIELDS (cls m) = [f] -> filled P c [0%nat] m' -> complete m'.
Proof.
  intros Hf Hfl. exists [0%nat]. split; [done|]. intros [|i]; [right; left|]. left. apply slot_outside. by rewrite Hf.
Qed.

Lemma field_alone f : FIELDS (cls m) = [f] -> _field (cls m) (proto_name f) = Ok (0%nat, f).
Proof. intros Hf. unfold _field, field_by_name, indexed. rewrite Hf. simpl. by rewrite bool_decide_eq_true_2. Qed.

(** Assigning the value a field without presence has. *)
Lemma set_plain name i f s L st :
  FIELDS (cls m) !! i = Some f -> _field (cls m) name = Ok (i, f) -> plain f -> get_value m i f = Scalar s ->
  filled P c L st -> exists st', set_scalar n name s st = Ok st' /\ filled P c (i :: L) st'.
Proof.
  intros Hf Hn (Hsg & Hp & _) Hg Hfl. destruct (plain_value HJ n m Hm Hvalues i f Hf Hsg Hp) as (s' & Hg' & Hok & _ & Hs).
  rewrite Hg in Hg'. injection Hg' as <-. unfold set_scalar, _set. rewrite (fl_cls _ _ _ _ Hfl).
  change (cls c) with (cls m). rewrite Hn. cbn [mbind result_bind]. unfold set_at.
  assert (value_ok P (codec_of f) (Scalar s)) as Hv by by destruct (codec_of f).
  destruct (filled_assign HS P c Hc n L st i f (PValue (Scalar s)) Hfl Hf) as (st' & -> & Hst'); [|by exists st'].
  rewrite Hs. pose proof (y_one P n f (Scalar s) (Scalar s)) as Hy. rewrite Hp in Hy. simpl in Hy.
  apply Hy; [done|by apply (prepare_clone HS any_bytes n)|done].
Qed.

(** *** Any *)

Lemma dict_get_here (k : pystr) (v : json) d : dict_get ((k, v) :: d) k = Some v.
Proof. cbn [dict_get]. by case_decide. Qed.

Lemma dict_del_here (k : pystr) (v : json) d : k ∉ d.*1 -> dict_del ((k, v) :: d) k = d.
Proof.
  intros Hk. cbn [dict_del]. rewrite decide_True by done. induction d as [|[k' v'] d IH]; [done|]. cbn [dict_del].
  rewrite fmap_cons, not_elem_of_cons in Hk. destruct Hk as [Hne Hk]. cbn [fst] in Hne. case_decide; [congruence|]. by rewrite IH.
Qed.

Lemma value_after_type (t v : json) : dict_get [(u "@type", t); (u "value", v)] (u "value") = Some v.
Proof. reflexivity. Qed.

Lemma foldl_dict_set (d d0 : list (pystr * json)) :
  NoDup (d0 ++ d).*1 -> foldl (fun r '(k, j) => dict_set r k j) d0 d = d0 ++ d.
Proof.
  revert d0. induction d as [|[k j] d IH]; intros d0 Hnd; [by rewrite app_nil_r|]. cbn [foldl]. rewrite dict_set_new.
  - rewrite IH, <- app_assoc; [done|by rewrite <- app_assoc].
  - rewrite fmap_app in Hnd. apply NoDup_app in Hnd as (_ & Hd & _). intros Hin. apply (Hd k Hin). left.
Qed.

(** The message in the payload, read back, has the same bytes. *)
Lemma embedded_value e :
  message_ok n e -> jsonable n e ->
  exists j e', enc e = Ok j /\ dec j (new (cls e)) = Ok e' /\ SerializeToString true e' = SerializeToString true e.
Proof.
  intros He Hj. destruct (Hnested e He Hj) as (j & e' & H1' & H2' & _ & H3' & H4' & _). exists j, e'.
  split; [done|]. split; [done|]. by apply (same_bytes HS any_bytes n).
Qed.

Lemma embedded_object e :
  message_ok n e -> jsonable n e ->
  exists d e', dict_of o enc e = Ok d /\ dict_parse ign n dec d (new (cls e)) = Ok e' /\
    SerializeToString true e' = SerializeToString true e /\ NoDup d.*1 /\ u "@type" ∉ d.*1.
Proof.
  intros He%message_ok_S (Hu & _ & Hp & Hv & _)%jsonable_more.
  destruct (object_back HJ o ign n enc dec Hnested e He Hv Hp) as (d & e' & L & Hd & He' & Hfl & HL).
  exists d, e'. split; [done|]. split; [done|]. destruct (filled_canon n e e' L He Hu Hfl HL) as [Hok Hcan].
  split; [by apply (same_bytes HS any_bytes (S n))|]. exact (object_keys HJ o enc e d Hd).
Qed.

Lemma any_back :
  FULL_NAME (cls m) = ANY ->
  exists j m', encode_any o enc m = Ok j /\ parse_any ign n dec j (new (cls m)) = Ok m' /\ complete m' /\ is_null j = false.
Proof.
  intros Hn. destruct (Hany Hn) as (url & payload & Hu & Hb & Hcase).
  destruct (wk_any _ (js_well_known HJ (cls m)) Hn) as (ft & fv & HF & Et & Pt & Dt & Ev & Pv & Dv).
  assert (_field (cls m) (u "type_url") = Ok (0%nat, ft)) as H0'.
  { unfold _field, field_by_name, indexed. rewrite HF. simpl. rewrite Et, Ev. by vm_compute. }
  assert (_field (cls m) (u "value") = Ok (1%nat, fv)) as H1'.
  { unfold _field, field_by_name, indexed. rewrite HF. simpl. rewrite Et, Ev. by vm_compute. }
  unfold encode_any. rewrite Hu, Hb. unfold get_str in Hu. unfold get_bytes in Hb. rewrite H0' in Hu. rewrite H1' in Hb.
  cbn [mbind result_bind] in Hu, Hb |- *.
  assert (get_value m 0 ft = Scalar (StrV url)) as Gu by (destruct (get_value m 0 ft) as [[]|]; by simplify_eq).
  assert (get_value m 1 fv = Scalar (BytesV payload)) as Gb by (destruct (get_value m 1 fv) as [[]|]; by simplify_eq).
  destruct Hcase as [[-> ->]|(Hne & Hreg & e & Hfind & Hparse & Hser & He & Hj)].
  - exists (JObj []), (new (cls m)). split; [done|]. split; [done|]. split; [|done].
    exists []. split; [exact (filled_new P c Hc)|]. intros [|[|i]]; left.
    + destruct Pt as (Hsg & Hp & _). destruct (plain_value HJ n m Hm Hvalues 0 ft ltac:(by rewrite HF) Hsg Hp) as (s & Hs & _ & _ & ->).
      rewrite Gu in Hs. injection Hs as <-. by rewrite Dt.
    + destruct Pv as (Hsg & Hp & _). destruct (plain_value HJ n m Hm Hvalues 1 fv ltac:(by rewrite HF) Hsg Hp) as (s & Hs & _ & _ & ->).
      rewrite Gb in Hs. injection Hs as <-. by rewrite Dv.
    + apply slot_outside. by rewrite HF.
  - assert (forall A (x y : A), match url, payload with [], [] => x | _, _ => y end = y) as Hmatch.
    { intros A x y. destruct url, payload; try done. by destruct Hne. }
    destruct (set_plain (u "type_url") 0 ft (StrV url) [] (new (cls m))) as (m1 & E1 & F1); [by rewrite HF|done..| |].
    { exact (filled_new P c Hc). }
    destruct (set_plain (u "value") 1 fv (BytesV payload) [0%nat] m1) as (m2 & E2 & F2); [by rewrite HF|done..|].
    assert (complete m2) as Hcomp.
    { exists [1%nat; 0%nat]. split; [done|]. intros [|[|i]]; [right; right; left|right; left|].
      left. apply slot_outside. by rewrite HF. }
    rewrite Hmatch, Hreg. cbn [negb]. rewrite Hfind, Hparse.
    destruct (bool_decide (FULL_NAME (cls e) ∈ _ANY_VALUE_TYPES)) eqn:Ek.
    + destruct (embedded_value e He Hj) as (j & e' & Hj1 & Hj2 & Hj3). rewrite Hj1. cbn [mbind result_bind].
      exists (JObj [(u "@type", JStr url); (u "value", j)]), m2. split; [done|]. split; [|done].
      unfold parse_any. cbn [cls new]. rewrite Hreg. rewrite dict_get_here, Hfind, Ek, value_after_type. cbn [negb]. rewrite Hj2. cbn [mbind result_bind].
      rewrite E1. cbn [mbind result_bind]. rewrite Hj3, Hser. cbn [lift_message mbind result_bind]. exact E2.
    + destruct (embedded_object e He Hj) as (d & e' & Hd1 & Hd2 & Hd3 & Hd4 & Hd5). rewrite Hd1. cbn [mbind result_bind].
      rewrite foldl_dict_set by (simpl; by constructor).
      exists (JObj ((u "@type", JStr url) :: d)), m2. split; [done|]. split; [|done].
      unfold parse_any. cbn [cls new]. rewrite Hreg. rewrite dict_get_here, Hfind, Ek, dict_del_here by done. cbn [negb]. rewrite Hd2. cbn [mbind result_bind].
      rewrite E1. cbn [mbind result_bind]. rewrite Hd3, Hser. cbn [lift_message mbind result_bind]. exact E2.
Qed.

(** *** Times *)

Lemma times_back a b r :
  FULL_NAME (cls m) = TIMESTAMP \/ FULL_NAME (cls m) = DURATION ->
  get_int m (u "seconds") = Ok a -> get_int m (u "nanos") = Ok b -> r = Ok (a, b) ->
  exists m', set_times n r (new (cls m)) = Ok m' /\ complete m'.
Proof.
  intros Hn Ha Hb ->. destruct (wk_times _ (js_well_known HJ (cls m)) Hn) as (fs & fn & HF & (Es & Ps & _) & (En & Pn & _)).
  assert (_field (cls m) (u "seconds") = Ok (0%nat, fs)) as H0'.
  { unfold _field, field_by_name, indexed. rewrite HF. simpl. rewrite Es, En. by vm_compute. }
  assert (_field (cls m) (u "nanos") = Ok (1%nat, fn)) as H1'.
  { unfold _field, field_by_name, indexed. rewrite HF. simpl. rewrite Es, En. by vm_compute. }
  unfold get_int in Ha, Hb. rewrite H0' in Ha. rewrite H1' in Hb. cbn [mbind result_bind] in Ha, Hb.
  assert (get_value m 0 fs = Scalar (IntV a)) as Ga by (destruct (get_value m 0 fs) as [[]|]; by simplify_eq).
  assert (get_value m 1 fn = Scalar (IntV b)) as Gb by (destruct (get_value m 1 fn) as [[]|]; by simplify_eq).
  destruct (set_plain (u "seconds") 0 fs (IntV a) [] (new (cls m))) as (m1 & E1 & F1); [by rewrite HF|done..| |].
  { exact (filled_new P c Hc). }
  destruct (set_plain (u "nanos") 1 fn (IntV b) [0%nat] m1) as (m2 & E2 & F2); [by rewrite HF|done..|].
  exists m2. unfold set_times. cbn [mbind result_bind]. unfold set_scalar in E1, E2. rewrite E1. cbn [mbind result_bind].
  split; [done|]. exists [1%nat; 0%nat]. split; [done|]. intros [|[|i]]; [right; right; left|right; left|].
  left. apply slot_outside. by rewrite HF.
Qed.

(** *** Containers and members *)

Abbreviation same v' v := (canon_value cn v' = canon_value cn v) (only parsing).

Lemma set_items f vs' :
  FIELDS (cls m) !! 0%nat = Some f -> map_key_codec f = None -> repeated f = true ->
  Forall2 (fun v v' => value_ok P (codec_of f) v' /\ same v' v) (items_of (get_slot m 0)) vs' ->
  exists m', set_at n 0 f (PList vs') (new (cls m)) = Ok m' /\ filled P c [0%nat] m'.
Proof.
  intros Hf Hk Hr Hvs. destruct (field_facts HJ n m Hm 0 f Hf) as (_ & Hs & _).
  destruct (filled_assign HS P c Hc n [] (new (cls m)) 0 f (PList vs')) as (m' & Hm' & Hfl);
    [exact (filled_new P c Hc)|done| |].
  - rewrite (slot_of_canon n m Hm 0 f Hf), canon_items by done. apply y_items; [done|done|by apply (extend_back HJ)|].
    apply (items_cell HJ); [done|done|by apply items_ok].
  - exists m'. unfold set_at. by rewrite Hm'.
Qed.

Lemma set_entries f kc es' :
  FIELDS (cls m) !! 0%nat = Some f -> map_key_codec f = Some kc ->
  Forall2 (fun e e' => e'.1 = e.1 /\ value_ok P (codec_of f) e'.2 /\ same e'.2 e.2) (entries_of (get_slot m 0)) es' ->
  exists m', set_at n 0 f (PDict es') (new (cls m)) = Ok m' /\ filled P c [0%nat] m'.
Proof.
  intros Hf Hk Hes. destruct (field_facts HJ n m Hm 0 f Hf) as (Hfok & Hs & _).
  pose proof (slot_entries_ok P f _ kc Hs Hk) as [Hwf Hok].
  destruct (filled_assign HS P c Hc n [] (new (cls m)) 0 f (PDict es')) as (m' & Hm' & Hfl);
    [exact (filled_new P c Hc)|done| |].
  - rewrite (slot_of_canon n m Hm 0 f Hf), (canon_entries n f kc) by done. apply (y_map _ _ _ kc); [done| |].
    + apply (map_sets_back HJ); [by eapply f_key|done|]. clear -Hes Hok.
      induction Hes as [|e e' es es' (? & ? & ?) _ IH]; [constructor|]. apply Forall_cons in Hok as [[? _] Hok].
      constructor; [done|by apply IH].
    + by eapply (entries_cell HJ).
  - exists m'. unfold set_at. by rewrite Hm'.
Qed.

Lemma mask_back f :
  FIELDS (cls m) = [f] -> map_key_codec f = None -> repeated f = true -> codec_of f = CString ->
  (forall p, Scalar (StrV p) ∈ items_of (get_slot m 0) -> mask_path p) ->
  exists qs ps m',
    traverse_json (fun v => match v with Scalar (StrV p) => _snake_to_camel p | _ => Raise other_type end)
      (items_of (get_slot m 0)) = Ok qs /\
    (match join [44] qs with
     | [] => Ok []
     | _ => traverse_json (fun p => r ← _camel_to_snake p; Ok (Scalar (StrV r)))
              (match split (join [44] qs) [44] with Some l => l | None => [] end)
     end) = Ok ps /\
    set_at n 0 f (PList ps) (new (cls m)) = Ok m' /\ complete m'.
Proof.
  intros HF Hk Hr Hcod Hp. assert (FIELDS (cls m) !! 0%nat = Some f) as Hf by by rewrite HF.
  destruct (field_facts HJ n m Hm 0 f Hf) as (_ & Hs & _). pose proof (items_ok P f _ Hs Hk Hr) as Hok. rewrite Hcod in Hok.
  set (vs := items_of (get_slot m 0)) in *.
  destruct (Forall2_exists (fun v q => exists p, v = Scalar (StrV p) /\ _snake_to_camel p = Ok q /\ _camel_to_snake q = Ok p /\
    q <> [] /\ Forall (fun d => d <> 44) q) vs) as [qs Hqs].
  { apply Forall_forall. intros v Hv. rewrite Forall_forall in Hok. specialize (Hok v Hv).
    destruct v as [[ | | | |p]|]; try done. destruct (camel_of_snake p (Hp p Hv)) as (q & ? & ? & ? & ?). by exists q, p. }
  destruct (set_items f vs Hf Hk Hr) as (m' & Hm' & Hfl).
  { rewrite Hcod. fold vs. apply Forall_Forall2_diag. eapply Forall_impl; [exact Hok|]. done. }
  exists qs, vs, m'. split; [|split; [|split; [done|by eapply complete_one]]].
  - apply traverse_json_Forall2. eapply Forall2_impl; [exact Hqs|]. by intros v q (p & -> & ? & _).
  - assert (traverse_json (fun p => r ← _camel_to_snake p; Ok (Scalar (StrV r))) qs = Ok vs) as Htr.
    { apply traverse_json_Forall2. apply Forall2_flip. eapply Forall2_impl; [exact Hqs|].
      intros v q (p & -> & _ & Hcs & _). simpl. by rewrite Hcs. }
    assert (Forall (fun q => q <> [] /\ Forall (fun d => d <> 44) q) qs) as Hq.
    { clear -Hqs. induction Hqs as [|v q vs qs (p & _ & _ & _ & ? & ?) _ IH]; constructor; auto. }
    destruct qs as [|q qs]; [done|]. rewrite split_join; [|done|by eapply Forall_impl; [exact Hq|]; intros ? [_ ?]].
    apply Forall_cons in Hq as [[Hne _] _]. destruct q as [|d q]; [done|].
    destruct qs as [|q' qs]; [exact Htr|]. rewrite join_cons by done. exact Htr.
Qed.

Lemma list_back f k :
  FIELDS (cls m) = [f] -> map_key_codec f = None -> repeated f = true -> codec_of f = CMessage k ->
  exists js vs' m', encode_items (nested_value enc) (items_of (get_slot m 0)) = Ok (JArr js) /\
    traverse_json (child dec f) js = Ok vs' /\ set_at n 0 f (PList vs') (new (cls m)) = Ok m' /\ complete m'.
Proof.
  intros HF Hk Hr Hcod. assert (FIELDS (cls m) !! 0%nat = Some f) as Hf by by rewrite HF.
  destruct (field_facts HJ n m Hm 0 f Hf) as (_ & Hs & _). pose proof (items_ok P f _ Hs Hk Hr) as Hok.
  pose proof (items_slot n m Hvalues 0) as Hj.
  destruct (Forall2_exists (fun v (x : json * value) => nested_value enc v = Ok x.1 /\ child dec f x.1 = Ok x.2 /\
    value_ok P (codec_of f) x.2 /\ same x.2 v) (items_of (get_slot m 0))) as [xs Hxs].
  { apply Forall_forall. intros v Hv. rewrite Forall_forall in Hok. rewrite Forall_forall in Hj.
    destruct (child_back n enc dec Hnested f k v Hcod (Hok v Hv) (Hj v Hv)) as (j & v' & ?). by exists (j, v'). }
  destruct (set_items f xs.*2 Hf Hk Hr) as (m' & Hm' & Hfl).
  { apply Forall2_fmap_r. eapply Forall2_impl; [exact Hxs|]. naive_solver. }
  exists xs.*1, xs.*2, m'. split; [|split; [|split; [done|by eapply complete_one]]].
  - unfold encode_items. rewrite (traverse_json_Forall2 _ _ xs.*1); [done|]. apply Forall2_fmap_r.
    eapply Forall2_impl; [exact Hxs|]. naive_solver.
  - apply traverse_json_Forall2. clear -Hxs. induction Hxs as [|v x vs xs (_ & ? & _) _ IH]; by constructor.
Qed.

Lemma struct_back f k :
  FIELDS (cls m) = [f] -> map_key_codec f = Some CString -> codec_of f = CMessage k ->
  exists d es' m', encode_entries (nested_value enc) (entries_of (get_slot m 0)) = Ok (JObj d) /\
    fold_json (parse_struct_entry dec f) d [] = Ok es' /\ set_at n 0 f (PDict es') (new (cls m)) = Ok m' /\ complete m'.
Proof.
  intros HF Hk Hcod. assert (FIELDS (cls m) !! 0%nat = Some f) as Hf by by rewrite HF.
  destruct (field_facts HJ n m Hm 0 f Hf) as (_ & Hs & _). pose proof (slot_entries_ok P f _ CString Hs Hk) as [Hwf Hok].
  pose proof (entries_slot n m Hvalues 0) as Hj. destruct (Hvalues 0) as [_ Hkeys].
  set (es := entries_of (get_slot m 0)) in *.
  destruct (Forall2_exists (fun (e : scalar * value) (x : (pystr * json) * (scalar * value)) =>
    x.1.1 = _encode_map_key e.1 /\ nested_value enc e.2 = Ok x.1.2 /\ x.2.1 = e.1 /\
    _parse_map_key CString x.1.1 = Ok x.2.1 /\ child dec f x.1.2 = Ok x.2.2 /\
    value_ok P (codec_of f) x.2.2 /\ same x.2.2 e.2) es) as [xs Hxs].
  { apply Forall_forall. intros e He. rewrite Forall_forall in Hok. rewrite Forall_forall in Hj.
    rewrite Forall_forall in Hkeys. destruct (Hok e He) as [Hke Hve].
    destruct (child_back n enc dec Hnested f k e.2 Hcod Hve) as (j & v' & ? & ? & ? & ?).
    { apply Hj. apply list_elem_of_fmap. eauto. }
    exists ((_encode_map_key e.1, j), (e.1, v')). split_and!; try done.
    apply (parse_encode_key HS); try done. cbn [fst snd]. apply Hkeys, list_elem_of_fmap. eauto. }
  assert (xs.*1.*1 = (fun e => _encode_map_key e.1) <$> es /\ xs.*2.*1 = es.*1) as [E1 E2].
  { clear -Hxs. induction Hxs as [|e x l xs (E & _ & E' & _) _ [IH1 IH2]]; [done|].
    rewrite !fmap_cons, E, E', IH1, IH2. done. }
  destruct (set_entries f CString xs.*2 Hf Hk) as (m' & Hm' & Hfl).
  { apply Forall2_fmap_r. eapply Forall2_impl; [exact Hxs|]. naive_solver. }
  exists xs.*1, xs.*2, m'. split; [|split; [|split; [done|by eapply complete_one]]].
  - unfold encode_entries. rewrite (fold_dict_set _ es xs.*1 []); [done| |simpl; rewrite E1; by eapply (encoded_keys HJ n CString (codec_of f))].
    apply Forall2_fmap_r. eapply Forall2_impl; [exact Hxs|]. intros [k' v] x (Ek & He & _) d. cbn [fst snd] in *.
    rewrite He, Ek. done.
  - rewrite (fold_dict_set _ xs.*1 xs.*2 []); [done| |simpl; by rewrite E2].
    clear -Hxs. induction Hxs as [|e x l xs (_ & _ & _ & Hpk & Hpv & _) _ IH]; [constructor|]. constructor; [|done].
    intros d. unfold parse_struct_entry. rewrite Hpk. cbn [mbind result_bind]. by rewrite Hpv.
Qed.

(** *** [Value] *)

Context (Hshape : forall m j, enc m = Ok j ->
  (FULL_NAME (cls m) = STRUCT -> exists d, j = JObj d) /\ (FULL_NAME (cls m) = LIST_VALUE -> exists l, j = JArr l)).

Section Member.
Context (kind : pystr) (Hkind : forall i f, FIELDS (cls m) !! i = Some f -> oneof f = Some kind).
Context (i : nat) (f : Field) (Hf : FIELDS (cls m) !! i = Some f) (v : value).
Context (Hslot : get_slot m i = mkSlot (Some (One v)) true).

Lemma wk_member_singular j g : FIELDS (cls m) !! j = Some g -> singular g = true /\ has_presence g = true.
Proof.
  intros Hg. pose proof (Hkind j g Hg) as Ho. split; [|by eapply oneof_presence].
  exact (f_oneof g (field_is_ok HS _ _ _ Hg) _ Ho).
Qed.

Lemma member_facts : value_ok P (codec_of f) v /\ json_value (jsonable n) v /\ _oneofs m !! kind = Some i.
Proof.
  destruct (body_slot _ _ _ _ _ Hm Hf) as [Hs _]. destruct (wk_member_singular i f Hf) as [Hsg _]. split_and!.
  - destruct (slot_one P f _ (One v) Hs Hsg) as (v' & [= <-] & ?); [by rewrite Hslot|done].
  - destruct (Hvalues i) as [Hj _]. unfold slot_values in Hj. rewrite Hslot in Hj. by apply Forall_cons in Hj as [? _].
  - apply (b_oneofs _ _ _ Hm). exists f. by rewrite Hslot, (Hkind i f Hf).
Qed.

Lemma set_member v' :
  value_ok P (codec_of f) v' -> same v' v ->
  exists m', set_at n i f (PValue v') (new (cls m)) = Ok m' /\ complete m'.
Proof.
  intros Hv' Hsame. destruct (wk_member_singular i f Hf) as [Hsg Hp]. pose proof Hsg as [Hk Hr]%singular_keys.
  destruct member_facts as (Hv & _ & Ho).
  destruct (filled_assign HS P c Hc n [] (new (cls m)) i f (PValue v')) as (m' & Hm' & Hfl);
    [exact (filled_new P c Hc)|done| |].
  - pose proof (y_one P n f v' (canon_value cn v) Hsg) as Hy. rewrite Hp in Hy.
    rewrite (slot_of_canon n m Hm i f Hf). unfold canon_slot, _field_has_value, map_field. rewrite Hk, Hr, Hp, Hslot.
    apply Hy; [by apply (prepare_back HJ)|by apply (canon_value_ok HJ)].
  - exists m'. unfold set_at. rewrite Hm'. split; [done|]. exists [i]. split; [done|]. intros j.
    destruct (decide (j = i)) as [->|Hne]; [right; left|]. left.
    destruct (FIELDS (cls m) !! j) as [g|] eqn:Hg; [|by apply slot_outside].
    rewrite (slot_of_canon n m Hm j g Hg). destruct (wk_member_singular j g Hg) as [[Hk' Hr']%singular_keys Hp'].
    assert (is_present (get_slot m j) = false) as Hno.
    { destruct (is_present (get_slot m j)) eqn:E; [|done]. exfalso. apply Hne. apply (inj Some). rewrite <- Ho. symmetry.
      apply (b_oneofs _ _ _ Hm). exists g. by rewrite (Hkind j g Hg). }
    unfold canon_slot, _field_has_value, map_field. by rewrite Hk', Hr', Hp', Hno.
Qed.

End Member.

Lemma value_back :
  FULL_NAME (cls m) = VALUE ->
  exists j m', encode_value_message enc m = Ok j /\ parse_value_message n dec j (new (cls m)) = Ok m' /\ complete m'.
Proof.
  intros Hn. destruct (wk_value _ (js_well_known HJ (cls m)) Hn) as (kind & Hpy & Hmem).
  destruct (wv_value m Hwk Hn) as (i & f & v & Hf & Hslot & Hnull & Hfin).
  assert (forall i f, FIELDS (cls m) !! i = Some f -> oneof f = Some kind) as Hkind by (intros; by eapply Hmem).
  destruct (Hmem i f Hf) as (_ & Hpub & Hname & Hmember).
  destruct (member_facts kind Hkind i f Hf v Hslot) as (Hv & Hj & Ho).
  assert (_field (cls m) (proto_name f) = Ok (i, f)) as Hfield by (unfold _field; by rewrite Hname).
  unfold encode_value_message, WhichOneof, selected_public. rewrite Hpy, Ho, Hf, Hpub. cbn [fmap option_fmap option_map].
  assert (get_value m i f = v) as Hg by (unfold get_value; by rewrite Hslot).
  assert (forall s, v = Scalar s -> exists m', set_scalar n (proto_name f) s (new (cls m)) = Ok m' /\ complete m') as Hset.
  { intros s ->. unfold set_scalar, _set. cbn [cls new]. rewrite Hfield. by apply (set_member kind Hkind i f Hf (Scalar s)). }
  assert (forall k, codec_of f = CMessage k -> exists mv j v' m', v = MessageV mv /\ cls mv = k /\ enc mv = Ok j /\ child dec f j = Ok v' /\
    set_at n i f (PValue v') (new (cls m)) = Ok m' /\ complete m') as Hmsg.
  { intros k Hk. destruct (child_back n enc dec Hnested f k v Hk Hv Hj) as (j & v' & He & Hch & Hv' & Hsame).
    destruct (set_member kind Hkind i f Hf v Hslot v' Hv' Hsame) as (m' & ? & ?). rewrite Hk in Hv.
    destruct v as [s|mv]; [done|]. destruct Hv as [? _]. by exists mv, j, v', m'. }
  rewrite Hfield. cbn [mbind result_bind]. rewrite Hg.
  destruct Hmember as [[E (ic & Hic)]|[[E Hcod]|[[E Hcod]|[[E Hcod]|[[E (k & Hcod & Hk)]|[E (k & Hcod & Hk)]]]]]];
    rewrite E in *.
  - rewrite decide_True by done. rewrite (Hnull eq_refl) in Hset. destruct (Hset _ eq_refl) as (m' & ? & ?). by exists JNull, m'.
  - rewrite Hcod in Hv. destruct v as [[| |x| |]|]; try done. destruct (Hset _ eq_refl) as (m' & ? & ?). exists (JFloat x), m'.
    rewrite decide_False by by vm_compute. rewrite decide_True by done. cbn [parse_value_message]. by rewrite (Hfin x eq_refl).
  - rewrite Hcod in Hv. destruct v as [[| | | |s]|]; try done. destruct (Hset _ eq_refl) as (m' & ? & ?). exists (JStr s), m'.
    do 2 rewrite decide_False by by vm_compute. rewrite decide_True by by left. cbn [parse_value_message]. simpl in Hj. by rewrite Hj.
  - rewrite Hcod in Hv. destruct v as [[|b| | |]|]; try done. destruct (Hset _ eq_refl) as (m' & ? & ?). exists (JBool b), m'.
    do 2 rewrite decide_False by by vm_compute. rewrite decide_True by by right. done.
  - destruct (Hmsg k Hcod) as (mv & j & v' & m' & -> & Hcls & He & Hch & Hm' & Hcomp). exists j, m'.
    do 2 rewrite decide_False by by vm_compute.
    rewrite decide_False by (intros [E'|E']; by vm_compute in E'). split; [done|]. split; [|done].
    destruct (proj1 (Hshape mv j He)) as [d ->]; [by rewrite Hcls|]. cbn [parse_value_message cls new]. rewrite Hfield.
    cbn [mbind result_bind]. by rewrite Hch.
  - destruct (Hmsg k Hcod) as (mv & j & v' & m' & -> & Hcls & He & Hch & Hm' & Hcomp). exists j, m'.
    do 2 rewrite decide_False by by vm_compute.
    rewrite decide_False by (intros [E'|E']; by vm_compute in E'). split; [done|]. split; [|done].
    destruct (proj2 (Hshape mv j He)) as [d ->]; [by rewrite Hcls|]. cbn [parse_value_message cls new]. rewrite Hfield.
    cbn [mbind result_bind]. by rewrite Hch.
Qed.

(** *** All of them *)

Lemma wrapper_back f :
  FIELDS (cls m) = [f] -> proto_name f = u "value" -> plain f ->
  exists j v m', _encode_value o enc (codec_of f) (get_value m 0 f) = Ok j /\
    _parse_value ign dec (codec_of f) j = Ok (Some v) /\ set_at n 0 f (PValue v) (new (cls m)) = Ok m' /\ complete m' /\
    is_null j = false.
Proof.
  intros HF Hname Hpl. assert (FIELDS (cls m) !! 0%nat = Some f) as Hf by by rewrite HF. pose proof Hpl as (Hsg & Hp & _).
  destruct (plain_value HJ n m Hm Hvalues 0 f Hf Hsg Hp) as (s & Hg & Hok & Hj & _).
  destruct (field_facts HJ n m Hm 0 f Hf) as (_ & _ & Hcj & _).
  destruct (encode_scalar_total o enc (codec_of f) s Hok Hcj) as [j He].
  destruct (parse_encode_scalar HS ign enc dec o (codec_of f) s j Hok Hcj Hj He) as [Hpa Hnn].
  pose proof (field_alone f HF) as Hfield.
  destruct (set_plain (proto_name f) 0 f s [] (new (cls m)) Hf Hfield Hpl Hg (filled_new P c Hc)) as (m' & Hm' & Hfl).
  unfold set_scalar, _set in Hm'. cbn [cls new] in Hm'. rewrite Hfield in Hm'.
  exists j, (Scalar s), m'. rewrite Hg. split_and!; try done; [by eapply complete_one|by destruct j].
Qed.

Lemma not_wrapper s : s ∈ [TIMESTAMP; DURATION; FIELD_MASK; STRUCT; LIST_VALUE; VALUE] -> s ∉ _WRAPPERS.
Proof.
  assert (bool_decide (Forall (fun s => s ∉ _WRAPPERS) [TIMESTAMP; DURATION; FIELD_MASK; STRUCT; LIST_VALUE; VALUE]) = true)
    as Hb by by vm_compute.
  apply bool_decide_eq_true in Hb. rewrite Forall_forall in Hb. apply Hb.
Qed.

Ltac other_name := rewrite decide_False by (by vm_compute).

Definition known_back : Prop :=
  exists j m', _encode_well_known o enc m = Ok (Some j) /\
    _parse_well_known ign n dec j (new (cls m)) = Ok (Some m') /\ complete m' /\
    (is_null j = true -> FULL_NAME (cls m) = VALUE).

Lemma wrapper_known : FULL_NAME (cls m) ∈ _WRAPPERS -> known_back.
Proof.
  intros Hn. destruct (wk_wrapper _ (js_well_known HJ (cls m)) Hn) as (f & HF & Hname & Hpl).
  destruct (wrapper_back f HF Hname Hpl) as (j & v & m' & He & Hp & Hm' & Hcomp & Hnn).
  exists j, m'. pose proof (field_alone f HF) as Hfield. rewrite Hname in Hfield.
  assert (forall s, s ∈ [TIMESTAMP; DURATION; FIELD_MASK; STRUCT; LIST_VALUE; VALUE] -> FULL_NAME (cls m) <> s) as Hne.
  { intros s Hs <-. by apply not_wrapper in Hs. }
  unfold _encode_well_known, _parse_well_known. cbn [cls new].
  do 6 rewrite (decide_False (P := FULL_NAME (cls m) = _)) by (apply Hne; repeat (left || right)).
  rewrite decide_True by done. rewrite Hfield. cbn [mbind result_bind].
  rewrite He. do 6 rewrite (decide_False (P := FULL_NAME (cls m) = _)) by (apply Hne; repeat (left || right)).
  rewrite decide_True by done. rewrite Hp. cbn [mbind result_bind]. rewrite Hm'. cbn [mbind result_bind].
  by rewrite Hnn.
Qed.

Lemma well_known_back :
  known_back \/
  (_encode_well_known o enc m = Ok None /\ forall j, _parse_well_known ign n dec j (new (cls m)) = Ok None).
Proof.
  pose proof (js_well_known HJ (cls m)) as Hw.
  destruct (decide (FULL_NAME (cls m) ∈ _WRAPPERS)) as [Hwr|Hwr]; [left; by apply wrapper_known|].
  destruct (decide (FULL_NAME (cls m) = TIMESTAMP)) as [Hn|H1'].
  { left. destruct (wv_timestamp m Hwk Hn) as (a & b & Ha & Hb & Hv). assert (exists s, encode_timestamp a b = Ok s) as [s He] by (unfold encode_timestamp; rewrite Hv; by eexists).
    pose proof (parse_encode_timestamp a b s He) as Hp.
    destruct (times_back a b _ (or_introl Hn) Ha Hb Hp) as (m' & Hm' & Hcomp). exists (JStr s), m'.
    unfold _encode_well_known, _parse_well_known. cbn [cls new]. rewrite Hn, decide_True by done.
    rewrite Ha, Hb. cbn [mbind result_bind]. rewrite He. cbn [mbind result_bind]. by rewrite Hm'. }
  destruct (decide (FULL_NAME (cls m) = DURATION)) as [Hn|H2'].
  { left. destruct (wv_duration m Hwk Hn) as (a & b & Ha & Hb & Hv). assert (exists s, encode_duration a b = Ok s) as [s He] by (unfold encode_duration; rewrite Hv; by eexists).
    pose proof (parse_encode_duration a b s He) as Hp.
    destruct (times_back a b _ (or_intror Hn) Ha Hb Hp) as (m' & Hm' & Hcomp). exists (JStr s), m'.
    unfold _encode_well_known, _parse_well_known. cbn [cls new]. rewrite Hn. other_name. rewrite decide_True by done.
    rewrite Ha, Hb. cbn [mbind result_bind]. rewrite He. other_name. rewrite decide_True by done. cbn [mbind result_bind].
    by rewrite Hm'. }
  destruct (decide (FULL_NAME (cls m) = FIELD_MASK)) as [Hn|H3'].
  { left. destruct (wk_mask _ Hw Hn) as (f & HF & Hname & Hk & Hr & Hcod).
    destruct (mask_back f HF Hk Hr Hcod (wv_mask m Hwk Hn)) as (qs & ps & m' & Hq & Hp & Hm' & Hcomp).
    exists (JStr (join [44] qs)), m'. pose proof (field_alone f HF) as Hfield. rewrite Hname in Hfield.
    unfold _encode_well_known, _parse_well_known, get_items, _set. cbn [cls new]. rewrite Hn, Hfield. do 2 other_name.
    rewrite decide_True by done. cbn [mbind result_bind]. rewrite Hq. do 2 other_name. rewrite decide_True by done.
    cbn [mbind result_bind]. rewrite Hp. cbn [mbind result_bind]. by rewrite Hm'. }
  destruct (decide (FULL_NAME (cls m) = STRUCT)) as [Hn|H4'].
  { left. destruct (wk_struct _ Hw Hn) as (f & k & HF & Hname & Hk & Hcod).
    destruct (struct_back f k HF Hk Hcod) as (d & es' & m' & He & Hp & Hm' & Hcomp).
    exists (JObj d), m'. pose proof (field_alone f HF) as Hfield. rewrite Hname in Hfield.
    unfold _encode_well_known, _parse_well_known, get_entries. cbn [cls new]. rewrite Hn, Hfield. do 3 other_name.
    rewrite decide_True by done. cbn [mbind result_bind]. rewrite He. do 3 other_name. rewrite decide_True by done.
    cbn [mbind result_bind]. rewrite Hp. cbn [mbind result_bind]. by rewrite Hm'. }
  destruct (decide (FULL_NAME (cls m) = LIST_VALUE)) as [Hn|H5'].
  { left. destruct (wk_list _ Hw Hn) as (f & k & HF & Hname & Hk & Hr & Hcod).
    destruct (list_back f k HF Hk Hr Hcod) as (d & vs' & m' & He & Hp & Hm' & Hcomp).
    exists (JArr d), m'. pose proof (field_alone f HF) as Hfield. rewrite Hname in Hfield.
    unfold _encode_well_known, _parse_well_known, get_items. cbn [cls new]. rewrite Hn, Hfield. do 4 other_name.
    rewrite decide_True by done. cbn [mbind result_bind]. rewrite He. do 4 other_name. rewrite decide_True by done.
    cbn [mbind result_bind]. rewrite Hp. cbn [mbind result_bind]. by rewrite Hm'. }
  destruct (decide (FULL_NAME (cls m) = VALUE)) as [Hn|H6'].
  { left. destruct (value_back Hn) as (j & m' & He & Hp & Hcomp). exists j, m'.
    unfold _encode_well_known, _parse_well_known. cbn [cls new]. rewrite Hn. do 5 other_name. rewrite decide_True by done.
    rewrite He. cbn [mbind result_bind]. do 5 other_name. rewrite decide_True by done. by rewrite Hp. }
  destruct (decide (FULL_NAME (cls m) = ANY)) as [Hn|H8'].
  { left. destruct (any_back Hn) as (j & m' & He & Hp & Hcomp & Hnull). exists j, m'.
    unfold _encode_well_known, _parse_well_known. cbn [cls new]. rewrite Hn. rewrite Hn in Hwr. do 6 other_name.
    rewrite decide_False by done. rewrite decide_True by done. rewrite He. cbn [mbind result_bind]. do 6 other_name.
    rewrite decide_False by done. rewrite decide_True by done. rewrite Hp, Hnull. by cbn [mbind result_bind]. }
  destruct (decide (FULL_NAME (cls m) = EMPTY)) as [Hn|H7'].
  { left. pose proof (wk_empty _ Hw Hn) as HF. exists (JObj []), (new (cls m)).
    unfold _encode_well_known, _parse_well_known. cbn [cls new]. rewrite Hn. rewrite Hn in Hwr. do 6 other_name.
    rewrite decide_False by done. other_name. rewrite decide_True by done. do 6 other_name.
    rewrite decide_False by done. other_name. rewrite decide_True by done. split_and!; try done.
    exists []. split; [exact (filled_new P c Hc)|]. intros i. left. apply slot_outside. by rewrite HF. }
  right. unfold _encode_well_known, _parse_well_known. cbn [cls new].
  split; [|intros j]; do 6 (rewrite decide_False by done); rewrite (decide_False (P := _ ∈ _)) by done;
    do 2 (rewrite decide_False by done); done.
Qed.

End WellKnown.
