(* ===== verification/JsonSafe.v ===== *)
(** * JSON: the parser is total and typed

    On every JSON value the parser ends, with a well-formed message or with an
    exception.  The measure is the height of the value, twice: a
    [google.protobuf.Value] passes its value on to a [Struct] or [ListValue]. *)
From stdpp Require Import gmap.
From S2P Require Import Prelude PyStr PyText Json FieldMask Bytes PyNumber PyTime Base64 Wire ValueCodec Message MessageInv MessageOps MessageParse MessageCanon MessageRoundtrip MessageEncode MessageSteps MessageClone JsonFormat JsonScalars JsonRoundtrip.
#[local] Open Scope Z_scope.

Fixpoint height (j : json) : nat :=
  match j with
  | JArr l => S (foldr (fun j n => Nat.max (height j) n) 0%nat l)
  | JObj l => S (foldr (fun x n => Nat.max (height x.2) n) 0%nat l)
  | _ => 0%nat
  end.

Lemma height_item j l : j ∈ l -> (height j < height (JArr l))%nat.
Proof.
  intros Hj. cbn [height]. apply Nat.lt_succ_r. induction Hj as [l|j j' l _ IH]; cbn [foldr]; lia.
Qed.

Lemma height_entry x l : x ∈ l -> (height x.2 < height (JObj l))%nat.
Proof.
  intros Hx. cbn [height]. apply Nat.lt_succ_r. induction Hx as [l|x x' l _ IH]; cbn [foldr]; lia.
Qed.

(** A value that satisfies [Q], or an exception of the code: not the fuel of the
    model, neither of this parser nor of the operations of messages and readers. *)
Definition safe {A} (r : result json_failure A) (Q : A -> Prop) : Prop :=
  match r with
  | Ok a => Q a
  | Raise JsonFuel => False
  | Raise (Unwrapped e) => e <> MessageFuel /\ e <> WireE OutOfFuel
  | Raise _ => True
  end.

Lemma safe_bind {A B} (r : result json_failure A) (k : A -> result json_failure B) Q R :
  safe r Q -> (forall a, Q a -> safe (k a) R) -> safe (r ≫= k) R.
Proof. destruct r as [a|[]]; simpl; auto. Qed.

Lemma safe_impl {A} (r : result json_failure A) (Q R : A -> Prop) : safe r Q -> (forall a, Q a -> R a) -> safe r R.
Proof. destruct r as [a|[]]; simpl; auto. Qed.

Lemma safe_lift {A} (r : result message_error A) Q : returns_or_raises r Q -> safe (lift_message r) Q.
Proof. by destruct r. Qed.

Lemma safe_wrap {A} (r : result json_failure A) Q : safe r Q -> safe (wrap r) Q.
Proof. destruct r as [a|[|e| |]]; simpl; try done. by destruct (caught e). Qed.

Lemma safe_fold {A S} (f : S -> A -> result json_failure S) (I : S -> Prop) l s :
  (forall s a, I s -> a ∈ l -> safe (f s a) I) -> I s -> safe (fold_json f l s) I.
Proof.
  revert s. induction l as [|a l IH]; intros s Hf Hs; [done|]. cbn [fold_json].
  eapply safe_bind; [apply Hf; [done|left]|]. intros s' Hs'. apply IH; [|done]. intros s'' a' ? ?. apply Hf; [done|by right].
Qed.

Lemma safe_traverse {A B} (f : A -> result json_failure B) (Q : B -> Prop) l :
  (forall a, a ∈ l -> safe (f a) Q) -> safe (traverse_json f l) (Forall Q).
Proof.
  induction l as [|a l IH]; intros Hf; [constructor|]. cbn [traverse_json].
  eapply safe_bind; [apply Hf; left|]. intros b Hb.
  eapply safe_bind; [apply IH; intros a' ?; apply Hf; by right|]. intros bs Hbs. by constructor.
Qed.

(** ** Serialization does not run out *)

Section Serialize.
Context `{Schema} (HS : schema_ok _).

Abbreviation no_fuel := (raises_only (fun e => e <> MessageFuel /\ e <> WireE OutOfFuel)).

Lemma no_fuel_wire {A} (r : result wire_error A) : r <> Raise OutOfFuel -> no_fuel (lift_wire r).
Proof. destruct r as [|e]; [done|]. intros He. split; [done|]. intros [= ->]. by apply He. Qed.

Lemma write_bytes_fuel b w : BinaryWriter.write_bytes b w <> Raise OutOfFuel.
Proof.
  unfold BinaryWriter.write_bytes. pose proof (write_varint_fuel (Z.of_nat (length b)) w). by destruct (BinaryWriter.write_varint _ _).
Qed.

Lemma write_packed_fuel {A} (wr : W A) l w :
  (forall a w, wr a w <> Raise OutOfFuel) -> BinaryWriter.write_packed l wr w <> Raise OutOfFuel.
Proof.
  intros Hw. unfold BinaryWriter.write_packed.
  assert (forall w, BinaryWriter.write_all wr l w <> Raise OutOfFuel) as Hall.
  { induction l as [|a l IH]; intros w'; [done|]. cbn [BinaryWriter.write_all]. pose proof (Hw a w') as Ha.
    destruct (wr a w') as [w''|]; [apply IH|done]. }
  specialize (Hall BinaryWriter.init). destruct (BinaryWriter.write_all _ _ _); [apply write_bytes_fuel|done].
Qed.

Lemma write_slot_no_fuel ser det f st w :
  field_ok f -> (forall m, no_fuel (ser m)) -> no_fuel (write_slot ser det f st w).
Proof.
  intros Hf Hser.
  assert (forall n t w, no_fuel (lift_wire (BinaryWriter.write_tag n t w))) as Ht by (intros; apply no_fuel_wire, write_tag_fuel).
  assert (forall b w, no_fuel (lift_wire (BinaryWriter.write_bytes b w))) as Hb by (intros; apply no_fuel_wire, write_bytes_fuel).
  assert (forall c v w, codec_ok c -> no_fuel (write_val ser c v w)) as Hv.
  { intros c [x|m] w' Hc; unfold write_val; [by apply no_fuel_wire, write_scalar_fuel|]. by apply raises_bind. }
  assert (forall v w, no_fuel (_write_field ser f v w)) as Hfield.
  { intros v w'. unfold _write_field. apply raises_bind; [apply Ht|]. intros. apply Hv, Hf. }
  unfold write_slot. destruct (map_key_codec f) as [kc|] eqn:Ek.
  - apply raises_fold. intros w' e _. unfold write_entry. repeat (apply raises_bind; [|intros ?]); try apply Ht; try apply Hb.
    + apply no_fuel_wire, write_scalar_fuel. by destruct (key_codec_scalar kc (f_key f Hf kc Ek)).
    + apply Hv, Hf.
  - destruct (repeated f).
    + destruct (items_of st) as [|v vs]; [done|]. destruct (packed f && _); [|by apply raises_fold].
      apply raises_bind; [apply Ht|]. intros w'. apply no_fuel_wire, write_packed_fuel. intros; apply write_scalar_fuel, Hf.
    + destruct (_field_has_value f st); [|done]. by destruct (cell_of st) as [[]|].
Qed.

Lemma serialize_no_fuel d det m : no_fuel (serialize_to_string d det m).
Proof.
  revert m. induction d as [|d IH]; intros m; [done|]. cbn [serialize_to_string].
  apply raises_bind.
  - pose proof (find_raises (own_limit m) m) as Hf. unfold FindInitializationErrors. unfold own_limit in Hf.
    destruct (find_initialization_errors _ m); [done|]. simpl in Hf. by subst.
  - intros [|]; [|done]. apply raises_bind; [|done]. apply raises_fold. intros w [i f] Hi.
    rewrite sorted_fields_perm in Hi. apply indexed_lookup in Hi. apply write_slot_no_fuel; [|done].
    by apply (field_is_ok HS (cls m) i).
Qed.

End Serialize.

(** ** The parser *)

Section Safe.
Context `{JsonProgram} `{PyCase} `{PyDigits} (HJ : json_schema_ok).
Let HS : schema_ok _ := js_schema HJ.

(** The fuel a value needs. *)
Definition levels (c : nat) (j : json) : nat := (2 * height j + if bool_decide (FULL_NAME c = VALUE) then 2 else 1)%nat.

Section Level.
Context (ign : bool) (n : nat) (dec : json -> message -> result json_failure message).
Context (Hdec : forall j k, (levels k j <= n)%nat -> safe (dec j (new k)) (fun m => cls m = k /\ message_ok n m)).

Abbreviation P := (message_ok n).
Definition good (k : nat) (m : message) : Prop := body_ok P m /\ cls m = k.

Lemma norm_safe c s :
  codec_ok c -> safe (norm c s) (fun v => exists v', v = Some v' /\ value_ok P c v').
Proof.
  intros Hc. unfold norm. eapply safe_bind; [apply safe_lift, (normalize_typed P); done|]. intros v Hv. by exists v.
Qed.

Lemma parse_integer_safe j : safe (_parse_integer j) (fun _ => True).
Proof. unfold _parse_integer. repeat case_match; done. Qed.

Lemma parse_value_safe c j :
  codec_ok c -> (match c with CMessage k => (levels k j <= n)%nat | _ => True end) ->
  safe (_parse_value ign dec c j) (fun v => forall v', v = Some v' -> value_ok P c v').
Proof.
  intros Hc Hl. assert (forall s, safe (norm c s) (fun v => forall v', v = Some v' -> value_ok P c v')) as Hn.
  { intros s. eapply safe_impl; [by apply norm_safe|]. intros v (v' & -> & Hv) v'' [= <-]. done. }
  apply safe_wrap. destruct c as [ic| | | | |k].
  - case_match; [eapply safe_bind; [apply parse_integer_safe|intros; apply Hn]|].
    case_match; [|done]. unfold parse_enum.
    destruct j; try (eapply safe_bind; [apply parse_integer_safe|intros; apply Hn]).
    repeat case_match; try apply Hn; try done.
  - destruct j; try done; apply Hn.
  - eapply safe_bind; [|intros; apply Hn]. instantiate (1 := fun _ => True). unfold _parse_float. repeat case_match; done.
  - eapply safe_bind; [|intros; apply Hn]. instantiate (1 := fun _ => True). unfold _parse_bytes. repeat case_match; done.
  - destruct j; try done. case_match; [apply Hn|done].
  - eapply safe_bind; [by apply Hdec|]. intros m [Hk Hm] v [= <-]. done.
Qed.

Lemma parse_key_safe kc s : key_codec_ok kc -> safe (_parse_map_key kc s) (scalar_ok kc).
Proof.
  intros Hk. unfold _parse_map_key.
  assert (forall k, safe (lift_message (normalize_key kc k)) (scalar_ok kc)) as Hn
    by (intros k; by apply safe_lift, normalize_key_typed).
  destruct kc; try done.
  - eapply safe_bind; [apply parse_integer_safe|intros; apply Hn].
  - repeat case_match; done.
  - case_match; [apply Hn|done].
Qed.

Lemma set_safe k i f x m :
  good k m -> FIELDS k !! i = Some f -> input_ok n x -> safe (set_at n i f x m) (good k).
Proof.
  intros [Hm Ek] Hf Hx. apply safe_lift. rewrite <- Ek in Hf.
  eapply ror_impl; [apply (set_field_ok HS n n true i f x m); [lia|done..]|]. intros m' [? ?]. split; [done|congruence].
Qed.

Lemma field_lookup c name i f : field_by_name c name = Some (i, f) -> FIELDS c !! i = Some f.
Proof.
  unfold field_by_name. intros Hn. apply indexed_lookup. revert Hn.
  assert (forall l acc, (forall x, acc = Some x -> x ∈ indexed c) -> (forall x, x ∈ l -> x ∈ indexed c) -> forall x,
    foldl (fun acc '(i, f) => if bool_decide (proto_name f = name) then Some (i, f) else acc) acc l = Some x -> x ∈ indexed c) as Hl.
  { induction l as [|[i' f'] l IH]; intros acc Hacc Hin x; cbn [foldl]; [apply Hacc|]. apply IH.
    - intros y. case_match; [intros [= <-]; apply Hin; left|apply Hacc].
    - intros y Hy. apply Hin. by right. }
  apply Hl; [done|done].
Qed.

Lemma field_safe c name : safe (_field c name) (fun x => FIELDS c !! x.1 = Some x.2).
Proof. unfold _field. destruct (field_by_name c name) as [[i f]|] eqn:E; [|done]. by eapply field_lookup. Qed.

Lemma set_name_safe k name x m : good k m -> input_ok n x -> safe (_set n name x m) (good k).
Proof.
  intros Hm Hx. unfold _set. destruct Hm as [Hb <-]. eapply safe_bind; [apply field_safe|]. intros [i f] Hf.
  by apply set_safe.
Qed.

(** A value with enough fuel for any class. *)
Definition small (j : json) : Prop := forall k, (levels k j <= n)%nat.

Lemma small_below j h : (height j < h)%nat -> (2 * h <= n)%nat -> small j.
Proof. intros Hj Hh k. unfold levels. destruct (bool_decide _); lia. Qed.

Lemma value_holds c v : value_ok P c v -> holds P v.
Proof. destruct v as [s|m]; [done|]. destruct c; try done. by intros [_ ?]. Qed.

Lemma child_safe f j :
  (forall k, codec_of f = CMessage k -> (levels k j <= n)%nat) -> safe (child dec f j) (holds P).
Proof.
  intros Hl. unfold child. destruct (codec_of f) as [| | | | |k]; try done.
  eapply safe_bind; [apply Hdec; by apply Hl|]. by intros m [_ ?].
Qed.

Lemma times_safe k r m : safe r (fun _ => True) -> good k m -> safe (set_times n r m) (good k).
Proof.
  intros Hr Hm. unfold set_times. eapply safe_bind; [exact Hr|]. intros [a b] _.
  eapply safe_bind; [by apply (set_name_safe k)|]. intros m' Hm'. by apply set_name_safe.
Qed.

(** *** Objects *)

Lemma json_names_lookup c name i f : dict_get (json_names c) name = Some (i, f) -> FIELDS c !! i = Some f.
Proof.
  intros Hn. apply indexed_lookup. revert i f Hn. unfold json_names.
  assert (forall l d, (forall name x, dict_get d name = Some x -> x ∈ indexed c) -> (forall x, x ∈ l -> x ∈ indexed c) ->
    forall name x, dict_get (foldl (fun d '(i, f) => if public f then dict_set (dict_set d (proto_name f) (i, f)) (_json_name f) (i, f)
      else d) d l) name = Some x -> x ∈ indexed c) as Hl.
  { induction l as [|[i f] l IH]; intros d Hd Hin; cbn [foldl]; [exact Hd|]. apply IH.
    - intros name' x. case_match; [|apply Hd]. rewrite !dict_get_set.
      repeat case_match; try (intros [= <-]; apply Hin; left); apply Hd.
    - intros x Hx. apply Hin. by right. }
  intros i f. apply Hl; [done|done].
Qed.

Lemma entry_safe kc c es x :
  key_codec_ok kc -> codec_ok c -> small x.2 -> Forall (fun e => holds P e.2) es ->
  safe (parse_map_entry ign dec kc c es x) (Forall (fun e => holds P e.2)).
Proof.
  intros Hk Hc Hx Hes. unfold parse_map_entry. eapply safe_bind; [apply parse_value_safe; [done|by destruct c]|].
  intros [v|] Hv; [|done]. eapply safe_bind; [by apply parse_key_safe|]. intros k _. simpl.
  apply Forall_forall. intros e [->|He]%dict_set_elem; [by eapply value_holds, Hv|]. rewrite Forall_forall in Hes. by apply Hes.
Qed.

Lemma merge_safe k i f cur parsed m :
  good k m -> FIELDS k !! i = Some f -> value_ok P (codec_of f) (MessageV parsed) ->
  cell_of (get_slot m i) = Some (One (MessageV cur)) -> singular f = true ->
  safe (current ← lift_message (MergeFrom n cur parsed); Ok (set_cell i (One (MessageV current)) m)) (good k).
Proof.
  intros [Hm Ek] Hf Hp Hcur Hsg. rewrite <- Ek in Hf. destruct (body_slot _ _ _ _ _ Hm Hf) as [Hs _].
  destruct (slot_one P f _ _ Hs Hsg Hcur) as (v & [= <-] & Hv).
  destruct (codec_of f) as [| | | | |k'] eqn:Ec; try done. destruct Hp as [Ep Hp], Hv as [Ev Hv].
  destruct (MergeFrom_ok HS any_bytes n n n cur parsed) as (r & -> & Er & Hr); [lia|lia|done|done|congruence|].
  cbn [lift_message mbind result_bind]. split; [|done]. eapply set_cell_ok; [done..|]. apply cell_ok_one; [done|].
  rewrite Ec. split; [congruence|done].
Qed.

Lemma parse_field_safe k i f seen j m :
  good k m -> FIELDS k !! i = Some f -> (2 * height j + 2 <= n)%nat -> safe (parse_field ign n dec i f seen j m) (good k).
Proof.
  intros Hm Hf Hj. pose proof (field_is_ok HS k i f Hf) as Hfok. pose proof (f_codec f Hfok) as Hc.
  assert (small j) as Hsj by (intros k'; unfold levels; destruct (bool_decide _); lia).
  unfold parse_field. destruct (map_key_codec f) as [kc|] eqn:Ek.
  - destruct j as [| | | | | |es]; try done. eapply safe_bind.
    + apply (safe_fold _ (Forall (fun e => holds P e.2))); [|constructor]. intros es' x Hes' Hx.
      apply entry_safe; [by eapply f_key|done| |done]. apply (small_below _ (height (JObj es))); [by apply height_entry|lia].
    + intros es' Hes'. by apply set_safe.
  - destruct (repeated f) eqn:Er.
    + destruct j as [| | | | |l|]; try done. case_match; [done|]. eapply safe_bind.
      * apply (safe_traverse _ (fun v => forall v', v = Some v' -> value_ok P (codec_of f) v')). intros j Hin.
        apply parse_value_safe; [done|]. destruct (codec_of f); try done.
        apply (small_below _ (height (JArr l))); [by apply height_item|lia].
      * intros vs Hvs. apply set_safe; [done|done|]. simpl. apply Forall_forall. intros v (v' & Hin & Ev)%list_elem_of_omap.
        rewrite Forall_forall in Hvs. eapply value_holds. by apply (Hvs v' Hin).
    + assert (singular f = true) as Hsg by by apply singular_keys. eapply safe_bind.
      * apply parse_value_safe; [done|by destruct (codec_of f)].
      * intros [v|] Hv; [|done]. specialize (Hv v eq_refl).
        assert (safe (set_at n i f (PValue v) m) (good k)) as Hset by (apply set_safe; [done|done|by eapply value_holds]).
        destruct (seen && message_field f); [|by destruct v].
        destruct (cell_of (get_slot m i)) as [[[|cur]| |]|] eqn:Ecell; try exact Hset; try (by destruct v).
        destruct v as [s|parsed]; [done|]. by eapply merge_safe.
Qed.

Lemma step_safe k st x :
  good k (d_message st) -> (2 * height x.2 + 2 <= n)%nat ->
  safe (parse_dict_step ign n dec st x) (fun st => good k (d_message st)).
Proof.
  intros Hst Hx. destruct x as [name raw]. unfold parse_dict_step. pose proof Hst as [Hb Ek]. rewrite Ek.
  destruct (dict_get (json_names k) name) as [[i f]|] eqn:En; [|by case_match]. apply json_names_lookup in En.
  case_match.
  - split; [apply clear_state_ok; [done|by rewrite Ek]|by simpl; rewrite cls_clear_state].
  - eapply (safe_bind _ _ (fun _ => True)); [by repeat case_match|]. intros os _.
    eapply safe_bind; [by apply (parse_field_safe k)|]. done.
Qed.

Lemma dict_safe k data m :
  good k m -> (forall x, x ∈ data -> 2 * height x.2 + 2 <= n)%nat -> safe (dict_parse ign n dec data m) (good k).
Proof.
  intros [Hm Ek] Hd. unfold dict_parse. destruct (Clear_ok any_bytes P m Hm) as [Hc Ec].
  eapply (safe_bind _ _ (fun st => good k (d_message st))); [|done].
  apply safe_fold; [|split; [exact Hc|cbn [d_message]; congruence]]. intros st x Hst Hx. apply step_safe; [done|by apply Hd].
Qed.

(** *** Well-known types *)

Context (j : json) (k : nat) (Hlevels : (levels k j <= S n)%nat).

Lemma height_n : (2 * height j <= n)%nat.
Proof. unfold levels in Hlevels. destruct (bool_decide _); lia. Qed.

Lemma any_safe m : good k m -> safe (parse_any ign n dec j m) (good k).
Proof.
  intros Hm. pose proof height_n as Hn. unfold parse_any. destruct j as [| | | | | |data]; try done. destruct data as [|x data]; [done|].
  set (d := x :: data) in *.
  destruct (dict_get d (u "@type")) as [[]|]; try done. case_match; [done|]. destruct (find_type s) as [k'|]; [|done].
  assert (forall y, y ∈ d -> (height y.2 < height (JObj d))%nat) as Hlt by (intros y; apply height_entry).
  eapply (safe_bind _ _ (fun _ => True)).
  - case_match.
    + destruct (dict_get d (u "value")) as [v|] eqn:Ev; [|done]. eapply safe_impl; [|done]. apply Hdec.
      apply dict_get_elem in Ev. apply (small_below v (height (JObj d))); [by apply (Hlt (u "value", v))|done].
    + eapply safe_impl; [|done]. apply (dict_safe k'); [split; [apply new_ok|done]|].
      intros y Hy%dict_del_elem. specialize (Hlt y Hy). lia.
  - intros embedded _. eapply safe_bind; [by apply (set_name_safe k)|]. intros m' Hm'.
    eapply (safe_bind _ _ (fun _ => True)); [|intros b _; by apply set_name_safe].
    pose proof (serialize_no_fuel HS (Z.to_nat (_nesting_limit (cls embedded))) true embedded) as Hs. unfold SerializeToString.
    by destruct (serialize_to_string _ _ _).
Qed.

Lemma member_safe name m :
  good k m -> FULL_NAME k = VALUE ->
  safe ('(i, f) ← _field (cls m) name; v ← child dec f j; set_at n i f (PValue v) m) (good k).
Proof.
  intros Hm Hname. destruct (wk_value _ (js_well_known HJ k) Hname) as (o & _ & Hmem).
  eapply safe_bind; [apply field_safe|]. intros [i f] Hf. destruct Hm as [Hb Ek]. rewrite Ek in Hf.
  eapply safe_bind; [|intros v Hv; by apply set_safe]. apply child_safe. intros k' Hk'.
  destruct (Hmem i f Hf) as (_ & _ & _ & Hv).
  assert (FULL_NAME k' <> VALUE) as Hne.
  { unfold value_member in Hv. destruct Hv as [[_ (? & E)]|[[_ E]|[[_ E]|[[_ E]|[[_ (k2 & E & E2)]|[_ (k2 & E & E2)]]]]]];
      try congruence; rewrite Hk' in E; injection E as ->; rewrite E2; by vm_compute. }
  unfold levels in *. rewrite bool_decide_eq_true_2 in Hlevels by done. rewrite bool_decide_eq_false_2 by done. lia.
Qed.

Lemma value_message_safe m : good k m -> FULL_NAME k = VALUE -> safe (parse_value_message n dec j m) (good k).
Proof.
  intros Hm Hname. assert (forall name s, safe (set_scalar n name s m) (good k)) as Hs by (intros; by apply set_name_safe).
  pose proof (fun name => member_safe name m Hm Hname) as Hmem. clear Hlevels. unfold parse_value_message.
  destruct j; try apply Hs; try apply Hmem; repeat case_match; try apply Hs; done.
Qed.

Lemma wrapper_safe m : good k m -> FULL_NAME k ∈ _WRAPPERS ->
  safe ('(i, f) ← _field (cls m) (u "value"); v ← _parse_value ign dec (codec_of f) j;
        match v with Some v => m ← set_at n i f (PValue v) m; Ok (Some m) | None => Raise other_type end)
    (fun w => forall m', w = Some m' -> good k m').
Proof.
  intros Hm Hname. destruct (wk_wrapper _ (js_well_known HJ k) Hname) as (f0 & HF & _ & (Hsg & Hp & _)).
  eapply safe_bind; [apply field_safe|]. intros [i f] Hf. pose proof Hm as [Hb Ek]. rewrite Ek in Hf. cbn [fst snd] in Hf.
  assert (f = f0) as -> by (rewrite HF in Hf; destruct i; [by injection Hf|done]).
  eapply safe_bind.
  - apply parse_value_safe; [exact (f_codec f0 (field_is_ok HS k i f0 Hf))|].
    destruct (codec_of f0) as [| | | | |k'] eqn:Ec; try done. exfalso. apply singular_keys in Hsg as [Hk _].
    unfold has_presence, message_field, map_field in Hp. rewrite Ec, Hk in Hp. by rewrite orb_true_r in Hp.
  - intros [v|] Hv; [|done]. eapply safe_bind; [apply (set_safe k); [done|done|by eapply value_holds, Hv]|].
    intros m' Hm' m'' [= <-]. done.
Qed.

Lemma well_known_safe m :
  good k m -> safe (_parse_well_known ign n dec j m) (fun w => forall m', w = Some m' -> good k m').
Proof.
  intros Hm. pose proof height_n as Hn. pose proof Hm as [Hb Ek]. unfold _parse_well_known. rewrite Ek.
  assert (forall r, safe r (good k) -> safe (m ← r; Ok (Some m)) (fun w => forall m', w = Some m' -> good k m')) as Hsome.
  { intros r Hr. eapply safe_bind; [exact Hr|]. intros m' Hm' m'' [= <-]. done. }
  case_decide; [destruct j; try done; apply Hsome, times_safe; [|done]; unfold parse_timestamp; repeat case_match; done|].
  case_decide; [destruct j; try done; apply Hsome, times_safe; [|done]; unfold parse_duration; repeat case_match; done|].
  case_decide.
  { destruct j as [| | | |s| |]; try done. eapply (safe_bind _ _ (Forall (holds P))).
    - destruct s as [|a s]; [constructor|]. apply safe_traverse. intros p _. unfold _camel_to_snake. by case_match.
    - intros ps Hps. by apply Hsome, set_name_safe. }
  case_decide.
  { destruct j as [| | | | | |data]; try done. eapply safe_bind; [apply field_safe|]. intros [i f] Hf. cbn [fst snd] in Hf.
    eapply safe_bind.
    - apply (safe_fold _ (Forall (fun e => holds P e.2))); [|constructor]. intros es x Hes Hx. unfold parse_struct_entry.
      eapply safe_bind; [by apply (parse_key_safe CString)|]. intros key _. eapply safe_bind.
      + apply child_safe. intros k' _. apply (small_below x.2 (height (JObj data))); [by apply height_entry|done].
      + intros v Hv. simpl. apply Forall_forall. intros e [->|He]%dict_set_elem; [done|].
        rewrite Forall_forall in Hes. by apply Hes.
    - intros es Hes. by apply Hsome, set_safe. }
  case_decide.
  { destruct j as [| | | | |items|]; try done. eapply safe_bind; [apply field_safe|]. intros [i f] Hf. cbn [fst snd] in Hf.
    eapply safe_bind.
    - apply (safe_traverse _ (holds P)). intros v Hv. apply child_safe. intros k' _.
      apply (small_below v (height (JArr items))); [by apply height_item|done].
    - intros vs Hvs. by apply Hsome, set_safe. }
  case_decide; [by apply Hsome, value_message_safe|].
  case_decide; [rewrite <- Ek at 1; by apply wrapper_safe|].
  case_decide; [by apply Hsome, any_safe|].
  case_decide; [|done]. destruct j as [| | | | | |[|? ?]]; try done; [by intros m' [= <-]|]. case_match; [by intros m' [= <-]|done].
Qed.

End Level.

(** The parser, with the fuel a value needs. *)
Lemma parse_safe n ign j m :
  (levels (cls m) j <= n)%nat -> message_ok n m ->
  safe (parse_value n ign j m) (fun m' => cls m' = cls m /\ message_ok n m').
Proof.
  revert j m. induction n as [|n IH]; intros j m Hl Hm; [done|]. cbn [parse_value].
  assert (forall j k, (levels k j <= n)%nat -> safe (parse_value n ign j (new k)) (fun m => cls m = k /\ message_ok n m)) as Hdec.
  { intros j' k Hk. apply IH; [done|]. destruct n; [unfold levels in Hk; destruct (bool_decide _); lia|apply new_ok]. }
  destruct (Clear_ok any_bytes (message_ok n) m Hm) as [Hc Ec].
  assert (good n (cls m) (Clear m)) as Hg by done.
  eapply safe_bind; [by apply (well_known_safe ign n _ Hdec j (cls m))|]. intros [m'|] Hw.
  - destruct (Hw m' eq_refl) as [? ?]. done.
  - destruct j as [| | | | | |data]; try done. eapply safe_impl; [apply (dict_safe ign n _ Hdec (cls m)); [done|]|].
    + intros x Hx. pose proof (height_entry x data Hx). unfold levels in Hl. destruct (bool_decide _); lia.
    + intros m' [? ?]. done.
Qed.

End Safe.
