(* ===== verification/JsonTheorems.v ===== *)
(** * JSON: the theorems

    The round trip of messages, the termination and typing of the parser, and the
    errors that are not [JsonError]. *)
From stdpp Require Import gmap.
From S2P Require Import Prelude PyStr PyText Json FieldMask Bytes PyNumber PyTime Base64 Wire ValueCodec Message MessageInv MessageOps MessageCanon MessageSteps MessageClone JsonFormat JsonScalars JsonRoundtrip JsonWellKnown JsonSafe.
#[local] Open Scope Z_scope.

Section Roundtrip.
Context `{JsonProgram} `{PyCase} `{PyDigits} (HJ : json_schema_ok).

(** The JSON of a [Struct] is an object, that of a [ListValue] an array. *)
Lemma encode_shape n o m j :
  message_to_value n o m = Ok j ->
  (FULL_NAME (cls m) = STRUCT -> exists d, j = JObj d) /\ (FULL_NAME (cls m) = LIST_VALUE -> exists l, j = JArr l).
Proof.
  destruct n as [|n]; [done|]. cbn [message_to_value]. unfold _encode_well_known. intros Hj.
  split; intros Hn; rewrite Hn in Hj.
  - do 3 rewrite decide_False in Hj by (by vm_compute). rewrite decide_True in Hj by done.
    destruct (get_entries m (u "fields")) as [[f es]|]; [|done]. cbn [mbind result_bind] in Hj. unfold encode_entries in Hj.
    destruct (fold_json _ es []) as [d|]; [|done]. injection Hj as <-. by exists d.
  - do 4 rewrite decide_False in Hj by (by vm_compute). rewrite decide_True in Hj by done.
    destruct (get_items m (u "values")) as [[f vs]|]; [|done]. cbn [mbind result_bind] in Hj. unfold encode_items in Hj.
    destruct (traverse_json _ vs) as [d|]; [|done]. injection Hj as <-. by exists d.
Qed.

Lemma back_all n o ign m :
  message_ok n m -> jsonable n m -> there_and_back n (message_to_value n o) (parse_value n ign) m.
Proof.
  revert m. induction n as [|n IH]; intros m Hm Hjs; [done|].
  cbn [jsonable] in Hjs. destruct Hjs as (Hu & Hany & Hpub & Hvalues & Hwk).
  assert (forall m', complete n m m' -> message_ok (S n) m' /\ canon (S n) false m' = canon (S n) false m /\ cls m' = cls m)
    as Hdone.
  { intros m' (L & Hfl & HL). destruct (filled_canon n m m' L Hm Hu Hfl HL) as [? Hcan]. split_and!; [done|done|].
    by apply (fl_cls _ _ _ _ Hfl). }
  unfold there_and_back. cbn [message_to_value parse_value]. rewrite Clear_new.
  destruct (well_known_back HJ o ign n (message_to_value n o) (parse_value n ign) IH m Hm Hvalues Hwk Hany
    (encode_shape n o)) as [(j & m' & He & Hp & Hcomp & Hnull)|[He Hp]].
  - exists j, m'. rewrite He. cbn [mbind result_bind]. rewrite Hp. cbn [mbind result_bind].
    destruct (Hdone m' Hcomp) as (? & ? & ?). done.
  - destruct (object_back HJ o ign n (message_to_value n o) (parse_value n ign) IH m Hm Hvalues Hpub)
      as (d & m' & L & Hd & Hpd & Hfl & HL).
    exists (JObj d), m'. rewrite He. cbn [mbind result_bind]. rewrite Hd, Hp. cbn [mbind result_bind].
    destruct (Hdone m') as (? & ? & ?); [by exists L|]. done.
Qed.

(** C4: a message that JSON can carry is encoded, under every choice of options,
    and [parse_value] reads the result back as a message with the same canonical
    form: the same values in the same fields, at every level.  The well-known types
    are included, [google.protobuf.Any] too: JSON carries one whose type is known and
    whose payload is the deterministic encoding of a message that JSON carries, and
    gives the same payload back. *)
Theorem json_roundtrip n o ign m :
  message_ok n m -> jsonable n m ->
  exists j m', message_to_value n o m = Ok j /\ parse_value n ign j (new (cls m)) = Ok m' /\
    message_ok n m' /\ canon n false m' = canon n false m.
Proof.
  intros Hm Hj. destruct (back_all n o ign m Hm Hj) as (j & m' & ? & ? & _ & ? & ? & _). by exists j, m'.
Qed.

(** C21: parsing any JSON value into any message ends: the nesting of the calls is
    at most twice the height of the value, plus two.  The result is an exception
    of the code or a well-formed message of the class, with typed slots and
    consistent oneofs; no part of the model has run out of fuel, neither the parser
    nor an operation of a message or a reader below it. *)
Theorem json_parse_total n ign j m :
  (2 * height j + 2 <= n)%nat -> message_ok n m ->
  match parse_value n ign j m with
  | Ok m' => cls m' = cls m /\ message_ok n m'
  | Raise e => e <> JsonFuel /\ e <> Unwrapped MessageFuel /\ e <> Unwrapped (WireE OutOfFuel)
  end.
Proof.
  intros Hn Hm. assert (levels (cls m) j <= n)%nat as Hl by (unfold levels; destruct (bool_decide _); lia).
  pose proof (parse_safe HJ n ign j m Hl Hm) as Hs. destruct (parse_value n ign j m) as [m'|[]]; simpl in Hs; try done.
  destruct Hs as [Hs1 Hs2]. split_and!; [done|by intros [= ->]..].
Qed.

(** Every valid timestamp and every valid duration is written as a text that
    is read back to the same seconds and nanoseconds, although the fraction is
    read as a binary float; the others are refused. *)
Theorem json_times_roundtrip seconds nanos :
  (if valid_timestamp seconds nanos
   then exists s, encode_timestamp seconds nanos = Ok s /\ parse_timestamp s = Ok (seconds, nanos)
   else exists msg, encode_timestamp seconds nanos = Raise (JsonError msg)) /\
  (if valid_duration seconds nanos
   then exists s, encode_duration seconds nanos = Ok s /\ parse_duration s = Ok (seconds, nanos)
   else exists msg, encode_duration seconds nanos = Raise (JsonError msg)).
Proof.
  split.
  - pose proof (parse_encode_timestamp seconds nanos) as Hp. unfold encode_timestamp in *.
    destruct (valid_timestamp seconds nanos); [|by eexists]. eexists. split; [done|by apply Hp].
  - pose proof (parse_encode_duration seconds nanos) as Hp. unfold encode_duration in *.
    destruct (valid_duration seconds nanos); [|by eexists]. eexists. split; [done|by apply Hp].
Qed.

(** *** Errors *)

Lemma wrapped_error {A} (r : result json_failure A) e :
  r <> Raise JsonFuel -> wrap r = Raise e -> (exists msg, e = JsonError msg) \/ exists e', e = Unwrapped e' /\ caught e' = false.
Proof.
  intros Hr. destruct r as [a|[msg|e'| |]]; simpl; [done| | | |by destruct Hr]; intros [= <-]; [left; by eexists| |left; by eexists].
  destruct (caught e') eqn:E; [left; by eexists|right; by exists e'].
Qed.

Lemma norm_error c s : norm c s <> Raise JsonFuel.
Proof. unfold norm. by destruct (normalize_value c (Scalar s)). Qed.

(** A class with no JSON form of its own. *)
Definition ordinary (k : nat) : Prop := FULL_NAME k ∉ EMPTY :: _ANY_VALUE_TYPES.

Lemma ordinary_parse ign n dec j m : ordinary (cls m) -> _parse_well_known ign n dec j m = Ok None.
Proof.
  unfold ordinary, _ANY_VALUE_TYPES. rewrite elem_of_cons, elem_of_app, !elem_of_cons. intros Hn. unfold _parse_well_known.
  repeat (rewrite decide_False by tauto). done.
Qed.

(** Errors of the values of fields are [JsonError]s, but for those that
    [_parse_value] does not catch: [EncodeError] and [DecodeError] of a message.
    Two other errors are not: the
    key of a map entry is normalised outside [_parse_value], so a key that is out
    of range raises the error of the codec; and an integer too large for a float
    that is parsed into a [google.protobuf.Value] raises [OverflowError]. *)
Theorem json_error_escapes n ign :
  (forall c j e, (forall j m, parse_value n ign j m <> Raise JsonFuel) ->
     _parse_value ign (parse_value n ign) c j = Raise e ->
     (exists msg, e = JsonError msg) \/ exists e', e = Unwrapped e' /\ caught e' = false) /\
  (forall k i f kc z item v e, FIELDS k !! i = Some f -> public f = true -> map_key_codec f = Some (CInt kc) -> ordinary k ->
     _parse_value ign (parse_value n ign) (codec_of f) item = Ok (Some v) -> normalize_key (CInt kc) (IntV z) = Raise e ->
     parse_value (S n) ign (JObj [(proto_name f, JObj [(str_of_int z, item)])]) (new k) = Raise (Unwrapped e)) /\
  (forall k z, FULL_NAME k = VALUE -> float_of_integer z = None ->
     parse_value (S n) ign (JInt z) (new k) = Raise FloatOverflow).
Proof.
  split_and!.
  - intros c j e Hd. apply wrapped_error.
    destruct c as [ic| | | | |k]; [..|intros E; apply (Hd j (new k)); by destruct (parse_value n ign j (new k)) as [|[]]];
      unfold parse_enum, _parse_integer, _parse_float, _parse_bytes; repeat (case_match; simpl; try done); apply norm_error.
  - intros k i f kc z item v e Hf Hp Hk Hord Hv He. cbn [parse_value]. rewrite Clear_new.
    rewrite ordinary_parse by done. cbn [mbind result_bind]. unfold dict_parse. rewrite Clear_new. cbn [fold_json].
    unfold parse_dict_step. cbn [d_message d_seen d_oneofs cls new]. rewrite (proj1 (js_names HJ k i f Hf Hp)). cbn [is_null andb].
    assert (oneof f = None) as ->.
    { destruct (oneof f) as [o|] eqn:Eo; [|done].
      pose proof (f_oneof f (field_is_ok (js_schema HJ) k i f Hf) o Eo) as [? _]%singular_keys. congruence. }
    cbn [mbind result_bind]. unfold parse_field. rewrite Hk. cbn [fold_json]. unfold parse_map_entry. cbn [fst snd].
    rewrite Hv. cbn [mbind result_bind]. unfold _parse_map_key. rewrite parse_integer_str. cbn [mbind result_bind]. by rewrite He.
  - intros k z Hn Hz. cbn [parse_value]. rewrite Clear_new. unfold _parse_well_known. cbn [cls new]. rewrite Hn.
    do 5 (rewrite decide_False by (by vm_compute)). rewrite decide_True by done. cbn [parse_value_message]. by rewrite Hz.
Qed.

End Roundtrip.

(** ** An example schema *)

Module Example.

Definition fld (name : pystr) (n : Z) (c : codec) (rep : bool) (o : option pystr) (kc : option codec) : Field :=
  mkField name name n c rep rep false false o None kc true false false None.

Definition NULL_VALUE : ValueCodec Z :=
  match enum_codec [0] 0 false [(u "NULL_VALUE", 0)] with Ok c => c | Raise _ => INT32 end.

Definition server_fields : list Field := [
  fld (u "id") 1 CString false None None;
  fld (u "replica_count") 2 (CInt INT32) false None None;
  fld (u "port_names") 3 CString false None (Some (CInt INT32));
  fld (u "created_at") 4 (CMessage 1) false None None;
  fld (u "config") 5 (CMessage 2) false None None].
Definition timestamp_fields : list Field := [
  fld (u "seconds") 1 (CInt INT64) false None None;
  fld (u "nanos") 2 (CInt INT32) false None None].
Definition value_fields : list Field := [
  fld (u "null_value") 1 (CInt NULL_VALUE) false (Some (u "kind")) None;
  fld (u "number_value") 2 CDouble false (Some (u "kind")) None;
  fld (u "string_value") 3 CString false (Some (u "kind")) None;
  fld (u "bool_value") 4 CBool false (Some (u "kind")) None;
  fld (u "struct_value") 5 (CMessage 3) false (Some (u "kind")) None;
  fld (u "list_value") 6 (CMessage 4) false (Some (u "kind")) None].
Definition struct_fields : list Field := [fld (u "fields") 1 (CMessage 2) false None (Some CString)].
Definition list_fields : list Field := [fld (u "values") 1 (CMessage 2) true None None].

Definition any_fields : list Field := [
  fld (u "type_url") 1 CString false None None;
  fld (u "value") 2 CBytes false None None].

Definition fields (c : nat) : list Field :=
  match c with
  | 0 => server_fields | 1 => timestamp_fields | 2 => value_fields | 3 => struct_fields | 4 => list_fields | 5 => any_fields
  | _ => []
  end%nat.

#[export] Instance schema : Schema := {|
  FIELDS := fields;
  MAX_NESTING_DEPTH := fun _ => 100;
  PY_TO_PB2 := fun _ => [];
  long_bits := 64;
  float_of_int := fun _ => Raise OverflowError
|}.

#[export] Instance program : JsonProgram := {|
  FULL_NAME c := match c with 0 => u "ex.Server" | 1 => TIMESTAMP | 2 => VALUE | 3 => STRUCT | 4 => LIST_VALUE | 5 => ANY | _ => u "ex.Other" end%nat;
  REGISTRY _ := true;
  find_type url :=
    if decide (url = u "type.googleapis.com/google.protobuf.Timestamp") then Some 1%nat
    else if decide (url = u "type.googleapis.com/ex.Server") then Some 0%nat else None
|}.
#[export] Existing Instance ascii_case.
#[export] Existing Instance ascii_digits.

Lemma fields_ok : schema_ok schema.
Proof.
  destruct builtin_codecs_ok as (H1 & H2 & _).
  assert (int_codec_ok NULL_VALUE) as H3 by (eapply (enum_codec_ok [0] 0 false [(u "NULL_VALUE", 0)]); [lia|reflexivity]).
  split; simpl.
  - intros c. do 6 (destruct c as [|c]; [cbn [fields]; unfold server_fields, timestamp_fields, value_fields, struct_fields,
      list_fields, any_fields; rewrite !Forall_cons; split_and!; try apply Forall_nil_2; split; simpl; try done; by intros kc [= <-]|]).
    apply Forall_nil_2.
  - intros c. do 6 (destruct c as [|c]; [apply (bool_decide_unpack _); by vm_compute|]). apply NoDup_nil_2.
  - lia.
Qed.

Lemma names_ok c i f :
  FIELDS c !! i = Some f -> public f = true ->
  dict_get (json_names c) (proto_name f) = Some (i, f) /\ dict_get (json_names c) (_json_name f) = Some (i, f).
Proof.
  intros Hf _. do 6 (destruct c as [|c]; [simpl in Hf;
    do 6 (destruct i as [|i]; [try discriminate Hf; injection Hf as <-; split; reflexivity|]); discriminate Hf|]).
  discriminate Hf.
Qed.

Lemma null_names_ok : codec_json_ok (CInt NULL_VALUE).
Proof. right. split; [done|]. intros z name. vm_compute. destruct z; try done. by intros [= <-]. Qed.

Ltac other_class Hn :=
  exfalso; first
    [ by vm_compute in Hn
    | destruct Hn as [Hn|Hn]; by vm_compute in Hn
    | revert Hn; by apply (bool_decide_eq_false_1 _) ].

Lemma shapes_ok c : well_known_shape c.
Proof.
  do 6 try destruct c as [|c]; split; intros Hn; try other_class Hn.
  - do 2 eexists. split; [reflexivity|]. repeat split; by eexists.
  - exists (u "kind"). split; [reflexivity|]. intros i f Hf.
    do 6 (destruct i as [|i]; [injection Hf as <-; repeat split; unfold value_member; simpl; naive_solver|]). discriminate Hf.
  - do 2 eexists. split; [reflexivity|]. by repeat split.
  - do 2 eexists. split; [reflexivity|]. by repeat split.
  - do 2 eexists. split; [reflexivity|]. by repeat split.
Qed.

Lemma int32_kind : json_kind INT32 ∈ INTEGER_KINDS.
Proof. left. Qed.
Lemma int64_kind : json_kind INT64 ∈ INTEGER_KINDS.
Proof. do 2 right. left. Qed.

Lemma json_ok : json_schema_ok.
Proof.
  split.
  - exact fields_ok.
  - exact names_ok.
  - intros c f Hf. do 6 try destruct c as [|c]; simpl in Hf; unfold server_fields, timestamp_fields, value_fields,
      struct_fields, list_fields, any_fields in Hf; rewrite ?elem_of_cons in Hf; destruct_or?; subst;
      try (by apply elem_of_nil in Hf); (split; [|intros kc [= <-]; try exact I; exact int32_kind]);
      try exact null_names_ok; try exact I; left; first [exact int32_kind | exact int64_kind].
  - intros c f Hf. do 6 try destruct c as [|c]; simpl in Hf; unfold server_fields, timestamp_fields, value_fields,
      struct_fields, list_fields, any_fields in Hf; rewrite ?elem_of_cons in Hf; destruct_or?; subst; try (by apply elem_of_nil in Hf);
      try done; by repeat split.
  - exact shapes_ok.
  - intros c f Hf _. do 6 try destruct c as [|c]; simpl in Hf; unfold server_fields, timestamp_fields, value_fields,
      struct_fields, list_fields, any_fields in Hf; rewrite ?elem_of_cons in Hf; destruct_or?; subst; try (by apply elem_of_nil in Hf);
      by split.
Qed.

(** A server created at 1970-01-01T00:00:01.5Z, with a configuration. *)
Definition one (v : value) (present : bool) : slot := mkSlot (Some (One v)) present.

Definition time : message :=
  mkMessage 1 [one (Scalar (IntV 1)) false; one (Scalar (IntV 500000000)) false] ∅ [] emptyMask.
Definition number : message :=
  mkMessage 2 [no_slot; one (Scalar (FloatV 0x3FF8000000000000)) true; no_slot; no_slot; no_slot; no_slot]
    {[u "kind" := 1%nat]} [] emptyMask.
Definition structure : message :=
  mkMessage 3 [mkSlot (Some (Entries [(StrV (u "load"), MessageV number)])) false] ∅ [] emptyMask.
Definition config : message :=
  mkMessage 2 [no_slot; no_slot; no_slot; no_slot; one (MessageV structure) true; no_slot] {[u "kind" := 4%nat]} [] emptyMask.
Definition server : message :=
  mkMessage 0 [one (Scalar (StrV (u "srv"))) false; no_slot; mkSlot (Some (Entries [(IntV 80, Scalar (StrV (u "http")))])) false;
    one (MessageV time) true; one (MessageV config) true] ∅ [] emptyMask.

(** The server, and its time, in an [Any]. *)
Definition packed (url : pystr) (payload : bytes) : message :=
  mkMessage 5 [one (Scalar (StrV url)) false; one (Scalar (BytesV payload)) false] ∅ [] emptyMask.
Definition server_bytes : bytes := Eval vm_compute in match SerializeToString true server with Ok b => b | _ => [] end.
Definition time_bytes : bytes := Eval vm_compute in match SerializeToString true time with Ok b => b | _ => [] end.
Definition any_server : message := packed (u "type.googleapis.com/ex.Server") server_bytes.
Definition any_time : message := packed (u "type.googleapis.com/google.protobuf.Timestamp") time_bytes.

Lemma no_members m :
  _oneofs m = ∅ -> Forall (fun f => oneof f = None) (FIELDS (cls m)) -> oneofs_ok m.
Proof.
  intros He Hf o i. rewrite He. split; [by intros ?%lookup_empty_Some|]. intros (f & Hi & Ho & _).
  rewrite Forall_forall in Hf. rewrite (Hf f) in Ho; [done|by eapply list_elem_of_lookup_2].
Qed.

Lemma one_member m k :
  cls m = 2%nat -> _oneofs m = {[u "kind" := k]} -> (forall i, is_present (get_slot m i) = true <-> i = k) -> (k < 6)%nat ->
  oneofs_ok m.
Proof.
  intros Hc He Hp Hk o i. rewrite He, Hc, lookup_singleton_Some. split.
  - intros [<- <-]. destruct (lookup_lt_is_Some_2 value_fields k Hk) as [f Hf]. exists f. split; [done|].
    split; [|by apply Hp]. clear -Hf. do 6 (destruct k as [|k]; [by injection Hf as <-|]). done.
  - intros (f & Hf & Ho & Hi%Hp). subst i. split; [|done]. clear -Hf Ho.
    do 6 (destruct k as [|k]; [injection Hf as <-; by injection Ho|]). done.
Qed.

Ltac slots := rewrite !Forall2_cons; split_and!; try apply Forall2_nil_2; split; simpl; try done; intros x [= <-]; try done.

Lemma time_ok n : message_ok (S n) time.
Proof.
  split; [|apply no_members; [done|repeat constructor]|done].
  unfold time. cbn [cls slots FIELDS schema fields]. unfold timestamp_fields. slots.
Qed.

Lemma number_ok n : message_ok (S n) number.
Proof.
  split; [|apply (one_member _ 1); [done|done| |lia]|done].
  - unfold number. cbn [cls slots FIELDS schema fields]. unfold value_fields. slots.
  - intros i. do 6 (destruct i as [|i]; [done|]). done.
Qed.

Lemma structure_ok n : message_ok (S (S n)) structure.
Proof.
  split; [|apply no_members; [done|repeat constructor]|done].
  unfold structure. cbn [cls slots FIELDS schema fields]. unfold struct_fields. slots.
  split; [apply (bool_decide_unpack _); by vm_compute|]. apply Forall_singleton. split; [done|]. split; [done|apply number_ok].
Qed.

Lemma config_ok n : message_ok (S (S (S n))) config.
Proof.
  split; [|apply (one_member _ 4); [done|done| |lia]|done].
  - unfold config. cbn [cls slots FIELDS schema fields]. unfold value_fields. slots.
    split; [done|]. split; [done|apply structure_ok].
  - intros i. do 6 (destruct i as [|i]; [done|]). done.
Qed.

Lemma server_ok : message_ok 4 server.
Proof.
  split; [|apply no_members; [done|repeat constructor]|done].
  unfold server. cbn [cls slots FIELDS schema fields]. unfold server_fields. slots.
  - split; [apply (bool_decide_unpack _); by vm_compute|]. apply Forall_singleton. by split.
  - split; [done|]. split; [done|exact (time_ok 2)].
  - split; [done|]. split; [done|exact (config_ok 0)].
Qed.

(** *** The JSON form *)

Lemma all_public c i f : FIELDS c !! i = Some f -> public f = true.
Proof.
  intros Hf. do 6 (destruct c as [|c]; [do 6 (destruct i as [|i]; [try discriminate Hf; by injection Hf as <-|]);
    discriminate Hf|]). discriminate Hf.
Qed.

Lemma time_json n : jsonable (S n) time.
Proof.
  split; [done|]. split; [intros E; by vm_compute in E|]. split; [left; by eapply all_public|]. split.
  - intros i. do 2 (destruct i as [|i]; [by split; repeat constructor|]). by repeat constructor.
  - split; intros Hn; try (by vm_compute in Hn). exists 1, 500000000. by vm_compute.
Qed.

Lemma number_json n : jsonable (S n) number.
Proof.
  split; [done|]. split; [intros E; by vm_compute in E|]. split; [left; by eapply all_public|]. split.
  - intros i. do 6 (destruct i as [|i]; [by split; repeat constructor|]). by repeat constructor.
  - split; intros Hn; try (by vm_compute in Hn). eexists 1%nat, _, _. split; [reflexivity|]. split; [reflexivity|].
    split; [by intros E; vm_compute in E|]. by intros x [= <-].
Qed.

Lemma structure_json n : jsonable (S (S n)) structure.
Proof.
  split; [done|]. split; [intros E; by vm_compute in E|]. split; [left; by eapply all_public|]. split.
  - intros i. do 1 (destruct i as [|i]; [split; [apply Forall_singleton; exact (number_json n)|by repeat constructor]|]).
    by repeat constructor.
  - split; intros Hn; by vm_compute in Hn.
Qed.

Lemma config_json n : jsonable (S (S (S n))) config.
Proof.
  split; [done|]. split; [intros E; by vm_compute in E|]. split; [left; by eapply all_public|]. split.
  - intros i. do 4 (destruct i as [|i]; [by split; repeat constructor|]).
    destruct i as [|i]; [split; [apply Forall_singleton; exact (structure_json n)|by repeat constructor]|].
    destruct i as [|i]; by repeat constructor.
  - split; intros Hn; try (by vm_compute in Hn). eexists 4%nat, _, _. split; [reflexivity|]. split; [reflexivity|].
    split; [by intros E; vm_compute in E|]. by intros x [= <-].
Qed.

Lemma server_json : jsonable 4 server.
Proof.
  split; [done|]. split; [intros E; by vm_compute in E|]. split; [left; by eapply all_public|]. split.
  - intros i. do 3 (destruct i as [|i]; [by split; repeat constructor|]).
    destruct i as [|i]; [split; [apply Forall_singleton; exact (time_json 2)|by repeat constructor]|].
    destruct i as [|i]; [split; [apply Forall_singleton; exact (config_json 0)|by repeat constructor]|].
    by repeat constructor.
  - split; intros Hn; by vm_compute in Hn.
Qed.

Lemma any_ok n url payload : scalar_ok CString (StrV url) -> scalar_ok CBytes (BytesV payload) -> message_ok (S n) (packed url payload).
Proof.
  intros Hu Hp. split; [|apply no_members; [done|repeat constructor]|done].
  unfold packed. cbn [cls slots FIELDS schema fields]. unfold any_fields. slots.
Qed.

Lemma any_jsonable n url payload e :
  find_type url = Some (cls e) -> FromString (cls e) payload = Ok e -> SerializeToString true e = Ok payload ->
  url <> [] -> scalar_json (StrV url) -> scalar_json (BytesV payload) -> message_ok n e -> jsonable n e -> jsonable (S n) (packed url payload).
Proof.
  intros Hf Hp Hs Hne Hu Hb He Hj. split; [done|]. split.
  { intros _. exists url, payload. split; [done|]. split; [done|]. right. split; [by left|]. split; [done|]. by exists e. }
  split; [left; by eapply all_public|]. split.
  - intros i. destruct i as [|i]; [split; [apply Forall_singleton; exact Hu|exact (Forall_nil_2 _)]|].
    destruct i as [|i]; [split; [apply Forall_singleton; exact Hb|exact (Forall_nil_2 _)]|]. by repeat constructor.
  - split; intros Hn; by vm_compute in Hn.
Qed.

End Example.

#[local] Existing Instances Example.schema Example.program ascii_case ascii_digits.

Lemma json_roundtrip_witness :
  let o := mkOptions false false false in
  Forall (fun m => exists j m', message_to_value 5 o m = Ok j /\ parse_value 5 false j (new (cls m)) = Ok m' /\
    message_ok 5 m' /\ canon 5 false m' = canon 5 false m) [Example.server; Example.any_server; Example.any_time].
Proof.
  cbv zeta. repeat apply Forall_cons_2; [..|by apply Forall_nil_2];
    apply (json_roundtrip Example.json_ok 5 (mkOptions false false false) false).
  - apply message_ok_S; exact Example.server_ok.
  - exact (jsonable_more 4 _ Example.server_json).
  - by apply Example.any_ok; vm_compute.
  - apply (Example.any_jsonable 4 _ _ Example.server); [by vm_compute..|exact Example.server_ok|exact Example.server_json].
  - by apply Example.any_ok; vm_compute.
  - apply (Example.any_jsonable 4 _ _ Example.time); [by vm_compute..|apply Example.time_ok|apply Example.time_json].
Defined.



Lemma json_parse_total_witness :
  match parse_value 6 false (JObj [(u "portNames", JObj [(u "x", JNull)])]) Example.server with
  | Ok m' => cls m' = 0%nat /\ message_ok 6 m'
  | Raise e => e <> JsonFuel /\ e <> Unwrapped MessageFuel /\ e <> Unwrapped (WireE OutOfFuel)
  end.
Proof.
  apply (json_parse_total Example.json_ok 6 false (JObj [(u "portNames", JObj [(u "x", JNull)])]) Example.server);
    [simpl; lia|apply (message_ok_mono _ 4 6); [lia|exact Example.server_ok]].
Defined.

Lemma json_error_escapes_witness :
  parse_value 2 false (JObj [(u "port_names", JObj [(str_of_int (2 ^ 31), JStr (u "http"))])]) (new 0) =
    Raise (Unwrapped (CodecE (RangeError "int32 value is outside its range"))) /\
  parse_value 2 false (JInt (2 ^ 1024)) (new 2) = Raise FloatOverflow.
Proof.
  destruct (json_error_escapes Example.json_ok 1 false) as (_ & Hkey & Hvalue). split.
  - apply (Hkey 0%nat 2%nat (Example.fld (u "port_names") 3 CString false None (Some (CInt INT32))) INT32 (2 ^ 31)
      (JStr (u "http")) (Scalar (StrV (u "http")))); try reflexivity.
    apply (bool_decide_unpack (_ ∉ _)). vm_compute. exact I.
  - apply (Hvalue 2%nat); [reflexivity|]. vm_compute. reflexivity.
Defined.

(** The document itself. *)
Example server_document :
  message_to_value 4 (mkOptions false false false) Example.server =
  Ok (JObj [(u "id", JStr (u "srv"));
            (u "portNames", JObj [(u "80", JStr (u "http"))]);
            (u "createdAt", JStr (u "1970-01-01T00:00:01.500Z"));
            (u "config", JObj [(u "load", JFloat 0x3FF8000000000000)])]).
Proof. vm_compute. reflexivity. Qed.

Lemma json_times_roundtrip_witness :
  exists s, encode_timestamp (-1) 5 = Ok s /\ parse_timestamp s = Ok (-1, 5).
Proof. exact (proj1 (json_times_roundtrip (-1) 5)). Defined.
