(* ===== verification/MessageObjects.v ===== *)
(** * Messages as objects

    [direct.py], [containers.py] and [RepeatedValues] of [extensions.py] again,
    on a store of objects: [Message] models what a message holds, as a tree; here
    a getter hands out the nested message or the container itself, user code
    changes it later, and the mutation callbacks tell the owners.

    An object is named by its address, the order of creation.  The two containers
    of a field are created once and stay, so they are named by their message and
    field.  A callback is the function object that [_bind_mutation] was given: the
    [lambda] of [_bind_child], the one a container was made with, or the one of
    [_detach_child], which does nothing.  The recorded reset masks are objects of
    their own, which nested messages share with their owners.

    Left out: extensions, conversions to Python types, deprecation warnings, slices
    with a step, and what an operation that raised has changed before. *)
From stdpp Require Import gmap.
From S2P Require Import Prelude PyStr Json FieldMask Bytes Wire ValueCodec Metadata Message.

(** ** Objects *)

Inductive ref : Type := RS (s : scalar) | RM (a : nat).

Inductive box : Type :=
| ROne (v : ref)
| RItems (l : list ref)
| REntries (l : list (scalar * ref)).

Inductive callback : Type :=
| Unbound                          (** [None] *)
| Ignored                          (** [lambda: None] *)
| ChildChanged (p i : nat)         (** [lambda: self._child_changed(field)] *)
| ContainerChanged (p i : nat).    (** [lambda: self._notify(field)] *)

Record object : Type := mkObject {
  o_cls : nat;
  o_values : gmap nat box;
  o_present : gset nat;
  o_oneofs : gmap pystr nat;
  o_unknown : list bytes;
  o_mutation : callback;
  o_suspended : nat;
  o_mask : nat;
  o_mask_suspended : nat
}.

Record store : Type := mkStore { objects : list object; masks : list (list (pystr * nat)) }.

Inductive object_error : Type :=
| MessageE (e : message_error)
| IndexE
| KeyE
| NotImplementedE.

Abbreviation outcome := (result object_error).

Definition lift {A} (r : result message_error A) : outcome A :=
  match r with Ok a => Ok a | Raise e => Raise (MessageE e) end.

Definition out_of_fuel {A} : outcome A := Raise (MessageE MessageFuel).
Definition type_error {A} (msg : string) : outcome A := Raise (MessageE (TypeE msg)).

(** A loop that threads the store. *)
Fixpoint loop {A} (f : store -> A -> outcome store) (l : list A) (s : store) : outcome store :=
  match l with [] => Ok s | x :: l => s ← f s x; loop f l s end.

(** ** State access *)

Definition set_values (x : gmap nat box) (o : object) : object :=
  mkObject (o_cls o) x (o_present o) (o_oneofs o) (o_unknown o) (o_mutation o) (o_suspended o) (o_mask o) (o_mask_suspended o).
Definition set_present (x : gset nat) (o : object) : object :=
  mkObject (o_cls o) (o_values o) x (o_oneofs o) (o_unknown o) (o_mutation o) (o_suspended o) (o_mask o) (o_mask_suspended o).
Definition set_oneof_map (x : gmap pystr nat) (o : object) : object :=
  mkObject (o_cls o) (o_values o) (o_present o) x (o_unknown o) (o_mutation o) (o_suspended o) (o_mask o) (o_mask_suspended o).
Definition set_unknowns (x : list bytes) (o : object) : object :=
  mkObject (o_cls o) (o_values o) (o_present o) (o_oneofs o) x (o_mutation o) (o_suspended o) (o_mask o) (o_mask_suspended o).
(** [_bind_mutation] *)
Definition _bind_mutation (x : callback) (o : object) : object :=
  mkObject (o_cls o) (o_values o) (o_present o) (o_oneofs o) (o_unknown o) x (o_suspended o) (o_mask o) (o_mask_suspended o).
Definition set_suspended (x : nat) (o : object) : object :=
  mkObject (o_cls o) (o_values o) (o_present o) (o_oneofs o) (o_unknown o) (o_mutation o) x (o_mask o) (o_mask_suspended o).
(** [set_mask] *)
Definition set_mask (x : nat) (o : object) : object :=
  mkObject (o_cls o) (o_values o) (o_present o) (o_oneofs o) (o_unknown o) (o_mutation o) (o_suspended o) x (o_mask_suspended o).
Definition set_mask_suspended (x : nat) (o : object) : object :=
  mkObject (o_cls o) (o_values o) (o_present o) (o_oneofs o) (o_unknown o) (o_mutation o) (o_suspended o) (o_mask o) x.

Definition nobody : object := mkObject 0 ∅ ∅ ∅ [] Unbound 0 0 0.
Definition obj (s : store) (a : nat) : object := from_option id nobody (objects s !! a).
Definition upd (a : nat) (g : object -> object) (s : store) : store := mkStore (alter g a (objects s)) (masks s).

(** [self._values[field] = value] *)
Definition put (i : nat) (x : box) (o : object) : object := set_values (<[i := x]> (o_values o)) o.

Definition items (s : store) (a i : nat) : list ref :=
  match o_values (obj s a) !! i with Some (RItems l) => l | _ => [] end.
Definition entries (s : store) (a i : nat) : list (scalar * ref) :=
  match o_values (obj s a) !! i with Some (REntries l) => l | _ => [] end.

Section Objects.
Context `{Schema}.

Definition field_of (s : store) (a i : nat) : option Field := FIELDS (o_cls (obj s a)) !! i.

(** [cls()]: [_initialize] without arguments *)
Definition alloc (k : nat) (s : store) : nat * store :=
  (length (objects s),
   mkStore (objects s ++ [mkObject k ∅ ∅ ∅ [] Unbound 0 (length (masks s)) 0]) (masks s ++ [[]])).

(** [codec.bind_mutation(value, callback)], of a message codec *)
Definition bind_mutation (v : ref) (cb : callback) (s : store) : store :=
  match v with RM c => upd c (_bind_mutation cb) s | RS _ => s end.

(** [for value in ...: self._detach(value)] *)
Definition detach_all (l : list ref) (s : store) : store := foldl (fun s v => bind_mutation v Ignored s) s l.

Definition _detach_child (a i : nat) (s : store) : store :=
  match o_values (obj s a) !! i with Some (ROne v) => bind_mutation v Ignored s | _ => s end.

Definition _bind_child (a i : nat) (v : ref) (s : store) : store := bind_mutation v (ChildChanged a i) s.

(** [_suspend_mutation] and its end *)
Definition suspend (a : nat) (s : store) : store := upd a (fun o => set_suspended (S (o_suspended o)) o) s.
Definition resume (a : nat) (s : store) : store := upd a (fun o => set_suspended (pred (o_suspended o)) o) s.

(** ** Presence, clearing and notification *)

Section Clearing.
Context (notify : nat -> store -> outcome store).

(** [clear] of both containers *)
Definition clear_box (a i : nat) (s : store) : outcome store :=
  match o_values (obj s a) !! i with
  | Some (RItems ((_ :: _) as l)) => notify a (upd a (put i (RItems [])) (detach_all l s))
  | Some (REntries ((_ :: _) as l)) => notify a (upd a (put i (REntries [])) (detach_all l.*2 s))
  | _ => Ok s
  end.

(** What [_clear_state] does to the message itself. *)
Definition drop_field (i : nat) (f : Field) (o : object) : object :=
  let o := set_present (o_present o ∖ {[i]}) (set_values (delete i (o_values o)) o) in
  match oneof f with
  | Some n => if decide (o_oneofs o !! n = Some i) then set_oneof_map (delete n (o_oneofs o)) o else o
  | None => o
  end.

Definition _clear_state (a i : nat) (f : Field) (s : store) : outcome store :=
  if map_field f || repeated f then clear_box a i s
  else Ok (upd a (drop_field i f) (_detach_child a i s)).

Definition clear_index (a i : nat) (s : store) : outcome store :=
  match field_of s a i with Some f => _clear_state a i f s | None => Ok s end.

Definition deselect (a i : nat) (f : Field) (s : store) : outcome store :=
  match oneof f with
  | Some n =>
      match o_oneofs (obj s a) !! n with
      | Some j => if decide (j = i) then Ok s else clear_index a j s
      | None => Ok s
      end
  | None => Ok s
  end.

Definition choose (i : nat) (f : Field) (o : object) : object :=
  let o := match oneof f with Some n => set_oneof_map (<[n := i]> (o_oneofs o)) o | None => o end in
  if has_presence f then set_present ({[i]} ∪ o_present o) o else o.

Definition _select (a i : nat) (f : Field) (s : store) : outcome store :=
  s ← deselect a i f s; Ok (upd a (choose i f) s).

End Clearing.

(** [_notify], with [_child_changed] of the owner; an owner is older than what it
    holds, so the address bounds the way up. *)
Fixpoint notify_loop (n a : nat) (s : store) : outcome store :=
  match n with
  | O => out_of_fuel
  | S n =>
      if (o_suspended (obj s a) =? 0)%nat then
        match o_mutation (obj s a) with
        | Unbound | Ignored => Ok s
        | ChildChanged p i =>
            s ← match field_of s p i with Some f => _select (notify_loop n) p i f s | None => Ok s end;
            notify_loop n p s
        | ContainerChanged p _ => notify_loop n p s
        end
      else Ok s
  end.

Definition _notify (a : nat) (s : store) : outcome store := notify_loop (S a) a s.

(** ** Reset masks *)

(** [mask.field_parts.setdefault(key, Mask())], with the mask at the key *)
Definition submask (m : nat) (key : pystr) (s : store) : nat * store :=
  let parts := from_option id [] (masks s !! m) in
  match dict_get parts key with
  | Some c => (c, s)
  | None => (length (masks s), mkStore (objects s) (<[m := dict_set parts key (length (masks s))]> (masks s) ++ [[]]))
  end.

Definition _record_reset (a : nat) (f : Field) (s : store) : store :=
  if (o_mask_suspended (obj s a) =? 0)%nat then snd (submask (o_mask (obj s a)) (proto_name f) s) else s.

(** [self._reset_mask = Mask()] *)
Definition fresh_mask (a : nat) (s : store) : store :=
  upd a (set_mask (length (masks s))) (mkStore (objects s) (masks s ++ [[]])).

(** ** Clearing *)

Definition wipe (o : object) : object := set_unknowns [] (set_oneof_map ∅ (set_present ∅ o)).

Definition Clear (a : nat) (s : store) : outcome store :=
  s ← loop (fun s '(i, _) => clear_index _notify a i s) (map_to_list (o_values (obj s a))) (suspend a s);
  _notify a (resume a (fresh_mask a (upd a wipe s))).

Definition clear_and_record (a i : nat) (f : Field) (s : store) : outcome store :=
  s ← _clear_state _notify a i f s; _notify a (_record_reset a f s).

(** The selected member of a oneof, if it is public. *)
Definition selected_member (s : store) (a : nat) (n : pystr) : option (nat * Field) :=
  i ← o_oneofs (obj s a) !! n; f ← field_of s a i; if public f then Some (i, f) else None.

Definition ClearField (a : nat) (name : pystr) (s : store) : outcome store :=
  match _oneof_python_name (o_cls (obj s a)) name with
  | Some n => match selected_member s a n with Some (i, f) => clear_and_record a i f s | None => Ok s end
  | None =>
      match public_field (o_cls (obj s a)) name with
      | Some (i, f) => clear_and_record a i f s
      | None => Raise (MessageE (ValueE "unknown field"))
      end
  end.

(** ** Values in and out of fields *)

(** [codec.normalize(value)]; of a message only its class counts. *)
Definition normalize (s : store) (c : codec) (v : ref) : outcome ref :=
  match v with
  | RS x => w ← lift (normalize_value c (Scalar x)); Ok (match w with Scalar y => RS y | MessageV _ => v end)
  | RM a => w ← lift (normalize_value c (MessageV (new (o_cls (obj s a))))); Ok (match w with Scalar y => RS y | MessageV _ => v end)
  end.

Definition normal_key (c : codec) (k : scalar) : outcome scalar := lift (normalize_key c k).

(** [value == field.default()] of a field without presence *)
Definition ref_eqb (v : ref) (x : scalar) : bool := match v with RS y => scalar_eqb y x | RM _ => false end.

Section Copying.
(** [MergeFrom] of nested messages *)
Context (merge_from : nat -> nat -> store -> outcome store).

(** [codec.copy(value)]: [clone] of [message_codec] *)
Definition copy (c : codec) (v : ref) (s : store) : outcome (ref * store) :=
  match c, v with
  | CMessage k, RM b =>
      let '(a, s) := alloc k s in
      if negb (o_cls (obj s b) =? k)%nat then type_error "expected the same message class" else
      s ← Clear a s; s ← merge_from a b s; Ok (RM a, s)
  | _, _ => Ok (v, s)
  end.

(** [_prepare] of the container of a field *)
Definition _prepare (a i : nat) (c : codec) (v : ref) (s : store) : outcome (ref * store) :=
  v ← normalize s c v; '(v, s) ← copy c v s; Ok (v, bind_mutation v (ContainerChanged a i) s).

Fixpoint prepare_all (a i : nat) (c : codec) (vs : list ref) (s : store) : outcome (list ref * store) :=
  match vs with
  | [] => Ok ([], s)
  | v :: vs => '(v, s) ← _prepare a i c v s; '(vs, s) ← prepare_all a i c vs s; Ok (v :: vs, s)
  end.

(** [RepeatedValues.extend] *)
Definition extend (a i : nat) (f : Field) (vs : list ref) (s : store) : outcome store :=
  '(prepared, s) ← prepare_all a i (codec_of f) vs s;
  match prepared with
  | [] => Ok s
  | _ => _notify a (upd a (put i (RItems (items s a i ++ prepared))) s)
  end.

(** [MapValues.__setitem__] *)
Definition map_set (a i : nat) (kc : codec) (f : Field) (k : scalar) (v : ref) (s : store) : outcome store :=
  k ← normal_key kc k;
  '(v, s) ← _prepare a i (codec_of f) v s;
  let s := match dict_get (entries s a i) k with Some w => bind_mutation w Ignored s | None => s end in
  _notify a (upd a (put i (REntries (dict_set (entries s a i) k v))) s).

(** *** [MergeFrom] *)

(** [_repeated(field)] and [_map(field)]: the container is there afterwards. *)
Definition _repeated (a i : nat) (s : store) : store :=
  match o_values (obj s a) !! i with None => upd a (put i (RItems [])) s | Some _ => s end.
Definition _map (a i : nat) (s : store) : store :=
  match o_values (obj s a) !! i with None => upd a (put i (REntries [])) s | Some _ => s end.

(** [self._values[field] = self._bind_child(field, value)], after [_detach_child] *)
Definition replace_child (a i : nat) (v : ref) (s : store) : store :=
  upd a (put i (ROne v)) (_bind_child a i v (_detach_child a i s)).

(** A copied value comes into a singular field: a message that is present merges
    it, otherwise it is stored. *)
Definition merge_one (a i : nat) (f : Field) (v : ref) (s : store) : outcome store :=
  match o_values (obj s a) !! i, v with
  | Some (ROne (RM c)), RM c' =>
      if message_field f && bool_decide (i ∈ o_present (obj s a))
      then s ← merge_from c c' s; _select _notify a i f (replace_child a i (RM c) s)
      else _select _notify a i f (replace_child a i v s)
  | _, _ => _select _notify a i f (replace_child a i v s)
  end.

(** [field in other._present], or a value that is not the default *)
Definition has_value (s : store) (b i : nat) (f : Field) : bool :=
  if has_presence f then bool_decide (i ∈ o_present (obj s b))
  else match o_values (obj s b) !! i with Some (ROne v) => negb (ref_eqb v (default f)) | _ => false end.

Definition merge_field (a b : nat) (s : store) (x : nat * Field) : outcome store :=
  let '(i, f) := x in
  match map_key_codec f with
  | Some kc =>
      match entries s b i with
      | [] => Ok s
      | es => loop (fun s '(k, v) => map_set a i kc f k v s) es (_map a i s)
      end
  | None =>
      if repeated f then
        match items s b i with
        | [] => Ok s
        | vs => extend a i f vs (_repeated a i s)
        end
      else if negb (has_value s b i f) then Ok s
      else match o_values (obj s b) !! i with
           | Some (ROne v) => '(v, s) ← copy (codec_of f) v s; merge_one a i f v s
           | _ => type_error "present field without a value"
           end
  end.

End Copying.

(** The fuel bounds the nesting of the message at [b]. *)
Fixpoint MergeFrom (fuel a b : nat) (s : store) : outcome store :=
  match fuel with
  | O => out_of_fuel
  | S fuel =>
      if negb (o_cls (obj s b) =? o_cls (obj s a))%nat then type_error "expected the same message class" else
      s ← loop (merge_field (MergeFrom fuel) a b) (indexed (o_cls (obj s a))) (suspend a s);
      _notify a (resume a (upd a (fun o => set_unknowns (o_unknown o ++ o_unknown (obj s b)) o) s))
  end.

Definition CopyFrom (fuel a b : nat) (s : store) : outcome store :=
  if (b =? a)%nat then Ok s else
  if negb (o_cls (obj s b) =? o_cls (obj s a))%nat then type_error "expected the same message class" else
  s ← Clear a s; MergeFrom fuel a b s.

(** ** Getters *)

(** What a getter hands out: [None], a value, a nested message, or the container of
    a field. *)
Inductive handle : Type :=
| HNone
| HScalar (x : scalar)
| HMessage (c : nat)
| HContainer (a i : nat).

(** [self._bind_child(field, field.default())], stored *)
Definition lazy_child (a i k : nat) (s : store) : nat * store :=
  let '(c, s) := alloc k s in (c, upd a (put i (ROne (RM c))) (_bind_child a i (RM c) s)).

(** The nested message shares its reset mask with the owner. *)
Definition share_mask (a c : nat) (f : Field) (s : store) : store :=
  let '(m, s) := submask (o_mask (obj s a)) (proto_name f) s in upd c (set_mask m) s.

Definition _get_field (a i : nat) (f : Field) (absent_is_none : bool) (s : store) : handle * store :=
  if absent_is_none && negb (bool_decide (i ∈ o_present (obj s a))) then (HNone, s)
  else if map_field f then (HContainer a i, _map a i s)
  else if repeated f then (HContainer a i, _repeated a i s)
  else match o_values (obj s a) !! i, codec_of f with
       | Some (ROne (RM c)), _ => (HMessage c, share_mask a c f s)
       | Some (ROne (RS x)), _ => (HScalar x, s)
       | _, CMessage k => let '(c, s) := lazy_child a i k s in (HMessage c, share_mask a c f s)
       | _, _ => (HScalar (default f), s)
       end.

(** ** Containers *)

Section Containers.
(** The fuel of the copies. *)
Context (fuel : nat).
Abbreviation prepare := (_prepare (MergeFrom fuel)).
Abbreviation prepared_values := (prepare_all (MergeFrom fuel)).

(** *** [RepeatedValues] *)

Definition put_items (a i : nat) (l : list ref) (s : store) : outcome store := _notify a (upd a (put i (RItems l)) s).

Definition setitem (a i : nat) (f : Field) (index : Z) (v : ref) (s : store) : outcome store :=
  '(v, s) ← prepare a i (codec_of f) v s;
  match norm_index (items s a i) index with
  | Some n => put_items a i (<[n := v]> (items s a i)) (detach_all (option_list (items s a i !! n)) s)
  | None => Raise IndexE
  end.

Definition setitem_slice (a i : nat) (f : Field) (start stop : option Z) (vs : list ref) (s : store) : outcome store :=
  '(vs, s) ← prepared_values a i (codec_of f) vs s;
  let l := items s a i in
  let '(x, y) := slice_bounds l start stop in
  put_items a i (take x l ++ vs ++ drop y l) (detach_all (take (y - x) (drop x l)) s).

Definition delitem (a i : nat) (index : Z) (s : store) : outcome store :=
  match norm_index (items s a i) index with
  | Some n => put_items a i (delete n (items s a i)) (detach_all (option_list (items s a i !! n)) s)
  | None => Raise IndexE
  end.

Definition delitem_slice (a i : nat) (start stop : option Z) (s : store) : outcome store :=
  let l := items s a i in
  let '(x, y) := slice_bounds l start stop in
  put_items a i (take x l ++ drop y l) (detach_all (take (y - x) (drop x l)) s).

Definition insert (a i : nat) (f : Field) (index : Z) (v : ref) (s : store) : outcome store :=
  '(v, s) ← prepare a i (codec_of f) v s; put_items a i (list_insert_at (items s a i) index v) s.

Definition replace_items (a i : nat) (f : Field) (vs : list ref) (s : store) : outcome store :=
  '(vs, s) ← prepared_values a i (codec_of f) vs s; put_items a i vs (detach_all (items s a i) s).

Definition reverse_items (a i : nat) (s : store) : outcome store :=
  if (1 <? length (items s a i))%nat then put_items a i (reverse (items s a i)) s else Ok s.

(** *** [MapValues] *)

Definition put_entries (a i : nat) (l : list (scalar * ref)) (s : store) : outcome store :=
  _notify a (upd a (put i (REntries l)) s).

(** [_default]; of a message codec a bound message *)
Definition map_default (a i : nat) (c : codec) (s : store) : ref * store :=
  match c with
  | CMessage k => let '(b, s) := alloc k s in (RM b, bind_mutation (RM b) (ContainerChanged a i) s)
  | _ => (RS (scalar_default c), s)
  end.

(** [__getitem__] creates what is missing. *)
Definition map_get (a i : nat) (kc : codec) (f : Field) (k : scalar) (s : store) : outcome (ref * store) :=
  k ← normal_key kc k;
  match dict_get (entries s a i) k with
  | Some v => Ok (v, s)
  | None =>
      let '(v, s) := map_default a i (codec_of f) s in
      s ← put_entries a i (dict_set (entries s a i) k v) s; Ok (v, s)
  end.

Definition map_delete (a i : nat) (kc : codec) (k : scalar) (s : store) : outcome store :=
  k ← normal_key kc k;
  match dict_get (entries s a i) k with
  | Some v => put_entries a i (dict_del (entries s a i) k) (bind_mutation v Ignored s)
  | None => Raise KeyE
  end.

(** [pop(key)] of [MutableMapping]: [self[key]], then [del self[key]]. *)
Definition map_pop (a i : nat) (kc : codec) (f : Field) (k : scalar) (s : store) : outcome (ref * store) :=
  '(v, s) ← map_get a i kc f k s; s ← map_delete a i kc k s; Ok (v, s).

Definition setdefault (a i : nat) (kc : codec) (f : Field) (k : scalar) (v : option ref) (s : store) : outcome store :=
  if message_field f then Raise NotImplementedE else
  match v with
  | None => Raise (MessageE (ValueE "scalar map setdefault requires a non-None default"))
  | Some v =>
      k ← normal_key kc k;
      match dict_get (entries s a i) k with
      | Some _ => Ok s
      | None => map_set (MergeFrom fuel) a i kc f k v s
      end
  end.

(** [{self._key(key): self._prepare(value) for ...}]; the acc is the dict so far *)
Fixpoint prepare_entries (a i : nat) (kc c : codec) (es acc : list (scalar * ref)) (s : store) :
    outcome (list (scalar * ref) * store) :=
  match es with
  | [] => Ok (acc, s)
  | (k, v) :: es =>
      k ← normal_key kc k; '(v, s) ← prepare a i c v s; prepare_entries a i kc c es (dict_set acc k v) s
  end.

Definition replace_entries (a i : nat) (kc : codec) (f : Field) (es : list (scalar * ref)) (s : store) : outcome store :=
  '(es, s) ← prepare_entries a i kc (codec_of f) es [] s; put_entries a i es (detach_all (entries s a i).*2 s).

(** ** Assignment *)

(** An assigned Python value. *)
Inductive argument : Type :=
| ANone
| AValue (v : ref)
| AList (vs : list ref)
| ADict (es : list (scalar * ref))
| AOther.

Definition iterate (x : argument) : option (list ref) :=
  match x with
  | AList vs => Some vs
  | ADict es => Some ((fun e => RS e.1) <$> es)
  | ANone | AValue _ | AOther => None
  end.

(** [if not self._values[field]: self._record_reset(field)] *)
Definition record_if_empty (a i : nat) (f : Field) (s : store) : store :=
  match items s a i, entries s a i with [], [] => _record_reset a f s | _, _ => s end.

Definition set_singular (a i : nat) (f : Field) (v : ref) (s : store) : outcome store :=
  v ← normalize s (codec_of f) v;
  '(owned, s) ← copy (MergeFrom fuel) (codec_of f) v s;
  s ← _select _notify a i f (_detach_child a i s);
  let s := upd a (put i (ROne owned)) (_bind_child a i owned s) in
  _notify a (if negb (has_presence f) && ref_eqb owned (default f) then _record_reset a f s else s).

Definition _set_field (a i : nat) (f : Field) (x : argument) (s : store) : outcome store :=
  match x with
  | ANone => clear_and_record a i f s
  | _ =>
      match map_key_codec f with
      | Some kc =>
          match x with
          | ADict es => s ← replace_entries a i kc f es (_map a i s); Ok (record_if_empty a i f s)
          | _ => type_error "map field requires a mapping"
          end
      | None =>
          if repeated f then
            match iterate x with
            | Some vs => s ← replace_items a i f vs (_repeated a i s); Ok (record_if_empty a i f s)
            | None => type_error "repeated field requires an iterable"
            end
          else match x with
               | AValue v => set_singular a i f v s
               | _ => type_error "field requires another type"
               end
      end
  end.

(** [_public_fields_by_python_name().get(name)]: of fields with one name the last *)
Definition field_by_python_name (k : nat) (name : pystr) : option (nat * Field) :=
  foldl (fun acc '(i, f) => if public f && bool_decide (python_name f = name) then Some (i, f) else acc)
    None (indexed k).

(** [cls(initial, **values)] of an initial message of the class *)
Definition construct (k : nat) (initial : option nat) (values : list (pystr * argument)) (s : store) :
    outcome (nat * store) :=
  let '(a, s) := alloc k s in
  s ← match initial with Some b => CopyFrom fuel a b s | None => Ok s end;
  let s := upd a (fun o => set_mask_suspended (S (o_mask_suspended o)) o) s in
  s ← loop (fun s '(name, x) =>
        match field_by_python_name k name with
        | Some (i, f) => _set_field a i f x s
        | None => type_error "unexpected field"
        end) values s;
  Ok (a, upd a (fun o => set_mask_suspended (pred (o_mask_suspended o)) o) s).

End Containers.

(** ** Parsing *)

Section Parse.
(** [FromString] of nested messages, and the fuel of [MergeFrom]. *)
Context (from_string : nat -> bytes -> store -> outcome (nat * store)) (fuel : nat).

(** [codec.read(reader)] *)
Definition read_ref (c : codec) (r : Reader) (s : store) : outcome (ref * Reader * store) :=
  match c with
  | CMessage k =>
      '(b, r) ← lift (lift_read BinaryReader.read_bytes r); '(m, s) ← from_string k b s; Ok (RM m, r, s)
  | _ => '(x, r) ← lift (lift_read (read_scalar c) r); Ok (RS x, r, s)
  end.

Definition unknown_value (c : codec) (v : ref) : bool :=
  match v with RS x => closed_unknown c (Scalar x) | RM _ => false end.

(** What [_decode_map_entry] keeps. *)
Record entry_state : Type := mkEntryState { m_key : scalar; m_value : ref; m_seen : bool; m_invalid : bool }.

Definition skip_part (e : entry_state) (n w start : Z) (r : Reader) : outcome (entry_state * Reader) :=
  '(_, r) ← lift (lift_read (BinaryReader.skip_field n w start) r);
  Ok (mkEntryState (m_key e) (m_value e) (m_seen e) true, r).

Definition entry_ref (c : codec) (e : entry_state) (decoded : ref) (s : store) : outcome (entry_state * store) :=
  if unknown_value c decoded then Ok (mkEntryState (m_key e) (m_value e) true true, s)
  else match m_value e, decoded with
       | RM m, RM m' =>
           if m_seen e then s ← MergeFrom fuel m m' s; Ok (mkEntryState (m_key e) (RM m) true (m_invalid e), s)
           else Ok (mkEntryState (m_key e) decoded true (m_invalid e), s)
       | _, _ => Ok (mkEntryState (m_key e) decoded true (m_invalid e), s)
       end.

Definition entry_part (kc c : codec) (e : entry_state) (r : Reader) (s : store) : outcome (entry_state * Reader * store) :=
  '(n, w, start, r) ← lift (lift_read BinaryReader.read_tag r);
  if n =? 1 then
    if w =? wire_type_of kc then
      '(k, r) ← lift (lift_read (read_scalar kc) r); Ok (mkEntryState k (m_value e) (m_seen e) (m_invalid e), r, s)
    else '(e, r) ← skip_part e n w start r; Ok (e, r, s)
  else if n =? 2 then
    if w =? wire_type_of c then
      '(decoded, r, s) ← read_ref c r s; '(e, s) ← entry_ref c e decoded s; Ok (e, r, s)
    else '(e, r) ← skip_part e n w start r; Ok (e, r, s)
  else '(e, r) ← skip_part e n w start r; Ok (e, r, s).

Fixpoint entry_parts (n : nat) (kc c : codec) (e : entry_state) (r : Reader) (s : store) : outcome (entry_state * store) :=
  if BinaryReader.eof r then Ok (e, s) else
  match n with
  | O => out_of_fuel
  | S n => '(e, r, s) ← entry_part kc c e r s; entry_parts n kc c e r s
  end.

(** [field.codec.default()] *)
Definition default_ref (c : codec) (s : store) : ref * store :=
  match c with CMessage k => let '(b, s) := alloc k s in (RM b, s) | _ => (RS (scalar_default c), s) end.

Definition _decode_map_entry (a i : nat) (f : Field) (kc : codec) (payload : bytes) (s : store) : outcome (bool * store) :=
  let '(v, s) := default_ref (codec_of f) s in
  '(e, s) ← entry_parts (length payload) kc (codec_of f) (mkEntryState (scalar_default kc) v false false) (reader payload) s;
  if m_invalid e then Ok (false, s)
  else s ← map_set (MergeFrom fuel) a i kc f (m_key e) (m_value e) (_map a i s); Ok (true, s).

Definition add_unknown (a : nat) (raw : bytes) (s : store) : store := upd a (fun o => set_unknowns (o_unknown o ++ [raw]) o) s.

(** [append] of [MutableSequence] *)
Definition append (a i : nat) (f : Field) (v : ref) (s : store) : outcome store :=
  insert fuel a i f (Z.of_nat (length (items s a i))) v s.

Definition packed_value (a i : nat) (f : Field) (s : store) (x : scalar) : outcome store :=
  if closed_unknown (codec_of f) (Scalar x) then raw ← lift (packed_unknown f x); Ok (add_unknown a raw s)
  else append a i f (RS x) s.

(** [_try_decode_field]; [None] when the wire type does not fit. *)
Definition _try_decode_field (a i : nat) (f : Field) (w start : Z) (r : Reader) (s : store) : outcome (option (Reader * store)) :=
  match map_key_codec f with
  | Some kc =>
      if negb (w =? WIRE_LENGTH_DELIMITED) then Ok None else
      '(payload, r) ← lift (lift_read BinaryReader.read_bytes r);
      '(known, s) ← _decode_map_entry a i f kc payload s;
      if (known : bool) then Ok (Some (r, s)) else raw ← lift (raw_since start r); Ok (Some (r, add_unknown a raw s))
  | None =>
      if repeated f && packable_of (codec_of f) && (w =? WIRE_LENGTH_DELIMITED) then
        '(vs, r) ← lift (lift_read (BinaryReader.read_packed (read_scalar (codec_of f))) r);
        s ← loop (packed_value a i f) vs (_repeated a i s); Ok (Some (r, s))
      else if negb (w =? wire_type_of (codec_of f)) then Ok None else
      '(decoded, r, s) ← read_ref (codec_of f) r s;
      raw ← lift (raw_since start r);
      if unknown_value (codec_of f) decoded then Ok (Some (r, add_unknown a raw s))
      else if repeated f then s ← append a i f decoded (_repeated a i s); Ok (Some (r, s))
      else
        s ← deselect _notify a i f s;
        '(v, s) ← copy (MergeFrom fuel) (codec_of f) decoded s;
        s ← merge_one (MergeFrom fuel) a i f v s; Ok (Some (r, s))
  end.

Definition keep_unknown (a : nat) (n w start : Z) (r : Reader) (s : store) : outcome (Reader * store) :=
  '(raw, r) ← lift (lift_read (BinaryReader.skip_field n w start) r); Ok (r, add_unknown a raw s).

Definition merge_step (a : nat) (r : Reader) (s : store) : outcome (Reader * store) :=
  '(n, w, start, r) ← lift (lift_read BinaryReader.read_tag r);
  match field_by_number (o_cls (obj s a)) n with
  | Some (i, f) =>
      x ← _try_decode_field a i f w start r s;
      match x with Some x => Ok x | None => keep_unknown a n w start r s end
  | None => keep_unknown a n w start r s
  end.

Fixpoint merge_loop (n a : nat) (r : Reader) (s : store) : outcome store :=
  if BinaryReader.eof r then Ok s else
  match n with
  | O => out_of_fuel
  | S n => '(r, s) ← merge_step a r s; merge_loop n a r s
  end.

End Parse.

(** [MergeFromString] with [d] levels left; [_merge_from_string] suspends the
    notifications and does not notify afterwards. *)
Fixpoint merge_from_string (d : nat) (payload : bytes) (a : nat) (s : store) : outcome store :=
  match d with
  | O => Raise (MessageE (WireE (DecodeError nesting_too_deep)))
  | S d =>
      s ← merge_loop (fun k b s => let '(m, s) := alloc k s in s ← Clear m s; s ← merge_from_string d b m s; Ok (m, s))
            (S d) (length payload) a (reader payload) (suspend a s);
      Ok (resume a s)
  end.

Definition MergeFromString (payload : bytes) (a : nat) (s : store) : outcome store :=
  merge_from_string (Z.to_nat (_nesting_limit (o_cls (obj s a)))) payload a s.

Definition ParseFromString (payload : bytes) (a : nat) (s : store) : outcome store :=
  s ← Clear a s; MergeFromString payload a s.

End Objects.
