(* ===== verification/MessageObjectsInv.v ===== *)
(** * The invariant of the object store

    The messages of a store form a forest: what a message holds is younger than
    it, is held once, and calls back its holder and nobody else; a nested message
    that its owner does not count as present is still blank.  Operations of one
    object touch it, what it holds and, by the callbacks, its owners. *)
From stdpp Require Import gmap.
From S2P Require Import Prelude PyStr Json FieldMask Bytes Wire ValueCodec Metadata Message MessageInv MessageObjects.

(** ** The store *)

Lemma obj_upd a g s b :
  (a < length (objects s))%nat -> obj (upd a g s) b = if decide (b = a) then g (obj s a) else obj s b.
Proof.
  intros Ha. unfold obj, upd. cbn [objects]. destruct (decide (b = a)) as [->|Hne].
  - rewrite list_lookup_alter_eq. destruct (lookup_lt_is_Some_2 _ _ Ha) as [o ->]. done.
  - by rewrite list_lookup_alter_ne.
Qed.

Lemma obj_upd_ne a g s b : b <> a -> obj (upd a g s) b = obj s b.
Proof. intros Hne. unfold obj, upd. cbn [objects]. by rewrite list_lookup_alter_ne. Qed.

Lemma upd_same a g s : g (obj s a) = obj s a -> upd a g s = s.
Proof.
  intros Hg. unfold upd. destruct s as [l ms]. f_equal. apply list_eq. intros b. cbn [objects] in *.
  destruct (decide (b = a)) as [->|]; [|by rewrite list_lookup_alter_ne].
  rewrite list_lookup_alter_eq. unfold obj in Hg. cbn [objects] in Hg. destruct (l !! a); [|done]. cbn in *. by f_equal.
Qed.

Lemma length_upd a g s : length (objects (upd a g s)) = length (objects s).
Proof. apply length_alter. Qed.

Lemma obj_none s a : (length (objects s) <= a)%nat -> obj s a = nobody.
Proof. intros Ha. unfold obj. by rewrite lookup_ge_None_2. Qed.

Section Store.
Context `{Schema}.

Lemma obj_alloc k s b :
  obj (alloc k s).2 b =
    if decide (b = length (objects s)) then mkObject k ∅ ∅ ∅ [] Unbound 0 (length (masks s)) 0 else obj s b.
Proof.
  unfold obj, alloc. cbn [snd objects]. destruct (decide (b = _)) as [->|Hne].
  - by rewrite list_lookup_middle.
  - destruct (decide (b < length (objects s))%nat); [by rewrite lookup_app_l|].
    rewrite !lookup_ge_None_2; [done| |]; [|rewrite length_app; simpl]; lia.
Qed.

Lemma length_alloc k s : length (objects (alloc k s).2) = S (length (objects s)).
Proof. cbn. rewrite length_app. simpl. lia. Qed.

(** ** What a message holds *)

Definition ref_addr (v : ref) : list nat := match v with RM c => [c] | RS _ => [] end.

Definition refs (x : box) : list nat :=
  match x with ROne v => ref_addr v | RItems l => l ≫= ref_addr | REntries l => l.*2 ≫= ref_addr end.

Definition held (s : store) (p i c : nat) : Prop := exists x, o_values (obj s p) !! i = Some x /\ c ∈ refs x.

(** The callback of what is held in a field. *)
Definition link (f : Field) (p i : nat) : callback := if singular f then ChildChanged p i else ContainerChanged p i.

Definition ref_ok (s : store) (c : codec) (v : ref) : Prop :=
  match c, v with
  | CMessage k, RM b => o_cls (obj s b) = k
  | CMessage _, RS _ => False
  | _, RS _ => True
  | _, RM _ => False
  end.

Definition box_ok (s : store) (f : Field) (x : box) : Prop :=
  match map_key_codec f, x with
  | Some _, REntries l => dict_wf l /\ Forall (ref_ok s (codec_of f)) l.*2
  | None, RItems l => repeated f = true /\ Forall (ref_ok s (codec_of f)) l
  | None, ROne v => repeated f = false /\ ref_ok s (codec_of f) v
  | _, _ => False
  end.

(** Nothing that serialization would show: lazily made messages may be there. *)
Definition blank_box (x : box) : Prop :=
  match x with ROne (RM _) | RItems [] | REntries [] => True | _ => False end.

Definition blank (o : object) : Prop :=
  (forall i x, o_values o !! i = Some x -> blank_box x) /\ o_present o = ∅ /\ o_oneofs o = ∅ /\ o_unknown o = [].

(** The invariant, with the work in progress: [D], messages that changed and whose
    owners do not know yet; [P], messages prepared for a container and not in it
    yet; [O], a field that was detached and not filled again yet. *)
Record inv (D P : gset nat) (O : option (nat * nat)) (s : store) : Prop := {
  i_held p i c : held s p i c -> (p < c)%nat /\ (c < length (objects s))%nat;
  i_link p i c : held s p i c -> exists f, field_of s p i = Some f /\
    (o_mutation (obj s c) = link f p i \/ O = Some (p, i) /\ o_mutation (obj s c) = Ignored);
  i_child c p i : o_mutation (obj s c) = ChildChanged p i -> held s p i c;
  i_container c p i : o_mutation (obj s c) = ContainerChanged p i -> held s p i c \/ c ∈ P /\ (p < c)%nat;
  i_box p i x : o_values (obj s p) !! i = Some x ->
    NoDup (refs x) /\ exists f, field_of s p i = Some f /\ box_ok s f x;
  i_blank p i c f : held s p i c -> field_of s p i = Some f -> singular f = true -> i ∉ o_present (obj s p) ->
    c ∈ D \/ blank (obj s c);
  i_present p i : i ∈ o_present (obj s p) -> exists f, field_of s p i = Some f /\ singular f = true /\ has_presence f = true /\
    (O = Some (p, i) \/ is_Some (o_values (obj s p) !! i));
  i_oneofs p n i : o_oneofs (obj s p) !! n = Some i <->
    exists f, field_of s p i = Some f /\ oneof f = Some n /\ i ∈ o_present (obj s p);
  i_gap p i c : O = Some (p, i) -> held s p i c -> o_mutation (obj s c) = Ignored
}.

(** Who is not to be notified is known to be changed. *)
Definition calm (D : gset nat) (s : store) : Prop := forall b, o_suspended (obj s b) <> 0%nat -> b ∈ D.

(** [x] is at or under [a]. *)
Definition below (s : store) : nat -> nat -> Prop := rtc (fun p c => exists i, held s p i c).

(** ** What an operation may change *)

Definition ordered (s : store) : Prop := forall p i c, held s p i c -> (p < c)%nat.

Lemma below_le s a x : ordered s -> below s a x -> (a <= x)%nat.
Proof. intros Ho. induction 1 as [|a b x [i Hi] _ IH]; [lia|]. apply Ho in Hi. lia. Qed.

(** What can be seen of a message without its callbacks and masks. *)
Definition content (o : object) := (o_cls o, o_values o, o_present o, o_oneofs o, o_unknown o).

(** A notification from [a] changes nothing. *)
Definition absorbed (s : store) (a : nat) : Prop :=
  o_suspended (obj s a) <> 0%nat \/
  match o_mutation (obj s a) with
  | Unbound | Ignored => True
  | ChildChanged p i => (p < a)%nat /\ o_suspended (obj s p) <> 0%nat /\ i ∈ o_present (obj s p)
  | ContainerChanged p _ => (p < a)%nat /\ o_suspended (obj s p) <> 0%nat
  end.

(** An operation at [a] makes new objects, gives no old object to another holder,
    keeps callback and suspensions of [a], and changes what is at or under [a];
    beyond that, if its notification goes anywhere, only what the owners show. *)
Record effect (a : nat) (s s' : store) : Prop := {
  e_alive : (a < length (objects s))%nat;
  e_len : (length (objects s) <= length (objects s'))%nat;
  e_cls x : (x < length (objects s))%nat -> o_cls (obj s' x) = o_cls (obj s x);
  e_held p i c : held s' p i c -> (c < length (objects s))%nat -> held s p i c;
  e_order : ordered s';
  e_self : o_mutation (obj s' a) = o_mutation (obj s a);
  e_susp x : (x < length (objects s))%nat -> o_suspended (obj s' x) = o_suspended (obj s x);
  e_new x : (length (objects s) <= x)%nat -> o_suspended (obj s' x) = 0%nat;
  e_far x : (x < length (objects s))%nat -> ~ below s a x -> ~ below s x a -> content (obj s' x) = content (obj s x);
  e_local x : absorbed s a -> (x < length (objects s))%nat -> ~ below s a x -> obj s' x = obj s x
}.

Lemma effect_below a s s' b x : effect a s s' -> (x < length (objects s))%nat -> below s' b x -> below s b x.
Proof.
  intros He Hx Hb. revert Hx. induction Hb as [|b y x [i Hi] Hy IH]; intros Hx; [apply rtc_refl|].
  pose proof (below_le _ _ _ (e_order _ _ _ He) Hy). eapply rtc_l; [exists i; apply (e_held _ _ _ He); [done|lia]|].
  by apply IH.
Qed.

Lemma effect_refl a s : (a < length (objects s))%nat -> ordered s -> effect a s s.
Proof. split; try done. intros x Hx. by rewrite obj_none. Qed.

Lemma effect_absorbed a s s' : ordered s -> effect a s s' -> absorbed s a -> absorbed s' a.
Proof.
  intros Ho He Ha. pose proof (e_alive _ _ _ He) as Hl. pose proof (e_local _ _ _ He) as Hk. specialize (fun x => Hk x Ha).
  unfold absorbed in *. rewrite (e_susp _ _ _ He) by done. destruct Ha as [Ha|Ha]; [by left|right].
  rewrite (e_self _ _ _ He).
  assert (forall p, (p < a)%nat -> obj s' p = obj s p) as Hp.
  { intros p ?. apply Hk; [lia|]. intros ?%below_le; [lia|done]. }
  destruct (o_mutation (obj s a)) as [| |p i|p i]; [done|done|..]; destruct Ha as [? ?]; by rewrite Hp.
Qed.

Lemma effect_trans a s s1 s2 : ordered s -> effect a s s1 -> effect a s1 s2 -> effect a s s2.
Proof.
  intros Ho E1 E2. pose proof (e_alive _ _ _ E1) as Hl. pose proof (e_len _ _ _ E1). split.
  - done.
  - etrans; [done|apply (e_len _ _ _ E2)].
  - intros x Hx. rewrite (e_cls _ _ _ E2) by lia. by apply (e_cls _ _ _ E1).
  - intros p i c Hh Hc. apply (e_held _ _ _ E1); [|done]. apply (e_held _ _ _ E2); [done|lia].
  - apply (e_order _ _ _ E2).
  - rewrite (e_self _ _ _ E2). apply (e_self _ _ _ E1).
  - intros x Hx. rewrite (e_susp _ _ _ E2) by lia. by apply (e_susp _ _ _ E1).
  - intros x Hx. destruct (decide (x < length (objects s1))%nat); [|apply (e_new _ _ _ E2); lia].
    rewrite (e_susp _ _ _ E2) by done. by apply (e_new _ _ _ E1).
  - intros x Hx H1 H2. rewrite (e_far _ _ _ E2); [by apply (e_far _ _ _ E1)|lia|..].
    + intros Hb. by apply H1, (effect_below _ _ _ _ _ E1).
    + intros Hb. by apply H2, (effect_below _ _ _ _ _ E1).
  - intros x Ha Hx Hn. rewrite (e_local _ _ _ E2); [by apply (e_local _ _ _ E1)|by eapply effect_absorbed|lia|].
    intros Hb. by apply Hn, (effect_below _ _ _ _ _ E1).
Qed.

(** *** Work that stays at and under [a] *)

Record local (a : nat) (s s' : store) : Prop := {
  l_alive : (a < length (objects s))%nat;
  l_len : (length (objects s) <= length (objects s'))%nat;
  l_cls x : (x < length (objects s))%nat -> o_cls (obj s' x) = o_cls (obj s x);
  l_held p i c : held s' p i c -> (c < length (objects s))%nat -> held s p i c;
  l_order : ordered s';
  l_self : o_mutation (obj s' a) = o_mutation (obj s a);
  l_susp x : (x < length (objects s))%nat -> o_suspended (obj s' x) = o_suspended (obj s x);
  l_new x : (length (objects s) <= x)%nat -> o_suspended (obj s' x) = 0%nat;
  l_keep x : (x < length (objects s))%nat -> ~ below s a x -> obj s' x = obj s x
}.

Lemma local_effect a s s' : local a s s' -> effect a s s'.
Proof. intros []. split; try done. intros x Hx Hn _. by rewrite l_keep0. auto. Qed.

Lemma effect_is_local a s s' : absorbed s a -> effect a s s' -> local a s s'.
Proof. intros Ha []. split; auto. Qed.

Lemma local_trans a s s1 s2 : ordered s -> local a s s1 -> local a s1 s2 -> local a s s2.
Proof.
  intros Ho L1 L2. pose proof (effect_trans _ _ _ _ Ho (local_effect _ _ _ L1) (local_effect _ _ _ L2)) as [].
  split; try done. intros x Hx Hn. rewrite (l_keep _ _ _ L2); [by apply (l_keep _ _ _ L1)|pose proof (l_len _ _ _ L1); lia|].
  intros Hb. by eapply Hn, effect_below; [apply local_effect|..].
Qed.

(** Work under [c] is work under its holder. *)
Lemma local_up a i c s s' : ordered s -> held s a i c -> (c < length (objects s))%nat -> local c s s' -> local a s s'.
Proof.
  intros Ho Hc Hl []. pose proof (Ho _ _ _ Hc). assert (obj s' a = obj s a) as Ha.
  { apply l_keep0; [lia|]. intros ?%below_le; [lia|done]. }
  split; try done; [lia|by rewrite Ha|]. intros x Hx Hn. apply l_keep0; [done|]. intros Hb. apply Hn.
  eapply rtc_l; [by exists i|done].
Qed.

End Store.
