(* ===== verification/MessageObjectsSteps.v ===== *)
(** * Operations keep the invariant of the object store

    The primitive changes first, then notification, containers, merging. *)
From stdpp Require Import gmap.
From S2P Require Import Prelude PyStr Json FieldMask Bytes Wire ValueCodec Metadata Message MessageInv MessageObjects MessageObjectsInv.

Section Steps.
Context `{Schema}.
Implicit Types (D P : gset nat) (O : option (nat * nat)) (s : store).

Lemma inv_ordered D P O s : inv D P O s -> ordered s.
Proof. intros Hi p i c Hh. apply (i_held _ _ _ _ Hi _ _ _ Hh). Qed.

Lemma inv_weaken D D' P O s : D ⊆ D' -> inv D P O s -> inv D' P O s.
Proof. intros Hs []. split; try done. intros p i c f H1 H2 H3 H4. destruct (i_blank p i c f H1 H2 H3 H4); [left|right]; set_solver. Qed.

Lemma calm_weaken D D' s : D ⊆ D' -> calm D s -> calm D' s.
Proof. intros Hs Hc b Hb. by apply Hs, Hc. Qed.

(** A message counts as known when its owner has it present. *)
Lemma undirty D P O s a :
  inv ({[a]} ∪ D) P O s ->
  (forall p i f, held s p i a -> field_of s p i = Some f -> singular f = true -> i ∈ o_present (obj s p)) -> inv D P O s.
Proof.
  intros [] Ha. split; try done. intros p i c f H1 H2 H3 H4. destruct (i_blank p i c f H1 H2 H3 H4) as [Hc|]; [|by right].
  apply elem_of_union in Hc as [->%elem_of_singleton|]; [|by left]. destruct H4. by apply (Ha p i f).
Qed.

Lemma link_child f p i q j : link f p i = ChildChanged q j -> p = q /\ i = j /\ singular f = true.
Proof. unfold link. destruct (singular f); naive_solver. Qed.

Lemma link_container f p i q j : link f p i = ContainerChanged q j -> p = q /\ i = j /\ singular f = false.
Proof. unfold link. destruct (singular f); naive_solver. Qed.

(** The holder of a message; the gap holds nothing for sure. *)
Lemma holder_unique D P O s p i q j c :
  inv D P O s -> held s p i c -> held s q j c -> O <> Some (q, j) -> p = q /\ i = j.
Proof.
  intros Hi H1 H2 HO. destruct (i_link _ _ _ _ Hi _ _ _ H2) as (g & _ & [E2|[? _]]); [|done].
  destruct (i_link _ _ _ _ Hi _ _ _ H1) as (f & _ & [E1|[_ E1]]); rewrite E1 in E2; unfold link in E2;
    [destruct (singular f), (singular g)|destruct (singular g)]; naive_solver.
Qed.

Lemma box_ok_ext s s' f x :
  (forall c, c ∈ refs x -> o_cls (obj s' c) = o_cls (obj s c)) -> box_ok s f x -> box_ok s' f x.
Proof.
  intros Hc. assert (forall v, (forall c, c ∈ ref_addr v -> o_cls (obj s' c) = o_cls (obj s c)) ->
    ref_ok s (codec_of f) v -> ref_ok s' (codec_of f) v) as Hr.
  { intros v Hv. unfold ref_ok. destruct (codec_of f), v; try done. intros <-. apply Hv. left. }
  unfold box_ok. destruct (map_key_codec f) as [kc|], x as [v|l|l]; try done; intros [? Hl]; (split; [done|]).
  - rewrite Forall_forall in *. intros v Hv. apply Hr; [|by apply Hl]. intros c ?. apply Hc. simpl.
    apply list_elem_of_bind. by exists v.
  - by apply Hr.
  - rewrite Forall_forall in *. intros v Hv. apply Hr; [|by apply Hl]. intros c ?. apply Hc. simpl.
    apply list_elem_of_bind. by exists v.
Qed.

(** The invariant looks at contents and callbacks only. *)
Lemma inv_ext D P O s s' :
  length (objects s') = length (objects s) -> (forall x, content (obj s' x) = content (obj s x)) ->
  (forall x, o_mutation (obj s' x) = o_mutation (obj s x)) -> inv D P O s -> inv D P O s'.
Proof.
  intros Hl Hc Hm Hi.
  assert (forall x, o_cls (obj s' x) = o_cls (obj s x)) as C1 by (intros x; specialize (Hc x); by injection Hc).
  assert (forall x, o_values (obj s' x) = o_values (obj s x)) as C2 by (intros x; specialize (Hc x); by injection Hc).
  assert (forall x, o_present (obj s' x) = o_present (obj s x)) as C3 by (intros x; specialize (Hc x); by injection Hc).
  assert (forall x, o_oneofs (obj s' x) = o_oneofs (obj s x)) as C4 by (intros x; specialize (Hc x); by injection Hc).
  assert (forall x, o_unknown (obj s' x) = o_unknown (obj s x)) as C5 by (intros x; specialize (Hc x); by injection Hc).
  assert (forall p i, field_of s' p i = field_of s p i) as C6 by (intros p i; unfold field_of; by rewrite C1).
  assert (forall p i c, held s' p i c <-> held s p i c) as C7 by (intros p i c; unfold held; by rewrite C2).
  assert (forall c, blank (obj s' c) <-> blank (obj s c)) as C8 by (intros c; unfold blank; by rewrite C2, C3, C4, C5).
  destruct Hi. split.
  - intros p i c. rewrite C7, Hl. apply i_held.
  - intros p i c. rewrite C7, C6, Hm. apply i_link.
  - intros c p i. rewrite C7, Hm. apply i_child.
  - intros c p i. rewrite C7, Hm. apply i_container.
  - intros p i x. rewrite C2, C6. intros (? & f & ? & ?)%i_box. split; [done|]. exists f. split; [done|].
    eapply box_ok_ext; [|done]. intros c _. apply C1.
  - intros p i c f. rewrite C7, C6, C3, C8. apply i_blank.
  - intros p i. rewrite C3, C6, C2. apply i_present.
  - intros p n i. rewrite C4, C6, C3. apply i_oneofs.
  - intros p i c HO. rewrite C7, Hm. by apply i_gap.
Qed.

Lemma held_alive s p i c : held s p i c -> (p < length (objects s))%nat.
Proof.
  intros (x & Hx & _). destruct (decide (p < length (objects s))%nat); [done|]. rewrite obj_none in Hx by lia. done.
Qed.

Lemma field_alive s p i x : o_values (obj s p) !! i = Some x -> (p < length (objects s))%nat.
Proof. intros Hx. destruct (decide (p < length (objects s))%nat); [done|]. rewrite obj_none in Hx by lia. done. Qed.

(** *** New objects *)

Lemma held_alloc k s p i c : held (alloc k s).2 p i c <-> held s p i c.
Proof.
  unfold held. rewrite obj_alloc. destruct (decide (p = _)) as [->|]; [|done]. rewrite obj_none by done. done.
Qed.

Lemma alloc_ok D P O k s : inv D P O s -> inv D P O (alloc k s).2.
Proof.
  intros Hi. pose proof Hi as []. set (s' := (alloc k s).2).
  assert (forall x, x <> length (objects s) -> obj s' x = obj s x) as Hold.
  { intros x Hx. unfold s'. rewrite obj_alloc. by rewrite decide_False. }
  assert (obj s' (length (objects s)) = mkObject k ∅ ∅ ∅ [] Unbound 0 (length (masks s)) 0) as Hnew.
  { unfold s'. rewrite obj_alloc. by rewrite decide_True. }
  assert (forall p i c, held s' p i c <-> held s p i c) as Hh by (intros; apply held_alloc).
  assert (forall p i c, held s p i c -> obj s' p = obj s p /\ obj s' c = obj s c) as Ho.
  { intros p i c Hc. destruct (i_held _ _ _ Hc). split; apply Hold; lia. }
  split.
  - intros p i c Hc%Hh. unfold s'. rewrite length_alloc. apply i_held in Hc. lia.
  - intros p i c Hc%Hh. unfold field_of. destruct (Ho _ _ _ Hc) as [-> ->]. by apply i_link.
  - intros c p i. destruct (decide (c = length (objects s))) as [->|]; [by rewrite Hnew|]. rewrite Hold by done. rewrite Hh. apply i_child.
  - intros c p i. destruct (decide (c = length (objects s))) as [->|]; [by rewrite Hnew|]. rewrite Hold by done. rewrite Hh. apply i_container.
  - intros p i x. destruct (decide (p = length (objects s))) as [->|]; [by rewrite Hnew|]. unfold field_of. rewrite Hold by done.
    intros Hx. destruct (i_box p i x Hx) as (? & f & ? & ?). split; [done|]. exists f. split; [done|].
    eapply box_ok_ext; [|done]. intros c Hc. rewrite Hold; [done|]. destruct (i_held p i c); [by exists x|lia].
  - intros p i c f Hc%Hh. unfold field_of. destruct (Ho _ _ _ Hc) as [-> ->]. by apply i_blank.
  - intros p i. destruct (decide (p = length (objects s))) as [->|]; [by rewrite Hnew|]. unfold field_of. rewrite Hold by done. apply i_present.
  - intros p n i. destruct (decide (p = length (objects s))) as [->|]; unfold field_of; [|rewrite Hold by done; apply i_oneofs].
    rewrite Hnew. cbn. split; [by intros ?%lookup_empty_Some|]. intros (f & _ & _ & []%elem_of_empty).
  - intros p i c HO Hc%Hh. destruct (Ho _ _ _ Hc) as [_ ->]. by eapply i_gap.
Qed.

(** *** Detaching *)

Lemma obj_bind v cb s x :
  (forall c, c ∈ ref_addr v -> (c < length (objects s))%nat) ->
  obj (bind_mutation v cb s) x = if decide (x ∈ ref_addr v) then _bind_mutation cb (obj s x) else obj s x.
Proof.
  intros Hv. destruct v as [y|c]; cbn [bind_mutation ref_addr]; [by rewrite decide_False by apply not_elem_of_nil|].
  rewrite obj_upd by (apply Hv; left). destruct (decide (x = c)) as [->|Hne].
  - rewrite decide_True; [done|left].
  - rewrite decide_False; [done|]. by intros ->%list_elem_of_singleton.
Qed.

Lemma length_bind v cb s : length (objects (bind_mutation v cb s)) = length (objects s).
Proof. destruct v; [done|apply length_upd]. Qed.

Lemma bind_bind cb cb' o : _bind_mutation cb (_bind_mutation cb' o) = _bind_mutation cb o.
Proof. done. Qed.

Lemma obj_detach_all l s x :
  (forall c, c ∈ l ≫= ref_addr -> (c < length (objects s))%nat) ->
  obj (detach_all l s) x = if decide (x ∈ l ≫= ref_addr) then _bind_mutation Ignored (obj s x) else obj s x.
Proof.
  revert s. induction l as [|v l IH]; intros s Hl; [by rewrite decide_False by apply not_elem_of_nil|].
  cbn [detach_all foldl]. fold (detach_all l (bind_mutation v Ignored s)).
  rewrite bind_cons in Hl. rewrite IH, obj_bind.
  - rewrite bind_cons. destruct (decide (x ∈ l ≫= ref_addr)), (decide (x ∈ ref_addr v)), (decide (x ∈ ref_addr v ++ (l ≫= ref_addr)));
      try done; rewrite elem_of_app in *; tauto.
  - intros c Hc. apply Hl. set_solver.
  - intros c Hc. rewrite length_bind. apply Hl. set_solver.
Qed.

Lemma length_detach_all l s : length (objects (detach_all l s)) = length (objects s).
Proof. revert s. induction l as [|v l IH]; intros s; [done|]. etrans; [apply IH|apply length_bind]. Qed.

(** The messages in a field. *)
Definition in_field s (a i : nat) : list nat := match o_values (obj s a) !! i with Some x => refs x | None => [] end.

Lemma held_in_field s p i c : held s p i c <-> c ∈ in_field s p i.
Proof.
  unfold held, in_field. destruct (o_values (obj s p) !! i) as [x|]; [naive_solver|]. split; [naive_solver|by intros ?%not_elem_of_nil].
Qed.

(** *** Clearing a singular field *)

Definition oneof_inv (o : object) : Prop :=
  forall n i, o_oneofs o !! n = Some i <->
    exists f, FIELDS (o_cls o) !! i = Some f /\ oneof f = Some n /\ i ∈ o_present o.

Lemma drop_parts i f o :
  o_cls (drop_field i f o) = o_cls o /\ o_values (drop_field i f o) = delete i (o_values o) /\
  o_present (drop_field i f o) = o_present o ∖ {[i]} /\ o_unknown (drop_field i f o) = o_unknown o /\
  o_mutation (drop_field i f o) = o_mutation o /\ o_suspended (drop_field i f o) = o_suspended o.
Proof. unfold drop_field. cbn. repeat case_match; done. Qed.

Lemma drop_oneofs i f o :
  FIELDS (o_cls o) !! i = Some f -> oneof_inv o -> oneof_inv (drop_field i f o).
Proof.
  intros Hf Ho n j. destruct (drop_parts i f o) as (-> & _ & -> & _).
  assert (o_oneofs (drop_field i f o) !! n = Some j <-> o_oneofs o !! n = Some j /\ j <> i) as ->.
  { unfold drop_field. cbn [o_oneofs set_present set_values]. destruct (oneof f) as [m|] eqn:Em; cbn [o_oneofs].
    - case_decide as Ei; cbn [o_oneofs set_oneof_map].
      + rewrite lookup_delete_Some. split; [|intros [? ?]; split; [intros ->; congruence|done]]. intros [? Hj]. split; [done|]. intros ->.
        apply Ho in Hj as (g & Hg & Hn & _). congruence.
      + split; [|naive_solver]. intros Hj. split; [done|]. intros ->. apply Ei.
        pose proof (proj1 (Ho n i) Hj) as (g & Hg & Hn & _). assert (m = n) as -> by congruence. exact Hj.
    - split; [|naive_solver]. intros Hj. split; [done|]. intros ->. apply Ho in Hj as (g & Hg & Hn & _). congruence. }
  rewrite (Ho n j). set_solver.
Qed.

Lemma singular_box s f x : singular f = true -> box_ok s f x -> exists v, x = ROne v /\ ref_ok s (codec_of f) v.
Proof.
  intros [Hk Hr]%singular_keys. unfold box_ok. rewrite Hk. destruct x as [v|l|l]; [|rewrite Hr|]; try done; [|by intros []].
  intros [_ ?]. by exists v.
Qed.

Lemma detach_child_obj D P O s a i f x :
  inv D P O s -> field_of s a i = Some f -> singular f = true ->
  obj (_detach_child a i s) x = if decide (x ∈ in_field s a i) then _bind_mutation Ignored (obj s x) else obj s x.
Proof.
  intros Hi Hf Hs. unfold _detach_child, in_field. destruct (o_values (obj s a) !! i) as [y|] eqn:Ey.
  - destruct (i_box _ _ _ _ Hi _ _ _ Ey) as (_ & g & Hg & Hb). assert (g = f) as -> by congruence.
    destruct (singular_box _ _ _ Hs Hb) as (v & -> & _). apply obj_bind. intros c Hc.
    apply (i_held _ _ _ _ Hi a i c). by exists (ROne v).
  - by rewrite decide_False by apply not_elem_of_nil.
Qed.

Lemma length_detach_child a i s : length (objects (_detach_child a i s)) = length (objects s).
Proof. unfold _detach_child. repeat case_match; try done. apply length_bind. Qed.

Lemma not_in_field D P O s a i x : inv D P O s -> (x <= a)%nat -> x ∉ in_field s a i.
Proof. intros Hi Hx Hc%held_in_field. apply (i_held _ _ _ _ Hi) in Hc. lia. Qed.

Definition cleared (a i : nat) (f : Field) s : store := upd a (drop_field i f) (_detach_child a i s).

Lemma obj_cleared D P O s a i f x :
  inv D P O s -> (a < length (objects s))%nat -> field_of s a i = Some f -> singular f = true ->
  obj (cleared a i f s) x =
    if decide (x = a) then drop_field i f (obj s a)
    else if decide (x ∈ in_field s a i) then _bind_mutation Ignored (obj s x) else obj s x.
Proof.
  intros Hi Ha Hf Hs. unfold cleared. rewrite obj_upd by (by rewrite length_detach_child).
  rewrite !(detach_child_obj D P O s a i f) by done. destruct (decide (x = a)); [|done].
  rewrite decide_False; [done|]. by eapply not_in_field.
Qed.

Lemma cleared_held D P O s a i f p j c :
  inv D P O s -> (a < length (objects s))%nat -> field_of s a i = Some f -> singular f = true ->
  held (cleared a i f s) p j c <-> held s p j c /\ (p, j) <> (a, i).
Proof.
  intros Hi Ha Hf Hs. unfold held. erewrite obj_cleared by done. destruct (decide (p = a)) as [->|Hp].
  - destruct (drop_parts i f (obj s a)) as (_ & -> & _). setoid_rewrite lookup_delete_Some. naive_solver.
  - destruct (decide (p ∈ _)); naive_solver.
Qed.

Lemma blank_drop i f o : oneof_inv o -> blank o -> blank (drop_field i f o).
Proof.
  intros Hn (Hv & Hp & Ho & Hu). destruct (drop_parts i f o) as (_ & Ev & Ep & Eu & _). unfold blank. rewrite Ev, Ep, Eu, Hp.
  split_and!; [|set_solver| |done].
  - intros j x [_ Hx]%lookup_delete_Some. by eapply Hv.
  - unfold drop_field. cbn [o_oneofs set_present set_values]. rewrite Ho. repeat case_match; cbn; [|done..]. by rewrite delete_empty.
Qed.

Lemma inv_oneof D P O s a : inv D P O s -> oneof_inv (obj s a).
Proof. intros Hi n i. apply (i_oneofs _ _ _ _ Hi). Qed.

Lemma cleared_ok D P O s a i f :
  inv D P O s -> (a < length (objects s))%nat -> field_of s a i = Some f -> singular f = true -> O <> Some (a, i) ->
  inv D P O (cleared a i f s).
Proof.
  intros Hi Ha Hf Hs HO. set (s' := cleared a i f s).
  assert (forall p j c, held s' p j c <-> held s p j c /\ (p, j) <> (a, i)) as Hh by (intros; by eapply cleared_held).
  assert (forall x, obj s' x = if decide (x = a) then drop_field i f (obj s a)
    else if decide (x ∈ in_field s a i) then _bind_mutation Ignored (obj s x) else obj s x) as Ho by (intros; by eapply obj_cleared).
  assert (length (objects s') = length (objects s)) as Hl by (unfold s', cleared; by rewrite length_upd, length_detach_child).
  destruct (drop_parts i f (obj s a)) as (Dc & Dv & Dp & Du & Dm & _).
  assert (forall x, o_cls (obj s' x) = o_cls (obj s x)) as Hc by (intros x; rewrite Ho; repeat case_decide; subst; done).
  assert (forall p j, field_of s' p j = field_of s p j) as Hfd by (intros; unfold field_of; by rewrite Hc).
  assert (forall x, o_mutation (obj s' x) = if decide (x ∈ in_field s a i) then Ignored else o_mutation (obj s x)) as Hm.
  { intros x. rewrite Ho. destruct (decide (x = a)) as [->|]; [|by case_decide]. rewrite decide_False; [done|]. by eapply not_in_field. }
  assert (forall p j c, held s' p j c -> o_mutation (obj s' c) = o_mutation (obj s c)) as Hm'.
  { intros p j c [Hc1 Hne]%Hh. rewrite Hm. rewrite decide_False; [done|]. intros Hc2%held_in_field.
    destruct (holder_unique _ _ _ _ _ _ _ _ _ Hi Hc1 Hc2 HO). naive_solver. }
  pose proof Hi as []. split.
  - intros p j c [Hc1 _]%Hh. rewrite Hl. by apply (i_held p j c).
  - intros p j c Hc1. rewrite Hfd, (Hm' _ _ _ Hc1). apply i_link. by apply Hh in Hc1 as [? _].
  - intros c p j. rewrite Hm. case_decide as Hin; [done|]. intros Hc1%i_child. apply Hh. split; [done|].
    intros [= -> ->]. by apply Hin, held_in_field.
  - intros c p j. rewrite Hm. case_decide as Hin; [done|]. intros [Hc1|?]%i_container; [left|by right]. apply Hh. split; [done|].
    intros [= -> ->]. by apply Hin, held_in_field.
  - intros p j x Hx. assert (o_values (obj s p) !! j = Some x) as Hx1.
    { rewrite Ho in Hx. repeat case_decide; subst; try done. rewrite Dv in Hx. by apply lookup_delete_Some in Hx as []. }
    rewrite Hfd. destruct (i_box p j x Hx1) as (? & g & ? & ?). split; [done|]. exists g. split; [done|].
    eapply box_ok_ext; [|done]. intros c _. apply Hc.
  - intros p j c g [Hc1 Hne]%Hh. rewrite Hfd. intros Hg Hsg Hp.
    assert (j ∉ o_present (obj s p)) as Hp1.
    { rewrite Ho in Hp. repeat case_decide; subst; try done. rewrite Dp in Hp. intros ?. apply Hp. set_solver. }
    destruct (i_blank p j c g Hc1 Hg Hsg Hp1) as [|Hb]; [by left|right]. rewrite Ho. repeat case_decide; subst; try done.
    apply blank_drop; [by eapply inv_oneof|done].
  - intros p j. rewrite Hfd, Ho. destruct (decide (p = a)) as [->|]; [|repeat case_decide; apply i_present].
    rewrite Dp, Dv. intros [Hj Hne]%elem_of_difference. rewrite elem_of_singleton in Hne.
    destruct (i_present a j Hj) as (g & ? & ? & ? & ?). exists g. by rewrite lookup_delete_ne by done.
  - intros p n j. rewrite Hfd. unfold field_of. rewrite <- Hc. assert (oneof_inv (obj s' p)) as Hn; [|exact (Hn n j)].
    rewrite Ho. repeat case_decide; subst; [|by apply (inv_oneof _ _ _ _ _ Hi)..].
    apply drop_oneofs; [done|by apply (inv_oneof _ _ _ _ _ Hi)].
  - intros p j c HO' Hc1. rewrite (Hm' _ _ _ Hc1). apply Hh in Hc1 as [? _]. by eapply i_gap.
Qed.

(** *** Selecting a field *)

(** What clearing other members and selecting field [i] does around [a]. *)
Record selects (a i : nat) s s' : Prop := {
  sel_len : length (objects s') = length (objects s);
  sel_other x : x <> a -> obj s' x = obj s x \/ (exists j, held s a j x /\ j <> i) /\ obj s' x = _bind_mutation Ignored (obj s x);
  sel_cls : o_cls (obj s' a) = o_cls (obj s a);
  sel_mutation : o_mutation (obj s' a) = o_mutation (obj s a);
  sel_suspended : o_suspended (obj s' a) = o_suspended (obj s a);
  sel_value : o_values (obj s' a) !! i = o_values (obj s a) !! i;
  sel_held p j c : held s' p j c -> held s p j c
}.

Lemma selects_refl a i s : selects a i s s.
Proof. split; try done. intros x _. by left. Qed.

Lemma cleared_selects D P O s a i j f :
  inv D P O s -> (a < length (objects s))%nat -> field_of s a j = Some f -> singular f = true -> j <> i ->
  selects a i s (cleared a j f s).
Proof.
  intros Hi Ha Hf Hs Hne. destruct (drop_parts j f (obj s a)) as (Dc & Dv & Dp & Du & Dm & Ds).
  split; try (erewrite obj_cleared by done; rewrite decide_True by done; done).
  - unfold cleared. by rewrite length_upd, length_detach_child.
  - intros x Hx. erewrite obj_cleared by done. rewrite decide_False by done. case_decide as Hin; [right|by left].
    split; [|done]. exists j. split; [by apply held_in_field|done].
  - erewrite obj_cleared by done. rewrite decide_True by done. by rewrite Dv, lookup_delete_ne.
  - intros p k c Hh. erewrite cleared_held in Hh by done. by destruct Hh.
Qed.

Context (HS : schema_ok _).

Lemma obj_deselect_ok nt D P O s a i f :
  inv D P O s -> (a < length (objects s))%nat -> field_of s a i = Some f -> O = None \/ O = Some (a, i) ->
  exists s', deselect nt a i f s = Ok s' /\ inv D P O s' /\ selects a i s s' /\
    (forall n j, oneof f = Some n -> o_oneofs (obj s' a) !! n = Some j -> j = i).
Proof.
  intros Hi Ha Hf HO. unfold deselect. destruct (oneof f) as [n|] eqn:En; [|exists s; split_and!; [done..|apply selects_refl|done]].
  destruct (o_oneofs (obj s a) !! n) as [j|] eqn:Ej; [|exists s; split_and!; [done..|apply selects_refl|congruence]].
  case_decide as Hne; [exists s; split_and!; [done..|apply selects_refl|congruence]|].
  pose proof (proj1 (i_oneofs _ _ _ _ Hi a n j) Ej) as (g & Hg & Hn & _). unfold clear_index. rewrite Hg.
  assert (singular g = true) as Hs.
  { apply (f_oneof g) with n; [|done]. apply (Forall_lookup_1 _ _ j _ (s_fields HS (o_cls (obj s a)))). exact Hg. }
  pose proof Hs as [Hk Hr]%singular_keys. unfold _clear_state, map_field. rewrite Hk, Hr. cbn [orb].
  exists (cleared a j g s). split; [done|]. split; [apply cleared_ok; try done; naive_solver|].
  split; [by eapply cleared_selects|]. intros m k [= <-] Hm. exfalso.
  erewrite obj_cleared in Hm by done. rewrite decide_True in Hm by done. unfold drop_field in Hm.
  cbn [o_oneofs set_present set_values] in Hm. rewrite Hn, Ej, decide_True in Hm by done. cbn [o_oneofs set_oneof_map] in Hm.
  by rewrite lookup_delete_eq in Hm.
Qed.

Lemma choose_parts i f o :
  o_cls (choose i f o) = o_cls o /\ o_values (choose i f o) = o_values o /\
  o_present (choose i f o) = (if has_presence f then {[i]} ∪ o_present o else o_present o) /\ o_unknown (choose i f o) = o_unknown o /\
  o_mutation (choose i f o) = o_mutation o /\ o_suspended (choose i f o) = o_suspended o /\
  o_oneofs (choose i f o) = match oneof f with Some n => <[n := i]> (o_oneofs o) | None => o_oneofs o end.
Proof. unfold choose. cbn. repeat case_match; done. Qed.

Lemma choose_oneofs i f o :
  FIELDS (o_cls o) !! i = Some f -> oneof_inv o -> (forall n j, oneof f = Some n -> o_oneofs o !! n = Some j -> j = i) ->
  oneof_inv (choose i f o).
Proof.
  intros Hf Ho Hn n j. destruct (choose_parts i f o) as (-> & _ & -> & _ & _ & _ & ->).
  destruct (oneof f) as [m|] eqn:Em.
  - rewrite (oneof_presence f m Em). destruct (decide (n = m)) as [->|Hne].
    + rewrite lookup_insert_eq. split; [intros [= <-]; exists f; split_and!; [done..|set_solver]|].
      intros (g & Hg & Hm & Hj). apply elem_of_union in Hj as [->%elem_of_singleton|Hj]; [done|].
      f_equal. symmetry. apply (Hn m j eq_refl), Ho. eauto.
    + rewrite lookup_insert_ne by done. rewrite (Ho n j). split; [set_solver|]. intros (g & Hg & Hm & Hj). exists g.
      split_and!; [done..|]. apply elem_of_union in Hj as [->%elem_of_singleton|Hj]; [|done]. congruence.
  - rewrite (Ho n j). destruct (has_presence f); [|done]. split; [set_solver|]. intros (g & Hg & Hm & Hj). exists g.
    split_and!; [done..|]. apply elem_of_union in Hj as [->%elem_of_singleton|Hj]; [|done]. congruence.
Qed.

Lemma choose_ok D P O s a i f :
  inv D P O s -> (a < length (objects s))%nat -> field_of s a i = Some f -> singular f = true ->
  O = Some (a, i) \/ is_Some (o_values (obj s a) !! i) ->
  (forall n j, oneof f = Some n -> o_oneofs (obj s a) !! n = Some j -> j = i) ->
  inv ({[a]} ∪ D) P O (upd a (choose i f) s).
Proof.
  intros Hi Ha Hf Hs Hv Hn. set (s' := upd a (choose i f) s).
  destruct (choose_parts i f (obj s a)) as (Cc & Cv & Cp & Cu & Cm & _).
  assert (forall x, obj s' x = if decide (x = a) then choose i f (obj s a) else obj s x) as Ho by (intros; by apply obj_upd).
  assert (forall x, o_cls (obj s' x) = o_cls (obj s x)) as Hc by (intros x; rewrite Ho; case_decide; subst; done).
  assert (forall x, o_values (obj s' x) = o_values (obj s x)) as Hvs by (intros x; rewrite Ho; case_decide; subst; done).
  assert (forall x, o_mutation (obj s' x) = o_mutation (obj s x)) as Hm by (intros x; rewrite Ho; case_decide; subst; done).
  assert (forall p j, field_of s' p j = field_of s p j) as Hfd by (intros; unfold field_of; by rewrite Hc).
  assert (forall p j c, held s' p j c <-> held s p j c) as Hh by (intros; unfold held; by rewrite Hvs).
  assert (forall p j, j ∈ o_present (obj s' p) -> j ∈ o_present (obj s p) \/ p = a /\ j = i /\ has_presence f = true) as Hp.
  { intros p j. rewrite Ho. case_decide as Ep; [|tauto]. subst. rewrite Cp. destruct (has_presence f); set_solver. }
  assert (forall p j, j ∈ o_present (obj s p) -> j ∈ o_present (obj s' p)) as Hp'.
  { intros p j Hj. rewrite Ho. case_decide as Ep; [|done]. subst. rewrite Cp. destruct (has_presence f); set_solver. }
  pose proof Hi as []. split.
  - intros p j c Hc1%Hh. unfold s'. rewrite length_upd. by apply (i_held p j c).
  - intros p j c Hc1%Hh. rewrite Hfd, Hm. by apply i_link.
  - intros c p j. rewrite Hm, Hh. apply i_child.
  - intros c p j. rewrite Hm, Hh. apply i_container.
  - intros p j x. rewrite Hvs, Hfd. intros (? & g & ? & ?)%i_box. split; [done|]. exists g. split; [done|].
    eapply box_ok_ext; [|done]. intros c _. apply Hc.
  - intros p j c g Hc1%Hh. rewrite Hfd. intros Hg Hsg Hj. destruct (i_blank p j c g Hc1 Hg Hsg) as [|Hb]; [by intros ?%Hp'|set_solver|].
    destruct (decide (c = a)) as [->|]; [left; set_solver|right]. by rewrite Ho, decide_False.
  - intros p j. rewrite Hfd, Hvs. intros [Hj|(-> & -> & Hpr)]%Hp; [by apply i_present|]. by exists f.
  - intros p n j. rewrite Hfd. unfold field_of. rewrite <- Hc. assert (oneof_inv (obj s' p)) as Hq; [|exact (Hq n j)].
    rewrite Ho. case_decide; subst; [|by apply (inv_oneof _ _ _ _ _ Hi)]. apply choose_oneofs; [done| |done].
    by apply (inv_oneof _ _ _ _ _ Hi).
  - intros p j c HO Hc1%Hh. rewrite Hm. by eapply i_gap.
Qed.

Lemma obj_select_ok nt D P O s a i f :
  inv D P O s -> (a < length (objects s))%nat -> field_of s a i = Some f -> singular f = true ->
  O = None /\ is_Some (o_values (obj s a) !! i) \/ O = Some (a, i) ->
  exists s', _select nt a i f s = Ok s' /\ inv ({[a]} ∪ D) P O s' /\ selects a i s s' /\
    (has_presence f = true -> i ∈ o_present (obj s' a)).
Proof.
  intros Hi Ha Hf Hs HO. destruct (obj_deselect_ok nt D P O s a i f) as (s1 & E1 & I1 & L1 & N1); [done..|naive_solver|].
  unfold _select. rewrite E1. cbn [mbind result_bind]. exists (upd a (choose i f) s1). split; [done|].
  destruct L1 as []. assert (a < length (objects s1))%nat as Ha1 by lia.
  destruct (choose_parts i f (obj s1 a)) as (Cc & Cv & Cp & Cu & Cm & Cs & _).
  split; [|split; [split|]].
  - apply choose_ok; try done; [unfold field_of; by rewrite sel_cls0|]. destruct HO as [[-> ?]| ->]; [right|by left]. by rewrite sel_value0.
  - by rewrite length_upd.
  - intros x Hx. rewrite obj_upd_ne by done. by apply sel_other0.
  - rewrite obj_upd, decide_True by done. by rewrite Cc.
  - rewrite obj_upd, decide_True by done. by rewrite Cm.
  - rewrite obj_upd, decide_True by done. by rewrite Cs.
  - rewrite obj_upd, decide_True by done. by rewrite Cv.
  - intros p j c Hc. apply sel_held0. revert Hc. unfold held. rewrite obj_upd by done. case_decide; [|done]. subst. by rewrite Cv.
  - intros Hp. rewrite obj_upd, decide_True by done. rewrite Cp, Hp. set_solver.
Qed.

(** *** Notification *)

Lemma object_eta o :
  mkObject (o_cls o) (o_values o) (o_present o) (o_oneofs o) (o_unknown o) (o_mutation o) (o_suspended o) (o_mask o)
    (o_mask_suspended o) = o.
Proof. by destruct o. Qed.

Lemma choose_same i f o :
  i ∈ o_present o -> (forall n, oneof f = Some n -> o_oneofs o !! n = Some i) -> choose i f o = o.
Proof.
  intros Hp Hn. assert ({[i]} ∪ o_present o = o_present o) as Hu by set_solver.
  unfold choose. destruct (oneof f) as [n|] eqn:En; cbn [o_present set_oneof_map].
  - rewrite Hu, insert_id by (by apply Hn). destruct (has_presence f); unfold set_present, set_oneof_map; cbn; apply object_eta.
  - rewrite Hu. destruct (has_presence f); [apply object_eta|done].
Qed.

Lemma select_same nt D P O s a i f :
  inv D P O s -> field_of s a i = Some f -> i ∈ o_present (obj s a) -> _select nt a i f s = Ok s.
Proof.
  intros Hi Hf Hp. assert (forall n, oneof f = Some n -> o_oneofs (obj s a) !! n = Some i) as Hn.
  { intros n Hn. apply (i_oneofs _ _ _ _ Hi). eauto. }
  unfold _select, deselect. destruct (oneof f) as [n|] eqn:En; [rewrite (Hn n eq_refl), decide_True by done|];
    cbn [mbind result_bind]; by rewrite upd_same by (apply choose_same; [done|by rewrite En]).
Qed.

Lemma notify_suspended n a s : o_suspended (obj s a) <> 0%nat -> notify_loop (S n) a s = Ok s.
Proof. intros Hs. cbn [notify_loop]. by rewrite (proj2 (Nat.eqb_neq _ _)). Qed.

Lemma notify_absorbed D P O s a : inv D P O s -> absorbed s a -> _notify a s = Ok s.
Proof.
  intros Hi Ha. unfold _notify. destruct (decide (o_suspended (obj s a) = 0)%nat) as [E0|]; [|by apply notify_suspended].
  destruct Ha as [Ha|Ha]; [done|]. cbn [notify_loop]. rewrite E0. cbn [Nat.eqb].
  destruct (o_mutation (obj s a)) as [| |p i|p i] eqn:Em; [done|done|..].
  - destruct Ha as (Hlt & Hs & Hp). destruct a as [|a]; [lia|]. destruct (i_present _ _ _ _ Hi p i Hp) as (f & Hf & _).
    rewrite Hf. erewrite select_same by done. cbn [mbind result_bind]. by apply notify_suspended.
  - destruct Ha as (Hlt & Hs). destruct a as [|a]; [lia|]. by apply notify_suspended.
Qed.

(** What notifying the owners of [a] changes. *)
Record notified (a : nat) s s' : Prop := {
  n_len : length (objects s') = length (objects s);
  n_cls x : o_cls (obj s' x) = o_cls (obj s x);
  n_susp x : o_suspended (obj s' x) = o_suspended (obj s x);
  n_held p i c : held s' p i c -> held s p i c;
  n_content x : ~ (below s x a /\ x <> a) -> content (obj s' x) = content (obj s x);
  n_mutation x : o_mutation (obj s' x) = o_mutation (obj s x) \/
    exists q j, held s q j x /\ below s q a /\ q <> a /\ ~ below s x a
}.

Lemma notified_refl a s : notified a s s.
Proof. split; try done. intros x. by left. Qed.

Lemma below_mono s s' a x : (forall p i c, held s' p i c -> held s p i c) -> below s' a x -> below s a x.
Proof. intros Hh. apply rtc_subrel. intros p c [i Hi]. exists i. by apply Hh. Qed.

Lemma below_last D P s p i a x : inv D P None s -> held s p i a -> below s x a -> x = a \/ below s x p.
Proof.
  intros Hi Hp Hb. apply rtc_inv_r in Hb as [->|(q & Hb & j & Hq)]; [by left|right].
  by destruct (holder_unique _ _ _ _ _ _ _ _ _ Hi Hp Hq) as [-> _].
Qed.

(** The links above [p] stay when [p] selects a field. *)
Lemma selects_above D P O s s1 p x :
  inv D P O s -> (forall y, y <> p -> content (obj s1 y) = content (obj s y)) -> below s x p -> below s1 x p.
Proof.
  intros Hi Hc Hb. induction Hb as [|x y p [j Hj] Hy IH]; [apply rtc_refl|].
  pose proof (inv_ordered _ _ _ _ Hi) as Ho. pose proof (Ho _ _ _ Hj). pose proof (below_le _ _ _ Ho Hy).
  eapply rtc_l; [|by apply IH]. exists j. destruct Hj as (b & Hb & Hin). exists b. split; [|done].
  assert (x <> p) as Hx by lia. specialize (Hc x Hx). injection Hc as _ Hv _ _ _. by rewrite Hv.
Qed.

Lemma notified_step D P s s1 s' p i a :
  inv D P None s -> held s p i a -> selects p i s s1 -> notified p s1 s' -> notified a s s'.
Proof.
  intros Hi Hh [] []. pose proof (inv_ordered _ _ _ _ Hi) as Ho. pose proof (Ho _ _ _ Hh) as Hpa.
  assert (below s p a) as Hb by (eapply rtc_l; [by exists i|apply rtc_refl]).
  assert (forall x, x <> p -> content (obj s1 x) = content (obj s x)) as Hc.
  { intros x Hx. destruct (sel_other0 x Hx) as [-> |[_ ->]]; done. }
  split.
  - congruence.
  - intros x. rewrite n_cls0. destruct (decide (x = p)) as [->|Hx]; [done|]. specialize (Hc x Hx). by injection Hc.
  - intros x. rewrite n_susp0. destruct (decide (x = p)) as [->|Hx]; [done|].
    destruct (sel_other0 x Hx) as [-> |[_ ->]]; done.
  - eauto.
  - intros x Hx. rewrite n_content0, Hc; [done|..].
    + intros ->. apply Hx. split; [done|lia].
    + intros [Hx1 Hne]. apply Hx. apply (below_mono _ _ _ _ sel_held0) in Hx1. split; [by etrans|].
      apply below_le in Hx1; [lia|done].
  - intros x. destruct (n_mutation0 x) as [E|(q & j & Hq & Hqp & Hne & Hx)].
    + rewrite E. destruct (decide (x = p)) as [->|Hx]; [by left|]. destruct (sel_other0 x Hx) as [-> |[(j & Hj & Hji) _]]; [by left|right].
      exists p, j. split_and!; [done..|lia|]. intros [->|Hxp]%(below_last _ _ _ _ _ _ _ Hi Hh).
      * destruct (holder_unique _ _ _ _ _ _ _ _ _ Hi Hj Hh); naive_solver.
      * apply below_le in Hxp; [|done]. apply Ho in Hj. lia.
    + right. apply (below_mono _ _ _ _ sel_held0) in Hqp. apply sel_held0 in Hq. exists q, j. split_and!; [done|by etrans| |].
      * apply below_le in Hqp; [lia|done].
      * intros [->|Hxp]%(below_last _ _ _ _ _ _ _ Hi Hh).
        -- by destruct (holder_unique _ _ _ _ _ _ _ _ _ Hi Hh Hq) as [-> _].
        -- apply Hx. by eapply selects_above.
Qed.

Lemma message_presence f k : singular f = true -> codec_of f = CMessage k -> has_presence f = true.
Proof.
  intros [Hk Hr]%singular_keys Hc. unfold has_presence, message_field, map_field. rewrite Hc, Hk.
  by destruct (explicit_presence f), (required f), (oneof f).
Qed.

(** A message in a singular field: the field is one of messages. *)
Lemma held_singular D P O s p i a f :
  inv D P O s -> held s p i a -> field_of s p i = Some f -> singular f = true ->
  has_presence f = true /\ o_values (obj s p) !! i = Some (ROne (RM a)).
Proof.
  intros Hi (x & Hx & Ha) Hf Hs. destruct (i_box _ _ _ _ Hi _ _ _ Hx) as (_ & g & Hg & Hb). assert (g = f) as -> by congruence.
  destruct (singular_box _ _ _ Hs Hb) as (v & -> & Hv). destruct v as [y|b]; [by apply not_elem_of_nil in Ha|].
  apply list_elem_of_singleton in Ha as ->. split; [|done]. unfold ref_ok in Hv. destruct (codec_of f) as [| | | | |k] eqn:Ec; try done.
  by eapply message_presence.
Qed.

(** After a notification the owner has the message present. *)
Definition known (a : nat) s : Prop :=
  forall p i f, held s p i a -> field_of s p i = Some f -> singular f = true -> i ∈ o_present (obj s p).

Lemma inert_known D P s a :
  inv D P None s -> (forall p i, o_mutation (obj s a) <> ChildChanged p i) -> known a s.
Proof.
  intros Hi Hm p i f Hh Hf Hs. destruct (i_link _ _ _ _ Hi _ _ _ Hh) as (g & Hg & [E|[? _]]); [|done].
  assert (g = f) as -> by congruence. unfold link in E. rewrite Hs in E. by destruct (Hm p i).
Qed.

Lemma notify_ok n D s a :
  inv ({[a]} ∪ D) ∅ None s -> calm D s -> (a < n)%nat ->
  exists s', notify_loop n a s = Ok s' /\ inv D ∅ None s' /\ notified a s s' /\
    (o_suspended (obj s a) = 0%nat -> known a s').
Proof.
  revert D s a. induction n as [|n IH]; intros D s a Hi Hc Hn; [lia|].
  destruct (decide (o_suspended (obj s a) = 0)%nat) as [E0|E0].
  2:{ exists s. split; [by apply notify_suspended|]. split; [|split; [apply notified_refl|done]].
      assert ({[a]} ∪ D = D) as <-; [|done]. specialize (Hc a E0). set_solver. }
  cbn [notify_loop]. rewrite E0. cbn [Nat.eqb].
  destruct (o_mutation (obj s a)) as [| |p i|p i] eqn:Em.
  - assert (known a s) as Hk by (eapply inert_known; [exact Hi|congruence]). exists s. split_and!; [done|by eapply undirty|apply notified_refl|done].
  - assert (known a s) as Hk by (eapply inert_known; [exact Hi|congruence]). exists s. split_and!; [done|by eapply undirty|apply notified_refl|done].
  - pose proof (i_child _ _ _ _ Hi _ _ _ Em) as Hh. destruct (i_link _ _ _ _ Hi _ _ _ Hh) as (f & Hf & [El|[? _]]); [|done].
    rewrite Em in El. symmetry in El. apply link_child in El as (_ & _ & Hs). rewrite Hf.
    destruct (held_singular _ _ _ _ _ _ _ _ Hi Hh Hf Hs) as [Hpr Hv]. pose proof (held_alive _ _ _ _ Hh) as Hp.
    destruct (i_held _ _ _ _ Hi _ _ _ Hh) as [Hpa _].
    destruct (obj_select_ok (notify_loop n) _ _ _ _ _ _ _ Hi Hp Hf Hs ltac:(left; eauto)) as (s1 & -> & I1 & L1 & P1).
    cbn [mbind result_bind]. specialize (P1 Hpr). destruct L1 as [] eqn:HL1. clear HL1.
    assert (known a s1) as Ha.
    { intros q j g Hq _ _. destruct (holder_unique _ _ _ _ _ _ _ _ _ Hi Hh (sel_held0 _ _ _ Hq)) as [<- <-]; done. }
    assert (inv ({[p]} ∪ D) ∅ None s1) as I2.
    { apply (undirty _ _ _ _ a); [|done]. eapply inv_weaken; [|exact I1]. set_solver. }
    destruct (IH D s1 p I2) as (s' & E' & I' & N' & K'); [|lia|].
    { intros b Hb. apply Hc. destruct (decide (b = p)) as [->|Hbp]; [by rewrite sel_suspended0 in Hb|].
      destruct (sel_other0 b Hbp) as [E|[_ E]]; rewrite E in Hb; done. }
    exists s'. split; [done|]. split; [done|]. split; [by eapply notified_step|]. intros _ q j g Hq Hg Hsg.
    pose proof (n_held _ _ _ N' _ _ _ Hq) as Hq1.
    destruct (holder_unique _ _ _ _ _ _ _ _ _ Hi Hh (sel_held0 _ _ _ Hq1)) as [<- <-]; [done|].
    assert (content (obj s' p) = content (obj s1 p)) as Hcp by (apply (n_content _ _ _ N'); naive_solver).
    injection Hcp as _ _ -> _ _. done.
  - assert (known a s) as Hk by (eapply inert_known; [exact Hi|congruence]). pose proof (undirty _ _ _ _ _ Hi Hk) as Hi'.
    destruct (i_container _ _ _ _ Hi' _ _ _ Em) as [Hh|[[]%elem_of_empty _]]. destruct (i_held _ _ _ _ Hi _ _ _ Hh) as [Hpa _].
    destruct (IH D s p) as (s' & E' & I' & N' & _); [eapply inv_weaken; [|exact Hi']; set_solver|done|lia|].
    exists s'. split; [done|]. split; [done|]. split; [eapply notified_step; [done|done|apply selects_refl|done]|].
    intros _ q j g Hq Hg Hsg. pose proof (n_held _ _ _ N' _ _ _ Hq) as Hq1.
    destruct (i_link _ _ _ _ Hi _ _ _ Hq1) as (f & Hf & [El|[? _]]); [|done].
    unfold field_of in Hg. rewrite (n_cls _ _ _ N') in Hg. assert (f = g) as <- by (unfold field_of in Hf; congruence).
    rewrite Em in El. unfold link in El. by rewrite Hsg in El.
Qed.

(** When nobody is suspended, so has every owner up to the root. *)
Lemma notify_known n D s a s' :
  inv ({[a]} ∪ D) ∅ None s -> calm ∅ s -> (a < n)%nat -> notify_loop n a s = Ok s' -> forall x, below s' x a -> known x s'.
Proof.
  revert D s a. induction n as [|n IH]; intros D s a Hi Hc Hn E x Hx; [lia|].
  destruct (notify_ok (S n) D s a Hi (calm_weaken ∅ D s (empty_subseteq _) Hc) Hn) as (s2 & E2 & _ & N2 & K2).
  assert (s2 = s') as -> by congruence.
  assert (forall b, o_suspended (obj s b) = 0%nat) as H0.
  { intros b. destruct (decide (o_suspended (obj s b) = 0)%nat) as [|Hb]; [done|by apply Hc, elem_of_empty in Hb]. }
  apply rtc_inv_r in Hx as [->|(p & Hp & i & Hh)]; [by apply K2|]. apply (n_held _ _ _ N2) in Hh.
  destruct (i_link _ _ _ _ Hi _ _ _ Hh) as (f & Hf & [El|[? _]]); [|done]. destruct (i_held _ _ _ _ Hi _ _ _ Hh) as [Hpa _].
  cbn [notify_loop] in E. rewrite H0, El in E. cbn [Nat.eqb] in E. unfold link in El, E. destruct (singular f) eqn:Hs.
  - destruct (held_singular _ _ _ _ _ _ _ _ Hi Hh Hf Hs) as [Hpr Hv]. pose proof (held_alive _ _ _ _ Hh) as Hl.
    destruct (obj_select_ok (notify_loop n) _ _ _ _ _ _ _ Hi Hl Hf Hs ltac:(left; eauto)) as (s1 & Es & I1 & L1 & P1).
    rewrite Hf, Es in E. cbn [mbind result_bind] in E. specialize (P1 Hpr).
    assert (known a s1) as Ha.
    { intros q j g Hq _ _. destruct (holder_unique _ _ _ _ _ _ _ _ _ Hi Hh (sel_held _ _ _ _ L1 _ _ _ Hq)) as [<- <-]; done. }
    apply (IH D s1 p); [|..|lia|exact E|exact Hp].
    + apply (undirty _ _ _ _ a); [|done]. eapply inv_weaken; [|exact I1]. set_solver.
    + intros b Hb. destruct Hb. destruct (decide (b = p)) as [->|Hbp]; [by rewrite (sel_suspended _ _ _ _ L1)|].
      destruct (sel_other _ _ _ _ L1 b Hbp) as [Eb|[_ Eb]]; rewrite Eb; apply H0.
  - assert (known a s) as Hk by (eapply inert_known; [exact Hi|congruence]). pose proof (undirty _ _ _ _ _ Hi Hk) as Hi'.
    apply (IH D s p); [eapply inv_weaken; [|exact Hi']; set_solver|done|lia|exact E|exact Hp].
Qed.

(** The end of an operation that worked at and under [a]. *)
Lemma finish D P s s1 a :
  inv D P None s -> local a s s1 -> inv ({[a]} ∪ D) P None s1 -> calm D s1 -> absorbed s a \/ P = ∅ ->
  exists s', _notify a s1 = Ok s' /\ inv D P None s' /\ effect a s s' /\
    (o_suspended (obj s a) = 0%nat -> known a s').
Proof.
  intros Hi HL I1 Hc Hq. pose proof (inv_ordered _ _ _ _ Hi) as Ho. pose proof (local_effect _ _ _ HL) as He.
  pose proof (l_alive _ _ _ HL) as Hl. pose proof (effect_absorbed _ _ _ Ho He) as Hab.
  destruct Hq as [Ha| ->].
  - exists s1. split; [by eapply notify_absorbed, Hab|].
    assert (known a s1 \/ a ∈ D) as Hk.
    { destruct (Hab Ha) as [Hs|Hm]; [right; by apply Hc|left]. destruct (o_mutation (obj s1 a)) as [| |p i|p i] eqn:Em;
        try (by eapply inert_known; [exact I1|congruence]).
      intros q j f Hh Hf Hs. destruct (i_link _ _ _ _ I1 _ _ _ Hh) as (g & _ & [E|[? _]]); [|done]. rewrite Em in E.
      symmetry in E. apply link_child in E as (-> & -> & _). apply Hm. }
    split; [|split; [done|]].
    + destruct Hk as [Hk|Hk]; [by eapply undirty|]. assert ({[a]} ∪ D = D) as <-; [set_solver|done].
    + intros E0. destruct Hk as [Hk|Hk]; [done|]. destruct (Hab Ha) as [Hs|Hm]; [|].
      { by rewrite (l_susp _ _ _ HL) in Hs. }
      destruct (o_mutation (obj s1 a)) as [| |p i|p i] eqn:Em; try (by eapply inert_known; [exact I1|congruence]).
      intros q j f Hh Hf Hs. destruct (i_link _ _ _ _ I1 _ _ _ Hh) as (g & _ & [E|[? _]]); [|done]. rewrite Em in E.
      symmetry in E. apply link_child in E as (-> & -> & _). apply Hm.
  - destruct (notify_ok (S a) D s1 a I1 Hc ltac:(lia)) as (s' & E' & I' & N' & K'). exists s'. split; [done|]. split; [done|].
    split; [|intros E0; apply K'; by rewrite (l_susp _ _ _ HL)].
    pose proof N' as []. destruct HL. assert (forall x y, (y < length (objects s))%nat -> below s1 x y -> below s x y) as Hb.
    { intros x y. apply (effect_below _ _ _ _ _ He). }
    split.
    + done.
    + lia.
    + intros x Hx. rewrite n_cls0. auto.
    + eauto.
    + by eapply inv_ordered.
    + destruct (n_mutation0 a) as [->|(_ & _ & _ & _ & _ & [])]; [done|apply rtc_refl].
    + intros x Hx. rewrite n_susp0. auto.
    + intros x Hx. rewrite n_susp0. auto.
    + intros x Hx H1 H2. rewrite n_content0; [by rewrite l_keep|]. intros [? _]. by apply H2, Hb.
    + intros x Ha Hx Hn. pose proof (notify_absorbed _ _ _ _ _ I1 (Hab Ha)) as En. unfold _notify in En. assert (s' = s1) as -> by congruence.
      by apply l_keep.
Qed.

End Steps.
