(* ===== verification/MessageObjectsWork.v ===== *)
(** * Filling fields and containers of the object store

    Detaching and storing a nested message, replacing the items of a container,
    clearing, copying and merging. *)
From stdpp Require Import gmap.
From S2P Require Import Prelude PyStr Json FieldMask Bytes Wire ValueCodec Metadata Message MessageInv MessageObjects MessageObjectsInv MessageObjectsSteps.

Section Work.
Context `{Schema}.
Implicit Types (D P : gset nat) (O : option (nat * nat)) (s : store).

(** *** Singular fields *)

Lemma detach_ok D P s a i f :
  inv D P None s -> field_of s a i = Some f -> singular f = true -> inv D P (Some (a, i)) (_detach_child a i s).
Proof.
  intros Hi Hf Hs. set (s' := _detach_child a i s).
  assert (forall x, obj s' x = if decide (x ∈ in_field s a i) then _bind_mutation Ignored (obj s x) else obj s x) as Ho.
  { intros x. by eapply detach_child_obj. }
  assert (forall x, o_cls (obj s' x) = o_cls (obj s x)) as Hc by (intros x; rewrite Ho; by case_decide).
  assert (forall x, o_values (obj s' x) = o_values (obj s x)) as Hv by (intros x; rewrite Ho; by case_decide).
  assert (forall x, o_present (obj s' x) = o_present (obj s x)) as Hp by (intros x; rewrite Ho; by case_decide).
  assert (forall x, o_oneofs (obj s' x) = o_oneofs (obj s x)) as Hn by (intros x; rewrite Ho; by case_decide).
  assert (forall x, blank (obj s' x) <-> blank (obj s x)) as Hb by (intros x; rewrite Ho; by case_decide).
  assert (forall p j, field_of s' p j = field_of s p j) as Hfd by (intros; unfold field_of; by rewrite Hc).
  assert (forall p j c, held s' p j c <-> held s p j c) as Hh by (intros; unfold held; by rewrite Hv).
  assert (forall x, o_mutation (obj s' x) = if decide (x ∈ in_field s a i) then Ignored else o_mutation (obj s x)) as Hm.
  { intros x. rewrite Ho. by case_decide. }
  pose proof Hi as []. split.
  - intros p j c Hc1%Hh. unfold s'. rewrite length_detach_child. by apply (i_held p j c).
  - intros p j c Hc1%Hh. rewrite Hfd, Hm. destruct (i_link p j c Hc1) as (g & Hg & [El|[? _]]); [|done]. exists g. split; [done|].
    case_decide as Hin; [right|by left]. apply held_in_field in Hin.
    by destruct (holder_unique _ _ _ _ _ _ _ _ _ Hi Hc1 Hin) as [-> ->].
  - intros c p j. rewrite Hm, Hh. case_decide; [done|]. apply i_child.
  - intros c p j. rewrite Hm, Hh. case_decide; [done|]. apply i_container.
  - intros p j x. rewrite Hv, Hfd. intros (? & g & ? & ?)%i_box. split; [done|]. exists g. split; [done|].
    eapply box_ok_ext; [|done]. intros c _. apply Hc.
  - intros p j c g Hc1%Hh. rewrite Hfd, Hp, Hb. by apply i_blank.
  - intros p j. rewrite Hp, Hfd, Hv. intros (g & ? & ? & ? & [?|?])%i_present; [done|]. exists g. eauto.
  - intros p n j. rewrite Hn, Hfd, Hp. apply i_oneofs.
  - intros p j c [= <- <-] Hc1%Hh. rewrite Hm. by rewrite decide_True by (by apply held_in_field).
Qed.

Definition stored (a i : nat) (v : ref) s : store := upd a (put i (ROne v)) (_bind_child a i v s).

Definition inert (cb : callback) : Prop := match cb with Unbound | Ignored => True | _ => False end.

(** A message that is nobody's. *)
Definition loose s (c : nat) : Prop := (c < length (objects s))%nat /\ inert (o_mutation (obj s c)).

Lemma obj_stored s a i v x :
  (a < length (objects s))%nat -> (forall c, c ∈ ref_addr v -> (a < c < length (objects s))%nat) ->
  obj (stored a i v s) x =
    if decide (x = a) then put i (ROne v) (obj s a)
    else if decide (x ∈ ref_addr v) then _bind_mutation (ChildChanged a i) (obj s x) else obj s x.
Proof.
  intros Ha Hv. unfold stored, _bind_child. rewrite obj_upd by (by rewrite length_bind).
  rewrite !obj_bind by (intros c Hc; apply Hv in Hc; lia). destruct (decide (x = a)); [|done].
  rewrite decide_False; [done|]. intros Hc%Hv. lia.
Qed.

Lemma stored_held s a i v p j c :
  (a < length (objects s))%nat -> (forall c, c ∈ ref_addr v -> (a < c < length (objects s))%nat) ->
  held (stored a i v s) p j c <-> (p, j) = (a, i) /\ c ∈ ref_addr v \/ (p, j) <> (a, i) /\ held s p j c.
Proof.
  intros Ha Hv. unfold held. rewrite obj_stored by done. destruct (decide (p = a)) as [->|Hp].
  - unfold put. cbn [o_values set_values]. destruct (decide (j = i)) as [->|Hj].
    + rewrite lookup_insert_eq. split; [intros (x & [= <-] & Hc); by left|]. intros [[_ ?]|[[] _]]; [by eexists|done].
    + rewrite lookup_insert_ne by done. split; [right; split; [congruence|done]|]. intros [[[= ?] _]|[_ ?]]; done.
  - destruct (decide (p ∈ _)); (split; [right; split; [congruence|done]|]; intros [[[= ?] _]|[_ ?]]; done).
Qed.

Lemma stored_ok D P s a i f v :
  inv D P (Some (a, i)) s -> (a < length (objects s))%nat -> field_of s a i = Some f -> singular f = true ->
  ref_ok s (codec_of f) v -> (forall c, c ∈ ref_addr v -> (a < c)%nat /\ loose s c) ->
  inv (list_to_set (ref_addr v) ∪ ({[a]} ∪ D)) P None (stored a i v s).
Proof.
  intros Hi Ha Hf Hs Hv Hl. set (s' := stored a i v s).
  assert (forall c, c ∈ ref_addr v -> (a < c < length (objects s))%nat) as Hlt by (intros c Hc; by destruct (Hl c Hc) as [? []]).
  assert (forall x, obj s' x = if decide (x = a) then put i (ROne v) (obj s a)
    else if decide (x ∈ ref_addr v) then _bind_mutation (ChildChanged a i) (obj s x) else obj s x) as Ho by (intros; by apply obj_stored).
  assert (forall p j c, held s' p j c <-> (p, j) = (a, i) /\ c ∈ ref_addr v \/ (p, j) <> (a, i) /\ held s p j c) as Hh.
  { intros. by apply stored_held. }
  assert (forall x, o_cls (obj s' x) = o_cls (obj s x)) as Hc by (intros x; rewrite Ho; repeat case_decide; subst; done).
  assert (forall x, o_present (obj s' x) = o_present (obj s x)) as Hp by (intros x; rewrite Ho; repeat case_decide; subst; done).
  assert (forall x, o_oneofs (obj s' x) = o_oneofs (obj s x)) as Hn by (intros x; rewrite Ho; repeat case_decide; subst; done).
  assert (forall p j, field_of s' p j = field_of s p j) as Hfd by (intros; unfold field_of; by rewrite Hc).
  assert (forall x, o_mutation (obj s' x) = if decide (x ∈ ref_addr v) then ChildChanged a i else o_mutation (obj s x)) as Hm.
  { intros x. rewrite Ho. destruct (decide (x = a)) as [->|]; [|by case_decide]. rewrite decide_False; [done|]. intros ?%Hlt. lia. }
  assert (forall p j c, held s p j c -> c ∈ ref_addr v -> (p, j) = (a, i)) as Hfree.
  { intros p j c Hc1 Hc2. destruct (i_link _ _ _ _ Hi _ _ _ Hc1) as (g & _ & [E|[[= <- <-] _]]); [|done].
    destruct (Hl c Hc2) as (_ & _ & Hin). rewrite E in Hin. unfold link in Hin. by destruct (singular g). }
  pose proof Hi as []. split.
  - intros p j c. rewrite Hh. unfold s', stored, _bind_child. rewrite length_upd, length_bind.
    intros [[[= -> ->] Hc1%Hlt]|[_ Hc1%i_held]]; lia.
  - intros p j c. rewrite Hh, Hfd, Hm. intros [[[= -> ->] Hc1]|[Hne Hc1]].
    + exists f. split; [done|]. left. rewrite decide_True by done. unfold link. by rewrite Hs.
    + destruct (i_link p j c Hc1) as (g & Hg & [E|[[= <- <-] _]]); [|done]. exists g. split; [done|]. left.
      rewrite decide_False; [done|]. intros Hc2. by destruct Hne, (Hfree _ _ _ Hc1 Hc2).
  - intros c p j. rewrite Hm, Hh. case_decide as Hin; [intros [= <- <-]; by left|]. intros E. right. split; [|by apply i_child].
    intros [= -> ->]. pose proof (i_gap a i c eq_refl (i_child _ _ _ E)). congruence.
  - intros c p j. rewrite Hm, Hh. case_decide as Hin; [done|]. intros E. destruct (i_container c p j E) as [Hc1|?]; [|by right].
    left. right. split; [|done]. intros [= -> ->]. pose proof (i_gap a i c eq_refl Hc1). congruence.
  - intros p j x Hx. rewrite Hfd. rewrite Ho in Hx. destruct (decide (p = a)) as [->|Hpa].
    + unfold put in Hx. cbn [o_values set_values] in Hx. apply lookup_insert_Some in Hx as [[<- <-]|[Hne Hx]].
      * split; [destruct v; simpl; [apply NoDup_nil_2|apply NoDup_singleton]|]. exists f. split; [done|].
        eapply box_ok_ext; [intros c _; apply Hc|]. unfold box_ok. apply singular_keys in Hs as [-> ->]. done.
      * destruct (i_box a j x Hx) as (? & g & ? & ?). split; [done|]. exists g. split; [done|].
        eapply box_ok_ext; [|done]. intros c _. apply Hc.
    + assert (o_values (obj s p) !! j = Some x) as Hx1 by (by destruct (decide (p ∈ ref_addr v))).
      destruct (i_box p j x Hx1) as (? & g & ? & ?). split; [done|]. exists g. split; [done|].
      eapply box_ok_ext; [|done]. intros c _. apply Hc.
  - intros p j c g. rewrite Hh, Hfd, Hp. intros [[_ Hc1]|[Hne Hc1]] Hg Hsg Hj; [left; set_solver|].
    destruct (i_blank p j c g Hc1 Hg Hsg Hj) as [|Hb]; [left; set_solver|].
    destruct (decide (c = a)) as [->|]; [left; set_solver|right]. rewrite Ho, decide_False by done. by case_decide.
  - intros p j. rewrite Hp, Hfd. intros Hj. destruct (i_present p j Hj) as (g & ? & ? & ? & Hx). exists g. split_and!; [done..|].
    right. rewrite Ho. destruct (decide (p = a)) as [->|Hpa].
    + unfold put. cbn [o_values set_values]. destruct (decide (j = i)) as [->|Hji]; [rewrite lookup_insert_eq; by eexists|].
      rewrite lookup_insert_ne by done. destruct Hx as [[= ->]|?]; done.
    + destruct Hx as [[= -> ->]|?]; [done|]. by case_decide.
  - intros p n j. rewrite Hn, Hfd, Hp. apply i_oneofs.
  - done.
Qed.

(** *** Containers *)

Definition boxed (a i : nat) (x : box) (gone : list ref) s : store := upd a (put i x) (detach_all gone s).

(** The new contents of a container: what stays, what was prepared, what goes. *)
Record reboxes (P : gset nat) (a i : nat) (f : Field) (x : box) (gone : list ref) s : Prop := {
  rb_alive : (a < length (objects s))%nat;
  rb_field : field_of s a i = Some f;
  rb_container : singular f = false;
  rb_box : box_ok s f x;
  rb_nodup : NoDup (refs x);
  rb_refs c : c ∈ refs x -> held s a i c \/ c ∈ P /\ o_mutation (obj s c) = ContainerChanged a i /\ (a < c < length (objects s))%nat;
  rb_gone c : c ∈ gone ≫= ref_addr <-> held s a i c /\ c ∉ refs x
}.

Lemma obj_boxed D P O s a i f x gone y :
  inv D P O s -> reboxes P a i f x gone s ->
  obj (boxed a i x gone s) y =
    if decide (y = a) then put i x (obj s a)
    else if decide (y ∈ gone ≫= ref_addr) then _bind_mutation Ignored (obj s y) else obj s y.
Proof.
  intros Hi []. unfold boxed. rewrite obj_upd by (by rewrite length_detach_all).
  assert (forall c, c ∈ gone ≫= ref_addr -> (a < c < length (objects s))%nat) as Hg.
  { intros c [Hc _]%rb_gone0. by apply (i_held _ _ _ _ Hi) in Hc. }
  assert (forall c, c ∈ gone ≫= ref_addr -> (c < length (objects s))%nat) as Hg' by (intros c Hc; apply Hg in Hc; lia).
  rewrite !obj_detach_all by done. destruct (decide (y = a)) as [->|]; [|done].
  rewrite decide_False; [done|]. intros Hc%Hg. lia.
Qed.

Lemma boxed_held D P O s a i f x gone p j c :
  inv D P O s -> reboxes P a i f x gone s ->
  held (boxed a i x gone s) p j c <-> (p, j) = (a, i) /\ c ∈ refs x \/ (p, j) <> (a, i) /\ held s p j c.
Proof.
  intros Hi Hr. unfold held. erewrite obj_boxed by done. destruct (decide (p = a)) as [->|Hp].
  - unfold put. cbn [o_values set_values]. destruct (decide (j = i)) as [->|Hj].
    + rewrite lookup_insert_eq. split; [intros (y & [= <-] & Hc); by left|]. intros [[_ ?]|[[] _]]; [by eexists|done].
    + rewrite lookup_insert_ne by done. split; [right; split; [congruence|done]|]. intros [[[= ?] _]|[_ ?]]; done.
  - destruct (decide (p ∈ _)); (split; [right; split; [congruence|done]|]; intros [[[= ?] _]|[_ ?]]; done).
Qed.

Lemma boxed_ok D P s a i f x gone :
  inv D P None s -> reboxes P a i f x gone s ->
  inv ({[a]} ∪ D) (P ∖ list_to_set (refs x)) None (boxed a i x gone s).
Proof.
  intros Hi Hr. set (s' := boxed a i x gone s). pose proof Hr as [].
  assert (forall y, obj s' y = if decide (y = a) then put i x (obj s a)
    else if decide (y ∈ gone ≫= ref_addr) then _bind_mutation Ignored (obj s y) else obj s y) as Ho by (intros; by eapply obj_boxed).
  assert (forall p j c, held s' p j c <-> (p, j) = (a, i) /\ c ∈ refs x \/ (p, j) <> (a, i) /\ held s p j c) as Hh.
  { intros. by eapply boxed_held. }
  assert (forall x, o_cls (obj s' x) = o_cls (obj s x)) as Hc by (intros y; rewrite Ho; repeat case_decide; subst; done).
  assert (forall x, o_present (obj s' x) = o_present (obj s x)) as Hp by (intros y; rewrite Ho; repeat case_decide; subst; done).
  assert (forall x, o_oneofs (obj s' x) = o_oneofs (obj s x)) as Hn by (intros y; rewrite Ho; repeat case_decide; subst; done).
  assert (forall p j, field_of s' p j = field_of s p j) as Hfd by (intros; unfold field_of; by rewrite Hc).
  assert (forall x, o_mutation (obj s' x) = if decide (x ∈ gone ≫= ref_addr) then Ignored else o_mutation (obj s x)) as Hm.
  { intros y. rewrite Ho. destruct (decide (y = a)) as [->|]; [|by case_decide]. rewrite decide_False; [done|].
    intros [Hc1%(i_held _ _ _ _ Hi) _]%rb_gone0. lia. }
  assert (forall c, held s a i c -> o_mutation (obj s c) = ContainerChanged a i) as Hcb.
  { intros c Hc1. destruct (i_link _ _ _ _ Hi _ _ _ Hc1) as (g & Hg & [E|[? _]]); [|done]. assert (g = f) as -> by congruence.
    rewrite E. unfold link. by rewrite rb_container0. }
  assert (forall p j c, held s p j c -> (p, j) <> (a, i) -> c ∉ gone ≫= ref_addr) as Hstay.
  { intros p j c Hc1 Hne [Hc2 _]%rb_gone0. destruct (holder_unique _ _ _ _ _ _ _ _ _ Hi Hc1 Hc2); naive_solver. }
  pose proof Hi as []. split.
  - intros p j c. rewrite Hh. unfold s', boxed. rewrite length_upd, length_detach_all.
    intros [[[= -> ->] [Hc1%i_held|(_ & _ & ?)]%rb_refs0]|[_ Hc1%i_held]]; lia.
  - intros p j c. rewrite Hh, Hfd, Hm. intros [[[= -> ->] Hc1]|[Hne Hc1]].
    + exists f. split; [done|]. left. rewrite decide_False by (by intros [_ []]%rb_gone0). unfold link. rewrite rb_container0.
      destruct (rb_refs0 c Hc1) as [?|(_ & ? & _)]; [by apply Hcb|done].
    + destruct (i_link p j c Hc1) as (g & Hg & [E|[? _]]); [|done]. exists g. split; [done|]. left. by rewrite decide_False by eauto.
  - intros c p j. rewrite Hm, Hh. case_decide as Hin; [done|]. intros E. right. pose proof (i_child c p j E) as Hc1. split; [|done].
    intros [= -> ->]. rewrite (Hcb c Hc1) in E. done.
  - intros c p j. rewrite Hm, Hh. case_decide as Hin; [done|]. intros E. rewrite elem_of_difference, elem_of_list_to_set.
    destruct (decide (c ∈ refs x)) as [Hx|Hx].
    + left. left. split; [|done]. destruct (rb_refs0 c Hx) as [?%Hcb|(_ & ? & _)]; congruence.
    + destruct (i_container c p j E) as [Hc1|[? ?]]; [|by right]. left. right. split; [|done]. intros [= -> ->].
      apply Hin, rb_gone0. done.
  - intros p j y Hx. rewrite Hfd. rewrite Ho in Hx. destruct (decide (p = a)) as [->|Hpa].
    + unfold put in Hx. cbn [o_values set_values] in Hx. apply lookup_insert_Some in Hx as [[<- <-]|[Hne Hx]].
      * split; [done|]. exists f. split; [done|]. eapply box_ok_ext; [intros c _; apply Hc|done].
      * destruct (i_box a j y Hx) as (? & g & ? & ?). split; [done|]. exists g. split; [done|].
        eapply box_ok_ext; [|done]. intros c _. apply Hc.
    + assert (o_values (obj s p) !! j = Some y) as Hx1 by (by destruct (decide (p ∈ _))).
      destruct (i_box p j y Hx1) as (? & g & ? & ?). split; [done|]. exists g. split; [done|].
      eapply box_ok_ext; [|done]. intros c _. apply Hc.
  - intros p j c g. rewrite Hh, Hfd, Hp. intros [[[= -> ->] Hc1]|[Hne Hc1]] Hg Hsg Hj; [congruence|].
    destruct (i_blank p j c g Hc1 Hg Hsg Hj) as [|Hb]; [left; set_solver|].
    destruct (decide (c = a)) as [->|]; [left; set_solver|right]. rewrite Ho, decide_False by done. by case_decide.
  - intros p j. rewrite Hp, Hfd. intros Hj. destruct (i_present p j Hj) as (g & ? & ? & ? & Hx). exists g. split_and!; [done..|].
    right. destruct Hx as [?|Hx]; [done|]. rewrite Ho. destruct (decide (p = a)) as [->|Hpa]; [|by case_decide].
    unfold put. cbn [o_values set_values]. destruct (decide (j = i)) as [->|Hji]; [rewrite lookup_insert_eq; by eexists|].
    by rewrite lookup_insert_ne by done.
  - intros p n j. rewrite Hn, Hfd, Hp. apply i_oneofs.
  - done.
Qed.

(** A message that is blank still is not known to be changed. *)
Lemma undirty_blank D P O s a :
  inv ({[a]} ∪ D) P O s ->
  (forall p i f, held s p i a -> field_of s p i = Some f -> singular f = true -> i ∉ o_present (obj s p) -> a ∈ D \/ blank (obj s a)) ->
  inv D P O s.
Proof.
  intros [] Ha. split; try done. intros p i c f H1 H2 H3 H4. destruct (i_blank p i c f H1 H2 H3 H4) as [Hc|]; [|by right].
  apply elem_of_union in Hc as [->%elem_of_singleton|]; [|by left]. by apply (Ha p i f).
Qed.

(** *** Other changes of one message *)

Lemma unknown_ok D P O s a u : inv D P O s -> (a < length (objects s))%nat -> inv ({[a]} ∪ D) P O (upd a (set_unknowns u) s).
Proof.
  intros Hi Ha. set (s' := upd a (set_unknowns u) s).
  assert (forall x, obj s' x = if decide (x = a) then set_unknowns u (obj s a) else obj s x) as Ho by (intros; by apply obj_upd).
  assert (forall x, o_cls (obj s' x) = o_cls (obj s x)) as Hc by (intros y; rewrite Ho; repeat case_decide; subst; done).
  assert (forall x, o_values (obj s' x) = o_values (obj s x)) as Hv by (intros y; rewrite Ho; repeat case_decide; subst; done).
  assert (forall x, o_present (obj s' x) = o_present (obj s x)) as Hp by (intros y; rewrite Ho; repeat case_decide; subst; done).
  assert (forall x, o_oneofs (obj s' x) = o_oneofs (obj s x)) as Hn by (intros y; rewrite Ho; repeat case_decide; subst; done).
  assert (forall x, o_mutation (obj s' x) = o_mutation (obj s x)) as Hm by (intros y; rewrite Ho; repeat case_decide; subst; done).
  assert (forall p j, field_of s' p j = field_of s p j) as Hfd by (intros; unfold field_of; by rewrite Hc).
  assert (forall p j c, held s' p j c <-> held s p j c) as Hh by (intros; unfold held; by rewrite Hv).
  destruct Hi. split.
  - intros p i c. rewrite Hh. unfold s'. rewrite length_upd. apply i_held.
  - intros p i c. rewrite Hh, Hfd, Hm. apply i_link.
  - intros c p i. rewrite Hh, Hm. apply i_child.
  - intros c p i. rewrite Hh, Hm. apply i_container.
  - intros p i x. rewrite Hv, Hfd. intros (? & f & ? & ?)%i_box. split; [done|]. exists f. split; [done|].
    eapply box_ok_ext; [|done]. intros c _. apply Hc.
  - intros p i c f. rewrite Hh, Hfd, Hp. intros H1 H2 H3 H4. destruct (i_blank p i c f H1 H2 H3 H4) as [|Hb]; [left; set_solver|].
    destruct (decide (c = a)) as [->|]; [left; set_solver|right]. by rewrite Ho, decide_False.
  - intros p i. rewrite Hp, Hfd, Hv. apply i_present.
  - intros p n i. rewrite Hn, Hfd, Hp. apply i_oneofs.
  - intros p i c HO. rewrite Hh, Hm. by apply i_gap.
Qed.

(** [Clear] forgets presence when no singular field is left. *)
Lemma wipe_ok D P s a :
  inv D P None s -> (a < length (objects s))%nat ->
  (forall i f x, o_values (obj s a) !! i = Some x -> field_of s a i = Some f -> singular f = false) ->
  inv ({[a]} ∪ D) P None (upd a wipe s).
Proof.
  intros Hi Ha Hw. set (s' := upd a wipe s).
  assert (forall x, obj s' x = if decide (x = a) then wipe (obj s a) else obj s x) as Ho by (intros; by apply obj_upd).
  assert (forall x, o_cls (obj s' x) = o_cls (obj s x)) as Hc by (intros y; rewrite Ho; repeat case_decide; subst; done).
  assert (forall x, o_values (obj s' x) = o_values (obj s x)) as Hv by (intros y; rewrite Ho; repeat case_decide; subst; done).
  assert (forall x, o_mutation (obj s' x) = o_mutation (obj s x)) as Hm by (intros y; rewrite Ho; repeat case_decide; subst; done).
  assert (forall p j, field_of s' p j = field_of s p j) as Hfd by (intros; unfold field_of; by rewrite Hc).
  assert (forall p j c, held s' p j c <-> held s p j c) as Hh by (intros; unfold held; by rewrite Hv).
  destruct Hi. split.
  - intros p i c. rewrite Hh. unfold s'. rewrite length_upd. apply i_held.
  - intros p i c. rewrite Hh, Hfd, Hm. apply i_link.
  - intros c p i. rewrite Hh, Hm. apply i_child.
  - intros c p i. rewrite Hh, Hm. apply i_container.
  - intros p i x. rewrite Hv, Hfd. intros (? & f & ? & ?)%i_box. split; [done|]. exists f. split; [done|].
    eapply box_ok_ext; [|done]. intros c _. apply Hc.
  - intros p i c f. rewrite Hh, Hfd. intros H1 H2 H3 H4. destruct (decide (p = a)) as [->|Hpa].
    + destruct H1 as (x & Hx & _). rewrite (Hw i f x Hx H2) in H3. done.
    + rewrite Ho, decide_False in H4 by done. destruct (i_blank p i c f H1 H2 H3 H4) as [|Hb]; [left; set_solver|].
      destruct (decide (c = a)) as [->|]; [left; set_solver|right]. by rewrite Ho, decide_False.
  - intros p i. rewrite Ho. destruct (decide (p = a)) as [->|Hpa]; [by intros []%elem_of_empty|]. rewrite Hfd. apply i_present.
  - intros p n i. rewrite Hfd, Ho. destruct (decide (p = a)) as [->|Hpa]; [|apply i_oneofs].
    cbn. split; [by intros ?%lookup_empty_Some|]. intros (f & _ & _ & []%elem_of_empty).
  - done.
Qed.

(** *** New objects only *)

Record grows s s' : Prop := {
  g_len : (length (objects s) <= length (objects s'))%nat;
  g_old x : (x < length (objects s))%nat -> obj s' x = obj s x;
  g_new x : (length (objects s) <= x)%nat -> o_suspended (obj s' x) = 0%nat
}.

Lemma grows_refl s : grows s s.
Proof. split; [done|done|]. intros x Hx. by rewrite obj_none. Qed.

Lemma grows_trans s s1 s2 : grows s s1 -> grows s1 s2 -> grows s s2.
Proof.
  intros [] []. split; [lia|intros x Hx; rewrite g_old1 by lia; auto|].
  intros x Hx. destruct (decide (x < length (objects s1))%nat); [rewrite g_old1 by done|]; auto with lia.
Qed.

Lemma grows_alloc k s : grows s (alloc k s).2.
Proof.
  split; [rewrite length_alloc; lia|..]; intros x Hx; rewrite obj_alloc; case_decide; [lia|done|done|]. by rewrite obj_none.
Qed.

Lemma grows_calm D s s' : grows s s' -> calm D s -> calm D s'.
Proof.
  intros [] Hc b Hb. destruct (decide (b < length (objects s))%nat); [apply Hc; by rewrite <- g_old0|]. by rewrite g_new0 in Hb by lia.
Qed.

Lemma effect_calm D a s s' : effect a s s' -> calm D s -> calm D s'.
Proof.
  intros [] Hc b Hb. destruct (decide (b < length (objects s))%nat); [apply Hc; by rewrite <- e_susp|].
  by rewrite e_new in Hb by lia.
Qed.

Lemma grows_held s s' p i c : grows s s' -> ordered s' -> held s' p i c -> (c < length (objects s))%nat -> held s p i c.
Proof.
  intros [] Ho Hh Hc. pose proof (Ho _ _ _ Hh). destruct Hh as (x & Hx & Hin). rewrite g_old0 in Hx by lia. by exists x.
Qed.

Lemma grows_held_up s s' p i c : grows s s' -> held s p i c -> held s' p i c.
Proof.
  intros [] Hh. pose proof (held_alive _ _ _ _ Hh). destruct Hh as (x & Hx & Hin). exists x. by rewrite g_old0.
Qed.

Lemma grows_field s s' a i : grows s s' -> (a < length (objects s))%nat -> field_of s' a i = field_of s a i.
Proof. intros [] Ha. unfold field_of. by rewrite g_old0. Qed.

Lemma inv_pending D P P' O s : P ⊆ P' -> inv D P O s -> inv D P' O s.
Proof. intros Hs []. split; try done. intros c p i E. destruct (i_container c p i E) as [|[? ?]]; [by left|right]. set_solver. Qed.

Lemma local_intro a s0 s s' :
  (a < length (objects s0))%nat -> grows s0 s -> ordered s -> ordered s' -> length (objects s') = length (objects s) ->
  (forall p j c, held s' p j c -> held s p j c \/ (length (objects s0) <= c)%nat) ->
  (forall x, x <> a -> obj s' x = obj s x \/
     ((exists i, held s0 a i x) \/ (length (objects s0) <= x)%nat) /\ exists cb, obj s' x = _bind_mutation cb (obj s x)) ->
  o_cls (obj s' a) = o_cls (obj s a) -> o_mutation (obj s' a) = o_mutation (obj s a) ->
  o_suspended (obj s' a) = o_suspended (obj s a) -> local a s0 s'.
Proof.
  intros Ha Hg Ho Ho' Hl Hh Hx Hac Ham Has. pose proof Hg as [].
  assert (forall x, o_suspended (obj s' x) = o_suspended (obj s x)) as Hs.
  { intros x. destruct (decide (x = a)) as [->|Hne]; [done|]. destruct (Hx x Hne) as [->|[_ [cb ->]]]; done. }
  split.
  - done.
  - lia.
  - intros x Hx1. rewrite <- g_old0 by done. destruct (decide (x = a)) as [->|Hne]; [done|]. destruct (Hx x Hne) as [->|[_ [cb ->]]]; done.
  - intros p i c Hc Hlt. destruct (Hh p i c Hc) as [Hc1|?]; [|lia]. by eapply grows_held.
  - done.
  - by rewrite Ham, g_old0.
  - intros x Hx1. by rewrite Hs, g_old0.
  - intros x Hx1. rewrite Hs. auto.
  - intros x Hx1 Hn. rewrite <- g_old0 by done. destruct (Hx x) as [->|[[[i Hi]|?] _]]; [|done| |lia].
    + intros ->. apply Hn, rtc_refl.
    + destruct Hn. eapply rtc_l; [by exists i|apply rtc_refl].
Qed.

Lemma boxed_local D P Q s s1 a i f x gone :
  (a < length (objects s))%nat -> grows s s1 -> inv D (P ∪ Q) None s1 -> reboxes Q a i f x gone s1 ->
  (forall c, c ∈ Q -> (length (objects s) <= c)%nat) -> ordered (boxed a i x gone s1) -> local a s (boxed a i x gone s1).
Proof.
  intros Ha Hg I1 Hr Hnew Ho. assert (reboxes (P ∪ Q) a i f x gone s1) as Hr'.
  { destruct Hr. split; try done. intros c Hx. destruct (rb_refs0 c Hx) as [|(? & ? & ?)]; [by left|right]. set_solver. }
  pose proof Hr as []. apply (local_intro a s s1); [done|done|by eapply inv_ordered|done| | | |..].
  - unfold boxed. by rewrite length_upd, length_detach_all.
  - intros p j c. erewrite boxed_held by done. intros [[[= -> ->] [?|(? & _)]%rb_refs0]|[_ ?]]; auto.
  - intros y Hy. erewrite obj_boxed by done. rewrite decide_False by done. case_decide as Hin; [right|by left].
    split; [|by eexists]. apply rb_gone0 in Hin as [Hin _].
    destruct (decide (y < length (objects s))%nat); [left|right; lia]. exists i. eapply grows_held; [done|by eapply inv_ordered|done|done].
  - erewrite obj_boxed by done. by rewrite decide_True.
  - erewrite obj_boxed by done. by rewrite decide_True.
  - erewrite obj_boxed by done. by rewrite decide_True.
Qed.

Context (HS : schema_ok _).

(** Filling a container and telling the owners. *)
Lemma rebox_finish D P Q s s1 a i f x gone :
  inv D P None s -> calm D s -> absorbed s a \/ P = ∅ -> (a < length (objects s))%nat ->
  grows s s1 -> inv D (P ∪ Q) None s1 -> reboxes Q a i f x gone s1 -> Q ⊆ list_to_set (refs x) ->
  (forall c, c ∈ Q -> (length (objects s) <= c)%nat) ->
  exists s', _notify a (boxed a i x gone s1) = Ok s' /\ inv D P None s' /\ effect a s s' /\
    (o_suspended (obj s a) = 0%nat -> known a s').
Proof.
  intros Hi Hc Hq Ha Hg I1 Hr HQ Hnew. assert (reboxes (P ∪ Q) a i f x gone s1) as Hr'.
  { destruct Hr. split; try done. intros c Hx. destruct (rb_refs0 c Hx) as [|(? & ? & ?)]; [by left|right]. set_solver. }
  pose proof (boxed_ok _ _ _ _ _ _ _ _ I1 Hr') as I2. eapply finish; [done|done| |..].
  - eapply boxed_local; try done. by eapply inv_ordered.
  - eapply inv_pending; [|exact I2]. set_solver.
  - intros b Hb. apply (grows_calm _ _ _ Hg Hc). erewrite obj_boxed in Hb by done. repeat case_decide; subst; done.
  - done.
Qed.

End Work.
