(* ===== verification/MessageObjectsOps.v ===== *)
(** * The operations of messages and containers on the store *)
From stdpp Require Import gmap.
From S2P Require Import Prelude PyStr Json FieldMask Bytes Wire ValueCodec Metadata Message MessageInv MessageOps MessageObjects MessageObjectsInv MessageObjectsSteps MessageObjectsWork.

Section Ops.
Context `{Schema} (HS : schema_ok _).
Implicit Types (D P Q : gset nat) (O : option (nat * nat)) (s : store).

Abbreviation addrs := (fun l : list ref => l ≫= ref_addr).

Lemma addrs_perm (l l' : list ref) : l ≡ₚ l' -> addrs l ≡ₚ addrs l'.
Proof.
  induction 1 as [|v l l' _ IH|v w l|l1 l2 l3 _ IH1 _ IH2]; [done|..].
  - rewrite !bind_cons. by rewrite IH.
  - rewrite !bind_cons, !app_assoc. by rewrite (Permutation_app_comm (ref_addr w)).
  - by etrans.
Qed.

(** ** Prepared values *)

Record prepared (a i : nat) (c : codec) (vs : list ref) s s1 : Prop := {
  pr_grows : grows s s1;
  pr_refs b : b ∈ addrs vs -> (length (objects s) <= b < length (objects s1))%nat /\ o_mutation (obj s1 b) = ContainerChanged a i;
  pr_nodup : NoDup (addrs vs);
  pr_ok : Forall (ref_ok s1 c) vs
}.

(** Contents of a container: what is in the field and what was prepared is what
    will be there and what goes. *)
Lemma rebox_values D P s s1 a i f l l' vs gone x :
  inv D P None s1 -> (a < length (objects s))%nat -> field_of s1 a i = Some f -> singular f = false ->
  in_field s1 a i = addrs l -> NoDup (addrs l) -> prepared a i (codec_of f) vs s s1 -> ordered s1 ->
  (forall b, b ∈ addrs l -> (b < length (objects s))%nat) ->
  l' ++ gone ≡ₚ l ++ vs -> vs ⊆+ l' -> refs x = addrs l' -> box_ok s1 f x ->
  reboxes (list_to_set (addrs vs)) a i f x gone s1 /\ list_to_set (addrs vs) ⊆@{gset nat} list_to_set (refs x).
Proof.
  intros Hi Ha Hf Hs Hin Hnd [] Ho Hold Hp Hsub Hx Hb. pose proof (g_len _ _ pr_grows0).
  assert (addrs l' ++ addrs gone ≡ₚ addrs l ++ addrs vs) as Hpa by (rewrite <- !bind_app; by apply addrs_perm).
  assert (NoDup (addrs l' ++ addrs gone)) as Hnd'.
  { rewrite Hpa. apply NoDup_app. split_and!; [done| |done]. intros b Hb1%Hold Hb2%pr_refs0. lia. }
  apply NoDup_app in Hnd' as (Hn1 & Hdis & Hn2).
  assert (forall b, b ∈ addrs vs -> b ∈ addrs l') as Hvs.
  { intros b (v & Hv & Hbv)%list_elem_of_bind. apply list_elem_of_bind. exists v. split; [done|]. by eapply elem_of_submseteq. }
  assert (forall b, b ∈ addrs l' \/ b ∈ addrs gone <-> b ∈ addrs l \/ b ∈ addrs vs) as Hmem.
  { intros b. rewrite <- !elem_of_app. by rewrite Hpa. }
  split.
  - split.
    + lia.
    + done.
    + done.
    + done.
    + by rewrite Hx.
    + intros c. rewrite Hx. intros Hc. destruct (decide (c ∈ addrs vs)) as [Hv|Hv].
      * right. destruct (pr_refs0 c Hv). split; [by apply elem_of_list_to_set|]. split; [done|lia].
      * left. apply held_in_field. rewrite Hin. destruct (proj1 (Hmem c)); [by left|done|done].
    + intros c. rewrite Hx, held_in_field, Hin. split.
      * intros Hc. assert (c ∉ addrs l') as Hc' by (intros ?; by eapply Hdis). split; [|done].
        destruct (proj1 (Hmem c)) as [|Hv%Hvs]; [by right|done|done].
      * intros [Hc Hc']. destruct (proj2 (Hmem c)); [by left|done|done].
  - intros c. rewrite Hx, !elem_of_list_to_set. apply Hvs.
Qed.

(** ** The contents of containers *)

Lemma items_refs D P O s a i f :
  inv D P O s -> field_of s a i = Some f -> map_key_codec f = None -> repeated f = true ->
  in_field s a i = addrs (items s a i) /\ NoDup (addrs (items s a i)) /\ Forall (ref_ok s (codec_of f)) (items s a i).
Proof.
  intros Hi Hf Hk Hr. unfold in_field, items. destruct (o_values (obj s a) !! i) as [x|] eqn:Ex; [|by repeat constructor].
  destruct (i_box _ _ _ _ Hi _ _ _ Ex) as (Hn & g & Hg & Hb). assert (g = f) as -> by congruence.
  unfold box_ok in Hb. rewrite Hk in Hb. destruct x as [v|l|l]; [destruct Hb; congruence|by destruct Hb|done].
Qed.

Lemma entries_refs D P O s a i f kc :
  inv D P O s -> field_of s a i = Some f -> map_key_codec f = Some kc ->
  in_field s a i = addrs (entries s a i).*2 /\ NoDup (addrs (entries s a i).*2) /\
  Forall (ref_ok s (codec_of f)) (entries s a i).*2 /\ dict_wf (entries s a i).
Proof.
  intros Hi Hf Hk. unfold in_field, entries. destruct (o_values (obj s a) !! i) as [x|] eqn:Ex; [|by repeat constructor].
  destruct (i_box _ _ _ _ Hi _ _ _ Ex) as (Hn & g & Hg & Hb). assert (g = f) as -> by congruence.
  unfold box_ok in Hb. rewrite Hk in Hb. destruct x as [v|l|l]; [done|done|by destruct Hb].
Qed.

Lemma ref_ok_grows s s' c v : grows s s' -> (forall b, b ∈ ref_addr v -> (b < length (objects s))%nat) -> ref_ok s c v -> ref_ok s' c v.
Proof. intros [] Hb. destruct c, v; simpl; try done. intros <-. rewrite g_old; [done|]. apply Hb. left. Qed.

(** The result of an operation at [a] of the container of a field. *)
Definition done_at D P (a : nat) s (r : outcome store) : Prop :=
  exists s', r = Ok s' /\ inv D P None s' /\ effect a s s' /\ (o_suspended (obj s a) = 0%nat -> known a s').

Section At.
Context D P (s s1 : store) (a i : nat) (f : Field).
Context (Hi : inv D P None s) (Hc : calm D s) (Hq : absorbed s a \/ P = ∅).
Context (Ha : (a < length (objects s))%nat) (Hf : field_of s a i = Some f).

Lemma put_items_ok vs l' gone :
  map_key_codec f = None -> repeated f = true ->
  prepared a i (codec_of f) vs s s1 -> inv D (P ∪ list_to_set (addrs vs)) None s1 ->
  l' ++ gone ≡ₚ items s1 a i ++ vs -> vs ⊆+ l' ->
  done_at D P a s (put_items a i l' (detach_all gone s1)).
Proof.
  intros Hk Hr Hp I1 Hperm Hsub. pose proof (pr_grows _ _ _ _ _ _ Hp) as Hg. pose proof Hg as [].
  assert (field_of s1 a i = Some f) as Hf1 by (by erewrite grows_field).
  destruct (items_refs _ _ _ _ _ _ _ I1 Hf1 Hk Hr) as (Hin & Hnd & Hall).
  assert (singular f = false) as Hs by (unfold singular; by rewrite Hr, andb_false_r).
  destruct (rebox_values _ _ s s1 a i f (items s1 a i) l' vs gone (RItems l') I1 Ha Hf1 Hs Hin Hnd Hp) as [Hrb Hsubs].
  - by eapply inv_ordered.
  - intros b. rewrite <- Hin. intros Hb%held_in_field. assert (held s a i b) as Hb'.
    { destruct Hb as (x & Hx & Hb). rewrite g_old in Hx by done. by exists x. }
    by apply (i_held _ _ _ _ Hi) in Hb' as [_ ?].
  - done.
  - done.
  - done.
  - unfold box_ok. rewrite Hk. split; [done|]. enough (Forall (ref_ok s1 (codec_of f)) (l' ++ gone)) as [? _]%Forall_app by done.
    rewrite Hperm. apply Forall_app. split; [done|].
    by apply (pr_ok _ _ _ _ _ _ Hp).
  - eapply rebox_finish; try done. intros c Hc1%elem_of_list_to_set. by apply (pr_refs _ _ _ _ _ _ Hp).
Qed.

Lemma put_entries_ok kc vs l' gone :
  map_key_codec f = Some kc ->
  prepared a i (codec_of f) vs s s1 -> inv D (P ∪ list_to_set (addrs vs)) None s1 ->
  l'.*2 ++ gone ≡ₚ (entries s1 a i).*2 ++ vs -> vs ⊆+ l'.*2 -> dict_wf l' ->
  done_at D P a s (put_entries a i l' (detach_all gone s1)).
Proof.
  intros Hk Hp I1 Hperm Hsub Hwf. pose proof (pr_grows _ _ _ _ _ _ Hp) as Hg. pose proof Hg as [].
  assert (field_of s1 a i = Some f) as Hf1 by (by erewrite grows_field).
  destruct (entries_refs _ _ _ _ _ _ _ _ I1 Hf1 Hk) as (Hin & Hnd & Hall & _).
  assert (singular f = false) as Hs by (unfold singular, map_field; by rewrite Hk).
  destruct (rebox_values _ _ s s1 a i f (entries s1 a i).*2 l'.*2 vs gone (REntries l') I1 Ha Hf1 Hs Hin Hnd Hp) as [Hrb Hsubs].
  - by eapply inv_ordered.
  - intros b. rewrite <- Hin. intros Hb%held_in_field. assert (held s a i b) as Hb'.
    { destruct Hb as (x & Hx & Hb). rewrite g_old in Hx by done. by exists x. }
    by apply (i_held _ _ _ _ Hi) in Hb' as [_ ?].
  - done.
  - done.
  - done.
  - unfold box_ok. rewrite Hk. split; [done|]. enough (Forall (ref_ok s1 (codec_of f)) (l'.*2 ++ gone)) as [? _]%Forall_app by done.
    rewrite Hperm. apply Forall_app. split; [done|].
    by apply (pr_ok _ _ _ _ _ _ Hp).
  - eapply rebox_finish; try done. intros c Hc1%elem_of_list_to_set. by apply (pr_refs _ _ _ _ _ _ Hp).
Qed.

End At.

Lemma nothing_prepared a i c s : prepared a i c [] s s.
Proof. split; [apply grows_refl|by intros b ?%not_elem_of_nil|apply NoDup_nil_2|constructor]. Qed.

(** ** Clearing *)

(** An operation at [a], which need not notify. *)
Definition acts D P (a : nat) s (r : outcome store) : Prop := exists s', r = Ok s' /\ inv D P None s' /\ effect a s s'.

Lemma done_acts D P a s r : done_at D P a s r -> acts D P a s r.
Proof. intros (s' & ? & ? & ? & _). by exists s'. Qed.

Lemma acts_nothing D P a s : inv D P None s -> (a < length (objects s))%nat -> acts D P a s (Ok s).
Proof. intros Hi Ha. exists s. split_and!; [done..|]. apply effect_refl; [done|by eapply inv_ordered]. Qed.

Lemma cleared_local D P O s a i f :
  inv D P O s -> (a < length (objects s))%nat -> field_of s a i = Some f -> singular f = true -> O <> Some (a, i) ->
  local a s (cleared a i f s).
Proof.
  intros Hi Ha Hf Hs HO. pose proof (cleared_ok _ _ _ _ _ _ _ Hi Ha Hf Hs HO) as I1.
  destruct (drop_parts i f (obj s a)) as (Dc & Dv & Dp & Du & Dm & Ds).
  apply (local_intro a s s); [done|apply grows_refl|by eapply inv_ordered|by eapply inv_ordered| | | |..].
  - unfold cleared. by rewrite length_upd, length_detach_child.
  - intros p j c. erewrite cleared_held by done. intros [? _]. by left.
  - intros x Hx. erewrite obj_cleared by done. rewrite decide_False by done. case_decide as Hin; [right|by left].
    split; [left; exists i; by apply held_in_field|by eexists].
  - erewrite obj_cleared by done. by rewrite decide_True.
  - erewrite obj_cleared by done. by rewrite decide_True.
  - erewrite obj_cleared by done. by rewrite decide_True.
Qed.

Lemma clear_box_ok D P s a i f :
  inv D P None s -> calm D s -> absorbed s a \/ P = ∅ -> (a < length (objects s))%nat -> field_of s a i = Some f ->
  singular f = false -> acts D P a s (clear_box _notify a i s).
Proof.
  intros Hi Hc Hq Ha Hf Hs. unfold clear_box. destruct (o_values (obj s a) !! i) as [x|] eqn:Ex; [|by apply acts_nothing].
  destruct (i_box _ _ _ _ Hi _ _ _ Ex) as (_ & g & Hg & Hb). assert (g = f) as -> by congruence. unfold box_ok in Hb.
  assert (inv D (P ∪ list_to_set (addrs [])) None s) as Hi' by (eapply inv_pending; [|exact Hi]; set_solver).
  destruct x as [v|[|v l]|[|e l]]; try (by apply acts_nothing); destruct (map_key_codec f) as [kc|] eqn:Ek; try done.
  - apply done_acts. destruct Hb as [Hr _].
    eapply (put_items_ok D P s s a i f Hi Hc Hq Ha Hf [] [] (v :: l)); try done; [apply nothing_prepared|].
    unfold items. rewrite Ex. by rewrite app_nil_r.
  - apply done_acts.
    eapply (put_entries_ok D P s s a i f Hi Hc Hq Ha Hf kc [] [] (e :: l).*2); try done; [apply nothing_prepared| |apply NoDup_nil_2].
    unfold entries. rewrite Ex. by rewrite app_nil_r.
Qed.

Lemma container_flag f : map_field f || repeated f = negb (singular f).
Proof. unfold singular. by destruct (map_field f), (repeated f). Qed.

Lemma obj_clear_state_ok D P s a i f :
  inv D P None s -> calm D s -> absorbed s a \/ P = ∅ -> (a < length (objects s))%nat -> field_of s a i = Some f ->
  acts D P a s (_clear_state _notify a i f s).
Proof.
  intros Hi Hc Hq Ha Hf. unfold _clear_state. rewrite container_flag. destruct (singular f) eqn:Hs; cbn [negb]; [|by eapply clear_box_ok].
  fold (cleared a i f s). exists (cleared a i f s). split; [done|]. split; [by apply cleared_ok|]. by eapply local_effect, cleared_local.
Qed.

(** The singular fields after clearing one field of a suspended message. *)
Lemma clear_state_values D P s a i f s' j g :
  inv D P None s -> o_suspended (obj s a) <> 0%nat -> (a < length (objects s))%nat -> field_of s a i = Some f ->
  _clear_state _notify a i f s = Ok s' -> field_of s a j = Some g -> singular g = true ->
  o_values (obj s' a) !! j = if decide (j = i) then None else o_values (obj s a) !! j.
Proof.
  intros Hi Hsu Ha Hf He Hg Hsg. unfold _clear_state in He. rewrite container_flag in He. destruct (singular f) eqn:Hs; cbn [negb] in He.
  - injection He as <-. fold (cleared a i f s). erewrite obj_cleared by done. rewrite decide_True by done.
    destruct (drop_parts i f (obj s a)) as (_ & -> & _). case_decide as Ej; [subst; apply lookup_delete_eq|by apply lookup_delete_ne].
  - assert (j <> i) as Hji by congruence. rewrite decide_False by done.
    assert (forall l x s1, (forall y, obj s1 y = obj s y \/ exists cb, obj s1 y = _bind_mutation cb (obj s y)) -> length (objects s1) = length (objects s) ->
      l = upd a (put i x) s1 -> _notify a l = Ok s' -> o_values (obj s' a) !! j = o_values (obj s a) !! j) as Hput.
    { intros l x s1 Hy Hl -> E. unfold _notify in E. rewrite notify_suspended in E.
      - injection E as <-. rewrite obj_upd, decide_True by (done || lia). unfold put. cbn [o_values set_values].
        rewrite lookup_insert_ne by done. destruct (Hy a) as [->|[cb ->]]; done.
      - rewrite obj_upd, decide_True by (done || lia). unfold put. cbn [o_suspended set_values]. destruct (Hy a) as [->|[cb ->]]; done. }
    assert (forall l y, (forall c, c ∈ addrs l -> held s a i c) -> obj (detach_all l s) y = obj s y \/ exists cb, obj (detach_all l s) y = _bind_mutation cb (obj s y)) as Hd.
    { intros l y Hl. rewrite obj_detach_all; [case_decide; eauto|]. intros c Hc%Hl. by apply (i_held _ _ _ _ Hi) in Hc as [_ ?]. }
    unfold clear_box in He. destruct (o_values (obj s a) !! i) as [[v|[|v l]|[|e l]]|] eqn:Ex; try (by injection He as <-).
    + eapply Hput; [|apply length_detach_all|reflexivity|exact He]. intros y. apply Hd. intros c Hc. eexists. split; [exact Ex|done].
    + eapply Hput; [|apply length_detach_all|reflexivity|exact He]. intros y. apply Hd. intros c Hc. eexists. split; [exact Ex|done].
Qed.

Lemma clear_index_ok D P s a i :
  inv D P None s -> calm D s -> absorbed s a \/ P = ∅ -> (a < length (objects s))%nat -> acts D P a s (clear_index _notify a i s).
Proof.
  intros Hi Hc Hq Ha. unfold clear_index. destruct (field_of s a i) as [f|] eqn:Hf; [by apply obj_clear_state_ok|by apply acts_nothing].
Qed.

Lemma clear_loop D P (L : list (nat * box)) s a :
  inv D P None s -> calm D s -> o_suspended (obj s a) <> 0%nat -> (a < length (objects s))%nat ->
  exists s', loop (fun s '(i, _) => clear_index _notify a i s) L s = Ok s' /\ inv D P None s' /\ effect a s s' /\
    (forall i f, field_of s a i = Some f -> singular f = true -> o_values (obj s a) !! i = None \/ i ∈ L.*1 ->
       o_values (obj s' a) !! i = None).
Proof.
  revert s. induction L as [|[k x] L IH]; intros s Hi Hc Hs Ha.
  - exists s. split; [done|]. split; [done|]. split; [apply effect_refl; [done|by eapply inv_ordered]|].
    intros i f _ _ [?|?%not_elem_of_nil]; done.
  - destruct (clear_index_ok D P s a k) as (s1 & E1 & I1 & F1); [done..|by left; left|done|]. cbn [loop]. rewrite E1. cbn [mbind result_bind].
    pose proof (e_susp _ _ _ F1 a Ha) as Hs1. pose proof (e_cls _ _ _ F1 a Ha) as Hcl.
    destruct (IH s1) as (s2 & E2 & I2 & F2 & V2); [done|by eapply effect_calm|by rewrite Hs1|pose proof (e_len _ _ _ F1); lia|].
    exists s2. split; [done|]. split; [done|]. split; [eapply effect_trans; [by eapply inv_ordered|done|done]|].
    intros i f Hf Hsf Hor. apply (V2 i f); [unfold field_of; by rewrite Hcl|done|].
    unfold clear_index in E1. destruct (field_of s a k) as [g|] eqn:Hg.
    + rewrite (clear_state_values _ _ _ _ _ _ _ _ _ Hi Hs Ha Hg E1 Hf Hsf). case_decide as Eik; [by left|].
      destruct Hor as [?|Hin]; [by left|right]. cbn in Hin. by apply elem_of_cons in Hin as [->|?].
    + injection E1 as <-. destruct Hor as [?|Hin]; [by left|]. cbn in Hin. apply elem_of_cons in Hin as [->|?]; [congruence|by right].
Qed.

(** Work on a message whose notifications are suspended, and then no more. *)
Lemma local_suspended a s s1 s2 :
  (a < length (objects s))%nat -> local a (suspend a s) s1 -> length (objects s2) = length (objects s1) ->
  (forall x, x <> a -> obj s2 x = obj s1 x) -> o_cls (obj s2 a) = o_cls (obj s1 a) -> o_values (obj s2 a) = o_values (obj s1 a) ->
  o_mutation (obj s2 a) = o_mutation (obj s1 a) -> o_suspended (obj s2 a) = pred (o_suspended (obj s1 a)) -> local a s s2.
Proof.
  intros Ha [] Hl Hx H1 H2 H3 H4.
  assert (forall x, obj (suspend a s) x = if decide (x = a) then set_suspended (S (o_suspended (obj s a))) (obj s a) else obj s x) as Ho.
  { intros x. unfold suspend. by rewrite obj_upd. }
  assert (forall x, o_cls (obj (suspend a s) x) = o_cls (obj s x)) as S1 by (intros x; rewrite Ho; case_decide; by subst).
  assert (forall x, o_values (obj (suspend a s) x) = o_values (obj s x)) as S2 by (intros x; rewrite Ho; case_decide; by subst).
  assert (forall p i c, held (suspend a s) p i c <-> held s p i c) as Sh by (intros; unfold held; by rewrite S2).
  assert (forall p i c, held s2 p i c <-> held s1 p i c) as Sh2.
  { intros p i c. unfold held. destruct (decide (p = a)) as [->|]; [by rewrite H2|by rewrite Hx]. }
  assert (length (objects (suspend a s)) = length (objects s)) as Hls by apply length_upd. rewrite Hls in *. split.
  - done.
  - lia.
  - intros x Hx1. rewrite <- S1, <- l_cls by done. destruct (decide (x = a)) as [->|]; [done|by rewrite Hx].
  - intros p i c Hc%Sh2 Hc1. by apply Sh, l_held.
  - intros p i c Hc%Sh2. by eapply l_order.
  - rewrite H3, l_self, Ho. by rewrite decide_True.
  - intros x Hx1. destruct (decide (x = a)) as [->|Hne]; [rewrite H4, l_susp, Ho by done; by rewrite decide_True|].
    rewrite Hx, l_susp, Ho by done. by rewrite decide_False.
  - intros x Hx1. rewrite Hx by lia. auto.
  - intros x Hx1 Hn. assert (x <> a) by (intros ->; apply Hn, rtc_refl). rewrite Hx by done. rewrite l_keep; [by rewrite Ho, decide_False|done|].
    intros Hb. apply Hn. revert Hb. apply rtc_subrel. intros p c [i Hi]. exists i. by apply Sh.
Qed.

Lemma obj_suspend a s x :
  (a < length (objects s))%nat ->
  obj (suspend a s) x = if decide (x = a) then set_suspended (S (o_suspended (obj s a))) (obj s a) else obj s x.
Proof. intros Ha. unfold suspend. by rewrite obj_upd. Qed.

Lemma suspend_ok D P O s a : (a < length (objects s))%nat -> inv D P O s -> inv D P O (suspend a s).
Proof.
  intros Ha. apply inv_ext; [apply length_upd|..]; intros x; rewrite obj_suspend by done; case_decide; by subst.
Qed.

Lemma suspend_calm D s a : (a < length (objects s))%nat -> calm D s -> calm ({[a]} ∪ D) (suspend a s).
Proof. intros Ha Hc b. rewrite obj_suspend by done. case_decide; subst; [set_solver|]. intros ?%Hc. set_solver. Qed.

(** The end of suspended work at [a], and the notification. *)
Lemma resume_finish D P s s1 s2 a :
  inv D P None s -> calm D s -> absorbed s a \/ P = ∅ -> (a < length (objects s))%nat ->
  local a (suspend a s) s1 -> inv ({[a]} ∪ D) P None s2 -> length (objects s2) = length (objects s1) ->
  (forall x, x <> a -> obj s2 x = obj s1 x) -> o_cls (obj s2 a) = o_cls (obj s1 a) -> o_values (obj s2 a) = o_values (obj s1 a) ->
  o_mutation (obj s2 a) = o_mutation (obj s1 a) -> o_suspended (obj s2 a) = pred (o_suspended (obj s1 a)) ->
  done_at D P a s (_notify a s2).
Proof.
  intros Hi Hc Hq Ha HL I2 Hl Hx H1 H2 H3 H4. pose proof (local_suspended _ _ _ _ Ha HL Hl Hx H1 H2 H3 H4) as HL2.
  eapply finish; try done. by eapply effect_calm; [apply local_effect|].
Qed.

Lemma length_fresh_mask a s : length (objects (fresh_mask a s)) = length (objects s).
Proof. apply length_alter. Qed.

Lemma obj_Clear_ok D P s a :
  inv D P None s -> calm D s -> absorbed s a \/ P = ∅ -> (a < length (objects s))%nat -> done_at D P a s (Clear a s).
Proof.
  intros Hi Hc Hq Ha. unfold Clear. pose proof (suspend_ok _ _ _ _ _ Ha Hi) as I0. pose proof (suspend_calm _ _ _ Ha Hc) as C0.
  assert (length (objects (suspend a s)) = length (objects s)) as Hl0 by apply length_upd.
  assert (o_suspended (obj (suspend a s) a) <> 0%nat) as Hs0 by (by rewrite obj_suspend, decide_True).
  apply (inv_weaken _ ({[a]} ∪ D)) in I0; [|set_solver].
  destruct (clear_loop _ _ (map_to_list (o_values (obj s a))) _ a I0 C0 Hs0 ltac:(lia)) as (s1 & -> & I1 & F1 & V1).
  cbn [mbind result_bind]. pose proof (e_len _ _ _ F1). assert (a < length (objects s1))%nat as Ha1 by lia.
  assert (inv ({[a]} ∪ D) P None (upd a wipe s1)) as I2.
  { assert ({[a]} ∪ D = {[a]} ∪ ({[a]} ∪ D)) as -> by set_solver. apply wipe_ok; [done..|]. intros i f x Hx Hf.
    destruct (singular f) eqn:Hsf; [|done]. rewrite (V1 i f) in Hx; [done| |done|].
    - unfold field_of in *. by rewrite <- (e_cls _ _ _ F1) by lia.
    - rewrite obj_suspend, decide_True by done. cbn [o_values set_suspended].
      destruct (o_values (obj s a) !! i) as [y|] eqn:Ey; [right|by left]. apply list_elem_of_fmap. exists (i, y).
      split; [done|]. by apply elem_of_map_to_list. }
  set (s2 := resume a (fresh_mask a (upd a wipe s1))).
  assert (forall x, obj s2 x = if decide (x = a) then set_suspended (pred (o_suspended (obj s1 a))) (set_mask (length (masks s1)) (wipe (obj s1 a))) else obj s1 x) as Ho.
  { intros x. unfold s2, resume. rewrite obj_upd by (by rewrite length_fresh_mask, length_upd).
    assert (forall y, obj (fresh_mask a (upd a wipe s1)) y = if decide (y = a) then set_mask (length (masks s1)) (wipe (obj s1 a)) else obj s1 y) as Hm.
    { intros y. unfold fresh_mask. rewrite obj_upd by (cbn; by rewrite length_alter).
      change (obj (mkStore (objects (upd a wipe s1)) _)) with (obj (upd a wipe s1)). rewrite !obj_upd by done. rewrite (decide_True _ _ (eq_refl a)). case_decide; [done|]. done. }
    rewrite !Hm, (decide_True _ _ (eq_refl a)). by repeat case_decide. }
  eapply (resume_finish D P s s1); try done.
  - apply effect_is_local; [by left|done].
  - eapply inv_ext; [..|exact I2].
    + unfold s2, resume. by rewrite length_upd, length_fresh_mask.
    + intros x. rewrite Ho, obj_upd by done. by case_decide.
    + intros x. rewrite Ho, obj_upd by done. by case_decide.
  - unfold s2, resume. by rewrite length_upd, length_fresh_mask, length_upd.
  - intros x Hx. by rewrite Ho, decide_False.
  - by rewrite Ho, decide_True.
  - by rewrite Ho, decide_True.
  - by rewrite Ho, decide_True.
  - by rewrite Ho, decide_True.
Qed.

(** ** Copying *)

(** What an operation at [a] does when it returns. *)
Definition good D P (a : nat) s (r : outcome store) : Prop := forall s', r = Ok s' -> inv D P None s' /\ effect a s s'.

Lemma acts_good D P a s r : acts D P a s r -> good D P a s r.
Proof. intros (s' & -> & ? & ?) s'' [= <-]. done. Qed.

Lemma normalize_ok s c v v' : normalize s c v = Ok v' -> ref_ok s c v' /\ forall b, b ∈ ref_addr v' -> b ∈ ref_addr v.
Proof.
  unfold normalize. destruct v as [x|a]; (destruct (normalize_value c _) as [w|] eqn:E; [|done]); cbn [lift mbind result_bind];
    intros [= <-]; (split; [|destruct w; intros b Hb; [by apply not_elem_of_nil in Hb|done]]).
  - destruct c as [ic| | | | |k]; cbn in E; unfold coerce in E; destruct w; try done; repeat case_match; done.
  - destruct c as [ic| | | | |k]; cbn in E; unfold coerce in E; destruct w; try done; try (repeat case_match; done).
Qed.

Definition merges (mf : nat -> nat -> store -> outcome store) : Prop :=
  forall D P s a b, inv D P None s -> calm D s -> absorbed s a \/ P = ∅ -> (a < length (objects s))%nat ->
    (b < length (objects s))%nat -> good D P a s (mf a b s).

(** A fresh value: its message is new and nobody's. *)
Definition fresh s s' (v : ref) : Prop :=
  forall b, b ∈ ref_addr v -> (length (objects s) <= b < length (objects s'))%nat /\ o_mutation (obj s' b) = Unbound.

(** An operation at a new object leaves the others alone. *)
Lemma fresh_effect s s1 s' a : grows s s1 -> ordered s1 -> (length (objects s) <= a)%nat -> absorbed s1 a -> effect a s1 s' -> grows s s'.
Proof.
  intros Hg Ho Ha Hab He. pose proof Hg as []. pose proof (e_len _ _ _ He). split; [lia|..].
  - intros x Hx. rewrite (e_local _ _ _ He); [auto|done|lia|]. intros ?%below_le; [lia|done].
  - intros x Hx. destruct (decide (x < length (objects s1))%nat); [rewrite (e_susp _ _ _ He) by done; auto|]. apply (e_new _ _ _ He). lia.
Qed.

Lemma copy_ok mf D P s c v v' s' :
  merges mf -> inv D P None s -> calm D s -> ref_ok s c v -> (forall b, b ∈ ref_addr v -> (b < length (objects s))%nat) ->
  copy mf c v s = Ok (v', s') -> inv D P None s' /\ grows s s' /\ ref_ok s' c v' /\ fresh s s' v'.
Proof.
  intros Hmf Hi Hc Hv Hb. unfold copy. destruct c as [ic| | | | |k], v as [x|b]; try done;
    try (intros [= <- <-]; split_and!; [done|apply grows_refl|done|by intros ? ?%not_elem_of_nil]).
  cbn. set (s1 := mkStore _ _). change s1 with (alloc k s).2. clear s1. set (s1 := (alloc k s).2). set (a := length (objects s)).
  assert (length (objects s1) = S a) as Hl1 by apply length_alloc. assert (b < a)%nat as Hba by (apply Hb; left).
  assert (obj s1 a = mkObject k ∅ ∅ ∅ [] Unbound 0 (length (masks s)) 0) as Ho1 by (unfold s1; by rewrite obj_alloc, decide_True).
  pose proof (alloc_ok _ _ _ k _ Hi) as I1. fold s1 in I1. pose proof (grows_alloc k s) as G1. fold s1 in G1.
  assert (absorbed s1 a) as A1 by (right; by rewrite Ho1).
  destruct (negb _); [done|]. destruct (obj_Clear_ok D P s1 a I1) as (s2 & -> & I2 & F2 & _); [by eapply grows_calm|by left|lia|].
  cbn [mbind result_bind]. destruct (mf a b s2) as [s3|] eqn:E3; [|done]. intros [= <- <-].
  pose proof (e_len _ _ _ F2). pose proof (effect_absorbed _ _ _ (inv_ordered _ _ _ _ I1) F2 A1) as A2.
  destruct (Hmf D P s2 a b) with s3 as [I3 F3]; [done|eapply effect_calm; [done|by eapply grows_calm]|by left|lia|lia|done|].
  pose proof (effect_trans _ _ _ _ (inv_ordered _ _ _ _ I1) F2 F3) as F. split; [done|].
  split; [eapply fresh_effect; [done|by eapply inv_ordered| |exact A1|done]; done|]. split.
  - simpl. rewrite (e_cls _ _ _ F) by lia. by rewrite Ho1.
  - intros ? ->%list_elem_of_singleton. pose proof (e_len _ _ _ F). split; [lia|]. rewrite (e_self _ _ _ F). by rewrite Ho1.
Qed.

Lemma pending_ok D P s a i c :
  inv D P None s -> loose s c -> (a < c)%nat ->
  inv D ({[c]} ∪ P) None (bind_mutation (RM c) (ContainerChanged a i) s).
Proof.
  intros Hi [Hl Hin] Hac. set (s' := bind_mutation _ _ _).
  assert (forall x, obj s' x = if decide (x = c) then _bind_mutation (ContainerChanged a i) (obj s c) else obj s x) as Ho by (intros; by apply obj_upd).
  assert (forall x, content (obj s' x) = content (obj s x)) as Hc by (intros x; rewrite Ho; case_decide; by subst).
  assert (forall p j, ~ held s p j c) as Hfree.
  { intros p j Hh. destruct (i_link _ _ _ _ Hi _ _ _ Hh) as (g & _ & [E|[? _]]); [|done]. rewrite E in Hin. unfold link in Hin. by destruct (singular g). }
  assert (forall x, o_cls (obj s' x) = o_cls (obj s x)) as C1 by (intros x; specialize (Hc x); by injection Hc).
  assert (forall x, o_values (obj s' x) = o_values (obj s x)) as C2 by (intros x; specialize (Hc x); by injection Hc).
  assert (forall x, o_present (obj s' x) = o_present (obj s x)) as C3 by (intros x; specialize (Hc x); by injection Hc).
  assert (forall x, o_oneofs (obj s' x) = o_oneofs (obj s x)) as C4 by (intros x; specialize (Hc x); by injection Hc).
  assert (forall p i, field_of s' p i = field_of s p i) as C6 by (intros; unfold field_of; by rewrite C1).
  assert (forall p i c, held s' p i c <-> held s p i c) as C7 by (intros; unfold held; by rewrite C2).
  destruct Hi. split.
  - intros p j x Hx%C7. unfold s'. rewrite length_bind. by apply (i_held p j x).
  - intros p j x Hx%C7. rewrite C6, Ho. rewrite decide_False by (intros ->; by eapply Hfree). by apply i_link.
  - intros x p j. rewrite C7, Ho. case_decide; [done|]. apply i_child.
  - intros x p j. rewrite C7, Ho. case_decide; [intros [= <- <-]; right; set_solver|]. intros [|[? ?]]%i_container; [by left|right; set_solver].
  - intros p j x. rewrite C2, C6. intros (? & f & ? & ?)%i_box. split; [done|]. exists f. split; [done|].
    eapply box_ok_ext; [|done]. intros b _. apply C1.
  - intros p j x f Hx%C7. rewrite C6, C3, Ho. rewrite decide_False by (intros ->; by eapply Hfree). by apply i_blank.
  - intros p j. rewrite C3, C6, C2. apply i_present.
  - intros p n j. rewrite C4, C6, C3. apply i_oneofs.
  - done.
Qed.

Lemma obj_prepare_ok mf D P s a i c v v' s' :
  merges mf -> inv D P None s -> calm D s -> (a < length (objects s))%nat -> (forall b, b ∈ ref_addr v -> (b < length (objects s))%nat) ->
  _prepare mf a i c v s = Ok (v', s') -> prepared a i c [v'] s s' /\ inv D (P ∪ list_to_set (addrs [v'])) None s'.
Proof.
  intros Hmf Hi Hc Ha Hb. unfold _prepare. destruct (normalize s c v) as [w|] eqn:En; [|done]. cbn [mbind result_bind].
  apply normalize_ok in En as [Hw Hsub]. destruct (copy mf c w s) as [[w' s1]|] eqn:Ec; [|done]. intros [= <- <-].
  destruct (copy_ok _ _ _ _ _ _ _ _ Hmf Hi Hc Hw (fun b Hin => Hb b (Hsub b Hin)) Ec) as (I1 & G1 & R1 & F1).
  rewrite bind_singleton. destruct w' as [x|b].
  - split; [|eapply inv_pending; [|exact I1]; set_solver]. split; [done|by intros ? ?%not_elem_of_nil|apply NoDup_nil_2|by constructor].
  - destruct (F1 b) as [Hb1 Hm1]; [left|]. assert (loose s1 b) as Hlo by (split; [lia|by rewrite Hm1]). split; [split|].
    + destruct G1. split; [by rewrite length_bind| |].
      * intros x Hx. rewrite obj_bind by (intros ? ->%list_elem_of_singleton; lia). rewrite decide_False; [auto|]. intros ->%list_elem_of_singleton. lia.
      * intros x Hx. rewrite obj_bind by (intros ? ->%list_elem_of_singleton; lia). case_decide; [cbn|]; auto.
    + rewrite length_bind. intros ? ->%list_elem_of_singleton. split; [done|].
      rewrite obj_bind by (intros ? ->%list_elem_of_singleton; lia). by rewrite decide_True by left.
    + apply NoDup_singleton.
    + constructor; [|constructor]. revert R1. unfold ref_ok. destruct c; try done. intros <-.
      rewrite obj_bind by (intros ? ->%list_elem_of_singleton; lia). by rewrite decide_True by left.
    + eapply inv_pending; [|apply (pending_ok D P s1 a i b I1 Hlo)]; [set_solver|lia].
Qed.

Lemma prepared_cons a i c w ws s s1 s2 : prepared a i c [w] s s1 -> prepared a i c ws s1 s2 -> prepared a i c (w :: ws) s s2.
Proof.
  intros [G1 R1 N1 K1] [G2 R2 N2 K2]. pose proof G1 as []. pose proof G2 as [L2 O2 _]. rewrite bind_singleton in *. split.
  - by eapply grows_trans.
  - intros b. rewrite bind_cons. intros [Hin|Hin]%elem_of_app.
    + destruct (R1 b Hin). split; [lia|]. rewrite O2 by lia. done.
    + destruct (R2 b Hin). split; [lia|done].
  - rewrite bind_cons. apply NoDup_app. split_and!; [done| |done]. intros b Hin1%R1 Hin2%R2. lia.
  - constructor; [|done]. inversion K1 as [|? ? Hk _]; subst. eapply ref_ok_grows; [exact G2| |done]. intros b Hin%R1. lia.
Qed.

Lemma prepare_all_ok mf D P s a i c vs vs' s' :
  merges mf -> inv D P None s -> calm D s -> (a < length (objects s))%nat -> (forall b, b ∈ addrs vs -> (b < length (objects s))%nat) ->
  prepare_all mf a i c vs s = Ok (vs', s') -> prepared a i c vs' s s' /\ inv D (P ∪ list_to_set (addrs vs')) None s'.
Proof.
  intros Hmf. revert P s vs'. induction vs as [|v vs IH]; intros P s vs' Hi Hc Ha Hb; cbn [prepare_all].
  { intros [= <- <-]. split; [apply nothing_prepared|]. eapply inv_pending; [|exact Hi]. set_solver. }
  rewrite bind_cons in Hb. destruct (_prepare mf a i c v s) as [[w s1]|] eqn:E1; [|done]. cbn [mbind result_bind].
  destruct (prepare_all mf a i c vs s1) as [[ws s2]|] eqn:E2; [|done]. intros [= <- <-].
  destruct (obj_prepare_ok _ _ _ _ _ _ _ _ _ _ Hmf Hi Hc Ha (fun b Hin => Hb b (proj2 (elem_of_app _ _ _) (or_introl Hin))) E1) as [P1 I1].
  pose proof (pr_grows _ _ _ _ _ _ P1) as G1. pose proof G1 as [].
  destruct (IH _ s1 ws I1) as [P2 I2]; [by eapply grows_calm|lia| |done|].
  { intros b Hin. assert (b < length (objects s))%nat; [apply Hb; set_solver|lia]. }
  split; [by eapply prepared_cons|]. rewrite bind_singleton in *.
  rewrite bind_cons. eapply inv_pending; [|exact I2]. set_solver.
Qed.

Lemma bind_values v cb s x : o_values (obj (bind_mutation v cb s) x) = o_values (obj s x).
Proof.
  destruct v as [y|c]; [done|]. unfold obj. cbn. destruct (decide (x = c)) as [->|]; [|by rewrite list_lookup_alter_ne].
  rewrite list_lookup_alter_eq. by destruct (objects s !! c).
Qed.

(** ** Containers, with [MergeFrom] for the copies *)

Section Copying.
Context (mf : nat -> nat -> store -> outcome store) (Hmf : merges mf).
Context D P s (a i : nat) (f : Field) (Hi : inv D P None s) (Hc : calm D s) (Hq : absorbed s a \/ P = ∅).
Context (Ha : (a < length (objects s))%nat) (Hf : field_of s a i = Some f).

Lemma extend_ok vs :
  map_key_codec f = None -> repeated f = true -> (forall b, b ∈ addrs vs -> (b < length (objects s))%nat) ->
  good D P a s (extend mf a i f vs s).
Proof.
  intros Hk Hr Hb s'. unfold extend. destruct (prepare_all mf a i (codec_of f) vs s) as [[ws s1]|] eqn:E; [|done]. cbn [mbind result_bind].
  destruct (prepare_all_ok _ _ _ _ _ _ _ _ _ _ Hmf Hi Hc Ha Hb E) as [P1 I1]. destruct ws as [|w ws].
  - intros [= <-]. split; [eapply inv_pending; [|exact I1]; set_solver|]. apply local_effect.
    apply (local_intro a s s1); try done; [apply P1|by eapply inv_ordered|by eapply inv_ordered|auto|auto].
  - revert s'. apply acts_good, done_acts.
    apply (put_items_ok D P s s1 a i f Hi Hc Hq Ha Hf (w :: ws) (items s1 a i ++ w :: ws) []); try done.
    + by rewrite app_nil_r.
    + by apply submseteq_inserts_l.
Qed.

Lemma dict_set_perm (es : list (scalar * ref)) k v :
  (dict_set es k v).*2 ++ option_list (dict_get es k) ≡ₚ es.*2 ++ [v].
Proof.
  induction es as [|[k' v'] es IH]; [done|]. cbn [dict_set dict_get]. case_decide; subst.
  - cbn. rewrite (Permutation_app_comm es.*2 [v']), (Permutation_app_comm es.*2 [v]). cbn. apply Permutation_swap.
  - cbn. by rewrite IH.
Qed.

Lemma dict_set_in (es : list (scalar * ref)) k v : [v] ⊆+ (dict_set es k v).*2.
Proof.
  rewrite singleton_submseteq_l. apply list_elem_of_fmap. exists (k, v). split; [done|].
  by apply dict_get_elem, dict_get_set_eq.
Qed.

Lemma map_set_ok kc k v :
  map_key_codec f = Some kc -> (forall b, b ∈ ref_addr v -> (b < length (objects s))%nat) ->
  good D P a s (map_set mf a i kc f k v s).
Proof.
  intros Hk Hb s'. unfold map_set. destruct (normal_key kc k) as [k'|]; [|done]. cbn [mbind result_bind].
  destruct (_prepare mf a i (codec_of f) v s) as [[w s1]|] eqn:E; [|done]. cbn [mbind result_bind].
  destruct (obj_prepare_ok _ _ _ _ _ _ _ _ _ _ Hmf Hi Hc Ha Hb E) as [P1 I1].
  assert (forall r, entries (match r with Some w => bind_mutation w Ignored s1 | None => s1 end) a i = entries s1 a i) as He.
  { intros [x|]; [|done]. unfold entries. by rewrite bind_values. }
  rewrite He. revert s'. apply acts_good, done_acts.
  replace (match dict_get (entries s1 a i) k' with Some w0 => bind_mutation w0 Ignored s1 | None => s1 end)
    with (detach_all (option_list (dict_get (entries s1 a i) k')) s1) by (by destruct (dict_get _ k')).
  assert (field_of s1 a i = Some f) as Hf1 by (rewrite <- Hf; eapply grows_field; [apply P1|done]).
  destruct (entries_refs _ _ _ _ _ _ _ _ I1 Hf1 Hk) as (_ & _ & _ & Hwf).
  eapply (put_entries_ok D P s s1 a i f Hi Hc Hq Ha Hf kc [w]); try done.
  - apply dict_set_perm.
  - apply dict_set_in.
  - by apply dict_set_wf.
Qed.

End Copying.

(** ** Singular fields *)

Lemma grows_below s0 s b x : grows s0 s -> ordered s -> (x < length (objects s0))%nat -> below s b x -> below s0 b x.
Proof.
  intros Hg Ho Hx Hb. induction Hb as [|b y x [i Hi] Hy IH]; [apply rtc_refl|]. pose proof (below_le _ _ _ Ho Hy).
  eapply rtc_l; [exists i; eapply grows_held; [done|done|done|lia]|by apply IH].
Qed.

Lemma grows_local a s0 s s' :
  (a < length (objects s0))%nat -> grows s0 s -> ordered s -> local a s s' -> local a s0 s'.
Proof.
  intros Ha Hg Ho []. pose proof Hg as []. split.
  - done.
  - lia.
  - intros x Hx. rewrite l_cls by lia. by rewrite g_old.
  - intros p i c Hh Hc. eapply grows_held; [done|done| |done]. apply l_held; [done|lia].
  - done.
  - by rewrite l_self, g_old.
  - intros x Hx. rewrite l_susp by lia. by rewrite g_old.
  - intros x Hx. destruct (decide (x < length (objects s))%nat); [rewrite l_susp by done; auto|]. apply l_new. lia.
  - intros x Hx Hn. rewrite l_keep; [by apply g_old|lia|]. intros Hb. by apply Hn, (grows_below _ _ _ _ Hg).
Qed.

(** A value is stored in a singular field, and the field is selected. *)
Lemma store_select D P s0 s a i f v :
  inv D P None s -> grows s0 s -> (a < length (objects s0))%nat -> field_of s a i = Some f -> singular f = true ->
  ref_ok s (codec_of f) v -> fresh s0 s v -> a ∈ D ->
  exists s', _select _notify a i f (replace_child a i v s) = Ok s' /\ inv D P None s' /\ local a s0 s'.
Proof.
  intros Hi Hg Ha Hf Hs Hv Hfr HaD. pose proof Hg as [].
  pose proof (detach_ok _ _ _ _ _ _ Hi Hf Hs) as I1. set (s1 := _detach_child a i s) in *.
  assert (length (objects s1) = length (objects s)) as Hl1 by apply length_detach_child.
  assert (forall x, obj s1 x = if decide (x ∈ in_field s a i) then _bind_mutation Ignored (obj s x) else obj s x) as Ho1.
  { intros x. by eapply detach_child_obj. }
  assert (forall x, o_cls (obj s1 x) = o_cls (obj s x)) as Hc1 by (intros x; rewrite Ho1; by case_decide).
  assert (forall x, o_values (obj s1 x) = o_values (obj s x)) as Hv1 by (intros x; rewrite Ho1; by case_decide).
  assert (forall p j c, held s1 p j c <-> held s p j c) as Hh1 by (intros; unfold held; by rewrite Hv1).
  assert (obj s1 a = obj s a) as Hoa by (rewrite Ho1, decide_False; [done|by eapply not_in_field]).
  assert (forall b, b ∈ ref_addr v -> (a < b)%nat /\ loose s1 b) as Hlo.
  { intros b Hb. destruct (Hfr b Hb) as [? Hm]. split; [lia|]. split; [lia|]. rewrite Ho1. case_decide; [done|]. by rewrite Hm. }
  assert (ref_ok s1 (codec_of f) v) as Hv1' by (revert Hv; unfold ref_ok; destruct (codec_of f), v; try done; by rewrite Hc1).
  assert (field_of s1 a i = Some f) as Hf1 by (unfold field_of; by rewrite Hc1).
  pose proof (stored_ok _ _ _ _ _ _ _ I1 ltac:(lia) Hf1 Hs Hv1' Hlo) as I2. fold (replace_child a i v s) in *.
  assert (forall b, b ∈ ref_addr v -> (a < b < length (objects s1))%nat) as Hlt by (intros b Hb; by destruct (Hlo b Hb) as [? [? _]]).
  change (replace_child a i v s) with (stored a i v s1). set (s2 := stored a i v s1) in *.
  assert (length (objects s2) = length (objects s1)) as Hl2 by (unfold s2, stored, _bind_child; by rewrite length_upd, length_bind).
  assert (field_of s2 a i = Some f) as Hf2 by (unfold field_of, s2; rewrite obj_stored, decide_True by (done || lia); done).
  destruct (obj_select_ok HS _notify _ _ _ s2 a i f I2 ltac:(lia) Hf2 Hs) as (s3 & E3 & I3 & S3 & P3).
  { left. split; [done|]. unfold s2. rewrite obj_stored, decide_True by (done || lia). cbn. rewrite lookup_insert_eq. by eexists. }
  exists s3. split; [done|]. destruct S3. split.
  - assert (forall b, b ∈ ref_addr v -> known b s3) as Hk.
    { intros b Hb p j g Hh Hg' Hsg. apply sel_held in Hh. unfold s2 in Hh. apply stored_held in Hh as [[[= -> ->] _]|[Hne Hh]]; [| |lia|done].
      - apply P3. destruct v as [x|c]; [by apply not_elem_of_nil in Hb|]. unfold ref_ok in Hv. destruct (codec_of f) eqn:Ec; try done.
        by eapply message_presence.
      - destruct (i_link _ _ _ _ I1 _ _ _ Hh) as (h & _ & [E|[[= <- <-] _]]); [|done]. destruct (Hlo b Hb) as (_ & _ & Hin).
        rewrite E in Hin. unfold link in Hin. by destruct (singular h). }
    destruct v as [x|c]; cbn [ref_addr list_to_set] in I3.
    + eapply inv_weaken; [|exact I3]. set_solver.
    + apply (undirty _ _ _ _ c); [|apply Hk; left]. eapply inv_weaken; [|exact I3]. set_solver.
  - apply (local_intro a s0 s); [done|done|by eapply inv_ordered|by eapply inv_ordered|lia| | |..].
    + intros p j c Hh%sel_held. apply stored_held in Hh as [[_ Hb]|[_ Hh]]; [right; by apply Hfr in Hb as [[? _] _]|left; by apply Hh1|lia|done].
    + intros x Hx. assert (obj s2 x = obj s x \/ ((exists i, held s0 a i x) \/ (length (objects s0) <= x)%nat) /\
        exists cb, obj s2 x = _bind_mutation cb (obj s x)) as H2.
      { unfold s2. rewrite obj_stored, decide_False by (done || lia). case_decide as Hb.
        - right. split; [right; by apply Hfr in Hb as [[? _] _]|]. rewrite Ho1. case_decide; by eexists.
        - rewrite Ho1. case_decide as Hin; [right|by left]. split; [|by eexists]. apply held_in_field in Hin.
          destruct (decide (x < length (objects s0))%nat); [left; exists i|right; lia]. eapply grows_held; [done|by eapply inv_ordered|done|done]. }
      destruct (sel_other x Hx) as [->|[(j & Hj & Hji) ->]]; [done|right]. split.
      * apply stored_held in Hj as [[[= ?] _]|[_ Hj%Hh1]]; [done| |lia|done].
        destruct (decide (x < length (objects s0))%nat); [left; exists j|right; lia]. eapply grows_held; [done|by eapply inv_ordered|done|done].
      * destruct H2 as [->|[_ [cb ->]]]; by eexists.
    + rewrite sel_cls. unfold s2. rewrite obj_stored, decide_True by (done || lia). by rewrite Hoa.
    + rewrite sel_mutation. unfold s2. rewrite obj_stored, decide_True by (done || lia). by rewrite Hoa.
    + rewrite sel_suspended. unfold s2. rewrite obj_stored, decide_True by (done || lia). by rewrite Hoa.
Qed.

Lemma replace_same s a i c :
  (a < c < length (objects s))%nat -> o_values (obj s a) !! i = Some (ROne (RM c)) -> o_mutation (obj s c) = ChildChanged a i ->
  replace_child a i (RM c) s = s.
Proof.
  intros Hac Hv Hm. unfold replace_child, _detach_child, _bind_child. rewrite Hv. cbn [bind_mutation].
  assert (upd c (_bind_mutation (ChildChanged a i)) (upd c (_bind_mutation Ignored) s) = s) as ->.
  { transitivity (upd c (_bind_mutation (ChildChanged a i)) s).
    - unfold upd. cbn [objects masks]. f_equal. apply list_eq. intros x.
      destruct (decide (x = c)) as [->|]; [|by rewrite !list_lookup_alter_ne]. rewrite !list_lookup_alter_eq. by destruct (objects s !! c).
    - apply upd_same. unfold _bind_mutation. rewrite <- Hm. apply object_eta. }
  apply upd_same. unfold put, set_values. rewrite insert_id by done. apply object_eta.
Qed.

(** A copied value merges into a suspended message. *)
Lemma merge_one_ok mf D P s0 s a i f v :
  merges mf -> inv D P None s -> calm D s -> grows s0 s -> (a < length (objects s0))%nat -> o_suspended (obj s a) <> 0%nat ->
  field_of s a i = Some f -> singular f = true -> ref_ok s (codec_of f) v -> fresh s0 s v ->
  good D P a s0 (merge_one mf a i f v s).
Proof.
  intros Hmf Hi Hc Hg Ha Hsu Hf Hs Hv Hfr s'. pose proof Hg as []. pose proof (inv_ordered _ _ _ _ Hi) as Ho.
  assert (_select _notify a i f (replace_child a i v s) = Ok s' -> inv D P None s' /\ effect a s0 s') as Hst.
  { intros E. destruct (store_select D P s0 s a i f v) as (s3 & E3 & I3 & L3); [done..|by apply Hc|].
    assert (s' = s3) as -> by congruence. split; [done|by apply local_effect]. }
  unfold merge_one. destruct (o_values (obj s a) !! i) as [[[x|c]|l|l]|] eqn:Ev; [done| |done..].
  destruct v as [x|c']; [done|]. destruct (message_field f && bool_decide (i ∈ o_present (obj s a))) eqn:Ep; [|done].
  apply andb_true_iff in Ep as [_ Hp%bool_decide_eq_true].
  assert (held s a i c) as Hh by (eexists; split; [done|left]). destruct (i_held _ _ _ _ Hi _ _ _ Hh) as [Hac Hcl].
  destruct (i_link _ _ _ _ Hi _ _ _ Hh) as (g & Hg' & [Em|[? _]]); [|done]. assert (g = f) as -> by congruence.
  unfold link in Em. rewrite Hs in Em. destruct (Hfr c') as [Hc' _]; [left|].
  assert (absorbed s c) as Hab by (right; by rewrite Em). destruct (mf c c' s) as [s1|] eqn:E1; [|done]. cbn [mbind result_bind].
  destruct (Hmf D P s c c') with s1 as [I1 F1]; [done|done|by left|done|lia|done|].
  pose proof (effect_is_local _ _ _ Hab F1) as L1. pose proof (local_up _ _ _ _ _ Ho Hh Hcl L1) as L2.
  assert (obj s1 a = obj s a) as Hoa by (apply (l_keep _ _ _ L1); [lia|intros ?%below_le; [lia|done]]).
  rewrite replace_same; [|pose proof (l_len _ _ _ L1); lia|by rewrite Hoa|by rewrite (l_self _ _ _ L1)].
  erewrite (select_same HS); [|done|unfold field_of; by rewrite Hoa|by rewrite Hoa].
  intros [= <-]. split; [done|]. by eapply local_effect, grows_local.
Qed.

(** *** The container of a field is made *)

Definition empty_box (x : box) : Prop := x = RItems [] \/ x = REntries [].

Lemma make_ok D P s a i f x :
  inv D P None s -> (a < length (objects s))%nat -> field_of s a i = Some f -> singular f = false ->
  o_values (obj s a) !! i = None -> empty_box x -> box_ok s f x ->
  inv D P None (upd a (put i x) s) /\ local a s (upd a (put i x) s).
Proof.
  intros Hi Ha Hf Hs Hv Hx Hb. change (upd a (put i x) s) with (boxed a i x [] s).
  assert (refs x = []) as Hr by (by destruct Hx as [-> | ->]).
  assert (reboxes ∅ a i f x [] s) as Hrb.
  { split; try done; [rewrite Hr; apply NoDup_nil_2|by rewrite Hr; intros c ?%not_elem_of_nil|].
    intros c. split; [by intros ?%not_elem_of_nil|]. intros [(y & Hy & _) _]. congruence. }
  assert (inv D (P ∪ ∅) None s) as Hi' by (eapply inv_pending; [|exact Hi]; set_solver).
  assert (reboxes (P ∪ ∅) a i f x [] s) as Hrb'.
  { destruct Hrb. split; try done. intros c Hc1. rewrite Hr in Hc1. by apply not_elem_of_nil in Hc1. }
  pose proof (boxed_ok _ _ _ _ _ _ _ _ Hi' Hrb') as I1. split.
  - apply (undirty_blank _ _ _ _ a); [eapply inv_pending; [|exact I1]; set_solver|].
    intros p j g Hh Hg Hsg Hp. assert (p <> a) as Hpa by (intros ->; apply (inv_ordered _ _ _ _ I1) in Hh; lia).
    erewrite boxed_held in Hh by done. destruct Hh as [[[= ?] _]|[_ Hh]]; [done|].
    unfold field_of in Hg. erewrite obj_boxed in Hg, Hp by done. rewrite decide_False in Hg, Hp by done.
    rewrite decide_False in Hg, Hp by apply not_elem_of_nil. destruct (i_blank _ _ _ _ Hi _ _ _ _ Hh Hg Hsg Hp) as [|(B1 & B2 & B3 & B4)]; [by left|right].
    erewrite obj_boxed by done. rewrite decide_True by done. split_and!; [|done..]. intros k y Hy. cbn in Hy.
    apply lookup_insert_Some in Hy as [[_ <-]|[_ Hy]]; [by destruct Hx as [-> | ->]|by eapply B1].
  - eapply (boxed_local D P ∅ s s); try done; [apply grows_refl|]. by eapply inv_ordered.
Qed.

Lemma acts_local D P a s s' : inv D P None s' -> local a s s' -> acts D P a s (Ok s').
Proof. intros. exists s'. split_and!; [done..|]. by apply local_effect. Qed.

Lemma map_made D P s a i f kc :
  inv D P None s -> (a < length (objects s))%nat -> field_of s a i = Some f -> map_key_codec f = Some kc -> acts D P a s (Ok (_map a i s)).
Proof.
  intros Hi Ha Hf Hk. unfold _map. destruct (o_values (obj s a) !! i) eqn:Ev; [by apply acts_nothing|].
  destruct (make_ok D P s a i f (REntries [])) as [? ?]; try done; [unfold singular, map_field; by rewrite Hk|by right| |by apply acts_local].
  unfold box_ok. rewrite Hk. split; [apply NoDup_nil_2|constructor].
Qed.

Lemma repeated_made D P s a i f :
  inv D P None s -> (a < length (objects s))%nat -> field_of s a i = Some f -> map_key_codec f = None -> repeated f = true ->
  acts D P a s (Ok (_repeated a i s)).
Proof.
  intros Hi Ha Hf Hk Hr. unfold _repeated. destruct (o_values (obj s a) !! i) eqn:Ev; [by apply acts_nothing|].
  destruct (make_ok D P s a i f (RItems [])) as [? ?]; try done; [unfold singular; by rewrite Hr, andb_false_r|by left| |by apply acts_local].
  unfold box_ok. rewrite Hk. split; [done|constructor].
Qed.

(** ** [MergeFrom] *)

Lemma good_bind D P a s s1 r : inv D P None s -> effect a s s1 -> good D P a s1 r -> good D P a s r.
Proof.
  intros Hi He Hr s' E. destruct (Hr s' E) as [I2 E2]. split; [done|]. eapply effect_trans; [by eapply inv_ordered|done|done].
Qed.

Lemma good_nothing D P a s : inv D P None s -> (a < length (objects s))%nat -> good D P a s (Ok s).
Proof. intros. by apply acts_good, acts_nothing. Qed.

Lemma good_loop {A} D P a s (f : store -> A -> outcome store) l :
  inv D P None s -> calm D s -> (a < length (objects s))%nat ->
  (forall s1 x, x ∈ l -> inv D P None s1 -> calm D s1 -> effect a s s1 -> good D P a s1 (f s1 x)) -> good D P a s (loop f l s).
Proof.
  revert s. induction l as [|x l IH]; intros s Hi Hc Ha Hf; [by apply good_nothing|]. cbn [loop].
  destruct (f s x) as [s1|] eqn:E1; [|done]. cbn [mbind result_bind].
  destruct (Hf s x) with s1 as [I1 F1]; [left|done|done|apply effect_refl; [done|by eapply inv_ordered]|done|].
  eapply good_bind; [done|done|]. apply IH; [done|by eapply effect_calm|pose proof (e_len _ _ _ F1); lia|].
  intros s2 y Hy I2 C2 F2. apply Hf; [by right|done|done|]. eapply effect_trans; [by eapply inv_ordered|done|done].
Qed.

Lemma effect_field a s s1 i : effect a s s1 -> field_of s1 a i = field_of s a i.
Proof. intros He. unfold field_of. by rewrite (e_cls _ _ _ He) by apply (e_alive _ _ _ He). Qed.

Lemma good_made D P a s s1 r : inv D P None s -> acts D P a s (Ok s1) -> (inv D P None s1 -> effect a s s1 -> good D P a s1 r) -> good D P a s r.
Proof. intros Hi (s2 & [= <-] & I1 & F1) Hr. eapply good_bind; [done|done|]. by apply Hr. Qed.

Lemma obj_merge_field_ok mf D P s a b i f :
  merges mf -> inv D P None s -> calm D s -> o_suspended (obj s a) <> 0%nat -> (a < length (objects s))%nat ->
  (b < length (objects s))%nat -> field_of s a i = Some f -> o_cls (obj s b) = o_cls (obj s a) ->
  good D P a s (merge_field mf a b s (i, f)).
Proof.
  intros Hmf Hi Hc Hsu Ha Hb Hf Hcl. cbn [merge_field].
  assert (field_of s b i = Some f) as Hfb by (unfold field_of in *; by rewrite Hcl).
  assert (forall c, c ∈ in_field s b i -> (c < length (objects s))%nat) as Hin.
  { intros c Hh%held_in_field. by apply (i_held _ _ _ _ Hi) in Hh as [_ ?]. }
  destruct (map_key_codec f) as [kc|] eqn:Hk.
  - destruct (entries_refs _ _ _ _ _ _ _ _ Hi Hfb Hk) as (Her & _). rewrite Her in Hin.
    destruct (entries s b i) as [|e es] eqn:Ee; [by apply good_nothing|].
    eapply good_made; [done|by eapply map_made|]. intros I1 F1. pose proof (e_len _ _ _ F1).
    apply good_loop; [done|by eapply effect_calm|lia|]. intros s2 [k v] Hkv I2 C2 F2. pose proof (e_len _ _ _ F2).
    apply (map_set_ok mf Hmf D P s2 a i f I2 C2); [left; left|lia| |done|].
    + by rewrite (e_susp _ _ _ F2), (e_susp _ _ _ F1) by lia.
    + by rewrite (effect_field _ _ _ _ F2), (effect_field _ _ _ _ F1).
    + intros c Hcv. assert (c < length (objects s))%nat; [|lia]. apply Hin, list_elem_of_bind. exists v. split; [done|].
      apply list_elem_of_fmap. by exists (k, v).
  - destruct (repeated f) eqn:Hr.
    + destruct (items_refs _ _ _ _ _ _ _ Hi Hfb Hk Hr) as (Her & _). rewrite Her in Hin.
      destruct (items s b i) as [|v vs] eqn:Ei; [by apply good_nothing|].
      eapply good_made; [done|by eapply repeated_made|]. intros I1 F1. pose proof (e_len _ _ _ F1).
      apply (extend_ok mf Hmf D P _ a i f I1); [by eapply effect_calm|left; left|lia| |done|done|].
      * by rewrite (e_susp _ _ _ F1) by lia.
      * by rewrite (effect_field _ _ _ _ F1).
      * intros c Hcv%Hin. lia.
    + destruct (negb (has_value s b i f)); [by apply good_nothing|].
      destruct (o_values (obj s b) !! i) as [[v|l|l]|] eqn:Ev; try done. intros s'.
      destruct (copy mf (codec_of f) v s) as [[w s1]|] eqn:Ec; [|done]. cbn [mbind result_bind].
      assert (singular f = true) as Hs by (by apply singular_keys).
      destruct (i_box _ _ _ _ Hi _ _ _ Ev) as (_ & g & Hg & Hbx). assert (g = f) as -> by congruence.
      destruct (singular_box _ _ _ Hs Hbx) as (v' & [= <-] & Hv).
      destruct (copy_ok mf D P s (codec_of f) v w s1 Hmf Hi Hc Hv) as (I1 & G1 & R1 & F1); [|done|].
      { intros c Hcv. apply Hin. unfold in_field. by rewrite Ev. }
      pose proof G1 as []. eapply merge_one_ok; try done; [by eapply grows_calm|by rewrite g_old|]. by erewrite grows_field.
Qed.

Lemma obj_resume_unknown a s b x :
  (a < length (objects s))%nat ->
  obj (resume a (upd a (fun o => set_unknowns (o_unknown o ++ o_unknown (obj s b)) o) s)) x =
    if decide (x = a) then set_suspended (pred (o_suspended (obj s a))) (set_unknowns (o_unknown (obj s a) ++ o_unknown (obj s b)) (obj s a))
    else obj s x.
Proof.
  intros Ha. unfold resume. rewrite obj_upd by (by rewrite length_upd). rewrite !obj_upd by done.
  rewrite (decide_True _ _ (eq_refl a)). by repeat case_decide.
Qed.

Lemma MergeFrom_merges fuel : merges (MergeFrom fuel).
Proof.
  induction fuel as [|fuel IH]; intros D P s a b Hi Hc Hq Ha Hb s'; [done|]. cbn [MergeFrom].
  destruct (negb (o_cls (obj s b) =? o_cls (obj s a))%nat) eqn:Ecl; [done|]. apply negb_false_iff, Nat.eqb_eq in Ecl.
  pose proof (suspend_ok _ _ _ _ _ Ha Hi) as I0. pose proof (suspend_calm _ _ _ Ha Hc) as C0.
  assert (length (objects (suspend a s)) = length (objects s)) as Hl0 by apply length_upd.
  assert (forall x, o_cls (obj (suspend a s) x) = o_cls (obj s x)) as Hcl0.
  { intros x. rewrite obj_suspend by done. case_decide; by subst. }
  assert (o_suspended (obj (suspend a s) a) <> 0%nat) as Hs0 by (by rewrite obj_suspend, decide_True).
  apply (inv_weaken _ ({[a]} ∪ D)) in I0; [|set_solver].
  destruct (loop _ _ (suspend a s)) as [s1|] eqn:E1; [|done]. cbn [mbind result_bind].
  assert (inv ({[a]} ∪ D) P None s1 /\ effect a (suspend a s) s1) as [I1 F1].
  { revert s1 E1. change (good ({[a]} ∪ D) P a (suspend a s) (loop (merge_field (MergeFrom fuel) a b) (indexed (o_cls (obj s a))) (suspend a s))).
    apply good_loop; [done|done|lia|]. intros s2 [i f] Hif I2 C2 F2. pose proof (e_len _ _ _ F2).
    apply indexed_lookup in Hif. apply obj_merge_field_ok; try done; [by rewrite (e_susp _ _ _ F2) by lia|lia|lia|..].
    - rewrite (effect_field _ _ _ _ F2). unfold field_of. by rewrite Hcl0.
    - rewrite !(e_cls _ _ _ F2) by lia. by rewrite !Hcl0. }
  pose proof (e_len _ _ _ F1). assert (a < length (objects s1))%nat as Ha1 by lia.
  revert s'. apply acts_good, done_acts. eapply (resume_finish D P s s1); try done.
  - apply effect_is_local; [by left|done].
  - eapply inv_ext; [..|eapply inv_weaken; [|apply (unknown_ok _ _ _ _ a (o_unknown (obj s1 a) ++ o_unknown (obj s1 b)) I1 Ha1)]; set_solver].
    + unfold resume. by rewrite !length_upd.
    + intros x. rewrite obj_resume_unknown, obj_upd by done. by case_decide.
    + intros x. rewrite obj_resume_unknown, obj_upd by done. by case_decide.
  - unfold resume. by rewrite !length_upd.
  - intros x Hx. by rewrite obj_resume_unknown, decide_False.
  - by rewrite obj_resume_unknown, decide_True.
  - by rewrite obj_resume_unknown, decide_True.
  - by rewrite obj_resume_unknown, decide_True.
  - by rewrite obj_resume_unknown, decide_True.
Qed.

End Ops.
