(* ===== verification/MessageObjectsApi.v ===== *)
(** * The public operations on the object store

    Getters, assignment, clearing, the methods of the containers and parsing keep
    the invariant and act where they are called. *)
From stdpp Require Import gmap.
From S2P Require Import Prelude PyStr Json FieldMask Bytes Wire ValueCodec Metadata Message MessageInv MessageOps MessageSteps MessageObjects MessageObjectsInv MessageObjectsSteps MessageObjectsWork MessageObjectsOps.

Section Api.
Context `{Schema} (HS : schema_ok _).
Implicit Types (D P Q : gset nat) (O : option (nat * nat)) (s : store).

Abbreviation addrs := (fun l : list ref => l ≫= ref_addr).

(** *** Masks do not matter *)

Lemma obj_masks s s' x : objects s' = objects s -> obj s' x = obj s x.
Proof. intros E. unfold obj. by rewrite E. Qed.

Lemma inv_masks D P O s s' : objects s' = objects s -> inv D P O s -> inv D P O s'.
Proof. intros E. apply inv_ext; [by rewrite E|intros x; by rewrite (obj_masks _ _ _ E)..]. Qed.

Lemma local_masks a s s1 s' : objects s' = objects s1 -> local a s s1 -> local a s s'.
Proof.
  intros E []. assert (forall x, obj s' x = obj s1 x) as Ho by (intros x; by apply obj_masks).
  assert (forall p i c, held s' p i c <-> held s1 p i c) as Hh by (intros; unfold held; by rewrite Ho).
  split; try setoid_rewrite Ho; rewrite ?E; try done.
  - intros p i c Hc%Hh. by apply l_held.
  - intros p i c Hc%Hh. by eapply l_order.
Qed.

Lemma record_objects a f s : objects (_record_reset a f s) = objects s.
Proof. unfold _record_reset, submask. repeat case_match; done. Qed.

Lemma local_refl a s : (a < length (objects s))%nat -> ordered s -> local a s s.
Proof. intros Ha Ho. split; try done. intros x Hx. by rewrite obj_none. Qed.

(** *** Clearing *)

Lemma notify_done D P s a :
  inv D P None s -> calm D s -> absorbed s a \/ P = ∅ -> (a < length (objects s))%nat -> done_at D P a s (_notify a s).
Proof.
  intros Hi Hc Hq Ha. eapply (finish HS); [done| | |done|done].
  - apply local_refl; [done|by eapply inv_ordered].
  - eapply inv_weaken; [|exact Hi]. set_solver.
Qed.

Lemma done_after D P a s s1 s2 :
  inv D P None s -> calm D s -> absorbed s a \/ P = ∅ -> inv D P None s1 -> effect a s s1 -> objects s2 = objects s1 ->
  done_at D P a s (_notify a s2).
Proof.
  intros Hi Hc Hq I1 F1 E. pose proof (inv_ordered _ _ _ _ Hi) as Ho. pose proof (e_len _ _ _ F1). pose proof (e_alive _ _ _ F1).
  assert (inv D P None s2) as I2 by (by eapply inv_masks). assert (effect a s s2) as F2.
  { destruct F1. assert (forall x, obj s2 x = obj s1 x) as Hx by (intros x; by apply obj_masks).
    assert (forall p i c, held s2 p i c <-> held s1 p i c) as Hh by (intros; unfold held; by rewrite Hx).
    split; try setoid_rewrite Hx; rewrite ?E; try done; [intros p i c Hk%Hh; by apply e_held|intros p i c Hk%Hh; by eapply e_order]. }
  destruct (notify_done D P s2 a) as (s3 & E3 & I3 & F3 & K3); [done|by eapply effect_calm| |rewrite E; lia|].
  { destruct Hq; [left; by eapply effect_absorbed|by right]. }
  exists s3. split_and!; [done..|by eapply effect_trans|]. intros Hz. apply K3. by rewrite (e_susp _ _ _ F2).
Qed.

Lemma clear_and_record_ok D P s a i f :
  inv D P None s -> calm D s -> absorbed s a \/ P = ∅ -> (a < length (objects s))%nat -> field_of s a i = Some f ->
  done_at D P a s (clear_and_record a i f s).
Proof.
  intros Hi Hc Hq Ha Hf. unfold clear_and_record. destruct (obj_clear_state_ok HS D P s a i f) as (s1 & -> & I1 & F1); [done..|].
  cbn [mbind result_bind]. eapply done_after; [done..|]. apply record_objects.
Qed.

Lemma ClearField_ok D P s a name :
  inv D P None s -> calm D s -> absorbed s a \/ P = ∅ -> (a < length (objects s))%nat -> good D P a s (ClearField a name s).
Proof.
  intros Hi Hc Hq Ha s'. unfold ClearField. destruct (_oneof_python_name _ name) as [n|].
  - destruct (selected_member s a n) as [[i f]|] eqn:Es; [|by apply good_nothing]. revert s'. apply acts_good, done_acts, clear_and_record_ok; [done..|].
    unfold selected_member in Es. destruct (o_oneofs (obj s a) !! n) as [j|]; [|done]. cbn in Es. destruct (field_of s a j) as [g|] eqn:Eg; [|done].
    cbn in Es. destruct (public g); [|done]. by injection Es as <- <-.
  - destruct (public_field _ name) as [[i f]|] eqn:Ep; [|done]. revert s'. apply acts_good, done_acts, clear_and_record_ok; [done..|].
    by apply public_field_Some in Ep.
Qed.

(** *** Assignment of a singular field *)

Lemma select_store D P s0 s a i f v :
  inv D P None s -> grows s0 s -> (a < length (objects s0))%nat -> field_of s a i = Some f -> singular f = true ->
  ref_ok s (codec_of f) v -> fresh s0 s v ->
  exists s', _select _notify a i f (_detach_child a i s) = Ok s' /\ inv ({[a]} ∪ D) P None (stored a i v s') /\ local a s0 (stored a i v s').
Proof.
  intros Hi Hg Ha Hf Hs Hv Hfr. pose proof Hg as [].
  pose proof (detach_ok _ _ _ _ _ _ Hi Hf Hs) as I1. set (s1 := _detach_child a i s) in *.
  assert (length (objects s1) = length (objects s)) as Hl1 by apply length_detach_child.
  assert (forall x, obj s1 x = if decide (x ∈ in_field s a i) then _bind_mutation Ignored (obj s x) else obj s x) as Ho1.
  { intros x. by eapply detach_child_obj. }
  assert (forall x, o_cls (obj s1 x) = o_cls (obj s x)) as Hc1 by (intros x; rewrite Ho1; by case_decide).
  assert (forall x, o_values (obj s1 x) = o_values (obj s x)) as Hv1 by (intros x; rewrite Ho1; by case_decide).
  assert (forall p j c, held s1 p j c <-> held s p j c) as Hh1 by (intros; unfold held; by rewrite Hv1).
  assert (obj s1 a = obj s a) as Hoa by (rewrite Ho1, decide_False; [done|by eapply not_in_field]).
  assert (field_of s1 a i = Some f) as Hf1 by (unfold field_of; by rewrite Hc1).
  destruct (obj_select_ok HS _notify _ _ _ s1 a i f I1 ltac:(lia) Hf1 Hs ltac:(by right)) as (s2 & E2 & I2 & S2 & P2).
  exists s2. split; [done|]. destruct S2.
  assert (forall x, o_cls (obj s2 x) = o_cls (obj s x)) as Hc2.
  { intros x. rewrite <- Hc1. destruct (decide (x = a)) as [->|Hx]; [done|]. destruct (sel_other x Hx) as [->|[_ ->]]; done. }
  assert (forall b, b ∈ ref_addr v -> (a < b)%nat /\ loose s2 b) as Hlo.
  { intros b Hb. destruct (Hfr b Hb) as [? Hm]. split; [lia|]. split; [lia|].
    assert (inert (o_mutation (obj s1 b))) as Hin by (rewrite Ho1; case_decide; [done|by rewrite Hm]).
    destruct (sel_other b ltac:(lia)) as [->|[_ ->]]; done. }
  assert (ref_ok s2 (codec_of f) v) as Hv2 by (revert Hv; unfold ref_ok; destruct (codec_of f), v; try done; by rewrite Hc2).
  assert (field_of s2 a i = Some f) as Hf2 by (unfold field_of; by rewrite Hc2).
  assert (forall b, b ∈ ref_addr v -> (a < b < length (objects s2))%nat) as Hlt by (intros b Hb; by destruct (Hlo b Hb) as [? [? _]]).
  pose proof (stored_ok _ _ _ _ _ _ _ I2 ltac:(lia) Hf2 Hs Hv2 Hlo) as I3. set (s3 := stored a i v s2) in *.
  split.
  - destruct v as [x|c]; cbn [ref_addr list_to_set] in I3; [eapply inv_weaken; [|exact I3]; set_solver|].
    apply (undirty _ _ _ _ c); [eapply inv_weaken; [|exact I3]; set_solver|]. intros p j g Hh Hg' Hsg.
    destruct (i_link _ _ _ _ I3 _ _ _ Hh) as (h & _ & [E|[? _]]); [|done]. unfold s3 in E. rewrite obj_stored in E by (done || lia).
    assert (c <> a) as Hca by (destruct (Hlt c); [left|lia]). rewrite decide_False in E by done. rewrite decide_True in E by left.
    cbn in E. symmetry in E. apply link_child in E as (-> & -> & _). unfold s3. rewrite obj_stored, decide_True by (done || lia). cbn.
    apply P2. unfold ref_ok in Hv. destruct (codec_of f) eqn:Ec; try done. by eapply message_presence.
  - apply (local_intro a s0 s); [done|done|by eapply inv_ordered|by eapply inv_ordered| | | |..].
    + unfold s3, stored, _bind_child. rewrite length_upd, length_bind. lia.
    + intros p j c Hh. apply stored_held in Hh as [[_ Hb]|[_ Hh]]; [right; by apply Hfr in Hb as [[? _] _]|left; by apply Hh1, sel_held|lia|done].
    + intros x Hx. assert (obj s2 x = obj s x \/ ((exists i, held s0 a i x) \/ (length (objects s0) <= x)%nat) /\
        exists cb, obj s2 x = _bind_mutation cb (obj s x)) as H2.
      { destruct (sel_other x Hx) as [->|[(j & Hj & _) ->]].
        - rewrite Ho1. case_decide as Hin; [right|by left]. split; [|by eexists]. apply held_in_field in Hin.
          destruct (decide (x < length (objects s0))%nat); [left; exists i|right; lia]. eapply grows_held; [done|by eapply inv_ordered|done|done].
        - right. apply Hh1 in Hj. split; [|rewrite Ho1; case_decide; by eexists].
          destruct (decide (x < length (objects s0))%nat); [left; exists j|right; lia]. eapply grows_held; [done|by eapply inv_ordered|done|done]. }
      unfold s3. rewrite obj_stored, decide_False by (done || lia). case_decide as Hb; [|done].
      right. split; [right; by apply Hfr in Hb as [[? _] _]|]. destruct H2 as [->|[_ [cb ->]]]; by eexists.
    + unfold s3. rewrite obj_stored, decide_True by (done || lia). cbn. by rewrite sel_cls, Hoa.
    + unfold s3. rewrite obj_stored, decide_True by (done || lia). cbn. by rewrite sel_mutation, Hoa.
    + unfold s3. rewrite obj_stored, decide_True by (done || lia). cbn. by rewrite sel_suspended, Hoa.
Qed.

Lemma obj_set_singular_ok fuel D P s a i f v :
  inv D P None s -> calm D s -> absorbed s a \/ P = ∅ -> (a < length (objects s))%nat -> field_of s a i = Some f -> singular f = true ->
  (forall b, b ∈ ref_addr v -> (b < length (objects s))%nat) -> good D P a s (set_singular fuel a i f v s).
Proof.
  intros Hi Hc Hq Ha Hf Hs Hb s'. unfold set_singular. destruct (normalize s (codec_of f) v) as [w|] eqn:En; [|done].
  cbn [mbind result_bind]. apply normalize_ok in En as [Hw Hsub].
  destruct (copy (MergeFrom fuel) (codec_of f) w s) as [[x s1]|] eqn:Ec; [|done]. cbn [mbind result_bind].
  destruct (copy_ok HS _ D P s (codec_of f) w x s1 (MergeFrom_merges HS fuel) Hi Hc Hw) as (I1 & G1 & R1 & F1); [auto|done|].
  destruct (select_store D P s s1 a i f x) as (s2 & -> & I2 & L2); [done..|by erewrite grows_field|done|done|done|].
  cbn [mbind result_bind]. change (upd a (put i (ROne x)) (_bind_child a i x s2)) with (stored a i x s2).
  match goal with |- context [_notify a ?x] => set (s3 := x) end.
  assert (objects s3 = objects (stored a i x s2)) as E3 by (unfold s3; case_match; [apply record_objects|done]).
  assert (local a s s3) as L3 by (by eapply local_masks).
  assert (inv ({[a]} ∪ D) P None s3) as I3 by (by eapply inv_masks).
  destruct (finish HS D P s s3 a Hi L3 I3) as (s4 & -> & I4 & F4 & _); [eapply effect_calm; [by apply local_effect|done]|done|].
  by intros [= <-].
Qed.

(** *** Getters *)

Lemma lazy_child_ok D P s a i f k :
  inv D P None s -> (a < length (objects s))%nat -> field_of s a i = Some f -> singular f = true -> codec_of f = CMessage k ->
  o_values (obj s a) !! i = None ->
  inv D P None (lazy_child a i k s).2 /\ local a s (lazy_child a i k s).2 /\ held (lazy_child a i k s).2 a i (lazy_child a i k s).1.
Proof.
  intros Hi Ha Hf Hs Hk Hv. set (s1 := (alloc k s).2). set (c := length (objects s)).
  change (lazy_child a i k s) with (c, stored a i (RM c) s1). cbn [fst snd].
  pose proof (alloc_ok _ _ _ k _ Hi) as I1. fold s1 in I1. pose proof (grows_alloc k s) as G1. fold s1 in G1. pose proof G1 as [].
  assert (length (objects s1) = S c) as Hl1 by apply length_alloc.
  assert (obj s1 c = mkObject k ∅ ∅ ∅ [] Unbound 0 (length (masks s)) 0) as Hoc by (unfold s1; by rewrite obj_alloc, decide_True).
  assert (field_of s1 a i = Some f) as Hf1 by (by erewrite grows_field).
  assert (o_values (obj s1 a) !! i = None) as Hv1 by (by rewrite g_old).
  assert (_detach_child a i s1 = s1) as Ed by (unfold _detach_child; by rewrite Hv1).
  pose proof (detach_ok _ _ _ _ _ _ I1 Hf1 Hs) as I1'. rewrite Ed in I1'.
  assert (forall b, b ∈ ref_addr (RM c) -> (a < b)%nat /\ loose s1 b) as Hlo.
  { intros b ->%list_elem_of_singleton. split; [lia|]. split; [lia|]. by rewrite Hoc. }
  assert (forall b, b ∈ ref_addr (RM c) -> (a < b < length (objects s1))%nat) as Hlt by (intros b ->%list_elem_of_singleton; lia).
  pose proof (stored_ok _ _ _ _ _ _ (RM c) I1' ltac:(lia) Hf1 Hs ltac:(unfold ref_ok; by rewrite Hk, Hoc) Hlo) as I2.
  cbn [ref_addr list_to_set] in I2. set (s2 := stored a i (RM c) s1) in *.
  assert (i ∉ o_present (obj s a)) as Hp.
  { intros Hp. destruct (i_present _ _ _ _ Hi a i Hp) as (g & _ & _ & _ & [?|[x Hx]]); [done|congruence]. }
  assert (forall x, x <> a -> content (obj s2 x) = content (obj s1 x)) as Hx.
  { intros x Hx. unfold s2. rewrite obj_stored, decide_False by (done || lia). by case_decide. }
  assert (blank (obj s2 c)) as Hbc.
  { unfold s2. rewrite obj_stored, decide_False by (done || lia). rewrite decide_True by left. rewrite Hoc. by split_and!. }
  assert (obj s2 a = put i (ROne (RM c)) (obj s a)) as Hoa by (unfold s2; by rewrite obj_stored, decide_True, g_old by (done || lia)).
  split; [|split].
  - apply (undirty_blank _ _ _ _ a); [apply (undirty_blank _ _ _ _ c); [eapply inv_weaken; [|exact I2]; set_solver|auto]|].
    intros p j g Hh Hg Hsg Hj. assert (p <> a) as Hpa by (intros ->; apply (inv_ordered _ _ _ _ I2) in Hh; lia).
    apply stored_held in Hh as [[[= ?] _]|[_ Hh]]; [done| |lia|done]. apply held_alloc in Hh.
    specialize (Hx p Hpa). injection Hx as Hx1 Hx2 Hx3 _ _. pose proof (held_alive _ _ _ _ Hh). rewrite g_old in * by done.
    assert (field_of s p j = Some g) as Hg' by (unfold field_of in *; by rewrite <- Hx1). rewrite Hx3 in Hj.
    destruct (i_blank _ _ _ _ Hi _ _ _ _ Hh Hg' Hsg Hj) as [|(B1 & B2 & B3 & B4)]; [by left|right]. rewrite Hoa.
    split_and!; [|done..]. intros m y Hy. cbn in Hy. apply lookup_insert_Some in Hy as [[_ <-]|[_ Hy]]; [done|by eapply B1].
  - apply (local_intro a s s1); [done|done|by eapply inv_ordered|by eapply inv_ordered| | | |..].
    + unfold s2, stored, _bind_child. by rewrite length_upd, length_bind.
    + intros p j b Hh. apply stored_held in Hh as [[_ ->%list_elem_of_singleton]|[_ Hh]]; [by right|by left|lia|done].
    + intros x Hne. unfold s2. rewrite obj_stored, decide_False by (done || lia). case_decide as Hb; [right|by left].
      apply list_elem_of_singleton in Hb as ->. split; [by right|by eexists].
    + by rewrite Hoa, g_old.
    + by rewrite Hoa, g_old.
    + by rewrite Hoa, g_old.
  - apply stored_held; [lia|done|]. left. split; [done|left].
Qed.

(** Sharing a mask with the owner. *)
Lemma share_mask_ok D P s0 s a i c f :
  (a < length (objects s0))%nat -> ordered s0 -> inv D P None s -> local a s0 s -> held s a i c -> 
  inv D P None (share_mask a c f s) /\ local a s0 (share_mask a c f s).
Proof.
  intros Ha Ho0 Hi HL Hh. destruct (i_held _ _ _ _ Hi _ _ _ Hh) as [Hac Hcl]. unfold share_mask.
  destruct (submask (o_mask (obj s a)) (proto_name f) s) as [m s1] eqn:Em.
  assert (objects s1 = objects s) as E1 by (unfold submask in Em; repeat case_match; injection Em as <- <-; done).
  assert (forall x, obj (upd c (set_mask m) s1) x = if decide (x = c) then set_mask m (obj s c) else obj s x) as Ho.
  { intros x. rewrite obj_upd by (by rewrite E1). by rewrite !(obj_masks _ _ _ E1). }
  assert (forall x, o_values (obj (upd c (set_mask m) s1) x) = o_values (obj s x)) as Hv by (intros x; rewrite Ho; case_decide; by subst).
  assert (forall p j b, held (upd c (set_mask m) s1) p j b <-> held s p j b) as Hhe by (intros; unfold held; by rewrite Hv).
  assert (length (objects (upd c (set_mask m) s1)) = length (objects s)) as Hl by (by rewrite length_upd, E1).
  split.
  - eapply inv_ext; [exact Hl|..|exact Hi]; intros x; rewrite Ho; case_decide; by subst.
  - destruct HL. split.
    + done.
    + by rewrite Hl.
    + intros x Hx. rewrite <- l_cls, Ho by done. case_decide; by subst.
    + intros p j b Hb%Hhe. by apply l_held.
    + intros p j b Hb%Hhe. by eapply l_order.
    + rewrite <- l_self, Ho. rewrite decide_False by lia. done.
    + intros x Hx. rewrite <- l_susp, Ho by done. case_decide; by subst.
    + intros x Hx. rewrite Ho. case_decide; [subst; cbn|]; auto.
    + intros x Hx Hn. rewrite Ho. rewrite decide_False; [auto|]. intros ->. apply Hn. eapply rtc_l; [|apply rtc_refl]. exists i. by apply l_held.
Qed.

Lemma get_ok D P s a i f absent :
  inv D P None s -> (a < length (objects s))%nat -> field_of s a i = Some f -> acts D P a s (Ok (_get_field a i f absent s).2).
Proof.
  intros Hi Ha Hf. pose proof (inv_ordered _ _ _ _ Hi) as Ho. unfold _get_field. destruct (absent && _); [by apply acts_nothing|].
  destruct (map_field f) eqn:Em.
  { unfold map_field in Em. destruct (map_key_codec f) as [kc|] eqn:Ek; [|done]. by eapply map_made. }
  assert (map_key_codec f = None) as Hk by (unfold map_field in Em; by destruct (map_key_codec f)).
  destruct (repeated f) eqn:Er; [by eapply repeated_made|]. assert (singular f = true) as Hs by (by apply singular_keys).
  destruct (o_values (obj s a) !! i) as [x|] eqn:Ev.
  - destruct (i_box _ _ _ _ Hi _ _ _ Ev) as (_ & g & Hg & Hb). assert (g = f) as -> by congruence.
    destruct (singular_box _ _ _ Hs Hb) as ([y|c] & -> & _); [by apply acts_nothing|]. cbn [snd].
    destruct (share_mask_ok D P s s a i c f) as [? ?]; [done..|by apply local_refl|eexists; split; [done|left]|]. by apply acts_local.
  - destruct (codec_of f) as [ic| | | | |k] eqn:Ec; try (by apply acts_nothing).
    destruct (lazy_child_ok D P s a i f k) as (I1 & L1 & H1); [done..|]. destruct (lazy_child a i k s) as [c s1]. cbn [fst snd] in *.
    destruct (share_mask_ok D P s s1 a i c f) as [? ?]; [done..|]. by apply acts_local.
Qed.

(** *** [RepeatedValues] *)

Lemma norm_index_Some {A} (l : list A) j n : norm_index l j = Some n -> (n < length l)%nat.
Proof. unfold norm_index. case_match; case_match; try done; intros [= <-]; lia. Qed.

Lemma insert_perm {A} (l : list A) n v : (n < length l)%nat -> <[n := v]> l ++ option_list (l !! n) ≡ₚ l ++ [v].
Proof.
  intros Hn. destruct (lookup_lt_is_Some_2 l n Hn) as [w Hw]. rewrite Hw. cbn [option_list].
  rewrite insert_take_drop by done. rewrite <- (take_drop_middle l n w Hw) at 3. solve_Permutation.
Qed.

Lemma delete_perm {A} (l : list A) n : (n < length l)%nat -> delete n l ++ option_list (l !! n) ≡ₚ l ++ [].
Proof.
  intros Hn. destruct (lookup_lt_is_Some_2 l n Hn) as [w Hw]. rewrite Hw, app_nil_r. cbn [option_list].
  rewrite (delete_take_drop l n). rewrite <- (take_drop_middle l n w Hw) at 3. solve_Permutation.
Qed.

Lemma slice_perm {A} (l vs : list A) x y : (x <= y)%nat -> (take x l ++ vs ++ drop y l) ++ take (y - x) (drop x l) ≡ₚ l ++ vs.
Proof.
  intros Hxy. rewrite <- (take_drop x l) at 4. rewrite <- (take_drop (y - x) (drop x l)) at 2. rewrite drop_drop.
  replace (x + (y - x))%nat with y by lia. solve_Permutation.
Qed.

Section Containers.
Context (fuel : nat) D P s (a i : nat) (f : Field).
Context (Hi : inv D P None s) (Hc : calm D s) (Hq : absorbed s a \/ P = ∅) (Ha : (a < length (objects s))%nat) (Hf : field_of s a i = Some f).

Let Hmf := MergeFrom_merges HS fuel.

Lemma no_values : inv D (P ∪ list_to_set (addrs [])) None s.
Proof. eapply inv_pending; [|exact Hi]. set_solver. Qed.

Section Repeated.
Context (Hk : map_key_codec f = None) (Hr : repeated f = true).

(** An operation that keeps, adds or drops items. *)
Lemma items_done s1 vs l' gone :
  prepared a i (codec_of f) vs s s1 -> inv D (P ∪ list_to_set (addrs vs)) None s1 -> l' ++ gone ≡ₚ items s1 a i ++ vs -> vs ⊆+ l' ->
  good D P a s (put_items a i l' (detach_all gone s1)).
Proof. intros. by eapply acts_good, done_acts, put_items_ok. Qed.

Lemma obj_setitem_ok index v :
  (forall b, b ∈ ref_addr v -> (b < length (objects s))%nat) -> good D P a s (setitem fuel a i f index v s).
Proof.
  intros Hb s'. unfold setitem. destruct (_prepare _ a i _ v s) as [[w s1]|] eqn:E; [|done]. cbn [mbind result_bind].
  destruct (obj_prepare_ok HS _ _ _ _ _ _ _ _ _ _ Hmf Hi Hc Ha Hb E) as [P1 I1].
  destruct (norm_index (items s1 a i) index) as [n|] eqn:En; [|done]. apply norm_index_Some in En. revert s'.
  eapply items_done; [done|done|by apply insert_perm|]. rewrite singleton_submseteq_l. by apply list_elem_of_insert.
Qed.

Lemma setitem_slice_ok start stop vs :
  (forall b, b ∈ addrs vs -> (b < length (objects s))%nat) -> good D P a s (setitem_slice fuel a i f start stop vs s).
Proof.
  intros Hb s'. unfold setitem_slice. destruct (prepare_all _ a i _ vs s) as [[ws s1]|] eqn:E; [|done]. cbn [mbind result_bind].
  destruct (prepare_all_ok HS _ _ _ _ _ _ _ _ _ _ Hmf Hi Hc Ha Hb E) as [P1 I1].
  destruct (slice_bounds (items s1 a i) start stop) as [x y] eqn:Es. revert s'. eapply items_done; [done|done| |].
  - apply slice_perm. unfold slice_bounds in Es. injection Es as <- <-. lia.
  - apply submseteq_inserts_l, submseteq_inserts_r. done.
Qed.

Lemma obj_delitem_ok index : good D P a s (delitem a i index s).
Proof.
  intros s'. unfold delitem. destruct (norm_index (items s a i) index) as [n|] eqn:En; [|done]. apply norm_index_Some in En. revert s'.
  apply (items_done s []); [apply nothing_prepared|apply no_values|by apply delete_perm|apply submseteq_nil_l].
Qed.

Lemma delitem_slice_ok start stop : good D P a s (delitem_slice a i start stop s).
Proof.
  intros s'. unfold delitem_slice. destruct (slice_bounds (items s a i) start stop) as [x y] eqn:Es. revert s'.
  apply (items_done s []); [apply nothing_prepared|apply no_values| |apply submseteq_nil_l].
  apply (slice_perm _ []). unfold slice_bounds in Es. injection Es as <- <-. lia.
Qed.

Lemma obj_insert_ok index v :
  (forall b, b ∈ ref_addr v -> (b < length (objects s))%nat) -> good D P a s (MessageObjects.insert fuel a i f index v s).
Proof.
  intros Hb s'. unfold MessageObjects.insert. destruct (_prepare _ a i _ v s) as [[w s1]|] eqn:E; [|done]. cbn [mbind result_bind].
  destruct (obj_prepare_ok HS _ _ _ _ _ _ _ _ _ _ Hmf Hi Hc Ha Hb E) as [P1 I1]. revert s'.
  apply (items_done s1 [w] _ []); [done|done| |].
  - rewrite app_nil_r. unfold list_insert_at. rewrite <- (take_drop (clamp (items s1 a i) index) (items s1 a i)) at 5. solve_Permutation.
  - rewrite singleton_submseteq_l. unfold list_insert_at. set_solver.
Qed.

Lemma replace_items_ok vs :
  (forall b, b ∈ addrs vs -> (b < length (objects s))%nat) -> good D P a s (replace_items fuel a i f vs s).
Proof.
  intros Hb s'. unfold replace_items. destruct (prepare_all _ a i _ vs s) as [[ws s1]|] eqn:E; [|done]. cbn [mbind result_bind].
  destruct (prepare_all_ok HS _ _ _ _ _ _ _ _ _ _ Hmf Hi Hc Ha Hb E) as [P1 I1]. revert s'.
  eapply items_done; [done|done|apply Permutation_app_comm|done].
Qed.

Lemma reverse_items_ok : good D P a s (reverse_items a i s).
Proof.
  unfold reverse_items. case_match; [|by apply good_nothing].
  apply (items_done s [] _ []); [apply nothing_prepared|apply no_values| |apply submseteq_nil_l]. rewrite !app_nil_r. apply reverse_Permutation.
Qed.

End Repeated.

(** *** [MapValues] *)

Section Map.
Context (kc : codec) (Hk : map_key_codec f = Some kc).

Lemma default_prepared v s1 :
  map_default a i (codec_of f) s = (v, s1) -> prepared a i (codec_of f) [v] s s1 /\ inv D (P ∪ list_to_set (addrs [v])) None s1.
Proof.
  unfold map_default. destruct (codec_of f) as [ic| | | | |k] eqn:Ec;
    try (intros [= <- <-]; split; [split; [apply grows_refl|by intros ? ?%not_elem_of_nil|apply NoDup_nil_2|by constructor]|apply no_values]).
  set (c := length (objects s)). set (s0 := (alloc k s).2).
  change (let '(b, s2) := alloc k s in (RM b, bind_mutation (RM b) (ContainerChanged a i) s2)) with (RM c, bind_mutation (RM c) (ContainerChanged a i) s0).
  intros [= <- <-]. pose proof (alloc_ok _ _ _ k _ Hi) as I1. fold s0 in I1. pose proof (grows_alloc k s) as G1. fold s0 in G1. pose proof G1 as [].
  assert (length (objects s0) = S c) as Hl by apply length_alloc.
  assert (obj s0 c = mkObject k ∅ ∅ ∅ [] Unbound 0 (length (masks s)) 0) as Hoc by (unfold s0; by rewrite obj_alloc, decide_True).
  assert (forall x, obj (bind_mutation (RM c) (ContainerChanged a i) s0) x = if decide (x = c) then _bind_mutation (ContainerChanged a i) (obj s0 c) else obj s0 x) as Ho.
  { intros x. apply obj_upd. lia. }
  change (upd c (_bind_mutation (ContainerChanged a i)) s0) with (bind_mutation (RM c) (ContainerChanged a i) s0).
  rewrite bind_singleton. split; [split|].
  - split; [rewrite length_bind; lia| |].
    + intros x Hx. rewrite Ho, decide_False by lia. auto.
    + intros x Hx. rewrite Ho. case_decide; [by rewrite Hoc|auto].
  - rewrite length_bind. intros ? ->%list_elem_of_singleton. rewrite Ho, decide_True by done. split; [lia|done].
  - apply NoDup_singleton.
  - constructor; [|constructor]. cbn [ref_ok]. rewrite Ho, decide_True by done. by rewrite Hoc.
  - eapply inv_pending; [|apply (pending_ok HS D P s0 a i c I1)]; [set_solver|split; [lia|by rewrite Hoc]|lia].
Qed.

Lemma entries_done s1 vs l' gone :
  prepared a i (codec_of f) vs s s1 -> inv D (P ∪ list_to_set (addrs vs)) None s1 -> l'.*2 ++ gone ≡ₚ (entries s1 a i).*2 ++ vs ->
  vs ⊆+ l'.*2 -> dict_wf l' -> good D P a s (put_entries a i l' (detach_all gone s1)).
Proof. intros. by eapply acts_good, done_acts, put_entries_ok. Qed.

Lemma map_wf s1 vs : prepared a i (codec_of f) vs s s1 -> inv D (P ∪ list_to_set (addrs vs)) None s1 -> dict_wf (entries s1 a i).
Proof.
  intros P1 I1. eapply entries_refs; [exact I1| |done]. by rewrite (grows_field s s1) by (apply P1 || done).
Qed.

Lemma map_get_ok k v s' : map_get a i kc f k s = Ok (v, s') -> inv D P None s' /\ effect a s s'.
Proof.
  unfold map_get. destruct (normal_key kc k) as [k'|]; [|done]. cbn [mbind result_bind].
  destruct (dict_get (entries s a i) k') as [w|] eqn:Eg; [intros [= <- <-]; by apply good_nothing|].
  destruct (map_default a i (codec_of f) s) as [w s1] eqn:Ed. destruct (default_prepared w s1 Ed) as [P1 I1].
  destruct (put_entries a i _ s1) as [s2|] eqn:E2; [|done]. intros [= <- <-]. revert s2 E2.
  assert (entries s1 a i = entries s a i) as Ee by (unfold entries; by rewrite (g_old _ _ (pr_grows _ _ _ _ _ _ P1)) by done).
  apply (entries_done s1 [w] _ []); [done|done| | |by apply dict_set_wf, (map_wf s1 [w])].
  - rewrite Ee. pose proof (dict_set_perm (entries s a i) k' w) as Hp. by rewrite Eg in Hp.
  - apply dict_set_in.
Qed.

Lemma dict_del_perm (es : list (scalar * ref)) k v : dict_wf es -> dict_get es k = Some v -> (dict_del es k).*2 ++ [v] ≡ₚ es.*2 ++ [].
Proof.
  induction es as [|[k' v'] es IH]; [done|]. intros [Hn Hwf]%dict_wf_cons. cbn [dict_del dict_get]. case_decide; subst.
  - intros [= ->]. rewrite app_nil_r. cbn. rewrite Permutation_app_comm. cbn. f_equiv. clear -Hn. induction es as [|[k1 v1] es IH]; [done|].
    cbn [dict_get] in Hn. cbn [dict_del]. case_decide; [done|]. cbn. f_equiv. by apply IH.
  - intros Hg. cbn. f_equiv. by apply IH.
Qed.

Lemma map_delete_ok k : good D P a s (map_delete a i kc k s).
Proof.
  intros s'. unfold map_delete. destruct (normal_key kc k) as [k'|]; [|done]. cbn [mbind result_bind].
  destruct (dict_get (entries s a i) k') as [v|] eqn:Eg; [|done]. revert s'. change (bind_mutation v Ignored s) with (detach_all [v] s).
  pose proof (map_wf s [] (nothing_prepared _ _ _ _) no_values) as Hwf.
  apply (entries_done s []); [apply nothing_prepared|apply no_values|by apply dict_del_perm|apply submseteq_nil_l|by apply dict_del_wf].
Qed.

Lemma prepare_entries_ok es acc s0 Q es' s' :
  inv D Q None s0 -> calm D s0 -> (a < length (objects s0))%nat -> (forall b, b ∈ addrs es.*2 -> (b < length (objects s0))%nat) ->
  NoDup (normal_key kc <$> es.*1) -> (forall k k', k ∈ es.*1 -> normal_key kc k = Ok k' -> dict_get acc k' = None) -> dict_wf acc ->
  prepare_entries fuel a i kc (codec_of f) es acc s0 = Ok (es', s') ->
  exists vs, prepared a i (codec_of f) vs s0 s' /\ inv D (Q ∪ list_to_set (addrs vs)) None s' /\ es'.*2 ≡ₚ acc.*2 ++ vs /\ dict_wf es'.
Proof.
  revert acc s0 Q. induction es as [|[k v] es IH]; intros acc s0 Q Hi0 Hc0 Ha0 Hb Hnd Hnew Hwf; cbn [prepare_entries].
  { intros [= <- <-]. exists []. split_and!; [apply nothing_prepared| |by rewrite app_nil_r|done]. eapply inv_pending; [|exact Hi0]. set_solver. }
  destruct (normal_key kc k) as [k'|] eqn:Ek; [|done]. cbn [mbind result_bind].
  destruct (_prepare _ a i _ v s0) as [[w s1]|] eqn:E1; [|done]. cbn [mbind result_bind]. intros E2.
  cbn in Hb, Hnd. apply NoDup_cons in Hnd as [Hk1 Hnd].
  destruct (obj_prepare_ok HS (MergeFrom fuel) D Q s0 a i (codec_of f) v w s1 Hmf Hi0 Hc0 Ha0) as [P1 I1]; [intros b Hb'; apply Hb; set_solver|done|].
  pose proof (pr_grows _ _ _ _ _ _ P1) as G1. pose proof G1 as []. assert (dict_get acc k' = None) as Hacc by (apply (Hnew k); [left|done]).
  destruct (IH (dict_set acc k' w) s1 _ I1) as (vs & P2 & I2 & Hp2 & Hw2); [by eapply grows_calm|lia| |done| |by apply dict_set_wf|done|].
  { intros b Hb'. assert (b < length (objects s0))%nat; [|lia]. apply Hb. set_solver. }
  { intros k2 k2' Hin Hn2. rewrite dict_get_set_ne; [apply (Hnew k2); [by right|done]|]. intros ->. apply Hk1. rewrite Ek, <- Hn2. by apply list_elem_of_fmap_2. }
  exists (w :: vs). split; [by eapply prepared_cons|]. split; [|split; [|done]].
  - rewrite bind_singleton in I2. rewrite bind_cons. eapply inv_pending; [|exact I2]. set_solver.
  - rewrite Hp2, dict_set_new by (by apply dict_get_None). rewrite fmap_app. cbn. by rewrite <- app_assoc.
Qed.

Lemma replace_entries_ok es :
  (forall b, b ∈ addrs es.*2 -> (b < length (objects s))%nat) -> NoDup (normal_key kc <$> es.*1) ->
  good D P a s (replace_entries fuel a i kc f es s).
Proof.
  intros Hb Hnd s'. unfold replace_entries. destruct (prepare_entries _ a i kc _ es [] s) as [[es' s1]|] eqn:E; [|done]. cbn [mbind result_bind].
  destruct (prepare_entries_ok es [] s P es' s1) as (vs & P1 & I1 & Hp & Hwf); [done..|apply dict_nil_wf|done|]. revert s'.
  eapply entries_done; [done|done| | |done].
  - rewrite Hp. cbn. apply Permutation_app_comm.
  - by rewrite Hp.
Qed.

Lemma obj_setdefault_ok k v :
  (forall w b, v = Some w -> b ∈ ref_addr w -> (b < length (objects s))%nat) -> good D P a s (setdefault fuel a i kc f k v s).
Proof.
  intros Hb. unfold setdefault. destruct (message_field f); [done|]. destruct v as [v|]; [|done]. destruct (normal_key kc k) as [k'|]; [|done].
  cbn [mbind result_bind]. destruct (dict_get _ k'); [by apply good_nothing|]. eapply (map_set_ok HS); try done. eauto.
Qed.

End Map.

End Containers.

(** *** Assignment *)

Definition alive s (v : ref) : Prop := forall b, b ∈ ref_addr v -> (b < length (objects s))%nat.

(** The messages of an argument exist; the keys of a mapping stay distinct when
    they are normalized. *)
Definition argument_ok s (f : Field) (x : argument) : Prop :=
  match x with
  | AValue v => alive s v
  | AList vs => Forall (alive s) vs
  | ADict es => Forall (alive s) es.*2 /\ forall kc, map_key_codec f = Some kc -> NoDup (normal_key kc <$> es.*1)
  | ANone | AOther => True
  end.

Lemma alive_all s vs : Forall (alive s) vs <-> forall b, b ∈ addrs vs -> (b < length (objects s))%nat.
Proof.
  rewrite Forall_forall. split.
  - intros Hv b (v & Hb & Hin)%list_elem_of_bind. by apply (Hv v).
  - intros Hb v Hin b Hbv. apply Hb, list_elem_of_bind. by exists v.
Qed.

Lemma argument_grows s s' f x : (length (objects s) <= length (objects s'))%nat -> argument_ok s f x -> argument_ok s' f x.
Proof.
  intros Hl. assert (forall v, alive s v -> alive s' v) as Hv by (intros v Ha b Hb%Ha; lia).
  destruct x as [|v|vs|es|]; simpl; try done; [apply Hv|intros; by eapply Forall_impl|]. intros [Hes ?]. split; [|done]. by eapply Forall_impl.
Qed.

Lemma good_record D P a i f s r : good D P a s r -> good D P a s (s ← r; Ok (record_if_empty a i f s)).
Proof.
  intros Hr s'. destruct r as [s1|]; [|done]. cbn [mbind result_bind]. intros [= <-]. destruct (Hr s1 eq_refl) as [I1 F1].
  assert (objects (record_if_empty a i f s1) = objects s1) as E by (unfold record_if_empty; repeat case_match; try done; apply record_objects).
  split; [by eapply inv_masks|]. destruct F1. assert (forall x, obj (record_if_empty a i f s1) x = obj s1 x) as Hx by (intros x; by apply obj_masks).
  assert (forall p j c, held (record_if_empty a i f s1) p j c <-> held s1 p j c) as Hh by (intros; unfold held; by rewrite Hx).
  split; try setoid_rewrite Hx; rewrite ?E; try done; [intros p j c Hk%Hh; by apply e_held|intros p j c Hk%Hh; by eapply e_order].
Qed.

Lemma quiet_effect D P a s s1 : inv D P None s -> effect a s s1 -> absorbed s a \/ P = ∅ -> absorbed s1 a \/ P = ∅.
Proof. intros Hi He [?|?]; [left|by right]. eapply effect_absorbed; [by eapply inv_ordered|done|done]. Qed.

Lemma obj_set_field_ok fuel D P s a i f x :
  inv D P None s -> calm D s -> absorbed s a \/ P = ∅ -> (a < length (objects s))%nat -> field_of s a i = Some f -> argument_ok s f x ->
  good D P a s (MessageObjects._set_field fuel a i f x s).
Proof.
  intros Hi Hc Hq Ha Hf Hx. unfold MessageObjects._set_field.
  assert (good D P a s (clear_and_record a i f s)) as Hclear by (by apply acts_good, done_acts, clear_and_record_ok).
  destruct (map_key_codec f) as [kc|] eqn:Hk.
  - destruct x as [|v|vs|es|]; try done. destruct Hx as [Hes Hnd]. eapply good_made; [done|by eapply map_made|].
    intros I1 F1. pose proof (e_len _ _ _ F1). apply good_record. apply replace_entries_ok; [done|by eapply effect_calm|exact (quiet_effect _ _ _ _ _ Hi F1 Hq)|lia| |done| |auto].
    + by rewrite (effect_field _ _ _ _ F1).
    + rewrite alive_all in Hes. intros b Hb%Hes. lia.
  - destruct (repeated f) eqn:Hr.
    + assert (forall vs, Forall (alive s) vs -> good D P a s (s0 ← replace_items fuel a i f vs (_repeated a i s); Ok (record_if_empty a i f s0))) as Hitems.
      { intros vs Hvs. eapply good_made; [done|by eapply repeated_made|]. intros I1 F1. pose proof (e_len _ _ _ F1).
        apply good_record. apply replace_items_ok; [done|by eapply effect_calm|exact (quiet_effect _ _ _ _ _ Hi F1 Hq)|lia| |done|done|].
        - by rewrite (effect_field _ _ _ _ F1).
        - rewrite alive_all in Hvs. intros b Hb%Hvs. lia. }
      destruct x as [|v|vs|es|]; try done; cbn [iterate]; apply Hitems; [done|]. apply Forall_forall. intros v Hv.
      apply list_elem_of_fmap in Hv as (e & -> & _). by intros b ?%not_elem_of_nil.
    + assert (singular f = true) as Hs by (by apply singular_keys). destruct x as [|v|vs|es|]; try done. by apply obj_set_singular_ok.
Qed.

Lemma CopyFrom_ok fuel D P s a b :
  inv D P None s -> calm D s -> absorbed s a \/ P = ∅ -> (a < length (objects s))%nat -> (b < length (objects s))%nat ->
  good D P a s (MessageObjects.CopyFrom fuel a b s).
Proof.
  intros Hi Hc Hq Ha Hb. unfold MessageObjects.CopyFrom. destruct (b =? a)%nat; [by apply good_nothing|]. destruct (negb _); [done|].
  destruct (obj_Clear_ok HS D P s a) as (s1 & -> & I1 & F1 & _); [done..|]. cbn [mbind result_bind]. pose proof (e_len _ _ _ F1).
  eapply good_bind; [done|done|]. apply MergeFrom_merges; [done|done|by eapply effect_calm|exact (quiet_effect _ _ _ _ _ Hi F1 Hq)|lia|lia].
Qed.

(** Changes of the mask bookkeeping of [a]. *)
Lemma silent_ok D P s a g :
  (forall o, content (g o) = content o /\ o_mutation (g o) = o_mutation o /\ o_suspended (g o) = o_suspended o) ->
  inv D P None s -> (a < length (objects s))%nat -> acts D P a s (Ok (upd a g s)).
Proof.
  intros Hg Hi Ha. assert (forall x, obj (upd a g s) x = if decide (x = a) then g (obj s a) else obj s x) as Ho by (intros; by apply obj_upd).
  assert (forall x, content (obj (upd a g s) x) = content (obj s x)) as Hc by (intros x; rewrite Ho; case_decide; [subst; apply Hg|done]).
  assert (forall x, o_mutation (obj (upd a g s) x) = o_mutation (obj s x)) as Hm by (intros x; rewrite Ho; case_decide; [subst; apply Hg|done]).
  assert (inv D P None (upd a g s)) as I1 by (eapply inv_ext; [apply length_upd|done|done|done]).
  apply acts_local; [done|]. apply (local_intro a s s); [done|apply grows_refl|by eapply inv_ordered|by eapply inv_ordered|apply length_upd| | |..].
  - intros p j c Hh. left. revert Hh. unfold held. specialize (Hc p). injection Hc as _ -> _ _ _. done.
  - intros x Hx. left. by rewrite Ho, decide_False.
  - specialize (Hc a). by injection Hc.
  - apply Hm.
  - rewrite Ho, decide_True by done. apply Hg.
Qed.

Lemma field_by_python_name_Some k name i f : field_by_python_name k name = Some (i, f) -> FIELDS k !! i = Some f.
Proof.
  unfold field_by_python_name. assert (forall l acc, (forall x, x ∈ l -> x ∈ indexed k) -> (forall i f, acc = Some (i, f) -> FIELDS k !! i = Some f) ->
    forall i f, foldl (fun acc '(i, f) => if public f && bool_decide (python_name f = name) then Some (i, f) else acc) acc l = Some (i, f) ->
    FIELDS k !! i = Some f) as Hl.
  { induction l as [|[j g] l IH]; intros acc Hl Hacc i' f'; [apply Hacc|]. apply IH; [intros x Hx; apply Hl; by right|].
    intros i1 f1. case_match; [|apply Hacc]. intros [= <- <-]. apply indexed_lookup, Hl. left. }
  apply Hl; [done|]. done.
Qed.

Definition arguments_ok s (k : nat) (values : list (pystr * argument)) : Prop :=
  forall name x i f, (name, x) ∈ values -> field_by_python_name k name = Some (i, f) -> argument_ok s f x.

Lemma construct_ok fuel D P s k initial values a s' :
  inv D P None s -> calm D s -> (forall b, initial = Some b -> (b < length (objects s))%nat) -> arguments_ok s k values ->
  construct fuel k initial values s = Ok (a, s') -> inv D P None s' /\ grows s s' /\ (length (objects s) <= a < length (objects s'))%nat.
Proof.
  intros Hi Hc Hinit Hargs. unfold construct. set (s1 := (alloc k s).2). set (c := length (objects s)).
  change (alloc k s) with (c, s1). cbn iota beta.
  pose proof (alloc_ok _ _ _ k _ Hi) as I1. fold s1 in I1. pose proof (grows_alloc k s) as G1. fold s1 in G1. pose proof G1 as [].
  assert (length (objects s1) = S c) as Hl1 by apply length_alloc.
  assert (obj s1 c = mkObject k ∅ ∅ ∅ [] Unbound 0 (length (masks s)) 0) as Hoc by (unfold s1; by rewrite obj_alloc, decide_True).
  assert (absorbed s1 c) as A1 by (right; by rewrite Hoc). pose proof (grows_calm _ _ _ G1 Hc) as C1.
  match goal with |- context [mbind _ ?r] => destruct r as [s2|] eqn:E2; [|done] end. cbn [mbind result_bind].
  assert (inv D P None s2 /\ effect c s1 s2) as [I2 F2].
  { destruct initial as [b|].
    - eapply CopyFrom_ok; [exact I1|done|by left|lia| |exact E2]. specialize (Hinit b eq_refl). lia.
    - injection E2 as <-. split; [done|]. apply effect_refl; [lia|by eapply inv_ordered]. }
  pose proof (e_len _ _ _ F2). pose proof (effect_calm _ _ _ _ F2 C1) as C2.
  destruct (silent_ok D P s2 c (fun o => set_mask_suspended (S (o_mask_suspended o)) o)) as (s3 & [= <-] & I3 & F3); [done|done|lia|].
  set (s3 := upd c _ s2) in *. pose proof (e_len _ _ _ F3). pose proof (effect_calm _ _ _ _ F3 C2) as C3.
  pose proof (inv_ordered _ _ _ _ I1) as O1. pose proof (inv_ordered _ _ _ _ I2) as O2.
  pose proof (effect_trans _ _ _ _ O1 F2 F3) as F13. pose proof (effect_absorbed _ _ _ O1 F13 A1) as A3.
  match goal with |- context [mbind _ ?r] => destruct r as [s4|] eqn:E4; [|done] end. cbn [mbind result_bind].
  assert (inv D P None s4 /\ effect c s3 s4) as [I4 F4].
  { revert s4 E4. match goal with |- forall s4, ?r = Ok s4 -> _ => change (good D P c s3 r) end.
    apply good_loop; [done|done|lia|]. intros s5 [name x] Hin I5 C5 F5. pose proof (e_len _ _ _ F5).
    destruct (field_by_python_name k name) as [[i f]|] eqn:Ef; [|done]. pose proof (Hargs _ _ _ _ Hin Ef) as Hx.
    apply obj_set_field_ok; [done|done|left; exact (effect_absorbed _ _ _ (inv_ordered _ _ _ _ I3) F5 A3)|lia| |].
    - rewrite (effect_field _ _ _ _ F5), (effect_field _ _ _ _ F13). unfold field_of. rewrite Hoc. by apply field_by_python_name_Some in Ef.
    - eapply argument_grows; [|exact Hx]. lia. }
  pose proof (e_len _ _ _ F4).
  destruct (silent_ok D P s4 c (fun o => set_mask_suspended (pred (o_mask_suspended o)) o)) as (s5 & [= <-] & I5 & F5); [done|done|lia|].
  intros [= <- <-]. pose proof (e_len _ _ _ F5). split; [done|].
  pose proof (effect_trans _ _ _ _ O1 (effect_trans _ _ _ _ O1 F13 F4) F5) as F. split; [|lia].
  eapply (fresh_effect s s1 _ c); try done.
Qed.

(** *** Parsing *)

Lemma grows_effect D P O a s s' : inv D P O s' -> (a < length (objects s))%nat -> grows s s' -> local a s s'.
Proof. intros Hi Ha Hg. apply (local_intro a s s'); try done; [by eapply inv_ordered|by eapply inv_ordered|auto|auto]. Qed.

Lemma selects_local D P s s' a i :
  inv D P None s -> inv D P None s' -> (a < length (objects s))%nat -> selects a i s s' -> local a s s'.
Proof.
  intros Hi Hi' Ha []. apply (local_intro a s s); try done; [apply grows_refl|by eapply inv_ordered|by eapply inv_ordered|auto|].
  intros x Hx. destruct (sel_other x Hx) as [->|[(j & Hj & _) ->]]; [by left|right]. split; [left; by exists j|by eexists].
Qed.

(** A class for new messages that are made by parsing. *)
Definition makes (from : nat -> bytes -> store -> outcome (nat * store)) : Prop :=
  forall D P s k b m s', inv D P None s -> calm D s -> from k b s = Ok (m, s') ->
    inv D P None s' /\ grows s s' /\ fresh s s' (RM m) /\ o_cls (obj s' m) = k.

Section Parse.
Context (from : nat -> bytes -> store -> outcome (nat * store)) (Hfrom : makes from) (fuel : nat).

Lemma read_ref_ok D P s c r v r' s' :
  inv D P None s -> calm D s -> read_ref from c r s = Ok (v, r', s') ->
  inv D P None s' /\ grows s s' /\ fresh s s' v /\ ref_ok s' c v.
Proof.
  intros Hi Hc. unfold read_ref. destruct c as [ic| | | | |k];
    try (destruct (lift (lift_read _ r)) as [[x r1]|]; [|done]; cbn [mbind result_bind]; intros [= <- <- <-];
         split_and!; [done|apply grows_refl|by intros b ?%not_elem_of_nil|done]).
  destruct (lift (lift_read BinaryReader.read_bytes r)) as [[b r1]|]; [|done]. cbn [mbind result_bind].
  destruct (from k b s) as [[m s1]|] eqn:E; [|done]. cbn [mbind result_bind]. intros [= <- <- <-].
  destruct (Hfrom D P s k b m s1) as (? & ? & ? & ?); [done..|]. done.
Qed.

(** The value of an entry that is being read is new. *)
Definition entry_fresh s0 s (c : codec) (e : entry_state) : Prop := ref_ok s c (m_value e) /\ fresh s0 s (m_value e).

Lemma fresh_grows s0 s s' v : grows s s' -> fresh s0 s v -> fresh s0 s' v.
Proof. intros [] Hf b Hb. destruct (Hf b Hb). split; [lia|]. rewrite g_old by lia. done. Qed.

Lemma fresh_later s0 s s' v : grows s0 s -> fresh s s' v -> fresh s0 s' v.
Proof. intros [] Hf b Hb. destruct (Hf b Hb). split; [lia|done]. Qed.

Lemma ref_ok_grows_fresh s0 s s' c v : grows s s' -> fresh s0 s v -> ref_ok s c v -> ref_ok s' c v.
Proof. intros Hg Hf. apply ref_ok_grows; [done|]. intros b Hb. destruct (Hf b Hb). lia. Qed.

Lemma entry_ref_ok D P s0 s c e v e' s' :
  inv D P None s -> calm D s -> grows s0 s -> entry_fresh s0 s c e -> fresh s0 s v -> ref_ok s c v ->
  entry_ref fuel c e v s = Ok (e', s') -> inv D P None s' /\ grows s0 s' /\ entry_fresh s0 s' c e' /\ calm D s'.
Proof.
  intros Hi Hc Hg [He Hef] Hv Hvr. unfold entry_ref. destruct (unknown_value c v); [by intros [= <- <-]|].
  destruct (m_value e) as [x|m] eqn:Em, v as [y|m']; try (by intros [= <- <-]). destruct (m_seen e); [|by intros [= <- <-]].
  destruct (MergeFrom fuel m m' s) as [s1|] eqn:E; [|done]. cbn [mbind result_bind]. intros [= <- <-].
  destruct (Hef m) as [Hm1 Hm2]; [left|]. destruct (Hv m') as [Hm1' _]; [left|]. assert (absorbed s m) as Ha by (right; by rewrite Hm2).
  destruct (MergeFrom_merges HS fuel D P s m m' Hi Hc (or_introl Ha) ltac:(lia) ltac:(lia) s1 E) as [I1 F1].
  split; [done|]. split; [eapply fresh_effect; [done|by eapply inv_ordered| |done|done]; lia|]. split; [|by eapply effect_calm]. split; cbn [m_value].
  - revert He. unfold ref_ok. destruct c; try done. rewrite (e_cls _ _ _ F1) by lia. done.
  - intros b ->%list_elem_of_singleton. pose proof (e_len _ _ _ F1). split; [lia|]. by rewrite (e_self _ _ _ F1).
Qed.

Lemma skip_part_value e n w start r e' r' : skip_part e n w start r = Ok (e', r') -> m_value e' = m_value e.
Proof. unfold skip_part. destruct (lift _) as [[? ?]|]; [|done]. by intros [= <- <-]. Qed.

Lemma entry_part_ok D P s0 s kc c e r e' r' s' :
  inv D P None s -> calm D s -> grows s0 s -> entry_fresh s0 s c e ->
  entry_part from fuel kc c e r s = Ok (e', r', s') -> inv D P None s' /\ grows s0 s' /\ entry_fresh s0 s' c e' /\ calm D s'.
Proof.
  intros Hi Hc Hg He. unfold entry_part. destruct (lift (lift_read BinaryReader.read_tag r)) as [[[[n w] start] r1]|]; [|done]. cbn [mbind result_bind].
  assert (forall e2 r2, skip_part e n w start r1 = Ok (e2, r2) -> entry_fresh s0 s c e2) as Hskip.
  { intros e2 r2 E%skip_part_value. unfold entry_fresh. by rewrite E. }
  destruct (n =? 1); [destruct (w =? wire_type_of kc)|destruct (n =? 2); [destruct (w =? wire_type_of c)|]];
    try (destruct (skip_part e n w start r1) as [[e2 r2]|] eqn:Es; [|done]; cbn [mbind result_bind]; intros [= <- <- <-]; split_and!; eauto; fail).
  - destruct (lift (lift_read (read_scalar kc) r1)) as [[k r2]|]; [|done]. cbn [mbind result_bind]. by intros [= <- <- <-].
  - destruct (read_ref from c r1 s) as [[[v r2] s1]|] eqn:Er; [|done]. cbn [mbind result_bind].
    destruct (read_ref_ok D P s c r1 v r2 s1 Hi Hc Er) as (I1 & G1 & Fv & Rv).
    destruct (entry_ref fuel c e v s1) as [[e2 s2]|] eqn:Ee; [|done]. cbn [mbind result_bind]. intros [= <- <- <-].
    destruct He as [He1 He2]. eapply entry_ref_ok; [done|by eapply grows_calm|by eapply grows_trans| |by eapply fresh_later|done|done].
    split; [by eapply ref_ok_grows_fresh|by eapply fresh_grows].
Qed.

Lemma entry_parts_ok n D P s0 s kc c e r e' s' :
  inv D P None s -> calm D s -> grows s0 s -> entry_fresh s0 s c e ->
  entry_parts from fuel n kc c e r s = Ok (e', s') -> inv D P None s' /\ grows s0 s' /\ entry_fresh s0 s' c e' /\ calm D s'.
Proof.
  revert s e r. induction n as [|n IH]; intros s e r Hi Hc Hg He; cbn [entry_parts]; (destruct (BinaryReader.eof r); [by intros [= <- <-]|]); [done|].
  destruct (entry_part from fuel kc c e r s) as [[[e1 r1] s1]|] eqn:E; [|done]. cbn [mbind result_bind].
  destruct (entry_part_ok D P s0 s kc c e r e1 r1 s1) as (? & ? & ? & ?); [done..|]. by apply IH.
Qed.

Lemma obj_add_unknown_ok D P s a raw :
  inv D P None s -> calm D s -> o_suspended (obj s a) <> 0%nat -> (a < length (objects s))%nat ->
  inv D P None (add_unknown a raw s) /\ effect a s (add_unknown a raw s).
Proof.
  intros Hi Hc Hsu Ha.
  assert (a ∈ D) as HaD by (by apply Hc). unfold add_unknown.
  assert (upd a (fun o => set_unknowns (o_unknown o ++ [raw]) o) s = upd a (set_unknowns (o_unknown (obj s a) ++ [raw])) s) as ->.
  { unfold upd. f_equal. apply list_eq. intros x. destruct (decide (x = a)) as [->|]; [|by rewrite !list_lookup_alter_ne].
    rewrite !list_lookup_alter_eq. unfold obj. by destruct (objects s !! a). }
  assert (inv D P None (upd a (set_unknowns (o_unknown (obj s a) ++ [raw])) s)) as I1.
  { eapply inv_weaken; [|by apply unknown_ok]. set_solver. }
  split; [done|]. apply local_effect, (local_intro a s s); try done; [apply grows_refl|by eapply inv_ordered|by eapply inv_ordered|apply length_upd| | |..].
  - intros p j c Hh. left. revert Hh. unfold held. rewrite obj_upd by done. case_decide; by subst.
  - intros x Hx. left. by rewrite obj_upd_ne.
  - by rewrite obj_upd, decide_True.
  - by rewrite obj_upd, decide_True.
  - by rewrite obj_upd, decide_True.
Qed.

Section At.
Context D P s (a i : nat) (f : Field).
Context (Hi : inv D P None s) (Hc : calm D s) (Hsu : o_suspended (obj s a) <> 0%nat) (Ha : (a < length (objects s))%nat) (Hf : field_of s a i = Some f).

Lemma decode_entry_ok kc payload b s' :
  map_key_codec f = Some kc -> MessageObjects._decode_map_entry from fuel a i f kc payload s = Ok (b, s') -> inv D P None s' /\ effect a s s'.
Proof.
  intros Hk. unfold MessageObjects._decode_map_entry. destruct (default_ref (codec_of f) s) as [v s1] eqn:Ed.
  assert (inv D P None s1 /\ grows s s1 /\ fresh s s1 v /\ ref_ok s1 (codec_of f) v) as (I1 & G1 & F1 & R1).
  { unfold default_ref in Ed. destruct (codec_of f) as [ic| | | | |k];
      try (injection Ed as <- <-; split_and!; [done|apply grows_refl|by intros ? ?%not_elem_of_nil|done]).
    injection Ed as <- <-. change (mkStore _ _) with (alloc k s).2. split_and!.
    - by apply alloc_ok.
    - apply grows_alloc.
    - intros ? ->%list_elem_of_singleton. rewrite length_alloc, obj_alloc, decide_True by done. split; [lia|done].
    - cbn [ref_ok]. by rewrite obj_alloc, decide_True. }
  destruct (entry_parts _ _ _ _ _ _ _ s1) as [[e s2]|] eqn:Ep; [|done]. cbn [mbind result_bind].
  eapply (entry_parts_ok _ D P s) in Ep as (I2 & G2 & [R2 F2] & C2); [|done|by eapply grows_calm|done|by split].
  pose proof (local_effect _ _ _ (grows_effect _ _ _ _ _ _ I2 Ha G2)) as E2. destruct (m_invalid e); [by intros [= <- <-]|].
  pose proof G2 as []. assert (field_of s2 a i = Some f) as Hf2 by (by erewrite grows_field).
  destruct (map_made HS D P s2 a i f kc) as (s3 & [= <-] & I3 & F3); [done|lia|done|done|]. pose proof (e_len _ _ _ F3).
  destruct (map_set _ a i kc f (m_key e) (m_value e) (_map a i s2)) as [s4|] eqn:E4; [|done]. cbn [mbind result_bind]. intros [= <- <-].
  apply (map_set_ok HS _ (MergeFrom_merges HS fuel) D P _ a i f I3) in E4 as [I4 F4]; [|by eapply effect_calm|left; left|lia| |done|].
  - split; [done|]. pose proof (inv_ordered _ _ _ _ Hi). eapply effect_trans; [done|eapply effect_trans; [done|exact E2|exact F3]|done].
  - by rewrite (e_susp _ _ _ F3), g_old by lia.
  - by rewrite (effect_field _ _ _ _ F3).
  - intros c Hcv. destruct (F2 c Hcv). lia.
Qed.

Lemma obj_append_ok v : map_key_codec f = None -> repeated f = true -> alive s v -> good D P a s (append fuel a i f v s).
Proof. intros Hk Hr Hv. unfold append. apply obj_insert_ok; try done. by left; left. Qed.

End At.

(** One step of work on the suspended message [a]. *)
Definition parses D P a s (r : outcome (Reader * store)) : Prop := forall r' s', r = Ok (r', s') -> inv D P None s' /\ effect a s s'.

Lemma packed_ok D P s a i f vs :
  inv D P None s -> calm D s -> o_suspended (obj s a) <> 0%nat -> (a < length (objects s))%nat -> field_of s a i = Some f ->
  map_key_codec f = None -> repeated f = true -> good D P a s (loop (MessageObjects.packed_value fuel a i f) vs s).
Proof.
  intros Hi Hc Hsu Ha Hf Hk Hr. apply good_loop; [done..|]. intros s1 x _ I1 C1 F1. pose proof (e_len _ _ _ F1).
  assert (o_suspended (obj s1 a) <> 0%nat) as Hs1 by (by rewrite (e_susp _ _ _ F1)).
  unfold MessageObjects.packed_value. destruct (closed_unknown _ _).
  - destruct (lift (packed_unknown f x)) as [raw|]; [|done]. cbn [mbind result_bind]. intros s2 [= <-]. apply obj_add_unknown_ok; [done..|lia].
  - apply obj_append_ok; try done; [lia|by rewrite (effect_field _ _ _ _ F1)|by intros b ?%not_elem_of_nil].
Qed.

Lemma obj_try_decode_ok D P s a i f w start r x :
  inv D P None s -> calm D s -> o_suspended (obj s a) <> 0%nat -> (a < length (objects s))%nat -> field_of s a i = Some f ->
  MessageObjects._try_decode_field from fuel a i f w start r s = Ok (Some x) -> inv D P None x.2 /\ effect a s x.2.
Proof.
  intros Hi Hc Hsu Ha Hf. pose proof (inv_ordered _ _ _ _ Hi) as Ho. unfold MessageObjects._try_decode_field. destruct (map_key_codec f) as [kc|] eqn:Hk.
  - destruct (negb _); [done|]. destruct (lift _) as [[payload r1]|]; [|done]. cbn [mbind result_bind].
    destruct (MessageObjects._decode_map_entry from fuel a i f kc payload s) as [[known s1]|] eqn:E; [|done]. cbn [mbind result_bind].
    destruct (decode_entry_ok D P s a i f Hi Hc Hsu Ha Hf kc payload known s1 Hk E) as [I1 F1]. pose proof (e_len _ _ _ F1).
    destruct known; [by intros [= <-]|]. destruct (lift (raw_since start r1)) as [raw|]; [|done]. cbn [mbind result_bind]. intros [= <-].
    destruct (obj_add_unknown_ok D P s1 a raw I1) as [? ?]; [by eapply effect_calm|by rewrite (e_susp _ _ _ F1)|lia|].
    split; [done|]. by eapply effect_trans.
  - destruct (repeated f && packable_of (codec_of f) && (w =? WIRE_LENGTH_DELIMITED)) eqn:Epk.
    + apply andb_true_iff in Epk as [[Hr _]%andb_true_iff _]. destruct (lift _) as [[vs r1]|]; [|done]. cbn [mbind result_bind].
      destruct (repeated_made HS D P s a i f) as (s1 & [= <-] & I1 & F1); [done..|]. pose proof (e_len _ _ _ F1).
      destruct (loop _ vs (_repeated a i s)) as [s2|] eqn:E2; [|done]. cbn [mbind result_bind]. intros [= <-].
      apply (packed_ok D P) in E2 as [I2 F2]; [|done|by eapply effect_calm|by rewrite (e_susp _ _ _ F1)|lia|by rewrite (effect_field _ _ _ _ F1)|done|done].
      split; [done|]. by eapply effect_trans.
    + clear Epk. destruct (negb _); [done|]. destruct (read_ref from (codec_of f) r s) as [[[v r1] s1]|] eqn:Er; [|done]. cbn [mbind result_bind].
      destruct (read_ref_ok D P s (codec_of f) r v r1 s1 Hi Hc Er) as (I1 & G1 & Fv & Rv). pose proof G1 as [].
      pose proof (local_effect _ _ _ (grows_effect _ _ _ _ _ _ I1 Ha G1)) as F1. pose proof (effect_calm _ _ _ _ F1 Hc) as C1.
      assert (o_suspended (obj s1 a) <> 0%nat) as Hs1 by (by rewrite g_old). assert (field_of s1 a i = Some f) as Hf1 by (by erewrite grows_field).
      destruct (lift (raw_since start r1)) as [raw|]; [|done]. cbn [mbind result_bind]. destruct (unknown_value _ _).
      { intros [= <-]. destruct (obj_add_unknown_ok D P s1 a raw I1 C1 Hs1 ltac:(lia)) as [? ?]. split; [done|]. by eapply effect_trans. }
      destruct (repeated f) eqn:Hr.
      * destruct (repeated_made HS D P s1 a i f) as (s2 & [= <-] & I2 & F2); [done|lia|done..|]. pose proof (e_len _ _ _ F2).
        destruct (append fuel a i f v (_repeated a i s1)) as [s3|] eqn:E3; [|done]. cbn [mbind result_bind]. intros [= <-].
        apply (obj_append_ok D P) in E3 as [I3 F3]; [|done|by eapply effect_calm|by rewrite (e_susp _ _ _ F2) by lia|lia|by rewrite (effect_field _ _ _ _ F2)|done|done|].
        -- split; [done|]. eapply effect_trans; [done|by eapply effect_trans|done].
        -- intros b Hb. destruct (Fv b Hb). lia.
      * assert (singular f = true) as Hs by (by apply singular_keys).
        destruct (obj_deselect_ok HS _notify D P None s1 a i f) as (s2 & -> & I2 & L2 & _); [done|lia|done|by left|]. cbn [mbind result_bind].
        assert (a < length (objects s1))%nat as Ha1 by lia. pose proof (selects_local _ _ _ _ _ _ I1 I2 Ha1 L2) as Lo2. pose proof (local_effect _ _ _ Lo2) as F2. destruct L2.
        pose proof (effect_calm _ _ _ _ F2 C1) as C2.
        assert (ref_ok s2 (codec_of f) v) as Rv2.
        { revert Rv. unfold ref_ok. destruct (codec_of f), v as [y|cv]; try done. destruct (Fv cv) as [? _]; [left|]. by rewrite (e_cls _ _ _ F2) by lia. }
        destruct (copy (MergeFrom fuel) (codec_of f) v s2) as [[v' s3]|] eqn:Ec; [|done]. cbn [mbind result_bind].
        destruct (copy_ok HS _ D P s2 (codec_of f) v v' s3 (MergeFrom_merges HS fuel) I2 C2 Rv2) as (I3 & G3 & R3 & F3); [|done|].
        { intros b Hb. destruct (Fv b Hb). lia. }
        pose proof G3 as [L3 O3 _]. destruct (merge_one _ a i f v' s3) as [s4|] eqn:E4; [|done]. cbn [mbind result_bind]. intros [= <-].
        apply (merge_one_ok HS _ D P s2) in E4 as [I4 F4]; try done.
        -- split; [done|]. eapply effect_trans; [done|exact F1|]. eapply effect_trans; [by eapply inv_ordered|exact F2|done].
        -- apply MergeFrom_merges; done.
        -- by eapply grows_calm.
        -- lia.
        -- rewrite O3 by lia. by rewrite sel_suspended.
        -- rewrite (grows_field s2 s3) by (done || lia). by rewrite (effect_field _ _ _ _ F2).
Qed.

Lemma obj_keep_unknown_ok D P s a n w start r :
  inv D P None s -> calm D s -> o_suspended (obj s a) <> 0%nat -> (a < length (objects s))%nat ->
  parses D P a s (MessageObjects.keep_unknown a n w start r s).
Proof.
  intros Hi Hc Hsu Ha r' s'. unfold MessageObjects.keep_unknown. destruct (lift _) as [[raw r1]|]; [|done]. cbn [mbind result_bind].
  intros [= <- <-]. by apply obj_add_unknown_ok.
Qed.

Lemma obj_field_by_number_Some k n i f : field_by_number k n = Some (i, f) -> FIELDS k !! i = Some f.
Proof.
  unfold field_by_number. assert (forall l acc, (forall x, x ∈ l -> x ∈ indexed k) -> (forall i f, acc = Some (i, f) -> FIELDS k !! i = Some f) ->
    forall i f, foldl (fun acc '(i, f) => if number f =? n then Some (i, f) else acc) acc l = Some (i, f) -> FIELDS k !! i = Some f) as Hl.
  { induction l as [|[j g] l IH]; intros acc Hl Hacc i' f'; [apply Hacc|]. apply IH; [intros x Hx; apply Hl; by right|].
    intros i1 f1. case_match; [|apply Hacc]. intros [= <- <-]. apply indexed_lookup, Hl. left. }
  apply Hl; [done|]. done.
Qed.

Lemma obj_merge_step_ok D P s a r :
  inv D P None s -> calm D s -> o_suspended (obj s a) <> 0%nat -> (a < length (objects s))%nat ->
  parses D P a s (MessageObjects.merge_step from fuel a r s).
Proof.
  intros Hi Hc Hsu Ha r' s'. unfold MessageObjects.merge_step. destruct (lift _) as [[[[n w] start] r1]|]; [|done]. cbn [mbind result_bind].
  destruct (field_by_number _ n) as [[i f]|] eqn:Ef; [|by apply obj_keep_unknown_ok].
  destruct (MessageObjects._try_decode_field from fuel a i f w start r1 s) as [[x|]|] eqn:E; [|by apply obj_keep_unknown_ok|done]. cbn [mbind result_bind].
  intros [= ->]. apply (obj_try_decode_ok D P) in E; [done|done|done|done|done|]. by apply obj_field_by_number_Some in Ef.
Qed.

Lemma obj_merge_loop_ok n D P s a r :
  inv D P None s -> calm D s -> o_suspended (obj s a) <> 0%nat -> (a < length (objects s))%nat ->
  good D P a s (MessageObjects.merge_loop from fuel n a r s).
Proof.
  revert s r. induction n as [|n IH]; intros s r Hi Hc Hsu Ha; cbn [MessageObjects.merge_loop]; (destruct (BinaryReader.eof r); [by apply good_nothing|]); [done|].
  destruct (MessageObjects.merge_step from fuel a r s) as [[r1 s1]|] eqn:E; [|done]. cbn [mbind result_bind].
  apply (obj_merge_step_ok D P) in E as [I1 F1]; [|done..]. eapply good_bind; [done|done|].
  apply IH; [done|by eapply effect_calm|by rewrite (e_susp _ _ _ F1)|pose proof (e_len _ _ _ F1); lia].
Qed.

End Parse.

Lemma obj_resume a s x :
  (a < length (objects s))%nat -> obj (resume a s) x = if decide (x = a) then set_suspended (pred (o_suspended (obj s a))) (obj s a) else obj s x.
Proof. intros Ha. unfold resume. by rewrite obj_upd. Qed.

(** Parsing works at and under the message; its owners are not told. *)
Lemma obj_merge_from_string_ok d D P s a payload s' :
  inv D P None s -> calm D s -> (a < length (objects s))%nat -> MessageObjects.merge_from_string d payload a s = Ok s' ->
  inv ({[a]} ∪ D) P None s' /\ local a s s'.
Proof.
  revert D P s a payload s'. induction d as [|d IH]; intros D P s a payload s' Hi Hc Ha; [done|]. cbn [MessageObjects.merge_from_string].
  set (from := fun k b s => _). assert (makes from) as Hfrom.
  { intros D0 P0 s0 k b m s1 Hi0 Hc0. unfold from. set (s2 := (alloc k s0).2). set (c := length (objects s0)). change (alloc k s0) with (c, s2). cbn iota beta.
    pose proof (alloc_ok _ _ _ k _ Hi0) as I2. fold s2 in I2. pose proof (grows_alloc k s0) as G2. fold s2 in G2. pose proof G2 as [].
    assert (length (objects s2) = S c) as Hl2 by apply length_alloc.
    assert (obj s2 c = mkObject k ∅ ∅ ∅ [] Unbound 0 (length (masks s0)) 0) as Hoc by (unfold s2; by rewrite obj_alloc, decide_True).
    assert (absorbed s2 c) as A2 by (right; by rewrite Hoc). pose proof (grows_calm _ _ _ G2 Hc0) as C2.
    destruct (obj_Clear_ok HS D0 P0 s2 c) as (s3 & -> & I3 & F3 & _); [done|done|by left|lia|]. cbn [mbind result_bind]. pose proof (e_len _ _ _ F3).
    destruct (MessageObjects.merge_from_string d b c s3) as [s4|] eqn:E4; [|done]. cbn [mbind result_bind]. intros [= <- <-].
    destruct (IH D0 P0 s3 c b s4) as [I4 L4]; [done|by eapply effect_calm|lia|done|].
    pose proof (effect_trans _ _ _ _ (inv_ordered _ _ _ _ I2) F3 (local_effect _ _ _ L4)) as F. pose proof (e_len _ _ _ F).
    assert (o_mutation (obj s4 c) = Unbound) as Hm4 by (rewrite (e_self _ _ _ F); by rewrite Hoc). split_and!.
    - apply (undirty _ _ _ _ c); [done|]. eapply inert_known; [exact I4|congruence].
    - eapply (fresh_effect s0 s2 _ c); try done. by eapply inv_ordered.
    - intros ? ->%list_elem_of_singleton. split; [lia|done].
    - rewrite (e_cls _ _ _ F) by lia. by rewrite Hoc. }
  pose proof (suspend_ok _ _ _ _ _ Ha Hi) as I0. pose proof (suspend_calm HS _ _ _ Ha Hc) as C0.
  assert (length (objects (suspend a s)) = length (objects s)) as Hl0 by apply length_upd.
  assert (o_suspended (obj (suspend a s) a) <> 0%nat) as Hs0 by (by rewrite obj_suspend, decide_True).
  apply (inv_weaken _ ({[a]} ∪ D)) in I0; [|set_solver].
  destruct (MessageObjects.merge_loop from _ _ _ _ _) as [s1|] eqn:E1; [|done]. cbn [mbind result_bind]. intros [= <-].
  apply (obj_merge_loop_ok from Hfrom _ _ ({[a]} ∪ D) P) in E1 as [I1 F1]; [|done|done|done|lia]. pose proof (e_len _ _ _ F1).
  assert (a < length (objects s1))%nat as Ha1 by lia. split.
  - eapply inv_ext; [apply length_upd| | |exact I1]; intros x; rewrite obj_resume by done; case_decide; by subst.
  - apply (local_suspended a s s1); try done.
    + apply effect_is_local; [by left|done].
    + apply length_upd.
    + intros x Hx. by rewrite obj_resume, decide_False.
    + by rewrite obj_resume, decide_True.
    + by rewrite obj_resume, decide_True.
    + by rewrite obj_resume, decide_True.
    + by rewrite obj_resume, decide_True.
Qed.

End Api.
