(* ===== verification/MessageObjectsTheorems.v ===== *)
(** * Messages as objects: the theorems

    User code works on the messages of a store by their public operations, in any
    order and on any object it ever got hold of; the operations return.  A dict that is
    assigned to a map field has keys that stay distinct when they are normalized. *)
From stdpp Require Import gmap.
From S2P Require Import Prelude PyStr Json FieldMask Bytes Wire ValueCodec Metadata Message MessageInv MessageOps MessageSteps MessageObjects MessageObjectsInv MessageObjectsSteps MessageObjectsWork MessageObjectsOps MessageObjectsApi.

Section Theorems.
Context `{Schema}.

Definition values_of_map (f : Field) (kc : codec) : Prop := map_key_codec f = Some kc.
Definition values_of_list (f : Field) : Prop := map_key_codec f = None /\ repeated f = true.

(** An operation on the message at [a], or on a container of it: all that tell the
    owners.  [MergeFromString] tells nobody, so here it is into a message its owner has
    present already. *)
Inductive acts_on (a : nat) (s : store) : store -> Prop :=
| on_get i f absent : field_of s a i = Some f -> acts_on a s (_get_field a i f absent s).2
| on_set fuel i f x s' : field_of s a i = Some f -> argument_ok s f x -> MessageObjects._set_field fuel a i f x s = Ok s' -> acts_on a s s'
| on_clear_field name s' : MessageObjects.ClearField a name s = Ok s' -> acts_on a s s'
| on_clear s' : MessageObjects.Clear a s = Ok s' -> acts_on a s s'
| on_merge fuel b s' : (b < length (objects s))%nat -> MessageObjects.MergeFrom fuel a b s = Ok s' -> acts_on a s s'
| on_copy fuel b s' : (b < length (objects s))%nat -> MessageObjects.CopyFrom fuel a b s = Ok s' -> acts_on a s s'
| on_parse payload s' : MessageObjects.ParseFromString payload a s = Ok s' -> acts_on a s s'
| on_merge_string payload s' : known a s -> MessageObjects.MergeFromString payload a s = Ok s' -> acts_on a s s'
| on_setitem fuel i f n v s' : field_of s a i = Some f -> values_of_list f -> alive s v ->
    setitem fuel a i f n v s = Ok s' -> acts_on a s s'
| on_setitem_slice fuel i f x y vs s' : field_of s a i = Some f -> values_of_list f -> Forall (alive s) vs ->
    setitem_slice fuel a i f x y vs s = Ok s' -> acts_on a s s'
| on_delitem i f n s' : field_of s a i = Some f -> values_of_list f -> delitem a i n s = Ok s' -> acts_on a s s'
| on_delitem_slice i f x y s' : field_of s a i = Some f -> values_of_list f -> delitem_slice a i x y s = Ok s' -> acts_on a s s'
| on_insert fuel i f n v s' : field_of s a i = Some f -> values_of_list f -> alive s v ->
    MessageObjects.insert fuel a i f n v s = Ok s' -> acts_on a s s'
| on_extend fuel i f vs s' : field_of s a i = Some f -> values_of_list f -> Forall (alive s) vs ->
    MessageObjects.extend (MessageObjects.MergeFrom fuel) a i f vs s = Ok s' -> acts_on a s s'
| on_replace fuel i f vs s' : field_of s a i = Some f -> values_of_list f -> Forall (alive s) vs ->
    replace_items fuel a i f vs s = Ok s' -> acts_on a s s'
| on_reverse i f s' : field_of s a i = Some f -> values_of_list f -> reverse_items a i s = Ok s' -> acts_on a s s'
| on_clear_box i f s' : field_of s a i = Some f -> singular f = false -> clear_box _notify a i s = Ok s' -> acts_on a s s'
| on_map_get i f kc k v s' : field_of s a i = Some f -> values_of_map f kc -> map_get a i kc f k s = Ok (v, s') -> acts_on a s s'
| on_map_set fuel i f kc k v s' : field_of s a i = Some f -> values_of_map f kc -> alive s v ->
    MessageObjects.map_set (MessageObjects.MergeFrom fuel) a i kc f k v s = Ok s' -> acts_on a s s'
| on_map_delete i f kc k s' : field_of s a i = Some f -> values_of_map f kc -> map_delete a i kc k s = Ok s' -> acts_on a s s'
| on_map_pop i f kc k v s' : field_of s a i = Some f -> values_of_map f kc -> map_pop a i kc f k s = Ok (v, s') -> acts_on a s s'
| on_setdefault fuel i f kc k v s' : field_of s a i = Some f -> values_of_map f kc -> (forall w, v = Some w -> alive s w) ->
    setdefault fuel a i kc f k v s = Ok s' -> acts_on a s s'
| on_map_replace fuel i f kc es s' : field_of s a i = Some f -> values_of_map f kc -> Forall (alive s) es.*2 ->
    NoDup (normal_key kc <$> es.*1) -> replace_entries fuel a i kc f es s = Ok s' -> acts_on a s s'.

(** Any operation on the message at [a]. *)
Definition operates (a : nat) (s s' : store) : Prop :=
  acts_on a s s' \/ exists payload, MessageObjects.MergeFromString payload a s = Ok s'.

(** The stores user code reaches: by new messages and operations on those that are
    there.  [D] has the messages into which it parsed with [MergeFromString] otherwise,
    so that an owner may not know of them. *)
Inductive reachable : gset nat -> store -> Prop :=
| reach_empty : reachable ∅ (mkStore [] [])
| reach_new D s fuel k initial values a s' : reachable D s -> (forall b, initial = Some b -> (b < length (objects s))%nat) ->
    arguments_ok s k values -> construct fuel k initial values s = Ok (a, s') -> reachable D s'
| reach_on D s a s' : reachable D s -> (a < length (objects s))%nat -> acts_on a s s' -> reachable D s'
| reach_unheard D s a payload s' : reachable D s -> (a < length (objects s))%nat ->
    MessageObjects.MergeFromString payload a s = Ok s' -> reachable ({[a]} ∪ D) s'.

Context (HS : schema_ok _).

(** The invariant between operations. *)
Definition settled (D : gset nat) (s : store) : Prop := inv D ∅ None s /\ calm ∅ s.

Lemma calm_any D s : calm ∅ s -> calm D s.
Proof. apply calm_weaken, empty_subseteq. Qed.

(** Parsing into a message that its owner has present. *)
Lemma parsed_ok D a s payload s' :
  settled D s -> (a < length (objects s))%nat -> known a s -> MessageObjects.MergeFromString payload a s = Ok s' ->
  inv D ∅ None s' /\ effect a s s'.
Proof.
  intros [Hi Hc%(calm_any D)] Ha Hk E. apply (obj_merge_from_string_ok HS _ D ∅) in E as [I2 L2]; [|done..]. split; [|by apply local_effect].
  apply (undirty _ _ _ _ _ I2). intros p i f Hh Hf Hs. pose proof (l_order _ _ _ L2 _ _ _ Hh). apply (l_held _ _ _ L2) in Hh; [|done].
  assert (obj s' p = obj s p) as Ep by (apply (l_keep _ _ _ L2); [lia|intros ?%below_le; [lia|by eapply inv_ordered]]).
  rewrite Ep. apply (Hk _ _ f); [done| |done]. by rewrite <- Hf; unfold field_of; rewrite Ep.
Qed.

Lemma acts_on_ok D a s s' : settled D s -> (a < length (objects s))%nat -> acts_on a s s' -> settled D s' /\ effect a s s'.
Proof.
  intros [Hi Hc0] Ha Hact. enough (inv D ∅ None s' /\ effect a s s') as [I1 F1] by (split; [split; [done|by eapply effect_calm]|done]).
  pose proof (calm_any D s Hc0) as Hc.
  assert (absorbed s a \/ (∅ : gset nat) = ∅) as Hq by (by right).
  assert (forall r, good D ∅ a s r -> r = Ok s' -> inv D ∅ None s' /\ effect a s s') as Hgood by (intros r Hr E; by apply Hr).
  pose proof (MergeFrom_merges HS) as Hm.
  destruct Hact as [i f ab Hf|fuel i f x s' Hf Hx E|name s' E|s' E|fuel b s' Hb E|fuel b s' Hb E|payload s' E|payload s' Hk E
    |fuel i f n v s' Hf [Hk Hr] Hv E|fuel i f x y vs s' Hf [Hk Hr] Hv E|i f n s' Hf [Hk Hr] E|i f x y s' Hf [Hk Hr] E
    |fuel i f n v s' Hf [Hk Hr] Hv E|fuel i f vs s' Hf [Hk Hr] Hv E|fuel i f vs s' Hf [Hk Hr] Hv E|i f s' Hf [Hk Hr] E
    |i f s' Hf Hs E|i f kc k v s' Hf Hk E|fuel i f kc k v s' Hf Hk Hv E|i f kc k s' Hf Hk E|i f kc k v s' Hf Hk E
    |fuel i f kc k v s' Hf Hk Hv E|fuel i f kc es s' Hf Hk Hes Hnd E]; rewrite ?alive_all in *.
  - by destruct (get_ok HS D ∅ s a i f ab) as (? & [= <-] & ? & ?).
  - eapply Hgood; [by apply (obj_set_field_ok HS)|exact E].
  - eapply Hgood; [by apply (ClearField_ok HS)|exact E].
  - eapply Hgood; [by apply acts_good, done_acts, (obj_Clear_ok HS)|exact E].
  - eapply Hgood; [by apply Hm|exact E].
  - eapply Hgood; [by apply (CopyFrom_ok HS)|exact E].
  - unfold MessageObjects.ParseFromString in E. destruct (obj_Clear_ok HS D ∅ s a) as (s1 & E1 & I1 & F1 & K1); [done..|]. rewrite E1 in E.
    cbn [mbind result_bind] in E. pose proof (e_len _ _ _ F1). apply (parsed_ok D) in E as [I2 F2];
      [split; [done|eapply effect_trans; [by eapply inv_ordered|done|done]]|split; [done|by eapply (effect_calm ∅)]|lia|].
    apply K1. destruct (decide (o_suspended (obj s a) = 0)%nat) as [|Hn]; [done|]. by apply Hc0, elem_of_empty in Hn.
  - by eapply parsed_ok.
  - eapply Hgood; [by apply (obj_setitem_ok HS fuel D ∅ s a i f)|exact E].
  - eapply Hgood; [by apply (setitem_slice_ok HS fuel D ∅ s a i f)|exact E].
  - eapply Hgood; [by apply (obj_delitem_ok HS 0 D ∅ s a i f)|exact E].
  - eapply Hgood; [by apply (delitem_slice_ok HS 0 D ∅ s a i f)|exact E].
  - eapply Hgood; [by apply (obj_insert_ok HS fuel D ∅ s a i f)|exact E].
  - eapply Hgood; [by apply (extend_ok HS _ (Hm fuel) D ∅ s a i f)|exact E].
  - eapply Hgood; [by apply (replace_items_ok HS fuel D ∅ s a i f)|exact E].
  - eapply Hgood; [by apply (reverse_items_ok HS 0 D ∅ s a i f)|exact E].
  - eapply Hgood; [by eapply acts_good, (clear_box_ok HS)|exact E].
  - by eapply (map_get_ok HS 0 D ∅ s a i f).
  - eapply Hgood; [by apply (map_set_ok HS _ (Hm fuel) D ∅ s a i f)|exact E].
  - eapply Hgood; [by apply (map_delete_ok HS 0 D ∅ s a i f)|exact E].
  - unfold map_pop in E. destruct (map_get a i kc f k s) as [[w s1]|] eqn:E1; [|done]. cbn [mbind result_bind] in E.
    apply (map_get_ok HS 0 D ∅ s a i f) in E1 as [I1 F1]; try done. destruct (map_delete a i kc k s1) as [s2|] eqn:E2; [|done].
    injection E as _ <-. clear Hgood. revert s2 E2. eapply good_bind; [done|done|]. pose proof (e_len _ _ _ F1).
    apply (map_delete_ok HS 0 D ∅ s1 a i f); try done; [by eapply effect_calm|by right|lia|by rewrite (effect_field _ _ _ _ F1)].
  - eapply Hgood; [apply (obj_setdefault_ok HS fuel D ∅ s a i f); try done; intros w b Ew; by apply (Hv w Ew)|exact E].
  - eapply Hgood; [by apply (replace_entries_ok HS fuel D ∅ s a i f)|exact E].
Qed.

Lemma settled_empty : settled ∅ (mkStore [] []).
Proof.
  assert (forall a, obj (mkStore [] []) a = nobody) as Ho by (intros a; apply obj_none; simpl; lia).
  split; [|by intros b; rewrite Ho]. split; unfold held, field_of; intros *; rewrite ?Ho; simpl; try done; try (by intros (x & Hx & _)).
  split; [done|]. intros (f & _ & _ & Hin). by apply elem_of_empty in Hin.
Qed.

Lemma reachable_settled D s : reachable D s -> settled D s.
Proof.
  induction 1 as [|D s fuel k initial values a s' _ IH Hb Hargs E|D s a s' _ IH Ha Hact|D s a payload s' _ IH Ha E].
  - apply settled_empty.
  - destruct IH as [Hi Hc]. destruct (construct_ok HS _ _ _ _ _ _ _ _ _ Hi (calm_any _ _ Hc) Hb Hargs E) as (I1 & G1 & _).
    split; [done|by eapply grows_calm].
  - by eapply acts_on_ok.
  - destruct IH as [Hi Hc]. apply (obj_merge_from_string_ok HS _ D ∅) in E as [I2 L2]; [|done|by apply calm_any|done].
    split; [done|]. by eapply effect_calm; [apply local_effect|].
Qed.

(** C6: in every store that user code can reach, whatever operations it ran and in
    whatever order, each of them to its end, the messages form a forest: what a message
    holds was created after it and is held nowhere else, at one place of one container;
    it calls back exactly the message and field that hold it, and a message with such a
    callback is held there; in every message the presence set and the selected members
    of the oneofs agree; and notifications that an operation suspended are on again. *)
Theorem objects_forest D s :
  reachable D s ->
  (forall p i c, held s p i c -> (p < c < length (objects s))%nat /\
     (exists f, field_of s p i = Some f /\ o_mutation (obj s c) = link f p i) /\
     forall q j, held s q j c -> q = p /\ j = i) /\
  (forall p i x, o_values (obj s p) !! i = Some x -> NoDup (refs x)) /\
  (forall c p i, o_mutation (obj s c) = ChildChanged p i \/ o_mutation (obj s c) = ContainerChanged p i -> held s p i c) /\
  (forall p n i, o_oneofs (obj s p) !! n = Some i <->
     exists f, field_of s p i = Some f /\ oneof f = Some n /\ i ∈ o_present (obj s p)) /\
  (forall b, o_suspended (obj s b) = 0%nat).
Proof.
  intros [Hi Hc]%reachable_settled. split_and!.
  - intros p i c Hh. destruct (i_link _ _ _ _ Hi _ _ _ Hh) as (f & Hf & [Hm|[? _]]); [|done].
    split; [apply (i_held _ _ _ _ Hi _ _ _ Hh)|]. split; [by exists f|]. intros q j Hq. by destruct (holder_unique _ _ _ _ _ _ _ _ _ Hi Hq Hh).
  - intros p i x Hx. by apply (i_box _ _ _ _ Hi) in Hx as [? _].
  - intros c p i [Hm|Hm]; [by apply (i_child _ _ _ _ Hi)|]. by destruct (i_container _ _ _ _ Hi _ _ _ Hm) as [|[[]%elem_of_empty _]].
  - apply (i_oneofs _ _ _ _ Hi).
  - intros b. destruct (decide (o_suspended (obj s b) = 0)%nat) as [|Hn]; [done|]. by apply Hc, elem_of_empty in Hn.
Qed.

(** [c] is under [a], and every singular field on the way is present. *)
Definition shown (s : store) : nat -> nat -> Prop :=
  rtc (fun p c => exists i f, held s p i c /\ field_of s p i = Some f /\ (singular f = true -> i ∈ o_present (obj s p))).

Lemma holds_shown D P s p i c f :
  inv D P None s -> held s p i c -> field_of s p i = Some f -> (singular f = true -> i ∈ o_present (obj s p)) -> ~ blank (obj s p).
Proof.
  intros Hi Hh Hf Hp (Hb & Hpr & _). destruct (singular f) eqn:Hs; [rewrite Hpr in Hp; by specialize (Hp eq_refl); apply elem_of_empty in Hp|].
  destruct Hh as (x & Hx & Hc). destruct (i_box _ _ _ _ Hi _ _ _ Hx) as (_ & g & Hg & Hk). assert (g = f) as -> by congruence.
  specialize (Hb _ _ Hx). destruct x as [[y|b]|[|]|[|]]; cbn in Hb; try done; try (by apply not_elem_of_nil in Hc).
  unfold box_ok in Hk. unfold singular, map_field in Hs. destruct (map_key_codec f); [done|]. destruct Hk as [Hk _]. by rewrite Hk in Hs.
Qed.

(** A field on the way in which the owner does not count the message as present. *)
Definition unheard (D : gset nat) (s : store) (a c : nat) : Prop :=
  exists p i x f, below s a p /\ held s p i x /\ below s x c /\ field_of s p i = Some f /\ singular f = true /\
    i ∉ o_present (obj s p) /\ x ∈ D.

Lemma changes_shown D P s a c : inv D P None s -> below s a c -> ~ blank (obj s c) -> shown s a c \/ unheard D s a c.
Proof.
  intros Hi Hb Hc. induction Hb as [|a y c [i Hh] Hyc IH]; [left; apply rtc_refl|].
  destruct (IH Hc) as [Hs|(p & j & x & f & H1 & H2)]; [|right; exists p, j, x, f; split; [eapply rtc_l; [by exists i|done]|done]].
  destruct (i_link _ _ _ _ Hi _ _ _ Hh) as (f & Hf & _). destruct (singular f) eqn:Esg.
  2:{ left. eapply rtc_l; [|exact Hs]. exists i, f. split_and!; [done|done|]. by rewrite Esg. }
  destruct (decide (i ∈ o_present (obj s a))) as [|Hn].
  { left. eapply rtc_l; [|exact Hs]. by exists i, f. }
  destruct (i_blank _ _ _ _ Hi _ _ _ _ Hh Hf Esg Hn) as [HD|Hbl].
  { right. exists a, i, y, f. split_and!; [apply rtc_refl|done..]. }
  exfalso. inversion Hs as [|? z ? (j & g & Hz & Hg & Hp) _]; subst; [done|]. by eapply (holds_shown _ _ _ _ _ _ _ Hi Hz Hg Hp).
Qed.

Lemma known_shown D P s a : inv D P None s -> (forall x, below s x a -> known x s) -> forall r, below s r a -> shown s r a.
Proof.
  intros Hi Hk r Hr. induction Hr as [|r y a [i Hh] Hya IH]; [apply rtc_refl|]. destruct (i_link _ _ _ _ Hi _ _ _ Hh) as (f & Hf & _).
  eapply rtc_l; [|by apply IH]. exists i, f. split_and!; [done|done|]. intros Hs. exact (Hk y Hya r i f Hh Hf Hs).
Qed.

(** C7: no change of a nested message is lost: in every reachable store a message
    somewhere under another that has anything to serialize (a value, an item, a
    present field, unknown bytes) is counted as present by its owner, and so is
    each owner on the way up, although user code changed it through a reference it
    got long before and the owners only heard of it by callbacks.  The one exception:
    on the way is a message into which user code parsed with [MergeFromString] itself,
    which tells nobody, and whose owner has it absent.  So nothing is lost when user
    code calls [MergeFromString] only on messages whose owners have them present. *)
Theorem nested_changes_kept D s a c :
  reachable D s -> below s a c -> ~ blank (obj s c) ->
  (shown s a c \/ unheard D s a c) /\ (D = ∅ -> shown s a c).
Proof.
  intros [Hi _]%reachable_settled Hb Hc. pose proof (changes_shown _ _ _ _ _ Hi Hb Hc) as H0. split; [exact H0|].
  intros ->. destruct H0 as [|(p & i & x & f & _ & _ & _ & _ & _ & _ & []%elem_of_empty)]; done.
Qed.

(** C35: a notification ends: in a reachable store [_notify] of any message returns,
    never calling more owners than there are older messages; then every owner up to
    the root counts what it contains as present, the message itself and everything
    that is not over it show what they showed before, and the store stays sound. *)
Theorem notify_reaches_root D s a :
  reachable D s -> (a < length (objects s))%nat ->
  exists s', _notify a s = Ok s' /\ inv D ∅ None s' /\ (forall r, below s' r a -> shown s' r a) /\
    forall x, x = a \/ ~ below s x a -> content (obj s' x) = content (obj s x).
Proof.
  intros [Hi Hc]%reachable_settled Ha. apply (inv_weaken _ ({[a]} ∪ D)) in Hi; [|set_solver].
  destruct (notify_ok HS (S a) D s a Hi (calm_any D s Hc) ltac:(lia)) as (s' & E & I1 & N1 & _). exists s'. split_and!; [done..| |].
  - apply (known_shown D ∅ s' a I1). by apply (notify_known HS (S a) D s a s' Hi Hc ltac:(lia)).
  - intros x Hx. apply (n_content _ _ _ N1). intros [Hb Hne]. naive_solver.
Qed.

(** ** What user code sees of a message *)

(** The tree under a message, to a depth; the reset masks are left out. *)
Fixpoint snapshot (n : nat) (s : store) (a : nat) : message :=
  match n with
  | O => new (o_cls (obj s a))
  | S n =>
      let see v := match v with RS x => Scalar x | RM c => MessageV (snapshot n s c) end in
      let cell_in x := match x with ROne v => One (see v) | RItems l => Items (see <$> l) | REntries l => Entries (prod_map id see <$> l) end in
      mkMessage (o_cls (obj s a))
        ((fun i => mkSlot (cell_in <$> o_values (obj s a) !! i) (bool_decide (i ∈ o_present (obj s a)))) <$> seq 0 (length (FIELDS (o_cls (obj s a)))))
        (o_oneofs (obj s a)) (o_unknown (obj s a)) emptyMask
  end.

Lemma snapshot_below n s s' a : (forall x, below s a x -> content (obj s' x) = content (obj s x)) -> snapshot n s' a = snapshot n s a.
Proof.
  revert a. induction n as [|n IH]; intros a Hs; cbn [snapshot].
  { by injection (Hs a (rtc_refl _ _)) as -> _ _ _ _. }
  injection (Hs a (rtc_refl _ _)) as -> -> -> -> ->. f_equal. apply list_fmap_ext. intros _ i _. f_equal.
  destruct (o_values (obj s a) !! i) as [x|] eqn:Ex; [|done]. cbn. f_equal.
  assert (forall v, (forall c, c ∈ ref_addr v -> c ∈ refs x) ->
    match v with RS y => Scalar y | RM c => MessageV (snapshot n s' c) end = match v with RS y => Scalar y | RM c => MessageV (snapshot n s c) end) as Hv.
  { intros [y|c] Hc; [done|]. f_equal. apply IH. intros z Hz. apply Hs. eapply rtc_l; [|exact Hz]. exists i, x. split; [done|]. apply Hc. by left. }
  destruct x as [v|l|l]; f_equal.
  - by apply Hv.
  - apply list_fmap_ext. intros j v Hj. apply Hv. intros c Hc. apply list_elem_of_bind. exists v. split; [done|by eapply list_elem_of_lookup_2].
  - apply list_fmap_ext. intros j [k v] Hj. unfold prod_map. cbn. f_equal. apply Hv. intros c Hc. apply list_elem_of_bind. exists v.
    split; [done|]. apply list_elem_of_fmap. exists (k, v). split; [done|by eapply list_elem_of_lookup_2].
Qed.

Lemma below_alive D P s a x : inv D P None s -> (a < length (objects s))%nat -> below s a x -> (x < length (objects s))%nat.
Proof. intros Hi Ha Hx. revert Ha. induction Hx as [|a y x [i Hh] _ IH]; [done|]. intros _. by apply IH, (i_held _ _ _ _ Hi _ _ _ Hh). Qed.

(** Of two messages over a third one is over the other. *)
Lemma below_comparable D P s a b x : inv D P None s -> below s a x -> below s b x -> below s a b \/ below s b a.
Proof.
  intros Hi Ha. revert b. induction Ha as [a|a y x [i Hh] Hy IH]; intros b Hb; [by right|]. destruct (IH b Hb) as [Hyb|Hby].
  - left. eapply rtc_l; [by exists i|done].
  - destruct (below_last _ _ _ _ _ _ _ Hi Hh Hby) as [->|]; [left; by apply rtc_once; exists i|by right].
Qed.

(** C12: messages that do not contain one another do not see each other's
    changes: an operation on one message (a getter, an assignment, a copy, a merge,
    clearing, parsing, any change of its containers) that returns leaves the fields of
    every message that is neither over nor under it (values, presence, selected members
    of oneofs, unknown fields, to any depth) exactly as they were, and gives no existing
    message another holder: what is assigned, appended or inserted is copied.  Reset
    masks are not part of it: a message that was detached goes on recording in the mask
    it shared with its former owner. *)
Theorem objects_isolated D s a s' :
  reachable D s -> (a < length (objects s))%nat -> operates a s s' ->
  (forall n r, (r < length (objects s))%nat -> ~ below s r a -> ~ below s a r -> snapshot n s' r = snapshot n s r) /\
  (forall p i c, (c < length (objects s))%nat -> held s' p i c -> held s p i c).
Proof.
  intros Hs%reachable_settled Ha Hop. assert (effect a s s') as He.
  { destruct Hop as [Hact|[payload E]]; [by apply (acts_on_ok D a s s')|]. destruct Hs as [Hi Hc].
    apply (obj_merge_from_string_ok HS _ D ∅) in E as [_ L2]; [by apply local_effect|done|by apply calm_any|done]. }
  destruct Hs as [Hi _]. split.
  - intros n r Hr H1 H2. apply snapshot_below. intros x Hx. apply (e_far _ _ _ He).
    + by eapply below_alive.
    + intros Hax. by destruct (below_comparable _ _ _ _ _ _ Hi Hax Hx).
    + intros Hxa. apply H1. by etrans.
  - intros p i c Hc Hh. by apply (e_held _ _ _ He).
Qed.

(** [MergeFromString] does not tell the owner: when bytes are parsed into a
    message that an owner holds, the owner stays as it was, with the field absent
    where it was absent, and is serialized without what was parsed. *)
Theorem merge_string_unseen D s p i c payload s' :
  reachable D s -> held s p i c -> MessageObjects.MergeFromString payload c s = Ok s' -> obj s' p = obj s p.
Proof.
  intros [Hi Hc%(calm_any D)]%reachable_settled Hh E. destruct (i_held _ _ _ _ Hi _ _ _ Hh) as [Hpc Hl].
  apply (obj_merge_from_string_ok HS _ D ∅) in E as [_ L]; [|done..]. apply (l_keep _ _ _ L); [lia|].
  intros ?%below_le; [lia|by eapply inv_ordered].
Qed.

End Theorems.

(** ** An example *)

Module Node.

Definition fld (name : pystr) (n : Z) (c : codec) (rep : bool) (o : option pystr) (kc : option codec) : Field :=
  mkField name name n c rep rep false false o None kc true false false None.

(** A message class that nests: a label, a oneof of another node or a text, a list
    of nodes and nodes by name. *)
Definition node_fields : list Field := [
  fld (u "label") 1 CString false None None;
  fld (u "next") 2 (CMessage 0) false (Some (u "kind")) None;
  fld (u "text") 3 CString false (Some (u "kind")) None;
  fld (u "parts") 4 (CMessage 0) true None None;
  fld (u "by_name") 5 (CMessage 0) false None (Some CString)].

#[export] Instance schema : Schema := {|
  FIELDS c := match c with O => node_fields | _ => [] end;
  MAX_NESTING_DEPTH := fun _ => 100;
  PY_TO_PB2 := fun _ => [];
  long_bits := 64;
  float_of_int := fun _ => Raise OverflowError
|}.

Lemma node_schema_ok : schema_ok schema.
Proof.
  split; simpl.
  - intros [|c]; [|apply Forall_nil_2]. unfold node_fields. rewrite !Forall_cons. split_and!; try apply Forall_nil_2; split; simpl; try done; by intros kc [= <-].
  - intros [|c]; [apply (bool_decide_unpack _); by vm_compute|apply NoDup_nil_2].
  - lia.
Qed.

Definition the {A} (x : A) (r : outcome A) : A := match r with Ok s => s | Raise _ => x end.
Definition next_field : Field := fld (u "next") 2 (CMessage 0) false (Some (u "kind")) None.
Definition label_field : Field := fld (u "label") 1 CString false None None.
Definition parts_field : Field := fld (u "parts") 4 (CMessage 0) true None None.
Definition empty : store := mkStore [] [].

(** A node; its [next] and the [next] of that; the label of the innermost; a copy of
    the node; a node appended to its [parts]. *)
Definition created : store := snd (the (0%nat, empty) (construct 9 0 None [] empty)).
Definition nested : store := snd (_get_field 0 1 next_field false created).
Definition deeper : store := snd (_get_field 1 1 next_field false nested).
Definition labelled : store := the empty (MessageObjects._set_field 9 2 0 label_field (AValue (RS (StrV (u "x")))) deeper).
Definition copied : store := snd (the (0%nat, empty) (construct 9 0 (Some 0%nat) [] labelled)).
Definition extended : store := the empty (MessageObjects.extend (MessageObjects.MergeFrom 9) 0 3 parts_field [RM 3] copied).

(** The label is parsed into the innermost node, which its owner keeps absent. *)
Definition parsed_label : bytes := [10; 1; 120].
Definition parsed : store := the empty (MessageObjects.MergeFromString parsed_label 2 deeper).

Lemma created_reachable : reachable ∅ created.
Proof.
  eapply (reach_new ∅ empty 9 0 None [] 0); [apply reach_empty|done|by intros ? ? ? ? ?%not_elem_of_nil|]. vm_compute. reflexivity.
Qed.

Lemma deeper_reachable : reachable ∅ deeper.
Proof.
  apply (reach_on ∅ nested 1); [|apply (bool_decide_unpack _); by vm_compute|by apply (on_get _ _ 1 next_field false)].
  apply (reach_on ∅ created 0); [apply created_reachable|apply (bool_decide_unpack _); by vm_compute|].
  by apply (on_get _ _ 1 next_field false).
Qed.

Lemma labelled_reachable : reachable ∅ labelled.
Proof.
  apply (reach_on ∅ deeper 2); [apply deeper_reachable|apply (bool_decide_unpack _); by vm_compute|].
  eapply (on_set _ _ 9 0 label_field (AValue (RS (StrV (u "x"))))); [done|by intros b ?%not_elem_of_nil|]. vm_compute. reflexivity.
Qed.

Lemma copied_reachable : reachable ∅ copied.
Proof.
  eapply (reach_new ∅ labelled 9 0 (Some 0%nat) [] 3); [apply labelled_reachable| |by intros ? ? ? ? ?%not_elem_of_nil|].
  - intros b [= <-]. apply (bool_decide_unpack _); by vm_compute.
  - vm_compute. reflexivity.
Qed.

Lemma parsed_reachable : reachable {[2%nat]} parsed.
Proof.
  rewrite <- (right_id_L ∅ (∪) {[2%nat]}). apply (reach_unheard ∅ deeper 2 parsed_label);
    [apply deeper_reachable|apply (bool_decide_unpack _); by vm_compute|vm_compute; reflexivity].
Qed.

End Node.

#[local] Existing Instance Node.schema.

Lemma unbound_root P s a x : inv ∅ P None s -> o_mutation (obj s x) = Unbound -> below s a x -> a = x.
Proof.
  intros Hi Hm Hb. apply rtc_inv_r in Hb as [->|(p & _ & i & Hh)]; [done|]. destruct (i_link _ _ _ _ Hi _ _ _ Hh) as (f & _ & [E|[? _]]); [|done].
  rewrite Hm in E. unfold link in E. by destruct (singular f).
Qed.

(** The innermost node of the example, through two fields. *)
Lemma example_below : below Node.labelled 0 2.
Proof. eapply rtc_l; [|eapply rtc_once]; exists 1%nat; eexists; (split; [vm_compute; reflexivity|left]). Qed.

Lemma objects_forest_witness :
  reachable ∅ Node.labelled /\ o_mutation (obj Node.labelled 2) = ChildChanged 1 1 /\
  forall q j, held Node.labelled q j 2 -> q = 1%nat /\ j = 1%nat.
Proof.
  destruct (objects_forest Node.node_schema_ok ∅ Node.labelled Node.labelled_reachable) as (Hh & _).
  assert (held Node.labelled 1 1 2) as H1 by (eexists; split; [vm_compute; reflexivity|left]).
  destruct (Hh _ _ _ H1) as (_ & _ & Hu). split; [exact Node.labelled_reachable|]. split; [vm_compute; reflexivity|exact Hu].
Defined.

Lemma parsed_below : below Node.parsed 0 2.
Proof. eapply rtc_l; [|eapply rtc_once]; exists 1%nat; eexists; (split; [vm_compute; reflexivity|left]). Qed.

(** A label that was assigned to the innermost node, and one that was parsed into it. *)
Lemma nested_changes_kept_witness :
  shown Node.labelled 0 2 /\ (shown Node.parsed 0 2 \/ unheard {[2%nat]} Node.parsed 0 2).
Proof.
  split.
  - refine (proj2 (nested_changes_kept Node.node_schema_ok ∅ Node.labelled 0 2 Node.labelled_reachable example_below _) eq_refl).
    intros (Hb & _). specialize (Hb 0%nat (ROne (RS (StrV (u "x"))))). apply Hb. vm_compute. reflexivity.
  - refine (proj1 (nested_changes_kept Node.node_schema_ok {[2%nat]} Node.parsed 0 2 Node.parsed_reachable parsed_below _)).
    intros (Hb & _). specialize (Hb 0%nat (ROne (RS (StrV (u "x"))))). apply Hb. vm_compute. reflexivity.
Defined.

Lemma notify_reaches_root_witness :
  exists s', _notify 2 Node.deeper = Ok s' /\ inv ∅ ∅ None s' /\ (forall r, below s' r 2 -> shown s' r 2) /\
    forall x, x = 2%nat \/ ~ below Node.deeper x 2 -> content (obj s' x) = content (obj Node.deeper x).
Proof.
  apply (notify_reaches_root Node.node_schema_ok ∅ Node.deeper 2 Node.deeper_reachable).
  apply (bool_decide_unpack _). vm_compute. done.
Defined.

(** Appending the copy to the original leaves the copy alone: a copy of it is appended. *)
Lemma objects_isolated_witness :
  MessageObjects.extend (MessageObjects.MergeFrom 9) 0 3 Node.parts_field [RM 3] Node.copied = Ok Node.extended /\
  snapshot 9 Node.extended 3 = snapshot 9 Node.copied 3 /\ ~ held Node.extended 0 3 3.
Proof.
  destruct (reachable_settled Node.node_schema_ok _ _ Node.copied_reachable) as [Hi _].
  assert (MessageObjects.extend (MessageObjects.MergeFrom 9) 0 3 Node.parts_field [RM 3] Node.copied = Ok Node.extended) as E by (vm_compute; reflexivity).
  destruct (objects_isolated Node.node_schema_ok ∅ Node.copied 0 Node.extended Node.copied_reachable) as [Hs Hh].
  - apply (bool_decide_unpack _). vm_compute. done.
  - left. refine (on_extend 0 Node.copied 9 3 Node.parts_field [RM 3] Node.extended _ _ _ E); [vm_compute; reflexivity|split; vm_compute; reflexivity|].
    apply Forall_singleton. intros b ->%list_elem_of_singleton. apply (bool_decide_unpack _). vm_compute. done.
  - split; [exact E|]. assert (3 < length (objects Node.copied))%nat as Hl by (apply (bool_decide_unpack _); vm_compute; done). split.
    + apply Hs; [exact Hl| |].
      * intros Hb. apply below_le in Hb; [lia|by eapply inv_ordered].
      * intros Hb. by apply (unbound_root _ _ _ _ Hi) in Hb; [|vm_compute].
    + intros H3. apply Hh in H3; [|exact Hl]. destruct H3 as (x & Hx & _). by vm_compute in Hx.
Defined.

Lemma merge_string_unseen_witness :
  MessageObjects.MergeFromString Node.parsed_label 2 Node.deeper = Ok Node.parsed /\ obj Node.parsed 1 = obj Node.deeper 1 /\
    o_values (obj Node.parsed 2) !! 0%nat = Some (ROne (RS (StrV (u "x")))) /\ o_present (obj Node.parsed 1) = ∅.
Proof.
  assert (MessageObjects.MergeFromString Node.parsed_label 2 Node.deeper = Ok Node.parsed) as E by (vm_compute; reflexivity).
  assert (held Node.deeper 1 1 2) as H1 by (eexists; split; [vm_compute; reflexivity|left]).
  pose proof (merge_string_unseen Node.node_schema_ok ∅ Node.deeper 1 1 2 _ Node.parsed Node.deeper_reachable H1 E) as Eo.
  split_and!; [exact E|exact Eo|vm_compute; reflexivity|]. rewrite Eo. vm_compute. reflexivity.
Defined.
