(* ===== verification/Stream.v ===== *)
(** * Streams

    [src/nebius/aio/stream.py], class [StreamRequest]: its deadlines, and its life
    from the first operation to the release of the leased transport.

    The operations of a stream, the callers that close or cancel it and the
    callbacks of the channel run as tasks.  A task is where its program stands; a
    step runs one section under the state lock, or one call of something outside
    (the authenticator, the router, the native call, the release hook of the
    channel), so tasks interleave at least as finely as the event loop and the
    threads of the code do.  A task that waits (for the authenticator, the start lock
    or the native call) makes no step of its own: it goes on when what it waits for
    is there, or when an answer from outside comes, and outside may stay silent for
    ever.  The asynchronous start lock is modelled; the read and write locks only
    order operations of one kind and are left out.  Which task a caller awaits, and
    for how long, is left out too: a caller that gives up cancels, which is a task of
    its own.  Two fields record what no code reads:
    which hooks were called for a lease, and whether a hook of the channel failed
    or a submitted cancellation was dropped. *)
From stdpp Require Import list relations.
From S2P Require Import Prelude Request.

(** ** Deadlines *)

Module Deadlines.

(** Times are integers of a clock unit. *)
Record clock : Type := mkClock {
  _timeout : option Z;
  _auth_timeout : option Z;
  _authorization_deadline_enabled : option bool;
  _deadlines_started : bool;
  _request_deadline : option Z;
  _request_timeout_remaining : option Z;
  _request_deadline_paused : bool;
  _authorization_deadline : option Z;
  _authentication_finished : bool
}.

Definition new_clock (timeout auth_timeout : option Z) (enabled : option bool) : clock :=
  mkClock timeout auth_timeout enabled false None None false None false.

(** [not self._authorization_deadline_enabled] of a value that may be [None] *)
Definition enabled (c : clock) : bool := default false (_authorization_deadline_enabled c).

Definition after (now : Z) (limit : option Z) : option Z := (fun t => now + Z.max t 0) <$> limit.

(** The section of [_remaining_deadline] that starts the deadlines. *)
Definition initialize (now : Z) (c : clock) : clock :=
  if _deadlines_started c then c else
  mkClock (_timeout c) (_auth_timeout c) (_authorization_deadline_enabled c) true
    (after now (_timeout c)) (_request_timeout_remaining c) (_request_deadline_paused c)
    (if enabled c then after now (_auth_timeout c) else None) (_authentication_finished c).

(** [min(deadlines) - now] *)
Definition until (now : Z) (deadlines : list Z) : option Z :=
  match deadlines with [] => None | d :: ds => Some (foldl Z.min d ds - now) end.

Definition _remaining_deadline (now : Z) (c : clock) : option Z :=
  until now
    (if enabled c && negb (_authentication_finished c) then option_list (_authorization_deadline c)
     else option_list (_request_deadline c) ++ option_list (_authorization_deadline c)).

Definition _remaining_dispatch_deadline (now : Z) (c : clock) : option Z :=
  until now (option_list (_request_deadline c) ++ option_list (_authorization_deadline c)).

(** A provider was found, although the channel could not tell before. *)
Definition enable (now : Z) (c : clock) : clock :=
  if enabled c then c else
  mkClock (_timeout c) (_auth_timeout c) (Some true) (_deadlines_started c) (_request_deadline c)
    (_request_timeout_remaining c) (_request_deadline_paused c)
    (match after now (_auth_timeout c) with Some d => Some d | None => _authorization_deadline c end)
    (_authentication_finished c).

Definition _pause_request_deadline_for_authorization (now : Z) (c : clock) : clock :=
  match _timeout c with
  | Some t =>
      if _request_deadline_paused c then c else
      mkClock (_timeout c) (_auth_timeout c) (_authorization_deadline_enabled c) (_deadlines_started c) None
        (Some (match _request_deadline c with None => Z.max 0 t | Some d => Z.max 0 (d - now) end)) true
        (_authorization_deadline c) (_authentication_finished c)
  | None => c
  end.

Definition finish (c : clock) : clock :=
  mkClock (_timeout c) (_auth_timeout c) (_authorization_deadline_enabled c) (_deadlines_started c) (_request_deadline c)
    (_request_timeout_remaining c) (_request_deadline_paused c) (_authorization_deadline c) true.

Definition _resume_request_deadline_after_authorization (now : Z) (c : clock) : clock :=
  finish
    match _timeout c with
    | Some t =>
        if _request_deadline_paused c then
          mkClock (_timeout c) (_auth_timeout c) (_authorization_deadline_enabled c) (_deadlines_started c)
            (Some (now + default (Z.max 0 t) (_request_timeout_remaining c))) (_request_timeout_remaining c) false
            (_authorization_deadline c) (_authentication_finished c)
        else c
    | None => c
    end.

(** What [_authenticate] does before it waits: nothing is left to do, the budget is
    spent, or the authenticator has that much time. *)
Inductive waiting : Type := Skip | Spent | Wait (timeout : option Z).

Definition begin_authentication (disabled provider : bool) (t1 t2 t3 : Z) (c : clock) : waiting * clock :=
  if _authentication_finished c then (Skip, c) else
  if disabled then (Skip, finish c) else
  if negb provider then (Skip, finish c) else
  let c := _pause_request_deadline_for_authorization t2 (enable t1 c) in
  match _remaining_deadline t3 c with
  | Some r => if r <=? 0 then (Spent, c) else (Wait (Some r), c)
  | None => (Wait None, c)
  end.

End Deadlines.

(** ** The life of a stream *)

Inductive error : Type := Cancelled | TimedOut | Failed.

(** The hooks of the channel that returned, with their [discard]; [lost]: the hook of
    a transport that nobody refers to any more has raised. *)
Record lease : Type := mkLease { given : list bool; lost : bool }.

Inductive progress : Type := Running | Ended | CallCancelled.
Record native : Type := mkNative { transport : nat; status : progress }.

Record stream : Type := mkStream {
  _address_channel : option nat;
  _call : option nat;
  _start_error : option error;
  _start_entered : bool;
  _cancel_requested : bool;
  _cancelled : bool;
  _native_terminal : bool;
  _released : bool;
  _cancel_event : bool;
  _start_lock : option nat;
  leases : list lease;
  natives : list native;
  mishap : bool
}.

(** A stream with or without a [grpc_channel_override], which is a lease already. *)
Definition new_stream (override : bool) : stream :=
  mkStream (if override then Some 0%nat else None) None None false false false false false false None
    (if override then [mkLease [] false] else []) [] false.

Definition set_address x (s : stream) : stream :=
  mkStream x (_call s) (_start_error s) (_start_entered s) (_cancel_requested s) (_cancelled s) (_native_terminal s)
    (_released s) (_cancel_event s) (_start_lock s) (leases s) (natives s) (mishap s).
Definition set_call x (s : stream) : stream :=
  mkStream (_address_channel s) x (_start_error s) (_start_entered s) (_cancel_requested s) (_cancelled s) (_native_terminal s)
    (_released s) (_cancel_event s) (_start_lock s) (leases s) (natives s) (mishap s).
Definition set_start_error x (s : stream) : stream :=
  mkStream (_address_channel s) (_call s) x (_start_entered s) (_cancel_requested s) (_cancelled s) (_native_terminal s)
    (_released s) (_cancel_event s) (_start_lock s) (leases s) (natives s) (mishap s).
Definition set_entered x (s : stream) : stream :=
  mkStream (_address_channel s) (_call s) (_start_error s) x (_cancel_requested s) (_cancelled s) (_native_terminal s)
    (_released s) (_cancel_event s) (_start_lock s) (leases s) (natives s) (mishap s).
Definition set_requested x (s : stream) : stream :=
  mkStream (_address_channel s) (_call s) (_start_error s) (_start_entered s) x (_cancelled s) (_native_terminal s)
    (_released s) (_cancel_event s) (_start_lock s) (leases s) (natives s) (mishap s).
Definition set_cancelled x (s : stream) : stream :=
  mkStream (_address_channel s) (_call s) (_start_error s) (_start_entered s) (_cancel_requested s) x (_native_terminal s)
    (_released s) (_cancel_event s) (_start_lock s) (leases s) (natives s) (mishap s).
Definition set_terminal x (s : stream) : stream :=
  mkStream (_address_channel s) (_call s) (_start_error s) (_start_entered s) (_cancel_requested s) (_cancelled s) x
    (_released s) (_cancel_event s) (_start_lock s) (leases s) (natives s) (mishap s).
Definition set_released x (s : stream) : stream :=
  mkStream (_address_channel s) (_call s) (_start_error s) (_start_entered s) (_cancel_requested s) (_cancelled s) (_native_terminal s)
    x (_cancel_event s) (_start_lock s) (leases s) (natives s) (mishap s).
Definition set_event x (s : stream) : stream :=
  mkStream (_address_channel s) (_call s) (_start_error s) (_start_entered s) (_cancel_requested s) (_cancelled s) (_native_terminal s)
    (_released s) x (_start_lock s) (leases s) (natives s) (mishap s).
Definition set_lock x (s : stream) : stream :=
  mkStream (_address_channel s) (_call s) (_start_error s) (_start_entered s) (_cancel_requested s) (_cancelled s) (_native_terminal s)
    (_released s) (_cancel_event s) x (leases s) (natives s) (mishap s).
Definition set_leases x (s : stream) : stream :=
  mkStream (_address_channel s) (_call s) (_start_error s) (_start_entered s) (_cancel_requested s) (_cancelled s) (_native_terminal s)
    (_released s) (_cancel_event s) (_start_lock s) x (natives s) (mishap s).
Definition set_natives x (s : stream) : stream :=
  mkStream (_address_channel s) (_call s) (_start_error s) (_start_entered s) (_cancel_requested s) (_cancelled s) (_native_terminal s)
    (_released s) (_cancel_event s) (_start_lock s) (leases s) x (mishap s).
Definition set_mishap (s : stream) : stream :=
  mkStream (_address_channel s) (_call s) (_start_error s) (_start_entered s) (_cancel_requested s) (_cancelled s) (_native_terminal s)
    (_released s) (_cancel_event s) (_start_lock s) (leases s) (natives s) true.

(** The hook for a lease has returned, or has raised for good. *)
Definition give (l : nat) (discard : bool) (s : stream) : stream :=
  set_leases (alter (fun x => mkLease (given x ++ [discard]) (lost x)) l (leases s)) s.
Definition lose (l : nat) (s : stream) : stream :=
  set_mishap (set_leases (alter (fun x => mkLease (given x) true) l (leases s)) s).

(** [call.cancel()] *)
Definition cancel_native (c : nat) (s : stream) : stream :=
  set_natives (alter (fun n => match status n with Running => mkNative (transport n) CallCancelled | _ => n end) c (natives s)) s.

(** *** Sections under the state lock *)

Definition _is_cancelled (s : stream) : bool := _cancel_requested s || _cancelled s.

(** [publish_address] and [publish_call] *)
Definition may_publish (s : stream) : bool := negb (_cancel_requested s) && negb (_cancelled s) && negb (_released s).

(** The first section of [_release] and [_release_soon]: the lease to give back. *)
Definition claim (s : stream) : option nat := if _released s then None else _address_channel s.

(** The section after a hook that raised. *)
Definition unclaim (l : nat) (s : stream) : stream :=
  if decide (_address_channel s = Some l) then set_released false s else s.

(** The first section of [cancel]; [None]: it returns [False]. *)
Definition request_cancel (server_streaming : bool) (s : stream) : option (bool * stream) :=
  if _cancel_requested s || _cancelled s || _released s then None else
  if _native_terminal s && negb server_streaming then None else
  Some (negb (_native_terminal s), set_requested true s).

Definition _cancel_submission_finished (s : stream) : stream :=
  if _released s then s else set_requested false (set_cancelled false s).

(** The end of [cancel] when the owner loop cannot take the work. *)
Definition cancel_refused (s : stream) : stream :=
  if negb (_cancelled s) && negb (_released s) then set_requested false s else s.

(** The section of [start_operation] for work that comes too late. *)
Definition dispatch_late (s : stream) : stream := set_requested true (set_cancelled true s).

(** The section of [cleanup_if_unstarted]. *)
Definition reject (terminate : bool) (s : stream) : stream :=
  if _start_entered s && terminate then set_cancelled true s else s.

(** *** Tasks *)

(** [_result_internal], [_next_response], [_write] and [_done_writing] *)
Inductive operation : Type := Result | Next | Write | DoneWriting.

(** What follows a release. *)
Inductive continuation : Type :=
| KStart                       (** [_start] raises *)
| KResult                      (** the [finally] of [_result_internal] *)
| KEnd                         (** the operation ends *)
| KClose (observed : bool)     (** the end of [_abort]; a submitted [cancel] is observed *)
| KReset.                      (** the rest of a [cancel] that was not accepted *)

Inductive task : Type :=
(** [_start] *)
| Enter (op : operation)
| WaitLock (op : operation)
| Locked (op : operation)
| Authenticating (op : operation)
| Authenticated (op : operation)
| Routing (op : operation)
| PublishAddress (l : nat) (op : operation)
| DropLease (l : nat)
| Opening (l : nat) (op : operation)
| PublishCall (c : nat) (op : operation)
| CancelNew (c : nat)
| StartFails (e : error) (discard : bool)
| Unlocking
(** the operation proper *)
| Using (c : nat) (op : operation)
(** [_abort] *)
| Abort (k : continuation)
| AbortCall (c : option nat) (k : continuation)
(** [_release] and [_release_soon] *)
| Release (discard : bool) (k : continuation)
| Releasing (l : nat) (discard : bool) (k : continuation)
| Unclaim (l : nat) (k : continuation)
| ReleaseSoon
| ReleasingSoon (l : nat)
(** [cancel] and what the channel does with work *)
| CancelStart
| CancelSubmit
| CancelFailed
| CancelReset
| CancelRefused
| DispatchLate
| Reject (terminate : bool)
(** the end *)
| Closed
| Done.

(** The task after a release that returned ([ok]) or raised. *)
Definition resume (k : continuation) (ok : bool) : task :=
  match k with
  | KStart => Unlocking
  | KResult => Release false KEnd
  | KEnd => Done
  | KClose observed => if ok then Closed else if observed then CancelFailed else Done
  | KReset => CancelReset
  end.

(** The setup raises [e] before there is a call. *)
Definition setup_fails (e : error) : task := StartFails e (match e with Cancelled => true | _ => false end).

(** [_start], with the [_authenticate] it awaits, as far as it goes on by itself; [i]
    is the number of the task. *)
Inductive start_step (i : nat) : task -> stream -> task -> stream -> Prop :=
| enter_foreign op s : start_step i (Enter op) s Done s
| enter_call op c s : _call s = Some c -> start_step i (Enter op) s (Using c op) (set_entered true s)
| enter_error op s : _call s = None -> _start_error s <> None -> start_step i (Enter op) s Done (set_entered true s)
| enter_wait op s : _call s = None -> _start_error s = None -> start_step i (Enter op) s (WaitLock op) (set_entered true s)
| lock_taken op s : _start_lock s = None -> start_step i (WaitLock op) s (Locked op) (set_lock (Some i) s)
| locked_call op c s : _call s = Some c -> start_step i (Locked op) s (Using c op) (set_lock None s)
| locked_error op s : _call s = None -> _start_error s <> None \/ _is_cancelled s = true -> start_step i (Locked op) s Unlocking s
| locked_start op s : _call s = None -> _start_error s = None -> _is_cancelled s = false ->
    start_step i (Locked op) s (Authenticating op) s
| locked_no_auth op s : _call s = None -> _start_error s = None -> _is_cancelled s = false ->
    start_step i (Locked op) s (Authenticated op) s  (** nothing to authenticate *)
| locked_fails op e s : _call s = None -> _start_error s = None -> _is_cancelled s = false ->
    start_step i (Locked op) s (setup_fails e) s     (** the metadata, or no time left *)
| auth_cancelled op s : _cancel_event s = true -> start_step i (Authenticating op) s (StartFails Cancelled true) s
| authenticated_cancelled op s : _is_cancelled s = true -> start_step i (Authenticated op) s (StartFails Cancelled true) s
| authenticated_on op s : _is_cancelled s = false -> start_step i (Authenticated op) s (Routing op) s
| routing_known op l s : _address_channel s = Some l -> start_step i (Routing op) s (Opening l op) s
| routing_fails op s : _address_channel s = None -> start_step i (Routing op) s Unlocking s
| routing_leases op s : _address_channel s = None ->
    start_step i (Routing op) s (PublishAddress (length (leases s)) op) (set_leases (leases s ++ [mkLease [] false]) s)
| publish_address op l s : may_publish s = true -> start_step i (PublishAddress l op) s (Opening l op) (set_address (Some l) s)
| publish_address_not op l s : may_publish s = false -> start_step i (PublishAddress l op) s (DropLease l) s
| drop_lease l s : start_step i (DropLease l) s Unlocking (give l true s)
| drop_lease_raises l s : start_step i (DropLease l) s Unlocking (lose l s)
| open_fails op l e s : start_step i (Opening l op) s (StartFails e true) s
| open_call op l s : start_step i (Opening l op) s (PublishCall (length (natives s)) op) (set_natives (natives s ++ [mkNative l Running]) s)
| publish_call op c s : may_publish s = true -> start_step i (PublishCall c op) s (Using c op) (set_lock None (set_call (Some c) s))
| publish_call_not op c s : may_publish s = false -> start_step i (PublishCall c op) s (CancelNew c) s
| cancel_new c s : start_step i (CancelNew c) s (StartFails Cancelled true) (cancel_native c s)
| start_fails e d s : start_step i (StartFails e d) s (Release d KStart) (set_start_error (Some e) s)
| unlock s : start_step i Unlocking s Done (set_lock None s).

(** [_result_internal], [_next_response], [_write] and [_done_writing] raise. *)
Definition operation_fails (op : operation) : task := Abort (match op with Result => KResult | _ => KEnd end).

Definition call_status (c : nat) (s : stream) : option progress := status <$> natives s !! c.

(** The rest of them, on a call that is over: it answers every wait, with its
    result, with what it has buffered, with its end or with an error. *)
Inductive use_step : task -> stream -> task -> stream -> Prop :=
| use_result c s : call_status c s = Some Ended -> use_step (Using c Result) s (Release false KEnd) (set_terminal true s)
| use_stop c s : call_status c s = Some Ended -> use_step (Using c Next) s (Release false KEnd) s
| use_done c op s : op <> Result -> call_status c s = Some Ended -> use_step (Using c op) s Done s
| use_finished c s : call_status c s = Some CallCancelled -> use_step (Using c DoneWriting) s Done s
| use_fails c op p s : call_status c s = Some p -> p <> Running -> use_step (Using c op) s (operation_fails op) s.

(** What a waiting task is given from outside: the answer of the authenticator, or
    its time is over; an item of the native call, or room for one; or the task
    itself is cancelled. *)
Inductive answer_step : task -> stream -> task -> stream -> Prop :=
| auth_ok op s : _cancel_event s = false -> answer_step (Authenticating op) s (Authenticated op) s
| auth_fails op e s : e = Cancelled \/ _cancel_event s = false -> answer_step (Authenticating op) s (setup_fails e) s
| call_answers c op s : op <> Result -> call_status c s = Some Running -> answer_step (Using c op) s Done s
| use_interrupted c op s : answer_step (Using c op) s (operation_fails op) s
| lock_given_up op s : answer_step (WaitLock op) s Done s.

(** [_abort]; work that was submitted may be dropped before it starts. *)
Inductive abort_step : task -> stream -> task -> stream -> Prop :=
| abort k s : abort_step (Abort k) s (AbortCall (_call s) k) (set_event true (set_cancelled true s))
| abort_dropped s : abort_step (Abort (KClose true)) s CancelFailed (set_mishap s)
| abort_call c k s : abort_step (AbortCall (Some c) k) s (Release true k) (cancel_native c s)
| abort_no_call k s : abort_step (AbortCall None k) s (Release true k) s.

(** [_release] and [_release_soon]. *)
Inductive release_step : task -> stream -> task -> stream -> Prop :=
| release_nothing d k s : claim s = None -> release_step (Release d k) s (resume k true) s
| release_claims d k l s : claim s = Some l -> release_step (Release d k) s (Releasing l d k) (set_released true s)
| releasing l d k s : release_step (Releasing l d k) s (resume k true) (give l d s)
| releasing_raises l d k s : release_step (Releasing l d k) s (Unclaim l k) (set_mishap s)
| unclaims l k s : release_step (Unclaim l k) s (resume k false) (unclaim l s)
| soon_nothing s : claim s = None -> release_step ReleaseSoon s Done s
| soon_claims l s : claim s = Some l -> release_step ReleaseSoon s (ReleasingSoon l) (set_released true s)
| soon_given l s : release_step (ReleasingSoon l) s Done (give l true s)
| soon_lost l s : release_step (ReleasingSoon l) s Done (lose l s)
| soon_raises l s : release_step (ReleasingSoon l) s (Unclaim l KEnd) (set_mishap s).

(** [cancel] and [_cancel_submission_finished]. *)
Inductive cancel_step : task -> stream -> task -> stream -> Prop :=
| cancel_nothing server s : request_cancel server s = None -> cancel_step CancelStart s Done s
| cancel_requests server b s s' : request_cancel server s = Some (b, s') -> cancel_step CancelStart s CancelSubmit s'
| submit_accepted s : cancel_step CancelSubmit s (Abort (KClose true)) s
| submit_local s : cancel_step CancelSubmit s (Abort (KClose false)) s
| submit_rejected s : cancel_step CancelSubmit s (Release true KReset) s
| submit_refused s : cancel_step CancelSubmit s CancelRefused s
| cancel_fails s : cancel_step CancelFailed s Done (_cancel_submission_finished s)
| cancel_resets s : cancel_step CancelReset s Done (set_requested false s)
| cancel_refuses s : cancel_step CancelRefused s Done (cancel_refused s).

(** Work that comes too late or was rejected, in [_on_sdk_loop]. *)
Inductive dispatch_step : task -> stream -> task -> stream -> Prop :=
| dispatch_expires s : dispatch_step DispatchLate s (Release true KEnd) (dispatch_late s)
| reject_started t s : _start_entered s = true -> dispatch_step (Reject t) s (if t then Abort (KClose false) else Done) (reject t s)
| reject_stopped s : _start_entered s = true -> dispatch_step (Reject true) s ReleaseSoon (reject true s)
| reject_unopened t s : _start_entered s = false -> dispatch_step (Reject t) s ReleaseSoon s.

(** One step of the task with number [i]. *)
Inductive task_step (i : nat) (t : task) (s : stream) (t' : task) (s' : stream) : Prop :=
| by_start : start_step i t s t' s' -> task_step i t s t' s'
| by_use : use_step t s t' s' -> task_step i t s t' s'
| by_abort : abort_step t s t' s' -> task_step i t s t' s'
| by_release : release_step t s t' s' -> task_step i t s t' s'
| by_cancel : cancel_step t s t' s' -> task_step i t s t' s'
| by_dispatch : dispatch_step t s t' s' -> task_step i t s t' s'.

(** What callers and the channel may start at any time. *)
Definition started (t : task) : bool :=
  match t with
  | Enter _ | Abort (KClose false) | CancelStart | DispatchLate | Reject _ => true
  | _ => false
  end.

(** A task starts, makes a step or is given an answer, a native call ends, or its
    callback runs. *)
Inductive step : stream * list task -> stream * list task -> Prop :=
| step_start t s ts : started t = true -> step (s, ts) (s, ts ++ [t])
| step_task i t t' s s' ts : ts !! i = Some t -> task_step i t s t' s' -> step (s, ts) (s', <[i := t']> ts)
| step_answer i t t' s s' ts : ts !! i = Some t -> answer_step t s t' s' -> step (s, ts) (s', <[i := t']> ts)
| step_native c l s ts : natives s !! c = Some (mkNative l Running) ->
    step (s, ts) (set_natives (<[c := mkNative l Ended]> (natives s)) s, ts)
| step_terminal c l s ts : natives s !! c = Some (mkNative l Ended) -> _call s = Some c -> step (s, ts) (set_terminal true s, ts).

Definition reachable (override : bool) (x : stream * list task) : Prop := rtc step (new_stream override, []) x.
