(* ===== verification/StreamInv.v ===== *)
(** * The invariant of a stream

    Who owns the leased transport, the native calls and the start lock, kept by every
    task of [Stream]; and what an abort has reached when no hook failed. *)
From stdpp Require Import list relations.
From S2P Require Import Prelude Request Stream.

(** ** The invariant *)

(** The lease a task is giving back for the stream. *)
Definition claims (t : task) : option nat :=
  match t with Releasing l _ _ | Unclaim l _ | ReleasingSoon l => Some l | _ => None end.

(** The lease of a task that the stream does not know. *)
Definition carries (t : task) : option nat := match t with PublishAddress l _ | DropLease l => Some l | _ => None end.

(** The native call of a task that the stream does not know. *)
Definition opened (t : task) : option nat := match t with PublishCall c _ | CancelNew c => Some c | _ => None end.

(** The tasks inside the start lock. *)
Definition inner (t : task) : bool :=
  match t with
  | Locked _ | Authenticating _ | Authenticated _ | Routing _ | PublishAddress _ _ | DropLease _ | Opening _ _
  | PublishCall _ _ | CancelNew _ | StartFails _ _ | Unlocking
  | Abort KStart | AbortCall _ KStart | Release _ KStart | Releasing _ _ KStart | Unclaim _ KStart => true
  | _ => false
  end.

(** Those that have found no call. *)
Definition starting (t : task) : bool :=
  match t with
  | Authenticating _ | Authenticated _ | Routing _ | PublishAddress _ _ | Opening _ _ | PublishCall _ _ => true
  | _ => false
  end.

Abbreviation at_hand := (mkLease [] false).

(** [P i t]: the task with number [i] is at [t]. *)
Record inv (s : stream) (P : nat -> task -> Prop) : Prop := {
  v_lock i t : P i t -> inner t = true -> _start_lock s = Some i;
  v_owner i : _start_lock s = Some i -> exists t, P i t /\ inner t = true;
  v_starting i t : P i t -> starting t = true -> _call s = None;
  v_claims i t l : P i t -> claims t = Some l ->
    _address_channel s = Some l /\ _released s = true /\ leases s !! l = Some at_hand;
  v_one_claim i j t t' l l' : P i t -> P j t' -> claims t = Some l -> claims t' = Some l' -> i = j;
  v_carries i t l : P i t -> carries t = Some l -> _address_channel s <> Some l /\ leases s !! l = Some at_hand;
  v_publish i l op : P i (PublishAddress l op) -> _address_channel s = None;
  v_opening i l op : P i (Opening l op) -> _address_channel s = Some l;
  v_address l : _address_channel s = Some l -> (l < length (leases s))%nat /\ (_released s = false -> leases s !! l = Some at_hand);
  v_lease l x : leases s !! l = Some x -> (length (given x) <= 1)%nat /\ (lost x = true -> mishap s = true) /\
    (x = at_hand -> (_address_channel s = Some l /\ (_released s = false \/ exists i t, P i t /\ claims t = Some l)) \/
      exists i t, P i t /\ carries t = Some l);
  v_call c : _call s = Some c -> (c < length (natives s))%nat;
  v_opened i t c : P i t -> opened t = Some c -> (c < length (natives s))%nat /\ _call s = None;
  v_native c n : natives s !! c = Some n -> _address_channel s = Some (transport n) /\
    (status n = Running -> _call s = Some c \/ exists i t, P i t /\ opened t = Some c)
}.

(** What an undisturbed abort has reached. *)
Definition call_over (s : stream) : Prop := forall c, _call s = Some c -> status <$> natives s !! c <> Some Running.

Definition aborted (s : stream) (t : task) : Prop :=
  match t with
  | AbortCall x _ => _cancelled s = true /\ x = _call s
  | Release _ (KClose _) => _cancelled s = true /\ call_over s
  | Releasing _ _ (KClose _) => _cancelled s = true /\ call_over s
  | Closed => _cancelled s = true /\ call_over s /\ (_released s = true \/ _address_channel s = None)
  | Unclaim _ _ | CancelFailed => False
  | _ => True
  end.

Definition undisturbed (s : stream) (ts : list task) : Prop :=
  mishap s = false -> forall i t, ts !! i = Some t -> aborted s t.

(** *** The tasks keep it *)

(** Task [i] is at [t], the others are as in [O]. *)
Definition with_task (i : nat) (t : task) (O : nat -> task -> Prop) : nat -> task -> Prop := fun j u => (j = i /\ u = t) \/ O j u.

(** The start lock when a task goes from [t] to [t']. *)
Definition lock_step (i : nat) (t t' : task) (s s' : stream) : Prop :=
  match inner t, inner t' with
  | false, true => _start_lock s = None /\ _start_lock s' = Some i
  | true, false => _start_lock s' = None
  | _, _ => _start_lock s' = _start_lock s
  end.

Section Tasks.
Context (i : nat) (O : nat -> task -> Prop) (HO : forall u, ~ O i u).

Lemma here t : with_task i t O i t.
Proof. by left. Qed.
Hint Resolve here : core.

Lemma there t t' j u : with_task i t' O j u -> (j = i /\ u = t') \/ (j <> i /\ O j u /\ with_task i t O j u).
Proof. intros [[-> ->]|Hu]; [by left|right]. split; [intros ->; by apply (HO u)|]. split; [done|by right]. Qed.

(** Another task is not inside the lock when this one is. *)
Lemma only_inner t s j u : inv s (with_task i t O) -> inner t = true -> O j u -> inner u = false.
Proof.
  intros Hi Ht Hu. destruct (inner u) eqn:Eu; [|done]. pose proof (v_lock _ _ Hi i t (here t) Ht) as E1.
  pose proof (v_lock _ _ Hi j u (or_intror Hu) Eu) as E2. assert (j = i) as -> by congruence. by destruct (HO u).
Qed.

Lemma lock_kept t t' s s' :
  inv s (with_task i t O) -> lock_step i t t' s s' ->
  (forall j u, with_task i t' O j u -> inner u = true -> _start_lock s' = Some j) /\
  (forall j, _start_lock s' = Some j -> exists u, with_task i t' O j u /\ inner u = true).
Proof.
  intros Hi Hl. unfold lock_step in Hl. split.
  - intros j u Hj Hu. destruct (there t t' j u Hj) as [[-> ->]|(Hne & HOj & Hj')].
    + rewrite Hu in Hl. destruct (inner t) eqn:Et; [|by destruct Hl]. rewrite Hl. by apply (v_lock _ _ Hi i t).
    + destruct (inner t) eqn:Et; [by rewrite (only_inner _ _ _ _ Hi Et HOj) in Hu|]. pose proof (v_lock _ _ Hi j u Hj' Hu).
      destruct (inner t'); [destruct Hl; congruence|congruence].
  - intros j Hj. destruct (inner t) eqn:Et, (inner t') eqn:Et'; [| congruence | |].
    + exists t'. assert (j = i) as ->; [|split; [by left|done]]. pose proof (v_lock _ _ Hi i t (here t) Et). congruence.
    + destruct Hl as [_ Hl]. assert (j = i) as -> by congruence. exists t'. split; [by left|done].
    + rewrite Hl in Hj. destruct (v_owner _ _ Hi j Hj) as (u & [[-> ->]|Hu] & Hin); [congruence|]. exists u. split; [by right|done].
Qed.

(** Some task is at something with the given property; not this one. *)
Lemma another t t' (f : task -> option nat) l :
  f t = None -> (exists j u, with_task i t O j u /\ f u = Some l) -> exists j u, with_task i t' O j u /\ f u = Some l.
Proof. intros Hn (j & u & [[-> ->]|Hu] & Hf); [congruence|]. exists j, u. split; [by right|done]. Qed.

Lemma another_same t t' (f : task -> option nat) l :
  f t' = f t -> (exists j u, with_task i t O j u /\ f u = Some l) -> exists j u, with_task i t' O j u /\ f u = Some l.
Proof. intros Hn (j & u & [[-> ->]|Hu] & Hf); [exists i, t'; split; [by left|congruence]|]. exists j, u. split; [by right|done]. Qed.

(** Steps that move nothing. *)
Lemma inv_quiet t t' s s' :
  inv s (with_task i t O) -> lock_step i t t' s s' ->
  _address_channel s' = _address_channel s -> _call s' = _call s -> leases s' = leases s -> _released s' = _released s ->
  natives s' = natives s -> (mishap s = true -> mishap s' = true) ->
  claims t' = claims t -> carries t' = carries t -> opened t' = opened t -> (starting t' = true -> _call s = None) ->
  (forall l op, t' = PublishAddress l op -> _address_channel s = None) -> (forall l op, t' = Opening l op -> _address_channel s = Some l) ->
  inv s' (with_task i t' O).
Proof.
  intros Hi Hl Ea Ec El Er En Hm C1 C2 C3 Hs Hp Ho. destruct (lock_kept _ _ _ _ Hi Hl) as [L1 L2]. split; rewrite ?Ea, ?Ec, ?El, ?Er, ?En; try done.
  - intros j u Hj Hu. destruct (there t _ _ _ Hj) as [[-> ->]|(_ & _ & Hj')]; [by apply Hs|by apply (v_starting _ _ Hi j u)].
  - intros j u l Hj Hu. destruct (there t _ _ _ Hj) as [[-> ->]|(_ & _ & Hj')]; [apply (v_claims _ _ Hi i t); [done|congruence]|by apply (v_claims _ _ Hi j u)].
  - intros j k u v l l' Hj Hk Hu Hv. destruct (there t _ _ _ Hj) as [[-> ->]|(_ & _ & Hj')], (there t _ _ _ Hk) as [[-> ->]|(_ & _ & Hk')]; [done|..].
    + by apply (v_one_claim _ _ Hi i k t v l l'); [| |congruence|].
    + by apply (v_one_claim _ _ Hi j i u t l l'); [| | |congruence].
    + by apply (v_one_claim _ _ Hi j k u v l l').
  - intros j u l Hj Hu. destruct (there t _ _ _ Hj) as [[-> ->]|(_ & _ & Hj')]; [apply (v_carries _ _ Hi i t); [done|congruence]|by apply (v_carries _ _ Hi j u)].
  - intros j l op Hj. destruct (there t _ _ _ Hj) as [[-> E]|(_ & _ & Hj')]; [by apply (Hp l op)|by apply (v_publish _ _ Hi j l op)].
  - intros j l op Hj. destruct (there t _ _ _ Hj) as [[-> E]|(_ & _ & Hj')]; [by apply (Ho l op)|by apply (v_opening _ _ Hi j l op)].
  - apply (v_address _ _ Hi).
  - intros l x Hx. destruct (v_lease _ _ Hi l x Hx) as (? & ? & Hat). split_and!; [done|auto|]. intros E. destruct (Hat E) as [(? & [?|?])|?].
    + left. split; [done|by left].
    + left. split; [done|right]. by eapply another_same.
    + right. by eapply another_same.
  - apply (v_call _ _ Hi).
  - intros j u c Hj Hu. destruct (there t _ _ _ Hj) as [[-> ->]|(_ & _ & Hj')]; [apply (v_opened _ _ Hi i t); [done|congruence]|by apply (v_opened _ _ Hi j u)].
  - intros c n Hn. destruct (v_native _ _ Hi c n Hn) as [? Hr]. split; [done|]. intros E. destruct (Hr E) as [?|?]; [by left|right]. by eapply another_same.
Qed.

(** A hook of the channel for the lease of this task has returned or raised for good. *)
Lemma inv_given t t' s s' g l :
  inv s (with_task i t O) -> lock_step i t t' s s' -> claims t = Some l \/ carries t = Some l ->
  _address_channel s' = _address_channel s -> _call s' = _call s -> leases s' = alter g l (leases s) -> _released s' = _released s ->
  natives s' = natives s -> (mishap s = true -> mishap s' = true) ->
  g at_hand <> at_hand -> (length (given (g at_hand)) <= 1)%nat -> (lost (g at_hand) = true -> mishap s' = true) ->
  claims t' = None -> carries t' = None -> opened t' = None -> opened t = None -> starting t' = false ->
  inv s' (with_task i t' O).
Proof.
  intros Hi Hl Ht Ea Ec El Er En Hm G1 G2 G3 C1 C2 C3 C4 Hs. destruct (lock_kept _ _ _ _ Hi Hl) as [L1 L2].
  assert (leases s !! l = Some at_hand) as Hat by (destruct Ht as [Ht|Ht]; [by apply (v_claims _ _ Hi i t)|by apply (v_carries _ _ Hi i t)]).
  assert (leases s' !! l = Some (g at_hand)) as Hnew by (by rewrite El, list_lookup_alter_eq, Hat).
  assert (forall m, m <> l -> leases s' !! m = leases s !! m) as Hold by (intros m ?; by rewrite El, list_lookup_alter_ne).
  split; try done; rewrite ?Ea, ?Ec, ?Er, ?En.
  - intros j u Hj Hu. destruct (there t _ _ _ Hj) as [[-> ->]|(_ & _ & Hj')]; [congruence|by apply (v_starting _ _ Hi j u)].
  - intros j u m Hj Hu. destruct (there t _ _ _ Hj) as [[-> ->]|(Hne & _ & Hj')]; [congruence|].
    destruct (v_claims _ _ Hi j u m Hj' Hu) as (? & ? & ?). split_and!; [done..|]. rewrite Hold; [done|]. intros ->.
    destruct Ht as [Ht|Ht]; [by destruct Hne; apply (v_one_claim _ _ Hi j i u t l l)|by destruct (v_carries _ _ Hi i t l (here t) Ht)].
  - intros j k u v m m' Hj Hk Hu Hv. destruct (there t _ _ _ Hj) as [[-> ->]|(_ & _ & Hj')]; [congruence|].
    destruct (there t _ _ _ Hk) as [[-> ->]|(_ & _ & Hk')]; [congruence|]. by apply (v_one_claim _ _ Hi j k u v m m').
  - intros j u m Hj Hu. destruct (there t _ _ _ Hj) as [[-> ->]|(Hne & HOj & Hj')]; [congruence|].
    destruct (v_carries _ _ Hi j u m Hj' Hu) as (? & ?). split; [done|]. rewrite Hold; [done|]. intros ->.
    destruct Ht as [Ht|Ht]; [by destruct (v_claims _ _ Hi i t l (here t) Ht)|]. assert (inner t = true) as Hin by (by destruct t).
    pose proof (only_inner _ _ _ _ Hi Hin HOj). by destruct u.
  - intros j m op Hj. destruct (there t _ _ _ Hj) as [[-> E]|(_ & _ & Hj')]; [by subst|by apply (v_publish _ _ Hi j m op)].
  - intros j m op Hj. destruct (there t _ _ _ Hj) as [[-> E]|(_ & _ & Hj')]; [by subst|by apply (v_opening _ _ Hi j m op)].
  - intros m Hm'. destruct (v_address _ _ Hi m Hm') as [? Hr]. split; [by rewrite El, length_alter|]. intros E. rewrite Hold; [by apply Hr|].
    intros ->. destruct Ht as [Ht|Ht]; [destruct (v_claims _ _ Hi i t l (here t) Ht) as (_ & ? & _); congruence|by destruct (v_carries _ _ Hi i t l (here t) Ht)].
  - intros m x Hx. destruct (decide (m = l)) as [->|Hne]; [rewrite Hnew in Hx; injection Hx as <-; by split_and!|].
    rewrite Hold in Hx by done. destruct (v_lease _ _ Hi m x Hx) as (? & ? & Hh). split_and!; [done|auto|]. intros E.
    assert (forall f : task -> option nat, f t' = None -> f t = None \/ f t = Some l -> (exists j u, with_task i t O j u /\ f u = Some m) ->
      exists j u, with_task i t' O j u /\ f u = Some m) as Hmove.
    { intros f _ Hf (j & u & [[-> ->]|Hu] & Hfu); [destruct Hf; congruence|]. exists j, u. split; [by right|done]. }
    assert (claims t = None \/ claims t = Some l) as H1 by (destruct Ht; [by right|left; by destruct t]).
    assert (carries t = None \/ carries t = Some l) as H2 by (destruct Ht; [left; by destruct t|by right]).
    destruct (Hh E) as [(? & [?|?])|?]; [left; split; [done|by left]|left; split; [done|right; by apply Hmove]|right; by apply Hmove].
  - apply (v_call _ _ Hi).
  - intros j u c Hj Hu. destruct (there t _ _ _ Hj) as [[-> ->]|(_ & _ & Hj')]; [congruence|by apply (v_opened _ _ Hi j u)].
  - intros c n Hn. destruct (v_native _ _ Hi c n Hn) as [? Hr]. split; [done|]. intros E. destruct (Hr E) as [?|?]; [by left|right]. by eapply another.
Qed.

(** The lease is claimed. *)
Lemma inv_claim t t' s l :
  inv s (with_task i t O) -> claim s = Some l -> inner t' = inner t -> claims t = None -> claims t' = Some l ->
  carries t = None -> carries t' = None -> opened t = None -> opened t' = None -> starting t' = false ->
  inv (set_released true s) (with_task i t' O).
Proof.
  intros Hi Hc Hin C1 C1' C2 C2' C3 C3' Hs. unfold claim in Hc. destruct (_released s) eqn:Er; [done|].
  assert (lock_step i t t' s (set_released true s)) as Hl by (unfold lock_step; rewrite Hin; by destruct (inner t)).
  destruct (lock_kept _ _ _ _ Hi Hl) as [L1 L2]. destruct (v_address _ _ Hi l Hc) as [Hlt Hat]. specialize (Hat Er).
  assert (forall j u m, with_task i t O j u -> claims u = Some m -> False) as Hno.
  { intros j u m Hj Hu. destruct (v_claims _ _ Hi j u m Hj Hu) as (_ & ? & _). congruence. }
  split; try done; cbn.
  - intros j u Hj Hu. destruct (there t _ _ _ Hj) as [[-> ->]|(_ & _ & Hj')]; [congruence|by apply (v_starting _ _ Hi j u)].
  - intros j u m Hj Hu. destruct (there t _ _ _ Hj) as [[-> ->]|(_ & _ & Hj')]; [|by destruct (Hno j u m)].
    assert (m = l) as -> by congruence. done.
  - intros j k u v m m' Hj Hk Hu Hv. destruct (there t _ _ _ Hj) as [[-> ->]|(_ & _ & Hj')]; [|by destruct (Hno j u m)].
    destruct (there t _ _ _ Hk) as [[-> ->]|(_ & _ & Hk')]; [done|by destruct (Hno k v m')].
  - intros j u m Hj Hu. destruct (there t _ _ _ Hj) as [[-> ->]|(_ & _ & Hj')]; [congruence|by apply (v_carries _ _ Hi j u)].
  - intros j m op Hj. destruct (there t _ _ _ Hj) as [[-> E]|(_ & _ & Hj')]; [by subst|by apply (v_publish _ _ Hi j m op)].
  - intros j m op Hj. destruct (there t _ _ _ Hj) as [[-> E]|(_ & _ & Hj')]; [by subst|by apply (v_opening _ _ Hi j m op)].
  - intros m Hm. split; [by apply (v_address _ _ Hi)|done].
  - intros m x Hx. destruct (v_lease _ _ Hi m x Hx) as (? & ? & Hh). split_and!; [done..|]. intros E. destruct (Hh E) as [(Hm & _)|?].
    + left. split; [done|right]. exists i, t'. split; [apply here|congruence].
    + right. by apply (another t t' carries).
  - apply (v_call _ _ Hi).
  - intros j u c Hj Hu. destruct (there t _ _ _ Hj) as [[-> ->]|(_ & _ & Hj')]; [congruence|by apply (v_opened _ _ Hi j u)].
  - intros c n Hn. destruct (v_native _ _ Hi c n Hn) as [? Hr]. split; [done|]. intros E. destruct (Hr E) as [?|?]; [by left|right]. by apply (another t t' opened).
Qed.

(** The claim is given up. *)
Lemma inv_unclaim l k s : inv s (with_task i (Unclaim l k) O) -> inv (unclaim l s) (with_task i (resume k false) O).
Proof.
  intros Hi. set (t := Unclaim l k) in *. destruct (v_claims _ _ Hi i t l (here t) eq_refl) as (Ha & Hr & Hat).
  assert (unclaim l s = set_released false s) as -> by (unfold unclaim; by rewrite decide_True).
  set (t' := resume k false). assert (claims t' = None /\ carries t' = None /\ opened t' = None /\ starting t' = false /\ inner t' = inner t)
    as (C1 & C2 & C3 & Hs & Hin) by (unfold t', t; destruct k as [| | |[]|]; done).
  assert (lock_step i t t' s (set_released false s)) as Hl by (unfold lock_step; rewrite Hin; by destruct (inner t)).
  destruct (lock_kept _ _ _ _ Hi Hl) as [L1 L2].
  assert (forall j u m, O j u -> claims u = Some m -> False) as Hno.
  { intros j u m Hj Hu. apply (HO u). rewrite <- (v_one_claim _ _ Hi j i u t m l (or_intror Hj) (here t) Hu eq_refl). done. }
  split; try done; cbn.
  - intros j u Hj Hu. destruct (there t _ _ _ Hj) as [[-> ->]|(_ & _ & Hj')]; [congruence|by apply (v_starting _ _ Hi j u)].
  - intros j u m Hj Hu. destruct (there t _ _ _ Hj) as [[-> ->]|(_ & HOj & Hj')]; [congruence|by destruct (Hno j u m)].
  - intros j k' u v m m' Hj Hk Hu Hv. destruct (there t _ _ _ Hj) as [[-> ->]|(_ & HOj & Hj')]; [congruence|by destruct (Hno j u m)].
  - intros j u m Hj Hu. destruct (there t _ _ _ Hj) as [[-> ->]|(_ & _ & Hj')]; [congruence|by apply (v_carries _ _ Hi j u)].
  - intros j m op Hj. destruct (there t _ _ _ Hj) as [[-> E]|(_ & _ & Hj')]; [by destruct t'|by apply (v_publish _ _ Hi j m op)].
  - intros j m op Hj. destruct (there t _ _ _ Hj) as [[-> E]|(_ & _ & Hj')]; [by destruct t'|by apply (v_opening _ _ Hi j m op)].
  - intros m Hm. split; [by apply (v_address _ _ Hi)|]. intros _. by assert (m = l) as -> by congruence.
  - intros m x Hx. destruct (v_lease _ _ Hi m x Hx) as (? & ? & Hh). split_and!; [done..|]. intros E. destruct (Hh E) as [(Hm & _)|?].
    + left. split; [done|by left].
    + right. by apply (another t t' carries).
  - apply (v_call _ _ Hi).
  - intros j u c Hj Hu. destruct (there t _ _ _ Hj) as [[-> ->]|(_ & _ & Hj')]; [congruence|by apply (v_opened _ _ Hi j u)].
  - intros c n Hn. destruct (v_native _ _ Hi c n Hn) as [? Hr']. split; [done|]. intros E. destruct (Hr' E) as [?|?]; [by left|right]. by apply (another t t' opened).
Qed.

(** A lease of the pool. *)
Lemma inv_leased op s :
  inv s (with_task i (Routing op) O) -> _address_channel s = None ->
  inv (set_leases (leases s ++ [at_hand]) s) (with_task i (PublishAddress (length (leases s)) op) O).
Proof.
  intros Hi Ha. set (t := Routing op) in *. set (n := length (leases s)). set (t' := PublishAddress n op). set (s' := set_leases _ s).
  destruct (lock_kept t t' s s' Hi eq_refl) as [L1 L2].
  assert (forall m x, leases s !! m = Some x -> leases s' !! m = Some x) as Hold by (intros m x Hx; cbn; by apply lookup_app_l_Some).
  assert (leases s' !! n = Some at_hand) as Hnew by (cbn; by rewrite list_lookup_middle).
  split; try done; cbn [_address_channel _call _released natives mishap s' set_leases].
  - intros j u Hj Hu. destruct (there t _ _ _ Hj) as [[-> ->]|(_ & _ & Hj')]; [by apply (v_starting _ _ Hi i t (here t))|by apply (v_starting _ _ Hi j u)].
  - intros j u m Hj Hu. destruct (there t _ _ _ Hj) as [[-> ->]|(_ & _ & Hj')]; [done|]. destruct (v_claims _ _ Hi j u m Hj' Hu). congruence.
  - intros j k u v m m' Hj Hk Hu Hv. destruct (there t _ _ _ Hj) as [[-> ->]|(_ & _ & Hj')]; [done|].
    destruct (v_claims _ _ Hi j u m Hj' Hu). congruence.
  - intros j u m Hj Hu. destruct (there t _ _ _ Hj) as [[-> ->]|(_ & _ & Hj')].
    + injection Hu as <-. rewrite Ha. done.
    + destruct (v_carries _ _ Hi j u m Hj' Hu). split; [done|by apply Hold].
  - intros j m op' Hj. destruct (there t _ _ _ Hj) as [[-> E]|(_ & _ & Hj')]; [done|by apply (v_opening _ _ Hi j m op')].
  - intros m Hm. congruence.
  - intros m x Hx. apply lookup_app_Some in Hx as [Hx|[Hge Hx]].
    + destruct (v_lease _ _ Hi m x Hx) as (? & ? & Hh). split_and!; [done..|]. intros E. destruct (Hh E) as [(? & _)|?]; [congruence|].
      right. by apply (another t t' carries).
    + apply list_lookup_singleton_Some in Hx as [Hm <-]. split_and!; [simpl; lia|done|]. intros _. right. exists i, t'. split; [apply here|].
      cbn. f_equal. unfold n. lia.
  - apply (v_call _ _ Hi).
  - intros j u c Hj Hu. destruct (there t _ _ _ Hj) as [[-> ->]|(_ & _ & Hj')]; [done|by apply (v_opened _ _ Hi j u)].
  - intros c x Hn. destruct (v_native _ _ Hi c x Hn) as [? Hr]. split; [done|]. intros E. destruct (Hr E) as [?|?]; [by left|right]. by apply (another t t' opened).
Qed.

Lemma inv_published op l s :
  inv s (with_task i (PublishAddress l op) O) -> may_publish s = true -> inv (set_address (Some l) s) (with_task i (Opening l op) O).
Proof.
  intros Hi Hp. set (t := PublishAddress l op) in *. set (t' := Opening l op). set (s' := set_address (Some l) s).
  destruct (lock_kept t t' s s' Hi eq_refl) as [L1 L2]. pose proof (v_publish _ _ Hi i l op (here t)) as Ha.
  destruct (v_carries _ _ Hi i t l (here t) eq_refl) as [_ Hat].
  assert (_released s = false) as Hr by (unfold may_publish in Hp; destruct (_released s); [by rewrite andb_false_r in Hp|done]).
  assert (forall j u m, with_task i t O j u -> claims u = Some m -> False) as Hno.
  { intros j u m Hj Hu. destruct (v_claims _ _ Hi j u m Hj Hu). congruence. }
  assert (forall j u, O j u -> inner u = false) as Hout by (intros j u Hj; by apply (only_inner t s j u)).
  split; try done; cbn [_address_channel _call _released natives mishap leases s' set_address].
  - intros j u Hj Hu. destruct (there t _ _ _ Hj) as [[-> ->]|(_ & _ & Hj')]; [by apply (v_starting _ _ Hi i t (here t))|by apply (v_starting _ _ Hi j u)].
  - intros j u m Hj Hu. destruct (there t _ _ _ Hj) as [[-> ->]|(_ & _ & Hj')]; [done|by destruct (Hno j u m)].
  - intros j k u v m m' Hj Hk Hu Hv. destruct (there t _ _ _ Hj) as [[-> ->]|(_ & _ & Hj')]; [done|by destruct (Hno j u m)].
  - intros j u m Hj Hu. destruct (there t _ _ _ Hj) as [[-> ->]|(_ & HOj & _)]; [done|]. apply Hout in HOj. by destruct u.
  - intros j m op' Hj. destruct (there t _ _ _ Hj) as [[-> E]|(_ & HOj & _)]; [done|]. by apply Hout in HOj.
  - intros j m op' Hj. destruct (there t _ _ _ Hj) as [[-> [= -> ->]]|(_ & HOj & _)]; [done|]. by apply Hout in HOj.
  - intros m [= <-]. split; [by eapply lookup_lt_Some|done].
  - intros m x Hx. destruct (v_lease _ _ Hi m x Hx) as (? & ? & Hh). split_and!; [done..|]. intros E. destruct (Hh E) as [(? & _)|(j & u & Hj & Hu)]; [congruence|].
    destruct Hj as [[-> ->]|HOj]; [injection Hu as <-; left; split; [done|by left]|]. apply Hout in HOj. by destruct u.
  - apply (v_call _ _ Hi).
  - intros j u c Hj Hu. destruct (there t _ _ _ Hj) as [[-> ->]|(_ & _ & Hj')]; [done|by apply (v_opened _ _ Hi j u)].
  - intros c x Hn. destruct (v_native _ _ Hi c x Hn) as [? _]. congruence.
Qed.

Lemma inv_opened op l s :
  inv s (with_task i (Opening l op) O) ->
  inv (set_natives (natives s ++ [mkNative l Running]) s) (with_task i (PublishCall (length (natives s)) op) O).
Proof.
  intros Hi. set (t := Opening l op) in *. set (n := length (natives s)). set (t' := PublishCall n op). set (s' := set_natives _ s).
  destruct (lock_kept t t' s s' Hi eq_refl) as [L1 L2]. pose proof (v_opening _ _ Hi i l op (here t)) as Ha.
  assert (_call s = None) as Hc by (by apply (v_starting _ _ Hi i t (here t))).
  split; try done; cbn [_address_channel _call _released natives mishap leases s' set_natives].
  - intros j u m Hj Hu. destruct (there t _ _ _ Hj) as [[-> ->]|(_ & _ & Hj')]; [done|by apply (v_claims _ _ Hi j u)].
  - intros j k u v m m' Hj Hk Hu Hv. destruct (there t _ _ _ Hj) as [[-> ->]|(_ & _ & Hj')]; [done|].
    destruct (there t _ _ _ Hk) as [[-> ->]|(_ & _ & Hk')]; [done|]. by apply (v_one_claim _ _ Hi j k u v m m').
  - intros j u m Hj Hu. destruct (there t _ _ _ Hj) as [[-> ->]|(_ & _ & Hj')]; [done|by apply (v_carries _ _ Hi j u)].
  - intros j m op' Hj. destruct (there t _ _ _ Hj) as [[-> E]|(_ & _ & Hj')]; [done|by apply (v_publish _ _ Hi j m op')].
  - intros j m op' Hj. destruct (there t _ _ _ Hj) as [[-> E]|(_ & _ & Hj')]; [done|by apply (v_opening _ _ Hi j m op')].
  - apply (v_address _ _ Hi).
  - intros m x Hx. destruct (v_lease _ _ Hi m x Hx) as (? & ? & Hh). split_and!; [done..|]. intros E. destruct (Hh E) as [(? & [?|?])|?].
    + left. split; [done|by left].
    + left. split; [done|right]. by apply (another t t' claims).
    + right. by apply (another t t' carries).
  - intros c. congruence.
  - intros j u c Hj Hu. rewrite length_app. cbn [length]. destruct (there t _ _ _ Hj) as [[-> ->]|(_ & _ & Hj')].
    + injection Hu as <-. split; [unfold n; lia|done].
    + destruct (v_opened _ _ Hi j u c Hj' Hu). split; [lia|done].
  - intros c x Hn. apply lookup_app_Some in Hn as [Hn|[Hge Hn]].
    + destruct (v_native _ _ Hi c x Hn) as [? Hr]. split; [done|]. intros E. destruct (Hr E) as [?|?]; [congruence|right]. by apply (another t t' opened).
    + apply list_lookup_singleton_Some in Hn as [Hm <-]. split; [done|]. intros _. right. exists i, t'. split; [apply here|]. cbn. f_equal. unfold n. lia.
Qed.

Lemma inv_called op c s :
  inv s (with_task i (PublishCall c op) O) -> inv (set_lock None (set_call (Some c) s)) (with_task i (Using c op) O).
Proof.
  intros Hi. set (t := PublishCall c op) in *. set (t' := Using c op). set (s' := set_lock None (set_call (Some c) s)).
  destruct (lock_kept t t' s s' Hi eq_refl) as [L1 L2]. destruct (v_opened _ _ Hi i t c (here t) eq_refl) as [Hlt Hc].
  assert (forall j u, O j u -> inner u = false) as Hout by (intros j u Hj; by apply (only_inner t s j u)).
  split; try done; cbn [_address_channel _call _released natives mishap leases s' set_call set_lock].
  - intros j u Hj Hu. destruct (there t _ _ _ Hj) as [[-> ->]|(_ & HOj & _)]; [done|]. apply Hout in HOj. by destruct u.
  - intros j u m Hj Hu. destruct (there t _ _ _ Hj) as [[-> ->]|(_ & _ & Hj')]; [done|by apply (v_claims _ _ Hi j u)].
  - intros j k u v m m' Hj Hk Hu Hv. destruct (there t _ _ _ Hj) as [[-> ->]|(_ & _ & Hj')]; [done|].
    destruct (there t _ _ _ Hk) as [[-> ->]|(_ & _ & Hk')]; [done|]. by apply (v_one_claim _ _ Hi j k u v m m').
  - intros j u m Hj Hu. destruct (there t _ _ _ Hj) as [[-> ->]|(_ & _ & Hj')]; [done|by apply (v_carries _ _ Hi j u)].
  - intros j m op' Hj. destruct (there t _ _ _ Hj) as [[-> E]|(_ & _ & Hj')]; [done|by apply (v_publish _ _ Hi j m op')].
  - intros j m op' Hj. destruct (there t _ _ _ Hj) as [[-> E]|(_ & _ & Hj')]; [done|by apply (v_opening _ _ Hi j m op')].
  - apply (v_address _ _ Hi).
  - intros m x Hx. destruct (v_lease _ _ Hi m x Hx) as (? & ? & Hh). split_and!; [done..|]. intros E. destruct (Hh E) as [(? & [?|?])|?].
    + left. split; [done|by left].
    + left. split; [done|right]. by apply (another t t' claims).
    + right. by apply (another t t' carries).
  - by intros c' [= <-].
  - intros j u c' Hj Hu. destruct (there t _ _ _ Hj) as [[-> ->]|(_ & HOj & _)]; [done|]. apply Hout in HOj. by destruct u.
  - intros c' x Hn. destruct (v_native _ _ Hi c' x Hn) as [? Hr]. split; [done|]. intros E. destruct (Hr E) as [?|(j & u & [[-> ->]|HOj] & Hu)].
    + congruence.
    + left. by injection Hu as <-.
    + apply Hout in HOj. by destruct u.
Qed.

(** [call.cancel()] of the published call, or of the call of this task. *)
Lemma inv_cancelled t t' s c :
  inv s (with_task i t O) -> inner t' = inner t -> claims t' = claims t -> carries t = None -> carries t' = None ->
  opened t = None \/ opened t = Some c -> opened t' = None -> starting t' = false ->
  inv (cancel_native c s) (with_task i t' O).
Proof.
  intros Hi Hin C1 C2 C2' C3 C3' Hs. set (s' := cancel_native c s).
  assert (lock_step i t t' s s') as Hl by (unfold lock_step; rewrite Hin; by destruct (inner t)).
  destruct (lock_kept _ _ _ _ Hi Hl) as [L1 L2].
  assert (length (natives s') = length (natives s)) as Hlen by apply length_alter.
  split; try done; cbn [_address_channel _call _released mishap leases s' cancel_native set_natives]; fold s'.
  - intros j u Hj Hu. destruct (there t _ _ _ Hj) as [[-> ->]|(_ & _ & Hj')]; [congruence|by apply (v_starting _ _ Hi j u)].
  - intros j u l Hj Hu. destruct (there t _ _ _ Hj) as [[-> ->]|(_ & _ & Hj')]; [apply (v_claims _ _ Hi i t); [apply here|congruence]|by apply (v_claims _ _ Hi j u)].
  - intros j k u v l l' Hj Hk Hu Hv. destruct (there t _ _ _ Hj) as [[-> ->]|(_ & _ & Hj')], (there t _ _ _ Hk) as [[-> ->]|(_ & _ & Hk')]; [done|..].
    + apply (v_one_claim _ _ Hi i k t v l l'); [apply here|done|congruence|done].
    + apply (v_one_claim _ _ Hi j i u t l l'); [done|apply here|done|congruence].
    + by apply (v_one_claim _ _ Hi j k u v l l').
  - intros j u l Hj Hu. destruct (there t _ _ _ Hj) as [[-> ->]|(_ & _ & Hj')]; [congruence|by apply (v_carries _ _ Hi j u)].
  - intros j m op Hj. destruct (there t _ _ _ Hj) as [[-> E]|(_ & _ & Hj')]; [by subst|by apply (v_publish _ _ Hi j m op)].
  - intros j m op Hj. destruct (there t _ _ _ Hj) as [[-> E]|(_ & _ & Hj')]; [by subst|by apply (v_opening _ _ Hi j m op)].
  - apply (v_address _ _ Hi).
  - intros m x Hx. destruct (v_lease _ _ Hi m x Hx) as (? & ? & Hh). split_and!; [done..|]. intros E. destruct (Hh E) as [(? & [?|?])|?].
    + left. split; [done|by left].
    + left. split; [done|right]. by apply (another_same t t' claims).
    + right. by apply (another t t' carries).
  - intros c' Hc'. rewrite Hlen. by apply (v_call _ _ Hi).
  - intros j u c' Hj Hu. rewrite Hlen. destruct (there t _ _ _ Hj) as [[-> ->]|(_ & _ & Hj')]; [congruence|by apply (v_opened _ _ Hi j u)].
  - intros c' x Hn. destruct (decide (c' = c)) as [->|Hne].
    + unfold s', cancel_native in Hn. cbn in Hn. rewrite list_lookup_alter_eq in Hn. destruct (natives s !! c) as [y|] eqn:Ey; [|done].
      destruct (v_native _ _ Hi c y Ey) as [? _]. cbn in Hn. injection Hn as <-. destruct (status y) eqn:Es; (split; [done|]); cbn; congruence.
    + unfold s', cancel_native in Hn. cbn in Hn. rewrite list_lookup_alter_ne in Hn by done. destruct (v_native _ _ Hi c' x Hn) as [? Hr].
      split; [done|]. intros E. destruct (Hr E) as [?|(j & u & [[-> ->]|HOj] & Hu)]; [by left|destruct C3; congruence|right]. exists j, u. split; [by right|done].
Qed.

Lemma resume_parts k ok :
  claims (resume k ok) = None /\ carries (resume k ok) = None /\ opened (resume k ok) = None /\ starting (resume k ok) = false /\
  inner (resume k ok) = match k with KStart => true | _ => false end /\
  (forall l op, resume k ok <> PublishAddress l op) /\ (forall l op, resume k ok <> Opening l op).
Proof. by destruct k as [| | |[]|], ok. Qed.

Lemma lock_same t t' s s' : inner t' = inner t -> _start_lock s' = _start_lock s -> lock_step i t t' s s'.
Proof. intros Hin Hl. unfold lock_step. rewrite Hin. by destruct (inner t). Qed.

Ltac quiet Hi :=
  solve [eapply inv_quiet; [exact Hi|first [apply lock_same; done | done]|..];
    first [done | by intros _; apply (v_starting _ _ Hi i _ (here _)) | by intros ? ? [= <- <-]]].

Lemma inv_task t t' s s' : task_step i t s t' s' -> inv s (with_task i t O) -> inv s' (with_task i t' O).
Proof.
  intros Ht Hi. destruct Ht as [Ht|Ht|Ht|Ht|Ht|Ht]; destruct Ht; try quiet Hi.
  - by apply inv_leased.
  - by apply inv_published.
  - eapply (inv_given (DropLease l)); try done; by right.
  - eapply (inv_given (DropLease l)); try done; by right.
  - by apply inv_opened.
  - by apply inv_called.
  - eapply inv_cancelled; try done. by right.
  - destruct op; quiet Hi.
  - destruct k; (eapply inv_cancelled; [exact Hi|..]; try done; by left).
  - destruct (resume_parts k true) as (? & ? & ? & ? & ? & ? & ?). eapply inv_quiet; [exact Hi|apply lock_same; [by destruct k|done]|..]; try done; congruence.
  - by eapply inv_claim.
  - destruct (resume_parts k true) as (? & ? & ? & ? & ? & ? & ?).
    eapply (inv_given (Releasing l d k)); [exact Hi|apply lock_same; [by destruct k|done]|..]; try done; by left.
  - by apply inv_unclaim.
  - by eapply inv_claim.
  - eapply (inv_given (ReleasingSoon l)); try done; by left.
  - eapply (inv_given (ReleasingSoon l)); try done; first [by left | simpl; lia].
  - unfold request_cancel in *. repeat case_match; simplify_eq. quiet Hi.
  - unfold _cancel_submission_finished. case_match; quiet Hi.
  - unfold cancel_refused. case_match; quiet Hi.
  - unfold reject. destruct t; repeat case_match; quiet Hi.
  - unfold reject. repeat case_match; quiet Hi.
Qed.

Lemma inv_answer t t' s s' : answer_step t s t' s' -> inv s (with_task i t O) -> inv s' (with_task i t' O).
Proof. intros Ht Hi. destruct Ht; try quiet Hi. destruct op; quiet Hi. Qed.

End Tasks.

(** *** Every step keeps it *)

Lemma inv_tasks s (P Q : nat -> task -> Prop) : (forall i t, P i t <-> Q i t) -> inv s P -> inv s Q.
Proof.
  intros HPQ Hi. assert (forall i t, Q i t -> P i t) as Hq by (intros; by apply HPQ).
  assert (forall (f : task -> option nat) l, (exists i t, P i t /\ f t = Some l) -> exists i t, Q i t /\ f t = Some l) as Hex.
  { intros f l (i & t & Ht & Hf). exists i, t. split; [by apply HPQ|done]. }
  destruct Hi. split; try done; eauto.
  - intros i Hl. destruct (v_owner0 i Hl) as (t & Ht & ?). exists t. split; [by apply HPQ|done].
  - intros l x Hx. destruct (v_lease0 l x Hx) as (? & ? & Hh). split_and!; [done..|]. intros E. destruct (Hh E) as [(? & [?|?])|?]; eauto 6.
  - intros c n Hn. destruct (v_native0 c n Hn) as [? Hr]. split; [done|]. intros E. destruct (Hr E); eauto.
Qed.

Definition tasks_of (ts : list task) : nat -> task -> Prop := fun i t => ts !! i = Some t.

Lemma tasks_with ts i t : ts !! i = Some t -> forall t' j u,
  tasks_of (<[i := t']> ts) j u <-> with_task i t' (fun j u => j <> i /\ ts !! j = Some u) j u.
Proof.
  intros Hi t' j u. unfold tasks_of, with_task. rewrite list_lookup_insert_Some. apply lookup_lt_Some in Hi. naive_solver.
Qed.

Lemma inv_new s : forall ts t, started t = true -> inv s (tasks_of ts) -> inv s (tasks_of (ts ++ [t])).
Proof.
  intros ts t Ht Hi. assert (inner t = false /\ starting t = false /\ claims t = None /\ carries t = None /\ opened t = None) as (E1 & E2 & E3 & E4 & E5).
  { destruct t as [| | | | | | | | | | | | | |[| | |[]|]| | | | | | | | | | | | | | |]; done. }
  assert (forall i u, tasks_of (ts ++ [t]) i u -> tasks_of ts i u \/ u = t) as Hold.
  { intros i u Hu. unfold tasks_of in *. apply lookup_app_Some in Hu as [?|[_ Hu]]; [by left|right]. by apply list_lookup_singleton_Some in Hu as [_ <-]. }
  assert (forall i u, tasks_of ts i u -> tasks_of (ts ++ [t]) i u) as Hnew by (intros i u Hu; by apply lookup_app_l_Some).
  assert (forall (f : task -> option nat) l, (exists i t, tasks_of ts i t /\ f t = Some l) -> exists i u, tasks_of (ts ++ [t]) i u /\ f u = Some l) as Hex by naive_solver.
  destruct Hi. split; try done.
  - intros i u Hu Hin. destruct (Hold i u Hu) as [?| ->]; [eauto|congruence].
  - intros i Hl. destruct (v_owner0 i Hl) as (u & Hu & ?). eauto.
  - intros i u Hu Hin. destruct (Hold i u Hu) as [?| ->]; [eauto|congruence].
  - intros i u l Hu Hin. destruct (Hold i u Hu) as [?| ->]; [eauto|congruence].
  - intros i j u v l l' Hu Hv C1 C2. destruct (Hold i u Hu) as [?| ->]; [|congruence]. destruct (Hold j v Hv) as [?| ->]; [eauto|congruence].
  - intros i u l Hu Hin. destruct (Hold i u Hu) as [?| ->]; [eauto|congruence].
  - intros i l op Hu. destruct (Hold i _ Hu) as [?| <-]; [eauto|done].
  - intros i l op Hu. destruct (Hold i _ Hu) as [?| <-]; [eauto|done].
  - intros l x Hx. destruct (v_lease0 l x Hx) as (? & ? & Hh). split_and!; [done..|]. intros E. destruct (Hh E) as [(? & [?|?])|?]; eauto 6.
  - intros i u c Hu Hin. destruct (Hold i u Hu) as [?| ->]; [eauto|congruence].
  - intros c n Hn. destruct (v_native0 c n Hn) as [? Hr]. split; [done|]. intros E. destruct (Hr E); eauto.
Qed.

Lemma inv_ended s P c l : inv s P -> natives s !! c = Some (mkNative l Running) -> inv (set_natives (<[c := mkNative l Ended]> (natives s)) s) P.
Proof.
  intros [] Hc. split; try done; cbn [_call natives set_natives]; rewrite ?length_insert; try done.
  intros c' n Hn. apply list_lookup_insert_Some in Hn as [(-> & <- & _)|(Hne & Hn)]; [|by apply v_native0].
  destruct (v_native0 _ _ Hc) as [? _]. done.
Qed.

Lemma inv_reachable override x : reachable override x -> inv x.1 (tasks_of x.2).
Proof.
  revert x. apply rtc_ind_r.
  - unfold tasks_of. cbn. split; try done; cbn.
    + intros l. destruct override; [|done]. intros [= <-]. split; [simpl; lia|done].
    + intros l x Hx. destruct override; [|done]. apply list_lookup_singleton_Some in Hx as [-> <-]. split_and!; [simpl; lia|done|]. intros _. left. split; [done|by left].
  - intros y z _ Hs Hi. destruct Hs as [t s ts Ht|i t t' s s' ts Hl Ht|i t t' s s' ts Hl Ht|c l s ts Hc|c l s ts Hc Hcall]; cbn [fst snd] in *.
    + by apply inv_new.
    + eapply inv_tasks; [intros j u; symmetry; by apply (tasks_with ts i t)|]. eapply inv_task; [naive_solver|exact Ht|].
      eapply inv_tasks; [intros j u; by apply (tasks_with ts i t)|]. by rewrite list_insert_id.
    + eapply inv_tasks; [intros j u; symmetry; by apply (tasks_with ts i t)|]. eapply inv_answer; [naive_solver|exact Ht|].
      eapply inv_tasks; [intros j u; by apply (tasks_with ts i t)|]. by rewrite list_insert_id.
    + by apply inv_ended.
    + destruct Hi. by split.
Qed.

(** ** Streams without a mishap *)

(** What an abort has reached stays. *)
Record safer (s s' : stream) : Prop := {
  f_mishap : mishap s' = false -> mishap s = false;
  f_cancelled : _cancelled s = true -> _cancelled s' = true;
  f_call : _cancelled s = true -> _call s' = _call s;
  f_over : _cancelled s = true -> call_over s -> call_over s';
  f_released : _released s = true -> _released s' = true;
  f_address : _cancelled s = true -> _address_channel s = None -> _address_channel s' = None
}.

Lemma safer_aborted s s' t : safer s s' -> aborted s t -> aborted s' t.
Proof.
  intros [Hm Hc Hcall Ho Hr Ha]. destruct t as [| | | | | | | | | | | | | | |x k|d k|l d k| | | | | | | | | | | |]; cbn; try done.
  - intros [? ->]. split; [auto|]. by rewrite Hcall.
  - destruct k; try done. intros [? ?]. auto.
  - destruct k; try done. intros [? ?]. auto.
  - intros (? & ? & [?|?]); split_and!; auto.
Qed.

Lemma over_cancelled s c : call_over s -> call_over (cancel_native c s).
Proof.
  intros Ho c' Hc'. specialize (Ho c' Hc'). cbn. destruct (decide (c' = c)) as [->|]; [|by rewrite list_lookup_alter_ne].
  rewrite list_lookup_alter_eq. destruct (natives s !! c) as [[l []]|]; cbn in *; congruence.
Qed.

Lemma cancelled_not_published s : _cancelled s = true -> may_publish s = false.
Proof. intros E. unfold may_publish. rewrite E. by destruct (_cancel_requested s). Qed.

Lemma safer_step i t t' s s' P : inv s P -> P i t -> (mishap s = false -> aborted s t) -> task_step i t s t' s' -> mishap s' = false -> safer s s'.
Proof.
  intros Hi HP Ha Ht Hm.
  assert (forall x, safer x x) as Hrefl by (by split).
  destruct Ht as [Ht|Ht|Ht|Ht|Ht|Ht]; destruct Ht; try (by split); try apply Hrefl.
  - split; try done; cbn; intros Hc; by rewrite (cancelled_not_published s Hc) in *.
  - split; try done. cbn. intros _ Ho c Hc. cbn. rewrite lookup_app_l by (by apply (v_call _ _ Hi)). by apply Ho.
  - split; try done; cbn; intros Hc; by rewrite (cancelled_not_published s Hc) in *.
  - split; try done. intros _. apply over_cancelled.
  - split; try done. intros _. apply over_cancelled.
  - cbn in Ha. assert (mishap s = false) as Hm' by (unfold unclaim in Hm; by case_decide). destruct (Ha Hm').
  - unfold request_cancel in *. repeat case_match; simplify_eq. by split.
  - cbn in Ha. assert (mishap s = false) as Hm' by (unfold _cancel_submission_finished in Hm; by case_match). destruct (Ha Hm').
  - unfold cancel_refused. case_match; by split.
  - unfold reject. case_match; by split.
  - unfold reject. case_match; by split.
Qed.

Lemma aborted_step i t t' s s' P : inv s P -> P i t -> (mishap s = false -> aborted s t) -> task_step i t s t' s' -> mishap s' = false -> aborted s' t'.
Proof.
  intros Hi HP Ha Ht Hm. pose proof (safer_step _ _ _ _ _ _ Hi HP Ha Ht Hm) as Hs. specialize (Ha (f_mishap _ _ Hs Hm)).
  destruct Ht as [Ht|Ht|Ht|Ht|Ht|Ht]; destruct Ht; cbn; try done.
  - (* abort_call *) destruct Ha as [Hc E]. destruct k; try done. split; [done|]. intros c' Hc'. cbn in *. assert (c' = c) as -> by congruence.
    rewrite list_lookup_alter_eq. destruct (natives s !! c) as [[l []]|]; cbn; congruence.
  - destruct Ha as [Hc E]. destruct k; try done. split; [done|]. intros c' Hc'. congruence.
  - destruct k; try done. cbn in *. destruct Ha as [? ?]. unfold claim in *. destruct (_released s) eqn:Er; split_and!; try done; [by left|by right].
  - destruct k; try done. cbn in *. destruct Ha as [? ?]. destruct (v_claims _ _ Hi i _ l HP eq_refl) as (? & ? & ?). split_and!; try done. by left.
  - destruct t; [|done]. done.
Qed.

Lemma undisturbed_reachable override x : reachable override x -> undisturbed x.1 x.2.
Proof.
  intros Hr. assert (inv x.1 (tasks_of x.2) /\ undisturbed x.1 x.2) as [_ ?]; [|done]. revert x Hr. apply rtc_ind_r.
  - split; [by apply (inv_reachable override (new_stream override, [])), rtc_refl|]. by intros _ i t Ht.
  - intros y z Hy Hs [Hi Hu]. split; [by apply (inv_reachable override), (rtc_r _ y)|].
    destruct Hs as [t s ts Ht|i t t' s s' ts Hl Ht|i t t' s s' ts Hl Ht|c l s ts Hc|c l s ts Hc Hcall]; cbn [fst snd] in *; intros Hm j u Hj.
    + apply lookup_app_Some in Hj as [Hj|[_ Hj]]; [by apply (Hu Hm j)|]. apply list_lookup_singleton_Some in Hj as [_ <-]. by destruct t.
    + assert (mishap s = false -> aborted s t) as Ha by (intros Hm'; by apply (Hu Hm' i)).
      pose proof (safer_step _ _ _ _ _ _ Hi Hl Ha Ht Hm) as Hsafe. apply list_lookup_insert_Some in Hj as [(-> & <- & _)|(Hne & Hj)].
      * by eapply aborted_step.
      * eapply safer_aborted; [exact Hsafe|]. apply (Hu (f_mishap _ _ Hsafe Hm) j u Hj).
    + assert (s' = s) as -> by (by destruct Ht). apply list_lookup_insert_Some in Hj as [(-> & <- & _)|(Hne & Hj)]; [|by apply (Hu Hm j u Hj)].
      by destruct Ht.
    + eapply safer_aborted; [|by apply (Hu Hm j)]. split; try done. intros _ Ho c' Hc'. cbn. destruct (decide (c' = c)) as [->|].
      * rewrite list_lookup_insert_eq by (by eapply lookup_lt_Some). done.
      * rewrite list_lookup_insert_ne by done. by apply Ho.
    + eapply safer_aborted; [|by apply (Hu Hm j)]. by split.
Qed.
