(* ===== verification/StreamTheorems.v ===== *)
(** * Streams: the theorems

    Leases, closing, native calls, termination and deadlines of [Stream]. *)
From stdpp Require Import list relations.
From S2P Require Import Prelude Request Stream StreamInv.

(** ** What tasks see of the call *)

(** A step of a task, its own or after an answer. *)
Definition moves (i : nat) (t : task) (s : stream) (t' : task) (s' : stream) : Prop :=
  task_step i t s t' s' \/ answer_step t s t' s'.

(** The cases of a move, one for each rule. *)
Ltac by_rule H := destruct H as [H|H]; [destruct H as [H|H|H|H|H|H]|]; destruct H.

(** The state functions of [cancel] and the rejections, and the cases of their sections. *)
Ltac sections :=
  unfold request_cancel, _cancel_submission_finished, cancel_refused, reject, unclaim in *; repeat case_match; simplify_eq.

(** A property of every task: it holds of new tasks, and moves and the outside keep it. *)
Lemma every_task override (Q : stream -> task -> Prop) :
  (forall s t, started t = true -> Q s t) ->
  (forall s t ns, Q s t -> Q (set_natives ns s) t) -> (forall s t, Q s t -> Q (set_terminal true s) t) ->
  (forall i t t' s s' ts, reachable override (s, ts) -> ts !! i = Some t -> moves i t s t' s' -> Q s t -> Q s' t') ->
  (forall i t t' s s' ts u, reachable override (s, ts) -> ts !! i = Some t -> moves i t s t' s' -> Q s u -> Q s' u) ->
  forall s ts i t, reachable override (s, ts) -> ts !! i = Some t -> Q s t.
Proof.
  intros Hnew Hns Hterm Hown Hother s ts i t Hr Hi.
  assert (forall x, reachable override x -> forall i t, x.2 !! i = Some t -> Q x.1 t) as Hall; [|by apply (Hall (s, ts) Hr i)].
  clear s ts i t Hr Hi. apply (rtc_ind_r (fun x => forall i t, x.2 !! i = Some t -> Q x.1 t)); [done|]. intros x y Hx Hs IH.
  assert (forall s ts i t t' s', reachable override (s, ts) -> (forall i t, ts !! i = Some t -> Q s t) -> ts !! i = Some t ->
    moves i t s t' s' -> forall j u, <[i := t']> ts !! j = Some u -> Q s' u) as Hmove.
  { clear -Hown Hother. intros s ts i t t' s' Hr IH Hi Hm j u Hj. apply list_lookup_insert_Some in Hj as [(-> & <- & _)|(_ & Hj)].
    - apply (Hown j t t' s s' ts); auto. by apply (IH j).
    - apply (Hother i t t' s s' ts u); auto. by apply (IH j). }
  destruct Hs as [t s1 ts1 Ht|i t t' s1 s2 ts1 Hi Ht|i t t' s1 s2 ts1 Hi Ht|c l s1 ts1 Hc|c l s1 ts1 Hc Hcall]; cbn [fst snd] in *.
  - intros j u [Hj|[_ Hj]]%lookup_app_Some; [by apply (IH j)|]. apply list_lookup_singleton_Some in Hj as [_ <-]. by apply Hnew.
  - by apply (Hmove s1 ts1 i t t' s2 Hx IH Hi); left.
  - by apply (Hmove s1 ts1 i t t' s2 Hx IH Hi); right.
  - intros j u Hj. apply Hns. by apply (IH j).
  - intros j u Hj. apply Hterm. by apply (IH j).
Qed.

(** A call that was published stays the call of the stream. *)
Lemma call_moves override i t t' s s' ts c :
  reachable override (s, ts) -> ts !! i = Some t -> moves i t s t' s' -> _call s = Some c -> _call s' = Some c.
Proof.
  intros Hr Hi Hm Hc. pose proof (inv_reachable _ _ Hr) as Hv. cbn [fst snd] in Hv.
  by_rule Hm; try done; try (sections; done). destruct (v_opened _ _ Hv i _ c0 Hi eq_refl) as [_ ?]. congruence.
Qed.

(** Operations work on the published call. *)
Lemma using_call override s ts i c op : reachable override (s, ts) -> ts !! i = Some (Using c op) -> _call s = Some c.
Proof.
  intros Hr Hi. apply (every_task override (fun s t => forall c op, t = Using c op -> _call s = Some c)) with ts i (Using c op) op;
    try done; clear.
  - by intros s t Ht c op ->.
  - intros i t t' s s' ts Hr Hi Hm _ c op ->. remember (Using c op) as u eqn:Eu. by_rule Hm; try done; try (by simplify_eq);
      (try by destruct op0); (try by destruct k as [| | |[]|]); try (by destruct t).
  - intros i t t' s s' ts u Hr Hi Hm Hu c op E. eapply call_moves; eauto.
Qed.

(** An abort that has got as far as the native call has set the event. *)
Definition past_event (t : task) : bool :=
  match t with
  | AbortCall _ _ | Release _ (KClose _) | Releasing _ _ (KClose _) | Unclaim _ (KClose _) | Closed => true
  | _ => false
  end.

Lemma event_kept i t t' s s' : moves i t s t' s' -> _cancel_event s = true -> _cancel_event s' = true.
Proof. intros Hm He. by_rule Hm; try done; sections; done. Qed.

Lemma event_set override s ts i t :
  reachable override (s, ts) -> ts !! i = Some t -> past_event t = true -> _cancel_event s = true.
Proof.
  intros Hr Hi. revert s ts i t Hr Hi. apply (every_task override (fun s t => past_event t = true -> _cancel_event s = true)); try done.
  - by intros s [| | | | | | | | | | | | | |[| | |[]|]| | | | | | | | | | | | | | |].
  - intros i t t' s s' ts _ _ Hm Ht Ht'. destruct (past_event t) eqn:E; [by eapply event_kept; eauto|].
    by_rule Hm; try done; (try by destruct op); (try by destruct k as [| | |[]|]); try (by destruct t).
  - intros i t t' s s' ts u _ _ Hm Hu Ht. eapply event_kept; eauto.
Qed.

(** *** One native call *)

(** The tasks that may still open a call, and those that have. *)
Definition before_call (t : task) : bool :=
  match t with Authenticating _ | Authenticated _ | Routing _ | PublishAddress _ _ | Opening _ _ => true | _ => false end.
Definition past_call (t : task) : bool := match t with PublishCall _ _ | CancelNew _ | StartFails _ _ => true | _ => false end.

Record one_native (s : stream) (ts : list task) : Prop := {
  n_one : (length (natives s) <= 1)%nat;
  n_before i t : ts !! i = Some t -> before_call t = true -> natives s = [];
  n_past : natives s <> [] -> _call s <> None \/ _start_error s <> None \/ exists i t, ts !! i = Some t /\ past_call t = true
}.

Lemma natives_move i t t' s s' :
  moves i t s t' s' -> length (natives s') = length (natives s) \/
    exists l op c, t = Opening l op /\ t' = PublishCall c op /\ length (natives s') = S (length (natives s)).
Proof.
  intros Hm. by_rule Hm; auto; try (sections; by left); try (left; apply length_alter).
  right. do 3 eexists. split_and!; [done..|]. cbn. rewrite length_app. simpl. lia.
Qed.

Lemma error_move i t t' s s' : moves i t s t' s' -> _start_error s <> None -> _start_error s' <> None.
Proof. intros Hm He. by_rule Hm; try done; sections; done. Qed.

(** What a move does to a task that has opened a call, or may. *)
Lemma past_move i t t' s s' :
  moves i t s t' s' -> past_call t = true -> past_call t' = true \/ _call s' <> None \/ _start_error s' <> None.
Proof. intros Hm Ht. by_rule Hm; try done; auto. Qed.

Lemma before_move i t t' s s' :
  moves i t s t' s' -> before_call t' = true ->
  before_call t = true \/ (inner t = true /\ past_call t = false /\ _call s = None /\ _start_error s = None).
Proof.
  intros Hm Ht. by_rule Hm; try done; auto; (try by destruct op); (try by destruct k as [| | |[]|]); try (by destruct t).
Qed.

Lemma one_native_move i t t' s s' ts :
  inv s (tasks_of ts) -> ts !! i = Some t -> moves i t s t' s' -> (forall c, _call s = Some c -> _call s' = Some c) ->
  one_native s ts -> one_native s' (<[i := t']> ts).
Proof.
  intros Hv Hi Hm Hcall [H1 H2 H3].
  assert (forall j u, ts !! j = Some u -> inner u = true -> inner t = true -> j = i) as Hone.
  { intros j u Hj Hu Ht. pose proof (v_lock _ _ Hv j u Hj Hu). pose proof (v_lock _ _ Hv i t Hi Ht). congruence. }
  assert (forall u, before_call u = true \/ past_call u = true -> inner u = true) as Hin by (intros u [Hu|Hu]; by destruct u).
  assert (<[i := t']> ts !! i = Some t') as Hi' by (apply list_lookup_insert_eq; by eapply lookup_lt_Some).
  assert (natives s = [] -> length (natives s) = 0%nat) as Hnil by by intros ->.
  destruct (natives_move _ _ _ _ _ Hm) as [Hlen|(l & op & c & -> & -> & Hlen)].
  - assert (natives s = [] -> natives s' = []) as Hnil' by (intros E; rewrite E in Hlen; by apply nil_length_inv).
    split; [lia| |].
    + intros j u Hj Hu. apply list_lookup_insert_Some in Hj as [(-> & <- & _)|(Hne & Hj)]; [|by apply Hnil', (H2 j u)].
      apply Hnil'. destruct (before_move _ _ _ _ _ Hm Hu) as [Ht|(Ht & Hp & Hc & He)]; [by apply (H2 j t)|].
      destruct (natives s) as [|n ns] eqn:En; [done|]. destruct H3 as [?|[?|(k & w & Hk & Hw)]]; [done..|].
      assert (k = j) as -> by (apply (Hone k w); auto). congruence.
    + intros Hn. destruct H3 as [Hc|[He|(k & w & Hk & Hw)]].
      * intros E. by apply Hn, Hnil'.
      * left. destruct (_call s) as [c|] eqn:Ec; [|done]. by rewrite (Hcall c eq_refl).
      * right. left. by eapply error_move.
      * destruct (decide (k = i)) as [->|Hne].
        -- assert (w = t) as -> by congruence. destruct (past_move _ _ _ _ _ Hm Hw) as [Hp|[?|?]]; [right; right; by exists i, t'|by left|by right; left].
        -- right. right. exists k, w. split; [by rewrite list_lookup_insert_ne|done].
  - assert (natives s = []) as En by by apply (H2 i (Opening l op)). rewrite En in Hlen. split; [simpl in Hlen; lia| |].
    + intros j u Hj Hu. apply list_lookup_insert_Some in Hj as [(-> & <- & _)|(Hne & Hj)]; [done|]. destruct Hne. symmetry. apply (Hone j u); auto.
    + intros _. right. right. by exists i, (PublishCall c op).
Qed.

Lemma one_native_reachable override s ts : reachable override (s, ts) -> one_native s ts.
Proof.
  intros Hr. assert (forall x, reachable override x -> one_native x.1 x.2) as Hall; [|by apply (Hall (s, ts))].
  clear s ts Hr. apply rtc_ind_r; [split; simpl; [lia|done|done]|].
  intros x y Hx Hs IH.
  destruct Hs as [t s1 ts1 Ht|i t t' s1 s2 ts1 Hi Ht|i t t' s1 s2 ts1 Hi Ht|c l s1 ts1 Hc|c l s1 ts1 Hc Hcall]; cbn [fst snd] in *.
  - destruct IH as [H1 H2 H3]. split; [done| |].
    + intros j u [Hj|[_ Hj]]%lookup_app_Some Hu; [by apply (H2 j u)|]. apply list_lookup_singleton_Some in Hj as [_ <-]. by destruct t.
    + intros Hn. destruct (H3 Hn) as [?|[?|(j & u & Hj & Hu)]]; auto. right. right. exists j, u. split; [by apply lookup_app_l_Some|done].
  - apply (one_native_move i t t' s1 s2 ts1 (inv_reachable _ _ Hx) Hi); [by left| |done]. intros c. eapply call_moves; [exact Hx|exact Hi|by left].
  - apply (one_native_move i t t' s1 s2 ts1 (inv_reachable _ _ Hx) Hi); [by right| |done]. intros c. eapply call_moves; [exact Hx|exact Hi|by right].
  - destruct IH as [H1 H2 H3]. assert (natives s1 <> []) as Hne by (intros E; by rewrite E in Hc).
    split; simpl; [by rewrite length_insert| |auto]. intros j u Hj Hu. by destruct Hne; apply (H2 j u).
  - by destruct IH.
Qed.

(** After an undisturbed close, operations work on a call that is over. *)
Lemma using_over override s ts i j c op :
  reachable override (s, ts) -> mishap s = false -> ts !! i = Some Closed -> ts !! j = Some (Using c op) ->
  exists p, call_status c s = Some p /\ p <> Running.
Proof.
  intros Hr Hm Hi Hj. destruct (undisturbed_reachable _ _ Hr Hm i _ Hi) as (_ & Ho & _).
  pose proof (using_call _ _ _ _ _ _ Hr Hj) as Hc. specialize (Ho c Hc). cbn [fst] in Ho. unfold call_status.
  destruct (natives s !! c) as [n|] eqn:En; cbn in *; [exists (status n); split; [done|]; congruence|].
  pose proof (v_call _ _ (inv_reachable _ _ Hr) c Hc) as Hlt. apply lookup_lt_is_Some in Hlt. cbn [fst] in Hlt. rewrite En in Hlt. by destruct Hlt.
Qed.

(** ** The properties *)

Definition finished (t : task) : bool := match t with Closed | Done => true | _ => false end.

(** C14: a transport that a stream leased is given back once: in every state that
    the operations, the callers that close or cancel and the callbacks can reach in
    any order, the hook of the channel has returned at most once for each lease; a
    lease that is not given back has exactly one owner, the stream itself or the one
    task that publishes or releases it, unless the hook raised where nobody could
    try again. *)
Theorem stream_lease_once override s ts l x :
  reachable override (s, ts) -> leases s !! l = Some x ->
  (length (given x) <= 1)%nat /\ (lost x = true -> mishap s = true) /\
  (given x = [] -> lost x = false ->
     (_address_channel s = Some l /\ _released s = false) \/ exists i t, ts !! i = Some t /\ (claims t = Some l \/ carries t = Some l)) /\
  (forall i t, ts !! i = Some t -> claims t = Some l \/ carries t = Some l ->
     x = at_hand /\ ~ (_address_channel s = Some l /\ _released s = false) /\
     forall j u, ts !! j = Some u -> claims u = Some l \/ carries u = Some l -> j = i).
Proof.
  intros Hi%inv_reachable Hx. cbn [fst snd] in Hi. destruct (v_lease _ _ Hi l x Hx) as (Hg & Hl & Hh). split_and!; [done..| |].
  - intros E1 E2. destruct x as [g b]. cbn in *. subst. destruct (Hh eq_refl) as [(? & [?|(i & t & ? & ?)])|(i & t & ? & ?)]; [by left|right..]; unfold tasks_of in *; eauto 6.
  - intros i t Ht Hcl. assert (forall j u, ts !! j = Some u -> carries u = Some l -> inner u = true) as Hin by (intros j u _ Hu; by destruct u).
    split_and!.
    + destruct Hcl as [Hcl|Hcl]; [destruct (v_claims _ _ Hi i t l Ht Hcl) as (_ & _ & E)|destruct (v_carries _ _ Hi i t l Ht Hcl) as [_ E]]; congruence.
    + intros [E1 E2]. destruct Hcl as [Hcl|Hcl]; [destruct (v_claims _ _ Hi i t l Ht Hcl) as (_ & E & _)|destruct (v_carries _ _ Hi i t l Ht Hcl) as [E _]]; congruence.
    + intros j u Hu Hcu. destruct Hcl as [Hcl|Hcl], Hcu as [Hcu|Hcu].
      * by apply (v_one_claim _ _ Hi j i u t l l).
      * destruct (v_claims _ _ Hi i t l Ht Hcl) as [? _]. by destruct (v_carries _ _ Hi j u l Hu Hcu).
      * destruct (v_claims _ _ Hi j u l Hu Hcu) as [? _]. by destruct (v_carries _ _ Hi i t l Ht Hcl).
      * pose proof (v_lock _ _ Hi i t Ht (Hin i t Ht Hcl)). pose proof (v_lock _ _ Hi j u Hu (Hin j u Hu Hcu)). congruence.
Qed.

(** C18: a closed stream is closed for good.  Assume that so far no hook of the
    channel raised and no submitted cancellation was dropped.  Once an [_abort] has
    returned to a caller, no transport and no call is published any more, whatever
    operations are under way or still start: every lease is given back or in the
    hands of the task that gives it back, every native call is over or about to be
    cancelled by the task that opened it, and an operation that was handed the
    published call, before or after the close, works on a call that is over.  When
    the tasks have ended nothing is left: each lease was given back once and no
    native call runs. *)
Theorem stream_closed override s ts i :
  reachable override (s, ts) -> mishap s = false -> ts !! i = Some Closed ->
  may_publish s = false /\
  (forall l x, leases s !! l = Some x -> given x <> [] \/ exists j t, ts !! j = Some t /\ (claims t = Some l \/ carries t = Some l)) /\
  (forall c n, natives s !! c = Some n -> status n = Running -> exists j t, ts !! j = Some t /\ opened t = Some c) /\
  (forall j c op, ts !! j = Some (Using c op) -> exists p, call_status c s = Some p /\ p <> Running) /\
  (Forall (fun t => finished t = true) ts ->
    Forall (fun x => length (given x) = 1%nat) (leases s) /\ Forall (fun n => status n <> Running) (natives s)).
Proof.
  intros Hr Hm Hc. pose proof (inv_reachable _ _ Hr) as Hi. destruct (undisturbed_reachable _ _ Hr Hm i _ Hc) as (H1 & H2 & H3). cbn [fst snd] in *.
  assert (forall l x, leases s !! l = Some x -> given x <> [] \/ exists j t, ts !! j = Some t /\ (claims t = Some l \/ carries t = Some l)) as HL.
  { intros l x Hx. destruct (v_lease _ _ Hi l x Hx) as (_ & Hl & Hh). destruct x as [[|b g] [|]]; [by specialize (Hl eq_refl); rewrite Hm in Hl| |by left..].
    right. destruct (Hh eq_refl) as [(Ha & [Hrel|(j & t & ? & ?)])|(j & t & ? & ?)]; [destruct H3; congruence|..]; unfold tasks_of in *; eauto 6. }
  assert (forall c n, natives s !! c = Some n -> status n = Running -> exists j t, ts !! j = Some t /\ opened t = Some c) as HN.
  { intros c n Hn Hs. destruct (v_native _ _ Hi c n Hn) as [_ Hrun]. destruct (Hrun Hs) as [Hcall|?]; [|done]. destruct (H2 c Hcall). by rewrite Hn, <- Hs. }
  split_and!; [by apply cancelled_not_published|done|done|by intros j c op; apply (using_over override s ts i)|]. intros Hall. rewrite Forall_lookup in Hall. split; apply Forall_lookup.
  - intros l x Hx. destruct (v_lease _ _ Hi l x Hx) as (Hg & _ & _). destruct (HL l x Hx) as [Hn|(j & t & Hj & Ht)].
    + destruct (given x) as [|? [|]]; simpl in *; [done|done|lia].
    + specialize (Hall j t Hj). destruct t; destruct Ht; done.
  - intros c n Hn Hs. destruct (HN c n Hn Hs) as (j & t & Hj & Ht). specialize (Hall j t Hj). by destruct t.
Qed.

(** C33: a stream opens at most one native call, on the transport it has leased.
    While that call runs it is the call of the stream, or with the one task that
    opened it and publishes or cancels it.  Every operation that works on a native
    call works on the call of the stream, and a call that was published stays the
    call of the stream for ever. *)
Theorem stream_one_call override s ts :
  reachable override (s, ts) ->
  (length (natives s) <= 1)%nat /\
  (forall c n, natives s !! c = Some n -> _address_channel s = Some (transport n) /\
     (status n = Running -> _call s = Some c \/ exists i t, ts !! i = Some t /\ opened t = Some c)) /\
  (forall i c op, ts !! i = Some (Using c op) -> _call s = Some c) /\
  (forall c s' ts', _call s = Some c -> rtc step (s, ts) (s', ts') -> _call s' = Some c).
Proof.
  intros Hr. split_and!.
  - apply (one_native_reachable override s ts Hr).
  - apply (v_native _ _ (inv_reachable _ _ Hr)).
  - intros i c op. by apply (using_call override s ts).
  - intros c s' ts' Hc Hs. assert (forall x, rtc step (s, ts) x -> reachable override x /\ _call x.1 = Some c) as H; [|by apply (H (s', ts'))].
    apply rtc_ind_r; [done|]. intros y z _ Hz [Hy Hcy]. split; [by apply (rtc_r _ y)|].
    destruct Hz as [t s1 ts1 Ht|i t t' s1 s2 ts1 Hi Ht|i t t' s1 s2 ts1 Hi Ht|c' l s1 ts1 Hc'|c' l s1 ts1 Hc' Hcall]; cbn [fst snd] in *; try done.
    + eapply call_moves; [exact Hy|exact Hi|by left|done].
    + eapply call_moves; [exact Hy|exact Hi|by right|done].
Qed.

(** *** Termination *)

Definition rank_after (k : continuation) : nat := match k with KStart => 2 | KResult => 5 | KEnd => 1 | KClose _ => 2 | KReset => 2 end.

(** A bound for the steps a task has left. *)
Definition rank (t : task) : nat :=
  match t with
  | Enter _ => 21 | WaitLock _ => 20 | Locked _ => 19 | Authenticating _ => 18 | Authenticated _ => 17 | Routing _ => 16
  | PublishAddress _ _ => 15 | DropLease _ => 3 | Opening _ _ => 14 | PublishCall _ _ => 13 | CancelNew _ => 7 | StartFails _ _ => 6
  | Unlocking => 1 | Using _ _ => 12
  | Abort k => 5 + rank_after k | AbortCall _ k => 4 + rank_after k
  | Release _ k => 3 + rank_after k | Releasing _ _ k => 2 + rank_after k | Unclaim _ k => 1 + rank_after k
  | ReleaseSoon => 4 | ReleasingSoon _ => 3
  | CancelStart => 9 | CancelSubmit => 8 | CancelFailed => 1 | CancelReset => 1 | CancelRefused => 1
  | DispatchLate => 6 | Reject _ => 9
  | Closed | Done => 0
  end%nat.

Lemma rank_resume k ok : (rank (resume k ok) < 1 + rank_after k)%nat.
Proof. destruct k as [| | |[]|], ok; simpl; lia. Qed.

Lemma rank_step i t s t' s' : moves i t s t' s' -> (rank t' < rank t)%nat.
Proof.
  intros Ht. by_rule Ht; try (simpl; lia); try (destruct op; simpl; lia); try (destruct t; simpl; lia);
    try (pose proof (rank_resume k true); pose proof (rank_resume k false); simpl; lia).
Qed.

Definition work (ts : list task) : nat := sum_list (rank <$> ts).

Lemma work_step ts i t t' : ts !! i = Some t -> (rank t' < rank t)%nat -> (work (<[i := t']> ts) < work ts)%nat.
Proof.
  intros Hi Hr. rewrite <- (take_drop_middle ts i t Hi) at 2. rewrite insert_take_drop by (by eapply lookup_lt_Some). unfold work.
  rewrite !fmap_app, !sum_list_with_app. cbn. lia.
Qed.

(** A rule of one of the parts applies. *)
Ltac step_of :=
  by do 2 eexists; first [apply by_start; constructor; done | apply by_use; constructor; done | apply by_abort; constructor; done
    | apply by_release; constructor; done | apply by_cancel; constructor; done | apply by_dispatch; constructor; done].

(** One step of one of the tasks, by itself or after an answer. *)
Definition some_move (x y : stream * list task) : Prop :=
  exists i t t', x.2 !! i = Some t /\ moves i t x.1 t' y.1 /\ y.2 = <[i := t']> x.2.

(** One step that a task makes by itself. *)
Definition task_moves (x y : stream * list task) : Prop :=
  exists i t t', x.2 !! i = Some t /\ task_step i t x.1 t' y.1 /\ y.2 = <[i := t']> x.2.

(** What a task without a step of its own waits for: the answer of the
    authenticator, while the stream was not aborted; the call of the stream, which
    runs; or the task that has the start lock, which does not wait for the lock. *)
Definition awaits (i : nat) (t : task) (s : stream) (ts : list task) : Prop :=
  match t with
  | Authenticating _ => _cancel_event s = false
  | Using c _ => _call s = Some c /\ call_status c s = Some Running
  | WaitLock _ => exists j u, ts !! j = Some u /\ _start_lock s = Some j /\ inner u = true /\ forall op, u <> WaitLock op
  | _ => False
  end.

Lemma goes_on override s ts i t :
  reachable override (s, ts) -> ts !! i = Some t -> finished t = false ->
  (exists t' s', task_step i t s t' s') \/ awaits i t s ts.
Proof.
  intros Hr Hi Hf. pose proof (inv_reachable _ _ Hr) as Hv. cbn [fst snd] in Hv.
  destruct t as [|op|op|op|op|op|l op| | |c op| | | |c op|k|[c|] k|d k| | | | | | | | | | |[]| |]; try done;
    try (left; by do 2 eexists; apply by_start, open_call); try (left; step_of).
  - destruct (_start_lock s) as [j|] eqn:El; [right|left; step_of]. destruct (v_owner _ _ Hv j El) as (u & Hu & Hin).
    exists j, u. split_and!; try done. by intros op' ->.
  - left. destruct (_call s) as [c|] eqn:Ec; [do 2 eexists; by apply by_start, locked_call|].
    destruct (_start_error s) as [e|] eqn:Ee; [do 2 eexists; apply by_start, locked_error; [done|by left; rewrite Ee]|].
    destruct (_is_cancelled s) eqn:Ei; do 2 eexists; [apply by_start, locked_error; [done|by right]|by apply by_start, locked_start].
  - destruct (_cancel_event s) eqn:Ee; [left; step_of|by right].
  - left. destruct (_is_cancelled s) eqn:Ei; step_of.
  - left. destruct (_address_channel s) as [l|] eqn:Ea; do 2 eexists; [by apply by_start, routing_known|by apply by_start, routing_leases].
  - left. destruct (may_publish s) eqn:Em; step_of.
  - left. destruct (may_publish s) eqn:Em; step_of.
  - pose proof (using_call _ _ _ _ _ _ Hr Hi) as Hc. pose proof (v_call _ _ Hv c Hc) as [n Hn]%lookup_lt_is_Some.
    destruct (status n) eqn:Es; [right; split; [done|unfold call_status; by rewrite Hn, <- Es]|..]; left; do 2 eexists; apply by_use;
      (eapply use_fails; [unfold call_status; by rewrite Hn|simpl; congruence]).
  - left. destruct (claim s) eqn:Em; step_of.
  - left. destruct (claim s) eqn:Em; step_of.
  - left. destruct (request_cancel true s) as [[b s']|] eqn:Em; do 2 eexists; [by eapply by_cancel, cancel_requests|by eapply by_cancel, cancel_nothing].
  - left. destruct (_start_entered s) eqn:Em; do 2 eexists; [by apply by_dispatch, reject_started|by apply by_dispatch, reject_unopened].
  - left. destruct (_start_entered s) eqn:Em; do 2 eexists; [by apply by_dispatch, reject_started|by apply by_dispatch, reject_unopened].
Qed.

(** After an undisturbed close only the start lock is waited for, and who has it
    goes on. *)
Lemma closed_goes_on override s ts i j t :
  reachable override (s, ts) -> mishap s = false -> ts !! i = Some Closed -> ts !! j = Some t -> finished t = false ->
  exists y, task_moves (s, ts) y.
Proof.
  intros Hr Hm Hi Hj Hf.
  assert (forall k u, ts !! k = Some u -> (exists t' s', task_step k u s t' s') -> exists y, task_moves (s, ts) y) as Hmove.
  { intros k u Hk (t' & s' & Ht). exists (s', <[k := t']> ts). by exists k, u, t'. }
  assert (forall k u, ts !! k = Some u -> awaits k u s ts -> exists op, u = WaitLock op) as Hlock.
  { intros k u Hk Ha. destruct u; try done; cbn in Ha; [eauto| |].
    - rewrite (event_set override s ts i Closed Hr Hi) in Ha; done.
    - destruct (using_over override s ts i k c op) as (q & Hq & Hne); [done..|]. destruct Ha. congruence. }
  destruct (goes_on _ _ _ _ _ Hr Hj Hf) as [Ht|Ha]; [by apply (Hmove j t)|].
  destruct (Hlock _ _ Hj Ha) as [op ->]. destruct Ha as (k & u & Hk & _ & Hin & Hne).
  assert (finished u = false) as Hfu by by destruct u.
  destruct (goes_on _ _ _ _ _ Hr Hk Hfu) as [Ht|Ha]; [by apply (Hmove k u)|]. destruct (Hlock _ _ Hk Ha) as [op' ->]. by destruct (Hne op').
Qed.

(** C26: from every state the tasks that are there make at most the steps their ranks
    add up to, at most 21 each, however they interleave and whatever is answered to
    them.  A task that has not ended makes a step of its own, or it waits: for the
    authenticator of a stream that was not aborted, for the call of the stream, which
    runs, or for the task in the start lock.  Those waits may last for ever, but not
    after a close: once an [_abort] has returned to a caller, and no hook raised and
    no submitted cancellation was dropped, some task goes on by itself as long as one
    has not ended; so all operations end, without an answer from outside. *)
Theorem stream_tasks_end override s ts :
  reachable override (s, ts) ->
  (forall n y, nsteps some_move n (s, ts) y -> (n <= work ts)%nat) /\ (work ts <= 21 * length ts)%nat /\
  (forall i t, ts !! i = Some t -> finished t = false -> (exists t' s', task_step i t s t' s') \/ awaits i t s ts) /\
  (forall i, mishap s = false -> ts !! i = Some Closed ->
     Forall (fun t => finished t = true) ts \/ exists y, task_moves (s, ts) y).
Proof.
  intros Hr. split_and!.
  - clear Hr. intros n. revert s ts. induction n as [|n IH]; intros s ts y Hn; [lia|]. inversion Hn as [|? ? [s1 ts1] ? (i & t & t' & Hi & Ht & E) Hn']; subst.
    cbn [fst snd] in *. subst. apply IH in Hn'. pose proof (work_step ts i t t' Hi (rank_step _ _ _ _ _ Ht)). lia.
  - clear Hr. unfold work. induction ts as [|t ts IH]; [simpl; lia|]. cbn. assert (rank t <= 21)%nat; [|lia].
    destruct t as [| | | | | | | | | | | | | |k|? k|? k|? ? k|? k| | | | | | | | | | |]; simpl; try lia; destruct k; simpl; lia.
  - intros i t. by apply (goes_on override).
  - intros i Hm Hi. destruct (decide (Forall (fun t => finished t = true) ts)) as [|Hn]; [by left|right].
    apply not_Forall_Exists in Hn; [|apply _]. apply Exists_exists in Hn as (t & [j Hj]%list_elem_of_lookup & Ht).
    eapply (closed_goes_on override s ts i j t); try done. by apply not_true_is_false.
Qed.

(** *** Deadlines *)

Section Clock.
Import Deadlines.

Lemma initialize_started now c : _deadlines_started c = true -> initialize now c = c.
Proof. unfold initialize. by intros ->. Qed.

(** The budget of a stream: the first operation starts the clocks and later ones
    never restart them.  While the stream authenticates, only the authorization budget
    runs, from the first operation or, when the channel could not tell before, from
    the discovery of the provider; the time between the first operation and the pause
    is charged to the request, the time of the authentication is not, and afterwards
    both budgets limit the stream.  Without authentication the request budget runs
    from the first operation. *)
Theorem stream_budget T A e t0 ta t1 t3 t2 now :
  let c1 := initialize t0 (new_clock T A e) in
  (forall t, initialize t c1 = c1) /\
  _remaining_dispatch_deadline now c1 =
    until now (option_list (after t0 T) ++ option_list (if default false e then after t0 A else None)) /\
  (forall disabled provider, disabled || negb provider = true ->
    let '(w, c2) := begin_authentication disabled provider ta t1 t3 c1 in
    w = Skip /\ _remaining_deadline now c2 = _remaining_dispatch_deadline now c1) /\
  (let '(w, c2) := begin_authentication false true ta t1 t3 c1 in
   let limit := after (if default false e then t0 else ta) A in
   let left := (fun d => Z.max 0 (d - t1)) <$> after t0 T in
   let c3 := _resume_request_deadline_after_authorization t2 c2 in
   w = match until t3 (option_list limit) with Some r => if r <=? 0 then Spent else Wait (Some r) | None => Wait None end /\
   _remaining_deadline now c2 = until now (option_list limit) /\
   _remaining_deadline now c3 = until now (option_list (Z.add t2 <$> left) ++ option_list limit)).
Proof.
  destruct T as [T|], A as [A|], e as [[|]|]; cbn; split_and!; try done;
    try (intros [] []; done); try (by split_and!); by destruct (_ <=? 0).
Qed.

End Clock.

(** ** An example *)

(** A reader starts the stream and gets an item; the caller closes the stream: the
    call is cancelled, the transport is discarded. *)
Definition after_reading : stream :=
  mkStream (Some 0%nat) (Some 0%nat) None true false false false false false None [mkLease [] false] [mkNative 0 Running] false.
Definition after_closing : stream :=
  mkStream (Some 0%nat) (Some 0%nat) None true false true false true true None [mkLease [true] false] [mkNative 0 CallCancelled] false.

Lemma example_reading : reachable false (after_reading, [Done; Abort (KClose false)]).
Proof.
  eapply rtc_l; [by apply (step_start (Enter Next))|]. cbn.
  eapply rtc_l; [eapply (step_task 0); [reflexivity|by apply by_start, enter_wait]|cbn].
  eapply rtc_l; [eapply (step_task 0); [reflexivity|by apply by_start, lock_taken]|cbn].
  eapply rtc_l; [eapply (step_task 0); [reflexivity|by apply by_start, locked_start]|cbn].
  eapply rtc_l; [eapply (step_answer 0); [reflexivity|by apply auth_ok]|cbn].
  eapply rtc_l; [eapply (step_task 0); [reflexivity|by apply by_start, authenticated_on]|cbn].
  eapply rtc_l; [eapply (step_task 0); [reflexivity|by apply by_start, routing_leases]|cbn].
  eapply rtc_l; [eapply (step_task 0); [reflexivity|by apply by_start, publish_address]|cbn].
  eapply rtc_l; [eapply (step_task 0); [reflexivity|by apply by_start, open_call]|cbn].
  eapply rtc_l; [eapply (step_task 0); [reflexivity|by apply by_start, publish_call]|cbn].
  eapply rtc_l; [eapply (step_answer 0); [reflexivity|by apply call_answers]|cbn].
  by apply rtc_once, (step_start (Abort (KClose false))).
Qed.

Lemma task_move i t t' s s' ts : ts !! i = Some t -> task_step i t s t' s' -> task_moves (s, ts) (s', <[i := t']> ts).
Proof. intros Hi Ht. by exists i, t, t'. Qed.

Lemma closing_steps : nsteps task_moves 4 (after_reading, [Done; Abort (KClose false)]) (after_closing, [Done; Closed]).
Proof.
  eapply nsteps_l; [eapply (task_move 1); [reflexivity|by apply by_abort, abort]|cbn].
  eapply nsteps_l; [eapply (task_move 1); [reflexivity|by apply by_abort, abort_call]|cbn].
  eapply nsteps_l; [eapply (task_move 1); [reflexivity|by apply by_release, (release_claims _ _ 0)]|cbn].
  eapply nsteps_l; [eapply (task_move 1); [reflexivity|by apply by_release, releasing]|apply nsteps_O].
Qed.

Lemma task_moves_step x y : task_moves x y -> step x y.
Proof. destruct x as [s ts], y as [s' ts']. intros (i & t & t' & Hi & Ht & E). cbn [snd] in E. subst ts'. by eapply step_task. Qed.

Lemma closing_run : rtc step (after_reading, [Done; Abort (KClose false)]) (after_closing, [Done; Closed]).
Proof. eapply (rtc_subrel task_moves); [exact task_moves_step|]. apply rtc_nsteps. exists 4%nat. exact closing_steps. Qed.

Lemma example_closing : reachable false (after_closing, [Done; Closed]).
Proof. unfold reachable. etrans; [apply example_reading|exact closing_run]. Qed.

Lemma stream_lease_once_witness : (length (given (mkLease [true] false)) <= 1)%nat.
Proof. apply (stream_lease_once false after_closing [Done; Closed] 0 (mkLease [true] false) example_closing eq_refl). Defined.

Lemma stream_closed_witness :
  may_publish after_closing = false /\ Forall (fun x => length (given x) = 1%nat) (leases after_closing) /\
  Forall (fun n => status n <> Running) (natives after_closing).
Proof.
  destruct (stream_closed false after_closing [Done; Closed] 1 example_closing eq_refl eq_refl) as (H1 & _ & _ & _ & H2).
  split; [exact H1|]. apply H2. repeat constructor.
Defined.

Lemma stream_one_call_witness : _call after_closing = Some 0%nat.
Proof.
  exact (proj2 (proj2 (proj2 (stream_one_call false after_reading [Done; Abort (KClose false)] example_reading)))
    0%nat after_closing [Done; Closed] eq_refl closing_run).
Defined.

Lemma own_moves n x y : nsteps task_moves n x y -> nsteps some_move n x y.
Proof.
  induction 1 as [|n x y z (i & t & t' & Hi & Ht & E) _ IH]; [constructor|]. eapply nsteps_l; [|exact IH].
  exists i, t, t'. split; [done|]. split; [by left|done].
Qed.

Lemma stream_tasks_end_witness : (4 <= work [Done; Abort (KClose false)])%nat.
Proof.
  apply (proj1 (stream_tasks_end false after_reading [Done; Abort (KClose false)] example_reading) 4%nat (after_closing, [Done; Closed])).
  exact (own_moves _ _ _ closing_steps).
Defined.
