(* ===== verification/WellKnown.v ===== *)
(** * Python views of well-known types

    [src/nebius/base/protos/well_known_direct.py]: timestamps as [datetime] objects,
    durations as [timedelta] objects and back, and the check of a value that is a
    message already.

    A [datetime] is what its clock shows, in microseconds since 1970-01-01T00:00:00 of
    that clock, with the offset of its time zone; without one, [astimezone] takes it
    as local time of the machine, whose offset at a reading of the clock is a
    parameter, as is the fixed offset [local_timezone] of the module.  A [timedelta] is
    a number of microseconds.  [seconds] and [nanos] of the messages are assigned
    through their codecs. *)
From S2P Require Import Prelude PyStr Bytes Wire ValueCodec Message JsonFormat.

Inductive view_error : Type :=
| ValueError (msg : string)
| TypeError
| OverflowError              (** of [datetime] and [timedelta] *)
| Assigned (e : codec_error)
| Escaped (e : message_error).

Definition microsecond : Z := 1000.
Definition SECOND : Z := 1000000.

Definition _TIMESTAMP_MIN_SECONDS : Z := -62135596800.
Definition _TIMESTAMP_MAX_SECONDS : Z := 253402300799.

(** The years 1 to 9999 of a clock. *)
Definition in_years (t : Z) : bool := (_TIMESTAMP_MIN_SECONDS * SECOND <=? t) && (t <? (_TIMESTAMP_MAX_SECONDS + 1) * SECOND).

(** [timedelta.min] and [timedelta.max] *)
Definition DELTA_MIN : Z := -999999999 * 86400 * SECOND.
Definition DELTA_MAX : Z := 1000000000 * 86400 * SECOND - 1.
Definition in_deltas (d : Z) : bool := (DELTA_MIN <=? d) && (d <=? DELTA_MAX).

Record datetime : Type := mkDatetime { wall : Z; utcoffset : option Z }.

Class LocalZone := {
  (** the offset of [local_timezone] *)
  local_timezone : Z;
  (** the offset of the machine for a reading of its clock *)
  system_offset : Z -> Z
}.

Definition checked (n : Z) : result view_error Z := if in_years n then Ok n else Raise OverflowError.

(** [result.seconds = seconds] and [result.nanos = nanos] *)
Definition assigned {A} (r : result codec_error A) : result view_error A :=
  match r with Ok x => Ok x | Raise e => Raise (Assigned e) end.
Definition assign_times (seconds nanos : Z) : result view_error (Z * Z) :=
  s ← assigned (normalize INT64 (VInt seconds)); n ← assigned (normalize INT32 (VInt nanos)); Ok (s, n).

Section Views.
Context `{LocalZone}.

(** The instant of a [datetime]: [value.astimezone(timezone.utc)]. *)
Definition to_utc (t : datetime) : result view_error Z :=
  checked (wall t - match utcoffset t with Some o => o | None => system_offset (wall t) end).

Definition timestamp_to_datetime (seconds nanos : Z) : result view_error datetime :=
  if negb ((_TIMESTAMP_MIN_SECONDS <=? seconds) && (seconds <=? _TIMESTAMP_MAX_SECONDS))
  then Raise (ValueError "timestamp seconds must be in the range for years 1 through 9999") else
  if negb ((0 <=? nanos) && (nanos <? 1000000000))
  then Raise (ValueError "timestamp nanos must be in the range [0, 999999999]") else
  result ← checked (seconds * SECOND + nanos / 1000);
  t ← checked (result + local_timezone);
  Ok (mkDatetime t (Some local_timezone)).

(** [days * 86400 + seconds] of a [timedelta] rounds down; [value.microsecond] is a
    part of the reading of the clock. *)
Definition datetime_to_timestamp (value : datetime) : result view_error (Z * Z) :=
  delta ← to_utc value;
  let seconds := delta / (86400 * SECOND) * 86400 + delta mod (86400 * SECOND) / SECOND in
  assign_times seconds (wall value mod SECOND * 1000).

End Views.

Definition duration_to_timedelta (seconds nanos : Z) : result view_error Z :=
  let microseconds := Z.abs nanos / 1000 * (if nanos <? 0 then -1 else 1) in
  let d := seconds * SECOND + microseconds in
  if in_deltas d then Ok d else Raise OverflowError.

(** A [timedelta] has [days], and [seconds] and [microseconds] that are not negative. *)
Definition timedelta_to_duration (value : Z) : result view_error (Z * Z) :=
  let days := value / (86400 * SECOND) in
  let secs := value mod (86400 * SECOND) / SECOND in
  let total_microseconds := (days * 86400 + secs) * SECOND + value mod SECOND in
  let seconds := Z.abs total_microseconds / SECOND in
  let seconds := if total_microseconds <? 0 then - seconds else seconds in
  assign_times seconds ((total_microseconds - seconds * SECOND) * 1000).

(** *** Values that are messages *)

(** Attributes of an object: [__PROTO_FULL_NAME__] of its class, then the full names
    of the descriptors, of the object and of its class, in the order they are read. *)
Record names : Type := mkNames { direct_name : option pystr; descriptor_names : list (option pystr) }.

Definition _protobuf_full_name (n : names) : option pystr :=
  match direct_name n with
  | Some name => Some name
  | None => head (omap id (descriptor_names n))
  end.

(** A value for a field of class [k]: a message of the class; an object with
    [SerializeToString], and what that gives; [None]; anything else. *)
Inductive py_object : Type :=
| Direct (m : message)
| Nothing
| Serializable (n : names) (payload : result message_error bytes)
| Plain.

Section Coerce.
Context `{Schema} (full_name : nat -> pystr).

(** What an [except (TypeError, ValueError)] catches. *)
Definition caught (e : message_error) : bool :=
  match e with TypeE _ | ValueE _ => true | CodecE ValueCodec.OverflowError => false | CodecE _ => true | _ => false end.

Definition guarded {A} (r : result message_error A) : result view_error A :=
  match r with Ok x => Ok x | Raise e => Raise (if caught e then TypeError else Escaped e) end.

Definition _coerce_direct_message (k : nat) (value : py_object) : result view_error message :=
  match value with
  | Direct m => Ok m
  | Nothing => Ok (new k)
  | Serializable n payload =>
      if bool_decide (_protobuf_full_name n = Some (full_name k))
      then guarded (b ← payload; ParseFromString b (new k)) else Raise TypeError
  | Plain => Raise TypeError
  end.

End Coerce.

(** ** The properties *)

Lemma assign_times_ok s n : - 2 ^ 63 <= s < 2 ^ 63 -> - 2 ^ 31 <= n < 2 ^ 31 -> assign_times s n = Ok (s, n).
Proof.
  intros Hs Hn. unfold assign_times. cbn. change (Z.shiftl 1 63) with (2 ^ 63). change (Z.shiftl 1 31) with (2 ^ 31). unfold _integer_normalizer.
  cbn [as_int]. replace (_ && _) with true by lia. cbn. replace (_ && _) with true by lia. done.
Qed.

(** The seconds of a day and of the days before add up. *)
Lemma day_parts d : d / (86400 * SECOND) * 86400 + d mod (86400 * SECOND) / SECOND = d / SECOND.
Proof. unfold SECOND. Z.to_euclidean_division_equations. lia. Qed.

Section Timestamps.
Context `{LocalZone}.

Lemma checked_Ok t n : checked t = Ok n <-> n = t /\ _TIMESTAMP_MIN_SECONDS * SECOND <= t < (_TIMESTAMP_MAX_SECONDS + 1) * SECOND.
Proof. unfold checked, in_years. case_match; split; [intros [= <-]|intros [-> ?]| |intros [_ ?]]; try done; lia. Qed.

(** The timestamp of a [datetime] whose offset is a number of seconds. *)
Lemma timestamp_of t :
  match utcoffset t with Some o => o | None => system_offset (wall t) end mod SECOND = 0 ->
  datetime_to_timestamp t = match to_utc t with Ok i => Ok (i / SECOND, i mod SECOND * 1000) | Raise e => Raise e end.
Proof.
  intros Ho. unfold datetime_to_timestamp. destruct (to_utc t) as [i|e] eqn:Ei; [|done]. cbn [mbind result_bind]. rewrite day_parts.
  unfold to_utc in Ei. apply checked_Ok in Ei as [-> Hr]. set (o := match utcoffset t with Some _ => _ | None => _ end) in *.
  assert (wall t mod SECOND = (wall t - o) mod SECOND) as Hm by (unfold SECOND in *; Z.to_euclidean_division_equations; lia).
  rewrite Hm. unfold SECOND, _TIMESTAMP_MIN_SECONDS, _TIMESTAMP_MAX_SECONDS in *. apply assign_times_ok; Z.to_euclidean_division_equations; lia.
Qed.

(** A timestamp survives its view to the microsecond: a valid timestamp is shown
    in the local zone at the same instant and gives back its seconds and its
    nanoseconds cut to microseconds, unless the local clock leaves the years 1 to 9999,
    which raises [OverflowError]; an instant of any zone whose offset is a number of
    seconds becomes a valid timestamp, whose view is the same instant. *)
Theorem timestamp_view_roundtrip :
  local_timezone mod SECOND = 0 ->
  (forall s n, valid_timestamp s n = true ->
     match timestamp_to_datetime s n with
     | Ok t => to_utc t = Ok (s * SECOND + n / 1000) /\ datetime_to_timestamp t = Ok (s, n / 1000 * 1000)
     | Raise e => e = OverflowError /\ in_years (s * SECOND + n / 1000 + local_timezone) = false
     end) /\
  (forall t i, match utcoffset t with Some o => o | None => system_offset (wall t) end mod SECOND = 0 -> to_utc t = Ok i ->
     exists s n, datetime_to_timestamp t = Ok (s, n) /\ valid_timestamp s n = true /\
       (in_years (i + local_timezone) = true -> exists t', timestamp_to_datetime s n = Ok t' /\ to_utc t' = Ok i)).
Proof.
  intros Hl. unfold valid_timestamp. split.
  - intros s n Hv. unfold timestamp_to_datetime. unfold PyTime.MIN_SECONDS, PyTime.MAX_SECONDS in Hv.
    replace (negb _) with false by (unfold _TIMESTAMP_MIN_SECONDS, _TIMESTAMP_MAX_SECONDS; lia). replace (negb _) with false by lia.
    assert (checked (s * SECOND + n / 1000) = Ok (s * SECOND + n / 1000)) as E1.
    { apply checked_Ok. split; [done|]. unfold SECOND, _TIMESTAMP_MIN_SECONDS, _TIMESTAMP_MAX_SECONDS. Z.to_euclidean_division_equations. lia. }
    pose proof E1 as E2. rewrite E1. cbn [mbind result_bind]. clear E1. destruct (checked (s * SECOND + n / 1000 + local_timezone)) as [t|e] eqn:Et; cbn [mbind result_bind].
    + apply checked_Ok in Et as [-> _]. assert (to_utc (mkDatetime (s * SECOND + n / 1000 + local_timezone) (Some local_timezone)) = Ok (s * SECOND + n / 1000)) as Eu.
      { unfold to_utc. cbn [wall utcoffset]. rewrite Z.add_simpl_r. exact E2. }
      split; [done|]. rewrite timestamp_of by exact Hl. rewrite Eu. do 2 f_equal; unfold SECOND; Z.to_euclidean_division_equations; lia.
    + unfold checked in Et. case_match; [done|]. by injection Et as <-.
  - intros t i Ho Ei. rewrite timestamp_of, Ei by done. unfold to_utc in Ei. apply checked_Ok in Ei as [-> Hr].
    set (i := wall t - _) in *. exists (i / SECOND), (i mod SECOND * 1000). split; [done|].
    unfold PyTime.MIN_SECONDS, PyTime.MAX_SECONDS. unfold SECOND, _TIMESTAMP_MIN_SECONDS, _TIMESTAMP_MAX_SECONDS in Hr.
    assert (-62135596800 <= i / SECOND <= 253402300799 /\ 0 <= i mod SECOND * 1000 < 1000000000) as [H1 H2] by (unfold SECOND; Z.to_euclidean_division_equations; lia).
    split; [lia|]. intros Hin. unfold timestamp_to_datetime.
    replace (negb _) with false by (unfold _TIMESTAMP_MIN_SECONDS, _TIMESTAMP_MAX_SECONDS; lia). replace (negb _) with false by lia.
    assert (i / SECOND * SECOND + i mod SECOND * 1000 / 1000 = i) as -> by (unfold SECOND; Z.to_euclidean_division_equations; lia).
    assert (checked i = Ok i) as Ec by (apply checked_Ok; unfold SECOND, _TIMESTAMP_MIN_SECONDS, _TIMESTAMP_MAX_SECONDS; lia).
    rewrite Ec. cbn [mbind result_bind]. unfold checked. rewrite Hin. cbn [mbind result_bind]. eexists. split; [done|].
    unfold to_utc. cbn [wall utcoffset]. rewrite Z.add_simpl_r. exact Ec.
Qed.

End Timestamps.

(** A duration survives its view: every [timedelta] becomes a duration whose
    seconds and nanoseconds agree in sign and fit their fields, and comes back
    unchanged; a valid duration has a view, which gives back its seconds and its
    nanoseconds cut to microseconds, towards zero. *)
Theorem duration_view_roundtrip :
  (forall d, in_deltas d = true -> exists s n, timedelta_to_duration d = Ok (s, n) /\
     -999999000 <= n <= 999999000 /\ (0 < s -> 0 <= n) /\ (s < 0 -> n <= 0) /\ duration_to_timedelta s n = Ok d) /\
  (forall s n, valid_duration s n = true -> exists d, duration_to_timedelta s n = Ok d /\ timedelta_to_duration d = Ok (s, Z.quot n 1000 * 1000)).
Proof.
  assert (forall d, timedelta_to_duration d = assign_times (Z.quot d SECOND) (Z.rem d SECOND * 1000)) as Htd.
  { intros d. unfold timedelta_to_duration. rewrite day_parts.
    assert (d / SECOND * SECOND + d mod SECOND = d) as -> by (unfold SECOND; Z.to_euclidean_division_equations; lia).
    assert ((if d <? 0 then - (Z.abs d / SECOND) else Z.abs d / SECOND) = Z.quot d SECOND) as ->.
    { unfold SECOND. destruct (d <? 0) eqn:E; Z.to_euclidean_division_equations; lia. }
    f_equal. unfold SECOND. Z.to_euclidean_division_equations. lia. }
  split.
  - intros d Hd. unfold in_deltas, DELTA_MIN, DELTA_MAX, SECOND in Hd. exists (Z.quot d SECOND), (Z.rem d SECOND * 1000).
    rewrite Htd. split; [apply assign_times_ok; unfold SECOND; Z.to_euclidean_division_equations; lia|].
    split_and!; try (unfold SECOND; Z.to_euclidean_division_equations; lia).
    unfold duration_to_timedelta. assert (Z.quot d SECOND * SECOND + Z.abs (Z.rem d SECOND * 1000) / 1000 * (if Z.rem d SECOND * 1000 <? 0 then -1 else 1) = d) as ->.
    { unfold SECOND. destruct (_ <? 0) eqn:E; Z.to_euclidean_division_equations; lia. }
    unfold in_deltas, DELTA_MIN, DELTA_MAX, SECOND. by replace (_ && _) with true by lia.
  - intros s n Hv. unfold valid_duration, _DURATION_MAX in Hv. unfold duration_to_timedelta.
    assert (Z.abs n / 1000 * (if n <? 0 then -1 else 1) = Z.quot n 1000) as -> by (destruct (n <? 0) eqn:E; Z.to_euclidean_division_equations; lia).
    replace (in_deltas _) with true by (unfold in_deltas, DELTA_MIN, DELTA_MAX, SECOND; Z.to_euclidean_division_equations; lia).
    eexists. split; [done|]. rewrite Htd.
    assert (Z.quot (s * SECOND + Z.quot n 1000) SECOND = s /\ Z.rem (s * SECOND + Z.quot n 1000) SECOND = Z.quot n 1000) as [-> ->].
    { assert (-999999 <= Z.quot n 1000 <= 999999 /\ (0 < s -> 0 <= Z.quot n 1000) /\ (s < 0 -> Z.quot n 1000 <= 0)) by (Z.to_euclidean_division_equations; lia).
      generalize dependent (Z.quot n 1000). intros q ? . unfold SECOND. split; Z.to_euclidean_division_equations; lia. }
    apply assign_times_ok; Z.to_euclidean_division_equations; lia.
Qed.

(** ** Examples *)

(** Two hours east of Greenwich. *)
Definition two_hours : LocalZone := {| local_timezone := 7200 * SECOND; system_offset := fun _ => 7200 * SECOND |}.
#[local] Existing Instance two_hours.

Lemma timestamp_view_roundtrip_witness :
  match timestamp_to_datetime 1 1500 with
  | Ok t => to_utc t = Ok 1000001 /\ datetime_to_timestamp t = Ok (1, 1000)
  | Raise e => e = OverflowError /\ in_years (1 * SECOND + 1500 / 1000 + local_timezone) = false
  end.
Proof.
  refine (proj1 (timestamp_view_roundtrip _) 1 1500 _); [vm_compute; reflexivity|]. vm_compute. reflexivity.
Defined.

(** The last hour of the year 9999 has no view there. *)
Example last_hour : timestamp_to_datetime _TIMESTAMP_MAX_SECONDS 0 = Raise OverflowError.
Proof. reflexivity. Qed.

(** An offset of half a second: the seconds are those of the instant, the fraction is
    that of the clock, half a second off. *)
Example half_second_offset : datetime_to_timestamp (mkDatetime 2000000 (Some 500000)) = Ok (1, 0).
Proof. reflexivity. Qed.
