(* ===== verification/Extensions.v ===== *)
(** * Extensions

    [src/nebius/base/protos/extensions.py]: [ExtensionRegistry], the declarations of
    one generated namespace, and [ExtensionValues], the typed extensions of one
    message; with the part of [direct.py] that parses them.  [RepeatedValues] is in
    [Message] and [MessageObjects].

    A declaration is compared by identity, its number [ext_id].  Values are those of
    [Message]; an extension that is repeated holds [XItems] and a singular one [XOne].
    The number of mutation callbacks is counted.  A registry is given to
    [ExtensionValues] when it is frozen and does not change afterwards, so it is a
    value here, with its identity.

    Left out: what the values are after an operation that raised, and that a container
    or message that was replaced no longer notifies.  The operations of a container are
    in [MessageObjects]; here it may change to any content of its type. *)
From stdpp Require Import gmap.
From S2P Require Import Prelude PyStr Json FieldMask Bytes Wire ValueCodec Message.

(** ** Declarations *)

Record Extension : Type := mkExtension {
  ext_id : nat;
  ext_registry : nat;
  full_name : pystr;
  extendee : pystr;
  ext_number : Z;
  value_codec : codec;
  ext_default : option scalar;     (** [default_factory] of a scalar, when it is not the codec's *)
  ext_repeated : bool;
  ext_packed : bool;
  ext_public : bool
}.

Inductive extension_error : Type :=
| RuntimeE (msg : string)
| ValueE (msg : string)
| TypeE (msg : string)
| MessageE (e : message_error).

Abbreviation outcome := (result extension_error).

Record ExtensionRegistry : Type := mkRegistry {
  registry_id : nat;
  _by_number : list ((pystr * Z) * Extension);
  _by_name : list (pystr * Extension);
  _ranges : list (pystr * list (Z * Z));
  _frozen : bool
}.

Definition new_registry (i : nat) : ExtensionRegistry := mkRegistry i [] [] [] false.

Definition add_extendee (extendee : pystr) (ranges : list (Z * Z)) (r : ExtensionRegistry) : outcome ExtensionRegistry :=
  if _frozen r then Raise (RuntimeE "extension registry is frozen") else
  if existsb (fun '(start, stop) => (start <? 1) || (stop <=? start)) ranges then Raise (ValueE "invalid protobuf extension range") else
  match dict_get (_ranges r) extendee with
  | Some _ => Raise (ValueE "duplicate protobuf extension extendee")
  | None => Ok (mkRegistry (registry_id r) (_by_number r) (_by_name r) (dict_set (_ranges r) extendee ranges) (_frozen r))
  end.

Definition in_ranges (n : Z) (ranges : list (Z * Z)) : bool := existsb (fun '(start, stop) => (start <=? n) && (n <? stop)) ranges.

Definition register (x : Extension) (r : ExtensionRegistry) : outcome ExtensionRegistry :=
  if _frozen r then Raise (RuntimeE "extension registry is frozen") else
  if negb (ext_registry x =? registry_id r)%nat then Raise (ValueE "extension belongs to another registry") else
  if ext_packed x && (negb (ext_repeated x) || negb (packable_of (value_codec x)))
  then Raise (ValueE "only repeated packable extensions may be packed") else
  if negb (in_ranges (ext_number x) (from_option id [] (dict_get (_ranges r) (extendee x))))
  then Raise (ValueE "extension number is outside its extendee ranges") else
  match dict_get (_by_number r) (extendee x, ext_number x), dict_get (_by_name r) (full_name x) with
  | None, None =>
      Ok (mkRegistry (registry_id r) (dict_set (_by_number r) (extendee x, ext_number x) x) (dict_set (_by_name r) (full_name x) x)
            (_ranges r) (_frozen r))
  | _, _ => Raise (ValueE "conflicting protobuf extension registration")
  end.

Definition freeze (r : ExtensionRegistry) : ExtensionRegistry :=
  mkRegistry (registry_id r) (_by_number r) (_by_name r) (_ranges r) true.

Definition by_number (r : ExtensionRegistry) (extendee : pystr) (number : Z) : option Extension := dict_get (_by_number r) (extendee, number).
Definition by_name (r : ExtensionRegistry) (name : pystr) : option Extension := dict_get (_by_name r) name.

(** ** Values *)

Inductive ext_value : Type := XOne (v : value) | XItems (l : list value).

(** [_values], in the order of the dict, with the declarations that are its keys. *)
Record ExtensionValues : Type := mkValues {
  _registry : ExtensionRegistry;
  _extendee : pystr;
  _values : list (Extension * ext_value);
  _present : gset nat;
  notified : nat
}.

Definition new_values (r : ExtensionRegistry) (extendee : pystr) : outcome ExtensionValues :=
  if _frozen r then Ok (mkValues r extendee [] ∅ 0) else Raise (RuntimeE "extension registry must be frozen before decoding").

Fixpoint lookup_value (l : list (Extension * ext_value)) (x : Extension) : option ext_value :=
  match l with
  | [] => None
  | (y, v) :: l => if (ext_id y =? ext_id x)%nat then Some v else lookup_value l x
  end.

Fixpoint store_value (l : list (Extension * ext_value)) (x : Extension) (v : ext_value) : list (Extension * ext_value) :=
  match l with
  | [] => [(x, v)]
  | (y, w) :: l => if (ext_id y =? ext_id x)%nat then (y, v) :: l else (y, w) :: store_value l x v
  end.

Fixpoint drop_value (l : list (Extension * ext_value)) (x : Extension) : list (Extension * ext_value) :=
  match l with
  | [] => []
  | (y, w) :: l => if (ext_id y =? ext_id x)%nat then l else (y, w) :: drop_value l x
  end.

Definition set_values (l : list (Extension * ext_value)) (s : ExtensionValues) : ExtensionValues :=
  mkValues (_registry s) (_extendee s) l (_present s) (notified s).
Definition set_present (p : gset nat) (s : ExtensionValues) : ExtensionValues :=
  mkValues (_registry s) (_extendee s) (_values s) p (notified s).
Definition _notify (s : ExtensionValues) : ExtensionValues :=
  mkValues (_registry s) (_extendee s) (_values s) (_present s) (S (notified s)).
Definition put (x : Extension) (v : ext_value) (s : ExtensionValues) : ExtensionValues := set_values (store_value (_values s) x v) s.

Definition _mark_present (x : Extension) (s : ExtensionValues) : ExtensionValues := _notify (set_present ({[ext_id x]} ∪ _present s) s).

Definition value_of (s : ExtensionValues) (x : Extension) : option ext_value := lookup_value (_values s) x.
Definition items_in (s : ExtensionValues) (x : Extension) : list value := match value_of s x with Some (XItems l) => l | _ => [] end.

(** The message that is stored has become [m].  [MergeFromString] into that message, or
    into one it holds, tells nobody ([direct.py] 961). *)
Definition child_changed (x : Extension) (m : message) (s : ExtensionValues) : ExtensionValues := put x (XOne (MessageV m)) s.

(** Every other operation runs the callback that [_bind_singular] gave the message. *)
Definition bound_changed (x : Extension) (m : message) (s : ExtensionValues) : ExtensionValues :=
  _mark_present x (child_changed x m s).

(** [_repeated]: the container is there afterwards. *)
Definition _repeated (x : Extension) (s : ExtensionValues) : ExtensionValues :=
  match value_of s x with None => put x (XItems []) s | Some _ => s end.

Definition _check (x : Extension) (s : ExtensionValues) : outcome () :=
  if negb (ext_registry x =? registry_id (_registry s))%nat then Raise (ValueE "extension belongs to another registry") else
  if negb (bool_decide (extendee x = _extendee s)) then Raise (ValueE "extension has the wrong extendee") else
  match by_number (_registry s) (_extendee s) (ext_number x) with
  | Some y => if (ext_id y =? ext_id x)%nat then Ok () else Raise (ValueE "extension is not registered in this registry")
  | None => Raise (ValueE "extension is not registered in this registry")
  end.

Definition message_extension (x : Extension) : bool := match value_codec x with CMessage _ => true | _ => false end.

Definition lift {A} (r : result message_error A) : outcome A := match r with Ok a => Ok a | Raise e => Raise (MessageE e) end.

Section Values.
Context `{Schema}.

(** [default_factory()] *)
Definition default_of (x : Extension) : value :=
  match value_codec x, ext_default x with
  | CMessage k, _ => MessageV (new k)
  | _, Some s => Scalar s
  | c, None => Scalar (scalar_default c)
  end.

Definition get (x : Extension) (s : ExtensionValues) : outcome (ext_value * ExtensionValues) :=
  _ ← _check x s;
  match value_of s x with
  | Some v => Ok (v, s)
  | None =>
      if ext_repeated x then Ok (XItems [], _repeated x s)
      else Ok (XOne (default_of x), if message_extension x then put x (XOne (default_of x)) s else s)
  end.

Definition has (x : Extension) (s : ExtensionValues) : outcome bool :=
  _ ← _check x s;
  Ok (if ext_repeated x then match items_in s x with [] => false | _ => true end else bool_decide (ext_id x ∈ _present s)).

(** [RepeatedValues.clear] notifies when there was something. *)
Definition clear_items (x : Extension) (s : ExtensionValues) : ExtensionValues :=
  match items_in s x with [] => s | _ => _notify (put x (XItems []) s) end.

Definition clear (x : Extension) (s : ExtensionValues) : outcome ExtensionValues :=
  _ ← _check x s;
  if ext_repeated x then Ok (clear_items x s) else
  let changed := bool_decide (ext_id x ∈ _present s) in
  let s := set_present (_present s ∖ {[ext_id x]}) (set_values (drop_value (_values s) x) s) in
  Ok (if (changed : bool) then _notify s else s).

Definition clear_all (s : ExtensionValues) : ExtensionValues :=
  set_present ∅
    (foldl (fun s '(x, _) => if ext_repeated x then clear_items x s else set_values (drop_value (_values s) x) s) s (_values s)).

(** [sorted(..., key=lambda item: item[0].number)] *)
Fixpoint insert_value (x : Extension * ext_value) (l : list (Extension * ext_value)) : list (Extension * ext_value) :=
  match l with
  | [] => [x]
  | y :: l' => if ext_number x.1 <=? ext_number y.1 then x :: l else y :: insert_value x l'
  end.
Definition sorted_values (s : ExtensionValues) : list (Extension * ext_value) := foldr insert_value [] (_values s).

Definition present_items (s : ExtensionValues) : list (Extension * ext_value) :=
  filter (fun '(x, v) => (match v with XItems l => negb (match l with [] => true | _ => false end) | XOne _ => bool_decide (ext_id x ∈ _present s) end) = true) (sorted_values s).

(** [full_name.rsplit(".", 1)[-1]] *)
Fixpoint short_name (name : pystr) : pystr :=
  match name with
  | [] => []
  | c :: name' => if bool_decide (46 ∈ name') then short_name name' else if c =? 46 then name' else name
  end.

Section Find.
(** [FindInitializationErrors] of a message *)
Context (find : message -> result message_error (list pystr)).

Definition extension_errors (s : ExtensionValues) (e : Extension * ext_value) : result message_error (list pystr) :=
  let '(x, v) := e in
  if negb (message_extension x) then Ok [] else
  match v with
  | XItems l =>
      es ← traverse (fun '(index, v) => nested_errors find (short_name (full_name x) ++ u "[" ++ str_of_int (Z.of_nat index) ++ u "]") v)
             (zip (seq 0 (length l)) l);
      Ok (concat es)
  | XOne v => if bool_decide (ext_id x ∈ _present s) then nested_errors find (short_name (full_name x)) v else Ok []
  end.

Definition find_initialization_errors (s : ExtensionValues) : result message_error (list pystr) :=
  es ← traverse (extension_errors s) (sorted_values s); Ok (concat es).

End Find.

Section Write.
(** [SerializeToString] of nested messages *)
Context (serialize : message -> result message_error bytes).

Definition write_one (x : Extension) (w : bytes) (v : value) : result message_error bytes :=
  w ← lift_wire (BinaryWriter.write_tag (ext_number x) (wire_type_of (value_codec x)) w);
  write_val serialize (value_codec x) v w.

Definition write_extension (s : ExtensionValues) (w : bytes) (e : Extension * ext_value) : result message_error bytes :=
  let '(x, v) := e in
  match v with
  | XItems [] => Ok w
  | XItems l =>
      if ext_packed x && packable_of (value_codec x) then
        w ← lift_wire (BinaryWriter.write_tag (ext_number x) WIRE_LENGTH_DELIMITED w);
        lift_wire (BinaryWriter.write_packed (scalars l) (write_scalar (value_codec x)) w)
      else fold_result (write_one x) l w
  | XOne v => if bool_decide (ext_id x ∈ _present s) then write_one x w v else Ok w
  end.

Definition write_to (s : ExtensionValues) (w : bytes) : result message_error bytes :=
  fold_result (write_extension s) (sorted_values s) w.

End Write.

Section Copy.
(** The fuel of the copies of nested messages. *)
Context (fuel : nat).

Definition set (x : Extension) (input : py_input) (s : ExtensionValues) : outcome ExtensionValues :=
  _ ← _check x s;
  if ext_repeated x then
    match iterate input with
    | Some vs => vs ← lift (traverse (_prepare (clone_message fuel) (value_codec x)) vs); Ok (_notify (put x (XItems vs) s))
    | None => Raise (TypeE "repeated extension requires an iterable")
    end
  else match input with
       | PValue v =>
           owned ← lift (_prepare (clone_message fuel) (value_codec x) v);
           Ok (_mark_present x (put x (XOne owned) s))
       | _ => Raise (TypeE "the codec refuses the value")
       end.

(** A copied value comes into a singular extension: a message that is there merges
    it. *)
Definition merge_value (x : Extension) (v : value) (s : ExtensionValues) : result message_error ExtensionValues :=
  v ← match value_of s x, v with
      | Some (XOne (MessageV m)), MessageV m' => m ← MergeFrom fuel m m'; Ok (MessageV m)
      | _, _ => Ok v
      end;
  Ok (_mark_present x (put x (XOne v) s)).

Definition same_type (s other : ExtensionValues) : bool :=
  (registry_id (_registry s) =? registry_id (_registry other))%nat && bool_decide (_extendee s = _extendee other).

Definition merge_extension (other s : ExtensionValues) (e : Extension * ext_value) : result message_error ExtensionValues :=
  let '(x, v) := e in
  match v with
  | XItems l =>
      let s := _repeated x s in
      match l with
      | [] => Ok s
      | _ => items ← extend (clone_message fuel) (value_codec x) (items_in s x) l; Ok (_notify (put x (XItems items) s))
      end
  | XOne v =>
      if bool_decide (ext_id x ∈ _present other) then v ← copy_value (clone_message fuel) (value_codec x) v; merge_value x v s else Ok s
  end.

Definition merge_from (other s : ExtensionValues) : outcome ExtensionValues :=
  if negb (same_type s other) then Raise (ValueE "extension values belong to another message type") else
  lift (fold_result (merge_extension other) (_values other) s).

(** [copy_from] of another object *)
Definition copy_from (other s : ExtensionValues) : outcome ExtensionValues :=
  if negb (same_type s other) then Raise (ValueE "extension values belong to another message type") else
  merge_from other (clear_all s).

(** ** Decoding *)

(** [FromString] of nested messages *)
Context (from_string : nat -> bytes -> result message_error message).

Definition append_value (x : Extension) (v : value) (s : ExtensionValues) : result message_error ExtensionValues :=
  items ← extend (clone_message fuel) (value_codec x) (items_in s x) [v]; Ok (_notify (put x (XItems items) s)).

(** One value of a packed occurrence, with the unknown bytes so far. *)
Definition packed_extension (x : Extension) (st : ExtensionValues * list bytes) (v : scalar) :
    result message_error (ExtensionValues * list bytes) :=
  let '(s, unknown) := st in
  if closed_unknown (value_codec x) (Scalar v) then
    w ← lift_wire (BinaryWriter.write_tag (ext_number x) (wire_type_of (value_codec x)) BinaryWriter.init);
    w ← lift_wire (write_scalar (value_codec x) v w);
    Ok (s, unknown ++ [w])
  else s ← append_value x (Scalar v) s; Ok (s, unknown).

(** [try_decode]; [None]: not consumed.  Otherwise the unknown fields, with the
    reader. *)
Definition try_decode (x : Extension) (w start : Z) (s : ExtensionValues) (r : Reader) :
    outcome (option (ExtensionValues * list bytes * Reader)) :=
  _ ← _check x s;
  lift (
    if ext_repeated x && packable_of (value_codec x) && (w =? WIRE_LENGTH_DELIMITED) then
      '(vs, r) ← lift_read (BinaryReader.read_packed (read_scalar (value_codec x))) r;
      '(s, unknown) ← fold_result (packed_extension x) vs (_repeated x s, []);
      Ok (Some (s, unknown, r))
    else if negb (w =? wire_type_of (value_codec x)) then Ok None else
    '(decoded, r) ← read_val from_string (value_codec x) r;
    if closed_unknown (value_codec x) decoded then raw ← raw_since start r; Ok (Some (s, [raw], r))
    else if ext_repeated x then s ← append_value x decoded (_repeated x s); Ok (Some (s, [], r))
    else v ← copy_value (clone_message fuel) (value_codec x) decoded; s ← merge_value x v s; Ok (Some (s, [], r))).

(** The part of [_merge_from_string] for a number that is no field. *)
Definition extension_step (s : ExtensionValues) (unknown : list bytes) (r : Reader) :
    outcome (ExtensionValues * list bytes * Reader) :=
  '(n, w, start, r) ← lift (lift_read BinaryReader.read_tag r);
  decoded ← match by_number (_registry s) (_extendee s) n with
            | Some x => try_decode x w start s r
            | None => Ok None
            end;
  match decoded with
  | Some (s, raws, r) => Ok (s, unknown ++ raws, r)
  | None => '(raw, r) ← lift (lift_read (BinaryReader.skip_field n w start) r); Ok (s, unknown ++ [raw], r)
  end.

Fixpoint extension_loop (n : nat) (s : ExtensionValues) (unknown : list bytes) (r : Reader) : outcome (ExtensionValues * list bytes) :=
  if BinaryReader.eof r then Ok (s, unknown) else
  match n with
  | O => Raise (MessageE MessageFuel)
  | S n => '(s, unknown, r) ← extension_step s unknown r; extension_loop n s unknown r
  end.

End Copy.

End Values.
