(* ===== verification/ExtensionFields.v ===== *)
(** * Extensions as fields

    What a registry holds, and the view of the extensions of a message as the
    fields of a class: [as_message] is the message of a class whose fields are the
    declarations of the registry, each with explicit presence, that has the same
    values and unknown fields.  Decoding and serializing extensions are the binary
    operations of [Message] on it, and what is written is read back. *)
From stdpp Require Import gmap relations sorting.
From S2P Require Import Prelude PyStr Json FieldMask Bytes Wire WireSpec WireSkip ValueCodec Message MessageInv MessageOps MessageParse MessageSteps MessageCanon MessageRoundtrip Extensions.

(** ** Registries *)

Inductive builds (r : ExtensionRegistry) : ExtensionRegistry -> Prop :=
| b_extendee name ranges r' : add_extendee name ranges r = Ok r' -> builds r r'
| b_register x r' : register x r = Ok r' -> builds r r'
| b_freeze : builds r (freeze r).

Definition registry_reachable (r : ExtensionRegistry) : Prop := exists i, rtc builds (new_registry i) r.

(** What [register] has checked of a declaration. *)
Record declared (r : ExtensionRegistry) (x : Extension) : Prop := {
  d_registry : ext_registry x = registry_id r;
  d_packed : ext_packed x = true -> ext_repeated x = true /\ packable_of (value_codec x) = true;
  d_range : exists ranges, dict_get (_ranges r) (extendee x) = Some ranges /\ in_ranges (ext_number x) ranges = true;
  d_number : 1 <= ext_number x;
  d_by_number : by_number r (extendee x) (ext_number x) = Some x;
  d_by_name : by_name r (full_name x) = Some x
}.

Record registry_ok (r : ExtensionRegistry) : Prop := {
  r_number e n x : by_number r e n = Some x -> declared r x /\ extendee x = e /\ ext_number x = n;
  r_name name x : by_name r name = Some x -> declared r x /\ full_name x = name;
  r_ranges e ranges : dict_get (_ranges r) e = Some ranges -> Forall (fun '(start, stop) => 1 <= start < stop) ranges
}.

Lemma new_registry_ok i : registry_ok (new_registry i).
Proof. by split. Qed.

Lemma freeze_ok r : registry_ok r -> registry_ok (freeze r).
Proof.
  intros [Hn Hm Hr]. split; [| |done].
  - intros e n x Hx. destruct (Hn e n x Hx) as [[]]. done.
  - intros m x Hx. destruct (Hm m x Hx) as [[]]. done.
Qed.

Lemma declared_ranges name ranges b r x :
  dict_get (_ranges r) name = None -> declared r x ->
  declared (mkRegistry (registry_id r) (_by_number r) (_by_name r) (dict_set (_ranges r) name ranges) b) x.
Proof.
  intros Hnew []. split; try done. destruct d_range0 as (l & Hl & Hin). exists l. split; [|done].
  cbn [_ranges]. rewrite dict_get_set. case_decide; [|done]. congruence.
Qed.

Lemma add_extendee_ok name ranges r r' : add_extendee name ranges r = Ok r' -> registry_ok r -> registry_ok r'.
Proof.
  unfold add_extendee. intros Ha [Hn Hm Hr]. destruct (_frozen r); [done|].
  destruct (existsb _ ranges) eqn:Ex; [done|]. destruct (dict_get (_ranges r) name) eqn:Hnew; [done|].
  injection Ha as <-. split.
  - intros e n x Hx. destruct (Hn e n x Hx) as [Hd ?]. split; [by apply declared_ranges|done].
  - intros m x Hx. destruct (Hm m x Hx) as [Hd ?]. split; [by apply declared_ranges|done].
  - cbn [_ranges]. intros e l. rewrite dict_get_set. case_decide; [|by apply Hr].
    intros [= <-]. apply Forall_forall. intros [start stop] Hin.
    destruct ((start <? 1) || (stop <=? start)) eqn:E; [|lia].
    assert (existsb (fun '(start, stop) => (start <? 1) || (stop <=? start)) ranges = true); [|congruence].
    apply existsb_exists. exists (start, stop). split; [by apply list_elem_of_In|done].
Qed.

Lemma in_ranges_pos n ranges :
  Forall (fun '(start, stop) => 1 <= start < stop) ranges -> in_ranges n ranges = true -> 1 <= n.
Proof.
  intros Hr (p & Hin%list_elem_of_In & Hp)%existsb_exists. rewrite Forall_forall in Hr. specialize (Hr p Hin).
  destruct p. lia.
Qed.

Lemma register_ok x r r' : register x r = Ok r' -> registry_ok r -> registry_ok r'.
Proof.
  unfold register. intros Ha [Hn Hm Hr]. destruct (_frozen r); [done|].
  destruct (ext_registry x =? registry_id r)%nat eqn:Eid; [|done]. cbn [negb] in Ha.
  destruct (ext_packed x && _) eqn:Ep; [done|]. destruct (in_ranges _ _) eqn:Ein; [|done]. cbn [negb] in Ha.
  destruct (dict_get (_by_number r) _) eqn:En; [done|]. destruct (dict_get (_by_name r) _) eqn:Em; [done|].
  injection Ha as <-. set (r' := mkRegistry _ _ _ _ _).
  destruct (dict_get (_ranges r) (extendee x)) as [ranges|] eqn:Erg; [|done]. cbn in Ein.
  assert (declared r' x) as Hx.
  { split; unfold r', by_number, by_name; cbn.
    - by apply Nat.eqb_eq.
    - intros Epk. rewrite Epk in Ep. destruct (ext_repeated x), (packable_of (value_codec x)); done.
    - by exists ranges.
    - by eapply in_ranges_pos; [eapply Hr|].
    - by rewrite dict_get_set_eq.
    - by rewrite dict_get_set_eq. }
  assert (forall y, declared r y -> declared r' y) as Hold.
  { intros y [H1 H2 H3 H4 H5 H6]. unfold by_number, by_name in *. split; try done; unfold r', by_number, by_name; cbn.
    - rewrite dict_get_set. case_decide as E; [|done]. rewrite E in H5. congruence.
    - rewrite dict_get_set. case_decide as E; [|done]. rewrite E in H6. congruence. }
  split; [| |done].
  - intros e n y. unfold r', by_number. cbn. rewrite dict_get_set. case_decide as E.
    + intros [= <-]. injection E as -> ->. done.
    + intros Hy. destruct (Hn e n y Hy) as [Hd ?]. split; [by apply Hold|done].
  - intros m y. unfold r', by_name. cbn. rewrite dict_get_set. case_decide as E.
    + intros [= <-]. done.
    + intros Hy. destruct (Hm m y Hy) as [Hd ?]. split; [by apply Hold|done].
Qed.

Lemma builds_ok r r' : builds r r' -> registry_ok r -> registry_ok r'.
Proof. intros []; [by eapply add_extendee_ok|by eapply register_ok|apply freeze_ok]. Qed.

Lemma reachable_registry_ok r : registry_reachable r -> registry_ok r.
Proof.
  intros [i Hr]. remember (new_registry i) as r0 eqn:E0. assert (registry_ok r0) as H0 by (subst; apply new_registry_ok).
  clear E0. induction Hr as [|r0 r1 r2 Hs _ IH]; [done|]. apply IH. by eapply builds_ok.
Qed.

Lemma frozen_builds r r' : _frozen r = true -> builds r r' -> r' = r.
Proof.
  intros Hf [name ranges r1 Ha|x r1 Ha|].
  - unfold add_extendee in Ha. by rewrite Hf in Ha.
  - unfold register in Ha. by rewrite Hf in Ha.
  - destruct r. cbn in Hf. by subst.
Qed.

(** ** The values *)

(** The cell of a value, and what it must look like. *)
Definition ext_cell (v : ext_value) : cell := match v with XOne v => One v | XItems l => Items l end.
Definition is_items (v : ext_value) : bool := match v with XItems _ => true | XOne _ => false end.
Definition ids (l : list (Extension * ext_value)) : list nat := (fun e => ext_id e.1) <$> l.

Lemma lookup_store l x v y :
  lookup_value (store_value l x v) y = if (ext_id x =? ext_id y)%nat then Some v else lookup_value l y.
Proof.
  induction l as [|[z w] l IH]; cbn [store_value lookup_value]; [done|].
  destruct (ext_id z =? ext_id x)%nat eqn:E; cbn [lookup_value].
  - apply Nat.eqb_eq in E. rewrite E. by destruct (ext_id x =? ext_id y)%nat.
  - rewrite IH. apply Nat.eqb_neq in E. destruct (ext_id z =? ext_id y)%nat eqn:E1; [|done].
    apply Nat.eqb_eq in E1. assert ((ext_id x =? ext_id y)%nat = false) as -> by (apply Nat.eqb_neq; congruence). done.
Qed.

Lemma lookup_value_None l x : lookup_value l x = None <-> ext_id x ∉ ids l.
Proof.
  induction l as [|[z w] l IH]; cbn [lookup_value]; [split; [intros _; apply not_elem_of_nil|done]|].
  unfold ids in *. rewrite fmap_cons, not_elem_of_cons. cbn [fst].
  destruct (ext_id z =? ext_id x)%nat eqn:E.
  - apply Nat.eqb_eq in E. split; [done|]. intros [Hne _]. congruence.
  - apply Nat.eqb_neq in E. rewrite IH. naive_solver.
Qed.

Lemma lookup_value_elem l x v : lookup_value l x = Some v -> exists y, ext_id y = ext_id x /\ (y, v) ∈ l.
Proof.
  induction l as [|[z w] l IH]; cbn [lookup_value]; [done|]. destruct (ext_id z =? ext_id x)%nat eqn:E.
  - intros [= <-]. exists z. split; [by apply Nat.eqb_eq|left].
  - intros (y & Hy & Hin)%IH. exists y. split; [done|by right].
Qed.

Lemma elem_lookup_value l x v : NoDup (ids l) -> (x, v) ∈ l -> lookup_value l x = Some v.
Proof.
  intros Hnd Hin. induction l as [|[z w] l IH]; [by apply not_elem_of_nil in Hin|]. cbn [lookup_value].
  apply NoDup_cons in Hnd as [Hz Hnd]. apply elem_of_cons in Hin as [[= <- <-]|Hin]; [by rewrite Nat.eqb_refl|].
  destruct (ext_id z =? ext_id x)%nat eqn:E; [|by apply IH]. apply Nat.eqb_eq in E. destruct Hz.
  cbn [fst]. rewrite E. unfold ids. apply list_elem_of_fmap. by exists (x, v).
Qed.

Lemma store_elem l x v e : e ∈ store_value l x v -> e ∈ l \/ (exists y, e = (y, v) /\ ext_id y = ext_id x /\ (y = x \/ y ∈ l.*1)).
Proof.
  induction l as [|[z w] l IH]; cbn [store_value].
  - intros ->%list_elem_of_singleton. right. exists x. auto.
  - destruct (ext_id z =? ext_id x)%nat eqn:E; intros [->|He]%elem_of_cons.
    + right. exists z. split; [done|]. split; [by apply Nat.eqb_eq|]. right. left.
    + left. by right.
    + left. left.
    + destruct (IH He) as [?|(y & -> & Hy & Hin)]; [left; by right|]. right. exists y. split; [done|].
      split; [done|]. destruct Hin; [by left|]. right. by right.
Qed.

Lemma ids_store l x v : ids (store_value l x v) = if bool_decide (ext_id x ∈ ids l) then ids l else ids l ++ [ext_id x].
Proof.
  induction l as [|[z w] l IH]; cbn [store_value]; [done|].
  unfold ids in *. rewrite fmap_cons. cbn [fst]. destruct (ext_id z =? ext_id x)%nat eqn:E.
  - apply Nat.eqb_eq in E. rewrite fmap_cons. cbn [fst].
    rewrite bool_decide_eq_true_2; [done|]. rewrite E. left.
  - apply Nat.eqb_neq in E. rewrite fmap_cons, IH. cbn [fst].
    rewrite (bool_decide_ext (ext_id x ∈ ext_id z :: _) (ext_id x ∈ (fun e => ext_id e.1) <$> l)) by set_solver.
    by case_bool_decide.
Qed.

Lemma drop_elem l x e : e ∈ drop_value l x -> e ∈ l.
Proof.
  induction l as [|[z w] l IH]; cbn [drop_value]; [done|]. destruct (ext_id z =? ext_id x)%nat; [by right|].
  intros [->|He]%elem_of_cons; [left|right; by apply IH].
Qed.

Lemma drop_ids l x : NoDup (ids l) -> NoDup (ids (drop_value l x)).
Proof.
  induction l as [|[z w] l IH]; cbn [drop_value]; [done|]. intros [Hz Hnd]%NoDup_cons.
  destruct (ext_id z =? ext_id x)%nat; [done|]. apply NoDup_cons. split; [|by apply IH].
  unfold ids. intros (e & Ee & He%drop_elem)%list_elem_of_fmap. apply Hz. cbn [fst] in *. rewrite Ee.
  apply list_elem_of_fmap. by exists e.
Qed.

Lemma lookup_drop l x y :
  NoDup (ids l) -> lookup_value (drop_value l x) y = if (ext_id x =? ext_id y)%nat then None else lookup_value l y.
Proof.
  induction l as [|[z w] l IH]; cbn [drop_value lookup_value]; [by destruct (_ =? _)%nat|].
  intros [Hz Hnd]%NoDup_cons. destruct (ext_id z =? ext_id x)%nat eqn:E.
  - apply Nat.eqb_eq in E. cbn [fst] in Hz. rewrite E in *. destruct (ext_id x =? ext_id y)%nat eqn:Ey; [|done].
    apply Nat.eqb_eq in Ey. apply lookup_value_None. by rewrite <- Ey.
  - cbn [lookup_value]. rewrite IH by done. apply Nat.eqb_neq in E.
    destruct (ext_id z =? ext_id y)%nat eqn:E1; [|done]. apply Nat.eqb_eq in E1.
    assert ((ext_id x =? ext_id y)%nat = false) as -> by (apply Nat.eqb_neq; congruence). done.
Qed.

(** ** The class of the declarations *)

Definition ext_field (x : Extension) : Field :=
  mkField (full_name x) (full_name x) (ext_number x) (value_codec x) (ext_repeated x) (ext_packed x) true false
    None (ext_default x) None (ext_public x) false false None.

(** The declarations of the extendee are the fields of the class [k]; an object
    has one identity. *)
Record extension_class `{Schema} (r : ExtensionRegistry) (e : pystr) (k : nat) (xs : list Extension) : Prop := {
  ec_fields : FIELDS k = ext_field <$> xs;
  ec_declared x : x ∈ xs <-> by_number r e (ext_number x) = Some x;
  ec_identity x y : x ∈ xs -> y ∈ xs -> ext_id x = ext_id y -> x = y
}.

Section Fields.
Context `{Schema} (HS : schema_ok _).
Context (r : ExtensionRegistry) (e : pystr) (Hr : registry_ok r).
Context (k : nat) (xs : list Extension) (EC : extension_class r e k xs).

Abbreviation Hk := (ec_fields r e k xs EC).
Abbreviation Hxs := (ec_declared r e k xs EC).
Abbreviation Hid := (ec_identity r e k xs EC).

Record values_ok (s : ExtensionValues) : Prop := {
  v_registry : _registry s = r;
  v_extendee : _extendee s = e;
  v_ids : NoDup (ids (_values s));
  v_kind x v : (x, v) ∈ _values s -> x ∈ xs /\ is_items v = ext_repeated x;
  v_present x : x ∈ xs -> ext_id x ∈ _present s -> ext_repeated x = false /\ value_of s x <> None
}.

(** What is stored without being present has not been touched: it is the default that
    [get] made.  When [F] is [False], nothing is. *)
Definition untouched (F : Prop) (s : ExtensionValues) : Prop :=
  forall x v, x ∈ xs -> value_of s x = Some (XOne v) -> ext_id x ∈ _present s \/ (F /\ v = default_of x).

Definition slot_of (s : ExtensionValues) (x : Extension) : slot :=
  mkSlot (ext_cell <$> value_of s x) (bool_decide (ext_id x ∈ _present s)).

Definition as_message (s : ExtensionValues) (u : list bytes) : message :=
  mkMessage k (slot_of s <$> xs) ∅ u emptyMask.

Lemma xs_nodup : NoDup xs.
Proof.
  apply (NoDup_fmap_1 ext_number). pose proof (s_numbers HS k) as Hn. rewrite Hk, <- list_fmap_compose in Hn. exact Hn.
Qed.

Lemma field_at i x : xs !! i = Some x -> FIELDS k !! i = Some (ext_field x).
Proof. intros Hx. by rewrite Hk, list_lookup_fmap, Hx. Qed.

Lemma field_is i f : FIELDS k !! i = Some f -> exists x, xs !! i = Some x /\ f = ext_field x.
Proof. rewrite Hk, list_lookup_fmap. destruct (xs !! i) as [x|]; [|done]. intros [= <-]. by exists x. Qed.

Lemma declared_xs x : x ∈ xs -> declared r x /\ extendee x = e.
Proof. intros Hx%Hxs. by apply Hr in Hx as (? & ? & _). Qed.

Lemma ext_value_kind s x v : values_ok s -> x ∈ xs -> value_of s x = Some v -> (x, v) ∈ _values s /\ is_items v = ext_repeated x.
Proof.
  intros Hs Hx Hv. apply lookup_value_elem in Hv as (y & Hy & Hin). destruct (v_kind s Hs y v Hin) as [Hyx Hi].
  assert (y = x) as -> by by apply Hid. done.
Qed.

Lemma check_ok x s : values_ok s -> x ∈ xs -> _check x s = Ok tt.
Proof.
  intros Hs Hx. destruct (declared_xs x Hx) as [Hd He]. unfold _check.
  rewrite (v_registry s Hs), (v_extendee s Hs), (d_registry _ _ Hd), Nat.eqb_refl, bool_decide_eq_true_2 by done.
  cbn [negb]. apply Hxs in Hx. by rewrite Hx, Nat.eqb_refl.
Qed.

(** *** Updates are updates of a slot *)

Lemma slot_put x v s y :
  x ∈ xs -> y ∈ xs -> slot_of (put x v s) y =
    if (ext_id x =? ext_id y)%nat then mkSlot (Some (ext_cell v)) (bool_decide (ext_id x ∈ _present s)) else slot_of s y.
Proof.
  intros Hx Hy. unfold slot_of, put, value_of. cbn [_values _present set_values]. rewrite lookup_store.
  destruct (ext_id x =? ext_id y)%nat eqn:E.
  - apply Nat.eqb_eq in E. by rewrite E.
  - done.
Qed.

(** A change of the slot of one declaration. *)
Lemma as_update s s' u i x sl :
  xs !! i = Some x -> (forall y, y ∈ xs -> slot_of s' y = if (ext_id x =? ext_id y)%nat then sl else slot_of s y) ->
  as_message s' u = set_slot i sl (as_message s u).
Proof.
  intros Hi Hsl. unfold as_message, set_slot. cbn [cls slots Message._oneofs _unknown_fields _reset_mask]. f_equal.
  apply list_eq. intros j. rewrite list_lookup_fmap.
  destruct (xs !! j) as [y|] eqn:Ej; cbn [fmap option_fmap option_map].
  - assert (x ∈ xs /\ y ∈ xs) as [Hx Hy] by (split; by eapply list_elem_of_lookup_2).
    rewrite Hsl by done. destruct (ext_id x =? ext_id y)%nat eqn:E.
    + apply Nat.eqb_eq, Hid in E as <-; [|done..]. assert (j = i) as -> by by eapply NoDup_lookup; [apply xs_nodup|..].
      rewrite list_lookup_insert_eq; [done|]. rewrite length_fmap. by eapply lookup_lt_Some.
    + apply Nat.eqb_neq in E. rewrite list_lookup_insert_ne, list_lookup_fmap, Ej by congruence. done.
  - symmetry. apply lookup_ge_None. rewrite length_insert, length_fmap. by apply lookup_ge_None.
Qed.

Lemma get_as s u i x : xs !! i = Some x -> get_slot (as_message s u) i = slot_of s x.
Proof. intros Hi. unfold get_slot, as_message. cbn [slots]. by rewrite list_lookup_fmap, Hi. Qed.

Lemma as_put s u i x v : xs !! i = Some x -> as_message (put x v s) u = set_cell i (ext_cell v) (as_message s u).
Proof.
  intros Hi. unfold set_cell. rewrite (get_as s u i x Hi). cbn [is_present slot_of].
  apply as_update with x; [done|]. intros y Hy. apply slot_put; [by eapply list_elem_of_lookup_2|done].
Qed.

Lemma as_mark s u i x : xs !! i = Some x -> as_message (_mark_present x s) u = mark_present i (as_message s u).
Proof.
  intros Hi. unfold mark_present. rewrite (get_as s u i x Hi). apply as_update with x; [done|].
  intros y Hy. unfold slot_of, _mark_present, value_of. cbn [_values _present set_present _notify cell_of].
  assert (x ∈ xs) as Hx by by eapply list_elem_of_lookup_2. destruct (ext_id x =? ext_id y)%nat eqn:E.
  - apply Nat.eqb_eq, Hid in E as <-; [|done..]. f_equal. apply bool_decide_eq_true_2. set_solver.
  - apply Nat.eqb_neq in E. f_equal. apply bool_decide_ext. rewrite elem_of_union, elem_of_singleton.
    split; [intros [?|?]; [congruence|done]|by right].
Qed.

Lemma as_unknown s u raw : add_unknown raw (as_message s u) = as_message s (u ++ [raw]).
Proof. done. Qed.

Lemma as_notify s u : as_message (_notify s) u = as_message s u.
Proof. done. Qed.

(** *** Updates keep the state well formed *)

Lemma put_ok x v s : values_ok s -> x ∈ xs -> is_items v = ext_repeated x -> values_ok (put x v s).
Proof.
  intros Hs Hx Hv. split; cbn.
  - apply Hs.
  - apply Hs.
  - rewrite ids_store. case_bool_decide as Hin; [apply Hs|]. apply NoDup_app. split; [apply Hs|].
    split; [|apply NoDup_singleton]. intros i Hi ->%list_elem_of_singleton. done.
  - intros y w [Hy|(z & [= -> ->] & Ez & Hz)]%store_elem; [by apply (v_kind s Hs)|].
    assert (z ∈ xs) as Hzx. { destruct Hz as [-> |Hz]; [done|]. apply list_elem_of_fmap in Hz as ([z' w'] & -> & Hz). by apply (v_kind s Hs) in Hz as [? _]. }
    apply Hid in Ez as ->; done.
  - intros y Hy Hp. destruct (v_present s Hs y Hy Hp) as [H1 H2]. split; [done|].
    unfold value_of, put. cbn. rewrite lookup_store. by destruct (_ =? _)%nat.
Qed.

Lemma ext_mark_ok x s : values_ok s -> x ∈ xs -> ext_repeated x = false -> value_of s x <> None -> values_ok (_mark_present x s).
Proof.
  intros Hs Hx Hrep Hv. split; cbn; try apply Hs.
  intros y Hy [E%elem_of_singleton|Hp]%elem_of_union; [|by apply (v_present s Hs)].
  apply Hid in E as ->; done.
Qed.

Lemma ext_notify_ok s : values_ok s -> values_ok (_notify s).
Proof. intros []. by split. Qed.

Lemma put_mark_ok x v s :
  values_ok s -> x ∈ xs -> ext_repeated x = false -> values_ok (_mark_present x (put x (XOne v) s)).
Proof.
  intros Hs Hx Hrep. apply ext_mark_ok; [by apply put_ok|done..|]. unfold value_of, put. cbn.
  by rewrite lookup_store, Nat.eqb_refl.
Qed.

Lemma untouched_mark F x v s : untouched F s -> untouched F (_mark_present x (put x (XOne v) s)).
Proof.
  intros Hs y w Hy. unfold value_of, put. cbn. rewrite lookup_store. intros Hw.
  destruct (ext_id x =? ext_id y)%nat eqn:E.
  { left. apply Nat.eqb_eq in E. rewrite <- E. by apply elem_of_union_l, elem_of_singleton. }
  destruct (Hs y w Hy Hw) as [?|?]; [left; by apply elem_of_union_r|by right].
Qed.

Lemma untouched_items F x l s : untouched F s -> untouched F (put x (XItems l) s).
Proof.
  intros Hs y w Hy. unfold value_of, put. cbn. rewrite lookup_store. destruct (_ =? _)%nat; [done|]. by apply Hs.
Qed.

(** ** Decoding *)

Section Decode.
Context (from_string : nat -> bytes -> result message_error message) (fuel : nat).

(** When [F], what is known of the decoder of nested messages: it yields messages
    whose copies are copied as they are.  Needed for values [get] has made only. *)
Context (F : Prop) (Q : message -> Prop).
Context (Hfrom : F -> forall c b, bytes_ok b = true -> returns_or_raises (from_string c b) (fun m => cls m = c /\ Q m)).
Context (Hstable : F -> forall m m', Q m -> clone_message fuel (cls m) m = Ok m' -> MergeFrom fuel (new (cls m)) m' = Ok m').

Definition kept (s : ExtensionValues) : Prop := values_ok s /\ untouched F s.

Definition ready (rd : Reader) : Prop := reader_ok rd /\ (F -> good rd).

Lemma ready_advanced rd rd' : ready rd -> advanced rd rd' -> ready rd'.
Proof. intros [H1 H2] Ha. split; [by eapply advanced_ok|]. intros HF. by eapply good_advanced; [apply H2|]. Qed.

(** The outcome of a change of the values is that of the change of the message. *)
Definition simulates (o : result message_error (ExtensionValues * list bytes)) (m : result message_error message) : Prop :=
  match o, m with
  | Ok (s, u), Ok m => m = as_message s u /\ kept s
  | Raise a, Raise b => a = b
  | _, _ => False
  end.

Definition simulates_decode (u : list bytes) (o : result message_error (option (ExtensionValues * list bytes * Reader)))
    (m : result message_error (option (message * Reader))) : Prop :=
  match o, m with
  | Ok (Some (s, raws, rd)), Ok (Some (m, rd')) => m = as_message s (u ++ raws) /\ rd' = rd /\ ready rd /\ kept s
  | Ok None, Ok None => True
  | Raise a, Raise b => a = b
  | _, _ => False
  end.

Definition simulates_step (o : outcome (ExtensionValues * list bytes * Reader)) (m : result message_error (message * Reader)) : Prop :=
  match o, m with
  | Ok (s, u, rd), Ok (m, rd') => m = as_message s u /\ rd' = rd /\ ready rd /\ kept s
  | Raise (MessageE a), Raise b => a = b
  | _, _ => False
  end.

Lemma notify_kept s : kept s -> kept (_notify s).
Proof. intros [Hs Hp]. split; [by apply ext_notify_ok|done]. Qed.

Section One.
Context (i : nat) (x : Extension) (Hi : xs !! i = Some x).

Lemma Hx : x ∈ xs.
Proof. by eapply list_elem_of_lookup_2. Qed.

Lemma at_lt s u : (i < length (slots (as_message s u)))%nat.
Proof. unfold as_message. cbn [slots]. rewrite length_fmap. by eapply lookup_lt_Some. Qed.

Lemma items_as s : items_of (slot_of s x) = items_in s x.
Proof. unfold items_of, slot_of, items_in. cbn [cell_of]. by destruct (value_of s x) as [[v|l]|]. Qed.

Lemma as_same s u : as_message s u = set_slot i (slot_of s x) (as_message s u).
Proof.
  apply as_update with x; [done|]. intros y Hy. destruct (ext_id x =? ext_id y)%nat eqn:E; [|done].
  apply Nat.eqb_eq, Hid in E as ->; [done|apply Hx|done].
Qed.

Lemma as_repeated s u :
  values_ok s -> ext_repeated x = true ->
  as_message (_repeated x s) u = set_cell i (Items (items_of (get_slot (as_message s u) i))) (as_message s u) /\
  items_in (_repeated x s) x = items_in s x.
Proof.
  intros Hs Hrep. rewrite (get_as s u i x Hi), items_as. unfold _repeated, items_in.
  destruct (value_of s x) as [v|] eqn:Ev.
  - destruct (ext_value_kind s x v Hs Hx Ev) as [_ Hit]. destruct v as [v|l]; cbn in Hit; [congruence|]. rewrite Ev. split; [|done].
    rewrite (as_same s u) at 1. unfold set_cell. rewrite (get_as s u i x Hi). unfold slot_of. by rewrite Ev.
  - split; [by rewrite (as_put s u i x _ Hi)|]. unfold value_of, put. cbn. by rewrite lookup_store, Nat.eqb_refl.
Qed.

Lemma kept_put l s : kept s -> ext_repeated x = true -> kept (put x (XItems l) s).
Proof. intros [Hs Hp] Hrep. split; [apply put_ok; [done|apply Hx|done]|by apply untouched_items]. Qed.

Lemma kept_repeated s : kept s -> ext_repeated x = true -> kept (_repeated x s).
Proof. intros Hs Hrep. unfold _repeated. destruct (value_of s x); [done|]. by apply kept_put. Qed.

(** [append] *)
Lemma append_simulates s u v :
  kept s -> ext_repeated x = true ->
  simulates (s' ← append_value fuel x v s; Ok (s', u))
    (items ← extend (clone_message fuel) (value_codec x) (items_of (get_slot (as_message s u) i)) [v];
     Ok (set_cell i (Items items) (as_message s u))).
Proof.
  intros Hs Hrep. rewrite (get_as s u i x Hi), items_as. unfold append_value.
  destruct (extend _ _ _ _) as [items|err]; cbn; [|done]. split; [|apply notify_kept; by apply kept_put].
  symmetry. exact (as_put s u i x (XItems items) Hi).
Qed.

(** The values of a packed occurrence. *)
Lemma packed_step_simulates s raws u v :
  kept s -> ext_repeated x = true ->
  simulates ('(s', raws') ← packed_extension fuel x (s, raws) v; Ok (s', u ++ raws'))
    (packed_value fuel i (ext_field x) (as_message s (u ++ raws)) v).
Proof.
  intros Hs Hrep. unfold packed_extension, packed_value, packed_unknown. cbn [codec_of ext_field number].
  destruct (closed_unknown (value_codec x) (Scalar v)).
  - destruct (lift_wire (BinaryWriter.write_tag _ _ _)) as [w|err]; cbn [mbind result_bind]; [|done].
    destruct (lift_wire (write_scalar _ _ w)) as [w'|err]; cbn [mbind result_bind]; [|done].
    rewrite as_unknown, <- app_assoc. by split.
  - pose proof (append_simulates s (u ++ raws) (Scalar v) Hs Hrep) as Ha.
    destruct (append_value fuel x (Scalar v) s) as [s'|err]; exact Ha.
Qed.

Lemma packed_simulates vs : forall s raws u,
  kept s -> ext_repeated x = true ->
  simulates ('(s', raws') ← fold_result (packed_extension fuel x) vs (s, raws); Ok (s', u ++ raws'))
    (fold_result (packed_value fuel i (ext_field x)) vs (as_message s (u ++ raws))).
Proof.
  induction vs as [|v vs IH]; intros s raws u Hs Hrep; [by split|]. cbn [fold_result].
  pose proof (packed_step_simulates s raws u v Hs Hrep) as Ha.
  destruct (packed_extension fuel x (s, raws) v) as [[s' raws']|err], (packed_value _ _ _ _ v) as [m|err'];
    cbn [mbind result_bind simulates] in *; try done. destruct Ha as [-> Hs']. by apply IH.
Qed.

(** A singular value *)
Lemma singular_simulates s u v :
  kept s -> ext_repeated x = false -> (forall m, v = MessageV m -> message_extension x = true) ->
  (F -> value_ok Q (value_codec x) v) ->
  simulates (v ← copy_value (clone_message fuel) (value_codec x) v; s' ← merge_value fuel x v s; Ok (s', u))
    (set_singular fuel i (ext_field x) v (as_message s u)).
Proof.
  intros [Hs Hp] Hrep Hv HQ. unfold set_singular, deselect, _select, merge_value. cbn [oneof ext_field codec_of has_presence].
  rewrite (get_as s u i x Hi). cbn [cell_of slot_of is_present].
  destruct (copy_value _ _ v) as [v'|err] eqn:Ec; cbn [mbind result_bind]; [|done].
  assert (forall w, simulates (Ok (_mark_present x (put x (XOne w) s), u))
    (Ok (mark_present i (set_cell i (One w) (as_message s u))))) as Hdone.
  { intros w. split.
    - symmetry. rewrite (as_mark _ _ i x Hi). by rewrite (as_put _ _ i x _ Hi).
    - split; [by apply put_mark_ok; [|apply Hx|]|by apply untouched_mark]. }
  destruct (value_of s x) as [[[sc|m]|l]|] eqn:Ev; cbn [fmap option_fmap option_map ext_cell]; try apply Hdone.
  destruct v' as [sc'|m']; [apply Hdone|].
  assert (message_field (ext_field x) = true) as ->.
  { unfold copy_value in Ec. unfold message_field. cbn [codec_of ext_field].
    destruct v as [sc|m0]; [by destruct (value_codec x)|]. specialize (Hv m0 eq_refl). unfold message_extension in Hv.
    by destruct (value_codec x). }
  destruct (bool_decide_reflect (ext_id x ∈ _present s)) as [_|Hnot]; cbn [andb];
    [destruct (MergeFrom fuel m m'); cbn [mbind result_bind]; [apply Hdone|done]|].
  destruct (Hp x _ Hx Ev) as [?|[HF Em]]; [done|]. specialize (HQ HF). unfold default_of in Em.
  destruct (value_codec x) as [| | | | |c]; [by destruct (ext_default x)..|]. injection Em as ->.
  destruct v as [sc|m0]; [done|]. destruct HQ as [<- HQ]. cbn [copy_value] in Ec.
  destruct (clone_message fuel (cls m0) m0) as [m1|] eqn:E1; [|done]. injection Ec as <-.
  rewrite (Hstable HF m0 m1 HQ E1). cbn [mbind result_bind]. apply Hdone.
Qed.

Lemma lift_read_keeps {A} (m : M A) `{!Steady m} rd a rd' : reader_ok rd -> lift_read m rd = Ok (a, rd') -> advanced rd rd'.
Proof.
  intros Hrd. unfold lift_read. destruct (steady (m := m) rd Hrd) as [Ha _].
  destruct (m rd) as [[a'|err] rd1]; [|done]. by intros [= _ <-].
Qed.

Lemma read_val_kind rd v rd' m :
  read_val from_string (value_codec x) rd = Ok (v, rd') -> v = MessageV m -> message_extension x = true.
Proof.
  unfold read_val, message_extension. destruct (value_codec x); try done;
    intros ([sc rd1] & _ & [= <- _])%bind_result_Ok; done.
Qed.

Lemma read_val_advances rd v rd' :
  reader_ok rd -> codec_ok (value_codec x) -> read_val from_string (value_codec x) rd = Ok (v, rd') -> advanced rd rd'.
Proof.
  intros Hrd Hc. unfold read_val. pose proof (read_scalar_steady (value_codec x) Hc) as Hsc.
  destruct (value_codec x); intros ([a rd1] & Ha & Hb)%bind_result_Ok;
    [..|apply bind_result_Ok in Hb as (m & _ & Hb)]; injection Hb as _ <-; refine (lift_read_keeps _ _ a _ Hrd Ha).
Qed.

(** [raw_bytes(tag_start)] after a value. *)
Lemma raw_after rd n w start rd1 rd2 :
  reader_ok rd -> lift_read BinaryReader.read_tag rd = Ok (n, w, start, rd1) -> advanced rd1 rd2 ->
  exists raw, raw_since start rd2 = Ok raw.
Proof.
  intros Hrd Ht (E1 & E2 & E3). unfold lift_read in Ht. destruct (steady (m := BinaryReader.read_tag) rd Hrd) as [Ha _].
  destruct (BinaryReader.read_tag rd) as [[t|err] rd'] eqn:Et; [|done]. injection Ht as -> ->.
  assert (start = _pos rd) as ->.
  { unfold BinaryReader.read_tag, mbind, M_bind, Wire.get in Et. cbn iota beta in Et.
    destruct (BinaryReader.tag_loop [0; 7; 14; 21; 28] 0 rd) as [[tag|err] rd'']; [|done].
    destruct (_ || _); [done|]. destruct (_ <? _); [done|]. by injection Et as _ _ <- _. }
  cbn [snd] in Ha. destruct Ha as (F1 & F2 & F3). unfold raw_since, BinaryReader.raw_bytes. cbv zeta.
  unfold reader_ok in Hrd.
  destruct ((_ <? 0) || _ || _) eqn:E; [lia|]. by eexists.
Qed.

(** [try_decode] is [_try_decode_field]. *)
Lemma decode_simulates s u rd n w start rd1 :
  kept s -> codec_ok (value_codec x) -> ready rd ->
  lift_read BinaryReader.read_tag rd = Ok (n, w, start, rd1) -> ready rd1 ->
  exists o, try_decode fuel from_string x w start s rd1 = lift o /\
  simulates_decode u o (_try_decode_field from_string fuel i (ext_field x) w start (as_message s u) rd1).
Proof.
  intros Hk Hc Hrd Ht Hrd1. pose proof Hk as [Hs _]. unfold try_decode. rewrite (check_ok x s Hs Hx).
  cbn [mbind result_bind]. eexists. split; [reflexivity|].
  unfold _try_decode_field. cbn [map_key_codec ext_field repeated codec_of].
  destruct (ext_repeated x && packable_of (value_codec x) && (w =? WIRE_LENGTH_DELIMITED)) eqn:Epk.
  { apply andb_true_iff in Epk as [[Hrep _]%andb_true_iff _].
    destruct (lift_read (BinaryReader.read_packed _) rd1) as [[vs rd2]|err] eqn:Epd; cbn [mbind result_bind]; [|done].
    assert (ready rd2) as Hrd2.
    { pose proof (read_scalar_steady (value_codec x) Hc). eapply ready_advanced, lift_read_keeps, Epd; [done| |exact (proj1 Hrd1)].
      by apply read_packed_steady. }
    destruct (as_repeated s u Hs Hrep) as [<- _].
    pose proof (packed_simulates vs (_repeated x s) [] u (kept_repeated s Hk Hrep) Hrep) as Hp. rewrite app_nil_r in Hp.
    destruct (fold_result (packed_extension fuel x) _ _) as [[s' raws]|err], (fold_result (packed_value _ _ _) _ _) as [m|err'];
      cbn [mbind result_bind simulates simulates_decode] in *; naive_solver. }
  destruct (negb _); [done|].
  destruct (read_val from_string (value_codec x) rd1) as [[v rd2]|err] eqn:Erd; cbn [mbind result_bind]; [|done].
  pose proof (read_val_advances rd1 v rd2 (proj1 Hrd1) Hc Erd) as Hadv. pose proof (ready_advanced _ _ Hrd1 Hadv) as Hrd2.
  destruct (raw_after rd n w start rd1 rd2 (proj1 Hrd) Ht Hadv) as [raw ->].
  cbn [mbind result_bind]. destruct (closed_unknown (value_codec x) v) eqn:Ecl; [by split|].
  assert (F -> value_ok Q (value_codec x) v) as HQ.
  { intros HF. pose proof (read_val_ok Q from_string (Hfrom HF) (value_codec x) rd1 Hc (proj2 Hrd1 HF)) as Hv.
    rewrite Erd in Hv. destruct Hv as [_ [Hv|Hv]]; [congruence|done]. }
  destruct (ext_repeated x) eqn:Hrep.
  - destruct (as_repeated s u Hs Hrep) as [Has Hit].
    pose proof (append_simulates (_repeated x s) u v (kept_repeated s Hk Hrep) Hrep) as Ha.
    rewrite (get_as (_repeated x s) u i x Hi), items_as, Hit, <- items_as, <- (get_as s u i x Hi), Has in Ha.
    destruct (append_value fuel x v (_repeated x s)) as [s'|err], (extend _ _ _ _) as [items|err'];
      cbn [mbind result_bind simulates simulates_decode] in *; try done.
    rewrite set_cell_twice in Ha by apply at_lt. rewrite app_nil_r. naive_solver.
  - pose proof (singular_simulates s u v Hk Hrep (fun m => read_val_kind rd1 v rd2 m Erd) HQ) as Ha.
    destruct (copy_value _ _ v) as [v'|err]; cbn [mbind result_bind] in Ha |- *.
    + destruct (merge_value fuel x v' s) as [s'|err], (set_singular _ _ _ _ _) as [m|err'];
        cbn [mbind result_bind simulates simulates_decode] in *; try done. rewrite app_nil_r. naive_solver.
    + destruct (set_singular _ _ _ _ _) as [m|err']; done.
Qed.
End One.

(** *** The step and the loop *)

Lemma number_declared n :
  match by_number r e n with
  | Some x => exists i, xs !! i = Some x /\ field_by_number k n = Some (i, ext_field x)
  | None => field_by_number k n = None
  end.
Proof.
  destruct (by_number r e n) as [x|] eqn:Ex.
  - pose proof Ex as (_ & _ & <-)%Hr. apply Hxs in Ex as [i Hi]%list_elem_of_lookup_1. exists i. split; [done|].
    apply (field_by_number_at HS k i (ext_field x)). by apply field_at.
  - destruct (field_by_number k n) as [[i f]|] eqn:Ef; [|done]. apply field_by_number_Some in Ef as [Hf Hn].
    apply field_is in Hf as (x & Hx%list_elem_of_lookup_2%Hxs & ->). cbn [number ext_field] in Hn. congruence.
Qed.

Lemma step_simulates s u rd :
  kept s -> ready rd ->
  simulates_step (extension_step fuel from_string s u rd) (merge_step from_string fuel (as_message s u) rd).
Proof.
  intros Hk0 Hrd. unfold extension_step, merge_step.
  destruct (lift_read BinaryReader.read_tag rd) as [[[[n w] start] rd1]|err] eqn:Et; cbn [lift mbind result_bind]; [|done].
  rewrite (v_registry s (proj1 Hk0)), (v_extendee s (proj1 Hk0)). change (cls (as_message s u)) with k.
  assert (ready rd1) as Hrd1.
  { eapply ready_advanced, lift_read_keeps, Et; [done|apply _|exact (proj1 Hrd)]. }
  assert (simulates_step ('(raw, rd') ← lift (lift_read (BinaryReader.skip_field n w start) rd1); Ok (s, u ++ [raw], rd'))
    (keep_unknown n w start (as_message s u) rd1)) as Hskip.
  { unfold keep_unknown. destruct (lift_read (BinaryReader.skip_field _ _ _) rd1) as [[raw rd2]|err] eqn:Esk; [|done].
    cbn. split; [done|]. split; [done|]. split; [|done]. eapply ready_advanced, lift_read_keeps, Esk; [done|apply _|exact (proj1 Hrd1)]. }
  pose proof (number_declared n) as Hn. destruct (by_number r e n) as [x|].
  - destruct Hn as (i & Hi & ->). assert (codec_ok (value_codec x)) as Hc.
    { apply (f_codec (ext_field x)). by eapply field_is_ok, field_at. }
    destruct (decode_simulates i x Hi s u rd n w start rd1 Hk0 Hc Hrd Et Hrd1) as (o & -> & Hd).
    destruct o as [[[[s' raws] rd2]|]|err], (_try_decode_field _ _ _ _ _ _ _ _) as [[[m rd3]|]|err'];
      cbn [mbind result_bind simulates_decode lift] in *; done.
  - rewrite Hn. exact Hskip.
Qed.

(** The loop on the values is the loop on the message. *)
Lemma loop_simulates n : forall s u rd,
  kept s -> ready rd ->
  match extension_loop fuel from_string n s u rd, merge_loop from_string fuel n (as_message s u) rd with
  | Ok (s, u), Ok m => m = as_message s u /\ kept s
  | Raise (MessageE a), Raise b => a = b
  | _, _ => False
  end.
Proof.
  induction n as [|n IH]; intros s u rd Hs Hrd; cbn [extension_loop merge_loop]; destruct (BinaryReader.eof rd); try done.
  pose proof (step_simulates s u rd Hs Hrd) as Hst.
  destruct (extension_step _ _ _ _ _) as [[[s' u'] rd']|[]], (merge_step _ _ _ _) as [[m rd'']|err];
    cbn [mbind result_bind simulates_step] in *; try done.
  destruct Hst as (-> & -> & Hrd' & Hs'). by apply IH.
Qed.

End Decode.
End Fields.

(** * Serializing extensions

    [write_to] writes what the fields of the class of the declarations would, and
    what it writes is read back. *)

(** ** The order *)

Definition field_le (a b : nat * Field) : Prop := number a.2 <= number b.2.

Lemma insert_field_sorted a l : StronglySorted field_le l -> StronglySorted field_le (insert_field a l).
Proof.
  induction l as [|b l IH]; cbn [insert_field]; intros Hl; [repeat constructor|].
  apply StronglySorted_cons in Hl as [Hb Hl]. rewrite Forall_forall in Hb.
  destruct (number a.2 <=? number b.2) eqn:E; apply StronglySorted_cons; rewrite Forall_forall.
  - split; [|apply StronglySorted_cons; by rewrite Forall_forall].
    intros c [->|Hc]%elem_of_cons; unfold field_le in *; [lia|]. specialize (Hb c Hc). lia.
  - split; [|by apply IH]. intros c. rewrite insert_field_perm. unfold field_le in *.
    intros [->|Hc]%elem_of_cons; [lia|by apply Hb].
Qed.

Lemma fields_sorted l : StronglySorted field_le (foldr insert_field [] l).
Proof. induction l; cbn [foldr]; [constructor|by apply insert_field_sorted]. Qed.

Lemma fields_perm l : foldr insert_field [] l ≡ₚ l.
Proof. induction l as [|a l IH]; cbn [foldr]; [done|]. by rewrite insert_field_perm, IH. Qed.

Lemma filter_sorted (P : nat * Field -> Prop) `{forall a, Decision (P a)} l :
  StronglySorted field_le l -> StronglySorted field_le (filter P l).
Proof.
  induction l as [|a l IH]; [done|]. intros [Ha Hl]%StronglySorted_cons. rewrite filter_cons. case_decide; [|by apply IH].
  apply StronglySorted_cons. split; [|by apply IH]. rewrite Forall_forall in *. intros b [_ Hb]%list_elem_of_filter. by apply Ha.
Qed.

Lemma fold_filter {A S} (f : S -> A -> result message_error S) (P : A -> Prop) `{forall a, Decision (P a)} l : forall s,
  (forall a s, a ∈ l -> ~ P a -> f s a = Ok s) -> fold_result f l s = fold_result f (filter P l) s.
Proof.
  induction l as [|a l IH]; intros s Hf; [done|]. rewrite filter_cons. cbn [fold_result].
  assert (forall b s, b ∈ l -> ~ P b -> f s b = Ok s) as Hl by (intros b s' Hb; apply Hf; by right).
  case_decide as Ha; cbn [fold_result].
  - destruct (f s a); cbn [mbind result_bind]; [by apply IH|done].
  - rewrite Hf by (done || left). cbn [mbind result_bind]. by apply IH.
Qed.

Lemma fold_fmap {A B S} (f : S -> A -> result message_error S) (g : S -> B -> result message_error S) (t : A -> B) l : forall s,
  (forall a s, a ∈ l -> f s a = g s (t a)) -> fold_result f l s = fold_result g (t <$> l) s.
Proof.
  induction l as [|a l IH]; intros s Hf; [done|]. rewrite fmap_cons. cbn [fold_result]. rewrite Hf by left.
  destruct (g s (t a)); cbn [mbind result_bind]; [|done]. apply IH. intros b s' Hb. apply Hf. by right.
Qed.

Lemma values_perm l : foldr insert_value [] l ≡ₚ l.
Proof.
  induction l as [|a l IH]; cbn [foldr]; [done|]. rewrite <- IH at 2. generalize (foldr insert_value [] l). clear.
  intros l. induction l as [|b l IH]; cbn [insert_value]; [done|]. destruct (_ <=? _); [done|]. rewrite IH. apply Permutation_swap.
Qed.

Section Write.
Context `{Schema} (HS : schema_ok _).
Context (r : ExtensionRegistry) (e : pystr) (Hr : registry_ok r).
Context (k : nat) (xs : list Extension) (EC : extension_class r e k xs).
Context (s : ExtensionValues) (Hs : values_ok r e xs s).

(** The field of a stored value. *)
Definition pos (x : Extension) : nat := from_option fst 0%nat (list_find (fun y => ext_id y = ext_id x) xs).
Definition tag (a : Extension * ext_value) : nat * Field := (pos a.1, ext_field a.1).
Definition stored (a : nat * Field) : Prop := match xs !! a.1 with Some x => is_Some (value_of s x) | None => False end.

#[local] Instance stored_dec a : Decision (stored a).
Proof. unfold stored. destruct (xs !! a.1); apply _. Defined.

Lemma pos_at i x : xs !! i = Some x -> pos x = i.
Proof.
  intros Hi. unfold pos. destruct (list_find (fun y => ext_id y = ext_id x) xs) as [[j y]|] eqn:E.
  - apply list_find_Some in E as (Hj & Hy & _). cbn.
    assert (y = x) as -> by (apply (ec_identity _ _ _ _ EC); [by eapply list_elem_of_lookup_2..|done]).
    eapply NoDup_lookup; [|done..]. by eapply (xs_nodup HS r e k xs EC).
  - eapply list_find_None, Forall_lookup_1 in E; [|exact Hi]. done.
Qed.

Lemma value_elem x v : (x, v) ∈ _values s -> value_of s x = Some v /\ exists i, xs !! i = Some x /\ tag (x, v) = (i, ext_field x).
Proof.
  intros Hin. split; [apply elem_lookup_value; [apply Hs|done]|].
  destruct (v_kind _ _ _ s Hs x v Hin) as [[i Hi]%list_elem_of_lookup_1 _]. exists i. split; [done|].
  unfold tag. cbn [fst]. by rewrite (pos_at i x Hi).
Qed.

Lemma tag_perm : filter stored (sorted_fields k) ≡ₚ tag <$> _values s.
Proof.
  unfold sorted_fields. rewrite fields_perm. apply NoDup_Permutation.
  - apply NoDup_filter, (NoDup_fmap_1 fst). rewrite indexed_fst. apply NoDup_seq.
  - pose proof (v_ids _ _ _ s Hs) as Hnd. apply NoDup_fmap_1 in Hnd as Hnd'.
    apply NoDup_fmap_2_strong; [|done]. intros [x v] [y w] Hx Hy.
    destruct (value_elem x v Hx) as (Hvx & i & Hi & ->), (value_elem y w Hy) as (Hvy & j & Hj & ->).
    intros [= <-]. rewrite Hi in Hj. injection Hj as ->. congruence.
  - intros [i f]. rewrite list_elem_of_filter, list_elem_of_fmap, indexed_lookup. split.
    + intros [Hst Hf]. apply (field_is r e k xs EC) in Hf as (x & Hi & ->). unfold stored in Hst. cbn [fst] in Hst.
      rewrite Hi in Hst. destruct Hst as [v Hv].
      destruct (ext_value_kind r e k xs EC s x v Hs (list_elem_of_lookup_2 _ _ _ Hi) Hv) as [Hin _].
      exists (x, v). split; [|done]. unfold tag. cbn [fst]. by rewrite (pos_at i x Hi).
    + intros ([x v] & Et & Hin). destruct (value_elem x v Hin) as (Hv & j & Hj & Ej). rewrite Ej in Et. injection Et as -> ->.
      split; [|by apply (field_at r e k xs EC)]. unfold stored. cbn [fst]. rewrite Hj. by exists v.
Qed.

Lemma tag_sorted l : tag <$> foldr insert_value [] l = foldr insert_field [] (tag <$> l).
Proof.
  induction l as [|a l IH]; [done|]. rewrite fmap_cons. cbn [foldr]. rewrite <- IH.
  generalize (foldr insert_value [] l). clear IH l. intros l. induction l as [|b l IH]; [done|].
  cbn [insert_value insert_field]. rewrite fmap_cons. cbn [insert_field snd tag number ext_field].
  destruct (_ <=? _); [done|]. by rewrite fmap_cons, IH.
Qed.

Lemma sorted_values_fields : tag <$> sorted_values s = filter stored (sorted_fields k).
Proof.
  unfold sorted_values. rewrite tag_sorted. apply (StronglySorted_unique_strong field_le).
  - intros a b Ha Hb Hab Hba. rewrite fields_perm, <- tag_perm in Ha. apply list_elem_of_filter in Ha as [_ Ha].
    apply list_elem_of_filter in Hb as [_ Hb]. rewrite sorted_fields_perm in Ha, Hb. destruct a as [i f], b as [j g].
    apply indexed_lookup in Ha, Hb. unfold field_le in *. cbn [snd] in *.
    pose proof (NoDup_lookup (number <$> FIELDS k) i j (number f) (s_numbers HS k)) as Hij.
    rewrite !list_lookup_fmap, Ha, Hb in Hij. cbn in Hij. assert (i = j) as <- by (apply Hij; f_equal; lia). congruence.
  - apply fields_sorted.
  - apply filter_sorted, fields_sorted.
  - by rewrite fields_perm, tag_perm.
Qed.

(** *** What is written *)

Context (ser : message -> result message_error bytes) (det : bool) (unknown : list bytes).

Abbreviation shape := (as_message k xs s unknown).

Lemma write_value x v i w :
  (x, v) ∈ _values s -> xs !! i = Some x ->
  write_extension ser s w (x, v) = write_slot ser det (ext_field x) (get_slot shape i) w.
Proof.
  intros Hin Hi. destruct (value_elem x v Hin) as [Hv _]. destruct (v_kind _ _ _ s Hs x v Hin) as [_ Hit].
  rewrite (get_as k xs s unknown i x Hi). unfold write_slot. cbn [map_key_codec repeated ext_field codec_of packed number].
  rewrite (items_as x). unfold items_in. rewrite Hv.
  destruct v as [v|l]; cbn [is_items] in Hit; rewrite <- Hit; cbn [write_extension].
  - unfold _field_has_value, slot_of. cbn [map_field map_key_codec ext_field repeated has_presence is_present cell_of].
    rewrite <- Hit, Hv. done.
  - by destruct l.
Qed.

Lemma write_absent i x w : xs !! i = Some x -> value_of s x = None -> write_slot ser det (ext_field x) (get_slot shape i) w = Ok w.
Proof.
  intros Hi Hv. rewrite (get_as k xs s unknown i x Hi). unfold write_slot. cbn [map_key_codec repeated ext_field].
  rewrite (items_as x). unfold items_in. rewrite Hv. destruct (ext_repeated x) eqn:Er; [done|].
  unfold _field_has_value, slot_of. cbn [map_field map_key_codec ext_field repeated has_presence is_present]. rewrite Er.
  destruct (bool_decide _) eqn:Ep; [|done]. apply bool_decide_eq_true in Ep.
  by destruct (v_present _ _ _ s Hs x (list_elem_of_lookup_2 _ _ _ Hi) Ep).
Qed.

Lemma write_to_fields w :
  write_to ser s w = fold_result (fun w '(i, f) => write_slot ser det f (get_slot shape i) w) (sorted_fields k) w.
Proof.
  rewrite (fold_filter _ stored).
  - rewrite <- sorted_values_fields. apply fold_fmap. intros [x v] w' Hin.
    assert ((x, v) ∈ _values s) as Hin'.
    { unfold sorted_values in Hin. by rewrite values_perm in Hin. }
    destruct (value_elem x v Hin') as (_ & i & Hi & ->). by apply write_value.
  - intros [i f] w' Hf Hst. rewrite sorted_fields_perm in Hf. apply indexed_lookup in Hf.
    apply (field_is r e k xs EC) in Hf as (x & Hi & ->). apply (write_absent i x); [done|].
    unfold stored in Hst. cbn [fst] in Hst. rewrite Hi in Hst. destruct (value_of s x); [|done]. destruct Hst. by eexists.
Qed.

(** *** Typed values *)

Definition ext_items (v : ext_value) : list value := match v with XOne v => [v] | XItems l => l end.

Context (U : nat -> bytes -> Prop) (P : message -> Prop).

Definition typed_values : Prop := forall x v, (x, v) ∈ _values s -> Forall (value_ok P (value_codec x)) (ext_items v).

Context (Ht : typed_values).

Lemma slot_typed x : x ∈ xs -> slot_ok P (ext_field x) (slot_of s x).
Proof.
  intros Hx. split.
  - unfold slot_of. cbn [cell_of]. intros c Hc. destruct (value_of s x) as [v|] eqn:Ev; [|done]. injection Hc as <-.
    destruct (ext_value_kind r e k xs EC s x v Hs Hx Ev) as [Hin Hit]. specialize (Ht x v Hin).
    unfold cell_ok. cbn [map_key_codec ext_field repeated codec_of].
    destruct v as [v|l]; cbn [ext_cell ext_items is_items] in *; [|by split].
    split; [done|]. exact (proj1 (Forall_singleton _ _) Ht).
  - cbn [slot_of is_present cell_of]. intros Hp%bool_decide_eq_true. destruct (v_present _ _ _ s Hs x Hx Hp) as [Hrep Hv].
    unfold singular. cbn [map_field map_key_codec ext_field repeated]. rewrite Hrep. split; [done|]. split; [done|].
    by destruct (value_of s x).
Qed.

Lemma shape_ok : Forall (U k) unknown -> body_ok U P shape.
Proof.
  intros Hu. split; [| |done].
  - unfold as_message. cbn [cls slots]. rewrite (ec_fields _ _ _ _ EC). apply Forall2_fmap_2, Forall_Forall2_diag.
    apply Forall_forall. apply slot_typed.
  - intros o i. cbn. rewrite lookup_empty. split; [done|]. intros (f & Hf & Ho & _).
    apply (field_is r e k xs EC) in Hf as (x & _ & ->). done.
Qed.

End Write.

(** ** The values that are read back *)

Definition canon_ext `{Schema} (d : nat) (det : bool) (v : ext_value) : ext_value :=
  match v with
  | XOne v => XOne (canon_value (canon d det) v)
  | XItems l => XItems (canon_value (canon d det) <$> l)
  end.

Lemma empty_kept `{Schema} r e xs F : kept r e xs F (mkValues r e [] ∅ 0).
Proof.
  split; [|by intros x v _]. split; cbn; [done|done|apply NoDup_nil_2| |].
  - intros x v Hin. by apply not_elem_of_nil in Hin.
  - intros x Hx Hin. by apply not_elem_of_empty in Hin.
Qed.

Lemma reader_start b : reader_ok (reader b).
Proof. unfold reader_ok, reader. cbn. lia. Qed.

Lemma ready_start (F : Prop) b : (F -> bytes_ok b = true) -> ready F (reader b).
Proof. intros Hb. split; [apply reader_start|]. intros HF. by apply good_start, Hb. Qed.

Lemma empty_new `{Schema} r e k xs : extension_class r e k xs -> as_message k xs (mkValues r e [] ∅ 0) [] = new k.
Proof.
  intros EC. unfold as_message, new. rewrite (ec_fields _ _ _ _ EC), length_fmap. f_equal.
  clear EC. generalize xs. intros xs'. induction xs' as [|x l IH]; [done|]. rewrite fmap_cons. cbn [length replicate]. by rewrite IH.
Qed.

Lemma extensions_parse `{Schema} (HS : schema_ok _) r e k xs s d det b :
  registry_ok r -> extension_class r e k xs -> values_ok r e xs s -> typed_values s (message_ok unknown_ok d) ->
  write_to (serialize_to_string d det) s [] = Ok b ->
  exists s', extension_loop (S d) (fun k b => merge_from_string d b (Clear (new k))) (length b) (mkValues r e [] ∅ 0) []
      (reader b) = Ok (s', []) /\ values_ok r e xs s' /\
    as_message k xs s' [] = canon_body (canon d det) det (as_message k xs s []).
Proof.
  intros Hr EC Hs Ht Hw. set (m := as_message k xs s []). set (target := canon_body (canon d det) det m).
  set (from := fun k b => merge_from_string d b (Clear (new k))).
  assert (body_ok unknown_ok (message_ok unknown_ok d) m) as Hm by (eapply shape_ok; try done; constructor).
  assert (forall m b, message_ok unknown_ok d m -> serialize_to_string d det m = Ok b -> from (cls m) b = Ok (canon d det m)) as Hfrom.
  { intros m' b' Hm' Hb'. unfold from. rewrite Clear_new. by apply parse_serialized. }
  assert (forall m, message_ok unknown_ok d m -> clone_message (S d) (cls m) (canon d det m) = Ok (canon d det m)) as Hclone.
  { intros m' Hm'. unfold clone_message, CopyFrom. rewrite cls_canon, Nat.eqb_refl. cbn [negb].
    rewrite Clear_new. apply (clone_canon unknown_ok); [done|lia|done]. }
  pose proof (canon_canonical unknown_ok _ (canon d det) det m Hm) as Hcan. fold target in Hcan.
  rewrite (write_to_fields HS r e k xs EC s Hs (serialize_to_string d det) det []) in Hw. fold m in Hw.
  destruct (write_slots_consumes HS (message_ok unknown_ok d) (canon d det) det (serialize_to_string d det)
    from (S d) (cls_canon d det) Hfrom Hclone unknown_ok m Hm (sorted_fields k) [] [] b) as (enc & -> & Hc); [| |done|].
  { rewrite app_nil_r, sorted_fields_perm, indexed_fst. apply NoDup_seq. }
  { intros [i f] Hx. rewrite sorted_fields_perm in Hx. by apply indexed_lookup in Hx. }
  rewrite app_nil_l. apply merge_loop_whole in Hc. fold target in Hc.
  pose proof (loop_simulates HS r e Hr k xs EC from (S d) False (fun _ => True) ltac:(done) ltac:(done) (length enc)
    (mkValues r e [] ∅ 0) [] (reader enc) (empty_kept r e xs False) (ready_start False enc ltac:(done))) as Hl.
  rewrite (empty_new r e k xs EC) in Hl. rewrite (built_nil target (canon_length target Hcan)) in Hc.
  change (new (cls target)) with (new k) in Hc. rewrite Hc in Hl.
  assert (forall i, (i < length (slots target))%nat -> i ∈ reverse (sorted_fields k).*1 ++ []) as Hall.
  { intros i Hi. rewrite app_nil_r, elem_of_reverse, sorted_fields_perm, indexed_fst. apply elem_of_seq.
    rewrite (canon_length target Hcan) in Hi. change (cls target) with k in Hi. lia. }
  pose proof (built_all target _ Hall (c_oneofs _ Hcan) (c_mask _ Hcan) (canon_length target Hcan)) as Ht'.
  change (set_unknown (_unknown_fields target) (built target (reverse (sorted_fields k).*1 ++ [])))
    with (built target (reverse (sorted_fields k).*1 ++ [])) in Ht'. rewrite Ht' in Hl.
  destruct (extension_loop _ _ _ _ _ _) as [[s' u']|[]]; try done. destruct Hl as [El [Hs' _]].
  assert (u' = []) as -> by (apply (f_equal _unknown_fields) in El; by cbn in El).
  by exists s'.
Qed.
