(* ===== verification/ExtensionTheorems.v ===== *)
(** * Extensions: the theorems

    The operations as a step relation, what a registry holds, what extension values
    keep, and that extensions are read
    and written as fields with explicit presence are, with instances at a registry of
    three declarations. *)
From stdpp Require Import gmap relations sorting.
From S2P Require Import Prelude PyStr Json FieldMask Bytes Wire WireSpec WireSkip ValueCodec Message MessageInv MessageOps MessageParse MessageSteps MessageCanon MessageRoundtrip MessageClone Extensions ExtensionFields.

(** ** The step relation

    The operations of [ExtensionValues] as steps, and what every state they reach
    keeps: the values are typed, of the declarations of the extendee, and a present
    extension is singular and has a value. *)

Section Steps.
Context `{Schema} (HS : schema_ok _).
Context (r : ExtensionRegistry) (e : pystr) (Hr : registry_ok r).
Context (k : nat) (xs : list Extension) (EC : extension_class r e k xs).

Abbreviation any_bytes := (fun (_ : nat) (_ : bytes) => True).
Abbreviation level := (message_ok any_bytes).

(** Values that nest at most [n] messages deep. *)
Definition ext_good (n : nat) (s : ExtensionValues) : Prop := values_ok r e xs s /\ typed_values s (level n).

(** [x] is the object its identity says. *)
Definition an_object (x : Extension) : Prop := forall y, y ∈ xs -> ext_id y = ext_id x -> y = x.

(** One operation.  A stored message changes to any message of its type, by its own
    operations or by those of the messages it holds, with a callback or, when it was
    [MergeFromString], without; the container of a repeated extension changes by
    [append], by [clear], or in any other way, its elements included. *)
Inductive changes (s : ExtensionValues) : ExtensionValues -> Prop :=
| c_get x v s' : an_object x -> get x s = Ok (v, s') -> changes s s'
| c_set n x input s' : an_object x -> input_ok n input -> set n x input s = Ok s' -> changes s s'
| c_child n x m m' : x ∈ xs -> value_of s x = Some (XOne (MessageV m)) -> value_ok (level n) (value_codec x) (MessageV m') ->
    changes s (bound_changed x m' s)
| c_child_unheard n x m m' : x ∈ xs -> value_of s x = Some (XOne (MessageV m)) ->
    value_ok (level n) (value_codec x) (MessageV m') -> changes s (child_changed x m' s)
| c_items n x l l' : x ∈ xs -> value_of s x = Some (XItems l) -> Forall (value_ok (level n) (value_codec x)) l' ->
    changes s (_notify (put x (XItems l') s))
| c_items_unheard n x l l' : x ∈ xs -> value_of s x = Some (XItems l) -> Forall (value_ok (level n) (value_codec x)) l' ->
    changes s (put x (XItems l') s)
| c_append n x l v s' : x ∈ xs -> value_of s x = Some (XItems l) -> holds (level n) v ->
    append_value n x v s = Ok s' -> changes s s'
| c_clear_items x l : x ∈ xs -> value_of s x = Some (XItems l) -> changes s (clear_items x s)
| c_clear x s' : an_object x -> clear x s = Ok s' -> changes s s'
| c_clear_all : changes s (clear_all s)
| c_merge n other s' : ext_good n other -> merge_from n other s = Ok s' -> changes s s'
| c_copy n other s' : ext_good n other -> copy_from n other s = Ok s' -> changes s s'
| c_decode d b u s' : bytes_ok b = true ->
    extension_loop (S d) (fun k b => merge_from_string d b (Clear (new k))) (length b) s [] (reader b) = Ok (s', u) -> changes s s'.

(** *** Storing *)

Lemma ext_good_mono n N s : (n <= N)%nat -> ext_good n s -> ext_good N s.
Proof.
  intros Hn [Hs Ht]. split; [done|]. intros x v Hin. eapply Forall_impl; [by apply Ht|].
  intros w. apply value_ok_mono. intros m. by apply message_ok_mono.
Qed.

Lemma good_put n x v s :
  ext_good n s -> x ∈ xs -> is_items v = ext_repeated x -> Forall (value_ok (level n) (value_codec x)) (ext_items v) ->
  ext_good n (put x v s).
Proof.
  intros [Hs Ht] Hx Hi Hv. split; [by apply (put_ok r e k xs EC)|].
  intros y w [Hy|(z & [= -> ->] & Ez & Hz)]%store_elem; [by apply Ht|].
  assert (z ∈ xs) as Hzx.
  { destruct Hz as [-> |Hz]; [done|]. apply list_elem_of_fmap in Hz as ([z' w'] & -> & Hz). by apply (v_kind _ _ _ s Hs) in Hz as [? _]. }
  by apply (ec_identity _ _ _ _ EC) in Ez as ->.
Qed.

Lemma good_items n x l s :
  ext_good n s -> x ∈ xs -> ext_repeated x = true -> Forall (value_ok (level n) (value_codec x)) l -> ext_good n (put x (XItems l) s).
Proof. intros. by apply good_put. Qed.

Lemma good_notify n s : ext_good n s -> ext_good n (_notify s).
Proof. intros [Hs Ht]. split; [by apply ext_notify_ok|done]. Qed.

Lemma good_one n x v s :
  ext_good n s -> x ∈ xs -> ext_repeated x = false -> value_ok (level n) (value_codec x) v ->
  ext_good n (_mark_present x (put x (XOne v) s)).
Proof.
  intros Hs Hx Hrep Hv. destruct (good_put n x (XOne v) s Hs Hx) as [H1 H2]; [done|by apply Forall_singleton|].
  split; [|done]. destruct Hs. by apply (put_mark_ok r e k xs EC).
Qed.

Lemma stored_items n x s : ext_good n s -> x ∈ xs -> Forall (value_ok (level n) (value_codec x)) (items_in s x).
Proof.
  intros [Hs Ht] Hx. unfold items_in. destruct (value_of s x) as [[v|l]|] eqn:Ev; [constructor| |constructor].
  destruct (ext_value_kind r e k xs EC s x _ Hs Hx Ev) as [Hin _]. exact (Ht x (XItems l) Hin).
Qed.

Lemma stored_one n x v s : ext_good n s -> x ∈ xs -> value_of s x = Some (XOne v) ->
  ext_repeated x = false /\ value_ok (level n) (value_codec x) v.
Proof.
  intros [Hs Ht] Hx Ev. destruct (ext_value_kind r e k xs EC s x _ Hs Hx Ev) as [Hin Hi]. split; [done|].
  exact (proj1 (Forall_singleton _ _) (Ht x (XOne v) Hin)).
Qed.

Lemma good_repeated n x s : ext_good n s -> x ∈ xs -> ext_repeated x = true -> ext_good n (_repeated x s).
Proof. intros Hs Hx Hrep. unfold _repeated. destruct (value_of s x); [done|]. apply good_items; try done. Qed.

Lemma good_clear_items n x s : ext_good n s -> x ∈ xs -> ext_repeated x = true -> ext_good n (clear_items x s).
Proof. intros Hs Hx Hrep. unfold clear_items. destruct (items_in s x); [done|]. by apply good_notify, good_items. Qed.

Lemma declared_codec x : x ∈ xs -> codec_ok (value_codec x).
Proof.
  intros [i Hi]%list_elem_of_lookup_1. apply (f_codec (ext_field x)). by eapply field_is_ok, (field_at r e k xs EC).
Qed.

Lemma check_declared x s : values_ok r e xs s -> an_object x -> _check x s = Ok tt -> x ∈ xs.
Proof.
  intros Hs Ho. unfold _check. destruct (negb _); [done|]. destruct (negb _); [done|].
  rewrite (v_registry _ _ _ s Hs), (v_extendee _ _ _ s Hs).
  destruct (by_number r e (ext_number x)) as [y|] eqn:Ey; [|done]. destruct (ext_id y =? ext_id x)%nat eqn:E; [|done].
  intros _. pose proof Ey as (_ & _ & En)%Hr. rewrite <- En in Ey. apply (ec_declared _ _ _ _ EC) in Ey.
  apply Nat.eqb_eq in E. by rewrite <- (Ho y Ey E).
Qed.

(** *** Copies and merges *)

Lemma copies n m : level n m -> returns (clone_message n (cls m) m) (fun m' => cls m' = cls m /\ level n m').
Proof. apply (clone_ok HS any_bytes n n m (le_n n)). Qed.

Lemma up n N c v : (n <= N)%nat -> value_ok (level n) c v -> value_ok (level N) c v.
Proof. intros Hn. apply value_ok_mono. intros m. by apply message_ok_mono. Qed.

Lemma typed_holds n c v : value_ok (level n) c v -> holds (level n) v.
Proof. destruct c, v; cbn; try done. by intros []. Qed.

(** [extend] by values that nest [n] deep *)
Lemma good_extend n N x vs s items :
  (n <= N)%nat -> ext_good N s -> x ∈ xs -> ext_repeated x = true -> Forall (holds (level n)) vs ->
  extend (clone_message n) (value_codec x) (items_in s x) vs = Ok items -> ext_good N (_notify (put x (XItems items) s)).
Proof.
  intros Hn Hs Hx Hrep Hvs He. apply good_notify, good_items; try done. unfold extend in He.
  apply bind_result_Ok in He as (vs' & Hp & [= <-]). apply Forall_app. split; [by apply stored_items|].
  pose proof (extend_typed (level n) (clone_message n) (copies n) (value_codec x) vs (declared_codec x Hx) Hvs) as Ht.
  unfold extend in Ht. rewrite Hp in Ht. cbn in Ht. eapply Forall_impl; [exact Ht|]. intros v. by apply up.
Qed.

Lemma good_merge_value n N x v s s' :
  (n <= N)%nat -> ext_good N s -> x ∈ xs -> ext_repeated x = false -> value_ok (level n) (value_codec x) v ->
  merge_value n x v s = Ok s' -> ext_good N s'.
Proof.
  intros Hn Hs Hx Hrep Hv Hm. unfold merge_value in Hm. apply bind_result_Ok in Hm as (w & Hw & [= <-]).
  apply good_one; try done. destruct (value_of s x) as [[[sc|m]|l]|] eqn:Ev;
    try (injection Hw as <-; by apply (up n)). destruct v as [sc|m']; [injection Hw as <-; by apply (up n)|].
  destruct (stored_one N x _ s Hs Hx Ev) as [_ Hm]. destruct (value_codec x) as [| | | | |c]; try done. cbn in Hm, Hv.
  destruct Hm as [Em Hm], Hv as [Em' Hv]. apply bind_result_Ok in Hw as (m2 & Hm2 & [= <-]).
  destruct (MergeFrom_ok HS any_bytes n N n m m') as (m3 & E3 & Ec & H3); [done|done|done|done|congruence|].
  rewrite Hm2 in E3. injection E3 as <-. cbn. split; [congruence|done].
Qed.

(** *** The operations *)

Lemma default_ok n x : message_extension x = true -> value_ok (level (S n)) (value_codec x) (default_of x).
Proof. unfold default_of, message_extension. destruct (value_codec x); try done. intros _. split; [done|apply new_ok]. Qed.

Lemma good_get n x v s s' : ext_good (S n) s -> an_object x -> get x s = Ok (v, s') -> ext_good (S n) s'.
Proof.
  intros Hs Ho Hg. unfold get in Hg. destruct (_check x s) as [[]|] eqn:Eck; [|done]. cbn [mbind result_bind] in Hg.
  pose proof (check_declared x s (proj1 Hs) Ho Eck) as Hx. destruct (value_of s x); [by injection Hg as _ <-|].
  destruct (ext_repeated x) eqn:Er; injection Hg as _ <-; [by apply good_repeated|].
  destruct (message_extension x) eqn:Em; [|done]. apply good_put; [done..|]. by apply Forall_singleton, default_ok.
Qed.

Lemma good_set n N x input s s' :
  (n <= N)%nat -> ext_good N s -> an_object x -> input_ok n input -> set n x input s = Ok s' -> ext_good N s'.
Proof.
  intros Hn Hs Ho Hi Hset. unfold set in Hset. destruct (_check x s) as [[]|] eqn:Eck; [|done]. cbn [mbind result_bind] in Hset.
  pose proof (check_declared x s (proj1 Hs) Ho Eck) as Hx. pose proof (declared_codec x Hx) as Hc.
  destruct (ext_repeated x) eqn:Er.
  - destruct (iterate input) as [vs|] eqn:Ei; [|done].
    assert (Forall (holds (level n)) vs) as Hvs.
    { destruct input; try done; injection Ei as <-; [done|]. apply Forall_fmap, Forall_true. done. }
    pose proof (extend_typed (level n) (clone_message n) (copies n) (value_codec x) vs Hc Hvs) as Ht. unfold extend in Ht.
    destruct (traverse _ vs) as [vs'|]; [|done]. cbn in Ht, Hset. injection Hset as <-.
    apply good_notify, good_items; try done. eapply Forall_impl; [exact Ht|]. intros v. by apply up.
  - destruct input as [|v| | |]; try done.
    pose proof (MessageOps.prepare_typed (level n) (clone_message n) (copies n) (value_codec x) v Hc Hi) as Ht.
    destruct (_prepare _ _ v) as [w|]; [|done]. cbn in Ht, Hset. injection Hset as <-. apply good_one; try done. by apply (up n).
Qed.

Lemma good_drop n x p s :
  ext_good n s -> p ⊆ _present s ∖ {[ext_id x]} -> ext_good n (set_present p (set_values (drop_value (_values s) x) s)).
Proof.
  intros [Hs Ht] Hp. split; [split; cbn; try apply Hs|].
  - apply drop_ids, Hs.
  - intros y v Hin%drop_elem. by apply (v_kind _ _ _ s Hs).
  - intros y Hy Hyp. apply Hp in Hyp. apply elem_of_difference in Hyp as [Hyp Hne].
    destruct (v_present _ _ _ s Hs y Hy Hyp) as [Hrep Hv]. split; [done|]. unfold value_of. cbn. rewrite lookup_drop by apply Hs.
    destruct (ext_id x =? ext_id y)%nat eqn:E; [|done]. apply Nat.eqb_eq in E. set_solver.
  - intros y v Hin%drop_elem. by apply Ht.
Qed.

Lemma good_clear n x s s' : ext_good n s -> an_object x -> clear x s = Ok s' -> ext_good n s'.
Proof.
  intros Hs Ho Hc. unfold clear in Hc. destruct (_check x s) as [[]|] eqn:Eck; [|done]. cbn [mbind result_bind] in Hc.
  pose proof (check_declared x s (proj1 Hs) Ho Eck) as Hx.
  destruct (ext_repeated x) eqn:Er; [injection Hc as <-; by apply good_clear_items|].
  assert (ext_good n (set_present (_present s ∖ {[ext_id x]}) (set_values (drop_value (_values s) x) s))) as Hd
    by (by apply good_drop).
  injection Hc as <-. destruct (bool_decide _); [by apply good_notify|done].
Qed.

Lemma set_present_items p x s : set_present p (clear_items x s) = clear_items x (set_present p s).
Proof. unfold clear_items, items_in, value_of. cbn. by destruct (lookup_value (_values s) x) as [[v|[|v l]]|]. Qed.

Lemma good_clear_all n s : ext_good n s -> ext_good n (clear_all s).
Proof.
  intros Hs. unfold clear_all.
  assert (forall (l : list (Extension * ext_value)) s, (forall x v, (x, v) ∈ l -> x ∈ xs) -> ext_good n (set_present ∅ s) ->
    ext_good n (set_present ∅ (foldl (fun s '(x, _) => if ext_repeated x then clear_items x s
      else set_values (drop_value (_values s) x) s) s l))) as Hl.
  { induction l as [|[x v] l IH]; intros s1 Hin H1; [done|]. cbn [foldl]. apply IH.
    - intros y w Hy. apply (Hin y w). by right.
    - assert (x ∈ xs) as Hx by exact (Hin x v ltac:(left)). destruct (ext_repeated x) eqn:Er.
      + rewrite set_present_items. by apply good_clear_items.
      + exact (good_drop n x ∅ (set_present ∅ s1) H1 (empty_subseteq _)). }
  apply Hl; [intros x v Hin; by apply (v_kind _ _ _ s (proj1 Hs) x v)|]. destruct Hs as [Hs Ht]. split; [|done].
  by destruct Hs.
Qed.

Lemma good_child n N x m m' s :
  (n <= N)%nat -> ext_good N s -> x ∈ xs -> value_of s x = Some (XOne (MessageV m)) ->
  value_ok (level n) (value_codec x) (MessageV m') -> ext_good N (child_changed x m' s) /\ ext_good N (bound_changed x m' s).
Proof.
  intros Hn Hs Hx Hv Hm%(up n N); [|done]. destruct (stored_one N x _ s Hs Hx Hv) as [Hrep _].
  split; [|by apply good_one]. apply good_put; [done|done|done|by apply Forall_singleton].
Qed.

Lemma good_content n N x l l' s :
  (n <= N)%nat -> ext_good N s -> x ∈ xs -> value_of s x = Some (XItems l) ->
  Forall (value_ok (level n) (value_codec x)) l' -> ext_good N (put x (XItems l') s).
Proof.
  intros Hn Hs Hx Hv Hl. destruct (ext_value_kind r e k xs EC s x _ (proj1 Hs) Hx Hv) as [_ Hi].
  apply good_items; [done|done|done|]. eapply Forall_impl; [exact Hl|]. intros w. by apply up.
Qed.

Lemma good_merge n N other s s' :
  (n <= N)%nat -> ext_good n other -> ext_good N s -> merge_from n other s = Ok s' -> ext_good N s'.
Proof.
  intros Hn Ho Hs Hm. unfold merge_from in Hm. destruct (negb _); [done|].
  destruct (fold_result (merge_extension n other) (_values other) s) as [s1|] eqn:Ef; [|done]. injection Hm as <-.
  assert (forall l s s', (forall x v, (x, v) ∈ l -> (x, v) ∈ _values other) -> ext_good N s ->
    fold_result (merge_extension n other) l s = Ok s' -> ext_good N s') as Hl.
  { clear s s1 Hs Ef. induction l as [|[x v] l IH]; intros s s' Hin Hs Hf; [by injection Hf as <-|].
    cbn [fold_result] in Hf. apply bind_result_Ok in Hf as (s1 & H1 & Hf).
    apply (IH s1 s'); [intros y w Hy; apply Hin; by right| |exact Hf]. clear IH Hf.
    pose proof (Hin x v ltac:(left)) as Hxv. destruct (v_kind _ _ _ other (proj1 Ho) x v Hxv) as [Hx Hi].
    pose proof (proj2 Ho x v Hxv) as Hv. unfold merge_extension in H1. destruct v as [v|vs]; cbn [is_items ext_items] in *.
    - destruct (bool_decide _); [|by injection H1 as <-]. apply bind_result_Ok in H1 as (w & Hw & H1).
      pose proof (proj1 (Forall_singleton _ _) Hv) as Hv1.
      destruct (copy_value_ok (level n) (clone_message n) (copies n) (value_codec x) v Hv1) as (w' & Hw' & Hok).
      rewrite Hw in Hw'. injection Hw' as <-. by eapply good_merge_value.
    - pose proof (good_repeated N x s Hs Hx (eq_sym Hi)) as Hrep. destruct vs as [|v vs]; [by injection H1 as <-|].
      apply bind_result_Ok in H1 as (items & He & [= <-]).
      eapply (good_extend n N x (v :: vs) (_repeated x s)); try done.
      eapply Forall_impl; [exact Hv|]. intros w. apply typed_holds. }
  by apply (Hl _ _ _ (fun x v Hin => Hin) Hs Ef).
Qed.

Lemma good_copy n N other s s' :
  (n <= N)%nat -> ext_good n other -> ext_good N s -> copy_from n other s = Ok s' -> ext_good N s'.
Proof.
  intros Hn Ho Hs Hc. unfold copy_from in Hc. destruct (negb _); [done|]. by eapply good_merge, Hc; [| |apply good_clear_all].
Qed.

(** *** Decoding *)

Section Decode.
Context (d N : nat) (HN : (S d <= N)%nat).

Abbreviation from := (fun k b => merge_from_string d b (Clear (new k))).

Lemma from_ok c b : bytes_ok b = true -> returns_or_raises (from c b) (fun m => cls m = c /\ level (S d) m).
Proof.
  intros Hb. cbv beta. rewrite Clear_new. eapply ror_impl; [apply (merge_from_string_ok HS d (S d)); [done|lia|apply new_message_ok]|].
  intros m [? ?]. by split.
Qed.

Lemma good_append x v s s' :
  ext_good N s -> x ∈ xs -> ext_repeated x = true -> holds (level (S d)) v -> append_value (S d) x v s = Ok s' -> ext_good N s'.
Proof.
  intros Hs Hx Hrep Hv Ha. unfold append_value in Ha. apply bind_result_Ok in Ha as (items & He & [= <-]).
  by eapply (good_extend (S d) N x [v]); try done; apply Forall_singleton.
Qed.

Lemma good_packed x vs : forall s raws s' raws',
  ext_good N s -> x ∈ xs -> ext_repeated x = true ->
  fold_result (packed_extension (S d) x) vs (s, raws) = Ok (s', raws') -> ext_good N s'.
Proof.
  induction vs as [|v vs IH]; intros s raws s' raws' Hs Hx Hrep Hf; [by injection Hf as <-|].
  cbn [fold_result] in Hf. apply bind_result_Ok in Hf as ([s1 raws1] & H1 & Hf). apply (IH _ _ _ _) in Hf; try done.
  unfold packed_extension in H1. destruct (closed_unknown _ _).
  - apply bind_result_Ok in H1 as (w & _ & (w' & _ & [= <- _])%bind_result_Ok). done.
  - apply bind_result_Ok in H1 as (s2 & H2 & [= <- _]). by apply (good_append x (Scalar v) s).
Qed.

Lemma good_try x w start s rd s' raws rd' :
  ext_good N s -> x ∈ xs -> good rd -> try_decode (S d) from x w start s rd = Ok (Some (s', raws, rd')) ->
  ext_good N s' /\ good rd'.
Proof.
  intros Hs Hx Hrd Ht. pose proof (declared_codec x Hx) as Hc. unfold try_decode in Ht.
  rewrite (check_ok r e Hr k xs EC x s (proj1 Hs) Hx) in Ht. cbn [mbind result_bind] in Ht.
  destruct (ext_repeated x && packable_of (value_codec x) && (w =? WIRE_LENGTH_DELIMITED)) eqn:Epk.
  { apply andb_true_iff in Epk as [[Hrep _]%andb_true_iff _].
    destruct (lift_read _ rd) as [[vs rd2]|err] eqn:El; cbn [mbind result_bind] in Ht; [|done].
    destruct (fold_result _ _ _) as [[s1 raws1]|err] eqn:Ef; [|done]. injection Ht as <- _ <-. split.
    - eapply good_packed, Ef; try done. by apply good_repeated.
    - pose proof (read_scalar_steady (value_codec x) Hc). eapply good_advanced, lift_read_keeps, El; [done| |apply Hrd].
      by apply read_packed_steady. }
  destruct (negb _); [done|]. pose proof (read_val_ok (level (S d)) from from_ok (value_codec x) rd Hc Hrd) as Hv.
  destruct (read_val from (value_codec x) rd) as [[v rd2]|err]; cbn [mbind result_bind] in Ht, Hv; [|done].
  destruct Hv as [Ha Hv]. pose proof (good_advanced _ _ Hrd Ha) as Hrd2.
  destruct (closed_unknown (value_codec x) v) eqn:Ecl.
  { destruct (raw_since start rd2); [|done]. by injection Ht as <- _ <-. }
  destruct Hv as [?|Hv]; [done|]. destruct (ext_repeated x) eqn:Hrep.
  - destruct (append_value _ _ _ _) as [s1|] eqn:Eap; [|done]. injection Ht as <- _ <-. split; [|done].
    eapply good_append, Eap; [by apply good_repeated|done|done|by eapply typed_holds].
  - destruct (copy_value_ok (level (S d)) (clone_message (S d)) (copies (S d)) (value_codec x) v Hv) as (w' & Hw' & Hok).
    rewrite Hw' in Ht. cbn [mbind result_bind] in Ht. destruct (merge_value _ _ _ _) as [s1|] eqn:Em; [|done].
    injection Ht as <- _ <-. split; [|done]. by eapply (good_merge_value (S d) N x w').
Qed.

Lemma ext_good_loop n : forall s u rd s' u',
  ext_good N s -> good rd -> extension_loop (S d) from n s u rd = Ok (s', u') -> ext_good N s'.
Proof.
  induction n as [|n IH]; intros s u rd s' u' Hs Hrd Hl; cbn [extension_loop] in Hl;
    (destruct (BinaryReader.eof rd); [by injection Hl as <- _|]); [done|].
  destruct (extension_step _ _ _ _ _) as [[[s1 u1] rd1]|] eqn:Est; [|done]. cbn [mbind result_bind] in Hl.
  unfold extension_step in Est. destruct (lift_read BinaryReader.read_tag rd) as [[[[num w] start] rd2]|] eqn:Et; [|done].
  cbn [lift mbind result_bind] in Est.
  assert (good rd2) as Hrd2 by (eapply good_advanced, lift_read_keeps, Et; [done|apply _|apply Hrd]).
  assert (forall o, ('(raw, rd') ← lift (lift_read (BinaryReader.skip_field num w start) rd2); Ok (s, u ++ [raw], rd')) = Ok o ->
    ext_good N o.1.1 /\ good o.2) as Hskip.
  { intros o Ho. destruct (lift_read (BinaryReader.skip_field _ _ _) rd2) as [[raw rd3]|] eqn:Esk; [|done].
    injection Ho as <-. split; [done|]. eapply good_advanced, lift_read_keeps, Esk; [done|apply _|apply Hrd2]. }
  assert (ext_good N s1 /\ good rd1) as [Hs1 Hrd1]; [|by eapply (IH s1 u1 rd1)].
  rewrite (v_registry _ _ _ s (proj1 Hs)), (v_extendee _ _ _ s (proj1 Hs)) in Est.
  destruct (by_number r e num) as [x|] eqn:Ex; [|apply (Hskip _ Est)].
  destruct (try_decode _ _ _ _ _ _ _) as [[[[s2 raws] rd3]|]|] eqn:Ed; [|apply (Hskip _ Est)|done].
  injection Est as <- _ <-. eapply good_try, Ed; [done| |done].
  pose proof Ex as (_ & _ & <-)%Hr. by apply (ec_declared _ _ _ _ EC).
Qed.

End Decode.

(** *** Every state *)

Lemma changes_good s s' : (exists n, ext_good n s) -> changes s s' -> exists n, ext_good n s'.
Proof.
  intros [N Hs] Hc. assert (forall n, ext_good (max N n) s) as Hup by (intros n; eapply ext_good_mono, Hs; lia).
  destruct Hc as [x v s' Ho Hg|n x input s' Ho Hi Hg|n x m m' Hx Hv Hm|n x m m' Hx Hv Hm|n x l l' Hx Hv Hl|n x l l' Hx Hv Hl|n x l v s' Hx Hv Hh Hg|x l Hx Hv|x s' Ho Hg| |n other s' Ho Hg|n other s' Ho Hg|d b u s' Hb Hg].
  - exists (S N). eapply good_get, Hg; [|done]. eapply ext_good_mono, Hs. lia.
  - exists (max N n). eapply good_set, Hg; try done. lia.
  - exists (max N n). eapply (good_child n (max N n)); try done. lia.
  - exists (max N n). eapply (good_child n (max N n)); try done. lia.
  - exists (max N n). apply good_notify. eapply (good_content n (max N n)); try done. lia.
  - exists (max N n). eapply (good_content n (max N n)); try done. lia.
  - destruct (ext_value_kind r e k xs EC s x _ (proj1 Hs) Hx Hv) as [_ Hi]. exists (max N n).
    unfold append_value in Hg. apply bind_result_Ok in Hg as (items & He & [= <-]).
    eapply (good_extend n (max N n) x [v]); try done; [lia|by apply Forall_singleton].
  - destruct (ext_value_kind r e k xs EC s x _ (proj1 Hs) Hx Hv) as [_ Hi]. exists N. by apply good_clear_items.
  - exists N. by eapply good_clear.
  - exists N. by apply good_clear_all.
  - exists (max N n). eapply good_merge, Hg; try done. lia.
  - exists (max N n). eapply good_copy, Hg; try done. lia.
  - exists (max N (S d)). eapply ext_good_loop, Hg; [lia|done|]. by apply good_start.
Qed.

(** *** Values that [get] made *)

Abbreviation untouched := (untouched xs True).

Lemma untouched_notify s : untouched s -> untouched (_notify s).
Proof. done. Qed.

Lemma untouched_repeated x s : untouched s -> untouched (_repeated x s).
Proof. intros Hs. unfold _repeated. destruct (value_of s x); [done|by apply untouched_items]. Qed.

Lemma untouched_clear_items x s : untouched s -> untouched (clear_items x s).
Proof. intros Hs. unfold clear_items. destruct (items_in s x); [done|by apply untouched_items]. Qed.

Lemma untouched_append n x v s s' : untouched s -> append_value n x v s = Ok s' -> untouched s'.
Proof. intros Hs (items & _ & [= <-])%bind_result_Ok. by apply untouched_items. Qed.

Lemma untouched_merge_value n x v s s' : untouched s -> merge_value n x v s = Ok s' -> untouched s'.
Proof. intros Hs (w & _ & [= <-])%bind_result_Ok. by apply untouched_mark. Qed.

Lemma untouched_fold {A} (f : ExtensionValues -> A -> result message_error ExtensionValues) l : forall s s',
  (forall s s' a, untouched s -> f s a = Ok s' -> untouched s') -> untouched s -> fold_result f l s = Ok s' -> untouched s'.
Proof.
  induction l as [|a l IH]; intros s s' Hf Hs Hl; [by injection Hl as <-|]. cbn [fold_result] in Hl.
  apply bind_result_Ok in Hl as (s1 & H1 & Hl). by eapply (IH s1); [|eapply Hf|].
Qed.

Lemma untouched_merge n other s s' : untouched s -> merge_from n other s = Ok s' -> untouched s'.
Proof.
  intros Hs Hm. unfold merge_from in Hm. destruct (negb _); [done|].
  destruct (fold_result _ _ s) as [s1|] eqn:Ef; [|done]. injection Hm as <-. eapply untouched_fold, Ef; [|done].
  clear s s1 Hs Ef. intros s s' [x [v|l]] Hs; cbn [merge_extension].
  - destruct (bool_decide _); [|by intros [= <-]]. intros (w & _ & Hm)%bind_result_Ok. by eapply untouched_merge_value.
  - pose proof (untouched_repeated x s Hs) as Hr'. destruct l as [|v l]; [by intros [= <-]|].
    intros (items & _ & [= <-])%bind_result_Ok. by apply untouched_notify, untouched_items.
Qed.

Lemma lookup_after_clear (l : list (Extension * ext_value)) : forall s y v, NoDup (ids (_values s)) ->
  let s' := foldl (fun s '(x, _) => if ext_repeated x then clear_items x s else set_values (drop_value (_values s) x) s) s l in
  value_of s' y = Some (XOne v) -> value_of s y = Some (XOne v) /\ forall x w, (x, w) ∈ l -> ext_repeated x = false -> ext_id x <> ext_id y.
Proof.
  induction l as [|[x w] l IH]; intros s y v Hnd; cbn [foldl]; [split; [done|]; by intros x w ?%not_elem_of_nil|].
  cbv zeta. intros Hv. destruct (ext_repeated x) eqn:Er.
  - destruct (IH (clear_items x s) y v) as [H1 H2]; [|exact Hv|].
    + unfold clear_items. destruct (items_in s x) as [|v0 vs] eqn:Ei; [done|]. cbn. rewrite ids_store.
      rewrite bool_decide_eq_true_2; [done|]. unfold items_in in Ei. destruct (value_of s x) as [u|] eqn:Eu; [|done].
      apply lookup_value_elem in Eu as (z & Ez & Hz). rewrite <- Ez. unfold ids. apply list_elem_of_fmap. by exists (z, u).
    + split.
      * unfold clear_items in H1. destruct (items_in s x); [done|]. revert H1. unfold value_of. cbn. rewrite lookup_store.
        by destruct (_ =? _)%nat.
      * intros z u [[= -> ->]|Hz]%elem_of_cons; [congruence|by apply (H2 z u)].
  - destruct (IH (set_values (drop_value (_values s) x) s) y v) as [H1 H2]; [by apply drop_ids|exact Hv|].
    unfold value_of in H1. cbn in H1. rewrite lookup_drop in H1 by done. destruct (ext_id x =? ext_id y)%nat eqn:E; [done|].
    split; [done|]. intros z u [[= -> ->]|Hz]%elem_of_cons; [intros _; by apply Nat.eqb_neq|by apply (H2 z u)].
Qed.

Lemma untouched_clear_all s : values_ok r e xs s -> untouched (clear_all s).
Proof.
  intros Hs y v Hy Hv. exfalso. unfold clear_all, value_of in Hv. cbn [_values set_present] in Hv.
  destruct (lookup_after_clear (_values s) s y v (v_ids _ _ _ s Hs) Hv) as [H1 H2].
  destruct (ext_value_kind r e k xs EC s y _ Hs Hy H1) as [Hin Hi]. by apply (H2 y (XOne v)).
Qed.

Lemma untouched_step d s u rd s' u' rd' :
  untouched s ->
  extension_step (S d) (fun k b => merge_from_string d b (Clear (new k))) s u rd = Ok (s', u', rd') -> untouched s'.
Proof.
  intros Hs. unfold extension_step. destruct (lift_read _ rd) as [[[[n w] start] rd1]|]; [|done]. cbn [lift mbind result_bind].
  assert (forall o, ('(raw, rd') ← lift (lift_read (BinaryReader.skip_field n w start) rd1); Ok (s, u ++ [raw], rd')) = Ok o ->
    untouched o.1.1) as Hskip.
  { intros o. destruct (lift_read _ rd1) as [[raw rd2]|]; [|done]. by intros [= <-]. }
  destruct (by_number _ _ _) as [x|]; [|intros Ho; exact (Hskip _ Ho)].
  destruct (try_decode _ _ _ _ _ _ _) as [[[[s2 raws] rd3]|]|] eqn:Ed; [|intros Ho; exact (Hskip _ Ho)|done].
  clear Hskip. intros [= <- _ _]. unfold try_decode in Ed. destruct (_check x s); [|done]. cbn [mbind result_bind] in Ed.
  pose proof (untouched_repeated x s Hs) as Hrep.
  destruct (_ && _ && _).
  { destruct (lift_read _ rd1) as [[vs rd2]|]; cbn [mbind result_bind] in Ed; [|done].
    destruct (fold_result _ vs _) as [[s3 raws']|] eqn:Ef; cbn [mbind result_bind] in Ed; [|done]. injection Ed as <- _ _.
    assert (forall l a b, untouched a.1 -> fold_result (packed_extension (S d) x) l a = Ok b -> untouched b.1) as Hl.
    { intros l. induction l as [|v0 l IH]; intros [s0 us] b Ha Hf; [by injection Hf as <-|]. cbn [fold_result] in Hf.
      apply bind_result_Ok in Hf as (st & Hc & Hf). apply (IH st b); [|done]. unfold packed_extension in Hc.
      destruct (closed_unknown _ _); [by apply bind_result_Ok in Hc as (? & _ & (? & _ & [= <-])%bind_result_Ok)|].
      apply bind_result_Ok in Hc as (s1 & Ha1 & [= <-]). exact (untouched_append _ _ _ _ _ Ha Ha1). }
    exact (Hl vs (_repeated x s, []) (s3, raws') Hrep Ef). }
  destruct (negb _); [done|]. destruct (read_val _ _ rd1) as [[v rd2]|]; cbn [mbind result_bind] in Ed; [|done].
  destruct (closed_unknown _ v); [destruct (raw_since _ _); cbn [mbind result_bind] in Ed; [by injection Ed as <- _ _|done]|].
  destruct (ext_repeated x).
  - destruct (append_value _ _ _ _) as [s3|] eqn:Ea; cbn [mbind result_bind] in Ed; [|done]. injection Ed as <- _ _. exact (untouched_append _ _ _ _ _ Hrep Ea).
  - destruct (copy_value _ _ v) as [v'|]; cbn [mbind result_bind] in Ed; [|done].
    destruct (merge_value _ _ _ _) as [s3|] eqn:Ea; cbn [mbind result_bind] in Ed; [|done]. injection Ed as <- _ _. exact (untouched_merge_value _ _ _ _ _ Hs Ea).
Qed.

Lemma untouched_loop d n : forall s u rd s' u',
  untouched s -> extension_loop (S d) (fun k b => merge_from_string d b (Clear (new k))) n s u rd = Ok (s', u') -> untouched s'.
Proof.
  induction n as [|n IH]; intros s u rd s' u' Hs; cbn [extension_loop];
    (destruct (BinaryReader.eof rd); [by intros [= <- _]|]); [done|].
  destruct (extension_step _ _ _ _ _) as [[[s1 u1] rd1]|] eqn:E; [|done]. cbn [mbind result_bind]. apply IH.
  by eapply untouched_step.
Qed.

(** Only [MergeFromString] into the message of an absent extension leaves a value that
    is neither present nor as [get] made it. *)
Lemma changes_untouched s s' :
  values_ok r e xs s -> untouched s -> changes s s' ->
  untouched s' \/ exists x m', ext_id x ∉ _present s /\ s' = child_changed x m' s.
Proof.
  intros Hok Hs Hc.
  destruct Hc as [x v s' Ho Hg|n x input s' Ho Hi Hg|n x m m' Hx Hv Hm|n x m m' Hx Hv Hm|n x l l' Hx Hv Hl|n x l l' Hx Hv Hl|n x l v s' Hx Hv Hh Hg|x l Hx Hv|x s' Ho Hg| |n other s' Ho Hg|n other s' Ho Hg|d b u s' Hb Hg].
  - left. unfold get in Hg. destruct (_check x s) as [[]|] eqn:Eck; [|done]. cbn [mbind result_bind] in Hg.
    pose proof (check_declared x s Hok Ho Eck) as Hx. destruct (value_of s x); [by injection Hg as _ <-|].
    destruct (ext_repeated x); injection Hg as _ <-; [by apply untouched_repeated|]. destruct (message_extension x); [|done].
    intros y w Hy. unfold value_of, put. cbn. rewrite lookup_store. destruct (ext_id x =? ext_id y)%nat eqn:E; [|by apply Hs].
    intros [= <-]. right. split; [done|]. apply Nat.eqb_eq in E. by rewrite (ec_identity _ _ _ _ EC x y Hx Hy E).
  - left. unfold set in Hg. destruct (_check x s); [|done]. cbn [mbind result_bind] in Hg. destruct (ext_repeated x).
    + destruct (iterate input); [|done]. destruct (traverse _ _); [|done]. injection Hg as <-. by apply untouched_notify, untouched_items.
    + destruct input; try done. destruct (_prepare _ _ _); [|done]. injection Hg as <-. by apply untouched_mark.
  - left. by apply untouched_mark.
  - destruct (decide (ext_id x ∈ _present s)) as [Hp|Hp]; [left|right; by exists x, m'].
    intros y w Hy. unfold child_changed, value_of, put. cbn. rewrite lookup_store.
    destruct (ext_id x =? ext_id y)%nat eqn:E; [|by apply Hs]. apply Nat.eqb_eq in E. intros _. left. by rewrite <- E.
  - left. by apply untouched_notify, untouched_items.
  - left. by apply untouched_items.
  - left. by eapply untouched_append.
  - left. by apply untouched_clear_items.
  - left. unfold clear in Hg. destruct (_check x s); [|done]. cbn [mbind result_bind] in Hg.
    destruct (ext_repeated x); [injection Hg as <-; by apply untouched_clear_items|].
    assert (untouched (set_present (_present s ∖ {[ext_id x]}) (set_values (drop_value (_values s) x) s))) as Hd.
    { intros y w Hy. unfold value_of. cbn. rewrite lookup_drop by apply Hok. destruct (ext_id x =? ext_id y)%nat eqn:E; [done|].
      apply Nat.eqb_neq in E. intros Hw. destruct (Hs y w Hy Hw) as [?|?]; [left; set_solver|by right]. }
    injection Hg as <-. by destruct (bool_decide _).
  - left. by apply untouched_clear_all.
  - left. by eapply untouched_merge.
  - left. unfold copy_from in Hg. destruct (negb _); [done|]. by eapply untouched_merge, Hg; apply untouched_clear_all.
  - left. by eapply untouched_loop.
Qed.

End Steps.

(** ** An example registry *)

Definition ex_extendee : pystr := u "p.M".

Definition ex_declare (i : nat) (name : pystr) (n : Z) (c : codec) (rep : bool) : Extension :=
  mkExtension i 0 name ex_extendee n c None rep rep true.

Definition ex_counts : Extension := ex_declare 1 (u "p.counts") 102 (CInt INT32) true.
Definition ex_child : Extension := ex_declare 2 (u "p.child") 101 (CMessage 0) false.
Definition ex_note : Extension := ex_declare 3 (u "p.note") 100 CString false.
Definition ex_extensions : list Extension := [ex_counts; ex_child; ex_note].

(** The class 0 has one field, the class 1 the three declarations. *)
Definition ext_schema : Schema := {|
  FIELDS := fun c => match c with
    | 1%nat => ext_field <$> ex_extensions
    | _ => [mkField (u "id") (u "id") 1 CString false false false false None None None true false false None]
    end;
  MAX_NESTING_DEPTH := fun _ => 100;
  PY_TO_PB2 := fun _ => [];
  long_bits := 64;
  float_of_int := fun _ => Raise OverflowError
|}.
#[local] Existing Instance ext_schema.

Lemma ext_schema_ok : schema_ok ext_schema.
Proof.
  destruct builtin_codecs_ok as (H1 & H2 & _). split; cbn.
  - intros [|[|c]]; cbn; rewrite ?Forall_cons; split_and!; try apply Forall_nil_2; split; cbn; try done; by intros kc [= <-].
  - intros [|[|c]]; apply (bool_decide_unpack _); by vm_compute.
  - lia.
Qed.

Definition run_registry : outcome ExtensionRegistry :=
  r ← add_extendee ex_extendee [(100, 200)] (new_registry 0);
  r ← register ex_counts r; r ← register ex_child r; r ← register ex_note r; Ok (freeze r).
Definition ex_registry : ExtensionRegistry := match run_registry with Ok r => r | Raise _ => new_registry 0 end.

Lemma ex_registry_reachable : registry_reachable ex_registry.
Proof.
  exists 0%nat. eapply rtc_l; [apply (b_extendee _ ex_extendee [(100, 200)]); reflexivity|].
  eapply rtc_l; [apply (b_register _ ex_counts); reflexivity|]. eapply rtc_l; [apply (b_register _ ex_child); reflexivity|].
  eapply rtc_l; [apply (b_register _ ex_note); reflexivity|]. eapply rtc_l; [apply b_freeze|]. apply rtc_refl.
Qed.

Lemma ex_class : extension_class ex_registry ex_extendee 1 ex_extensions.
Proof.
  split; [done| |].
  - intros x. unfold ex_extensions. rewrite !elem_of_cons. split.
    + intros [->|[->|[->|Hx]]]; [reflexivity..|by apply not_elem_of_nil in Hx].
    + unfold by_number. change (_by_number ex_registry) with
        [((ex_extendee, 102), ex_counts); ((ex_extendee, 101), ex_child); ((ex_extendee, 100), ex_note)].
      cbn [dict_get]. do 3 (case_decide; [intros [= <-]; auto|]). done.
  - intros x y Hx Hy. unfold ex_extensions in *. rewrite !elem_of_cons in Hx, Hy.
    destruct Hx as [->|[->|[->|Hx]]], Hy as [->|[->|[->|Hy]]]; try done; by apply not_elem_of_nil in Hx || apply not_elem_of_nil in Hy.
Qed.

(** ** Registries *)

(** C27: however a registry is built, its two indexes hold the same declarations, each
    under its own extendee, number and full name, of this registry, with a positive
    number in a range of its extendee, and packed only when it is repeated and its codec
    packable; a frozen registry does not change. *)
Theorem registry_consistent r :
  registry_reachable r ->
  (forall e n x, by_number r e n = Some x ->
     extendee x = e /\ ext_number x = n /\ by_name r (full_name x) = Some x /\ ext_registry x = registry_id r /\ 1 <= n /\
     (exists ranges, dict_get (_ranges r) e = Some ranges /\ in_ranges n ranges = true) /\
     (ext_packed x = true -> ext_repeated x = true /\ packable_of (value_codec x) = true)) /\
  (forall name x, by_name r name = Some x -> full_name x = name /\ by_number r (extendee x) (ext_number x) = Some x) /\
  (_frozen r = true -> forall r', rtc builds r r' -> r' = r).
Proof.
  intros Hr%reachable_registry_ok. split; [|split].
  - intros e n x ([] & <- & <-)%Hr. auto 10.
  - intros name x ([] & <-)%Hr. auto.
  - intros Hf r' Hb. induction Hb as [|r r1 r2 H1 _ IH]; [done|]. apply frozen_builds in H1 as ->; auto.
Qed.

Lemma registry_consistent_witness :
  by_number ex_registry ex_extendee 101 = Some ex_child /\ by_name ex_registry (u "p.child") = Some ex_child /\
  (forall r', rtc builds ex_registry r' -> r' = ex_registry).
Proof.
  destruct (registry_consistent ex_registry ex_registry_reachable) as (H1 & _ & H3).
  split; [reflexivity|]. split; [exact (proj1 (proj2 (proj2 (H1 ex_extendee 101 ex_child eq_refl))))|exact (H3 eq_refl)].
Defined.

(** ** The state *)

Definition ex_new : ExtensionValues := mkValues ex_registry ex_extendee [] ∅ 0.

Definition or_new (o : outcome ExtensionValues) : ExtensionValues := match o with Ok s => s | Raise _ => ex_new end.

Definition is_ok {A} (o : outcome A) : bool := match o with Ok _ => true | Raise _ => false end.
Lemma or_new_ok o : is_ok o = true -> o = Ok (or_new o).
Proof. by destruct o. Qed.

(** [set] a note, [get] the child, [set] the counts and the child. *)
Definition ex_values1 : ExtensionValues := or_new (set 1 ex_note (PValue (Scalar (StrV (u "hi")))) ex_new).
Definition ex_values2 : ExtensionValues := or_new ('(_, s) ← get ex_child ex_values1; Ok s).
Definition ex_values3 : ExtensionValues := or_new (set 1 ex_counts (PList [Scalar (IntV 5); Scalar (IntV (-1))]) ex_values2).
Definition ex_values : ExtensionValues := or_new (set 2 ex_child (PValue (MessageV (new 0))) ex_values3).

Lemma ex_in : ex_counts ∈ ex_extensions /\ ex_child ∈ ex_extensions /\ ex_note ∈ ex_extensions.
Proof. unfold ex_extensions. split_and!; repeat (left || right). Qed.

Lemma ex_object x : x ∈ ex_extensions -> an_object ex_extensions x.
Proof. intros Hx y Hy E. by apply (ec_identity _ _ _ _ ex_class). Qed.

Lemma ex_values2_reached : rtc (changes ex_registry ex_extendee ex_extensions) ex_new ex_values2.
Proof.
  destruct ex_in as (_ & H2 & H3). apply (rtc_l _ _ ex_values1); [|apply rtc_once].
  - apply (c_set _ _ _ _ 1 ex_note (PValue (Scalar (StrV (u "hi"))))); [by apply ex_object|exact I|].
    apply or_new_ok. vm_compute. reflexivity.
  - destruct (get ex_child ex_values1) as [[v s]|err] eqn:E; [|exfalso; by apply (f_equal is_ok) in E; vm_compute in E].
    apply (c_get _ _ _ _ ex_child v); [by apply ex_object|]. unfold ex_values2. by rewrite E.
Qed.

Lemma ex_values_reached : rtc (changes ex_registry ex_extendee ex_extensions) ex_new ex_values.
Proof.
  destruct ex_in as (H1 & H2 & _).
  apply (rtc_r _ ex_values3); [apply (rtc_r _ ex_values2); [exact ex_values2_reached|]|].
  - apply (c_set _ _ _ _ 1 ex_counts (PList [Scalar (IntV 5); Scalar (IntV (-1))])); [by apply ex_object|repeat constructor|].
    apply or_new_ok. vm_compute. reflexivity.
  - apply (c_set _ _ _ _ 2 ex_child (PValue (MessageV (new 0)))); [by apply ex_object|apply new_message_ok|].
    apply or_new_ok. vm_compute. reflexivity.
Qed.

Lemma reached_good `{Schema} r e k xs s :
  schema_ok _ -> registry_reachable r -> extension_class r e k xs -> rtc (changes r e xs) (mkValues r e [] ∅ 0) s ->
  exists n, ext_good r e xs n s.
Proof.
  intros HS Hr%reachable_registry_ok EC Hc.
  assert (exists n, ext_good r e xs n (mkValues r e [] ∅ 0)) as H0.
  { exists 0%nat. split; [exact (proj1 (empty_kept r e xs True))|]. intros x v Hin. by apply not_elem_of_nil in Hin. }
  induction Hc as [|s0 s1 s2 H1 _ IH]; [done|]. apply IH. by eapply changes_good.
Qed.

(** C19: whatever is done to the extension values of a message ([get], [set], [clear],
    [clear_all], changes of a stored message or container, merging, copying, decoding any
    bytes), their
    keys stay declarations of the extendee, once each, a repeated extension holds a
    container and a singular one a value, every value fits its codec and its message
    class, and a present extension is singular and has a value. *)
Theorem extension_values_typed `{Schema} r e k xs s :
  schema_ok _ -> registry_reachable r -> extension_class r e k xs ->
  rtc (changes r e xs) (mkValues r e [] ∅ 0) s ->
  _registry s = r /\ _extendee s = e /\ NoDup (ids (_values s)) /\
  (exists n, forall x v, (x, v) ∈ _values s -> x ∈ xs /\ is_items v = ext_repeated x /\
     Forall (value_ok (message_ok (fun _ _ => True) n) (value_codec x)) (ext_items v)) /\
  (forall x, x ∈ xs -> ext_id x ∈ _present s -> ext_repeated x = false /\ exists v, value_of s x = Some (XOne v)).
Proof.
  intros HS Hr EC Hc. destruct (reached_good r e k xs s HS Hr EC Hc) as (n & Hs & Ht).
  split; [apply Hs|]. split; [apply Hs|]. split; [apply Hs|]. split.
  - exists n. intros x v Hin. destruct (v_kind _ _ _ s Hs x v Hin). auto.
  - intros x Hx Hp. destruct (v_present _ _ _ s Hs x Hx Hp) as [Hrep Hv]. split; [done|].
    destruct (value_of s x) as [v|] eqn:Ev; [|done]. destruct (ext_value_kind r e k xs EC s x v Hs Hx Ev) as [_ Hi].
    rewrite Hrep in Hi. destruct v; [by eexists|done].
Qed.

Lemma extension_values_typed_witness :
  map (fun a => full_name a.1) (_values ex_values) = [u "p.note"; u "p.child"; u "p.counts"] /\
  NoDup (ids (_values ex_values)) /\ exists v, value_of ex_values ex_note = Some (XOne v).
Proof.
  destruct (extension_values_typed ex_registry ex_extendee 1 ex_extensions ex_values ext_schema_ok
    ex_registry_reachable ex_class ex_values_reached) as (_ & _ & H1 & _ & H2).
  split; [vm_compute; reflexivity|]. split; [exact H1|].
  refine (proj2 (H2 ex_note (proj2 (proj2 ex_in)) _)). apply (bool_decide_unpack _). vm_compute. exact I.
Defined.

(** ** Extensions and fields *)

(** A copy of a copy is that copy. *)
Lemma copies_stable `{Schema} (HS : schema_ok _) n m m' :
  message_ok (fun _ _ => True) n m -> clone_message n (cls m) m = Ok m' -> MergeFrom n (new (cls m)) m' = Ok m'.
Proof.
  intros Hm. unfold clone_message, CopyFrom. cbn [cls new]. rewrite Nat.eqb_refl, Clear_new. cbn [negb].
  rewrite (clone_is_canon HS (fun _ _ => True) n n m) by (lia || done). intros [= <-].
  by apply (clone_canon (fun _ _ => True)).
Qed.

(** C9: extensions are what fields with explicit presence would be.  For extension
    values and the message of the class whose fields are the declarations that holds the
    same values and unknown fields: [write_to] writes what the fields of that message
    write, in the same order and with the same errors.  When what is stored without being
    present is the default that [get] made, decoding any bytes ends in the values, or the
    error, that merging the bytes into that message ends in, and values of that kind.
    New values are of that kind, and every operation keeps them so, but [MergeFromString]
    straight into the message of an extension that is absent. *)
Theorem extensions_as_fields `{Schema} r e k xs s :
  schema_ok _ -> registry_reachable r -> extension_class r e k xs -> values_ok r e xs s ->
  (forall ser det unknown w,
     write_to ser s w =
     fold_result (fun w '(i, f) => write_slot ser det f (get_slot (as_message k xs s unknown) i) w) (sorted_fields k) w) /\
  (untouched xs True s -> forall d payload unknown, bytes_ok payload = true ->
     let from := fun k b => merge_from_string d b (Clear (new k)) in
     match extension_loop (S d) from (length payload) s unknown (reader payload),
           merge_loop from (S d) (length payload) (as_message k xs s unknown) (reader payload) with
     | Ok (s', unknown'), Ok m => m = as_message k xs s' unknown' /\ values_ok r e xs s' /\ untouched xs True s'
     | Raise (MessageE a), Raise b => a = b
     | _, _ => False
     end) /\
  untouched xs True (mkValues r e [] ∅ 0) /\
  (untouched xs True s -> forall s', changes r e xs s s' ->
     untouched xs True s' \/ exists x m, ext_id x ∉ _present s /\ s' = child_changed x m s).
Proof.
  intros HS Hr%reachable_registry_ok EC Hs. split; [|split; [|split]].
  - intros ser det unknown w. by apply (write_to_fields HS r e k xs EC).
  - intros Hset d payload unknown Hb. cbv zeta.
    refine (loop_simulates HS r e Hr k xs EC (fun k b => merge_from_string d b (Clear (new k))) (S d) True
      (message_ok (fun _ _ => True) (S d)) _ _ (length payload) s unknown (reader payload) (conj Hs Hset) (ready_start True payload (fun _ => Hb))).
    + intros _ c b. exact (from_ok HS d (S d) (le_n _) c b).
    + intros _ m m'. by apply (copies_stable HS).
  - by intros x v _.
  - intros Hset s' Hc. by apply (changes_untouched HS r e Hr k xs EC).
Qed.

Lemma ex_values_ok : values_ok ex_registry ex_extendee ex_extensions ex_values.
Proof. by destruct (reached_good _ _ _ _ _ ext_schema_ok ex_registry_reachable ex_class ex_values_reached) as (n & Hs & _). Qed.

Lemma ex_values2_ok : values_ok ex_registry ex_extendee ex_extensions ex_values2.
Proof. by destruct (reached_good _ _ _ _ _ ext_schema_ok ex_registry_reachable ex_class ex_values2_reached) as (n & Hs & _). Qed.

(** [get] makes a child, which is not present; then a child comes over the wire. *)
Lemma ex_values2_untouched : untouched ex_extensions True ex_values2.
Proof.
  intros x v Hx. unfold ex_extensions in Hx. rewrite !elem_of_cons in Hx.
  intros Hv. destruct Hx as [->|[->|[->|Hx]]].
  - apply (f_equal (fun o => match o with Some (XOne _) => true | _ => false end)) in Hv. vm_compute in Hv. discriminate Hv.
  - right. split; [done|]. revert Hv. vm_compute. by intros [= <-].
  - left. apply (bool_decide_unpack _). vm_compute. exact I.
  - by exfalso; exact (not_elem_of_nil _ Hx).
Qed.

Definition ex_child_bytes : bytes := [170; 6; 3; 10; 1; 65].

Definition ex_ext_bytes : bytes := [162; 6; 2; 104; 105; 170; 6; 0; 178; 6; 11; 5; 255; 255; 255; 255; 255; 255; 255; 255; 255; 1].

Lemma extensions_as_fields_witness :
  (write_to (serialize_to_string 2 true) ex_values [] = Ok ex_ext_bytes /\
   fold_result (fun w '(i, f) => write_slot (serialize_to_string 2 true) true f (get_slot (as_message 1 ex_extensions ex_values []) i) w)
     (sorted_fields 1) [] = Ok ex_ext_bytes) /\
  ext_id ex_child ∉ _present ex_values2 /\
  exists s', extension_loop 3 (fun k b => merge_from_string 2 b (Clear (new k))) 6 ex_values2 [] (reader ex_child_bytes) = Ok (s', []) /\
    merge_loop (fun k b => merge_from_string 2 b (Clear (new k))) 3 6 (as_message 1 ex_extensions ex_values2 []) (reader ex_child_bytes) =
      Ok (as_message 1 ex_extensions s' []).
Proof.
  destruct (extensions_as_fields ex_registry ex_extendee 1 ex_extensions ex_values ext_schema_ok
    ex_registry_reachable ex_class ex_values_ok) as (H1 & _).
  split; [split; [vm_compute; reflexivity|]; rewrite <- H1; vm_compute; reflexivity|].
  split; [apply (bool_decide_unpack _); vm_compute; exact I|].
  destruct (extensions_as_fields ex_registry ex_extendee 1 ex_extensions ex_values2 ext_schema_ok
    ex_registry_reachable ex_class ex_values2_ok) as (_ & H2 & _).
  specialize (H2 ex_values2_untouched 2%nat ex_child_bytes [] eq_refl). cbv zeta in H2.
  change (length ex_child_bytes) with 6%nat in H2.
  destruct (extension_loop 3 _ 6 ex_values2 [] (reader ex_child_bytes)) as [[s' u']|err] eqn:E;
    [|exfalso; apply (f_equal is_ok) in E; vm_compute in E; discriminate E].
  destruct (merge_loop _ 3 6 _ _) as [m|err]; [|destruct H2]. destruct H2 as [-> _].
  assert (u' = []) as ->.
  { apply (f_equal (fun o => match o with Ok (_, u) => u | Raise _ => [] end)) in E. vm_compute in E. by rewrite E. }
  exists s'. by split.
Defined.

Lemma ex_values_typed : typed_values ex_values (message_ok unknown_ok 1).
Proof.
  intros x v Hin. change (_values ex_values) with
    [(ex_note, XOne (Scalar (StrV (u "hi")))); (ex_child, XOne (MessageV (new 0)));
     (ex_counts, XItems [Scalar (IntV 5); Scalar (IntV (-1))])] in Hin.
  rewrite !elem_of_cons in Hin. destruct Hin as [[= -> ->]|[[= -> ->]|[[= -> ->]|Hin]]].
  - by repeat constructor.
  - apply Forall_singleton. split; [done|]. apply new_ok.
  - apply Forall_cons. split; [|apply Forall_singleton]; reflexivity.
  - by apply not_elem_of_nil in Hin.
Qed.

(** The value of a declaration, from its slot after a round trip. *)
Lemma canon_value_of `{Schema} r e k xs s s' d det x :
  extension_class r e k xs -> values_ok r e xs s -> x ∈ xs ->
  slot_of s' x = canon_slot (canon d det) det (ext_field x) (slot_of s x) ->
  let has s := if ext_repeated x then match items_in s x with [] => false | _ => true end else bool_decide (ext_id x ∈ _present s) in
  has s' = has s /\ (has s = true -> value_of s' x = canon_ext d det <$> value_of s x).
Proof.
  intros EC Hs Hx Em. cbv zeta. unfold canon_slot in Em. cbn [map_key_codec ext_field repeated] in Em.
  rewrite (items_as x) in Em. destruct (ext_repeated x) eqn:Er.
  - pose proof (f_equal items_of Em) as Ei. rewrite (items_as x) in Ei.
    destruct (items_in s x) as [|v vs] eqn:Es; cbn in Ei; rewrite Ei; [done|]. split; [done|]. intros _.
    apply (f_equal cell_of) in Em. unfold slot_of in Em. cbn [cell_of] in Em. unfold items_in in Es.
    destruct (value_of s x) as [[?|l]|]; try done. subst l.
    destruct (value_of s' x) as [[?|l]|]; try done. by injection Em as ->.
  - unfold _field_has_value in Em. cbn [map_field map_key_codec ext_field repeated has_presence] in Em. rewrite Er in Em.
    unfold slot_of in Em. cbn [orb is_present cell_of explicit_presence required] in Em.
    destruct (bool_decide (ext_id x ∈ _present s)) eqn:Ep; [|by injection Em as _ ->].
    apply bool_decide_eq_true in Ep. destruct (v_present _ _ _ s Hs x Hx Ep) as [_ Hv].
    destruct (value_of s x) as [v|] eqn:Ev; [|done]. destruct (ext_value_kind r e k xs EC s x v Hs Hx Ev) as [_ Hi].
    destruct v as [v|l]; [|by rewrite Er in Hi]. injection Em as Ec ->. split; [done|]. intros _.
    destruct (value_of s' x) as [[w|l]|]; try done. by injection Ec as ->.
Qed.

(** C13: serialized extensions are read back.  From what [write_to] wrote, decoding into
    new extension values leaves no unknown field and gives values with the same
    extensions present and, in each, the canonical form of what was written (a nested
    message as its own bytes are read back). *)
Theorem extensions_roundtrip `{Schema} r e k xs s d det b :
  schema_ok _ -> registry_reachable r -> extension_class r e k xs -> values_ok r e xs s ->
  typed_values s (message_ok unknown_ok d) -> write_to (serialize_to_string d det) s [] = Ok b ->
  exists s', extension_loop (S d) (fun k b => merge_from_string d b (Clear (new k))) (length b) (mkValues r e [] ∅ 0) []
      (reader b) = Ok (s', []) /\
    forall x, x ∈ xs -> has x s' = has x s /\ (has x s = Ok true -> value_of s' x = canon_ext d det <$> value_of s x).
Proof.
  intros HS Hr%reachable_registry_ok EC Hs Ht Hw.
  destruct (extensions_parse HS r e k xs s d det b Hr EC Hs Ht Hw) as (s' & Hl & Hs' & Em). exists s'. split; [done|].
  intros x Hx. destruct (list_elem_of_lookup_1 _ _ Hx) as [i Hi].
  apply (f_equal (fun m => get_slot m i)) in Em. rewrite (get_as k xs s' [] i x Hi) in Em.
  rewrite (canon_get unknown_ok (message_ok unknown_ok d) (canon d det) det _ i (ext_field x)), (get_as k xs s [] i x Hi) in Em;
    [|by apply (shape_ok r e k xs EC s Hs)|by apply (field_at r e k xs EC)].
  unfold has. rewrite !(check_ok r e Hr k xs EC) by done. cbn [mbind result_bind].
  destruct (canon_value_of r e k xs s s' d det x EC Hs Hx Em) as [E1 E2]. cbv zeta in *. rewrite E1.
  split; [done|]. intros [= E3]. by apply E2.
Qed.

Lemma extensions_roundtrip_witness :
  exists s', extension_loop 2 (fun k b => merge_from_string 1 b (Clear (new k))) 22 ex_new [] (reader ex_ext_bytes) = Ok (s', []) /\
    value_of s' ex_counts = Some (XItems [Scalar (IntV 5); Scalar (IntV (-1))]).
Proof.
  destruct (extensions_roundtrip ex_registry ex_extendee 1 ex_extensions ex_values 1 true ex_ext_bytes ext_schema_ok
    ex_registry_reachable ex_class ex_values_ok ex_values_typed) as (s' & Hl & Hx); [vm_compute; reflexivity|].
  exists s'. split; [exact Hl|]. destruct (Hx ex_counts (proj1 ex_in)) as [_ Hv]. rewrite Hv; reflexivity.
Defined.
