(* ===== verification/Submission.v ===== *)
(** * Submissions to the runtime

    [AsyncRuntime._submit_to_loop] of [src/nebius/aio/_runtime.py]: the life of one
    awaitable that is submitted to the event loop of the SDK.  The thread that submits,
    the threads that cancel the handle and the loop interleave; every block under
    [state_lock] is one section, a definition on the state.

    [future] is the public future, [created] the task on the loop; [task],
    [start_claimed], [started], [disposed] are the variables the closures share, and
    [work] says that the list [work] still holds the awaitable.  [runs] and [disposals]
    count how often the awaitable is awaited and disposed of, [cancels] how often
    [_cancel_task_once] cancels the task.

    The handle is cancelled at most once with an effect, so the thread that forwards
    the cancellation is a program counter of its own.  A caller has the handle when
    [submit] has returned; the admission lock keeps the runtime from cancelling it
    before.  Callbacks of the loop run one after another, in any order.

    The shutdown of the runtime cancels a task that has begun, whatever its handle is
    ([cancel_submissions], [_cancel_returning_task]), by [_cancel_task_once], and cancels
    the handles that are left as any caller does.  Which tasks it spares (protected ones)
    is left open.  Other code may cancel the task as often as it likes; [struck] says
    that somebody did, so a repeated cancellation leaves the state as it is and is no step
    of its own. *)
From stdpp Require Import relations.
From S2P Require Import Prelude.

Inductive ending : Type := Returned | Failed | TaskCancelled.
Inductive future_state : Type := Pending | FutureCancelled | Settled (e : ending).
(** [Ready]: before its first step. *)
Inductive task_state : Type := NoTask | Ready | Running | Ended (e : ending).

(** Where the submitting thread is: before [call_soon_threadsafe], after it was refused
    (before the section, before [future.cancel()], before [submit] disposes), at its end. *)
Inductive submitter : Type := Posting | Refused | Cancelling | Raising | SubmitReturned | SubmitRaised.

(** Where [forward_cancellation] is. *)
Inductive forwarder : Type := NotCalled | Forwarding | Disposing | Dispatching | Forwarded.

(** What the loop is in: nothing, [start_on_loop] (disposing, creating the task, running
    it eagerly, after a failure, binding it), [copy_outcome] (disposing, cancelling or
    setting the future). *)
Inductive callback : Type :=
| Idle
| StartDispose | Creating | Eager | StartFailed | FailDispose | FailPublish | Binding | CancelNow
| CopyDispose | CopyCancel | CopySet (e : ending).

Record submission : Type := mkSubmission {
  future : future_state;
  task : bool;
  start_claimed : bool;
  started : bool;
  disposed : bool;
  work : bool;
  created : task_state;
  (** [copy_outcome] is a callback of the task, and not called yet *)
  watched : bool;
  (** the task is in [_task_cancellation_requested] *)
  requested : bool;
  (** the task was cancelled, by the runtime or by somebody else *)
  struck : bool;
  runs : nat;
  disposals : nat;
  cancels : nat;
  (** [start_on_loop] is in the queue of the loop *)
  queued : bool;
  (** [_cancel_task_once] is in the queue of the loop *)
  delivered : bool;
  closed : bool;
  by_submit : submitter;
  by_cancel : forwarder;
  on_loop : callback
}.

#[export] Instance ending_eq_dec : EqDecision ending.
Proof. solve_decision. Defined.
#[export] Instance future_state_eq_dec : EqDecision future_state.
Proof. solve_decision. Defined.
#[export] Instance task_state_eq_dec : EqDecision task_state.
Proof. solve_decision. Defined.
#[export] Instance submitter_eq_dec : EqDecision submitter.
Proof. solve_decision. Defined.
#[export] Instance forwarder_eq_dec : EqDecision forwarder.
Proof. solve_decision. Defined.
#[export] Instance callback_eq_dec : EqDecision callback.
Proof. solve_decision. Defined.
#[export] Instance submission_eq_dec : EqDecision submission.
Proof. solve_decision. Defined.

Definition submitted : submission :=
  mkSubmission Pending false false false false true NoTask false false false 0 0 0 false false false Posting NotCalled Idle.

(** ** Updates *)

Definition set_future (x : future_state) (s : submission) : submission :=
  mkSubmission x (task s) (start_claimed s) (started s) (disposed s) (work s) (created s) (watched s) (requested s) (struck s)
    (runs s) (disposals s) (cancels s) (queued s) (delivered s) (closed s) (by_submit s) (by_cancel s) (on_loop s).
(** [task], [start_claimed], [started], [disposed], [work] *)
Definition set_shared (t c b d w : bool) (s : submission) : submission :=
  mkSubmission (future s) t c b d w (created s) (watched s) (requested s) (struck s)
    (runs s) (disposals s) (cancels s) (queued s) (delivered s) (closed s) (by_submit s) (by_cancel s) (on_loop s).
Definition set_created (x : task_state) (s : submission) : submission :=
  mkSubmission (future s) (task s) (start_claimed s) (started s) (disposed s) (work s) x (watched s) (requested s) (struck s)
    (runs s) (disposals s) (cancels s) (queued s) (delivered s) (closed s) (by_submit s) (by_cancel s) (on_loop s).
Definition set_watched (x : bool) (s : submission) : submission :=
  mkSubmission (future s) (task s) (start_claimed s) (started s) (disposed s) (work s) (created s) x (requested s) (struck s)
    (runs s) (disposals s) (cancels s) (queued s) (delivered s) (closed s) (by_submit s) (by_cancel s) (on_loop s).
Definition set_cancelled (r k : bool) (n : nat) (s : submission) : submission :=
  mkSubmission (future s) (task s) (start_claimed s) (started s) (disposed s) (work s) (created s) (watched s) r k
    (runs s) (disposals s) n (queued s) (delivered s) (closed s) (by_submit s) (by_cancel s) (on_loop s).
Definition count (n d : nat) (s : submission) : submission :=
  mkSubmission (future s) (task s) (start_claimed s) (started s) (disposed s) (work s) (created s) (watched s) (requested s) (struck s)
    n d (cancels s) (queued s) (delivered s) (closed s) (by_submit s) (by_cancel s) (on_loop s).
(** The callbacks in the queue of the loop, and whether it is closed. *)
Definition set_loop (q d c : bool) (s : submission) : submission :=
  mkSubmission (future s) (task s) (start_claimed s) (started s) (disposed s) (work s) (created s) (watched s) (requested s) (struck s)
    (runs s) (disposals s) (cancels s) q d c (by_submit s) (by_cancel s) (on_loop s).
(** The program counters. *)
Definition go (a : submitter) (b : forwarder) (c : callback) (s : submission) : submission :=
  mkSubmission (future s) (task s) (start_claimed s) (started s) (disposed s) (work s) (created s) (watched s) (requested s) (struck s)
    (runs s) (disposals s) (cancels s) (queued s) (delivered s) (closed s) a b c.

Definition submit_at (a : submitter) (s : submission) : submission := go a (by_cancel s) (on_loop s) s.
Definition forward_at (b : forwarder) (s : submission) : submission := go (by_submit s) b (on_loop s) s.
Definition loop_at (c : callback) (s : submission) : submission := go (by_submit s) (by_cancel s) c s.

Definition dispose (s : submission) : submission := count (runs s) (S (disposals s)) s.

Definition is_cancelled (s : submission) : bool := match future s with FutureCancelled => true | _ => false end.
Definition is_pending (s : submission) : bool := match future s with Pending => true | _ => false end.
Definition task_done (s : submission) : bool := match created s with Ended _ => true | _ => false end.

(** ** The sections *)

(** [future.cancel()]: the first one has an effect and calls [forward_cancellation]. *)
Definition cancel_future (s : submission) : submission :=
  if is_pending s then forward_at Forwarding (set_future FutureCancelled s) else s.

(** [future.set_result], [future.set_exception] *)
Definition settle (e : ending) (s : submission) : submission := if is_pending s then set_future (Settled e) s else s.

(** The section of [forward_cancellation] and what follows it. *)
Definition forward_cancellation (s : submission) : submission :=
  let should_dispose := negb (task s) && negb (start_claimed s) && negb (started s) && negb (disposed s) in
  if should_dispose then forward_at Disposing (set_shared (task s) (start_claimed s) (started s) true false s)
  else if task s then forward_at Dispatching s
  else forward_at Forwarded s.

(** [_cancel_task_once] *)
Definition _cancel_task_once (s : submission) : submission :=
  if task_done s || requested s then s else set_cancelled true true (S (cancels s)) s.

(** The section of [run]; it fails when [work] is empty. *)
Definition run_section (s : submission) : option submission :=
  if work s then Some (count (S (runs s)) (disposals s) (set_shared (task s) (start_claimed s) true (disposed s) (work s) s)) else None.

(** The first section of [start_on_loop]. *)
Definition start_on_loop (s : submission) : submission :=
  let skip_start := is_cancelled s || disposed s in
  if skip_start then
    if negb (disposed s) then loop_at StartDispose (set_shared (task s) (start_claimed s) (started s) true false s)
    else loop_at Idle s
  else loop_at Creating (set_shared (task s) true (started s) (disposed s) (work s) s).

(** The section after [create_task] raised. *)
Definition start_failed (s : submission) : submission :=
  if negb (started s) && negb (disposed s)
  then loop_at FailDispose (set_shared (task s) false (started s) true false s)
  else loop_at FailPublish (set_shared (task s) false (started s) (disposed s) (work s) s).

(** The section after [create_task], and [add_done_callback]. *)
Definition bind_task (s : submission) : submission :=
  loop_at (if is_cancelled s then CancelNow else Idle)
    (set_watched true (set_shared true false (started s) (disposed s) (work s) s)).

(** The section of [copy_outcome] *)
Definition copy_outcome (e : ending) (s : submission) : submission :=
  let s := set_watched false s in
  match e with
  | TaskCancelled =>
      if negb (started s) && negb (disposed s)
      then loop_at CopyDispose (set_shared false (start_claimed s) (started s) true false s)
      else loop_at CopyCancel (set_shared false (start_claimed s) (started s) (disposed s) false s)
  | _ => loop_at (CopySet e) (set_shared false (start_claimed s) (started s) (disposed s) false s)
  end.

(** The section after [call_soon_threadsafe] raised. *)
Definition refused (s : submission) : submission :=
  submit_at Cancelling (set_shared (task s) (start_claimed s) (started s) true false s).

(** The end of a task that has run: the [finally] of [_run_awaitable] forgets the
    request. *)
Definition end_task (e : ending) (s : submission) : submission :=
  set_cancelled false (struck s) (cancels s) (set_created (Ended e) s).

(** ** Steps

    Who does what next: [submit], the thread that cancelled, the loop, and others (a
    caller or the shutdown cancels the handle, other code cancels the task, the shutdown
    cancels it, the loop is closed between two callbacks). *)
Inductive action : Type :=
| PostAccepted | PostRefused | PostClear | PostCancel | PostRaise
| ForwardLock | ForwardDispose | ForwardDispatch
| StartCheck | StartDisposes | TaskCreated | TaskEager | CreateFails | EagerSuspends | EagerEnds (e : ending) | EagerFails
| FailSection | FailDisposes | FailPublishes | TaskBound | CancelsNow
| CancelOnce | TaskBegins | TaskNeverBegins | TaskEnds (e : ending)
| CopySection | CopyDisposes | CopyCancels | CopySets
| CancelHandle | CancelTask | ShutdownCancels | CloseLoop.

#[export] Instance action_eq_dec : EqDecision action.
Proof. solve_decision. Defined.

Definition others (a : action) : bool := match a with CancelHandle | CancelTask | ShutdownCancels | CloseLoop => true | _ => false end.

Definition on_submit (a : action) (s : submission) : option submission :=
  match a, by_submit s with
  | PostAccepted, Posting => if closed s then None else Some (submit_at SubmitReturned (set_loop true (delivered s) false s))
  | PostRefused, Posting => Some (submit_at Refused s)
  | PostClear, Refused => Some (refused s)
  | PostCancel, Cancelling => Some (submit_at Raising (cancel_future s))
  | PostRaise, Raising => Some (submit_at SubmitRaised (dispose s))
  | _, _ => None
  end.

Definition on_forward (a : action) (s : submission) : option submission :=
  match a, by_cancel s with
  | ForwardLock, Forwarding => Some (forward_cancellation s)
  | ForwardDispose, Disposing => Some (forward_at Forwarded (dispose s))
  | ForwardDispatch, Dispatching =>
      Some (forward_at Forwarded (if closed s then s else set_loop (queued s) true false s))
  | _, _ => None
  end.

(** The loop inside of a callback. *)
Definition in_callback (a : action) (s : submission) : option submission :=
  match a, on_loop s with
  | StartDisposes, StartDispose => Some (loop_at Idle (dispose s))
  | TaskCreated, Creating => Some (loop_at Binding (set_created Ready s))
  | TaskEager, Creating => s ← run_section s; Some (loop_at Eager (set_created Running s))
  | CreateFails, Creating => Some (loop_at StartFailed s)
  | EagerSuspends, Eager => Some (loop_at Binding s)
  | EagerEnds e, Eager => Some (loop_at Binding (end_task e s))
  | EagerFails, Eager => Some (loop_at StartFailed (end_task Failed s))
  | FailSection, StartFailed => Some (start_failed s)
  | FailDisposes, FailDispose => Some (loop_at FailPublish (dispose s))
  | FailPublishes, FailPublish => Some (loop_at Idle (settle Failed s))
  | TaskBound, Binding => Some (bind_task s)
  | CancelsNow, CancelNow => Some (loop_at Idle (_cancel_task_once s))
  | CopyDisposes, CopyDispose => Some (loop_at CopyCancel (dispose s))
  | CopyCancels, CopyCancel => Some (loop_at Idle (cancel_future s))
  | CopySets, CopySet e => Some (loop_at Idle (settle e s))
  | _, _ => None
  end.

(** The loop takes up a callback. *)
Definition next_callback (a : action) (s : submission) : option submission :=
  match a, created s with
  | StartCheck, _ => if queued s then Some (start_on_loop (set_loop false (delivered s) (closed s) s)) else None
  | CancelOnce, _ => if delivered s then Some (_cancel_task_once (set_loop (queued s) false (closed s) s)) else None
  | TaskBegins, Ready => if struck s then None else s ← run_section s; Some (set_created Running s)
  | TaskNeverBegins, Ready => if struck s then Some (set_created (Ended TaskCancelled) s) else None
  | TaskEnds e, Running => Some (end_task e s)
  | CopySection, Ended e => if watched s then Some (copy_outcome e s) else None
  | _, _ => None
  end.

Definition on_loop_thread (a : action) (s : submission) : option submission :=
  if closed s then None else match on_loop s with Idle => next_callback a s | _ => in_callback a s end.

(** Where other code of the loop runs: between two callbacks, and in the first step of an
    eager task. *)
Definition yields (c : callback) : bool := match c with Idle | Eager => true | _ => false end.

(** [cancel_submissions], [_cancel_returning_task]: [_run_awaitable] has registered the
    task, so it has begun. *)
Definition shutdown_cancels (s : submission) : option submission :=
  match created s with
  | Running => if closed s || negb (yields (on_loop s)) || requested s then None else Some (_cancel_task_once s)
  | _ => None
  end.

Definition by_others (a : action) (s : submission) : option submission :=
  match a with
  | CancelHandle => match by_submit s with SubmitReturned => if is_pending s then Some (cancel_future s) else None | _ => None end
  | CancelTask =>
      match created s with
      | Ready | Running => if struck s then None else Some (set_cancelled (requested s) true (cancels s) s)
      | _ => None
      end
  | ShutdownCancels => shutdown_cancels s
  | CloseLoop => match on_loop s with Idle => if closed s then None else Some (set_loop (queued s) (delivered s) true s) | _ => None end
  | _ => None
  end.

Definition act (a : action) (s : submission) : option submission :=
  match on_submit a s with
  | Some s => Some s
  | None =>
      match on_forward a s with
      | Some s => Some s
      | None => match on_loop_thread a s with Some s => Some s | None => by_others a s end
      end
  end.

Definition step (s s' : submission) : Prop := exists a, act a s = Some s'.
Definition reachable (s : submission) : Prop := rtc step submitted s.

Definition actions : list action :=
  [PostAccepted; PostRefused; PostClear; PostCancel; PostRaise; ForwardLock; ForwardDispose; ForwardDispatch;
   StartCheck; StartDisposes; TaskCreated; TaskEager; CreateFails; EagerSuspends; EagerEnds Returned; EagerEnds Failed;
   EagerEnds TaskCancelled; EagerFails; FailSection; FailDisposes; FailPublishes; TaskBound; CancelsNow; CancelOnce;
   TaskBegins; TaskNeverBegins; TaskEnds Returned; TaskEnds Failed; TaskEnds TaskCancelled; CopySection; CopyDisposes;
   CopyCancels; CopySets; CancelHandle; CancelTask; ShutdownCancels; CloseLoop].

Definition successors (s : submission) : list submission := omap (fun a => act a s) actions.


(** ** All states

    A submission has few states: they are enumerated, and what holds of every reachable
    state or step is decided by evaluation. *)

Definition mem (s : submission) (l : list submission) : bool := existsb (fun t => bool_decide (s = t)) l.
Definition add_new (l new : list submission) : list submission := foldl (fun l s => if mem s l then l else s :: l) l new.

(** The states after [n] steps. *)
Fixpoint layer (n : nat) : list submission :=
  match n with O => [submitted] | S n => add_new [] (flat_map successors (layer n)) end.
Definition states : list submission := foldl (fun l n => add_new l (layer n)) [] (seq 0 17).

Lemma mem_elem s l : mem s l = true <-> s ∈ l.
Proof.
  unfold mem. rewrite existsb_exists. setoid_rewrite <- list_elem_of_In. setoid_rewrite bool_decide_eq_true. naive_solver.
Qed.

Lemma add_new_elem new : forall l s, s ∈ l \/ s ∈ new -> s ∈ add_new l new.
Proof.
  induction new as [|t new IH]; intros l s Hs; cbn.
  - destruct Hs as [?|Hs]; [done|by apply not_elem_of_nil in Hs].
  - apply IH. rewrite elem_of_cons in Hs.
    destruct (mem t l) eqn:E; [apply mem_elem in E|rewrite elem_of_cons]; naive_solver.
Qed.

Lemma actions_all a : a ∈ actions.
Proof. destruct a as [| | | | | | | | | | | | | |[]| | | | | | | | | |[]| | | | | | | |]; unfold actions; repeat (left || right). Qed.

Lemma step_successors s s' : step s s' -> s' ∈ successors s.
Proof. intros [a Ha]. apply list_elem_of_omap. exists a. split; [apply actions_all|done]. Qed.

Lemma nsteps_layer n s : nsteps step n submitted s -> s ∈ layer n.
Proof.
  revert s. induction n as [|n IH]; intros s Hn; [inversion Hn; left|].
  apply nsteps_inv_r in Hn as (t & Ht%IH & Hs%step_successors). cbn [layer]. apply add_new_elem. right.
  apply list_elem_of_In, in_flat_map. exists t. by rewrite <- !list_elem_of_In.
Qed.

Lemma states_closed : forallb (fun s => forallb (fun t => mem t states) (successors s)) (submitted :: states) = true /\ mem submitted states = true.
Proof. split; vm_compute; reflexivity. Qed.

Lemma reachable_states s : reachable s -> s ∈ states.
Proof.
  destruct states_closed as [Hc H0]. intros Hr.
  apply (rtc_ind_r (R := step) (fun s => s ∈ states) submitted); [exact (proj1 (mem_elem _ _) H0)| |exact Hr].
  clear s Hr. intros s s' _ Hs IH. rewrite forallb_forall in Hc. specialize (Hc s). rewrite <- list_elem_of_In, forallb_forall in Hc.
  apply mem_elem, (Hc (proj2 (elem_of_cons _ _ _) (or_intror IH))). exact (proj1 (list_elem_of_In _ _) (step_successors s s' Hs)).
Qed.

(** What the evaluation on a list with all reachable states says of a reachable one, and
    of the steps from it. *)
Section Checks.
Context (l : list submission) (Hl : forall s, reachable s -> s ∈ l).

Lemma check_states (P : submission -> bool) s : forallb P l = true -> reachable s -> P s = true.
Proof. rewrite forallb_forall. intros HP Hs%Hl. exact (HP s (proj1 (list_elem_of_In _ _) Hs)). Qed.

Context (next : submission -> list submission) (Hnext : forall s t, step s t -> t ∈ next s).

Lemma check_step (Q : submission -> bool) s t :
  forallb (fun s => implb (Q s) (forallb Q (next s))) l = true -> reachable s -> Q s = true -> step s t -> Q t = true.
Proof.
  intros HQ Hs H0 Hst%Hnext. pose proof (check_states (fun s => implb (Q s) (forallb Q (next s))) s HQ Hs) as Hi.
  cbv beta in Hi. rewrite H0 in Hi. cbn [implb] in Hi. rewrite forallb_forall in Hi. apply Hi. by apply list_elem_of_In.
Qed.

Lemma check_steps (Q : submission -> bool) s s' :
  forallb (fun s => implb (Q s) (forallb Q (next s))) l = true -> reachable s -> Q s = true -> rtc step s s' -> Q s' = true.
Proof.
  intros HQ Hs H0 Hr. revert Hs H0. induction Hr as [|s t s' Hst _ IH]; [intros _ H0; exact H0|]. intros Hs H0.
  exact (IH (rtc_r _ _ _ Hs Hst) (check_step Q s t HQ Hs H0 Hst)).
Qed.

End Checks.

(** Nobody but others can go on. *)
Definition settled_down (s : submission) : bool := forallb (fun a => others a || match act a s with None => true | Some _ => false end) actions.

Lemma settled_down_spec s : (forall a, others a = false -> act a s = None) -> settled_down s = true.
Proof. intros Hs. apply forallb_forall. intros a _. destruct (others a) eqn:E; [done|]. by rewrite Hs. Qed.

(** ** The properties *)

Definition live (s : submission) : bool := match created s with Ready | Running => true | _ => false end.

(** Cancelled before the loop took up its start. *)
Definition never_taken (s : submission) : bool :=
  is_cancelled s && negb (start_claimed s) && bool_decide (created s = NoTask) && (runs s =? 0)%nat.

Definition counts_ok (s : submission) : bool :=
  (runs s + disposals s <=? 1)%nat && (cancels s <=? 1)%nat &&
  implb (bool_decide (created s = NoTask)) (runs s =? 0)%nat &&
  implb (bool_decide (on_loop s = Creating) || bool_decide (created s = Ready)) (work s).

(** The state in which everything ends, on a loop that is not closed. *)
Definition settled_ok (s : submission) : bool :=
  (runs s + disposals s =? 1)%nat && negb (live s) &&
  match by_submit s, future s with
  | SubmitReturned, FutureCancelled => true
  | SubmitReturned, Settled e => negb (bool_decide (e = TaskCancelled)) &&
      (bool_decide (created s = Ended e) || bool_decide (e = Failed) && bool_decide (created s = NoTask))
  | SubmitRaised, FutureCancelled => (disposals s =? 1)%nat
  | _, _ => false
  end.

Definition cancel_under_way (s : submission) : bool :=
  ((cancels s =? 1)%nat && struck s) || bool_decide (by_cancel s = Forwarding) || bool_decide (by_cancel s = Dispatching) ||
  delivered s || negb (bool_decide (on_loop s = Idle)) && start_claimed s || bool_decide (on_loop s = CancelNow).

(** A step in which the runtime cancels the task. *)
Definition cancels_well (a : action) (s t : submission) : bool :=
  (cancels t =? cancels s)%nat ||
  ((cancels s =? 0)%nat && (cancels t =? 1)%nat && struck t && bool_decide (future t = future s) &&
   (is_cancelled s || bool_decide (a = ShutdownCancels) && (runs s =? 1)%nat && bool_decide (created s = Running))).

Definition cancels_rightly (s : submission) : bool :=
  forallb (fun a => match act a s with Some t => cancels_well a s t | None => true end) actions.

Lemma states_rightly : forallb cancels_rightly states = true.
Proof. vm_compute. reflexivity. Qed.
Lemma states_counts : forallb counts_ok states = true.
Proof. vm_compute. reflexivity. Qed.
Lemma states_never_taken : forallb (fun s => implb (never_taken s) (forallb never_taken (successors s))) states = true.
Proof. vm_compute. reflexivity. Qed.
Lemma states_settled : forallb (fun s => implb (negb (closed s) && settled_down s) (settled_ok s)) states = true.
Proof. vm_compute. reflexivity. Qed.
Lemma states_cancelled : forallb (fun s => implb (negb (closed s) && is_cancelled s && live s) (cancel_under_way s)) states = true.
Proof. vm_compute. reflexivity. Qed.

Lemma reachable_counts s : reachable s ->
  (runs s + disposals s <= 1)%nat /\ (cancels s <= 1)%nat /\
  (created s = NoTask -> runs s = 0%nat) /\ (on_loop s = Creating \/ created s = Ready -> work s = true).
Proof.
  intros Hs%(check_states states reachable_states counts_ok s states_counts). unfold counts_ok in Hs.
  rewrite !andb_true_iff in Hs. destruct Hs as [[[H1 H2] H4] H5]. split; [lia|]. split; [lia|]. split.
  - intros E. rewrite bool_decide_eq_true_2 in H4 by done. cbn in H4. lia.
  - intros E. assert (bool_decide (on_loop s = Creating) || bool_decide (created s = Ready) = true) as E'
      by (by rewrite orb_true_iff, !bool_decide_eq_true). by rewrite E' in H5.
Qed.

(** C36: the work of a submission has one owner.  Whatever the submitting thread, the
    callers that cancel and the loop do, and in whatever order: the awaitable is awaited
    at most once or disposed of at most once, and never both; the runtime cancels its
    task at most once; the task that is created always finds the awaitable; and when the handle is cancelled before the loop has taken up the
    start, the awaitable is never awaited. *)
Theorem submission_owned s :
  reachable s ->
  (runs s + disposals s <= 1)%nat /\ (cancels s <= 1)%nat /\
  (on_loop s = Creating \/ created s = Ready -> is_Some (run_section s)) /\
  (future s = FutureCancelled -> created s = NoTask -> start_claimed s = false ->
   forall s', rtc step s s' -> runs s' = 0%nat /\ created s' = NoTask).
Proof.
  intros Hs. destruct (reachable_counts s Hs) as (H1 & H2 & H3 & H4). split; [done|]. split; [done|].
  split; [intros Hw%H4; unfold run_section; rewrite Hw; by eexists|].
  intros Hf Hc Hcl s' Hr.
  assert (never_taken s' = true) as HQ.
  { apply (check_steps states reachable_states successors step_successors never_taken s s' states_never_taken Hs); [|done].
    unfold never_taken, is_cancelled. by rewrite Hf, Hcl, (H3 Hc), Hc. }
  unfold never_taken in HQ. apply andb_true_iff in HQ as [[_ HQ%bool_decide_eq_true]%andb_true_iff Hn]. split; [lia|done].
Qed.

(** C37: a submission settles.  Every run of all threads together is at most 16 steps
    long; when it stops on a loop that is not closed, the awaitable was awaited or
    disposed of, exactly once, the task is over, and either [submit] returned and its
    future is settled, as the task ended unless the handle was cancelled, or [submit]
    raised and disposed of the awaitable. *)
Theorem submission_settles :
  (forall n s, nsteps step n submitted s -> (n <= 16)%nat) /\
  (forall s, reachable s -> closed s = false -> (forall a, others a = false -> act a s = None) ->
     (runs s + disposals s = 1)%nat /\ live s = false /\
     ((by_submit s = SubmitReturned /\
       (future s = FutureCancelled \/
        exists e, future s = Settled e /\ e <> TaskCancelled /\ (created s = Ended e \/ e = Failed /\ created s = NoTask))) \/
      (by_submit s = SubmitRaised /\ future s = FutureCancelled /\ disposals s = 1%nat))).
Proof.
  split.
  - intros n s Hn. destruct (decide (n <= 16)%nat) as [|Hlt]; [done|exfalso].
    assert (exists t, nsteps step 17 submitted t) as [t Ht%nsteps_layer].
    { replace n with (17 + (n - 17))%nat in Hn by lia. apply nsteps_add_inv in Hn as (t & Ht & _). by exists t. }
    assert (layer 17 = []) as E by (vm_compute; reflexivity). rewrite E in Ht. by apply not_elem_of_nil in Ht.
  - intros s Hs Hc Hq%settled_down_spec.
    pose proof (check_states states reachable_states _ s states_settled Hs) as H. cbv beta in H. rewrite Hc, Hq in H.
    cbn [negb andb implb] in H. unfold settled_ok in H.
    apply andb_true_iff in H as [[H1 H2]%andb_true_iff H3]. split; [lia|]. split; [by destruct (live s)|].
    destruct (by_submit s); try done; destruct (future s) as [| |e]; try done; [left; by auto| |].
    + left. split; [done|]. right. exists e. apply andb_true_iff in H3 as [H3 H4].
      apply negb_true_iff, bool_decide_eq_false in H3. split; [done|]. split; [done|].
      apply orb_true_iff in H4 as [H4%bool_decide_eq_true|[H4 H5]%andb_true_iff]; [by left|right].
      by apply bool_decide_eq_true in H4, H5.
    + right. split; [done|]. split; [done|lia].
Qed.

(** C38: a cancellation is delivered.  Once the handle was cancelled, a task that is not
    over has been cancelled by the runtime, exactly once, or that is still under way: in
    the thread that cancelled, in the queue of the loop or in the callback that creates
    the task.  And the runtime cancels a task only because its handle was cancelled, or
    in its own shutdown; a shutdown leaves the handle as it is, and only cancels a task
    that has begun. *)
Theorem cancellation_delivered s :
  reachable s ->
  (forall a s', act a s = Some s' -> cancels s' <> cancels s ->
     cancels s = 0%nat /\ cancels s' = 1%nat /\ struck s' = true /\ future s' = future s /\
     (future s = FutureCancelled \/ (a = ShutdownCancels /\ runs s = 1%nat /\ created s = Running))) /\
  (closed s = false -> future s = FutureCancelled -> live s = true ->
   (cancels s = 1%nat /\ struck s = true) \/
   by_cancel s = Forwarding \/ by_cancel s = Dispatching \/ delivered s = true \/ (on_loop s <> Idle /\ start_claimed s = true) \/
   on_loop s = CancelNow).
Proof.
  intros Hs. split.
  { intros a s' Ha Hne. pose proof (check_states states reachable_states _ s states_rightly Hs) as H.
    unfold cancels_rightly in H. rewrite forallb_forall in H. specialize (H a (proj1 (list_elem_of_In _ _) (actions_all a))).
    rewrite Ha in H. unfold cancels_well in H.
    destruct (Nat.eqb_spec (cancels s') (cancels s)) as [|_]; [done|]. cbn [orb] in H.
    rewrite !andb_true_iff, orb_true_iff, !andb_true_iff, !bool_decide_eq_true in H. unfold is_cancelled in H.
    destruct H as [[[[H1 H2] H3] H4] H5]. repeat split; [lia|lia|done|done|].
    destruct H5 as [H5|[[H5 H6] H7]]; [left; by destruct (future s)|right; split; [done|split; [lia|done]]]. }
  intros Hc Hf Hl. pose proof (check_states states reachable_states _ s states_cancelled Hs) as H. cbv beta in H.
  unfold is_cancelled in H. rewrite Hc, Hf, Hl in H. cbn [negb andb implb] in H. unfold cancel_under_way in H.
  rewrite !orb_true_iff, !andb_true_iff, negb_true_iff, bool_decide_eq_false, !bool_decide_eq_true in H.
  destruct H as [[[[[[H1 H2]|H]|H]|H]|H]|H]; [left; split; [lia|done]|auto 10..].
Qed.

(** ** Examples *)

Fixpoint run_actions (l : list action) (s : submission) : option submission :=
  match l with [] => Some s | a :: l => s ← act a s; run_actions l s end.

Lemma run_steps l s s' : run_actions l s = Some s' -> rtc step s s'.
Proof.
  revert s. induction l as [|a l IH]; intros s; cbn; [by intros [= ->]|]. destruct (act a s) as [t|] eqn:E; [|done].
  intros Hl%IH. eapply rtc_l; [by exists a|exact Hl].
Qed.

Definition after_actions (l : list action) : submission := from_option id submitted (run_actions l submitted).

Definition possible (l : list action) : bool := match run_actions l submitted with Some _ => true | None => false end.

Lemma after_reachable l : possible l = true -> reachable (after_actions l).
Proof.
  unfold possible, after_actions. destruct (run_actions l submitted) as [s|] eqn:E; [|done]. intros _. exact (run_steps l _ _ E).
Qed.

(** The handle is cancelled while the loop creates the task. *)
Definition cancelled_creating : list action := [PostAccepted; StartCheck; CancelHandle; ForwardLock; TaskCreated; TaskBound; CancelsNow].
(** The runtime shuts down while the task runs. *)
Definition shut_running : list action := [PostAccepted; StartCheck; TaskCreated; TaskBound; TaskBegins].
(** The handle is cancelled before the loop gets to the start. *)
Definition cancelled_queued : list action := [PostAccepted; CancelHandle].

(** A task that is cancelled before its first step stays in [_task_cancellation_requested]
    for good: only [_run_awaitable] removes it, which never runs. *)
Example request_kept :
  let s := after_actions (cancelled_creating ++ [TaskNeverBegins; CopySection; CopyDisposes; CopyCancels]) in
  reachable s /\ settled_down s = true /\ live s = false /\ requested s = true.
Proof. split; [apply after_reachable; vm_compute; reflexivity|]. split; [|split]; vm_compute; reflexivity. Qed.

Lemma submission_owned_witness :
  (runs (after_actions (cancelled_queued ++ [ForwardLock; StartCheck; ForwardDispose])) = 0)%nat /\
  (cancels (after_actions cancelled_creating) <= 1)%nat.
Proof.
  assert (reachable (after_actions cancelled_queued)) as H1 by (apply after_reachable; vm_compute; reflexivity).
  assert (reachable (after_actions cancelled_creating)) as H2 by (apply after_reachable; vm_compute; reflexivity).
  split; [|apply (submission_owned _ H2)].
  refine (proj1 (proj2 (proj2 (proj2 (submission_owned _ H1))) _ _ _ _ _)); [vm_compute; reflexivity..|].
  refine (run_steps [ForwardLock; StartCheck; ForwardDispose] _ _ _).
  vm_compute. reflexivity.
Defined.

Lemma submission_settles_witness :
  let s := after_actions [PostAccepted; StartCheck; TaskCreated; TaskBound; TaskBegins; TaskEnds Returned; CopySection; CopySets] in
  (runs s + disposals s = 1)%nat /\ future s = Settled Returned.
Proof.
  split; [|vm_compute; reflexivity]. refine (proj1 (proj2 submission_settles _ _ _ _)); [|vm_compute; reflexivity|];
    [apply after_reachable; vm_compute; reflexivity|].
  intros a Ha. destruct a; try discriminate Ha; vm_compute; reflexivity.
Defined.

Lemma cancellation_delivered_witness :
  cancels (after_actions cancelled_creating) = 1%nat /\
  let s := after_actions shut_running in
  exists t, act ShutdownCancels s = Some t /\ cancels t = 1%nat /\ future t = future s /\ future s = Pending.
Proof.
  assert (reachable (after_actions cancelled_creating)) as H by (apply after_reachable; vm_compute; reflexivity).
  assert (reachable (after_actions shut_running)) as H' by (apply after_reachable; vm_compute; reflexivity).
  split.
  - destruct (proj2 (cancellation_delivered _ H) ltac:(vm_compute; reflexivity) ltac:(vm_compute; reflexivity) ltac:(vm_compute; reflexivity)) as [[E _]|[E|[E|[E|[[E _]|E]]]]];
      [exact E|vm_compute in E; discriminate E|vm_compute in E; discriminate E|vm_compute in E; discriminate E
      |vm_compute in E; destruct (E eq_refl)|vm_compute in E; discriminate E].
  - cbv zeta. eexists. split; [vm_compute; reflexivity|].
    destruct (proj1 (cancellation_delivered _ H') ShutdownCancels _ ltac:(vm_compute; reflexivity) ltac:(vm_compute; discriminate)) as (_ & E1 & _ & E2 & _).
    split; [exact E1|]. split; [exact E2|vm_compute; reflexivity].
Defined.
