(* ===== verification/Executor.v ===== *)
(** * The executor of the runtime

    [DaemonThreadPoolExecutor] of [src/nebius/aio/_runtime.py]: a bounded number of
    daemon threads that run the calls of a queue.  [submit] and [shutdown] hold
    [_shutdown_lock], the workers do not; so a thread that submits or shuts down is the
    program counter [section], and it interleaves with the workers and with callers that
    cancel futures.  [_idle_semaphore] is a number.

    A call is its future; what it does and how it ends is not modelled, nor the waiting
    of [shutdown] for the threads. *)
From stdpp Require Import list relations.
From S2P Require Import Prelude.

Inductive future_state : Type := Pending | Running | Cancelled | Finished.

(** Where [_worker] is: at the queue, with an item, in [fn], after the future is
    settled (its callbacks run in this thread), at its end. *)
Inductive worker : Type := AtQueue | Taken (f : nat) | Calling (f : nat) | Finishing | Exited.

(** What the holder of [_shutdown_lock] does next: start a thread, put the item; empty
    the queue, put as many stop markers. *)
Inductive section : Type := Starting | Putting | Draining | Marking (n : nat).

Record executor : Type := mkExecutor {
  (** [None] is the stop marker *)
  _work_queue : list (option nat);
  futures : list future_state;
  _threads : list worker;
  _idle_semaphore : nat;
  _shutdown : bool;
  _shutdown_lock : option section
}.

Definition started : executor := mkExecutor [] [] [] 0 false None.

Definition lock_at (l : option section) (s : executor) : executor :=
  mkExecutor (_work_queue s) (futures s) (_threads s) (_idle_semaphore s) (_shutdown s) l.
Definition set_queue (q : list (option nat)) (s : executor) : executor :=
  mkExecutor q (futures s) (_threads s) (_idle_semaphore s) (_shutdown s) (_shutdown_lock s).
Definition set_state (f : nat) (x : future_state) (s : executor) : executor :=
  mkExecutor (_work_queue s) (<[f := x]> (futures s)) (_threads s) (_idle_semaphore s) (_shutdown s) (_shutdown_lock s).
Definition set_worker (i : nat) (w : worker) (s : executor) : executor :=
  mkExecutor (_work_queue s) (futures s) (<[i := w]> (_threads s)) (_idle_semaphore s) (_shutdown s) (_shutdown_lock s).

(** ** Sections *)

(** [future.cancel()] *)
Definition cancel (f : nat) (s : executor) : executor :=
  match futures s !! f with Some Pending => set_state f Cancelled s | _ => s end.

(** The first part of [submit], when the executor is not shut down. *)
Definition submit (max_workers : nat) (s : executor) : executor :=
  match _idle_semaphore s with
  | S n => mkExecutor (_work_queue s) (futures s) (_threads s) n (_shutdown s) (Some Putting)
  | O => lock_at (Some (if (length (_threads s) <? max_workers)%nat then Starting else Putting)) s
  end.

Definition start_thread (s : executor) : executor :=
  mkExecutor (_work_queue s) (futures s) (_threads s ++ [AtQueue]) (_idle_semaphore s) (_shutdown s) (Some Putting).

(** The last part of [submit]. *)
Definition put_item (s : executor) : executor :=
  mkExecutor (_work_queue s ++ [Some (length (futures s))]) (futures s ++ [Pending]) (_threads s) (_idle_semaphore s) (_shutdown s) None.

(** [shutdown] up to its first loop. *)
Definition shutdown (cancel_futures : bool) (s : executor) : executor :=
  let next := if cancel_futures then Draining else Marking (if _shutdown s then 0 else length (_threads s)) in
  mkExecutor (_work_queue s) (futures s) (_threads s) (_idle_semaphore s) true (Some next).

(** An iteration of [get_nowait]. *)
Definition drain (s : executor) : executor :=
  match _work_queue s with
  | [] => lock_at (Some (Marking (length (_threads s)))) s
  | None :: q => set_queue q s
  | Some f :: q => cancel f (set_queue q s)
  end.

(** [_work_queue.get()] of a worker *)
Definition get_item (i : nat) (s : executor) : option executor :=
  match _work_queue s with
  | [] => None
  | x :: q => Some (set_worker i (match x with Some f => Taken f | None => Exited end) (set_queue q s))
  end.

(** [set_running_or_notify_cancel] *)
Definition run_item (i f : nat) (s : executor) : option executor :=
  match futures s !! f with
  | Some Pending => Some (set_worker i (Calling f) (set_state f Running s))
  | Some Cancelled => Some (set_worker i Finishing s)
  | _ => None
  end.

Definition end_call (i f : nat) (s : executor) : executor := set_worker i Finishing (set_state f Finished s).

(** [_idle_semaphore.release()] *)
Definition release (i : nat) (s : executor) : executor :=
  mkExecutor (_work_queue s) (futures s) (<[i := AtQueue]> (_threads s)) (S (_idle_semaphore s)) (_shutdown s) (_shutdown_lock s).

(** ** Steps *)

Section Steps.
(** The constructor refuses [max_workers <= 0]. *)
Context (max_workers : nat) (Hmax : (0 < max_workers)%nat).

(** A call of [submit], [shutdown] or [Future.cancel]. *)
Inductive call_step (s : executor) : executor -> Prop :=
| submit_begins : _shutdown_lock s = None -> _shutdown s = false -> call_step s (submit max_workers s)
| shutdown_begins cancel_futures : _shutdown_lock s = None -> call_step s (shutdown cancel_futures s)
| future_cancelled f : call_step s (cancel f s).

(** The thread that holds the lock. *)
Inductive locked_step (s : executor) : executor -> Prop :=
| thread_starts : _shutdown_lock s = Some Starting -> locked_step s (start_thread s)
| thread_fails : _shutdown_lock s = Some Starting -> locked_step s (lock_at None s)
| item_put : _shutdown_lock s = Some Putting -> locked_step s (put_item s)
| drains : _shutdown_lock s = Some Draining -> locked_step s (drain s)
| marks n : _shutdown_lock s = Some (Marking (S n)) -> locked_step s (lock_at (Some (Marking n)) (set_queue (_work_queue s ++ [None]) s))
| marked : _shutdown_lock s = Some (Marking 0) -> locked_step s (lock_at None s).

Inductive worker_step (s : executor) : executor -> Prop :=
| gets i s' : _threads s !! i = Some AtQueue -> get_item i s = Some s' -> worker_step s s'
| runs i f s' : _threads s !! i = Some (Taken f) -> run_item i f s = Some s' -> worker_step s s'
| ends i f : _threads s !! i = Some (Calling f) -> worker_step s (end_call i f s)
| releases i : _threads s !! i = Some Finishing -> worker_step s (release i s).

Definition step (s s' : executor) : Prop := call_step s s' \/ locked_step s s' \/ worker_step s s'.
Definition reachable (s : executor) : Prop := rtc step started s.

(** ** Counting *)

Definition busy (w : worker) : bool := match w with Taken _ | Calling _ | Finishing => true | _ => false end.
Definition at_queue (w : worker) : bool := match w with AtQueue => true | _ => false end.
Definition alive (w : worker) : bool := match w with Exited => false | _ => true end.
Definition is_item (x : option nat) : bool := match x with Some _ => true | None => false end.

Fixpoint count {A} (p : A -> bool) (l : list A) : nat :=
  match l with [] => 0 | x :: l => (if p x then 1 else 0) + count p l end.

Definition items (s : executor) : nat := count is_item (_work_queue s).
Definition markers (s : executor) : nat := count (fun x => negb (is_item x)) (_work_queue s).
(** The stop markers the holder of the lock is going to put. *)
Definition owed (s : executor) : nat :=
  match _shutdown_lock s with Some Draining => length (_threads s) | Some (Marking n) => n | _ => 0 end.
Definition putting (s : executor) : nat := match _shutdown_lock s with Some Putting => 1 | _ => 0 end.

Lemma count_app {A} (p : A -> bool) l k : count p (l ++ k) = (count p l + count p k)%nat.
Proof. induction l as [|x l IH]; simpl; [done|]. destruct (p x); lia. Qed.

Lemma count_insert {A} (p : A -> bool) l i x y :
  l !! i = Some x -> (count p (<[i := y]> l) + (if p x then 1 else 0) = count p l + (if p y then 1 else 0))%nat.
Proof.
  revert i. induction l as [|z l IH]; intros [|i] Hi; try done; cbn in *.
  - injection Hi as ->. destruct (p x), (p y); lia.
  - specialize (IH i Hi). unfold insert in *. destruct (p z), (p x), (p y); lia.
Qed.

Lemma count_le {A} (p : A -> bool) l : (count p l <= length l)%nat.
Proof. induction l as [|x l IH]; simpl; [lia|]. destruct (p x); lia. Qed.

(** ** The invariant *)

Definition wfuture (w : worker) : option nat := match w with Taken f | Calling f => Some f | _ => None end.

(** The futures whose item is in the queue or with a worker. *)
Definition held (s : executor) : list nat := omap id (_work_queue s) ++ omap wfuture (_threads s).

Definition open_future (x : future_state) : bool := match x with Pending | Running => true | _ => false end.

Definition worker_ok (fs : list future_state) (w : worker) : Prop :=
  match w with
  | Taken f => fs !! f = Some Pending \/ fs !! f = Some Cancelled
  | Calling f => fs !! f = Some Running
  | _ => True
  end.

Record inv (s : executor) : Prop := {
  i_max : (length (_threads s) <= max_workers)%nat /\ (_shutdown_lock s = Some Starting -> (length (_threads s) < max_workers)%nat);
  i_held : NoDup (held s);
  i_bound f : f ∈ held s -> (f < length (futures s))%nat;
  i_open f x : futures s !! f = Some x -> open_future x = true -> f ∈ held s;
  i_queue f : Some f ∈ _work_queue s -> futures s !! f = Some Pending \/ futures s !! f = Some Cancelled;
  i_worker i w : _threads s !! i = Some w -> worker_ok (futures s) w;
  i_before : _shutdown s = false -> markers s = 0%nat /\ count alive (_threads s) = length (_threads s) /\
    match _shutdown_lock s with Some Draining | Some (Marking _) => False | _ => True end /\
    let n := (items s + count busy (_threads s) + _idle_semaphore s + putting s)%nat in
    (length (_threads s) <= n)%nat /\ ((length (_threads s) < max_workers)%nat -> length (_threads s) = n);
  i_after : _shutdown s = true ->
    match _shutdown_lock s with Some Starting | Some Putting => False | _ => True end /\
    (exists l k, _work_queue s = (Some <$> l) ++ replicate k None /\
       (l <> [] -> count alive (_threads s) = length (_threads s) /\ _threads s <> [])) /\
    (count alive (_threads s) <= markers s + owed s)%nat
}.

(** *** What a change of one worker does *)

Lemma omap_insert ws i w w' :
  ws !! i = Some w -> omap wfuture (<[i := w']> ws) ++ option_list (wfuture w) ≡ₚ omap wfuture ws ++ option_list (wfuture w').
Proof.
  revert i. induction ws as [|z ws IH]; intros [|i] Hi; try done; cbn in *.
  - injection Hi as ->. destruct (wfuture w), (wfuture w'); cbn; rewrite ?app_nil_r; try done; try solve_Permutation.
  - apply IH in Hi. destruct (wfuture z); cbn; by rewrite Hi.
Qed.

Lemma cancel_fields f s :
  _work_queue (cancel f s) = _work_queue s /\ _threads (cancel f s) = _threads s /\ _idle_semaphore (cancel f s) = _idle_semaphore s /\
  _shutdown (cancel f s) = _shutdown s /\ _shutdown_lock (cancel f s) = _shutdown_lock s /\ length (futures (cancel f s)) = length (futures s).
Proof. unfold cancel. destruct (futures s !! f) as [[]|]; try done. cbn. by rewrite length_insert. Qed.

Lemma cancel_future f s g : futures (cancel f s) !! g =
  match futures s !! g with Some Pending => Some (if decide (g = f) then Cancelled else Pending) | x => x end.
Proof.
  unfold cancel. destruct (decide (g = f)) as [->|Hne].
  - destruct (futures s !! f) as [[]|] eqn:E; cbn; rewrite ?E; try done. rewrite list_lookup_insert_eq; [done|by eapply lookup_lt_Some].
  - destruct (futures s !! f) as [[]|]; cbn; try (by destruct (futures s !! g) as [[]|]).
    rewrite list_lookup_insert_ne by congruence. by destruct (futures s !! g) as [[]|].
Qed.

Lemma inv_started : inv started.
Proof.
  split; cbn; try done; try lia.
  - constructor.
  - intros f Hf. by apply not_elem_of_nil in Hf.
  - intros f Hf. by apply not_elem_of_nil in Hf.
Qed.

Lemma inv_cancel f s : inv s -> inv (cancel f s).
Proof.
  destruct (cancel_fields f s) as (E1 & E2 & E3 & E4 & E5 & E6). intros [].
  split; unfold held, markers, items, owed, putting in *; rewrite ?E1, ?E2, ?E3, ?E4, ?E5, ?E6; try done.
  - intros g x. rewrite cancel_future. destruct (futures s !! g) as [y|] eqn:Eg; [|done].
    intros Hx Ho. apply (i_open0 g y Eg). destruct y; try done; injection Hx as <-; by destruct (decide (g = f)).
  - intros g Hg. rewrite cancel_future. destruct (i_queue0 g Hg) as [-> | ->]; [case_decide|]; auto.
  - intros i w Hi. specialize (i_worker0 i w Hi). destruct w as [|g|g| |]; try done; cbn in *; rewrite cancel_future.
    + destruct i_worker0 as [-> | ->]; [case_decide|]; auto.
    + by rewrite i_worker0.
Qed.

(** *** Calls and the lock *)

(** A step that leaves queue, futures and workers alone. *)
Lemma inv_lock s s' :
  _work_queue s' = _work_queue s -> futures s' = futures s -> _threads s' = _threads s -> inv s ->
  (_shutdown_lock s' = Some Starting -> (length (_threads s) < max_workers)%nat) ->
  (_shutdown s' = false -> markers s' = 0%nat /\ count alive (_threads s') = length (_threads s') /\
    match _shutdown_lock s' with Some Draining | Some (Marking _) => False | _ => True end /\
    let n := (items s' + count busy (_threads s') + _idle_semaphore s' + putting s')%nat in
    (length (_threads s') <= n)%nat /\ ((length (_threads s') < max_workers)%nat -> length (_threads s') = n)) ->
  (_shutdown s' = true -> match _shutdown_lock s' with Some Starting | Some Putting => False | _ => True end /\
    (exists l k, _work_queue s' = (Some <$> l) ++ replicate k None /\
       (l <> [] -> count alive (_threads s') = length (_threads s') /\ _threads s' <> [])) /\
    (count alive (_threads s') <= markers s' + owed s')%nat) -> inv s'.
Proof.
  intros E1 E2 E3 [] Hst Hb Ha. split; unfold held in *; rewrite ?E1, ?E2, ?E3 in *; try done. split; [apply i_max0|done].
Qed.

Lemma items_only q : count (fun x => negb (is_item x)) q = 0%nat -> exists l, q = Some <$> l.
Proof.
  induction q as [|[f|] q IH]; cbn; [by exists []| |done]. intros Hq. destruct (IH Hq) as [l ->]. by exists (f :: l).
Qed.

Lemma inv_submit s : _shutdown_lock s = None -> _shutdown s = false -> inv s -> inv (submit max_workers s).
Proof.
  intros Hl Hs Hi. pose proof (i_before s Hi Hs) as (H1 & H2 & _ & H4 & H5). unfold items, markers, putting in *. rewrite Hl in *.
  unfold submit. destruct (_idle_semaphore s) as [|n] eqn:En; [destruct (Nat.ltb_spec (length (_threads s)) max_workers) as [Hlt|Hge]|];
    apply (inv_lock s); try done; unfold items, markers, putting; cbn; try done; try congruence; intros _; lia.
Qed.

Lemma inv_start s : _shutdown_lock s = Some Starting -> inv s -> inv (start_thread s).
Proof.
  intros Hl []. destruct (_shutdown s) eqn:Es.
  { destruct (i_after0 eq_refl) as [Hf _]. by rewrite Hl in Hf. }
  destruct (i_before0 eq_refl) as (H1 & H2 & _ & H4 & H5). destruct i_max0 as [_ Hm]. specialize (Hm Hl).
  unfold items, markers, putting, start_thread in *. rewrite Hl in *.
  assert (omap wfuture (_threads s ++ [AtQueue]) = omap wfuture (_threads s)) as Eo by (rewrite omap_app; cbn; by rewrite app_nil_r).
  split; unfold held, items, markers, putting, owed in *; cbn; rewrite ?Eo; try done.
  - split; [rewrite length_app; cbn; lia|done].
  - intros i w [Hw|[_ Hw]]%lookup_app_Some; [by apply (i_worker0 i)|]. by apply list_lookup_singleton_Some in Hw as [_ <-].
  - intros _. rewrite !count_app, length_app. cbn. split; [done|]. split; [lia|]. split; [done|]. lia.
  - congruence.
Qed.

Lemma inv_put s : _shutdown_lock s = Some Putting -> inv s -> inv (put_item s).
Proof.
  intros Hl []. destruct (_shutdown s) eqn:Es.
  { destruct (i_after0 eq_refl) as [Hf _]. by rewrite Hl in Hf. }
  destruct (i_before0 eq_refl) as (H1 & H2 & _ & H4 & H5). unfold items, markers, putting, held, put_item in *. rewrite Hl in *.
  assert (forall f x, futures s !! f = Some x -> (futures s ++ [Pending]) !! f = Some x) as Hold by (intros; by apply lookup_app_l_Some).
  assert (omap id (_work_queue s ++ [Some (length (futures s))]) ++ omap wfuture (_threads s) ≡ₚ
    length (futures s) :: omap id (_work_queue s) ++ omap wfuture (_threads s)) as Eh.
  { rewrite omap_app, <- app_assoc. symmetry. apply Permutation_middle. }
  split; unfold held, items, markers, putting, owed in *; cbn; try done.
  - destruct i_max0. done.
  - rewrite Eh. apply NoDup_cons. split; [|done]. intros Hin%i_bound0. lia.
  - intros f. rewrite Eh, length_app, elem_of_cons. cbn [length]. intros [->|Hf%i_bound0]; lia.
  - intros f x. rewrite Eh. intros [Hf|[Hge Hx]]%lookup_app_Some Ho; [right; by eapply i_open0|].
    apply list_lookup_singleton_Some in Hx as [Hx _]. rewrite elem_of_cons. left. lia.
  - intros f. rewrite elem_of_app, list_elem_of_singleton. intros [Hf|[= ->]].
    + destruct (i_queue0 f Hf) as [H|H]; [left|right]; by apply Hold.
    + left. by apply list_lookup_middle.
  - intros i w Hw. specialize (i_worker0 i w Hw). destruct w; try done; [destruct i_worker0; [left|right]|]; by apply Hold.
  - intros _. rewrite !count_app. cbn. split; [lia|]. split; [done|]. split; [done|]. lia.
  - congruence.
Qed.

Lemma inv_shutdown b s : _shutdown_lock s = None -> inv s -> inv (shutdown b s).
Proof.
  intros Hl Hi. apply (inv_lock s); try done; unfold shutdown; cbn; [by destruct b|].
  intros _. split; [by destruct b|]. destruct (_shutdown s) eqn:Es.
  - destruct (i_after s Hi Es) as (_ & Hq & Hc). split; [done|]. unfold owed, markers in *. rewrite Hl in Hc. cbn. destruct b; lia.
  - destruct (i_before s Hi Es) as (H1 & H2 & _ & H4 & H5). destruct (items_only _ H1) as [l El]. split.
    + exists l, 0%nat. rewrite El. cbn. rewrite app_nil_r. split; [done|]. intros Hne. split; [done|]. intros Et.
      unfold items in H5. rewrite El, Et in H5. destruct l; [done|]. cbn in H5. lia.
    + unfold owed. cbn. rewrite H2. destruct b; lia.
Qed.

Lemma inv_fails s : _shutdown_lock s = Some Starting -> inv s -> inv (lock_at None s).
Proof.
  intros Hl Hi. pose proof (i_before s Hi) as Hb. pose proof (i_after s Hi) as Ha. unfold items, markers, putting in *. rewrite Hl in *.
  apply (inv_lock s); cbn; [done..|intros Hs|intros Hs]; [apply Hb in Hs; unfold items, markers, putting; cbn; lia|].
  by destruct (Ha Hs) as [[] _].
Qed.

Lemma inv_pop s x q :
  _shutdown_lock s = Some Draining -> _shutdown s = true -> _work_queue s = x :: q ->
  match x with Some f => futures s !! f = Some Cancelled | None => True end -> inv s -> inv (set_queue q s).
Proof.
  intros Hl Hs Hq Hx []. split; unfold held, markers, owed in *; cbn; rewrite ?Hq, ?Hl, ?Hs in *; try done.
  - destruct x; cbn in i_held0; [by apply NoDup_cons in i_held0 as [_ ?]|done].
  - intros f Hf. apply i_bound0. destruct x; cbn; [by right|done].
  - intros f y Hf Ho. specialize (i_open0 f y Hf Ho). destruct x as [g|]; cbn in i_open0; [|done].
    apply elem_of_cons in i_open0 as [->|?]; [|done]. rewrite Hx in Hf. by injection Hf as <-.
  - intros f Hf. apply i_queue0. by right.
  - intros _. destruct (i_after0 eq_refl) as (_ & (l & k & El & Hll) & _). split; [done|].
    split; [|pose proof (count_le alive (_threads s)); lia]. destruct l as [|f l]; cbn in El.
    + destruct k as [|k]; [done|]. injection El as -> ->. by exists [], k.
    + injection El as -> ->. exists l, k. split; [done|]. intros _. by apply Hll.
Qed.

Lemma shut_down s : inv s -> match _shutdown_lock s with Some Draining | Some (Marking _) => True | _ => False end -> _shutdown s = true.
Proof.
  intros Hi Hl. destruct (_shutdown s) eqn:E; [done|]. destruct (i_before s Hi E) as (_ & _ & Hf & _). by destruct (_shutdown_lock s) as [[]|].
Qed.

Lemma inv_drain s : _shutdown_lock s = Some Draining -> inv s -> inv (drain s).
Proof.
  intros Hl Hi. assert (_shutdown s = true) as Hs by (apply (shut_down s Hi); by rewrite Hl).
  unfold drain. destruct (_work_queue s) as [|[f|] q] eqn:E; [| |by apply (inv_pop s None)].
  - destruct (i_after s Hi Hs) as (_ & Hq & _). apply (inv_lock s); cbn; try done; try congruence.
    intros _. split; [done|]. split; [done|]. unfold owed. cbn. pose proof (count_le alive (_threads s)). lia.
  - destruct (cancel_fields f s) as (E1 & _ & _ & E4 & E5 & _).
    replace (cancel f (set_queue q s)) with (set_queue q (cancel f s)).
    { apply (inv_pop _ (Some f)); [congruence..| |by apply inv_cancel]. rewrite cancel_future.
      destruct (i_queue s Hi f) as [-> | ->]; [rewrite E; by left|by rewrite decide_True|done]. }
    unfold cancel. cbn. by destruct (futures s !! f) as [[]|].
Qed.

Lemma inv_marks n s :
  _shutdown_lock s = Some (Marking (S n)) -> inv s -> inv (lock_at (Some (Marking n)) (set_queue (_work_queue s ++ [None]) s)).
Proof.
  intros Hl Hi. assert (_shutdown s = true) as Hs by (apply (shut_down s Hi); by rewrite Hl). destruct Hi.
  assert (omap id (_work_queue s ++ [None]) = omap id (_work_queue s)) as Eo by (rewrite omap_app; cbn; by rewrite app_nil_r).
  destruct (i_after0 Hs) as (_ & (l & k & El & Hll) & Hc).
  split; unfold held, markers, owed in *; cbn; rewrite ?Eo, ?Hs, ?Hl in *; try done.
  - split; [apply i_max0|done].
  - intros f. rewrite elem_of_app, list_elem_of_singleton. intros [?|?]; [by apply i_queue0|done].
  - intros _. split; [done|]. split; [|rewrite count_app; cbn; lia]. exists l, (S k). split; [|done].
    by rewrite El, <- app_assoc, <- replicate_S_end.
Qed.

Lemma inv_marked s : _shutdown_lock s = Some (Marking 0) -> inv s -> inv (lock_at None s).
Proof.
  intros Hl Hi. assert (_shutdown s = true) as Hs by (apply (shut_down s Hi); by rewrite Hl).
  destruct (i_after s Hi Hs) as (_ & Hq & Hc). unfold owed in Hc. rewrite Hl in Hc. apply (inv_lock s); cbn; try done; try congruence.
Qed.

(** *** Workers *)

Lemma held_once s i w f : NoDup (held s) -> _threads s !! i = Some w -> wfuture w = Some f ->
  Some f ∉ _work_queue s /\ (forall j w', _threads s !! j = Some w' -> wfuture w' = Some f -> j = i).
Proof.
  unfold held. rewrite NoDup_app. intros (_ & Hd & Hn) Hi Hw. split.
  - intros Hf. apply (Hd f); [apply list_elem_of_omap; by exists (Some f)|].
    apply list_elem_of_omap. exists w. split; [by eapply list_elem_of_lookup_2|done].
  - intros j w' Hj Hw'. destruct (decide (j = i)) as [|Hne]; [done|exfalso].
    pose proof (omap_insert (_threads s) i w AtQueue Hi) as Hp. rewrite Hw in Hp. cbn in Hp. rewrite app_nil_r in Hp.
    rewrite <- Hp, NoDup_app in Hn. destruct Hn as (_ & Hn & _). apply (Hn f); [|by left].
    apply list_elem_of_omap. exists w'. split; [|done]. apply (list_elem_of_lookup_2 _ j). by rewrite list_lookup_insert_ne.
Qed.

(** A worker goes on with the future it holds, or lets go of it. *)
Lemma inv_worker i w w' fs n s :
  _threads s !! i = Some w -> alive w = true -> alive w' = true ->
  ((if busy w then 1 else 0) + _idle_semaphore s = (if busy w' then 1 else 0) + n)%nat ->
  length fs = length (futures s) -> (forall g, wfuture w <> Some g -> fs !! g = futures s !! g) ->
  (wfuture w' = wfuture w \/ wfuture w' = None /\ forall f x, wfuture w = Some f -> fs !! f = Some x -> open_future x = false) ->
  worker_ok fs w' -> inv s ->
  inv (mkExecutor (_work_queue s) fs (<[i := w']> (_threads s)) n (_shutdown s) (_shutdown_lock s)).
Proof.
  intros Hi Ha Ha' Hbusy Hlen Hfs Hw Hok []. pose proof (held_once s i w) as Hone.
  pose proof (omap_insert (_threads s) i w w' Hi) as Hp.
  pose proof (count_insert busy _ i w w' Hi) as Hb. pose proof (count_insert alive _ i w w' Hi) as Hal. rewrite Ha, Ha' in Hal.
  assert (forall f, f ∈ omap id (_work_queue s) ++ omap wfuture (<[i := w']> (_threads s)) -> f ∈ held s) as Hsub.
  { unfold held. intros f. rewrite !elem_of_app. intros [?|Hf]; [by left|right].
    destruct Hw as [Hw|[Hw _]]; rewrite Hw in Hp; [by apply Permutation_app_inv_r in Hp; rewrite <- Hp|].
    cbn in Hp. rewrite app_nil_r in Hp. rewrite <- Hp, elem_of_app. by left. }
  split; unfold held, items, markers, putting, owed in *; cbn; rewrite ?length_insert, ?Hlen; try done.
  - destruct Hw as [Hw|[Hw _]]; rewrite Hw in Hp; [by apply Permutation_app_inv_r in Hp; rewrite Hp|].
    cbn in Hp. rewrite app_nil_r in Hp. rewrite <- Hp, app_assoc in i_held0. by apply NoDup_app in i_held0 as (? & _ & _).
  - intros f Hf. by apply i_bound0, Hsub.
  - intros f x Hf Ho. destruct Hw as [Hw|[Hw Hcl]].
    + rewrite Hw in Hp. apply Permutation_app_inv_r in Hp; rewrite Hp. destruct (decide (wfuture w = Some f)) as [Hwf|Hwf].
      * rewrite elem_of_app. right. apply list_elem_of_omap. exists w. split; [by eapply list_elem_of_lookup_2|done].
      * rewrite Hfs in Hf by done. by eapply i_open0.
    + destruct (decide (wfuture w = Some f)) as [Hwf|Hwf]; [by rewrite (Hcl f x Hwf Hf) in Ho|].
      rewrite Hfs in Hf by done. specialize (i_open0 f x Hf Ho). rewrite Hw in Hp. cbn in Hp. rewrite app_nil_r in Hp.
      rewrite <- Hp, app_assoc, elem_of_app in i_open0. destruct i_open0 as [|Hin]; [done|].
      destruct (wfuture w); cbn in Hin; [apply list_elem_of_singleton in Hin; congruence|by apply not_elem_of_nil in Hin].
  - intros f Hf. rewrite Hfs; [by apply i_queue0|]. intros Hwf. by destruct (Hone f i_held0 Hi Hwf).
  - intros j v Hj. destruct (decide (j = i)) as [->|Hne].
    + rewrite list_lookup_insert_eq in Hj by (by eapply lookup_lt_Some). by injection Hj as <-.
    + rewrite list_lookup_insert_ne in Hj by done. specialize (i_worker0 j v Hj).
      assert (forall f, wfuture v = Some f -> fs !! f = futures s !! f) as Hv.
      { intros f Hf. apply Hfs. intros Hwf. destruct (Hone f i_held0 Hi Hwf) as [_ H]. by apply Hne, (H j v). }
      destruct v; cbn in *; rewrite ?Hv by done; done.
  - intros Hs. destruct (i_before0 Hs) as (H1 & H2 & H3 & H4). split; [done|]. split; [lia|]. split; [done|]. lia.
  - intros Hs. destruct (i_after0 Hs) as (H1 & (l & k & El & Hl) & H3). split; [done|]. split; [|lia].
    exists l, k. split; [done|]. intros [H4 H5]%Hl. split; [lia|]. intros E. apply (f_equal length) in E. rewrite length_insert in E.
    by destruct (_threads s).
Qed.

Lemma inv_get i s s' : _threads s !! i = Some AtQueue -> get_item i s = Some s' -> inv s -> inv s'.
Proof.
  unfold get_item. intros Hi Hg []. destruct (_work_queue s) as [|x q] eqn:E; [done|]. injection Hg as <-.
  set (w' := match x with Some f => Taken f | None => Exited end).
  assert (wfuture w' = x) as Ex by (by destruct x).
  pose proof (omap_insert (_threads s) i AtQueue w' Hi) as Hp. rewrite Ex in Hp. cbn [wfuture option_list] in Hp. rewrite app_nil_r in Hp.
  pose proof (count_insert busy _ i _ w' Hi) as Hb. pose proof (count_insert alive _ i _ w' Hi) as Hal. cbn [busy alive at_queue] in Hb, Hal.
  assert (omap id (x :: q) ++ omap wfuture (_threads s) ≡ₚ omap id q ++ omap wfuture (<[i := w']> (_threads s))) as Eh.
  { rewrite Hp. destruct x as [f|]; cbn; [|by rewrite app_nil_r]. rewrite (comm app (omap wfuture _) [f]). cbn. by rewrite <- Permutation_middle. }
  split; unfold held, items, markers, putting, owed in *; cbn; fold w'; rewrite ?length_insert, ?E in *; try done.
  - by rewrite <- Eh.
  - intros f. rewrite <- Eh. apply i_bound0.
  - intros f y. rewrite <- Eh. apply i_open0.
  - intros f Hf. apply i_queue0. by right.
  - intros j v Hj. destruct (decide (j = i)) as [->|Hne].
    + rewrite list_lookup_insert_eq in Hj by (by eapply lookup_lt_Some). injection Hj as <-.
      destruct x; cbn; [apply i_queue0; by left|done].
    + rewrite list_lookup_insert_ne in Hj by done. by apply (i_worker0 j).
  - intros Hs. destruct (i_before0 Hs) as (H1 & H2 & H3 & H4). destruct x as [f|]; [|done]. cbn in *.
    split; [done|]. split; [lia|]. split; [done|]. lia.
  - intros Hs. destruct (i_after0 Hs) as (H1 & (l & k & El & Hl) & H3). split; [done|]. split.
    + destruct l as [|f l]; cbn in El.
      * destruct k as [|k]; [done|]. injection El as -> ->. by exists [], k.
      * injection El as -> ->. exists l, k. split; [done|]. intros _. destruct Hl as [H4 H5]; [done|]. cbn in *. split; [lia|].
        intros Et. apply (f_equal length) in Et. rewrite length_insert in Et. by destruct (_threads s).
    + destruct x; cbn in *; lia.
Qed.

Lemma inv_step s s' : step s s' -> inv s -> inv s'.
Proof.
  intros [Hc|[Hl|Hw]].
  - destruct Hc; [by apply inv_submit|by apply inv_shutdown|by apply inv_cancel].
  - destruct Hl; [by apply inv_start|by apply inv_fails|by apply inv_put|by apply inv_drain|by apply inv_marks|by apply inv_marked].
  - destruct Hw as [i s' Hi Hg|i f s' Hi Hr|i f Hi|i Hi].
    + by apply (inv_get i).
    + intros HI. pose proof (i_worker s HI i _ Hi) as Hok. unfold run_item in Hr.
      destruct (futures s !! f) as [[]|] eqn:Ef; try done; injection Hr as <-.
      * apply (inv_worker i (Taken f) (Calling f) (<[f := Running]> (futures s)) (_idle_semaphore s) s); try done; cbn.
        -- apply length_insert.
        -- intros g Hg. apply list_lookup_insert_ne. congruence.
        -- by left.
        -- apply list_lookup_insert_eq. by eapply lookup_lt_Some.
      * apply (inv_worker i (Taken f) Finishing (futures s) (_idle_semaphore s) s); try done; cbn.
        right. split; [done|]. intros g x [= <-] Hx. rewrite Ef in Hx. by injection Hx as <-.
    + intros HI. apply (inv_worker i (Calling f) Finishing (<[f := Finished]> (futures s)) (_idle_semaphore s) s); try done; cbn.
      * apply length_insert.
      * intros g Hg. apply list_lookup_insert_ne. congruence.
      * right. split; [done|]. intros g x [= <-] Hx.
        rewrite list_lookup_insert_eq in Hx by (eapply lookup_lt_Some; by apply (i_worker s HI i _ Hi)). by injection Hx as <-.
    + intros HI. apply (inv_worker i Finishing AtQueue (futures s) (S (_idle_semaphore s)) s); try done; by left.
Qed.

Lemma reachable_inv s : reachable s -> inv s.
Proof.
  intros Hr. apply (rtc_ind_r (R := step) inv started); [exact inv_started| |exact Hr].
  intros t t' _ Hst Hi. exact (inv_step t t' Hst Hi).
Qed.

(** ** The properties *)

(** What a state still has to do: an item or a marker is put, taken, run, ended and
    released. *)
Definition weight (w : worker) : nat := match w with Taken _ => 3 | Calling _ => 2 | Finishing => 1 | _ => 0 end.
Definition due (s : executor) : nat :=
  match _shutdown_lock s with
  | None => 0 | Some Starting => 6 | Some Putting => 5
  | Some Draining => 5 * length (_threads s) + 2 | Some (Marking n) => 5 * n + 1
  end.
Definition work (s : executor) : nat := (4 * length (_work_queue s) + sum_list_with weight (_threads s) + due s)%nat.

(** The holder of the lock or a worker goes on. *)
Definition own_step (s s' : executor) : Prop := locked_step s s' \/ worker_step s s'.

Lemma weight_insert ws i w w' :
  ws !! i = Some w -> (sum_list_with weight (<[i := w']> ws) + weight w = sum_list_with weight ws + weight w')%nat.
Proof.
  revert i. induction ws as [|z ws IH]; intros [|i] Hi; try done; cbn in *; [injection Hi as ->; lia|].
  specialize (IH i Hi). unfold insert in *. lia.
Qed.

Lemma own_step_work s s' : own_step s s' -> (work s' < work s)%nat.
Proof.
  unfold work. intros [Hl|Hw].
  - destruct Hl as [Hl|Hl|Hl|Hl|n Hl|Hl]; unfold due; cbn; rewrite ?Hl, ?sum_list_with_app, ?length_app; cbn; try lia.
    unfold drain. destruct (_work_queue s) as [|[f|] q] eqn:E; [cbn; rewrite E; cbn; lia| |cbn; rewrite Hl; lia].
    destruct (cancel_fields f (set_queue q s)) as (-> & -> & _ & _ & -> & _). cbn. rewrite Hl. lia.
  - destruct Hw as [i s' Hi Hg|i f s' Hi Hr|i f Hi|i Hi].
    + unfold get_item in Hg. destruct (_work_queue s) as [|x q]; [done|]. injection Hg as <-.
      pose proof (weight_insert _ i _ (match x with Some f => Taken f | None => Exited end) Hi) as E.
      unfold due; cbn; rewrite length_insert. destruct x; cbn in *; lia.
    + unfold run_item in Hr. destruct (futures s !! f) as [[]|]; try done; injection Hr as <-; unfold due; cbn; rewrite length_insert.
      * pose proof (weight_insert _ i _ (Calling f) Hi) as E. cbn in E. lia.
      * pose proof (weight_insert _ i _ Finishing Hi) as E. cbn in E. lia.
    + pose proof (weight_insert _ i _ Finishing Hi) as E. unfold due; cbn in *; rewrite length_insert. lia.
    + pose proof (weight_insert _ i _ AtQueue Hi) as E. unfold due; cbn in *; rewrite length_insert. lia.
Qed.

Lemma own_steps_work n s s' : nsteps own_step n s s' -> (n + work s' <= work s)%nat.
Proof. induction 1 as [|n s t s' Hst%own_step_work _ IH]; lia. Qed.

Lemma locked_goes_on s : _shutdown_lock s <> None -> exists s', locked_step s s'.
Proof.
  destruct (_shutdown_lock s) as [[| | |[|n]]|] eqn:E; [| | | | |done]; intros _; eexists.
  - by apply thread_starts.
  - by apply item_put.
  - by apply drains.
  - by apply marked.
  - by apply marks.
Qed.

Lemma busy_goes_on s i w : inv s -> _threads s !! i = Some w -> busy w = true -> exists s', worker_step s s'.
Proof.
  intros Hi Hw Hb. pose proof (i_worker s Hi i w Hw) as Hok. destruct w as [|f|f| |]; try done; cbn in Hok.
  - destruct Hok as [E|E]; eexists; eapply runs; [done|unfold run_item; by rewrite E|done|unfold run_item; by rewrite E].
  - eexists. by eapply ends.
  - eexists. by eapply releases.
Qed.

Lemma count_none {A} (p : A -> bool) l : count p l = 0%nat <-> forall i x, l !! i = Some x -> p x = false.
Proof.
  induction l as [|y l IH]; cbn; [by split|]. split.
  - intros Hc [|i] x Hx; cbn in Hx; [injection Hx as ->; by destruct (p x)|].
    destruct (p y); [done|]. by apply (proj1 IH Hc i).
  - intros H. rewrite (H 0%nat y eq_refl). apply IH. intros i x Hx. exact (H (S i) x Hx).
Qed.

Lemma quiet_state s : inv s -> (forall t, ~ own_step s t) ->
  _shutdown_lock s = None /\ (forall i w, _threads s !! i = Some w -> w = AtQueue \/ w = Exited) /\
  (_work_queue s = [] \/ forall i w, _threads s !! i = Some w -> w = Exited).
Proof.
  intros Hi Hq.
  assert (_shutdown_lock s = None) as Hl.
  { destruct (_shutdown_lock s) eqn:El; [|done]. destruct (locked_goes_on s) as [t Ht]; [by rewrite El|]. destruct (Hq t). by left. }
  assert (forall i w, _threads s !! i = Some w -> w = AtQueue \/ w = Exited) as Hw.
  { intros i w Hw. destruct (busy w) eqn:Eb; [|destruct w; try done; auto].
    destruct (busy_goes_on s i w Hi Hw Eb) as [t Ht]. destruct (Hq t). by right. }
  split; [done|]. split; [done|]. destruct (_work_queue s) as [|x q] eqn:E; [by left|right].
  intros i w Hiw. destruct (Hw i w Hiw) as [->|]; [|done]. edestruct Hq. right. eapply gets; [done|]. unfold get_item. by rewrite E.
Qed.

Lemma all_exited s : (forall i w, _threads s !! i = Some w -> w = Exited) -> count alive (_threads s) = 0%nat.
Proof. intros H. apply count_none. intros i w Hw. by rewrite (H i w Hw). Qed.

Lemma quiet_queue s f : inv s -> _shutdown_lock s = None -> (forall i w, _threads s !! i = Some w -> w = Exited) -> Some f ∉ _work_queue s.
Proof.
  intros Hi Hl Hw Hf. pose proof (all_exited s Hw) as H0. destruct (_shutdown s) eqn:Es.
  - destruct (i_after s Hi Es) as (_ & (l & k & El & Hll) & _). rewrite El, elem_of_app in Hf. destruct Hf as [Hf|Hf%elem_of_replicate].
    + apply list_elem_of_fmap in Hf as (g & _ & Hg). destruct Hll as [H1 H2]; [by intros ->; apply not_elem_of_nil in Hg|].
      rewrite H1 in H0. by destruct (_threads s).
    + by destruct Hf as [? _].
  - destruct (i_before s Hi Es) as (_ & H1 & _ & _ & H2). cbv zeta in H2. assert (0 < items s)%nat; [|lia].
    unfold items. clear -Hf. induction (_work_queue s) as [|x q IH]; [by apply not_elem_of_nil in Hf|].
    apply elem_of_cons in Hf as [<-|Hf]; cbn; [lia|]. specialize (IH Hf). lia.
Qed.

Lemma quiet_served s : inv s -> (forall t, ~ own_step s t) ->
  (forall f x, futures s !! f = Some x -> x = Finished \/ x = Cancelled) /\
  (forall i w, _threads s !! i = Some w -> w = if _shutdown s then Exited else AtQueue).
Proof.
  intros Hi Hq. destruct (quiet_state s Hi Hq) as (Hl & Hw & Hqu). split.
  - intros f x Hf. destruct (open_future x) eqn:Eo; [|destruct x; try done; auto].
    exfalso. apply (i_open s Hi f x Hf) in Eo. unfold held in Eo. rewrite elem_of_app, !list_elem_of_omap in Eo.
    destruct Eo as [([g|] & Hg & [= ->])|(w & [i Hiw]%list_elem_of_lookup & Hwf)]; [|by destruct (Hw i w Hiw) as [->| ->]].
    destruct Hqu as [E|E]; [rewrite E in Hg; by apply not_elem_of_nil in Hg|by apply (quiet_queue s f Hi Hl E)].
  - intros i w Hiw. destruct (_shutdown s) eqn:Es.
    + destruct (Hw i w Hiw) as [->|]; [|done]. exfalso. destruct (i_after s Hi Es) as (_ & _ & Hc). unfold owed, markers in Hc. rewrite Hl in Hc.
      destruct Hqu as [E|E]; [|by specialize (E i _ Hiw)]. rewrite E in Hc. cbn in Hc.
      assert (count alive (_threads s) = 0%nat) as H0 by lia. rewrite count_none in H0. by specialize (H0 i _ Hiw).
    + destruct (Hw i w Hiw) as [| ->]; [done|]. exfalso. destruct (i_before s Hi Es) as (_ & Hc & _).
      pose proof (count_insert alive _ i _ AtQueue Hiw) as Hn. cbn in Hn.
      pose proof (count_le alive (<[i := AtQueue]> (_threads s))) as Hle. rewrite length_insert in Hle. lia.
Qed.

(** C39: submitted calls are served.  Provided that the calls return, the worker threads
    and the holder of the lock come to rest, whatever was submitted, cancelled or shut
    down before: they make at most [work] steps, and where they stop every future is
    finished or cancelled and every worker waits for an item, or has ended when the
    executor was shut down; also when threads could not be started. *)
Theorem executor_serves s :
  reachable s ->
  (forall n s', nsteps own_step n s s' -> (n <= work s)%nat) /\
  (forall s', rtc own_step s s' -> (forall t, ~ own_step s' t) ->
     (forall f x, futures s' !! f = Some x -> x = Finished \/ x = Cancelled) /\
     (forall i w, _threads s' !! i = Some w -> w = if _shutdown s' then Exited else AtQueue)).
Proof.
  intros Hs. split; [intros n s' Hn%own_steps_work; lia|]. intros s' Hr. apply quiet_served, reachable_inv.
  unfold reachable in *. etransitivity; [exact Hs|]. clear Hs. induction Hr as [|s t s' Hst _ IH]; [done|]. eapply rtc_l; [|exact IH]. by right.
Qed.

(** C40: the executor is bounded and does not waste workers.  There are never more than
    [max_workers] threads and running calls, no future is with two workers or queued
    twice; and while the executor is open and nobody submits, either all threads exist
    or every queued call has a waiting worker of its own. *)
Theorem executor_bounded s :
  reachable s ->
  (length (_threads s) <= max_workers)%nat /\
  (forall l, NoDup l -> (forall f, f ∈ l -> futures s !! f = Some Running) -> (length l <= max_workers)%nat) /\
  NoDup (held s) /\
  (_shutdown s = false -> _shutdown_lock s = None -> length (_threads s) = max_workers \/ (items s <= count at_queue (_threads s))%nat).
Proof.
  intros Hi%reachable_inv. destruct (i_max s Hi) as [Hm _]. split; [done|]. split; [|split; [apply (i_held s Hi)|]].
  - intros l Hl Hr. transitivity (length (_threads s)); [|done]. transitivity (length (omap wfuture (_threads s))).
    + apply submseteq_length, NoDup_submseteq; [done|]. intros f Hf%Hr. pose proof (i_open s Hi f Running Hf eq_refl) as Hh.
      unfold held in Hh. rewrite elem_of_app in Hh. destruct Hh as [Hh|]; [|done].
      apply list_elem_of_omap in Hh as ([g|] & Hg & [= ->]). destruct (i_queue s Hi f Hg); congruence.
    + clear. induction (_threads s) as [|w ws IH]; [done|]. cbn. destruct (wfuture w); cbn; lia.
  - intros Hs Hl. destruct (i_before s Hi Hs) as (_ & Ha & _ & _ & Hn). unfold putting in Hn. rewrite Hl in Hn.
    destruct (decide (length (_threads s) < max_workers)%nat) as [Hlt|]; [right|left; lia].
    assert (count alive (_threads s) = count busy (_threads s) + count at_queue (_threads s))%nat; [|lia].
    clear. induction (_threads s) as [|w ws IH]; [done|]. cbn. destruct w; cbn; lia.
Qed.

(** What stays so once [shutdown] has begun, with [n] futures and [m] threads. *)
Definition shut (b : bool) (n m : nat) (s : executor) : Prop :=
  _shutdown s = true /\ match _shutdown_lock s with Some Starting | Some Putting => False | _ => True end /\
  length (futures s) = n /\ length (_threads s) = m /\ (b = true -> _shutdown_lock s = Some Draining \/ items s = 0%nat).

Lemma shut_step b n m s s' : step s s' -> shut b n m s -> shut b n m s'.
Proof.
  unfold shut, items. intros Hst (H1 & H2 & H3 & H4 & H5). destruct Hst as [Hc|[Hl|Hw]].
  - destruct Hc as [Hl Hs|c Hl|f]; [congruence| |].
    + unfold shutdown. cbn. rewrite Hl in *. split; [done|]. split; [by destruct c|]. split; [done|]. split; [done|].
      intros Hb. destruct (H5 Hb) as [|H]; [done|by right].
    + by destruct (cancel_fields f s) as (-> & -> & _ & -> & -> & ->).
  - destruct Hl as [Hl|Hl|Hl|Hl|k Hl|Hl]; rewrite Hl in *; try done.
    + unfold drain. destruct (_work_queue s) as [|[f|] q] eqn:E.
      * cbn. split; [done|]. split; [done|]. split; [done|]. split; [done|]. intros _. right. by rewrite E.
      * destruct (cancel_fields f (set_queue q s)) as (-> & -> & _ & -> & -> & ->). cbn. rewrite Hl. by auto 10.
      * cbn. rewrite Hl. by auto 10.
    + cbn. rewrite count_app. cbn. split; [done|]. split; [done|]. split; [done|]. split; [done|].
      intros Hb. destruct (H5 Hb) as [|H]; [done|right; lia].
    + cbn. split; [done|]. split; [done|]. split; [done|]. split; [done|].
      intros Hb. destruct (H5 Hb) as [|H]; [done|by right].
  - destruct Hw as [i t Hi Hg|i f t Hi Hr|i f Hi|i Hi].
    + unfold get_item in Hg. destruct (_work_queue s) as [|x q] eqn:E; [done|]. injection Hg as <-. cbn. rewrite length_insert.
      split; [done|]. split; [done|]. split; [done|]. split; [done|]. intros Hb. destruct (H5 Hb) as [|H]; [by left|right]. cbn in H. lia.
    + unfold run_item in Hr. destruct (futures s !! f) as [[]|]; try done; injection Hr as <-; cbn; rewrite ?length_insert; done.
    + cbn. by rewrite !length_insert.
    + cbn. by rewrite length_insert.
Qed.

(** After [shutdown] has begun no call is accepted and no thread is started; once a
    [shutdown] with [cancel_futures] has given the lock back no call is queued. *)
Theorem executor_shutdown b s s' :
  reachable s -> _shutdown_lock s = None -> rtc step (shutdown b s) s' ->
  _shutdown s' = true /\ length (futures s') = length (futures s) /\ length (_threads s') = length (_threads s) /\
  (b = true -> _shutdown_lock s' = None -> items s' = 0%nat).
Proof.
  intros Hs Hl Hr. assert (shut b (length (futures s)) (length (_threads s)) s') as (H1 & _ & H3 & H4 & H5).
  - assert (shut b (length (futures s)) (length (_threads s)) (shutdown b s)) as H0.
    { split; [done|]. split; [by destruct b|]. split; [done|]. split; [done|]. intros ->. by left. }
    revert H0. induction Hr as [|t t' t'' Hst _ IH]; [done|]. intros H0. by apply IH, (shut_step _ _ _ t).
  - split; [done|]. split; [done|]. split; [done|]. intros Hb Hn. destruct (H5 Hb) as [E|]; [congruence|done].
Qed.

End Steps.

(** ** Examples

    Two calls on one worker; the second is cancelled while it is queued. *)
Definition two_calls : executor :=
  cancel 1 (put_item (submit 1 (put_item (start_thread (submit 1 started))))).
Definition taken : executor := from_option id started (get_item 0 two_calls).
Definition called : executor := from_option id started (run_item 0 0 taken).
Definition first_done : executor := release 0 (end_call 0 0 called).
Definition taken_again : executor := from_option id started (get_item 0 first_done).
Definition both_done : executor := release 0 (from_option id started (run_item 0 1 taken_again)).

Example both_done_state : both_done = mkExecutor [] [Finished; Cancelled] [AtQueue] 2 false None.
Proof. vm_compute. reflexivity. Qed.

Lemma two_calls_reachable : reachable 1 two_calls.
Proof.
  eapply rtc_l; [left; apply submit_begins; reflexivity|]. eapply rtc_l; [right; left; apply thread_starts; reflexivity|].
  eapply rtc_l; [right; left; apply item_put; reflexivity|]. eapply rtc_l; [left; apply submit_begins; reflexivity|].
  eapply rtc_l; [right; left; apply item_put; reflexivity|]. eapply rtc_l; [left; apply future_cancelled|]. apply rtc_refl.
Qed.

Lemma both_done_steps : rtc own_step two_calls both_done.
Proof.
  eapply rtc_l; [right; apply (gets _ 0 taken); reflexivity|]. eapply rtc_l; [right; apply (runs _ 0 0 called); reflexivity|].
  eapply rtc_l; [right; apply (ends _ 0 0); reflexivity|]. eapply rtc_l; [right; apply (releases _ 0); reflexivity|].
  eapply rtc_l; [right; apply (gets _ 0 taken_again); reflexivity|]. eapply rtc_l; [right; eapply (runs _ 0 1); reflexivity|].
  eapply rtc_l; [right; apply (releases _ 0); reflexivity|]. apply rtc_refl.
Qed.

Lemma both_done_rests t : ~ own_step both_done t.
Proof.
  rewrite both_done_state. intros [[]|Hw]; try done.
  destruct Hw as [i t Hi Hg|i f t Hi _|i f Hi|i Hi]; (destruct i as [|[|i]]; try discriminate Hi). discriminate Hg.
Qed.

Lemma executor_serves_witness :
  forallb (fun x => match x with Finished | Cancelled => true | _ => false end) (futures both_done) = true /\
  (forall f x, futures both_done !! f = Some x -> x = Finished \/ x = Cancelled).
Proof.
  split; [vm_compute; reflexivity|].
  exact (proj1 (proj2 (executor_serves 1 ltac:(lia) two_calls two_calls_reachable) both_done both_done_steps both_done_rests)).
Defined.

Lemma executor_bounded_witness : (length (_threads two_calls) <= 1)%nat /\ items two_calls = 2%nat.
Proof. split; [exact (proj1 (executor_bounded 1 ltac:(lia) two_calls two_calls_reachable))|vm_compute; reflexivity]. Defined.
